(* ===== verification/_CoqProject ===== *)
-Q . S2P
Prelude.v
RustStd.v
Pattern.v
Headers.v
FixedHeaders.v
TypedText.v
TypedHeaders.v
FixedBuf.v
Queue.v
Log.v
Memory.v
MemoryBroker.v
FixedBus.v
MemorySub.v
MemoryFlow.v
HeapBus.v
Outcome.v
PublishFailure.v
Settle.v
Rings.v
Copies.v
CopyProtocol.v
Wheel.v
Hooks.v
Dispatch.v
Batch.v
FixedFailure.v
Loop.v
Filling.v
Pool.v
BatchPool.v
Group.v
AppBus.v
EmbassyApp.v
Lifecycle.v
Health.v
Attribution.v
Coordinator.v
Quiescence.v
VirtualClock.v
CompioCores.v
StopSignal.v
PollStats.v
Replies.v
ReplyTxn.v
AsyncApi.v
