(* ===== verification/Prelude.v ===== *)
(** * RustStream: the verified core

    RustStream is a messaging framework: a broker's subscriptions yield deliveries, the runtime
    hands each one to a handler, and the handler's outcome settles it (ack, requeue, drop, retry
    after a delay, dead letter), publishing copies where the broker cannot move the delivery itself.
    This development models the parts of it that carry state of their own, from the data the
    messages are made of to the threads that handle them, and proves what each part promises.
    Paths below are under [src/crates].

    ** The parts and how they interact

    - [Prelude], [RustStd]: results with [?], lists, automation; unsigned integers at their width,
      [str::split], decimal [Display] and [FromStr], ASCII case, UTF-8.
    - [Pattern] (memory/src/pattern.rs): subscription patterns, their matching and specificity, and
      which groups of subscribers a publish reaches.  [Memory] routes through it.
    - [Headers] (core/src/headers/map.rs), [FixedHeaders] (headers/fixed.rs), [FixedBuf]
      (core/src/fixed_buf.rs): the message's headers on the heap and in fixed storage, and the
      payload buffer.  The class [HeaderStore] is what the runtime relies on; both header maps are
      instances, and [Settle] counts its retries through it.
    - [Queue]: the interfaces of the queues and wakers of other crates, with their documented laws.
    - [TypedText], [TypedHeaders] (core/src/typed_headers): the texts a header value is written as, and
      the serializer and deserializer that write a contract into either header map and read it back.
    - [FixedBus] (memory/src/local/fixed), [HeapBus] (memory/src/local/heap): the in-process buses,
      one in a static over fixed storage and one on the heap with a lock per subscription.
    - [Log] (memory/src/log.rs), [Memory] (memory/src/lib.rs, broker.rs, capability/): the memory
      broker's retained log, registry, publish, transactions, requests and lifecycle;
      [MemoryBroker] holds the theorems about them.
    - [MemorySub] (memory/src/subscriber.rs, capability/seek.rs): polls, batches, settlement, delayed
      redelivery and seeking; [MemoryFlow] the broker, discarding or retaining, with everything a
      delivery can be in and everything its clients hold (subscriptions with their seeks, publishers,
      transactions, requests), as a transition system.
    - [Outcome] (runtime/src/handler.rs, failure.rs, core/src/subscription/retry.rs),
      [PublishFailure] (runtime/src/publish_failure.rs): what a handler answers with, and what
      becomes of a publish that fails.
    - [Settle] (runtime/src/dispatch/settle.rs, settle/keep.rs): the settlement of a delivery by its
      outcome, over any transport, publisher and store of kept copies.
    - [Rings] (runtime/src/dispatch/rings.rs): the hand-off of deliveries to [threads(n)], the loop
      and the threads interleaved one shared access at a time.
    - [Copies] (runtime-embassy/src/copies.rs, clock.rs): the store a settlement leaves its copies in,
      with the driver that publishes each when it is due; [CopyProtocol] plays the calls [Settle]
      makes on a store, in order, on this one.
    - [Wheel] (runtime-compio/src/time/wheel.rs, time.rs): the timer wheel, its sleeps and its driver,
      from the spawn of the driver, before the guard it makes on its first poll.
    - [Hooks] (runtime/src/context.rs, registrations.rs): the follow-ups and reactions a handler
      registers, behind the interface [HookStore] that the vector and the fixed table implement.
    - [Dispatch] (runtime/src/dispatch.rs): one delivery from its handler's end, or panic, to its last
      follow-up, over [Settle] and any lawful [HookStore].
    - [Batch] (runtime/src/batch.rs, batch/): a batch from its decoding on each of its three lanes to
      the settlement of every element, over [Settle] and [Hooks].
    - [Loop] (runtime/src/dispatch.rs, coop.rs, router/fold.rs): the loops of an embedded app in their
      one task, over any broker that keeps the contract of the class [Source].
    - [AppBus]: an app and a worker group over the fixed bus, which keeps the contract and withdraws
      nothing that waits, so what [Loop] and [Group] prove holds of the pair with no hypothesis on
      the broker.
    - [Group] (runtime-embassy/src/mailbox.rs, workers.rs): the worker groups of the embassy runner, one
      task over a [Source], with the gates of the join, the loop and the workers.
    - [Filling] (runtime-tokio/src/buffered.rs): batches assembled on the client from a [Source], with
      their timer.
    - [Pool] (runtime-tokio/src/dispatch/pool.rs): the worker pool of the tokio runner, its loop and
      its workers interleaved one channel operation at a time.

    - [BatchPool] (runtime-tokio/src/dispatch/batch_pool.rs): the pool of batch workers with its free
      list and inboxes, interleaved by single loads, stores, pushes and permits.
    - [FixedFailure] (runtime/src/publish_failure/fixed.rs, batch/, copies.rs): what [PublishFailure],
      [Batch] and the hand-off of copies become in a build without a heap, and the one fan of a mount
      that tells the outcomes of a batch.
    - [Replies], [ReplyTxn] (runtime/src/publish/): the publication of a handler's replies, one by one,
      as a batch and under a broker's transaction.
    - [Lifecycle], [Health] (runtime-tokio/src/app/run.rs, teardown.rs, health.rs, shutdown.rs): the
      startup with its unwinding and the resumable teardown of a tokio service, and the health a
      probe reads.  [EmbassyApp] (runtime-embassy/src/app.rs, mounts.rs, control.rs, host/): the whole
      life of an embedded app, the control it shares with the device, and the hosts of its
      continuations; its loops are those of [Loop].
    - [CompioCores] (runtime-compio/src/cores.rs, dispatch/cores.rs): the plan of the cores of a
      thread-per-core service, and the count of its live workers.  [StopSignal] (runtime-compio/src/stop.rs): the
      signal every core's loops stop on.
    - [Attribution], [Coordinator] (runtime/src/testing), [Quiescence] (runtime-tokio/src/follow.rs,
      testing/src/harness/busy.rs), [VirtualClock] (runtime-compio/src/virtual_clock.rs): what the test
      harness records, waits for and parks on, and the clock it moves.
    - [PollStats] (runtime/src/poll_diagnostics.rs): the samples of a subscription's poll times, recorded
      by all its workers at once, and the warning they raise.
    - [AsyncApi] (asyncapi/src): the document generated from a service's registrations.

    A file has a Module of the component's name; its definitions keep the names of the code's
    functions and types (a type's [new] carries the type's name), its Records are the code's
    structs, and state is passed explicitly.  A method that takes [&mut self] returns the new
    state; a call that can panic returns an option, and that it does not panic is a theorem.

    ** What the theorems show

    - Deliveries are not lost or doubled: [MemoryFlow.only_settlement_consumes] (seeks and [into_raw]
      accounted for),
      [Settle.settlement_is_exact], the fanouts of the three buses (all or nothing, exactly the
      matching subscriptions, in order), [Rings.rings_hand_over_each_once],
      [Copies.kept_copies_leave_once], [Batch.batch_settles_each_once],
      [BatchPool.batch_pool_hands_over_each_once].
    - One delivery's follow-ups are exactly those that were due ([Dispatch.dispatch_is_exact]), and
      the [.error] of a uniform outcome runs once for its batch ([Batch.uniform_error_runs_once]).
    - Nobody sleeps through work: [FixedBus.fixed_no_lost_wakeup], [Rings.rings_lose_no_wakeup] and
      [Rings.rings_never_deadlock], [Copies.driver_never_oversleeps], [Wheel.no_sleep_is_lost] and
      [Wheel.due_sleeps_end], over the fixed bus [AppBus.bus_app_sleeps_only_when_idle] and
      [AppBus.bus_group_sleeps_only_when_idle], over a broker that withdraws nothing that waits
      [Loop.app_rests_asleep] and [Group.group_rests_asleep], [Filling.partial_batch_closes_in_time],
      [Pool.pool_waits_only_for_its_stream], for every interleaving.  Where the code does not keep
      this up: [Loop.withdrawn_delivery_stalls], [Pool.pool_worker_can_vanish],
      [Wheel.unpolled_driver_strands_sleeps].
      A batch is never stranded in the fan of its mount ([FixedFailure.Fan.fan_never_strands_a_batch]),
      an embedded app never sleeps through a stop ([EmbassyApp.App.app_never_sleeps_through_a_stop]),
      and the harness never parks over a runnable task ([Quiescence.Follow.parked_harness_misses_no_wake]).
    - A service starts and stops as it says: a start that fails closes what it connected
      ([start_unwinds], [tree_starts_as_the_list]), a teardown dropped and run again does each part
      once ([teardown_resumes]) - both with the panic of a timeout past the last instant as a branch -, an embedded app lives its whole life ([app_lives_its_whole_life]), the
      health tells the outcome ([health_tells_the_outcome]), and the wait for the workers of a compio
      runner is right and ends ([workers_gone_is_true], [workers_gone_ends]).
    - Replies: one that is lost is told to [.error] or warned about ([lost_replies_are_told]), and a
      batch under a transaction is atomic ([transactional_batches_are_atomic]).
    - Typed headers: what is written is read back, but for a [None] over a header already there, which
      leaves it ([typed_headers_round_trip]), or, over fixed
      storage, answered [Full] ([typed_fixed_headers_round_trip_or_full]).
    - The harness: options go to the publish they were given with, where records come in turn
      ([attribution_is_sound]), and a
      settle returns only when nothing is left ([settle_is_exact]), and a sleep on the clock it moves
      ends at its deadline ([virtual_sleeps_end_on_time]).
    - Poll diagnostics: a crossing is warned about once ([crossing_warns_once]), the average stays
      within the samples ([average_stays_within_samples]) and the histogram counts each once
      ([histogram_is_exact]).
    - The generated document: its references resolve ([document_references_resolve]), no operation
      overwrites another ([every_registration_is_documented]), and a shared component keeps the first
      word of its contributors ([components_keep_the_first_word]).
    - What should end ends ([BatchPool.batch_pool_shuts_down], [Copies.driver_ends_with_the_last_copy], [Loop.app_poll_returns]) and memory stays bounded
      ([Wheel.wheel_bounds_its_memory]).
    - Nothing panics or overflows: the header and buffer operations, the buses' counts of
      deliveries in hand, [heap_bus_never_panics].
    - Order: the queues of the buses, the log's positions and replays ([seek_replays_the_log],
      [seek_back_redelivers]), a key's deliveries on its thread or worker ([keyed_rings_keep_order],
      [pool_hands_over_in_order], [group_hands_over_in_order]), a stream's in its batches ([batches_partition_the_stream]).
    - Retries: the cap bounds the attempts of a message for every route of its copies
      ([retry_attempts_are_capped]), each told [nack(false)], an outcome's reaction runs once ([reaction_runs_once]), and
      a copy left in the embassy store leaves it as prepared ([settlement_keeps_its_copy]).
    - Refinements: the fixed and heap header maps to finite maps, the token matcher to its
      declarative reading, the harness's routing rule to the broker's ([harness_routes_agree]), the
      fixed table of registrations to the vector ([fixed_table_stands_in_for_the_vector]), and a
      uniform outcome to the elements it is lowered to ([lowering_is_faithful]); and skipping an idle
      subscription to polling it ([gating_is_transparent]).

    ** Fuel and bounds

    Recursions that are loops in the code take fuel, and each is proved to have enough of it: a poll,
    a drain and a batch take the number of waiting items, an eviction the number of retained
    entries, a turn of the timer wheel the entries of its heap, the attempts of a message its cap, a
    poll of a loop twice the bound of its stream, a fill of a batch its size.
    Widths are written out where the code can reach them: [u16] offsets in [FixedHeaders], [u64]
    retry counts in [Settle], the [u64] ticks of a deadline in [Copies]; positions and counts of
    items held in memory are [nat].

    ** What is a parameter

    Code of other crates is an argument with named laws: queues and channels, wakers, the hash of a
    partition key, and, in [Settle], the transport's answers, the retry publisher and the copy
    store.  Each law class has an instance, used by the witnesses.  A handler, a continuation and an
    error are identities or environment choices.  In [Rings] the [SeqCst] fences justify sequentially
    consistent steps, and a scan's look at a ring (gone, then full) is one step, which is one of the
    orders the two loads can have since only the loop fills the ring.

    The printing and parsing of floats and the wording of serde's errors ([TypedHeaders]); codecs,
    transforms, publish layers and the publishers themselves ([Replies]); what brokers, hooks and
    loops of a service do ([Lifecycle], [EmbassyApp]); a broker's routing in the harness's settle
    ([Coordinator]); the event listener, the channels and the notification of other crates, as they
    are documented ([CompioCores], [Quiescence]); the JSON parser and the Unicode tables ([AsyncApi]).

    ** Where the code falls short of its word

    A lemma shows each: among them [retry_count_overflow], [pool_worker_can_vanish],
    [withdrawn_delivery_stalls], [batch_deadline_overflow], [shutdown_timeout_overflow],
    [unpolled_driver_strands_sleeps], [abandoned_transaction_wedges], [interrupted_record_misattributes], [a_loop_settles_early],
    [untagged_contract_is_write_only], [stopping_resolves_on_shutdown], [lease_outlives_its_holders],
    [count_can_wrap], [sleep_of_a_gone_lease_ends_early], [slash_name_dangles] and
    [scheme_keys_collide].

    ** What is not modelled, and why

    The [testing] feature's hooks in the brokers (the production build is modelled).  The builders,
    routers, settings and macros: their content is in types the Rust compiler checks, or is code they
    generate.  Codecs, observability, the command line and the rendering of the documents: glue over
    other crates.  The runners' calls into tokio, compio and embassy (spawning, timers, signals), and
    the start of the compio runner, which follows the tokio one.  The conformance suite and the
    assertions of the harness, which are tests. *)
From stdpp Require Export base tactics list numbers option strings gmap sorting.

#[global] Set Default Goal Selector "!".
#[export] Set Warnings "-clear-no-such-hyp".

(** ** Results: Rust's [Result<T, E>], with [?] as bind *)

Declare Scope rust_scope.
Delimit Scope rust_scope with rust.

Inductive result (A E : Type) : Type :=
  | Ok (a : A)
  | Err (e : E).
Arguments Ok {A E} a.
Arguments Err {A E} e.

#[export] Instance result_eq_dec {A E} `{EqDecision A, EqDecision E} : EqDecision (result A E).
Proof. solve_decision. Defined.

Definition rbind {A B E} (r : result A E) (k : A -> result B E) : result B E :=
  match r with
  | Ok a => k a
  | Err e => Err e
  end.

Definition map_err {A E F} (f : E -> F) (r : result A E) : result A F :=
  match r with
  | Ok a => Ok a
  | Err e => Err (f e)
  end.

Definition is_ok {A E} (r : result A E) : bool :=
  match r with
  | Ok _ => true
  | Err _ => false
  end.

Notation "'let?' x ':=' r 'in' k" := (rbind r (fun x => k))
  (at level 10, x pattern, r at level 100, k at level 200) : rust_scope.
Open Scope rust_scope.

Lemma rbind_ok {A B E} (r : result A E) (k : A -> result B E) (b : B) :
  rbind r k = Ok b <-> exists a, r = Ok a /\ k a = Ok b.
Proof. destruct r; simpl; split; [by eauto|by intros (? & [= ->] & ?)|done|by intros (? & ? & ?)]. Qed.

(** ** Automation *)

(** Comparisons stay folded under [simpl]. *)
Arguments Nat.ltb : simpl never.
Arguments Nat.leb : simpl never.
Arguments N.ltb : simpl never.
Arguments N.leb : simpl never.

Create HintDb stream discriminated.
Create Rewrite HintDb stream.

(** Case analysis on the scrutinee of a [match] in the goal, or in a hypothesis. *)
Ltac case_goal :=
  match goal with
  | |- context [match ?x with _ => _ end] => destruct x eqn:?
  end.

Ltac case_in H :=
  match type of H with
  | context [match ?x with _ => _ end] => destruct x eqn:?
  end.

(** Every hypothesis that says a fallible call returned a value, split and substituted. *)
Ltac inv_ok :=
  repeat match goal with
  | H : Ok _ = Ok _ |- _ => injection H as H; subst
  | H : Err _ = Err _ |- _ => injection H as H; subst
  | H : Ok _ = Err _ |- _ => discriminate H
  | H : Err _ = Ok _ |- _ => discriminate H
  | H : Some _ = Some _ |- _ => injection H as H; subst
  | H : rbind _ _ = Ok _ |- _ => apply rbind_ok in H as (? & ? & ?)
  end.

(** Boolean facts to propositions, the way the case splits leave them. *)
Ltac bool_prop :=
  repeat match goal with
  | H : andb _ _ = true |- _ => apply andb_true_iff in H as [??]
  | H : orb _ _ = false |- _ => apply orb_false_iff in H as [??]
  | H : negb _ = true |- _ => apply negb_true_iff in H
  | H : negb _ = false |- _ => apply negb_false_iff in H
  | H : bool_decide _ = true |- _ => apply bool_decide_eq_true in H
  | H : bool_decide _ = false |- _ => apply bool_decide_eq_false in H
  | H : Nat.ltb _ _ = true |- _ => apply Nat.ltb_lt in H
  | H : Nat.ltb _ _ = false |- _ => apply Nat.ltb_ge in H
  | H : Nat.leb _ _ = true |- _ => apply Nat.leb_le in H
  | H : Nat.leb _ _ = false |- _ => apply Nat.leb_gt in H
  | H : N.ltb _ _ = true |- _ => apply N.ltb_lt in H
  | H : N.ltb _ _ = false |- _ => apply N.ltb_ge in H
  | H : N.leb _ _ = true |- _ => apply N.leb_le in H
  | H : N.leb _ _ = false |- _ => apply N.leb_gt in H
  | H : N.eqb _ _ = true |- _ => apply N.eqb_eq in H
  | H : N.eqb _ _ = false |- _ => apply N.eqb_neq in H
  end.

(** ** Lists *)

Section lists.
Context {A : Type}.
Implicit Types (l : list A) (f : A -> bool).

(** [Iterator::position]. *)
Fixpoint position f l : option nat :=
  match l with
  | [] => None
  | x :: rest => if f x then Some 0 else S <$> position f rest
  end.

(** [Iterator::max_by]: the last of the maximal elements. *)
Definition max_by_step (cmp : A -> A -> comparison) (best x : A) : A :=
  match cmp best x with
  | Gt => best
  | _ => x
  end.
Definition max_by (cmp : A -> A -> comparison) l : option A :=
  match l with
  | [] => None
  | x :: rest => Some (fold_left (max_by_step cmp) rest x)
  end.

Lemma position_Some f l i :
  position f l = Some i ->
  exists x, l !! i = Some x /\ f x = true /\
            forall j y, j < i -> l !! j = Some y -> f y = false.
Proof.
  revert i. induction l as [|a l IH]; intros i; simpl; [done|].
  destruct (f a) eqn:Hf.
  - intros [= <-]. exists a. split_and!; [done|done|]. intros; lia.
  - intros (i' & Hp & ->)%fmap_Some. destruct (IH _ Hp) as (x & Hx & Hfx & Hlt).
    exists x. split_and!; [done|done|]. intros [|j] y Hj; simpl; [naive_solver|].
    intros; eapply Hlt; [|done]; lia.
Qed.

Lemma position_None f l : position f l = None <-> forall x, x ∈ l -> f x = false.
Proof.
  induction l as [|a l IH]; simpl.
  - split; [intros _ x Hx; inversion Hx|done].
  - destruct (f a) eqn:Hf.
    + split; [done|]. intros H. rewrite (H a) in Hf; [done|left].
    + split.
      * intros H%fmap_None x [->|?]%elem_of_cons; [done|]. by apply IH.
      * intros H. apply fmap_None, IH. intros x Hx. apply H. by right.
Qed.

Lemma max_by_fold_elem cmp l x :
  fold_left (max_by_step cmp) l x = x \/ fold_left (max_by_step cmp) l x ∈ l.
Proof.
  revert x. induction l as [|a l IH]; intros x; simpl; [by left|].
  destruct (IH (max_by_step cmp x a)) as [->|?]; [|by right; right].
  unfold max_by_step. destruct (cmp x a); [right; left|right; left|by left].
Qed.

Lemma max_by_elem cmp l m : max_by cmp l = Some m -> m ∈ l.
Proof.
  destruct l as [|a l]; [done|]. intros [= <-].
  destruct (max_by_fold_elem cmp l a) as [->|?]; [left|by right].
Qed.

Lemma max_by_None cmp l : max_by cmp l = None <-> l = [].
Proof. destruct l; naive_solver. Qed.

(** Where the comparison is a total preorder, nothing beats what [max_by] returns. *)
Lemma max_by_max cmp l m :
  (forall x y, cmp y x = CompOpp (cmp x y)) ->
  (forall x y z, cmp x y <> Gt -> cmp y z <> Gt -> cmp x z <> Gt) ->
  max_by cmp l = Some m -> forall x, x ∈ l -> cmp x m <> Gt.
Proof.
  intros Hop Htr. destruct l as [|a l]; [done|]. intros [= <-].
  assert (Hrefl : forall x, cmp x x <> Gt).
  { intros x. specialize (Hop x x). destruct (cmp x x); naive_solver. }
  assert (Hstep : forall x y, cmp x (max_by_step cmp x y) <> Gt /\
                              cmp y (max_by_step cmp x y) <> Gt).
  { intros x y. unfold max_by_step. specialize (Hop x y).
    destruct (cmp x y) eqn:E; simpl in Hop; rewrite ?E; split; auto; congruence. }
  revert a. induction l as [|b l IH]; intros a x; simpl.
  - intros ->%list_elem_of_singleton. apply Hrefl.
  - intros [->|[->|Hin]%elem_of_cons]%elem_of_cons.
    + eapply Htr; [apply (proj1 (Hstep a b))|]. apply IH. left.
    + eapply Htr; [apply (proj2 (Hstep a b))|]. apply IH. left.
    + apply IH. by right.
Qed.

End lists.

Section bool_lists.
Context {A : Type}.
Implicit Types (l : list A) (f : A -> bool).

Lemma elem_of_filterb f l x : x ∈ List.filter f l <-> f x = true /\ x ∈ l.
Proof. rewrite !list_elem_of_In, List.filter_In. tauto. Qed.

Lemma existsb_elem f l : existsb f l = true <-> exists x, x ∈ l /\ f x = true.
Proof. rewrite List.existsb_exists. by setoid_rewrite list_elem_of_In. Qed.

Lemma forallb_elem f l : forallb f l = true <-> forall x, x ∈ l -> f x = true.
Proof. rewrite List.forallb_forall. by setoid_rewrite list_elem_of_In. Qed.

Lemma existsb_false f l : existsb f l = false <-> forall x, x ∈ l -> f x = false.
Proof.
  rewrite <- not_true_iff_false, existsb_elem. split.
  - intros H x Hx. apply not_true_iff_false. eauto.
  - intros H (x & Hx & E). rewrite H in E; done.
Qed.

Lemma filterb_all f l : (forall x, x ∈ l -> f x = true) -> List.filter f l = l.
Proof.
  induction l as [|a l IH]; intros H; simpl; [done|].
  rewrite (H a) by left. f_equal. apply IH. intros x Hx. apply H. by right.
Qed.

Lemma filterb_none f l : (forall x, x ∈ l -> f x = false) -> List.filter f l = [].
Proof.
  induction l as [|a l IH]; intros H; simpl; [done|].
  rewrite (H a) by left. apply IH. intros x Hx. apply H. by right.
Qed.

(** [Iterator::enumerate]. *)
Definition enumerate l : list (nat * A) := imap (fun i x => (i, x)) l.

Lemma elem_of_enumerate l i x : (i, x) ∈ enumerate l <-> l !! i = Some x.
Proof.
  unfold enumerate. rewrite elem_of_lookup_imap. naive_solver.
Qed.
End bool_lists.

Lemma lookup_delete_split {A} (l : list A) i x :
  l !! i = Some x -> exists l1 l2, l = l1 ++ x :: l2 /\ delete i l = l1 ++ l2 /\ i = length l1.
Proof.
  intros Hi. exists (take i l), (drop (S i) l). split_and!.
  - symmetry. by apply take_drop_middle.
  - apply delete_take_drop.
  - rewrite length_take. apply lookup_lt_Some in Hi. lia.
Qed.

(** [iter().filter(f).count()]. *)
Section count.
Context {A : Type}.
Implicit Types (f g : A -> bool) (l : list A).

Definition count f l : nat := length (List.filter f l).

Lemma count_app f l k : count f (l ++ k) = count f l + count f k.
Proof. unfold count. by rewrite List.filter_app, length_app. Qed.

Lemma count_cons f x l : count f (x :: l) = (if f x then 1 else 0) + count f l.
Proof. unfold count. simpl. by destruct (f x). Qed.

Lemma count_nil f : count f [] = 0.
Proof. done. Qed.

Lemma count_delete f l i x :
  l !! i = Some x -> count f l = (if f x then 1 else 0) + count f (delete i l).
Proof.
  intros (l1 & l2 & -> & -> & _)%lookup_delete_split. rewrite !count_app, count_cons. lia.
Qed.

Lemma count_insert f l i x y :
  l !! i = Some x ->
  (if f y then 1 else 0) + count f l = (if f x then 1 else 0) + count f (<[i := y]> l).
Proof.
  intros Hi. pose proof (lookup_delete_split _ _ _ Hi) as (l1 & l2 & -> & _ & ->).
  rewrite insert_app_r_alt by lia. rewrite Nat.sub_diag. simpl. rewrite !count_app, !count_cons. lia.
Qed.

Lemma count_le f g l : (forall x, f x = true -> g x = true) -> count f l <= count g l.
Proof.
  intros H. induction l as [|x l IH]; [done|]. rewrite !count_cons.
  destruct (f x) eqn:E; [rewrite (H x E)|]; destruct (g x); lia.
Qed.

Lemma count_zero f l : (forall x, x ∈ l -> f x = false) -> count f l = 0.
Proof. intros H. unfold count. by rewrite filterb_none. Qed.

#[export] Instance count_proper f : Proper (Permutation ==> eq) (count f).
Proof. induction 1; rewrite ?count_cons; try lia; congruence. Qed.

Lemma count_agree f g l : (forall x, x ∈ l -> f x = g x) -> count f l = count g l.
Proof.
  induction l as [|x l IH]; intros Hfg; [done|]. rewrite !count_cons, (Hfg x) by apply list_elem_of_here.
  rewrite IH; [done|]. intros y Hy. apply Hfg. by apply list_elem_of_further.
Qed.

Lemma count_pos f l x : x ∈ l -> f x = true -> 0 < count f l.
Proof.
  intros (l1 & l2 & ->)%list_elem_of_split Hf. rewrite count_app, count_cons, Hf. lia.
Qed.
End count.

(** Queues of indices. *)
Lemma count_snoc i j (l : list nat) : count (Nat.eqb i) (l ++ [j]) = count (Nat.eqb i) l + if decide (i = j) then 1 else 0.
Proof.
  rewrite count_app, count_cons, count_nil. destruct (decide (i = j)) as [->|Hne]; [by rewrite Nat.eqb_refl|].
  by rewrite (proj2 (Nat.eqb_neq i j)).
Qed.

Lemma count_seq i n : count (Nat.eqb i) (seq 0 n) = if decide (i < n) then 1 else 0.
Proof.
  induction n as [|n IH]; [done|]. rewrite seq_S, count_snoc, IH. simpl.
  destruct (decide (i < n)), (decide (i = n)), (decide (i < S n)); lia.
Qed.

(** Indices below [n], none twice, [i] absent: there is room for [i] among [n]. *)
Lemma indices_room (l : list nat) n i :
  Forall (fun j => j < n) l -> (forall j, j < n -> count (Nat.eqb j) l <= 1) -> i < n -> count (Nat.eqb i) l = 0 ->
  length l < n.
Proof.
  intros Hall Hone Hi Hz. rewrite Forall_forall in Hall.
  assert (Hle : forall j, length (List.filter (Nat.eqb j) l) <= 1).
  { intros j. destruct (decide (j < n)) as [Hj|Hj]; [by apply Hone|].
    rewrite filterb_none; [simpl; lia|]. intros x Hx%Hall. apply Nat.eqb_neq. lia. }
  assert (Hnd : NoDup (i :: l)).
  { apply NoDup_cons. split; [intros Hin; pose proof (count_pos (Nat.eqb i) l i Hin (Nat.eqb_refl i)); lia|].
    clear -Hle. induction l as [|x l IH]; [by apply NoDup_nil|]. apply NoDup_cons. split.
    - intros Hin. pose proof (count_pos (Nat.eqb x) l x Hin (Nat.eqb_refl x)) as Hp. specialize (Hle x).
      simpl in Hle. rewrite Nat.eqb_refl in Hle. unfold count in Hp. simpl in Hle. lia.
    - apply IH. intros j. specialize (Hle j). simpl in Hle. destruct (j =? x); simpl in Hle; lia. }
  assert (Hsub : i :: l ⊆+ seq 0 n).
  { apply NoDup_submseteq; [done|]. intros x [->|Hx]%elem_of_cons; apply elem_of_seq; [lia|]. specialize (Hall x Hx). lia. }
  apply submseteq_length in Hsub. rewrite length_seq in Hsub. simpl in Hsub. lia.
Qed.

(** Concatenations without duplicates. *)
Section concat.
Context {A B : Type}.
Implicit Types (ls : list (list A)) (f : B -> list A).

Lemma elem_of_concat (x : A) ls : x ∈ List.concat ls <-> exists l, l ∈ ls /\ x ∈ l.
Proof.
  rewrite list_elem_of_In, List.in_concat. setoid_rewrite list_elem_of_In. done.
Qed.

Lemma NoDup_concat_member ls l : NoDup (List.concat ls) -> l ∈ ls -> NoDup l.
Proof.
  intros Hn (l1 & l2 & ->)%list_elem_of_split. rewrite List.concat_app in Hn. simpl in Hn.
  apply NoDup_app in Hn as (_ & _ & Hn). by apply NoDup_app in Hn as (? & _).
Qed.

Lemma NoDup_concat_filter (p : B -> bool) f (l : list B) :
  NoDup (List.concat (f <$> l)) -> NoDup (List.concat (f <$> List.filter p l)).
Proof.
  induction l as [|x l IH]; simpl; [done|]. intros (Hx & Hdis & Hl)%NoDup_app.
  destruct (p x); simpl; [|by apply IH]. apply NoDup_app. split_and!; [done| |by apply IH].
  intros a Ha Hin. apply (Hdis a Ha). apply elem_of_concat in Hin as (k & Hk & Hak).
  apply list_elem_of_fmap in Hk as (y & -> & Hy). apply elem_of_filterb in Hy as [_ Hy].
  apply elem_of_concat. exists (f y). split; [|done]. apply list_elem_of_fmap. by exists y.
Qed.

Lemma NoDup_concat_drop n ls : NoDup (List.concat ls) -> NoDup (List.concat (drop n ls)).
Proof.
  rewrite <- (take_drop n ls) at 1. rewrite List.concat_app. by intros (_ & _ & ?)%NoDup_app.
Qed.
End concat.

Lemma concat_permutation {A} (ls ks : list (list A)) :
  ls ≡ₚ ks -> List.concat ls ≡ₚ List.concat ks.
Proof.
  induction 1 as [|x l k _ IH|x y l|l k m _ IH1 _ IH2]; simpl; [done|by rewrite IH| |by rewrite IH1].
  by rewrite !app_assoc, (Permutation_app_comm x y).
Qed.

(** Sums over a list updated at an index. *)
Lemma sum_list_insert {A} (f : A -> nat) l i x y :
  l !! i = Some x -> sum_list_with f (<[i := y]> l) + f x = sum_list_with f l + f y.
Proof.
  revert i. induction l as [|z l IH]; intros [|i] Hi; simpl in *; try done.
  - injection Hi as ->. lia.
  - specialize (IH i Hi). lia.
Qed.
Lemma sum_list_delete {A} (f : A -> nat) l i x :
  l !! i = Some x -> f x + sum_list_with f (delete i l) = sum_list_with f l.
Proof.
  revert i. induction l as [|z l IH]; intros [|i] Hi; simpl in *; try done.
  - by injection Hi as ->.
  - specialize (IH i Hi). lia.
Qed.
Lemma sum_list_zero {A} (f : A -> nat) l : (forall x, x ∈ l -> f x = 0) -> sum_list_with f l = 0.
Proof.
  induction l as [|x l IH]; intros Hf; [done|]. simpl. rewrite (Hf x) by apply list_elem_of_here.
  apply IH. intros y Hy. apply Hf. by apply list_elem_of_further.
Qed.
