(* ===== verification/RustStd.v ===== *)
(** * The parts of Rust's [core] and [std] the modelled code calls

    Unsigned integers at their width ([N] with the saturating, wrapping and checked operations
    written out), [str::split] on one ASCII byte, decimal [Display] and [FromStr] of [u64], ASCII
    case folding, and UTF-8 validation.  A [str] is its UTF-8 bytes ([string]), a [Bytes] or
    [[u8]] is a list of bytes. *)
From Stdlib Require Import Ascii String.
From S2P Require Import Prelude.

(** ** The answer of a stream's poll: an item, the end, or nothing yet *)

Inductive poll (A : Type) := Ready (x : option A) | Pending.
Arguments Ready {A} x.
Arguments Pending {A}.

(** ** Machine integers *)

Open Scope N_scope.

Definition u16_max : N := 65535.
Definition u32_max : N := 4294967295.
Definition u64_max : N := 18446744073709551615.

Definition checked_add (max a b : N) : option N :=
  if a + b <=? max then Some (a + b) else None.
Definition saturating_add (max a b : N) : N := N.min (a + b) max.
Definition wrapping_add (max a b : N) : N := (a + b) mod (max + 1).
Definition saturating_sub (a b : N) : N := a - b.

(** [a + b] in Rust: with overflow checks (the debug profile) an overflow panics, which is [None];
    without them (release) it wraps. *)
Definition plain_add (overflow_checks : bool) (max a b : N) : option N :=
  if overflow_checks then checked_add max a b else Some (wrapping_add max a b).

Lemma checked_add_Some max a b c :
  checked_add max a b = Some c <-> c = a + b /\ a + b <= max.
Proof.
  unfold checked_add. destruct (N.leb_spec (a + b) max); split; [by intros [= <-]|by intros [-> _]|done|lia].
Qed.

Lemma plain_add_small oc max a b : a + b <= max -> plain_add oc max a b = Some (a + b).
Proof.
  intros H. unfold plain_add, checked_add, wrapping_add. destruct oc.
  - by rewrite (proj2 (N.leb_le _ _) H).
  - rewrite N.mod_small; [done|lia].
Qed.

Lemma saturating_add_le max a b : saturating_add max a b <= max.
Proof. unfold saturating_add. lia. Qed.

Close Scope N_scope.

(** ** Strings *)

Abbreviation byte := ascii (only parsing).
Abbreviation bytes := (list ascii).

(** [str::split(c)] for an ASCII separator: one more piece than there are separators. *)
Fixpoint split (c : ascii) (s : string) : list string :=
  match s with
  | EmptyString => [EmptyString]
  | String a rest =>
      if Ascii.eqb a c then EmptyString :: split c rest
      else match split c rest with
           | piece :: pieces => String a piece :: pieces
           | [] => [String a EmptyString]
           end
  end.

Fixpoint join (c : ascii) (l : list string) : string :=
  match l with
  | [] => EmptyString
  | [piece] => piece
  | piece :: rest => String.append piece (String c (join c rest))
  end.

Lemma split_cons c s : exists piece pieces, split c s = piece :: pieces.
Proof.
  destruct s as [|a s]; simpl; [by eauto|].
  destruct (Ascii.eqb a c); [by eauto|]. destruct (split c s); eauto.
Qed.

Lemma join_cons c a piece pieces :
  join c (String a piece :: pieces) = String a (join c (piece :: pieces)).
Proof. by destruct pieces. Qed.

Lemma join_split c s : join c (split c s) = s.
Proof.
  induction s as [|a s IH]; [done|]. simpl.
  destruct (split_cons c s) as (p & ps & E). destruct (Ascii.eqb_spec a c) as [->|].
  - rewrite E in *. simpl. simpl in IH. by rewrite IH.
  - rewrite E in *. by rewrite join_cons, IH.
Qed.

Lemma split_inj c s t : split c s = split c t -> s = t.
Proof. intros H. by rewrite <- (join_split c s), H, join_split. Qed.

#[export] Hint Rewrite join_split : stream.

(** ** ASCII case *)

Definition to_ascii_lowercase (a : ascii) : ascii :=
  let n := N_of_ascii a in
  if (65 <=? n)%N && (n <=? 90)%N then ascii_of_N (n + 32) else a.

Fixpoint make_ascii_lowercase (s : string) : string :=
  match s with
  | EmptyString => EmptyString
  | String a rest => String (to_ascii_lowercase a) (make_ascii_lowercase rest)
  end.

Definition eq_ignore_ascii_case (s t : string) : bool :=
  String.eqb (make_ascii_lowercase s) (make_ascii_lowercase t).

Lemma to_ascii_lowercase_idem a : to_ascii_lowercase (to_ascii_lowercase a) = to_ascii_lowercase a.
Proof. destruct a as [[] [] [] [] [] [] [] []]; reflexivity. Qed.

Lemma make_ascii_lowercase_idem s :
  make_ascii_lowercase (make_ascii_lowercase s) = make_ascii_lowercase s.
Proof. induction s as [|a s IH]; [done|]. simpl. by rewrite IH, to_ascii_lowercase_idem. Qed.

Lemma make_ascii_lowercase_length s :
  String.length (make_ascii_lowercase s) = String.length s.
Proof. induction s; simpl; congruence. Qed.

Lemma eq_ignore_ascii_case_spec s t :
  eq_ignore_ascii_case s t = true <-> make_ascii_lowercase s = make_ascii_lowercase t.
Proof. apply String.eqb_eq. Qed.

(** ** Decimal [u64] *)

Open Scope N_scope.

Definition digit (d : N) : ascii := ascii_of_N (48 + d).

Definition digit_value (a : ascii) : option N :=
  let n := N_of_ascii a in
  if (48 <=? n) && (n <=? 57) then Some (n - 48) else None.

(** [u64::to_string]: at most twenty digits. *)
Fixpoint print_digits (fuel : nat) (n : N) (rest : string) : string :=
  match fuel with
  | O => rest
  | S fuel =>
      let rest := String (digit (n mod 10)) rest in
      if n / 10 =? 0 then rest else print_digits fuel (n / 10) rest
  end.

Definition u64_to_string (n : N) : string := print_digits 20 n EmptyString.

(** The digit loop of [from_str]: a number past [max] or a byte that is no digit fails. *)
Fixpoint parse_digits (max acc : N) (s : string) : option N :=
  match s with
  | EmptyString => Some acc
  | String a rest =>
      match digit_value a with
      | Some d => if acc * 10 + d <=? max then parse_digits max (acc * 10 + d) rest else None
      | None => None
      end
  end.

(** [u64::from_str]: a leading [+] is allowed, an empty string or a bare sign is not. *)
Definition u64_parse (s : string) : option N :=
  match s with
  | EmptyString => None
  | String "+"%char EmptyString => None
  | String "+"%char rest => parse_digits u64_max 0 rest
  | _ => parse_digits u64_max 0 s
  end.

Lemma digit_value_digit d : d < 10 -> digit_value (digit d) = Some d.
Proof.
  intros H.
  assert (d = 0 \/ d = 1 \/ d = 2 \/ d = 3 \/ d = 4 \/ d = 5 \/ d = 6 \/ d = 7 \/ d = 8 \/ d = 9)
    as Hd by lia.
  by repeat destruct Hd as [->|Hd]; subst.
Qed.

Lemma parse_print_digits max fuel n rest :
  n < 10 ^ N.of_nat fuel -> n <= max -> (0 < fuel)%nat ->
  parse_digits max 0 (print_digits fuel n rest) = parse_digits max n rest.
Proof.
  revert n rest. induction fuel as [|fuel IH]; intros n rest Hn Hmax Hf; [lia|].
  simpl print_digits.
  assert (Hmod : n mod 10 < 10) by (apply N.mod_lt; lia).
  assert (Hdm : n = 10 * (n / 10) + n mod 10) by (apply N.div_mod; lia).
  destruct (N.eqb_spec (n / 10) 0) as [Hz|Hz].
  - cbn [parse_digits]. rewrite digit_value_digit by done.
    rewrite N.mul_0_l, N.add_0_l. replace (n mod 10) with n by lia.
    by rewrite (proj2 (N.leb_le n max)).
  - assert (Hpow : 10 ^ N.of_nat (S fuel) = 10 * 10 ^ N.of_nat fuel).
    { rewrite Nat2N.inj_succ, N.pow_succ_r'. done. }
    rewrite IH.
    + cbn [parse_digits]. rewrite digit_value_digit by done.
      replace (n / 10 * 10 + n mod 10) with n by lia.
      by rewrite (proj2 (N.leb_le n max)).
    + apply N.Div0.div_lt_upper_bound. lia.
    + transitivity n; [|done]. apply N.Div0.div_le_upper_bound. lia.
    + destruct fuel; [|lia]. destruct Hz. apply N.div_small. exact Hn.
Qed.

Lemma print_digits_head fuel n rest :
  (0 < fuel)%nat -> exists d tail, d < 10 /\ print_digits fuel n rest = String (digit d) tail.
Proof.
  revert n rest. induction fuel as [|fuel IH]; intros n rest Hf; [lia|].
  simpl. assert (n mod 10 < 10) by (apply N.mod_lt; lia).
  destruct (n / 10 =? 0); [by eauto|]. destruct fuel; [simpl; by eauto|]. apply IH. lia.
Qed.

Lemma u64_parse_to_string n : n <= u64_max -> u64_parse (u64_to_string n) = Some n.
Proof.
  intros Hn. unfold u64_to_string.
  assert (E : parse_digits u64_max 0 (print_digits 20 n "") = Some n).
  { rewrite parse_print_digits; [done| |done|lia]. eapply N.le_lt_trans; [done|]. reflexivity. }
  destruct (print_digits_head 20 n "") as (d & tail & Hd & Hp); [lia|].
  rewrite Hp in *. unfold u64_parse.
  assert (Hne : digit d <> "+"%char).
  { intros Heq. pose proof (digit_value_digit d Hd) as Hv. rewrite Heq in Hv. discriminate. }
  destruct (digit d) as [[] [] [] [] [] [] [] []]; try done.
Qed.

Lemma parse_digits_le max acc s n : acc <= max -> parse_digits max acc s = Some n -> n <= max.
Proof.
  revert acc. induction s as [|a s IH]; simpl; intros acc Ha; [by intros [= <-]|].
  destruct (digit_value a); [|done]. destruct (N.leb_spec (acc * 10 + n0) max); [|done]. eauto.
Qed.

Lemma u64_parse_le s n : u64_parse s = Some n -> n <= u64_max.
Proof.
  assert (H0 : 0 <= u64_max) by done.
  unfold u64_parse. destruct s as [|[[] [] [] [] [] [] [] []] [|? ?]]; try done;
    apply parse_digits_le; done.
Qed.

#[export] Hint Resolve u64_parse_le saturating_add_le : stream.
Close Scope N_scope.

(** ** UTF-8: [core::str::from_utf8] *)

Definition byte_in (lo hi : N) (b : byte) : bool := ((lo <=? N_of_ascii b) && (N_of_ascii b <=? hi))%N.
Definition continuation (b : byte) : bool := byte_in 128 191 b.

(** Well-formed sequences of one to four bytes, as the Unicode table lists them: no overlong form,
    no surrogate, nothing past U+10FFFF. *)
Fixpoint utf8_valid (s : bytes) : bool :=
  match s with
  | [] => true
  | a :: rest =>
      if byte_in 0 127 a then utf8_valid rest
      else match rest with
      | [] => false
      | b :: rest2 =>
          if byte_in 194 223 a then continuation b && utf8_valid rest2
          else match rest2 with
          | [] => false
          | c :: rest3 =>
              let second3 :=
                if byte_in 224 224 a then byte_in 160 191 b
                else if byte_in 237 237 a then byte_in 128 159 b else continuation b in
              if byte_in 224 239 a then second3 && continuation c && utf8_valid rest3
              else match rest3 with
              | [] => false
              | d :: rest4 =>
                  let second4 :=
                    if byte_in 240 240 a then byte_in 144 191 b
                    else if byte_in 244 244 a then byte_in 128 143 b else continuation b in
                  byte_in 240 244 a && second4 && continuation c && continuation d
                    && utf8_valid rest4
              end
          end
      end
  end.

Definition as_bytes (s : string) : bytes := String.list_ascii_of_string s.
Definition from_utf8 (b : bytes) : option string :=
  if utf8_valid b then Some (String.string_of_list_ascii b) else None.

Definition ascii_only (b : bytes) : Prop := Forall (fun a => byte_in 0 127 a = true) b.

Lemma utf8_valid_ascii b : ascii_only b -> utf8_valid b = true.
Proof. induction 1 as [|a b Ha _ IH]; simpl; [done|]. by rewrite Ha. Qed.

Lemma from_utf8_as_bytes s : ascii_only (as_bytes s) -> from_utf8 (as_bytes s) = Some s.
Proof.
  intros H. unfold from_utf8. rewrite utf8_valid_ascii by done.
  unfold as_bytes. by rewrite String.string_of_list_ascii_of_string.
Qed.

Lemma digit_ascii d : (d < 10)%N -> byte_in 0 127 (digit d) = true.
Proof.
  intros H.
  assert (d = 0 \/ d = 1 \/ d = 2 \/ d = 3 \/ d = 4 \/ d = 5 \/ d = 6 \/ d = 7 \/ d = 8 \/ d = 9)%N
    as Hd by lia.
  by repeat destruct Hd as [->|Hd]; subst.
Qed.

Lemma print_digits_ascii fuel n rest :
  ascii_only (as_bytes rest) -> ascii_only (as_bytes (print_digits fuel n rest)).
Proof.
  revert n rest. induction fuel as [|fuel IH]; intros n rest Hr; simpl; [done|].
  assert (Hd : ascii_only (as_bytes (String (digit (n mod 10)) rest))).
  { constructor; [|done]. apply digit_ascii, N.mod_lt. lia. }
  destruct (n / 10 =? 0)%N; [done|]. by apply IH.
Qed.

Lemma u64_text_roundtrip n :
  (n <= u64_max)%N -> (from_utf8 (as_bytes (u64_to_string n)) ≫= u64_parse) = Some n.
Proof.
  intros Hn. unfold u64_to_string. rewrite from_utf8_as_bytes.
  - by apply u64_parse_to_string.
  - apply print_digits_ascii. constructor.
Qed.

Lemma as_bytes_length s : length (as_bytes s) = String.length s.
Proof. induction s; simpl; [done|]. by rewrite IHs. Qed.
