(* ===== verification/Pattern.v ===== *)
(** * Subscription patterns of the memory broker ([crates/memory/src/pattern.rs])

    Parsing, matching and the specificity order of NATS-like patterns, the choice of the groups a
    publish reaches ([Routing::reach]) and the harness's copy of that rule ([Routing::routes]). *)
From Stdlib Require Import Ascii String.
From S2P Require Import Prelude RustStd.

(** [Routing]; [EveryMatch] is the default. *)
Inductive Routing := EveryMatch | MostSpecific.
#[export] Instance Routing_eq_dec : EqDecision Routing.
Proof. solve_decision. Defined.

(** [PatternError]. *)
Inductive PatternError :=
  | EmptyToken (token : nat)
  | TailNotLast (token : nat)
  | NoWildcard.
#[export] Instance PatternError_eq_dec : EqDecision PatternError.
Proof. solve_decision. Defined.

Definition dot : ascii := "."%char.

Definition has_wildcard (name : string) : bool :=
  existsb (fun token => String.eqb token "*" || String.eqb token ">") (split dot name).

Inductive Token :=
  | Literal (text : string)
  | One
  | Tail.
#[export] Instance Token_eq_dec : EqDecision Token.
Proof. solve_decision. Defined.

Definition rank (t : Token) : nat :=
  match t with
  | Literal _ => 2
  | One => 1
  | Tail => 0
  end.

Record Pattern := mk_pattern { tokens : list Token }.
#[export] Instance Pattern_eq_dec : EqDecision Pattern.
Proof. solve_decision. Defined.

(** The [map] closure of [Pattern::parse]: the token and whether it sets [wildcard]. *)
Definition parse_token (count index : nat) (token : string) : result (Token * bool) PatternError :=
  if String.eqb token "" then Err (EmptyToken index)
  else if String.eqb token ">" && (index + 1 <? count) then Err (TailNotLast index)
  else if String.eqb token ">" then Ok (Tail, true)
  else if String.eqb token "*" then Ok (One, true)
  else Ok (Literal token, false).

(** [collect::<Result<_, _>>]: stops at the first error. *)
Fixpoint collect_tokens (count index : nat) (wildcard : bool) (parts : list string)
  : result (list Token * bool) PatternError :=
  match parts with
  | [] => Ok ([], wildcard)
  | part :: rest =>
      let? (token, wild) := parse_token count index part in
      let? (parsed, wildcard) := collect_tokens count (S index) (wildcard || wild) rest in
      Ok (token :: parsed, wildcard)
  end.

Definition parse (pattern : string) : result Pattern PatternError :=
  let parts := split dot pattern in
  let? (parsed, wildcard) := collect_tokens (length parts) 0 false parts in
  if negb wildcard then Err NoWildcard else Ok (mk_pattern parsed).

Definition nonempty (part : string) : bool := negb (String.eqb part "").

Fixpoint matches_parts (toks : list Token) (parts : list string) : bool :=
  match toks with
  | [] => match parts with [] => true | _ => false end
  | Tail :: _ =>
      match parts with
      | part :: rest => nonempty part && forallb nonempty rest
      | [] => false
      end
  | One :: toks =>
      match parts with
      | part :: rest => if String.eqb part "" then false else matches_parts toks rest
      | [] => false
      end
  | Literal literal :: toks =>
      match parts with
      | part :: rest => if String.eqb part literal then matches_parts toks rest else false
      | [] => false
      end
  end.

Definition matches (p : Pattern) (name : string) : bool :=
  matches_parts (tokens p) (split dot name).

(** [Iterator::cmp] on the ranks. *)
Fixpoint lex_compare (l k : list nat) : comparison :=
  match l, k with
  | [], [] => Eq
  | [], _ :: _ => Lt
  | _ :: _, [] => Gt
  | a :: l, b :: k =>
      match Nat.compare a b with
      | Eq => lex_compare l k
      | c => c
      end
  end.

Definition specificity (p q : Pattern) : comparison :=
  lex_compare (rank <$> tokens p) (rank <$> tokens q).

(** A group: the pattern's text, its parse and the senders of its subscriptions. *)
Record PatternGroup (Sender : Type) := mk_group {
  text : string;
  pattern : Pattern;
  senders : list Sender;
}.
Arguments mk_group {Sender} text pattern senders.
Arguments text {Sender} _.
Arguments pattern {Sender} _.
Arguments senders {Sender} _.

Inductive PatternReach :=
  | Nobody
  | EveryFrom (first : nat)
  | Only (index : nat).

Section reach.
Context {Sender : Type} (is_closed : Sender -> bool).

Definition is_live (g : PatternGroup Sender) : bool :=
  existsb (fun s => negb (is_closed s)) (senders g).

Definition by_specificity (l r : nat * PatternGroup Sender) : comparison :=
  specificity (pattern l.2) (pattern r.2).

Definition candidate (name : string) (e : nat * PatternGroup Sender) : bool :=
  matches (pattern e.2) name && is_live e.2.

Definition reach (r : Routing) (groups : list (PatternGroup Sender)) (name : string)
  (exact : bool) : PatternReach :=
  match r with
  | EveryMatch =>
      match position (fun g => matches (pattern g) name) groups with
      | Some first => EveryFrom first
      | None => Nobody
      end
  | MostSpecific =>
      if exact then Nobody
      else match max_by by_specificity
                   (List.filter (candidate name) (enumerate groups)) with
           | Some (index, _) => Only index
           | None => Nobody
           end
  end.
End reach.

(** The harness's rule over names alone. *)
Definition parsed_matching (destination : string) (e : nat * string) : option (nat * Pattern) :=
  if has_wildcard e.2 then
    match parse e.2 with
    | Ok p => if matches p destination then Some (e.1, p) else None
    | Err _ => None
    end
  else None.

Definition routes (r : Routing) (destination : string) (subscriptions : list string) : list nat :=
  let indexed := enumerate subscriptions in
  let exact := fst <$> List.filter
    (fun e => negb (has_wildcard e.2) && String.eqb e.2 destination) indexed in
  let patterns := omap (parsed_matching destination) indexed in
  match r with
  | EveryMatch => merge_sort Nat.le (exact ++ (fst <$> patterns))
  | MostSpecific =>
      match exact with
      | _ :: _ => exact
      | [] =>
          match max_by (fun l r => specificity l.2 r.2) patterns with
          | None => []
          | Some (_, best) => fst <$> List.filter (fun e => bool_decide (e.2 = best)) patterns
          end
      end
  end.

(** ** Parsing *)

(** The token a fault-free piece reads as, and its text again. *)
Definition token_of (part : string) : Token :=
  if String.eqb part ">" then Tail else if String.eqb part "*" then One else Literal part.
Definition text_of (t : Token) : string :=
  match t with
  | Literal s => s
  | One => "*"
  | Tail => ">"
  end.

(** What is wrong with one piece, [None] for nothing. *)
Definition fault (count index : nat) (part : string) : option PatternError :=
  if String.eqb part "" then Some (EmptyToken index)
  else if String.eqb part ">" && (index + 1 <? count) then Some (TailNotLast index)
  else None.

Definition fault_free (parts : list string) : Prop :=
  forall i part, parts !! i = Some part -> fault (length parts) i part = None.

(** [>] closes a token list. *)
Fixpoint tail_last (toks : list Token) : Prop :=
  match toks with
  | [] => True
  | Tail :: rest => rest = []
  | _ :: rest => tail_last rest
  end.

Lemma text_of_token_of part : text_of (token_of part) = part.
Proof.
  unfold token_of. destruct (String.eqb_spec part ">") as [->|]; [done|].
  by destruct (String.eqb_spec part "*") as [->|].
Qed.

Definition is_wild (part : string) : bool := String.eqb part "*" || String.eqb part ">".

Lemma parse_token_spec count index part :
  parse_token count index part =
  match fault count index part with
  | Some e => Err e
  | None => Ok (token_of part, is_wild part)
  end.
Proof.
  unfold parse_token, fault, token_of, is_wild.
  destruct (String.eqb part ""), (String.eqb part ">") eqn:E, (index + 1 <? count),
    (String.eqb part "*"); simpl; try done; by rewrite orb_comm.
Qed.

Fixpoint first_fault (count index : nat) (parts : list string) : option PatternError :=
  match parts with
  | [] => None
  | part :: rest =>
      match fault count index part with
      | Some e => Some e
      | None => first_fault count (S index) rest
      end
  end.

Lemma collect_tokens_spec count index wildcard parts :
  collect_tokens count index wildcard parts =
  match first_fault count index parts with
  | Some e => Err e
  | None => Ok (token_of <$> parts, wildcard || existsb is_wild parts)
  end.
Proof.
  revert index wildcard. induction parts as [|part rest IH]; intros index wildcard; simpl.
  - by rewrite orb_false_r.
  - rewrite parse_token_spec. destruct (fault count index part); simpl; [done|].
    rewrite IH. destruct (first_fault count (S index) rest); simpl; [done|].
    by rewrite orb_assoc.
Qed.

Lemma parse_first_fault pattern :
  parse pattern =
  match first_fault (length (split dot pattern)) 0 (split dot pattern) with
  | Some e => Err e
  | None =>
      if has_wildcard pattern then Ok (mk_pattern (token_of <$> split dot pattern))
      else Err NoWildcard
  end.
Proof.
  unfold parse. rewrite collect_tokens_spec.
  destruct (first_fault _ _ _); simpl; [done|].
  unfold has_wildcard, is_wild. by destruct (existsb _ _).
Qed.

Lemma first_fault_None count index parts :
  first_fault count index parts = None <->
  forall i part, parts !! i = Some part -> fault count (index + i) part = None.
Proof.
  revert index. induction parts as [|p parts IH]; intros index; simpl; [naive_solver|].
  destruct (fault count index p) eqn:E.
  - split; [done|]. intros H. specialize (H 0 p eq_refl). rewrite Nat.add_0_r in H. congruence.
  - rewrite IH. split.
    + intros H [|i] part; simpl; [intros [= <-]; by rewrite Nat.add_0_r|].
      intros Hi. rewrite Nat.add_succ_r. by apply (H i).
    + intros H i part Hi. rewrite Nat.add_succ_l, <- Nat.add_succ_r. by apply H.
Qed.

Lemma first_fault_Some count index parts e :
  first_fault count index parts = Some e <->
  exists i part, parts !! i = Some part /\ fault count (index + i) part = Some e /\
    forall j q, j < i -> parts !! j = Some q -> fault count (index + j) q = None.
Proof.
  revert index. induction parts as [|p parts IH]; intros index; simpl.
  { split; [done|]. intros (i & part & ? & _). by rewrite lookup_nil in *. }
  destruct (fault count index p) as [e'|] eqn:E; [|rewrite IH]; split.
  - intros [= <-]. exists 0, p. rewrite Nat.add_0_r. split_and!; [done|done|]. intros; lia.
  - intros ([|i] & part & Hp & Hf & Hall).
    + rewrite Nat.add_0_r in Hf. simpl in Hp. congruence.
    + specialize (Hall 0 p ltac:(lia) eq_refl). rewrite Nat.add_0_r in Hall. congruence.
  - intros (i & part & Hp & Hf & Hall). exists (S i), part. rewrite Nat.add_succ_r.
    split_and!; [done|done|]. intros [|j] q Hj Hq.
    + rewrite Nat.add_0_r. simpl in Hq. congruence.
    + rewrite Nat.add_succ_r. apply (Hall j); [lia|done].
  - intros ([|i] & part & Hp & Hf & Hall).
    { rewrite Nat.add_0_r in Hf. simpl in Hp. congruence. }
    exists i, part. rewrite Nat.add_succ_r in Hf. split_and!; [done|done|].
    intros j q Hj Hq. rewrite Nat.add_succ_l, <- Nat.add_succ_r. apply Hall; [lia|done].
Qed.

Lemma parse_Ok pattern p :
  parse pattern = Ok p <->
  fault_free (split dot pattern) /\ has_wildcard pattern = true /\
  p = mk_pattern (token_of <$> split dot pattern).
Proof.
  rewrite parse_first_fault. unfold fault_free.
  pose proof (first_fault_None (length (split dot pattern)) 0 (split dot pattern)) as Hn.
  destruct (first_fault _ _ _); simpl in Hn.
  - split; [done|]. intros (H & _). by apply Hn in H.
  - destruct (has_wildcard pattern); naive_solver.
Qed.

Lemma parse_inj t1 t2 p : parse t1 = Ok p -> parse t2 = Ok p -> t1 = t2.
Proof.
  intros (_ & _ & ->)%parse_Ok (_ & _ & [= H])%parse_Ok. apply (split_inj dot).
  apply (f_equal (fmap text_of)) in H. rewrite <- !list_fmap_compose in H.
  rewrite !(list_fmap_ext (text_of ∘ token_of) id) in H; [by rewrite !list_fmap_id in H|..];
    intros; apply text_of_token_of.
Qed.

Lemma fault_free_nonempty parts : fault_free parts -> forall part, part ∈ parts -> part <> "".
Proof.
  intros H part (i & Hi)%list_elem_of_lookup ->. by specialize (H _ _ Hi).
Qed.

Lemma tail_last_app l k :
  (forall t, t ∈ l -> t <> Tail) -> tail_last k -> tail_last (l ++ k).
Proof.
  induction l as [|t l IH]; simpl; [done|]. intros H Hk.
  destruct t; try (apply IH; [|done]; intros; apply H; by right). destruct (H Tail); [left|done].
Qed.

Lemma fault_free_tail_last parts : fault_free parts -> tail_last (token_of <$> parts).
Proof.
  intros H. destruct parts as [|part parts' _] using rev_ind; [done|].
  rewrite fmap_app. apply tail_last_app.
  - intros t (q & -> & (i & Hi)%list_elem_of_lookup)%list_elem_of_fmap Ht.
    pose proof (lookup_lt_Some _ _ _ Hi).
    specialize (H i q). rewrite lookup_app_l in H by done. specialize (H Hi).
    unfold fault, token_of in *. rewrite length_app in H. simpl in H.
    destruct (String.eqb q ""), (String.eqb q ">"); simpl in *; try done.
    + destruct (Nat.ltb_spec (i + 1) (length parts' + 1)); [done|lia].
    + by destruct (String.eqb q "*").
  - simpl. destruct (token_of part); done.
Qed.

(** ** Matching *)

(** What the documentation promises: [*] reads one token, [>] one or more, a literal itself. *)
Inductive Reads : list Token -> list string -> Prop :=
  | reads_nil : Reads [] []
  | reads_literal s toks parts : Reads toks parts -> Reads (Literal s :: toks) (s :: parts)
  | reads_one part toks parts : part <> "" -> Reads toks parts -> Reads (One :: toks) (part :: parts)
  | reads_tail parts : parts <> [] -> (forall part, part ∈ parts -> part <> "") -> Reads [Tail] parts.

Lemma nonempty_spec part : nonempty part = true <-> part <> "".
Proof. unfold nonempty. destruct (String.eqb_spec part ""); naive_solver. Qed.

Lemma matches_parts_Reads toks parts :
  tail_last toks -> matches_parts toks parts = true <-> Reads toks parts.
Proof.
  revert parts. induction toks as [|t toks IH]; intros parts Ht.
  - destruct parts; simpl; split; intros H; try done; [constructor|inversion H].
  - destruct t as [s| |]; simpl in Ht.
    + destruct parts as [|p parts]; simpl; [split; [done|intros H; inversion H]|].
      destruct (String.eqb_spec p s) as [->|Hne].
      * rewrite IH by done. split; [by constructor|intros H; by inversion H].
      * split; [done|]. intros H; by inversion H.
    + destruct parts as [|p parts]; simpl; [split; [done|intros H; inversion H]|].
      destruct (String.eqb_spec p "") as [->|Hne].
      * split; [done|]. intros H; by inversion H.
      * rewrite IH by done. split; [by constructor|intros H; by inversion H].
    + subst. destruct parts as [|p parts]; simpl; [split; [done|intros H; inversion H; done]|].
      rewrite andb_true_iff, nonempty_spec, forallb_elem. split.
      * intros [Hp Hall]. constructor; [done|].
        intros q [->|Hq]%elem_of_cons; [done|]. by apply nonempty_spec, Hall.
      * intros H. inversion H as [| | |? _ Hall]; subst. split; [apply Hall; left|].
        intros q Hq. apply nonempty_spec, Hall. by right.
Qed.

(** Each piece of a pattern's own text is read by the token it parses to. *)
Lemma reads_own_text parts :
  parts <> [] -> fault_free parts -> Reads (token_of <$> parts) parts.
Proof.
  intros Hnil H. pose proof (fault_free_tail_last _ H) as Ht.
  pose proof (fault_free_nonempty _ H) as Hne. clear H Hnil.
  induction parts as [|p parts IH]; [constructor|]. simpl in *.
  destruct (token_of p) as [s| |] eqn:E; simpl in Ht.
  - replace s with p; [constructor; apply IH; [done|]; intros; apply Hne; by right|].
    unfold token_of in E. destruct (String.eqb p ">"), (String.eqb p "*"); naive_solver.
  - constructor; [apply Hne; left|apply IH; [done|]]. intros; apply Hne; by right.
  - apply fmap_nil_inv in Ht. subst. by constructor.
Qed.

(** ** Specificity *)

Lemma lex_compare_opp l k : lex_compare k l = CompOpp (lex_compare l k).
Proof.
  revert k. induction l as [|a l IH]; intros [|b k]; simpl; try done.
  rewrite (Nat.compare_antisym a b). destruct (Nat.compare a b); simpl; auto.
Qed.

Lemma lex_compare_trans l k m :
  lex_compare l k <> Gt -> lex_compare k m <> Gt -> lex_compare l m <> Gt.
Proof.
  revert k m. induction l as [|a l IH]; intros [|b k] [|c m]; simpl; try done.
  destruct (Nat.compare_spec a b) as [->|Hab|]; [| |done].
  - destruct (Nat.compare b c); try done. apply IH.
  - intros _. destruct (Nat.compare_spec b c); intros Hc; try done; subst.
    + by rewrite (proj2 (Nat.compare_lt_iff a c)).
    + by rewrite (proj2 (Nat.compare_lt_iff a c)) by lia.
Qed.

Lemma lex_compare_Eq l k : lex_compare l k = Eq <-> l = k.
Proof.
  revert k. induction l as [|a l IH]; intros [|b k]; simpl; try done.
  destruct (Nat.compare_spec a b) as [->|Hab|Hab]; [rewrite IH; naive_solver|..];
    (split; [done|intros [= -> ->]; lia]).
Qed.

Lemma same_ranks_same_tokens toks toks' parts :
  Reads toks parts -> Reads toks' parts -> rank <$> toks = rank <$> toks' -> toks = toks'.
Proof.
  intros Hreads. revert toks'.
  induction Hreads as [|s toks parts _ IH|part toks parts Hp _ IH|parts Hnil Hall];
    intros toks' H' Hr; inversion H'; subst; simpl in *; try done;
    injection Hr as Hr; f_equal; by apply IH.
Qed.

(** The patterns as subscribed: each text parses to its pattern, and no text has two groups. *)
Definition groups_wf {Sender} (groups : list (PatternGroup Sender)) : Prop :=
  Forall (fun g => parse (text g) = Ok (pattern g)) groups /\ NoDup (text <$> groups).

Lemma parsed_Reads t p name :
  parse t = Ok p -> matches p name = true -> Reads (tokens p) (split dot name).
Proof.
  intros (Hf & _ & ->)%parse_Ok Hm. apply matches_parts_Reads; [|done].
  by apply fault_free_tail_last.
Qed.

Lemma equal_specificity_same_text t1 t2 p1 p2 name :
  parse t1 = Ok p1 -> parse t2 = Ok p2 -> matches p1 name = true -> matches p2 name = true ->
  specificity p1 p2 = Eq -> t1 = t2.
Proof.
  intros H1 H2 M1 M2 Hs%lex_compare_Eq. eapply parse_inj; [done|].
  pose proof (parsed_Reads _ _ _ H1 M1) as R1. pose proof (parsed_Reads _ _ _ H2 M2) as R2.
  destruct p1, p2; simpl in *. by rewrite (same_ranks_same_tokens _ _ _ R1 R2 Hs).
Qed.

Lemma wf_lookup_text {Sender} (groups : list (PatternGroup Sender)) i j g h :
  groups_wf groups -> groups !! i = Some g -> groups !! j = Some h -> text g = text h -> i = j.
Proof.
  intros [_ Hd] Hi Hj Ht. eapply NoDup_lookup; [done| |].
  - by rewrite list_lookup_fmap, Hi.
  - by rewrite list_lookup_fmap, Hj; simpl; rewrite Ht.
Qed.

(** ** Properties *)

(** Two patterns that match the same name and compare equal by specificity are the same
    pattern text, so the most specific match is unique, as [Routing::MostSpecific] documents. *)
Theorem specificity_separates_matches t1 t2 p1 p2 name :
  parse t1 = Ok p1 -> parse t2 = Ok p2 -> matches p1 name = true -> matches p2 name = true ->
  t1 <> t2 -> specificity p1 p2 = Lt \/ specificity p1 p2 = Gt.
Proof.
  intros H1 H2 M1 M2 Hne. destruct (specificity p1 p2) eqn:E; [|by left|by right].
  destruct Hne. by eapply equal_specificity_same_text.
Qed.

Definition orders_eu_star : Pattern := mk_pattern [Literal "orders"; Literal "eu"; One].
Definition orders_star_created : Pattern := mk_pattern [Literal "orders"; One; Literal "created"].

Lemma specificity_separates_matches_witness :
  specificity orders_eu_star orders_star_created = Lt \/
  specificity orders_eu_star orders_star_created = Gt.
Proof.
  apply (specificity_separates_matches "orders.eu.*" "orders.*.created" _ _ "orders.eu.created");
    by vm_compute.
Defined.

(** Under [MostSpecific] a publish no exact subscription takes goes to one group: it matches
    and is live, and every other live matching group is strictly less specific. *)
Theorem reach_most_specific {Sender} (closed : Sender -> bool) groups name i :
  groups_wf groups -> reach closed MostSpecific groups name false = Only i ->
  exists g, groups !! i = Some g /\ matches (pattern g) name = true /\ is_live closed g = true /\
    forall j h, groups !! j = Some h -> j <> i -> matches (pattern h) name = true ->
      is_live closed h = true -> specificity (pattern g) (pattern h) = Gt.
Proof.
  intros Hwf. unfold reach. destruct (max_by _ _) as [[i' g]|] eqn:Hm; [|done]. intros [= ->].
  pose proof (max_by_elem _ _ _ Hm) as (Hc & Hin)%elem_of_filterb.
  apply elem_of_enumerate in Hin. unfold candidate in Hc. bool_prop.
  exists g. split_and!; [done..|]. intros j h Hj Hne Hmh Hl.
  pose proof (max_by_max _ _ _ (fun x y => lex_compare_opp _ _)
    (fun x y z => lex_compare_trans _ _ _) Hm (j, h)) as Hle.
  assert (Hj' : (j, h) ∈ List.filter (candidate closed name) (enumerate groups)).
  { apply elem_of_filterb. unfold candidate. simpl. rewrite Hmh, Hl.
    split; [done|]. by apply elem_of_enumerate. }
  specialize (Hle Hj').
  unfold by_specificity in Hle. simpl in *. unfold specificity in *. rewrite lex_compare_opp in Hle.
  destruct (lex_compare (rank <$> tokens (pattern g)) _) eqn:E; [|done|done].
  destruct Hne. destruct Hwf as [Hp Hd]. rewrite Forall_lookup in Hp.
  eapply (wf_lookup_text groups); [by split; [apply Forall_lookup|]|done|done|].
  symmetry. eapply equal_specificity_same_text; [by eapply Hp|by eapply Hp|done|done|done].
Qed.

Definition three_groups : list (PatternGroup bool) :=
  [mk_group "orders.>" (mk_pattern [Literal "orders"; Tail]) [false];
   mk_group "orders.eu.*" orders_eu_star [false; true];
   mk_group "orders.*.created" orders_star_created [false]].

Lemma reach_most_specific_witness :
  exists g, three_groups !! 1 = Some g /\ matches (pattern g) "orders.eu.created" = true /\
    forall j h, three_groups !! j = Some h -> j <> 1 ->
      matches (pattern h) "orders.eu.created" = true -> is_live id h = true ->
      specificity (pattern g) (pattern h) = Gt.
Proof.
  assert (Hwf : groups_wf three_groups).
  { split; [by repeat constructor|]. simpl.
    repeat (apply NoDup_cons; split; [set_solver|]). apply NoDup_nil_2. }
  destruct (reach_most_specific id three_groups "orders.eu.created" 1 Hwf)
    as (g & Hg & Hm & _ & Hbeats); [by vm_compute|].
  by exists g.
Defined.

(** [matches] is the documented reading of a name, token by token. *)
Theorem matches_reads pattern p name :
  parse pattern = Ok p -> matches p name = true <-> Reads (tokens p) (split dot name).
Proof.
  intros (Hf & _ & ->)%parse_Ok. apply matches_parts_Reads. by apply fault_free_tail_last.
Qed.

Lemma matches_reads_witness :
  matches (mk_pattern [Literal "orders"; Tail]) "orders.eu.created" = true <->
  Reads [Literal "orders"; Tail] (split dot "orders.eu.created").
Proof.
  apply (matches_reads "orders.>"). by vm_compute.
Defined.

(** A pattern matches its own text, which is the address a copy of one of its deliveries is
    published to. *)
Theorem pattern_matches_its_text pattern p : parse pattern = Ok p -> matches p pattern = true.
Proof.
  intros (Hf & _ & ->)%parse_Ok. apply matches_parts_Reads; [by apply fault_free_tail_last|].
  apply reads_own_text; [|done]. destruct (split_cons dot pattern) as (? & ? & ->). done.
Qed.

Lemma pattern_matches_its_text_witness : matches orders_star_created "orders.*.created" = true.
Proof. apply pattern_matches_its_text. by vm_compute. Defined.

(** [parse] reports the first fault from the left; a text with no fault is refused only for
    having no wildcard token. *)
Theorem parse_reports_first_fault pattern e :
  parse pattern = Err e <->
  (exists i part, split dot pattern !! i = Some part /\
     fault (length (split dot pattern)) i part = Some e /\
     forall j q, j < i -> split dot pattern !! j = Some q ->
       fault (length (split dot pattern)) j q = None) \/
  (e = NoWildcard /\ fault_free (split dot pattern) /\ has_wildcard pattern = false).
Proof.
  rewrite parse_first_fault. unfold fault_free.
  pose proof (first_fault_None (length (split dot pattern)) 0 (split dot pattern)) as Hn.
  pose proof (fun e => first_fault_Some (length (split dot pattern)) 0 (split dot pattern) e) as Hs.
  simpl in Hn, Hs. setoid_rewrite <- Hs. setoid_rewrite <- Hn.
  destruct (first_fault _ _ _) as [e'|]; simpl; [naive_solver|].
  destruct (has_wildcard pattern); naive_solver.
Qed.
