(* ===== verification/Headers.v ===== *)
(** * Message headers ([crates/core/src/headers/map.rs])

    The heap header map: an optional list of lowercase names and values.  The file also states
    [HeaderStore], the interface the runtime writes headers through, which the heap map and the
    fixed map of [FixedHeaders] both implement. *)
From Stdlib Require Import Ascii String.
From S2P Require Import Prelude RustStd.

(** ** What a header map promises *)

Class HeaderStore (H : Type) := {
  hs_new : H;
  hs_get : H -> string -> option bytes;
  hs_insert : H -> string -> bytes -> option H;
  hs_remove : H -> string -> H;
  (** ghost: the valid states, and the names and values held *)
  hs_inv : H -> Prop;
  hs_map : H -> gmap string bytes;
}.

Class HeaderStoreLaws (H : Type) `{HeaderStore H} := {
  hs_new_map : hs_inv hs_new /\ hs_map hs_new = ∅;
  hs_get_map h name : hs_inv h -> hs_get h name = hs_map h !! make_ascii_lowercase name;
  hs_insert_map h name value h' :
    hs_inv h -> hs_insert h name value = Some h' ->
    hs_inv h' /\ hs_map h' = <[make_ascii_lowercase name := value]> (hs_map h);
  hs_remove_map h name :
    hs_inv h -> hs_inv (hs_remove h name) /\
    hs_map (hs_remove h name) = delete (make_ascii_lowercase name) (hs_map h);
}.

(** Header text: [get_str]. *)
Definition hs_get_str {H} `{HeaderStore H} (h : H) (name : string) : option string :=
  hs_get h name ≫= from_utf8.

(** ** The heap map *)

(** The header a retried copy counts its attempts in. *)
Definition RETRY_COUNT_HEADER : string := "x-ruststream-retry-count".

Module HeaderMap.

Record HeaderMap := mk_headers { inner : option (list (string * bytes)) }.

Definition is_ascii_uppercase (a : ascii) : bool := byte_in 65 90 a.

Definition normalize_owned (s : string) : string :=
  if existsb is_ascii_uppercase (as_bytes s) then make_ascii_lowercase s else s.

Definition new : HeaderMap := mk_headers None.
Definition with_capacity (cap : nat) : HeaderMap :=
  mk_headers (if (0 <? cap) then Some [] else None).

Definition entries (h : HeaderMap) : list (string * bytes) := default [] (inner h).

(** [clone_from] leaves the entries of [source]; the room it keeps is not part of the model. *)
Definition clone_from (h source : HeaderMap) : HeaderMap :=
  match inner h, inner source with
  | Some _, Some from => mk_headers (Some from)
  | Some _, None => mk_headers (Some [])
  | _, from => mk_headers from
  end.

Definition same_name (name : string) (e : string * bytes) : bool :=
  Nat.eqb (String.length e.1) (String.length name) && eq_ignore_ascii_case e.1 name.

Definition header_position (h : HeaderMap) (name : string) : option nat :=
  position (same_name name) (entries h).

(** [entries_mut()[index].1 = value]; the index is one [position] returned. *)
Definition set_value (l : list (string * bytes)) (index : nat) (value : bytes) :=
  alter (fun e => (e.1, value)) index l.

Definition insert_header (h : HeaderMap) (name : string) (value : bytes)
  : HeaderMap * option bytes :=
  let key := normalize_owned name in
  match header_position h key with
  | Some index => (mk_headers (Some (set_value (entries h) index value)),
                   snd <$> entries h !! index)
  | None => (mk_headers (Some (entries h ++ [(key, value)])), None)
  end.

Definition get (h : HeaderMap) (name : string) : option bytes :=
  header_position h name ≫= fun index => snd <$> entries h !! index.
Definition get_shared (h : HeaderMap) (name : string) : option bytes :=
  header_position h name ≫= fun index => snd <$> entries h !! index.

Definition get_str (h : HeaderMap) (name : string) : option string := get h name ≫= from_utf8.

Definition remove (h : HeaderMap) (name : string) : HeaderMap * option bytes :=
  match header_position h name with
  | Some index => (mk_headers (Some (delete index (entries h))), snd <$> entries h !! index)
  | None => (h, None)
  end.

Definition contains (h : HeaderMap) (name : string) : bool :=
  bool_decide (is_Some (header_position h name)).
Definition len (h : HeaderMap) : nat := length (entries h).
Definition is_empty (h : HeaderMap) : bool := Nat.eqb (len h) 0.
Definition content_type (h : HeaderMap) : option string := get_str h "content-type".
Definition correlation_id (h : HeaderMap) : option string := get_str h "correlation-id".
Definition reply_to (h : HeaderMap) : option string := get_str h "reply-to".
Definition message_id (h : HeaderMap) : option string := get_str h "message-id".

(** [PartialEq]. *)
Definition headers_eq (h other : HeaderMap) : bool :=
  Nat.eqb (len h) (len other) &&
  forallb (fun e =>
    match header_position other e.1 with
    | Some i => bool_decide (snd <$> entries other !! i = Some e.2)
    | None => false
    end) (entries h).

Definition overwrite_step (h : HeaderMap) (e : string * bytes) : HeaderMap :=
  match header_position h e.1 with
  | Some index => mk_headers (Some (set_value (entries h) index e.2))
  | None => mk_headers (Some (entries h ++ [e]))
  end.

Definition overwrite_with (h other : HeaderMap) : HeaderMap :=
  if is_empty h then other else fold_left overwrite_step (entries other) h.

(** [lower] is the iterator's size hint. *)
Definition from_iter (lower : nat) (l : list (string * bytes)) : HeaderMap :=
  fold_left (fun h e => fst (insert_header h e.1 e.2)) l (with_capacity lower).

(** ** Invariant and abstraction *)

(** Names are lowercase and distinct. *)
Definition wf (h : HeaderMap) : Prop :=
  Forall (fun e => make_ascii_lowercase e.1 = e.1) (entries h) /\ NoDup (fst <$> entries h).

Definition to_map (h : HeaderMap) : gmap string bytes := list_to_map (entries h).

Lemma lowercase_no_upper a : is_ascii_uppercase a = false -> to_ascii_lowercase a = a.
Proof.
  unfold is_ascii_uppercase, byte_in, to_ascii_lowercase. simpl. by intros ->.
Qed.

Lemma normalize_owned_spec s : normalize_owned s = make_ascii_lowercase s.
Proof.
  unfold normalize_owned. destruct (existsb _ _) eqn:E; [done|].
  induction s as [|a s IH]; simpl in *; [done|]. bool_prop.
  rewrite lowercase_no_upper by done. by rewrite <- IH.
Qed.

Lemma same_name_spec name e :
  same_name name e = true <-> make_ascii_lowercase e.1 = make_ascii_lowercase name.
Proof.
  unfold same_name. rewrite andb_true_iff, eq_ignore_ascii_case_spec, Nat.eqb_eq.
  split; [tauto|]. intros H. split; [|done].
  by rewrite <- (make_ascii_lowercase_length e.1), H, make_ascii_lowercase_length.
Qed.

Section lists.
Implicit Types (l : list (string * bytes)).

Lemma position_map l name :
  Forall (fun e => make_ascii_lowercase e.1 = e.1) l ->
  match position (same_name name) l with
  | Some i => exists v, l !! i = Some (make_ascii_lowercase name, v)
  | None => make_ascii_lowercase name ∉ fst <$> l
  end.
Proof.
  intros Hl. destruct (position _ _) as [i|] eqn:E.
  - apply position_Some in E as ([k v] & Hi & Hs & _).
    apply same_name_spec in Hs. rewrite Forall_lookup in Hl. specialize (Hl _ _ Hi).
    simpl in *. rewrite <- Hs, Hl. eauto.
  - rewrite list_elem_of_fmap. intros ([k v] & Hk & Hin). rewrite Forall_forall in Hl.
    eapply position_None in E; [|exact Hin]. apply not_true_iff_false in E. destruct E.
    apply same_name_spec. rewrite Hk. apply (Hl _ Hin).
Qed.

Lemma set_value_keys l i v : fst <$> set_value l i v = fst <$> l.
Proof.
  unfold set_value. revert i. induction l as [|e l IH]; intros [|i]; simpl; try done.
  f_equal. apply IH.
Qed.

Lemma set_value_map l i k w v :
  NoDup (fst <$> l) -> l !! i = Some (k, w) ->
  list_to_map (set_value l i v) =@{gmap string bytes} <[k := v]> (list_to_map l).
Proof.
  revert i. induction l as [|[k' w'] l IH]; intros i Hd Hi; [done|].
  apply NoDup_cons in Hd as [Hn Hd]. destruct i as [|i]; simpl in Hn, Hd, Hi.
  - injection Hi as -> ->. simpl. by rewrite insert_insert_eq.
  - change (set_value ((k', w') :: l) (S i) v) with ((k', w') :: set_value l i v). simpl.
    rewrite (IH i) by done. apply insert_insert_ne.
    intros <-. apply Hn. apply list_elem_of_fmap. eexists (_, w). split; [done|].
    by apply list_elem_of_lookup_2 in Hi.
Qed.

Lemma delete_map l i k w :
  NoDup (fst <$> l) -> l !! i = Some (k, w) ->
  list_to_map (delete i l) =@{gmap string bytes} delete k (list_to_map l).
Proof.
  revert i. induction l as [|[k' w'] l IH]; intros i Hd Hi; [done|].
  apply NoDup_cons in Hd as [Hn Hd]. destruct i as [|i]; simpl in *.
  - injection Hi as -> ->. rewrite delete_insert_id; [done|]. by apply not_elem_of_list_to_map_1.
  - rewrite (IH i) by done. rewrite delete_insert_ne; [done|].
    intros <-. apply Hn. apply list_elem_of_fmap. eexists (_, w). split; [done|].
    by apply list_elem_of_lookup_2 in Hi.
Qed.

Lemma snoc_map l k v :
  k ∉ fst <$> l ->
  list_to_map (l ++ [(k, v)]) =@{gmap string bytes} <[k := v]> (list_to_map l).
Proof.
  intros Hk. rewrite list_to_map_app. simpl. rewrite insert_empty. symmetry.
  apply insert_union_singleton_r. by apply not_elem_of_list_to_map_1.
Qed.
End lists.

Lemma header_position_spec h name :
  wf h ->
  match header_position h name with
  | Some i => exists v, entries h !! i = Some (make_ascii_lowercase name, v)
  | None => make_ascii_lowercase name ∉ fst <$> entries h
  end.
Proof. intros [Hl _]. by apply position_map. Qed.

Lemma get_map h name : wf h -> get h name = to_map h !! make_ascii_lowercase name.
Proof.
  intros Hwf. pose proof (header_position_spec h name Hwf) as Hp. unfold get, to_map.
  destruct (header_position h name) as [i|]; simpl.
  - destruct Hp as (v & Hv). rewrite Hv. symmetry. apply elem_of_list_to_map_1; [apply Hwf|].
    by eapply list_elem_of_lookup_2.
  - symmetry. by apply not_elem_of_list_to_map_1.
Qed.

Lemma entries_mk l : entries (mk_headers (Some l)) = l.
Proof. done. Qed.

(** Writing a value in place, or a new lowercase name at the end. *)
Lemma put_spec h key value :
  wf h -> make_ascii_lowercase key = key ->
  wf (overwrite_step h (key, value)) /\
  to_map (overwrite_step h (key, value)) = <[key := value]> (to_map h).
Proof.
  intros Hwf Hk. pose proof (header_position_spec h key Hwf) as Hp. rewrite Hk in Hp.
  destruct Hwf as [Hl Hd]. unfold overwrite_step. simpl.
  destruct (header_position h key) as [i|]; unfold wf, to_map;
    rewrite ?entries_mk.
  - destruct Hp as (v & Hv). rewrite set_value_keys. split_and!; [|done|by eapply set_value_map].
    assert (Hf : Forall (fun k => make_ascii_lowercase k = k) (fst <$> entries h))
      by by apply Forall_fmap.
    rewrite <- (set_value_keys _ i value) in Hf. by apply Forall_fmap in Hf.
  - rewrite fmap_app. split_and!; [|apply NoDup_app; split_and!|by apply snoc_map].
    + apply Forall_app. split; [done|]. by repeat constructor.
    + done.
    + intros x Hx ->%list_elem_of_singleton. done.
    + apply NoDup_singleton.
Qed.

Lemma insert_header_step h name value :
  fst (insert_header h name value) = overwrite_step h (normalize_owned name, value).
Proof. unfold insert_header, overwrite_step. simpl. by destruct (header_position _ _). Qed.

Lemma insert_header_spec h name value :
  wf h ->
  wf (fst (insert_header h name value)) /\
  to_map (fst (insert_header h name value)) = <[make_ascii_lowercase name := value]> (to_map h) /\
  snd (insert_header h name value) = to_map h !! make_ascii_lowercase name.
Proof.
  intros Hwf. rewrite insert_header_step, normalize_owned_spec.
  destruct (put_spec h (make_ascii_lowercase name) value Hwf) as [H1 H2];
    [apply make_ascii_lowercase_idem|].
  split_and!; [done|done|].
  rewrite <- (make_ascii_lowercase_idem name), <- get_map by done.
  unfold insert_header, get. rewrite normalize_owned_spec. by destruct (header_position _ _).
Qed.

Lemma remove_spec h name :
  wf h ->
  wf (fst (remove h name)) /\
  to_map (fst (remove h name)) = delete (make_ascii_lowercase name) (to_map h) /\
  snd (remove h name) = to_map h !! make_ascii_lowercase name.
Proof.
  intros Hwf. pose proof (header_position_spec h name Hwf) as Hp.
  pose proof (get_map h name Hwf) as Hg. unfold get in Hg. unfold remove.
  destruct (header_position h name) as [i|]; simpl in *.
  - destruct Hp as (v & Hv). destruct Hwf as [Hl Hd]. split_and!; [|by eapply delete_map|done].
    split; cbn.
    + by apply Forall_delete.
    + rewrite list_fmap_delete. by eapply sublist_NoDup, sublist_delete.
  - split_and!; [done| |done]. by rewrite delete_id.
Qed.

Lemma overwrite_steps_spec l h :
  wf h -> Forall (fun e => make_ascii_lowercase e.1 = e.1) l -> NoDup (fst <$> l) ->
  wf (fold_left overwrite_step l h) /\
  to_map (fold_left overwrite_step l h) = list_to_map l ∪ to_map h.
Proof.
  revert h. induction l as [|[k v] l IH]; intros h Hwf Hl Hd; simpl.
  - split; [done|]. by rewrite (left_id_L ∅ (∪)).
  - apply Forall_cons in Hl as [Hk Hl]. apply NoDup_cons in Hd as [Hn Hd].
    destruct (put_spec h k v Hwf Hk) as [Hw Hm]. destruct (IH _ Hw Hl Hd) as [? ->].
    split; [done|]. rewrite Hm. rewrite <- insert_union_l, <- insert_union_r; [done|].
    by apply not_elem_of_list_to_map_1.
Qed.

Lemma overwrite_with_spec h other :
  wf h -> wf other ->
  wf (overwrite_with h other) /\ to_map (overwrite_with h other) = to_map other ∪ to_map h.
Proof.
  intros Hh [Hl Hd]. unfold overwrite_with. destruct (is_empty h) eqn:E.
  - split; [done|]. unfold is_empty, len in E. apply Nat.eqb_eq, nil_length_inv in E.
    unfold to_map at 3. rewrite E. simpl. by rewrite (right_id_L ∅ (∪)).
  - by apply overwrite_steps_spec.
Qed.

Lemma headers_eq_spec h other :
  wf h -> wf other -> headers_eq h other = true <-> to_map h = to_map other.
Proof.
  intros Hh Ho. unfold headers_eq. rewrite andb_true_iff, Nat.eqb_eq, forallb_elem.
  assert (Hget : forall e, e ∈ entries h ->
    match header_position other e.1 with
    | Some i => bool_decide (snd <$> entries other !! i = Some e.2)
    | None => false
    end = true <-> to_map other !! e.1 = Some e.2).
  { intros e He. destruct Hh as [Hl _]. rewrite Forall_forall in Hl.
    rewrite <- (Hl e He) at 2. rewrite <- get_map by done. unfold get.
    destruct (header_position other e.1); simpl; [by rewrite bool_decide_eq_true|done]. }
  assert (Hs : forall x, wf x -> size (to_map x) = len x).
  { intros x [_ Hd]. unfold to_map, len. by rewrite map_size_list_to_map, ?length_fmap. }
  assert (Hin : forall e, e ∈ entries h <-> to_map h !! e.1 = Some e.2).
  { intros [k v]. unfold to_map. by rewrite <- elem_of_list_to_map by apply Hh. }
  split.
  - intros [Hlen Hall]. apply map_subseteq_size_eq.
    + apply map_subseteq_spec. intros k v Hk. apply (Hin (k, v)) in Hk.
      by apply (Hget (k, v)), Hall.
    + by rewrite !Hs, Hlen by done.
  - intros Heq. split; [by rewrite <- !Hs, Heq by done|].
    intros e He. apply Hget; [done|]. rewrite <- Heq. by apply Hin.
Qed.

#[global] Instance header_store : HeaderStore HeaderMap := {
  hs_new := new;
  hs_get := get;
  hs_insert h name value := Some (fst (insert_header h name value));
  hs_remove h name := fst (remove h name);
  hs_inv := wf;
  hs_map := to_map;
}.

#[global] Instance header_store_laws : HeaderStoreLaws HeaderMap.
Proof.
  split; simpl.
  - split; [|done]. split; [constructor|constructor].
  - intros. by apply get_map.
  - intros h name value h' Hwf [= <-]. by destruct (insert_header_spec h name value Hwf) as (?&?&_).
  - intros h name Hwf. by destruct (remove_spec h name Hwf) as (?&?&_).
Qed.

(** ** Properties *)

(** The heap header map is a finite map keyed by lowercase names: an insert under any casing
    replaces the value under that name and returns the old one, a removal deletes it and returns
    it, a lookup reads it, and the invariant (lowercase, distinct names) is kept. *)
Theorem header_map_operations h name value :
  wf h ->
  let key := make_ascii_lowercase name in
  (wf (fst (insert_header h name value)) /\
   to_map (fst (insert_header h name value)) = <[key := value]> (to_map h) /\
   snd (insert_header h name value) = to_map h !! key) /\
  (wf (fst (remove h name)) /\
   to_map (fst (remove h name)) = delete key (to_map h) /\
   snd (remove h name) = to_map h !! key) /\
  get h name = to_map h !! key /\
  contains h name = bool_decide (is_Some (to_map h !! key)).
Proof.
  intros Hwf key. split_and!; try apply insert_header_spec; try apply remove_spec; try done.
  - by apply get_map.
  - pose proof (header_position_spec h name Hwf) as Hp. unfold key. rewrite <- get_map by done.
    unfold contains, get. destruct (header_position h name); [|done]. simpl.
    by destruct Hp as (v & ->).
Qed.

Definition two_headers : HeaderMap :=
  mk_headers (Some [("content-type", as_bytes "text"); ("reply-to", as_bytes "inbox")]).

Lemma header_map_operations_witness :
  get (fst (insert_header two_headers "Reply-To" (as_bytes "x"))) "REPLY-TO" = Some (as_bytes "x") /\
  get two_headers "Reply-To" = to_map two_headers !! "reply-to".
Proof.
  split; [by vm_compute|].
  assert (wf two_headers) as Hwf by (split; [by repeat constructor|by vm_compute; apply NoDup_cons;
    split; [set_solver|apply NoDup_singleton]]).
  exact (proj1 (proj2 (proj2 (header_map_operations two_headers "Reply-To" [] Hwf)))).
Defined.

(** Overwriting one map with another is the right-biased union, whichever path it takes, and
    two maps compare equal exactly when they hold the same names and values, in any order. *)
Theorem header_map_overwrite_and_eq h other :
  wf h -> wf other ->
  wf (overwrite_with h other) /\
  to_map (overwrite_with h other) = to_map other ∪ to_map h /\
  (headers_eq h other = true <-> to_map h = to_map other).
Proof.
  intros Hh Ho. destruct (overwrite_with_spec h other Hh Ho). split_and!; [done..|].
  by apply headers_eq_spec.
Qed.

Lemma header_map_overwrite_and_eq_witness :
  to_map (overwrite_with two_headers new) = to_map new ∪ to_map two_headers.
Proof.
  assert (wf two_headers) as Hwf by (split; [by repeat constructor|by vm_compute; apply NoDup_cons;
    split; [set_solver|apply NoDup_singleton]]).
  assert (wf new) as Hnew by (split; constructor).
  exact (proj1 (proj2 (header_map_overwrite_and_eq two_headers new Hwf Hnew))).
Defined.
End HeaderMap.
