(* ===== verification/FixedHeaders.v ===== *)
(** * Message headers in fixed storage ([crates/core/src/headers/fixed.rs])

    [FixedHeaders<ENTRIES, BYTES>]: an entry table of [u16] offsets and lengths over a byte arena.
    Every slice, array index and checked subtraction of the code is an option here, [None] for the
    panic; the theorems show that no operation panics on a state the code reaches, that the
    offsets never leave [u16], and that the map behaves as the finite map [HeaderStore] states. *)
From Stdlib Require Import Ascii String.
From S2P Require Import Prelude RustStd Headers.

Module Fixed.

Record Entry := mk_entry {
  start : nat;
  key_len : nat;
  value_len : nat;
}.

Record FixedHeaders := mk_fixed {
  table : list Entry;
  count : nat;
  used : nat;
  arena : bytes;
}.

Inductive HeadersFull := headers_full.

(** [u16::try_from] and [u16] arithmetic. *)
Definition u16_try_from (n : nat) : option nat := if (N.of_nat n <=? u16_max)%N then Some n else None.
Definition checked_minus (a b : nat) : option nat := if b <=? a then Some (a - b) else None.

(** [&a[lo..hi]], [a[lo..].copy_from_slice(data)], [a.copy_within(lo..hi, dest)] and [a[i] = x]. *)
Definition slice {A} (lo hi : nat) (a : list A) : option (list A) :=
  if (lo <=? hi) && (hi <=? length a) then Some (take (hi - lo) (drop lo a)) else None.
Definition write_at {A} (lo : nat) (data a : list A) : option (list A) :=
  if lo + length data <=? length a
  then Some (take lo a ++ data ++ drop (lo + length data) a) else None.
Definition copy_within {A} (lo hi dest : nat) (a : list A) : option (list A) :=
  slice lo hi a ≫= fun moved => write_at dest moved a.

(** [new] for the const parameters, whose compile-time check is that [BYTES] fits [u16]. *)
Definition new (ENTRIES BYTES : nat) : FixedHeaders :=
  mk_fixed (replicate ENTRIES (mk_entry 0 0 0)) 0 0 (replicate BYTES zero).

Definition live (h : FixedHeaders) : option (list Entry) := slice 0 (count h) (table h).

Definition key_of (h : FixedHeaders) (e : Entry) : option bytes :=
  slice (start e) (start e + key_len e) (arena h).
Definition value_of (h : FixedHeaders) (e : Entry) : option bytes :=
  let start := start e + key_len e in slice start (start + value_len e) (arena h).
Definition size_of_entry (e : Entry) : nat := key_len e + value_len e.

Definition lower (b : bytes) : bytes := to_ascii_lowercase <$> b.
Definition eq_ignore_case (a b : bytes) : bool := bool_decide (lower a = lower b).

(** [Iterator::position] with the key slice of each entry. *)
Fixpoint find_entry (h : FixedHeaders) (name : bytes) (l : list Entry) : option (option nat) :=
  match l with
  | [] => Some None
  | e :: rest =>
      key ← key_of h e;
      if eq_ignore_case key name then Some (Some 0)
      else found ← find_entry h name rest; Some (option_map S found)
  end.

Definition fixed_position (h : FixedHeaders) (name : string) : option (option nat) :=
  l ← live h; find_entry h (as_bytes name) l.

(** [entry.start -= gone.key_len + gone.value_len], in [u16]. *)
Definition shift_down (gone e : Entry) : option Entry :=
  by_ ← u16_try_from (key_len gone + value_len gone);
  start ← checked_minus (start e) by_;
  Some (mk_entry start (key_len e) (value_len e)).

Definition remove_at (h : FixedHeaders) (index : nat) : option FixedHeaders :=
  gone ← table h !! index;
  let size := size_of_entry gone in
  let start := start gone in
  arena ← copy_within (start + size) (used h) start (arena h);
  used ← checked_minus (used h) size;
  table ← copy_within (index + 1) (count h) index (table h);
  count ← checked_minus (count h) 1;
  tail ← slice index count table;
  tail ← mapM (shift_down gone) tail;
  table ← write_at index tail table;
  Some (mk_fixed table count used arena).

(** The end of [insert]: the entry is written after the last one. *)
Definition append_entry (h : FixedHeaders) (name : string) (value : bytes) (key_len value_len : nat)
  : option (result FixedHeaders HeadersFull) :=
  let start := used h in
  let key_end := start + String.length name in
  arena ← write_at start (lower (as_bytes name)) (arena h);
  arena ← write_at key_end value arena;
  match u16_try_from start with
  | Some start =>
      table ← write_at (count h) [mk_entry start key_len value_len] (table h);
      Some (Ok (mk_fixed table (count h + 1) (used h + (String.length name + length value)) arena))
  | None => Some (Err headers_full)
  end.

Definition insert_fixed (h : FixedHeaders) (name : string) (value : bytes)
  : option (result FixedHeaders HeadersFull) :=
  existing ← fixed_position h name;
  freed ← match existing with
          | None => Some 0
          | Some index => size_of_entry <$> table h !! index
          end;
  let needed := String.length name + length value in
  let has_slot := bool_decide (is_Some existing) || (count h <? length (table h)) in
  match u16_try_from (String.length name), u16_try_from (length value) with
  | Some key_len, Some value_len =>
      kept ← checked_minus (used h) freed;
      if negb has_slot || (length (arena h) <? kept + needed) then Some (Err headers_full)
      else
        h ← match existing with Some index => remove_at h index | None => Some h end;
        append_entry h name value key_len value_len
  | _, _ => Some (Err headers_full)
  end.

Definition get (h : FixedHeaders) (name : string) : option (option bytes) :=
  found ← fixed_position h name;
  match found with
  | Some index => e ← table h !! index; v ← value_of h e; Some (Some v)
  | None => Some None
  end.

Definition get_str (h : FixedHeaders) (name : string) : option (option string) :=
  found ← get h name; Some (found ≫= from_utf8).

Definition remove (h : FixedHeaders) (name : string) : option (FixedHeaders * bool) :=
  found ← fixed_position h name;
  match found with
  | Some index => h ← remove_at h index; Some (h, true)
  | None => Some (h, false)
  end.

Definition contains (h : FixedHeaders) (name : string) : option bool :=
  found ← fixed_position h name; Some (bool_decide (is_Some found)).
Definition len (h : FixedHeaders) : nat := count h.
Definition is_empty (h : FixedHeaders) : bool := Nat.eqb (count h) 0.

Definition read_entry (h : FixedHeaders) (e : Entry) : option (string * bytes) :=
  k ← key_of h e; v ← value_of h e; Some (default EmptyString (from_utf8 k), v).
Definition iter (h : FixedHeaders) : option (list (string * bytes)) :=
  l ← live h; mapM (read_entry h) l.

(** The fold of [overwrite_with]; [Err] leaves the receiver as it was, the merge being on a copy. *)
Fixpoint insert_all (h : FixedHeaders) (l : list (string * bytes))
  : option (result FixedHeaders HeadersFull) :=
  match l with
  | [] => Some (Ok h)
  | (key, value) :: rest =>
      r ← insert_fixed h key value;
      match r with
      | Ok h => insert_all h rest
      | Err e => Some (Err e)
      end
  end.

Definition overwrite_with (h other : FixedHeaders)
  : option (FixedHeaders * result unit HeadersFull) :=
  l ← iter other;
  merged ← insert_all h l;
  match merged with
  | Ok merged => Some (merged, Ok tt)
  | Err e => Some (h, Err e)
  end.

(** [PartialEq]. *)
Fixpoint all_equal (other : FixedHeaders) (l : list (string * bytes)) : option bool :=
  match l with
  | [] => Some true
  | (k, v) :: rest =>
      found ← get other k;
      if bool_decide (found = Some v) then all_equal other rest else Some false
  end.
Definition fixed_eq (h other : FixedHeaders) : option bool :=
  if Nat.eqb (len h) (len other) then l ← iter h; all_equal other l else Some false.

Definition content_type (h : FixedHeaders) := get_str h "content-type".
Definition correlation_id (h : FixedHeaders) := get_str h "correlation-id".
Definition reply_to (h : FixedHeaders) := get_str h "reply-to".
Definition message_id (h : FixedHeaders) := get_str h "message-id".

Example insert_replaces :
  (r ← insert_fixed (new 3 32) "Content-Type" (as_bytes "json");
   match r with
   | Ok h => r ← insert_fixed h "CONTENT-type" (as_bytes "xml");
             match r with Ok h => get h "content-TYPE" | Err _ => None end
   | Err _ => None
   end) = Some (Some (as_bytes "xml")).
Proof. reflexivity. Qed.

(** ** Representation: the entries lie in the arena in order, without a gap *)

Implicit Types (l : list (string * bytes)).

Fixpoint flat l : bytes :=
  match l with
  | [] => []
  | (k, v) :: rest => as_bytes k ++ v ++ flat rest
  end.
Fixpoint layout (off : nat) l : list Entry :=
  match l with
  | [] => []
  | (k, v) :: rest =>
      mk_entry off (length (as_bytes k)) (length v)
        :: layout (off + length (as_bytes k) + length v) rest
  end.

Record Repr (h : FixedHeaders) l : Prop := {
  repr_count : count h = length l;
  repr_table : exists junk, table h = layout 0 l ++ junk;
  repr_arena : exists junk, arena h = flat l ++ junk;
  repr_used : used h = length (flat l);
  repr_u16 : (N.of_nat (length (arena h)) <= u16_max)%N;
  repr_lower : Forall (fun e => make_ascii_lowercase e.1 = e.1) l;
  repr_nodup : NoDup (fst <$> l);
}.

Definition raw_entry (h : FixedHeaders) (e : Entry) : option (string * bytes) :=
  k ← key_of h e; v ← value_of h e; Some (String.string_of_list_ascii k, v).
Definition raw_entries (h : FixedHeaders) : list (string * bytes) :=
  default [] (l ← live h; mapM (raw_entry h) l).
Definition to_map (h : FixedHeaders) : gmap string bytes := list_to_map (raw_entries h).
Definition wf (h : FixedHeaders) : Prop := Repr h (raw_entries h).

Lemma flat_app l k : flat (l ++ k) = flat l ++ flat k.
Proof. induction l as [|[? ?] l IH]; simpl; [done|]. by rewrite IH, !app_assoc. Qed.
Lemma layout_app off l k : layout off (l ++ k) = layout off l ++ layout (off + length (flat l)) k.
Proof.
  revert off. induction l as [|[key v] l IH]; intros off; simpl; [by rewrite Nat.add_0_r|].
  rewrite IH, !length_app. do 3 f_equal. lia.
Qed.
Lemma length_layout off l : length (layout off l) = length l.
Proof. revert off. induction l as [|[? ?] l IH]; intros off; simpl; [done|]. by rewrite IH. Qed.

Section arrays.
Context {A : Type}.
Implicit Types (a b c d : list A).

Lemma slice_mid a b c lo hi :
  lo = length a -> hi = length a + length b -> slice lo hi (a ++ b ++ c) = Some b.
Proof.
  intros -> ->. unfold slice. rewrite !length_app.
  rewrite (proj2 (Nat.leb_le _ _)) by lia. rewrite (proj2 (Nat.leb_le _ _)) by lia. simpl.
  rewrite drop_app_length. f_equal. rewrite take_app_le by lia. apply take_ge. lia.
Qed.

Lemma slice_prefix b c hi : hi = length b -> slice 0 hi (b ++ c) = Some b.
Proof. intros ->. by apply (slice_mid [] b c). Qed.

Lemma write_at_over a d c lo :
  lo = length a -> length d <= length c -> write_at lo d (a ++ c) = Some (a ++ d ++ drop (length d) c).
Proof.
  intros -> Hd. unfold write_at. rewrite length_app.
  rewrite (proj2 (Nat.leb_le _ _)) by lia. rewrite take_app_length.
  rewrite drop_app_ge by lia. by replace (length a + length d - length a) with (length d) by lia.
Qed.

Lemma copy_within_mid a b c d lo hi dest :
  lo = length a + length b -> hi = length a + length b + length c -> dest = length a ->
  exists junk, copy_within lo hi dest (a ++ b ++ c ++ d) = Some (a ++ c ++ junk) /\
    length junk = length b + length d.
Proof.
  intros -> -> ->. exists (drop (length c) (b ++ c ++ d)). unfold copy_within.
  rewrite (app_assoc a b), (slice_mid (a ++ b) c d) by (rewrite ?length_app; lia). simpl.
  rewrite <- app_assoc. split; [|rewrite length_drop, !length_app; lia].
  apply write_at_over; [done|]. rewrite !length_app. lia.
Qed.
End arrays.

Lemma checked_minus_le a b : b <= a -> checked_minus a b = Some (a - b).
Proof. intros H. unfold checked_minus. by rewrite (proj2 (Nat.leb_le _ _) H). Qed.

Lemma u16_try_from_le n : (N.of_nat n <= u16_max)%N -> u16_try_from n = Some n.
Proof. intros H. unfold u16_try_from. by rewrite (proj2 (N.leb_le _ _) H). Qed.

Lemma lower_as_bytes s : lower (as_bytes s) = as_bytes (make_ascii_lowercase s).
Proof. unfold lower, as_bytes. induction s as [|a s IH]; simpl; [done|]. by rewrite <- IH. Qed.

Lemma as_bytes_inj s t : as_bytes s = as_bytes t -> s = t.
Proof.
  unfold as_bytes. intros H. by rewrite <- (String.string_of_list_ascii_of_string s), H,
    String.string_of_list_ascii_of_string.
Qed.

Lemma eq_ignore_case_same_name k v name :
  eq_ignore_case (as_bytes k) (as_bytes name) = HeaderMap.same_name name (k, v).
Proof.
  apply eq_true_iff_eq. unfold eq_ignore_case.
  rewrite HeaderMap.same_name_spec, bool_decide_eq_true, !lower_as_bytes. simpl.
  split; [apply as_bytes_inj|by intros ->].
Qed.

(** ** Reading *)

Section reads.
Context (h : FixedHeaders).

Lemma key_value_of l1 k v l2 junk :
  arena h = flat (l1 ++ (k, v) :: l2) ++ junk ->
  key_of h (mk_entry (length (flat l1)) (length (as_bytes k)) (length v)) = Some (as_bytes k) /\
  value_of h (mk_entry (length (flat l1)) (length (as_bytes k)) (length v)) = Some v.
Proof.
  intros Ha. rewrite flat_app in Ha. simpl in Ha. unfold key_of, value_of. rewrite Ha. simpl. split.
  - rewrite <- !app_assoc. by apply slice_mid.
  - rewrite !app_assoc, <- (app_assoc _ _ junk), <- (app_assoc _ v).
    apply slice_mid; rewrite length_app; lia.
Qed.

Lemma find_entry_spec name l1 l2 junk :
  arena h = flat (l1 ++ l2) ++ junk ->
  find_entry h (as_bytes name) (layout (length (flat l1)) l2) =
    Some (position (HeaderMap.same_name name) l2).
Proof.
  revert l1. induction l2 as [|[k v] l2 IH]; intros l1 Ha; [done|].
  cbn [layout find_entry]. destruct (key_value_of l1 k v l2 junk Ha) as [-> _].
  cbn [mbind option_bind]. rewrite (eq_ignore_case_same_name k v name). simpl.
  destruct (HeaderMap.same_name name (k, v)); [done|].
  specialize (IH (l1 ++ [(k, v)])). rewrite <- app_assoc in IH. specialize (IH Ha).
  rewrite flat_app in IH. simpl in IH. rewrite app_nil_r, !length_app, Nat.add_assoc in IH.
  by rewrite IH.
Qed.

Lemma mapM_raw_entry l1 l2 junk :
  arena h = flat (l1 ++ l2) ++ junk ->
  mapM (raw_entry h) (layout (length (flat l1)) l2) = Some l2.
Proof.
  revert l1. induction l2 as [|[k v] l2 IH]; intros l1 Ha; [done|].
  assert (Hr : raw_entry h (mk_entry (length (flat l1)) (length (as_bytes k)) (length v)) =
    Some (k, v)).
  { unfold raw_entry. destruct (key_value_of l1 k v l2 junk Ha) as [-> ->]. simpl.
    unfold as_bytes. by rewrite String.string_of_list_ascii_of_string. }
  specialize (IH (l1 ++ [(k, v)])). rewrite <- app_assoc in IH. specialize (IH Ha).
  rewrite flat_app in IH. simpl in IH. rewrite app_nil_r, !length_app, Nat.add_assoc in IH.
  simpl. rewrite Hr. simpl. by rewrite IH.
Qed.

Context l (HR : Repr h l).

Lemma live_spec : live h = Some (layout 0 l).
Proof.
  destruct HR as [Hc (tj & Ht) _ _ _ _ _]. unfold live. rewrite Ht, Hc.
  apply slice_prefix. by rewrite length_layout.
Qed.

Lemma fixed_position_spec name :
  fixed_position h name = Some (position (HeaderMap.same_name name) l).
Proof.
  destruct (repr_arena _ _ HR) as (aj & Ha). unfold fixed_position. rewrite live_spec. simpl.
  by apply (find_entry_spec name [] l aj).
Qed.

Lemma raw_entries_spec : raw_entries h = l.
Proof.
  destruct (repr_arena _ _ HR) as (aj & Ha). unfold raw_entries. rewrite live_spec. simpl.
  pose proof (mapM_raw_entry [] l aj Ha) as Hm. simpl in Hm. by rewrite Hm.
Qed.

Lemma table_lookup l1 k v l2 :
  l = l1 ++ (k, v) :: l2 ->
  table h !! length l1 =
    Some (mk_entry (length (flat l1)) (length (as_bytes k)) (length v)).
Proof.
  intros ->. destruct (repr_table _ _ HR) as (tj & ->).
  rewrite layout_app. simpl. rewrite <- app_assoc, lookup_app_r by (rewrite length_layout; lia).
  by rewrite length_layout, Nat.sub_diag.
Qed.

Lemma position_split name i :
  position (HeaderMap.same_name name) l = Some i ->
  exists l1 v l2, l = l1 ++ (make_ascii_lowercase name, v) :: l2 /\ i = length l1.
Proof.
  intros Hp. pose proof (HeaderMap.position_map l name (repr_lower _ _ HR)) as Hs.
  rewrite Hp in Hs. destruct Hs as (v & Hv).
  exists (take i l), v, (drop (S i) l). rewrite take_drop_middle by done. split; [done|].
  apply lookup_lt_Some in Hv. rewrite length_take. lia.
Qed.

Lemma get_spec name : get h name = Some (to_map h !! make_ascii_lowercase name).
Proof.
  unfold get, to_map. rewrite fixed_position_spec, raw_entries_spec. simpl.
  pose proof (HeaderMap.position_map l name (repr_lower _ _ HR)) as Hs.
  destruct (position _ l) as [i|] eqn:Hp.
  - destruct (position_split _ _ Hp) as (l1 & v & l2 & Hl & ->).
    rewrite (table_lookup _ _ _ _ Hl). simpl.
    destruct (repr_arena _ _ HR) as (aj & Ha). rewrite Hl in Ha.
    destruct (key_value_of _ _ _ _ _ Ha) as [_ ->]. simpl. f_equal. symmetry.
    apply elem_of_list_to_map_1; [apply HR|]. rewrite Hl. apply elem_of_app. right. left.
  - f_equal. symmetry. by apply not_elem_of_list_to_map_1.
Qed.
End reads.

Lemma Repr_wf h l : Repr h l -> wf h.
Proof. intros HR. unfold wf. by rewrite (raw_entries_spec h l HR). Qed.

(** ** Removing *)

Lemma mapM_shift_down gone off s l :
  (N.of_nat s <= u16_max)%N -> s = key_len gone + value_len gone ->
  mapM (shift_down gone) (layout (off + s) l) = Some (layout off l).
Proof.
  intros Hs Heq. revert off. induction l as [|[k v] l IH]; intros off; [done|].
  assert (Hr : shift_down gone (mk_entry (off + s) (length (as_bytes k)) (length v)) =
    Some (mk_entry off (length (as_bytes k)) (length v))).
  { unfold shift_down. rewrite <- Heq, (u16_try_from_le s Hs). simpl.
    rewrite checked_minus_le by lia. simpl. by replace (off + s - s) with off by lia. }
  simpl. rewrite Hr. simpl. replace (off + s + length (as_bytes k) + length v) with
    (off + length (as_bytes k) + length v + s) by lia.
  by rewrite IH.
Qed.

Lemma Repr_prefix_le h l : Repr h l -> (N.of_nat (length (flat l)) <= u16_max)%N.
Proof.
  intros HR. destruct (repr_arena _ _ HR) as (aj & Ha). pose proof (repr_u16 _ _ HR) as H.
  rewrite Ha, length_app in H. lia.
Qed.

Lemma remove_at_spec h l1 k v l2 :
  Repr h (l1 ++ (k, v) :: l2) ->
  exists h', remove_at h (length l1) = Some h' /\ Repr h' (l1 ++ l2) /\
    length (table h') = length (table h) /\ length (arena h') = length (arena h).
Proof.
  intros HR. pose proof (Repr_prefix_le _ _ HR) as Hle. unfold remove_at.
  rewrite (table_lookup h _ HR _ _ _ _ eq_refl).
  destruct HR as [Hc (tj & Ht) (aj & Ha) Hu H16 Hl Hd].
  cbn [mbind option_bind].
  rewrite flat_app in Ha, Hu, Hle. simpl in Ha, Hu, Hle. rewrite !length_app in Hu, Hle.
  rewrite layout_app in Ht. simpl in Ht. rewrite length_app in Hc. simpl in Hc.
  assert (Ha' : arena h = flat l1 ++ (as_bytes k ++ v) ++ flat l2 ++ aj)
    by (rewrite Ha, !app_assoc; done).
  clear Ha. rename Ha' into Ha. rewrite <- app_assoc in Ht. simpl in Ht.
  destruct (copy_within_mid (flat l1) (as_bytes k ++ v) (flat l2) aj
    (length (flat l1) + (length (as_bytes k) + length v)) (used h) (length (flat l1)))
    as (aj' & Hcp & Haj); [rewrite length_app; lia|rewrite length_app; lia|done|].
  unfold size_of_entry. cbn [start key_len value_len]. rewrite Ha, Hcp. cbn [mbind option_bind start].
  rewrite checked_minus_le by lia. cbn [mbind option_bind].
  destruct (copy_within_mid (layout 0 l1)
    [mk_entry (length (flat l1)) (length (as_bytes k)) (length v)]
    (layout (length (flat l1) + length (as_bytes k) + length v) l2) tj
    (length l1 + 1) (count h) (length l1)) as (tj' & Htp & Htj);
    [by rewrite length_layout|rewrite !length_layout; simpl; lia|by rewrite length_layout|].
  simpl in Htp. rewrite Ht, Htp. cbn [mbind option_bind]. rewrite checked_minus_le by lia.
  cbn [mbind option_bind].
  rewrite slice_mid by (rewrite ?length_layout; lia). cbn [mbind option_bind].
  rewrite <- Nat.add_assoc. rewrite mapM_shift_down by (simpl; lia). cbn [mbind option_bind].
  rewrite write_at_over by (rewrite ?length_app, ?length_layout; lia).
  cbn [mbind option_bind]. rewrite drop_app_ge by (rewrite !length_layout; lia).
  eexists. split; [reflexivity|]. cbn [table arena].
  split; [|rewrite ?Ha, ?Ht, !length_app, ?length_cons, length_drop, ?length_app, !length_layout;
           simpl in *; rewrite ?length_app in *; lia].
  split; cbn [table arena used count].
  - rewrite length_app. lia.
  - eexists. rewrite layout_app, <- app_assoc. reflexivity.
  - eexists. rewrite flat_app, <- app_assoc. reflexivity.
  - rewrite flat_app, length_app. lia.
  - rewrite Ha in H16. rewrite !length_app in *. lia.
  - apply Forall_app in Hl as [? Hl]. apply Forall_app. split; [done|]. by apply Forall_cons_1 in Hl as [_ ?].
  - rewrite fmap_app in *. simpl in Hd. apply NoDup_app in Hd as (?&Hdis&[??]%NoDup_cons).
    apply NoDup_app. split_and!; [done| |done]. intros x Hx Hx'. apply (Hdis x Hx). by right.
Qed.

(** ** Inserting *)

(** The entries under other names. *)
Definition without (key : string) l := List.filter (fun e => negb (String.eqb e.1 key)) l.

Lemma without_absent key l : key ∉ fst <$> l -> without key l = l.
Proof.
  intros Hk. apply filterb_all. intros e He. apply negb_true_iff, String.eqb_neq. intros <-.
  apply Hk. apply list_elem_of_fmap. by exists e.
Qed.

Lemma without_present key v l1 l2 :
  NoDup (fst <$> l1 ++ (key, v) :: l2) -> without key (l1 ++ (key, v) :: l2) = l1 ++ l2.
Proof.
  rewrite fmap_app. intros (_ & Hdis & [Hn _]%NoDup_cons)%NoDup_app.
  unfold without. rewrite List.filter_app. simpl. rewrite String.eqb_refl. simpl.
  f_equal; apply without_absent; [|done]. intros Hk. apply (Hdis _ Hk). left.
Qed.

(** Room for a header: its slot, or a free one, and its bytes once the old value is gone. *)
Definition fits (h : FixedHeaders) l (name : string) (value : bytes) : Prop :=
  (make_ascii_lowercase name ∈ fst <$> l \/ length l < length (table h)) /\
  length (flat (without (make_ascii_lowercase name) l)) + String.length name + length value
    <= length (arena h).

(** The tail of [insert]: the entry written after the last one. *)
Lemma append_spec h l name value :
  Repr h l -> make_ascii_lowercase name ∉ fst <$> l ->
  length l < length (table h) ->
  length (flat l) + String.length name + length value <= length (arena h) ->
  exists h', append_entry h name value (String.length name) (length value) = Some (Ok h') /\
    Repr h' (l ++ [(make_ascii_lowercase name, value)]) /\
    length (table h') = length (table h) /\ length (arena h') = length (arena h).
Proof.
  intros HR Hk Hslot Hroom. pose proof (Repr_prefix_le _ _ HR) as Hle.
  destruct HR as [Hc (tj & Ht) (aj & Ha) Hu H16 Hl Hd].
  assert (Hn : length (lower (as_bytes name)) = String.length name)
    by (unfold lower; rewrite length_fmap; apply as_bytes_length).
  assert (Haj : length (arena h) = length (flat l) + length aj) by (by rewrite Ha, length_app).
  assert (Htj : length (table h) = length l + length tj)
    by (by rewrite Ht, length_app, length_layout).
  assert (W1 : write_at (used h) (lower (as_bytes name)) (arena h) =
    Some (flat l ++ lower (as_bytes name) ++ drop (String.length name) aj)).
  { rewrite Ha, write_at_over by (rewrite ?Hn; lia). by rewrite Hn. }
  assert (W2 : write_at (used h + String.length name) value
      (flat l ++ lower (as_bytes name) ++ drop (String.length name) aj) =
    Some ((flat l ++ lower (as_bytes name)) ++ value ++
      drop (length value) (drop (String.length name) aj))).
  { rewrite app_assoc. apply write_at_over; [rewrite length_app; lia|rewrite length_drop; lia]. }
  assert (W3 : write_at (count h) [mk_entry (used h) (String.length name) (length value)] (table h) =
    Some (layout 0 l ++ [mk_entry (used h) (String.length name) (length value)] ++ drop 1 tj)).
  { rewrite Ht. apply write_at_over; [by rewrite length_layout|simpl; lia]. }
  eexists. split; [|split_and!].
  - unfold append_entry. rewrite W1. cbn [mbind option_bind]. rewrite W2. cbn [mbind option_bind].
    rewrite u16_try_from_le by (by rewrite Hu). rewrite W3. reflexivity.
  - split; cbn [table arena used count].
    + rewrite length_app. simpl. lia.
    + exists (drop 1 tj). rewrite layout_app. simpl. rewrite <- app_assoc. simpl.
      by rewrite as_bytes_length, make_ascii_lowercase_length, Hu.
    + exists (drop (length value) (drop (String.length name) aj)).
      rewrite flat_app. simpl. by rewrite app_nil_r, <- lower_as_bytes, !app_assoc.
    + rewrite flat_app, length_app. simpl.
      rewrite app_nil_r, length_app, as_bytes_length, make_ascii_lowercase_length. lia.
    + rewrite !length_app, !length_drop, Hn. rewrite Haj in H16. lia.
    + apply Forall_app. split; [done|]. repeat constructor. apply make_ascii_lowercase_idem.
    + rewrite fmap_app. apply NoDup_app. split_and!; [done| |apply NoDup_singleton].
      intros x Hx ->%list_elem_of_singleton. done.
  - cbn [table]. rewrite !length_app, length_layout, length_drop. simpl. lia.
  - cbn [arena]. rewrite !length_app, !length_drop, Hn. lia.
Qed.

Lemma insert_fixed_spec h l name value :
  Repr h l ->
  (fits h l name value /\ exists h', insert_fixed h name value = Some (Ok h') /\
     Repr h' (without (make_ascii_lowercase name) l ++ [(make_ascii_lowercase name, value)]) /\
     length (table h') = length (table h) /\ length (arena h') = length (arena h)) \/
  (~ fits h l name value /\ insert_fixed h name value = Some (Err headers_full)).
Proof.
  intros HR. pose proof (Repr_prefix_le _ _ HR) as Hle. pose proof (repr_u16 _ _ HR) as H16.
  set (key := make_ascii_lowercase name). unfold insert_fixed.
  rewrite (fixed_position_spec h l HR). cbn [mbind option_bind].
  pose proof (HeaderMap.position_map l name (repr_lower _ _ HR)) as Hs.
  assert (Hnarrow : forall n, u16_try_from n = Some n \/
    (u16_try_from n = None /\ (u16_max < N.of_nat n)%N)).
  { intros n. unfold u16_try_from. destruct (N.leb_spec (N.of_nat n) u16_max); [by left|by right]. }
  destruct (position _ l) as [i|] eqn:Hp.
  - destruct (position_split _ _ HR _ _ Hp) as (l1 & v & l2 & -> & ->). fold key in HR, Hs |- *.
    rewrite (table_lookup h _ HR _ _ _ _ eq_refl). cbn.
    assert (Hw : without key (l1 ++ (key, v) :: l2) = l1 ++ l2) by apply without_present, HR.
    assert (Hu : used h = length (flat (l1 ++ l2)) + (length (as_bytes key) + length v)).
    { rewrite (repr_used _ _ HR), !flat_app. simpl. rewrite !length_app. lia. }
    destruct (Hnarrow (String.length name)) as [->|[-> ?]]; cycle 1.
    { right. split; [|done]. unfold fits. fold key. rewrite Hw. lia. }
    destruct (Hnarrow (length value)) as [->|[-> ?]]; cycle 1.
    { right. split; [|done]. unfold fits. fold key. rewrite Hw. lia. }
    unfold size_of_entry. cbn [key_len value_len]. rewrite checked_minus_le by lia. cbn [mbind option_bind].
    destruct (Nat.ltb_spec (length (arena h)) (used h - (length (as_bytes key) + length v) +
      (String.length name + length value))).
    { right. split; [|done]. unfold fits. fold key. rewrite Hw. lia. }
    left. split.
    { unfold fits. fold key. rewrite Hw. split; [left|lia].
      rewrite fmap_app. apply elem_of_app. right. left. }
    destruct (remove_at_spec h _ _ _ _ HR) as (h1 & -> & HR1 & Ht1 & Ha1). cbn [mbind option_bind].
    rewrite Hw. destruct (append_spec h1 _ name value HR1) as (h2 & -> & HR2 & Ht2 & Ha2).
    + pose proof (repr_nodup _ _ HR) as Hd. rewrite fmap_app in *. simpl in Hd.
      apply NoDup_app in Hd as (_ & Hdis & [Hn _]%NoDup_cons).
      intros [Hin|Hin]%elem_of_app; [|done]. apply (Hdis _ Hin). left.
    + pose proof (repr_count _ _ HR) as Hc. destruct (repr_table _ _ HR) as (tj & Ht).
      rewrite Ht1, Ht, !length_app, length_layout, length_app. simpl. lia.
    + rewrite Ha1. lia.
    + exists h2. by rewrite Ht2, Ha2.
  - fold key in Hs. assert (Hw : without key l = l) by by apply without_absent.
    pose proof (repr_used _ _ HR) as Hu. pose proof (repr_count _ _ HR) as Hc. cbn.
    destruct (Hnarrow (String.length name)) as [->|[-> ?]]; cycle 1.
    { right. split; [|done]. unfold fits. fold key. rewrite Hw. lia. }
    destruct (Hnarrow (length value)) as [->|[-> ?]]; cycle 1.
    { right. split; [|done]. unfold fits. fold key. rewrite Hw. lia. }
    rewrite checked_minus_le by lia. cbn [mbind option_bind]. rewrite Nat.sub_0_r.
    destruct (Nat.ltb_spec (count h) (length (table h))); cycle 1.
    { right. split; [|done]. unfold fits. fold key. intros [[?|?] _]; [done|lia]. }
    destruct (Nat.ltb_spec (length (arena h)) (used h + (String.length name + length value))).
    { right. split; [|done]. unfold fits. fold key. rewrite Hw. lia. }
    left. split; [unfold fits; fold key; rewrite Hw; lia|]. simpl. rewrite Hw.
    apply append_spec; [done|done|lia|lia].
Qed.

Lemma fixed_remove_spec h l name :
  Repr h l ->
  exists h', remove h name = Some (h', bool_decide (make_ascii_lowercase name ∈ fst <$> l)) /\
    Repr h' (without (make_ascii_lowercase name) l) /\
    length (table h') = length (table h) /\ length (arena h') = length (arena h).
Proof.
  intros HR. unfold remove. rewrite (fixed_position_spec h l HR). cbn [mbind option_bind].
  pose proof (HeaderMap.position_map l name (repr_lower _ _ HR)) as Hs.
  destruct (position _ l) as [i|] eqn:Hp.
  - destruct (position_split _ _ HR _ _ Hp) as (l1 & v & l2 & Hl & ->). rewrite Hl in HR.
    destruct (remove_at_spec h _ _ _ _ HR) as (h' & -> & HR' & Ht & Ha). simpl.
    exists h'. rewrite bool_decide_true.
    + rewrite Hl, without_present by apply HR. done.
    + rewrite Hl, fmap_app. apply elem_of_app. right. left.
  - exists h. rewrite bool_decide_false, without_absent by done. done.
Qed.

(** The map a list of entries denotes, under the operations on lists. *)
Lemma without_map key l :
  list_to_map (without key l) =@{gmap string bytes} delete key (list_to_map l).
Proof.
  induction l as [|[k v] l IH]; simpl; [by rewrite delete_empty|].
  destruct (String.eqb_spec k key) as [->|Hne]; simpl; rewrite IH.
  - by rewrite delete_insert_eq.
  - by rewrite delete_insert_ne.
Qed.

Lemma insert_map key value l :
  list_to_map (without key l ++ [(key, value)]) =@{gmap string bytes}
    <[key := value]> (list_to_map l).
Proof.
  rewrite HeaderMap.snoc_map.
  - by rewrite without_map, insert_delete_eq.
  - intros (e & -> & [He _]%elem_of_filterb)%list_elem_of_fmap.
    by rewrite String.eqb_refl in He.
Qed.

Lemma new_Repr entries room : (N.of_nat room <= u16_max)%N -> Repr (new entries room) [].
Proof.
  intros H. split; simpl; [done|by eexists|by eexists|done| |done|constructor].
  by rewrite length_replicate.
Qed.

#[global] Instance fixed_store : HeaderStore FixedHeaders := {
  hs_new := new 16 1024;
  hs_get h name := default None (get h name);
  hs_insert h name value :=
    match insert_fixed h name value with Some (Ok h) => Some h | _ => None end;
  hs_remove h name := match remove h name with Some (h, _) => h | None => h end;
  hs_inv := wf;
  hs_map := to_map;
}.

#[global] Instance fixed_store_laws : HeaderStoreLaws FixedHeaders.
Proof.
  split; simpl.
  - pose proof (new_Repr 16 1024 ltac:(by vm_compute)) as HR. split; [by eapply Repr_wf|].
    unfold to_map. by rewrite (raw_entries_spec _ _ HR).
  - intros h name Hwf. by rewrite (get_spec h _ Hwf).
  - intros h name value h' Hwf Hi. destruct (insert_fixed_spec h _ name value Hwf)
      as [(_ & h2 & E & HR & _)|[_ E]]; rewrite E in Hi; [injection Hi as <-|done].
    split; [by eapply Repr_wf|]. unfold to_map at 1. rewrite (raw_entries_spec _ _ HR).
    apply insert_map.
  - intros h name Hwf. destruct (fixed_remove_spec h _ name Hwf) as (h' & -> & HR & _).
    split; [by eapply Repr_wf|]. unfold to_map at 1. rewrite (raw_entries_spec _ _ HR).
    apply without_map.
Qed.

(** ** Overwriting and comparing *)

Definition text_keys l : Prop := Forall (fun e => utf8_valid (as_bytes e.1) = true) l.

Lemma iter_spec h l : Repr h l -> text_keys l -> iter h = Some l.
Proof.
  intros HR Htext. unfold iter. rewrite (live_spec h l HR). cbn [mbind option_bind].
  destruct (repr_arena _ _ HR) as (junk & Ha). clear HR.
  change (layout 0 l) with (layout (length (flat [])) l).
  change (flat l ++ junk) with (flat ([] ++ l) ++ junk) in Ha. revert Ha.
  generalize (@nil (string * bytes)). induction l as [|[k v] l IH]; intros l1 Ha; [done|].
  apply Forall_cons_1 in Htext as [Hk Htext].
  assert (Hr : read_entry h (mk_entry (length (flat l1)) (length (as_bytes k)) (length v)) =
    Some (k, v)).
  { unfold read_entry. destruct (key_value_of h l1 k v l junk Ha) as [-> ->]. simpl.
    unfold from_utf8. simpl in Hk. rewrite Hk. simpl.
    unfold as_bytes. by rewrite String.string_of_list_ascii_of_string. }
  specialize (IH Htext (l1 ++ [(k, v)])). rewrite <- app_assoc in IH. specialize (IH Ha).
  rewrite flat_app in IH. simpl in IH. rewrite app_nil_r, !length_app, Nat.add_assoc in IH.
  simpl. rewrite Hr. simpl. by rewrite IH.
Qed.

Lemma insert_all_spec h lh l :
  Repr h lh -> Forall (fun e => make_ascii_lowercase e.1 = e.1) l -> NoDup (fst <$> l) ->
  (exists h' lh', insert_all h l = Some (Ok h') /\ Repr h' lh' /\
     list_to_map lh' =@{gmap string bytes} list_to_map l ∪ list_to_map lh) \/
  insert_all h l = Some (Err headers_full).
Proof.
  revert h lh. induction l as [|[k v] l IH]; intros h lh HR Hl Hd; simpl.
  - left. exists h, lh. split_and!; [done|done|]. by rewrite (left_id_L ∅ (∪)).
  - apply Forall_cons_1 in Hl as [Hk Hl]. apply NoDup_cons in Hd as [Hn Hd]. simpl in Hk.
    destruct (insert_fixed_spec h lh k v HR) as [(_ & h1 & -> & HR1 & _)|[_ ->]]; [|by right].
    cbn [mbind option_bind].
    destruct (IH h1 _ HR1 Hl Hd) as [(h2 & l2 & -> & HR2 & Hm)| ->]; [left|by right].
    exists h2, l2. split_and!; [done|done|]. rewrite Hm, insert_map, Hk.
    rewrite <- insert_union_l, <- insert_union_r; [done|]. by apply not_elem_of_list_to_map_1.
Qed.

Lemma all_equal_spec h lh l :
  Repr h lh -> Forall (fun e => make_ascii_lowercase e.1 = e.1) l ->
  all_equal h l = Some (bool_decide (Forall (fun e => to_map h !! e.1 = Some e.2) l)).
Proof.
  intros HR. induction 1 as [|[k v] l Hk Hl IH]; simpl; [done|].
  rewrite (get_spec h lh HR). simpl in *. rewrite Hk.
  destruct (decide (to_map h !! k = Some v)) as [Hd|Hd].
  - rewrite bool_decide_true by congruence. rewrite IH. f_equal. apply bool_decide_ext.
    rewrite Forall_cons. tauto.
  - rewrite bool_decide_false by congruence. f_equal. symmetry. apply bool_decide_eq_false_2.
    rewrite Forall_cons. tauto.
Qed.

(** ** Properties *)

(** C40. On every reachable state [FixedHeaders::insert] returns without a panic: it succeeds
    exactly when the header fits (a slot, and the bytes once the value it replaces is freed), the
    result is again well formed within the same storage and holds the finite-map insert, and
    otherwise it reports [HeadersFull]. No offset or length leaves [u16] on the way. *)
Theorem fixed_insert_correct h name value :
  wf h ->
  (fits h (raw_entries h) name value /\
   exists h', insert_fixed h name value = Some (Ok h') /\ wf h' /\
     to_map h' = <[make_ascii_lowercase name := value]> (to_map h) /\
     length (table h') = length (table h) /\ length (arena h') = length (arena h)) \/
  (~ fits h (raw_entries h) name value /\ insert_fixed h name value = Some (Err headers_full)).
Proof.
  intros Hwf. destruct (insert_fixed_spec h _ name value Hwf) as [(Hf & h' & E & HR & Hc)|?];
    [left|by right].
  split; [done|]. exists h'. split_and!; [done|by eapply Repr_wf| |by apply Hc|by apply Hc].
  unfold to_map at 1. rewrite (raw_entries_spec _ _ HR). apply insert_map.
Qed.

Lemma fixed_insert_correct_witness :
  exists h', insert_fixed (new 3 32) "Reply-To" (as_bytes "inbox") = Some (Ok h') /\
    wf h' /\ to_map h' = <["reply-to" := as_bytes "inbox"]> (to_map (new 3 32)).
Proof.
  assert (Hwf : wf (new 3 32)) by (eapply Repr_wf, new_Repr; by vm_compute).
  destruct (fixed_insert_correct (new 3 32) "Reply-To" (as_bytes "inbox") Hwf)
    as [(_ & h' & H1 & H2 & H3 & _)|[_ H]]; [by exists h'|vm_compute in H; discriminate].
Defined.

(** Lookup and removal on fixed headers never panic and are the finite map's, in whichever
    casing the name is written; a removal keeps the other entries in order and compacted. *)
Theorem fixed_get_and_remove_correct h name :
  wf h ->
  get h name = Some (to_map h !! make_ascii_lowercase name) /\
  exists h', remove h name = Some (h', bool_decide (make_ascii_lowercase name ∈ fst <$> raw_entries h)) /\
    wf h' /\ raw_entries h' = without (make_ascii_lowercase name) (raw_entries h) /\
    to_map h' = delete (make_ascii_lowercase name) (to_map h).
Proof.
  intros Hwf. split; [by eapply get_spec|].
  destruct (fixed_remove_spec h _ name Hwf) as (h' & E & HR & _). exists h'.
  pose proof (raw_entries_spec _ _ HR) as Hraw.
  split_and!; [done|by eapply Repr_wf|done|]. unfold to_map at 1. rewrite Hraw. apply without_map.
Qed.

Definition one_header : FixedHeaders :=
  match insert_fixed (new 3 32) "Reply-To" (as_bytes "inbox") with
  | Some (Ok h) => h
  | _ => new 3 32
  end.

Lemma one_header_wf : wf one_header.
Proof.
  unfold one_header.
  destruct (insert_fixed_spec (new 3 32) [] "Reply-To" (as_bytes "inbox")) as [(_ & h & -> & H & _)|[_ ->]].
  - by apply new_Repr.
  - by eapply Repr_wf.
  - by eapply Repr_wf, new_Repr.
Qed.

Lemma fixed_get_and_remove_correct_witness :
  get one_header "REPLY-TO" = Some (to_map one_header !! "reply-to") /\
  get one_header "REPLY-TO" = Some (Some (as_bytes "inbox")).
Proof.
  split; [|by vm_compute]. exact (proj1 (fixed_get_and_remove_correct one_header "REPLY-TO" one_header_wf)).
Defined.

(** Overwriting fixed headers is all or nothing: it ends either with the union, the other
    map's values winning, or with [HeadersFull] and the receiver as it was; and two fixed maps
    compare equal exactly when they hold the same headers. *)
Theorem fixed_overwrite_atomic h other :
  wf h -> wf other -> text_keys (raw_entries h) -> text_keys (raw_entries other) ->
  ((exists h', overwrite_with h other = Some (h', Ok tt) /\ wf h' /\
      to_map h' = to_map other ∪ to_map h) \/
   overwrite_with h other = Some (h, Err headers_full)) /\
  (fixed_eq h other = Some true <-> to_map h = to_map other).
Proof.
  intros Hh Ho Th To. split.
  - unfold overwrite_with. rewrite (iter_spec _ _ Ho To). cbn [mbind option_bind].
    destruct (insert_all_spec h _ _ Hh (repr_lower _ _ Ho) (repr_nodup _ _ Ho))
      as [(h' & l' & -> & HR & Hm)| ->]; [left|by right].
    exists h'. split_and!; [done|by eapply Repr_wf|]. unfold to_map at 1.
    by rewrite (raw_entries_spec _ _ HR).
  - unfold fixed_eq, len. rewrite (iter_spec _ _ Hh Th). cbn [mbind option_bind].
    rewrite (all_equal_spec other _ _ Ho (repr_lower _ _ Hh)).
    rewrite (repr_count _ _ Hh), (repr_count _ _ Ho).
    assert (Hsz : forall x, wf x -> size (to_map x) = length (raw_entries x)).
    { intros x Hx. unfold to_map. rewrite map_size_list_to_map by apply Hx. done. }
    assert (Hin : forall e, e ∈ raw_entries h <-> to_map h !! e.1 = Some e.2).
    { intros [k v]. unfold to_map. by rewrite <- elem_of_list_to_map by apply Hh. }
    destruct (Nat.eqb_spec (length (raw_entries h)) (length (raw_entries other))) as [Hlen|Hlen].
    + split.
      * intros [= Hall%bool_decide_eq_true]. rewrite Forall_forall in Hall.
        apply map_subseteq_size_eq; [|by rewrite !Hsz, Hlen].
        apply map_subseteq_spec. intros k v Hk. apply (Hin (k, v)) in Hk. by apply (Hall (k, v)).
      * intros Heq. f_equal. apply bool_decide_eq_true_2. rewrite <- Heq. apply Forall_forall.
        intros e He. by apply Hin.
    + split; [done|]. intros Heq. destruct Hlen. by rewrite <- !Hsz, Heq.
Qed.

Lemma fixed_overwrite_atomic_witness :
  (exists h', overwrite_with (new 3 32) one_header = Some (h', Ok tt) /\
     to_map h' = to_map one_header ∪ to_map (new 3 32)).
Proof.
  assert (Hwf : wf (new 3 32)) by (eapply Repr_wf, new_Repr; by vm_compute).
  assert (Ht : text_keys (raw_entries (new 3 32))) by constructor.
  assert (Ht1 : text_keys (raw_entries one_header)) by (by repeat constructor).
  destruct (fixed_overwrite_atomic (new 3 32) one_header Hwf one_header_wf Ht Ht1)
    as [[(h' & H1 & _ & H3)|H] _]; [by exists h'|vm_compute in H; discriminate].
Defined.

End Fixed.
