(* ===== verification/TypedText.v ===== *)
(** * Texts of the typed headers ([crates/core/src/typed_headers/inline.rs], [repr.rs])

    The bounded texts of a build without an allocator ([Inline]), the two forms an error text, a
    field value and a key take ([repr::form]), and the scalars' [Display] and [FromStr] in
    [core]: integers of every width, [bool] and [char].  The theorem is that a cut text is the
    longest prefix of whole characters that fits. *)
From Stdlib Require Import Ascii String.
From S2P Require Import Prelude RustStd.

Module Text.

(** ** UTF-8 sequences: [str::is_char_boundary], [utf8_chunks] *)

Definition second_of_three (a b : byte) : bool :=
  if byte_in 224 224 a then byte_in 160 191 b
  else if byte_in 237 237 a then byte_in 128 159 b else continuation b.
Definition second_of_four (a b : byte) : bool :=
  if byte_in 240 240 a then byte_in 144 191 b
  else if byte_in 244 244 a then byte_in 128 143 b else continuation b.

(** The head of the input: [Ok n] is a character of [n] bytes, [Err n] the [n] bytes
    [Utf8Chunks] reports as one invalid sequence. *)
Definition utf8_step (s : bytes) : result nat nat :=
  match s with
  | [] => Err 0
  | a :: rest =>
      if byte_in 0 127 a then Ok 1
      else if byte_in 194 223 a then
        match rest with
        | b :: _ => if continuation b then Ok 2 else Err 1
        | [] => Err 1
        end
      else if byte_in 224 239 a then
        match rest with
        | b :: rest =>
            if second_of_three a b then
              match rest with
              | c :: _ => if continuation c then Ok 3 else Err 2
              | [] => Err 2
              end
            else Err 1
        | [] => Err 1
        end
      else if byte_in 240 244 a then
        match rest with
        | b :: rest =>
            if second_of_four a b then
              match rest with
              | c :: rest =>
                  if continuation c then
                    match rest with
                    | d :: _ => if continuation d then Ok 4 else Err 3
                    | [] => Err 3
                    end
                  else Err 2
              | [] => Err 2
              end
            else Err 1
        | [] => Err 1
        end
      else Err 1
  end.

Definition is_char_boundary (s : bytes) (i : nat) : bool :=
  match s !! i with
  | Some b => Nat.eqb i 0 || negb (continuation b)
  | None => Nat.eqb i (length s)
  end.

(** The chunks of a text: what is valid up to an invalid sequence, and that sequence (empty at
    the end). *)
Fixpoint utf8_chunks (fuel : nat) (valid s : bytes) : list (bytes * bytes) :=
  match fuel with
  | O => []
  | S fuel =>
      match s with
      | [] => if Nat.eqb (length valid) 0 then [] else [(valid, [])]
      | _ =>
          match utf8_step s with
          | Ok n => utf8_chunks fuel (valid ++ take n s) (drop n s)
          | Err n => (valid, take n s) :: utf8_chunks fuel [] (drop n s)
          end
      end
  end.

(** ** [Inline<ROOM>], as the bytes it holds *)

Inductive Overflow := overflow.

Definition try_push (ROOM : nat) (run data : bytes) : result bytes Overflow :=
  if ROOM <? length run + length data then Err overflow else Ok (run ++ data).

(** [while !text.is_char_boundary(take) { take -= 1 }]. *)
Fixpoint boundary_below (text : bytes) (n : nat) : nat :=
  if is_char_boundary text n then n
  else match n with
       | O => O
       | S n => boundary_below text n
       end.

Definition push_truncated (ROOM : nat) (run text : bytes) : bytes :=
  let n := boundary_below text (Nat.min (length text) (ROOM - length run)) in
  match try_push ROOM run (take n text) with
  | Ok run => run
  | Err overflow => run
  end.

Definition truncated (ROOM : nat) (text : bytes) : bytes := push_truncated ROOM [] text.

Definition replacement : bytes := ascii_of_N <$> [239; 191; 189]%N.

Definition lossy_step (ROOM : nat) (run : bytes) (chunk : bytes * bytes) : bytes :=
  let run := push_truncated ROOM run chunk.1 in
  if Nat.eqb (length chunk.2) 0 then run else push_truncated ROOM run replacement.
Definition lossy (ROOM : nat) (b : bytes) : bytes :=
  fold_left (lossy_step ROOM) (utf8_chunks (S (length b)) [] b) [].

(** A [Display] value is the pieces it writes, in order. *)
Definition display (ROOM : nat) (pieces : list string) : bytes :=
  fold_left (push_truncated ROOM) (as_bytes <$> pieces) [].

(** [fmt::Write] for [Inline]: the first piece that does not fit ends the formatting. *)
Fixpoint write_pieces (ROOM : nat) (run : bytes) (pieces : list bytes) : result bytes Overflow :=
  match pieces with
  | [] => Ok run
  | piece :: rest => let? run := try_push ROOM run piece in write_pieces ROOM run rest
  end.

(** ** The two forms ([repr::form]) *)

(** The rooms of a text and of a field value; a build with an allocator bounds neither. *)
Record Form := mk_form { text_room : option nat; scalar_room : option nat }.
Definition alloc_form : Form := mk_form None None.
Definition fixed_form : Form := mk_form (Some 32) (Some 64).

Definition to_text (b : bytes) : string := String.string_of_list_ascii b.

Definition text (fm : Form) (name : string) : string :=
  match text_room fm with
  | None => name
  | Some room => to_text (truncated room (as_bytes name))
  end.

Definition lossy_piece (chunk : bytes * bytes) : bytes :=
  chunk.1 ++ (if Nat.eqb (length chunk.2) 0 then [] else replacement).
Definition text_lossy (fm : Form) (b : bytes) : string :=
  match text_room fm with
  | None => to_text (concat (lossy_piece <$> utf8_chunks (S (length b)) [] b))
  | Some room => to_text (lossy room b)
  end.

Definition text_of (fm : Form) (pieces : list string) : string :=
  match text_room fm with
  | None => to_text (concat (as_bytes <$> pieces))
  | Some room => to_text (display room pieces)
  end.

(** [scalar_display], and [key_display] with the room of a key. *)
Definition collect_pieces (room : option nat) (pieces : list string) : option bytes :=
  match room with
  | None => Some (concat (as_bytes <$> pieces))
  | Some room =>
      match write_pieces room [] (as_bytes <$> pieces) with
      | Ok run => Some run
      | Err overflow => None
      end
  end.

(** [scalar_bytes] and [scalar_static], and [key] with the room of a key. *)
Definition collect_bytes (room : option nat) (b : bytes) : option bytes :=
  match room with
  | None => Some b
  | Some room =>
      match try_push room [] b with
      | Ok run => Some run
      | Err overflow => None
      end
  end.

(** ** Scalars: [Display] and [FromStr] *)

Inductive int_ty := I8 | I16 | I32 | I64 | I128 | U8 | U16 | U32 | U64 | U128.

#[export] Instance int_ty_eq_dec : EqDecision int_ty.
Proof. solve_decision. Defined.

Definition signed (t : int_ty) : bool :=
  match t with
  | I8 | I16 | I32 | I64 | I128 => true
  | _ => false
  end.
Definition bits (t : int_ty) : N :=
  match t with
  | I8 | U8 => 8
  | I16 | U16 => 16
  | I32 | U32 => 32
  | I64 | U64 => 64
  | I128 | U128 => 128
  end.

(** The largest value, and how far below zero the type goes. *)
Definition int_max (t : int_ty) : N :=
  if signed t then 2 ^ (bits t - 1) - 1 else 2 ^ bits t - 1.
Definition int_depth (t : int_ty) : N := if signed t then 2 ^ (bits t - 1) else 0.

Definition int_in (t : int_ty) (n : Z) : Prop :=
  (- Z.of_N (int_depth t) <= n <= Z.of_N (int_max t))%Z.

(** At most thirty-nine digits, those of [u128::MAX]. *)
Definition int_to_string (n : Z) : string :=
  let digits := print_digits 39 (Z.abs_N n) EmptyString in
  if (n <? 0)%Z then String "-" digits else digits.

(** [from_str_radix(10)]: a sign needs digits after it, [-] is a sign only for a signed type. *)
Definition int_parse (t : int_ty) (s : string) : option Z :=
  let positive s := Z.of_N <$> parse_digits (int_max t) 0 s in
  match s with
  | EmptyString => None
  | String a rest =>
      if (Ascii.eqb a "+" || Ascii.eqb a "-") && String.eqb rest "" then None
      else if Ascii.eqb a "+" then positive rest
      else if Ascii.eqb a "-" && signed t then
        (fun n => (- Z.of_N n)%Z) <$> parse_digits (int_depth t) 0 rest
      else positive s
  end.

Definition bool_to_string (b : bool) : string := if b then "true" else "false".
Definition bool_parse (s : string) : option bool :=
  if String.eqb s "true" then Some true
  else if String.eqb s "false" then Some false else None.

(** A [char] is the text of its one character. *)
Definition is_char (s : string) : bool :=
  match utf8_step (as_bytes s) with
  | Ok n => Nat.eqb n (String.length s)
  | Err _ => false
  end.
Definition char_parse (s : string) : option string := if is_char s then Some s else None.

(** Floats print and parse through [core], whose shortest decimal form is not rewritten here:
    what the typed headers use of it is that a float's own text parses back to it. *)
Class FloatText (F : Type) := {
  float_to_string : F -> string;
  float_parse : string -> option F;
  (** every value but NaN, which equals nothing *)
  float_num : F -> Prop;
}.
Class FloatTextLaws (F : Type) `{FloatText F} := {
  float_text_ascii x : ascii_only (as_bytes (float_to_string x));
  float_parse_text x : float_num x -> float_parse (float_to_string x) = Some x;
}.

Example parse_signs :
  int_parse I8 "-128" = Some (-128)%Z /\ int_parse I8 "+7" = Some 7%Z /\ int_parse I8 "128" = None /\
  int_parse U8 "-0" = None /\ int_parse I8 "-0" = Some 0%Z /\ int_parse U8 "+" = None.
Proof. by vm_compute. Qed.

(** ** Characters *)

Lemma second_of_three_continuation a b : second_of_three a b = true -> continuation b = true.
Proof.
  unfold second_of_three, continuation, byte_in. intros H.
  repeat case_in H; bool_prop; apply andb_true_iff; split; apply N.leb_le; lia.
Qed.
Lemma second_of_four_continuation a b : second_of_four a b = true -> continuation b = true.
Proof.
  unfold second_of_four, continuation, byte_in. intros H.
  repeat case_in H; bool_prop; apply andb_true_iff; split; apply N.leb_le; lia.
Qed.

(** A valid text is its first character, whose later bytes continue it, and a valid rest. *)
Lemma utf8_valid_step a s :
  utf8_valid (a :: s) = true ->
  exists tail rest, s = tail ++ rest /\ utf8_step (a :: s) = Ok (S (length tail)) /\
    utf8_valid rest = true /\ Forall (fun b => continuation b = true) tail.
Proof.
  unfold utf8_step. simpl.
  destruct (byte_in 0 127 a) eqn:E1; [intros H; by exists [], s|].
  destruct s as [|b s]; [done|]. destruct (byte_in 194 223 a) eqn:E2.
  { intros [H1 H2]%andb_true_iff. rewrite H1. exists [b], s. by repeat constructor. }
  destruct s as [|c s]; [done|]. fold (second_of_three a b). destruct (byte_in 224 239 a) eqn:E3.
  { intros [[H1 H2]%andb_true_iff H3]%andb_true_iff. rewrite H1, H2.
    apply second_of_three_continuation in H1. exists [b; c], s. by repeat constructor. }
  destruct s as [|d s]; [done|]. fold (second_of_four a b).
  intros [[[[H0 H1]%andb_true_iff H2]%andb_true_iff H3]%andb_true_iff H4]%andb_true_iff.
  rewrite H0, H1, H2, H3. apply second_of_four_continuation in H1.
  exists [b; c; d], s. by repeat constructor.
Qed.

(** And what follows a character does not change it. *)
Lemma utf8_valid_step_app a s n t :
  utf8_step (a :: s) = Ok n -> utf8_valid (a :: s ++ t) = utf8_valid (drop n (a :: s) ++ t).
Proof.
  unfold utf8_step. simpl.
  destruct (byte_in 0 127 a) eqn:E1; [by intros [= <-]|].
  destruct s as [|b s]; [by repeat case_match|]. simpl. destruct (byte_in 194 223 a) eqn:E2.
  { destruct (continuation b); [|done]. by intros [= <-]. }
  destruct s as [|c s]; [by repeat case_match|]. simpl.
  fold (second_of_three a b). destruct (byte_in 224 239 a) eqn:E3.
  { destruct (second_of_three a b); [|done]. destruct (continuation c); [|done]. by intros [= <-]. }
  destruct s as [|d s]; [by repeat case_match|]. simpl. fold (second_of_four a b).
  destruct (byte_in 240 244 a); [|done]. destruct (second_of_four a b); [|done].
  destruct (continuation c); [|done]. destruct (continuation d); [|done]. by intros [= <-].
Qed.

(** Induction over a valid text, one character at a time. *)
Lemma utf8_chars_ind (P : bytes -> Prop) :
  P [] ->
  (forall a tail rest,
     (forall t, utf8_valid (a :: tail ++ t) = utf8_valid t) ->
     utf8_step (a :: tail ++ rest) = Ok (S (length tail)) ->
     Forall (fun b => continuation b = true) tail ->
     utf8_valid rest = true -> P rest -> P (a :: tail ++ rest)) ->
  forall s, utf8_valid s = true -> P s.
Proof.
  intros H0 Hstep s. remember (length s) as n eqn:Hn. revert s Hn.
  induction (lt_wf n) as [n _ IH]. intros [|a s] -> Hs; [done|].
  destruct (utf8_valid_step a s Hs) as (tail & rest & -> & Hst & Hr & Hc).
  apply Hstep; [|done|done|done|].
  - intros t.
    assert (Hst' : utf8_step (a :: tail) = Ok (S (length tail))).
    { clear -Hst. revert Hst. unfold utf8_step.
      destruct tail as [|b [|c [|d [|e tail]]]]; simpl; repeat case_match; try done. }
    rewrite (utf8_valid_step_app _ _ _ t Hst'). simpl. by rewrite drop_all.
  - eapply IH; [|done|done]. simpl. rewrite length_app. lia.
Qed.

Lemma utf8_valid_app s t : utf8_valid s = true -> utf8_valid (s ++ t) = utf8_valid t.
Proof.
  revert s. apply (utf8_chars_ind (fun s => utf8_valid (s ++ t) = utf8_valid t)); [done|].
  intros a tail rest Ht _ _ _ IH.
  simpl app. rewrite <- app_assoc, Ht. exact IH.
Qed.

(** A valid text cut at a boundary is valid. *)
Lemma utf8_valid_take s : utf8_valid s = true ->
  forall i, is_char_boundary s i = true -> utf8_valid (take i s) = true.
Proof.
  revert s. apply (utf8_chars_ind (fun s => forall i, is_char_boundary s i = true ->
    utf8_valid (take i s) = true)); [by intros [|i]|].
  intros a tail rest Ht _ Hc Hr IH i Hi. destruct i as [|i]; [done|]. simpl.
  unfold is_char_boundary in Hi. simpl in Hi.
  destruct (decide (i < length tail)) as [Hlt|Hge].
  - rewrite lookup_app_l in Hi by done. destruct (lookup_lt_is_Some_2 tail i Hlt) as (b & Hb).
    rewrite Hb in Hi. rewrite Forall_lookup in Hc. by rewrite (Hc _ _ Hb) in Hi.
  - rewrite take_app_ge by lia. change (utf8_valid (a :: tail ++ take (i - length tail) rest) = true).
    rewrite Ht. apply IH. unfold is_char_boundary. rewrite lookup_app_r in Hi by lia.
    destruct (rest !! (i - length tail)) eqn:E.
    + by rewrite Hi, orb_true_r.
    + rewrite length_app in Hi. apply Nat.eqb_eq in Hi. apply Nat.eqb_eq. lia.
Qed.

Lemma boundary_0 s : is_char_boundary s 0 = true.
Proof. by destruct s. Qed.

Lemma boundary_below_spec s n :
  boundary_below s n <= n /\ is_char_boundary s (boundary_below s n) = true /\
  forall i, boundary_below s n < i <= n -> is_char_boundary s i = false.
Proof.
  induction n as [|n IH]; simpl.
  - rewrite boundary_0. split_and!; [done|apply boundary_0|lia].
  - destruct (is_char_boundary s (S n)) eqn:E; [split_and!; [done|done|lia]|].
    destruct IH as (H1 & H2 & H3). split_and!; [lia|done|]. intros i Hi.
    destruct (decide (i = S n)) as [->|]; [done|]. apply H3. lia.
Qed.

Lemma push_truncated_eq room run s :
  length run <= room ->
  push_truncated room run s = run ++ take (boundary_below s (Nat.min (length s) (room - length run))) s.
Proof.
  intros Hr. unfold push_truncated, try_push.
  destruct (boundary_below_spec s (Nat.min (length s) (room - length run))) as (Hle & _).
  rewrite (proj2 (Nat.ltb_ge _ _)); [done|]. rewrite length_take. lia.
Qed.

Lemma truncated_eq room s : truncated room s = take (boundary_below s (Nat.min (length s) room)) s.
Proof. unfold truncated. rewrite push_truncated_eq by (simpl; lia). by rewrite Nat.sub_0_r. Qed.

Lemma push_truncated_bound room run s :
  length run <= room -> length (push_truncated room run s) <= room.
Proof.
  intros Hr. rewrite push_truncated_eq by done.
  destruct (boundary_below_spec s (Nat.min (length s) (room - length run))) as (Hle & _).
  rewrite length_app, length_take. lia.
Qed.

Lemma push_truncated_valid room run s :
  length run <= room -> utf8_valid run = true -> utf8_valid s = true ->
  utf8_valid (push_truncated room run s) = true.
Proof.
  intros Hr Hrun Hs. rewrite push_truncated_eq by done. rewrite utf8_valid_app by done.
  apply utf8_valid_take; [done|]. apply boundary_below_spec.
Qed.

(** The chunks of a valid text are the text itself. *)
Lemma utf8_chunks_valid s : utf8_valid s = true ->
  forall fuel acc, length s < fuel -> acc ++ s <> [] -> utf8_chunks fuel acc s = [(acc ++ s, [])].
Proof.
  revert s. apply (utf8_chars_ind (fun s => forall fuel acc,
    length s < fuel -> acc ++ s <> [] -> utf8_chunks fuel acc s = [(acc ++ s, [])])).
  - intros [|fuel] acc Hf; simpl; [lia|]. rewrite app_nil_r. by destruct acc.
  - intros a tail rest _ Hst _ _ IH [|fuel] acc Hf Hne; simpl in Hf; [lia|].
    cbn [utf8_chunks]. rewrite Hst. simpl. rewrite take_app_length, drop_app_length.
    rewrite length_app in Hf. rewrite IH.
    + by rewrite <- app_assoc.
    + lia.
    + by destruct acc.
Qed.

(** The text of an error, of the bytes [utf8()] accepted, is that of the name they spell. *)
Lemma text_lossy_valid fm b : utf8_valid b = true -> text_lossy fm b = text fm (to_text b).
Proof.
  intros Hb. unfold text_lossy, text, lossy.
  assert (E : as_bytes (to_text b) = b)
    by (unfold as_bytes, to_text; by rewrite String.list_ascii_of_string_of_list_ascii).
  destruct b as [|a b]; [by destruct (text_room fm)|].
  rewrite (utf8_chunks_valid _ Hb) by (simpl; lia || done). rewrite E.
  destruct (text_room fm); simpl; [done|]. by rewrite !app_nil_r.
Qed.

(** ** Round trips of the scalars *)

#[local] Arguments parse_digits : simpl never.

Lemma int_bounds t : (int_max t < 10 ^ 39 /\ int_depth t < 10 ^ 39)%N.
Proof. by destruct t. Qed.

Lemma print_digits_unsigned n :
  exists d tail, print_digits 39 n "" = String d tail /\
    Ascii.eqb d "+" = false /\ Ascii.eqb d "-" = false.
Proof.
  destruct (print_digits_head 39 n "") as (d & tail & Hd & ->); [lia|].
  exists (digit d), tail. split; [done|].
  assert (H : digit_value (digit d) = Some d) by by apply digit_value_digit.
  split; apply Ascii.eqb_neq; intros E; rewrite E in H; discriminate.
Qed.

Lemma parse_print_39 max n :
  (max < 10 ^ 39)%N -> (n <= max)%N -> parse_digits max 0 (print_digits 39 n "") = Some n.
Proof. intros Hmax Hn. rewrite parse_print_digits; [done| |done|lia]. eapply N.le_lt_trans; done. Qed.

(** Every integer of every width is read back from its decimal text. *)
Lemma int_parse_to_string t n : int_in t n -> int_parse t (int_to_string n) = Some n.
Proof.
  unfold int_in. destruct (int_bounds t) as [Hmax Hdepth]. intros [Hlo Hhi]. unfold int_to_string.
  destruct (print_digits_unsigned (Z.abs_N n)) as (d & tail & Hp & Hplus & Hminus).
  destruct (Z.ltb_spec n 0) as [Hneg|Hpos]; unfold int_parse.
  - assert (Hs : signed t = true) by (unfold int_depth in Hlo; destruct (signed t); [done|lia]).
    rewrite Hp. simpl. rewrite <- Hp, Hs.
    rewrite parse_print_39; [simpl; f_equal; lia|exact Hdepth|clear Hmax Hdepth; lia].
  - rewrite Hp, Hplus, Hminus. simpl. rewrite <- Hp.
    rewrite parse_print_39; [simpl; f_equal; lia|exact Hmax|clear Hmax Hdepth; lia].
Qed.

Lemma int_text_ascii n : ascii_only (as_bytes (int_to_string n)).
Proof.
  assert (H : ascii_only (as_bytes (print_digits 39 (Z.abs_N n) ""))).
  { apply print_digits_ascii. constructor. }
  unfold int_to_string. destruct (n <? 0)%Z; [by constructor|done].
Qed.

Lemma bool_parse_to_string b : bool_parse (bool_to_string b) = Some b.
Proof. by destruct b. Qed.
Lemma bool_text_ascii b : ascii_only (as_bytes (bool_to_string b)).
Proof. destruct b; by repeat constructor. Qed.

Lemma collect_bytes_eq room b c : collect_bytes room b = Some c -> c = b.
Proof.
  unfold collect_bytes, try_push. destruct room as [room|]; [|by intros [= <-]].
  destruct (room <? _); [done|by intros [= <-]].
Qed.

Lemma collect_bytes_room room b c : collect_bytes (Some room) b = Some c -> length c <= room.
Proof.
  unfold collect_bytes, try_push. simpl. destruct (Nat.ltb_spec room (length b)); [done|].
  by intros [= <-].
Qed.

Lemma write_pieces_spec room run pieces :
  length run <= room ->
  write_pieces room run pieces =
    if room <? length (run ++ concat pieces) then Err overflow else Ok (run ++ concat pieces).
Proof.
  revert run. induction pieces as [|p l IH]; intros run Hr; cbn [write_pieces concat].
  - rewrite app_nil_r. by rewrite (proj2 (Nat.ltb_ge _ _)).
  - unfold try_push. destruct (Nat.ltb_spec room (length run + length p)) as [H|H]; simpl.
    + rewrite (proj2 (Nat.ltb_lt _ _)); [done|]. rewrite !length_app. lia.
    + rewrite IH by (rewrite length_app; lia). by rewrite <- app_assoc.
Qed.

(** A strict writer takes the pieces of a value as it takes their whole text. *)
Lemma collect_pieces_whole room pieces :
  collect_pieces room pieces = collect_bytes room (concat (as_bytes <$> pieces)).
Proof.
  unfold collect_pieces, collect_bytes, try_push. destruct room as [room|]; [|done].
  rewrite write_pieces_spec by (simpl; lia). simpl. by destruct (_ <? _).
Qed.

(** ** Properties *)

(** The text an error carries in a build without an allocator never splits a character: for a
    name of valid UTF-8 it is a prefix of it of at most [ROOM] bytes, valid UTF-8 again, and the
    longest such prefix that ends between characters (a name that fits is kept whole). *)
Theorem cut_text_keeps_characters room name :
  utf8_valid name = true ->
  let kept := truncated room name in
  (exists cut, name = kept ++ cut) /\ length kept <= room /\ utf8_valid kept = true /\
  (forall i, length kept < i <= Nat.min (length name) room -> is_char_boundary name i = false) /\
  (length name <= room -> kept = name).
Proof.
  intros Hs kept. unfold kept. pose proof (boundary_below_spec name (Nat.min (length name) room))
    as (H1 & H2 & H3).
  split_and!.
  - rewrite truncated_eq. exists (drop (boundary_below name (Nat.min (length name) room)) name).
    by rewrite take_drop.
  - apply push_truncated_bound. simpl. lia.
  - by apply push_truncated_valid; [simpl; lia| |].
  - rewrite truncated_eq, length_take. intros i Hi. apply H3. lia.
  - intros Hfit. rewrite truncated_eq. apply take_ge. rewrite Nat.min_l in * by done.
    destruct (decide (boundary_below name (length name) < length name)) as [Hlt|]; [|lia].
    assert (Hend : is_char_boundary name (length name) = true).
    { unfold is_char_boundary. rewrite lookup_ge_None_2 by lia. apply Nat.eqb_refl. }
    rewrite H3 in Hend; [done|lia].
Qed.

(** Two-byte characters in a room of five bytes: two of the three are kept. *)
Definition umlauts : bytes := ascii_of_N <$> [195; 164; 195; 182; 195; 188]%N.

Lemma cut_text_keeps_characters_witness :
  truncated 5 umlauts = take 4 umlauts /\ utf8_valid (truncated 5 umlauts) = true.
Proof.
  split; [by vm_compute|].
  exact (proj1 (proj2 (proj2 (cut_text_keeps_characters 5 umlauts eq_refl)))).
Defined.

End Text.
