(* ===== verification/TypedHeaders.v ===== *)
(** * Typed views over the headers ([crates/core/src/typed_headers/mod.rs], [ser.rs], [de.rs])

    A flat struct is written into the header map one entry per field and read back.  A
    [Serialize] value is the call it makes on its serializer ([call]), a [Deserialize] type the
    method it asks of its deserializer with what its visitor makes of the answer ([ask]); the three
    serializers and the two deserializers of the code are functions of those.  [Contract] is the
    client: a struct whose two traits are derived.  The header map is any [HeaderStore], and the
    form of texts and values that of either build. *)
From Stdlib Require Import Ascii String.
From S2P Require Import Prelude RustStd Headers FixedHeaders TypedText.
Import Text.

#[local] Set Warnings "-register-all".

Module Typed.

(** ** Errors *)

Inductive SerializeHeadersError :=
  | UnsupportedValue (field : string) (kind : string)
  | SerTopLevel (kind : string)
  | SerMessage (msg : string)
  | Full.

Inductive DeserializeHeadersError :=
  | NotUtf8 (header : string)
  | Parse (header expected value : string)
  | UnsupportedShape (header kind : string)
  | DeTopLevel (kind : string)
  | DeMessage (msg : string).

(** [ser::Error::custom] and [de::Error::custom], of what the message writes. *)
Definition ser_custom (fm : Form) (msg : list string) : SerializeHeadersError :=
  SerMessage (text_of fm msg).
Definition de_custom (fm : Form) (msg : list string) : DeserializeHeadersError :=
  DeMessage (text_of fm msg).

(** ** The header map as the deserializer iterates it *)

Class HeaderIter (H : Type) := hs_iter : H -> list (string * bytes).
Class HeaderIterLaws (H : Type) `{HeaderStore H, HeaderIter H} := {
  hs_iter_map h : hs_inv h -> list_to_map (hs_iter h) = hs_map h;
  hs_iter_names h : hs_inv h -> NoDup (fst <$> hs_iter h);
}.

#[export] Instance header_map_iter : HeaderIter HeaderMap.HeaderMap := HeaderMap.entries.
#[export] Instance header_map_iter_laws : HeaderIterLaws HeaderMap.HeaderMap.
Proof. split; [done|]. by intros h [_ ?]. Qed.

#[export] Instance fixed_iter : HeaderIter Fixed.FixedHeaders := fun h => default [] (Fixed.iter h).

Section typed.
Context {F32 F64 : Type} `{FT32 : FloatText F32, FT64 : FloatText F64}.
Context {Map : Type} `{HS : HeaderStore Map, HI : HeaderIter Map}.
Context (fm : Form).

(** ** What a value asks of its serializer *)

(** A sequence, a tuple and their variants are refused before an element is seen.  Each entry of a
    map is its key and then its value, each field of a struct its name and then its value. *)
Inductive call :=
  | CBool (b : bool)
  | CInt (t : int_ty) (n : Z)
  | CF32 (x : F32)
  | CF64 (x : F64)
  | CChar (c : string)
  | CStr (s : string)
  | CCollectStr (pieces : list string)
  | CBytes (b : bytes)
  | CNone
  | CSome (v : call)
  | CUnit
  | CUnitStruct
  | CUnitVariant (variant : string)
  | CNewtypeStruct (v : call)
  | CNewtypeVariant (v : call)
  | CSeq
  | CTuple
  | CTupleStruct
  | CTupleVariant
  | CMap (len : option nat) (entries : list (call * call))
  | CStruct (fields : list (string * call))
  | CStructVariant (fields : list (string * call))
  | CCustom (msg : list string).

Definition or_full {A} (o : option A) : result A SerializeHeadersError :=
  match o with
  | Some x => Ok x
  | None => Err Full
  end.

(** [scalar_display] of a value whose [Display] is one text, and the other ways to a scalar. *)
Definition scalar_text (s : string) : result (option bytes) SerializeHeadersError :=
  let? b := or_full (collect_bytes (scalar_room fm) (as_bytes s)) in Ok (Some b).
Definition scalar_bytes (b : bytes) : result (option bytes) SerializeHeadersError :=
  let? b := or_full (collect_bytes (scalar_room fm) b) in Ok (Some b).
Definition scalar_display (pieces : list string) : result (option bytes) SerializeHeadersError :=
  let? b := or_full (collect_pieces (scalar_room fm) pieces) in Ok (Some b).

Definition ser_unsupported (field kind : string) : result (option bytes) SerializeHeadersError :=
  Err (UnsupportedValue (text fm field) kind).

(** [ValueSerializer]: [None] skips the header. *)
Fixpoint serialize_value (field : string) (v : call)
  : result (option bytes) SerializeHeadersError :=
  match v with
  | CBool b => scalar_text (bool_to_string b)
  | CInt _ n => scalar_text (int_to_string n)
  | CF32 x => scalar_text (float_to_string x)
  | CF64 x => scalar_text (float_to_string x)
  | CChar c => scalar_text c
  | CStr s => scalar_text s
  | CCollectStr pieces => scalar_display pieces
  | CBytes b => scalar_bytes b
  | CNone => Ok None
  | CSome v => serialize_value field v
  | CUnitVariant variant => scalar_text variant
  | CNewtypeStruct v => serialize_value field v
  | CUnit => ser_unsupported field "a unit"
  | CUnitStruct => ser_unsupported field "a unit struct"
  | CNewtypeVariant _ => ser_unsupported field "a data-carrying enum variant"
  | CSeq => ser_unsupported field "a sequence"
  | CTuple => ser_unsupported field "a tuple"
  | CTupleStruct => ser_unsupported field "a tuple struct"
  | CTupleVariant => ser_unsupported field "a tuple variant"
  | CMap _ _ => ser_unsupported field "a map"
  | CStruct _ => ser_unsupported field "a nested struct"
  | CStructVariant _ => ser_unsupported field "a struct variant"
  | CCustom msg => Err (ser_custom fm msg)
  end.

Definition non_string_key : result string SerializeHeadersError :=
  Err (SerMessage (text fm "header names must serialize as strings")).

Definition key (name : string) : result string SerializeHeadersError :=
  let? b := or_full (collect_bytes (text_room fm) (as_bytes name)) in Ok (to_text b).
Definition key_display (pieces : list string) : result string SerializeHeadersError :=
  let? b := or_full (collect_pieces (text_room fm) pieces) in Ok (to_text b).

(** [KeySerializer]. *)
Fixpoint serialize_key (k : call) : result string SerializeHeadersError :=
  match k with
  | CStr s => key s
  | CCollectStr pieces => key_display pieces
  | CChar c => key c
  | CUnitVariant variant => key variant
  | CNewtypeStruct k => serialize_key k
  | CCustom msg => Err (ser_custom fm msg)
  | _ => non_string_key
  end.

(** ** The top level: the headers as they are left, and the answer *)

Abbreviation written := (Map * result unit SerializeHeadersError)%type.

(** [put_static] and [put_owned]. *)
Definition put (h : Map) (name : string) (value : bytes) : written :=
  match hs_insert h name value with
  | Some h => (h, Ok tt)
  | None => (h, Err Full)
  end.

(** [FieldSink::serialize_field], and the fields of a struct one after another. *)
Definition serialize_field (h : Map) (name : string) (v : call) : written :=
  match serialize_value name v with
  | Ok (Some b) => put h name b
  | Ok None => (h, Ok tt)
  | Err e => (h, Err e)
  end.
Fixpoint serialize_fields (h : Map) (fields : list (string * call)) : written :=
  match fields with
  | [] => (h, Ok tt)
  | (name, v) :: rest =>
      match serialize_field h name v with
      | (h, Ok tt) => serialize_fields h rest
      | (h, Err e) => (h, Err e)
      end
  end.

(** [EntrySink]: the key, then the value under it. *)
Definition serialize_entry (h : Map) (k v : call) : written :=
  match serialize_key k with
  | Ok name => serialize_field h name v
  | Err e => (h, Err e)
  end.
Fixpoint serialize_entries (h : Map) (entries : list (call * call)) : written :=
  match entries with
  | [] => (h, Ok tt)
  | (k, v) :: rest =>
      match serialize_entry h k v with
      | (h, Ok tt) => serialize_entries h rest
      | (h, Err e) => (h, Err e)
      end
  end.

Definition ser_top_level (h : Map) (kind : string) : written := (h, Err (SerTopLevel kind)).

(** [insert_typed]: the value, on a [HeadersSerializer]. *)
Fixpoint insert_typed (h : Map) (v : call) : written :=
  match v with
  | CStruct fields => serialize_fields h fields
  | CStructVariant fields => serialize_fields h fields
  | CMap None _ =>
      ser_top_level h "a map of unknown size (#[serde(flatten)] is not supported)"
  | CMap (Some _) entries => serialize_entries h entries
  | CNewtypeStruct v => insert_typed h v
  | CNewtypeVariant v => insert_typed h v
  | CSome v => insert_typed h v
  | CNone => (h, Ok tt)
  | CUnit => ser_top_level h "a unit"
  | CUnitStruct => ser_top_level h "a unit struct"
  | CUnitVariant _ => ser_top_level h "a unit variant"
  | CSeq => ser_top_level h "a sequence"
  | CTuple => ser_top_level h "a tuple"
  | CTupleStruct => ser_top_level h "a tuple struct"
  | CTupleVariant => ser_top_level h "a tuple variant"
  | CBool _ => ser_top_level h "a boolean"
  | CInt _ _ => ser_top_level h "an integer"
  | CF32 _ | CF64 _ => ser_top_level h "a float"
  | CChar _ => ser_top_level h "a character"
  | CStr _ | CCollectStr _ => ser_top_level h "a string"
  | CBytes _ => ser_top_level h "bytes"
  | CCustom msg => (h, Err (ser_custom fm msg))
  end.

(** ** What a type asks of its deserializer *)

Abbreviation Read A := (result A DeserializeHeadersError).

(** The method asked with the visitor's answer to what it is given.  [AskStr] is [str], [string]
    and [identifier], [AskBytes] is [bytes] and [byte_buf]; the last six are refused. *)
Inductive ask (A : Type) : Type :=
  | AskBool (visit : bool -> Read A)
  | AskInt (t : int_ty) (visit : Z -> Read A)
  | AskF32 (visit : F32 -> Read A)
  | AskF64 (visit : F64 -> Read A)
  | AskChar (visit : string -> Read A)
  | AskStr (visit : string -> Read A)
  | AskBytes (visit : bytes -> Read A)
  | AskOption (some : ask A)
  | AskNewtype (inner : ask A)
  | AskEnum (visit : string -> Read A)
  | AskAny (visit_str : string -> Read A) (visit_bytes : bytes -> Read A)
  | AskIgnored (unit : Read A)
  | AskFails (e : DeserializeHeadersError)
  | AskUnit
  | AskUnitStruct
  | AskSeq
  | AskTuple
  | AskTupleStruct
  | AskMap
  | AskStruct.
Arguments AskBool {A} visit.
Arguments AskInt {A} t visit.
Arguments AskF32 {A} visit.
Arguments AskF64 {A} visit.
Arguments AskChar {A} visit.
Arguments AskStr {A} visit.
Arguments AskBytes {A} visit.
Arguments AskOption {A} some.
Arguments AskNewtype {A} inner.
Arguments AskEnum {A} visit.
Arguments AskAny {A} visit_str visit_bytes.
Arguments AskIgnored {A} unit.
Arguments AskFails {A} e.
Arguments AskUnit {A}.
Arguments AskUnitStruct {A}.
Arguments AskSeq {A}.
Arguments AskTuple {A}.
Arguments AskTupleStruct {A}.
Arguments AskMap {A}.
Arguments AskStruct {A}.

Definition utf8 (header : string) (raw : bytes) : Read string :=
  match from_utf8 raw with
  | Some s => Ok s
  | None => Err (NotUtf8 (text fm header))
  end.

Definition parse {T} (from_str : string -> option T) (expected header : string) (raw : bytes)
  : Read T :=
  let? s := utf8 header raw in
  match from_str s with
  | Some x => Ok x
  | None => Err (Parse (text fm header) expected (text_lossy fm raw))
  end.

Definition int_name (t : int_ty) : string :=
  match t with
  | I8 => "i8" | I16 => "i16" | I32 => "i32" | I64 => "i64" | I128 => "i128"
  | U8 => "u8" | U16 => "u16" | U32 => "u32" | U64 => "u64" | U128 => "u128"
  end.

Definition de_unsupported {A} (header kind : string) : Read A :=
  Err (UnsupportedShape (text fm header) kind).

(** [ValueDeserializer]. *)
Fixpoint deserialize_value {A} (header : string) (raw : bytes) (q : ask A) : Read A :=
  match q with
  | AskBool visit => let? b := parse bool_parse "bool" header raw in visit b
  | AskInt t visit => let? n := parse (int_parse t) (int_name t) header raw in visit n
  | AskF32 visit => let? x := parse float_parse "f32" header raw in visit x
  | AskF64 visit => let? x := parse float_parse "f64" header raw in visit x
  | AskChar visit => let? c := parse char_parse "char" header raw in visit c
  | AskStr visit => let? s := utf8 header raw in visit s
  | AskBytes visit => visit raw
  | AskOption some => deserialize_value header raw some
  | AskNewtype inner => deserialize_value header raw inner
  | AskEnum visit => let? s := utf8 header raw in visit s
  | AskAny visit_str visit_bytes =>
      match from_utf8 raw with
      | Some s => visit_str s
      | None => visit_bytes raw
      end
  | AskIgnored unit => unit
  | AskFails e => Err e
  | AskUnit => de_unsupported header "a unit"
  | AskUnitStruct => de_unsupported header "a unit struct"
  | AskSeq => de_unsupported header "a sequence"
  | AskTuple => de_unsupported header "a tuple"
  | AskTupleStruct => de_unsupported header "a tuple struct"
  | AskMap => de_unsupported header "a map"
  | AskStruct => de_unsupported header "a nested struct"
  end.

(** A visitor of a map: what it makes of the pairs so far, the type it reads the value under a
    key as, and what it makes of the end. *)
Record MapVisitor (St A : Type) := mk_visitor {
  mv_init : St;
  mv_value : St -> string -> Read (ask St);
  mv_end : St -> Read A;
}.
Arguments mk_visitor {St A}.
Arguments mv_init {St A}.
Arguments mv_value {St A}.
Arguments mv_end {St A}.

(** [next_key_seed], [next_value_seed] until there is no further pair. *)
Fixpoint visit_map {St A} (v : MapVisitor St A) (st : St) (pairs : list (string * bytes))
  : Read A :=
  match pairs with
  | [] => mv_end v st
  | (name, raw) :: rest =>
      let? q := mv_value v st name in
      let? st := deserialize_value name raw q in
      visit_map v st rest
  end.

(** [FieldAccess]: the declared fields whose header is there, in their order, under their declared
    name.  [EntryAccess] yields the pairs of [hs_iter]. *)
Fixpoint field_access (h : Map) (fields : list string) : list (string * bytes) :=
  match fields with
  | [] => []
  | field :: fields =>
      match hs_get h field with
      | Some raw => (field, raw) :: field_access h fields
      | None => field_access h fields
      end
  end.

(** What the type itself asks; [TopOther] is every method [forward_to_deserialize_any] forwards,
    and [deserialize_any]. *)
Inductive top_ask (A : Type) : Type :=
  | TopStruct (fields : list string) (St : Type) (v : MapVisitor St A)
  | TopMap (St : Type) (v : MapVisitor St A)
  | TopNewtype (inner : top_ask A)
  | TopIgnored (unit : Read A)
  | TopFails (e : DeserializeHeadersError)
  | TopOther.
Arguments TopStruct {A} fields {St} v.
Arguments TopMap {A} {St} v.
Arguments TopNewtype {A} inner.
Arguments TopIgnored {A} unit.
Arguments TopFails {A} e.
Arguments TopOther {A}.

(** [to_typed]: the type, on a [HeadersDeserializer]. *)
Fixpoint to_typed {A} (h : Map) (q : top_ask A) : Read A :=
  match q with
  | TopStruct fields v => visit_map v (mv_init v) (field_access h fields)
  | TopMap v => visit_map v (mv_init v) (hs_iter h)
  | TopNewtype inner => to_typed h inner
  | TopIgnored unit => unit
  | TopFails e => Err e
  | TopOther => Err (DeTopLevel "a self-describing value")
  end.

(** ** The client: a struct whose traits are derived

    The fields in their declared order under their wire names, each of a kind a header value can
    carry.  The visitor serde derives fills one slot per field, skips a key it does not know, and
    at the end gives an empty slot its default: [None] for an [Option], an error otherwise. *)

Inductive kind :=
  | KBool | KInt (t : int_ty) | KF32 | KF64 | KChar | KStr | KBytes
  | KEnum (variants : list string)
  | KOption (k : kind)
  | KNewtype (k : kind).

Inductive val :=
  | VBool (b : bool) | VInt (t : int_ty) (n : Z) | VF32 (x : F32) | VF64 (x : F64)
  | VChar (c : string) | VStr (s : string) | VBytes (b : bytes)
  | VEnum (variant : string)
  | VNone | VSome (v : val)
  | VNewtype (v : val).

Definition valid_str (s : string) : Prop := utf8_valid (as_bytes s) = true.

Fixpoint has_kind (k : kind) (v : val) : Prop :=
  match k, v with
  | KBool, VBool _ => True
  | KInt t, VInt t' n => t' = t /\ int_in t n
  | KF32, VF32 x => float_num x
  | KF64, VF64 x => float_num x
  | KChar, VChar c => is_char c = true
  | KStr, VStr s => valid_str s
  | KBytes, VBytes _ => True
  | KEnum variants, VEnum variant => variant ∈ variants /\ valid_str variant
  | KOption _, VNone => True
  | KOption k, VSome v => has_kind k v
  | KNewtype k, VNewtype v => has_kind k v
  | _, _ => False
  end.

(** An [Option] that is not the field itself can be [None] with nothing to show for it. *)
Fixpoint optional (k : kind) : bool :=
  match k with
  | KOption _ => true
  | KNewtype k => optional k
  | _ => false
  end.
Definition flat (k : kind) : Prop :=
  match k with
  | KOption k | KNewtype k => optional k = false
  | _ => True
  end.

Fixpoint call_of (v : val) : call :=
  match v with
  | VBool b => CBool b
  | VInt t n => CInt t n
  | VF32 x => CF32 x
  | VF64 x => CF64 x
  | VChar c => CChar c
  | VStr s => CStr s
  | VBytes b => CBytes b
  | VEnum variant => CUnitVariant variant
  | VNone => CNone
  | VSome v => CSome (call_of v)
  | VNewtype v => CNewtypeStruct (call_of v)
  end.

Definition answer {A B} (f : A -> B) (r : Read A) : Read B := let? a := r in Ok (f a).

Fixpoint ask_map {A B} (f : A -> B) (q : ask A) : ask B :=
  match q with
  | AskBool visit => AskBool (fun x => answer f (visit x))
  | AskInt t visit => AskInt t (fun x => answer f (visit x))
  | AskF32 visit => AskF32 (fun x => answer f (visit x))
  | AskF64 visit => AskF64 (fun x => answer f (visit x))
  | AskChar visit => AskChar (fun x => answer f (visit x))
  | AskStr visit => AskStr (fun x => answer f (visit x))
  | AskBytes visit => AskBytes (fun x => answer f (visit x))
  | AskOption some => AskOption (ask_map f some)
  | AskNewtype inner => AskNewtype (ask_map f inner)
  | AskEnum visit => AskEnum (fun x => answer f (visit x))
  | AskAny vs vb => AskAny (fun x => answer f (vs x)) (fun x => answer f (vb x))
  | AskIgnored unit => AskIgnored (answer f unit)
  | AskFails e => AskFails e
  | AskUnit => AskUnit
  | AskUnitStruct => AskUnitStruct
  | AskSeq => AskSeq
  | AskTuple => AskTuple
  | AskTupleStruct => AskTupleStruct
  | AskMap => AskMap
  | AskStruct => AskStruct
  end.

(** The wording of serde's own errors. *)
Context (missing_field duplicate_field unknown_variant : string -> list string).

Fixpoint ask_of (k : kind) : ask val :=
  match k with
  | KBool => AskBool (fun b => Ok (VBool b))
  | KInt t => AskInt t (fun n => Ok (VInt t n))
  | KF32 => AskF32 (fun x => Ok (VF32 x))
  | KF64 => AskF64 (fun x => Ok (VF64 x))
  | KChar => AskChar (fun c => Ok (VChar c))
  | KStr => AskStr (fun s => Ok (VStr s))
  | KBytes => AskBytes (fun b => Ok (VBytes b))
  | KEnum variants =>
      AskEnum (fun s => if bool_decide (s ∈ variants) then Ok (VEnum s)
                        else Err (de_custom fm (unknown_variant s)))
  | KOption k => AskOption (ask_map VSome (ask_of k))
  | KNewtype k => AskNewtype (ask_map VNewtype (ask_of k))
  end.

Abbreviation Contract := (list (string * kind)).
Definition names (c : Contract) : list string := fst <$> c.

Definition contract_call (c : Contract) (vs : list val) : call :=
  CStruct (zip_with (fun f v => (f.1, call_of v)) c vs).

Definition contract_value (c : Contract) (st : list (option val)) (name : string)
  : Read (ask (list (option val))) :=
  match position (String.eqb name) (names c) with
  | Some i =>
      match c !! i, st !! i with
      | Some (_, k), Some None => Ok (ask_map (fun v => <[i := Some v]> st) (ask_of k))
      | _, _ => Err (de_custom fm (duplicate_field name))
      end
  | None => Ok (AskIgnored (Ok st))
  end.

Definition absent (f : string * kind) : Read val :=
  match f.2 with
  | KOption _ => Ok VNone
  | _ => Err (de_custom fm (missing_field f.1))
  end.
Fixpoint finish (c : Contract) (st : list (option val)) : Read (list val) :=
  match c, st with
  | f :: c, slot :: st =>
      let? v := match slot with Some v => Ok v | None => absent f end in
      let? vs := finish c st in Ok (v :: vs)
  | _, _ => Ok []
  end.

Definition derived (c : Contract) : top_ask (list val) :=
  TopStruct (names c) (mk_visitor (replicate (length c) None) (contract_value c) (finish c)).

(** ** The reference: each field by itself, from the headers as a finite map *)

Definition read_slot (m : gmap string bytes) (f : string * kind) : Read (option val) :=
  match m !! make_ascii_lowercase f.1 with
  | Some raw => answer Some (deserialize_value f.1 raw (ask_of f.2))
  | None => Ok None
  end.
Fixpoint read_slots (m : gmap string bytes) (c : Contract) : Read (list (option val)) :=
  match c with
  | [] => Ok []
  | f :: c => let? slot := read_slot m f in let? st := read_slots m c in Ok (slot :: st)
  end.

(** The values that are there first, in the declared order, and only then what is missing. *)
Definition read_contract (m : gmap string bytes) (c : Contract) : Read (list val) :=
  let? st := read_slots m c in finish c st.

(** What a struct's fields leave in the headers. *)
Definition write_field (m : gmap string bytes) (f : string * call) : gmap string bytes :=
  match serialize_value f.1 f.2 with
  | Ok (Some b) => <[make_ascii_lowercase f.1 := b]> m
  | _ => m
  end.
Definition write_fields (m : gmap string bytes) (fields : list (string * call))
  : gmap string bytes := fold_left write_field fields m.

(** Why a field is refused: its value is, or the header map has no room for it. *)
Definition refused (h : Map) (f : string * call) (e : SerializeHeadersError) : Prop :=
  serialize_value f.1 f.2 = Err e \/
  (e = Full /\ exists b, serialize_value f.1 f.2 = Ok (Some b) /\ hs_insert h f.1 b = None).

(** The fields a value would write, whatever its top level is: none of them past a key that does
    not serialize. *)
Fixpoint keyed (entries : list (call * call)) : list (string * call) :=
  match entries with
  | [] => []
  | (k, v) :: rest =>
      match serialize_key k with
      | Ok name => (name, v) :: keyed rest
      | Err _ => []
      end
  end.
Fixpoint fields_of (v : call) : list (string * call) :=
  match v with
  | CStruct fields | CStructVariant fields => fields
  | CMap (Some _) entries => keyed entries
  | CNewtypeStruct v | CNewtypeVariant v | CSome v => fields_of v
  | _ => []
  end.

(** ** Lemmas *)

Context `{FTL32 : !FloatTextLaws F32, FTL64 : !FloatTextLaws F64, HSL : !HeaderStoreLaws Map}.

Lemma answer_bind {A B C} (f : B -> C) (r : Read A) (k : A -> Read B) :
  answer f (rbind r k) = let? x := r in answer f (k x).
Proof. by destruct r. Qed.

Lemma deserialize_map {A B} (f : A -> B) header raw (q : ask A) :
  deserialize_value header raw (ask_map f q) = answer f (deserialize_value header raw q).
Proof. induction q; simpl; rewrite ?answer_bind; try done. by destruct (from_utf8 raw). Qed.

Lemma utf8_valid_str header s : valid_str s -> utf8 header (as_bytes s) = Ok s.
Proof.
  intros Hs. unfold utf8, from_utf8. rewrite Hs. unfold as_bytes.
  by rewrite String.string_of_list_ascii_of_string.
Qed.

Lemma ascii_valid_str s : ascii_only (as_bytes s) -> valid_str s.
Proof. apply utf8_valid_ascii. Qed.

Lemma is_char_valid_str c : is_char c = true -> valid_str c.
Proof.
  unfold is_char, valid_str. destruct (utf8_step (as_bytes c)) as [n|] eqn:E; [|done].
  intros Hn%Nat.eqb_eq. destruct (as_bytes c) as [|a s] eqn:Hc; [done|].
  rewrite <- (app_nil_r s), (utf8_valid_step_app _ _ _ _ E), drop_ge; [done|].
  by rewrite Hn, <- as_bytes_length, Hc.
Qed.

Lemma parse_text {T} (from_str : string -> option T) expected header s x :
  valid_str s -> from_str s = Some x -> parse from_str expected header (as_bytes s) = Ok x.
Proof. intros Hs Hx. unfold parse. rewrite utf8_valid_str by done. simpl. by rewrite Hx. Qed.

Lemma scalar_text_ok s b : scalar_text s = Ok (Some b) -> b = as_bytes s.
Proof.
  unfold scalar_text. destruct (collect_bytes _ _) as [c|] eqn:E; [|done]. simpl.
  intros [= <-]. by apply collect_bytes_eq in E.
Qed.
Lemma scalar_bytes_ok s b : scalar_bytes s = Ok (Some b) -> b = s.
Proof.
  unfold scalar_bytes. destruct (collect_bytes _ _) as [c|] eqn:E; [|done]. simpl.
  intros [= <-]. by apply collect_bytes_eq in E.
Qed.

(** The bytes a value serializes to deserialize to it. *)
Lemma scalar_round_trip k v field header b :
  has_kind k v -> serialize_value field (call_of v) = Ok (Some b) ->
  deserialize_value header b (ask_of k) = Ok v.
Proof.
  revert v. induction k; intros []; simpl; try done; intros Hk Hs;
    try (apply scalar_text_ok in Hs; subst b).
  - by rewrite (parse_text _ _ _ _ _ (ascii_valid_str _ (bool_text_ascii _)) (bool_parse_to_string _)).
  - destruct Hk as [-> Hn].
    by rewrite (parse_text _ _ _ _ _ (ascii_valid_str _ (int_text_ascii _)) (int_parse_to_string _ _ Hn)).
  - by rewrite (parse_text _ _ _ _ _ (ascii_valid_str _ (float_text_ascii _)) (float_parse_text _ Hk)).
  - by rewrite (parse_text _ _ _ _ _ (ascii_valid_str _ (float_text_ascii _)) (float_parse_text _ Hk)).
  - rewrite (parse_text char_parse _ _ c c); [done|by apply is_char_valid_str|].
    unfold char_parse. by rewrite Hk.
  - by rewrite utf8_valid_str.
  - apply scalar_bytes_ok in Hs. by subst.
  - destruct Hk as [Hin Hv]. rewrite utf8_valid_str by done. simpl. by rewrite bool_decide_eq_true_2.
  - rewrite deserialize_map. by rewrite (IHk _ Hk Hs).
  - rewrite deserialize_map. by rewrite (IHk _ Hk Hs).
Qed.

(** Only an [Option] skips its header, and a flat one only for [None]. *)
Lemma skipped_optional k v field :
  has_kind k v -> serialize_value field (call_of v) = Ok None -> optional k = true.
Proof.
  revert v. induction k; intros []; simpl; try done; intros Hk Hs;
    unfold scalar_text, scalar_bytes in Hs; try (by destruct (collect_bytes _ _)).
  by eapply IHk.
Qed.
Lemma skipped_none k v field :
  has_kind k v -> flat k -> serialize_value field (call_of v) = Ok None ->
  v = VNone /\ exists k', k = KOption k'.
Proof.
  intros Hk Hf Hs. pose proof (skipped_optional k v field Hk Hs) as Ho.
  destruct k; try done; destruct v; simpl in *; try done; [by eauto| |];
    (pose proof (skipped_optional _ _ _ Hk Hs); congruence).
Qed.

(** *** Writing *)

Lemma write_fields_snoc m fields f :
  write_fields m (fields ++ [f]) = write_field (write_fields m fields) f.
Proof. unfold write_fields. by rewrite fold_left_app. Qed.

Lemma serialize_field_spec h f :
  hs_inv h ->
  exists h' r, serialize_field h f.1 f.2 = (h', r) /\ hs_inv h' /\
    match r with
    | Ok _ => hs_map h' = write_field (hs_map h) f
    | Err e => h' = h /\ refused h f e
    end.
Proof.
  intros Hi. unfold serialize_field, write_field, refused, put.
  destruct (serialize_value f.1 f.2) as [[b|]|e] eqn:E.
  - destruct (hs_insert h f.1 b) as [h'|] eqn:Ei.
    + destruct (hs_insert_map _ _ _ _ Hi Ei) as [Hi' Hm]. by exists h', (Ok tt).
    + exists h, (Err Full). split_and!; [done..|]. right. eauto.
  - by exists h, (Ok tt).
  - exists h, (Err e). split_and!; [done..|]. by left.
Qed.

(** The fields of a struct are written in order up to the first that is refused. *)
Lemma serialize_fields_spec fields h :
  hs_inv h ->
  exists h' r n, serialize_fields h fields = (h', r) /\ hs_inv h' /\
    hs_map h' = write_fields (hs_map h) (take n fields) /\
    match r with
    | Ok _ => n = length fields
    | Err e => exists f, fields !! n = Some f /\ refused h' f e
    end.
Proof.
  revert h. induction fields as [|[name v] fields IH]; intros h Hi.
  - by exists h, (Ok tt), 0.
  - cbn [serialize_fields]. destruct (serialize_field_spec h (name, v) Hi) as (h1 & r1 & E1 & Hi1 & H1).
    simpl in E1. rewrite E1. destruct r1 as [[]|e].
    + destruct (IH h1 Hi1) as (h' & r & n & E & Hi' & Hm & Hr). exists h', r, (S n).
      split_and!; [done|done|by rewrite Hm, H1|]. destruct r; simpl; [lia|done].
    + destruct H1 as [-> Hre]. exists h, (Err e), 0. split_and!; [done|done|done|by eauto].
Qed.

Lemma serialize_fields_ok fields h h' :
  serialize_fields h fields = (h', Ok tt) ->
  forall f, f ∈ fields -> exists o, serialize_value f.1 f.2 = Ok o.
Proof.
  revert h. induction fields as [|[name v] fields IH]; intros h E f Hin; [by inversion Hin|].
  simpl in E. destruct (serialize_field h name v) as [h1 [[]|]] eqn:E1; [|done].
  apply elem_of_cons in Hin as [->|Hin]; [|by eapply IH].
  unfold serialize_field in E1. simpl. destruct (serialize_value name v); [by eauto|done].
Qed.

(** The entries of a map write as the fields their keys name, and end with the first bad key. *)
Lemma serialize_entries_fields entries h :
  serialize_entries h entries = serialize_fields h (keyed entries) \/
  exists e, serialize_entries h entries =
    match serialize_fields h (keyed entries) with
    | (h', Ok tt) => (h', Err e)
    | refusal => refusal
    end.
Proof.
  revert h. induction entries as [|[k v] entries IH]; intros h; [by left|].
  simpl. unfold serialize_entry. destruct (serialize_key k) as [name|e]; [|right; by exists e].
  simpl. destruct (serialize_field h name v) as [h1 [[]|e]]; [apply IH|by left].
Qed.

Lemma insert_typed_prefix v h :
  hs_inv h ->
  exists n, hs_inv (insert_typed h v).1 /\
    hs_map (insert_typed h v).1 = write_fields (hs_map h) (take n (fields_of v)) /\
    (is_ok (insert_typed h v).2 = true -> n = length (fields_of v)).
Proof.
  intros Hi.
  assert (Hf : forall fields, exists n, hs_inv (serialize_fields h fields).1 /\
    hs_map (serialize_fields h fields).1 = write_fields (hs_map h) (take n fields) /\
    (is_ok (serialize_fields h fields).2 = true -> n = length fields)).
  { intros fields. destruct (serialize_fields_spec fields h Hi) as (h' & r & n & -> & ? & ? & Hr).
    exists n. split_and!; [done..|]. by destruct r. }
  induction v; simpl; try (by exists 0); try done; try apply Hf.
  destruct len as [len|]; [|by exists 0]. destruct (Hf (keyed entries)) as (n & H1 & H2 & H3).
  exists n. destruct (serialize_entries_fields entries h) as [->|(e & ->)]; [done|].
  by destruct (serialize_fields h (keyed entries)) as [h' [[]|]].
Qed.

Lemma write_fields_other m fields key :
  key ∉ make_ascii_lowercase <$> fields.*1 -> write_fields m fields !! key = m !! key.
Proof.
  revert m. induction fields as [|f fields IH]; intros m Hk; [done|].
  rewrite fmap_cons, fmap_cons in Hk. apply not_elem_of_cons in Hk as [Hne Hk].
  unfold write_fields in *. simpl. rewrite IH by done. unfold write_field.
  destruct (serialize_value f.1 f.2) as [[b|]|]; [|done|done]. by apply lookup_insert_ne.
Qed.

Lemma write_fields_lookup m fields f :
  NoDup (make_ascii_lowercase <$> fields.*1) -> f ∈ fields ->
  write_fields m fields !! make_ascii_lowercase f.1 =
    match serialize_value f.1 f.2 with
    | Ok (Some b) => Some b
    | _ => m !! make_ascii_lowercase f.1
    end.
Proof.
  revert m. induction fields as [|g fields IH]; intros m Hd Hin; [by inversion Hin|].
  rewrite !fmap_cons in Hd. apply NoDup_cons in Hd as [Hn Hd].
  change (write_fields m (g :: fields)) with (write_fields (write_field m g) fields).
  apply elem_of_cons in Hin as [->|Hin].
  - rewrite write_fields_other by done. unfold write_field.
    destruct (serialize_value g.1 g.2) as [[b|]|]; [|done|done]. apply lookup_insert_eq.
  - rewrite IH by done.
    assert (Hm : write_field m g !! make_ascii_lowercase f.1 = m !! make_ascii_lowercase f.1);
      [|by rewrite !Hm].
    apply (write_fields_other m [g]). intros E%list_elem_of_singleton. apply Hn. simpl in E.
    rewrite <- E. by do 2 apply list_elem_of_fmap_2.
Qed.

Lemma serialize_value_room field v room b :
  scalar_room fm = Some room -> serialize_value field v = Ok (Some b) -> length b <= room.
Proof.
  intros Hroom. induction v; simpl; try done; unfold scalar_text, scalar_bytes, scalar_display;
    rewrite ?collect_pieces_whole, Hroom;
    destruct (collect_bytes _ _) as [out|] eqn:E; try done;
    intros [= <-]; by eapply collect_bytes_room.
Qed.

Lemma write_fields_room m fields room name b :
  scalar_room fm = Some room -> write_fields m fields !! name = Some b ->
  m !! name = Some b \/ length b <= room.
Proof.
  intros Hroom. revert m. induction fields as [|f fields IH]; intros m; [by left|].
  change (write_fields m (f :: fields)) with (write_fields (write_field m f) fields).
  intros [Hm|]%IH; [|by right]. unfold write_field in Hm.
  destruct (serialize_value f.1 f.2) as [[c|]|] eqn:E; [|by left|by left].
  apply lookup_insert_Some in Hm as [[_ <-]|[_ ?]]; [right|by left].
  by eapply serialize_value_room.
Qed.

(** A visitor that collects the pairs, as a map of byte values does. *)
Definition collect_pairs : MapVisitor (list (string * bytes)) (list (string * bytes)) :=
  mk_visitor [] (fun st name => Ok (AskBytes (fun b => Ok (st ++ [(name, b)])))) Ok.

Lemma collect_pairs_spec pairs st : visit_map collect_pairs st pairs = Ok (st ++ pairs).
Proof.
  revert st. induction pairs as [|[name b] pairs IH]; intros st; simpl; [by rewrite app_nil_r|].
  rewrite IH. by rewrite <- app_assoc.
Qed.

(** *** Reading *)

Lemma position_name l i x :
  NoDup l -> l !! i = Some x -> position (String.eqb x) l = Some i.
Proof.
  revert i. induction l as [|y l IH]; intros i Hd Hi; [done|]. apply NoDup_cons in Hd as [Hn Hd].
  simpl. destruct i as [|i]; simpl in Hi.
  - injection Hi as ->. by rewrite String.eqb_refl.
  - destruct (String.eqb_spec x y) as [->|]; [|by rewrite (IH i)].
    destruct Hn. by eapply list_elem_of_lookup_2.
Qed.

(** The slot a declared field is read into, once those before it are filled. *)
Lemma contract_value_next c pre name k suf slots rest :
  c = pre ++ (name, k) :: suf -> NoDup (names c) -> length slots = length pre ->
  exists q, contract_value c (slots ++ None :: rest) name = Ok q /\
    forall raw, deserialize_value name raw q =
      answer (fun v => (slots ++ [Some v]) ++ rest) (deserialize_value name raw (ask_of k)).
Proof.
  intros Hc Hd Hl. unfold contract_value.
  assert (Hi : c !! length pre = Some (name, k)) by (subst c; by apply list_lookup_middle).
  rewrite (position_name _ (length pre) name Hd) by (unfold names; by rewrite list_lookup_fmap, Hi).
  rewrite Hi, list_lookup_middle by done. eexists. split; [done|]. intros raw.
  rewrite deserialize_map. destruct (deserialize_value name raw (ask_of k)); [|done]. simpl.
  f_equal. rewrite <- Hl, <- (Nat.add_0_r (length slots)), insert_app_r, <- app_assoc. done.
Qed.

Lemma visit_fields c h suf : hs_inv h -> NoDup (names c) ->
  forall pre slots, c = pre ++ suf -> length slots = length pre ->
  visit_map (mk_visitor (replicate (length c) None) (contract_value c) (finish c))
    (slots ++ replicate (length suf) None) (field_access h (names suf)) =
  let? st := read_slots (hs_map h) suf in finish c (slots ++ st).
Proof.
  intros Hi Hd. induction suf as [|[name k] suf IH]; intros pre slots Hc Hl; [done|].
  assert (Hc' : c = (pre ++ [(name, k)]) ++ suf) by by rewrite <- app_assoc.
  change (names ((name, k) :: suf)) with (name :: names suf).
  cbn [field_access read_slots replicate length]. unfold read_slot.
  rewrite (hs_get_map h name Hi). cbn [fst snd].
  destruct (hs_map h !! make_ascii_lowercase name) as [raw|].
  - cbn [visit_map mv_value].
    destruct (contract_value_next c pre name k suf slots (replicate (length suf) None) Hc Hd Hl)
      as (q & -> & Hq). simpl. rewrite Hq.
    destruct (deserialize_value name raw (ask_of k)) as [v|e]; [|done]. simpl.
    rewrite (IH _ (slots ++ [Some v]) Hc') by (rewrite !length_app; simpl; lia).
    destruct (read_slots (hs_map h) suf); [|done]. simpl. by rewrite <- app_assoc.
  - simpl.
    replace (slots ++ None :: replicate (length suf) None)
      with ((slots ++ [None]) ++ replicate (length suf) None) by by rewrite <- app_assoc.
    rewrite (IH _ (slots ++ [None]) Hc') by (rewrite !length_app; simpl; lia).
    destruct (read_slots (hs_map h) suf); [|done]. simpl. by rewrite <- app_assoc.
Qed.

Lemma read_derived c h :
  hs_inv h -> NoDup (names c) -> to_typed h (derived c) = read_contract (hs_map h) c.
Proof. intros Hi Hd. exact (visit_fields c h c Hi Hd [] [] eq_refl eq_refl). Qed.

(** A field's value is in the headers, or is the [None] of an [Option]. *)
Definition stored (m : gmap string bytes) (f : string * kind) (v : val) : Prop :=
  match m !! make_ascii_lowercase f.1 with
  | Some b => deserialize_value f.1 b (ask_of f.2) = Ok v
  | None => v = VNone /\ exists k, f.2 = KOption k
  end.

Lemma read_stored m c vs : Forall2 (stored m) c vs -> read_contract m c = Ok vs.
Proof.
  unfold read_contract. induction 1 as [|f v c vs Hf _ IH]; [done|].
  cbn [read_slots]. unfold read_slot, stored in *. destruct (m !! _) as [b|].
  - rewrite Hf. simpl. destruct (read_slots m c); [|done]. simpl in *. by rewrite IH.
  - destruct Hf as [-> (k & Hk)]. simpl. destruct (read_slots m c); [|done]. simpl in *.
    unfold absent. rewrite Hk. simpl. by rewrite IH.
Qed.

(** *** Both directions *)

(** A contract's values: of their kinds, under names no two of which differ only in case, and no
    [None] over a header the map already holds. *)
Record Fits (c : Contract) (vs : list val) (m : gmap string bytes) : Prop := {
  fits_names : NoDup (make_ascii_lowercase <$> names c);
  fits_kinds : Forall2 (fun f v => has_kind f.2 v) c vs;
  fits_flat : Forall (fun f => flat f.2) c;
  fits_none : Forall2 (fun f v => v = VNone -> m !! make_ascii_lowercase f.1 = None) c vs;
}.

Definition contract_fields (c : Contract) (vs : list val) : list (string * call) :=
  zip_with (fun f v => (f.1, call_of v)) c vs.

Lemma contract_fields_names c vs :
  length c = length vs -> (contract_fields c vs).*1 = names c.
Proof.
  unfold contract_fields, names. revert vs.
  induction c as [|f c IH]; intros [|v vs] Hl; simpl in *; try done. by rewrite IH by lia.
Qed.

(** A struct that was written is read back. *)
Lemma written_reads_back c vs h h' :
  hs_inv h -> Fits c vs (hs_map h) ->
  insert_typed h (contract_call c vs) = (h', Ok tt) ->
  hs_inv h' /\ to_typed h' (derived c) = Ok vs.
Proof.
  intros Hi [Hn Hk Hf Hnone] Hw. simpl in Hw. fold (contract_fields c vs) in Hw.
  destruct (serialize_fields_spec (contract_fields c vs) h Hi) as (h2 & r & n & E & Hi' & Hm & Hr).
  rewrite E in Hw. injection Hw as -> ->. rewrite Hr, take_ge in Hm by done.
  pose proof (Forall2_length _ _ _ Hk) as Hlen.
  split; [done|]. rewrite read_derived; [|done|by eapply NoDup_fmap_1].
  apply read_stored. apply Forall2_same_length_lookup. split; [done|]. intros i f v Hfi Hvi.
  assert (Hin : (f.1, call_of v) ∈ contract_fields c vs).
  { apply list_elem_of_lookup_2 with i. unfold contract_fields. rewrite lookup_zip_with, Hfi, Hvi. done. }
  unfold stored. rewrite Hm.
  pose proof (write_fields_lookup (hs_map h) (contract_fields c vs) (f.1, call_of v)) as Hl.
  rewrite (contract_fields_names _ _ Hlen) in Hl. specialize (Hl Hn Hin). simpl in Hl. rewrite Hl.
  destruct (serialize_fields_ok _ _ _ E _ Hin) as ([b|] & Hs); simpl in Hs; rewrite Hs.
  - eapply scalar_round_trip; [|done]. by eapply (Forall2_lookup_lr _ _ _ _ _ _ Hk).
  - destruct (skipped_none f.2 v f.1) as [-> Hopt]; [|by eapply Forall_lookup_1 in Hf|done|].
    + by eapply (Forall2_lookup_lr _ _ _ _ _ _ Hk).
    + by rewrite (Forall2_lookup_lr _ _ _ _ _ _ Hnone Hfi Hvi eq_refl).
Qed.

(** A [None] writes nothing: a header already there under its name stays, and is what a read finds. *)
Lemma none_leaves_the_header c vs h h' i f :
  hs_inv h -> NoDup (make_ascii_lowercase <$> names c) -> Forall2 (fun f v => has_kind f.2 v) c vs ->
  insert_typed h (contract_call c vs) = (h', Ok tt) -> c !! i = Some f -> vs !! i = Some VNone ->
  hs_map h' !! make_ascii_lowercase f.1 = hs_map h !! make_ascii_lowercase f.1.
Proof.
  intros Hi Hn Hk Hw Hfi Hvi. simpl in Hw. fold (contract_fields c vs) in Hw.
  destruct (serialize_fields_spec (contract_fields c vs) h Hi) as (h2 & r & n & E & Hi' & Hm & Hr).
  rewrite E in Hw. injection Hw as -> ->. rewrite Hr, take_ge in Hm by done. rewrite Hm.
  assert (Hin : (f.1, call_of VNone) ∈ contract_fields c vs).
  { apply list_elem_of_lookup_2 with i. unfold contract_fields. rewrite lookup_zip_with, Hfi, Hvi. done. }
  pose proof (write_fields_lookup (hs_map h) (contract_fields c vs) (f.1, call_of VNone)) as Hl.
  rewrite (contract_fields_names _ _ (Forall2_length _ _ _ Hk)) in Hl. specialize (Hl Hn Hin). simpl in Hl. by rewrite Hl.
Qed.

(** A value of its kind is refused only for room. *)
Lemma kind_serializes k v field :
  has_kind k v ->
  match serialize_value field (call_of v) with
  | Ok _ => True
  | Err e => e = Full /\ scalar_room fm <> None
  end.
Proof.
  revert v. induction k; intros []; simpl; try done; intros Hk;
    try by apply IHk.
  all: unfold scalar_text, scalar_bytes, collect_bytes; destruct (scalar_room fm); simpl; try done.
  all: by destruct (try_push _ _ _) as [|[]].
Qed.

Lemma contract_refused c vs h f e :
  Forall2 (fun f v => has_kind f.2 v) c vs -> f ∈ contract_fields c vs -> refused h f e -> e = Full.
Proof.
  intros Hk Hin [Hs|[? _]]; [|done]. apply list_elem_of_lookup in Hin as (i & Hi).
  unfold contract_fields in Hi. apply lookup_zip_with_Some in Hi as (g & v & -> & Hg & Hv).
  pose proof (kind_serializes _ _ g.1 (Forall2_lookup_lr _ _ _ _ _ _ Hk Hg Hv)) as Hks.
  simpl in Hs. rewrite Hs in Hks. by destruct Hks.
Qed.

Lemma contract_always_fits c vs h :
  hs_inv h -> scalar_room fm = None -> (forall h name b, hs_insert (H:=Map) h name b <> None) ->
  Forall2 (fun f v => has_kind f.2 v) c vs ->
  exists h', insert_typed h (contract_call c vs) = (h', Ok tt).
Proof.
  intros Hi Hroom Hins Hk. simpl. fold (contract_fields c vs).
  destruct (serialize_fields_spec (contract_fields c vs) h Hi) as (h' & r & n & E & _ & _ & Hr).
  exists h'. rewrite E. destruct r as [[]|e]; [done|]. destruct Hr as (f & Hf & Hre).
  exfalso. destruct Hre as [Hs|(_ & b & _ & Hb)]; [|by apply Hins in Hb].
  unfold contract_fields in Hf. apply lookup_zip_with_Some in Hf as (g & v & -> & Hg & Hv).
  pose proof (kind_serializes _ _ g.1 (Forall2_lookup_lr _ _ _ _ _ _ Hk Hg Hv)) as Hks.
  simpl in Hs. rewrite Hs in Hks. by destruct Hks.
Qed.

(** ** Properties *)

(** C16. Whatever a value's [Serialize] does (any call tree, failing or not), and for any header
    map: typed insertion keeps the map well formed; it writes, in order, the fields the value
    names up to where it stopped, all of them when it answers [Ok]; headers under other names keep
    their values; and in a build without an allocator nothing it writes is longer than a field
    value may be. *)
Theorem typed_insert_keeps_the_headers v h :
  hs_inv h ->
  let '(h', r) := insert_typed h v in
  hs_inv h' /\
  (exists n, hs_map h' = write_fields (hs_map h) (take n (fields_of v)) /\
     (is_ok r = true -> n = length (fields_of v))) /\
  (forall name, name ∉ make_ascii_lowercase <$> (fields_of v).*1 ->
     hs_map h' !! name = hs_map h !! name) /\
  (forall room name b, scalar_room fm = Some room -> hs_map h' !! name = Some b ->
     hs_map h !! name = Some b \/ length b <= room).
Proof.
  intros Hi. destruct (insert_typed_prefix v h Hi) as (n & Hi' & Hm & Hok).
  destruct (insert_typed h v) as [h' r]. simpl in *. split_and!; [done|by eauto| |].
  - intros name Hn. rewrite Hm. apply write_fields_other. intros Hin. apply Hn.
    rewrite <- (take_drop n (fields_of v)), !fmap_app. apply elem_of_app. by left.
  - intros room name b Hroom. rewrite Hm. by apply write_fields_room.
Qed.

(** C17. Reading a derived struct reads each field by itself from the header of its name in any
    casing, whatever the other headers and whatever their order: the visitor driven over the
    headers that are present computes the field-by-field reference, in which the first value that
    does not parse, in the declared order, wins over every missing field, and a missing [Option]
    is [None]. *)
Theorem typed_read_is_field_by_field c h :
  hs_inv h -> NoDup (names c) -> to_typed h (derived c) = read_contract (hs_map h) c.
Proof. apply read_derived. Qed.

(** Reading a header map as a map: a visitor that collects the pairs is given every header
    once, under its stored name, so the collected pairs are the map's. *)
Theorem typed_map_read_is_complete `{HIL : !HeaderIterLaws Map} h :
  hs_inv h ->
  exists pairs, to_typed h (TopMap collect_pairs) = Ok pairs /\ NoDup pairs.*1 /\
    list_to_map pairs = hs_map h.
Proof.
  intros Hi. exists (hs_iter h). split_and!; [|by apply hs_iter_names|by apply hs_iter_map].
  simpl. by rewrite (collect_pairs_spec (hs_iter h) []).
Qed.
End typed.

Arguments call : clear implicits.
Arguments val : clear implicits.
Arguments TopStruct {F32 F64 A} fields {St} v.
Arguments TopMap {F32 F64 A St} v.
Arguments TopOther {F32 F64 A}.

(** C15. A struct whose traits are derived goes through a heap header map and back: its fields are
    scalars, newtypes and [Option]s of scalars with values of their types, no [Option] directly inside
    another or inside a newtype, and its wire names differ not only in case.  Writing it always
    succeeds.  Reading the headers then gives the values that were written, for every integer width,
    text, bytes, unit variants and floats but NaN, wherever no [None] was written over a header already
    there; a [None] writes nothing, and a header already there under its name stays as it was, so that
    is what a read of the field finds. *)
Theorem typed_headers_round_trip {F32 F64} `{FloatTextLaws F32, FloatTextLaws F64}
    missing_field duplicate_field unknown_variant
    (c : list (string * kind)) (vs : list (val F32 F64)) (h : HeaderMap.HeaderMap) :
  HeaderMap.wf h -> NoDup (make_ascii_lowercase <$> names c) -> Forall2 (fun f v => has_kind f.2 v) c vs ->
  Forall (fun f => flat f.2) c ->
  exists h', insert_typed alloc_form h (contract_call c vs) = (h', Ok tt) /\ HeaderMap.wf h' /\
    (Forall2 (fun f v => v = VNone -> HeaderMap.to_map h !! make_ascii_lowercase f.1 = None) c vs ->
     to_typed alloc_form h' (derived alloc_form missing_field duplicate_field unknown_variant c) = Ok vs) /\
    (forall i f, c !! i = Some f -> vs !! i = Some VNone ->
       HeaderMap.to_map h' !! make_ascii_lowercase f.1 = HeaderMap.to_map h !! make_ascii_lowercase f.1).
Proof.
  intros Hi Hn Hk Hf.
  destruct (contract_always_fits (HS := HeaderMap.header_store) alloc_form c vs h Hi eq_refl) as (h' & Hw); [done|done|].
  exists h'. split; [done|]. split_and!.
  - pose proof (insert_typed_prefix (HS := HeaderMap.header_store) alloc_form (contract_call c vs) h Hi) as Hp.
    destruct Hp as (n & Hi' & _). by rewrite Hw in Hi'.
  - intros Hnone. apply (written_reads_back (HS := HeaderMap.header_store) alloc_form _ _ _ c vs h h' Hi); [by split|done].
  - intros i f Hfi Hvi. by apply (none_leaves_the_header (HS := HeaderMap.header_store) alloc_form c vs h h' i f).
Qed.

(** Over fixed headers the same struct either goes through and back, or the write answers
    [Full] and nothing else: the map is then well formed and holds the fields before the one that
    was refused, for its value longer than sixty-four bytes or for want of room in the map. *)
Theorem typed_fixed_headers_round_trip_or_full {F32 F64} `{FloatTextLaws F32, FloatTextLaws F64}
    missing_field duplicate_field unknown_variant
    (c : list (string * kind)) (vs : list (val F32 F64)) (h : Fixed.FixedHeaders) :
  Fixed.wf h -> Fits c vs (Fixed.to_map h) ->
  let fields := contract_fields c vs in
  match insert_typed fixed_form h (contract_call c vs) with
  | (h', Ok _) => Fixed.wf h' /\
      to_typed fixed_form h' (derived fixed_form missing_field duplicate_field unknown_variant c) =
        Ok vs
  | (h', Err e) => Fixed.wf h' /\ e = Full /\
      exists n f, fields !! n = Some f /\ refused fixed_form h' f Full /\
        Fixed.to_map h' = write_fields fixed_form (Fixed.to_map h) (take n fields)
  end.
Proof.
  intros Hi Hfits fields. destruct (insert_typed _ _ _) as [h' [[]|e]] eqn:E.
  - exact (written_reads_back (HS := Fixed.fixed_store) fixed_form _ _ _ c vs h h' Hi Hfits E).
  - simpl in E. destruct (serialize_fields_spec (HS := Fixed.fixed_store) fixed_form fields h Hi)
      as (h2 & r & n & E2 & Hi' & Hm & Hr).
    unfold fields, contract_fields in *. rewrite E in E2. injection E2 as <- <-.
    destruct Hr as (f & Hf & Hre).
    assert (e = Full) as ->.
    { exact (contract_refused (HS := Fixed.fixed_store) fixed_form c vs h' f e
        (fits_kinds _ _ _ Hfits) (list_elem_of_lookup_2 _ _ _ Hf) Hre). }
    split_and!; [done|done|]. by exists n, f.
Qed.

(** ** Witnesses: a contract with whole-number floats *)

#[export] Instance whole_text : FloatText Z := {
  float_to_string := int_to_string;
  float_parse := int_parse I128;
  float_num := int_in I128;
}.
#[export] Instance whole_text_laws : FloatTextLaws Z.
Proof. split; [apply int_text_ascii|apply int_parse_to_string]. Qed.

Definition meta : list (string * kind) :=
  [("task_id", KInt U64); ("Ratio", KF32); ("flag", KBool); ("label", KOption KStr);
   ("blob", KOption KBytes)].
Definition meta_values : list (val Z Z) :=
  [VInt U64 7; VF32 (-3)%Z; VBool true; VSome (VStr "x"); VNone].
Definition wording (name : string) : list string := ["field "; name].

Lemma meta_fits m : m !! "blob" = None -> Fits meta meta_values m.
Proof.
  intros Hm. split.
  - vm_compute. repeat (apply NoDup_cons; split; [set_solver|]). constructor.
  - repeat constructor; vm_compute; done.
  - repeat constructor.
  - repeat constructor; try done.
Qed.

(** A map that holds a [blob] already, and one that does not. *)
Definition with_blob : HeaderMap.HeaderMap := fst (HeaderMap.insert_header HeaderMap.new "blob" (as_bytes "old")).

Lemma typed_headers_round_trip_witness :
  (exists h', insert_typed alloc_form HeaderMap.new (contract_call meta meta_values) = (h', Ok tt) /\
     to_typed alloc_form h' (derived alloc_form wording wording wording meta) = Ok meta_values) /\
  (exists h', insert_typed alloc_form with_blob (contract_call meta meta_values) = (h', Ok tt) /\
     HeaderMap.to_map h' !! "blob" = Some (as_bytes "old")).
Proof.
  assert (Hwf : HeaderMap.wf HeaderMap.new) by (split; constructor).
  pose proof (meta_fits ∅ (lookup_empty _)) as [Hn Hk Hf _]. split.
  - destruct (typed_headers_round_trip wording wording wording meta meta_values HeaderMap.new Hwf Hn Hk Hf)
      as (h' & Hw & _ & Hr & _). exists h'. split; [exact Hw|]. apply Hr. repeat constructor; vm_compute; done.
  - destruct (typed_headers_round_trip wording wording wording meta meta_values with_blob
      ltac:(apply HeaderMap.insert_header_spec; exact Hwf) Hn Hk Hf) as (h' & Hw & _ & _ & Hb).
    exists h'. split; [exact Hw|]. rewrite (Hb 4 ("blob", KOption KBytes) eq_refl eq_refl : HeaderMap.to_map h' !! "blob" = _).
    vm_compute. reflexivity.
Defined.

(** Room for three of the four headers. *)
Definition tight_headers : Fixed.FixedHeaders := Fixed.new 3 256.

Lemma typed_fixed_headers_round_trip_or_full_witness :
  Fixed.wf tight_headers /\
  (insert_typed fixed_form tight_headers (contract_call meta meta_values)).2 = Err Full /\
  Fixed.wf (insert_typed fixed_form tight_headers (contract_call meta meta_values)).1.
Proof.
  assert (HR : Fixed.Repr tight_headers []) by (apply Fixed.new_Repr; by vm_compute).
  assert (Hm : Fixed.to_map tight_headers !! "blob" = None) by by vm_compute.
  pose proof (typed_fixed_headers_round_trip_or_full wording wording wording meta meta_values
    tight_headers (Fixed.Repr_wf _ _ HR) (meta_fits _ Hm)) as Hp.
  split; [exact (Fixed.Repr_wf _ _ HR)|]. split; [by vm_compute|].
  destruct (insert_typed _ _ _) as [h' [u|e]]; exact (proj1 Hp).
Defined.

(** A tree that writes one field and then fails on a nested sequence. *)
Definition half_written : call Z Z :=
  CStruct [("Region", CStr "eu"); ("rest", CSeq); ("late", CBool true)].

Lemma typed_insert_keeps_the_headers_witness :
  insert_typed alloc_form HeaderMap.two_headers half_written =
    (HeaderMap.mk_headers (Some (HeaderMap.entries HeaderMap.two_headers ++
       [("region", as_bytes "eu")])), Err (UnsupportedValue "rest" "a sequence")) /\
  HeaderMap.wf (insert_typed alloc_form HeaderMap.two_headers half_written).1.
Proof.
  split; [by vm_compute|].
  assert (Hwf : hs_inv HeaderMap.two_headers).
  { split; [by repeat constructor|]. vm_compute. apply NoDup_cons.
    split; [set_solver|apply NoDup_singleton]. }
  pose proof (typed_insert_keeps_the_headers alloc_form half_written HeaderMap.two_headers Hwf) as Hp.
  destruct (insert_typed alloc_form HeaderMap.two_headers half_written) as [h' r].
  exact (proj1 Hp).
Defined.

(** A value that does not parse, with a field missing before it: the parse error wins. *)
Lemma typed_read_is_field_by_field_witness :
  let h := HeaderMap.mk_headers (Some [("flag", as_bytes "yes")]) in
  to_typed alloc_form h (derived (F32 := Z) (F64 := Z) alloc_form wording wording wording meta) =
    read_contract alloc_form wording wording (HeaderMap.to_map h) meta /\
  read_contract (F32 := Z) (F64 := Z) alloc_form wording wording (HeaderMap.to_map h) meta =
    Err (Parse "flag" "bool" "yes").
Proof.
  intros h. split; [|by vm_compute].
  assert (Hwf : HeaderMap.wf h) by (split; [by repeat constructor|apply NoDup_singleton]).
  assert (Hd : NoDup (names meta)).
  { vm_compute. repeat (apply NoDup_cons; split; [set_solver|]). constructor. }
  exact (typed_read_is_field_by_field (F32 := Z) (F64 := Z) (HS := HeaderMap.header_store)
    alloc_form wording wording wording meta h Hwf Hd).
Defined.

Lemma typed_map_read_is_complete_witness :
  exists pairs, to_typed (F32 := Z) (F64 := Z) alloc_form HeaderMap.new (TopMap collect_pairs) =
      Ok pairs /\ NoDup pairs.*1 /\ list_to_map pairs = HeaderMap.to_map HeaderMap.new.
Proof.
  assert (Hwf : HeaderMap.wf HeaderMap.new) by (split; constructor).
  exact (typed_map_read_is_complete (F32 := Z) (F64 := Z) (HS := HeaderMap.header_store)
    alloc_form HeaderMap.new Hwf).
Defined.

(** A nested option does not come back: [Some(None)] is written as nothing and read as [None]. *)
Remark nested_option_collapses name :
  let c := [(name, KOption (KOption KStr))] in
  let h := (insert_typed alloc_form HeaderMap.new
    (contract_call c [VSome (VNone : val Z Z)])).1 in
  to_typed alloc_form h (derived alloc_form wording wording wording c) = Ok [VNone].
Proof. done. Qed.

(** What the serializer accepts at the top level and the deserializer does not: an untagged enum
    and an [Option] write their content's fields, and both ask for a value the headers refuse. *)
Remark untagged_contract_is_write_only (h : HeaderMap.HeaderMap) fields :
  insert_typed (F32 := Z) (F64 := Z) alloc_form h (CNewtypeVariant (CStruct fields)) =
    insert_typed alloc_form h (CStruct fields) /\
  to_typed (F32 := Z) (F64 := Z) (A := unit) alloc_form h TopOther =
    Err (DeTopLevel "a self-describing value").
Proof. done. Qed.

End Typed.
