(* ===== verification/FixedBuf.v ===== *)
(** * Fixed-capacity byte buffers ([crates/core/src/fixed_buf.rs]) *)
From Stdlib Require Import Ascii String.
From S2P Require Import Prelude RustStd.

Module Buf.

(** [FixedBufOf]: the bytes in use and the storage behind them. *)
Record FixedBuf := mk_buf { buf_len : nat; storage : bytes }.
Inductive BufferFull := buffer_full.

Definition new (N : nat) : FixedBuf := mk_buf 0 (replicate N zero).
Definition capacity (b : FixedBuf) : nat := length (storage b).
Definition len (b : FixedBuf) : nat := buf_len b.
Definition is_empty (b : FixedBuf) : bool := Nat.eqb (buf_len b) 0.
(** [&bytes[..len]], which panics when [len] is past the room. *)
Definition as_slice (b : FixedBuf) : option bytes :=
  if buf_len b <=? length (storage b) then Some (take (buf_len b) (storage b)) else None.
Definition clear (b : FixedBuf) : FixedBuf := mk_buf 0 (storage b).

(** [checked_add] of two slice lengths is exact: both are below [isize::MAX]. *)
Definition extend_from_slice (b : FixedBuf) (data : bytes) : result FixedBuf BufferFull :=
  let fin := buf_len b + length data in
  if fin <=? capacity b
  then Ok (mk_buf fin (take (buf_len b) (storage b) ++ data ++ drop fin (storage b)))
  else Err buffer_full.

(** [write] sees the whole room, may overwrite any of it, and reports what it wrote. *)
Definition write_with {E} (b : FixedBuf) (write : bytes -> bytes * result nat E)
  : FixedBuf * result nat E :=
  let (room, written) := write (storage b) in
  match written with
  | Ok written =>
      let len := Nat.min written (capacity b) in (mk_buf len room, Ok len)
  | Err e => (mk_buf 0 room, Err e)
  end.

Definition write_str (b : FixedBuf) (text : string) : result FixedBuf BufferFull :=
  extend_from_slice b (as_bytes text).
Definition buf_eq (b other : FixedBuf) : bool := bool_decide (as_slice b = as_slice other).
Definition try_from (N : nat) (data : bytes) : result FixedBuf BufferFull :=
  extend_from_slice (new N) data.

Definition wf (b : FixedBuf) : Prop := buf_len b <= length (storage b).

Lemma as_slice_wf b : wf b -> as_slice b = Some (take (buf_len b) (storage b)).
Proof. intros H. unfold as_slice. by rewrite (proj2 (Nat.leb_le _ _) H). Qed.

Lemma extend_spec b data :
  wf b ->
  match extend_from_slice b data with
  | Ok b' => wf b' /\ capacity b' = capacity b /\ len b' = len b + length data /\
             exists s, as_slice b = Some s /\ as_slice b' = Some (s ++ data)
  | Err _ => capacity b < len b + length data
  end.
Proof.
  intros Hwf. pose proof Hwf as Hle. unfold wf in Hle. unfold extend_from_slice, len.
  destruct (Nat.leb_spec (buf_len b + length data) (capacity b)) as [Hfit|Hfit]; [|done].
  unfold capacity in Hfit.
  assert (Hlen : length (take (buf_len b) (storage b) ++ data ++
    drop (buf_len b + length data) (storage b)) = length (storage b)).
  { rewrite !length_app, length_take, length_drop. lia. }
  split_and!; [unfold wf; simpl; lia|unfold capacity; simpl; lia|done|].
  eexists. split; [by apply as_slice_wf|]. rewrite as_slice_wf by (unfold wf; simpl; lia).
  simpl. f_equal. rewrite app_assoc, take_app_le by (rewrite length_app, length_take; lia).
  apply take_ge. rewrite length_app, length_take. lia.
Qed.

(** An append to a fixed buffer is taken whole or refused whole, never truncated and never out
    of bounds; an encoder that over-reports what it wrote exposes no more than the room. *)
Theorem fixed_buf_correct {E} b data (write : bytes -> bytes * result nat E) :
  wf b ->
  match extend_from_slice b data with
  | Ok b' => wf b' /\ capacity b' = capacity b /\
             exists s, as_slice b = Some s /\ as_slice b' = Some (s ++ data)
  | Err _ => capacity b < len b + length data
  end /\
  ((forall room, length (fst (write room)) = length room) ->
   wf (fst (write_with b write)) /\ capacity (fst (write_with b write)) = capacity b).
Proof.
  intros Hwf. split.
  - pose proof (extend_spec b data Hwf) as H. destruct (extend_from_slice b data); [|done].
    destruct H as (?&?&_&?). done.
  - intros Hw. specialize (Hw (storage b)). unfold write_with, wf, capacity in *.
    destruct (write (storage b)) as [room [n|e]]; simpl in *; split; lia.
Qed.

Lemma fixed_buf_correct_witness :
  match extend_from_slice (new 4) (as_bytes "abc") with
  | Ok b => exists s, as_slice (new 4) = Some s /\ as_slice b = Some (s ++ as_bytes "abc")
  | Err _ => False
  end.
Proof.
  assert (Hwf : wf (new 4)) by (vm_compute; lia).
  destruct (fixed_buf_correct (E := unit) (new 4) (as_bytes "abc") (fun r => (r, Err tt)) Hwf) as [H _].
  exact (proj2 (proj2 H)).
Defined.

End Buf.
