(* ===== verification/Queue.v ===== *)
(** * The queues and wakers the brokers are built on

    The code stores deliveries in queues of other crates: tokio's unbounded channel (the memory
    broker), heapless's [Deque] and embassy's [Channel] (the local buses), and parks readers in
    embassy's [WakerRegistration].  Each is an interface here: the operations the code calls, and
    the documented laws it relies on, over a ghost view of the contents.  The [list] instances show
    the laws can hold, and give the witnesses something to run. *)
From S2P Require Import Prelude.

(** ** Bounded queues: [heapless::Deque<T, N>], [embassy_sync::channel::Channel<_, T, N>] *)

Class BoundedQueue (Q : Type -> Type) := {
  bq_new {A} (capacity : nat) : Q A;
  bq_push {A} (q : Q A) (x : A) : option (Q A);
  bq_pop {A} (q : Q A) : option (A * Q A);
  bq_len {A} (q : Q A) : nat;
  (** ghost *)
  bq_items {A} (q : Q A) : list A;
  bq_capacity {A} (q : Q A) : nat;
}.

Class BoundedQueueLaws (Q : Type -> Type) `{BoundedQueue Q} := {
  bq_new_items {A} n : bq_items (bq_new (A := A) n) = [] /\ bq_capacity (bq_new (A := A) n) = n;
  bq_push_room {A} (q : Q A) x :
    length (bq_items q) < bq_capacity q ->
    exists q', bq_push q x = Some q' /\ bq_items q' = bq_items q ++ [x] /\
      bq_capacity q' = bq_capacity q;
  bq_push_full {A} (q : Q A) x : bq_capacity q <= length (bq_items q) -> bq_push q x = None;
  bq_pop_empty {A} (q : Q A) : bq_items q = [] -> bq_pop q = None;
  bq_pop_first {A} (q : Q A) x rest :
    bq_items q = x :: rest ->
    exists q', bq_pop q = Some (x, q') /\ bq_items q' = rest /\ bq_capacity q' = bq_capacity q;
  bq_len_items {A} (q : Q A) : bq_len q = length (bq_items q);
}.

Section bounded_queue.
Context {Q : Type -> Type} `{BoundedQueueLaws Q} {A : Type}.
Implicit Types q : Q A.

Lemma bq_pop_Some q x q' :
  bq_pop q = Some (x, q') -> bq_items q = x :: bq_items q' /\ bq_capacity q' = bq_capacity q.
Proof.
  intros Hp. destruct (bq_items q) as [|y rest] eqn:E.
  - by rewrite bq_pop_empty in Hp.
  - destruct (bq_pop_first q y rest E) as (q'' & Hq & <- & Hc). rewrite Hq in Hp. by injection Hp as -> ->.
Qed.

Lemma bq_pop_None q : bq_pop q = None -> bq_items q = [].
Proof.
  intros Hp. destruct (bq_items q) as [|y rest] eqn:E; [done|].
  destruct (bq_pop_first q y rest E) as (q'' & Hq & _). by rewrite Hq in Hp.
Qed.

Lemma bq_push_Some q x q' :
  bq_push q x = Some q' ->
  bq_items q' = bq_items q ++ [x] /\ bq_capacity q' = bq_capacity q /\
  length (bq_items q) < bq_capacity q.
Proof.
  intros Hp. destruct (decide (length (bq_items q) < bq_capacity q)) as [Hl|Hl].
  - destruct (bq_push_room q x Hl) as (q'' & Hq & Hi & Hc). rewrite Hq in Hp. by injection Hp as <-.
  - rewrite bq_push_full in Hp by lia. done.
Qed.
End bounded_queue.

Definition LQueue (A : Type) : Type := nat * list A.

#[export] Instance list_queue : BoundedQueue LQueue := {
  bq_new A capacity := (capacity, []);
  bq_push A q x := if length q.2 <? q.1 then Some (q.1, q.2 ++ [x]) else None;
  bq_pop A q := match q.2 with [] => None | x :: rest => Some (x, (q.1, rest)) end;
  bq_len A q := length q.2;
  bq_items A q := q.2;
  bq_capacity A q := q.1;
}.

#[export] Instance list_queue_laws : BoundedQueueLaws LQueue.
Proof.
  split; intros A; simpl; try done.
  - intros [n l] x H. rewrite (proj2 (Nat.ltb_lt _ _) H). by eexists.
  - intros [n l] x H. simpl in *. by rewrite (proj2 (Nat.ltb_ge _ _) H).
  - intros [n l] H. simpl in *. by subst.
  - intros [n l] x rest H. simpl in *. subst. by eexists.
Qed.

(** ** Wakers: [WakerRegistration] *)

Class WakerRegistration (R : Type) := {
  wr_new : R;
  wr_register : R -> nat -> R;
  wr_wake : R -> R * option nat;
  (** ghost: the waker held *)
  wr_held : R -> option nat;
}.

Class WakerRegistrationLaws (R : Type) `{WakerRegistration R} := {
  wr_new_held : wr_held wr_new = None;
  wr_register_held r w : wr_held (wr_register r w) = Some w;
  (** registering the task that is registered keeps its waker *)
  wr_register_same r w : wr_held r = Some w -> wr_register r w = r;
  wr_wake_held r : wr_held (fst (wr_wake r)) = None /\ snd (wr_wake r) = wr_held r;
}.

#[export] Instance option_waker : WakerRegistration (option nat) := {
  wr_new := None;
  wr_register _ w := Some w;
  wr_wake r := (None, r);
  wr_held r := r;
}.

#[export] Instance option_waker_laws : WakerRegistrationLaws (option nat).
Proof. split; [done|done|intros r w; simpl; by intros ->|done]. Qed.

(** ** Several wakers: [MultiWakerRegistration]

    A registration that finds no room left wakes everyone to make some. *)

Class MultiWaker (R : Type) := {
  mw_new (capacity : nat) : R;
  mw_register : R -> nat -> R * list nat;
  mw_wake : R -> R * list nat;
  (** ghost: the wakers held *)
  mw_held : R -> list nat;
}.

Class MultiWakerLaws (R : Type) `{MultiWaker R} := {
  mw_new_held n : mw_held (mw_new n) = [];
  mw_register_held r w : w ∈ mw_held (mw_register r w).1;
  mw_register_keeps r w v : v ∈ mw_held r -> v ∈ mw_held (mw_register r w).1 \/ v ∈ (mw_register r w).2;
  mw_wake_held r : mw_held (mw_wake r).1 = [] /\ forall v, v ∈ mw_held r -> v ∈ (mw_wake r).2;
}.

#[export] Instance list_wakers : MultiWaker (nat * list nat) := {
  mw_new n := (n, []);
  mw_register r w :=
    if decide (w ∈ r.2) then (r, [])
    else if decide (length r.2 < r.1) then ((r.1, w :: r.2), [])
    else ((r.1, [w]), r.2);
  mw_wake r := ((r.1, []), r.2);
  mw_held r := r.2;
}.

#[export] Instance list_wakers_laws : MultiWakerLaws (nat * list nat).
Proof.
  split; [done| | |done].
  - intros r w. cbn. destruct (decide (w ∈ r.2)); [done|]. destruct (decide (length r.2 < r.1)); by left.
  - intros r w v. cbn. destruct (decide (w ∈ r.2)); [by left|].
    destruct (decide (length r.2 < r.1)); [left; by right|by right].
Qed.

(** ** Unbounded channels: [tokio::sync::mpsc::unbounded_channel]

    One value holds both ends: the queue and whether the receiver has closed it.  A send to a
    closed channel hands the message back. *)

Class Unbounded (C : Type -> Type) := {
  ch_new {A} : C A;
  ch_send {A} (c : C A) (x : A) : C A * bool;
  ch_close {A} (c : C A) : C A;
  ch_is_closed {A} (c : C A) : bool;
  ch_try_recv {A} (c : C A) : option (A * C A);
  (** ghost *)
  ch_items {A} (c : C A) : list A;
}.

Class UnboundedLaws (C : Type -> Type) `{Unbounded C} := {
  ch_new_items {A} : ch_items (ch_new (A := A)) = [] /\ ch_is_closed (ch_new (A := A)) = false;
  ch_send_open {A} (c : C A) x :
    ch_is_closed c = false ->
    snd (ch_send c x) = true /\ ch_items (fst (ch_send c x)) = ch_items c ++ [x] /\
    ch_is_closed (fst (ch_send c x)) = false;
  ch_send_closed {A} (c : C A) x : ch_is_closed c = true -> ch_send c x = (c, false);
  ch_close_items {A} (c : C A) :
    ch_items (ch_close c) = ch_items c /\ ch_is_closed (ch_close c) = true;
  ch_try_recv_empty {A} (c : C A) : ch_items c = [] -> ch_try_recv c = None;
  ch_try_recv_first {A} (c : C A) x rest :
    ch_items c = x :: rest ->
    exists c', ch_try_recv c = Some (x, c') /\ ch_items c' = rest /\
      ch_is_closed c' = ch_is_closed c;
}.

Definition LChannel (A : Type) : Type := list A * bool.

#[export] Instance list_channel : Unbounded LChannel := {
  ch_new A := ([], false);
  ch_send A c x := if c.2 then (c, false) else ((c.1 ++ [x], false), true);
  ch_close A c := (c.1, true);
  ch_is_closed A c := c.2;
  ch_try_recv A c := match c.1 with [] => None | x :: rest => Some (x, (rest, c.2)) end;
  ch_items A c := c.1;
}.

#[export] Instance list_channel_laws : UnboundedLaws LChannel.
Proof.
  split; intros A; simpl; try done.
  - intros [l b] x H. simpl in *. by subst.
  - intros [l b] x H. simpl in *. by subst.
  - intros [l b] H. simpl in *. by subst.
  - intros [l b] x rest H. simpl in *. subst. by eexists.
Qed.

(** ** Channels inside one task: [embassy_sync::channel::Channel<NoopRawMutex, T, N>]

    Both ends are polled by the app's one task, so a waker in the channel is the task's; every
    operation says whether it woke the task. *)

Class TaskChannel (C : Type -> Type) := {
  tc_new {A} (capacity : nat) : C A;
  tc_receive {A} (c : C A) : C A * option A * bool;
  (** the poll of a send, and [try_send]: whether the item went in *)
  tc_send {A} (c : C A) (x : A) : C A * bool * bool;
  tc_try_send {A} (c : C A) (x : A) : C A * bool * bool;
  (** ghost: the contents; a receiver's, a sender's waker is registered *)
  tc_items {A} (c : C A) : list A;
  tc_capacity {A} (c : C A) : nat;
  tc_receives {A} (c : C A) : bool;
  tc_sends {A} (c : C A) : bool;
}.

Class TaskChannelLaws (C : Type -> Type) `{TaskChannel C} := {
  tc_new_items {A} n : tc_items (tc_new (A := A) n) = [] /\ tc_capacity (tc_new (A := A) n) = n;
  tc_receive_empty {A} (c : C A) :
    tc_items c = [] ->
    exists c', tc_receive c = (c', None, false) /\ tc_items c' = [] /\ tc_capacity c' = tc_capacity c /\
      tc_receives c' = true;
  (** polled again by the task whose waker it holds, it stays as it is *)
  tc_receive_again {A} (c : C A) :
    tc_items c = [] -> tc_receives c = true -> tc_receive c = (c, None, false);
  tc_receive_first {A} (c : C A) x rest :
    tc_items c = x :: rest ->
    exists c' w, tc_receive c = (c', Some x, w) /\ tc_items c' = rest /\ tc_capacity c' = tc_capacity c /\
      (tc_sends c = true -> tc_capacity c <= length (tc_items c) -> w = true);
  tc_send_room {A} (c : C A) x :
    length (tc_items c) < tc_capacity c ->
    exists c' w, tc_send c x = (c', true, w) /\ tc_items c' = tc_items c ++ [x] /\
      tc_capacity c' = tc_capacity c /\ (tc_receives c = true -> w = true);
  tc_send_full {A} (c : C A) x :
    tc_capacity c <= length (tc_items c) ->
    exists c', tc_send c x = (c', false, false) /\ tc_items c' = tc_items c /\
      tc_capacity c' = tc_capacity c /\ tc_sends c' = true;
  tc_try_send_room {A} (c : C A) x :
    length (tc_items c) < tc_capacity c ->
    exists c' w, tc_try_send c x = (c', true, w) /\ tc_items c' = tc_items c ++ [x] /\
      tc_capacity c' = tc_capacity c /\ (tc_receives c = true -> w = true);
  tc_try_send_full {A} (c : C A) x :
    tc_capacity c <= length (tc_items c) ->
    exists c' w, tc_try_send c x = (c', false, w) /\ tc_items c' = tc_items c /\ tc_capacity c' = tc_capacity c;
}.

Record LTaskChannel (A : Type) := mk_lchan { lc_capacity : nat; lc_items : list A; lc_receives : bool; lc_sends : bool }.
Arguments mk_lchan {A}.
Arguments lc_capacity {A}.
Arguments lc_items {A}.
Arguments lc_receives {A}.
Arguments lc_sends {A}.

Definition lchan_put {A} (c : LTaskChannel A) (x : A) : LTaskChannel A * bool * bool :=
  if length (lc_items c) <? lc_capacity c
  then (mk_lchan (lc_capacity c) (lc_items c ++ [x]) false (lc_sends c), true, lc_receives c)
  else (mk_lchan (lc_capacity c) (lc_items c) (lc_receives c) true, false, false).

#[export] Instance list_task_channel : TaskChannel LTaskChannel := {
  tc_new A capacity := mk_lchan capacity [] false false;
  tc_receive A c :=
    match lc_items c with
    | [] => (mk_lchan (lc_capacity c) [] true (lc_sends c), None, false)
    | x :: rest => (mk_lchan (lc_capacity c) rest (lc_receives c) false, Some x, lc_sends c)
    end;
  tc_send A := lchan_put;
  tc_try_send A := lchan_put;
  tc_items A := lc_items;
  tc_capacity A := lc_capacity;
  tc_receives A := lc_receives;
  tc_sends A := lc_sends;
}.

Lemma lchan_put_room {A} (c : LTaskChannel A) x :
  length (lc_items c) < lc_capacity c ->
  exists c' w, lchan_put c x = (c', true, w) /\ lc_items c' = lc_items c ++ [x] /\
    lc_capacity c' = lc_capacity c /\ (lc_receives c = true -> w = true).
Proof. intros Hl. unfold lchan_put. rewrite (proj2 (Nat.ltb_lt _ _) Hl). by eexists _, _. Qed.

#[export] Instance list_task_channel_laws : TaskChannelLaws LTaskChannel.
Proof.
  split; intros A; simpl; try done.
  - intros [n l r s] H. simpl in *. subst. by eexists.
  - intros [n l r s]. simpl. by intros -> ->.
  - intros [n l r s] x rest H. simpl in *. subst. eexists _, _. by split_and!.
  - intros c x. apply lchan_put_room.
  - intros [n l r s] x H. unfold lchan_put. simpl in *. rewrite (proj2 (Nat.ltb_ge _ _) H). by eexists.
  - intros c x. apply lchan_put_room.
  - intros [n l r s] x H. unfold lchan_put. simpl in *. rewrite (proj2 (Nat.ltb_ge _ _) H). by eexists _, _.
Qed.

Section task_channel.
Context {C : Type -> Type} `{TaskChannelLaws C} {A : Type}.
Implicit Types c : C A.

(** What a poll of a receive, of a send and a [try_send] did. *)
Lemma tc_receive_cases c c' o w :
  tc_receive c = (c', o, w) ->
  tc_capacity c' = tc_capacity c /\
  match o with
  | Some x => tc_items c = x :: tc_items c' /\ (tc_sends c = true -> tc_capacity c <= length (tc_items c) -> w = true)
  | None => tc_items c = [] /\ tc_items c' = [] /\ tc_receives c' = true /\ w = false
  end.
Proof.
  intros Hr. destruct (tc_items c) as [|x rest] eqn:E.
  - destruct (tc_receive_empty c E) as (c1 & Hc & ? & ? & ?). rewrite Hr in Hc. injection Hc as <- -> ->. by split_and!.
  - destruct (tc_receive_first c x rest E) as (c1 & w1 & Hc & <- & ? & Hw). rewrite Hr in Hc. injection Hc as <- -> ->.
    rewrite E in Hw. by split_and!.
Qed.

Lemma tc_send_cases c x c' b w :
  tc_send c x = (c', b, w) ->
  tc_capacity c' = tc_capacity c /\
  if b then tc_items c' = tc_items c ++ [x] /\ length (tc_items c) < tc_capacity c
  else tc_items c' = tc_items c /\ tc_capacity c <= length (tc_items c) /\ tc_sends c' = true /\ w = false.
Proof.
  intros Hs. destruct (decide (length (tc_items c) < tc_capacity c)) as [Hl|Hl].
  - destruct (tc_send_room c x Hl) as (c1 & w1 & Hc & ? & ? & _). rewrite Hs in Hc. by injection Hc as <- -> ->.
  - destruct (tc_send_full c x ltac:(lia)) as (c1 & Hc & ? & ? & ?). rewrite Hs in Hc. injection Hc as <- -> ->.
    split_and!; try done. lia.
Qed.
End task_channel.
