(* ===== verification/Log.v ===== *)
(** * The publish log of a retaining broker ([crates/memory/src/log.rs])

    One window per name: the entries kept, the absolute position of the oldest one and the bytes
    they hold.  The theorems relate the window to the whole history of the name, which the code
    does not keep: positions are absolute and stable, and eviction is exactly what the retention
    asks for. *)
From Stdlib Require Import Ascii String.
From S2P Require Import Prelude RustStd.

Module Log.

(** [Retention]; the bounds are [NonZeroUsize]. *)
Inductive Retention :=
  | Messages (limit : nat)
  | Bytes (limit : nat)
  | MessagesAndBytes (messages bytes : nat).

Definition admits (r : Retention) (messages bytes : nat) : bool :=
  match r with
  | Messages limit => messages <=? limit
  | Bytes limit => bytes <=? limit
  | MessagesAndBytes message_limit byte_limit => (messages <=? message_limit) && (bytes <=? byte_limit)
  end.

(** The log mode of a broker type, and what it answers at compile time. *)
Inductive LogMode := Discarding | Retaining.
Definition retains (m : LogMode) : bool := match m with Discarding => false | Retaining => true end.

(** [Unbounded] is the harness's budget. *)
Inductive Budget := Bounded (r : Retention) | Unbounded.

Section log.
Context {Header : Type}.

(** [DeliveryInner]: what a publish shares with every subscription and the log. *)
Record DeliveryInner := mk_inner { name : string; payload : bytes; headers : Header }.

Record NameLog := mk_log { entries : list DeliveryInner; first_seq : nat; log_bytes : nat }.
Definition empty_log : NameLog := mk_log [] 0 0.

Inductive LogState :=
  | LogDiscarding
  | Recording (budget : Budget) (names : gmap string NameLog).

Definition recording (r : Retention) : LogState := Recording (Bounded r) ∅.

Definition record_for_harness (s : LogState) : LogState * bool :=
  match s with
  | Recording _ _ => (s, false)
  | LogDiscarding => (Recording Unbounded ∅, true)
  end.

Definition next_seq (l : NameLog) : nat := first_seq l + length (entries l).

(** [replay_from]: the entries at and after [seq], with their positions. *)
Definition replay_from (l : NameLog) (seq : nat) : list (nat * DeliveryInner) :=
  let skip := seq - first_seq l in
  (fun e => (first_seq l + e.1, e.2)) <$> drop skip (enumerate (entries l)).

(** The eviction loop of [push]; its fuel is the number of entries. *)
Fixpoint evict (fuel : nat) (r : Retention) (l : NameLog) : NameLog :=
  match fuel with
  | 0 => l
  | S fuel =>
      if (1 <? length (entries l)) && negb (admits r (length (entries l)) (log_bytes l)) then
        match entries l with
        | evicted :: rest =>
            evict fuel r (mk_log rest (first_seq l + 1) (log_bytes l - length (payload evicted)))
        | [] => l
        end
      else l
  end.

Definition push (l : NameLog) (entry : DeliveryInner) (b : Budget) : NameLog * nat :=
  let seq := next_seq l in
  let l := mk_log (entries l ++ [entry]) (first_seq l) (log_bytes l + length (payload entry)) in
  match b with
  | Bounded r => (evict (length (entries l)) r l, seq)
  | Unbounded => (l, seq)
  end.

Definition append (s : LogState) (shared : DeliveryInner) : LogState * nat :=
  match s with
  | LogDiscarding => (s, 0)
  | Recording b names =>
      let (l, seq) := push (default empty_log (names !! name shared)) shared b in
      (Recording b (<[name shared := l]> names), seq)
  end.

Definition log_of (s : LogState) (n : string) : option NameLog :=
  match s with
  | LogDiscarding => None
  | Recording _ names => names !! n
  end.

Definition forget (s : LogState) (n : string) : LogState :=
  match s with
  | LogDiscarding => s
  | Recording b names => Recording b (delete n names)
  end.

(** ** The window against the history *)

Definition total_bytes (l : list DeliveryInner) : nat := sum_list ((fun e => length (payload e)) <$> l).

(** [history] is every entry ever appended under the name. *)
Record log_wf (history : list DeliveryInner) (l : NameLog) : Prop := {
  wf_entries : entries l = drop (first_seq l) history;
  wf_next : next_seq l = length history;
  wf_bytes : log_bytes l = total_bytes (entries l);
}.

(** What the budget asks of a window. *)
Definition within (b : Budget) (l : NameLog) : Prop :=
  match b with
  | Unbounded => True
  | Bounded r => length (entries l) <= 1 \/ admits r (length (entries l)) (log_bytes l) = true
  end.

Lemma empty_wf : log_wf [] empty_log.
Proof. by split. Qed.

Lemma evict_spec fuel r history l :
  log_wf history l -> length (entries l) <= fuel ->
  log_wf history (evict fuel r l) /\ within (Bounded r) (evict fuel r l) /\
  first_seq l <= first_seq (evict fuel r l) /\
  (entries l <> [] -> entries (evict fuel r l) <> []) /\
  (forall f, first_seq l <= f -> f < first_seq (evict fuel r l) ->
     1 < length (drop f history) /\
     admits r (length (drop f history)) (total_bytes (drop f history)) = false).
Proof.
  revert l. induction fuel as [|fuel IH]; intros l Hwf Hf; simpl.
  { split_and!; [done|left; lia|done|done|intros; exfalso; lia]. }
  destruct (Nat.ltb_spec 1 (length (entries l))) as [Hlen|Hlen]; simpl; cycle 1.
  { split_and!; [done|by left|done|done|intros; exfalso; lia]. }
  destruct (admits r (length (entries l)) (log_bytes l)) eqn:Ha; simpl.
  { split_and!; [done|by right|done|done|intros; exfalso; lia]. }
  destruct Hwf as [He Hn Hb]. destruct (entries l) as [|e rest] eqn:Hl; [simpl in Hlen; lia|].
  assert (Hrest : drop (first_seq l + 1) history = rest).
  { rewrite <- drop_drop, <- He. done. }
  destruct (IH (mk_log rest (first_seq l + 1) (log_bytes l - length (payload e))))
    as (Hwf' & Hw & Hle & Hne & Hmin).
  - split; simpl; [done| |].
    + unfold next_seq in *. rewrite Hl in Hn. simpl in *. lia.
    + rewrite Hb. unfold total_bytes. cbn. unfold id. lia.
  - simpl in *. lia.
  - simpl in *. split_and!; [done|done|lia| |].
    + intros _. apply Hne. intros ->. simpl in Hlen. lia.
    + intros f Hf1 Hf2. destruct (decide (f = first_seq l)) as [->|]; [|apply Hmin; lia].
      rewrite <- He. split; [done|]. by rewrite <- Hb.
Qed.

Lemma push_spec history l entry b :
  log_wf history l ->
  let (l', seq) := push l entry b in
  log_wf (history ++ [entry]) l' /\ within b l' /\ seq = length history /\
  first_seq l <= first_seq l' /\ last (entries l') = Some entry /\
  match b with
  | Unbounded => first_seq l' = first_seq l
  | Bounded r => forall f, first_seq l <= f -> f < first_seq l' ->
      1 < length (drop f (history ++ [entry])) /\
      admits r (length (drop f (history ++ [entry]))) (total_bytes (drop f (history ++ [entry]))) = false
  end.
Proof.
  intros [He Hn Hb]. unfold push. unfold next_seq in Hn.
  set (l1 := mk_log (entries l ++ [entry]) (first_seq l) (log_bytes l + length (payload entry))).
  assert (Hle : first_seq l <= length history) by lia.
  assert (Hwf : log_wf (history ++ [entry]) l1).
  { split; simpl.
    - rewrite drop_app_le by done. by rewrite He.
    - unfold next_seq. simpl. rewrite !length_app. simpl. lia.
    - rewrite Hb. unfold total_bytes. rewrite fmap_app, sum_list_with_app. simpl. lia. }
  assert (Hlast : forall l', log_wf (history ++ [entry]) l' -> entries l' <> [] -> last (entries l') = Some entry).
  { intros l' [He' _ _] Hne. rewrite He' in *.
    destruct (decide (first_seq l' <= length history)) as [Hf|Hf].
    - rewrite drop_app_le by done. by rewrite last_snoc.
    - rewrite drop_ge in Hne by (rewrite length_app; simpl; lia). done. }
  destruct b as [r|].
  - destruct (evict_spec (length (entries l1)) r _ l1 Hwf) as (Hw' & Hin & Hmono & Hne & Hmin); [done|].
    split_and!; [done|done|done|done| |done].
    apply Hlast; [done|]. apply Hne. simpl. by destruct (entries l).
  - split_and!; [done|done|done|done| |done]. apply Hlast; [done|]. simpl. by destruct (entries l).
Qed.

Lemma replay_from_spec history l seq :
  log_wf history l -> first_seq l <= seq ->
  replay_from l seq = (fun e => (seq + e.1, e.2)) <$> enumerate (drop seq history).
Proof.
  intros [He _ _] Hle. apply list_eq. intros i. unfold replay_from.
  rewrite !list_lookup_fmap, lookup_drop. unfold enumerate. rewrite !list_lookup_imap, lookup_drop, He, lookup_drop.
  replace (first_seq l + (seq - first_seq l + i)) with (seq + i) by lia.
  destruct (history !! (seq + i)); simpl; [|done]. do 2 f_equal. lia.
Qed.

(** The logs of every name, against their histories. *)
Definition state_wf (histories : string -> list DeliveryInner) (s : LogState) : Prop :=
  match s with
  | LogDiscarding => True
  | Recording b names => forall n,
      log_wf (histories n) (default empty_log (names !! n)) /\ within b (default empty_log (names !! n))
  end.

(** ** Properties *)

(** Every publish to a retaining broker gets the next absolute position of its name, whatever
    was evicted before; the newest message is always kept; what stays is the retained suffix of
    the history within the bound (a lone message may exceed it), and nothing was evicted that the
    bound still admitted; and the other names' logs are untouched. *)
Theorem log_append_correct histories b names shared :
  state_wf histories (Recording b names) ->
  let (s, seq) := append (Recording b names) shared in
  let histories' n := if String.eqb n (name shared) then histories n ++ [shared] else histories n in
  seq = length (histories (name shared)) /\
  state_wf histories' s /\
  (exists l, log_of s (name shared) = Some l /\ last (entries l) = Some shared /\
     first_seq (default empty_log (names !! name shared)) <= first_seq l /\
     match b with
     | Unbounded => first_seq l = first_seq (default empty_log (names !! name shared))
     | Bounded r => forall f, first_seq (default empty_log (names !! name shared)) <= f ->
         f < first_seq l ->
         admits r (length (drop f (histories' (name shared))))
           (total_bytes (drop f (histories' (name shared)))) = false
     end) /\
  (forall n, n <> name shared -> log_of s n = names !! n).
Proof.
  intros Hwf. destruct (Hwf (name shared)) as [Hl _].
  pose proof (push_spec _ _ shared b Hl) as Hp. simpl.
  destruct (push _ _ _) as [l seq]. destruct Hp as (Hl' & Hw & Hseq & Hmono & Hlast & Hmin).
  simpl. split_and!; [done| | |].
  - intros n. destruct (String.eqb_spec n (name shared)) as [->|Hne].
    + by rewrite lookup_insert_eq.
    + rewrite lookup_insert_ne by done. apply Hwf.
  - exists l. rewrite lookup_insert_eq. split_and!; [done..|]. rewrite String.eqb_refl.
    destruct b; [|done]. intros f H1 H2. by apply Hmin.
  - intros n Hne. by rewrite lookup_insert_ne.
Qed.

(** A replay from a position that is still retained yields exactly the history from that
    position on, each entry with its absolute position. *)
Theorem log_replay_correct history l seq :
  log_wf history l -> first_seq l <= seq ->
  replay_from l seq = (fun e => (seq + e.1, e.2)) <$> enumerate (drop seq history).
Proof. apply replay_from_spec. Qed.
End log.

Definition entry (s : string) : @DeliveryInner unit := mk_inner "orders" (as_bytes s) tt.
Definition recorded : list (@DeliveryInner unit) := [entry "aaa"; entry "bb"; entry "c"].

Lemma log_append_correct_witness :
  fst (append (recording (Header := unit) (Bytes 4)) (entry "aaa")) <> LogDiscarding /\
  snd (append (recording (Header := unit) (Bytes 4)) (entry "aaa")) = 0.
Proof.
  assert (Hwf : state_wf (fun _ => []) (recording (Header := unit) (Bytes 4))).
  { intros n. rewrite lookup_empty. split; [apply empty_wf|left; simpl; lia]. }
  pose proof (log_append_correct (fun _ => []) (Bounded (Bytes 4)) ∅ (entry "aaa") Hwf) as H.
  unfold recording. destruct (append _ _) as [s seq]. destruct H as (Hseq & _ & (l & Hl & _) & _).
  split; [|done]. intros E. simpl in E. subst s. discriminate.
Defined.

Lemma log_replay_correct_witness :
  replay_from (mk_log [entry "bb"; entry "c"] 1 3) 2 = [(2, entry "c")].
Proof.
  assert (Hwf : log_wf recorded (mk_log [entry "bb"; entry "c"] 1 3)) by (by split).
  exact (log_replay_correct recorded _ 2 Hwf ltac:(simpl; lia)).
Defined.

End Log.
