(* ===== verification/Memory.v ===== *)
(** * The in-memory broker ([crates/memory/src/lib.rs], [broker.rs])

    The bus (live registry or shut down), the publish log, the channels its subscriptions read and
    the operations on them.  Channels live in a store, so that a sender registered under a name, the
    subscription's own requeue sender and its receiver are one shared object.  Every operation runs
    under the bus lock, so each is a function on the state.  The production build is modelled (the
    [testing] feature off); positions and counts of items are [nat]. *)
From Stdlib Require Import Ascii String.
From S2P Require Import Prelude RustStd Pattern Headers Queue Log.

Module Memory.

Inductive MemoryError :=
  | TransactionBusy
  | NoTransaction
  | ShutDown
  | PositionEvicted (requested oldest : nat)
  | InvalidPattern (pattern : string) (reason : PatternError)
  | WildcardName (name : string).
#[export] Instance MemoryError_eq_dec : EqDecision MemoryError.
Proof. solve_decision. Defined.

Abbreviation HeaderMap := HeaderMap.HeaderMap.
Abbreviation DeliveryInner := (@Log.DeliveryInner HeaderMap).

(** One delivery: the shared block, its log position, and how often it was delivered. *)
Record MemoryDelivery := mk_delivery { shared : DeliveryInner; seq : nat; deliveries : N }.

Definition redelivered (d : MemoryDelivery) : MemoryDelivery :=
  mk_delivery (shared d) (seq d) (saturating_add u64_max (deliveries d) 1).

(** [MemoryOutbound], and the message a refused publish hands back. *)
Record MemoryOutbound := mk_outbound { out_name : string; out_payload : bytes; out_headers : HeaderMap }.
Record Unsent := mk_unsent { error : MemoryError; unsent_payload : bytes; unsent_headers : HeaderMap }.

Definition returned_as {E} (u : Unsent) (name : string) (map : MemoryError -> E) : E * MemoryOutbound :=
  (map (error u), mk_outbound name (unsent_payload u) (unsent_headers u)).
Definition returned (u : Unsent) (name : string) : MemoryError * MemoryOutbound :=
  returned_as u name (fun e => e).

Section memory.
Context {C : Type -> Type} `{Unbounded C} `{!UnboundedLaws C}.

Abbreviation Channel := (C MemoryDelivery).

(** A sender is the identity of its channel. *)
Record Registry := mk_registry {
  names : gmap string (list nat);
  patterns : list (PatternGroup nat);
  registry_routing : Routing;
}.

Inductive Bus :=
  | Live (r : Registry)
  | Down (kept : Routing).

Definition new_registry (routing : Routing) : Registry := mk_registry ∅ [] routing.
Definition default_bus : Bus := Live (new_registry EveryMatch).

Definition registry_len (r : Registry) : nat :=
  sum_list (length <$> (map_to_list (names r)).*2) +
  sum_list ((fun g => length (senders g)) <$> patterns r).

Record MemoryState := mk_state {
  bus : Bus;
  log : @Log.LogState HeaderMap;
  recording : bool;
  notified : nat;
  inbox_seq : N;
  channels : list Channel;
}.

Definition with_log (l : Log.LogState) (rec : bool) : MemoryState := mk_state default_bus l rec 0 0 [].
Definition discarding : MemoryState := with_log Log.LogDiscarding false.
Definition retaining (r : Log.Retention) : MemoryState := with_log (Log.recording r) true.

Definition set_bus (s : MemoryState) (b : Bus) : MemoryState :=
  mk_state b (log s) (recording s) (notified s) (inbox_seq s) (channels s).
Definition set_log (s : MemoryState) (l : Log.LogState) : MemoryState :=
  mk_state (bus s) l (recording s) (notified s) (inbox_seq s) (channels s).
Definition set_channels (s : MemoryState) (cs : list Channel) : MemoryState :=
  mk_state (bus s) (log s) (recording s) (notified s) (inbox_seq s) cs.

(** [mpsc::unbounded_channel()]. *)
Definition unbounded_channel (s : MemoryState) : MemoryState * nat :=
  (set_channels s (channels s ++ [ch_new]), length (channels s)).

Definition register (s : MemoryState) (name : string) (tx : nat) : MemoryState * result unit MemoryError :=
  match bus s with
  | Live r =>
      (set_bus s (Live (mk_registry (<[name := default [] (names r !! name) ++ [tx]]> (names r))
                          (patterns r) (registry_routing r))), Ok tt)
  | Down _ => (s, Err ShutDown)
  end.

(** The group of the text takes the sender, or a new group is pushed. *)
Fixpoint join_group (groups : list (PatternGroup nat)) (t : string) (p : Pattern) (tx : nat)
  : list (PatternGroup nat) :=
  match groups with
  | [] => [mk_group t p [tx]]
  | g :: rest =>
      if String.eqb (text g) t then mk_group (text g) (pattern g) (senders g ++ [tx]) :: rest
      else g :: join_group rest t p tx
  end.

Definition register_pattern (s : MemoryState) (t : string) (p : Pattern) (tx : nat)
  : MemoryState * result unit MemoryError :=
  match bus s with
  | Live r => (set_bus s (Live (mk_registry (names r) (join_group (patterns r) t p tx)
                                  (registry_routing r))), Ok tt)
  | Down _ => (s, Err ShutDown)
  end.

Definition set_routing (s : MemoryState) (routing : Routing) : MemoryState :=
  set_bus s (match bus s with
             | Live r => Live (mk_registry (names r) (patterns r) routing)
             | Down _ => Down routing
             end).

Definition routing (s : MemoryState) : Routing :=
  match bus s with Live r => registry_routing r | Down routing => routing end.

Definition unregister (s : MemoryState) (name : string) : MemoryState :=
  let s := match bus s with
           | Live r => set_bus s (Live (mk_registry (delete name (names r)) (patterns r) (registry_routing r)))
           | Down _ => s
           end in
  if recording s then set_log s (Log.forget (log s) name) else s.

(** [send_to]: a closed channel's refusal is ignored. *)
Fixpoint send_to (cs : list Channel) (senders : list nat) (d : MemoryDelivery) : list Channel :=
  match senders with
  | [] => cs
  | tx :: rest =>
      send_to (match cs !! tx with Some c => <[tx := fst (ch_send c d)]> cs | None => cs end) rest d
  end.

Definition send_to_pattern (cs : list Channel) (senders : list nat) (d : MemoryDelivery) : list Channel :=
  send_to cs senders d.

Definition is_closed (cs : list Channel) (tx : nat) : bool :=
  match cs !! tx with Some c => ch_is_closed c | None => true end.

(** The log append of a fanout: a discarding broker takes no position. *)
Definition append_log (s : MemoryState) (shared : DeliveryInner) : MemoryState * nat :=
  if recording s then let (l, seq) := Log.append (log s) shared in (set_log s l, seq) else (s, 0).

(** The senders of the groups a publish reaches, in the order of the sends. *)
Definition reached_senders (groups : list (PatternGroup nat)) (name : string) (r : PatternReach) : list nat :=
  match r with
  | Nobody => []
  | EveryFrom first =>
      List.concat (senders <$> List.filter (fun g => matches (pattern g) name) (drop first groups))
  | Only index => match groups !! index with Some g => senders g | None => [] end
  end.

Definition fanout_with_patterns (s : MemoryState) (r : Registry) (name : string) (body : bytes)
  (hs : HeaderMap) : MemoryState :=
  let registered := names r !! name in
  let exact_live := match registered with
                    | Some senders => existsb (fun tx => negb (is_closed (channels s) tx)) senders
                    | None => false
                    end in
  let reach := reach (is_closed (channels s)) (registry_routing r) (patterns r) name exact_live in
  let wanted := match registered, reach with
                | Some _, _ => true
                | None, Nobody => recording s
                | None, _ => true
                end in
  if wanted then
    let shared := Log.mk_inner name body hs in
    let (s, seq) := append_log s shared in
    let d := mk_delivery shared seq 1 in
    let cs := send_to (channels s) (default [] registered) d in
    let cs := send_to_pattern cs (reached_senders (patterns r) name reach) d in
    set_channels s cs
  else s.

Definition fanout_unsent (s : MemoryState) (name : string) (body : bytes) (hs : HeaderMap)
  : MemoryState * result unit Unsent :=
  match bus s with
  | Down _ => (s, Err (mk_unsent ShutDown body hs))
  | Live r =>
      let s :=
        match patterns r with
        | [] =>
            let registered := names r !! name in
            if bool_decide (is_Some registered) || recording s then
              let shared := Log.mk_inner name body hs in
              let (s, seq) := append_log s shared in
              set_channels s (send_to (channels s) (default [] registered) (mk_delivery shared seq 1))
            else s
        | _ => fanout_with_patterns s r name body hs
        end in
      (mk_state (bus s) (log s) (recording s) (S (notified s)) (inbox_seq s) (channels s), Ok tt)
  end.

Definition fanout (s : MemoryState) (name : string) (body : bytes) (hs : HeaderMap)
  : MemoryState * result unit MemoryError :=
  let (s, r) := fanout_unsent s name body hs in (s, map_err error r).

(** ** [MemoryBroker] and [ConnectedMemoryBroker] *)

Definition connect (s : MemoryState) : MemoryState :=
  match bus s with
  | Down routing => set_bus s (Live (new_registry routing))
  | Live _ => s
  end.

(** [shutdown]: the number of subscriptions dropped. *)
Definition shutdown (s : MemoryState) : MemoryState * nat :=
  let kept := routing s in
  (set_bus s (Down kept), match bus s with Live r => registry_len r | Down _ => 0 end).

(** The inherent [subscribe]: infallible, a wildcard name or a dead bus leaves the subscription
    reading nothing.  The result is the subscription's channel. *)
Definition broker_subscribe (s : MemoryState) (name : string) : MemoryState * nat :=
  let (s, tx) := unbounded_channel s in
  if has_wildcard name then
    (set_channels s (alter ch_close tx (channels s)), tx)
  else (fst (register s name tx), tx).

(** [ConnectedMemoryBroker::subscribe]. *)
Definition subscribe (s : MemoryState) (name : string) : MemoryState * result nat MemoryError :=
  if has_wildcard name then (s, Err (WildcardName name))
  else
    let (s, tx) := unbounded_channel s in
    match register s name tx with
    | (s, Err e) => (s, Err e)
    | (s, Ok _) => (s, Ok tx)
    end.

(** [MemoryPattern::subscribe]. *)
Definition subscribe_pattern (s : MemoryState) (t : string) : MemoryState * result nat MemoryError :=
  match parse t with
  | Ok p =>
      let (s, tx) := unbounded_channel s in
      match register_pattern s t p tx with
      | (s, Ok _) => (s, Ok tx)
      | (s, Err e) => (s, Err e)
      end
  | Err reason => (s, Err (InvalidPattern t reason))
  end.

(** [MemoryPattern::redelivery_address]. *)
Definition redelivery_address (t : string) : string := t.

(** [MemoryPublisher] and its transaction buffer. *)
Definition Publisher : Type := option (list MemoryOutbound).
Definition publisher : Publisher := None.
Definition clone_publisher (_ : Publisher) : Publisher := None.

Definition publish (s : MemoryState) (p : Publisher) (m : MemoryOutbound)
  : MemoryState * Publisher * result unit (MemoryError * MemoryOutbound) :=
  match p with
  | Some buffered => (s, Some (buffered ++ [m]), Ok tt)
  | None =>
      let (s, r) := fanout_unsent s (out_name m) (out_payload m) (out_headers m) in
      (s, p, map_err (fun u => returned u (out_name m)) r)
  end.

(** *** [TransactionalPublisher] *)

Definition begin_transaction (p : Publisher) : Publisher * result unit MemoryError :=
  match p with
  | Some _ => (p, Err TransactionBusy)
  | None => (Some [], Ok tt)
  end.

(** The flush of a commit: one fanout per message, in order, until one is refused. *)
Fixpoint flush (s : MemoryState) (buffered : list MemoryOutbound) : MemoryState * result unit MemoryError :=
  match buffered with
  | [] => (s, Ok tt)
  | m :: rest =>
      match fanout s (out_name m) (out_payload m) (out_headers m) with
      | (s, Err e) => (s, Err e)
      | (s, Ok _) => flush s rest
      end
  end.

Definition commit (s : MemoryState) (p : Publisher) : MemoryState * Publisher * result unit MemoryError :=
  match p with
  | None => (s, None, Err NoTransaction)
  | Some buffered => let (s, r) := flush s buffered in (s, None, r)
  end.

Definition abort (p : Publisher) : Publisher * result unit MemoryError :=
  match p with
  | Some _ => (None, Ok tt)
  | None => (None, Err NoTransaction)
  end.

(** *** [MemoryTransaction], an owned transaction *)

Record Transaction := mk_txn { buffered : list MemoryOutbound; settled : bool }.
Definition transaction : Transaction := mk_txn [] false.
Definition txn_publish (t : Transaction) (m : MemoryOutbound) : Transaction :=
  mk_txn (buffered t ++ [m]) (settled t).
Definition txn_commit (s : MemoryState) (t : Transaction)
  : MemoryState * Transaction * result unit MemoryError :=
  let (s, r) := flush s (buffered t) in (s, mk_txn [] true, r).
Definition txn_abort (t : Transaction) : Transaction := mk_txn (buffered t) true.
(** The drop warns about a transaction nobody settled; either way the buffer is gone. *)
Definition txn_drop_warns (t : Transaction) : bool := negb (settled t).

(** *** Request / reply *)

Inductive RequestError :=
  | Timeout (subject : string) (wait : N)
  | RequestShutDown.

Definition inbox_name (id : N) : string := String.append "_inbox." (u64_to_string id).

(** [MemoryRequester::request] up to its wait: the inbox's name and channel. *)
Definition request_start (s : MemoryState) (m : MemoryOutbound)
  : MemoryState * result (string * nat) RequestError :=
  let id := inbox_seq s in
  let s := mk_state (bus s) (log s) (recording s) (notified s) (wrapping_add u64_max id 1) (channels s) in
  let inbox := inbox_name id in
  let (s, tx) := unbounded_channel s in
  match register s inbox tx with
  | (s, Err _) => (s, Err RequestShutDown)
  | (s, Ok _) =>
      let hs := fst (HeaderMap.insert_header (out_headers m) "reply-to" (as_bytes inbox)) in
      match fanout s (out_name m) (out_payload m) hs with
      | (s, Err _) => (unregister s inbox, Err RequestShutDown)
      | (s, Ok _) => (s, Ok (inbox, tx))
      end
  end.

(** The end of the wait: the first reply in the inbox, or the timeout. *)
Definition request_finish (s : MemoryState) (inbox : string) (tx : nat) (subject : string) (wait : N)
  : MemoryState * result MemoryDelivery RequestError :=
  let received := match channels s !! tx with Some c => ch_try_recv c | None => None end in
  match received with
  | Some (d, c) => (unregister (set_channels s (<[tx := c]> (channels s))) inbox, Ok d)
  | None => (unregister s inbox, Err (Timeout subject wait))
  end.

Definition requester_publish (s : MemoryState) (m : MemoryOutbound)
  : MemoryState * result unit (RequestError * MemoryOutbound) :=
  let (s, r) := fanout_unsent s (out_name m) (out_payload m) (out_headers m) in
  (s, map_err (fun u => returned_as u (out_name m) (fun _ => RequestShutDown)) r).

(** ** Invariant *)

Definition values (m : gmap string (list nat)) : list nat := List.concat (map_to_list m).*2.

Definition all_senders (r : Registry) : list nat :=
  values (names r) ++ List.concat (senders <$> patterns r).

(** The registry of a reachable bus: every sender is a channel of the store registered once, and
    the pattern groups hold what was parsed from distinct texts. *)
Record registry_wf (s : MemoryState) (r : Registry) : Prop := {
  reg_known : forall tx, tx ∈ all_senders r -> tx < length (channels s);
  reg_once : NoDup (all_senders r);
  reg_groups : groups_wf (patterns r);
}.

(** ** Sending *)

Definition received (d : MemoryDelivery) (c c' : Channel) : Prop :=
  ch_items c' = ch_items c ++ [d] /\ ch_is_closed c' = false.

Lemma send_to_length cs l d : length (send_to cs l d) = length cs.
Proof.
  revert cs. induction l as [|tx l IH]; intros cs; simpl; [done|]. rewrite IH.
  destruct (cs !! tx); [by rewrite length_insert|done].
Qed.

Lemma send_to_spec cs l d tx c :
  NoDup l -> cs !! tx = Some c ->
  exists c', send_to cs l d !! tx = Some c' /\
    if bool_decide (tx ∈ l) && negb (ch_is_closed c) then received d c c' else c' = c.
Proof.
  intros Hn. revert cs c. induction l as [|t l IH]; intros cs c Hc; cbn [send_to].
  { rewrite bool_decide_false by set_solver. by exists c. }
  apply NoDup_cons in Hn as [Hnin Hn]. specialize (IH Hn).
  set (cs1 := match cs !! t with Some c => <[t := fst (ch_send c d)]> cs | None => cs end).
  destruct (decide (tx = t)) as [->|Hne].
  - assert (H1 : cs1 !! t = Some (fst (ch_send c d))).
    { unfold cs1. rewrite Hc. apply list_lookup_insert_eq. by eapply lookup_lt_Some. }
    destruct (IH cs1 _ H1) as (c' & Hc' & Hr). rewrite bool_decide_false in Hr by done.
    simpl in Hr. subst c'. exists (fst (ch_send c d)). split; [done|].
    rewrite bool_decide_true by left. destruct (ch_is_closed c) eqn:Hcl; simpl.
    + by rewrite ch_send_closed.
    + destruct (ch_send_open c d Hcl) as (_ & ? & ?). by split.
  - assert (H1 : cs1 !! tx = Some c).
    { unfold cs1. destruct (cs !! t); [by rewrite list_lookup_insert_ne|done]. }
    destruct (IH cs1 c H1) as (c' & Hc' & Hr). exists c'. split; [done|].
    rewrite (bool_decide_ext (tx ∈ t :: l) (tx ∈ l)); [done|]. rewrite elem_of_cons. naive_solver.
Qed.

Lemma send_to_app cs l k d : send_to cs (l ++ k) d = send_to (send_to cs l d) k d.
Proof. revert cs. induction l as [|t l IH]; intros cs; simpl; [done|]. apply IH. Qed.

(** ** What a publish reaches *)

Definition exact_senders (r : Registry) (name : string) : list nat := default [] (names r !! name).
Definition exact_live (s : MemoryState) (r : Registry) (name : string) : bool :=
  existsb (fun tx => negb (is_closed (channels s) tx)) (exact_senders r name).
Definition targets (s : MemoryState) (r : Registry) (name : string) : list nat :=
  exact_senders r name ++
  reached_senders (patterns r) name
    (reach (is_closed (channels s)) (registry_routing r) (patterns r) name (exact_live s r name)).

Lemma append_log_channels (s : MemoryState) x :
  channels (fst (append_log s x)) = channels s /\ bus (fst (append_log s x)) = bus s /\
  recording (fst (append_log s x)) = recording s /\ notified (fst (append_log s x)) = notified s /\
  inbox_seq (fst (append_log s x)) = inbox_seq s.
Proof. unfold append_log. destruct (recording s) eqn:E; [|done]. by destruct (Log.append (log s) x). Qed.

Lemma reach_no_patterns {S} (closed : S -> bool) r name exact : reach closed r [] name exact = Nobody.
Proof. destruct r; simpl; [done|]. by destruct exact. Qed.

(** One publish on a live bus: the log append, the sends, the notification. *)
Definition published (s : MemoryState) (r : Registry) (shared : DeliveryInner) : MemoryState :=
  let (s1, seq) := append_log s shared in
  mk_state (bus s) (log s1) (recording s) (S (notified s)) (inbox_seq s)
    (send_to (channels s) (targets s r (Log.name shared)) (mk_delivery shared seq 1)).

Lemma published_nobody s r shared :
  recording s = false -> targets s r (Log.name shared) = [] ->
  published s r shared =
  mk_state (bus s) (log s) (recording s) (S (notified s)) (inbox_seq s) (channels s).
Proof. intros Hr Ht. unfold published, append_log. by rewrite Hr, Ht. Qed.

Lemma logged_sent (s : MemoryState) r shared cs seq s1 :
  append_log s shared = (s1, seq) ->
  cs = send_to (channels s) (targets s r (Log.name shared)) (mk_delivery shared seq 1) ->
  let s2 := set_channels s1 cs in
  mk_state (bus s2) (log s2) (recording s2) (S (notified s2)) (inbox_seq s2) (channels s2) =
  published s r shared.
Proof.
  intros Ha ->. pose proof (append_log_channels s shared) as Hc. unfold published. rewrite Ha in *.
  destruct Hc as (? & Hbus & Hrec & Hnot & Hin). simpl in *. by rewrite Hbus, Hrec, Hnot, Hin.
Qed.

(** Both paths of [fanout_unsent] are that one publish. *)
Lemma fanout_live (s : MemoryState) r name body hs :
  bus s = Live r -> fanout_unsent s name body hs = (published s r (Log.mk_inner name body hs), Ok tt).
Proof.
  intros Hb. unfold fanout_unsent. rewrite Hb. f_equal. set (shared := Log.mk_inner name body hs).
  destruct (append_log s shared) as [s1 seq] eqn:Ha.
  pose proof (append_log_channels s shared) as Hcs. rewrite Ha in Hcs. simpl in Hcs.
  destruct Hcs as (Hc & _).
  destruct (patterns r) as [|g0 gs] eqn:Hp.
  - assert (Ht : targets s r name = exact_senders r name).
    { unfold targets. rewrite Hp, reach_no_patterns. apply app_nil_r. }
    destruct (bool_decide (is_Some (names r !! name)) || recording s) eqn:Hw.
    + apply (logged_sent s r shared _ seq s1 Ha). simpl. by rewrite Hc, Ht.
    + apply orb_false_iff in Hw as [Hn Hr]. apply bool_decide_eq_false, eq_None_not_Some in Hn.
      rewrite published_nobody; [done|done|]. simpl. rewrite Ht. unfold exact_senders. by rewrite Hn.
  - unfold fanout_with_patterns. cbv zeta. fold shared. rewrite Hp.
    assert (Hex : match names r !! name with
      | Some senders => existsb (fun tx => negb (is_closed (channels s) tx)) senders
      | None => false
      end = exact_live s r name) by (unfold exact_live, exact_senders; by destruct (names r !! name)).
    rewrite Hex, <- Hp. set (rc := reach _ _ _ _ _).
    assert (Ht : targets s r name = exact_senders r name ++ reached_senders (patterns r) name rc) by done.
    clearbody rc. clear Hex.
    destruct (match names r !! name with Some _ => _ | None => _ end) eqn:Hw.
    + rewrite Ha. apply (logged_sent s r shared _ seq s1 Ha). simpl. unfold send_to_pattern.
      by rewrite Hc, Ht, send_to_app.
    + rewrite published_nobody; [done| |]; simpl; rewrite ?Ht; unfold exact_senders;
        destruct (names r !! name), rc; done.
Qed.

Lemma reach_every {S} (closed : S -> bool) groups name exact (g : PatternGroup S) :
  g ∈ groups -> matches (pattern g) name = true ->
  exists first, reach closed EveryMatch groups name exact = EveryFrom first /\
    g ∈ List.filter (fun g => matches (pattern g) name) (drop first groups).
Proof.
  intros Hg Hm. simpl. destruct (position _ groups) as [first|] eqn:Hp; cycle 1.
  { eapply position_None in Hp; [|done]. congruence. }
  exists first. split; [done|]. apply elem_of_filterb. split; [done|].
  apply position_Some in Hp as (x & _ & _ & Hfirst). apply list_elem_of_lookup in Hg as (j & Hj).
  destruct (decide (j < first)) as [Hlt|Hge]; [specialize (Hfirst j g Hlt Hj); congruence|].
  apply list_elem_of_lookup. exists (j - first). rewrite lookup_drop. by replace (first + (j - first)) with j by lia.
Qed.

(** Under [EveryMatch] the reached groups are all the matching ones. *)
Lemma reached_every (closed : nat -> bool) groups name exact tx :
  tx ∈ reached_senders groups name (reach closed EveryMatch groups name exact) <->
  exists g, g ∈ groups /\ matches (pattern g) name = true /\ tx ∈ senders g.
Proof.
  split.
  - destruct (reach _ _ _ _ _) as [|first|i] eqn:Hr; simpl; [set_solver| |].
    + intros (l & Hl & Htx)%elem_of_concat. apply list_elem_of_fmap in Hl as (g & -> & Hg).
      apply elem_of_filterb in Hg as [Hm Hg]. exists g. split_and!; [|done|done].
      apply list_elem_of_lookup in Hg as (i & Hi). rewrite lookup_drop in Hi.
      by eapply list_elem_of_lookup_2.
    + simpl in Hr. by destruct (position _ _).
  - intros (g & Hg & Hm & Htx). destruct (reach_every closed groups name exact g Hg Hm)
      as (first & -> & Hin).
    simpl. apply elem_of_concat. exists (senders g). split; [|done]. apply list_elem_of_fmap. by exists g.
Qed.

Lemma names_senders (r : Registry) name tx :
  tx ∈ exact_senders r name -> tx ∈ values (names r).
Proof.
  unfold exact_senders. intros Htx. destruct (names r !! name) as [l|] eqn:Hl; [|set_solver].
  apply elem_of_concat. exists l. split; [|done]. apply list_elem_of_fmap. exists (name, l).
  split; [done|]. by apply elem_of_map_to_list.
Qed.

Lemma reached_NoDup groups name rc :
  NoDup (List.concat (senders <$> groups)) -> NoDup (reached_senders groups name rc).
Proof.
  intros Hn. destruct rc as [|first|i]; simpl; [constructor| |].
  - apply NoDup_concat_filter. rewrite fmap_drop. by apply NoDup_concat_drop.
  - destruct (groups !! i) as [g|] eqn:Hg; [|constructor]. eapply NoDup_concat_member; [done|].
    apply list_elem_of_fmap. exists g. split; [done|]. by eapply list_elem_of_lookup_2.
Qed.

Lemma reached_senders_known groups name rc tx :
  tx ∈ reached_senders groups name rc -> tx ∈ List.concat (senders <$> groups).
Proof.
  destruct rc as [|first|i]; simpl; [set_solver| |].
  - intros (l & Hl & Htx)%elem_of_concat. apply list_elem_of_fmap in Hl as (g & -> & Hg).
    apply elem_of_filterb in Hg as [_ Hg]. apply list_elem_of_lookup in Hg as (j & Hj).
    rewrite lookup_drop in Hj. apply elem_of_concat. exists (senders g). split; [|done].
    apply list_elem_of_fmap. exists g. split; [done|]. by eapply list_elem_of_lookup_2.
  - destruct (groups !! i) as [g|] eqn:Hg; [|set_solver]. intros Htx. apply elem_of_concat.
    exists (senders g). split; [|done]. apply list_elem_of_fmap. exists g. split; [done|].
    by eapply list_elem_of_lookup_2.
Qed.

Lemma targets_NoDup s r name : registry_wf s r -> NoDup (targets s r name).
Proof.
  intros [_ Hn _]. unfold all_senders in Hn. apply NoDup_app in Hn as (H1 & Hdis & H2).
  unfold targets. apply NoDup_app. split_and!.
  - unfold exact_senders. destruct (names r !! name) as [l|] eqn:Hl; [|constructor].
    eapply NoDup_concat_member; [exact H1|]. apply list_elem_of_fmap. exists (name, l).
    split; [done|]. by apply elem_of_map_to_list.
  - intros tx Htx Hin. apply (Hdis tx); [by eapply names_senders|].
    by eapply reached_senders_known.
  - by apply reached_NoDup.
Qed.

(** Each open targeted channel gets the delivery once, at its end; no other channel changes. *)
Lemma published_channel s r x tx c :
  registry_wf s r -> channels s !! tx = Some c ->
  exists c', channels (published s r x) !! tx = Some c' /\
    if bool_decide (tx ∈ targets s r (Log.name x)) && negb (ch_is_closed c)
    then received (mk_delivery x (snd (append_log s x)) 1) c c' else c' = c.
Proof.
  intros Hwf Hc. unfold published. destruct (append_log s x) as [s1 seq]. simpl.
  apply send_to_spec; [by apply targets_NoDup|done].
Qed.

(** ** The operations keep the invariant *)

Definition mem_wf (s : MemoryState) : Prop :=
  match bus s with
  | Live r => registry_wf s r
  | Down _ => True
  end.

Lemma values_delete m n l : m !! n = Some l -> values m ≡ₚ l ++ values (delete n m).
Proof.
  intros Hn. unfold values. rewrite <- (insert_delete_id m n l Hn) at 1.
  pose proof (map_to_list_insert (delete n m) n l (lookup_delete_eq m n)) as Hp.
  apply (fmap_Permutation snd) in Hp. by apply concat_permutation in Hp.
Qed.

Lemma values_insert m n l :
  values (<[n := l]> m) ≡ₚ l ++ values (delete n m).
Proof.
  rewrite (values_delete (<[n := l]> m) n l) by apply lookup_insert_eq.
  by rewrite delete_insert_eq.
Qed.

Lemma values_push m n tx :
  values (<[n := default [] (m !! n) ++ [tx]]> m) ≡ₚ tx :: values m.
Proof.
  rewrite values_insert. destruct (m !! n) as [l|] eqn:Hn; simpl.
  - rewrite (values_delete m n l Hn), <- app_assoc. simpl. by rewrite Permutation_middle.
  - by rewrite delete_id.
Qed.

Lemma join_group_senders groups t p tx :
  List.concat (senders <$> join_group groups t p tx) ≡ₚ tx :: List.concat (senders <$> groups).
Proof.
  induction groups as [|g groups IH]; simpl; [done|]. destruct (String.eqb (text g) t); simpl.
  - rewrite <- app_assoc. simpl. by rewrite Permutation_middle.
  - rewrite IH. by rewrite Permutation_middle.
Qed.

Lemma join_group_texts groups t p tx :
  text <$> join_group groups t p tx =
  if bool_decide (t ∈ text <$> groups) then text <$> groups else (text <$> groups) ++ [t].
Proof.
  induction groups as [|g groups IH]; cbn [join_group fmap list_fmap app].
  - by rewrite bool_decide_false by set_solver.
  - destruct (String.eqb_spec (text g) t) as [->|Hne]; cbn [fmap list_fmap].
    + rewrite bool_decide_true by left. done.
    + fold (text <$> join_group groups t p tx). rewrite IH.
      destruct (decide (t ∈ text <$> groups)) as [Hin|Hin].
      * rewrite !bool_decide_true; [done|by right|done].
      * rewrite !bool_decide_false; [done|intros [->|?]%elem_of_cons; done|done].
Qed.

Lemma join_group_wf groups t p tx :
  parse t = Ok p -> groups_wf groups -> groups_wf (join_group groups t p tx).
Proof.
  intros Hp [Hg Hn]. split.
  - clear Hn. induction Hg as [|g groups Hg Hgs IH]; simpl; [by repeat constructor|].
    destruct (String.eqb (text g) t); constructor; done.
  - rewrite join_group_texts. case_bool_decide as Hin; [done|]. apply NoDup_app.
    split_and!; [done| |apply NoDup_singleton]. intros x Hx ->%list_elem_of_singleton. done.
Qed.

(** A fresh channel joins the registry. *)
Lemma registry_push_wf s s' r r' tx :
  registry_wf s r -> length (channels s) <= tx -> length (channels s') = S tx ->
  all_senders r' ≡ₚ tx :: all_senders r -> groups_wf (patterns r') -> registry_wf s' r'.
Proof.
  intros [Hk Hn _] Hfresh Hlen Hperm Hg. split; [| |done].
  - intros x Hx. rewrite Hperm in Hx. apply elem_of_cons in Hx as [->|Hx]; [lia|].
    specialize (Hk x Hx). lia.
  - rewrite Hperm. constructor; [|done]. intros Hin. specialize (Hk tx Hin). lia.
Qed.

Lemma registry_wf_channels s s' r :
  registry_wf s r -> length (channels s) <= length (channels s') -> registry_wf s' r.
Proof. intros [Hk Hn Hg] Hle. split; [|done|done]. intros tx Htx. specialize (Hk tx Htx). lia. Qed.

Lemma register_fresh_wf (s : MemoryState) name :
  mem_wf s ->
  let (s1, tx) := unbounded_channel s in
  mem_wf (fst (register s1 name tx)).
Proof.
  intros Hwf. simpl. unfold register, mem_wf in *. simpl. destruct (bus s) as [r|] eqn:Hb; simpl.
  - eapply (registry_push_wf s _ r _ (length (channels s))); [done|done|simpl; rewrite length_app; simpl; lia| |by apply Hwf].
    unfold all_senders. simpl. by rewrite (values_push (names r) name).
  - by rewrite Hb.
Qed.

Lemma unregister_wf s name : mem_wf s -> mem_wf (unregister s name).
Proof.
  intros Hwf. unfold unregister. set (s1 := match bus s with Live _ => _ | Down _ => _ end).
  assert (H1 : mem_wf s1).
  { unfold s1, mem_wf in *. destruct (bus s) as [r|] eqn:Hb; [|by rewrite Hb]. simpl.
    destruct (names r !! name) as [l|] eqn:Hn.
    - destruct Hwf as [Hk Hnd Hg]. unfold all_senders in *.
      rewrite (values_delete _ _ _ Hn), <- app_assoc in Hnd.
      split; [|by apply NoDup_app in Hnd as (_ & _ & ?)|done]. simpl. intros tx Htx. apply Hk.
      rewrite (values_delete _ _ _ Hn), <- app_assoc. apply elem_of_app. by right.
    - rewrite delete_id by done. by destruct Hwf. }
  clearbody s1. destruct (recording s1); [|done]. unfold mem_wf in *. simpl.
  destruct (bus s1); [|done]. by eapply registry_wf_channels.
Qed.

Lemma published_wf s r x : registry_wf s r -> registry_wf (published s r x) r.
Proof.
  intros Hwf. eapply registry_wf_channels; [done|]. unfold published.
  destruct (append_log s x). simpl. by rewrite send_to_length.
Qed.

Lemma fanout_unsent_wf s name body hs : mem_wf s -> mem_wf (fst (fanout_unsent s name body hs)).
Proof.
  intros Hwf. destruct (bus s) as [r|] eqn:Hb.
  - rewrite (fanout_live _ _ _ _ _ Hb). simpl. unfold mem_wf in *.
    assert (Hbus : bus (published s r (Log.mk_inner name body hs)) = Live r)
      by (unfold published; destruct (append_log _ _); simpl; done).
    rewrite Hbus. rewrite Hb in Hwf. by apply published_wf.
  - unfold fanout_unsent. by rewrite Hb.
Qed.

Lemma fanout_wf s name body hs : mem_wf s -> mem_wf (fst (fanout s name body hs)).
Proof.
  intros Hwf. pose proof (fanout_unsent_wf s name body hs Hwf) as H1. unfold fanout.
  by destruct (fanout_unsent s name body hs).
Qed.

Lemma set_channels_wf (s : MemoryState) cs : mem_wf s -> length (channels s) <= length cs -> mem_wf (set_channels s cs).
Proof. unfold mem_wf. simpl. destruct (bus s); [|done]. intros. by eapply registry_wf_channels. Qed.

Lemma subscribe_pattern_wf s t : mem_wf s -> mem_wf (fst (subscribe_pattern s t)).
Proof.
  intros Hwf. unfold subscribe_pattern. destruct (parse t) as [p|] eqn:Hp; [|done]. simpl.
  unfold register_pattern, mem_wf in *. simpl. destruct (bus s) as [r|] eqn:Hb; simpl.
  - eapply (registry_push_wf s _ r _ (length (channels s))); [done|done|simpl; rewrite length_app; simpl; lia| |].
    + unfold all_senders. simpl. rewrite join_group_senders. by rewrite <- Permutation_middle.
    + apply join_group_wf; [done|]. by apply Hwf.
  - by rewrite Hb.
Qed.

Lemma subscribe_wf s name : mem_wf s -> mem_wf (fst (subscribe s name)).
Proof.
  intros Hwf. unfold subscribe. destruct (has_wildcard name); [done|].
  pose proof (register_fresh_wf s name Hwf) as H1.
  destruct (unbounded_channel s) as [s1 tx]. by destruct (register s1 name tx) as [s2 [[]|e]].
Qed.

(** *** The broker as a transition system *)

Inductive Op :=
  | Connect
  | Shutdown
  | SetRouting (routing : Routing)
  | Subscribe (name : string)
  | SubscribePattern (t : string)
  | BrokerSubscribe (name : string)
  | Publish (m : MemoryOutbound)
  | RequestStart (m : MemoryOutbound)
  | RequestFinish (inbox : string) (tx : nat) (subject : string) (wait : N)
  | Receive (tx : nat)
  | Requeue (tx : nat) (d : MemoryDelivery)
  | DropReceiver (tx : nat).

Definition run (s : MemoryState) (op : Op) : MemoryState :=
  match op with
  | Connect => connect s
  | Shutdown => fst (shutdown s)
  | SetRouting routing => set_routing s routing
  | Subscribe name => fst (subscribe s name)
  | SubscribePattern t => fst (subscribe_pattern s t)
  | BrokerSubscribe name => fst (broker_subscribe s name)
  | Publish m => fst (fanout_unsent s (out_name m) (out_payload m) (out_headers m))
  | RequestStart m => fst (request_start s m)
  | RequestFinish inbox tx subject wait => fst (request_finish s inbox tx subject wait)
  | Receive tx =>
      match channels s !! tx ≫= ch_try_recv with
      | Some (_, c) => set_channels s (<[tx := c]> (channels s))
      | None => s
      end
  | Requeue tx d => set_channels s (send_to (channels s) [tx] d)
  | DropReceiver tx => set_channels s (alter ch_close tx (channels s))
  end.

Lemma run_wf s op : mem_wf s -> mem_wf (run s op).
Proof.
  intros Hwf. destruct op as [| |rt|name|t|name|m|m|inbox tx subject wait|tx|tx d|tx]; simpl.
  - unfold connect, mem_wf in *. destruct (bus s) eqn:Hb; [by rewrite Hb|]. simpl.
    split; unfold all_senders; simpl; rewrite ?map_to_list_empty; simpl; [set_solver|constructor|].
    split; constructor.
  - done.
  - unfold set_routing, mem_wf in *. simpl. destruct (bus s); [|done]. by destruct Hwf.
  - by apply subscribe_wf.
  - by apply subscribe_pattern_wf.
  - unfold broker_subscribe. pose proof (register_fresh_wf s name Hwf) as H1.
    destruct (unbounded_channel s) as [s1 tx] eqn:Hu. destruct (has_wildcard name); [|done]. simpl.
    injection Hu as <- <-. simpl. apply (set_channels_wf s); [done|].
    rewrite length_alter, length_app. lia.
  - by apply fanout_unsent_wf.
  - unfold request_start. simpl. set (s0 := mk_state _ _ _ _ _ _).
    assert (H0 : mem_wf s0) by (unfold mem_wf in *; simpl; destruct (bus s); [|done];
      by eapply registry_wf_channels).
    pose proof (register_fresh_wf s0 (inbox_name (inbox_seq s)) H0) as H1. simpl in H1.
    fold s0. destruct (register _ _ _) as [s2 [[]|e]]; simpl in *; [|done].
    pose proof (fanout_wf s2 (out_name m) (out_payload m) (fst (HeaderMap.insert_header (out_headers m)
      "reply-to" (as_bytes (inbox_name (inbox_seq s))))) H1) as H2.
    destruct (fanout s2 _ _ _) as [s3 [[]|e]]; simpl in *; [done|]. by apply unregister_wf.
  - unfold request_finish. destruct (channels s !! tx) as [c|]; [|by apply unregister_wf].
    destruct (ch_try_recv c) as [[d c']|]; [|by apply unregister_wf]. apply unregister_wf.
    apply set_channels_wf; [done|]. by rewrite length_insert.
  - destruct (channels s !! tx ≫= ch_try_recv) as [[d c]|]; [|done]. apply set_channels_wf; [done|].
    by rewrite length_insert.
  - apply set_channels_wf; [done|].
    destruct (channels s !! tx); [by rewrite length_insert|done].
  - apply set_channels_wf; [done|]. by rewrite length_alter.
Qed.

Inductive reachable : MemoryState -> Prop :=
  | reach_discarding : reachable discarding
  | reach_retaining r : reachable (retaining r)
  | reach_step s op : reachable s -> reachable (run s op).

Lemma bus_reachable_wf s : reachable s -> mem_wf s.
Proof.
  induction 1 as [|r|s op _ IH]; [..|by apply run_wf];
    (split; [cbn; set_solver|cbn; constructor|split; constructor]).
Qed.

(** ** The harness's rule against the fanout *)

(** Opening one subscription the way a name or a pattern is opened; its channel, if it opened. *)
Definition open_one (acc : MemoryState * list (option nat)) (name : string)
  : MemoryState * list (option nat) :=
  let (s, ids) := acc in
  let (s, r) := if has_wildcard name then subscribe_pattern s name else subscribe s name in
  (s, ids ++ [match r with Ok tx => Some tx | Err _ => None end]).
Definition open_all (s : MemoryState) (subs : list string) : MemoryState * list (option nat) :=
  fold_left open_one subs (s, []).

Record built (rt : Routing) (subs : list string) (s : MemoryState) (ids : list (option nat)) (r : Registry)
  : Prop := {
  b_bus : bus s = Live r;
  b_routing : registry_routing r = rt;
  b_length : length ids = length subs;
  b_exact : forall n tx, tx ∈ exact_senders r n <->
    exists i, subs !! i = Some n /\ has_wildcard n = false /\ ids !! i = Some (Some tx);
  b_pattern : forall t tx, (exists g, g ∈ patterns r /\ text g = t /\ tx ∈ senders g) <->
    exists i, subs !! i = Some t /\ has_wildcard t = true /\ ids !! i = Some (Some tx);
  b_open : forall tx c, channels s !! tx = Some c -> ch_is_closed c = false;
  b_groups : groups_wf (patterns r);
  b_nonempty : forall g, g ∈ patterns r -> senders g <> [];
  b_known : forall i tx, ids !! i = Some (Some tx) -> tx < length (channels s);
  b_inj : forall i j tx, ids !! i = Some (Some tx) -> ids !! j = Some (Some tx) -> i = j;
  b_opened : forall i n, subs !! i = Some n ->
    (exists tx, ids !! i = Some (Some tx)) <-> (has_wildcard n = false \/ exists p, parse n = Ok p);
}.

Lemma lookup_snoc_iff {A} (l : list A) x i y :
  (l ++ [x]) !! i = Some y <-> l !! i = Some y \/ (i = length l /\ y = x).
Proof.
  rewrite lookup_app_Some, list_lookup_singleton_Some. split.
  - intros [?|(? & ? & <-)]; [by left|right; split; [lia|done]].
  - intros [?|(-> & ->)]; [by left|right; split; [lia|split; [lia|done]]].
Qed.

Lemma open_channel_open (s : MemoryState) tx c :
  (forall tx c, channels s !! tx = Some c -> ch_is_closed c = false) ->
  (channels s ++ [ch_new]) !! tx = Some c -> ch_is_closed c = false.
Proof.
  intros Ho [Hc|[_ ->]]%lookup_snoc_iff; [by eapply Ho|]. by destruct (ch_new_items (A := MemoryDelivery)).
Qed.

(** What an opened subscription adds to positions and identities. *)
Lemma snoc_positions (subs : list string) (ids : list (option nat)) n o t (w : bool) tx :
  length ids = length subs ->
  (exists i, (subs ++ [n]) !! i = Some t /\ has_wildcard t = w /\ (ids ++ [o]) !! i = Some (Some tx)) <->
  (exists i, subs !! i = Some t /\ has_wildcard t = w /\ ids !! i = Some (Some tx)) \/
  (t = n /\ has_wildcard t = w /\ o = Some tx).
Proof.
  intros Hlen. split.
  - intros (i & Hi & Hw & Hid). apply lookup_snoc_iff in Hi as [Hi|[-> ->]];
      apply lookup_snoc_iff in Hid as [Hid|[? Heq]].
    + left. by exists i.
    + apply lookup_lt_Some in Hi. lia.
    + apply lookup_lt_Some in Hid. lia.
    + right. by rewrite Heq.
  - intros [(i & Hi & Hw & Hid)|(-> & Hw & ->)].
    + exists i. rewrite !lookup_app_l by (by eapply lookup_lt_Some). done.
    + exists (length subs). rewrite <- Hlen at 2.
      by rewrite !lookup_app_r, !Nat.sub_diag by lia.
Qed.

Lemma join_group_members groups t p tx t' tx' :
  (exists g, g ∈ join_group groups t p tx /\ text g = t' /\ tx' ∈ senders g) <->
  (exists g, g ∈ groups /\ text g = t' /\ tx' ∈ senders g) \/ (t' = t /\ tx' = tx).
Proof.
  induction groups as [|g groups IH]; simpl.
  - split.
    + intros (g & ->%list_elem_of_singleton & <- & Htx). simpl in Htx.
      apply list_elem_of_singleton in Htx as ->. by right.
    + intros [(g & Hg & _)|[-> ->]]; [by apply not_elem_of_nil in Hg|].
      eexists. split; [left|]. split; [done|left].
  - destruct (String.eqb_spec (text g) t) as [Ht|Hne].
    + split.
      * intros (h & [->|Hh]%elem_of_cons & <- & Htx); simpl in *.
        -- apply elem_of_app in Htx as [Htx|Htx]; [left; exists g; split; [left|done]|].
           apply list_elem_of_singleton in Htx as ->. right. by rewrite Ht.
        -- left. exists h. split; [by right|done].
      * intros [(h & [->|Hh]%elem_of_cons & <- & Htx)|[-> ->]].
        -- eexists. split; [left|]. simpl. split; [done|]. apply elem_of_app. by left.
        -- exists h. split; [by right|done].
        -- eexists. split; [left|]. simpl. split; [done|]. apply elem_of_app. right. left.
    + split.
      * intros (h & [->|Hh]%elem_of_cons & <- & Htx); [left; exists g; split; [left|done]|].
        destruct (proj1 IH) as [(h' & ? & ? & ?)|?]; [by exists h| |by right].
        left. exists h'. split; [by right|done].
      * intros [(h & [->|Hh]%elem_of_cons & <- & Htx)|Heq]; [exists g; split; [left|done]|..].
        -- destruct (proj2 IH) as (h' & ? & ? & ?); [left; by exists h|].
           exists h'. split; [by right|done].
        -- destruct (proj2 IH) as (h' & ? & ? & ?); [by right|]. exists h'. split; [by right|done].
Qed.

Lemma join_group_nonempty groups t p tx :
  (forall g, g ∈ groups -> senders g <> []) ->
  forall g, g ∈ join_group groups t p tx -> senders g <> [].
Proof.
  induction groups as [|h groups IH]; simpl; intros Hne g.
  - by intros ->%list_elem_of_singleton.
  - destruct (String.eqb (text h) t).
    + intros [->|Hg]%elem_of_cons; [simpl; by destruct (senders h)|]. apply Hne. by right.
    + intros [->|Hg]%elem_of_cons; [apply Hne; left|]. apply IH; [|done]. intros k Hk. apply Hne. by right.
Qed.

(** The parts of [built] that hold for any opened or refused subscription. *)
Lemma built_ids subs ids cs n o len :
  length ids = length subs ->
  (forall i tx, ids !! i = Some (Some tx) -> tx < len) ->
  (forall i j tx, ids !! i = Some (Some tx) -> ids !! j = Some (Some tx) -> i = j) ->
  (forall i m, subs !! i = Some m ->
    (exists tx, ids !! i = Some (Some tx)) <-> (has_wildcard m = false \/ exists p, parse m = Ok p)) ->
  o = None \/ o = Some len -> len <= cs -> (is_Some o -> len < cs) ->
  (is_Some o <-> (has_wildcard n = false \/ exists p, parse n = Ok p)) ->
  length (ids ++ [o]) = length (subs ++ [n]) /\
  (forall i tx, (ids ++ [o]) !! i = Some (Some tx) -> tx < cs) /\
  (forall i j tx, (ids ++ [o]) !! i = Some (Some tx) -> (ids ++ [o]) !! j = Some (Some tx) -> i = j) /\
  (forall i m, (subs ++ [n]) !! i = Some m ->
    (exists tx, (ids ++ [o]) !! i = Some (Some tx)) <-> (has_wildcard m = false \/ exists p, parse m = Ok p)).
Proof.
  intros Hlen Hk Hi Ho Hopt Hcs Hsome Hiff. split_and!.
  - rewrite !length_app. simpl. lia.
  - intros i tx [Hid|[-> Heq]]%lookup_snoc_iff; [specialize (Hk i tx Hid); lia|].
    destruct Hopt as [->| ->]; [done|]. injection Heq as ->. apply Hsome. by eexists.
  - intros i j tx [Hid|[-> Heq]]%lookup_snoc_iff [Hjd|[-> Heq2]]%lookup_snoc_iff; [by eapply Hi| | |done].
    + specialize (Hk i tx Hid). destruct Hopt as [->| ->]; [done|]. injection Heq2 as ->. lia.
    + specialize (Hk j tx Hjd). destruct Hopt as [->| ->]; [done|]. injection Heq as ->. lia.
  - intros i m [Hm|[-> ->]]%lookup_snoc_iff.
    + rewrite <- (Ho i m Hm). rewrite lookup_app_l by (rewrite Hlen; by eapply lookup_lt_Some). done.
    + rewrite <- Hiff, <- Hlen. rewrite lookup_app_r, Nat.sub_diag by lia. simpl. split.
      * intros (tx & [= ->]). by eexists.
      * intros (tx & ->). by eexists.
Qed.

Lemma exact_senders_push (r : Registry) n tx m tx' :
  tx' ∈ default [] (<[n := default [] (names r !! n) ++ [tx]]> (names r) !! m) <->
  tx' ∈ exact_senders r m \/ (m = n /\ tx' = tx).
Proof.
  unfold exact_senders. destruct (decide (m = n)) as [->|Hne].
  - rewrite lookup_insert_eq. simpl. rewrite elem_of_app, list_elem_of_singleton. naive_solver.
  - rewrite lookup_insert_ne by done. naive_solver.
Qed.

Lemma built_snoc rt subs s ids r n :
  built rt subs s ids r ->
  exists r', built rt (subs ++ [n]) (fst (open_one (s, ids) n)) (snd (open_one (s, ids) n)) r'.
Proof.
  intros [Hb Hrt Hlen Hex Hpat Hopen Hg Hne Hk Hi Ho]. unfold open_one.
  destruct (has_wildcard n) eqn:Hw.
  - unfold subscribe_pattern. destruct (parse n) as [p|e] eqn:Hp; simpl.
    + unfold register_pattern. simpl. rewrite Hb. simpl.
      destruct (built_ids subs ids (length (channels s ++ [ch_new (A := MemoryDelivery)])) n
        (Some (length (channels s))) (length (channels s))) as (H1 & H2 & H3 & H4); try done;
        [by right|rewrite length_app; simpl; lia|intros _; rewrite length_app; simpl; lia|
         split; [intros _; right; by eexists|by eexists]|].
      eexists. split; [done|done|done| | | | | |done|done|done]; simpl.
      * intros m tx. change (exact_senders _ m) with (exact_senders r m).
        rewrite Hex, (snoc_positions subs ids n _ m false) by done. split; [by left|intros [?|(-> & ? & ?)]; [done|congruence]].
      * intros t tx. rewrite join_group_members, Hpat, (snoc_positions subs ids n _ t true) by done.
        split; (intros [?|Hn]; [by left|right]); [destruct Hn as [-> ->]|destruct Hn as (-> & _ & [= ->])]; done.
      * intros tx c. by apply open_channel_open.
      * by apply join_group_wf.
      * by apply join_group_nonempty.
    + destruct (built_ids subs ids (length (channels s)) n None (length (channels s)))
        as (H1 & H2 & H3 & H4); try done; [by left|
        split; [by intros [? ?]|intros [?|(? & ?)]; congruence]|].
      exists r. split; [done|done|done| | |done|done|done|done|done|done].
      * intros m tx. rewrite Hex, (snoc_positions subs ids n _ m false) by done. split; [by left|intros [?|(-> & ? & ?)]; [done|congruence]].
      * intros t tx. rewrite Hpat, (snoc_positions subs ids n _ t true) by done. split; [by left|intros [?|(-> & ? & ?)]; [done|congruence]].
  - unfold subscribe. rewrite Hw. simpl. unfold register. simpl. rewrite Hb. simpl.
    destruct (built_ids subs ids (length (channels s ++ [ch_new (A := MemoryDelivery)])) n
      (Some (length (channels s))) (length (channels s))) as (H1 & H2 & H3 & H4); try done;
      [by right|rewrite length_app; simpl; lia|intros _; rewrite length_app; simpl; lia|
       split; [intros _; by left|by eexists]|].
    eexists. split; [done|done|done| | | |done|done|done|done|done]; simpl.
    + intros m tx. unfold exact_senders at 1. simpl.
      rewrite exact_senders_push, Hex, (snoc_positions subs ids n _ m false) by done. split; (intros [?|Hn]; [by left|right]); [destruct Hn as [-> ->]|destruct Hn as (-> & _ & [= ->])]; done.
    + intros t tx. rewrite Hpat, (snoc_positions subs ids n _ t true) by done. split; [by left|intros [?|(-> & ? & ?)]; [done|congruence]].
    + intros tx c. by apply open_channel_open.
Qed.

Lemma open_all_built rt s subs :
  bus s = Live (new_registry rt) -> channels s = [] ->
  exists r, built rt subs (fst (open_all s subs)) (snd (open_all s subs)) r.
Proof.
  intros Hb Hc. unfold open_all. induction subs as [|n subs IH] using rev_ind.
  - exists (new_registry rt).
    split; [done|done|done| | | | | | | | ]; simpl.
    + intros n tx. change (exact_senders _ n) with (default (@nil nat) ((∅ : gmap string (list nat)) !! n)).
      rewrite lookup_empty. simpl.
      split; [by intros ?%not_elem_of_nil|by intros (? & ? & _)].
    + intros t tx. split; [by intros (? & ?%not_elem_of_nil & _)|by intros (? & ? & _)].
    + intros tx c. by rewrite Hc, lookup_nil.
    + split; constructor.
    + by intros g ?%not_elem_of_nil.
    + done.
    + done.
    + done.
  - rewrite fold_left_app. simpl. destruct IH as (r & Hr).
    destruct (fold_left open_one subs (s, [])) as [s1 ids]. by apply (built_snoc rt subs s1 ids r).
Qed.

(** What the documented rule gives the subscription at position [i]. *)
Definition receives (rt : Routing) (subs : list string) (dest : string) (i : nat) : Prop :=
  exists n, subs !! i = Some n /\
  match rt with
  | EveryMatch =>
      (has_wildcard n = false /\ n = dest) \/
      (has_wildcard n = true /\ exists p, parse n = Ok p /\ matches p dest = true)
  | MostSpecific =>
      (has_wildcard n = false /\ n = dest) \/
      (has_wildcard n = true /\ (forall j, subs !! j = Some dest -> has_wildcard dest = true) /\
       exists p, parse n = Ok p /\ matches p dest = true /\
         forall j m q, subs !! j = Some m -> has_wildcard m = true -> parse m = Ok q ->
           matches q dest = true -> specificity q p <> Gt)
  end.

Lemma elem_of_parsed subs dest i p :
  (i, p) ∈ omap (parsed_matching dest) (enumerate subs) <->
  exists n, subs !! i = Some n /\ has_wildcard n = true /\ parse n = Ok p /\ matches p dest = true.
Proof.
  rewrite list_elem_of_omap. split.
  - intros ([j n] & Hin & Hp). apply elem_of_enumerate in Hin. unfold parsed_matching in Hp. simpl in Hp.
    destruct (has_wildcard n) eqn:Hw; [|done]. destruct (parse n) as [q|] eqn:Hq; [|done].
    destruct (matches q dest) eqn:Hm; [|done]. injection Hp as -> ->. by exists n.
  - intros (n & Hi & Hw & Hp & Hm). exists (i, n). split; [by apply elem_of_enumerate|].
    unfold parsed_matching. simpl. by rewrite Hw, Hp, Hm.
Qed.

Lemma elem_of_exact (subs : list string) dest i :
  i ∈ fst <$> List.filter (fun e => negb (has_wildcard e.2) && String.eqb e.2 dest) (enumerate subs) <->
  subs !! i = Some dest /\ has_wildcard dest = false.
Proof.
  rewrite list_elem_of_fmap. split.
  - intros ([j n] & -> & Hin). apply elem_of_filterb in Hin as [Hf Hin]. apply elem_of_enumerate in Hin.
    simpl in *. apply andb_true_iff in Hf as [Hw Heq]. apply String.eqb_eq in Heq as ->. by bool_prop.
  - intros [Hi Hw]. exists (i, dest). split; [done|]. apply elem_of_filterb. simpl.
    rewrite Hw, String.eqb_refl. split; [done|]. by apply elem_of_enumerate.
Qed.

Lemma routes_receives rt dest subs i : i ∈ routes rt dest subs <-> receives rt subs dest i.
Proof.
  unfold routes, receives. set (exact := fst <$> List.filter _ (enumerate subs)).
  assert (Hexact : forall j, j ∈ exact <-> subs !! j = Some dest /\ has_wildcard dest = false)
    by (intros j; apply elem_of_exact).
  clearbody exact. destruct rt.
  - rewrite merge_sort_Permutation, elem_of_app, Hexact, list_elem_of_fmap. split.
    + intros [[Hi Hw]|([j p] & -> & Hin)]; [exists dest; split; [done|]; by left|].
      apply elem_of_parsed in Hin as (n & Hi & Hw & Hp & Hm). exists n. split; [done|]. right. eauto.
    + intros (n & Hi & [[Hw ->]|(Hw & p & Hp & Hm)]); [by left|].
      right. exists (i, p). split; [done|]. apply elem_of_parsed. by exists n.
  - destruct exact as [|e0 exact'].
    + assert (Hnone : forall j, subs !! j = Some dest -> has_wildcard dest = true).
      { intros j Hj. destruct (has_wildcard dest) eqn:Hw; [done|].
        exfalso. by eapply not_elem_of_nil, (Hexact j). }
      destruct (max_by _ _) as [[b best]|] eqn:Hmax.
      * pose proof (max_by_elem _ _ _ Hmax) as Hbest.
        apply elem_of_parsed in Hbest as (nb & Hnb & Hwb & Hpb & Hmb).
        pose proof (max_by_max _ _ _ (fun x y => lex_compare_opp _ _)
          (fun x y z => lex_compare_trans _ _ _) Hmax) as Hall.
        rewrite list_elem_of_fmap. split.
        -- intros ([j p] & -> & Hin). apply elem_of_filterb in Hin as [Heq Hin]. simpl in Heq.
           apply bool_decide_eq_true in Heq as ->.
           apply elem_of_parsed in Hin as (n & Hi & Hw & Hp & Hm). exists n. split; [done|].
           right. split_and!; [done|done|]. exists best. split_and!; [done..|].
           intros k m q Hk Hwm Hq Hmq. apply (Hall (k, q)). apply elem_of_parsed. by exists m.
        -- intros (n & Hi & [[Hw ->]|(Hw & _ & p & Hp & Hm & Hbeats)]);
             [by specialize (Hnone _ Hi); congruence|].
           exists (i, p). split; [done|]. apply elem_of_filterb.
           assert (Hin : (i, p) ∈ omap (parsed_matching dest) (enumerate subs))
             by (apply elem_of_parsed; by exists n).
           split; [|done]. simpl. apply bool_decide_eq_true.
           specialize (Hbeats _ _ _ Hnb Hwb Hpb Hmb). specialize (Hall _ Hin). simpl in Hall.
           assert (Hs : specificity p best = Eq).
           { unfold specificity in *. rewrite lex_compare_opp in Hbeats.
             destruct (lex_compare _ _); [done|done|]. by destruct Hall. }
           pose proof (equal_specificity_same_text _ _ _ _ _ Hp Hpb Hm Hmb Hs). congruence.
      * split; [by intros ?%not_elem_of_nil|].
        intros (n & Hi & [[Hw ->]|(Hw & _ & p & Hp & Hm & _)]);
          [by specialize (Hnone _ Hi); congruence|].
        apply max_by_None in Hmax. assert (Hin : (i, p) ∈ omap (parsed_matching dest) (enumerate subs))
             by (apply elem_of_parsed; by exists n). rewrite Hmax in Hin. by apply not_elem_of_nil in Hin.
    + assert (Hsome : exists j, subs !! j = Some dest /\ has_wildcard dest = false)
        by (exists e0; apply Hexact; left).
      destruct Hsome as (j & Hj & Hwd). rewrite Hexact. split.
      * intros [Hi Hw]. exists dest. split; [done|]. by left.
      * intros (n & Hi & [[Hw ->]|(_ & Hnone & _)]); [done|]. specialize (Hnone _ Hj). congruence.
Qed.

Section built.
Context {rt : Routing} {subs : list string} {s : MemoryState} {ids : list (option nat)} {r : Registry}.
Context (HB : built rt subs s ids r).

Lemma built_is_open tx i : ids !! i = Some (Some tx) -> is_closed (channels s) tx = false.
Proof.
  intros Hid. unfold is_closed. pose proof (b_known _ _ _ _ _ HB i tx Hid) as Hlt.
  destruct (channels s !! tx) as [c|] eqn:Hc; [|apply lookup_ge_None in Hc; lia].
  by eapply (b_open _ _ _ _ _ HB).
Qed.

Lemma built_group g : g ∈ patterns r -> parse (text g) = Ok (pattern g).
Proof.
  intros Hg. destruct (b_groups _ _ _ _ _ HB) as [Hall _]. rewrite Forall_forall in Hall. by apply Hall.
Qed.

(** An opened pattern subscription sits in the group of its text. *)
Lemma built_pattern_group i n p :
  subs !! i = Some n -> has_wildcard n = true -> parse n = Ok p ->
  exists tx g, ids !! i = Some (Some tx) /\ g ∈ patterns r /\ text g = n /\ pattern g = p /\ tx ∈ senders g.
Proof.
  intros Hi Hw Hp. destruct (proj2 (b_opened _ _ _ _ _ HB i n Hi)) as (tx & Htx); [right; by exists p|].
  destruct (proj2 (b_pattern _ _ _ _ _ HB n tx)) as (g & Hg & Ht & Hs); [by exists i|].
  exists tx, g. pose proof (built_group g Hg) as Hpg. rewrite Ht, Hp in Hpg. by injection Hpg as <-.
Qed.

(** And a group's sender is the channel of a subscription of its text. *)
Lemma built_group_position g tx i :
  g ∈ patterns r -> tx ∈ senders g -> ids !! i = Some (Some tx) ->
  subs !! i = Some (text g) /\ has_wildcard (text g) = true.
Proof.
  intros Hg Htx Hid. destruct (proj1 (b_pattern _ _ _ _ _ HB (text g) tx)) as (j & Hj & Hw & Hjd);
    [by exists g|].
  by rewrite (b_inj _ _ _ _ _ HB i j tx Hid Hjd).
Qed.

Lemma built_exact_position dest i tx :
  ids !! i = Some (Some tx) ->
  tx ∈ exact_senders r dest <-> subs !! i = Some dest /\ has_wildcard dest = false.
Proof.
  intros Hid. rewrite (b_exact _ _ _ _ _ HB). split.
  - intros (j & Hj & Hw & Hjd). by rewrite (b_inj _ _ _ _ _ HB i j tx Hid Hjd).
  - intros [Hi Hw]. by exists i.
Qed.

Lemma built_group_live g : g ∈ patterns r -> is_live (is_closed (channels s)) g = true.
Proof.
  intros Hg. apply existsb_elem. pose proof (b_nonempty _ _ _ _ _ HB g Hg) as Hne.
  destruct (senders g) as [|tx l] eqn:Hs; [done|]. exists tx. split; [left|].
  destruct (proj1 (b_pattern _ _ _ _ _ HB (text g) tx)) as (j & _ & _ & Hjd).
  { exists g. split_and!; [done|done|]. rewrite Hs. left. }
  by rewrite (built_is_open _ _ Hjd).
Qed.

Lemma targets_receives_every dest i :
  rt = EveryMatch ->
  (exists tx, ids !! i = Some (Some tx) /\ tx ∈ targets s r dest) <-> receives EveryMatch subs dest i.
Proof.
  intros Hrt. unfold targets. rewrite (b_routing _ _ _ _ _ HB), Hrt. split.
  - intros (tx & Hid & [Hex|Hpat]%elem_of_app).
    + apply (built_exact_position _ _ _ Hid) in Hex as [Hi Hw]. exists dest. split; [done|]. by left.
    + apply reached_every in Hpat as (g & Hg & Hm & Htx).
      destruct (built_group_position g tx i Hg Htx Hid) as [Hi Hw]. exists (text g). split; [done|].
      right. split; [done|]. exists (pattern g). split; [by apply built_group|done].
  - intros (n & Hi & [[Hw ->]|(Hw & p & Hp & Hm)]).
    + destruct (proj2 (b_opened _ _ _ _ _ HB i dest Hi)) as (tx & Htx); [by left|]. exists tx.
      split; [done|]. apply elem_of_app. left. by apply (built_exact_position _ _ _ Htx).
    + destruct (built_pattern_group i n p Hi Hw Hp) as (tx & g & Hid & Hg & Ht & <- & Htx).
      exists tx. split; [done|]. apply elem_of_app. right. apply reached_every. by exists g.
Qed.

Lemma exact_live_iff dest :
  exact_live s r dest = true <-> exists j, subs !! j = Some dest /\ has_wildcard dest = false.
Proof.
  unfold exact_live. rewrite existsb_elem. split.
  - intros (tx & Htx & _). apply (b_exact _ _ _ _ _ HB) in Htx as (j & Hj & Hw & _). by exists j.
  - intros (j & Hj & Hw). destruct (proj2 (b_opened _ _ _ _ _ HB j dest Hj)) as (tx & Htx); [by left|].
    exists tx. rewrite (built_is_open _ _ Htx). split; [|done].
    by apply (built_exact_position dest j tx Htx).
Qed.

Lemma targets_receives_most dest i :
  rt = MostSpecific ->
  (exists tx, ids !! i = Some (Some tx) /\ tx ∈ targets s r dest) <-> receives MostSpecific subs dest i.
Proof.
  intros Hrt. unfold targets. rewrite (b_routing _ _ _ _ _ HB), Hrt. unfold reach.
  pose proof (exact_live_iff dest) as Hlive. destruct (exact_live s r dest) eqn:Hex.
  { destruct (proj1 Hlive eq_refl) as (j & Hj & Hwd). simpl. rewrite app_nil_r. split.
    - intros (tx & Hid & Hin). apply (built_exact_position _ _ _ Hid) in Hin as [Hi Hw].
      exists dest. split; [done|]. by left.
    - intros (n & Hi & [[Hw ->]|(_ & Hnone & _)]); [|specialize (Hnone _ Hj); congruence].
      destruct (proj2 (b_opened _ _ _ _ _ HB i dest Hi)) as (tx & Htx); [by left|]. exists tx.
      split; [done|]. by apply (built_exact_position _ _ _ Htx). }
  assert (Hno : forall j, subs !! j = Some dest -> has_wildcard dest = true).
  { intros j Hj. destruct (has_wildcard dest) eqn:Hw; [done|].
    discriminate (proj2 Hlive (ex_intro _ j (conj Hj eq_refl))). }
  assert (Hcand : forall k g, (k, g) ∈ List.filter (candidate (is_closed (channels s)) dest)
      (enumerate (patterns r)) <-> patterns r !! k = Some g /\ matches (pattern g) dest = true).
  { intros k g. rewrite elem_of_filterb, elem_of_enumerate. unfold candidate. simpl. split.
    - intros [[Hm _]%andb_true_iff Hk]. done.
    - intros [Hk Hm]. rewrite Hm, built_group_live by (by eapply list_elem_of_lookup_2). done. }
  destruct (max_by _ _) as [[b best]|] eqn:Hmax; simpl.
  - pose proof (proj1 (Hcand b best) (max_by_elem _ _ _ Hmax)) as [Hb Hmb]. rewrite Hb.
    pose proof (list_elem_of_lookup_2 _ _ _ Hb) as Hbin.
    pose proof (max_by_max _ _ _ (fun x y => lex_compare_opp _ _)
      (fun x y z => lex_compare_trans _ _ _) Hmax) as Hall.
    split.
    + intros (tx & Hid & [Hin|Hin]%elem_of_app).
      { apply (built_exact_position _ _ _ Hid) in Hin as [Hi Hw]. specialize (Hno _ Hi). congruence. }
      destruct (built_group_position best tx i Hbin Hin Hid) as [Hi Hw]. exists (text best).
      split; [done|]. right. split_and!; [done|done|]. exists (pattern best).
      split_and!; [by apply built_group|done|]. intros j m q Hj Hwm Hq Hmq.
      destruct (built_pattern_group j m q Hj Hwm Hq) as (tx' & g & _ & Hg & _ & Hgq & _).
      apply list_elem_of_lookup in Hg as (k & Hk). rewrite <- Hgq in *.
      apply (Hall (k, g)). by apply Hcand.
    + intros (n & Hi & [[Hw ->]|(Hw & _ & p & Hp & Hm & Hbeats)]); [by specialize (Hno _ Hi); congruence|].
      destruct (built_pattern_group i n p Hi Hw Hp) as (tx & g & Hid & Hg & Ht & Hgp & Htx).
      exists tx. split; [done|]. apply elem_of_app. right.
      pose proof (built_group best Hbin) as Hpb.
      destruct (proj1 (b_pattern _ _ _ _ _ HB (text best) (default 0 (head (senders best)))))
        as (jb & Hjb & Hwb & _).
      { exists best. split_and!; [done|done|]. pose proof (b_nonempty _ _ _ _ _ HB best Hbin).
        destruct (senders best); [done|]. left. }
      specialize (Hbeats _ _ _ Hjb Hwb Hpb Hmb).
      apply list_elem_of_lookup in Hg as (k & Hk).
      assert (Hle : specificity p (pattern best) <> Gt).
      { rewrite <- Hgp. apply (Hall (k, g)). apply Hcand. by rewrite Hgp. }
      assert (Hs : specificity p (pattern best) = Eq).
      { unfold specificity in *. rewrite lex_compare_opp in Hbeats.
        destruct (lex_compare _ _); [done|done|]. by destruct Hle. }
      pose proof (equal_specificity_same_text _ _ _ _ _ Hp Hpb Hm Hmb Hs) as Htext.
      assert (k = b) as ->; [|congruence].
      eapply (wf_lookup_text (patterns r)); [apply (b_groups _ _ _ _ _ HB)|done|done|]. congruence.
  - split.
    + intros (tx & Hid & Hin). rewrite app_nil_r in Hin.
      apply (built_exact_position _ _ _ Hid) in Hin as [Hi Hw]. specialize (Hno _ Hi). congruence.
    + intros (n & Hi & [[Hw ->]|(Hw & _ & p & Hp & Hm & _)]); [by specialize (Hno _ Hi); congruence|].
      destruct (built_pattern_group i n p Hi Hw Hp) as (tx & g & Hid & Hg & _ & Hgp & _).
      apply list_elem_of_lookup in Hg as (k & Hk). apply max_by_None in Hmax.
      assert (Hin : (k, g) ∈ ([] : list (nat * PatternGroup nat))).
      { rewrite <- Hmax. apply Hcand. by rewrite Hgp. }
      by apply not_elem_of_nil in Hin.
Qed.
End built.
End memory.

End Memory.
