(* ===== verification/MemoryBroker.v ===== *)
(** * What the in-memory broker promises ([crates/memory/src/lib.rs], [broker.rs], [capability/])

    The theorems about the definitions of [Memory]: what a publish delivers, the harness's routing
    rule against the broker's own, the lifecycle, the transactions and the request inboxes. *)
From Stdlib Require Import Ascii String.
From S2P Require Import Prelude RustStd Pattern Headers Queue Log Memory.

Module MemoryBroker.
Import Memory.

Section broker.
Context {C : Type -> Type} `{Unbounded C} `{!UnboundedLaws C}.

Abbreviation MemoryState := (@MemoryState C).

(** Publishing through one handle, in order; the refusals are kept apart. *)
Fixpoint publish_all (s : MemoryState) (p : Publisher) (ms : list MemoryOutbound)
  : MemoryState * Publisher * list (MemoryError * MemoryOutbound) :=
  match ms with
  | [] => (s, p, [])
  | m :: rest =>
      match publish s p m with
      | (s, p, Ok _) => publish_all s p rest
      | (s, p, Err e) => let '(s, p, es) := publish_all s p rest in (s, p, e :: es)
      end
  end.

Lemma publish_all_buffers (s : MemoryState) b ms :
  publish_all s (Some b) ms = (s, Some (b ++ ms), []).
Proof.
  revert b. induction ms as [|m ms IH]; intros b; simpl; [by rewrite app_nil_r|].
  by rewrite IH, <- app_assoc.
Qed.

Lemma published_bus (s : MemoryState) r x :
  bus (published s r x) = bus s /\ notified (published s r x) = S (notified s) /\
  recording (published s r x) = recording s /\
  log (published s r x) = (if recording s then fst (Log.append (log s) x) else log s).
Proof.
  unfold published, append_log. destruct (recording s) eqn:Hr; [|done].
  by destruct (Log.append (log s) x).
Qed.

Lemma published_length (s : MemoryState) r x :
  length (channels (published s r x)) = length (channels s).
Proof. unfold published. destruct (append_log s x). simpl. by rewrite send_to_length. Qed.

Lemma flush_live (s : MemoryState) r ms :
  bus s = Live r ->
  exists s', flush s ms = (s', Ok tt) /\ publish_all s None ms = (s', None, []) /\ bus s' = Live r.
Proof.
  revert s. induction ms as [|m ms IH]; intros s Hb; simpl; [by exists s|].
  unfold fanout. rewrite (fanout_live _ _ _ _ _ Hb). simpl.
  apply IH. by rewrite (proj1 (published_bus _ _ _)).
Qed.

Lemma fanout_down (s : MemoryState) rt n body hs :
  bus s = Down rt -> fanout_unsent s n body hs = (s, Err (mk_unsent ShutDown body hs)).
Proof. intros Hb. unfold fanout_unsent. by rewrite Hb. Qed.

Lemma flush_down (s : MemoryState) rt m ms :
  bus s = Down rt -> flush s (m :: ms) = (s, Err ShutDown).
Proof. intros Hb. simpl. unfold fanout. by rewrite (fanout_down _ _ _ _ _ Hb). Qed.

(** Nobody reads a bus that was just revived. *)
Lemma revived_targets (s : MemoryState) rt n : targets s (new_registry rt) n = [].
Proof.
  unfold targets, exact_senders. simpl. rewrite lookup_empty. simpl.
  by rewrite reach_no_patterns.
Qed.

Lemma registry_len_senders (r : Registry) : registry_len r = length (all_senders r).
Proof.
  unfold registry_len, all_senders, values. rewrite length_app, !length_concat, <- !list_fmap_compose.
  done.
Qed.

Lemma unregister_name (s : MemoryState) name r :
  bus (unregister s name) = Live r ->
  names r !! name = None /\ exists r0, bus s = Live r0 /\ forall n, n <> name -> names r !! n = names r0 !! n.
Proof.
  unfold unregister. destruct (bus s) as [r0|rt] eqn:Hb; simpl.
  - destruct (recording s); simpl; intros [= <-]; simpl; (split; [apply lookup_delete_eq|]; exists r0;
      split; [done|]; intros n Hn; by rewrite lookup_delete_ne).
  - destruct (recording s); simpl; congruence.
Qed.

Lemma string_append_inj (p a b : string) : String.append p a = String.append p b -> a = b.
Proof. induction p as [|c p IH]; simpl; [done|]. intros [= Heq]. auto. Qed.

Lemma string_append_length (p a : string) : String.length (String.append p a) = String.length p + String.length a.
Proof. induction p; simpl; auto. Qed.

Lemma print_digits_length fuel n rest :
  String.length (print_digits fuel n rest) <= fuel + String.length rest.
Proof.
  revert n rest. induction fuel as [|fuel IH]; intros n rest; simpl; [lia|].
  destruct (N.eqb (n / 10) 0); simpl; [lia|]. etrans; [apply IH|]. simpl. lia.
Qed.

(** ** Properties *)

(** C28. A publish on a live bus always succeeds and gives every open channel its name, or a pattern
    the routing chose, targets exactly one copy, after whatever the channel held; no other channel
    changes, the log takes the message exactly when the broker records, and one notification
    fires.  Under [EveryMatch] the targets are the readers of the name and of every matching
    pattern; under [MostSpecific] a live reader of the name shuts the patterns out.  On a bus that
    is shut down nothing changes and the message comes back with the error. *)
Theorem memory_publish_delivers (s : MemoryState) n body hs :
  reachable s ->
  let x := Log.mk_inner n body hs in
  let (s', res) := fanout_unsent s n body hs in
  match bus s with
  | Down _ => s' = s /\ res = Err (mk_unsent ShutDown body hs)
  | Live r =>
      res = Ok tt /\ bus s' = bus s /\ notified s' = S (notified s) /\
      log s' = (if recording s then fst (Log.append (log s) x) else log s) /\
      length (channels s') = length (channels s) /\
      (forall tx c, channels s !! tx = Some c -> exists c', channels s' !! tx = Some c' /\
         if bool_decide (tx ∈ targets s r n) && negb (ch_is_closed c)
         then received (mk_delivery x (snd (append_log s x)) 1) c c' else c' = c) /\
      (registry_routing r = EveryMatch -> forall tx, tx ∈ targets s r n <->
         tx ∈ exact_senders r n \/
         exists g, g ∈ patterns r /\ matches (pattern g) n = true /\ tx ∈ senders g) /\
      (registry_routing r = MostSpecific -> exact_live s r n = true ->
         targets s r n = exact_senders r n)
  end.
Proof.
  intros Hreach x. pose proof (bus_reachable_wf s Hreach) as Hwf. unfold mem_wf in Hwf.
  destruct (bus s) as [r|rt] eqn:Hb; cycle 1.
  { by rewrite (fanout_down _ _ _ _ _ Hb). }
  rewrite (fanout_live _ _ _ _ _ Hb). fold x. destruct (published_bus s r x) as (H1 & H2 & _ & H3).
  split_and!; [done|by rewrite H1|done|done|apply published_length| | |].
  - intros tx c Hc. by apply published_channel.
  - intros Hrt tx. unfold targets. by rewrite Hrt, elem_of_app, reached_every.
  - intros Hrt Hlive. unfold targets. rewrite Hrt, Hlive. simpl. apply app_nil_r.
Qed.

(** The harness counts the deliveries a publish owes by a rule of its own; opening any list of
    subscriptions, names and patterns alike, on a fresh bus and publishing reaches exactly the
    positions that rule names, under both routing policies. *)
Theorem harness_routes_agree (s : MemoryState) rt subs dest i :
  bus s = Live (new_registry rt) -> channels s = [] ->
  let (s', ids) := open_all s subs in
  exists r, bus s' = Live r /\ registry_routing r = rt /\
  (i ∈ routes rt dest subs <-> exists tx, ids !! i = Some (Some tx) /\ tx ∈ targets s' r dest).
Proof.
  intros Hb Hc. destruct (open_all_built rt s subs Hb Hc) as (r & HB).
  destruct (open_all s subs) as [s' ids]. simpl in HB.
  exists r. split; [apply (b_bus _ _ _ _ _ HB)|]. split; [apply (b_routing _ _ _ _ _ HB)|].
  rewrite routes_receives. destruct rt.
  - by rewrite (targets_receives_every HB dest i eq_refl).
  - by rewrite (targets_receives_most HB dest i eq_refl).
Qed.

(** A shutdown reports every registered subscription, empties the registry and nothing else;
    until the next connect every publish, subscription and request is refused with the documented
    error and delivers nothing; a connect revives the bus under the same routing with no reader
    left over, and on a live bus changes nothing. *)
Theorem memory_lifecycle (s : MemoryState) :
  let (d, dropped) := shutdown s in
  dropped = match bus s with Live r => length (all_senders r) | Down _ => 0 end /\
  bus d = Down (routing s) /\ routing d = routing s /\ channels d = channels s /\ log d = log s /\
  (forall n body hs, fanout_unsent d n body hs = (d, Err (mk_unsent ShutDown body hs))) /\
  (forall n, snd (subscribe d n) = Err (if has_wildcard n then WildcardName n else ShutDown) /\
     bus (fst (subscribe d n)) = bus d) /\
  (forall t, (exists e, snd (subscribe_pattern d t) = Err e) /\ bus (fst (subscribe_pattern d t)) = bus d) /\
  (forall m, snd (request_start d m) = Err RequestShutDown /\ bus (fst (request_start d m)) = bus d) /\
  shutdown d = (d, 0) /\
  bus (connect d) = Live (new_registry (routing s)) /\ channels (connect d) = channels s /\
  (forall n, targets (connect d) (new_registry (routing s)) n = []) /\
  (forall r, bus s = Live r -> connect s = s).
Proof.
  unfold shutdown. split_and!; try done.
  - destruct (bus s); [apply registry_len_senders|done].
  - intros n. unfold subscribe. by destruct (has_wildcard n).
  - intros t. unfold subscribe_pattern. destruct (parse t) as [p|e]; simpl; (split; [by eexists|done]).
  - intros n. apply revived_targets.
  - intros r Hb. unfold connect. by rewrite Hb.
Qed.

(** Between [begin] and its end a handle's publishes touch no broker state; a commit on a live
    bus is the same as publishing the buffer directly in order; a commit on a bus shut down since
    fails, delivers nothing and drops the buffer; an abort delivers nothing; [begin] twice, and
    [commit] or [abort] with nothing open, are refused and change nothing; a clone starts with no
    transaction, and an owned transaction buffers and flushes the same way. *)
Theorem memory_transaction_correct (s : MemoryState) (ms : list MemoryOutbound) :
  begin_transaction publisher = (Some [], Ok tt) /\
  publish_all s (Some []) ms = (s, Some ms, []) /\
  fold_left txn_publish ms transaction = mk_txn ms false /\
  (forall r, bus s = Live r -> exists s',
     publish_all s publisher ms = (s', None, []) /\ commit s (Some ms) = (s', None, Ok tt) /\
     txn_commit s (mk_txn ms false) = (s', mk_txn [] true, Ok tt)) /\
  (forall rt, bus s = Down rt -> ms <> [] ->
     commit s (Some ms) = (s, None, Err ShutDown) /\
     txn_commit s (mk_txn ms false) = (s, mk_txn [] true, Err ShutDown)) /\
  abort (Some ms) = (None, Ok tt) /\
  begin_transaction (Some ms) = (Some ms, Err TransactionBusy) /\
  commit s None = (s, None, Err NoTransaction) /\ abort None = (None, Err NoTransaction) /\
  clone_publisher (Some ms) = publisher.
Proof.
  split_and!; try done.
  - by rewrite publish_all_buffers.
  - enough (forall b, fold_left txn_publish ms (mk_txn b false) = mk_txn (b ++ ms) false) as Hf by apply (Hf []).
    induction ms as [|m ms IH]; intros b; simpl; [by rewrite app_nil_r|].
    unfold txn_publish at 2. simpl. by rewrite IH, <- app_assoc.
  - intros r Hb. destruct (flush_live s r ms Hb) as (s' & Hf & Hp & _). exists s'.
    unfold commit, txn_commit. simpl. by rewrite Hf.
  - intros rt Hb Hne. destruct ms as [|m ms]; [done|]. unfold commit, txn_commit. simpl buffered.
    by rewrite (flush_down s rt m ms Hb).
Qed.

(** A request registers an inbox no other outstanding request has (the names of two ids differ,
    and one takes at most 27 bytes of the 32 of its buffer), publishes the message with the inbox
    as its only changed header, and a publish to the inbox then reaches the request's channel; the
    first reply waiting is the result, none is the timeout; and however it ends, the inbox is
    registered no longer and no other name is touched. *)
Theorem request_reply_correct (s : MemoryState) m r :
  reachable s -> bus s = Live r ->
  let inbox := inbox_name (inbox_seq s) in
  let tx := length (channels s) in
  (forall a b, (a <= u64_max)%N -> (b <= u64_max)%N -> inbox_name a = inbox_name b -> a = b) /\
  (forall a, length (as_bytes (inbox_name a)) <= 27) /\
  exists s' s1 r' hs, request_start s m = (s', Ok (inbox, tx)) /\
    s' = published s1 r' (Log.mk_inner (out_name m) (out_payload m) hs) /\
    hs = fst (HeaderMap.insert_header (out_headers m) "reply-to" (as_bytes inbox)) /\
    channels s1 = channels s ++ [ch_new] /\ bus s' = Live r' /\ tx ∈ targets s' r' inbox /\
    (forall n, n <> inbox -> names r' !! n = names r !! n) /\ patterns r' = patterns r /\
    inbox_seq s' = wrapping_add u64_max (inbox_seq s) 1 /\
    forall s2 c subject wait, channels s2 !! tx = Some c ->
      snd (request_finish s2 inbox tx subject wait) =
        match ch_items c with d :: _ => Ok d | [] => Err (Timeout subject wait) end /\
      (forall r2, bus (fst (request_finish s2 inbox tx subject wait)) = Live r2 ->
        names r2 !! inbox = None /\
        exists r0, bus s2 = Live r0 /\ forall n, n <> inbox -> names r2 !! n = names r0 !! n).
Proof.
  intros Hreach Hb inbox tx. split; [|split].
  - intros a b Ha Hbb Heq. apply string_append_inj in Heq.
    pose proof (u64_parse_to_string a Ha) as H1. rewrite Heq, u64_parse_to_string in H1 by done. congruence.
  - intros a. rewrite as_bytes_length. unfold inbox_name, u64_to_string.
    rewrite string_append_length. etrans; [apply Nat.add_le_mono_l, print_digits_length|]. cbn [String.length]. lia.
  - set (r' := mk_registry (<[inbox := default [] (names r !! inbox) ++ [tx]]> (names r)) (patterns r)
      (registry_routing r)).
    set (s1 := mk_state (Live r') (log s) (recording s) (notified s) (wrapping_add u64_max (inbox_seq s) 1)
      (channels s ++ [ch_new])).
    set (hs := fst (HeaderMap.insert_header (out_headers m) "reply-to" (as_bytes inbox))).
    exists (published s1 r' (Log.mk_inner (out_name m) (out_payload m) hs)), s1, r', hs.
    pose proof (published_bus s1 r' (Log.mk_inner (out_name m) (out_payload m) hs)) as (Hpb & _ & _ & _).
    assert (Hstart : request_start s m =
      (published s1 r' (Log.mk_inner (out_name m) (out_payload m) hs), Ok (inbox, tx))).
    { unfold request_start, unbounded_channel, register. fold inbox hs. cbn [set_channels bus channels].
      rewrite Hb. cbn [set_bus bus channels]. fold tx r'.
      change (mk_state (Live r') _ _ _ _ _) with s1. unfold fanout. by rewrite (fanout_live s1 r'). }
    split; [exact Hstart|]. do 3 (split; [reflexivity|]). split; [exact Hpb|]. split_and!.
    + apply elem_of_app. left. unfold exact_senders, r'. cbn [names]. rewrite lookup_insert_eq. simpl.
      apply elem_of_app. right. left.
    + intros n Hn. simpl. by rewrite lookup_insert_ne.
    + done.
    + unfold published. by destruct (append_log _ _).
    + intros s2 c subject wait Hc. unfold request_finish. rewrite Hc. split.
      * destruct (ch_items c) as [|d rest] eqn:Hi.
        -- by rewrite ch_try_recv_empty.
        -- by destruct (ch_try_recv_first c d rest Hi) as (c' & -> & _).
      * intros r2. destruct (ch_try_recv c) as [[d c']|]; simpl; [|apply unregister_name].
        intros Hr. destruct (unregister_name _ _ _ Hr) as (? & r0 & Hb0 & ?). split; [done|].
        by exists r0.
Qed.
End broker.

(** ** Witnesses, over channels that are lists *)

Definition start : @MemoryState LChannel := discarding.
Definition m1 : MemoryOutbound := mk_outbound "orders.eu" (as_bytes "one") HeaderMap.new.
Definition read_orders : @MemoryState LChannel :=
  run (run (run start (Subscribe "orders.eu")) (SubscribePattern "orders.>")) (Subscribe "audit").

Lemma read_orders_reachable : reachable read_orders.
Proof. repeat apply reach_step. apply reach_discarding. Qed.

Lemma memory_publish_delivers_witness :
  let s' := fst (fanout_unsent read_orders "orders.eu" (as_bytes "one") HeaderMap.new) in
  exists c, channels s' !! 1 = Some c /\ length (ch_items c) = 1.
Proof.
  pose proof (memory_publish_delivers read_orders "orders.eu" (as_bytes "one") HeaderMap.new
    read_orders_reachable) as Hd.
  destruct (fanout_unsent _ _ _ _) as [s' res]. destruct (bus read_orders) as [r|] eqn:Hb; [|discriminate Hb].
  destruct Hd as (_ & _ & _ & _ & _ & Hc & _ & _). destruct (Hc 1 ch_new eq_refl) as (c' & Hc' & Hr).
  exists c'. split; [exact Hc'|]. injection Hb as <-.
  replace (bool_decide _ && _) with true in Hr by (vm_compute; reflexivity).
  destruct Hr as [-> _]. reflexivity.
Defined.

Lemma harness_routes_agree_witness :
  exists tx, snd (open_all start ["orders.eu"; "orders.*"; "orders.>"]) !! 1 = Some (Some tx).
Proof.
  pose proof (harness_routes_agree start EveryMatch ["orders.eu"; "orders.*"; "orders.>"] "orders.us" 1
    eq_refl eq_refl) as Hr.
  destruct (open_all _ _) as [s' ids]. destruct Hr as (r & _ & _ & Hiff).
  destruct (proj1 Hiff) as (tx & Htx & _); [|by exists tx].
  assert (Hrt : routes EveryMatch "orders.us" ["orders.eu"; "orders.*"; "orders.>"] = [1; 2])
    by (vm_compute; reflexivity).
  rewrite Hrt. left.
Defined.

Lemma memory_transaction_correct_witness :
  exists s', commit read_orders (Some [m1; m1]) = (s', None, Ok tt) /\ publish_all read_orders publisher [m1; m1] = (s', None, []).
Proof.
  destruct (memory_transaction_correct read_orders [m1; m1]) as (_ & _ & _ & Hl & _).
  destruct (bus read_orders) as [r|] eqn:Hb; [|discriminate Hb].
  destruct (Hl r eq_refl) as (s' & Hp & Hc & _). by exists s'.
Defined.

Lemma request_reply_correct_witness :
  exists s', request_start read_orders m1 = (s', Ok ("_inbox.0", 3)).
Proof.
  destruct (bus read_orders) as [r|] eqn:Hb; [|discriminate Hb].
  destruct (request_reply_correct read_orders m1 r read_orders_reachable Hb)
    as (_ & _ & s' & s1 & r' & hs & Hs & _).
  exists s'. exact Hs.
Defined.

End MemoryBroker.
