(* ===== verification/FixedBus.v ===== *)
(** * The fixed local bus ([crates/memory/src/local/fixed])

    A bus in a static: a fixed table of subscription slots, each a bounded queue plus the count of
    deliveries in a handler's hands.  Operations run inside one critical section each, so each is a
    function on the bus state.  [None] is the code's panic ([unreachable!]); the woken wakers are
    returned beside the state.  The production build is modelled (the [testing] feature off). *)
From Stdlib Require Import Ascii String.
From S2P Require Import Prelude RustStd Headers FixedBuf Queue.

Module FixedBus.

Definition NAME_BYTES : nat := 64.

Inductive LocalMemoryError :=
  | ShutDown
  | Full (capacity : nat)
  | PayloadTooLarge (size capacity : nat)
  | NoFreeSubscription (capacity : nat)
  | NameTooLong (capacity : nat).

(** [LocalMemoryError::cause]: the text and the code an acknowledgement error carries. *)
Definition cause (e : LocalMemoryError) : string * nat :=
  match e with
  | ShutDown => ("the local memory broker is shut down", 1)
  | Full _ => ("a subscription is full", 2)
  | PayloadTooLarge _ _ => ("the payload does not fit a message", 3)
  | NoFreeSubscription _ => ("every subscription is open", 4)
  | NameTooLong _ => ("the subscription name is too long", 5)
  end.

Inductive SlotName :=
  | Static (name : string)
  | Built (name : string).

Definition built (name : string) : option SlotName :=
  if String.length name <=? NAME_BYTES then Some (Built name) else None.
Definition as_str (n : SlotName) : string :=
  match n with Static name => name | Built name => name end.

Inductive Standing := Free | Open | Closed.
#[export] Instance Standing_eq_dec : EqDecision Standing.
Proof. solve_decision. Defined.

Record Held := mk_held { index : nat; held_generation : N }.
#[export] Instance Held_eq_dec : EqDecision Held.
Proof. solve_decision. Defined.

Section bus.
Context {Q : Type -> Type} `{BoundedQueue Q}.
Context {R : Type} `{WakerRegistration R}.
Context {HM : Type} `{HeaderStore HM}.
Context (MESSAGES PAYLOAD SUBSCRIPTIONS : nat).

Record Delivery := mk_delivery {
  payload : Buf.FixedBuf;
  headers : HM;
  deliveries : N;
}.

Definition delivery_count_of (headers : HM) : N :=
  match hs_get_str headers RETRY_COUNT_HEADER ≫= u64_parse with
  | Some retried => saturating_add u64_max 1 retried
  | None => 1
  end.

Record Slot := mk_slot {
  generation : N;
  standing : Standing;
  slot_name : option SlotName;
  queue : Q Delivery;
  in_hand : nat;
  reader : R;
}.

Definition new_slot : Slot := mk_slot 0 Free None (bq_new MESSAGES) 0 wr_new.

Definition reads (s : Slot) (name : string) : bool :=
  bool_decide (standing s = Open) &&
  match slot_name s with
  | Some own => String.eqb (as_str own) name
  | None => false
  end.

Definition has_room (s : Slot) : bool := bq_len (queue s) + in_hand s <? MESSAGES.

(** The pushed delivery and the waker it woke; [None] is the [unreachable!]. *)
Definition enqueue (s : Slot) (d : Delivery) : option (Slot * option nat) :=
  match bq_push (queue s) d with
  | None => None
  | Some q =>
      let (r, woken) := wr_wake (reader s) in
      Some (mk_slot (generation s) (standing s) (slot_name s) q (in_hand s) r, woken)
  end.

Record BusState := mk_bus { live : bool; slots : list Slot }.

Definition new_bus : BusState := mk_bus false (replicate SUBSCRIPTIONS new_slot).

Definition slot (b : BusState) (held : Held) : option Slot :=
  s ← slots b !! index held;
  if N.eqb (generation s) (held_generation held) && negb (bool_decide (standing s = Free))
  then Some s else None.

Definition set_slot (b : BusState) (held : Held) (s : Slot) : BusState :=
  mk_bus (live b) (<[index held := s]> (slots b)).

Definition connect (b : BusState) : BusState := mk_bus true (slots b).

Definition subscribe (b : BusState) (name : SlotName) : BusState * result Held LocalMemoryError :=
  if negb (live b) then (b, Err ShutDown)
  else
    match position (fun s => bool_decide (standing s = Free)) (slots b) with
    | None => (b, Err (NoFreeSubscription SUBSCRIPTIONS))
    | Some i =>
        match slots b !! i with
        | None => (b, Err (NoFreeSubscription SUBSCRIPTIONS))
        | Some s =>
            let generation := wrapping_add u32_max (generation s) 1 in
            (mk_bus (live b)
               (<[i := mk_slot generation Open (Some name) (queue s) (in_hand s) (reader s)]>
                  (slots b)),
             Ok (mk_held i generation))
        end
    end.

(** [ConnectedLocalMemoryBroker::subscribe]. *)
Definition subscribe_named (b : BusState) (name : string)
  : BusState * result Held LocalMemoryError :=
  match built name with
  | None => (b, Err (NameTooLong NAME_BYTES))
  | Some name => subscribe b name
  end.

Definition unsubscribe (b : BusState) (held : Held) : BusState :=
  match slot b held with
  | Some s => set_slot b held (mk_slot (generation s) Free None (bq_new MESSAGES) 0 wr_new)
  | None => b
  end.

Fixpoint close_slots (l : list Slot) : list Slot * list nat * nat :=
  match l with
  | [] => ([], [], 0)
  | s :: rest =>
      let '(rest, woken, closed) := close_slots rest in
      if bool_decide (standing s = Open) then
        let (r, w) := wr_wake (reader s) in
        (mk_slot (generation s) Closed (slot_name s) (queue s) (in_hand s) r :: rest,
         option_list w ++ woken, S closed)
      else (s :: rest, woken, closed)
  end.

Definition shut_down (b : BusState) : BusState * list nat * nat :=
  let '(l, woken, closed) := close_slots (slots b) in (mk_bus false l, woken, closed).

Definition take_in_hand (s : Slot) (q : Q Delivery) : Slot :=
  mk_slot (generation s) (standing s) (slot_name s) q (S (in_hand s)) (reader s).

Definition poll_next (b : BusState) (held : Held) (waker : nat) : BusState * poll Delivery :=
  match slot b held with
  | None => (b, Ready None)
  | Some s =>
      match bq_pop (queue s) with
      | Some (d, q) => (set_slot b held (take_in_hand s q), Ready (Some d))
      | None =>
          if bool_decide (standing s = Closed) then (b, Ready None)
          else (set_slot b held (mk_slot (generation s) (standing s) (slot_name s) (queue s)
                                   (in_hand s) (wr_register (reader s) waker)), Pending)
      end
  end.

Definition try_next (b : BusState) (held : Held) : BusState * option Delivery :=
  match slot b held with
  | None => (b, None)
  | Some s =>
      match bq_pop (queue s) with
      | Some (d, q) => (set_slot b held (take_in_hand s q), Some d)
      | None => (b, None)
      end
  end.

Definition may_be_ready (b : BusState) (held : Held) : bool :=
  match slot b held with
  | None => true
  | Some s => negb (Nat.eqb (bq_len (queue s)) 0) || bool_decide (standing s = Closed)
  end.

Definition settle (b : BusState) (held : Held) : BusState :=
  match slot b held with
  | Some s =>
      set_slot b held (mk_slot (generation s) (standing s) (slot_name s) (queue s)
                         (in_hand s - 1) (reader s))
  | None => b
  end.

Definition requeue (b : BusState) (held : Held) (d : Delivery)
  : option (BusState * option nat * result unit LocalMemoryError) :=
  match slot b held with
  | Some s =>
      if bool_decide (standing s = Open) then
        match enqueue s d with
        | Some (s, woken) => Some (set_slot b held s, woken, Ok tt)
        | None => None
        end
      else Some (b, None, Err ShutDown)
  | None => Some (b, None, if live b then Ok tt else Err ShutDown)
  end.

(** The loop of [fanout]: the last reader takes the delivery, the earlier ones a clone. *)
Fixpoint fan (name : string) (readers : nat) (d : option Delivery) (l : list Slot)
  : option (list Slot * list nat) :=
  match l with
  | [] => Some ([], [])
  | s :: rest =>
      if reads s name then
        let readers := readers - 1 in
        let (copy, d) := if Nat.eqb readers 0 then (d, None) else (d, d) in
        match copy with
        | Some copy =>
            '(s, woken) ← enqueue s copy;
            '(rest, more) ← fan name readers d rest;
            Some (s :: rest, option_list woken ++ more)
        | None => '(rest, more) ← fan name readers d rest; Some (s :: rest, more)
        end
      else '(rest, more) ← fan name readers d rest; Some (s :: rest, more)
  end.

Definition fanout (b : BusState) (name : string) (body : bytes) (hs : HM)
  : option (BusState * list nat * result unit LocalMemoryError) :=
  if negb (live b) then Some (b, [], Err ShutDown)
  else if existsb (fun s => reads s name && negb (has_room s)) (slots b)
  then Some (b, [], Err (Full MESSAGES))
  else
    let readers := length (List.filter (fun s => reads s name) (slots b)) in
    if Nat.eqb readers 0 then Some (b, [], Ok tt)
    else
      match Buf.try_from PAYLOAD body with
      | Err _ => Some (b, [], Err (PayloadTooLarge (length body) PAYLOAD))
      | Ok payload =>
          let d := mk_delivery payload hs (delivery_count_of hs) in
          '(l, woken) ← fan name readers (Some d) (slots b);
          Some (mk_bus (live b) l, woken, Ok tt)
      end.

(** ** Messages ([LocalMemoryMessage]) *)

Record Message := mk_message { delivery : Delivery; settled : bool; msg_held : Held }.

(** [LocalMemoryMessage::requeue]: the delivery goes back counting once more. *)
Definition redelivered (d : Delivery) : Delivery :=
  mk_delivery (payload d) (headers d) (saturating_add u64_max (deliveries d) 1).

Definition requeue_message (b : BusState) (m : Message)
  : option (BusState * option nat * Message * result unit LocalMemoryError) :=
  '(b, woken, r) ← requeue b (msg_held m) (redelivered (delivery m));
  Some (b, woken,
        mk_message (mk_delivery (Buf.new PAYLOAD) hs_new (deliveries (delivery m))) true (msg_held m), r).

(** [Drop]. *)
Definition drop_message (b : BusState) (m : Message) : option (BusState * option nat) :=
  if settled m then Some (settle b (msg_held m), None)
  else
    '(b, woken, m, _) ← requeue_message b m;
    Some (settle b (msg_held m), woken).

(** [ack] and [nack] consume the message, so each ends in its drop. *)
Definition ack (b : BusState) (m : Message) : option (BusState * option nat * result unit LocalMemoryError) :=
  '(b, woken) ← drop_message b (mk_message (delivery m) true (msg_held m));
  Some (b, woken, Ok tt).

Definition nack (b : BusState) (m : Message) (requeue : bool)
  : option (BusState * option nat * result unit LocalMemoryError) :=
  if negb requeue then ack b m
  else
    '(b, woken, m, r) ← requeue_message b m;
    '(b, _) ← drop_message b m;
    Some (b, woken, r).

(** [Batches::poll_fill]: the first delivery is polled for, the rest taken while they wait. *)
Fixpoint fill (fuel : nat) (b : BusState) (held : Held) (limit : nat) (taken : list Delivery)
  : BusState * list Delivery :=
  match fuel with
  | 0 => (b, taken)
  | S fuel =>
      if length taken <? limit then
        match try_next b held with
        | (b, Some d) => fill fuel b held limit (taken ++ [d])
        | (b, None) => (b, taken)
        end
      else (b, taken)
  end.

Definition poll_fill (b : BusState) (held : Held) (size waker : nat) : BusState * poll (list Delivery) :=
  match poll_next b held waker with
  | (b, Pending) => (b, Pending)
  | (b, Ready None) => (b, Ready None)
  | (b, Ready (Some first)) =>
      let limit := Nat.min size MESSAGES in
      let (b, batch) := fill limit b held limit [first] in (b, Ready (Some batch))
  end.
End bus.

Arguments Ready {A} x.
Arguments Pending {A}.

(** ** The bus with its clients: who holds subscriptions and deliveries *)

Section system.
Context {Q : Type -> Type} `{BoundedQueue Q} `{!BoundedQueueLaws Q}.
Context {R : Type} `{WakerRegistration R} `{!WakerRegistrationLaws R}.
Context {HM : Type} `{HeaderStore HM}.
Context (MESSAGES PAYLOAD SUBSCRIPTIONS : nat).

Abbreviation Slot := (@Slot Q R HM).
Abbreviation Message := (@Message HM).
Abbreviation BusState := (@BusState Q R HM).

(** The subscribers that were not dropped and the messages that were not settled or dropped. *)
Record World := mk_world {
  bus : BusState;
  subscribers : list Held;
  messages : list Message;
}.

Inductive Verb := VAck | VNack (requeue : bool) | VDrop.

Inductive Op :=
  | Connect
  | ShutDownBus
  | Subscribe (name : SlotName)
  | DropSubscriber (i : nat)
  | Publish (name : string) (body : bytes) (hs : HM)
  | Poll (i waker : nat)
  | TryNext (i : nat)
  | Settle (i : nat) (verb : Verb).

Definition hand_over (held : Held) (ds : list (@Delivery HM)) : list Message :=
  (fun d => mk_message d false held) <$> ds.

(** The bus after a settlement, and the waker it woke. *)
Definition settled_with (b : BusState) (m : Message) (verb : Verb) : option (BusState * option nat) :=
  match verb with
  | VAck => '(b, woken, _) ← ack PAYLOAD b m; Some (b, woken)
  | VNack requeue => '(b, woken, _) ← nack PAYLOAD b m requeue; Some (b, woken)
  | VDrop => drop_message PAYLOAD b m
  end.
Definition settle_with (b : BusState) (m : Message) (verb : Verb) : option BusState :=
  fst <$> settled_with b m verb.

(** One operation by a client, with the wakers it woke; an index nobody holds is no operation. *)
Definition step (w : World) (op : Op) : option (World * list nat) :=
  match op with
  | Connect => Some (mk_world (connect (bus w)) (subscribers w) (messages w), [])
  | ShutDownBus =>
      let '(b, woken, _) := shut_down (bus w) in Some (mk_world b (subscribers w) (messages w), woken)
  | Subscribe name =>
      let (b, r) := subscribe SUBSCRIPTIONS (bus w) name in
      Some (mk_world b (match r with Ok held => held :: subscribers w | Err _ => subscribers w end)
              (messages w), [])
  | DropSubscriber i =>
      match subscribers w !! i with
      | Some held => Some (mk_world (unsubscribe MESSAGES (bus w) held)
                            (delete i (subscribers w)) (messages w), [])
      | None => Some (w, [])
      end
  | Publish name body hs =>
      '(b, woken, _) ← fanout MESSAGES PAYLOAD (bus w) name body hs;
      Some (mk_world b (subscribers w) (messages w), woken)
  | Poll i waker =>
      match subscribers w !! i with
      | Some held =>
          let (b, p) := poll_next (bus w) held waker in
          Some (mk_world b (subscribers w)
                  (match p with
                   | Ready (Some d) => hand_over held [d] ++ messages w
                   | _ => messages w
                   end), [])
      | None => Some (w, [])
      end
  | TryNext i =>
      match subscribers w !! i with
      | Some held =>
          let (b, d) := try_next (bus w) held in
          Some (mk_world b (subscribers w) (hand_over held (option_list d) ++ messages w), [])
      | None => Some (w, [])
      end
  | Settle i verb =>
      match messages w !! i with
      | Some m =>
          '(b, woken) ← settled_with (bus w) m verb;
          Some (mk_world b (subscribers w) (delete i (messages w)), option_list woken)
      | None => Some (w, [])
      end
  end.
Definition run (w : World) (op : Op) : option World := fst <$> step w op.

(** *** The readers that sleep

    A reader sleeps on the waker of its last poll, which answered [Pending], until an operation wakes
    that waker; a new poll or the drop of the subscriber ends the sleep too. *)
Definition Sleeper : Type := Held * nat.

Definition reader_of (w : World) (op : Op) : option Held :=
  match op with Poll i _ | DropSubscriber i => subscribers w !! i | _ => None end.

Definition falls_asleep (w : World) (op : Op) : option Sleeper :=
  match op with
  | Poll i waker =>
      match subscribers w !! i with
      | Some held => match snd (poll_next (bus w) held waker) with Pending => Some (held, waker) | _ => None end
      | None => None
      end
  | _ => None
  end.

Definition sleeps_on (w : World) (op : Op) (woken : list nat) (sl : Sleeper) : bool :=
  negb (bool_decide (reader_of w op = Some (fst sl))) && negb (bool_decide (snd sl ∈ woken)).

Definition watch (w : World) (asleep : list Sleeper) (op : Op) : option (World * list Sleeper) :=
  '(w', woken) ← step w op;
  Some (w', option_list (falls_asleep w op) ++ List.filter (sleeps_on w op woken) asleep).

(** *** The invariant *)

Definition at_index (i : nat) (ms : list Message) : list Message :=
  List.filter (fun m => Nat.eqb (index (msg_held m)) i) ms.
Definition holders (held : Held) (ms : list Message) : nat :=
  length (List.filter (fun m => bool_decide (msg_held m = held)) ms).

Record slot_ok (ms : list Message) (i : nat) (s : Slot) : Prop := {
  ok_capacity : bq_capacity (queue s) = MESSAGES;
  (** every delivery in hand keeps the place it would come back to *)
  ok_room : length (bq_items (queue s)) + in_hand s <= MESSAGES;
  ok_in_hand : standing s <> Free ->
    in_hand s = holders (mk_held i (generation s)) (at_index i ms);
  ok_free : standing s = Free -> bq_items (queue s) = [] /\ in_hand s = 0 /\ slot_name s = None;
  (** a parked reader has nothing to read *)
  ok_parked : wr_held (reader s) <> None -> bq_items (queue s) = [] /\ standing s = Open;
  ok_generation : Forall (fun m => (held_generation (msg_held m) <= generation s)%N) (at_index i ms);
}.

Record wf (w : World) : Prop := {
  wf_slots : forall i s, slots (bus w) !! i = Some s -> slot_ok (messages w) i s;
  wf_unsettled : Forall (fun m => settled m = false) (messages w);
}.

Definition initial : World := mk_world (new_bus MESSAGES SUBSCRIPTIONS) [] [].

(** *** Lemmas on one slot *)

Lemma slot_Some (b : BusState) held s :
  slot b held = Some s <->
  slots b !! index held = Some s /\ generation s = held_generation held /\ standing s <> Free.
Proof.
  unfold slot. destruct (slots b !! index held) as [s'|]; simpl; [|naive_solver].
  destruct (N.eqb_spec (generation s') (held_generation held)); simpl;
    [|naive_solver].
  case_bool_decide; simpl; naive_solver.
Qed.

Lemma slot_held (b : BusState) held s :
  slot b held = Some s -> held = mk_held (index held) (generation s).
Proof. intros (_ & Hg & _)%slot_Some. destruct held; simpl in *. by rewrite Hg. Qed.

Lemma slot_ok_ext ms ms' i s :
  at_index i ms' = at_index i ms -> slot_ok ms i s -> slot_ok ms' i s.
Proof. intros Heq [????? Hg]. split; rewrite ?Heq; done. Qed.

Lemma wf_set_slot (b : BusState) subs ms ms' subs' held s s' :
  wf (mk_world b subs ms) -> slot b held = Some s ->
  (forall j, j <> index held -> at_index j ms' = at_index j ms) ->
  Forall (fun m => settled m = false) ms' ->
  slot_ok ms' (index held) s' -> wf (mk_world (set_slot b held s') subs' ms').
Proof.
  intros [Hw Hu] Hs Hother Hu' Hok. split; [|done]. simpl in *. intros j t Hj.
  destruct (decide (j = index held)) as [->|Hne].
  - rewrite list_lookup_insert_eq in Hj; [by injection Hj as <-|].
    apply slot_Some in Hs as [Hs _]. by eapply lookup_lt_Some.
  - rewrite list_lookup_insert_ne in Hj by done. eapply slot_ok_ext; [by apply Hother|]. by apply Hw.
Qed.

Lemma at_index_cons i m ms :
  at_index i (m :: ms) = if Nat.eqb (index (msg_held m)) i then m :: at_index i ms else at_index i ms.
Proof. done. Qed.

(** Handing over the first waiting delivery. *)
Lemma take_in_hand_ok ms held (s : Slot) (d : Delivery) q rest :
  slot_ok ms (index held) s -> standing s <> Free -> generation s = held_generation held ->
  bq_items (queue s) = d :: rest -> bq_items q = rest -> bq_capacity q = bq_capacity (queue s) ->
  slot_ok (hand_over held [d] ++ ms) (index held) (take_in_hand s q).
Proof.
  intros [Hc Hr Hh Hf Hp Hg] Hst Hgen Hq Hq' Hcq. simpl.
  split; unfold take_in_hand; cbn [queue in_hand standing generation slot_name reader].
  - by rewrite Hcq.
  - rewrite Hq in Hr. simpl in Hr. rewrite Hq'. lia.
  - intros _. rewrite at_index_cons. simpl. rewrite Nat.eqb_refl. unfold holders. simpl.
    rewrite bool_decide_true by (destruct held; simpl in *; by rewrite Hgen). simpl.
    f_equal. by apply Hh.
  - done.
  - intros Hw. destruct (Hp Hw) as [Hi _]. by rewrite Hq in Hi.
  - rewrite at_index_cons. simpl. rewrite Nat.eqb_refl. constructor; [simpl; lia|done].
Qed.

Lemma at_index_app_other j held (ds : list Delivery) ms :
  j <> index held -> at_index j (hand_over held ds ++ ms) = at_index j ms.
Proof.
  intros Hne. induction ds as [|d ds IH]; simpl; [done|].
  rewrite (proj2 (Nat.eqb_neq _ _)) by done. done.
Qed.

(** *** Enqueueing, settling *)

(** A slot after one more delivery at the end of its queue. *)
Definition delivered (d : Delivery) (s s' : Slot) : Prop :=
  bq_items (queue s') = bq_items (queue s) ++ [d] /\
  bq_capacity (queue s') = bq_capacity (queue s) /\
  in_hand s' = in_hand s /\ generation s' = generation s /\ standing s' = standing s /\
  slot_name s' = slot_name s /\ wr_held (reader s') = None.

Lemma enqueue_room (s : Slot) d :
  length (bq_items (queue s)) < bq_capacity (queue s) ->
  exists s', enqueue s d = Some (s', wr_held (reader s)) /\ delivered d s s'.
Proof.
  intros Hr. unfold enqueue. destruct (bq_push_room _ d Hr) as (q & -> & Hi & Hc).
  destruct (wr_wake_held (reader s)) as [Hn Hw]. destruct (wr_wake (reader s)) as [r woken].
  simpl in *. subst. eexists. split; [reflexivity|]. by split_and!.
Qed.

Lemma delivered_ok ms i s s' d :
  slot_ok ms i s -> standing s = Open -> delivered d s s' ->
  length (bq_items (queue s)) + in_hand s < MESSAGES -> slot_ok ms i s'.
Proof.
  intros [Hc Hr Hh Hf Hp Hg] Ho (Hi & Hc' & Hih & Hgen & Hst & Hn & Hw) Hroom.
  split; rewrite ?Hi, ?Hc', ?Hih, ?Hgen, ?Hst, ?Hw, ?Hn; try done; try by (intros; congruence).
  rewrite length_app. simpl. lia.
Qed.

Lemma holders_split held l1 l2 m :
  holders held (at_index (index held) (l1 ++ m :: l2)) =
  (if bool_decide (msg_held m = held) then 1 else 0) +
  holders held (at_index (index held) (l1 ++ l2)).
Proof.
  unfold holders, at_index. rewrite !List.filter_app, !length_app. simpl.
  destruct (Nat.eqb_spec (index (msg_held m)) (index held)) as [He|He]; simpl.
  - case_bool_decide; simpl; lia.
  - rewrite bool_decide_false by naive_solver. lia.
Qed.

Lemma at_index_split j l1 l2 m :
  j <> index (msg_held m) -> at_index j (l1 ++ l2) = at_index j (l1 ++ m :: l2).
Proof.
  intros Hne. unfold at_index. rewrite !List.filter_app. simpl.
  by rewrite (proj2 (Nat.eqb_neq _ _)).
Qed.

Lemma at_index_Forall (P : Message -> Prop) j l1 l2 m :
  Forall P (at_index j (l1 ++ m :: l2)) -> Forall P (at_index j (l1 ++ l2)).
Proof.
  unfold at_index. rewrite !List.filter_app. simpl. rewrite !Forall_app.
  destruct (Nat.eqb _ j); [rewrite Forall_cons|]; tauto.
Qed.

(** Releasing the place of a delivery in hand. *)
Lemma settled_ok l1 m l2 (s : Slot) :
  slot_ok (l1 ++ m :: l2) (index (msg_held m)) s -> standing s <> Free ->
  generation s = held_generation (msg_held m) ->
  0 < in_hand s /\
  slot_ok (l1 ++ l2) (index (msg_held m))
    (mk_slot (generation s) (standing s) (slot_name s) (queue s) (in_hand s - 1) (reader s)).
Proof.
  intros [Hc Hr Hh Hf Hp Hg] Hst Hgen. pose proof (Hh Hst) as Hin.
  set (held := mk_held _ _) in Hin.
  assert (Hm : msg_held m = held) by (unfold held; destruct (msg_held m); simpl in *; by rewrite Hgen).
  change (index (msg_held m)) with (index held) in Hin. rewrite holders_split in Hin.
  rewrite bool_decide_true in Hin by done. split; [lia|].
  split; cbn [queue in_hand standing generation slot_name reader]; try done.
  - lia.
  - intros _. fold held. change (index (msg_held m)) with (index held). lia.
  - by eapply at_index_Forall.
Qed.

Lemma settle_ok (b : BusState) subs l1 m l2 :
  wf (mk_world b subs (l1 ++ m :: l2)) -> wf (mk_world (settle b (msg_held m)) subs (l1 ++ l2)).
Proof.
  intros Hwf. pose proof Hwf as [Hw Hu]. simpl in *.
  assert (Hu' : Forall (fun m => settled m = false) (l1 ++ l2)).
  { apply Forall_app in Hu as [? Hu]. apply Forall_cons_1 in Hu as [_ ?]. by apply Forall_app. }
  unfold settle. destruct (slot b (msg_held m)) as [s|] eqn:Hs.
  - pose proof (proj1 (slot_Some _ _ _) Hs) as (Hl & Hgen & Hst).
    eapply wf_set_slot; [done|done|intros; by apply at_index_split|done|].
    by apply settled_ok; [apply Hw|..].
  - split; [|done]. simpl. intros i s Hi.
    destruct (decide (i = index (msg_held m))) as [->|Hne].
    + destruct (Hw _ _ Hi) as [Hc Hr Hh Hf Hp Hg]. split; try done; [|by eapply at_index_Forall].
      intros Hst. rewrite (Hh Hst).
      change (index (msg_held m)) with (index (mk_held (index (msg_held m)) (generation s))) at 2 4.
      rewrite holders_split, bool_decide_false; [done|].
      intros Hm. assert (slot b (msg_held m) = Some s); [|congruence].
      apply slot_Some. split_and!; [done| |done]. by rewrite Hm.
    + eapply slot_ok_ext; [by apply at_index_split|]. by apply Hw.
Qed.

(** A requeue inside a settlement: the place in hand becomes the place in the queue. *)
Lemma requeue_settle_ok (b : BusState) subs l1 m l2 d :
  wf (mk_world b subs (l1 ++ m :: l2)) ->
  exists b' woken r, requeue b (msg_held m) d = Some (b', woken, r) /\
    wf (mk_world (settle b' (msg_held m)) subs (l1 ++ l2)) /\
    match slot b (msg_held m) with
    | Some s =>
        if bool_decide (standing s = Open)
        then r = Ok tt /\ exists s', slot (settle b' (msg_held m)) (msg_held m) = Some s' /\
               bq_items (queue s') = bq_items (queue s) ++ [d] /\ in_hand s' = in_hand s - 1
        else b' = b /\ r = Err ShutDown
    | None => b' = b /\ r = if live b then Ok tt else Err ShutDown
    end.
Proof.
  intros Hwf. pose proof Hwf as [Hw Hu]. simpl in *. unfold requeue.
  destruct (slot b (msg_held m)) as [s|] eqn:Hs; cycle 1.
  { eexists b, _, _. split; [reflexivity|]. split; [by eapply settle_ok|done]. }
  pose proof (proj1 (slot_Some _ _ _) Hs) as (Hl & Hgen & Hst).
  case_bool_decide as Ho; cycle 1.
  { eexists b, _, _. split; [reflexivity|]. split; [by eapply settle_ok|done]. }
  destruct (settled_ok l1 m l2 s (Hw _ _ Hl) Hst Hgen) as [Hpos Hok].
  destruct (Hw _ _ Hl) as [Hc Hr _ _ _ _].
  destruct (enqueue_room s d) as (s1 & -> & Hd); [lia|].
  eexists _, _, _. split; [reflexivity|].
  pose proof Hd as (Hi & Hc' & Hih & Hg' & Hst' & Hn & Hwk).
  assert (Hs1 : slot (set_slot b (msg_held m) s1) (msg_held m) = Some s1).
  { apply slot_Some. simpl. rewrite list_lookup_insert_eq by (by eapply lookup_lt_Some).
    by rewrite Hg', Hst'. }
  set (s2 := mk_slot (generation s1) (standing s1) (slot_name s1) (queue s1) (in_hand s1 - 1)
    (reader s1)).
  assert (Heq : settle (set_slot b (msg_held m) s1) (msg_held m) = set_slot b (msg_held m) s2).
  { unfold settle. rewrite Hs1. unfold set_slot. simpl. by rewrite list_insert_insert_eq. }
  rewrite Heq. split.
  - eapply wf_set_slot; [done|done|intros; by apply at_index_split| |].
    + apply Forall_app in Hu as [? Hu]. apply Forall_cons_1 in Hu as [_ ?]. by apply Forall_app.
    + eapply (delivered_ok _ _ _ s2 d Hok); [done| |simpl; lia].
      unfold s2. split_and!; simpl; try done; by rewrite ?Hih, ?Hi, ?Hc'.
  - split; [done|]. exists s2. split_and!; [|done|simpl; by rewrite Hih].
    apply slot_Some. simpl. rewrite list_lookup_insert_eq by (by eapply lookup_lt_Some).
    by rewrite Hg', Hst'.
Qed.

Lemma settle_with_ok (b : BusState) subs l1 m l2 verb :
  wf (mk_world b subs (l1 ++ m :: l2)) -> settled m = false ->
  exists b', settle_with b m verb = Some b' /\ wf (mk_world b' subs (l1 ++ l2)).
Proof.
  intros Hwf Hm. pose proof (settle_ok _ _ _ _ _ Hwf) as Hs.
  destruct (requeue_settle_ok b subs l1 m l2 (redelivered (delivery m)) Hwf)
    as (b' & woken & r & Hr & Hwf' & _).
  destruct verb as [|[]|]; unfold settle_with; simpl; unfold nack, ack, drop_message; simpl.
  - by eexists.
  - unfold requeue_message. rewrite Hr. simpl. by eexists.
  - by eexists.
  - rewrite Hm. unfold requeue_message. rewrite Hr. simpl. by eexists.
Qed.

(** *** Publishing *)

Definition fanned (name : string) (d : Delivery) (s s' : Slot) : Prop :=
  if reads s name then delivered d s s' else s' = s.

Lemma fan_skip name readers d (l : list Slot) :
  (forall s, s ∈ l -> reads s name = false) -> fan name readers d l = Some (l, []).
Proof.
  induction l as [|s l IH]; intros Hl; simpl; [done|].
  rewrite (Hl s) by left. rewrite IH; [done|]. intros t Ht. apply Hl. by right.
Qed.

Lemma fanned_skip name d (l : list Slot) :
  (forall s, s ∈ l -> reads s name = false) -> Forall2 (fanned name d) l l.
Proof.
  intros Hl. apply Forall2_same_length_lookup. split; [done|]. intros i s t Hs Ht.
  assert (s = t) as <- by congruence. unfold fanned. rewrite Hl; [done|].
  by eapply list_elem_of_lookup_2.
Qed.

Lemma fan_spec name d (l : list Slot) :
  (forall s, s ∈ l -> reads s name = true ->
     length (bq_items (queue s)) < bq_capacity (queue s)) ->
  exists l' woken, fan name (length (List.filter (fun s => reads s name) l)) (Some d) l =
    Some (l', woken) /\ Forall2 (fanned name d) l l'.
Proof.
  induction l as [|s l IH]; intros Hroom; simpl; [by eexists _, _|].
  destruct (reads s name) eqn:Hs; simpl.
  - rewrite Nat.sub_0_r.
    destruct (enqueue_room s d) as (s' & He & Hd); [apply Hroom; [left|done]|].
    destruct (Nat.eqb_spec (length (List.filter (fun s => reads s name) l)) 0) as [Hz|Hz];
      rewrite He; simpl.
    + assert (Hl : forall s, s ∈ l -> reads s name = false).
      { intros t Ht. apply not_true_iff_false. intros Hr. apply nil_length_inv in Hz.
        assert (Hf : t ∈ List.filter (fun s => reads s name) l) by by apply elem_of_filterb.
        rewrite Hz in Hf. by apply not_elem_of_nil in Hf. }
      rewrite fan_skip by done. simpl. eexists _, _. split; [reflexivity|].
      constructor; [unfold fanned; by rewrite Hs|by apply fanned_skip].
    + destruct IH as (l' & woken & -> & HF); [intros; apply Hroom; [by right|done]|]. simpl.
      eexists _, _. split; [reflexivity|]. constructor; [unfold fanned; by rewrite Hs|done].
  - destruct IH as (l' & woken & -> & HF); [intros; apply Hroom; [by right|done]|]. simpl.
    eexists _, _. split; [reflexivity|]. constructor; [unfold fanned; by rewrite Hs|done].
Qed.

(** What a publish does on every branch. *)
Lemma fanout_spec w name body hs :
  wf w ->
  let b := bus w in
  exists b' woken r, fanout MESSAGES PAYLOAD b name body hs = Some (b', woken, r) /\
  match r with
  | Ok _ =>
      live b = true /\ live b' = true /\
      (forall s, s ∈ slots b -> reads s name = true -> length (bq_items (queue s)) + in_hand s < MESSAGES) /\
      ((exists payload, Buf.try_from PAYLOAD body = Ok payload /\
         Forall2 (fanned name (mk_delivery payload hs (delivery_count_of hs))) (slots b) (slots b')) \/
       (b' = b /\ forall s, s ∈ slots b -> reads s name = false))
  | Err e =>
      b' = b /\ woken = [] /\
      match e with
      | ShutDown => live b = false
      | Full n => n = MESSAGES /\ exists s, s ∈ slots b /\ reads s name = true /\
          MESSAGES <= length (bq_items (queue s)) + in_hand s
      | PayloadTooLarge size n => size = length body /\ n = PAYLOAD /\ PAYLOAD < length body
      | _ => False
      end
  end.
Proof.
  intros [Hw _] b. unfold fanout. destruct (live b) eqn:Hlive; simpl;
    [|by eexists b, _, _].
  destruct (existsb _ _) eqn:Hex.
  { eexists b, _, _. split; [done|]. simpl. split_and!; [done|done|done|].
    apply existsb_elem in Hex as (s & Hin & [Hr Hroom]%andb_true_iff). exists s.
    split_and!; [done|done|]. unfold has_room in Hroom. bool_prop. by rewrite bq_len_items in *. }
  rewrite existsb_false in Hex.
  assert (Hroom : forall s, s ∈ slots b -> reads s name = true ->
    length (bq_items (queue s)) + in_hand s < MESSAGES).
  { intros s Hs Hr. specialize (Hex s Hs). rewrite Hr in Hex. simpl in Hex. bool_prop.
    unfold has_room in Hex. bool_prop. by rewrite bq_len_items in *. }
  destruct (Nat.eqb_spec (length (List.filter (fun s => reads s name) (slots b))) 0) as [Hz|Hz].
  { eexists b, _, _. split; [done|]. simpl. split_and!; [done..|]. right. split; [done|].
    intros s Hs. apply not_true_iff_false. intros Hr. apply nil_length_inv in Hz.
    assert (Hf : s ∈ List.filter (fun s => reads s name) (slots b)) by by apply elem_of_filterb.
    rewrite Hz in Hf. by apply not_elem_of_nil in Hf. }
  destruct (Buf.try_from PAYLOAD body) as [payload|e] eqn:Hp.
  - destruct (fan_spec name (mk_delivery payload hs (delivery_count_of hs)) (slots b))
      as (l' & woken & -> & HF).
    { intros s Hs Hr. pose proof (Hroom s Hs Hr). apply list_elem_of_lookup in Hs as (i & Hi).
      destruct (Hw _ _ Hi) as [Hc _ _ _ _ _]. lia. }
    simpl. eexists _, _, _. split; [reflexivity|]. simpl. split_and!; [done..|].
    left. by eexists.
  - eexists b, _, _. split; [done|]. simpl. split_and!; [done..|].
    pose proof (Buf.extend_spec (Buf.new PAYLOAD) body) as He.
    unfold Buf.try_from in Hp. rewrite Hp in He. unfold Buf.capacity, Buf.wf in He. simpl in He.
    rewrite length_replicate in He. by apply He; lia.
Qed.

(** *** Every operation keeps the invariant *)

Lemma fanned_ok ms i name d s s' :
  slot_ok ms i s -> fanned name d s s' ->
  (reads s name = true -> length (bq_items (queue s)) + in_hand s < MESSAGES) -> slot_ok ms i s'.
Proof.
  intros Hok Hf Hroom. unfold fanned in Hf. destruct (reads s name) eqn:Hr; [|by subst].
  unfold reads in Hr. apply andb_true_iff in Hr as [Ho _]. apply bool_decide_eq_true in Ho.
  eapply delivered_ok; [done|done|done|]. by apply Hroom.
Qed.

Lemma publish_ok w name body hs :
  wf w -> exists w', run w (Publish name body hs) = Some w' /\ wf w'.
Proof.
  intros Hwf. unfold run. simpl. destruct (fanout_spec w name body hs Hwf) as (b' & woken & r & Hf & Hr).
  rewrite Hf. simpl. eexists. split; [reflexivity|]. destruct w as [b subs ms]. simpl in *.
  destruct r as [[]|e].
  - destruct Hr as (_ & _ & Hroom & [(p & _ & HF)|[-> _]]); [|done].
    destruct Hwf as [Hw Hu]. split; [|done]. simpl in *. intros i s' Hi.
    destruct (Forall2_lookup_r _ _ _ _ _ HF Hi) as (s & Hs & Hfan).
    eapply fanned_ok; [by apply Hw|done|]. intros Hr. apply Hroom; [|done].
    by eapply list_elem_of_lookup_2.
  - destruct Hr as (-> & _ & _). done.
Qed.

Lemma close_slots_spec (l : list Slot) :
  exists woken closed, close_slots l =
    ((fun s => if bool_decide (standing s = Open)
               then mk_slot (generation s) Closed (slot_name s) (queue s) (in_hand s)
                      (fst (wr_wake (reader s)))
               else s) <$> l, woken, closed) /\
    closed = length (List.filter (fun s => bool_decide (standing s = Open)) l) /\
    (forall w, w ∈ woken <-> exists s, s ∈ l /\ standing s = Open /\ wr_held (reader s) = Some w).
Proof.
  induction l as [|s l (woken & closed & E & Hc & Hw)]; simpl; [|rewrite E].
  { eexists _, _. split_and!; [done|done|]. intros w. split; [by intros ?%not_elem_of_nil|].
    by intros (s & ?%not_elem_of_nil & _). }
  case_bool_decide as Ho.
  - destruct (wr_wake_held (reader s)) as [Hn Hwk]. destruct (wr_wake (reader s)) as [r wk].
    simpl in *. eexists _, _. split_and!; [done|simpl; by rewrite Hc|]. intros w.
    rewrite elem_of_app, Hw. subst wk. split.
    + intros [Hin|(t & Ht & ?)]; [|exists t; split; [by right|done]].
      exists s. split; [left|]. split; [done|]. destruct (wr_held (reader s)); simpl in Hin.
      * by apply list_elem_of_singleton in Hin as ->.
      * by apply not_elem_of_nil in Hin.
    + intros (t & [->|Ht]%elem_of_cons & Hopen & Hheld).
      * left. rewrite Hheld. simpl. left.
      * right. by exists t.
  - eexists _, _. split_and!; [done|done|]. intros w. rewrite Hw. split.
    + intros (t & Ht & ?). exists t. split; [by right|done].
    + intros (t & [->|Ht]%elem_of_cons & ? & ?); [done|]. by exists t.
Qed.

Lemma shut_down_ok w : wf w -> exists w', run w ShutDownBus = Some w' /\ wf w'.
Proof.
  destruct w as [b subs ms]. intros [Hw Hu]. unfold run. simpl in *. unfold shut_down.
  destruct (close_slots_spec (slots b)) as (woken & closed & -> & _ & _).
  eexists. split; [reflexivity|]. split; [|done]. simpl. intros i s Hi.
  rewrite list_lookup_fmap in Hi. destruct (slots b !! i) as [t|] eqn:Ht; [|done].
  injection Hi as <-. destruct (Hw _ _ Ht) as [Hc Hr Hh Hf Hp Hg]. case_bool_decide as Ho; [|done].
  split; cbn [queue in_hand standing generation slot_name reader]; try done.
  - intros _. apply Hh. congruence.
  - intros Hheld. by rewrite (proj1 (wr_wake_held (reader t))) in Hheld.
Qed.

Lemma poll_ok w i waker : wf w -> exists w', run w (Poll i waker) = Some w' /\ wf w'.
Proof.
  destruct w as [b subs ms]. intros Hwf. pose proof Hwf as [Hw Hu]. unfold run. simpl in *.
  destruct (subs !! i) as [held|]; [|by eexists]. unfold poll_next.
  destruct (slot b held) as [s|] eqn:Hs; [|by eexists].
  pose proof (proj1 (slot_Some _ _ _) Hs) as (Hl & Hgen & Hst). pose proof (Hw _ _ Hl) as Hok.
  destruct (bq_items (queue s)) as [|d rest] eqn:Hq.
  - rewrite (bq_pop_empty _ Hq). case_bool_decide as Hcl; [by eexists|].
    eexists. split; [reflexivity|]. eapply wf_set_slot; [done|done|done|done|].
    destruct Hok as [Hc Hr Hh Hf Hp Hg].
    split; cbn [queue in_hand standing generation slot_name reader]; try done.
    intros _. split; [done|]. destruct (standing s); done.
  - destruct (bq_pop_first _ _ _ Hq) as (q & -> & Hi & Hcap). eexists. split; [reflexivity|].
    eapply wf_set_slot; [done|done|..].
    + intros j Hj. by apply (at_index_app_other j held [d] ms).
    + by constructor.
    + by eapply take_in_hand_ok.
Qed.

Lemma try_next_ok w i : wf w -> exists w', run w (TryNext i) = Some w' /\ wf w'.
Proof.
  destruct w as [b subs ms]. intros Hwf. pose proof Hwf as [Hw Hu]. unfold run. simpl in *.
  destruct (subs !! i) as [held|]; [|by eexists]. unfold try_next.
  destruct (slot b held) as [s|] eqn:Hs; [|by eexists].
  pose proof (proj1 (slot_Some _ _ _) Hs) as (Hl & Hgen & Hst). pose proof (Hw _ _ Hl) as Hok.
  destruct (bq_items (queue s)) as [|d rest] eqn:Hq; [rewrite (bq_pop_empty _ Hq); by eexists|].
  destruct (bq_pop_first _ _ _ Hq) as (q & -> & Hi & Hcap). eexists. split; [reflexivity|].
  eapply wf_set_slot; [done|done|..].
  - intros j Hj. by apply (at_index_app_other j held [d] ms).
  - by constructor.
  - by eapply take_in_hand_ok.
Qed.

Lemma holders_none held ms :
  Forall (fun m => (held_generation (msg_held m) < held_generation held)%N) (at_index (index held) ms) ->
  holders held (at_index (index held) ms) = 0.
Proof.
  intros Hall. unfold holders. rewrite filterb_none; [done|]. intros m Hm.
  rewrite Forall_forall in Hall. specialize (Hall m Hm). apply bool_decide_eq_false.
  intros Heq. rewrite Heq in Hall. lia.
Qed.

(** Generations are [u32]: the count of a slot's subscribers has not wrapped. *)
Definition generations_left (w : World) : Prop :=
  Forall (fun s => (generation s < u32_max)%N) (slots (bus w)).

Lemma subscribe_ok w name :
  wf w -> generations_left w -> exists w', run w (Subscribe name) = Some w' /\ wf w'.
Proof.
  destruct w as [b subs ms]. intros Hwf Hgl. pose proof Hwf as [Hw Hu]. unfold run. simpl in *. unfold subscribe.
  destruct (live b); simpl; [|by eexists].
  destruct (position _ _) as [i|] eqn:Hp; [|by eexists].
  apply position_Some in Hp as (s & Hs & Hfree & _). apply bool_decide_eq_true in Hfree. rewrite Hs.
  eexists. split; [reflexivity|]. unfold generations_left in Hgl. rewrite Forall_lookup in Hgl.
  specialize (Hgl _ _ Hs). simpl in Hgl.
  assert (Hwrap : wrapping_add u32_max (generation s) 1 = (generation s + 1)%N).
  { unfold wrapping_add. apply N.mod_small. lia. }
  split; [|done]. simpl. intros j t Hj. destruct (decide (j = i)) as [->|Hne].
  - rewrite list_lookup_insert_eq in Hj by (by eapply lookup_lt_Some). injection Hj as <-.
    destruct (Hw _ _ Hs) as [Hc Hr Hh Hf Hpk Hg]. destruct (Hf Hfree) as (Hq & Hin & _).
    split; cbn [queue in_hand standing generation slot_name reader]; rewrite ?Hwrap; try done.
    + intros _. rewrite Hin. symmetry. apply (holders_none (mk_held i (generation s + 1))).
      simpl. eapply Forall_impl; [done|]. intros m Hm. simpl in Hm. lia.
    + eapply Forall_impl; [done|]. intros m Hm. simpl in Hm. lia.
  - rewrite list_lookup_insert_ne in Hj by done. by apply Hw.
Qed.

Lemma drop_subscriber_ok w i : wf w -> exists w', run w (DropSubscriber i) = Some w' /\ wf w'.
Proof.
  destruct w as [b subs ms]. intros Hwf. pose proof Hwf as [Hw Hu]. unfold run. simpl in *.
  destruct (subs !! i) as [held|]; [|by eexists]. eexists. split; [reflexivity|]. unfold unsubscribe.
  destruct (slot b held) as [s|] eqn:Hs; [|by split].
  pose proof (proj1 (slot_Some _ _ _) Hs) as (Hl & Hgen & Hst).
  eapply wf_set_slot; [done|done|done|done|]. destruct (Hw _ _ Hl) as [Hc Hr Hh Hf Hp Hg].
  destruct (bq_new_items (A := @Delivery HM) MESSAGES) as [Hi Hcap].
  split; cbn [queue in_hand standing generation slot_name reader]; rewrite ?Hi, ?Hcap; try done.
  - simpl. lia.
  - intros Hheld. by rewrite wr_new_held in Hheld.
Qed.

Lemma run_ok w op :
  wf w -> (forall name, op = Subscribe name -> generations_left w) ->
  exists w', run w op = Some w' /\ wf w'.
Proof.
  intros Hwf Hgl. destruct op as [| |name|i|name body hs|i waker|i|i verb].
  - eexists. split; [reflexivity|]. by destruct w, Hwf; split.
  - by apply shut_down_ok.
  - apply subscribe_ok; [done|]. by eapply Hgl.
  - by apply drop_subscriber_ok.
  - by apply publish_ok.
  - by apply poll_ok.
  - by apply try_next_ok.
  - unfold run. simpl. destruct (messages w !! i) as [m|] eqn:Hm; [|by eexists].
    destruct (lookup_delete_split _ _ _ Hm) as (l1 & l2 & Hms & -> & _).
    destruct w as [b subs ms]. simpl in *. subst ms.
    assert (Hset : settled m = false).
    { destruct Hwf as [_ Hu]. simpl in Hu. apply Forall_app in Hu as [_ Hu].
      by apply Forall_cons_1 in Hu as [? _]. }
    destruct (settle_with_ok b subs l1 m l2 verb Hwf Hset) as (b' & Hb & Hwf').
    unfold settle_with in Hb. destruct (settled_with b m verb) as [[b1 wk]|]; [|done]. injection Hb as ->. by eexists.
Qed.

(** *** Reachability *)

Inductive reachable : World -> Prop :=
  | reach_init : reachable initial
  | reach_step w op w' :
      reachable w -> (forall name, op = Subscribe name -> generations_left w) ->
      run w op = Some w' -> reachable w'.

Lemma initial_wf : wf initial.
Proof.
  split; [|constructor]. simpl. intros i s Hi. apply lookup_replicate in Hi as [-> _].
  destruct (bq_new_items (A := @Delivery HM) MESSAGES) as [Hq Hc].
  split; simpl; rewrite ?Hq, ?Hc, ?wr_new_held; simpl; try done. lia.
Qed.

Lemma reachable_wf w : reachable w -> wf w.
Proof.
  induction 1 as [|w op w' _ IH Hg Hr]; [apply initial_wf|].
  destruct (run_ok w op IH Hg) as (w2 & Hr2 & Hwf). congruence.
Qed.

(** *** What happens to a slot *)

(** A slot whose reader has nothing new, or one that was given something, its waker woken. *)
Definition untouched (s s' : Slot) : Prop :=
  queue s' = queue s /\ standing s' = standing s /\ reader s' = reader s.
Definition given (s s' : Slot) (woken : list nat) : Prop :=
  (bq_items (queue s') <> [] \/ standing s' = Closed) /\ (forall k, wr_held (reader s) = Some k -> k ∈ woken).
Definition touches (b b' : BusState) (woken : list nat) : Prop :=
  forall held s, slot b held = Some s ->
    exists s', slot b' held = Some s' /\ (untouched s s' \/ given s s' woken).

Lemma touches_refl (b : BusState) woken : touches b b woken.
Proof. intros held s Hs. exists s. split; [done|]. left. by split_and!. Qed.

Lemma slot_ready (s : Slot) :
  bq_items (queue s) <> [] \/ standing s = Closed <->
  negb (Nat.eqb (bq_len (queue s)) 0) || bool_decide (standing s = Closed) = true.
Proof.
  rewrite orb_true_iff, negb_true_iff, Nat.eqb_neq, bq_len_items, bool_decide_eq_true.
  split; (intros [Hq|?]; [left|by right]).
  - destruct (bq_items (queue s)); [done|simpl; lia].
  - intros Hn. by rewrite Hn in Hq.
Qed.

Lemma slot_set (b : BusState) held held' (s s' : Slot) :
  slot b held = Some s -> generation s' = generation s -> standing s' <> Free ->
  slot (set_slot b held s') held' = if decide (held' = held) then Some s' else slot b held'.
Proof.
  intros Hs Hg Hst. pose proof (proj1 (slot_Some _ _ _) Hs) as (Hl & Hgen & _).
  destruct (decide (held' = held)) as [->|Hne].
  - apply slot_Some. simpl. rewrite list_lookup_insert_eq by by eapply lookup_lt_Some. split_and!; congruence.
  - unfold slot, set_slot. simpl. destruct (decide (index held' = index held)) as [Hi|Hi].
    + rewrite Hi, list_lookup_insert_eq, Hl by by eapply lookup_lt_Some. simpl.
      destruct (N.eqb_spec (generation s') (held_generation held')) as [He|He].
      * destruct Hne. destruct held', held. simpl in *. congruence.
      * destruct (N.eqb_spec (generation s) (held_generation held')); [congruence|done].
    + by rewrite list_lookup_insert_ne.
Qed.

Lemma touches_set (b : BusState) held (s s' : Slot) woken :
  slot b held = Some s -> generation s' = generation s -> standing s' <> Free ->
  untouched s s' \/ given s s' woken -> touches b (set_slot b held s') woken.
Proof.
  intros Hs Hg Hst Hu held' t Ht. rewrite (slot_set b held held' s s') by done.
  destruct (decide (held' = held)) as [->|Hne]; [|exists t; split; [done|by left; split_and!]].
  exists s'. split; [done|]. congruence.
Qed.

Lemma touches_mono (b b' : BusState) woken woken' : woken ⊆ woken' -> touches b b' woken -> touches b b' woken'.
Proof.
  intros Hs Ht held s Hh. destruct (Ht held s Hh) as (s' & ? & [?|[? Hw]]); exists s'; (split; [done|]); [by left|].
  right. split; [done|]. intros k Hk. by apply Hs, Hw.
Qed.

Lemma touches_trans (b1 b2 b3 : BusState) woken :
  touches b1 b2 woken -> touches b2 b3 [] ->
  touches b1 b3 woken.
Proof.
  intros Ha Hb held s Hs. destruct (Ha held s Hs) as (s2 & Hs2 & Hu).
  destruct (Hb held s2 Hs2) as (s3 & Hs3 & Hu3). exists s3. split; [done|].
  destruct Hu3 as [(Hq & Hst & Hr)|[Hn Hno]].
  - destruct Hu as [(?&?&?)|[? ?]]; [left; unfold untouched; by rewrite Hq, Hst, Hr|].
    right. split; [by rewrite Hq, Hst|done].
  - destruct Hu as [(Hq&Hst&Hr)|[? ?]]; right; (split; [done|]); [|done].
    intros k Hk. rewrite <-Hr in Hk. by apply Hno, elem_of_nil in Hk.
Qed.

Lemma enqueue_given (s s' : Slot) d woken :
  enqueue s d = Some (s', woken) ->
  given s s' (option_list woken) /\ generation s' = generation s /\ standing s' = standing s.
Proof.
  unfold enqueue. destruct (bq_push (queue s) d) as [q|] eqn:Eq; [|done].
  apply bq_push_Some in Eq as (Hi & _). pose proof (wr_wake_held (reader s)) as [_ Hw].
  destruct (wr_wake (reader s)) as [r wk]. simpl in Hw. subst wk. intros [= <- <-]. split_and!; [|done..]. split.
  - left. simpl. rewrite Hi. by destruct (bq_items (queue s)).
  - intros k ->. simpl. by left.
Qed.

Lemma settle_touches (b : BusState) held : touches b (settle b held) [].
Proof.
  unfold settle. destruct (slot b held) as [s|] eqn:Hs; [|apply touches_refl].
  eapply touches_set; [done|done| |left; by split_and!]. by apply slot_Some in Hs as (_ & _ & ?).
Qed.

Lemma requeue_touches (b b' : BusState) held d woken r :
  requeue b held d = Some (b', woken, r) -> touches b b' (option_list woken).
Proof.
  unfold requeue. destruct (slot b held) as [s|] eqn:Hs; [|intros [= <- <- <-]; apply touches_refl].
  case_bool_decide as Ho; [|intros [= <- <- <-]; apply touches_refl].
  destruct (enqueue s d) as [[s' wk]|] eqn:Ee; [|done]. intros [= <- <- <-].
  destruct (enqueue_given _ _ _ _ Ee) as (Hg & Hgen & Hst).
  eapply touches_set; [done|done|congruence|by right].
Qed.

Lemma drop_touches (b b' : BusState) m woken :
  drop_message PAYLOAD b m = Some (b', woken) -> touches b b' (option_list woken).
Proof.
  unfold drop_message. destruct (settled m).
  - intros [= <- <-]. apply settle_touches.
  - unfold requeue_message. destruct (requeue b (msg_held m) _) as [[[b1 wk] r]|] eqn:Er; [|done].
    simpl. intros [= <- <-]. eapply touches_trans; [by eapply requeue_touches|apply settle_touches].
Qed.

Lemma settled_touches (b b' : BusState) m verb woken :
  settled_with b m verb = Some (b', woken) -> touches b b' (option_list woken).
Proof.
  assert (Hack : forall b b' m woken r, ack PAYLOAD b m = Some (b', woken, r) -> touches b b' (option_list woken)).
  { intros b0 b1 m0 wk r. unfold ack. destruct (drop_message _ _ _) as [[b2 wk2]|] eqn:Ed; [|done].
    simpl. intros [= <- <- <-]. by eapply drop_touches. }
  destruct verb as [|[]|]; simpl.
  - destruct (ack PAYLOAD b m) as [[[b1 wk] r]|] eqn:Ea; [|done]. simpl. intros [= <- <-]. by eapply Hack.
  - unfold nack. simpl. unfold requeue_message. destruct (requeue b (msg_held m) _) as [[[b1 wk] r]|] eqn:Er; [|done].
    simpl. intros [= <- <-]. eapply touches_trans; [by eapply requeue_touches|apply settle_touches].
  - unfold nack. simpl. destruct (ack PAYLOAD b m) as [[[b1 wk] r]|] eqn:Ea; [|done].
    simpl. intros [= <- <-]. by eapply Hack.
  - apply drop_touches.
Qed.

Lemma fan_touches name readers d (l l' : list Slot) woken :
  fan name readers d l = Some (l', woken) ->
  forall i s, l !! i = Some s -> exists s', l' !! i = Some s' /\
    generation s' = generation s /\ standing s' = standing s /\ (s' = s \/ given s s' woken).
Proof.
  revert readers d l' woken. induction l as [|t l IH]; intros readers d l' woken; simpl.
  { intros [= <- <-] i s Hi. done. }
  assert (Hskip : forall readers d l' woken,
    ('(rest, more) ← fan name readers d l; Some (t :: rest, more)) = Some (l', woken) ->
    forall i s, (t :: l) !! i = Some s -> exists s', l' !! i = Some s' /\
      generation s' = generation s /\ standing s' = standing s /\ (s' = s \/ given s s' woken)).
  { intros readers0 d0 l0 wk0 Hf. destruct (fan name readers0 d0 l) as [[rest more]|] eqn:Ef; [|done].
    simpl in Hf. injection Hf as <- <-. intros [|i] s Hi; simpl in *.
    - injection Hi as <-. exists t. split_and!; auto.
    - by eapply IH. }
  destruct (reads t name); [|by apply Hskip].
  destruct (if Nat.eqb (readers - 1) 0 then (d, None) else (d, d)) as [copy d2]. destruct copy as [copy|]; [|by apply Hskip].
  destruct (enqueue t copy) as [[t' wk]|] eqn:Ee; [|done]. simpl.
  destruct (fan name (readers - 1) d2 l) as [[rest more]|] eqn:Ef; [|done]. simpl. intros [= <- <-].
  destruct (enqueue_given _ _ _ _ Ee) as ([Hn Hw] & Hgen & Hst). intros [|i] s Hi; simpl in *.
  - injection Hi as <-. exists t'. split_and!; [done..|]. right. split; [done|].
    intros k Hk. apply elem_of_app. left. by apply Hw.
  - destruct (IH _ _ _ _ Ef i s Hi) as (s' & ? & ? & ? & [?|[? Hw']]); exists s'; split_and!; auto.
    right. split; [done|]. intros k Hk. apply elem_of_app. right. by apply Hw'.
Qed.

Lemma fanout_touches (b b' : BusState) name body hs woken r :
  fanout MESSAGES PAYLOAD b name body hs = Some (b', woken, r) -> touches b b' woken.
Proof.
  unfold fanout. destruct (negb (live b)); [intros [= <- <- <-]; apply touches_refl|].
  destruct (existsb _ _); [intros [= <- <- <-]; apply touches_refl|].
  destruct (Nat.eqb _ 0); [intros [= <- <- <-]; apply touches_refl|].
  destruct (Buf.try_from PAYLOAD body) as [payload|]; [|intros [= <- <- <-]; apply touches_refl].
  destruct (fan _ _ _ _) as [[l wk]|] eqn:Ef; [|done]. simpl. intros [= <- <- <-] held s Hs.
  pose proof (proj1 (slot_Some _ _ _) Hs) as (Hl & Hgen & Hst).
  destruct (fan_touches _ _ _ _ _ _ Ef _ _ Hl) as (s' & Hs' & Hg' & Hst' & Hu). exists s'. split.
  - apply slot_Some. simpl. split_and!; [done|congruence..].
  - destruct Hu as [->|?]; [left; by split_and!|by right].
Qed.

Lemma shut_down_touches (b b' : BusState) woken n :
  shut_down b = (b', woken, n) -> touches b b' woken.
Proof.
  unfold shut_down. destruct (close_slots_spec (slots b)) as (wk & closed & -> & _ & Hw).
  intros [= <- <- <-] held s Hs. pose proof (proj1 (slot_Some _ _ _) Hs) as (Hl & Hgen & Hst).
  eexists. split.
  - apply slot_Some. simpl. rewrite list_lookup_fmap, Hl. split_and!; [done|..]; by case_bool_decide.
  - case_bool_decide as Ho; [|left; by split_and!]. right. split; [by right|].
    intros k Hk. apply Hw. exists s. split_and!; [|done|done]. by eapply list_elem_of_lookup_2.
Qed.

Lemma connect_touches (b : BusState) : touches b (connect b) [].
Proof. intros held s Hs. exists s. split; [by apply slot_Some in Hs; apply slot_Some|]. left. by split_and!. Qed.

(** What one poll does to the slot it reads, and to the others. *)
Lemma poll_slot (b : BusState) held waker s :
  slot b held = Some s ->
  exists s', slot (poll_next b held waker).1 held = Some s' /\
    (forall held', held' <> held -> slot (poll_next b held waker).1 held' = slot b held') /\
    match (poll_next b held waker).2 with
    | Pending => queue s' = queue s /\ standing s' = standing s /\ wr_held (reader s') = Some waker /\
        bq_items (queue s) = [] /\ standing s <> Closed
    | Ready _ => bq_items (queue s) <> [] \/ standing s = Closed
    end.
Proof.
  intros Hs. unfold poll_next. rewrite Hs. pose proof (proj1 (slot_Some _ _ _) Hs) as (_ & _ & Hst).
  destruct (bq_pop (queue s)) as [[d q]|] eqn:Ep; simpl.
  - apply bq_pop_Some in Ep as [Hi _]. exists (take_in_hand s q). split_and!.
    + by rewrite (slot_set b held held s), decide_True.
    + intros held' Hne. by rewrite (slot_set b held held' s), decide_False.
    + left. by rewrite Hi.
  - apply bq_pop_None in Ep. case_bool_decide as Hc; simpl; [exists s; by split_and!; auto|].
    eexists. split_and!; [by rewrite (slot_set b held held s), decide_True|..]; simpl; try done.
    + intros held' Hne. by rewrite (slot_set b held held' s), decide_False.
    + apply wr_register_held.
Qed.

(** *** The readers that sleep are registered *)

Inductive watched : World -> list Sleeper -> Prop :=
  | watch_init : watched initial []
  | watch_step w asleep op w' asleep' :
      watched w asleep -> (forall name, op = Subscribe name -> generations_left w) ->
      watch w asleep op = Some (w', asleep') -> watched w' asleep'.

Lemma watched_reachable w asleep : watched w asleep -> reachable w.
Proof.
  induction 1 as [|w asleep op w' asleep' _ IH Hg Hw]; [apply reach_init|].
  eapply reach_step; [done|done|]. unfold watch in Hw. unfold run.
  destruct (step w op) as [[w1 woken]|]; [|done]. by injection Hw as -> _.
Qed.

(** What an operation that is not of the slot's own reader does to the slot. *)
Lemma subscribe_keeps (b : BusState) name held s :
  slot b held = Some s -> slot (fst (subscribe SUBSCRIPTIONS b name)) held = Some s.
Proof.
  intros Hs. pose proof (proj1 (slot_Some _ _ _) Hs) as (Hl & Hgen & Hst). unfold subscribe.
  destruct (negb (live b)); [done|]. destruct (position _ _) as [i|] eqn:Hp; [|done].
  apply position_Some in Hp as (t & Ht & Hfree%bool_decide_eq_true & _). rewrite Ht. apply slot_Some. simpl.
  rewrite list_lookup_insert_ne; [done|]. intros ->. congruence.
Qed.

Lemma unsubscribe_keeps (b : BusState) held held' s :
  slot b held = Some s -> held' <> held -> slot (unsubscribe MESSAGES b held') held = Some s.
Proof.
  intros Hs Hne. unfold unsubscribe. destruct (slot b held') as [t|] eqn:Ht; [|done].
  apply slot_Some in Hs as (Hl & Hgen & Hst), Ht as (Hl' & Hgen' & _). apply slot_Some. simpl.
  rewrite list_lookup_insert_ne; [done|]. intros Heq. destruct Hne, held, held'. simpl in *. congruence.
Qed.

Lemma other_poll_keeps (b : BusState) held held' waker s :
  slot b held = Some s -> held' <> held -> slot (fst (poll_next b held' waker)) held = Some s.
Proof.
  intros Hs Hne. destruct (slot b held') as [t|] eqn:Ht; [|unfold poll_next; by rewrite Ht].
  destruct (poll_slot b held' waker t Ht) as (t' & _ & Ho & _). by rewrite Ho.
Qed.

(** A batch reader's further takes leave the registration of every slot, and never find anything
    where a reader sleeps. *)
Lemma try_next_keeps (b : BusState) held held' s :
  slot b held = Some s -> exists s', slot (fst (try_next b held')) held = Some s' /\ reader s' = reader s.
Proof.
  intros Hs. unfold try_next. destruct (slot b held') as [t|] eqn:Ht; [|by exists s].
  destruct (bq_pop (queue t)) as [[d q]|]; [|by exists s]. pose proof (proj1 (slot_Some _ _ _) Ht) as (_ & _ & Hst).
  simpl. rewrite (slot_set b held' held t) by done. case_decide as Hh; [|by exists s].
  exists (take_in_hand t q). split; [done|]. subst. by assert (s = t) as -> by congruence.
Qed.

Lemma touches_registered (b b' : BusState) woken held s waker :
  touches b b' woken -> slot b held = Some s -> wr_held (reader s) = Some waker -> waker ∉ woken ->
  exists s', slot b' held = Some s' /\ wr_held (reader s') = Some waker.
Proof.
  intros Ht Hs Hr Hn. destruct (Ht held s Hs) as (s' & Hs' & [(_ & _ & Hre)|[_ Hg]]).
  - exists s'. by rewrite Hre.
  - by destruct Hn; apply Hg.
Qed.

(** An operation that is no poll or drop of the reader itself and does not wake it leaves it registered. *)
Lemma step_keeps_sleeper w op w' woken held s waker :
  step w op = Some (w', woken) -> slot (bus w) held = Some s -> wr_held (reader s) = Some waker ->
  reader_of w op <> Some held -> waker ∉ woken ->
  exists s', slot (bus w') held = Some s' /\ wr_held (reader s') = Some waker.
Proof.
  intros Hst Hs Hr Hne Hn.
  assert (Ht : forall b', touches (bus w) b' woken -> exists s', slot b' held = Some s' /\ wr_held (reader s') = Some waker).
  { intros b' Ht. by eapply touches_registered. }
  destruct op as [| |name|i|name body hs|i k|i|i verb]; simpl in Hst, Hne.
  - injection Hst as <- <-. apply Ht, connect_touches.
  - destruct (shut_down (bus w)) as [[b wk] n] eqn:E. injection Hst as <- <-. by eapply Ht, shut_down_touches.
  - pose proof (subscribe_keeps (bus w) name held s Hs) as Hk. destruct (subscribe _ _ _) as [b res].
    injection Hst as <- <-. by exists s.
  - destruct (subscribers w !! i) as [held'|]; injection Hst as <- <-; [|by exists s].
    exists s. split; [|done]. apply unsubscribe_keeps; [done|congruence].
  - destruct (fanout _ _ _ _ _ _) as [[[b wk] res]|] eqn:E; [|done]. injection Hst as <- <-.
    by eapply Ht, fanout_touches.
  - destruct (subscribers w !! i) as [held'|]; [|injection Hst as <- <-; by exists s].
    pose proof (other_poll_keeps (bus w) held held' k s Hs ltac:(congruence)) as Hk.
    destruct (poll_next _ _ _) as [b res]. injection Hst as <- <-. by exists s.
  - destruct (subscribers w !! i) as [held'|]; [|injection Hst as <- <-; by exists s].
    destruct (try_next_keeps (bus w) held held' s Hs) as (s' & Hk & Hre).
    destruct (try_next _ _) as [b res]. injection Hst as <- <-. exists s'. by rewrite Hre.
  - destruct (messages w !! i) as [m|]; [|injection Hst as <- <-; by exists s].
    destruct (settled_with (bus w) m verb) as [[b wk]|] eqn:E; [|done]. injection Hst as <- <-.
    by eapply Ht, settled_touches.
Qed.

Lemma falls_asleep_registered w op w' woken held waker :
  step w op = Some (w', woken) -> wf w -> falls_asleep w op = Some (held, waker) ->
  is_Some (slot (bus w) held) /\ exists s', slot (bus w') held = Some s' /\ wr_held (reader s') = Some waker.
Proof.
  intros Hst Hw Hf. destruct op as [| |?|?|???|i k|?|??]; try done. simpl in Hst, Hf.
  destruct (subscribers w !! i) as [held'|]; [|done].
  destruct (slot (bus w) held') as [s|] eqn:Hs; cycle 1.
  { unfold poll_next in Hf. rewrite Hs in Hf. done. }
  destruct (poll_slot (bus w) held' k s Hs) as (s' & Hs' & _ & Hp). destruct (poll_next (bus w) held' k) as [b [o|]]; [done|].
  injection Hf as <- <-. injection Hst as <- _. split; [by eexists|]. exists s'. split; [done|]. by apply Hp.
Qed.

Lemma watched_registered w asleep held waker :
  watched w asleep -> (held, waker) ∈ asleep ->
  exists s, slot (bus w) held = Some s /\ wr_held (reader s) = Some waker.
Proof.
  intros Hw. revert held waker. induction Hw as [|w asleep op w' asleep' Hw IH Hg Hs]; intros held waker Hin.
  { by apply not_elem_of_nil in Hin. }
  unfold watch in Hs. destruct (step w op) as [[w1 woken]|] eqn:Est; [|done]. injection Hs as -> <-.
  apply elem_of_app in Hin as [Hin|[Hk Hin]%elem_of_filterb].
  - destruct (falls_asleep w op) as [sl|] eqn:Ef; [|by apply not_elem_of_nil in Hin].
    apply list_elem_of_singleton in Hin as <-. eapply falls_asleep_registered; [done|by apply reachable_wf, (watched_reachable w asleep)|done].
  - apply andb_true_iff in Hk as [Hne%negb_true_iff%bool_decide_eq_false Hn%negb_true_iff%bool_decide_eq_false].
    destruct (IH held waker Hin) as (s & Hsl & Hr). by eapply step_keeps_sleeper.
Qed.

(** *** Batches *)

Definition taken_from (n : nat) (s s' : Slot) : Prop :=
  bq_items (queue s') = drop n (bq_items (queue s)) /\ in_hand s' = in_hand s + n /\
  generation s' = generation s /\ standing s' = standing s.

Lemma try_next_first (b : BusState) held s d rest :
  slot b held = Some s -> bq_items (queue s) = d :: rest ->
  exists b' s', try_next b held = (b', Some d) /\ slot b' held = Some s' /\ taken_from 1 s s'.
Proof.
  intros Hs Hq. unfold try_next. rewrite Hs.
  destruct (bq_pop_first _ _ _ Hq) as (q & -> & Hi & _).
  exists (set_slot b held (take_in_hand s q)), (take_in_hand s q). split; [done|]. split.
  - apply slot_Some in Hs as (Hl & Hg & Hst). apply slot_Some. simpl.
    rewrite list_lookup_insert_eq by (by eapply lookup_lt_Some). done.
  - unfold taken_from. rewrite Hq. simpl. split_and!; [done|lia|done|done].
Qed.

Lemma fill_spec fuel (b : BusState) held limit taken s :
  slot b held = Some s -> limit - length taken <= fuel ->
  let n := Nat.min (limit - length taken) (length (bq_items (queue s))) in
  exists b' s', fill fuel b held limit taken = (b', taken ++ take n (bq_items (queue s))) /\
    slot b' held = Some s' /\ taken_from n s s'.
Proof.
  revert b taken s. induction fuel as [|fuel IH]; intros b taken s Hs Hf; simpl.
  - replace (limit - length taken) with 0 by lia. simpl. exists b, s. rewrite app_nil_r.
    unfold taken_from. rewrite drop_0, Nat.add_0_r. by split_and!.
  - destruct (Nat.ltb_spec (length taken) limit) as [Hlt|Hge].
    + destruct (bq_items (queue s)) as [|d rest] eqn:Hq.
      * unfold try_next. rewrite Hs, (bq_pop_empty _ Hq), Nat.min_0_r. simpl.
        exists b, s. rewrite app_nil_r. unfold taken_from. rewrite Hq, Nat.add_0_r. by split_and!.
      * destruct (try_next_first b held s d rest Hs Hq) as (b1 & s1 & -> & Hs1 & Ht).
        destruct (IH b1 (taken ++ [d]) s1 Hs1) as (b2 & s2 & -> & Hs2 & Ht2);
          [rewrite length_app; simpl; lia|].
        destruct Ht as (Hi1 & Hh1 & Hg1 & Hst1). rewrite Hq in Hi1. simpl in Hi1.
        destruct Ht2 as (Hi2 & Hh2 & Hg2 & Hst2). rewrite Hi1 in *. rewrite drop_0 in *.
        rewrite length_app in *. simpl in *. exists b2, s2.
        replace (limit - length taken) with (S (limit - (length taken + 1))) by lia.
        simpl. rewrite <- app_assoc. split_and!; [done|done|].
        unfold taken_from. rewrite Hq. simpl. split_and!; [done|lia|congruence|congruence].
    + replace (limit - length taken) with 0 by lia. simpl. exists b, s. rewrite app_nil_r.
      unfold taken_from. rewrite drop_0, Nat.add_0_r. by split_and!.
Qed.

(** ** Properties *)

(** No client can bring the fixed bus to its [unreachable!] or past its capacity: on every
    reachable state every operation runs to its end, and after it each subscription's queued
    deliveries and deliveries in hand together still fit [MESSAGES]. *)
Theorem fixed_bus_never_overflows w op :
  reachable w -> (forall name, op = Subscribe name -> generations_left w) ->
  exists w', run w op = Some w' /\
    forall i s, slots (bus w') !! i = Some s ->
      length (bq_items (queue s)) + in_hand s <= MESSAGES.
Proof.
  intros Hr Hg. destruct (run_ok w op (reachable_wf w Hr) Hg) as (w' & Hrun & Hwf).
  exists w'. split; [done|]. intros i s Hi. by apply (wf_slots _ Hwf i s).
Qed.

(** A publish to the fixed bus is all or nothing: either every open subscription of the name
    gets exactly one copy at the end of its queue and no other slot changes, or the bus is
    unchanged and the error names the reason. *)
Theorem fixed_fanout_all_or_nothing w name body hs :
  reachable w ->
  exists b' woken r, fanout MESSAGES PAYLOAD (bus w) name body hs = Some (b', woken, r) /\
  match r with
  | Ok _ =>
      (exists payload, Buf.try_from PAYLOAD body = Ok payload /\
         Forall2 (fanned name (mk_delivery payload hs (delivery_count_of hs)))
           (slots (bus w)) (slots b')) \/
      (b' = bus w /\ forall s, s ∈ slots (bus w) -> reads s name = false)
  | Err e =>
      b' = bus w /\
      match e with
      | ShutDown => live (bus w) = false
      | Full _ => exists s, s ∈ slots (bus w) /\ reads s name = true /\
          MESSAGES <= length (bq_items (queue s)) + in_hand s
      | PayloadTooLarge _ _ => PAYLOAD < length body
      | _ => False
      end
  end.
Proof.
  intros Hr. destruct (fanout_spec w name body hs (reachable_wf w Hr)) as (b' & wk & r & Hf & Hs).
  exists b', wk, r. split; [done|]. destruct r as [[]|e]; [by destruct Hs as (_ & _ & _ & ?)|].
  destruct Hs as (-> & _ & Hs). split; [done|]. destruct e; naive_solver.
Qed.

(** A settlement releases exactly one place of its own subscription: an acknowledgement and a
    discard free it, a requeue and a drop without a settlement put the delivery back at the end of
    the queue counted once more, and a delivery whose subscriber is gone touches no slot. *)
Theorem fixed_settlement_exact w k m verb :
  reachable w -> messages w !! k = Some m ->
  exists b', settle_with (bus w) m verb = Some b' /\
  match slot (bus w) (msg_held m) with
  | Some s =>
      0 < in_hand s /\
      exists s', slot b' (msg_held m) = Some s' /\ in_hand s' = in_hand s - 1 /\
        bq_items (queue s') =
          match verb with
          | VAck | VNack false => bq_items (queue s)
          | VNack true | VDrop =>
              if bool_decide (standing s = Open)
              then bq_items (queue s) ++ [redelivered (delivery m)] else bq_items (queue s)
          end
  | None => b' = bus w
  end.
Proof.
  intros Hreach Hm. pose proof (reachable_wf w Hreach) as Hwf.
  destruct w as [b subs ms]. simpl in *.
  destruct (lookup_delete_split _ _ _ Hm) as (l1 & l2 & -> & _ & _).
  assert (Hun : settled m = false).
  { pose proof (wf_unsettled _ Hwf) as Hu. simpl in Hu. apply Forall_app in Hu as [_ Hu].
    by apply Forall_cons_1 in Hu as [? _]. }
  assert (Hplain : match slot b (msg_held m) with
    | Some s => 0 < in_hand s /\ exists s', slot (settle b (msg_held m)) (msg_held m) = Some s' /\
        in_hand s' = in_hand s - 1 /\ bq_items (queue s') = bq_items (queue s)
    | None => settle b (msg_held m) = b
    end).
  { unfold settle. destruct (slot b (msg_held m)) as [s|] eqn:Hs; [|done].
    apply slot_Some in Hs as (Hl & Hgen & Hst).
    destruct (settled_ok l1 m l2 s (wf_slots _ Hwf _ _ Hl) Hst Hgen) as [Hpos _].
    split; [done|].
    exists (mk_slot (generation s) (standing s) (slot_name s) (queue s) (in_hand s - 1) (reader s)).
    split; [|by split]. apply slot_Some. simpl.
    rewrite list_lookup_insert_eq by (by eapply lookup_lt_Some). done. }
  destruct (requeue_settle_ok b subs l1 m l2 (redelivered (delivery m)) Hwf)
    as (b' & wk & r & Hrq & _ & Hback).
  assert (Hrequeued : match slot b (msg_held m) with
    | Some s => 0 < in_hand s /\ exists s', slot (settle b' (msg_held m)) (msg_held m) = Some s' /\
        in_hand s' = in_hand s - 1 /\ bq_items (queue s') =
          (if bool_decide (standing s = Open)
           then bq_items (queue s) ++ [redelivered (delivery m)] else bq_items (queue s))
    | None => settle b' (msg_held m) = b
    end).
  { destruct (slot b (msg_held m)) as [s|]; [|by destruct Hback as [-> _]].
    destruct (bool_decide (standing s = Open)).
    - destruct Hback as (_ & s' & ? & ? & ?). split; [by destruct Hplain|]. by exists s'.
    - by destruct Hback as [-> _]. }
  destruct verb as [|[]|]; unfold settle_with; simpl; unfold nack, ack, drop_message; simpl.
  - by eexists.
  - unfold requeue_message. rewrite Hrq. simpl. by eexists.
  - by eexists.
  - rewrite Hun. unfold requeue_message. rewrite Hrq. simpl. by eexists.
Qed.

(** C39. A reader of the fixed bus is never left asleep: over any sequence of operations, while a
    subscription's last poll with a waker answered [Pending] and no operation since has woken that
    waker - nor the subscriber been polled again or dropped - its slot holds that waker, is open and
    has an empty queue, so its next poll would find nothing either.  What gives the slot something or
    closes it, then, wakes the waker the poll was made with: a publish, a requeue, a delivery dropped
    unsettled, the shutdown.  And a slot that holds any waker is open with an empty queue. *)
Theorem fixed_no_lost_wakeup w asleep :
  watched w asleep ->
  (forall held waker, (held, waker) ∈ asleep ->
     exists s, slot (bus w) held = Some s /\ wr_held (reader s) = Some waker /\
       bq_items (queue s) = [] /\ standing s = Open /\
       may_be_ready (bus w) held = false /\ snd (poll_next (bus w) held waker) = Pending) /\
  (forall i s, slots (bus w) !! i = Some s -> wr_held (reader s) <> None ->
     bq_items (queue s) = [] /\ standing s = Open).
Proof.
  intros Hw. pose proof (reachable_wf w (watched_reachable w asleep Hw)) as Hwf.
  assert (Hp : forall i s, slots (bus w) !! i = Some s -> wr_held (reader s) <> None ->
    bq_items (queue s) = [] /\ standing s = Open).
  { intros i s Hi. apply (ok_parked _ _ _ (wf_slots _ Hwf i s Hi)). }
  split; [|exact Hp]. intros held waker Hin. destruct (watched_registered w asleep held waker Hw Hin) as (s & Hs & Hr).
  pose proof (proj1 (slot_Some _ _ _) Hs) as (Hl & _). destruct (Hp _ _ Hl) as [Hq Ho]; [congruence|].
  exists s. split_and!; [done..| |]; [unfold may_be_ready|unfold poll_next]; rewrite Hs.
  - by rewrite bq_len_items, Hq, Ho.
  - by rewrite (bq_pop_empty _ Hq), Ho.
Qed.

(** A batch of the fixed bus is the longest prefix of the waiting deliveries the asked size and
    the capacity allow, it is never empty, and its deliveries are all counted in hand. *)
Theorem fixed_batch_prefix (b : BusState) held s size waker :
  slot b held = Some s -> bq_items (queue s) <> [] -> 0 < size -> 0 < MESSAGES ->
  let n := Nat.min (Nat.min size MESSAGES) (length (bq_items (queue s))) in
  0 < n /\
  exists b' s', poll_fill MESSAGES b held size waker =
      (b', Ready (Some (take n (bq_items (queue s))))) /\
    slot b' held = Some s' /\ taken_from n s s'.
Proof.
  intros Hs Hne Hsize Hm n. destruct (bq_items (queue s)) as [|d rest] eqn:Hq; [done|].
  split; [unfold n; simpl; lia|].
  destruct (try_next_first b held s d rest Hs Hq) as (b1 & s1 & Ht & Hs1 & Htk).
  unfold poll_fill, poll_next. unfold try_next in Ht. rewrite Hs in *.
  destruct (bq_pop (queue s)) as [[d' q]|]; [|done]. injection Ht as <- ->.
  destruct (fill_spec (Nat.min size MESSAGES) _ held (Nat.min size MESSAGES) [d] s1 Hs1)
    as (b2 & s2 & -> & Hs2 & Htk2); [simpl; lia|].
  destruct Htk as (Hi1 & Hh1 & Hg1 & Hst1), Htk2 as (Hi2 & Hh2 & Hg2 & Hst2).
  rewrite Hq in Hi1. simpl in Hi1. rewrite drop_0 in Hi1. rewrite Hi1 in *.
  assert (Hn : n = S (Nat.min (Nat.min size MESSAGES - 1) (length rest))) by (unfold n; simpl; lia).
  exists b2, s2. rewrite Hn. simpl. split_and!; [done|done|]. unfold taken_from. rewrite Hq. simpl.
  simpl in *. split_and!; [done|lia|congruence|congruence].
Qed.
End system.

(** *** Witnesses: a bus of two subscriptions of two messages *)

Definition Small := @World LQueue (option nat) HeaderMap.HeaderMap.
Definition small_initial : Small := initial 2 2.

Fixpoint play (w : Small) (ops : list (@Op HeaderMap.HeaderMap)) : option Small :=
  match ops with
  | [] => Some w
  | op :: rest =>
      if forallb (fun s => (generation s <? u32_max)%N) (slots (bus w))
      then w ← run 2 64 2 w op; play w rest else None
  end.

Lemma play_reachable ops w w' :
  reachable 2 64 2 w -> play w ops = Some w' -> reachable 2 64 2 w'.
Proof.
  revert w. induction ops as [|op ops IH]; intros w Hr; simpl; [by intros [= <-]|].
  destruct (forallb _ _) eqn:Hg; [|done]. destruct (run 2 64 2 w op) as [w1|] eqn:Hrun; [|done].
  simpl. apply IH. eapply reach_step; [done| |done]. intros name _. apply Forall_forall.
  intros s Hs. rewrite forallb_elem in Hg. specialize (Hg s Hs). by bool_prop.
Qed.

(** A reader that found its subscription empty, a publish, the delivery in hand. *)
Definition parked_ops : list (@Op HeaderMap.HeaderMap) :=
  [Connect; Subscribe (Static "temp"); Poll 0 7].
Definition parked : Small := default small_initial (play small_initial parked_ops).
Definition in_hand_ops : list (@Op HeaderMap.HeaderMap) :=
  parked_ops ++ [Publish "temp" (as_bytes "21") HeaderMap.new; Poll 0 7].
Definition one_in_hand : Small := default small_initial (play small_initial in_hand_ops).

Lemma parked_reachable : reachable 2 64 2 parked.
Proof. apply (play_reachable parked_ops small_initial); [apply reach_init|by vm_compute]. Qed.
Lemma one_in_hand_reachable : reachable 2 64 2 one_in_hand.
Proof. apply (play_reachable in_hand_ops small_initial); [apply reach_init|by vm_compute]. Qed.

Lemma fixed_bus_never_overflows_witness :
  exists w', run 2 64 2 parked (Publish "temp" (as_bytes "21") HeaderMap.new) = Some w' /\
    forall i s, slots (bus w') !! i = Some s -> length (bq_items (queue s)) + in_hand s <= 2.
Proof.
  apply (fixed_bus_never_overflows 2 64 2 parked); [apply parked_reachable|intros name E; discriminate].
Defined.

Lemma fixed_fanout_all_or_nothing_witness :
  exists b' woken r, fanout 2 64 (bus parked) "temp" (as_bytes "21") HeaderMap.new = Some (b', woken, r) /\
    is_ok r = true.
Proof.
  destruct (fixed_fanout_all_or_nothing 2 64 2 parked "temp" (as_bytes "21") HeaderMap.new
    parked_reachable) as (b' & wk & r & Hf & _).
  exists b', wk, r. split; [done|]. vm_compute in Hf. by injection Hf as <- <- <-.
Defined.

Lemma fixed_settlement_exact_witness :
  exists m b', messages one_in_hand !! 0 = Some m /\
    settle_with 64 (bus one_in_hand) m (VNack true) = Some b'.
Proof.
  destruct (messages one_in_hand !! 0) as [m|] eqn:Hm; [|vm_compute in Hm; discriminate].
  destruct (fixed_settlement_exact 2 64 2 one_in_hand 0 m (VNack true) one_in_hand_reachable Hm)
    as (b' & Hb & _).
  by exists m, b'.
Defined.

(** Readers of two names asleep; one is woken by a publish,
    polls the delivery and sleeps again, and its requeue or the shutdown wakes it. *)
Fixpoint play_watched (w : Small) (asleep : list Sleeper) (ops : list (@Op HeaderMap.HeaderMap)) : option (Small * list Sleeper) :=
  match ops with
  | [] => Some (w, asleep)
  | op :: rest =>
      if forallb (fun s => (generation s <? u32_max)%N) (slots (bus w))
      then '(w, asleep) ← watch 2 64 2 w asleep op; play_watched w asleep rest else None
  end.

Lemma play_watched_ok ops w asleep w' asleep' :
  watched 2 64 2 w asleep -> play_watched w asleep ops = Some (w', asleep') -> watched 2 64 2 w' asleep'.
Proof.
  revert w asleep. induction ops as [|op ops IH]; intros w asleep Hr; simpl; [by intros [= <- <-]|].
  destruct (forallb _ _) eqn:Hg; [|done]. destruct (watch 2 64 2 w asleep op) as [[w1 a1]|] eqn:Hrun; [|done].
  simpl. apply IH. eapply watch_step; [done| |done]. intros name _. apply Forall_forall.
  intros s Hs. rewrite forallb_elem in Hg. specialize (Hg s Hs). by bool_prop.
Qed.

Definition sleepers_ops : list (@Op HeaderMap.HeaderMap) :=
  [Connect; Subscribe (Static "temp"); Subscribe (Static "alarm"); Poll 0 7; Poll 1 8].
Definition sleepers (ops : list (@Op HeaderMap.HeaderMap)) : Small * list Sleeper :=
  default (small_initial, []) (play_watched small_initial [] (sleepers_ops ++ ops)).

Lemma sleepers_watched ops : watched 2 64 2 (fst (sleepers ops)) (snd (sleepers ops)).
Proof.
  unfold sleepers. destruct (play_watched _ _ _) as [[w a]|] eqn:E; [|apply watch_init].
  by eapply play_watched_ok; [apply watch_init|].
Qed.

(** Who sleeps: nobody is woken at first; a publish wakes the reader of its name only; a reader that
    took the delivery and found no other sleeps again, is woken by its requeue, and by the shutdown. *)
Lemma sleepers_are_woken :
  snd (sleepers []) = [(mk_held 0 1, 8); (mk_held 1 1, 7)] /\
  snd (sleepers [Publish "temp" (as_bytes "21") HeaderMap.new]) = [(mk_held 1 1, 7)] /\
  snd (sleepers [Publish "temp" (as_bytes "21") HeaderMap.new; Poll 1 8; Poll 1 8]) = [(mk_held 0 1, 8); (mk_held 1 1, 7)] /\
  snd (sleepers [Publish "temp" (as_bytes "21") HeaderMap.new; Poll 1 8; Poll 1 8; Settle 0 (VNack true)]) = [(mk_held 1 1, 7)] /\
  snd (sleepers [Publish "temp" (as_bytes "21") HeaderMap.new; Poll 1 8; Poll 1 8; ShutDownBus]) = [].
Proof. by vm_compute. Qed.

Lemma fixed_no_lost_wakeup_witness :
  exists s, slot (bus (fst (sleepers [Publish "temp" (as_bytes "21") HeaderMap.new]))) (mk_held 1 1) = Some s /\
    wr_held (reader s) = Some 7 /\ bq_items (queue s) = [].
Proof.
  destruct (proj1 (fixed_no_lost_wakeup 2 64 2 _ _ (sleepers_watched [Publish "temp" (as_bytes "21") HeaderMap.new]))
    (mk_held 1 1) 7) as (s & Hs & Hr & Hq & _).
  { rewrite (proj1 (proj2 sleepers_are_woken)). left. }
  by exists s.
Defined.

Definition waiting_ops : list (@Op HeaderMap.HeaderMap) :=
  parked_ops ++ [Publish "temp" (as_bytes "21") HeaderMap.new; Publish "temp" (as_bytes "22") HeaderMap.new].
Definition two_waiting : Small := default small_initial (play small_initial waiting_ops).

Lemma fixed_batch_prefix_witness :
  exists s b', slot (bus two_waiting) (mk_held 0 1) = Some s /\
    poll_fill 2 (bus two_waiting) (mk_held 0 1) 5 7 = (b', Ready (Some (take 2 (bq_items (queue s))))).
Proof.
  destruct (slot (bus two_waiting) (mk_held 0 1)) as [s|] eqn:Hs; [|vm_compute in Hs; discriminate].
  assert (Hlen : length (bq_items (queue s)) = 2) by (vm_compute in Hs; by injection Hs as <-).
  destruct (fixed_batch_prefix 2 (bus two_waiting) (mk_held 0 1) s 5 7 Hs) as (_ & b' & s' & Hp & _);
    [by destruct (bq_items (queue s))|lia|lia|].
  exists s, b'. split; [done|]. rewrite Hlen in Hp. exact Hp.
Defined.

End FixedBus.
