(* ===== verification/MemorySub.v ===== *)
(** * Subscriptions of the in-memory broker ([crates/memory/src/subscriber.rs],
    [capability.rs], [capability/seek.rs])

    The poll of a subscription (pending seek, stale deliveries), the settlement of what it yields,
    the greedy batch, and the seek handoff.  A subscription's receiver and its own requeue sender
    are one channel of [Memory]'s store; the timers of delayed redeliveries are a list of the
    world.  The waker of a seek is a [WakerRegistration]. *)
From Stdlib Require Import Ascii String.
From S2P Require Import Prelude RustStd Pattern Headers Queue Log Memory.

Module MemorySub.
Import Memory.

(** [MemoryPosition], and where it lies in a log holding [oldest] up to [tip]. *)
Inductive MemoryPosition :=
  | Start
  | Sequence (n : nat)
  | End.

Definition resolve (p : MemoryPosition) (oldest tip : nat) : result nat MemoryError :=
  match p with
  | Start => Ok oldest
  | End => Ok tip
  | Sequence n => if oldest <=? n then Ok (Nat.min n tip) else Err (PositionEvicted n oldest)
  end.

Section sub.
Context {C : Type -> Type} `{Unbounded C} `{!UnboundedLaws C}.
Context {R : Type} `{WakerRegistration R} `{!WakerRegistrationLaws R}.

Abbreviation Channel := (C MemoryDelivery).
Abbreviation MemoryState := (@MemoryState C).

Record SeekControl := mk_seek { pending : option nat; watermark : nat; waker : R }.

(** [SeekControl::request]: whether a reposition was already pending. *)
Definition request (c : SeekControl) (target : nat) : SeekControl * bool :=
  (mk_seek (Some target) target (waker c), bool_decide (is_Some (pending c))).

(** [SeekControl::take]. *)
Definition take_pending (c : SeekControl) : SeekControl * option nat :=
  (mk_seek None (watermark c) (waker c), pending c).

(** [MemorySubscriber]: its name, its channel and its seek handoff. *)
Record Subscriber := mk_sub { sub_name : string; rx : nat; seek_control : SeekControl }.

Definition new_subscriber (name : string) (rx : nat) : Subscriber :=
  mk_sub name rx (mk_seek None 0 wr_new).

Definition with_seek (u : Subscriber) (c : SeekControl) : Subscriber := mk_sub (sub_name u) (rx u) c.

(** [MemorySeeker::seek]; the waker woken is the last component. *)
Definition seek (s : MemoryState) (u : Subscriber) (to : MemoryPosition)
  : Subscriber * result unit MemoryError * option nat :=
  match bus s with
  | Down _ => (u, Err ShutDown, None)
  | Live _ =>
      let '(oldest, tip) :=
        match Log.log_of (log s) (sub_name u) with
        | Some l => (Log.first_seq l, Log.next_seq l)
        | None => (0, 0)
        end in
      match resolve to oldest tip with
      | Err evicted => (u, Err evicted, None)
      | Ok target =>
          let (c, _) := request (seek_control u) target in
          let (r, woken) := wr_wake (waker c) in
          (with_seek u (mk_seek (pending c) (watermark c) r), Ok tt, woken)
      end
  end.

(** [while self.rx.try_recv().is_ok()]; the fuel is the number of items. *)
Fixpoint drain (fuel : nat) (c : Channel) : Channel :=
  match fuel with
  | 0 => c
  | S fuel => match ch_try_recv c with Some (_, c) => drain fuel c | None => c end
  end.

(** [SubscriptionShared::requeue_replay]. *)
Fixpoint requeue_replay (c : Channel) (retained : list (nat * DeliveryInner)) : Channel :=
  match retained with
  | [] => c
  | (seq, entry) :: rest => requeue_replay (fst (ch_send c (mk_delivery entry seq 1))) rest
  end.

(** [MemorySubscriber::replay_from]. *)
Definition replay_from (s : MemoryState) (u : Subscriber) (target : nat) : MemoryState :=
  match bus s with
  | Down _ => s
  | Live _ =>
      let retained := Log.log_of (log s) (sub_name u) in
      set_channels s (alter (fun c =>
        let c := drain (length (ch_items c)) c in
        match retained with
        | Some l => requeue_replay c (Log.replay_from l target)
        | None => c
        end) (rx u) (channels s))
  end.

Definition apply_pending_seek (mode : Log.LogMode) (s : MemoryState) (u : Subscriber)
  : MemoryState * Subscriber :=
  if Log.retains mode then
    let (c, target) := take_pending (seek_control u) in
    match target with
    | None => (s, with_seek u c)
    | Some target => (replay_from s u target, with_seek u c)
    end
  else (s, u).

Definition begin_poll (mode : Log.LogMode) (s : MemoryState) (u : Subscriber) (w : nat)
  : MemoryState * Subscriber :=
  let c := seek_control u in
  let u := if Log.retains mode
           then with_seek u (mk_seek (pending c) (watermark c) (wr_register (waker c) w)) else u in
  apply_pending_seek mode s u.

(** The loop of [poll_fresh] over the receiver: a stale pre-seek copy is dropped.  The fuel is the
    number of items plus one. *)
Fixpoint poll_loop (fuel : nat) (mode : Log.LogMode) (mark : nat) (c : Channel)
  : Channel * poll MemoryDelivery :=
  match fuel with
  | 0 => (c, Pending)
  | S fuel =>
      match ch_try_recv c with
      | None => (c, if ch_is_closed c then Ready None else Pending)
      | Some (d, c) =>
          if Log.retains mode && (seq d <? mark) then poll_loop fuel mode mark c
          else (c, Ready (Some d))
      end
  end.

Definition poll_fresh (mode : Log.LogMode) (s : MemoryState) (u : Subscriber)
  : MemoryState * poll MemoryDelivery :=
  match channels s !! rx u with
  | Some c =>
      let (c, p) := poll_loop (S (length (ch_items c))) mode (watermark (seek_control u)) c in
      (set_channels s (<[rx u := c]> (channels s)), p)
  | None => (s, Ready None)
  end.

(** [MemoryMessage]: the delivery until it is taken, and the subscription it came from; an inbox
    reply has none. *)
Record Message := mk_message { delivery : option MemoryDelivery; subscription : option nat }.

Definition message (u : Subscriber) (d : MemoryDelivery) : Message := mk_message (Some d) (Some (rx u)).
Definition inbox_message (d : MemoryDelivery) : Message := mk_message (Some d) None.

(** One poll of [stream]. *)
Definition poll_stream (mode : Log.LogMode) (s : MemoryState) (u : Subscriber) (w : nat)
  : MemoryState * Subscriber * poll Message :=
  let (s, u) := begin_poll mode s u w in
  let (s, p) := poll_fresh mode s u in
  (s, u, match p with
         | Ready (Some d) => Ready (Some (message u d))
         | Ready None => Ready None
         | Pending => Pending
         end).

(** The greedy drain of [poll_fill] up to [limit] messages; the fuel is the room left. *)
Fixpoint fill (room : nat) (mode : Log.LogMode) (s : MemoryState) (u : Subscriber) (slot : list Message)
  : MemoryState * list Message :=
  match room with
  | 0 => (s, slot)
  | S room =>
      match poll_fresh mode s u with
      | (s, Ready (Some d)) => fill room mode s u (slot ++ [message u d])
      | (s, _) => (s, slot)
      end
  end.

(** [Greedy::poll_fill] over an empty slot. *)
Definition poll_fill (mode : Log.LogMode) (s : MemoryState) (u : Subscriber) (w limit : nat)
  : MemoryState * Subscriber * poll (list Message) :=
  let (s, u) := begin_poll mode s u w in
  match poll_fresh mode s u with
  | (s, Pending) => (s, u, Pending)
  | (s, Ready None) => (s, u, Ready None)
  | (s, Ready (Some first)) =>
      let (s, slot) := fill (limit - 1) mode s u [message u first] in
      (s, u, Ready (Some slot))
  end.

(** *** Settlement *)

(** A delayed redelivery waiting on its timer. *)
Record Timer := mk_timer { delay : N; back : nat; redelivery : MemoryDelivery }.

Definition requeue_now (s : MemoryState) (m : Message) (d : MemoryDelivery) : MemoryState :=
  match subscription m with
  | None => s
  | Some tx => set_channels s (send_to (channels s) [tx] d)
  end.

(** The drop of a message, settled or not. *)
Definition drop_message (s : MemoryState) (m : Message) : MemoryState :=
  match delivery m with
  | Some d => requeue_now s m (redelivered d)
  | None => s
  end.

(** [MemoryMessage::name]. *)
Definition message_name (m : Message) : string :=
  match delivery m with Some d => Log.name (shared d) | None => "" end.

(** [IncomingMessage] and [Positioned] for a message. *)
Definition message_payload (m : Message) : bytes :=
  match delivery m with Some d => Log.payload (shared d) | None => [] end.
Definition message_headers (m : Message) : HeaderMap :=
  match delivery m with Some d => Log.headers (shared d) | None => HeaderMap.new end.
Definition redelivery_count (m : Message) : option N := deliveries <$> delivery m.
Definition message_position (m : Message) : MemoryPosition :=
  Sequence (match delivery m with Some d => seq d | None => 0 end).
Definition partition_key (m : Message) : option bytes := HeaderMap.get (message_headers m) "partition-key".

(** A settlement consumes the message: its drop, with the delivery taken, runs last.  [None] is the
    panic of a delivery already consumed. *)
Definition ack (s : MemoryState) (m : Message) : MemoryState :=
  drop_message s (mk_message None (subscription m)).

Definition nack (s : MemoryState) (m : Message) (requeue : bool) : option MemoryState :=
  match delivery m with
  | None => None
  | Some d =>
      let m := mk_message None (subscription m) in
      let s := if requeue then requeue_now s m (redelivered d) else s in
      Some (drop_message s m)
  end.

Definition nack_after (s : MemoryState) (m : Message) (after : N) : option (MemoryState * option Timer) :=
  match delivery m with
  | None => None
  | Some d =>
      let d := redelivered d in
      let m := mk_message None (subscription m) in
      if N.eqb after 0 then Some (drop_message (requeue_now s m d) m, None)
      else match subscription m with
           | None => Some (drop_message s m, None)
           | Some tx => Some (drop_message s (mk_message None None), Some (mk_timer after tx d))
           end
  end.

(** The task of a delayed redelivery once its delay has run out. *)
Definition fire (s : MemoryState) (t : Timer) : MemoryState :=
  set_channels s (send_to (channels s) [back t] (redelivery t)).

(** [into_raw]: the name, payload and headers; the delivery is neither settled nor returned. *)
Definition into_raw (m : Message) : option (string * bytes * HeaderMap) :=
  match delivery m with
  | Some d => Some (Log.name (shared d), Log.payload (shared d), Log.headers (shared d))
  | None => None
  end.

(** ** The poll of a channel *)

Lemma drain_spec n c :
  length (ch_items c) <= n ->
  ch_items (drain n c) = [] /\ ch_is_closed (drain n c) = ch_is_closed c.
Proof.
  revert c. induction n as [|n IH]; intros c Hn; simpl.
  - destruct (ch_items c) eqn:Hi; [done|simpl in Hn; lia].
  - destruct (ch_items c) as [|x rest] eqn:Hi.
    + by rewrite ch_try_recv_empty.
    + destruct (ch_try_recv_first c x rest Hi) as (c' & -> & Hr & Hcl). rewrite <- Hcl.
      apply IH. rewrite Hr. simpl in Hn. lia.
Qed.

Definition fresh_of (e : nat * DeliveryInner) : MemoryDelivery := mk_delivery e.2 e.1 1.

Lemma requeue_replay_spec l c :
  ch_is_closed c = false ->
  ch_items (requeue_replay c l) = ch_items c ++ (fresh_of <$> l) /\
  ch_is_closed (requeue_replay c l) = false.
Proof.
  revert c. induction l as [|[n e] l IH]; intros c Hc; simpl; [by rewrite app_nil_r|].
  destruct (ch_send_open c (mk_delivery e n 1) Hc) as (_ & Hi & Hc').
  destruct (IH _ Hc') as [-> ?]. split; [|done]. rewrite Hi, <- app_assoc. done.
Qed.

(** What a poll drops before it finds a delivery to hand out. *)
Definition stale (mode : Log.LogMode) (mark : nat) (d : MemoryDelivery) : bool :=
  Log.retains mode && (seq d <? mark).

Lemma poll_loop_spec mode mark n c :
  length (ch_items c) < n ->
  let (c', p) := poll_loop n mode mark c in
  ch_is_closed c' = ch_is_closed c /\
  match p with
  | Ready (Some d) => exists skipped, ch_items c = skipped ++ d :: ch_items c' /\
      Forall (fun x => stale mode mark x = true) skipped /\ stale mode mark d = false
  | Ready None => Forall (fun x => stale mode mark x = true) (ch_items c) /\
      ch_items c' = [] /\ ch_is_closed c = true
  | Pending => Forall (fun x => stale mode mark x = true) (ch_items c) /\
      ch_items c' = [] /\ ch_is_closed c = false
  end.
Proof.
  revert c. induction n as [|n IH]; intros c Hn; simpl; [lia|].
  destruct (ch_items c) as [|x rest] eqn:Hi.
  - rewrite ch_try_recv_empty by done. split; [done|].
    destruct (ch_is_closed c); by rewrite Hi.
  - destruct (ch_try_recv_first c x rest Hi) as (c1 & -> & Hr & Hcl).
    change (Log.retains mode && (seq x <? mark)) with (stale mode mark x).
    destruct (stale mode mark x) eqn:Hs.
    + specialize (IH c1). rewrite Hr in IH. specialize (IH ltac:(simpl in Hn; lia)).
      destruct (poll_loop n mode mark c1) as [c' p]. destruct IH as [Hc Hp]. rewrite Hcl in *.
      split; [done|]. destruct p as [[d|]|].
      * destruct Hp as (sk & Heq & Hall & Hd). exists (x :: sk). split; [by rewrite Heq|]. by split; [constructor|].
      * destruct Hp as (Hall & ?). by split; [constructor|].
      * destruct Hp as (Hall & ?). by split; [constructor|].
    + split; [done|]. exists []. rewrite Hr. by split_and!; [|constructor|].
Qed.

Lemma lookup_channels_insert (s : MemoryState) tx c c' :
  channels s !! tx = Some c -> channels (set_channels s (<[tx := c']> (channels s))) !! tx = Some c'.
Proof. intros Hc. simpl. apply list_lookup_insert_eq. by eapply lookup_lt_Some. Qed.

Lemma poll_fresh_spec mode (s : MemoryState) u c :
  channels s !! rx u = Some c ->
  let (s', p) := poll_fresh mode s u in
  exists c', channels s' = <[rx u := c']> (channels s) /\ channels s' !! rx u = Some c' /\
  ch_is_closed c' = ch_is_closed c /\ bus s' = bus s /\ log s' = log s /\ recording s' = recording s /\
  let st := stale mode (watermark (seek_control u)) in
  match p with
  | Ready (Some d) => exists skipped, ch_items c = skipped ++ d :: ch_items c' /\
      Forall (fun x => st x = true) skipped /\ st d = false
  | Ready None => Forall (fun x => st x = true) (ch_items c) /\ ch_items c' = [] /\ ch_is_closed c = true
  | Pending => Forall (fun x => st x = true) (ch_items c) /\ ch_items c' = [] /\ ch_is_closed c = false
  end.
Proof.
  intros Hc. unfold poll_fresh. rewrite Hc.
  pose proof (poll_loop_spec mode (watermark (seek_control u)) (S (length (ch_items c))) c ltac:(lia)) as Hp.
  destruct (poll_loop _ _ _ _) as [c' p]. destruct Hp as [Hcl Hp].
  exists c'. split; [done|]. split; [by eapply lookup_channels_insert|]. done.
Qed.

(** Without a pending seek a poll starts by changing nothing but the waker. *)
Lemma begin_poll_idle mode (s : MemoryState) u w :
  pending (seek_control u) = None ->
  exists u', begin_poll mode s u w = (s, u') /\ rx u' = rx u /\ sub_name u' = sub_name u /\
    pending (seek_control u') = None /\ watermark (seek_control u') = watermark (seek_control u).
Proof.
  intros Hp. unfold begin_poll, apply_pending_seek. destruct (Log.retains mode); simpl.
  - rewrite Hp. eexists. by split_and!.
  - by exists u.
Qed.

Lemma filter_stale_app mode mark skipped d rest :
  Forall (fun x => stale mode mark x = true) skipped -> stale mode mark d = false ->
  List.filter (fun x => negb (stale mode mark x)) (skipped ++ d :: rest) =
  d :: List.filter (fun x => negb (stale mode mark x)) rest.
Proof.
  intros Hall Hd. rewrite List.filter_app. rewrite filterb_none; simpl.
  - by rewrite Hd.
  - intros x Hx. rewrite Forall_forall in Hall. by rewrite Hall.
Qed.

Lemma filter_stale_none mode mark l :
  Forall (fun x => stale mode mark x = true) l ->
  List.filter (fun x => negb (stale mode mark x)) l = [].
Proof. intros Hall. apply filterb_none. intros x Hx. rewrite Forall_forall in Hall. by rewrite Hall. Qed.

Definition fresh_items (mode : Log.LogMode) (u : Subscriber) (c : Channel) : list MemoryDelivery :=
  List.filter (fun x => negb (stale mode (watermark (seek_control u)) x)) (ch_items c).

Lemma greedy_fill_spec room mode (s : MemoryState) u slot c :
  channels s !! rx u = Some c ->
  let (s', slot') := fill room mode s u slot in
  exists c', channels s' !! rx u = Some c' /\ ch_is_closed c' = ch_is_closed c /\
    slot' = slot ++ (message u <$> take room (fresh_items mode u c)) /\
    fresh_items mode u c' = drop room (fresh_items mode u c) /\
    (forall tx, tx <> rx u -> channels s' !! tx = channels s !! tx).
Proof.
  revert s slot c. induction room as [|room IH]; intros s slot c Hc; simpl.
  { exists c. split_and!; try done. by rewrite app_nil_r. }
  pose proof (poll_fresh_spec mode s u c Hc) as Hp. destruct (poll_fresh mode s u) as [s1 p].
  destruct Hp as (c1 & Hcs & Hc1 & Hcl & _ & _ & _ & Hp).
  assert (Hoth : forall tx, tx <> rx u -> channels s1 !! tx = channels s !! tx).
  { intros tx Hne. rewrite Hcs. by rewrite list_lookup_insert_ne. }
  assert (Hnone : Forall (fun x => stale mode (watermark (seek_control u)) x = true) (ch_items c) ->
    ch_items c1 = [] -> exists c', channels s1 !! rx u = Some c' /\ ch_is_closed c' = ch_is_closed c /\
    slot = slot ++ (message u <$> take (S room) (fresh_items mode u c)) /\
    fresh_items mode u c' = drop (S room) (fresh_items mode u c) /\
    (forall tx, tx <> rx u -> channels s1 !! tx = channels s !! tx)).
  { intros Hall Hi. exists c1. unfold fresh_items. rewrite (filter_stale_none _ _ _ Hall), Hi.
    split_and!; try done. by rewrite app_nil_r. }
  destruct p as [[d|]|]; [|by apply Hnone; destruct Hp as (? & ? & ?)|by apply Hnone; destruct Hp as (? & ? & ?)].
  destruct Hp as (skipped & Hi & Hall & Hd).
  specialize (IH s1 (slot ++ [message u d]) c1 Hc1). destruct (fill room mode s1 u _) as [s' slot'].
  destruct IH as (c' & Hc' & Hcl' & -> & Hfr & Hoth'). exists c'.
  assert (Hf : fresh_items mode u c = d :: fresh_items mode u c1).
  { unfold fresh_items. by rewrite Hi, filter_stale_app. }
  rewrite Hf. simpl. split_and!; [done|congruence|by rewrite <- app_assoc|done|].
  intros tx Hne. by rewrite Hoth', Hoth.
Qed.

(** The window of a name's log a position is resolved in. *)
Definition window (s : MemoryState) (name : string) : nat * nat :=
  match Log.log_of (log s) name with
  | Some l => (Log.first_seq l, Log.next_seq l)
  | None => (0, 0)
  end.

Lemma seek_live (s : MemoryState) r u to target :
  bus s = Live r -> resolve to (window s (sub_name u)).1 (window s (sub_name u)).2 = Ok target ->
  exists u', seek s u to = (u', Ok tt, wr_held (waker (seek_control u))) /\
    rx u' = rx u /\ sub_name u' = sub_name u /\
    pending (seek_control u') = Some target /\ watermark (seek_control u') = target /\
    wr_held (waker (seek_control u')) = None.
Proof.
  intros Hb Hr. unfold seek. rewrite Hb. unfold window in Hr.
  destruct (match Log.log_of (log s) (sub_name u) with Some _ => _ | None => _ end) as [oldest tip].
  simpl in Hr. rewrite Hr. simpl. destruct (wr_wake_held (waker (seek_control u))) as [Hn Hw].
  destruct (wr_wake _) as [w woken]. simpl in *. subst. eexists. by split_and!.
Qed.

Lemma set_channels_id (s : MemoryState) : set_channels s (channels s) = s.
Proof. by destruct s. Qed.

Lemma send_one (s : MemoryState) tx c d :
  channels s !! tx = Some c -> ch_is_closed c = false ->
  exists c', send_to (channels s) [tx] d = <[tx := c']> (channels s) /\ received d c c'.
Proof.
  intros Hc Ho. simpl. rewrite Hc. exists (fst (ch_send c d)). split; [done|].
  destruct (ch_send_open c d Ho) as (_ & ? & ?). by split.
Qed.

(** The poll that applies a seek leaves the replay of the log in the channel. *)
Lemma applied_seek (s : MemoryState) r u w target c histories :
  bus s = Live r -> pending (seek_control u) = Some target -> watermark (seek_control u) = target ->
  Log.log_of (log s) (sub_name u) <> None -> Log.state_wf histories (log s) ->
  channels s !! rx u = Some c -> ch_is_closed c = false ->
  let (s', u') := begin_poll Log.Retaining s u w in
  rx u' = rx u /\ pending (seek_control u') = None /\ watermark (seek_control u') = target /\
  exists l c', Log.log_of (log s) (sub_name u) = Some l /\ Log.log_wf (histories (sub_name u)) l /\
    channels s' = <[rx u := c']> (channels s) /\ ch_is_closed c' = false /\
    ch_items c' = fresh_of <$> Log.replay_from l target.
Proof.
  intros Hb Hp Hw Hlog Hwf Hc Ho. unfold begin_poll, apply_pending_seek. simpl. rewrite Hp. simpl.
  split_and!; [done|done|done|]. destruct (Log.log_of (log s) (sub_name u)) as [l|] eqn:Hl; [|done].
  exists l. unfold replay_from. rewrite Hb. simpl. rewrite Hl.
  destruct (drain_spec (length (ch_items c)) c ltac:(lia)) as [Hd Hdc]. rewrite Ho in Hdc.
  destruct (requeue_replay_spec (Log.replay_from l target) _ Hdc) as [Hr Hrc].
  eexists. split; [done|]. split.
  { unfold Log.log_of in Hl. destruct (log s) as [|b names]; [done|].
    destruct (Hwf (sub_name u)) as [Hlw _]. by rewrite Hl in Hlw. }
  split; [|split; [exact Hrc|by rewrite Hr, Hd]].
  apply list_eq. intros i. destruct (decide (i = rx u)) as [->|Hne].
  - rewrite list_lookup_alter_eq, Hc, list_lookup_insert_eq by (by eapply lookup_lt_Some). done.
  - by rewrite list_lookup_alter_ne, list_lookup_insert_ne.
Qed.

Lemma replay_suffix (history : list DeliveryInner) l target :
  Log.log_wf history l ->
  Log.replay_from l target =
  (fun e => (Nat.max target (Log.first_seq l) + e.1, e.2)) <$>
    enumerate (drop (Nat.max target (Log.first_seq l)) history).
Proof.
  intros Hwf. rewrite <- (Log.replay_from_spec history l) by (done || lia).
  unfold Log.replay_from. do 2 f_equal. lia.
Qed.

Lemma replay_not_stale (l : @Log.NameLog HeaderMap) target d :
  d ∈ (fresh_of <$> Log.replay_from l target) ->
  stale Log.Retaining target d = false.
Proof.
  intros Hd. apply list_elem_of_fmap in Hd as (e & -> & He). unfold Log.replay_from in He.
  apply list_elem_of_fmap in He as ([i x] & -> & Hin). apply list_elem_of_lookup in Hin as (j & Hj).
  rewrite lookup_drop in Hj. unfold enumerate in Hj. rewrite list_lookup_imap in Hj.
  apply fmap_Some in Hj as (y & Hy & [= -> ->]). unfold stale. simpl. apply Nat.ltb_ge. simpl. lia.
Qed.

(** ** Properties *)

(** A seek is refused on a bus that is shut down, and for a sequence the retention has evicted
    with the oldest position still kept, changing nothing; every other position resolves inside
    the retained window, the start to its oldest and the end to its tip, a sequence past the tip
    to the tip, becomes both the pending target and the stale-delivery watermark whatever was
    pending before, and wakes the reader that was parked. *)
Theorem seek_resolves (s : MemoryState) u to :
  let (oldest, tip) := window s (sub_name u) in
  oldest <= tip ->
  match bus s, to with
  | Down _, _ => seek s u to = (u, Err ShutDown, None)
  | Live _, Sequence n =>
      if n <? oldest then seek s u to = (u, Err (PositionEvicted n oldest), None)
      else exists u', seek s u to = (u', Ok tt, wr_held (waker (seek_control u))) /\
        pending (seek_control u') = Some (Nat.min n tip) /\
        watermark (seek_control u') = Nat.min n tip /\ oldest <= Nat.min n tip <= tip
  | Live _, Start => exists u', seek s u to = (u', Ok tt, wr_held (waker (seek_control u))) /\
      pending (seek_control u') = Some oldest /\ watermark (seek_control u') = oldest
  | Live _, End => exists u', seek s u to = (u', Ok tt, wr_held (waker (seek_control u))) /\
      pending (seek_control u') = Some tip /\ watermark (seek_control u') = tip
  end.
Proof.
  destruct (window s (sub_name u)) as [oldest tip] eqn:Hwin. intros Hle.
  destruct (bus s) as [r|rt] eqn:Hb; [|unfold seek; by rewrite Hb].
  destruct to as [|n|].
  - destruct (seek_live s r u Start oldest Hb) as (u' & ? & _ & _ & ? & ? & _); [by rewrite Hwin|].
    by exists u'.
  - destruct (Nat.ltb_spec n oldest) as [Hlt|Hge].
    + unfold seek. rewrite Hb. unfold window in Hwin. rewrite Hwin. simpl.
      by rewrite (proj2 (Nat.leb_gt _ _) Hlt).
    + destruct (seek_live s r u (Sequence n) (Nat.min n tip) Hb) as (u' & ? & _ & _ & ? & ? & _).
      { rewrite Hwin. simpl. by rewrite (proj2 (Nat.leb_le _ _) Hge). }
      exists u'. split_and!; [done..|lia|lia].
  - destruct (seek_live s r u End tip Hb) as (u' & ? & _ & _ & ? & ? & _); [by rewrite Hwin|].
    by exists u'.
Qed.

(** The poll that applies a seek, however many publishes, requeues and evictions happened since
    the seek, leaves the queue holding exactly the retained history of the name from the target
    on, in order, each entry at its position and as a first delivery, and none of them below the
    watermark; only the subscription's own channel changes, and the seek is no longer pending. *)
Theorem seek_replays_the_log (s : MemoryState) r u w target c histories :
  bus s = Live r -> pending (seek_control u) = Some target -> watermark (seek_control u) = target ->
  Log.log_of (log s) (sub_name u) <> None -> Log.state_wf histories (log s) ->
  channels s !! rx u = Some c -> ch_is_closed c = false ->
  let (s', u') := begin_poll Log.Retaining s u w in
  pending (seek_control u') = None /\
  exists l c', Log.log_of (log s) (sub_name u) = Some l /\ channels s' = <[rx u := c']> (channels s) /\
    let from := Nat.max target (Log.first_seq l) in
    ch_items c' =
      (fun e => mk_delivery e.2 (from + e.1) 1) <$> enumerate (drop from (histories (sub_name u))) /\
    fresh_items Log.Retaining u' c' = ch_items c'.
Proof.
  intros Hb Hp Hw Hlog Hwf Hc Ho.
  pose proof (applied_seek s r u w target c histories Hb Hp Hw Hlog Hwf Hc Ho) as Ha.
  destruct (begin_poll _ _ _ _) as [s' u']. destruct Ha as (_ & Hp' & Hw' & l & c' & Hl & Hlw & Hcs & _ & Hi).
  split; [done|]. exists l, c'. split; [done|]. split; [done|]. cbv zeta. split.
  - rewrite Hi, (replay_suffix _ _ _ Hlw), <- list_fmap_compose. done.
  - unfold fresh_items. apply filterb_all. intros d Hd. rewrite Hi in Hd.
    by rewrite Hw', (replay_not_stale l target d Hd).
Qed.

(** Seeking to the position a delivered message reports, while its log still keeps it, makes the
    next poll of the stream yield that very message again, as a first delivery. *)
Theorem seek_back_redelivers (s : MemoryState) r u w c histories m d :
  bus s = Live r -> Log.state_wf histories (log s) ->
  delivery m = Some d -> histories (sub_name u) !! seq d = Some (shared d) ->
  Log.log_of (log s) (sub_name u) <> None -> fst (window s (sub_name u)) <= seq d ->
  channels s !! rx u = Some c -> ch_is_closed c = false ->
  exists u1 s2 u2,
    seek s u (message_position m) = (u1, Ok tt, wr_held (waker (seek_control u))) /\
    poll_stream Log.Retaining s u1 w =
      (s2, u2, Ready (Some (mk_message (Some (mk_delivery (shared d) (seq d) 1)) (Some (rx u))))).
Proof.
  intros Hb Hwf Hm Hh Hlog Hold Hc Ho. unfold message_position. rewrite Hm.
  assert (Hl : exists l, Log.log_of (log s) (sub_name u) = Some l /\
    Log.log_wf (histories (sub_name u)) l).
  { unfold Log.log_of in *. destruct (log s) as [|b names]; [done|]. destruct (Hwf (sub_name u)) as [Hlw _].
    destruct (names !! sub_name u) as [l|]; [|done]. by exists l. }
  destruct Hl as (l & Hl & Hlw). pose proof (lookup_lt_Some _ _ _ Hh) as Hlt.
  assert (Hwin : window s (sub_name u) = (Log.first_seq l, Log.next_seq l)) by (unfold window; by rewrite Hl).
  rewrite Hwin in Hold. simpl in Hold.
  destruct (seek_live s r u (Sequence (seq d)) (seq d) Hb) as (u1 & Hs & Hrx & Hn & Hp & Hw & _).
  { rewrite Hwin. simpl. rewrite (proj2 (Nat.leb_le _ _) Hold).
    rewrite (Log.wf_next _ _ Hlw). by rewrite Nat.min_l by lia. }
  rewrite <- Hn, <- Hrx in *.
  pose proof (applied_seek s r u1 w (seq d) c histories Hb Hp Hw Hlog Hwf Hc Ho) as Ha.
  destruct (begin_poll _ _ _ _) as [s2 u2] eqn:Hbp.
  destruct Ha as (Hrx2 & _ & Hw2 & l' & c' & Hl' & _ & Hcs & _ & Hi). rewrite Hl in Hl'. injection Hl' as <-.
  assert (Hc' : channels s2 !! rx u2 = Some c').
  { rewrite Hcs, Hrx2. apply list_lookup_insert_eq. by eapply lookup_lt_Some. }
  pose proof (poll_fresh_spec Log.Retaining s2 u2 c' Hc') as Hpf.
  destruct (poll_fresh _ _ _) as [s3 p] eqn:Hpoll. destruct Hpf as (c3 & _ & _ & _ & _ & _ & _ & Hpf).
  assert (Hhead : exists rest, ch_items c' = mk_delivery (shared d) (seq d) 1 :: rest).
  { rewrite Hi, (replay_suffix _ _ _ Hlw), Nat.max_l by lia.
    rewrite (drop_S _ _ _ Hh). simpl. rewrite Nat.add_0_r. by eexists. }
  destruct Hhead as (rest & Hhead).
  assert (Hns : stale Log.Retaining (watermark (seek_control u2)) (mk_delivery (shared d) (seq d) 1) = false).
  { rewrite Hw2. apply Nat.ltb_ge. simpl. lia. }
  rewrite Hhead in Hpf. exists u1, s3, u2. split; [done|]. unfold poll_stream. rewrite Hbp, Hpoll.
  destruct p as [[d'|]|].
  - destruct Hpf as (sk & Heq & Hall & _). destruct sk as [|x sk].
    + injection Heq as <- _. unfold message. by rewrite Hrx2.
    + injection Heq as <- _. apply Forall_cons_1 in Hall as [Hst _]. congruence.
  - destruct Hpf as [Hall _]. apply Forall_cons_1 in Hall as [Hst _]. congruence.
  - destruct Hpf as [Hall _]. apply Forall_cons_1 in Hall as [Hst _]. congruence.
Qed.

(** Settling a delivery of an open subscription: [ack] and [nack(false)] change nothing more;
    [nack(true)], a drop without a settlement and a zero-delay [nack_after] each put exactly one
    copy at the end of that subscription's channel, the same message at the same position counted
    one delivery more (the count saturates); a delayed [nack_after] leaves the bus alone until its
    timer runs out and then does the same; and whatever happens to an inbox reply goes nowhere. *)
Theorem settlement_correct (s : MemoryState) tx c d after :
  channels s !! tx = Some c -> ch_is_closed c = false ->
  let m := mk_message (Some d) (Some tx) in
  let returned s' := exists c', s' = set_channels s (<[tx := c']> (channels s)) /\
    received (mk_delivery (shared d) (seq d) (N.min (deliveries d + 1) u64_max)) c c' in
  ack s m = s /\ nack s m false = Some s /\
  (exists s', nack s m true = Some s' /\ returned s') /\
  returned (drop_message s m) /\
  (exists s', nack_after s m 0 = Some (s', None) /\ returned s') /\
  (after <> 0%N -> exists t, nack_after s m after = Some (s, Some t) /\ delay t = after /\
     returned (fire s t)) /\
  (let m := inbox_message d in ack s m = s /\ (forall q, nack s m q = Some s) /\ drop_message s m = s /\
     nack_after s m after = Some (s, None)).
Proof.
  intros Hc Ho m returned.
  assert (Hreq : returned (set_channels s (send_to (channels s) [tx] (redelivered d)))).
  { destruct (send_one s tx c (redelivered d) Hc Ho) as (c' & -> & Hr). by exists c'. }
  do 2 (split; [done|]). split; [by eexists|]. split; [done|]. split; [by eexists|]. split.
  - intros Hne. unfold nack_after. simpl. rewrite (proj2 (N.eqb_neq _ _) Hne). by eexists.
  - split; [done|]. split; [by intros []|]. split; [done|].
    unfold nack_after. simpl. by destruct (N.eqb after 0).
Qed.

(** With no seek pending, a batch is the longest prefix of the fresh deliveries waiting that the
    asked-for size allows, in order and never empty: what follows it is exactly the rest, stale
    copies included in neither; where nothing fresh waits the poll is pending, or the end on a
    closed channel. *)
Theorem memory_batch_prefix mode (s : MemoryState) u w limit c :
  channels s !! rx u = Some c -> pending (seek_control u) = None -> 0 < limit ->
  let (su, p) := poll_fill mode s u w limit in
  let fresh := fresh_items mode u c in
  match p with
  | Ready (Some batch) => fresh <> [] /\ batch <> [] /\
      batch = (fun d => mk_message (Some d) (Some (rx u))) <$> take limit fresh /\
      exists c', channels su.1 !! rx u = Some c' /\ fresh_items mode u c' = drop limit fresh
  | Ready None => fresh = [] /\ ch_is_closed c = true
  | Pending => fresh = [] /\ ch_is_closed c = false
  end.
Proof.
  intros Hc Hp Hlim. unfold poll_fill.
  destruct (begin_poll_idle mode s u w Hp) as (u' & -> & Hrx & _ & _ & Hw).
  assert (Hfr : forall x, fresh_items mode u' x = fresh_items mode u x)
    by (intros x; unfold fresh_items; by rewrite Hw).
  assert (Hmsg : forall d, message u' d = mk_message (Some d) (Some (rx u)))
    by (intros d; unfold message; by rewrite Hrx).
  rewrite <- Hrx in Hc. pose proof (poll_fresh_spec mode s u' c Hc) as Hpf.
  destruct (poll_fresh mode s u') as [s1 p1]. destruct Hpf as (c1 & _ & Hc1 & Hcl & _ & _ & _ & Hpf).
  rewrite <- (Hfr c). destruct p1 as [[d|]|].
  - destruct Hpf as (skipped & Hi & Hall & Hd).
    assert (Hf : fresh_items mode u' c = d :: fresh_items mode u' c1).
    { unfold fresh_items. by rewrite Hi, filter_stale_app. }
    pose proof (greedy_fill_spec (limit - 1) mode s1 u' [message u' d] c1 Hc1) as Hfill.
    destruct (fill _ _ _ _ _) as [s2 slot]. destruct Hfill as (c2 & Hc2 & _ & -> & Hfr2 & _).
    rewrite Hf. destruct limit as [|limit]; [lia|]. simpl in *. rewrite Nat.sub_0_r in *.
    split_and!; [done|done| |].
    + f_equal; [apply Hmsg|]. apply list_fmap_ext. intros i x _. apply Hmsg.
    + exists c2. rewrite <- Hrx. split; [done|]. by rewrite <- Hfr.
  - destruct Hpf as (Hall & _ & ?). split; [|done]. by apply filter_stale_none.
  - destruct Hpf as (Hall & _ & ?). split; [|done]. by apply filter_stale_none.
Qed.

End sub.

(** ** Witnesses: two messages on a retaining broker *)

Definition event (body : string) : DeliveryInner := Log.mk_inner "events" (as_bytes body) HeaderMap.new.
Definition events : list DeliveryInner := [event "a"; event "b"].
Definition reader : @Subscriber (option nat) := new_subscriber "events" 0.
Definition kept : @MemoryState LChannel :=
  fold_left run
    [Subscribe "events"; Publish (mk_outbound "events" (as_bytes "a") HeaderMap.new);
     Publish (mk_outbound "events" (as_bytes "b") HeaderMap.new)] (retaining (Log.Messages 8)).
Definition history (n : string) : list DeliveryInner := if String.eqb n "events" then events else [].
Definition kept_channel : LChannel MemoryDelivery :=
  ([mk_delivery (event "a") 0 1; mk_delivery (event "b") 1 1], false).
Definition kept_registry : Registry :=
  match bus kept with Live r => r | Down rt => new_registry rt end.

Lemma kept_live : bus kept = Live kept_registry.
Proof. reflexivity. Qed.

Lemma kept_log_wf : Log.state_wf history (log kept).
Proof.
  assert (Hlog : log kept =
    Log.Recording (Log.Bounded (Log.Messages 8)) {["events" := Log.mk_log events 0 2]}) by (vm_compute; reflexivity).
  rewrite Hlog. intros n. unfold history. destruct (String.eqb_spec n "events") as [->|Hne].
  - rewrite lookup_singleton_eq. split; [by split|right; vm_compute; reflexivity].
  - rewrite lookup_singleton_ne by done. split; [apply Log.empty_wf|left; simpl; lia].
Qed.

Lemma kept_channel_0 : channels kept !! 0 = Some kept_channel.
Proof. vm_compute. reflexivity. Qed.

Lemma kept_open : ch_is_closed kept_channel = false.
Proof. reflexivity. Qed.

Lemma kept_logged : Log.log_of (log kept) "events" <> None.
Proof. vm_compute. discriminate. Qed.

Lemma seek_resolves_witness :
  exists u', seek kept reader (Sequence 1) = (u', Ok tt, None) /\ pending (seek_control u') = Some 1.
Proof.
  pose proof (seek_resolves kept reader (Sequence 1)) as Hs.
  assert (Hw : window kept (sub_name reader) = (0, 2)) by (vm_compute; reflexivity).
  rewrite Hw, kept_live in Hs. destruct (Hs ltac:(lia)) as (u' & He & Hp & _). by exists u'.
Defined.

Lemma seek_replays_the_log_witness :
  let u := with_seek reader (mk_seek (Some 1) 1 None) in
  exists c, channels (fst (begin_poll Log.Retaining kept u 7)) = [c] /\
    ch_items c = [mk_delivery (event "b") 1 1].
Proof.
  intros u. pose proof (seek_replays_the_log kept kept_registry u 7 1 kept_channel history kept_live eq_refl
    eq_refl kept_logged kept_log_wf kept_channel_0 kept_open) as Hr.
  destruct (begin_poll _ _ _ _) as [s' u']. destruct Hr as (_ & l & c' & Hl & Hcs & Hi & _).
  exists c'. split.
  - simpl. rewrite Hcs. vm_compute. reflexivity.
  - assert (Hl' : Log.log_of (log kept) (sub_name u) = Some (Log.mk_log events 0 2)) by (vm_compute; reflexivity).
    rewrite Hl' in Hl. injection Hl as <-. exact Hi.
Defined.

Lemma seek_back_redelivers_witness :
  let m := mk_message (Some (mk_delivery (event "b") 1 3)) (Some 0) in
  exists u1 s2 u2, seek kept reader (message_position m) = (u1, Ok tt, None) /\
    poll_stream Log.Retaining kept u1 7 =
      (s2, u2, Ready (Some (mk_message (Some (mk_delivery (event "b") 1 1)) (Some 0)))).
Proof.
  intros m. destruct (seek_back_redelivers kept kept_registry reader 7 kept_channel history m
    (mk_delivery (event "b") 1 3) kept_live kept_log_wf eq_refl eq_refl kept_logged)
    as (u1 & s2 & u2 & Hs & Hp); [vm_compute; lia|exact kept_channel_0|reflexivity|].
  exists u1, s2, u2. by split.
Defined.

Lemma settlement_correct_witness :
  exists s', nack kept (mk_message (Some (mk_delivery (event "a") 0 1)) (Some 0)) true = Some s' /\
    exists c', s' = set_channels kept [c'] /\ length (ch_items c') = 3.
Proof.
  destruct (settlement_correct kept 0 kept_channel (mk_delivery (event "a") 0 1) 5 kept_channel_0 kept_open)
    as (_ & _ & (s' & Hs & c' & -> & Hr & _) & _).
  eexists. split; [exact Hs|]. exists c'. split; [reflexivity|]. rewrite Hr. reflexivity.
Defined.

Lemma memory_batch_prefix_witness :
  match poll_fill Log.Retaining kept reader 7 1 with
  | (_, Ready (Some batch)) => length batch = 1
  | _ => False
  end.
Proof.
  pose proof (memory_batch_prefix Log.Retaining kept reader 7 1 kept_channel kept_channel_0 eq_refl
    ltac:(lia)) as Hb.
  destruct (poll_fill _ _ _ _ _) as [su [[batch|]|]]; simpl in Hb.
  - destruct Hb as (_ & _ & -> & _). reflexivity.
  - destruct Hb as [Hb _]. discriminate Hb.
  - destruct Hb as [Hb _]. discriminate Hb.
Defined.

End MemorySub.
