(* ===== verification/MemoryFlow.v ===== *)
(** * Only a settlement consumes a delivery ([crates/memory/src/subscriber.rs], [capability/])

    The in-memory bus, discarding or retaining, as a transition system with everything a delivery
    can be in: the channels, the messages in handlers' hands and the timers of delayed redeliveries;
    and everything its clients hold: subscriptions with their seeks, publisher handles, owned
    transactions and outstanding requests.  The books are ghosts: what was handed to each channel,
    what was settled or taken raw out of it, and what a seek put back and superseded.  The invariant
    accounts for every copy. *)
From Stdlib Require Import Ascii String.
From stdpp Require Import list_tactics.
From S2P Require Import Prelude RustStd Pattern Headers Queue Log Memory MemorySub.

Module MemoryFlow.
Import Memory MemorySub.

Section flow.
Context {C : Type -> Type} `{Unbounded C} `{!UnboundedLaws C}.
Context {R : Type} `{WakerRegistration R} `{!WakerRegistrationLaws R}.

Abbreviation Channel := (C MemoryDelivery).
Abbreviation MemoryState := (@MemoryState C).
Abbreviation Subscriber := (@MemorySub.Subscriber R).
Abbreviation Tagged := (list (nat * DeliveryInner)).

(** The ghosts: copies sent by publishes, put back by seeks, settled by [ack] or [nack(false)], taken
    by [into_raw], superseded by seeks; and the channels whose subscription was sought. *)
Record Books := mk_books {
  b_sent : Tagged;
  b_replayed : Tagged;
  b_settled : Tagged;
  b_raw : Tagged;
  b_superseded : Tagged;
  b_sought : list nat;
}.
Definition book_sent (b : Books) (l : Tagged) : Books :=
  mk_books (b_sent b ++ l) (b_replayed b) (b_settled b) (b_raw b) (b_superseded b) (b_sought b).
Definition book_settled (b : Books) (l : Tagged) : Books :=
  mk_books (b_sent b) (b_replayed b) (b_settled b ++ l) (b_raw b) (b_superseded b) (b_sought b).
Definition book_raw (b : Books) (l : Tagged) : Books :=
  mk_books (b_sent b) (b_replayed b) (b_settled b) (b_raw b ++ l) (b_superseded b) (b_sought b).
Definition book_seek (b : Books) (put gone : Tagged) : Books :=
  mk_books (b_sent b) (b_replayed b ++ put) (b_settled b) (b_raw b) (b_superseded b ++ gone) (b_sought b).
Definition book_sought (b : Books) (l : list nat) : Books :=
  mk_books (b_sent b) (b_replayed b) (b_settled b) (b_raw b) (b_superseded b) (b_sought b ++ l).

(** A subscription is of the broker's log mode when it reads a name, of [Discarding] when it reads a
    pattern.  A request waiting is its inbox and the channel of it. *)
Record World := mk_world {
  w_state : MemoryState;
  w_subs : list (Log.LogMode * Subscriber);
  w_publishers : list Publisher;
  w_txns : list Transaction;
  w_requests : list (string * nat);
  w_hands : list Message;
  w_timers : list Timer;
  w_books : Books;
}.
Definition moved (w : World) (s : MemoryState) (hands : list Message) (timers : list Timer) (b : Books) : World :=
  mk_world s (w_subs w) (w_publishers w) (w_txns w) (w_requests w) hands timers b.
Definition with_state (w : World) (s : MemoryState) : World := moved w s (w_hands w) (w_timers w) (w_books w).
Definition with_sent (w : World) (s : MemoryState) (l : Tagged) : World :=
  moved w s (w_hands w) (w_timers w) (book_sent (w_books w) l).
Definition with_subs (w : World) (subs : list (Log.LogMode * Subscriber)) : World :=
  mk_world (w_state w) subs (w_publishers w) (w_txns w) (w_requests w) (w_hands w) (w_timers w) (w_books w).
Definition with_publishers (w : World) (ps : list Publisher) : World :=
  mk_world (w_state w) (w_subs w) ps (w_txns w) (w_requests w) (w_hands w) (w_timers w) (w_books w).
Definition with_txns (w : World) (ts : list Transaction) : World :=
  mk_world (w_state w) (w_subs w) (w_publishers w) ts (w_requests w) (w_hands w) (w_timers w) (w_books w).
Definition with_requests (w : World) (rs : list (string * nat)) : World :=
  mk_world (w_state w) (w_subs w) (w_publishers w) (w_txns w) rs (w_hands w) (w_timers w) (w_books w).

Inductive Step :=
  | WConnect
  | WShutdown
  | WSetRouting (routing : Routing)
  | WSubscribe (name : string)
  | WSubscribePattern (t : string)
  | WBrokerSubscribe (name : string)
  | WPublisher
  | WClone (k : nat)
  | WPublish (k : nat) (m : MemoryOutbound)
  | WBegin (k : nat)
  | WCommit (k : nat)
  | WAbort (k : nat)
  | WTransaction
  | WTxnPublish (k : nat) (m : MemoryOutbound)
  | WTxnCommit (k : nat)
  | WTxnAbort (k : nat)
  | WTxnDrop (k : nat)
  | WRequesterPublish (m : MemoryOutbound)
  | WRequest (m : MemoryOutbound)
  | WReply (k : nat) (subject : string) (wait : N)
  | WRequestDrop (k : nat)
  | WSeek (i : nat) (to : MemoryPosition)
  | WBeginPoll (i wk : nat)
  | WPollFresh (i : nat)
  | WAck (k : nat)
  | WNack (k : nat) (requeue : bool)
  | WNackAfter (k : nat) (after : N)
  | WIntoRaw (k : nat)
  | WDrop (k : nat)
  | WFire (k : nat)
  | WLeave (i : nat).

(** What one publish hands out: a copy per open target. *)
Definition handed_out (s : MemoryState) (x : DeliveryInner) : Tagged :=
  match bus s with
  | Live r => (fun tx => (tx, x)) <$>
      List.filter (fun tx => negb (is_closed (channels s) tx)) (targets s r (Log.name x))
  | Down _ => []
  end.
Definition outbound_inner (m : MemoryOutbound) : DeliveryInner :=
  Log.mk_inner (out_name m) (out_payload m) (out_headers m).

(** What the flush of a commit hands out, message by message. *)
Fixpoint flushed (s : MemoryState) (buffered : list MemoryOutbound) : Tagged :=
  match buffered with
  | [] => []
  | m :: rest => handed_out s (outbound_inner m) ++
      match fanout s (out_name m) (out_payload m) (out_headers m) with
      | (s, Ok _) => flushed s rest
      | (_, Err _) => []
      end
  end.

(** The bus a request publishes on, its inbox registered, and the message it publishes. *)
Definition request_opened (s : MemoryState) : MemoryState :=
  let inbox := inbox_name (inbox_seq s) in
  let s := mk_state (bus s) (log s) (recording s) (notified s) (wrapping_add u64_max (inbox_seq s) 1) (channels s) in
  let (s, tx) := unbounded_channel s in fst (register s inbox tx).
Definition request_inner (s : MemoryState) (m : MemoryOutbound) : DeliveryInner :=
  Log.mk_inner (out_name m) (out_payload m)
    (fst (HeaderMap.insert_header (out_headers m) "reply-to" (as_bytes (inbox_name (inbox_seq s))))).

(** The copy a message holds: a reply taken from an inbox is no subscription's. *)
Definition copy_of (m : Message) : Tagged :=
  match delivery m, subscription m with Some d, Some tx => [(tx, shared d)] | _, _ => [] end.
Definition copy_on (t : Timer) : nat * DeliveryInner := (back t, shared (redelivery t)).
Definition tagged (tx : nat) (l : list MemoryDelivery) : Tagged := (fun d => (tx, shared d)) <$> l.
Definition items (s : MemoryState) (tx : nat) : list MemoryDelivery :=
  match channels s !! tx with Some c => ch_items c | None => [] end.

(** What the poll that applies a seek takes out of the subscription's channel, and puts back. *)
Definition seek_drops (mode : Log.LogMode) (s : MemoryState) (u : Subscriber) : Tagged :=
  match Log.retains mode, pending (seek_control u), bus s with
  | true, Some _, Live _ => tagged (rx u) (items s (rx u))
  | _, _, _ => []
  end.
Definition seek_puts (mode : Log.LogMode) (s : MemoryState) (u : Subscriber) : Tagged :=
  match Log.retains mode, pending (seek_control u), bus s, Log.log_of (log s) (sub_name u) with
  | true, Some target, Live _, Some l =>
      if is_closed (channels s) (rx u) then [] else (fun e => (rx u, e.2)) <$> Log.replay_from l target
  | _, _, _, _ => []
  end.
(** The stale copies a poll drops before it finds a fresh one. *)
Fixpoint stale_prefix (mode : Log.LogMode) (mark : nat) (l : list MemoryDelivery) : list MemoryDelivery :=
  match l with
  | d :: rest => if stale mode mark d then d :: stale_prefix mode mark rest else []
  | [] => []
  end.

(** The message [k] in hand, taken out of the hands; the subscription [i]. *)
Definition with_message (w : World) (k : nat) (f : Message -> list Message -> World) : World :=
  match w_hands w !! k with Some m => f m (delete k (w_hands w)) | None => w end.
Definition with_sub (w : World) (i : nat) (f : Log.LogMode -> Subscriber -> World) : World :=
  match w_subs w !! i with Some (mode, u) => f mode u | None => w end.

Definition step (mode : Log.LogMode) (w : World) (t : Step) : World :=
  let s := w_state w in
  match t with
  | WConnect => with_state w (connect s)
  | WShutdown => with_state w (fst (shutdown s))
  | WSetRouting routing => with_state w (set_routing s routing)
  | WSubscribe name =>
      let (s, r) := subscribe s name in
      with_subs (with_state w s) (w_subs w ++ match r with Ok tx => [(mode, new_subscriber name tx)] | Err _ => [] end)
  | WSubscribePattern t =>
      let (s, r) := subscribe_pattern s t in
      with_subs (with_state w s) (w_subs w ++ match r with Ok tx => [(Log.Discarding, new_subscriber t tx)] | Err _ => [] end)
  | WBrokerSubscribe name =>
      let (s, tx) := broker_subscribe s name in
      with_subs (with_state w s) (w_subs w ++ [(mode, new_subscriber name tx)])
  | WPublisher => with_publishers w (w_publishers w ++ [publisher])
  | WClone k =>
      match w_publishers w !! k with
      | Some p => with_publishers w (w_publishers w ++ [clone_publisher p])
      | None => w
      end
  | WPublish k m =>
      match w_publishers w !! k with
      | Some p =>
          let '(s', p', _) := publish s p m in
          with_publishers (with_sent w s' (match p with None => handed_out s (outbound_inner m) | Some _ => [] end))
            (<[k := p']> (w_publishers w))
      | None => w
      end
  | WBegin k => with_publishers w (alter (fun p => fst (begin_transaction p)) k (w_publishers w))
  | WCommit k =>
      match w_publishers w !! k with
      | Some p =>
          let '(s', p', _) := commit s p in
          with_publishers (with_sent w s' (match p with Some buffered => flushed s buffered | None => [] end))
            (<[k := p']> (w_publishers w))
      | None => w
      end
  | WAbort k => with_publishers w (alter (fun p => fst (abort p)) k (w_publishers w))
  | WTransaction => with_txns w (w_txns w ++ [transaction])
  | WTxnPublish k m => with_txns w (alter (fun t => txn_publish t m) k (w_txns w))
  | WTxnCommit k =>
      match w_txns w !! k with
      | Some t =>
          let '(s', _, _) := txn_commit s t in
          with_txns (with_sent w s' (flushed s (buffered t))) (delete k (w_txns w))
      | None => w
      end
  | WTxnAbort k | WTxnDrop k => with_txns w (delete k (w_txns w))
  | WRequesterPublish m => with_sent w (fst (requester_publish s m)) (handed_out s (outbound_inner m))
  | WRequest m =>
      match request_start s m with
      | (s', Ok inbox) =>
          with_requests (with_sent w s' (handed_out (request_opened s) (request_inner s m))) (w_requests w ++ [inbox])
      | (s', Err _) => with_state w s'
      end
  | WReply k subject wait =>
      match w_requests w !! k with
      | Some (inbox, tx) =>
          let (s', r) := request_finish s inbox tx subject wait in
          let s' := set_channels s' (alter ch_close tx (channels s')) in
          with_requests (moved w s' (w_hands w ++ match r with Ok d => [inbox_message d] | Err _ => [] end)
            (w_timers w) (w_books w)) (delete k (w_requests w))
      | None => w
      end
  | WRequestDrop k =>
      match w_requests w !! k with
      | Some (_, tx) =>
          with_requests (with_state w (set_channels s (alter ch_close tx (channels s)))) (delete k (w_requests w))
      | None => w
      end
  | WSeek i to => with_sub w i (fun mode u =>
      if Log.retains mode then
        let '(u', r, _) := seek s u to in
        with_subs (moved w s (w_hands w) (w_timers w)
          (book_sought (w_books w) (match r with Ok _ => [rx u] | Err _ => [] end))) (<[i := (mode, u')]> (w_subs w))
      else w)
  | WBeginPoll i wk => with_sub w i (fun mode u =>
      let (s', u') := begin_poll mode s u wk in
      with_subs (moved w s' (w_hands w) (w_timers w)
        (book_seek (w_books w) (seek_puts mode s u) (seek_drops mode s u))) (<[i := (mode, u')]> (w_subs w)))
  | WPollFresh i => with_sub w i (fun mode u =>
      let (s', p) := poll_fresh mode s u in
      moved w s' (w_hands w ++ match p with Ready (Some d) => [message u d] | _ => [] end) (w_timers w)
        (book_seek (w_books w) [] (tagged (rx u) (stale_prefix mode (watermark (seek_control u)) (items s (rx u))))))
  | WAck k => with_message w k (fun m hands =>
      moved w (ack s m) hands (w_timers w) (book_settled (w_books w) (copy_of m)))
  | WNack k requeue => with_message w k (fun m hands =>
      moved w (default s (nack s m requeue)) hands (w_timers w)
        (book_settled (w_books w) (if requeue then [] else copy_of m)))
  | WNackAfter k after => with_message w k (fun m hands =>
      match nack_after s m after with
      | Some (s, t) => moved w s hands (w_timers w ++ option_list t) (w_books w)
      | None => w
      end)
  | WIntoRaw k => with_message w k (fun m hands =>
      match into_raw m with
      | Some _ => moved w (drop_message s (mk_message None (subscription m))) hands (w_timers w)
          (book_raw (w_books w) (copy_of m))
      | None => w
      end)
  | WDrop k => with_message w k (fun m hands => moved w (drop_message s m) hands (w_timers w) (w_books w))
  | WFire k =>
      match w_timers w !! k with
      | Some t => moved w (fire s t) (w_hands w) (delete k (w_timers w)) (w_books w)
      | None => w
      end
  | WLeave i => with_sub w i (fun _ u => with_state w (set_channels s (alter ch_close (rx u) (channels s))))
  end.

(** A broker is made discarding, or retaining under a bound. *)
Definition mode_of (kept : option Log.Retention) : Log.LogMode :=
  match kept with Some _ => Log.Retaining | None => Log.Discarding end.
Definition initial (kept : option Log.Retention) : World :=
  mk_world (match kept with Some r => retaining r | None => discarding end) [] [] [] [] [] [] (mk_books [] [] [] [] [] []).

Inductive reachable (kept : option Log.Retention) : World -> Prop :=
  | r_initial : reachable kept (initial kept)
  | r_step w t : reachable kept w -> reachable kept (step (mode_of kept) w t).

(** The messages of one channel among tagged ones. *)
Definition at_channel (tx : nat) (l : Tagged) : list DeliveryInner :=
  snd <$> List.filter (fun e => Nat.eqb e.1 tx) l.

Definition waiting (s : MemoryState) (tx : nat) : list DeliveryInner := shared <$> items s tx.
Definition in_hands (w : World) : Tagged := List.concat (copy_of <$> w_hands w).
Definition on_timers (w : World) : Tagged := copy_on <$> w_timers w.

(** What was put into the channels, what left them for good, and what was taken out of them. *)
Definition put_in (w : World) : Tagged := b_sent (w_books w) ++ b_replayed (w_books w).
Definition gone (w : World) : Tagged := b_settled (w_books w) ++ b_raw (w_books w) ++ b_superseded (w_books w).
Definition outside (w : World) : Tagged := in_hands w ++ on_timers w ++ gone w.

Record world_ok (w : World) : Prop := {
  wo_wf : mem_wf (w_state w);
  wo_hands : Forall (fun m => is_Some (delivery m)) (w_hands w);
  wo_known : forall e, e ∈ put_in w ++ outside w -> e.1 < length (channels (w_state w));
  wo_account : forall tx, is_closed (channels (w_state w)) tx = false ->
    waiting (w_state w) tx ++ at_channel tx (outside w) ≡ₚ at_channel tx (put_in w);
}.

(** Only a subscription somebody sought has a seek pending or a watermark, and only its copies were
    superseded or replayed. *)
Record seeks_ok (w : World) : Prop := {
  so_subs : Forall (fun mu => rx mu.2 ∉ b_sought (w_books w) ->
    pending (seek_control mu.2) = None /\ watermark (seek_control mu.2) = 0) (w_subs w);
  so_books : forall e, e ∈ b_superseded (w_books w) ++ b_replayed (w_books w) -> e.1 ∈ b_sought (w_books w);
}.

(** ** Tagged lists *)

Lemma at_channel_app tx l k : at_channel tx (l ++ k) = at_channel tx l ++ at_channel tx k.
Proof. unfold at_channel. by rewrite List.filter_app, fmap_app. Qed.

#[local] Instance at_channel_perm tx : Proper (Permutation ==> Permutation) (at_channel tx).
Proof.
  intros l k Hp. unfold at_channel. apply fmap_Permutation.
  induction Hp as [|x l k Hp IH|x y l|l k j H1 IH1 H2 IH2]; simpl; [done| | |by etrans].
  - destruct (Nat.eqb x.1 tx); by rewrite IH.
  - destruct (Nat.eqb x.1 tx), (Nat.eqb y.1 tx); try done. by constructor.
Qed.

Lemma at_channel_one tx t x : at_channel tx [(t, x)] = if Nat.eqb t tx then [x] else [].
Proof. unfold at_channel. simpl. by destruct (Nat.eqb t tx). Qed.

Lemma at_channel_tagged tx x l :
  NoDup l -> at_channel tx ((fun t => (t, x)) <$> l) = if bool_decide (tx ∈ l) then [x] else [].
Proof.
  intros Hn. induction Hn as [|t l Hnin Hn IH]; [done|]. rewrite fmap_cons.
  change ((t, x) :: ?k) with ([(t, x)] ++ k). rewrite at_channel_app, IH, at_channel_one.
  destruct (Nat.eqb_spec t tx) as [->|Hne].
  - rewrite (bool_decide_false (tx ∈ l)), bool_decide_true by (done || left). done.
  - rewrite (bool_decide_ext (tx ∈ t :: l) (tx ∈ l)); [done|]. rewrite elem_of_cons. naive_solver.
Qed.

Lemma at_channel_unknown tx (l : Tagged) n :
  (forall e, e ∈ l -> e.1 < n) -> n <= tx -> at_channel tx l = [].
Proof.
  intros Hk Hn. unfold at_channel. rewrite filterb_none; [done|]. intros e He.
  apply Nat.eqb_neq. specialize (Hk e He). lia.
Qed.

Lemma hands_delete hands k m :
  hands !! k = Some m ->
  List.concat (copy_of <$> hands) ≡ₚ copy_of m ++ List.concat (copy_of <$> delete k hands).
Proof.
  intros Hk. destruct (lookup_delete_split _ _ _ Hk) as (l1 & l2 & -> & -> & _).
  rewrite !fmap_app, !concat_app. simpl. solve_Permutation.
Qed.

Lemma timers_delete timers k t :
  timers !! k = Some t -> copy_on <$> timers ≡ₚ copy_on t :: (copy_on <$> delete k timers).
Proof.
  intros Hk. destruct (lookup_delete_split _ _ _ Hk) as (l1 & l2 & -> & -> & _).
  rewrite !fmap_app. simpl. by rewrite Permutation_middle.
Qed.
(** ** What an operation adds to the channels and takes out of them *)

Record effect (s s' : MemoryState) (new lost : Tagged) : Prop := {
  ef_wf : mem_wf s -> mem_wf s';
  ef_length : length (channels s) <= length (channels s');
  ef_known : forall e, e ∈ new ++ lost -> e.1 < length (channels s);
  ef_open : forall tx, is_closed (channels s') tx = false -> tx < length (channels s) ->
    is_closed (channels s) tx = false /\
    waiting s' tx ++ at_channel tx lost ≡ₚ waiting s tx ++ at_channel tx new;
  ef_fresh : forall tx, is_closed (channels s') tx = false -> length (channels s) <= tx -> waiting s' tx = [];
}.

(** An effect on the channels matched by the books keeps the invariant. *)
Lemma effect_ok (w w' : World) new lost :
  world_ok w -> effect (w_state w) (w_state w') new lost ->
  Forall (fun m => is_Some (delivery m)) (w_hands w') ->
  outside w' ++ new ++ put_in w ≡ₚ outside w ++ lost ++ put_in w' ->
  (forall e, e ∈ put_in w' ++ outside w' -> e ∈ put_in w ++ outside w ++ new ++ lost) ->
  world_ok w'.
Proof.
  intros [Hwf Hh Hk Ha] [Ewf Elen Ek Eo Ef] Hh' Hbook Hsub.
  assert (Hk' : forall e, e ∈ put_in w' ++ outside w' -> e.1 < length (channels (w_state w))).
  { intros e He. apply Hsub in He. rewrite app_assoc in He. apply elem_of_app in He as [He|He]; auto. }
  split; [auto|done|intros e He; specialize (Hk' e He); lia|].
  intros tx Ho. destruct (decide (tx < length (channels (w_state w)))) as [Hlt|Hge].
  - destruct (Eo tx Ho Hlt) as [Hop Hw]. specialize (Ha tx Hop).
    pose proof (at_channel_perm tx _ _ Hbook) as Hb. rewrite !at_channel_app in Hb.
    apply (Permutation_app_inv_l (at_channel tx lost ++ at_channel tx new ++ at_channel tx (put_in w))).
    trans ((waiting (w_state w') tx ++ at_channel tx lost) ++
      (at_channel tx (outside w') ++ at_channel tx new ++ at_channel tx (put_in w))); [solve_Permutation|].
    rewrite Hw, Hb, <- Ha. solve_Permutation.
  - rewrite (Ef tx Ho) by lia. rewrite (at_channel_unknown tx (outside w') (length (channels (w_state w)))),
      (at_channel_unknown tx (put_in w') (length (channels (w_state w)))); [done|..]; try lia;
      intros e He; apply Hk', elem_of_app; auto.
Qed.

(** Two effects in a row, the second opening no channel the first did not know. *)
Lemma effect_then (s s1 s2 : MemoryState) new lost new' lost' :
  effect s s1 new lost -> effect s1 s2 new' lost' ->
  (forall e, e ∈ new' ++ lost' -> e.1 < length (channels s)) -> effect s s2 (new ++ new') (lost ++ lost').
Proof.
  intros [Ewf Elen Ek Eo Ef] [Ewf' Elen' Ek' Eo' Ef'] Hk. split; [auto|lia| | |].
  - intros e He. assert (Hin : e ∈ (new ++ lost) \/ e ∈ (new' ++ lost')) by (rewrite !elem_of_app in *; tauto).
    destruct Hin as [Hin|Hin]; auto.
  - intros tx Ho Hlt. destruct (Eo' tx Ho) as [Ho1 Hw']; [lia|]. destruct (Eo tx Ho1 Hlt) as [Hos Hw].
    split; [done|]. rewrite !at_channel_app.
    trans ((waiting s2 tx ++ at_channel tx lost') ++ at_channel tx lost); [solve_Permutation|]. rewrite Hw'.
    trans ((waiting s1 tx ++ at_channel tx lost) ++ at_channel tx new'); [solve_Permutation|]. rewrite Hw. solve_Permutation.
  - intros tx Ho Hge. destruct (decide (tx < length (channels s1))) as [Hlt|Hge1]; [|apply Ef'; [done|lia]].
    destruct (Eo' tx Ho Hlt) as [Ho1 Hw']. rewrite (Ef tx Ho1 Hge) in Hw'. simpl in Hw'.
    rewrite (at_channel_unknown tx new' (length (channels s))) in Hw' by (lia || (intros e He; apply Hk, elem_of_app; auto)).
    symmetry in Hw'. apply Permutation_nil_l in Hw'. symmetry in Hw'. by apply app_nil in Hw' as [-> _].
Qed.

Lemma effect_same (s s' : MemoryState) :
  (mem_wf s -> mem_wf s') -> channels s' = channels s -> effect s s' [] [].
Proof.
  intros Hwf Hc. split; [done|by rewrite Hc|by intros e ?%not_elem_of_nil| |].
  - intros tx Ho _. unfold waiting, items. rewrite Hc in *. by split; [|solve_Permutation].
  - intros tx _ Hge. unfold waiting, items. by rewrite Hc, lookup_ge_None_2.
Qed.

Lemma effect_open_channel (s s' : MemoryState) :
  (mem_wf s -> mem_wf s') -> channels s' = channels s ++ [ch_new] -> effect s s' [] [].
Proof.
  intros Hwf Hc. split; [done|rewrite Hc, length_app; lia|by intros e ?%not_elem_of_nil| |].
  - intros tx Ho Hlt. unfold waiting, items, is_closed in *. rewrite Hc, lookup_app_l in * by done.
    split; [done|solve_Permutation].
  - intros tx _ Hge. unfold waiting, items. rewrite Hc, lookup_app_r by done.
    destruct (tx - length (channels s)) as [|n]; [|done]. simpl.
    by destruct (ch_new_items (A := MemoryDelivery)) as [-> _].
Qed.

Lemma is_closed_open cs tx : is_closed (C := C) cs tx = false -> exists c, cs !! tx = Some c /\ ch_is_closed c = false.
Proof. unfold is_closed. destruct (cs !! tx) as [c|]; [|done]. by exists c. Qed.

(** Sending a delivery to distinct channels. *)
Lemma effect_send (s : MemoryState) txs d :
  NoDup txs -> (forall tx, tx ∈ txs -> tx < length (channels s)) ->
  effect s (set_channels s (send_to (channels s) txs d))
    ((fun tx => (tx, shared d)) <$> List.filter (fun tx => negb (is_closed (channels s) tx)) txs) [].
Proof.
  intros Hn Hk. split; simpl.
  - intros Hwf. apply set_channels_wf; [done|]. by rewrite send_to_length.
  - by rewrite send_to_length.
  - intros e He. rewrite app_nil_r in He. apply list_elem_of_fmap in He as (tx & -> & Htx).
    apply elem_of_filterb in Htx as [_ Htx]. by apply Hk.
  - intros tx Ho Hlt. destruct (lookup_lt_is_Some_2 _ _ Hlt) as (c & Hc).
    destruct (send_to_spec (channels s) txs d tx c Hn Hc) as (c' & Hc' & Hr).
    unfold is_closed in Ho. rewrite Hc' in Ho.
    rewrite at_channel_tagged by (by apply NoDup_ListNoDup, List.NoDup_filter, NoDup_ListNoDup).
    unfold waiting, items, is_closed at 1. simpl. rewrite Hc', Hc.
    assert (Hop : ch_is_closed c = false).
    { destruct (ch_is_closed c) eqn:E; [|done]. rewrite andb_false_r in Hr. congruence. }
    split; [done|]. rewrite app_nil_r, (bool_decide_ext (tx ∈ List.filter _ txs) (tx ∈ txs)).
    + rewrite Hop, andb_true_r in Hr. case_bool_decide.
      * destruct Hr as [-> _]. by rewrite fmap_app.
      * by rewrite Hr, app_nil_r.
    + rewrite elem_of_filterb. unfold is_closed. rewrite Hc, Hop. simpl. naive_solver.
  - intros tx _ Hge. unfold waiting, items. simpl. by rewrite lookup_ge_None_2 by (by rewrite send_to_length).
Qed.

Lemma effect_requeue (s : MemoryState) tx d :
  tx < length (channels s) ->
  effect s (set_channels s (send_to (channels s) [tx] d)) [(tx, shared d)] [].
Proof.
  intros Hlt. destruct (effect_send s [tx] d) as [Ewf Elen Ek Eo Ef]; [apply NoDup_singleton|
    by intros t ->%list_elem_of_singleton|].
  split; [done|done| |intros t Ho Htl|done].
  - by intros e ->%list_elem_of_singleton.
  - destruct (Eo t Ho Htl) as [Hop Hw]. split; [done|]. rewrite Hw. simpl.
    destruct (is_closed (channels s) tx) eqn:Hcl; simpl; [|done].
    rewrite at_channel_one. destruct (Nat.eqb_spec tx t) as [->|]; [congruence|done].
Qed.

Lemma at_channel_tagged_by tx tx' l : at_channel tx (tagged tx' l) = if Nat.eqb tx' tx then shared <$> l else [].
Proof.
  induction l as [|d l IH]; [by destruct (Nat.eqb tx' tx)|]. unfold tagged. rewrite fmap_cons.
  change ((tx', shared d) :: ?k) with ([(tx', shared d)] ++ k). rewrite at_channel_app, at_channel_one.
  change ((fun d => (tx', shared d)) <$> l) with (tagged tx' l). rewrite IH. by destruct (Nat.eqb tx' tx).
Qed.

(** What replaces the channel of one subscription. *)
Lemma effect_swap (s s' : MemoryState) tx c c' new lost :
  channels s !! tx = Some c -> channels s' = <[tx := c']> (channels s) -> bus s' = bus s ->
  ch_is_closed c' = ch_is_closed c ->
  (ch_is_closed c = false -> (shared <$> ch_items c') ++ lost ≡ₚ (shared <$> ch_items c) ++ new) ->
  effect s s' ((fun x => (tx, x)) <$> new) ((fun x => (tx, x)) <$> lost).
Proof.
  intros Hc Hcs Hb Hcl Hi. pose proof (lookup_lt_Some _ _ _ Hc) as Hlt.
  assert (Hat : forall t (l : list DeliveryInner), at_channel t ((fun x => (tx, x)) <$> l) = if Nat.eqb tx t then l else []).
  { intros t l. induction l as [|x l IH]; [by destruct (Nat.eqb tx t)|]. rewrite fmap_cons.
    change ((tx, x) :: ?k) with ([(tx, x)] ++ k). rewrite at_channel_app, at_channel_one, IH. by destruct (Nat.eqb tx t). }
  assert (Hlen : length (channels s') = length (channels s)) by (by rewrite Hcs, length_insert). split.
  - unfold mem_wf. rewrite Hb. destruct (bus s); [|done]. intros Hwf.
    eapply registry_wf_channels; [done|]. by rewrite Hlen.
  - by rewrite Hlen.
  - intros e He. apply elem_of_app in He as [He|He]; by apply list_elem_of_fmap in He as (d & -> & _).
  - intros t Ho Htl. rewrite !Hat. unfold waiting, items, is_closed in *. rewrite Hcs in *.
    destruct (decide (t = tx)) as [->|Hne].
    + rewrite list_lookup_insert_eq, Hc in * by done. rewrite Nat.eqb_refl. rewrite Hcl in Ho. by split; [|apply Hi].
    + rewrite list_lookup_insert_ne in * by done. rewrite (proj2 (Nat.eqb_neq tx t)) by done. by split.
  - intros t _ Hge. unfold waiting, items. by rewrite lookup_ge_None_2 by (by rewrite Hlen).
Qed.

Lemma tagged_inner tx l : tagged tx l = (fun x => (tx, x)) <$> (shared <$> l).
Proof. unfold tagged. by rewrite <- list_fmap_compose. Qed.

Lemma stale_prefix_split mode mark skipped d rest :
  Forall (fun x => stale mode mark x = true) skipped -> stale mode mark d = false ->
  stale_prefix mode mark (skipped ++ d :: rest) = skipped.
Proof. intros Hs Hd. induction Hs as [|x l Hx _ IH]; simpl; [by rewrite Hd|]. by rewrite Hx, IH. Qed.
Lemma stale_prefix_all mode mark l : Forall (fun x => stale mode mark x = true) l -> stale_prefix mode mark l = l.
Proof. intros Hs. induction Hs as [|x l Hx _ IH]; simpl; [done|]. by rewrite Hx, IH. Qed.
Lemma stale_prefix_unsought mode l : stale_prefix mode 0 l = [].
Proof. destruct l as [|d l]; [done|]. simpl. unfold stale. rewrite (proj2 (Nat.ltb_ge _ _)) by lia. by rewrite andb_false_r. Qed.

(** The second half of a poll takes the stale prefix, and the first delivery behind it. *)
Lemma effect_poll_fresh mode (s : MemoryState) (u : Subscriber) :
  let (s', p) := poll_fresh mode s u in
  effect s s' [] (tagged (rx u) (stale_prefix mode (watermark (seek_control u)) (items s (rx u))) ++
    match p with Ready (Some d) => [(rx u, shared d)] | _ => [] end).
Proof.
  destruct (channels s !! rx u) as [c|] eqn:Hc; cycle 1.
  { unfold poll_fresh, items. rewrite Hc. by apply effect_same. }
  pose proof (poll_fresh_spec mode s u c Hc) as Hp. unfold items. rewrite Hc.
  destruct (poll_fresh mode s u) as [s' p]. destruct Hp as (c' & Hcs & _ & Hcl & Hb & _ & _ & Hp).
  destruct p as [[d|]|].
  - destruct Hp as (sk & Hi & Hall & Hd). rewrite Hi, (stale_prefix_split _ _ _ _ _ Hall Hd).
    change [(rx u, shared d)] with (tagged (rx u) [d]). unfold tagged. rewrite <- fmap_app.
    change ((fun d => (rx u, shared d)) <$> ?l) with (tagged (rx u) l). rewrite tagged_inner.
    apply (effect_swap s s' (rx u) c c' []); [done..|]. intros _. rewrite Hi, !fmap_app. simpl.
    rewrite app_nil_r. solve_Permutation.
  - destruct Hp as (Hall & Hi & _). rewrite (stale_prefix_all _ _ _ Hall), app_nil_r, tagged_inner.
    apply (effect_swap s s' (rx u) c c' []); [done..|]. intros _. by rewrite Hi, app_nil_r.
  - destruct Hp as (Hall & Hi & _). rewrite (stale_prefix_all _ _ _ Hall), app_nil_r, tagged_inner.
    apply (effect_swap s s' (rx u) c c' []); [done..|]. intros _. by rewrite Hi, app_nil_r.
Qed.

(** The first half applies the seek that is pending: the channel is drained and refilled. *)
Lemma effect_begin_poll mode (s : MemoryState) (u : Subscriber) wk :
  let (s', u') := begin_poll mode s u wk in effect s s' (seek_puts mode s u) (seek_drops mode s u).
Proof.
  unfold begin_poll, apply_pending_seek, seek_puts, seek_drops. destruct (Log.retains mode); [|by apply effect_same]. simpl.
  destruct (pending (seek_control u)) as [target|]; [|by apply effect_same].
  unfold replay_from. simpl. destruct (bus s) as [r|rt] eqn:Hb; [|by apply effect_same].
  destruct (channels s !! rx u) as [c|] eqn:Hc; cycle 1.
  { unfold items, is_closed. rewrite Hc. simpl.
    assert (Hno : match Log.log_of (log s) (sub_name u) with Some _ => [] | None => [] end = ([] : Tagged))
      by (by destruct (Log.log_of _ _)). rewrite Hno. apply effect_same.
    - intros Hwf. apply set_channels_wf; [done|]. by rewrite length_alter.
    - simpl. apply list_eq. intros i. destruct (decide (i = rx u)) as [->|Hne].
      + by rewrite list_lookup_alter_eq, Hc.
      + by rewrite list_lookup_alter_ne. }
  unfold items, is_closed. rewrite Hc, tagged_inner.
  destruct (drain_spec (length (ch_items c)) c ltac:(lia)) as [Hd Hdc].
  set (retained := Log.log_of (log s) (sub_name u)).
  set (c' := match retained with Some l => requeue_replay (drain (length (ch_items c)) c) (Log.replay_from l target)
             | None => drain (length (ch_items c)) c end).
  replace (match retained with Some l => if ch_is_closed c then [] else _ | None => [] end)
    with ((fun x => (rx u, x)) <$> (match retained with Some l => if ch_is_closed c then [] else snd <$> Log.replay_from l target | None => [] end))
    by (destruct retained; [|done]; destruct (ch_is_closed c); [done|by rewrite <- list_fmap_compose]).
  assert (Hcl : ch_is_closed c' = ch_is_closed c).
  { unfold c'. destruct retained as [l|]; [|done]. destruct (ch_is_closed c) eqn:Hcl; [|by apply requeue_replay_spec].
    clear - UnboundedLaws0 Hdc. revert Hdc. generalize (drain (length (ch_items c)) c). induction (Log.replay_from l target) as [|[n e] rest IH]; [done|].
    intros k Hk. simpl. apply IH. by rewrite (ch_send_closed k _ Hk). }
  apply (effect_swap s _ (rx u) c c'); [done| |done|done|].
  - simpl. apply list_eq. intros i. destruct (decide (i = rx u)) as [->|Hne].
    + by rewrite list_lookup_alter_eq, Hc, list_lookup_insert_eq by (by eapply lookup_lt_Some).
    + by rewrite list_lookup_alter_ne, list_lookup_insert_ne.
  - intros Ho. unfold c'. rewrite Ho in *. destruct retained as [l|].
    + destruct (requeue_replay_spec (Log.replay_from l target) _ Hdc) as [-> _]. rewrite Hd. simpl.
      rewrite <- list_fmap_compose, Permutation_app_comm. done.
    + by rewrite Hd, app_nil_r.
Qed.

Lemma handed_out_nodup (s : MemoryState) x :
  mem_wf s ->
  effect s (fst (fanout_unsent s (Log.name x) (Log.payload x) (Log.headers x))) (handed_out s x) [].
Proof.
  intros Hwf. unfold handed_out. destruct (bus s) as [r|rt] eqn:Hb.
  - rewrite (fanout_live _ _ _ _ _ Hb). simpl. unfold mem_wf in Hwf. rewrite Hb in Hwf.
    replace (Log.mk_inner (Log.name x) (Log.payload x) (Log.headers x)) with x by (by destruct x).
    set (d := mk_delivery x (snd (append_log s x)) 1).
    assert (Hcs : channels (published s r x) = send_to (channels s) (targets s r (Log.name x)) d).
    { unfold published, d. by destruct (append_log s x). }
    assert (Hbus : bus (published s r x) = bus s) by (unfold published; by destruct (append_log s x)).
    pose proof (effect_send s (targets s r (Log.name x)) d (targets_NoDup s r _ Hwf)) as He.
    destruct He as [Ewf Elen Ek Eo Ef].
    { intros tx Htx. apply (reg_known _ _ Hwf). unfold targets in Htx. unfold all_senders.
      apply elem_of_app in Htx as [Htx|Htx]; apply elem_of_app.
      - left. by eapply names_senders.
      - right. by eapply reached_senders_known. }
    split; [|by rewrite Hcs|done| |].
    + intros _. unfold mem_wf. rewrite Hbus, Hb. by apply published_wf.
    + intros tx. rewrite Hcs. intros Ho Hlt. destruct (Eo tx Ho Hlt) as [? Hw]. split; [done|].
      unfold waiting, items in *. by rewrite Hcs.
    + intros tx. rewrite Hcs. intros Ho Hge. specialize (Ef tx Ho Hge). unfold waiting, items in *. by rewrite Hcs.
  - unfold fanout_unsent. rewrite Hb. simpl. by apply effect_same.
Qed.
Lemma effect_leave (s : MemoryState) tx :
  effect s (set_channels s (alter ch_close tx (channels s))) [] [].
Proof.
  split; simpl.
  - intros Hwf. apply set_channels_wf; [done|]. by rewrite length_alter.
  - by rewrite length_alter.
  - by intros e ?%not_elem_of_nil.
  - intros t Ho Hlt. unfold waiting, items, is_closed in *. simpl. destruct (decide (t = tx)) as [->|Hne].
    + rewrite list_lookup_alter_eq in *. destruct (channels s !! tx) as [c|]; [|done]. simpl in *.
      destruct (ch_close_items c). congruence.
    + rewrite list_lookup_alter_ne in * by done. by split; [|solve_Permutation].
  - intros t _ Hge. unfold waiting, items. simpl. by rewrite lookup_ge_None_2 by (by rewrite length_alter).
Qed.

Lemma effect_subscribe (s : MemoryState) name : effect s (fst (subscribe s name)) [] [].
Proof.
  pose proof (subscribe_wf s name) as Hwf. unfold subscribe in *. destruct (has_wildcard name); [by apply effect_same|].
  destruct (unbounded_channel s) as [s1 tx] eqn:Hu. injection Hu as <- <-.
  apply effect_open_channel; [done|]. unfold register. simpl. by destruct (bus s).
Qed.

Lemma effect_subscribe_pattern (s : MemoryState) t : effect s (fst (subscribe_pattern s t)) [] [].
Proof.
  pose proof (subscribe_pattern_wf s t) as Hwf. unfold subscribe_pattern in *.
  destruct (parse t) as [p|e]; [|by apply effect_same].
  apply effect_open_channel; [done|]. unfold register_pattern. simpl. by destruct (bus s).
Qed.

Lemma effect_broker_subscribe (s : MemoryState) name : effect s (fst (broker_subscribe s name)) [] [].
Proof.
  pose proof (run_wf s (BrokerSubscribe name)) as Hwf. simpl in Hwf. unfold broker_subscribe in *.
  destruct (unbounded_channel s) as [s1 tx] eqn:Hu. injection Hu as <- <-.
  assert (Ho : effect s (set_channels s (channels s ++ [ch_new])) [] []).
  { apply effect_open_channel; [|done]. intros Hm. apply set_channels_wf; [done|]. rewrite length_app. lia. }
  destruct (has_wildcard name); simpl.
  - apply (effect_then _ _ _ [] [] [] [] Ho); [apply effect_leave|by intros e ?%not_elem_of_nil].
  - apply effect_open_channel; [done|]. unfold register. simpl. by destruct (bus s).
Qed.

(** A flush is its publishes, each on the bus the ones before it left. *)
Lemma handed_known (s : MemoryState) x e : mem_wf s -> e ∈ handed_out s x -> e.1 < length (channels s).
Proof. intros Hwf He. apply (ef_known _ _ _ _ (handed_out_nodup s x Hwf)). apply elem_of_app. by left. Qed.
Lemma fanout_length (s : MemoryState) n b h : length (channels (fst (fanout_unsent s n b h))) = length (channels s).
Proof.
  unfold fanout_unsent. destruct (bus s) as [r|rt] eqn:Hb; [|done]. pose proof (fanout_live s r n b h Hb) as Hf.
  unfold fanout_unsent in Hf. rewrite Hb in Hf. rewrite Hf. simpl. unfold published. destruct (append_log _ _).
  simpl. by rewrite send_to_length.
Qed.
Lemma effect_flush (s : MemoryState) ms : mem_wf s -> effect s (fst (flush s ms)) (flushed s ms) [].
Proof.
  revert s. induction ms as [|m ms IH]; intros s Hwf; cbn [flush flushed]; [by apply effect_same|].
  pose proof (handed_out_nodup s (outbound_inner m) Hwf) as He. pose proof (fanout_length s (out_name m) (out_payload m) (out_headers m)) as Hlen.
  unfold fanout. unfold outbound_inner in *. cbn [Log.name Log.payload Log.headers] in He.
  destruct (fanout_unsent s _ _ _) as [s1 [[]|e]]; cbn [fst map_err] in *; [|by rewrite app_nil_r].
  pose proof (IH s1 (ef_wf _ _ _ _ He Hwf)) as Hf. apply (effect_then s s1 _ _ [] _ [] He Hf).
  rewrite <- Hlen. apply (ef_known _ _ _ _ Hf).
Qed.

(** A request is its inbox opened, then its publish. *)
Lemma effect_opened (s : MemoryState) : effect s (request_opened s) [] [].
Proof.
  apply effect_open_channel.
  - intros Hwf. unfold request_opened. set (s0 := mk_state _ _ _ _ _ _).
    assert (H1 : mem_wf s0) by (unfold mem_wf in *; simpl; destruct (bus s); [by eapply registry_wf_channels|done]).
    apply (register_fresh_wf s0 (inbox_name (inbox_seq s)) H1).
  - unfold request_opened, register. simpl. by destruct (bus s).
Qed.
Lemma request_split (s : MemoryState) m :
  match request_start s m with
  | (s', Ok _) => s' = fst (fanout_unsent (request_opened s) (out_name m) (out_payload m) (Log.headers (request_inner s m)))
  | (s', Err _) => s' = request_opened s
  end.
Proof.
  unfold request_start, request_opened, request_inner, register, unbounded_channel. cbn [set_channels bus channels].
  destruct (bus s) as [r|rt] eqn:Hb; [|done]. cbn [fst set_bus bus channels Log.headers]. unfold fanout.
  match goal with |- context [fanout_unsent ?s1 _ _ ?h] =>
    pose proof (fanout_live s1 _ (out_name m) (out_payload m) h eq_refl) as Hf end.
  by rewrite !Hf.
Qed.

(** The end of a request: its reply, if one waits, is taken and the inbox is closed. *)
Lemma effect_finish (s : MemoryState) inbox tx subject wait :
  let s' := fst (request_finish s inbox tx subject wait) in
  effect s (set_channels s' (alter ch_close tx (channels s'))) [] [].
Proof.
  intros s'. assert (Hun : forall s1 : MemoryState, channels (unregister s1 inbox) = channels s1).
  { intros s1. unfold unregister. destruct (bus s1); simpl; by destruct (recording s1). }
  assert (Hs : forall t, t <> tx -> channels s' !! t = channels s !! t).
  { intros t Hne. unfold s', request_finish. destruct (channels s !! tx) as [c|]; [|cbn [fst]; by rewrite Hun].
    destruct (ch_try_recv c) as [[d c']|]; cbn [fst]; rewrite Hun; [|done]. simpl. by rewrite list_lookup_insert_ne. }
  assert (Hl : length (channels s') = length (channels s)).
  { unfold s', request_finish. destruct (channels s !! tx) as [c|]; [|cbn [fst]; by rewrite Hun].
    destruct (ch_try_recv c) as [[d c']|]; cbn [fst]; rewrite Hun; [|done]. simpl. by rewrite length_insert. }
  split; simpl.
  - intros Hwf. apply set_channels_wf; [apply (run_wf s (RequestFinish inbox tx subject wait) Hwf)|]. by rewrite length_alter.
  - by rewrite length_alter, Hl.
  - by intros e ?%not_elem_of_nil.
  - intros t Ho Hlt. destruct (decide (t = tx)) as [->|Hne].
    + unfold is_closed in Ho. simpl in Ho. rewrite list_lookup_alter_eq in Ho. destruct (channels s' !! tx) as [c|]; [|done].
      simpl in Ho. destruct (ch_close_items c). congruence.
    + unfold waiting, items, is_closed in *. simpl in *. rewrite list_lookup_alter_ne, Hs in * by done. by split; [|solve_Permutation].
  - intros t _ Hge. unfold waiting, items. simpl. by rewrite lookup_ge_None_2 by (by rewrite length_alter, Hl).
Qed.

(** What the account depends on. *)
Lemma world_ok_same (w w' : World) :
  world_ok w -> w_state w' = w_state w -> w_hands w' = w_hands w -> w_timers w' = w_timers w ->
  put_in w' = put_in w -> gone w' = gone w -> world_ok w'.
Proof.
  intros [Hwf Hh Hk Ha] Hs Hh' Ht Hp Hg. assert (Ho : outside w' = outside w) by (unfold outside, in_hands, on_timers; congruence).
  split; rewrite ?Hs, ?Hh', ?Ho, ?Hp; auto.
Qed.

(** A step on the bus that hands out copies and takes none. *)
Lemma sending_ok (w w' : World) new :
  world_ok w -> effect (w_state w) (w_state w') new [] ->
  w_hands w' = w_hands w -> w_timers w' = w_timers w -> w_books w' = book_sent (w_books w) new -> world_ok w'.
Proof.
  intros Hok He Hh Ht Hb. assert (Ho : outside w' = outside w) by (unfold outside, in_hands, on_timers, gone; by rewrite Hh, Ht, Hb).
  eapply effect_ok; [done|exact He|rewrite Hh; apply Hok| |]; rewrite Ho; unfold put_in; rewrite Hb; simpl.
  - solve_Permutation.
  - intros e. rewrite !elem_of_app. tauto.
Qed.
Lemma silent_ok (w w' : World) :
  world_ok w -> effect (w_state w) (w_state w') [] [] ->
  w_hands w' = w_hands w -> w_timers w' = w_timers w -> put_in w' = put_in w -> gone w' = gone w -> world_ok w'.
Proof.
  intros Hok He Hh Ht Hp Hg. assert (Ho : outside w' = outside w) by (unfold outside, in_hands, on_timers; congruence).
  eapply effect_ok; [done|exact He|rewrite Hh; apply Hok| |]; rewrite Ho, Hp.
  - solve_Permutation.
  - intros e. rewrite !elem_of_app. tauto.
Qed.

Lemma Forall_delete {A} (P : A -> Prop) (l : list A) k : Forall P l -> Forall P (delete k l).
Proof.
  rewrite !Forall_forall. intros Hall x Hx. apply Hall. apply list_elem_of_lookup in Hx as (i & Hi).
  apply list_elem_of_lookup. destruct (decide (i < k)).
  - exists i. by rewrite list_lookup_delete_lt in Hi.
  - exists (S i). by rewrite list_lookup_delete_ge in Hi by lia.
Qed.

(** Taking message [k] out of the hands. *)
Lemma hands_step_ok (w w' : World) k m new t out :
  world_ok w -> w_hands w !! k = Some m -> effect (w_state w) (w_state w') new [] ->
  w_hands w' = delete k (w_hands w) -> w_timers w' = w_timers w ++ t -> put_in w' = put_in w ->
  gone w' ≡ₚ gone w ++ out -> new ++ (copy_on <$> t) ++ out = copy_of m -> world_ok w'.
Proof.
  intros Hok Hk He Hh Ht Hs Hse Hm.
  assert (Hb : outside w' ++ new ≡ₚ outside w).
  { unfold outside, in_hands, on_timers. rewrite Hh, Ht, Hse, (hands_delete _ _ _ Hk), <- Hm, fmap_app.
    solve_Permutation. }
  eapply effect_ok; [done|done| | |].
  - rewrite Hh. apply Forall_delete, Hok.
  - rewrite Hs, app_assoc, Hb. solve_Permutation.
  - intros e. rewrite Hs, !elem_of_app. intros [?|Hin]; [by left|]. right. left.
    rewrite <- Hb. apply elem_of_app. by left.
Qed.

Lemma hand_known (w : World) k m :
  world_ok w -> w_hands w !! k = Some m ->
  exists d, delivery m = Some d /\
    forall tx, subscription m = Some tx -> tx < length (channels (w_state w)) /\ copy_of m = [(tx, shared d)].
Proof.
  intros Hok Hk. pose proof (wo_hands _ Hok) as Hh. rewrite Forall_forall in Hh.
  destruct (Hh m) as [d Hd]; [by eapply list_elem_of_lookup_2|]. exists d. split; [done|].
  intros tx Htx. assert (Hc : copy_of m = [(tx, shared d)]) by (unfold copy_of; by rewrite Hd, Htx). split; [|done].
  apply (wo_known _ Hok (tx, shared d)). unfold outside, in_hands.
  rewrite (hands_delete _ _ _ Hk), Hc. rewrite !elem_of_app. right. left. left. left.
Qed.

(** A settlement of what is in hand, and what a subscription does. *)
Lemma requeue_effect (w : World) k m d :
  world_ok w -> w_hands w !! k = Some m -> delivery m = Some d ->
  effect (w_state w) (requeue_now (w_state w) m (redelivered d)) (copy_of m) [].
Proof.
  intros Hok Hk Hd. destruct (hand_known w k m Hok Hk) as (d' & Hd' & Hs). unfold requeue_now.
  destruct (subscription m) as [tx|] eqn:Htx.
  - destruct (Hs tx eq_refl) as [Hlt Hc]. rewrite Hc. rewrite Hd in Hd'. injection Hd' as <-.
    by apply (effect_requeue _ tx (redelivered d)).
  - unfold copy_of. rewrite Hd, Htx. by apply effect_same.
Qed.

#[local] Ltac taken :=
  first [assumption | done | by apply effect_same | by rewrite ?app_nil_r | unfold gone; simpl; solve_Permutation].

Lemma in_hand_step_ok (mode : Log.LogMode) (w : World) t :
  world_ok w -> match t with WAck _ | WNack _ _ | WNackAfter _ _ | WIntoRaw _ | WDrop _ => True | _ => False end ->
  world_ok (step mode w t).
Proof.
  intros Hok Ht. destruct t as [| | | | | | | | | | | | | | | | | | | | | | | |k|k q|k after|k|k| |]; try done; cbn [step];
    unfold with_message; destruct (w_hands w !! k) as [m|] eqn:Hk; try done;
    destruct (hand_known w k m Hok Hk) as (d & Hd & Hs); pose proof (requeue_effect w k m d Hok Hk Hd) as Hq.
  - apply (hands_step_ok w _ k m [] [] (copy_of m) Hok Hk); taken.
  - unfold nack. rewrite Hd. destruct q; simpl.
    + apply (hands_step_ok w _ k m (copy_of m) [] [] Hok Hk); taken.
    + apply (hands_step_ok w _ k m [] [] (copy_of m) Hok Hk); taken.
  - unfold nack_after. rewrite Hd. destruct (N.eqb after 0); simpl.
    + apply (hands_step_ok w _ k m (copy_of m) [] [] Hok Hk); taken.
    + destruct (subscription m) as [tx|] eqn:Htx; simpl.
      * destruct (Hs tx eq_refl) as [Hlt Hc].
        apply (hands_step_ok w _ k m [] [mk_timer after tx (redelivered d)] [] Hok Hk); taken.
      * apply (hands_step_ok w _ k m [] [] [] Hok Hk); try taken. unfold copy_of. by rewrite Hd, Htx.
  - unfold into_raw. rewrite Hd. apply (hands_step_ok w _ k m [] [] (copy_of m) Hok Hk); taken.
  - unfold drop_message. rewrite Hd. apply (hands_step_ok w _ k m (copy_of m) [] [] Hok Hk); taken.
Qed.

Lemma sub_step_ok (mode : Log.LogMode) (w : World) t :
  world_ok w -> match t with WSeek _ _ | WBeginPoll _ _ | WPollFresh _ | WLeave _ => True | _ => False end ->
  world_ok (step mode w t).
Proof.
  intros Hok Ht. destruct t as [| | | | | | | | | | | | | | | | | | | | |i to|i wk|i| | | | | | |i]; try done; cbn [step];
    unfold with_sub; destruct (w_subs w !! i) as [[md u]|]; try done.
  - destruct (Log.retains md); [|done]. destruct (seek (w_state w) u to) as [[u' r] wk].
    by apply (world_ok_same w).
  - pose proof (effect_begin_poll md (w_state w) u wk) as He. destruct (begin_poll _ _ _ _) as [s' u'].
    eapply effect_ok; [done|exact He|apply Hok| |]; unfold outside, put_in, gone, in_hands, on_timers; simpl.
    + solve_Permutation.
    + intros e. rewrite !elem_of_app. tauto.
  - pose proof (effect_poll_fresh md (w_state w) u) as He. destruct (poll_fresh _ _ _) as [s' p].
    eapply effect_ok; [done|exact He| | |]; unfold outside, put_in, gone, in_hands, on_timers; simpl.
    + apply Forall_app. split; [apply Hok|]. destruct p as [[d|]|]; constructor; [by eexists|done].
    + rewrite fmap_app, concat_app. destruct p as [[d|]|]; simpl; rewrite ?app_nil_r; solve_Permutation.
    + intros e. rewrite fmap_app, concat_app. destruct p as [[d|]|]; simpl; rewrite ?app_nil_r, !elem_of_app; tauto.
  - apply (silent_ok w); [done|apply effect_leave|done..].
Qed.

Lemma step_ok (mode : Log.LogMode) (w : World) t : world_ok w -> world_ok (step mode w t).
Proof.
  intros Hok. destruct t as [| |rt|n|t|n| |k|k m|k|k|k| |k m|k|k|k|m|m|k subject wait|k|i to|i wk|i|k|k q|k after|k|k|k|i];
    try (by apply in_hand_step_ok); try (by apply sub_step_ok); cbn [step].
  - apply (silent_ok w); [done| |done..]. apply effect_same; [apply (run_wf _ Connect)|].
    simpl. unfold connect. by destruct (bus (w_state w)).
  - apply (silent_ok w); [done| |done..]. apply effect_same; [apply (run_wf _ Shutdown)|done].
  - apply (silent_ok w); [done| |done..]. apply effect_same; [apply (run_wf _ (SetRouting rt))|done].
  - pose proof (effect_subscribe (w_state w) n) as He. destruct (subscribe (w_state w) n) as [s r]. by apply (silent_ok w).
  - pose proof (effect_subscribe_pattern (w_state w) t) as He. destruct (subscribe_pattern (w_state w) t) as [s r].
    by apply (silent_ok w).
  - pose proof (effect_broker_subscribe (w_state w) n) as He. destruct (broker_subscribe (w_state w) n) as [s tx].
    by apply (silent_ok w).
  - by apply (world_ok_same w).
  - destruct (w_publishers w !! k); [|done]. by apply (world_ok_same w).
  - destruct (w_publishers w !! k) as [[b|]|]; cbn [publish]; [| |done].
    + apply (sending_ok w _ []); [done|by apply effect_same|done..].
    + pose proof (handed_out_nodup (w_state w) (outbound_inner m) (wo_wf _ Hok)) as He. unfold outbound_inner in He.
      cbn [Log.name Log.payload Log.headers] in He. destruct (fanout_unsent _ _ _ _) as [s' r].
      by apply (sending_ok w _ (handed_out (w_state w) (outbound_inner m))).
  - by apply (world_ok_same w).
  - destruct (w_publishers w !! k) as [[b|]|]; unfold commit; [| |done].
    + pose proof (effect_flush (w_state w) b (wo_wf _ Hok)) as He. destruct (flush _ _) as [s' r].
      by apply (sending_ok w _ (flushed (w_state w) b)).
    + apply (sending_ok w _ []); [done|by apply effect_same|done..].
  - by apply (world_ok_same w).
  - by apply (world_ok_same w).
  - by apply (world_ok_same w).
  - destruct (w_txns w !! k) as [t|]; [|done]. unfold txn_commit.
    pose proof (effect_flush (w_state w) (buffered t) (wo_wf _ Hok)) as He. destruct (flush _ _) as [s' r].
    by apply (sending_ok w _ (flushed (w_state w) (buffered t))).
  - by apply (world_ok_same w).
  - by apply (world_ok_same w).
  - pose proof (handed_out_nodup (w_state w) (outbound_inner m) (wo_wf _ Hok)) as He. unfold outbound_inner in He.
    cbn [Log.name Log.payload Log.headers] in He. unfold requester_publish. destruct (fanout_unsent _ _ _ _) as [s' r].
    by apply (sending_ok w _ (handed_out (w_state w) (outbound_inner m))).
  - pose proof (request_split (w_state w) m) as Hs. pose proof (effect_opened (w_state w)) as Ho.
    destruct (request_start (w_state w) m) as [s' [inbox|e]]; subst s'; [|by apply (silent_ok w)].
    assert (Hok1 : world_ok (with_state w (request_opened (w_state w)))) by (by apply (silent_ok w)).
    pose proof (handed_out_nodup (request_opened (w_state w)) (request_inner (w_state w) m) (wo_wf _ Hok1)) as He.
    unfold request_inner in He at 1 2 3. cbn [Log.name Log.payload Log.headers] in He.
    by apply (sending_ok (with_state w (request_opened (w_state w))) _ (handed_out (request_opened (w_state w)) (request_inner (w_state w) m))).
  - destruct (w_requests w !! k) as [[inbox tx]|]; [|done].
    pose proof (effect_finish (w_state w) inbox tx subject wait) as He. destruct (request_finish _ _ _ _ _) as [s' r].
    assert (Hc : List.concat (copy_of <$> match r with Ok d => [inbox_message d] | Err _ => [] end) = []) by (by destruct r).
    eapply effect_ok; [done|exact He| | |]; unfold outside, put_in, gone, in_hands, on_timers; simpl.
    + apply Forall_app. split; [apply Hok|]. destruct r as [d|e]; constructor; [by eexists|done].
    + rewrite fmap_app, concat_app, Hc, app_nil_r. solve_Permutation.
    + intros e. rewrite fmap_app, concat_app, Hc, app_nil_r, !elem_of_app. tauto.
  - destruct (w_requests w !! k) as [[inbox tx]|]; [|done]. apply (silent_ok w); [done|apply effect_leave|done..].
  - destruct (w_timers w !! k) as [t|] eqn:Hk; [|done].
    assert (Hlt : back t < length (channels (w_state w))).
    { apply (wo_known _ Hok (copy_on t)). unfold outside, on_timers. rewrite (timers_delete _ _ _ Hk).
      rewrite !elem_of_app. right. right. left. left. }
    eapply effect_ok; [done|by apply (effect_requeue _ (back t) (redelivery t))|apply Hok| |];
      unfold outside, put_in, gone, in_hands, on_timers; simpl.
    + rewrite (timers_delete _ _ _ Hk). change (copy_on t) with (back t, shared (redelivery t)). solve_Permutation.
    + intros e. rewrite (timers_delete (w_timers w) _ _ Hk), !elem_of_app, elem_of_cons. tauto.
Qed.

(** A new subscription was never sought, and only a seek answered [Ok] moves one. *)
Lemma seeks_ok_same (w w' : World) mu :
  seeks_ok w -> w_subs w' = w_subs w ++ mu -> b_sought (w_books w') = b_sought (w_books w) ->
  b_superseded (w_books w') = b_superseded (w_books w) -> b_replayed (w_books w') = b_replayed (w_books w) ->
  Forall (fun mu : Log.LogMode * Subscriber => pending (seek_control mu.2) = None /\ watermark (seek_control mu.2) = 0) mu ->
  seeks_ok w'.
Proof.
  intros [Hs Hb] Hsu Hso Hsup Hre Hmu. split.
  - rewrite Hsu, Hso. apply Forall_app. split; [done|]. by eapply Forall_impl.
  - by rewrite Hso, Hsup, Hre.
Qed.

Lemma seek_step_ok (mode : Log.LogMode) (w : World) t : seeks_ok w -> seeks_ok (step mode w t).
Proof.
  intros Hok. assert (Hw : seeks_ok w) by done.
  destruct t as [| |rt|n|t|n| |k|k m|k|k|k| |k m|k|k|k|m|m|k subject wait|k|i to|i wk|i|k|k q|k after|k|k|k|i]; cbn [step];
    unfold with_message, with_sub;
    try (by apply (seeks_ok_same w _ []); rewrite ?app_nil_r).
  - destruct (subscribe _ _) as [s r]. eapply (seeks_ok_same w); [done..|]. by destruct r; repeat constructor.
  - destruct (subscribe_pattern _ _) as [s r]. eapply (seeks_ok_same w); [done..|]. by destruct r; repeat constructor.
  - destruct (broker_subscribe _ _) as [s tx]. eapply (seeks_ok_same w); [done..|]. by repeat constructor.
  - destruct (w_publishers w !! k); [|done]. by apply (seeks_ok_same w _ []); rewrite ?app_nil_r.
  - destruct (w_publishers w !! k) as [p|]; [|done]. destruct (publish _ _ _) as [[s p'] r].
    by apply (seeks_ok_same w _ []); rewrite ?app_nil_r.
  - destruct (w_publishers w !! k) as [p|]; [|done]. destruct (commit _ _) as [[s p'] r].
    by apply (seeks_ok_same w _ []); rewrite ?app_nil_r.
  - destruct (w_txns w !! k) as [t|]; [|done]. destruct (txn_commit _ _) as [[s t'] r].
    by apply (seeks_ok_same w _ []); rewrite ?app_nil_r.
  - destruct (request_start _ _) as [s [r|e]]; by apply (seeks_ok_same w _ []); rewrite ?app_nil_r.
  - destruct (w_requests w !! k) as [[inbox tx]|]; [|done]. destruct (request_finish _ _ _ _ _) as [s r].
    by apply (seeks_ok_same w _ []); rewrite ?app_nil_r.
  - destruct (w_requests w !! k) as [[inbox tx]|]; [|done]. by apply (seeks_ok_same w _ []); rewrite ?app_nil_r.
  - destruct (w_subs w !! i) as [[md u]|] eqn:Hi; [|done]. destruct (Log.retains md); [|done].
    assert (Hrx : rx (fst (fst (seek (w_state w) u to))) = rx u /\
      (match snd (fst (seek (w_state w) u to)) with Ok _ => True | Err _ => fst (fst (seek (w_state w) u to)) = u end)).
    { unfold seek. destruct (bus (w_state w)); [|done]. destruct (match Log.log_of _ _ with Some _ => _ | None => _ end) as [o t].
      destruct (resolve to o t); [|done]. simpl. by destruct (wr_wake _). }
    destruct (seek (w_state w) u to) as [[u' r] wk]. cbn [fst snd] in Hrx. destruct Hrx as [Hrx Herr].
    destruct Hw as [Hs Hb]. split; cbn [w_subs w_books with_subs moved book_sought b_sought b_superseded b_replayed].
    + apply Forall_insert.
      * eapply Forall_impl; [exact Hs|]. intros v Hv Hn. apply Hv. rewrite elem_of_app in Hn. tauto.
      * intros Hn. cbn [snd] in *. rewrite elem_of_app, Hrx in Hn. destruct r as [|e].
        -- exfalso. apply Hn. right. left.
        -- rewrite Herr. apply (Forall_lookup_1 _ _ _ _ Hs Hi). tauto.
    + intros e He. apply elem_of_app. left. by apply Hb.
  - destruct (w_subs w !! i) as [[md u]|] eqn:Hi; [|done]. destruct Hw as [Hs Hb].
    pose proof (Forall_lookup_1 _ _ _ _ Hs Hi) as Hu. cbn [snd] in Hu.
    assert (Hrx : rx (snd (begin_poll md (w_state w) u wk)) = rx u /\
      (pending (seek_control u) = None -> pending (seek_control (snd (begin_poll md (w_state w) u wk))) = None) /\
      watermark (seek_control (snd (begin_poll md (w_state w) u wk))) = watermark (seek_control u)).
    { unfold begin_poll, apply_pending_seek. destruct (Log.retains md); [|done]. simpl. by destruct (pending (seek_control u)). }
    destruct (begin_poll _ _ _ _) as [s' u']. cbn [snd] in Hrx. destruct Hrx as (Hrx & Hp & Hwm).
    split; cbn [w_subs w_books with_subs moved book_seek b_sought b_superseded b_replayed].
    + apply Forall_insert; [done|]. cbn [snd]. rewrite Hrx. intros Hn. destruct (Hu Hn) as [Hn1 Hn2]. rewrite Hwm. auto.
    + assert (Hsk : forall e, e ∈ seek_drops md (w_state w) u ++ seek_puts md (w_state w) u -> e.1 ∈ b_sought (w_books w)).
      { intros e He. destruct (decide (rx u ∈ b_sought (w_books w))) as [Hin|Hn].
        - assert (e.1 = rx u) as ->; [|done]. apply elem_of_app in He. unfold seek_drops, seek_puts, tagged in He.
          repeat case_match; destruct He as [He|He]; try (by apply not_elem_of_nil in He);
            apply list_elem_of_fmap in He as (x & -> & _); done.
        - exfalso. destruct (Hu Hn) as [Hn1 _]. unfold seek_drops, seek_puts in He. rewrite Hn1 in He.
          destruct (Log.retains md); by apply not_elem_of_nil in He. }
      intros e He. rewrite !elem_of_app in He. destruct He as [[He|He]|[He|He]];
        first [apply Hb, elem_of_app; by auto|apply Hsk, elem_of_app; by auto].
  - destruct (w_subs w !! i) as [[md u]|] eqn:Hi; [|done]. destruct Hw as [Hs Hb].
    pose proof (Forall_lookup_1 _ _ _ _ Hs Hi) as Hu. cbn [snd] in Hu. destruct (poll_fresh _ _ _) as [s' p].
    split; cbn [w_subs w_books moved book_seek b_sought b_superseded b_replayed]; [done|]. rewrite app_nil_r.
    intros e He. rewrite !elem_of_app in He. destruct He as [[He|He]|He]; try (apply Hb; apply elem_of_app; by auto).
    destruct (decide (rx u ∈ b_sought (w_books w))) as [Hin|Hn].
    + by apply list_elem_of_fmap in He as (x & -> & _).
    + destruct (Hu Hn) as [_ Hn2]. rewrite Hn2, stale_prefix_unsought in He. by apply not_elem_of_nil in He.
  - destruct (w_hands w !! k); [|done]. by apply (seeks_ok_same w _ []); rewrite ?app_nil_r.
  - destruct (w_hands w !! k); [|done]. by apply (seeks_ok_same w _ []); rewrite ?app_nil_r.
  - destruct (w_hands w !! k); [|done]. destruct (nack_after _ _ _) as [[s t]|]; [|done].
    by apply (seeks_ok_same w _ []); rewrite ?app_nil_r.
  - destruct (w_hands w !! k) as [m|]; [|done]. destruct (into_raw m); [|done].
    by apply (seeks_ok_same w _ []); rewrite ?app_nil_r.
  - destruct (w_hands w !! k); [|done]. by apply (seeks_ok_same w _ []); rewrite ?app_nil_r.
  - destruct (w_timers w !! k); [|done]. by apply (seeks_ok_same w _ []); rewrite ?app_nil_r.
  - destruct (w_subs w !! i) as [[md u]|]; [|done]. by apply (seeks_ok_same w _ []); rewrite ?app_nil_r.
Qed.

Lemma reachable_steps kept (w : World) ts : reachable kept w -> reachable kept (fold_left (step (mode_of kept)) ts w).
Proof. revert w. induction ts as [|t ts IH]; intros w Hw; simpl; [done|]. by apply IH, r_step. Qed.

Lemma reachable_ok kept (w : World) : reachable kept w -> world_ok w /\ seeks_ok w.
Proof.
  induction 1 as [|w t _ [IH1 IH2]]; [|split; [by apply step_ok|by apply seek_step_ok]]. split; split; simpl.
  - destruct kept; apply bus_reachable_wf; constructor.
  - constructor.
  - by intros e ?%not_elem_of_nil.
  - intros tx Ho. unfold waiting, items, is_closed in *. simpl in *. by destruct kept.
  - constructor.
  - by intros e ?%not_elem_of_nil.
Qed.

Lemma at_channel_none tx (l : Tagged) : (forall e, e ∈ l -> e.1 <> tx) -> at_channel tx l = [].
Proof. intros Hl. unfold at_channel. rewrite filterb_none; [done|]. intros e He. by apply Nat.eqb_neq, Hl. Qed.

(** Every poll of a stream, single or of a batch, is a [WBeginPoll] and its [WPollFresh]es. *)
Lemma fresh_polls mode0 mode w i u room slot :
  w_subs w !! i = Some (mode, u) ->
  let (s', slot') := fill room mode (w_state w) u slot in
  exists n batch, slot' = slot ++ batch /\
    w_state (fold_left (step mode0) (replicate n (WPollFresh i)) w) = s' /\
    w_hands (fold_left (step mode0) (replicate n (WPollFresh i)) w) = w_hands w ++ batch.
Proof.
  revert w slot. induction room as [|room IH]; intros w slot Hi; simpl.
  { exists 0, []. by rewrite !app_nil_r. }
  destruct (poll_fresh mode (w_state w) u) as [s1 p] eqn:Hp.
  assert (Hstep : forall w1, w1 = step mode0 w (WPollFresh i) -> w_state w1 = s1 /\ w_subs w1 = w_subs w /\
    w_hands w1 = w_hands w ++ match p with Ready (Some d) => [message u d] | _ => [] end).
  { intros w1 ->. cbn [step]. unfold with_sub. by rewrite Hi, Hp. }
  destruct (Hstep _ eq_refl) as (Hs & Hsu & Hh). destruct p as [[d|]|].
  - specialize (IH (step mode0 w (WPollFresh i)) (slot ++ [message u d])). rewrite Hsu, Hs in IH. specialize (IH Hi).
    destruct (fill _ _ _ _ _) as [s' slot']. destruct IH as (n & batch & -> & Hst & Hha).
    exists (S n), (message u d :: batch). cbn [replicate fold_left]. rewrite Hst, Hha, Hh, <- !app_assoc. done.
  - exists 1, []. cbn [replicate fold_left]. by rewrite Hs, Hh, !app_nil_r.
  - exists 1, []. cbn [replicate fold_left]. by rewrite Hs, Hh, !app_nil_r.
Qed.
Lemma batch_poll_is_steps mode0 mode w i u wk limit :
  w_subs w !! i = Some (mode, u) ->
  let '(s', _, p) := poll_fill mode (w_state w) u wk limit in
  exists n, let w' := fold_left (step mode0) (WBeginPoll i wk :: replicate n (WPollFresh i)) w in
    w_state w' = s' /\ w_hands w' = w_hands w ++ match p with Ready (Some batch) => batch | _ => [] end.
Proof.
  intros Hi. unfold poll_fill. destruct (begin_poll mode (w_state w) u wk) as [s1 u1] eqn:Hb. cbn [fold_left].
  set (w1 := step mode0 w (WBeginPoll i wk)).
  assert (Hw1 : w_state w1 = s1 /\ w_subs w1 !! i = Some (mode, u1) /\ w_hands w1 = w_hands w).
  { unfold w1. cbn [step]. unfold with_sub. rewrite Hi, Hb. split_and!; [done| |done]. simpl.
    apply list_lookup_insert_eq. by eapply lookup_lt_Some. }
  destruct Hw1 as (Hs1 & Hi1 & Hh1). pose proof (fresh_polls mode0 mode w1 i u1 1 [] Hi1) as H1.
  cbn [fill] in H1. rewrite Hs1 in H1. destruct (poll_fresh mode s1 u1) as [s2 p] eqn:Hp.
  destruct p as [[d|]|].
  - set (w2 := step mode0 w1 (WPollFresh i)).
    assert (Hw2 : w_state w2 = s2 /\ w_subs w2 !! i = Some (mode, u1) /\ w_hands w2 = w_hands w ++ [message u1 d]).
    { unfold w2. cbn [step]. unfold with_sub. rewrite Hi1, Hs1, Hp. split_and!; [done|exact Hi1|]. etrans; [reflexivity|]. by rewrite <- Hh1. }
    destruct Hw2 as (Hs2 & Hi2 & Hh2). pose proof (fresh_polls mode0 mode w2 i u1 (limit - 1) [message u1 d] Hi2) as Hf.
    rewrite Hs2 in Hf. destruct (fill _ _ _ _ _) as [s' slot]. destruct Hf as (n & batch & -> & Hst & Hha).
    exists (S n). cbn [replicate fold_left]. change (step mode0 w1 (WPollFresh i)) with w2. split; [done|].
    by rewrite Hha, Hh2, <- app_assoc.
  - destruct H1 as (n & batch & Hnil & Hst & Hha). destruct batch; [|done]. exists n. split; [exact Hst|]. etrans; [exact Hha|]. by rewrite Hh1.
  - destruct H1 as (n & batch & Hnil & Hst & Hha). destruct batch; [|done]. exists n. split; [exact Hst|]. etrans; [exact Hha|]. by rewrite Hh1.
Qed.

(** ** Property *)

(** C1. On every reachable state of the bus, discarding or retaining, for every subscription whose
    reader is still there, the messages put into its channel by publishes and seeks are exactly, copy
    for copy, those waiting there, in a handler's hands, waiting on a redelivery timer, settled, taken
    by [into_raw] or superseded by a seek; and where nobody sought the subscription no seek put
    anything there or took anything: a message leaves only by [ack], [nack(false)] or [into_raw],
    whatever publishes, transactions, requests, polls, batches, requeues, timers, drops, shutdowns,
    reconnections and departures of other readers happened in between. *)
Theorem only_settlement_consumes kept (w : World) tx :
  reachable kept w -> is_closed (channels (w_state w)) tx = false ->
  let b := w_books w in
  waiting (w_state w) tx ++ at_channel tx (in_hands w) ++ at_channel tx (on_timers w) ++
    at_channel tx (b_settled b) ++ at_channel tx (b_raw b) ++ at_channel tx (b_superseded b)
    ≡ₚ at_channel tx (b_sent b) ++ at_channel tx (b_replayed b) /\
  (tx ∉ b_sought b -> at_channel tx (b_superseded b) = [] /\ at_channel tx (b_replayed b) = []).
Proof.
  intros Hreach Ho b. destruct (reachable_ok kept w Hreach) as [Hok [_ Hb]]. split.
  - trans (at_channel tx (put_in w)); [|unfold put_in; by rewrite at_channel_app].
    rewrite <- (wo_account _ Hok tx Ho). unfold outside, gone. by rewrite !at_channel_app.
  - intros Hn. split; apply at_channel_none; intros e He <-; apply Hn, Hb, elem_of_app; auto.
Qed.
End flow.

(** A handled run of a discarding broker: one delivery settled, one back in the queue, one on a timer
    and one taken raw; and of a retaining one, sought back to its start. *)
Definition order (body : string) : MemoryOutbound := mk_outbound "orders" (as_bytes body) HeaderMap.new.
Definition busy : @World LChannel (option nat) :=
  fold_left (step (mode_of None))
    [WSubscribe "orders"; WPublisher; WPublish 0 (order "a"); WBegin 0; WPublish 0 (order "b"); WPublish 0 (order "c");
     WCommit 0; WRequesterPublish (order "d"); WBeginPoll 0 7; WPollFresh 0; WPollFresh 0; WPollFresh 0; WPollFresh 0;
     WAck 0; WNack 0 true; WNackAfter 0 5; WIntoRaw 0]
    (initial None).
Definition sought : @World LChannel (option nat) :=
  fold_left (step (mode_of (Some (Log.Messages 8))))
    [WSubscribe "orders"; WPublisher; WPublish 0 (order "a"); WPublish 0 (order "b"); WBeginPoll 0 7; WPollFresh 0; WAck 0;
     WSeek 0 Start; WBeginPoll 0 7; WPollFresh 0]
    (initial (Some (Log.Messages 8))).

Lemma busy_reachable : reachable None busy.
Proof. apply reachable_steps, r_initial. Qed.
Lemma sought_reachable : reachable (Some (Log.Messages 8)) sought.
Proof. apply reachable_steps, r_initial. Qed.

Lemma only_settlement_consumes_witness :
  (Log.payload <$> at_channel 0 (b_sent (w_books busy)) = as_bytes <$> ["a"; "b"; "c"; "d"] /\
   (fun l => length l) <$> [waiting (w_state busy) 0; at_channel 0 (on_timers busy);
      at_channel 0 (b_settled (w_books busy)); at_channel 0 (b_raw (w_books busy))] = [1; 1; 1; 1] /\
   at_channel 0 (b_superseded (w_books busy)) = []) /\
  (length (at_channel 0 (b_sent (w_books sought))) = 2 /\ length (at_channel 0 (b_replayed (w_books sought))) = 2 /\
   (fun l => length l) <$> [waiting (w_state sought) 0; at_channel 0 (in_hands sought);
      at_channel 0 (b_settled (w_books sought)); at_channel 0 (b_superseded (w_books sought))] = [1; 1; 1; 1] /\
   length (at_channel 0 (b_sent (w_books sought)) ++ at_channel 0 (b_replayed (w_books sought))) = 4).
Proof.
  destruct (only_settlement_consumes None busy 0 busy_reachable ltac:(vm_compute; reflexivity)) as [_ Hs].
  destruct (only_settlement_consumes _ sought 0 sought_reachable ltac:(vm_compute; reflexivity)) as [Hp _].
  split; [split_and!; [vm_compute; reflexivity|vm_compute; reflexivity|]|].
  - apply Hs. vm_compute. inversion 1.
  - split_and!; [vm_compute; reflexivity..|]. rewrite <- (Permutation_length Hp). vm_compute. reflexivity.
Defined.
End MemoryFlow.
