(* ===== verification/HeapBus.v ===== *)
(** * The heap local bus ([crates/memory/src/local/heap/bus.rs])

    Subscriptions are shared objects with a lock of their own; the bus lock covers the list of open
    subscriptions and is held for the whole of a publish.  Other threads receive, requeue and settle
    between the steps of a publish, so the file gives the operations as functions and, over them,
    the interleaved system whose steps are the code's critical sections.  A panic of the code
    ([unreachable!], a [usize] underflow) is a value, so that its absence is a theorem. *)
From Stdlib Require Import Ascii String.
From S2P Require Import Prelude RustStd Headers Queue FixedBus.

Module HeapBus.

Inductive Standing := Open | Unsubscribed | Closed.
#[export] Instance Standing_eq_dec : EqDecision Standing.
Proof. solve_decision. Defined.

Inductive LocalMemoryError :=
  | ShutDown
  | Full (name : string) (capacity : nat).

Section heap.
Context {Q : Type -> Type} `{BoundedQueue Q} `{!BoundedQueueLaws Q}.
Context {R : Type} `{WakerRegistration R} `{!WakerRegistrationLaws R}.
Context {HM : Type} `{HeaderStore HM}.
Context (CAP : nat).

(** The payload is one shared block; its bytes are what the receivers see. *)
Record Delivery := mk_delivery { payload : bytes; headers : HM; deliveries : N }.

Definition delivery_count_of (headers : HM) : N :=
  match hs_get_str headers RETRY_COUNT_HEADER ≫= u64_parse with
  | Some retried => saturating_add u64_max 1 retried
  | None => 1
  end.

(** [Subscription] with its [SubscriptionState]. *)
Record Subscription := mk_sub {
  sub_name : string;
  queue : Q Delivery;
  in_hand : nat;
  standing : Standing;
  closing : R;
}.

Definition has_room (s : Subscription) : bool := bq_len (queue s) + in_hand s <? CAP.

Definition with_queue (s : Subscription) (q : Q Delivery) : Subscription :=
  mk_sub (sub_name s) q (in_hand s) (standing s) (closing s).

(** [None] is the [unreachable!]. *)
Definition enqueue (s : Subscription) (d : Delivery) : option Subscription :=
  with_queue s <$> bq_push (queue s) d.

Definition poll_next (s : Subscription) (waker : nat) : Subscription * poll Delivery :=
  match bq_pop (queue s) with
  | Some (d, q) =>
      (mk_sub (sub_name s) q (S (in_hand s)) (standing s) (closing s), Ready (Some d))
  | None =>
      if bool_decide (standing s = Closed) then (s, Ready None)
      else (mk_sub (sub_name s) (queue s) (in_hand s) (standing s) (wr_register (closing s) waker),
            Pending)
  end.

Definition may_be_ready (s : Subscription) : bool :=
  negb (Nat.eqb (bq_len (queue s)) 0) || bool_decide (standing s = Closed).

Definition try_next (s : Subscription) : Subscription * option Delivery :=
  match bq_pop (queue s) with
  | Some (d, q) => (mk_sub (sub_name s) q (S (in_hand s)) (standing s) (closing s), Some d)
  | None => (s, None)
  end.

(** [in_hand -= 1]: the underflow panics. *)
Definition settle (s : Subscription) : option Subscription :=
  match in_hand s with
  | 0 => None
  | S n => Some (mk_sub (sub_name s) (queue s) n (standing s) (closing s))
  end.

Definition requeue (s : Subscription) (d : Delivery)
  : option (Subscription * result unit LocalMemoryError) :=
  match standing s with
  | Open => s ← enqueue s d; Some (s, Ok tt)
  | Unsubscribed => Some (s, Ok tt)
  | Closed => Some (s, Err ShutDown)
  end.

(** [while try_receive().is_ok() {}]: the queue's length is the number of rounds. *)
Fixpoint drain (fuel : nat) (q : Q Delivery) : Q Delivery :=
  match fuel with
  | 0 => q
  | S fuel => match bq_pop q with Some (_, q) => drain fuel q | None => q end
  end.

Definition sub_unsubscribe (s : Subscription) : Subscription :=
  mk_sub (sub_name s) (drain (bq_len (queue s)) (queue s)) (in_hand s)
    (if bool_decide (standing s = Open) then Unsubscribed else standing s) (closing s).

Definition sub_shut_down (s : Subscription) : Subscription * option nat :=
  let (r, woken) := wr_wake (closing s) in
  (mk_sub (sub_name s) (queue s) (in_hand s) Closed r, woken).

(** The bus: the open subscriptions by identity, and the store the identities point into. *)
Record BusState := mk_bus { live : bool; subscriptions : list nat; store : list Subscription }.

Definition new_bus : BusState := mk_bus false [] [].
Definition connect (b : BusState) : BusState := mk_bus true (subscriptions b) (store b).

Definition subscribe (b : BusState) (name : string) : BusState * result nat LocalMemoryError :=
  if negb (live b) then (b, Err ShutDown)
  else
    let id := length (store b) in
    (mk_bus (live b) (subscriptions b ++ [id])
       (store b ++ [mk_sub name (bq_new CAP) 0 Open wr_new]), Ok id).

Definition update (b : BusState) (id : nat) (s : Subscription) : BusState :=
  mk_bus (live b) (subscriptions b) (<[id := s]> (store b)).

(** The two halves of [unsubscribe], each under a lock of its own. *)
Definition unlink (b : BusState) (id : nat) : BusState :=
  mk_bus (live b) (List.filter (fun open => negb (Nat.eqb open id)) (subscriptions b)) (store b).
Definition unsubscribe (b : BusState) (id : nat) : BusState :=
  let b := unlink b id in
  match store b !! id with
  | Some s => update b id (sub_unsubscribe s)
  | None => b
  end.

Fixpoint shut_all (ids : list nat) (l : list Subscription) : list Subscription :=
  match ids with
  | [] => l
  | id :: rest =>
      shut_all rest (match l !! id with
                     | Some s => <[id := fst (sub_shut_down s)]> l
                     | None => l
                     end)
  end.
Definition shut_down (b : BusState) : BusState * nat :=
  (mk_bus false [] (shut_all (subscriptions b) (store b)), length (subscriptions b)).

Definition named (b : BusState) (name : string) (id : nat) : bool :=
  match store b !! id with Some s => String.eqb (sub_name s) name | None => false end.
Definition reading (b : BusState) (name : string) : list nat :=
  List.filter (named b name) (subscriptions b).

(** What a refused publish hands back. *)
Record Unsent := mk_unsent { error : LocalMemoryError; unsent_payload : bytes; unsent_headers : HM }.

Definition room_of (b : BusState) (id : nat) : bool :=
  match store b !! id with Some s => has_room s | None => true end.

(** The send loop: the last subscription takes the delivery, the earlier ones a clone. *)
Fixpoint send_all (ids : list nat) (d : option Delivery) (l : list Subscription)
  : option (list Subscription) :=
  match ids with
  | [] => Some l
  | id :: rest =>
      let (copy, d) := match rest with [] => (d, None) | _ => (d, d) end in
      match copy, l !! id with
      | Some copy, Some s => s ← enqueue s copy; send_all rest d (<[id := s]> l)
      | _, _ => send_all rest d l
      end
  end.

Definition fanout (b : BusState) (name : string) (body : bytes) (hs : HM)
  : option (BusState * result unit Unsent) :=
  if negb (live b) then Some (b, Err (mk_unsent ShutDown body hs))
  else if existsb (fun id => negb (room_of b id)) (reading b name)
  then Some (b, Err (mk_unsent (Full name CAP) body hs))
  else
    l ← send_all (reading b name) (Some (mk_delivery body hs (delivery_count_of hs))) (store b);
    Some (mk_bus (live b) (subscriptions b) l, Ok tt).

(** ** The interleaved system *)

(** A delivery a handler holds; [back] once its settlement has requeued it, until its drop. *)
Record Held := mk_held { held_sub : nat; held_delivery : Delivery; back : bool }.

(** Where the one publish that can hold the bus lock is. *)
Inductive Phase :=
  | Idle
  | Checking (checked todo : list nat) (d : Delivery)
  | Sending (todo : list nat) (d : Delivery).

Record World := mk_world { bus : BusState; held : list Held; phase : Phase }.

Inductive Step :=
  | SConnect
  | SSubscribe (name : string)
  | SUnlink (id : nat)
  | SUnsubscribe (id : nat)
  | SShutBus
  | SShutSub (id : nat)
  | SPublish (name : string) (body : bytes) (hs : HM)
  | SCheck
  | SSend
  | SPoll (id waker : nat)
  | STryNext (id : nat)
  | SRequeue (k : nat)
  | SSettle (k : nat).

Inductive Outcome := Next (w : World) | Blocked | Panic.

Definition locked (w : World) : bool := match phase w with Idle => false | _ => true end.
Definition with_bus (w : World) (b : BusState) : World := mk_world b (held w) (phase w).

Definition on_sub (w : World) (id : nat) (f : Subscription -> Subscription) : Outcome :=
  match store (bus w) !! id with
  | Some s => Next (with_bus w (update (bus w) id (f s)))
  | None => Blocked
  end.

(** One critical section by some thread; [Blocked] where the thread waits for the bus lock or the
    step is not its turn. *)
Definition exec (w : World) (t : Step) : Outcome :=
  let b := bus w in
  match t with
  | SConnect => if locked w then Blocked else Next (with_bus w (connect b))
  | SSubscribe name => if locked w then Blocked else Next (with_bus w (fst (subscribe b name)))
  | SUnlink id => if locked w then Blocked else Next (with_bus w (unlink b id))
  | SUnsubscribe id => on_sub w id sub_unsubscribe
  | SShutBus => if locked w then Blocked else Next (with_bus w (mk_bus false [] (store b)))
  | SShutSub id => on_sub w id (fun s => fst (sub_shut_down s))
  | SPublish name body hs =>
      if locked w || negb (live b) then Blocked
      else Next (mk_world b (held w)
                   (Checking [] (reading b name) (mk_delivery body hs (delivery_count_of hs))))
  | SCheck =>
      match phase w with
      | Checking checked (id :: todo) d =>
          if room_of b id then Next (mk_world b (held w) (Checking (checked ++ [id]) todo d))
          else Next (mk_world b (held w) Idle)
      | Checking checked [] d => Next (mk_world b (held w) (Sending checked d))
      | _ => Blocked
      end
  | SSend =>
      match phase w with
      | Sending (id :: todo) d =>
          match store b !! id with
          | Some s =>
              match enqueue s d with
              | Some s => Next (mk_world (update b id s) (held w) (Sending todo d))
              | None => Panic
              end
          | None => Next (mk_world b (held w) (Sending todo d))
          end
      | Sending [] d => Next (mk_world b (held w) Idle)
      | _ => Blocked
      end
  | SPoll id waker =>
      match store b !! id with
      | Some s =>
          let (s, p) := poll_next s waker in
          Next (mk_world (update b id s)
                  (match p with
                   | Ready (Some d) => mk_held id d false :: held w
                   | _ => held w
                   end) (phase w))
      | None => Blocked
      end
  | STryNext id =>
      match store b !! id with
      | Some s =>
          let (s, d) := try_next s in
          Next (mk_world (update b id s)
                  (match d with Some d => mk_held id d false :: held w | None => held w end) (phase w))
      | None => Blocked
      end
  | SRequeue k =>
      match held w !! k with
      | Some h =>
          if back h then Blocked
          else match store b !! held_sub h with
               | Some s =>
                   match requeue s (held_delivery h) with
                   | Some (s, _) =>
                       Next (mk_world (update b (held_sub h) s)
                               (<[k := mk_held (held_sub h) (held_delivery h) true]> (held w)) (phase w))
                   | None => Panic
                   end
               | None => Blocked
               end
      | None => Blocked
      end
  | SSettle k =>
      match held w !! k with
      | Some h =>
          match store b !! held_sub h with
          | Some s =>
              match settle s with
              | Some s => Next (mk_world (update b (held_sub h) s) (delete k (held w)) (phase w))
              | None => Panic
              end
          | None => Blocked
          end
      | None => Blocked
      end
  end.

(** *** The invariant *)

Definition of_sub (id : nat) (h : Held) : bool := Nat.eqb (held_sub h) id.
(** A delivery in hand that has not gone back yet. *)
Definition fresh (id : nat) (h : Held) : bool := Nat.eqb (held_sub h) id && negb (back h).
(** The places a publish in progress was promised. *)
Definition promised (p : Phase) : list nat :=
  match p with
  | Idle => []
  | Checking checked _ _ => checked
  | Sending todo _ => todo
  end.

Record sub_ok (hs : list Held) (p : Phase) (id : nat) (s : Subscription) : Prop := {
  ok_capacity : bq_capacity (queue s) = CAP;
  ok_in_hand : in_hand s = count (of_sub id) hs;
  ok_room : length (bq_items (queue s)) + count (fresh id) hs + count (Nat.eqb id) (promised p) <= CAP;
}.

Definition phase_ids (p : Phase) : list nat :=
  match p with
  | Idle => []
  | Checking checked todo _ => checked ++ todo
  | Sending todo _ => todo
  end.

Record inv (w : World) : Prop := {
  inv_subs : forall id s, store (bus w) !! id = Some s -> sub_ok (held w) (phase w) id s;
  inv_phase : NoDup (phase_ids (phase w));
  inv_nodup : NoDup (subscriptions (bus w));
  inv_known : Forall (fun id => id < length (store (bus w))) (subscriptions (bus w));
  inv_ids : Forall (fun id => id < length (store (bus w))) (phase_ids (phase w));
  inv_held : Forall (fun h => held_sub h < length (store (bus w))) (held w);
}.

Definition initial : World := mk_world new_bus [] Idle.

Lemma initial_inv : inv initial.
Proof.
  split; simpl; [|constructor|constructor|constructor|constructor|constructor].
  intros id s Hid. by rewrite lookup_nil in Hid.
Qed.

Lemma inv_update w id s s' hs p :
  inv w -> store (bus w) !! id = Some s -> NoDup (phase_ids p) ->
  Forall (fun id => id < length (store (bus w))) (phase_ids p) ->
  Forall (fun h => held_sub h < length (store (bus w))) hs ->
  (forall j t, j <> id -> sub_ok (held w) (phase w) j t -> sub_ok hs p j t) ->
  sub_ok hs p id s' -> inv (mk_world (update (bus w) id s') hs p).
Proof.
  intros [Hs Hp Hn Hk Hi Hh] Hid Hp' Hids Hhs Hother Hok.
  split; simpl; rewrite ?length_insert; try done.
  intros j t Hj. destruct (decide (j = id)) as [->|Hne].
  - rewrite list_lookup_insert_eq in Hj by (by eapply lookup_lt_Some). by injection Hj as <-.
  - rewrite list_lookup_insert_ne in Hj by done. apply Hother; [done|]. by apply Hs.
Qed.

(** A step of one subscription that touches neither its deliveries in hand nor its queue's room. *)
Lemma inv_update_same w id s s' :
  inv w -> store (bus w) !! id = Some s -> in_hand s' = in_hand s ->
  bq_capacity (queue s') = bq_capacity (queue s) ->
  length (bq_items (queue s')) <= length (bq_items (queue s)) ->
  inv (mk_world (update (bus w) id s') (held w) (phase w)).
Proof.
  intros Hi Hid Hh Hc Hl. pose proof Hi as [Hs Hp _ _ Hids Hheld].
  eapply inv_update; [done|done|done|done|done|done|]. destruct (Hs _ _ Hid). split; lia.
Qed.

Lemma drain_items fuel (q : Q Delivery) :
  length (bq_items q) <= fuel ->
  bq_items (drain fuel q) = [] /\ bq_capacity (drain fuel q) = bq_capacity q.
Proof.
  revert q. induction fuel as [|fuel IH]; intros q Hf; simpl.
  - by destruct (bq_items q); simpl in *; [|lia].
  - destruct (bq_items q) as [|d rest] eqn:Hq; [by rewrite (bq_pop_empty _ Hq)|].
    destruct (bq_pop_first _ _ _ Hq) as (q' & -> & Hi & Hc). simpl in Hf.
    rewrite <- Hc. apply IH. rewrite Hi. lia.
Qed.

(** The bus-lock steps: the store is as it was. *)
Lemma inv_bus w b :
  inv w -> store b = store (bus w) -> NoDup (subscriptions b) ->
  Forall (fun id => id < length (store b)) (subscriptions b) -> inv (with_bus w b).
Proof. intros [Hs Hp Hn Hk Hi Hh] He Hn' Hk'. split; simpl; rewrite ?He; try done. by rewrite <- He. Qed.

Lemma inv_phase_change w p :
  inv w -> NoDup (phase_ids p) -> Forall (fun id => id < length (store (bus w))) (phase_ids p) ->
  (forall id s, store (bus w) !! id = Some s -> sub_ok (held w) (phase w) id s -> sub_ok (held w) p id s) ->
  inv (mk_world (bus w) (held w) p).
Proof. intros [Hs Hp Hn Hk Hi Hh] Hp' Hi' Hc. split; simpl; try done. intros id s Hid. eauto. Qed.

Lemma sub_ok_promised hs p p' id s :
  sub_ok hs p id s -> count (Nat.eqb id) (promised p') <= count (Nat.eqb id) (promised p) ->
  sub_ok hs p' id s.
Proof. intros [???] Hc. split; try done. lia. Qed.

Lemma filterb_NoDup {A} (f : A -> bool) l : NoDup l -> NoDup (List.filter f l).
Proof.
  induction 1 as [|x l Hx _ IH]; simpl; [constructor|]. destruct (f x); [|done].
  constructor; [|done]. rewrite elem_of_filterb. tauto.
Qed.

Lemma filterb_Forall {A} (f : A -> bool) (P : A -> Prop) l : Forall P l -> Forall P (List.filter f l).
Proof. rewrite !Forall_forall. intros Hl x [_ Hx]%elem_of_filterb. by apply Hl. Qed.

Definition result_inv (o : Outcome) : Prop :=
  match o with
  | Next w => inv w
  | Blocked => True
  | Panic => False
  end.

Lemma count_ids_absent id l : id ∉ l -> count (Nat.eqb id) l = 0.
Proof. intros Hn. apply count_zero. intros x Hx. apply Nat.eqb_neq. by intros ->. Qed.

Lemma subscribe_inv w name : inv w -> inv (with_bus w (fst (subscribe (bus w) name))).
Proof.
  intros Hi. unfold subscribe. destruct (live (bus w)); simpl; [|by destruct w].
  destruct Hi as [Hs Hp Hn Hk Hi Hh].
  assert (Hgrow : forall l, Forall (fun id => id < length (store (bus w))) l ->
    Forall (fun id => id < length (store (bus w)) + 1) l) by (intros l Hl; eapply Forall_impl; [done|simpl; lia]).
  split; simpl; rewrite ?length_app; simpl; try done; [| | |by apply Hgrow|].
  - intros id s Hid. apply lookup_app_Some in Hid as [Hid|[Hlen Hid]]; [by apply Hs|].
    apply list_lookup_singleton_Some in Hid as [Hid <-].
    destruct (bq_new_items (A := Delivery) CAP) as [Hq Hc].
    rewrite Forall_forall in Hi. rewrite Forall_forall in Hh.
    split; simpl; [done| |].
    + symmetry. apply count_zero. intros h Hin. apply Nat.eqb_neq. specialize (Hh h Hin). lia.
    + rewrite Hq, count_ids_absent, count_zero; simpl; [lia| |].
      * intros h Hin. unfold fresh. rewrite (proj2 (Nat.eqb_neq _ _)); [done|].
        specialize (Hh h Hin). lia.
      * intros Hin. assert (id ∈ phase_ids (phase w)) as Hin'.
        { destruct (phase w); simpl in *; [done|apply elem_of_app; by left|done]. }
        specialize (Hi id Hin'). lia.
  - apply NoDup_app. split_and!; [done| |apply NoDup_singleton].
    intros x Hx ->%list_elem_of_singleton. rewrite Forall_forall in Hk. specialize (Hk _ Hx). lia.
  - apply Forall_app. split; [by apply Hgrow|]. repeat constructor. lia.
  - eapply Forall_impl; [done|]. simpl. lia.
Qed.

(** *** Steps of one subscription *)

(** Taking a delivery in hand: a queued place becomes a place in hand. *)
Lemma take_inv w id s d q rest :
  inv w -> store (bus w) !! id = Some s -> bq_items (queue s) = d :: rest ->
  bq_items q = rest -> bq_capacity q = bq_capacity (queue s) ->
  inv (mk_world (update (bus w) id (mk_sub (sub_name s) q (S (in_hand s)) (standing s) (closing s)))
         (mk_held id d false :: held w) (phase w)).
Proof.
  intros Hi Hid Hq Hq' Hc. pose proof Hi as [Hs Hp _ _ Hids Hheld].
  eapply inv_update; [done|done|done|done| | |].
  - constructor; [|done]. simpl. by eapply lookup_lt_Some.
  - intros j t Hne [???]. split; rewrite ?count_cons; unfold of_sub, fresh; simpl;
      rewrite ?(proj2 (Nat.eqb_neq id j)) by done; done.
  - destruct (Hs _ _ Hid) as [O1 O2 O3]. rewrite Hq in O3. simpl in O3.
    split; cbn [queue in_hand]; rewrite ?count_cons.
    + congruence.
    + unfold of_sub at 1. simpl. rewrite Nat.eqb_refl. lia.
    + unfold fresh at 1. simpl. rewrite Nat.eqb_refl, Hq'. simpl. lia.
Qed.

Lemma poll_inv w id waker : inv w -> result_inv (exec w (SPoll id waker)).
Proof.
  intros Hi. simpl. destruct (store (bus w) !! id) as [s|] eqn:Hid; [|done]. unfold poll_next.
  destruct (bq_items (queue s)) as [|d rest] eqn:Hq.
  - rewrite (bq_pop_empty _ Hq).
    case_bool_decide; simpl; eapply inv_update_same; done.
  - destruct (bq_pop_first _ _ _ Hq) as (q & -> & Hi' & Hc). simpl. by eapply take_inv.
Qed.

Lemma try_next_inv w id : inv w -> result_inv (exec w (STryNext id)).
Proof.
  intros Hi. simpl. destruct (store (bus w) !! id) as [s|] eqn:Hid; [|done]. unfold try_next.
  destruct (bq_items (queue s)) as [|d rest] eqn:Hq.
  - rewrite (bq_pop_empty _ Hq). simpl. eapply inv_update_same; done.
  - destruct (bq_pop_first _ _ _ Hq) as (q & -> & Hi' & Hc). simpl. by eapply take_inv.
Qed.

Lemma heap_enqueue_room s d :
  length (bq_items (queue s)) < bq_capacity (queue s) ->
  exists q, enqueue s d = Some (with_queue s q) /\ bq_items q = bq_items (queue s) ++ [d] /\
    bq_capacity q = bq_capacity (queue s).
Proof.
  intros Hr. unfold enqueue. destruct (bq_push_room _ d Hr) as (q & -> & ? & ?). by exists q.
Qed.

Lemma requeue_inv w k : inv w -> result_inv (exec w (SRequeue k)).
Proof.
  intros Hi. simpl. destruct (held w !! k) as [h|] eqn:Hk; [|done].
  destruct (back h) eqn:Hb; [done|].
  destruct (store (bus w) !! held_sub h) as [s|] eqn:Hid; [|done].
  pose proof Hi as [Hs Hp _ _ Hids Hheld]. destruct (Hs _ _ Hid) as [O1 O2 O3].
  set (h' := mk_held (held_sub h) (held_delivery h) true).
  assert (Hof : forall j, count (of_sub j) (<[k := h']> (held w)) = count (of_sub j) (held w)).
  { intros j. pose proof (count_insert (of_sub j) _ _ _ h' Hk) as Hc. unfold of_sub in Hc at 1 3.
    simpl in Hc. lia. }
  assert (Hfr : forall j, count (fresh j) (held w) =
    (if Nat.eqb (held_sub h) j then 1 else 0) + count (fresh j) (<[k := h']> (held w))).
  { intros j. pose proof (count_insert (fresh j) _ _ _ h' Hk) as Hc. unfold fresh in Hc at 1 3.
    rewrite Hb in Hc. simpl in Hc. rewrite andb_false_r, andb_true_r in Hc. lia. }
  pose proof (Hfr (held_sub h)) as Hfr1. rewrite Nat.eqb_refl in Hfr1.
  assert (Hstep : forall s', bq_capacity (queue s') = CAP -> in_hand s' = in_hand s ->
    length (bq_items (queue s')) <= S (length (bq_items (queue s))) ->
    inv (mk_world (update (bus w) (held_sub h) s') (<[k := h']> (held w)) (phase w))).
  { intros s' Hc Hih Hlen. eapply inv_update; [done|done|done|done| | |].
    - apply Forall_insert; [done|]. simpl. by eapply lookup_lt_Some.
    - intros j t Hne [???]. specialize (Hof j). specialize (Hfr j).
      destruct (Nat.eqb_spec (held_sub h) j); [done|]. split; [done|lia|lia].
    - specialize (Hof (held_sub h)). split; [done|lia|lia]. }
  unfold requeue. destruct (standing s).
  - destruct (heap_enqueue_room s (held_delivery h)) as (q & -> & Hq & Hc); [lia|]. simpl.
    apply Hstep; simpl; [lia|done|rewrite Hq, length_app; simpl; lia].
  - simpl. apply Hstep; [done|done|lia].
  - simpl. apply Hstep; [done|done|lia].
Qed.

Lemma settle_inv w k : inv w -> result_inv (exec w (SSettle k)).
Proof.
  intros Hi. simpl. destruct (held w !! k) as [h|] eqn:Hk; [|done].
  destruct (store (bus w) !! held_sub h) as [s|] eqn:Hid; [|done].
  pose proof Hi as [Hs Hp _ _ Hids Hheld]. destruct (Hs _ _ Hid) as [O1 O2 O3].
  pose proof (fun j => count_delete (of_sub j) _ _ _ Hk) as Hof.
  pose proof (fun j => count_delete (fresh j) _ _ _ Hk) as Hfr.
  pose proof (Hof (held_sub h)) as Hof1. unfold of_sub in Hof1 at 2. rewrite Nat.eqb_refl in Hof1.
  unfold settle. destruct (in_hand s) as [|n] eqn:Hn; [simpl; lia|]. simpl.
  eapply inv_update; [done|done|done|done| | |].
  - by apply Forall_delete.
  - intros j t Hne [???]. specialize (Hof j). specialize (Hfr j). unfold of_sub in Hof at 2.
    unfold fresh in Hfr at 2. rewrite (proj2 (Nat.eqb_neq (held_sub h) j)) in Hof, Hfr by done.
    simpl in *. split; [done|lia|lia].
  - specialize (Hfr (held_sub h)). split; simpl; [done|lia|]. destruct (fresh (held_sub h) h); lia.
Qed.

Lemma send_inv w : inv w -> result_inv (exec w SSend).
Proof.
  intros Hi. simpl. destruct (phase w) as [| |[|id todo] d] eqn:Hph; try done; simpl.
  - pose proof Hi as [Hs Hp _ _ Hids Hheld]. rewrite Hph in *.
    apply inv_phase_change; [done|constructor|constructor|]. rewrite Hph. intros id s _ Hok.
    by eapply sub_ok_promised.
  - pose proof Hi as [Hs Hp _ _ Hids Hheld]. rewrite Hph in *. simpl in Hp, Hids.
    apply NoDup_cons in Hp as [Hnin Hp]. apply Forall_cons_1 in Hids as [Hlt Hids].
    assert (Hle : forall j, count (Nat.eqb j) todo <= count (Nat.eqb j) (id :: todo))
      by (intros j; rewrite count_cons; lia).
    destruct (store (bus w) !! id) as [s|] eqn:Hid; simpl.
    + destruct (Hs _ _ Hid) as [O1 O2 O3]. simpl in O3. rewrite count_cons, Nat.eqb_refl in O3.
      destruct (heap_enqueue_room s d) as (q & -> & Hq & Hc); [lia|]. simpl.
      eapply inv_update; [done|done|done|done|done| |].
      * intros j t Hne Hok. rewrite Hph in Hok. eapply sub_ok_promised; [done|]. simpl. apply Hle.
      * split; simpl; [lia|done|]. rewrite Hq, length_app. simpl. lia.
    + apply inv_phase_change; [done|done|done|]. rewrite Hph. intros j t _ Hok.
      eapply sub_ok_promised; [done|]. simpl. apply Hle.
Qed.

Lemma check_inv w : inv w -> result_inv (exec w SCheck).
Proof.
  intros Hi. simpl. destruct (phase w) as [|checked [|id todo] d|] eqn:Hph; try done; simpl.
  - pose proof Hi as [Hs Hp _ _ Hids Hheld]. rewrite Hph in Hp, Hids. simpl in Hp, Hids.
    rewrite app_nil_r in Hp. rewrite app_nil_r in Hids.
    apply inv_phase_change; [done|done|done|]. rewrite Hph. intros id s _ Hok.
    by eapply sub_ok_promised.
  - pose proof Hi as [Hs Hp _ _ Hids Hheld]. rewrite Hph in Hp, Hids. simpl in Hp, Hids.
    destruct (room_of (bus w) id) eqn:Hroom; simpl.
    + apply inv_phase_change; [done| | |]; simpl; rewrite <- ?app_assoc; [done|done|].
      rewrite Hph. intros j t Hj [O1 O2 O3]. simpl in *. split; try done. simpl.
      rewrite count_app, count_cons, count_nil. destruct (Nat.eqb_spec j id) as [->|]; [|lia].
      unfold room_of in Hroom. rewrite Hj in Hroom. unfold has_room in Hroom. bool_prop.
      rewrite bq_len_items in *. rewrite count_ids_absent in *.
      * pose proof (count_le (fresh id) (of_sub id) (held w)) as Hle. lapply Hle; [lia|].
        intros h Hf. unfold fresh in Hf. by apply andb_true_iff in Hf as [? _].
      * apply NoDup_app in Hp as (_ & Hdis & _). intros Hin. apply (Hdis _ Hin). left.
      * apply NoDup_app in Hp as (_ & Hdis & _). intros Hin. apply (Hdis _ Hin). left.
    + apply inv_phase_change; [done|constructor|constructor|]. rewrite Hph. intros j t _ Hok.
      eapply sub_ok_promised; [done|]. apply Nat.le_0_l.
Qed.

(** Every critical section of every thread keeps the invariant, and none panics. *)
Lemma exec_inv w t : inv w -> result_inv (exec w t).
Proof.
  intros Hi. pose proof Hi as [Hs Hp Hn Hk Hids Hheld].
  destruct t as [|name|id|id| |id|name body hs| | |id waker|id|k|k].
  - simpl. destruct (locked w); simpl; [done|]. by apply inv_bus.
  - simpl. destruct (locked w); simpl; [done|]. by apply subscribe_inv.
  - simpl. destruct (locked w); simpl; [done|]. apply inv_bus; [done|done| |].
    + by apply filterb_NoDup.
    + by apply filterb_Forall.
  - simpl. unfold on_sub. destruct (store (bus w) !! id) as [s|] eqn:Hid; simpl; [|done].
    destruct (drain_items (bq_len (queue s)) (queue s)) as [Hq Hc]; [by rewrite bq_len_items|].
    eapply inv_update_same; [done|done|done|done|]. simpl. rewrite Hq. simpl. lia.
  - simpl. destruct (locked w); simpl; [done|]. apply inv_bus; [done|done|constructor|constructor].
  - simpl. unfold on_sub. destruct (store (bus w) !! id) as [s|] eqn:Hid; simpl; [|done].
    unfold sub_shut_down. destruct (wr_wake (closing s)). simpl. eapply inv_update_same; done.
  - simpl. destruct (phase w) eqn:Hph; unfold locked; rewrite Hph; simpl; [|done|done].
    destruct (live (bus w)); simpl; [|done]. apply inv_phase_change; [done| | |]; simpl.
    + by apply filterb_NoDup.
    + by apply filterb_Forall.
    + rewrite Hph. intros id s _ Hok. by eapply sub_ok_promised.
  - by apply check_inv.
  - by apply send_inv.
  - by apply poll_inv.
  - by apply try_next_inv.
  - by apply requeue_inv.
  - by apply settle_inv.
Qed.

Inductive reachable : World -> Prop :=
  | reach_init : reachable initial
  | reach_step w t w' : reachable w -> exec w t = Next w' -> reachable w'.

Lemma reachable_inv w : reachable w -> inv w.
Proof.
  induction 1 as [|w t w' _ IH He]; [apply initial_inv|].
  pose proof (exec_inv w t IH) as Hr. by rewrite He in Hr.
Qed.

(** *** The publish as one function *)

(** A subscription after one more delivery at the end of its queue. *)
Definition delivered (d : Delivery) (s s' : Subscription) : Prop :=
  bq_items (queue s') = bq_items (queue s) ++ [d] /\ in_hand s' = in_hand s /\
  sub_name s' = sub_name s /\ standing s' = standing s.

Lemma send_all_spec ids d l :
  NoDup ids -> ids <> [] ->
  (forall id s, id ∈ ids -> l !! id = Some s -> length (bq_items (queue s)) < bq_capacity (queue s)) ->
  exists l', send_all ids (Some d) l = Some l' /\
    forall id, if bool_decide (id ∈ ids)
      then match l !! id with
           | Some s => exists s', l' !! id = Some s' /\ delivered d s s'
           | None => l' !! id = None
           end
      else l' !! id = l !! id.
Proof.
  revert l. induction ids as [|id ids IH]; intros l Hn Hne Hroom; [done|].
  apply NoDup_cons in Hn as [Hnin Hn].
  (* one enqueue, then the rest *)
  assert (Hone : forall rest, match l !! id with
    | Some s => exists s', enqueue s d = Some s' /\ delivered d s s' /\
        (s ← enqueue s d; send_all ids rest (<[id := s]> l)) = send_all ids rest (<[id := s']> l)
    | None => True
    end).
  { intros rest. destruct (l !! id) as [s|] eqn:Hid; [|done].
    destruct (heap_enqueue_room s d) as (q & -> & Hq & Hc); [apply (Hroom id); [left|done]|].
    by exists (with_queue s q). }
  assert (Hlast : send_all (id :: ids) (Some d) l =
    match l !! id with
    | Some s => s ← enqueue s d;
        send_all ids (match ids with [] => None | _ => Some d end) (<[id := s]> l)
    | None => send_all ids (match ids with [] => None | _ => Some d end) l
    end).
  { simpl. by destruct ids; destruct (l !! id). }
  rewrite Hlast. specialize (Hone (match ids with [] => None | _ => Some d end)).
  set (l1 := match l !! id with Some s => match enqueue s d with Some s' => <[id := s']> l | None => l end | None => l end).
  assert (Hl1 : forall j, j <> id -> l1 !! j = l !! j).
  { intros j Hj. unfold l1. destruct (l !! id) as [s|]; [|done].
    destruct (enqueue s d); [|done]. by rewrite list_lookup_insert_ne. }
  assert (Hrest : exists l', send_all ids (match ids with [] => None | _ => Some d end) l1 = Some l' /\
    forall j, if bool_decide (j ∈ ids)
      then match l1 !! j with
           | Some s => exists s', l' !! j = Some s' /\ delivered d s s'
           | None => l' !! j = None
           end
      else l' !! j = l1 !! j).
  { destruct ids as [|id2 ids2]; [exists l1; split; [done|]; intros j; by rewrite bool_decide_false by set_solver|].
    apply IH; [done|done|]. intros j s Hj Hs. rewrite Hl1 in Hs by set_solver.
    apply (Hroom j); [by right|done]. }
  destruct Hrest as (l' & Hsend & Hl').
  exists l'. split.
  - destruct (l !! id) as [s|] eqn:Hid; [|exact Hsend].
    destruct Hone as (s' & He & _ & ->). unfold l1 in Hsend. rewrite He in Hsend. exact Hsend.
  - intros j. specialize (Hl' j). destruct (decide (j = id)) as [->|Hj].
    + rewrite bool_decide_false in Hl' by done. rewrite bool_decide_true by left. rewrite Hl'.
      destruct (l !! id) as [s|] eqn:Hid; [|exact Hid]. unfold l1.
      destruct Hone as (s' & -> & Hd & _). exists s'. split; [|done].
      apply list_lookup_insert_eq. by eapply lookup_lt_Some.
    + rewrite Hl1 in Hl' by done. rewrite (bool_decide_ext (j ∈ id :: ids) (j ∈ ids)); [done|].
      rewrite elem_of_cons. naive_solver.
Qed.

Lemma reading_spec b name id :
  id ∈ reading b name <->
  id ∈ subscriptions b /\ exists s, store b !! id = Some s /\ sub_name s = name.
Proof.
  unfold reading. rewrite elem_of_filterb. unfold named.
  destruct (store b !! id) as [s|]; [|naive_solver].
  destruct (String.eqb_spec (sub_name s) name); naive_solver.
Qed.

Lemma reading_NoDup b name : NoDup (subscriptions b) -> NoDup (reading b name).
Proof. apply filterb_NoDup. Qed.

(** ** Properties *)

(** However threads interleave their critical sections with a publish in progress, no step of
    the heap bus reaches its [unreachable!] or underflows the count in hand: a place checked for a
    publish stays free until its send, and every delivery in hand keeps the place it would come
    back to. *)
Theorem heap_bus_never_panics w t :
  reachable w ->
  exec w t <> Panic /\
  forall w' id s, exec w t = Next w' -> store (bus w') !! id = Some s ->
    length (bq_items (queue s)) + count (fresh id) (held w') +
      count (Nat.eqb id) (promised (phase w')) <= CAP /\
    in_hand s = count (of_sub id) (held w').
Proof.
  intros Hr. pose proof (exec_inv w t (reachable_inv w Hr)) as Hi. split.
  - by destruct (exec w t).
  - intros w' id s He Hs. rewrite He in Hi. destruct (inv_subs _ Hi id s Hs). by split.
Qed.

(** A publish to the heap bus that holds the bus lock from start to end is all or nothing: one
    copy at the end of the queue of every open subscription of the name and nothing elsewhere, or
    the bus as it was and the payload and headers handed back. *)
Theorem heap_fanout_all_or_nothing w name body hs :
  reachable w -> phase w = Idle ->
  exists b' r, fanout (bus w) name body hs = Some (b', r) /\
  match r with
  | Ok _ =>
      live (bus w) = true /\ subscriptions b' = subscriptions (bus w) /\
      forall id, if bool_decide (id ∈ reading (bus w) name)
        then exists s s', store (bus w) !! id = Some s /\ store b' !! id = Some s' /\
               delivered (mk_delivery body hs (delivery_count_of hs)) s s'
        else store b' !! id = store (bus w) !! id
  | Err u =>
      b' = bus w /\ unsent_payload u = body /\ unsent_headers u = hs /\
      (error u = ShutDown /\ live (bus w) = false \/
       error u = Full name CAP /\ exists id s, id ∈ reading (bus w) name /\
         store (bus w) !! id = Some s /\ CAP <= length (bq_items (queue s)) + in_hand s)
  end.
Proof.
  intros Hr Hph. pose proof (reachable_inv w Hr) as [Hs _ Hn _ _ _]. unfold fanout.
  destruct (live (bus w)) eqn:Hlive; simpl; cycle 1.
  { eexists _, _. split; [done|]. simpl. split_and!; [done..|]. by left. }
  destruct (existsb _ _) eqn:Hex.
  { eexists _, _. split; [done|]. simpl. split_and!; [done..|]. right. split; [done|].
    apply existsb_elem in Hex as (id & Hin & Hroom). bool_prop. unfold room_of in Hroom.
    destruct (store (bus w) !! id) as [s|] eqn:Hid; [|done]. exists id, s. split_and!; [done..|].
    unfold has_room in Hroom. bool_prop. by rewrite bq_len_items in Hroom. }
  rewrite existsb_false in Hex.
  assert (Hroom : forall id s, id ∈ reading (bus w) name -> store (bus w) !! id = Some s ->
    length (bq_items (queue s)) < bq_capacity (queue s)).
  { intros id s Hin Hid. specialize (Hex id Hin). bool_prop. unfold room_of in Hex. rewrite Hid in Hex.
    unfold has_room in Hex. bool_prop. rewrite bq_len_items in Hex.
    destruct (Hs _ _ Hid) as [-> _ _]. lia. }
  destruct (decide (reading (bus w) name = [])) as [Hread|Hread].
  { rewrite Hread. simpl. eexists _, _. split; [done|]. simpl. split_and!; [done..|].
    done. }
  destruct (send_all_spec (reading (bus w) name) (mk_delivery body hs (delivery_count_of hs))
    (store (bus w))) as (l' & -> & Hl'); [by apply reading_NoDup|done|done|].
  simpl. eexists _, _. split; [done|]. simpl. split_and!; [done..|]. intros id. specialize (Hl' id).
  destruct (decide (id ∈ reading (bus w) name)) as [Hin|Hin].
  - rewrite bool_decide_true in Hl' by done. rewrite bool_decide_true by done.
    apply reading_spec in Hin as (_ & s & Hid & _). rewrite Hid in *.
    destruct Hl' as (s' & ? & ?). by exists s, s'.
  - rewrite bool_decide_false in Hl' by done. by rewrite bool_decide_false by done.
Qed.
End heap.

(** *** Witnesses: two subscriptions of one name, a publish between whose steps a reader polls *)

Definition Small := @World LQueue (option nat) HeaderMap.HeaderMap.

Fixpoint play (w : Small) (ts : list (@Step HeaderMap.HeaderMap)) : option Small :=
  match ts with
  | [] => Some w
  | t :: rest => match exec 1 w t with Next w => play w rest | _ => None end
  end.

Lemma heap_play_reachable ts w w' : reachable 1 w -> play w ts = Some w' -> reachable 1 w'.
Proof.
  revert w. induction ts as [|t ts IH]; intros w Hr; simpl; [by intros [= <-]|].
  destruct (exec 1 w t) eqn:He; [|done|done]. apply IH. by eapply reach_step.
Qed.

Definition opened : Small :=
  default initial (play initial [SConnect; SSubscribe "t"; SSubscribe "t"]).
(** The publish has checked both subscriptions and sent to the first, whose reader took it. *)
Definition halfway_steps : list (@Step HeaderMap.HeaderMap) :=
  [SPublish "t" (as_bytes "x") HeaderMap.new; SCheck; SCheck; SCheck; SSend; SPoll 0 3; SRequeue 0].
Definition halfway : Small := default initial (play opened halfway_steps).

Lemma opened_reachable : reachable 1 opened.
Proof. apply (heap_play_reachable [SConnect; SSubscribe "t"; SSubscribe "t"] initial); [apply reach_init|by vm_compute]. Qed.

Lemma heap_bus_never_panics_witness :
  exec 1 halfway SSend <> Panic /\ is_Some (held halfway !! 0).
Proof.
  split; [|vm_compute; by eexists].
  assert (Hr : reachable 1 halfway) by (apply (heap_play_reachable halfway_steps opened); [apply opened_reachable|by vm_compute]).
  exact (proj1 (heap_bus_never_panics 1 halfway SSend Hr)).
Defined.

Lemma heap_fanout_all_or_nothing_witness :
  exists b', fanout 1 (bus opened) "t" (as_bytes "x") HeaderMap.new = Some (b', Ok tt).
Proof.
  assert (Hp : phase opened = Idle) by by vm_compute.
  pose proof (heap_fanout_all_or_nothing 1 opened "t" (as_bytes "x") HeaderMap.new opened_reachable Hp)
    as Hf.
  destruct Hf as (b' & r & Hf & _). exists b'.
  assert (Hok : (snd <$> fanout 1 (bus opened) "t" (as_bytes "x") HeaderMap.new) = Some (Ok tt)) by by vm_compute.
  rewrite Hf in Hok |- *. simpl in Hok. by injection Hok as ->.
Defined.

End HeapBus.
