(* ===== verification/Outcome.v ===== *)
(** * What a handler answers with ([crates/runtime/src/handler.rs], [failure.rs],
    [crates/core/src/subscription/retry.rs])

    The broker status of an outcome, the outcome with its follow-ups, the failure policies, and
    the retry declaration of a registration.  A continuation or an [.error] closure is user code:
    it is an identity here, or a share of a batch's gathering.  A duration is a number of nanoseconds. *)
From Stdlib Require Import Ascii String.
From S2P Require Import Prelude RustStd.

Module Outcome.

Inductive HandlerResult :=
  | Ack
  | Nack (requeue : bool)
  | NackAfter (delay : N).
#[export] Instance HandlerResult_eq_dec : EqDecision HandlerResult.
Proof. solve_decision. Defined.

Definition result_retry : HandlerResult := Nack true.
Definition result_retry_after (delay : N) : HandlerResult := NackAfter delay.
Definition result_drop : HandlerResult := Nack false.

(** [Continuation] and [ErrorHook]: the user's closures, by their identities, and the shares the
    elements of a uniform batch outcome carry of one gathering ([publish_failure/boxed.rs]). *)
Inductive Continuation :=
  | OwnThen (id : nat)
  | SentPart (gather : nat).
Inductive ErrorHook :=
  | OwnHook (id : nat)
  | Part (gather index : nat).
#[export] Instance Continuation_eq_dec : EqDecision Continuation.
Proof. solve_decision. Defined.
#[export] Instance ErrorHook_eq_dec : EqDecision ErrorHook.
Proof. solve_decision. Defined.

(** [Settlement]: the status, and the [.error] hook registered on it. *)
Inductive Settlement :=
  | Plain (status : HandlerResult)
  | Erroring (status : HandlerResult) (hook : ErrorHook).

Definition status (s : Settlement) : HandlerResult :=
  match s with Plain status | Erroring status _ => status end.

Record HandlerOutcome := mk_outcome { settlement_of : Settlement; after : option Continuation }.

Definition ack : HandlerOutcome := mk_outcome (Plain Ack) None.
Definition retry : HandlerOutcome := mk_outcome (Plain result_retry) None.
Definition retry_after (delay : N) : HandlerOutcome := mk_outcome (Plain (result_retry_after delay)) None.
Definition drop : HandlerOutcome := mk_outcome (Plain result_drop) None.

Definition and_after (o : HandlerOutcome) (fut : Continuation) : HandlerOutcome :=
  mk_outcome (settlement_of o) (Some fut).
Definition error_hook (o : HandlerOutcome) (hook : ErrorHook) : HandlerOutcome :=
  mk_outcome (Erroring (status (settlement_of o)) hook) (after o).

Definition outcome (o : HandlerOutcome) : HandlerResult := status (settlement_of o).
Definition is_ack (o : HandlerOutcome) : bool :=
  match outcome o with Ack => true | _ => false end.
Definition is_retry (o : HandlerOutcome) : bool :=
  match outcome o with Nack true | NackAfter _ => true | _ => false end.
Definition is_drop (o : HandlerOutcome) : bool :=
  match outcome o with Nack false => true | _ => false end.
Definition retry_delay (o : HandlerOutcome) : option N :=
  match outcome o with NackAfter delay => Some delay | _ => None end.
Definition has_after (o : HandlerOutcome) : bool := match after o with Some _ => true | None => false end.

Definition into_parts (o : HandlerOutcome) : HandlerResult * option Continuation * option ErrorHook :=
  match settlement_of o with
  | Plain status => (status, after o, None)
  | Erroring status error => (status, after o, Some error)
  end.

(** [From<HandlerResult>] and the [IntoOutcome] forms of a handler's return value. *)
Definition from_result (r : HandlerResult) : HandlerOutcome := mk_outcome (Plain r) None.
Definition into_outcome_unit (_ : unit) : HandlerOutcome := ack.
Definition into_outcome_result {E} (r : result unit E) : HandlerOutcome :=
  match r with Ok _ => ack | Err _ => drop end.
Definition into_outcome_nested {E} (r : result HandlerOutcome E) : HandlerOutcome :=
  match r with Ok o => o | Err _ => drop end.

(** ** Failure policies *)

Inductive FailurePolicy :=
  | FailFast
  | PolicyDrop
  | PolicyRetry
  | RetryAfter (delay : N)
  | Skip.

#[export] Instance FailurePolicy_eq_dec : EqDecision FailurePolicy.
Proof. solve_decision. Defined.

Definition settlement (p : FailurePolicy) : option HandlerResult :=
  match p with
  | FailFast => None
  | PolicyDrop => Some result_drop
  | PolicyRetry => Some result_retry
  | RetryAfter delay => Some (result_retry_after delay)
  | Skip => Some Ack
  end.

Record FailurePolicies := mk_policies { panic : FailurePolicy; decode : FailurePolicy }.
Definition default_policies : FailurePolicies := mk_policies FailFast PolicyDrop.
Definition with_panic (p : FailurePolicies) (policy : FailurePolicy) : FailurePolicies :=
  mk_policies policy (decode p).
Definition with_decode (p : FailurePolicies) (policy : FailurePolicy) : FailurePolicies :=
  mk_policies (panic p) policy.

(** ** The retry declaration; a cap is a [NonZeroU32] *)

Record RetryDeclaration := mk_declaration { max_attempts : option N; dead_letter : option string }.
Definition new_declaration : RetryDeclaration := mk_declaration None None.
Definition with_max_attempts (d : RetryDeclaration) (attempts : N) : RetryDeclaration :=
  mk_declaration (Some attempts) (dead_letter d).
Definition with_dead_letter (d : RetryDeclaration) (destination : string) : RetryDeclaration :=
  mk_declaration (max_attempts d) (Some destination).
Definition declares_nothing (d : RetryDeclaration) : bool :=
  match max_attempts d, dead_letter d with None, None => true | _, _ => false end.

(** The three copy paths, and whether a declaration survives on one by default. *)
Inductive CopyPath := AddressedCopies | NamedCopies | BrokerMoves.
Inductive DeclareRetryError := DeclareUnsupported (broker : string).
Definition declared_by_name (c : CopyPath) (broker : string) : result unit DeclareRetryError :=
  match c with
  | AddressedCopies | NamedCopies => Ok tt
  | BrokerMoves => Err (DeclareUnsupported broker)
  end.

(** ** Properties *)

(** Whatever order a handler registers its follow-up and its error hook in, the outcome keeps
    its broker status and both, and the dispatcher takes exactly those apart; each outcome is
    exactly one of an ack, a retry and a drop; every policy but fail-fast settles, and a handler's
    plain [Err] is a drop. *)
Theorem outcome_keeps_its_parts (r : HandlerResult) fut hook (policy : FailurePolicy) :
  let o := from_result r in
  into_parts (error_hook (and_after o fut) hook) = (r, Some fut, Some hook) /\
  into_parts (and_after (error_hook o hook) fut) = (r, Some fut, Some hook) /\
  into_parts o = (r, None, None) /\
  (if is_ack o then 1 else 0) + (if is_retry o then 1 else 0) + (if is_drop o then 1 else 0) = 1 /\
  (is_Some (retry_delay o) -> is_retry o = true) /\
  (settlement policy = None <-> policy = FailFast) /\
  (forall E (e : E), outcome (into_outcome_result (Err e)) = result_drop /\
     outcome (into_outcome_nested (Err e)) = result_drop).
Proof.
  split_and!; try done.
  - by destruct r as [|[]|].
  - destruct r as [|[]|]; simpl; intros [? ?]; done.
  - by destruct policy.
Qed.
End Outcome.
