(* ===== verification/PublishFailure.v ===== *)
(** * A publish that failed ([crates/runtime/src/publish_failure.rs], [publish_failure/boxed.rs])

    The message a failed publish hands back, the refusal it travels in, the reaction of an outcome
    to the publish the runtime makes for it, and the gathering of a uniform batch outcome: one
    closure and one follow-up for many elements.  The build with a heap is modelled; an error is a
    description. *)
From Stdlib Require Import Ascii String.
From stdpp Require Import sorting.
From S2P Require Import Prelude RustStd Headers Outcome.

Module PublishFailure.

Abbreviation HeaderMap := HeaderMap.HeaderMap.
Abbreviation BoxError := string.
Abbreviation Continuation := Outcome.Continuation.
Abbreviation ErrorHook := Outcome.ErrorHook.

Record FailedMessage := mk_failed_message {
  failed_destination : string;
  failed_payload : option bytes;
  failed_headers : HeaderMap;
}.

Record Failed := mk_failed { failed_error : BoxError; failed_message : FailedMessage }.

(** Bytes the publisher owns, or a view lent to it: an address and a length. *)
Inductive KeptPayload :=
  | Owned (payload : bytes)
  | Lent (addr len : nat).

Record Unsent := mk_unsent { sent : option string; payload : KeptPayload; headers : HeaderMap }.
Record Refusal := mk_refusal { error : BoxError; unsent : option Unsent }.

Definition new_refusal (e : BoxError) : Refusal := mk_refusal e None.

(** [Refusal::returned]: the publisher was handed the message as the caller named it. *)
Definition returned (e : BoxError) (message : option (KeptPayload * HeaderMap)) : Refusal :=
  mk_refusal e ((fun m => mk_unsent None m.1 m.2) <$> message).

(** [Refusal::sent_to]: a naming transform changed the destination. *)
Definition sent_to (r : Refusal) (declared name : string) : Refusal :=
  if String.eqb name declared then r
  else mk_refusal (error r) ((fun u => mk_unsent (Some name) (payload u) (headers u)) <$> unsent r).

(** [Refusal::into_message]; [lent] answers for the bytes the caller had lent. *)
Definition into_message (r : Refusal) (destination : string) (lent : nat -> nat -> bytes)
  : BoxError * FailedMessage :=
  (error r,
   match unsent r with
   | Some u =>
       mk_failed_message (default destination (sent u))
         match payload u with
         | Owned b => Some b
         | Lent addr len => if length (lent addr len) =? len then Some (lent addr len) else None
         end (headers u)
   | None => mk_failed_message destination None HeaderMap.new
   end).

(** ** What an outcome makes of the publish

    A continuation is what runs later: the follow-up a handler registered, or its [.error] closure
    with the failures it is told of. *)
Inductive Work :=
  | Then (after : Continuation)
  | OnError (hook : ErrorHook) (failures : list Failed).

Record Reaction := mk_reaction { on_error : ErrorHook; then_ : option Continuation }.

Definition into_then (r : Reaction) : option Continuation := then_ r.

(** [publish_done] and [publish_lost]; a loss without a reaction is only a warning. *)
Definition publish_done (r : option Reaction) : option Work := Then <$> (r ≫= then_).
Definition publish_lost (r : option Reaction) (e : BoxError) (message : FailedMessage) : option Work :=
  (fun r => OnError (on_error r) [mk_failed e message]) <$> r.

(** The result of the runtime's own publish, handed to the reaction. *)
Definition copy_sent (res : result unit Refusal) (r : option Reaction) (target : string)
  (lent : bytes) : option Work :=
  match res with
  | Ok _ => publish_done r
  | Err refusal =>
      let (e, failed) := into_message refusal target (fun _ _ => lent) in publish_lost r e failed
  end.

(** What may come of a publish that carried a reaction. *)
Definition is_answer (r : option Reaction) (w : option Work) : Prop :=
  w = publish_done r \/ exists e message, w = publish_lost r e message.

Lemma copy_sent_answers res r target lent : is_answer r (copy_sent res r target lent).
Proof.
  unfold copy_sent. destruct res as [u|refusal]; [by left|right]. destruct (into_message _ _ _) as [e m]. by exists e, m.
Qed.

(** ** The gathering of a uniform batch outcome *)

(** What the elements of a batch report to; the closure and the follow-up are taken once. *)
Record Gathered := mk_gathered {
  pending : nat;
  any_sent : bool;
  failures : list (nat * Failed);
  react : option ErrorHook;
  after : option Continuation;
}.

Definition gather (elements : nat) (react : ErrorHook) (after : option Continuation) : Gathered :=
  mk_gathered elements false [] (Some react) after.

(** What a report's continuation runs: nothing, or the closure and the follow-up beside it. *)
Record Final := mk_final { final_error : option (ErrorHook * list Failed); final_after : option Continuation }.

Definition by_index (a b : nat * Failed) : Prop := a.1 <= b.1.
#[export] Instance by_index_dec : RelDecision by_index.
Proof. intros a b. unfold by_index. apply _. Defined.

(** What one report adds: its failure, or that an element was sent. *)
Definition with_failure (fs : list (nat * Failed)) (r : option (nat * Failed)) : list (nat * Failed) :=
  match r with Some f => fs ++ [f] | None => fs end.
Definition with_sent (any : bool) (r : option (nat * Failed)) : bool :=
  match r with Some _ => any | None => true end.

(** [Gather::report]; [None] is the underflow of [pending]. *)
Definition report (g : Gathered) (failure : option (nat * Failed)) : option (Gathered * option Final) :=
  let fs := with_failure (failures g) failure in
  let any := with_sent (any_sent g) failure in
  match pending g with
  | 0 => None
  | S (S _ as left) => Some (mk_gathered left any fs (react g) (after g), None)
  | 1 =>
      let sorted := merge_sort by_index fs in
      Some (mk_gathered 0 any [] None (if any then None else after g),
            Some (mk_final (match sorted with
                            | [] => None
                            | _ => (fun hook => (hook, sorted.*2)) <$> react g
                            end)
                    (if any then after g else None)))
  end.

(** The reports of the elements, in the order their publishes ended. *)
Fixpoint report_all (g : Gathered) (reports : list (option (nat * Failed)))
  : option (Gathered * list (option Final)) :=
  match reports with
  | [] => Some (g, [])
  | r :: rest =>
      match report g r with
      | None => None
      | Some (g, f) =>
          match report_all g rest with
          | Some (g, fs) => Some (g, f :: fs)
          | None => None
          end
      end
  end.

(** The failures among reports. *)
Definition failed_of (reports : list (option (nat * Failed))) : list (nat * Failed) := omap id reports.
Definition succeeded (reports : list (option (nat * Failed))) : bool :=
  existsb (fun r => match r with None => true | Some _ => false end) reports.

Lemma report_all_spec reports n fs any hook aft :
  length reports = S n ->
  exists g, report_all (mk_gathered (S n) any fs (Some hook) aft) reports =
    Some (g, replicate n None ++
      [Some (mk_final (match fs ++ failed_of reports with
                       | [] => None
                       | l => Some (hook, (merge_sort by_index l).*2)
                       end)
               (if any || succeeded reports then aft else None))]) /\
    react g = None /\ failures g = [] /\ pending g = 0.
Proof.
  revert n fs any. induction reports as [|r reports IH]; intros n fs any Hlen; [done|].
  simpl in Hlen. injection Hlen as Hlen. cbn [report_all].
  assert (Hfs : fs ++ failed_of (r :: reports) = with_failure fs r ++ failed_of reports).
  { unfold with_failure, failed_of. destruct r as [f|]; simpl; [by rewrite <- app_assoc|done]. }
  assert (Hany : any || succeeded (r :: reports) = with_sent any r || succeeded reports).
  { unfold with_sent. destruct r; simpl; [done|]. by rewrite orb_true_r. }
  rewrite Hfs, Hany. destruct n as [|n].
  - apply length_zero_iff_nil in Hlen as ->.
    exists (mk_gathered 0 (with_sent any r) [] None (if with_sent any r then None else aft)). split; [|done].
    unfold report. cbn -[merge_sort]. rewrite app_nil_r, orb_false_r.
    destruct (with_failure fs r) as [|f l]; [done|].
    destruct (merge_sort by_index (f :: l)) as [|g l'] eqn:Hm; [|done].
    assert (Hp : merge_sort by_index (f :: l) ≡ₚ f :: l) by apply merge_sort_Permutation.
    rewrite Hm in Hp. by apply Permutation_nil_cons in Hp.
  - unfold report. cbn [pending failures any_sent react after].
    destruct (IH n (with_failure fs r) (with_sent any r) Hlen) as (g & Hg & ?). rewrite Hg. exists g. by split.
Qed.

Lemma permuted_sorts_equal (l k : list (nat * Failed)) :
  NoDup l.*1 -> l ≡ₚ k -> merge_sort by_index l = merge_sort by_index k.
Proof.
  intros Hn Hp.
  assert (Htrans : Transitive by_index) by (intros a b c; unfold by_index; lia).
  assert (Htot : Total by_index) by (intros a b; unfold by_index; lia).
  apply (StronglySorted_unique_strong by_index).
  - intros a b Ha Hb Hab Hba. rewrite merge_sort_Permutation in Ha, Hb. rewrite <- Hp in Hb.
    apply list_elem_of_lookup in Ha as (i & Hi). apply list_elem_of_lookup in Hb as (j & Hj).
    assert (i = j) as ->; [|congruence]. eapply (NoDup_lookup l.*1); [done| |].
    + rewrite list_lookup_fmap, Hi. done.
    + rewrite list_lookup_fmap, Hj. simpl. f_equal. unfold by_index in *. lia.
  - apply StronglySorted_merge_sort; apply _.
  - apply StronglySorted_merge_sort; apply _.
  - by rewrite !merge_sort_Permutation.
Qed.

(** ** Properties *)

(** A uniform batch outcome reports once, at its last element, in whatever order the elements'
    publishes end: every earlier report runs nothing; the last runs the [.error] closure exactly
    when some element failed, with every failure in the batch's order, and the follow-up exactly
    when some element succeeded; and nothing is left to run again. *)
Theorem gather_runs_once (n : nat) (hook : ErrorHook) aft reports reports' :
  length reports = S n -> reports ≡ₚ reports' -> NoDup (failed_of reports).*1 ->
  exists g g' final,
    report_all (gather (S n) hook aft) reports = Some (g, replicate n None ++ [Some final]) /\
    report_all (gather (S n) hook aft) reports' = Some (g', replicate n None ++ [Some final]) /\
    final_error final = match failed_of reports with
                        | [] => None
                        | fs => Some (hook, (merge_sort by_index fs).*2)
                        end /\
    final_after final = (if succeeded reports then aft else None) /\
    react g = None /\ failures g = [] /\ report g None = None.
Proof.
  intros Hlen Hp Hn. destruct (report_all_spec reports n [] false hook aft Hlen) as (g & Hg & H1 & H2 & H3).
  destruct (report_all_spec reports' n [] false hook aft) as (g' & Hg' & _); [by rewrite <- Hp|].
  assert (Hf : failed_of reports ≡ₚ failed_of reports') by (unfold failed_of; by rewrite Hp).
  assert (Hs : succeeded reports' = succeeded reports).
  { apply eq_bool_prop_intro. unfold succeeded. rewrite !Is_true_true, !existsb_elem.
    split; intros (x & Hx & ?); exists x; (split; [|done]); [by rewrite Hp|by rewrite <- Hp]. }
  eexists g, g', _. split; [exact Hg|]. split; [|split; [done|split; [done|]]].
  - rewrite Hs in Hg'. simpl in *. unfold gather. rewrite Hg'. do 4 f_equal.
    destruct (failed_of reports) as [|x l] eqn:Hl.
    + by apply Permutation_nil_l in Hf as <-.
    + destruct (failed_of reports') as [|y k]; [by apply Permutation_nil_r in Hf|].
      by rewrite (permuted_sorts_equal _ _ Hn Hf).
  - split_and!; [done|done|]. unfold report. by rewrite H3.
Qed.

(** A refused publish gives back the message as it was sent: to the name a transform chose, or
    the declared one; with its headers; with its bytes, unless the publisher consumed them or the
    lender cannot answer for all it lent; and the reaction runs its [.error] only on a failure and
    its follow-up only on a success. *)
Theorem refusal_gives_back (r : Refusal) declared name (lent : nat -> nat -> bytes) (reaction : Reaction) bytes :
  (forall hs p, unsent r = Some (mk_unsent None p hs) ->
     let (e, m) := into_message (sent_to r declared name) declared lent in
     e = error r /\ failed_destination m = name /\ failed_headers m = hs /\
     (forall b, p = Owned b -> failed_payload m = Some b) /\
     (forall addr len, p = Lent addr len -> length (lent addr len) = len ->
        failed_payload m = Some (lent addr len)) /\
     (forall addr len, p = Lent addr len -> length (lent addr len) <> len -> failed_payload m = None)) /\
  (unsent r = None -> failed_payload (into_message (sent_to r declared name) declared lent).2 = None) /\
  copy_sent (Ok tt) (Some reaction) declared bytes = Then <$> then_ reaction /\
  (exists m, copy_sent (Err r) (Some reaction) declared bytes = Some (OnError (on_error reaction) [m]) /\
     failed_error m = error r) /\
  copy_sent (Err r) None declared bytes = None.
Proof.
  split_and!.
  - intros hs p Hu. unfold sent_to, into_message.
    destruct (String.eqb_spec name declared) as [->|Hne]; rewrite Hu; simpl; (split_and!; try done);
      intros; subst; simpl; rewrite ?(proj2 (Nat.eqb_eq _ _)), ?(proj2 (Nat.eqb_neq _ _)) by done; done.
  - intros Hu. unfold sent_to, into_message. destruct (String.eqb name declared); by rewrite ?Hu; simpl; rewrite ?Hu.
  - done.
  - simpl. eexists. split; [done|done].
  - done.
Qed.

Definition failure (i : nat) : nat * Failed :=
  (i, mk_failed "down" (mk_failed_message "orders" None HeaderMap.new)).

Lemma gather_runs_once_witness :
  exists g, report_all (gather 3 (Outcome.OwnHook 7) (Some (Outcome.OwnThen 9))) [Some (failure 2); None; Some (failure 0)] =
    Some (g, [None; None; Some (mk_final (Some (Outcome.OwnHook 7, [(failure 0).2; (failure 2).2])) (Some (Outcome.OwnThen 9)))]).
Proof.
  destruct (gather_runs_once 2 (Outcome.OwnHook 7) (Some (Outcome.OwnThen 9)) [Some (failure 2); None; Some (failure 0)] _ eq_refl
    (Permutation_refl _)) as (g & g' & final & Hg & _ & He & Ha & _).
  { apply NoDup_cons. split; [intros ?%list_elem_of_singleton; done|apply NoDup_singleton]. }
  exists g. rewrite Hg. destruct final as [fe fa]. simpl in He, Ha. subst. reflexivity.
Defined.

Lemma refusal_gives_back_witness :
  failed_destination (into_message (sent_to (returned "down" (Some (Owned [], HeaderMap.new))) "a" "b") "a"
    (fun _ _ => [])).2 = "b".
Proof.
  destruct (refusal_gives_back (returned "down" (Some (Owned [], HeaderMap.new))) "a" "b" (fun _ _ => [])
    (mk_reaction (Outcome.OwnHook 0) None) []) as (Hu & _).
  destruct (Hu HeaderMap.new (Owned []) eq_refl) as (_ & Hd & _). exact Hd.
Defined.
End PublishFailure.
