(* ===== verification/Settle.v ===== *)
(** * Settling a delivery by its outcome ([crates/runtime/src/dispatch/settle.rs],
    [dispatch/settle/keep.rs])

    The ack, the nack and the copies the runtime publishes for a retry or a dead letter.  A
    settlement runs over the slot holding the delivery, the reaction of the outcome and the trace
    of what it did; [None] is a panic.  The transport is what a message answers, the retry
    publisher and the store of kept copies are what their calls return, and an addition on [u64]
    panics or wraps as the build's overflow checks say.  The build with a heap, the [testing]
    feature off. *)
From Stdlib Require Import Ascii String.
From S2P Require Import Prelude RustStd Headers Outcome PublishFailure.

Module Settle.
Import Outcome PublishFailure.

Inductive AckError :=
  | Unsupported
  | Broker (cause : string)
  | AckTimeout.
#[export] Instance AckError_eq_dec : EqDecision AckError.
Proof. solve_decision. Defined.

(** The calls of the [Settle] contract; each consumes the message. *)
Inductive Call :=
  | CAck
  | CNack (requeue : bool)
  | CNackAfter (delay : N).

(** A message under that contract: what it carries and what its transport answers. *)
Record Msg := mk_msg {
  msg_payload : bytes;
  msg_headers : HeaderMap;
  redelivery_count : option N;
  supports_nack_after : bool;
  answer : Call -> result unit AckError;
}.

(** The message a copy is. *)
Record Copy := mk_copy { copy_to : string; copy_payload : bytes; copy_headers : HeaderMap }.

(** [RetryRoute]: the retry publisher, as what a publish through it returns, and where copies go. *)
Record RetryRoute := mk_route {
  publisher : Copy -> result unit Refusal;
  destination : option string;
  subscription : string;
}.

(** [KeptCopies]: the record [take_record] answers with, and what follows each send. *)
Record KeptStore := mk_store {
  take_record : option nat;
  send_now : nat -> option string -> option Reaction -> option Work;
  send_spilled : option string -> option Reaction -> option Work;
  full : option bytes -> HeaderMap -> option Reaction -> option Work;
}.

(** [HostDetach], the part a settlement uses. *)
Record Host := mk_host {
  retry_route : option RetryRoute;
  kept : option KeptStore;
  stores_copies : bool;
  reserve : bool;
}.

Inductive Warning :=
  | SettleFailed (e : AckError)
  | ReactionNeverRuns
  | DelayDropped (stored : bool)
  | AttemptsExhausted (attempt : N) (dead_letter : option string)
  | StoreFull.

Inductive Event :=
  | Called (c : Call)
  | Warned (w : Warning)
  | Reserved
  | Released
  | Sent (c : Copy)
  | Waits (delay : N) (c : Copy) (r : option Reaction)
  | Detached (w : Work)
  | KeptFill (record : nat) (payload : bytes) (hs : HeaderMap)
  | KeptPrepare (record : nat) (to : option string)
  | KeptFree (record : nat)
  | KeptArm (record : nat) (delay : N) (r : option Reaction)
  | KeptSend (record : nat) (to : option string) (r : option Reaction)
  | KeptSpill (payload : bytes) (hs : HeaderMap) (to : option string)
  | KeptSendSpilled (to : option string) (r : option Reaction)
  | KeptFull (payload : option bytes) (hs : HeaderMap) (r : option Reaction).

(** ** The monad of a settlement *)

Record Run := mk_run { slot : option Msg; reaction : option Reaction; trace : list Event }.
Definition M (A : Type) : Type := Run -> option (A * Run).

#[export] Instance M_ret : MRet M := fun A a s => Some (a, s).
#[export] Instance M_bind : MBind M := fun A B k m s =>
  match m s with Some (a, s) => k a s | None => None end.

Definition emit (e : Event) : M unit := fun s => Some (tt, mk_run (slot s) (reaction s) (trace s ++ [e])).
Definition lift {A} (o : option A) : M A := fun s => (fun a => (a, s)) <$> o.

(** [Slot::get], [Slot::take] and [Option::take] on the reaction. *)
Definition get : M Msg := fun s => (fun m => (m, s)) <$> slot s.
Definition take : M Msg := fun s => (fun m => (m, mk_run None (reaction s) (trace s))) <$> slot s.
Definition take_reaction : M (option Reaction) :=
  fun s => Some (reaction s, mk_run (slot s) None (trace s)).
Definition peek_reaction : M (option Reaction) := fun s => Some (reaction s, s).

(** [slot.take().<call>().await]. *)
Definition settle_by (c : Call) : M (result unit AckError) :=
  m ← take; _ ← emit (Called c); mret (answer m c).

Definition detach (w : option Work) : M unit :=
  match w with Some w => emit (Detached w) | None => mret tt end.

Section settle.
(** Whether the build panics on an overflow. *)
Context (overflow_checks : bool).

Definition current_retry_count (headers : HeaderMap) : N :=
  default 0%N (HeaderMap.get_str headers RETRY_COUNT_HEADER ≫= u64_parse).

Definition attempt_of (m : Msg) : option N :=
  match redelivery_count m with
  | Some n => Some n
  | None => plain_add overflow_checks u64_max (current_retry_count (msg_headers m)) 1
  end.

(** Where the next copy goes. *)
Inductive Redelivery :=
  | ToSubscription
  | ToDeadLetter (destination : string) (at_cap : bool)
  | Reject.

Definition redelivery_of (m : Msg) (d : RetryDeclaration) : option Redelivery :=
  match max_attempts d, dead_letter d with
  | Some cap, dest =>
      match attempt_of m with
      | None => None
      | Some attempt =>
          if (cap <=? attempt)%N then
            Some (match dest with Some dest => ToDeadLetter dest true | None => Reject end)
          else Some ToSubscription
      end
  | None, Some dest => Some (ToDeadLetter dest false)
  | None, None => Some ToSubscription
  end.

Inductive HostPath := Published (r : RetryRoute) | Kept (k : KeptStore).
Inductive Target := AtSubscription | AtDeadLetter (destination : string).

Definition copy_path (h : Host) : option HostPath :=
  match retry_route h with
  | Some r => Some (Published r)
  | None => Kept <$> kept h
  end.

(** A zero delay is now. *)
Definition nonzero_delay (delay : option N) : option N :=
  match delay with Some d => if N.eqb d 0 then None else Some d | None => None end.

(** The delivery's headers with the count advanced. *)
Definition counted (headers : HeaderMap) : option HeaderMap :=
  match plain_add overflow_checks u64_max (current_retry_count headers) 1 with
  | Some next => Some (fst (HeaderMap.insert_header headers RETRY_COUNT_HEADER (as_bytes (u64_to_string next))))
  | None => None
  end.

(** The publish of a copy through the retry route, and what it makes of its result. *)
Definition republish (r : RetryRoute) (c : Copy) (reaction : option Reaction) : option Work :=
  copy_sent (publisher r c) reaction (copy_to c) (copy_payload c).

Definition publish_copy (to : option string) (delay : option N) (h : Host) (r : RetryRoute)
  : M (result unit AckError) :=
  m ← get;
  headers ← lift (counted (msg_headers m));
  let copy := mk_copy (default (subscription r) to) (msg_payload m) headers in
  let delay := nonzero_delay delay in
  let reserved := match delay with Some _ => true | None => false end in
  if reserved && negb (reserve h) then _ ← emit (Warned StoreFull); settle_by (CNack true)
  else
    _ ← (if reserved then emit Reserved else mret tt);
    dropped ← settle_by (CNack false);
    match dropped with
    | Err (Broker _ as e) | Err (AckTimeout as e) =>
        _ ← (if reserved then emit Released else mret tt); mret (Err e)
    | Ok _ | Err Unsupported =>
        reaction ← take_reaction;
        match delay with
        | None => _ ← emit (Sent copy); _ ← detach (republish r copy reaction); mret (Ok tt)
        | Some delay => _ ← emit (Waits delay copy reaction); mret (Ok tt)
        end
    end.

(** The work of a delayed copy once its delay has passed: the publish, and its follow-up in place. *)
Definition due_copy (r : RetryRoute) (c : Copy) (reaction : option Reaction) : list Event :=
  Sent c :: match republish r c reaction with Some w => [Detached w] | None => [] end.

(** *** The copies kept in place *)

Definition drop_original : M (result unit AckError) :=
  dropped ← settle_by (CNack false);
  match dropped with
  | Ok _ | Err Unsupported => mret (Ok tt)
  | Err e => mret (Err e)
  end.

Definition spill_copy (to : option string) (delay : option N) (k : KeptStore) (headers : HeaderMap)
  : M (result unit AckError) :=
  m ← get;
  match to, delay with
  | None, Some _ =>
      asked ← peek_reaction;
      let payload := match asked with Some _ => Some (msg_payload m) | None => None end in
      dropped ← drop_original;
      match dropped with
      | Err e => mret (Err e)
      | Ok _ =>
          reaction ← take_reaction;
          _ ← emit (KeptFull payload headers reaction);
          _ ← detach (full k payload headers reaction); mret (Ok tt)
      end
  | _, _ =>
      _ ← emit (KeptSpill (msg_payload m) headers to);
      dropped ← drop_original;
      match dropped with
      | Err e => mret (Err e)
      | Ok _ =>
          reaction ← take_reaction;
          _ ← emit (KeptSendSpilled to reaction);
          _ ← detach (send_spilled k to reaction); mret (Ok tt)
      end
  end.

Definition keep_copy (target : Target) (delay : option N) (k : KeptStore) : M (result unit AckError) :=
  let delay := nonzero_delay delay in
  let to := match target with AtSubscription => None | AtDeadLetter d => Some d end in
  m ← get;
  headers ← lift (counted (msg_headers m));
  match take_record k with
  | None => spill_copy to delay k headers
  | Some record =>
      _ ← emit (KeptFill record (msg_payload m) headers);
      _ ← emit (KeptPrepare record to);
      dropped ← drop_original;
      match dropped with
      | Err e => _ ← emit (KeptFree record); mret (Err e)
      | Ok _ =>
          reaction ← take_reaction;
          match delay with
          | Some delay => _ ← emit (KeptArm record delay reaction); mret (Ok tt)
          | None =>
              _ ← emit (KeptSend record to reaction);
              _ ← detach (send_now k record to reaction); mret (Ok tt)
          end
      end
  end.

(** *** The settlement *)

Definition send_copy (target : Target) (delay : option N) (path : HostPath) (h : Host)
  : M (result unit AckError) :=
  match path with
  | Published r =>
      let to := match target with AtSubscription => destination r | AtDeadLetter d => Some d end in
      publish_copy to delay h r
  | Kept k => keep_copy target delay k
  end.

Definition warn_at_cap (attempt : N) (to : option string) : M unit :=
  emit (Warned (AttemptsExhausted attempt to)).

Definition send_dead_letter (to : string) (at_cap : bool) (path : HostPath) (h : Host)
  : M (result unit AckError) :=
  _ ← (if at_cap then m ← get; attempt ← lift (attempt_of m); warn_at_cap attempt (Some to) else mret tt);
  send_copy (AtDeadLetter to) None path h.

Definition reject_spent : M (result unit AckError) :=
  m ← get; attempt ← lift (attempt_of m); _ ← warn_at_cap attempt None; settle_by (CNack false).

Definition requeue_now (h : Host) (d : RetryDeclaration) : M (result unit AckError) :=
  m ← get; r ← lift (redelivery_of m d);
  _ ← (match r with ToSubscription => emit (Warned (DelayDropped (stores_copies h))) | _ => mret tt end);
  settle_by (CNack true).

Definition settle_retry (h : Host) (d : RetryDeclaration) : M (result unit AckError) :=
  if declares_nothing d then settle_by (CNack true)
  else match copy_path h with
       | None => settle_by (CNack true)
       | Some path =>
           m ← get; r ← lift (redelivery_of m d);
           match r with
           | ToSubscription =>
               match redelivery_count m with
               | Some _ => settle_by (CNack true)
               | None => send_copy AtSubscription None path h
               end
           | ToDeadLetter to at_cap => send_dead_letter to at_cap path h
           | Reject => reject_spent
           end
       end.

Definition settle_nack_after (h : Host) (d : RetryDeclaration) (delay : N) : M (result unit AckError) :=
  m ← get;
  if supports_nack_after m then
    match max_attempts d, copy_path h with
    | Some _, Some path =>
        r ← lift (redelivery_of m d);
        match r with
        | ToDeadLetter to _ => send_dead_letter to true path h
        | Reject => reject_spent
        | ToSubscription => settle_by (CNackAfter delay)
        end
    | _, _ => settle_by (CNackAfter delay)
    end
  else
    match copy_path h with
    | None => requeue_now h d
    | Some path =>
        r ← lift (redelivery_of m d);
        match r with
        | ToSubscription => send_copy AtSubscription (Some delay) path h
        | ToDeadLetter to at_cap => send_dead_letter to at_cap path h
        | Reject => reject_spent
        end
    end.

(** The settlement by an outcome, shared by both entries. *)
Definition settle_by_outcome (h : Host) (d : RetryDeclaration) (o : HandlerResult) : M unit :=
  res ← (match o with
             | Ack => settle_by CAck
             | Nack false => settle_by (CNack false)
             | Nack true => settle_retry h d
             | NackAfter delay => settle_nack_after h d delay
             end);
  match res with
  | Ok _ => mret tt
  | Err e => emit (Warned (SettleFailed e))
  end.

(** [settle_outcome]: no reaction travels with the outcome. *)
Definition settle_outcome (h : Host) (d : RetryDeclaration) (m : Msg) (o : HandlerResult) : option Run :=
  snd <$> settle_by_outcome h d o (mk_run (Some m) None []).

(** [settle_reacting]: the reaction nobody took gives its follow-up to run. *)
Definition settle_reacting (h : Host) (d : RetryDeclaration) (m : Msg) (o : HandlerResult)
  (r : option Reaction) : option Run :=
  snd <$> (_ ← (match r, copy_path h with Some _, None => emit (Warned ReactionNeverRuns) | _, _ => mret tt end);
           _ ← settle_by_outcome h d o;
           left ← take_reaction;
           detach (Then <$> (left ≫= into_then))) (mk_run (Some m) r []).

(** ** What a settlement leaves behind *)

Definition calls (t : list Event) : list Call :=
  omap (fun e => match e with Called c => Some c | _ => None end) t.
Definition works (t : list Event) : list Work :=
  omap (fun e => match e with Detached w => Some w | _ => None end) t.
(** The events by which a copy leaves the delivery. *)
Definition is_copy (e : Event) : bool :=
  match e with
  | Sent _ | Waits _ _ _ | KeptArm _ _ _ | KeptSend _ _ _ | KeptSendSpilled _ _ | KeptFull _ _ _ => true
  | _ => false
  end.
Definition copies (t : list Event) : list Event := List.filter is_copy t.

(** The reaction a leaving copy carries, and what comes back of it at once. *)
Definition carries (e : Event) (r : option Reaction) : Prop :=
  match e with
  | Waits _ _ r' | KeptArm _ _ r' | KeptSend _ _ r' | KeptSendSpilled _ r' | KeptFull _ _ r' => r' = r
  | _ => True
  end.
Definition follow (h : Host) (e : Event) (r : option Reaction) : option Work :=
  match e, copy_path h with
  | Sent c, Some (Published rt) => republish rt c r
  | KeptSend record to _, Some (Kept k) => send_now k record to r
  | KeptSendSpilled to _, Some (Kept k) => send_spilled k to r
  | KeptFull p hs _, Some (Kept k) => full k p hs r
  | _, _ => None
  end.

(** The path a leaving copy takes. *)
Definition fits (h : Host) (e : Event) : Prop :=
  match e, copy_path h with
  | (Sent _ | Waits _ _ _), Some (Published _) => True
  | (KeptArm _ _ _ | KeptSend _ _ _ | KeptSendSpilled _ _ | KeptFull _ _ _), Some (Kept _) => True
  | _, _ => False
  end.

(** Room reserved against room given back or handed to a waiting copy, and the same of records. *)
Definition taken (e : Event) : nat := match e with Reserved | KeptFill _ _ _ => 1 | _ => 0 end.
Definition given (e : Event) : nat :=
  match e with Released | Waits _ _ _ | KeptFree _ | KeptArm _ _ _ | KeptSend _ _ _ => 1 | _ => 0 end.

(** The original counts as dropped when its transport took the rejection or settles nothing. *)
Definition dropped (m : Msg) : Prop :=
  answer m (CNack false) = Ok tt \/ answer m (CNack false) = Err Unsupported.

Record settled (h : Host) (m : Msg) (r : option Reaction) (ev : list Event) (left : option Reaction) : Prop := {
  st_once : exists c, calls ev = [c];
  st_copy : (copies ev = [] /\ left = r /\ works ev = []) \/
    (exists e pre post, copies ev = [e] /\ left = None /\ (carries e r /\ fits h e) /\ works ev = option_list (follow h e r) /\
       dropped m /\ ev = pre ++ Called (CNack false) :: post /\ e ∈ post);
  st_room : sum_list (taken <$> ev) = sum_list (given <$> ev);
}.

(** A step from a slot that holds the message: it panics only by [P], and leaves the slot empty. *)
Definition settles (P : Prop) (h : Host) (m : Msg) (x : M (result unit AckError)) : Prop :=
  forall r t, match x (mk_run (Some m) r t) with
              | None => P
              | Some (_, s) => slot s = None /\ exists ev, trace s = t ++ ev /\ settled h m r ev (reaction s)
              end.

Lemma settles_call P h m c : settles P h m (settle_by c).
Proof.
  intros r t. simpl. split; [done|]. exists [Called c]. split; [done|]. split; [by exists c|by left|done].
Qed.

(** The one panic: a count of [u64::MAX] advanced in a build that checks overflows. *)
Definition count_overflows (m : Msg) : Prop :=
  overflow_checks = true /\ (u64_max <= current_retry_count (msg_headers m))%N.

Lemma current_retry_count_le hs : (current_retry_count hs <= u64_max)%N.
Proof.
  unfold current_retry_count. destruct (_ ≫= u64_parse) as [n|] eqn:Hn; simpl; [|done].
  apply bind_Some in Hn as (s & _ & Hn). by eapply u64_parse_le.
Qed.

Lemma plain_add_panics a : plain_add overflow_checks u64_max a 1 = None ->
  overflow_checks = true /\ (u64_max <= a)%N.
Proof.
  unfold plain_add. destruct overflow_checks; [|done]. unfold checked_add.
  destruct (N.leb_spec (a + 1) u64_max); [done|]. split; [done|lia].
Qed.

Lemma counted_panics hs : counted hs = None -> overflow_checks = true /\ (u64_max <= current_retry_count hs)%N.
Proof. unfold counted. destruct (plain_add _ _ _ _) eqn:E; [done|]. intros _. by apply plain_add_panics. Qed.

Lemma attempt_panics m : attempt_of m = None -> count_overflows m.
Proof. unfold attempt_of. destruct (redelivery_count m); [done|]. apply plain_add_panics. Qed.

Lemma settled_warned h m r ev left w :
  settled h m r ev left -> settled h m r (Warned w :: ev) left.
Proof.
  intros [Ho Hc Hr]. split; [done| |done].
  destruct Hc as [?|(e & pre & post & ? & ? & ? & ? & ? & -> & ?)]; [by left|].
  right. exists e, (Warned w :: pre), post. by split_and!; try tauto.
Qed.

Lemma settles_warn P h m w x : settles P h m x -> settles P h m (_ ← emit (Warned w); x).
Proof.
  intros Hx r t. specialize (Hx r (t ++ [Warned w])).
  change ((_ ← emit (Warned w); x) (mk_run (Some m) r t)) with (x (mk_run (Some m) r (t ++ [Warned w]))).
  destruct (x _) as [[a s]|]; [|done].
  destruct Hx as (Hs & ev & Ht & He). split; [done|]. exists (Warned w :: ev). rewrite Ht, <- app_assoc.
  split; [done|]. by apply settled_warned.
Qed.

Lemma settles_get P h m (f : Msg -> M (result unit AckError)) :
  settles P h m (f m) -> settles P h m (x ← get; f x).
Proof. intros Hx r t. apply (Hx r t). Qed.

Lemma settles_lift {A} (P : Prop) h m (o : option A) f :
  (o = None -> P) -> (forall a, o = Some a -> settles P h m (f a)) -> settles P h m (a ← lift o; f a).
Proof.
  intros Hn Hs r t. destruct o as [a|]; [by apply (Hs a eq_refl)|by apply Hn].
Qed.

(** Runs the steps of the monad on a concrete run. *)
Ltac run_steps :=
  unfold drop_original, settle_by, detach, take, emit, take_reaction, peek_reaction, mret, M_ret, mbind, M_bind in *;
  cbn -[republish] in *.

(** The events of a run whose copy [e] left after [pre] and the rejection. *)
Ltac copied e pre :=
  split; [done|]; eexists; split; [rewrite <- ?app_assoc; done|];
  split; [by eexists|right; exists e, pre; eexists; split_and!; try done; try (by left); try (by right); try (unfold fits; match goal with Hp : copy_path _ = _ |- _ => by rewrite Hp end)|done].

(** The events of a run without a copy. *)
Ltac uncopied :=
  split; [done|]; eexists; split; [rewrite <- ?app_assoc; done|]; split; [by eexists|by left|done].

Lemma settles_publish to delay h rt m :
  copy_path h = Some (Published rt) -> settles (count_overflows m) h m (publish_copy to delay h rt).
Proof.
  intros Hp. apply settles_get, settles_lift; [intros Hn; by apply counted_panics|].
  intros hs _ r t. set (copy := mk_copy _ _ _).
  destruct (nonzero_delay delay) as [dl|]; [destruct (reserve h)|]; run_steps;
    try (destruct (answer m (CNack false)) as [[]|[| |]] eqn:E; cbn -[republish]); try (by uncopied).
  - copied (Waits dl copy r) [Reserved].
  - copied (Waits dl copy r) [Reserved].
  - destruct (republish rt copy r) as [w|] eqn:Hw; cbn; copied (Sent copy) (@nil Event);
      unfold follow; by rewrite Hp, Hw.
  - destruct (republish rt copy r) as [w|] eqn:Hw; cbn; copied (Sent copy) (@nil Event);
      unfold follow; by rewrite Hp, Hw.
Qed.

Lemma settles_spill to delay h k hs m P :
  copy_path h = Some (Kept k) -> settles P h m (spill_copy to delay k hs).
Proof.
  intros Hp. unfold spill_copy. apply settles_get. intros r t.
  destruct to as [to|]; [|destruct delay as [delay|]]; run_steps;
    destruct (answer m (CNack false)) as [[]|[| |]] eqn:E; cbn; try (by uncopied).
  - destruct (send_spilled k (Some to) r) as [w|] eqn:Hw; cbn;
      copied (KeptSendSpilled (Some to) r) [KeptSpill (msg_payload m) hs (Some to)]; unfold follow; by rewrite Hp, Hw.
  - destruct (send_spilled k (Some to) r) as [w|] eqn:Hw; cbn;
      copied (KeptSendSpilled (Some to) r) [KeptSpill (msg_payload m) hs (Some to)]; unfold follow; by rewrite Hp, Hw.
  - set (p := match r with Some _ => Some (msg_payload m) | None => None end).
    destruct (full k p hs r) as [w|] eqn:Hw; cbn; copied (KeptFull p hs r) (@nil Event);
      unfold follow; by rewrite Hp, Hw.
  - set (p := match r with Some _ => Some (msg_payload m) | None => None end).
    destruct (full k p hs r) as [w|] eqn:Hw; cbn; copied (KeptFull p hs r) (@nil Event);
      unfold follow; by rewrite Hp, Hw.
  - destruct (send_spilled k None r) as [w|] eqn:Hw; cbn;
      copied (KeptSendSpilled None r) [KeptSpill (msg_payload m) hs None]; unfold follow; by rewrite Hp, Hw.
  - destruct (send_spilled k None r) as [w|] eqn:Hw; cbn;
      copied (KeptSendSpilled None r) [KeptSpill (msg_payload m) hs None]; unfold follow; by rewrite Hp, Hw.
Qed.

Lemma settles_keep target delay h k m :
  copy_path h = Some (Kept k) -> settles (count_overflows m) h m (keep_copy target delay k).
Proof.
  intros Hp. unfold keep_copy. apply settles_get, settles_lift; [intros Hn; by apply counted_panics|].
  intros hs _ r t. set (to := match target with AtSubscription => None | AtDeadLetter d => Some d end).
  destruct (take_record k) as [record|].
  - set (pre := [KeptFill record (msg_payload m) hs; KeptPrepare record to]).
    destruct (nonzero_delay delay) as [dl|]; run_steps;
      destruct (answer m (CNack false)) as [[]|[| |]] eqn:E; cbn; try (by uncopied).
    + copied (KeptArm record dl r) pre.
    + copied (KeptArm record dl r) pre.
    + destruct (send_now k record to r) as [w|] eqn:Hw; cbn; copied (KeptSend record to r) pre;
        unfold follow; by rewrite Hp, Hw.
    + destruct (send_now k record to r) as [w|] eqn:Hw; cbn; copied (KeptSend record to r) pre;
        unfold follow; by rewrite Hp, Hw.
  - by apply settles_spill.
Qed.

Lemma settles_send P target delay path h m :
  copy_path h = Some path -> (count_overflows m -> P) ->
  settles P h m (send_copy target delay path h).
Proof.
  intros Hp HP. assert (Hs : settles (count_overflows m) h m (send_copy target delay path h)).
  { destruct path; [by apply settles_publish|by apply settles_keep]. }
  intros r t. specialize (Hs r t). destruct (send_copy _ _ _ _ _) as [[a s]|]; auto.
Qed.

Lemma settles_dead_letter to at_cap path h m :
  copy_path h = Some path -> settles (count_overflows m) h m (send_dead_letter to at_cap path h).
Proof.
  intros Hp. unfold send_dead_letter. pose proof (settles_send (count_overflows m) (AtDeadLetter to) None path h m Hp id) as Hs.
  destruct at_cap; [|exact Hs]. intros r t.
  destruct (attempt_of m) as [n|] eqn:Ha.
  - pose proof (settles_warn _ h m (AttemptsExhausted n (Some to)) _ Hs r t) as Hw.
    run_steps. by rewrite Ha.
  - run_steps. rewrite Ha. by apply attempt_panics.
Qed.

Lemma settles_reject h m : settles (count_overflows m) h m reject_spent.
Proof.
  apply settles_get, settles_lift; [apply attempt_panics|]. intros n _.
  apply settles_warn, settles_call.
Qed.

Lemma redelivery_panics m d : redelivery_of m d = None -> count_overflows m.
Proof.
  unfold redelivery_of. destruct (max_attempts d) as [cap|]; [|by destruct (dead_letter d)].
  destruct (attempt_of m) as [n|] eqn:Ha; [by destruct (cap <=? n)%N|]. intros _. by apply attempt_panics.
Qed.

Lemma settles_outcome h d m o r t :
  match settle_by_outcome h d o (mk_run (Some m) r t) with
  | None => count_overflows m
  | Some (_, s) => slot s = None /\ exists ev, trace s = t ++ ev /\ settled h m r ev (reaction s)
  end.
Proof.
  unfold settle_by_outcome.
  set (x := match o with Ack => _ | Nack _ => _ | NackAfter _ => _ end).
  assert (Hx : settles (count_overflows m) h m x).
  { unfold x. destruct o as [|[]|delay]; [apply settles_call| |apply settles_call|].
    - unfold settle_retry. destruct (declares_nothing d); [apply settles_call|].
      destruct (copy_path h) as [path|] eqn:Hp; [|apply settles_call].
      apply settles_get, settles_lift; [apply redelivery_panics|]. intros rd _. destruct rd as [|to cap|].
      + destruct (redelivery_count m); [apply settles_call|]. by apply settles_send.
      + by apply settles_dead_letter.
      + apply settles_reject.
    - unfold settle_nack_after. apply settles_get. destruct (supports_nack_after m).
      + destruct (max_attempts d); [|apply settles_call].
        destruct (copy_path h) as [path|] eqn:Hp; [|apply settles_call].
        apply settles_lift; [apply redelivery_panics|]. intros rd _. destruct rd as [|to cap|].
        * apply settles_call.
        * by apply settles_dead_letter.
        * apply settles_reject.
      + destruct (copy_path h) as [path|] eqn:Hp.
        * apply settles_lift; [apply redelivery_panics|]. intros rd _. destruct rd as [|to cap|].
          -- by apply settles_send.
          -- by apply settles_dead_letter.
          -- apply settles_reject.
        * unfold requeue_now. apply settles_get, settles_lift; [apply redelivery_panics|]. intros rd _.
          destruct rd; try apply settles_call. apply settles_warn, settles_call. }
  specialize (Hx r t). unfold mbind, M_bind, mret, M_ret. destruct (x _) as [[[[]|e] s]|]; [done| |done].
  destruct Hx as (Hs & ev & Ht & [Ho Hc Hr]). simpl in *. split; [done|].
  exists (ev ++ [Warned (SettleFailed e)]). rewrite Ht, <- app_assoc. split; [done|]. split.
  - destruct Ho as [c Hc']. exists c. unfold calls in *. by rewrite omap_app, Hc'.
  - destruct Hc as [(H1 & H2 & H3)|(e' & pre & post & H1 & H2 & H3 & H4 & H5 & H6 & H7)].
    + left. unfold copies, works in *. by rewrite List.filter_app, omap_app, H1, H3.
    + right. exists e', pre, (post ++ [Warned (SettleFailed e)]). unfold copies, works in *.
      rewrite List.filter_app, omap_app, H1, H4. simpl. rewrite !app_nil_r.
      split_and!; try done; try tauto. { by rewrite H6, <- app_assoc. } apply elem_of_app. by left.
  - rewrite !fmap_app, !sum_list_with_app. f_equal. exact Hr.
Qed.

Lemma settled_reacting h d m o r :
  match settle_reacting h d m o r with
  | None => count_overflows m
  | Some s => slot s = None /\ exists ev left, settled h m r ev left /\
      trace s = ev ++ option_list (Detached <$> (Then <$> (left ≫= into_then)))
  end.
Proof.
  unfold settle_reacting.
  set (warned := match r, copy_path h with Some _, None => _ | _, _ => _ end).
  assert (Hwarn : exists w, warned (mk_run (Some m) r []) = Some (tt, mk_run (Some m) r w) /\
    (w = [] \/ w = [Warned ReactionNeverRuns])).
  { unfold warned. destruct r, (copy_path h); eexists; (split; [done|]); auto. }
  destruct Hwarn as (w & Hw & Hcase). pose proof (settles_outcome h d m o r w) as Ho.
  unfold mbind, M_bind. rewrite Hw.
  destruct (settle_by_outcome h d o (mk_run (Some m) r w)) as [[u s]|]; [|done].
  destruct Ho as (Hs & ev & Ht & He).
  assert (He' : settled h m r (w ++ ev) (reaction s)).
  { destruct Hcase as [->| ->]; [done|]. by apply settled_warned. }
  set (left := reaction s) in *. unfold take_reaction. cbn beta iota. fold left.
  destruct (option_bind _ _ into_then left) as [a|] eqn:Ha; cbn; (split; [done|]);
    exists (w ++ ev), left; rewrite Ha, Ht; (split; [done|]); [done|by rewrite app_nil_r].
Qed.

(** *** The count a copy carries *)

Lemma count_after_insert hs n :
  HeaderMap.wf hs -> (n <= u64_max)%N ->
  current_retry_count (fst (HeaderMap.insert_header hs RETRY_COUNT_HEADER (as_bytes (u64_to_string n)))) = n.
Proof.
  intros Hwf Hn. destruct (HeaderMap.insert_header_spec hs RETRY_COUNT_HEADER (as_bytes (u64_to_string n)) Hwf)
    as (Hwf' & Hmap & _).
  unfold current_retry_count, HeaderMap.get_str. rewrite HeaderMap.get_map, Hmap by done.
  change (make_ascii_lowercase RETRY_COUNT_HEADER) with RETRY_COUNT_HEADER. rewrite lookup_insert_eq.
  change (Some ?x ≫= from_utf8) with (from_utf8 x). by rewrite u64_text_roundtrip.
Qed.

Lemma counted_spec hs n :
  HeaderMap.wf hs -> current_retry_count hs = n -> (n < u64_max)%N ->
  exists hs', counted hs = Some hs' /\ HeaderMap.wf hs' /\ current_retry_count hs' = (n + 1)%N /\
    forall name, make_ascii_lowercase name <> RETRY_COUNT_HEADER -> HeaderMap.get hs' name = HeaderMap.get hs name.
Proof.
  intros Hwf Hn Hlt. unfold counted. rewrite Hn, plain_add_small by lia.
  destruct (HeaderMap.insert_header_spec hs RETRY_COUNT_HEADER (as_bytes (u64_to_string (n + 1))) Hwf)
    as (Hwf' & Hmap & _).
  eexists. split; [done|]. split; [done|]. split.
  - apply count_after_insert; [done|lia].
  - intros name Hne. rewrite !HeaderMap.get_map, Hmap by done. by rewrite lookup_insert_ne.
Qed.

(** ** The life of a message every delivery of which asks for a retry *)

(** The copy comes back as a delivery of a transport that neither counts nor delays. *)
Definition copy_delivery (c : Copy) (ans : Call -> result unit AckError) : Msg :=
  mk_msg (copy_payload c) (copy_headers c) None false ans.

(** The life of a message that asks for a retry whenever it is delivered: what each delivery told the
    transport and the copies that left.  A copy sent to [address] comes back as the next delivery;
    any other, or none, or a panic, ends it. *)
Record Attempt := mk_attempt { told : list Call; left_as : list Event }.
Fixpoint retried (fuel : nat) (h : Host) (d : RetryDeclaration) (address : string) (m : Msg) : list Attempt :=
  match fuel with
  | 0 => []
  | S fuel =>
      match settle_outcome h d m (Nack true) with
      | None => [mk_attempt [] []]
      | Some s =>
          mk_attempt (calls (trace s)) (copies (trace s)) ::
          match copies (trace s) with
          | [Sent c] =>
              if String.eqb (copy_to c) address then retried fuel h d address (copy_delivery c (answer m)) else []
          | _ => []
          end
      end
  end.

(** One retry of a message the transport does not count, on the published path. *)
Lemma one_retry h d m rt cap n :
  copy_path h = Some (Published rt) -> max_attempts d = Some cap -> redelivery_count m = None ->
  HeaderMap.wf (msg_headers m) -> current_retry_count (msg_headers m) = n -> (n < cap)%N -> (cap <= u64_max)%N ->
  dropped m ->
  exists s hs, settle_outcome h d m (Nack true) = Some s /\
    HeaderMap.wf hs /\ current_retry_count hs = (n + 1)%N /\ calls (trace s) = [CNack false] /\
    copies (trace s) =
      if (n + 1 <? cap)%N then [Sent (mk_copy (default (subscription rt) (destination rt)) (msg_payload m) hs)]
      else match dead_letter d with
           | Some to => [Sent (mk_copy to (msg_payload m) hs)]
           | None => []
           end.
Proof.
  intros Hp Hcap Hcount Hwf Hn Hlt Hmax Hdrop.
  destruct (counted_spec (msg_headers m) n Hwf Hn ltac:(lia)) as (hs & Hc & Hwf' & Hn' & _).
  assert (Hatt : attempt_of m = Some (n + 1)%N).
  { unfold attempt_of. rewrite Hcount, Hn, plain_add_small by lia. done. }
  assert (Hpub : forall to r t, exists a s, publish_copy to None h rt (mk_run (Some m) r t) = Some (a, s) /\ a = Ok tt /\
     exists w, trace s = t ++ Called (CNack false) :: Sent (mk_copy (default (subscription rt) to) (msg_payload m) hs) :: w /\
       copies w = [] /\ calls w = []).
  { intros to r t. unfold publish_copy, get, lift. run_steps. rewrite Hc. cbn -[republish].
    destruct Hdrop as [Hd|Hd]; rewrite Hd; cbn -[republish]; destruct (republish _ _ _); cbn; do 2 eexists;
      (split; [done|]); (split; [done|]); rewrite <- ?app_assoc; simpl; eexists; done. }
  unfold settle_outcome, settle_by_outcome, settle_retry. rewrite Hp.
  assert (Hdecl : declares_nothing d = false) by (unfold declares_nothing; by rewrite Hcap). rewrite Hdecl.
  unfold redelivery_of, send_dead_letter, reject_spent, warn_at_cap, send_copy, get, lift. run_steps.
  rewrite Hcap, Hatt.
  destruct (N.ltb_spec (n + 1) cap) as [Hlow|Hhigh].
  - rewrite (proj2 (N.leb_gt _ _) Hlow). cbn -[publish_copy]. rewrite Hcount. cbn -[publish_copy].
    destruct (Hpub (destination rt) None []) as (a & s & -> & -> & w & Ht & Hw & Hcw). cbn.
    exists s, hs. split_and!; [done..| |]; rewrite Ht.
    { change (CNack false :: calls w = [CNack false]). by rewrite Hcw. }
    unfold copies in *. simpl. by rewrite Hw.
  - rewrite (proj2 (N.leb_le _ _) Hhigh). destruct (dead_letter d) as [to|]; cbn -[publish_copy].
    + rewrite Hatt. cbn -[publish_copy].
      destruct (Hpub (Some to) None [Warned (AttemptsExhausted (n + 1) (Some to))]) as (a & s & -> & -> & w & Ht & Hw & Hcw).
      cbn. exists s, hs. split_and!; [done..| |]; rewrite Ht.
    { change (CNack false :: calls w = [CNack false]). by rewrite Hcw. }
    unfold copies in *. simpl. by rewrite Hw.
    + rewrite Hatt. cbn. destruct Hdrop as [-> | ->]; cbn; do 2 eexists; (split; [done|]); done.
Qed.

(** What the attempt [i] of [cap] leaves of a message. *)
Definition attempt_leaves (d : RetryDeclaration) (address : string) (body : bytes) (cap i : N) (a : Attempt) : Prop :=
  told a = [CNack false] /\
  if (i <? cap)%N then exists hs, left_as a = [Sent (mk_copy address body hs)] /\ current_retry_count hs = i
  else match dead_letter d with
       | Some to => exists hs, left_as a = [Sent (mk_copy to body hs)] /\ current_retry_count hs = i
       | None => left_as a = []
       end.

Lemma retried_spec fuel h d m rt cap n :
  copy_path h = Some (Published rt) -> max_attempts d = Some cap -> redelivery_count m = None ->
  HeaderMap.wf (msg_headers m) -> current_retry_count (msg_headers m) = n -> (n < cap)%N -> (cap <= u64_max)%N ->
  dropped m -> (forall to, dead_letter d = Some to -> to <> default (subscription rt) (destination rt)) ->
  N.to_nat (cap - n) <= fuel ->
  let attempts := retried fuel h d (default (subscription rt) (destination rt)) m in
  length attempts = N.to_nat (cap - n) /\
  forall i a, attempts !! i = Some a ->
    attempt_leaves d (default (subscription rt) (destination rt)) (msg_payload m) cap (n + N.of_nat i + 1) a.
Proof.
  revert m n. induction fuel as [|fuel IH]; intros m n Hp Hcap Hcount Hwf Hn Hlt Hmax Hdrop Hdl Hfuel; [lia|].
  destruct (one_retry h d m rt cap n Hp Hcap Hcount Hwf Hn Hlt Hmax Hdrop) as (s & hs & Hs & Hwf' & Hn' & Hca & Hco).
  cbn [retried]. rewrite Hs, Hco, Hca. unfold attempt_leaves. destruct (N.ltb_spec (n + 1) cap) as [Hlow|Hhigh].
  - cbn [copy_to]. rewrite String.eqb_refl.
    destruct (IH (copy_delivery (mk_copy (default (subscription rt) (destination rt)) (msg_payload m) hs) (answer m))
      (n + 1)%N Hp Hcap eq_refl Hwf' Hn' Hlow Hmax Hdrop Hdl ltac:(lia)) as [Hl Hd].
    cbn [length]. split; [rewrite Hl; lia|]. intros [|i] a Ha; cbn in Ha.
    + injection Ha as <-. rewrite N.add_0_r, (proj2 (N.ltb_lt _ _) Hlow). split; [done|]. by exists hs.
    + replace (n + N.of_nat (S i) + 1)%N with (n + 1 + N.of_nat i + 1)%N by lia. by apply Hd.
  - destruct (dead_letter d) as [to|] eqn:Hto.
    + cbn [copy_to]. rewrite (proj2 (String.eqb_neq _ _)) by (by apply Hdl). cbn [length]. split; [lia|].
      intros [|i] a; cbn; [|done]. intros [= <-]. rewrite N.add_0_r, (proj2 (N.ltb_ge _ _) Hhigh). split; [done|]. by exists hs.
    + cbn [length]. split; [lia|]. intros [|i] a; cbn; [|done]. intros [= <-].
      by rewrite N.add_0_r, (proj2 (N.ltb_ge _ _) Hhigh).
Qed.

(** ** Properties *)

(** C2. Whatever the outcome, the declaration, the transport's answers and the host, a settlement
    either panics, only where a build with overflow checks advances a count of [u64::MAX], or it
    empties the slot with exactly one call on the transport; at most one copy leaves, only when
    that call was the rejection of the original and the transport took it or settles nothing, and
    only after it; and every room and every record reserved for a copy is given back or handed to
    the copy that waits in it. *)
Theorem settlement_is_exact h d m o r :
  match settle_reacting h d m o r with
  | None => overflow_checks = true /\ current_retry_count (msg_headers m) = u64_max
  | Some s =>
      slot s = None /\ (exists c, calls (trace s) = [c]) /\ length (copies (trace s)) <= 1 /\
      sum_list (taken <$> trace s) = sum_list (given <$> trace s) /\
      (copies (trace s) <> [] ->
         (answer m (CNack false) = Ok tt \/ answer m (CNack false) = Err Unsupported) /\
         exists e pre post, copies (trace s) = [e] /\ e ∈ post /\
           trace s = pre ++ Called (CNack false) :: post)
  end.
Proof.
  pose proof (settled_reacting h d m o r) as Hs. destruct (settle_reacting _ _ _ _ _) as [s|].
  - destruct Hs as (Hslot & ev & left & [[c Hc] Hcopy Hroom] & Ht). rewrite Ht.
    assert (Hl : copies (ev ++ option_list (Detached <$> (Then <$> (left ≫= into_then)))) = copies ev).
    { unfold copies. rewrite List.filter_app. destruct (left ≫= into_then); simpl; apply app_nil_r. }
    rewrite Hl. split; [done|]. split_and!.
    + exists c. unfold calls in *. rewrite omap_app, Hc. by destruct (left ≫= into_then).
    + destruct Hcopy as [(-> & _)|(e & pre & post & -> & _)]; simpl; lia.
    + rewrite !fmap_app, !sum_list_with_app. f_equal; [exact Hroom|]. by destruct (left ≫= into_then).
    + intros Hne. destruct Hcopy as [(? & _)|(e & pre & post & He & _ & _ & _ & Hd & -> & Hin)]; [done|].
      split; [done|]. eexists e, pre, _. split; [done|]. rewrite <- app_assoc. simpl. split; [|done].
      apply elem_of_app. by left.
  - destruct Hs as [? Hge]. split; [done|]. pose proof (current_retry_count_le (msg_headers m)). lia.
Qed.

(** A handler's reaction is used once. Where no copy leaves, what was registered beside [.error]
    runs after the settlement and [.error] never does; where a copy leaves, it carries the
    reaction, and what runs beside the delivery is exactly what the copy's own result makes of it:
    nothing yet for a copy that waits, the follow-up after a publish that succeeded, [.error] with
    its one failure after one that failed, and the store's answer for a copy kept in place. *)
Theorem reaction_runs_once h d m o r s :
  settle_reacting h d m o r = Some s ->
  match copies (trace s) with
  | [] => works (trace s) = option_list (Then <$> (r ≫= into_then))
  | e :: _ => carries e r /\ works (trace s) = option_list (follow h e r) /\
      (forall c rt rx, e = Sent c -> copy_path h = Some (Published rt) -> r = Some rx ->
         follow h e r = match publisher rt c with
                        | Ok _ => Then <$> then_ rx
                        | Err refusal =>
                            let (err, m) := into_message refusal (copy_to c) (fun _ _ => copy_payload c) in
                            Some (OnError (on_error rx) [mk_failed err m])
                        end)
  end.
Proof.
  intros Hrun. pose proof (settled_reacting h d m o r) as Hs. rewrite Hrun in Hs.
  destruct Hs as (_ & ev & left & [_ Hcopy _] & Ht). rewrite Ht.
  assert (Hl : copies (ev ++ option_list (Detached <$> (Then <$> (left ≫= into_then)))) = copies ev).
  { unfold copies. rewrite List.filter_app. destruct (left ≫= into_then); simpl; apply app_nil_r. }
  assert (Hw : works (ev ++ option_list (Detached <$> (Then <$> (left ≫= into_then)))) =
    works ev ++ option_list (Then <$> (left ≫= into_then))).
  { unfold works. rewrite omap_app. by destruct (left ≫= into_then). }
  rewrite Hl, Hw. destruct Hcopy as [(-> & -> & ->)|(e & pre & post & -> & -> & Hc & -> & _)]; [done|].
  split; [tauto|]. split; [by rewrite app_nil_r|].
  intros c rt rx -> Hp ->. unfold follow, republish, copy_sent. rewrite Hp.
  destruct (publisher rt c) as [[]|refusal]; [done|]. by destruct (into_message _ _ _).
Qed.

(** C11. Under a cap of [cap] attempts a message that asks for a retry at every delivery is delivered
    exactly [cap] times and never again, where the runtime publishes its copies, the transport neither
    counts its deliveries nor refuses to drop one, the message arrives without a retry count and the
    dead-letter destination is not the subscription's own address: every delivery is dropped from the
    transport ([nack(false)], never a requeue); each copy before the last goes back to the
    subscription's address with the same payload and the count of the attempt; and what the last
    attempt leaves is the same payload at the dead-letter destination with the count at the cap, or,
    where none is declared, nothing but its rejection. *)
Theorem retry_attempts_are_capped h d m rt cap fuel :
  copy_path h = Some (Published rt) -> max_attempts d = Some cap -> (0 < cap)%N -> (cap <= u32_max)%N ->
  redelivery_count m = None -> HeaderMap.wf (msg_headers m) ->
  HeaderMap.get (msg_headers m) RETRY_COUNT_HEADER = None ->
  (answer m (CNack false) = Ok tt \/ answer m (CNack false) = Err Unsupported) ->
  (forall to, dead_letter d = Some to -> to <> default (subscription rt) (destination rt)) ->
  N.to_nat cap <= fuel ->
  let address := default (subscription rt) (destination rt) in
  let attempts := retried fuel h d address m in
  length attempts = N.to_nat cap /\
  forall i a, attempts !! i = Some a ->
    told a = [CNack false] /\
    if S i <? N.to_nat cap
    then exists hs, left_as a = [Sent (mk_copy address (msg_payload m) hs)] /\ current_retry_count hs = N.of_nat (S i)
    else match dead_letter d with
         | Some to => exists hs, left_as a = [Sent (mk_copy to (msg_payload m) hs)] /\ current_retry_count hs = cap
         | None => left_as a = []
         end.
Proof.
  intros Hp Hcap H0 Hmax Hcount Hwf Hget Hdrop Hdl Hfuel address attempts.
  assert (Hn : current_retry_count (msg_headers m) = 0%N).
  { unfold current_retry_count, HeaderMap.get_str. by rewrite Hget. }
  assert (u32_max <= u64_max)%N by (unfold u32_max, u64_max; lia).
  destruct (retried_spec fuel h d m rt cap 0 Hp Hcap Hcount Hwf Hn ltac:(lia) ltac:(lia) Hdrop Hdl ltac:(lia)) as [Hl Hd].
  fold address attempts in Hl, Hd. rewrite N.sub_0_r in Hl. split; [done|]. intros i a Ha.
  pose proof (lookup_lt_Some _ _ _ Ha) as Hi. destruct (Hd i a Ha) as [Ht Hc]. split; [done|].
  replace (0 + N.of_nat i + 1)%N with (N.of_nat (S i)) in Hc by lia.
  destruct (Nat.ltb_spec (S i) (N.to_nat cap)); [by rewrite (proj2 (N.ltb_lt _ _)) in Hc by lia|].
  rewrite (proj2 (N.ltb_ge _ _)) in Hc by lia. assert (Heq : N.of_nat (S i) = cap) by lia. by rewrite Heq in Hc.
Qed.

(** Where the broker moves a subscription's deliveries itself no cap is read and nothing is
    lost to one: an immediate retry is the broker's requeue whatever is declared, a delayed one is
    the broker's delay where it has one, and the broker's requeue, with the delay dropped, where
    it has none; no copy ever leaves. *)
Theorem broker_moves_its_own h d m delay :
  copy_path h = None ->
  (exists s, settle_outcome h d m (Nack true) = Some s /\ calls (trace s) = [CNack true] /\ copies (trace s) = []) /\
  (supports_nack_after m = true -> exists s, settle_outcome h d m (NackAfter delay) = Some s /\
     calls (trace s) = [CNackAfter delay] /\ copies (trace s) = []) /\
  (supports_nack_after m = false -> attempt_of m <> None -> exists s, settle_outcome h d m (NackAfter delay) = Some s /\
     calls (trace s) = [CNack true] /\ copies (trace s) = []).
Proof.
  intros Hp. unfold settle_outcome, settle_by_outcome, settle_retry, settle_nack_after, requeue_now, get, lift.
  rewrite Hp. split_and!.
  - destruct (declares_nothing d); run_steps; destruct (answer m (CNack true)); by eexists.
  - intros Hn. run_steps. rewrite Hn.
    destruct (max_attempts d); run_steps; destruct (answer m (CNackAfter delay)); by eexists.
  - intros Hn Ha. run_steps. rewrite Hn. cbn. destruct (redelivery_of m d) as [rd|] eqn:Hrd.
    + cbn. destruct rd; cbn; destruct (answer m (CNack true)); by eexists.
    + exfalso. apply Ha. unfold redelivery_of in Hrd. destruct (max_attempts d); [|by destruct (dead_letter d)].
      destruct (attempt_of m); [|done]. by destruct (_ <=? _)%N.
Qed.

(** The count is read from a header any publisher may write, and [u64::MAX] there breaks the
    cap: a build with overflow checks panics settling the delivery, and one without them takes the
    wrapped count for attempt zero and sends the delivery back to the subscription, whatever the
    cap, with the count started over. *)
Theorem retry_count_overflow h d m rt cap :
  copy_path h = Some (Published rt) -> max_attempts d = Some cap -> (0 < cap)%N ->
  redelivery_count m = None -> HeaderMap.wf (msg_headers m) ->
  HeaderMap.get (msg_headers m) RETRY_COUNT_HEADER = Some (as_bytes "18446744073709551615") ->
  answer m (CNack false) = Ok tt ->
  match overflow_checks with
  | true => settle_outcome h d m (Nack true) = None
  | false => exists s hs, settle_outcome h d m (Nack true) = Some s /\
      copies (trace s) = [Sent (mk_copy (default (subscription rt) (destination rt)) (msg_payload m) hs)] /\
      current_retry_count hs = 0%N
  end.
Proof.
  intros Hp Hcap H0 Hcount Hwf Hget Hans.
  assert (Hn : current_retry_count (msg_headers m) = u64_max).
  { unfold current_retry_count, HeaderMap.get_str. rewrite Hget. reflexivity. }
  assert (Hplain : plain_add overflow_checks u64_max u64_max 1 = if overflow_checks then None else Some 0%N)
    by (destruct overflow_checks; reflexivity).
  assert (Hatt : attempt_of m = if overflow_checks then None else Some 0%N)
    by (unfold attempt_of; by rewrite Hcount, Hn).
  assert (Hdecl : declares_nothing d = false) by (unfold declares_nothing; by rewrite Hcap).
  unfold settle_outcome, settle_by_outcome, settle_retry, redelivery_of, send_copy, publish_copy, counted, get, lift.
  rewrite Hp, Hdecl. run_steps. rewrite Hcap, Hatt. destruct overflow_checks; [done|].
  rewrite (proj2 (N.leb_gt cap 0) H0). cbn -[republish]. rewrite Hcount. cbn -[republish].
  rewrite Hn.
  rewrite Hans. cbn -[republish]. destruct (republish _ _ _); cbn; do 2 eexists; (split; [done|]); (split; [done|]);
    by apply (count_after_insert (msg_headers m) 0 Hwf).
Qed.
End settle.

(** ** Witnesses *)

Definition accepts (_ : Call) : result unit AckError := Ok tt.
Definition route : RetryRoute := mk_route (fun _ => Ok tt) (Some "orders") "orders-sub".
Definition publishing_host : Host := mk_host (Some route) None false true.
Definition bare_host : Host := mk_host None None false true.
Definition first_delivery : Msg := mk_msg (as_bytes "order") HeaderMap.new None false accepts.
Definition worn_out : Msg :=
  mk_msg (as_bytes "order")
    (fst (HeaderMap.insert_header HeaderMap.new RETRY_COUNT_HEADER (as_bytes "18446744073709551615"))) None false accepts.
Definition capped : RetryDeclaration := mk_declaration (Some 3%N) (Some "orders.dead").

Lemma new_headers_wf : HeaderMap.wf HeaderMap.new.
Proof. split; constructor. Qed.

Lemma worn_out_wf : HeaderMap.wf (msg_headers worn_out).
Proof. apply HeaderMap.insert_header_spec, new_headers_wf. Qed.

Lemma reaction_runs_once_witness :
  exists s, settle_reacting true publishing_host capped first_delivery (Nack true) (Some (mk_reaction (OwnHook 1) (Some (OwnThen 2)))) =
    Some s /\ works (trace s) = [Then (OwnThen 2)].
Proof.
  destruct (settle_reacting true publishing_host capped first_delivery (Nack true)
    (Some (mk_reaction (OwnHook 1) (Some (OwnThen 2))))) as [s|] eqn:Hs; [|vm_compute in Hs; discriminate Hs].
  exists s. split; [reflexivity|]. pose proof (reaction_runs_once true _ _ _ _ _ _ Hs) as Hr.
  vm_compute in Hs. injection Hs as <-. destruct Hr as (_ & Hw & _). exact Hw.
Defined.

Definition rejecting : RetryDeclaration := mk_declaration (Some 2%N) None.

(** Three attempts and a dead letter; two and a rejection. *)
Lemma retry_attempts_are_capped_witness :
  (exists a, retried true 9 publishing_host capped "orders" first_delivery !! 2 = Some a /\ told a = [CNack false] /\
     exists hs, left_as a = [Sent (mk_copy "orders.dead" (as_bytes "order") hs)] /\ current_retry_count hs = 3%N) /\
  retried true 9 publishing_host rejecting "orders" first_delivery !! 1 = Some (mk_attempt [CNack false] []).
Proof.
  destruct (retry_attempts_are_capped true publishing_host capped first_delivery route 3 9) as [Hl Ha];
    [reflexivity|reflexivity|lia|unfold u32_max; lia|reflexivity|exact new_headers_wf|reflexivity|by left| |lia|].
  { intros to [= <-]. discriminate. }
  destruct (retry_attempts_are_capped true publishing_host rejecting first_delivery route 2 9) as [Hl' Ha'];
    [reflexivity|reflexivity|lia|unfold u32_max; lia|reflexivity|exact new_headers_wf|reflexivity|by left| |lia|].
  { intros to [=]. }
  split.
  - destruct (lookup_lt_is_Some_2 (retried true 9 publishing_host capped "orders" first_delivery) 2) as [a Hat];
      [apply (Nat.lt_le_trans _ 3); [lia|apply Nat.eq_le_incl; symmetry; exact Hl]|]. destruct (Ha 2 a Hat) as [Ht Hc]. exists a. split; [exact Hat|]. split; [exact Ht|exact Hc].
  - destruct (lookup_lt_is_Some_2 (retried true 9 publishing_host rejecting "orders" first_delivery) 1) as [a Hat];
      [apply (Nat.lt_le_trans _ 2); [lia|apply Nat.eq_le_incl; symmetry; exact Hl']|]. destruct (Ha' 1 a Hat) as [Ht Hc]. rewrite Hat. destruct a as [t c]. simpl in Ht, Hc.
    cbn in Hc. by subst.
Defined.

Lemma broker_moves_its_own_witness :
  exists s, settle_outcome true bare_host capped first_delivery (NackAfter 5) = Some s /\ calls (trace s) = [CNack true].
Proof.
  destruct (broker_moves_its_own true bare_host capped first_delivery 5 eq_refl) as (_ & _ & Hr).
  destruct (Hr eq_refl) as (s & Hs & Hc & _); [discriminate|]. by exists s.
Defined.

Lemma retry_count_overflow_witness :
  settle_outcome true publishing_host capped worn_out (Nack true) = None.
Proof.
  apply (retry_count_overflow true publishing_host capped worn_out route 3);
    [reflexivity|reflexivity|lia|reflexivity|exact worn_out_wf|vm_compute; reflexivity|reflexivity].
Defined.
End Settle.
