(* ===== verification/Rings.v ===== *)
(** * The rings of a [threads(n)] subscription ([crates/runtime/src/dispatch/rings.rs])

    The loop that reads the stream and the threads that drain their rings, as interleaved steps:
    one step per access to the shared state (a ring, a parked flag, [loop_waiting], a waker).  Each
    side stores its own flag or index before a [SeqCst] fence and loads the other's after it, so
    the accesses are modelled sequentially consistent.  A ring is a [BoundedQueue] of [RING] places
    whose two ends can be let go of; an [AtomicWaker] holds a task's waker or nothing, and a wake
    marks the task to be polled again.  The stream and the handler are the environment. *)
From S2P Require Import Prelude RustStd Queue.

Module Rings.

Arguments Nat.div : simpl never.

Definition RING : nat := 8.

Section rings.
Context {Q : Type -> Type} `{BoundedQueue Q} `{!BoundedQueueLaws Q}.
Context {Item : Type} (key : Item -> option bytes) (hash : bytes -> N).
Context (count : nat) (keyed : bool).

Definition key_index (k : bytes) (threads : nat) : nat := N.to_nat (hash k mod N.of_nat threads).

(** What [loop_waiting] holds: 0, the waited ring's index plus one, or [ANY]. *)
Inductive Waiting := Reading | One (index : nat) | ANY.
#[export] Instance Waiting_eq_dec : EqDecision Waiting.
Proof. solve_decision. Defined.

(** Where a thread is in [Drain::work] and, after a pop, in [Signals::freed]. *)
Inductive ThreadPc :=
  | Popping
  | FreedSlots (item : Item)
  | FreedLoad (held : nat) (item : Item)
  | FreedSwap (waiting : Waiting) (item : Item)
  | FreedWake (item : Item)
  | Handling (item : Item)
  | CheckAbandoned
  | CheckEmpty
  | Spinning
  | Registering
  | Flagging
  | Rechecking
  | Unflagging
  | Asleep
  | Leaving
  | LeavingStore
  | LeavingWake
  | Ended.

(** A thread with its ring, its flag and waker in [Signals], whether its task is marked to be
    polled, and the ghosts: all it was handed and all it popped. *)
Record Thread := mk_thread {
  pc : ThreadPc;
  ring : Q Item;
  loop_gone : bool;
  thread_gone : bool;
  parked : bool;
  waker : bool;
  notified : bool;
  pushed : list Item;
  popped : list Item;
}.

Definition with_pc (t : Thread) (p : ThreadPc) : Thread :=
  mk_thread p (ring t) (loop_gone t) (thread_gone t) (parked t) (waker t) (notified t) (pushed t) (popped t).
Definition with_parked (t : Thread) (b : bool) : Thread :=
  mk_thread (pc t) (ring t) (loop_gone t) (thread_gone t) b (waker t) (notified t) (pushed t) (popped t).
(** [AtomicWaker::register] and [wake]. *)
Definition registered (t : Thread) : Thread :=
  mk_thread (pc t) (ring t) (loop_gone t) (thread_gone t) (parked t) true (notified t) (pushed t) (popped t).
Definition woken (t : Thread) : Thread :=
  mk_thread (pc t) (ring t) (loop_gone t) (thread_gone t) (parked t) false (notified t || waker t) (pushed t) (popped t).
Definition polled (t : Thread) : Thread :=
  mk_thread (pc t) (ring t) (loop_gone t) (thread_gone t) (parked t) (waker t) false (pushed t) (popped t).

Definition new_thread : Thread := mk_thread Popping (bq_new RING) false false false false false [] [].

Definition is_empty (t : Thread) : bool := Nat.eqb (bq_len (ring t)) 0.
Definition is_full (t : Thread) : bool := Nat.eqb (bq_len (ring t)) RING.

(** What the loop and the threads share beside the rings. *)
Record Shared := mk_shared { loop_waiting : Waiting; loop_waker : bool; loop_notified : bool }.
Definition set_waiting (g : Shared) (w : Waiting) : Shared := mk_shared w (loop_waker g) (loop_notified g).
Definition wake_loop (g : Shared) : Shared :=
  mk_shared (loop_waiting g) false (loop_notified g || loop_waker g).

(** [Which], with the delivery in hand where the loop waits on one ring. *)
Inductive Which := OneRing (index : nat) (item : Item) | Next (start : nat).
Definition waits_as (w : Which) : Waiting := match w with OneRing index _ => One index | Next _ => ANY end.

(** Where the loop is in [Feed::read], [poll_room], [pushed] and [let_go]. *)
Inductive LoopPc :=
  | Top
  | Scan (w : Which) (offset : nat)
  | Register (w : Which)
  | Flag (w : Which)
  | Rescan (w : Which) (offset : nat)
  | Unflag (w : Which) (index : nat) (gone : bool)
  | Waits (w : Which)
  | Pull (picked : option nat)
  | CheckGone (index : nat) (item : Item)
  | Push (index : nat) (item : Item)
  | PushedLoad (index : nat)
  | PushedSwap (index : nat)
  | PushedWake (index : nat)
  | LettingGo (index : nat)
  | Closing (index : nat)
  | Done.

Record World := mk_world { threads : list Thread; shared : Shared; loop : LoopPc; turn : nat; taken : list Item }.

Definition initial : World := mk_world (replicate count new_thread) (mk_shared Reading false false) Top 0 [].

(** ** The steps of a thread *)

(** What the environment decides: whether a spin ends the wait, a handler panics. *)
Inductive Choice := Goes | Fails.

Definition wakes (index held : nat) (waiting : Waiting) : bool :=
  match waiting with
  | Reading => false
  | ANY => held <=? RING / 2
  | One one => Nat.eqb one index
  end.

Definition thread_step (g : Shared) (index : nat) (t : Thread) (c : Choice) : option (Shared * Thread) :=
  match pc t with
  | Popping =>
      match bq_pop (ring t) with
      | Some (item, q) =>
          Some (g, mk_thread (FreedSlots item) q (loop_gone t) (thread_gone t) (parked t) (waker t)
                     (notified t) (pushed t) (popped t ++ [item]))
      | None => Some (g, with_pc t CheckAbandoned)
      end
  | FreedSlots item => Some (g, with_pc t (FreedLoad (bq_len (ring t)) item))
  | FreedLoad held item =>
      let waiting := loop_waiting g in
      Some (g, with_pc t (if wakes index held waiting then FreedSwap waiting item else Handling item))
  | FreedSwap waiting item =>
      if decide (loop_waiting g = waiting) then Some (set_waiting g Reading, with_pc t (FreedWake item))
      else Some (g, with_pc t (Handling item))
  | FreedWake item => Some (wake_loop g, with_pc t (Handling item))
  | Handling item => Some (g, with_pc t (match c with Goes => Popping | Fails => Leaving end))
  | CheckAbandoned => Some (g, with_pc t (if loop_gone t then CheckEmpty else Spinning))
  | CheckEmpty => Some (g, with_pc t (if is_empty t then Leaving else Popping))
  | Spinning =>
      match c with
      | Goes => if negb (is_empty t) || loop_gone t then Some (g, with_pc t Popping) else None
      | Fails => Some (g, with_pc t Registering)
      end
  | Registering => Some (g, with_pc (registered t) Flagging)
  | Flagging => Some (g, with_pc (with_parked t true) Rechecking)
  | Rechecking => Some (g, with_pc t (if negb (is_empty t) || loop_gone t then Unflagging else Asleep))
  | Unflagging => Some (g, with_pc (with_parked t false) Popping)
  | Asleep => if notified t then Some (g, with_pc (polled t) Registering) else None
  | Leaving =>
      Some (g, mk_thread LeavingStore (ring t) (loop_gone t) true (parked t) (waker t) (notified t)
                 (pushed t) (popped t))
  | LeavingStore => Some (set_waiting g Reading, with_pc t LeavingWake)
  | LeavingWake => Some (wake_loop g, with_pc t Ended)
  | Ended => None
  end.

(** ** The steps of the loop *)

(** The ring at [offset] of a scan, if the scan goes that far. *)
Definition scanned (w : Which) (offset : nat) : option nat :=
  match w with
  | OneRing index _ => if Nat.eqb offset 0 then Some index else None
  | Next start => if offset <? count then Some ((start + offset) mod count) else None
  end.

(** Where the loop goes with the ring a scan found. *)
Definition found (w : Which) (index : nat) (gone : bool) : LoopPc :=
  if gone then LettingGo 0
  else match w with OneRing _ item => Push index item | Next _ => Pull (Some index) end.

(** What the stream answers a poll with: a delivery, an error, its end or the shutdown. *)
Inductive Pulled := Delivery (item : Item) | StreamError | Stops.

Definition set_thread (w : World) (i : nat) (t : Thread) (l : LoopPc) : World :=
  mk_world (<[i := t]> (threads w)) (shared w) l (turn w) (taken w).
Definition set_loop (w : World) (l : LoopPc) : World := mk_world (threads w) (shared w) l (turn w) (taken w).
Definition set_shared (w : World) (g : Shared) (l : LoopPc) : World :=
  mk_world (threads w) g l (turn w) (taken w).

(** The ring a delivery of a keyed subscription goes to. *)
Definition target (w : World) (item : Item) : nat :=
  match key item with Some k => key_index k count | None => turn w end.

Definition loop_step (w : World) (p : Pulled) : option World :=
  match loop w with
  | Top =>
      match p with
      | Stops => Some (set_loop w (LettingGo 0))
      | _ => Some (set_loop w (if keyed then Pull None else Scan (Next (turn w)) 0))
      end
  | Scan wh offset =>
      match scanned wh offset with
      | None => Some (set_loop w (Register wh))
      | Some i =>
          t ← threads w !! i;
          Some (set_loop w (if thread_gone t then found wh i true
                            else if is_full t then Scan wh (S offset) else found wh i false))
      end
  | Register wh =>
      Some (set_shared w (mk_shared (loop_waiting (shared w)) true (loop_notified (shared w))) (Flag wh))
  | Flag wh => Some (set_shared w (set_waiting (shared w) (waits_as wh)) (Rescan wh 0))
  | Rescan wh offset =>
      match scanned wh offset with
      | None => Some (set_loop w (Waits wh))
      | Some i =>
          t ← threads w !! i;
          Some (set_loop w (if thread_gone t then Unflag wh i true
                            else if is_full t then Rescan wh (S offset) else Unflag wh i false))
      end
  | Unflag wh i gone => Some (set_shared w (set_waiting (shared w) Reading) (found wh i gone))
  | Waits wh =>
      match wh, p with
      | Next _, Stops => Some (set_loop w (LettingGo 0))
      | _, _ =>
          if loop_notified (shared w)
          then Some (set_shared w (mk_shared (loop_waiting (shared w)) (loop_waker (shared w)) false) (Scan wh 0))
          else None
      end
  | Pull picked =>
      match p with
      | Delivery item =>
          let index := match picked with Some i => i | None => target w item end in
          let rotates := match picked with Some _ => true | None => bool_decide (key item = None) end in
          Some (mk_world (threads w) (shared w)
                  (match picked with Some _ => Push index item | None => CheckGone index item end)
                  (if rotates then (index + 1) mod count else turn w) (taken w ++ [item]))
      | StreamError => Some (set_loop w Top)
      | Stops => Some (set_loop w (LettingGo 0))
      end
  | CheckGone i item =>
      t ← threads w !! i; Some (set_loop w (if thread_gone t then LettingGo 0 else Push i item))
  | Push i item =>
      t ← threads w !! i;
      match bq_push (ring t) item with
      | Some q =>
          Some (set_thread w i (mk_thread (pc t) q (loop_gone t) (thread_gone t) (parked t) (waker t) (notified t)
                                  (pushed t ++ [item]) (popped t)) (PushedLoad i))
      | None => Some (set_loop w (Scan (OneRing i item) 0))
      end
  | PushedLoad i => t ← threads w !! i; Some (set_loop w (if parked t then PushedSwap i else Top))
  | PushedSwap i =>
      t ← threads w !! i;
      Some (set_thread w i (with_parked t false) (if parked t then PushedWake i else Top))
  | PushedWake i => t ← threads w !! i; Some (set_thread w i (woken t) Top)
  | LettingGo i =>
      match threads w !! i with
      | Some t =>
          Some (set_thread w i (mk_thread (pc t) (ring t) true (thread_gone t) (parked t) (waker t) (notified t)
                                  (pushed t) (popped t)) (LettingGo (S i)))
      | None => Some (set_loop w (Closing 0))
      end
  | Closing i =>
      match threads w !! i with
      | Some t => Some (set_thread w i (woken t) (Closing (S i)))
      | None => Some (set_loop w Done)
      end
  | Done => None
  end.

Inductive Actor := TheLoop (p : Pulled) | TheThread (i : nat) (c : Choice).

Definition step (w : World) (a : Actor) : option World :=
  match a with
  | TheLoop p => loop_step w p
  | TheThread i c =>
      t ← threads w !! i;
      '(g, t) ← thread_step (shared w) i t c;
      Some (mk_world (<[i := t]> (threads w)) g (loop w) (turn w) (taken w))
  end.

Inductive reachable : World -> Prop :=
  | reach_initial : reachable initial
  | reach_step w a w' : reachable w -> step w a = Some w' -> reachable w'.

(** A schedule, run from its first step on. *)
Definition run (w : World) (schedule : list Actor) : option World :=
  foldl (fun ow a => w ← ow; step w a) (Some w) schedule.

(** Nobody can go on, unless shutdown is raised. *)
Definition stalled (w : World) : Prop :=
  (forall p, p <> Stops -> step w (TheLoop p) = None) /\ forall i c, step w (TheThread i c) = None.

(** The deliveries a thread has finished with: all it popped but the one in its hand. *)
Definition at_hand (p : ThreadPc) : nat :=
  match p with FreedSlots _ | FreedLoad _ _ | FreedSwap _ _ | FreedWake _ | Handling _ => 1 | _ => 0 end.
Definition finished (t : Thread) : nat := length (popped t) - at_hand (pc t).

(** ** The invariants *)

Definition items (t : Thread) : list Item := bq_items (ring t).

(** The loop has let go of ring [i]; it has woken the thread of ring [i] for the last time. *)
Definition gone_by (l : LoopPc) (i : nat) : Prop :=
  match l with LettingGo k => i < k | Closing _ | Done => True | _ => False end.
Definition closed_by (l : LoopPc) (i : nat) : Prop :=
  match l with Closing k => i < k | Done => True | _ => False end.
Definition left_work (p : ThreadPc) : Prop :=
  match p with LeavingStore | LeavingWake | Ended => True | _ => False end.
(** The loop has pushed to ring [i] and is on its way to wake the thread. *)
Definition telling (l : LoopPc) (i : nat) : Prop :=
  match l with PushedLoad j | PushedSwap j | PushedWake j => j = i | _ => False end.

Record ring_ok (l : LoopPc) (i : nat) (t : Thread) : Prop := {
  ring_handed : pushed t = popped t ++ items t;
  ring_capacity : bq_capacity (ring t) = RING;
  ring_length : length (items t) <= RING;
  ring_let_go : loop_gone t = true <-> gone_by l i;
  ring_left : thread_gone t = true <-> left_work (pc t);
}.

(** A thread on its way to sleep has its waker where the loop will find it, and one that sleeps
    has nothing to do. *)
Definition park_ok (l : LoopPc) (i : nat) (t : Thread) : Prop :=
  match pc t with
  | Flagging => notified t = true \/ waker t = true
  | Rechecking => notified t = true \/ (waker t = true /\ (parked t = true \/ l = PushedWake i))
  | Asleep =>
      notified t = true \/
      (waker t = true /\ (parked t = true \/ l = PushedWake i) /\ (items t = [] \/ telling l i) /\
       ~ closed_by l i)
  | _ => True
  end.

Definition each (P : LoopPc -> nat -> Thread -> Prop) (w : World) : Prop :=
  forall i t, threads w !! i = Some t -> P (loop w) i t.

Lemma each_set_thread P w i t l :
  each P w -> P l i t -> (forall j u, j <> i -> P (loop w) j u -> P l j u) -> each P (set_thread w i t l).
Proof.
  intros Hw Hi Hj j u. cbn. intros [(-> & <- & _)|[? Hu]]%list_lookup_insert_Some; [done|].
  apply Hj; [done|by apply Hw].
Qed.

Lemma each_set_loop P w l : each P w -> (forall j u, P (loop w) j u -> P l j u) -> each P (set_loop w l).
Proof. intros Hw Hj j u Hu. by apply Hj, Hw. Qed.

Lemma each_thread P w g i t t' c :
  each P w -> threads w !! i = Some t -> thread_step (shared w) i t c = Some (g, t') ->
  (P (loop w) i t -> P (loop w) i t') ->
  each P (mk_world (<[i := t']> (threads w)) g (loop w) (turn w) (taken w)).
Proof.
  intros Hw Ht _ Hs j u. cbn. intros [(-> & <- & _)|[? Hu]]%list_lookup_insert_Some.
  - by apply Hs, Hw.
  - by apply Hw.
Qed.

Lemma is_empty_spec t : is_empty t = true <-> items t = [].
Proof.
  unfold is_empty, items. rewrite bq_len_items, Nat.eqb_eq. by rewrite length_zero_iff_nil.
Qed.

Lemma is_full_spec t : is_full t = true <-> length (items t) = RING.
Proof. unfold is_full, items. by rewrite bq_len_items, Nat.eqb_eq. Qed.

Definition thread_ok (l : LoopPc) (i : nat) (t : Thread) : Prop := ring_ok l i t /\ park_ok l i t.

Lemma thread_step_ring g i t c g' t' l :
  thread_step g i t c = Some (g', t') -> ring_ok l i t -> ring_ok l i t'.
Proof.
  intros Hs [Hh Hc Hl Hg Hd]. unfold thread_step in Hs.
  destruct (pc t) eqn:Hpc; cbn in Hd; repeat (case_match; try discriminate Hs);
    try discriminate Hs; injection Hs as <- <-; try (split; cbn; tauto).
  all: try match goal with H : bq_pop _ = Some _ |- _ => apply bq_pop_Some in H as [Hi Hc'] end.
  all: unfold items in *; split; cbn; rewrite ?Hi in *; try tauto; try congruence.
  - by rewrite Hh, <- app_assoc.
  - unfold items. cbn in *. lia.
Qed.

Lemma thread_step_park g i t c g' t' l :
  thread_step g i t c = Some (g', t') -> thread_ok l i t -> park_ok l i t'.
Proof.
  intros Hs [Hr Hp]. unfold thread_step in Hs. unfold park_ok in *.
  destruct (pc t) eqn:Hpc; repeat (case_in Hs; try discriminate Hs);
    try discriminate Hs; injection Hs as <- <-; cbn; auto; try tauto.
  match goal with E : _ || _ = false |- _ => apply orb_false_iff in E as [E1 E2] end.
  apply negb_false_iff, is_empty_spec in E1.
  destruct Hp as [Hn|[Hw Hpk]]; [by left|right]. repeat split; auto.
  intros Hcl. enough (loop_gone t = true) by congruence. apply (ring_let_go _ _ _ Hr).
  by destruct l.
Qed.

Lemma thread_step_ok g i t c g' t' l :
  thread_step g i t c = Some (g', t') -> thread_ok l i t -> thread_ok l i t'.
Proof. intros Hs Hok. split; [eapply thread_step_ring, Hok; eauto|by eapply thread_step_park]. Qed.

(** A loop step changes what it promised ring [i] only where it says so. *)
Lemma thread_ok_moves l l' i t :
  thread_ok l i t ->
  (gone_by l' i <-> gone_by l i) -> (telling l i -> telling l' i) ->
  (l = PushedWake i -> l' = PushedWake i) -> (closed_by l' i -> closed_by l i) ->
  thread_ok l' i t.
Proof.
  intros [[] Hp] Hg Ht Hw Hc. split.
  - split; [done..| |done]. by rewrite Hg.
  - unfold park_ok in *. destruct (pc t); try done; tauto.
Qed.

Definition plain (l : LoopPc) : Prop :=
  match l with
  | PushedLoad _ | PushedSwap _ | PushedWake _ | LettingGo _ | Closing _ | Done => False
  | _ => True
  end.

Lemma thread_ok_plain l l' i t :
  thread_ok l i t -> plain l -> plain l' \/ l' = LettingGo 0 \/ l' = PushedLoad i -> thread_ok l' i t.
Proof.
  intros Hok Hl Hl'. apply (thread_ok_moves l); [done|..];
    destruct l; try done; destruct l'; cbn in *; try tauto; try lia;
    destruct Hl' as [?|[[= ->]|[= ->]]]; intuition (try lia; try congruence).
Qed.

Lemma found_plain wh i gone : plain (found wh i gone) \/ found wh i gone = LettingGo 0.
Proof. destruct gone, wh; cbn; tauto. Qed.

Lemma loop_step_plain w p w' :
  each thread_ok w -> loop_step w p = Some w' -> plain (loop w) -> each thread_ok w'.
Proof.
  intros Hw Hs Hl. unfold loop_step in Hs.
  destruct (loop w) as [|wh o|wh|wh|wh o|wh i gone|wh|picked|i x|i x|?|?|?|?|?|] eqn:El; try done.
  all: repeat (case_match; try discriminate Hs); try discriminate Hs.
  all: try (apply bind_Some in Hs as (t & Ht & Hs)).
  all: try (injection Hs as <-; intros j u Hu; cbn in *;
    apply (thread_ok_plain (loop w)); rewrite ?El; [rewrite <- El; by apply Hw|done|];
    repeat case_match; cbn; auto using found_plain; try tauto;
    destruct (found_plain wh i gone); tauto).
  destruct (bq_push (ring t) x) as [q|] eqn:Eq; injection Hs as <-.
  - apply bq_push_Some in Eq as (Hi & Hc & Hroom). apply each_set_thread; [done| |].
    + destruct (Hw i t Ht) as [[Hh Hcap Hlen Hg Hd] Hp]. rewrite El in *. split.
      * split; unfold items in *; cbn in *; rewrite ?Hi; [by rewrite Hh, app_assoc|congruence| |tauto|done].
        rewrite length_app. cbn. lia.
      * unfold park_ok in *. cbn in *. destruct (pc t); try done; cbn in *.
        -- destruct Hp as [|(? & [?|[=]])]; tauto.
        -- destruct Hp as [|(? & [?|[=]] & _)]; tauto.
    + intros j u Hj Hu. apply (thread_ok_moves (loop w)); rewrite ?El in *; cbn; done.
  - apply each_set_loop; [done|]. intros j u. rewrite El. intros Hu.
    apply (thread_ok_plain (Push i x)); [done..|by left].
Qed.

Lemma loop_step_signals w p w' :
  each thread_ok w -> loop_step w p = Some w' -> ~ plain (loop w) -> each thread_ok w'.
Proof.
  intros Hw Hs Hl. unfold loop_step in Hs.
  destruct (loop w) as [|wh o|wh|wh|wh o|wh i gone|wh|picked|i x|i x|i|i|i|i|i|] eqn:El; try (by exfalso; apply Hl).
  - apply bind_Some in Hs as (t & Ht & [= <-]). intros j u Hu. pose proof (Hw j u Hu) as Hok.
    cbn. rewrite El in Hok. destruct (decide (j = i)) as [->|Hj].
    + assert (u = t) as -> by (cbn in Hu; congruence).
      destruct (parked t) eqn:Ep; [by apply (thread_ok_moves (PushedLoad i))|].
      destruct Hok as [[] Hp]. split; [done|]. unfold park_ok in *.
      destruct (pc t); try done; cbn in *; rewrite Ep in Hp; intuition congruence.
    + apply (thread_ok_moves (PushedLoad i)); destruct (parked t); cbn; try done; congruence.
  - apply bind_Some in Hs as (t & Ht & [= <-]). apply each_set_thread; [done| |].
    + destruct (Hw i t Ht) as [[] Hp]. rewrite El in *.
      destruct (parked t) eqn:Ep; split; try done; unfold park_ok in *; cbn;
        destruct (pc t); try done; cbn in *; rewrite ?Ep in Hp; intuition congruence.
    + intros j u Hj Hu. rewrite El in Hu.
      apply (thread_ok_moves (PushedSwap i)); destruct (parked t); cbn; try done; congruence.
  - apply bind_Some in Hs as (t & Ht & [= <-]). apply each_set_thread; [done| |].
    + destruct (Hw i t Ht) as [[] Hp]. rewrite El in *. split; [done|].
      unfold park_ok in *; cbn. destruct (pc t); try done; cbn in *;
        intuition (left; rewrite ?orb_true_iff; auto).
    + intros j u Hj Hu. rewrite El in Hu. apply (thread_ok_moves (PushedWake i)); cbn; try done; congruence.
  - destruct (threads w !! i) as [t|] eqn:Ht; injection Hs as <-.
    + apply each_set_thread; [done| |].
      * destruct (Hw i t Ht) as [[] Hp]. rewrite El in *. split.
        -- split; try done. cbn. split; [lia|done].
        -- unfold park_ok in *; cbn in *. destruct (pc t); try done; intuition congruence.
      * intros j u Hj Hu. rewrite El in Hu. apply (thread_ok_moves (LettingGo i)); cbn; try done; try lia.
    + intros j u Hu. pose proof (Hw j u Hu) as Hok. rewrite El in Hok. apply (thread_ok_moves (LettingGo i)); cbn; try done.
      * split; [|done]. intros _. apply lookup_lt_Some in Hu. apply lookup_ge_None in Ht. cbn in Hu. lia.
      * lia.
  - destruct (threads w !! i) as [t|] eqn:Ht; injection Hs as <-.
    + apply each_set_thread; [done| |].
      * destruct (Hw i t Ht) as [[] Hp]. rewrite El in *. split; [done|].
        unfold park_ok in *; cbn in *. destruct (pc t); try done; cbn;
        intuition (left; rewrite ?orb_true_iff; auto).
      * intros j u Hj Hu. rewrite El in Hu. apply (thread_ok_moves (Closing i)); cbn; try done; try lia.
    + intros j u Hu. pose proof (Hw j u Hu) as Hok. rewrite El in Hok. apply (thread_ok_moves (Closing i)); cbn; try done.
      intros _. apply lookup_lt_Some in Hu. apply lookup_ge_None in Ht. cbn in Hu. lia.
Qed.

Lemma plain_dec l : {plain l} + {~ plain l}.
Proof. destruct l; (left; exact I) || (right; tauto). Defined.

Lemma initial_ok : each thread_ok initial.
Proof.
  intros i t. cbn. intros [-> _]%lookup_replicate.
  split; [|done]. destruct (bq_new_items (A := Item) RING) as [Hi Hc].
  split; unfold items; cbn; rewrite ?Hi, ?Hc; cbn; try done; try lia.
Qed.

Lemma rings_reachable_ok w : reachable w -> each thread_ok w.
Proof.
  induction 1 as [|w [p|i c] w' Hr IH Hs]; [exact initial_ok| |].
  - cbn in Hs. destruct (plain_dec (loop w)); [by eapply loop_step_plain|by eapply loop_step_signals].
  - cbn in Hs. apply bind_Some in Hs as (t & Ht & Hs). apply bind_Some in Hs as ([g t'] & Hs & [= <-]).
    eapply each_thread; [done..|]. by eapply thread_step_ok.
Qed.

(** *** The loop's own bookkeeping *)

Definition room (w : World) (i : nat) : Prop := exists t, threads w !! i = Some t /\ length (items t) < RING.

Definition which_ok (wh : Which) : Prop :=
  match wh with OneRing i _ => keyed = true /\ i < count | Next start => keyed = false /\ start < count end.

Record loop_ok (w : World) : Prop := {
  loop_threads : length (threads w) = count;
  loop_turn : turn w < count;
  loop_at :
    match loop w with
    | Scan wh _ | Register wh | Flag wh | Rescan wh _ | Waits wh => which_ok wh
    | Unflag wh i gone =>
        which_ok wh /\ i < count /\ (gone = false -> room w i) /\
        match wh with OneRing j _ => i = j | Next _ => True end
    | Pull None => keyed = true
    | Pull (Some i) => keyed = false /\ room w i
    | CheckGone i _ => keyed = true /\ i < count
    | Push i _ => i < count /\ (keyed = false -> room w i)
    | PushedLoad i | PushedSwap i | PushedWake i => i < count
    | _ => True
    end;
}.

Lemma scanned_lt wh o i : which_ok wh -> scanned wh o = Some i -> i < count.
Proof.
  destruct wh as [j x|start]; cbn; intros [_ Hi]; case_match; intros [= <-]; [done|].
  apply Nat.mod_upper_bound. lia.
Qed.

Lemma scanned_one i x o j : scanned (OneRing i x) o = Some j -> j = i.
Proof. cbn. by case_match; intros [= <-]. Qed.

Lemma thread_step_items g i t c g' t' :
  thread_step g i t c = Some (g', t') -> length (items t') <= length (items t).
Proof.
  intros Hs. unfold thread_step in Hs.
  destruct (pc t) eqn:Hpc; repeat (case_in Hs; try discriminate Hs); try discriminate Hs;
    injection Hs as <- <-; try done.
  match goal with H : bq_pop _ = Some _ |- _ => apply bq_pop_Some in H as [Hi _] end.
  unfold items. rewrite Hi. cbn. lia.
Qed.

Lemma room_thread w i t c g t' j :
  threads w !! i = Some t -> thread_step (shared w) i t c = Some (g, t') -> room w j ->
  room (mk_world (<[i := t']> (threads w)) g (loop w) (turn w) (taken w)) j.
Proof.
  intros Ht Hs (u & Hu & Hl). unfold room. cbn. destruct (decide (i = j)) as [->|Hij].
  - rewrite list_lookup_insert_eq by (by eapply lookup_lt_Some). eexists. split; [done|].
    apply thread_step_items in Hs. assert (u = t) by congruence. subst. lia.
  - rewrite list_lookup_insert_ne by done. eauto.
Qed.

Lemma key_index_lt k : 0 < count -> key_index k count < count.
Proof. intros Hc. unfold key_index. pose proof (N.mod_lt (hash k) (N.of_nat count)). lia. Qed.

Lemma room_scanned w i t : loop_ok w -> each thread_ok w ->
  threads w !! i = Some t -> is_full t = false -> room w i.
Proof.
  intros _ Hw Ht Hf. exists t. split; [done|].
  destruct (Hw i t Ht) as [[_ _ Hl _ _] _]. assert (length (items t) <> RING); [|lia].
  rewrite <- is_full_spec. by rewrite Hf.
Qed.

Lemma loop_step_loop_ok w p w' :
  each thread_ok w -> loop_ok w -> loop_step w p = Some w' -> loop_ok w'.
Proof.
  intros Hw Hok Hs. pose proof Hok as [Hn Ht Ha]. assert (Hc : 0 < count) by lia. unfold loop_step in Hs.
  destruct (loop w) as [|wh o|wh|wh|wh o|wh i gone|wh|picked|i x|i x|i|i|i|i|i|] eqn:El.
  - destruct p; injection Hs as <-; split; cbn; try done; destruct keyed eqn:Ek; done.
  - destruct (scanned wh o) as [i|] eqn:Es.
    + apply bind_Some in Hs as (t & Hi & [= <-]). split; cbn; try done.
      pose proof (scanned_lt _ _ _ Ha Es).
      destruct (thread_gone t); [done|]. destruct (is_full t) eqn:Ef; [done|].
      pose proof (room_scanned w i t Hok Hw Hi Ef). destruct wh; cbn in *; tauto.
    + injection Hs as <-. by split.
  - injection Hs as <-. by split.
  - injection Hs as <-. by split.
  - destruct (scanned wh o) as [i|] eqn:Es; [|by injection Hs as <-].
    apply bind_Some in Hs as (t & Hi & [= <-]). split; cbn; try done.
    pose proof (scanned_lt _ _ _ Ha Es).
    destruct (thread_gone t); [|destruct (is_full t) eqn:Ef; [done|]].
    + split_and!; try done. destruct wh; [by eapply scanned_one|done].
    + split_and!; try done; [|destruct wh; [by eapply scanned_one|done]].
      intros _. by apply (room_scanned w i t).
  - injection Hs as <-. destruct Ha as (Hwh & Hi & Hg & He). split; cbn; try done.
    destruct gone; [done|]. specialize (Hg eq_refl). destruct wh; cbn in *; tauto.
  - destruct wh, p; try (destruct (loop_notified (shared w)); [|done]); injection Hs as <-; by split.
  - destruct p; injection Hs as <-; try by split.
    destruct picked as [i|]; split; cbn; try done.
    + by apply Nat.mod_upper_bound; lia.
    + destruct Ha as [? Hr]. split; [|done]. destruct Hr as (t & Hi & _).
      apply lookup_lt_Some in Hi. lia.
    + case_match; [|done]. apply Nat.mod_upper_bound. lia.
    + split; [done|]. unfold target. case_match; [by apply key_index_lt|done].
  - apply bind_Some in Hs as (t & Hi & [= <-]). destruct Ha. split; cbn; try done.
    destruct (thread_gone t); [done|]. split; [done|congruence].
  - apply bind_Some in Hs as (t & Hi & Hs). destruct Ha as [Hlt Hr].
    destruct (bq_push (ring t) x) as [q|] eqn:Eq; injection Hs as <-; split; cbn; try done.
    + by rewrite length_insert.
    + destruct keyed eqn:Ek; [done|]. destruct (Hr eq_refl) as (u & Hu & Hroom).
      assert (u = t) by congruence. subst u.
      destruct (Hw i t Hi) as [[_ Hcap _ _ _] _].
      destruct (bq_push_room (ring t) x) as (q & Hq & _); [unfold items in Hroom; lia|congruence].
  - apply bind_Some in Hs as (t & Hi & [= <-]). split; cbn; try done. by destruct (parked t).
  - apply bind_Some in Hs as (t & Hi & [= <-]). split; cbn; rewrite ?length_insert; try done. by destruct (parked t).
  - apply bind_Some in Hs as (t & Hi & [= <-]). split; cbn; rewrite ?length_insert; done.
  - destruct (threads w !! i); injection Hs as <-; split; cbn; rewrite ?length_insert; done.
  - destruct (threads w !! i); injection Hs as <-; split; cbn; rewrite ?length_insert; done.
  - done.
Qed.

Lemma reachable_loop_ok w : 0 < count -> reachable w -> loop_ok w.
Proof.
  intros Hc. induction 1 as [|w [p|i c] w' Hr IH Hs].
  - split; cbn; [by rewrite length_replicate|done|done].
  - cbn in Hs. eapply loop_step_loop_ok; [by apply rings_reachable_ok|done..].
  - cbn in Hs. apply bind_Some in Hs as (t & Ht & Hs). apply bind_Some in Hs as ([g t'] & Hs & [= <-]).
    destruct IH as [Hn Htu Ha]. split; cbn; [by rewrite length_insert|done|].
    destruct (loop w); try done; repeat case_match; intuition eauto using room_thread.
Qed.

(** *** What the loop waits for *)

Definition waking (p : ThreadPc) : Prop :=
  match p with FreedWake _ | LeavingWake => True | _ => False end.

#[export] Instance waking_dec p : Decision (waking p).
Proof. destruct p; (left; exact I) || (right; tauto). Defined.

(** The loop's task is marked to be polled, or a thread is about to wake it. *)
Definition told (w : World) : Prop :=
  loop_notified (shared w) = true \/ exists k t, threads w !! k = Some t /\ waking (pc t).

Definition has_registered (l : LoopPc) : Prop :=
  match l with Flag _ | Rescan _ _ | Waits _ => True | _ => False end.
Definition waiting_for (l : LoopPc) : option Which :=
  match l with Rescan wh _ | Waits wh => Some wh | _ => None end.
(** The rings the wait has found taken since it raised its flag. *)
Definition covers (l : LoopPc) (wh : Which) (i : nat) : Prop :=
  match l with
  | Rescan wh' o => wh' = wh /\ exists o', o' < o /\ scanned wh o' = Some i
  | Waits wh' => wh' = wh /\ exists o', scanned wh o' = Some i
  | _ => False
  end.

(** Why ring [i] does not let the loop go on yet: its thread has not drained it as far as the wait
    asks for, or has and is on its way to the loop's flag. *)
Definition holds_up (wh : Which) (i : nat) (t : Thread) : Prop :=
  (thread_gone t = true -> pc t = LeavingStore) /\
  ((exists x, pc t = FreedSlots x) \/
  match wh with
  | OneRing _ _ =>
      length (items t) = RING \/ (exists h x, pc t = FreedLoad h x) \/ exists x, pc t = FreedSwap (One i) x
  | Next _ =>
      RING / 2 < length (items t) \/ (exists h x, pc t = FreedLoad h x /\ h <= RING / 2) \/
      exists x, pc t = FreedSwap ANY x
  end).

Record wait_ok (w : World) : Prop := {
  wait_waker : has_registered (loop w) -> loop_waker (shared w) = true \/ loop_notified (shared w) = true;
  wait_flag wh : waiting_for (loop w) = Some wh -> told w \/ loop_waiting (shared w) = waits_as wh;
  wait_rings wh i t : covers (loop w) wh i -> threads w !! i = Some t -> told w \/ holds_up wh i t;
}.

Lemma thread_step_shared g i t c g' t' :
  thread_step g i t c = Some (g', t') ->
  (g' = g /\ ~ waking (pc t)) \/ (g' = wake_loop g /\ waking (pc t)) \/
  (g' = set_waiting g Reading /\ waking (pc t')).
Proof.
  intros Hs. unfold thread_step in Hs.
  destruct (pc t) eqn:Hpc; repeat (case_in Hs; try discriminate Hs); try discriminate Hs;
    injection Hs as <- <-; cbn; tauto.
Qed.

Lemma thread_step_holds_up g i t c g' t' wh :
  thread_step g i t c = Some (g', t') -> (forall j x, wh = OneRing j x -> j = i) ->
  loop_waiting g = waits_as wh -> holds_up wh i t -> waking (pc t') \/ waking (pc t) \/ holds_up wh i t'.
Proof.
  intros Hs Hwh Hg [Hl Hh]. unfold thread_step in Hs.
  destruct (pc t) eqn:Hpc; try (by right; left).
  5-15: repeat (case_in Hs; try discriminate Hs); try discriminate Hs; injection Hs as <- <-;
    try (by left); right; right; (split; cbn; [first [done|by intros ?%Hl]|]);
    unfold items in *; cbn; destruct wh; naive_solver.
  - destruct (bq_pop (ring t)) as [[y q]|] eqn:Eq; injection Hs as <- <-; right; right.
    + split; [by intros ?%Hl|]. left. cbn. eauto.
    + split; cbn; [by intros ?%Hl|]. destruct wh; naive_solver.
  - injection Hs as <- <-. right; right. split; cbn; [by intros ?%Hl|]. right.
    destruct wh; [eauto|]. unfold items. rewrite bq_len_items. cbn -[RING].
    destruct (decide (length (bq_items (ring t)) <= RING / 2)); [right; left; by eauto|left; lia].
  - destruct Hh as [(z & [=])|Hh].
    destruct (wakes i held (loop_waiting g)) eqn:Ew; injection Hs as <- <-; right; right;
      (split; cbn; [by intros ?%Hl|]); rewrite Hg in *; destruct wh as [k y|st]; cbn in *; right.
    + rewrite (Hwh _ _ eq_refl). eauto.
    + eauto.
    + rewrite (Hwh _ _ eq_refl), Nat.eqb_refl in Ew. done.
    + apply Nat.leb_gt in Ew. left. destruct Hh as [?|[(h & z & [= -> ->] & ?)|(z & [=])]]; [done|lia].
  - destruct (decide (loop_waiting g = waiting)) as [Heq|Hne]; injection Hs as <- <-; [by left|].
    right; right. split; cbn; [by intros ?%Hl|].
    destruct wh as [k y|st]; cbn in *; [rewrite (Hwh _ _ eq_refl) in *|]; naive_solver.
Qed.

Lemma told_thread w i t c g t' :
  has_registered (loop w) -> wait_ok w -> threads w !! i = Some t ->
  thread_step (shared w) i t c = Some (g, t') -> told w \/ waking (pc t') ->
  told (mk_world (<[i := t']> (threads w)) g (loop w) (turn w) (taken w)).
Proof.
  intros Hreg Hok Ht Hs Htold. pose proof (wait_waker w Hok Hreg) as Hk.
  unfold told. cbn. assert (Hi := lookup_lt_Some _ _ _ Ht).
  destruct (thread_step_shared _ _ _ _ _ _ Hs) as [[-> Hn]|[[-> Hn]|[-> Hn]]]; cbn.
  - destruct Htold as [[?|(k & u & Hu & Hw)]|?]; [by left| |].
    + destruct (decide (k = i)) as [->|Hki]; [by assert (u = t) as -> by congruence|].
      right. exists k, u. by rewrite list_lookup_insert_ne.
    + right. exists i, t'. by rewrite list_lookup_insert_eq.
  - left. rewrite orb_true_iff. tauto.
  - right. exists i, t'. by rewrite list_lookup_insert_eq.
Qed.

Lemma covers_one l wh i : covers l wh i -> forall j x, wh = OneRing j x -> j = i.
Proof.
  intros Hc j x ->. destruct l; cbn -[scanned] in Hc; try done;
    [destruct Hc as (_ & o & _ & Ho)|destruct Hc as (_ & o & Ho)];
    symmetry; by eapply scanned_one.
Qed.

Lemma waiting_registered l wh : waiting_for l = Some wh -> has_registered l.
Proof. by destruct l. Qed.

Lemma covers_waiting l wh i : covers l wh i -> waiting_for l = Some wh.
Proof. destruct l; cbn -[scanned]; try done; by intros [-> _]. Qed.

Lemma thread_step_wait w i t c g t' :
  wait_ok w -> threads w !! i = Some t -> thread_step (shared w) i t c = Some (g, t') ->
  wait_ok (mk_world (<[i := t']> (threads w)) g (loop w) (turn w) (taken w)).
Proof.
  intros Hok Ht Hs. pose proof (thread_step_shared _ _ _ _ _ _ Hs) as Hg. split; cbn.
  - intros Hreg. destruct (wait_waker w Hok Hreg) as [Hk|Hk];
      destruct Hg as [[-> _]|[[-> _]|[-> _]]]; cbn; rewrite ?Hk, ?orb_true_r, ?orb_true_l; tauto.
  - intros wh Hwh. destruct (wait_flag w Hok wh Hwh) as [Hw|Hw].
    + left. eapply told_thread; eauto using waiting_registered.
    + destruct Hg as [[-> _]|[[-> _]|[_ Hwk]]]; [by right..|].
      left. eapply told_thread; eauto using waiting_registered.
  - intros wh j u Hc Hu. pose proof (covers_waiting _ _ _ Hc) as Hwh.
    apply list_lookup_insert_Some in Hu as [(<- & <- & _)|[Hne Hu]].
    + destruct (wait_flag w Hok wh Hwh) as [Hw|Hw];
        [left; eapply told_thread; eauto using waiting_registered|].
      destruct (wait_rings w Hok wh i t Hc Ht) as [Hr|Hr];
        [left; eapply told_thread; eauto using waiting_registered|].
      destruct (thread_step_holds_up _ _ _ _ _ _ wh Hs (covers_one _ _ _ Hc) Hw Hr) as [|[]];
        [left; eapply told_thread; eauto using waiting_registered..|by right].
      left. right. by exists i, t.
    + destruct (wait_rings w Hok wh j u Hc Hu) as [Hr|Hr]; [|by right].
      left. eapply told_thread; eauto using waiting_registered.
Qed.

Lemma scanned_before wh o o' i : scanned wh o = None -> scanned wh o' = Some i -> o' < o.
Proof.
  destruct wh; cbn.
  - destruct (Nat.eqb_spec o 0), (Nat.eqb_spec o' 0); try done; lia.
  - destruct (Nat.ltb_spec o count), (Nat.ltb_spec o' count); try done; lia.
Qed.

Lemma wait_ok_off w : ~ has_registered (loop w) -> wait_ok w.
Proof.
  intros Hr. split; [done| |].
  - intros wh Hwh. by destruct Hr; eapply waiting_registered.
  - intros wh i t Hc. by destruct Hr; eapply waiting_registered, covers_waiting.
Qed.

(** The second look at the rings: each one found full, and its thread there, holds the wait up. *)
Lemma rescan_wait w wh o :
  each thread_ok w -> wait_ok w -> loop w = Rescan wh o ->
  (forall i t, scanned wh o = Some i -> threads w !! i = Some t -> is_full t = true /\ thread_gone t = false) ->
  wait_ok (set_loop w (Rescan wh (S o))).
Proof.
  intros Hw [Hk Hf Hr] El Hscan. rewrite El in *. split; cbn -[scanned]; [done|done|].
  intros wh' i t (<- & o' & Ho' & Hsc) Ht. destruct (decide (o' = o)) as [->|].
  - destruct (Hscan i t Hsc Ht) as [Hfull Hgone]. apply is_full_spec in Hfull. right.
    split; [by rewrite Hgone|]. right. destruct wh; [by left|left; rewrite Hfull].
    apply Nat.div_lt; unfold RING; lia.
  - apply (Hr wh i t); [|done]. split; [done|]. exists o'. split; [lia|done].
Qed.

Lemma loop_step_wait w p w' :
  each thread_ok w -> wait_ok w -> loop_step w p = Some w' -> wait_ok w'.
Proof.
  intros Hw Hok Hs. unfold loop_step in Hs.
  destruct (loop w) as [|wh o|wh|wh|wh o|wh i gone|wh|picked|i x|i x|i|i|i|i|i|] eqn:El; cbn -[scanned] in Hs.
  3: { injection Hs as <-. split; cbn; [by left|done|done]. }
  3: { injection Hs as <-. pose proof (wait_waker w Hok) as Hk. rewrite El in Hk. split; cbn -[scanned]; [done| |].
       - intros wh' [= <-]. by right.
       - intros wh' i t (_ & o' & Ho' & _). lia. }
  3: { destruct (scanned wh o) as [i|] eqn:Es.
       - apply bind_Some in Hs as (t & Ht & [= <-]).
         destruct (thread_gone t) eqn:Eg; [by apply wait_ok_off; tauto|].
         destruct (is_full t) eqn:Ef; [|by apply wait_ok_off; tauto].
         apply rescan_wait; [done..|]. intros j u Hj Hu. split; congruence.
       - injection Hs as <-. destruct Hok as [Hk Hf Hr]. rewrite El in *. split; cbn -[scanned]; [done|done|].
         intros wh' i t (<- & o' & Ho') Ht. apply (Hr wh i t); [|done]. split; [done|].
         exists o'. split; [by eapply scanned_before|done]. }
  all: repeat (case_in Hs; try discriminate Hs); try discriminate Hs.
  all: try (apply bind_Some in Hs as (t & Ht & Hs)).
  all: repeat (case_in Hs; try discriminate Hs); try discriminate Hs.
  all: injection Hs as <-; apply wait_ok_off; cbn; try tauto.
  all: repeat case_match; cbn; try tauto.
  all: unfold found; repeat case_match; cbn; tauto.
Qed.

Lemma reachable_wait w : reachable w -> wait_ok w.
Proof.
  induction 1 as [|w [p|i c] w' Hr IH Hs]; [by apply wait_ok_off; intros []| |]; cbn in Hs.
  - eapply loop_step_wait; [by apply rings_reachable_ok|done..].
  - apply bind_Some in Hs as (t & Ht & Hs). apply bind_Some in Hs as ([g t'] & Hs & [= <-]).
    by eapply thread_step_wait.
Qed.

(** *** Where the deliveries are *)

Definition hand_to (l : LoopPc) : option (nat * Item) :=
  match l with
  | Scan (OneRing i x) _ | Register (OneRing i x) | Flag (OneRing i x) | Rescan (OneRing i x) _
  | Unflag (OneRing i x) _ _ | Waits (OneRing i x) | CheckGone i x | Push i x => Some (i, x)
  | _ => None
  end.
(** The delivery the loop holds. *)
Definition in_hand (l : LoopPc) : list Item := match hand_to l with Some (_, x) => [x] | None => [] end.
Definition stopped (l : LoopPc) : Prop :=
  match l with LettingGo _ | Closing _ | Done => True | _ => False end.
Definition some_gone (w : World) : Prop := exists i t, threads w !! i = Some t /\ thread_gone t = true.
Definition has (k : bytes) (x : Item) : bool := bool_decide (key x = Some k).

(** What was read and not pushed: the delivery in hand, or the one the loop stopped with because
    a thread was gone. *)
Definition unpushed (w : World) (rest : list Item) : Prop :=
  rest = in_hand (loop w) \/ (stopped (loop w) /\ length rest <= 1 /\ some_gone w /\ keyed = true).

Record handed (w : World) (rest : list Item) : Prop := {
  handed_all : taken w ≡ₚ List.concat (pushed <$> threads w) ++ rest;
  handed_rest : unpushed w rest;
  handed_keyed k t : keyed = true -> threads w !! key_index k count = Some t ->
    List.filter (has k) (taken w) = List.filter (has k) (pushed t) ++ List.filter (has k) rest;
  handed_alone i t x k : keyed = true -> threads w !! i = Some t -> x ∈ pushed t -> key x = Some k ->
    i = key_index k count;
  handed_target i x k : keyed = true -> hand_to (loop w) = Some (i, x) -> key x = Some k ->
    i = key_index k count;
  handed_gone wh i : loop w = Unflag wh i true -> some_gone w;
}.

Lemma thread_step_keeps g i t c g' t' :
  thread_step g i t c = Some (g', t') ->
  pushed t' = pushed t /\ (thread_gone t = true -> thread_gone t' = true).
Proof.
  intros Hs. unfold thread_step in Hs.
  destruct (pc t); repeat (case_in Hs; try discriminate Hs); try discriminate Hs;
    by injection Hs as <- <-.
Qed.

(** A change of a thread that keeps what it was handed. *)
Lemma pushed_insert w i t t' :
  threads w !! i = Some t -> pushed t' = pushed t -> pushed <$> <[i := t']> (threads w) = pushed <$> threads w.
Proof.
  intros Ht Hp. rewrite list_fmap_insert, Hp. apply list_insert_id.
  by rewrite list_lookup_fmap, Ht.
Qed.

Lemma some_gone_insert w i t t' g l :
  threads w !! i = Some t -> (thread_gone t = true -> thread_gone t' = true) -> some_gone w ->
  some_gone (mk_world (<[i := t']> (threads w)) g l (turn w) (taken w)).
Proof.
  intros Ht Hg (j & u & Hu & Hgone). destruct (decide (i = j)) as [->|Hij].
  - exists j, t'. cbn. rewrite list_lookup_insert_eq by (by eapply lookup_lt_Some).
    split; [done|]. apply Hg. congruence.
  - exists j, u. cbn. by rewrite list_lookup_insert_ne.
Qed.

(** A step that pushes nothing and reads nothing, and keeps the delivery in hand. *)
Lemma handed_same w rest i t t' g l :
  handed w rest -> threads w !! i = Some t -> pushed t' = pushed t ->
  (thread_gone t = true -> thread_gone t' = true) ->
  (hand_to l = hand_to (loop w) /\ (stopped (loop w) -> stopped l) \/
   stopped l /\ (hand_to (loop w) <> None -> some_gone w /\ keyed = true)) ->
  (forall wh j, l = Unflag wh j true -> some_gone w) ->
  handed (mk_world (<[i := t']> (threads w)) g l (turn w) (taken w)) rest.
Proof.
  intros Hw Ht Hp Hg Hl Hu.
  assert (Hlook : forall j u, <[i := t']> (threads w) !! j = Some u ->
    exists u', threads w !! j = Some u' /\ pushed u = pushed u').
  { intros j u [(-> & <- & _)|[_ Hj]]%list_lookup_insert_Some; eauto. }
  split; cbn.
  - rewrite (pushed_insert w i t t') by done. apply Hw.
  - unfold unpushed. cbn. destruct (handed_rest _ _ Hw) as [->|(Hs & Hlen & Hgone & Hkd)].
    + destruct Hl as [[Hh _]|[Hs Hh]]; [left; unfold in_hand; by rewrite Hh|].
      unfold in_hand. destruct (hand_to (loop w)) as [[j x]|] eqn:E.
      * destruct Hh as [Hgone Hkd]; [done|].
        right. split_and!; [done|done| |done]. eapply some_gone_insert; eauto.
      * left. by destruct l.
    + right. split_and!; [tauto|done| |done]. eapply some_gone_insert; eauto.
  - intros k u Hk (u' & Hu' & ->)%Hlook. by apply Hw.
  - intros j u x k Hk (u' & Hu' & ->)%Hlook. by eapply Hw.
  - intros j x k Hk Hh. destruct Hl as [[Hh' _]|[Hs _]]; [rewrite Hh' in Hh; by eapply (handed_target _ _ Hw)|by destruct l].
  - intros wh j Hj. eapply some_gone_insert; eauto.
Qed.

Lemma handed_same_loop w rest g l :
  handed w rest ->
  (hand_to l = hand_to (loop w) /\ (stopped (loop w) -> stopped l) \/
   stopped l /\ (hand_to (loop w) <> None -> some_gone w /\ keyed = true)) ->
  (forall wh j, l = Unflag wh j true -> some_gone w) ->
  handed (mk_world (threads w) g l (turn w) (taken w)) rest.
Proof.
  intros Hw Hl Hu. split; cbn; try by apply Hw.
  - unfold unpushed. cbn. destruct (handed_rest _ _ Hw) as [->|(Hs & Hlen & Hgone & Hkd)].
    + destruct Hl as [[Hh _]|[Hs Hh]]; [left; unfold in_hand; by rewrite Hh|].
      unfold in_hand. destruct (hand_to (loop w)) as [[j x]|] eqn:E.
      * right. split_and!; [done|done|by apply Hh..].
      * left. by destruct l.
    + right. split_and!; [tauto|done..].
  - intros j x k Hk Hh. destruct Hl as [[Hh' _]|[Hs _]]; [rewrite Hh' in Hh; by eapply (handed_target _ _ Hw)|by destruct l].
  - intros wh j Hj. by eapply Hu.
Qed.

Lemma concat_push {A} (ls : list (list A)) i l x :
  ls !! i = Some l -> List.concat (<[i := l ++ [x]]> ls) ≡ₚ List.concat ls ++ [x].
Proof.
  intros Hi. rewrite insert_take_drop by (by eapply lookup_lt_Some).
  rewrite <- (take_drop_middle ls i l Hi) at 3. rewrite !List.concat_app. cbn.
  solve_Permutation.
Qed.

Lemma filter_has_app k l l' : List.filter (has k) (l ++ l') = List.filter (has k) l ++ List.filter (has k) l'.
Proof. apply List.filter_app. Qed.

(** Nothing is left over while the loop runs but what it holds. *)
Lemma handed_running w rest : handed w rest -> ~ stopped (loop w) -> rest = in_hand (loop w).
Proof. intros Hw Hs. by destruct (handed_rest _ _ Hw) as [?|[? _]]. Qed.

Lemma handed_pull w picked x rest :
  handed w rest -> loop_ok w -> loop w = Pull picked ->
  let index := match picked with Some i => i | None => target w x end in
  handed (mk_world (threads w) (shared w)
            (match picked with Some _ => Push index x | None => CheckGone index x end)
            (if match picked with Some _ => true | None => bool_decide (key x = None) end
             then (index + 1) mod count else turn w) (taken w ++ [x])) [x].
Proof.
  intros Hw [_ _ Hat] El index. rewrite El in Hat.
  pose proof (handed_running _ _ Hw) as Hrest. rewrite El in Hrest. specialize (Hrest (fun H => H)).
  cbn in Hrest. subst rest. split; cbn -[hand_to].
  - rewrite (handed_all _ _ Hw). by rewrite app_nil_r.
  - left. by destruct picked.
  - intros k t Hk Ht. by rewrite filter_has_app, (handed_keyed _ _ Hw k t Hk Ht), app_nil_r.
  - apply (handed_alone _ _ Hw).
  - intros i y k Hk. destruct picked as [j|]; [destruct Hat; congruence|].
    cbn. intros [= <- <-] Hy. unfold index, target. by rewrite Hy.
  - by destruct picked.
Qed.

Lemma handed_push w i x t q rest :
  handed w rest -> loop w = Push i x -> threads w !! i = Some t ->
  handed (set_thread w i (mk_thread (pc t) q (loop_gone t) (thread_gone t) (parked t) (waker t)
                            (notified t) (pushed t ++ [x]) (popped t)) (PushedLoad i)) [].
Proof.
  intros Hw El Ht. pose proof (handed_running _ _ Hw) as Hrest. rewrite El in Hrest.
  specialize (Hrest (fun H => H)). cbn in Hrest. subst rest.
  pose proof (handed_target _ _ Hw) as Htgt. rewrite El in Htgt. cbn in Htgt.
  assert (Hi := lookup_lt_Some _ _ _ Ht). split; cbn.
  - rewrite list_fmap_insert, app_nil_r. cbn. rewrite concat_push by (by rewrite list_lookup_fmap, Ht).
    apply Hw.
  - by left.
  - intros k u Hk Hu. rewrite app_nil_r.
    apply list_lookup_insert_Some in Hu as [(-> & <- & _)|[Hne Hu]]; cbn.
    + rewrite filter_has_app. by apply (handed_keyed _ _ Hw).
    + rewrite (handed_keyed _ _ Hw k u Hk Hu). cbn. unfold has at 2. case_bool_decide as Hx; [|by rewrite app_nil_r].
      destruct Hne. by eapply Htgt.
  - intros j u y k Hk Hu Hy Hyk.
    apply list_lookup_insert_Some in Hu as [(<- & <- & _)|[Hne Hu]]; [|by eapply (handed_alone _ _ Hw)].
    cbn in Hy. apply elem_of_app in Hy as [Hy|Hy%list_elem_of_singleton]; [by eapply (handed_alone _ _ Hw)|].
    subst y. by eapply Htgt.
  - done.
  - done.
Qed.

Lemma keyed_hand w :
  loop_ok w -> (forall i x, loop w <> Push i x) -> hand_to (loop w) <> None -> keyed = true.
Proof.
  intros [_ _ Hat] Hp Hh. destruct (loop w) as [|[] ?|[]|[]|[] ?|[] ? ?|[]|?|? ?|? ?|?|?|?|?|?|]; cbn in *; try done;
    try tauto. by edestruct Hp.
Qed.

Lemma loop_step_handed w p w' rest :
  handed w rest -> loop_ok w -> loop_step w p = Some w' -> exists rest', handed w' rest'.
Proof.
  intros Hw Hok Hs. unfold loop_step in Hs.
  destruct (loop w) as [|wh o|wh|wh|wh o|wh i gone|wh|picked|i x|i x|i|i|i|i|i|] eqn:El.
  all: repeat (case_in Hs; try discriminate Hs); try discriminate Hs.
  all: try (apply bind_Some in Hs as (t & Ht & Hs)).
  all: repeat (case_in Hs; try discriminate Hs); try discriminate Hs.
  all: injection Hs as <-.
  all: try (exists rest; apply handed_same_loop; rewrite ?El; [done|tauto|by intros ? ? [=]]).
  all: try (exists rest; eapply handed_same; cbn; rewrite ?El; [done|done|done|done|tauto|by intros ? ? [=]]).
  all: pose proof (keyed_hand w Hok) as Hkd; rewrite El in Hkd.
  all: try (exists rest; apply handed_same_loop; rewrite ?El; [done|left; done|by intros ? ? [=]]).
  all: try (exists rest; apply handed_same_loop; rewrite ?El;
    [done|right; split; [done|]; intros ?; split; [by eexists _, _|by apply Hkd]|by intros ? ? [=]]).
  - (* Scan *) exists rest. apply handed_same_loop; rewrite ?El; [done|left|by destruct wh].
    destruct wh as [j y|]; cbn; [|done].
    match goal with E : scanned _ _ = Some _ |- _ => by apply scanned_one in E as -> end.
  - (* Rescan *) exists rest. apply handed_same_loop; rewrite ?El; cbn; [done|by left; destruct wh|].
    intros _ _ _. by eexists _, _.
  - (* Unflag *) pose proof (loop_at _ Hok) as Hat. rewrite El in Hat.
    destruct Hat as (_ & _ & _ & Hwh). exists rest. apply handed_same_loop; rewrite ?El; [done| |by destruct gone, wh].
    destruct gone; [right; split; [done|]; intros ?; split; [by eapply handed_gone|by apply Hkd]|left].
    by destruct wh; cbn; subst.
  - exists [item]. by apply (handed_pull w (Some n) item rest).
  - exists [item]. pose proof (handed_pull w None item rest Hw Hok El) as Hp.
    cbn -[target] in Hp. by case_match.
  - exists [item]. pose proof (handed_pull w None item rest Hw Hok El) as Hp.
    cbn -[target] in Hp. by case_match.
  - exists []. by eapply handed_push.
Qed.

Lemma reachable_handed w : 0 < count -> reachable w -> exists rest, handed w rest.
Proof.
  intros Hc. induction 1 as [|w [p|i c] w' Hr [rest IH] Hs]; cbn in *.
  - exists []. split; cbn; try done.
    + rewrite app_nil_r. clear. induction count as [|n IH]; [done|]. by cbn; rewrite <- IH.
    + by left.
    + by intros k t _ [-> _]%lookup_replicate.
    + intros i t x k _ [-> _]%lookup_replicate. set_solver.
  - eapply loop_step_handed; [done|by apply reachable_loop_ok|done].
  - apply bind_Some in Hs as (t & Ht & Hs). apply bind_Some in Hs as ([g t'] & Hs & [= <-]).
    destruct (thread_step_keeps _ _ _ _ _ _ Hs) as [Hp Hg]. exists rest.
    eapply handed_same; [done..|by left|]. intros wh j Hj. by eapply handed_gone.
Qed.

(** ** The properties *)

Lemma run_reachable w schedule w' : reachable w -> run w schedule = Some w' -> reachable w'.
Proof.
  unfold run. revert w. induction schedule as [|a l IH]; intros w Hr; cbn; [by intros [= <-]|].
  destruct (step w a) as [v|] eqn:Es.
  - apply IH. by eapply reach_step.
  - clear. cbn. intros H'. exfalso. induction l; cbn in *; [done|auto].
Qed.

Lemma loop_step_moves w :
  loop_ok w -> loop_step w StreamError = None ->
  loop w = Done \/ exists wh, loop w = Waits wh /\ loop_notified (shared w) = false.
Proof.
  intros [Hn _ Hat] Hs. unfold loop_step in Hs.
  assert (Hlook : forall i, i < count -> exists t, threads w !! i = Some t).
  { intros i Hi. apply lookup_lt_is_Some. lia. }
  destruct (loop w) as [|wh o|wh|wh|wh o|wh i gone|wh|picked|i x|i x|i|i|i|i|i|] eqn:El; try done; try (by left).
  - destruct (scanned wh o) as [i|] eqn:Es; [|done].
    destruct (Hlook i) as [t Ht]; [by eapply scanned_lt|]. by rewrite Ht in Hs.
  - destruct (scanned wh o) as [i|] eqn:Es; [|done].
    destruct (Hlook i) as [t Ht]; [by eapply scanned_lt|]. by rewrite Ht in Hs.
  - right. exists wh. destruct wh, (loop_notified (shared w)); done.
  - destruct (Hlook i) as [t Ht]; [tauto|]. by rewrite Ht in Hs.
  - destruct (Hlook i) as [t Ht]; [tauto|]. rewrite Ht in Hs. cbn in Hs. by destruct bq_push.
  - destruct (Hlook i) as [t Ht]; [tauto|]. by rewrite Ht in Hs.
  - destruct (Hlook i) as [t Ht]; [tauto|]. by rewrite Ht in Hs.
  - destruct (Hlook i) as [t Ht]; [tauto|]. by rewrite Ht in Hs.
  - by destruct (threads w !! i).
  - by destruct (threads w !! i).
Qed.

Lemma thread_step_moves g i t :
  (forall c, thread_step g i t c = None) -> pc t = Ended \/ (pc t = Asleep /\ notified t = false).
Proof.
  intros Hs. pose proof (Hs Fails) as Hs'. unfold thread_step in Hs'.
  destruct (pc t); try done; repeat (case_in Hs'; try discriminate Hs'); try done; auto.
Qed.

Lemma scanned_first wh : 0 < count -> exists i, scanned wh 0 = Some i.
Proof. intros Hc. destruct wh; cbn; [eauto|]. rewrite (proj2 (Nat.ltb_lt _ _) Hc). eauto. Qed.

(** A thread that holds the loop up is not asleep for good, nor gone. *)
Lemma holds_up_moves w wh i t :
  thread_ok (loop w) i t -> loop w = Waits wh -> holds_up wh i t ->
  ~ (pc t = Ended \/ (pc t = Asleep /\ notified t = false)).
Proof.
  intros [Hr Hp] El [Hg Hh] [Hpc|[Hpc Hn]].
  - apply (ring_left _ _ _) in Hr. rewrite Hpc in *. destruct Hr as [_ Hr]. specialize (Hg (Hr I)). done.
  - unfold park_ok in Hp. rewrite Hpc, El in Hp. cbn in Hp.
    assert (Hi : items t = []) by (destruct Hp as [|(_ & _ & [|[]] & _)]; [congruence|done]).
    rewrite Hi, Hpc in Hh. destruct Hh as [(? & ?)|Hh]; [done|]. destruct wh; cbn in Hh; unfold RING in Hh;
      destruct Hh as [?|[(? & ? & ?)|(? & ?)]]; try lia; naive_solver.
Qed.

(** The hand-off loses no wake-up, whatever the interleaving of the loop's and the threads'
    accesses: a sleeping thread nobody has marked to run has an empty ring whose feed is not
    closed, or the loop is on its way to wake it; and a waiting loop nobody has marked to run has a
    thread about to wake it, or every ring it waits for is still taken: its thread is there, and
    has not drained it to half (to the first free place, where the wait is for that ring) or is on
    its way to the loop's flag. *)
Theorem rings_lose_no_wakeup w :
  reachable w ->
  (forall i t, threads w !! i = Some t -> pc t = Asleep -> notified t = false ->
     telling (loop w) i \/ (items t = [] /\ ~ closed_by (loop w) i)) /\
  (forall wh, loop w = Waits wh -> loop_notified (shared w) = false ->
     (exists i t, threads w !! i = Some t /\ waking (pc t)) \/
     forall offset i t, scanned wh offset = Some i -> threads w !! i = Some t -> holds_up wh i t).
Proof.
  intros Hr. split.
  - intros i t Ht Hpc Hn. destruct (rings_reachable_ok w Hr i t Ht) as [_ Hp].
    unfold park_ok in Hp. rewrite Hpc in Hp. destruct Hp as [|(_ & _ & Hi & Hcl)]; [congruence|tauto].
  - intros wh El Hn. destruct (decide (Exists (fun t => waking (pc t)) (threads w))) as [He|He].
    + left. apply Exists_exists in He as (t & [i Hi]%list_elem_of_lookup & Ht). eauto.
    + right. intros o i t Hsc Ht.
      pose proof (wait_rings w (reachable_wait w Hr) wh i t) as Hw.
      assert (Hc : covers (loop w) wh i) by (rewrite El; split; [done|by exists o]).
      destruct (Hw Hc Ht) as [[Hl|(k & u & Hu & Hwk)]|?]; [congruence| |done].
      destruct He. apply Exists_exists. exists u. split; [by eapply list_elem_of_lookup_2|done].
Qed.

(** C34. The hand-off never deadlocks: in a reachable state with at least one ring, nobody can go on
    (short of a shutdown) exactly when the loop is done and every thread has ended. *)
Theorem rings_never_deadlock w :
  0 < count -> reachable w ->
  (stalled w <-> loop w = Done /\ forall t, t ∈ threads w -> pc t = Ended).
Proof.
  intros Hc Hr. pose proof (rings_reachable_ok w Hr) as Hok. split.
  - intros [Hl Ht].
    assert (Hth : forall i t, threads w !! i = Some t -> pc t = Ended \/ (pc t = Asleep /\ notified t = false)).
    { intros i t Hi. apply (thread_step_moves (shared w) i). intros c. specialize (Ht i c). cbn in Ht.
      rewrite Hi in Ht. cbn in Ht. by destruct thread_step as [[]|]. }
    destruct (loop_step_moves w) as [Hd|(wh & El & Hn)];
      [by apply reachable_loop_ok|by apply (Hl StreamError)| |].
    + split; [done|]. intros t [i Hi]%list_elem_of_lookup.
      destruct (Hth i t Hi) as [|[Hpc Hn]]; [done|]. destruct (Hok i t Hi) as [_ Hp].
      unfold park_ok in Hp. rewrite Hpc, Hd in Hp. cbn in Hp. destruct Hp as [|(_ & _ & _ & Hp)]; [congruence|tauto].
    + destruct (scanned_first wh Hc) as [i Hi].
      assert (Hwh : which_ok wh).
      { pose proof (loop_at w (reachable_loop_ok w Hc Hr)) as Ha. by rewrite El in Ha. }
      destruct (lookup_lt_is_Some_2 (threads w) i) as [t Hti].
      { rewrite (loop_threads w) by (by apply reachable_loop_ok). by eapply scanned_lt. }
      destruct (wait_rings w (reachable_wait w Hr) wh i t) as [[?|(k & u & Hu & Hwk)]|Hh].
      * rewrite El. split; [done|by exists 0].
      * done.
      * congruence.
      * by destruct (Hth k u Hu) as [Hpc|[Hpc _]]; rewrite Hpc in Hwk.
      * exfalso. by eapply holds_up_moves; [apply (Hok i t Hti)|..|by eapply Hth].
  - intros [Hd Ht]. split; cbn.
    + intros p _. unfold loop_step. by rewrite Hd.
    + intros i c. destruct (threads w !! i) as [t|] eqn:Hi; [cbn|done].
      unfold thread_step. rewrite (Ht t); [done|by eapply list_elem_of_lookup_2].
Qed.

Lemma length_popped_le ts :
  length (List.concat (popped <$> ts)) <= sum_list_with finished ts + length ts.
Proof.
  induction ts as [|t ts IH]; cbn; [lia|]. rewrite length_app.
  assert (length (popped t) <= finished t + 1) by (unfold finished, at_hand; destruct (pc t); lia). lia.
Qed.

Lemma length_items_le ts :
  (forall t, t ∈ ts -> length (items t) <= RING) -> length (List.concat (items <$> ts)) <= length ts * RING.
Proof.
  induction ts as [|t ts IH]; intros Hf; cbn -[RING]; [lia|]. rewrite length_app.
  pose proof (Hf t (list_elem_of_here _ _)). specialize (IH ltac:(set_solver)). lia.
Qed.

Lemma concat_pushed ts :
  (forall t, t ∈ ts -> pushed t = popped t ++ items t) ->
  List.concat (pushed <$> ts) ≡ₚ List.concat (popped <$> ts) ++ List.concat (items <$> ts).
Proof.
  induction ts as [|t ts IH]; intros Hf; cbn; [done|].
  rewrite (Hf t) by set_solver. rewrite IH by set_solver. solve_Permutation.
Qed.

(** A ring with a free place leaves one place free in all of them. *)
Lemma rings_with_room w i :
  each thread_ok w -> length (threads w) = count -> room w i ->
  length (List.concat (items <$> threads w)) < count * RING.
Proof.
  intros Hok Hn (t & Ht & Hl).
  assert (Hlen : forall u, u ∈ threads w -> length (items u) <= RING).
  { intros u [j Hj]%list_elem_of_lookup. by destruct (Hok j u Hj) as [[] _]. }
  rewrite <- Hn. revert Hlen. rewrite <- (take_drop_middle _ _ _ Ht). intros Hlen.
  rewrite fmap_app, List.concat_app, length_app, (length_app (take i _)). cbn -[RING]. rewrite length_app.
  pose proof (length_items_le (take i (threads w)) ltac:(set_solver)).
  pose proof (length_items_le (drop (S i) (threads w)) ltac:(set_solver)). lia.
Qed.

(** C37. Every delivery read off the stream is in one place: handed to a handler, in a ring, in the
    loop's hand, or (a keyed loop's, one at most) dropped with a loop that stopped because a thread
    was gone.  A ring never holds more than [RING], a pool's push never finds its ring full, and
    the read-ahead over the finished deliveries is at most [count * (1 + RING)], plus the one a
    keyed loop waits with. *)
Theorem rings_hand_over_each_once w :
  0 < count -> reachable w ->
  (forall i t, threads w !! i = Some t -> pushed t = popped t ++ items t /\ length (items t) <= RING) /\
  (forall i item, loop w = Push i item -> keyed = false -> room w i) /\
  (exists rest, unpushed w rest /\
     taken w ≡ₚ List.concat (popped <$> threads w) ++ List.concat (items <$> threads w) ++ rest) /\
  length (taken w) <=
    sum_list_with finished (threads w) + count * (1 + RING) + (if keyed then 1 else 0).
Proof.
  intros Hc Hr. pose proof (rings_reachable_ok w Hr) as Hok. pose proof (reachable_loop_ok w Hc Hr) as [Hn _ Hat].
  destruct (reachable_handed w Hc Hr) as [rest Hh].
  assert (Hrings : forall t, t ∈ threads w -> pushed t = popped t ++ items t /\ length (items t) <= RING).
  { intros t [i Hi]%list_elem_of_lookup. by destruct (Hok i t Hi) as [[] _]. }
  assert (Hall : taken w ≡ₚ List.concat (popped <$> threads w) ++ List.concat (items <$> threads w) ++ rest).
  { rewrite (handed_all _ _ Hh), concat_pushed by (intros t Ht; by apply Hrings). by rewrite <- app_assoc. }
  split_and!.
  - intros i t Ht. apply Hrings. by eapply list_elem_of_lookup_2.
  - intros i item El Hk. rewrite El in Hat. by apply Hat.
  - exists rest. split; [by apply Hh|done].
  - rewrite Hall, !length_app. pose proof (length_popped_le (threads w)).
    pose proof (length_items_le (threads w) (fun t Ht => proj2 (Hrings t Ht))). rewrite Hn in *.
    destruct (handed_rest _ _ Hh) as [->|(_ & Hlen & _ & ->)]; [|lia].
    unfold in_hand. destruct (hand_to (loop w)) as [[i x]|] eqn:Eh; cbn -[RING]; [|lia].
    destruct keyed eqn:Ek; [lia|].
    enough (room w i) by (pose proof (rings_with_room w i Hok Hn ltac:(done)); lia).
    destruct (loop w) as [|[] ?|[]|[]|[] ?|[] ? ?|[]|?|? ?|? ?|?|?|?|?|?|] eqn:El; cbn in *; try done;
      try (destruct Hat; congruence); injection Eh as -> ->.
    + destruct Hat as [[? _] _]. congruence.
    + by apply Hat.
Qed.

(** A keyed subscription keeps each key in order and on one thread: what the stream gave with a
    key is, in that order, what the key's thread was handed, then what its ring holds, then the
    one delivery the loop may hold; no other thread is ever handed the key. *)
Theorem keyed_rings_keep_order w :
  0 < count -> reachable w -> keyed = true ->
  exists rest, length rest <= 1 /\ forall i t k, threads w !! i = Some t ->
    if decide (i = key_index k count)
    then List.filter (has k) (taken w) =
         List.filter (has k) (popped t) ++ List.filter (has k) (items t) ++ List.filter (has k) rest
    else List.filter (has k) (popped t) = [] /\ List.filter (has k) (items t) = [].
Proof.
  intros Hc Hr Hk. destruct (reachable_handed w Hc Hr) as [rest Hh]. exists rest. split.
  - destruct (handed_rest _ _ Hh) as [->|(_ & Hlen & _)]; [|done].
    unfold in_hand. destruct hand_to as [[]|]; cbn; lia.
  - intros i t k Ht. destruct (rings_reachable_ok w Hr i t Ht) as [Hring _].
    pose proof (ring_handed _ _ _ Hring) as Hp. case_decide as Hi.
    + subst i. rewrite (handed_keyed _ _ Hh k t Hk Ht), Hp, filter_has_app. by rewrite <- app_assoc.
    + apply app_nil. rewrite <- filter_has_app, <- Hp. apply filterb_none. intros x Hx.
      apply bool_decide_eq_false_2. intros Hxk. apply Hi. by eapply (handed_alone _ _ Hh).
Qed.
End rings.

(** ** Witnesses: a pool of one ring and a keyed pair, over list queues *)

Definition ex_key (x : nat) : option bytes := Some (replicate (x mod 2) Ascii.zero).
Definition ex_hash (k : bytes) : N := N.of_nat (length k).
Definition ex_initial (count : nat) : World (Q := LQueue) (Item := nat) := initial count.
Definition ex_run (count : nat) (keyed : bool) (schedule : list (Actor (Item := nat))) : World (Q := LQueue) (Item := nat) :=
  default (ex_initial count) (run ex_key ex_hash count keyed (ex_initial count) schedule).

Lemma ex_reachable count keyed schedule : reachable ex_key ex_hash count keyed (ex_run count keyed schedule).
Proof.
  unfold ex_run. destruct (run _ _ _ _ _ schedule) as [w|] eqn:E; [|apply reach_initial].
  eapply run_reachable; [apply reach_initial|exact E].
Qed.

Definition deliver (steps : nat) (x : nat) : list (Actor (Item := nat)) := replicate steps (TheLoop (Delivery x)).
Definition goes (i steps : nat) : list (Actor (Item := nat)) := replicate steps (TheThread i Goes).

(** The thread falls asleep, then the loop pushes to its ring. *)
Definition told_asleep : World (Q := LQueue) (Item := nat) :=
  ex_run 1 false (goes 0 2 ++ [TheThread 0 Fails] ++ goes 0 3 ++ deliver 5 7).

Lemma rings_lose_no_wakeup_witness :
  (pc <$> threads told_asleep !! 0) = Some Asleep /\
  (telling (loop told_asleep) 0 \/
   (items (default new_thread (threads told_asleep !! 0)) = [] /\ ~ closed_by (loop told_asleep) 0)).
Proof.
  split; [reflexivity|].
  apply (proj1 (rings_lose_no_wakeup ex_key ex_hash 1 false told_asleep (ex_reachable _ _ _)) 0
           (default new_thread (threads told_asleep !! 0))); reflexivity.
Defined.

(** Shutdown: the loop lets go of the ring and closes, and the thread ends. *)
Definition shut_down : World (Q := LQueue) (Item := nat) :=
  ex_run 1 false (deliver 6 7 ++ replicate 6 (TheLoop Stops) ++ goes 0 3 ++ goes 0 6).

Lemma rings_never_deadlock_witness :
  loop shut_down = Done /\
  (stalled ex_key ex_hash 1 false shut_down <->
   loop shut_down = Done /\ forall t, t ∈ threads shut_down -> pc t = Ended).
Proof.
  split; [reflexivity|].
  apply (rings_never_deadlock ex_key ex_hash 1 false shut_down); [lia|apply ex_reachable].
Defined.

(** One delivery in the thread's hand, a full ring, and one in the keyed loop's hand. *)
Definition read_ahead : World (Q := LQueue) (Item := nat) :=
  ex_run 1 true (deliver 5 0 ++ goes 0 1 ++ concat (deliver 5 <$> seq 1 8) ++ deliver 4 9).

Lemma rings_hand_over_each_once_witness :
  length (taken read_ahead) = 10 /\
  length (taken read_ahead) <= sum_list_with finished (threads read_ahead) + 1 * (1 + RING) + 1.
Proof.
  split; [reflexivity|].
  apply (rings_hand_over_each_once ex_key ex_hash 1 true read_ahead); [lia|apply ex_reachable].
Defined.

(** The module's documentation bounds the read-ahead by [n * (1 + RING)]; a keyed loop holds one
    delivery more while it waits on the full ring of its key. *)
Lemma keyed_read_ahead_is_one_more :
  reachable ex_key ex_hash 1 true read_ahead /\
  sum_list_with finished (threads read_ahead) + 1 * (1 + RING) < length (taken read_ahead).
Proof. split; [apply ex_reachable|]. vm_compute. lia. Qed.

(** Two keys over two rings, one delivery of each key handled. *)
Definition two_keys : World (Q := LQueue) (Item := nat) :=
  ex_run 2 true (concat (deliver 5 <$> [1; 2; 3; 4]) ++ goes 0 1 ++ goes 1 1 ++ deliver 2 5).

Lemma keyed_rings_keep_order_witness :
  (popped <$> threads two_keys) = [[2]; [1]] /\
  exists rest, length rest <= 1 /\ forall i t k, threads two_keys !! i = Some t ->
    if decide (i = key_index ex_hash k 2)
    then List.filter (has ex_key k) (taken two_keys) =
         List.filter (has ex_key k) (popped t) ++ List.filter (has ex_key k) (items t) ++
         List.filter (has ex_key k) rest
    else List.filter (has ex_key k) (popped t) = [] /\ List.filter (has ex_key k) (items t) = [].
Proof.
  split; [reflexivity|].
  apply (keyed_rings_keep_order ex_key ex_hash 2 true two_keys); [lia|apply ex_reachable|reflexivity].
Defined.
End Rings.
