(* ===== verification/Copies.v ===== *)
(** * The store of retry copies ([crates/runtime-embassy/src/copies.rs])

    The copies of one registration, held as data in [CAP] records until the registration's driver
    publishes them.  The store, its driver and the settlements that keep copies run on one task, so
    what happens between two awaits is one step: the operations are functions on the store, and the
    system over them steps through the calls of the settlements, the polls of the driver, the
    answers of the publisher and the clock.  [None] is the panic of a record index out of range.
    The build with a heap: a payload buffer holds any payload. *)
From Stdlib Require Import Ascii String.
From S2P Require Import Prelude RustStd Headers PublishFailure.

Module Copies.
Import PublishFailure.

(** ** The clock ([runtime-embassy/src/clock.rs]) *)

Definition INSTANT_MAX : N := u64_max.

(** Where one record is in its life. *)
Inductive Held :=
  | Free
  | Taken
  | Due (at_ : N)
  | Sending.
#[export] Instance Held_eq_dec : EqDecision Held.
Proof. solve_decision. Defined.

Section copies.
(** The publisher's per-message settings, the delivery a copy is made of, embassy-time's conversion
    of a delay to ticks, the path's address and its preparation of a copy. *)
Context {Options Delivery : Type}.
Context (ticks : N -> option N) (address : string).
Context (prepare_copy : bytes -> HeaderMap -> option Options -> string -> Delivery -> bytes * HeaderMap * option Options).
Context (CAP : nat).

(** [Schedule::deadline]. *)
Definition deadline (now after : N) : N :=
  match ticks after with
  | Some t => if (now + t <=? INSTANT_MAX)%N then (now + t)%N else INSTANT_MAX
  | None => INSTANT_MAX
  end.

(** [Record]. *)
Record CopyRecord := mk_record {
  held : Held;
  payload : bytes;
  headers : HeaderMap;
  options : option Options;
  destination : string;
  to_destination : bool;
  reaction : option Reaction;
}.

Definition empty_record : CopyRecord := mk_record Free [] HeaderMap.new None EmptyString false None.

(** [CopyStore]; [waker] is whether the driver's waker is registered. *)
Record CopyStore := mk_store { records : list CopyRecord; armed : bool; closed : bool; waker : bool }.

Definition on_clock : CopyStore := mk_store (replicate CAP empty_record) false false false.

(** Runs [with] on the record at [index]. *)
Definition record (s : CopyStore) (index : nat) (with_ : CopyRecord -> CopyRecord) : option CopyStore :=
  r ← records s !! index;
  Some (mk_store (<[index := with_ r]> (records s)) (armed s) (closed s) (waker s)).

(** ** The operations of a settlement ([KeptCopies], [PrepareKept]) *)

Definition is_free (r : CopyRecord) : bool := bool_decide (held r = Free).

Definition hold (r : CopyRecord) (h : Held) : CopyRecord :=
  mk_record h (payload r) (headers r) (options r) (destination r) (to_destination r) (reaction r).

Definition take_record (s : CopyStore) : option (nat * CopyStore) :=
  index ← position is_free (records s);
  s ← record s index (fun r => hold r Taken);
  Some (index, s).

Definition fill (s : CopyStore) (index : nat) (bytes_ : bytes) (hs : HeaderMap) : option CopyStore :=
  record s index (fun r =>
    mk_record (held r) bytes_ hs None (destination r) (to_destination r) (reaction r)).

Definition prepare (s : CopyStore) (index : nat) (to : option string) (d : Delivery) : option CopyStore :=
  record s index (fun r =>
    let '(p, h, o) := prepare_copy (payload r) (headers r) (options r) (default address to) d in
    mk_record (held r) p h o (destination r) (to_destination r) (reaction r)).

Definition raise_armed (s : CopyStore) : CopyStore := mk_store (records s) true (closed s) (waker s).

(** [arm]; the caller wakes the driver. *)
Definition arm (s : CopyStore) (now : N) (index : nat) (delay : N) (react : option Reaction) : option CopyStore :=
  raise_armed <$> record s index (fun r =>
    mk_record (Due (deadline now delay)) (payload r) (headers r) (options r) (destination r)
      (to_destination r) react).

(** The first half of [send_now]: where the copy goes. *)
Definition bind_to (s : CopyStore) (index : nat) (to : option string) (react : option Reaction) : option CopyStore :=
  record s index (fun r =>
    mk_record (held r) (payload r) (headers r) (options r) (default (destination r) to)
      (match to with Some _ => true | None => false end) react).

(** [give_back]; the caller wakes the driver. *)
Definition give_back (s : CopyStore) (index : nat) (to : option string) : option CopyStore :=
  record s index (fun r =>
    mk_record Free [] (headers r) (options r) (default (destination r) to) false (reaction r)).

Definition free (s : CopyStore) (index : nat) : option CopyStore :=
  s ← record s index (fun r =>
    mk_record (held r) [] (headers r) (options r) (destination r) (to_destination r) None);
  give_back s index None.

Definition close (s : CopyStore) : CopyStore := mk_store (records s) (armed s) true (waker s).

(** ** Publishing a copy ([send_by]) *)

(** A copy being published: what was taken out of its record, with the instant it was due at and
    the one its publish began at for the theorems. *)
Record Flight := mk_flight {
  f_record : nat;
  f_payload : bytes;
  f_headers : HeaderMap;
  f_options : option Options;
  f_destination : option string;
  f_reaction : option Reaction;
  (** ghost *)
  f_due : option N;
  f_since : N;
}.

Definition due_at (h : Held) : option N := match h with Due at_ => Some at_ | _ => None end.

Definition begin_send (s : CopyStore) (now : N) (index : nat) : option (CopyStore * Flight) :=
  r ← records s !! index;
  s ← record s index (fun r =>
    mk_record Sending [] HeaderMap.new None (if to_destination r then EmptyString else destination r)
      (to_destination r) None);
  Some (s, mk_flight index (payload r) (headers r) (options r)
             (if to_destination r then Some (destination r) else None) (reaction r) (due_at (held r)) now).

Definition target (f : Flight) : string := default address (f_destination f).

Definition lost (react : option Reaction) (target_ : string) (refusal : Refusal) (lent : bytes) : option Work :=
  match react with
  | None => publish_lost None (error refusal) (mk_failed_message target_ None HeaderMap.new)
  | Some _ =>
      let (e, failed) := into_message refusal target_ (fun _ _ => lent) in publish_lost react e failed
  end.

(** What follows the publisher's answer. *)
Definition sent_follow (f : Flight) (answer : result unit Refusal) : option Work :=
  match answer with
  | Ok _ => publish_done (f_reaction f)
  | Err refusal => lost (f_reaction f) (target f) refusal (f_payload f)
  end.

Definition end_send (s : CopyStore) (f : Flight) : option CopyStore :=
  give_back s (f_record f) (f_destination f).

(** ** A full store ([full], [spill], [send_spilled]) *)

Definition NO_FREE_RECORD : BoxError := "no free record in the store of retry copies".

Definition full (bytes_ : option bytes) (hs : HeaderMap) (react : option Reaction) : option Work :=
  publish_lost react NO_FREE_RECORD (mk_failed_message address bytes_ hs).

Record Spilled := mk_spilled { sp_payload : bytes; sp_headers : HeaderMap; sp_options : option Options }.

Definition spill (bytes_ : bytes) (hs : HeaderMap) (to : option string) (d : Delivery) : Spilled :=
  let '(p, h, o) := prepare_copy bytes_ hs None (default address to) d in mk_spilled p h o.

Definition send_spilled (c : Spilled) (to : option string) (react : option Reaction)
  (publish : string -> bytes -> HeaderMap -> option Options -> result unit Refusal) : option Work :=
  let target_ := default address to in
  match publish target_ (sp_payload c) (sp_headers c) (sp_options c) with
  | Ok _ => publish_done react
  | Err refusal => lost react target_ refusal (sp_payload c)
  end.

(** Whatever the publisher answers, the copy's reaction is answered. *)
Lemma lost_answers react target_ refusal lent : is_answer react (lost react target_ refusal lent).
Proof.
  right. unfold lost. destruct react as [r|]; [|by do 2 eexists].
  destruct (into_message _ _ _) as [e m]. by exists e, m.
Qed.
Lemma sent_follow_answers f answer : is_answer (f_reaction f) (sent_follow f answer).
Proof. destruct answer; [by left|apply lost_answers]. Qed.
Lemma send_spilled_answers c to react publish : is_answer react (send_spilled c to react publish).
Proof. unfold send_spilled. destruct (publish _ _ _ _); [by left|apply lost_answers]. Qed.
Lemma full_answers bytes_ hs react : is_answer react (full bytes_ hs react).
Proof. right. by do 2 eexists. Qed.

(** ** The driver ([next_due]) *)

Inductive Polled := Copy (index : nat) | Ended | Waits.

(** The scan over the records: the first copy due, or the earliest instant and whether a record
    is in a settlement's or a publish's hands. *)
Fixpoint scan (now : N) (index : nat) (earliest : option N) (busy : bool) (l : list CopyRecord)
  : nat + option N * bool :=
  match l with
  | [] => inr (earliest, busy)
  | r :: l =>
      match held r with
      | Due at_ =>
          if (at_ <=? now)%N then inl index
          else scan now (S index) (Some (match earliest with Some next => N.min next at_ | None => at_ end)) busy l
      | Taken | Sending => scan now (S index) earliest true l
      | Free => scan now (S index) earliest busy l
      end
  end.

(** One poll of [next_due], at [now]; the clock may have gone on to [later] when the new timer is
    polled.  Answers with the timer kept and whether the task woke itself. *)
Definition next_due (s : CopyStore) (timer : option N) (now later : N)
  : Polled * CopyStore * option N * bool :=
  let timer := if armed s then None else timer in
  let s := mk_store (records s) false (closed s) true in
  let pending := match timer with Some at_ => (now <? at_)%N | None => false end in
  if pending then (Waits, s, timer, false)
  else
    match scan now 0 None false (records s) with
    | inl index => (Copy index, s, None, false)
    | inr (Some at_, _) =>
        if (at_ <=? later)%N then (Waits, s, None, true) else (Waits, s, Some at_, false)
    | inr (None, busy) => if closed s && negb busy then (Ended, s, None, false) else (Waits, s, None, false)
    end.

(** ** The store at work *)

Inductive Driver := Polling | Publishing (f : Flight) | Finished.

(** What a copy is when it is handed over. *)
Record Kept := mk_kept {
  k_payload : bytes;
  k_headers : HeaderMap;
  k_options : option Options;
  k_destination : option string;
  k_reaction : option Reaction;
  k_due : option N;
}.

(** The store, the clock, the driver with its timer and whether its task is marked to run, the
    publishes of [send_now] under way, the records settlements hold; and the ghosts: the copies
    handed over and those whose publish was answered, with the instant it began at. *)
Record World := mk_world {
  store : CopyStore;
  now : N;
  driver : Driver;
  timer : option N;
  notified : bool;
  flights : list Flight;
  taken : list nat;
  handed : list Kept;
  left_ : list (Kept * N);
}.

Definition initial : World := mk_world on_clock 0 Polling None true [] [] [] [].

Inductive Actor :=
  | TakeRecord
  | Fill (index : nat) (bytes_ : bytes) (hs : HeaderMap)
  | Prepare (index : nat) (to : option string) (d : Delivery)
  | Arm (index : nat) (delay : N) (react : option Reaction)
  | SendNow (index : nat) (to : option string) (react : option Reaction)
  | FreeRecord (index : nat)
  | Close
  | PollDriver (later : N)
  | DriverAnswered
  | Answered (k : nat)
  | Advance (to : N).

Definition kept_of (f : Flight) : Kept :=
  mk_kept (f_payload f) (f_headers f) (f_options f) (f_destination f) (f_reaction f) (f_due f).
Definition kept_in (r : CopyRecord) : Kept :=
  mk_kept (payload r) (headers r) (options r) (if to_destination r then Some (destination r) else None)
    (reaction r) (due_at (held r)).

Definition set_store (w : World) (s : CopyStore) : World :=
  mk_world s (now w) (driver w) (timer w) (notified w) (flights w) (taken w) (handed w) (left_ w).
(** [CopyStore::wake]. *)
Definition wake (w : World) : World :=
  mk_world (store w) (now w) (driver w) (timer w) (notified w || waker (store w)) (flights w)
    (taken w) (handed w) (left_ w).
Definition set_taken (w : World) (l : list nat) : World :=
  mk_world (store w) (now w) (driver w) (timer w) (notified w) (flights w) l (handed w) (left_ w).
Definition hand (w : World) (c : list Kept) : World :=
  mk_world (store w) (now w) (driver w) (timer w) (notified w) (flights w) (taken w) (handed w ++ c) (left_ w).
Definition set_flights (w : World) (l : list Flight) : World :=
  mk_world (store w) (now w) (driver w) (timer w) (notified w) l (taken w) (handed w) (left_ w).
Definition leave (w : World) (f : Flight) : World :=
  mk_world (store w) (now w) (driver w) (timer w) (notified w) (flights w) (taken w) (handed w)
    (left_ w ++ [(kept_of f, f_since f)]).
Definition set_driver (w : World) (d : Driver) (t : option N) (n : bool) : World :=
  mk_world (store w) (now w) d t n (flights w) (taken w) (handed w) (left_ w).

(** The copy a record holds, as it was handed over. *)
Definition copy_at (s : CopyStore) (index : nat) : list Kept :=
  match records s !! index with Some r => [kept_in r] | None => [] end.

(** One step; [None] where the actor cannot act, [Some None] for a panic.  A settlement calls with a
    record it holds. *)
Definition step (w : World) (a : Actor) : option (option World) :=
  match a with
  | TakeRecord =>
      match take_record (store w) with
      | Some (index, s) => Some (Some (set_taken (set_store w s) (index :: taken w)))
      | None => None
      end
  | Fill index bytes_ hs =>
      if decide (index ∈ taken w) then Some (set_store w <$> fill (store w) index bytes_ hs) else None
  | Prepare index to d =>
      if decide (index ∈ taken w) then Some (set_store w <$> prepare (store w) index to d) else None
  | Arm index delay react =>
      if decide (index ∈ taken w) then
        Some (s ← arm (store w) (now w) index delay react;
              Some (wake (hand (set_taken (set_store w s) (filter (fun i => i <> index) (taken w)))
                            (copy_at s index))))
      else None
  | SendNow index to react =>
      if decide (index ∈ taken w) then
        Some (s ← bind_to (store w) index to react;
              '(s, f) ← begin_send s (now w) index;
              Some (set_flights (hand (set_taken (set_store w s) (filter (fun i => i <> index) (taken w)))
                                   [kept_of f]) (flights w ++ [f])))
      else None
  | FreeRecord index =>
      if decide (index ∈ taken w) then
        Some (s ← free (store w) index;
              Some (wake (set_taken (set_store w s) (filter (fun i => i <> index) (taken w)))))
      else None
  | Close => Some (Some (wake (set_store w (close (store w)))))
  | PollDriver later =>
      match driver w with
      | Polling =>
          if (later <? now w)%N then None
          else
            let '(res, s, t, self) := next_due (store w) (timer w) (now w) later in
            let fires := match t with Some at_ => (at_ <=? later)%N | None => false end in
            let w' := mk_world s later (driver w) t (self || fires) (flights w) (taken w) (handed w) (left_ w) in
            Some (match res with
                  | Copy index =>
                      '(s, f) ← begin_send s (now w) index;
                      Some (set_driver (set_store w' s) (Publishing f) None false)
                  | Ended => Some (set_driver w' Finished None false)
                  | Waits => Some w'
                  end)
      | _ => None
      end
  | DriverAnswered =>
      match driver w with
      | Publishing f =>
          Some (s ← end_send (store w) f; Some (wake (leave (set_driver (set_store w s) Polling None true) f)))
      | _ => None
      end
  | Answered k =>
      match flights w !! k with
      | Some f =>
          Some (s ← end_send (store w) f;
                Some (wake (leave (set_flights (set_store w s) (delete k (flights w))) f)))
      | None => None
      end
  | Advance to =>
      if (to <? now w)%N then None
      else
        let fires := match timer w with Some at_ => (at_ <=? to)%N | None => false end in
        Some (Some (mk_world (store w) to (driver w) (timer w) (notified w || fires) (flights w)
                      (taken w) (handed w) (left_ w)))
  end.

Inductive reachable : World -> Prop :=
  | reach_initial : reachable initial
  | reach_step w a w' : reachable w -> step w a = Some (Some w') -> reachable w'.

(** A schedule, run from its first step on. *)
Fixpoint run (w : World) (schedule : list Actor) : option World :=
  match schedule with
  | [] => Some w
  | a :: schedule => match step w a with Some (Some w) => run w schedule | _ => None end
  end.

(** The records in a state, by their index. *)
Definition held_at (w : World) (p : Held -> bool) : list nat :=
  List.filter (fun i => match records (store w) !! i with Some r => p (held r) | None => false end) (seq 0 CAP).
Definition is_due (h : Held) : bool := match h with Due _ => true | _ => false end.

(** ** The invariant *)

(** Every publish under way: the driver's and those of [send_now]. *)
Definition driver_flight (d : Driver) : list Flight := match d with Publishing f => [f] | _ => [] end.
Definition all_flights (w : World) : list Flight := driver_flight (driver w) ++ flights w.
Definition flying (w : World) : list nat := f_record <$> all_flights w.

(** A record is free, a settlement's, due, or a publish's; where it is bound is a publish's alone. *)
Definition owned (r : CopyRecord) (i : nat) (T F : list nat) : Prop :=
  match held r with
  | Free | Due _ => (i ∉ T) /\ (i ∉ F) /\ to_destination r = false
  | Taken => (i ∈ T) /\ (i ∉ F) /\ to_destination r = false
  | Sending => (i ∉ T) /\ (i ∈ F)
  end.

Definition due_of (r : CopyRecord) : list Kept := match held r with Due _ => [kept_in r] | _ => [] end.
Definition waiting (s : CopyStore) : list Kept := List.concat (due_of <$> records s).

Record world_ok (w : World) : Prop := {
  ok_records : length (records (store w)) = CAP;
  ok_taken : NoDup (taken w);
  ok_flying : NoDup (flying w);
  ok_owned i r : records (store w) !! i = Some r -> owned r i (taken w) (flying w);
  ok_known i : i ∈ taken w \/ i ∈ flying w -> i < CAP;
  ok_copies : handed w ≡ₚ ((left_ w).*1) ++ waiting (store w) ++ (kept_of <$> all_flights w);
}.

Lemma concat_insert (i : nat) (r r' : CopyRecord) (l : list CopyRecord) :
  l !! i = Some r -> exists rest,
    List.concat (due_of <$> l) ≡ₚ due_of r ++ rest /\ List.concat (due_of <$> <[i := r']> l) ≡ₚ due_of r' ++ rest.
Proof.
  intros Hi. exists (List.concat (due_of <$> take i l) ++ List.concat (due_of <$> drop (S i) l)).
  rewrite insert_take_drop by (by eapply lookup_lt_Some).
  rewrite <- (take_drop_middle l i r Hi) at 1. rewrite !fmap_app, !List.concat_app. cbn.
  split; solve_Permutation.
Qed.

Lemma record_Some s i f s' :
  record s i f = Some s' -> exists r, records s !! i = Some r /\
    s' = mk_store (<[i := f r]> (records s)) (armed s) (closed s) (waker s).
Proof. unfold record. intros (r & Hr & [= <-])%bind_Some. eauto. Qed.

Lemma record_lt s i f : i < length (records s) -> exists s', record s i f = Some s'.
Proof. unfold record. intros [r ->]%lookup_lt_is_Some. eauto. Qed.

(** A step that changes one record, and what is said of it alone. *)
Lemma world_changes w w' i r r' :
  world_ok w -> records (store w) !! i = Some r -> records (store w') = <[i := r']> (records (store w)) ->
  (forall j, j <> i -> j ∈ taken w' <-> j ∈ taken w) ->
  (forall j, j <> i -> j ∈ flying w' <-> j ∈ flying w) ->
  NoDup (taken w') -> NoDup (flying w') -> owned r' i (taken w') (flying w') ->
  (forall rest, handed w ≡ₚ ((left_ w).*1) ++ due_of r ++ rest ++ (kept_of <$> all_flights w) ->
                handed w' ≡ₚ ((left_ w').*1) ++ due_of r' ++ rest ++ (kept_of <$> all_flights w')) ->
  world_ok w'.
Proof.
  intros Hw Hr Hs Ht Hf HnT HnF Ho Hc. assert (Hi : i < CAP).
  { rewrite <- (ok_records w Hw). by eapply lookup_lt_Some. }
  split; [by rewrite Hs, length_insert; apply Hw|done|done| | |].
  - intros j q. rewrite Hs. intros [(<- & <- & _)|[Hne Hj]]%list_lookup_insert_Some; [done|].
    pose proof (ok_owned w Hw j q Hj) as Hq. unfold owned in *.
    destruct (held q); rewrite Ht, Hf by done; tauto.
  - intros j Hj. destruct (decide (j = i)) as [->|Hne]; [done|].
    rewrite Ht, Hf in Hj by done. by apply (ok_known w Hw).
  - unfold waiting. rewrite Hs. destruct (concat_insert i r r' _ Hr) as (rest & Hold & Hnew).
    rewrite Hnew, <- app_assoc. apply Hc. rewrite (ok_copies w Hw). unfold waiting. rewrite Hold.
    by rewrite <- app_assoc.
Qed.

(** A step that keeps the records, and what is in flight. *)
Lemma world_same w w' :
  world_ok w -> records (store w') = records (store w) -> taken w' = taken w ->
  all_flights w' = all_flights w -> handed w' = handed w -> left_ w' = left_ w -> world_ok w'.
Proof.
  intros [] Hs Ht Hf Hh Hl. split; unfold flying, waiting in *; rewrite ?Hs, ?Ht, ?Hf, ?Hh, ?Hl; done.
Qed.

Lemma not_taken_after (T : list nat) i : i ∉ filter (fun j => j <> i) T.
Proof. rewrite list_elem_of_filter. tauto. Qed.

Lemma filter_not_in (T : list nat) i : i ∉ T -> filter (fun j => j <> i) T = T.
Proof.
  induction T as [|j T IH]; [done|]. intros [Hne Hi]%not_elem_of_cons. rewrite filter_cons_True by done. by rewrite IH.
Qed.

Lemma take_record_Some s i s' :
  take_record s = Some (i, s') -> exists r, records s !! i = Some r /\ held r = Free /\
    (forall j q, j < i -> records s !! j = Some q -> held q <> Free) /\
    s' = mk_store (<[i := hold r Taken]> (records s)) (armed s) (closed s) (waker s).
Proof.
  unfold take_record. intros (j & Hj & (s1 & Hs & [= <- <-])%bind_Some)%bind_Some.
  apply record_Some in Hs as (r & Hr & ->). apply position_Some in Hj as (x & Hx & Hf & Hbefore).
  assert (x = r) as -> by congruence. exists r. apply bool_decide_eq_true in Hf.
  split_and!; [done|done| |done]. intros k q Hk Hq Hfree.
  specialize (Hbefore k q Hk Hq). unfold is_free in Hbefore. by apply bool_decide_eq_false in Hbefore.
Qed.

Lemma taken_record w i : world_ok w -> i ∈ taken w ->
  exists r, records (store w) !! i = Some r /\ held r = Taken /\ to_destination r = false /\ i ∉ flying w.
Proof.
  intros Hw Hi. destruct (lookup_lt_is_Some_2 (records (store w)) i) as [r Hr].
  { rewrite (ok_records w Hw). apply (ok_known w Hw). by left. }
  exists r. pose proof (ok_owned w Hw i r Hr) as Ho. unfold owned in Ho. destruct (held r); tauto.
Qed.

Lemma flying_record w f : world_ok w -> f ∈ all_flights w ->
  exists r, records (store w) !! f_record f = Some r /\ held r = Sending.
Proof.
  intros Hw Hf. assert (Hin : f_record f ∈ flying w) by (by apply list_elem_of_fmap_2).
  destruct (lookup_lt_is_Some_2 (records (store w)) (f_record f)) as [r Hr].
  { rewrite (ok_records w Hw). apply (ok_known w Hw). by right. }
  exists r. pose proof (ok_owned w Hw _ r Hr) as Ho. unfold owned in Ho. destruct (held r); tauto.
Qed.

Lemma step_take w i s : world_ok w -> take_record (store w) = Some (i, s) ->
  world_ok (set_taken (set_store w s) (i :: taken w)).
Proof.
  intros Hw (r & Hr & Hf & _ & ->)%take_record_Some.
  pose proof (ok_owned w Hw i r Hr) as Ho. unfold owned in Ho. rewrite Hf in Ho.
  eapply (world_changes w _ i r); [done|done|done|..]; try done.
  - intros j Hj. cbn. rewrite elem_of_cons. tauto.
  - cbn. apply NoDup_cons. split; [tauto|apply Hw].
  - apply Hw.
  - unfold owned. cbn. rewrite elem_of_cons. tauto.
  - intros rest. unfold due_of. cbn. by rewrite Hf.
Qed.

(** A settlement writes to a record it holds. *)
Lemma step_write w i r r' s : world_ok w -> i ∈ taken w -> records (store w) !! i = Some r ->
  records s = <[i := r']> (records (store w)) -> held r' = held r -> to_destination r' = to_destination r ->
  world_ok (set_store w s).
Proof.
  intros Hw Hi Hr Hs Hh Hd. destruct (taken_record w i Hw Hi) as (q & Hq & Ht & Htd & Hfl).
  assert (q = r) as -> by congruence.
  eapply (world_changes w _ i r r'); try done; [apply Hw|apply Hw| |].
  - unfold owned. rewrite Hh, Ht, Hd. done.
  - intros rest. unfold due_of. by rewrite Hh, Ht.
Qed.

(** A settlement lets a record go. *)
Lemma step_release w w' i r' c :
  world_ok w -> i ∈ taken w -> records (store w') = <[i := r']> (records (store w)) ->
  taken w' = filter (fun j => j <> i) (taken w) -> handed w' = handed w ++ c -> left_ w' = left_ w ->
  (exists fs, all_flights w' ≡ₚ fs ++ all_flights w /\ (kept_of <$> fs) ++ due_of r' ≡ₚ c /\
     (fs = [] /\ held r' <> Taken /\ held r' <> Sending /\ to_destination r' = false \/
      exists f, fs = [f] /\ f_record f = i /\ held r' = Sending)) ->
  world_ok w'.
Proof.
  intros Hw Hi Hs Ht Hh Hl (fs & Hfs & Hc & Hr').
  destruct (taken_record w i Hw Hi) as (r & Hr & Htk & Htd & Hfl).
  assert (Hfly : flying w' ≡ₚ (f_record <$> fs) ++ flying w) by (unfold flying; by rewrite Hfs, fmap_app).
  eapply (world_changes w w' i r r'); try done.
  - intros j Hj. rewrite Ht, list_elem_of_filter. tauto.
  - intros j Hj. rewrite Hfly. destruct Hr' as [(-> & _)|(f & -> & <- & _)]; [done|]. set_solver.
  - rewrite Ht. by apply NoDup_filter, Hw.
  - rewrite Hfly. destruct Hr' as [(-> & _)|(f & -> & Hf & _)]; [apply Hw|].
    cbn. apply NoDup_cons. rewrite Hf. split; [done|apply Hw].
  - unfold owned. rewrite Ht. pose proof (not_taken_after (taken w) i).
    destruct Hr' as [(-> & Hn1 & Hn2 & Hd)|(f & -> & Hf & Hse)].
    + destruct (held r') eqn:E; try done; rewrite Hfly; by split_and!.
    + rewrite Hse, Hfly. split; [done|set_solver].
  - intros rest Hrest. unfold due_of in Hrest. rewrite Htk in Hrest. cbn in Hrest.
    rewrite Hh, Hl, Hrest, Hfs, <- Hc, fmap_app. solve_Permutation.
Qed.

(** A publish was answered: its record is free. *)
Lemma step_landed w w' f r' :
  world_ok w -> all_flights w ≡ₚ f :: all_flights w' ->
  records (store w') = <[f_record f := r']> (records (store w)) -> held r' = Free -> to_destination r' = false ->
  taken w' = taken w -> handed w' = handed w -> left_ w' = left_ w ++ [(kept_of f, f_since f)] -> world_ok w'.
Proof.
  intros Hw Hfs Hs Hfree Hd Ht Hh Hl.
  destruct (flying_record w f Hw) as (r & Hr & Hse); [rewrite Hfs; apply list_elem_of_here|].
  assert (Hfly : flying w ≡ₚ f_record f :: flying w') by (unfold flying; by rewrite Hfs).
  pose proof (ok_flying w Hw) as Hnd. rewrite Hfly in Hnd. apply NoDup_cons in Hnd as [Hnin Hnd].
  pose proof (ok_owned w Hw _ r Hr) as Ho. unfold owned in Ho. rewrite Hse in Ho.
  eapply (world_changes w w' (f_record f) r r'); try done.
  - intros j Hj. by rewrite Ht.
  - intros j Hj. rewrite Hfly. set_solver.
  - rewrite Ht. apply Hw.
  - unfold owned. rewrite Hfree, Ht. tauto.
  - intros rest Hrest. unfold due_of in *. rewrite Hse in Hrest. cbn in Hrest. rewrite Hfree, Hh, Hrest, Hl.
    rewrite Hfs, fmap_app. cbn. solve_Permutation.
Qed.

(** *** The driver's scan *)

Definition busy_record (r : CopyRecord) : Prop := held r = Taken \/ held r = Sending.

Lemma scan_due now_ i e b l j :
  scan now_ i e b l = inl j ->
  exists k r at_, j = i + k /\ l !! k = Some r /\ held r = Due at_ /\ (at_ <= now_)%N.
Proof.
  revert i e b. induction l as [|r l IH]; intros i e b; cbn; [done|].
  assert (Hrest : forall i' e' b', i' = S i -> scan now_ i' e' b' l = inl j ->
    exists k q at_, j = i + k /\ (r :: l) !! k = Some q /\ held q = Due at_ /\ (at_ <= now_)%N).
  { intros i' e' b' -> Hs. destruct (IH _ _ _ Hs) as (k & q & at_ & -> & Hk & Hq & Hle).
    exists (S k), q, at_. split_and!; [lia|done..]. }
  destruct (held r) as [| |at_|] eqn:Eh; eauto.
  destruct (N.leb_spec at_ now_) as [Hle|Hgt]; eauto.
  intros [= <-]. exists 0, r, at_. split_and!; [lia|done..].
Qed.

Record scanned (now_ : N) (e : option N) (b : bool) (l : list CopyRecord) (e' : option N) (b' : bool) : Prop := {
  scanned_due r at_ : r ∈ l -> held r = Due at_ -> (now_ < at_)%N /\ exists t, e' = Some t /\ (t <= at_)%N;
  scanned_kept t0 : e = Some t0 -> exists t, e' = Some t /\ (t <= t0)%N;
  scanned_from t : e' = Some t -> e = Some t \/ exists r, r ∈ l /\ held r = Due t;
  scanned_busy : b' = true <-> b = true \/ exists r, r ∈ l /\ busy_record r;
}.

Lemma busy_cons r l : (exists q, q ∈ r :: l /\ busy_record q) <-> busy_record r \/ exists q, q ∈ l /\ busy_record q.
Proof.
  split.
  - intros (q & [->|Hq]%elem_of_cons & Hb); [by left|right; eauto].
  - intros [Hb|(q & Hq & Hb)]; [exists r|exists q]; (split; [|done]); rewrite elem_of_cons; auto.
Qed.

Lemma scan_none now_ i e b l e' b' : scan now_ i e b l = inr (e', b') -> scanned now_ e b l e' b'.
Proof.
  revert i e b. induction l as [|r l IH]; intros i e b; cbn.
  - intros [= <- <-]. split; [set_solver|eauto using N.le_refl|auto|]. split; [auto|set_solver].
  - destruct (held r) as [| |at_|] eqn:Eh; [..|destruct (N.leb_spec at_ now_) as [?|Hgt]; [done|]|].
    all: intros [Hd Hk Hf Hb]%IH; split.
    all: try (intros q a [->|Hq]%elem_of_cons Ha; [rewrite Eh in Ha; simplify_eq|by eapply Hd]).
    all: try (intros t Ht; destruct (Hf t Ht) as [?|(q & Hq & ?)]; [by auto|right; exists q; rewrite elem_of_cons; by auto]).
    all: try (rewrite Hb, busy_cons; unfold busy_record at 2; rewrite Eh; clear; intuition congruence).
    all: try exact Hk.
    + split; [lia|]. destruct e as [t0|]; [|by apply Hk].
      destruct (Hk _ eq_refl) as (t & -> & Ht). exists t. split; [done|lia].
    + intros t0 ->. destruct (Hk _ eq_refl) as (t & -> & Ht). exists t. split; [done|lia].
    + intros t Ht. destruct (Hf t Ht) as [Hmin|(q & Hq & Hqt)].
      * injection Hmin as <-. destruct e as [t0|]; [|right; exists r; set_solver].
        destruct (N.min_spec t0 at_) as [[_ ->]|[_ ->]]; [auto|right; exists r; set_solver].
      * right. exists q. set_solver.
Qed.

(** What a poll of the driver finds. *)
Inductive polled_spec (s : CopyStore) (t : option N) (now_ later : N)
  : Polled * CopyStore * option N * bool -> Prop :=
  | polled_pending at_ : t = Some at_ -> armed s = false -> (now_ < at_)%N ->
      polled_spec s t now_ later (Waits, mk_store (records s) false (closed s) true, Some at_, false)
  | polled_copy i r at_ : records s !! i = Some r -> held r = Due at_ -> (at_ <= now_)%N ->
      polled_spec s t now_ later (Copy i, mk_store (records s) false (closed s) true, None, false)
  | polled_passed at_ : (at_ <= later)%N ->
      (exists r, r ∈ records s /\ held r = Due at_) ->
      (forall r a, r ∈ records s -> held r = Due a -> (now_ < a)%N) ->
      polled_spec s t now_ later (Waits, mk_store (records s) false (closed s) true, None, true)
  | polled_timer at_ : (later < at_)%N -> (exists r, r ∈ records s /\ held r = Due at_) ->
      (forall r a, r ∈ records s -> held r = Due a -> (now_ < a)%N /\ (at_ <= a)%N) ->
      polled_spec s t now_ later (Waits, mk_store (records s) false (closed s) true, Some at_, false)
  | polled_idle : (forall r a, r ∈ records s -> held r <> Due a) ->
      (closed s = true -> exists r, r ∈ records s /\ busy_record r) ->
      polled_spec s t now_ later (Waits, mk_store (records s) false (closed s) true, None, false)
  | polled_ended : closed s = true -> (forall r, r ∈ records s -> held r = Free) ->
      polled_spec s t now_ later (Ended, mk_store (records s) false (closed s) true, None, false).

Lemma next_due_spec s t now_ later : polled_spec s t now_ later (next_due s t now_ later).
Proof.
  unfold next_due. set (t' := if armed s then None else t).
  destruct (match t' with Some at_ => (now_ <? at_)%N | None => false end) eqn:Ep.
  - unfold t' in *. destruct (armed s) eqn:Ea; [done|]. destruct t as [at_|]; [|done].
    apply polled_pending; [done..|]. by apply N.ltb_lt.
  - clear Ep t'. destruct (scan now_ 0 None false _) as [i|[e b]] eqn:Es; cbn in Es.
    + apply scan_due in Es as (k & r & at_ & -> & Hk & Hr & Hle). by eapply polled_copy.
    + apply scan_none in Es as [Hd Hk Hf Hb]. destruct e as [at_|].
      * cbn. destruct (N.leb_spec at_ later).
        { eapply polled_passed; [done| |intros r a Hr Ha; by destruct (Hd r a Hr Ha)].
          by destruct (Hf _ eq_refl). }
        apply polled_timer; [done| |].
        -- destruct (Hf _ eq_refl) as [?|?]; done.
        -- intros r a Hr Ha. destruct (Hd r a Hr Ha) as [? (u & [= <-] & ?)]. done.
      * assert (Hnd : forall r a, r ∈ records s -> held r <> Due a).
        { intros r a Hr Ha. destruct (Hd r a Hr Ha) as (_ & u & [=] & _). }
        cbn. destruct (closed s && negb b) eqn:Ec.
        -- apply andb_true_iff in Ec as [Hc Hn]. apply negb_true_iff in Hn. apply polled_ended; [done|].
           intros r Hr. destruct (held r) as [| |a|] eqn:Eh; [done| |by destruct (Hnd r a)|].
           all: rewrite (proj2 Hb) in Hn; [done|]; right; exists r; unfold busy_record; tauto.
        -- apply polled_idle; [done|]. intros Hc. rewrite Hc in Ec. cbn in Ec.
           apply negb_false_iff, Hb in Ec as [?|?]; done.
Qed.

Lemma begin_send_Some s now_ i s' f :
  begin_send s now_ i = Some (s', f) -> exists r, records s !! i = Some r /\
    f_record f = i /\ kept_of f = kept_in r /\ f_since f = now_ /\ exists r', held r' = Sending /\
    s' = mk_store (<[i := r']> (records s)) (armed s) (closed s) (waker s).
Proof.
  unfold begin_send. intros (r & Hr & (s1 & Hs & [= <- <-])%bind_Some)%bind_Some.
  apply record_Some in Hs as (q & Hq & ->). assert (q = r) as -> by congruence.
  exists r. split_and!; [done..|]. eexists. by split; [|done].
Qed.

Lemma give_back_Some s i to s' :
  give_back s i to = Some s' -> exists r', held r' = Free /\ to_destination r' = false /\
    s' = mk_store (<[i := r']> (records s)) (armed s) (closed s) (waker s).
Proof. unfold give_back. intros (r & Hr & ->)%record_Some. eexists. by split_and!; [..|done]. Qed.

Lemma step_copy w s i later :
  world_ok w -> driver w = Polling -> forall s' f, records s = records (store w) ->
  (exists r at_, records s !! i = Some r /\ held r = Due at_) ->
  begin_send s (now w) i = Some (s', f) ->
  world_ok (mk_world s' later (Publishing f) None false (flights w) (taken w) (handed w) (left_ w)).
Proof.
  intros Hw Hd s' f Hs (q & at_ & Hq & Hdue) (r & Hr & Hrec & Hk & _ & r' & Hse & ->)%begin_send_Some.
  assert (q = r) as -> by congruence. rewrite Hs in *.
  pose proof (ok_owned w Hw i r Hr) as Ho. unfold owned in Ho. rewrite Hdue in Ho.
  assert (Hall : all_flights w = flights w) by (unfold all_flights; by rewrite Hd).
  eapply (world_changes w _ i r r'); cbn; try done.
  - intros j Hj. unfold flying. rewrite Hall. cbn. rewrite elem_of_cons, Hrec. tauto.
  - apply Hw.
  - unfold flying. cbn. rewrite Hrec. pose proof (ok_flying w Hw) as Hnd. unfold flying in *. rewrite Hall in *.
    apply NoDup_cons. split; [tauto|done].
  - unfold owned. rewrite Hse. split; [tauto|]. unfold flying. cbn. rewrite Hrec. apply list_elem_of_here.
  - intros rest Hrest. rewrite Hrest. unfold due_of. rewrite Hdue, Hse, Hall. cbn. rewrite Hk. solve_Permutation.
Qed.

Lemma reachable_step_ok w a w' : world_ok w -> step w a = Some (Some w') -> world_ok w'.
Proof.
  intros Hw Hs. destruct a as [|i b hs|i to d|i delay react|i to react|i| |later| |k|to]; cbn -[next_due] in Hs.
  - destruct (take_record (store w)) as [[i s]|] eqn:Et; [|done]. injection Hs as <-. by eapply step_take.
  - case_decide as Hi; [|done]. injection Hs as Hs. unfold fill in Hs.
    apply fmap_Some in Hs as (s & (r & Hr & ->)%record_Some & ->). by eapply step_write.
  - case_decide as Hi; [|done]. injection Hs as Hs. unfold prepare in Hs.
    apply fmap_Some in Hs as (s & (r & Hr & ->)%record_Some & ->). by eapply step_write;
      try done; destruct prepare_copy as [[? ?] ?].
  - case_decide as Hi; [|done]. injection Hs as Hs. apply bind_Some in Hs as (s & Hs & [= <-]).
    unfold arm in Hs. apply fmap_Some in Hs as (s1 & (r & Hr & ->)%record_Some & ->).
    destruct (taken_record w i Hw Hi) as (q & Hq & _ & Htd & _). assert (q = r) as -> by congruence.
    assert (Hl : i < length (records (store w))) by (by eapply lookup_lt_Some).
    eapply (step_release w _ i _ _ Hw Hi); cbn; [done..|]. exists []. split; [done|]. split.
    + unfold copy_at. cbn. by rewrite list_lookup_insert_eq.
    + left. cbn. done.
  - case_decide as Hi; [|done]. injection Hs as Hs. apply bind_Some in Hs as (s1 & Hb & Hs).
    apply bind_Some in Hs as ([s2 f] & Hf & [= <-]).
    apply record_Some in Hb as (r & Hr & ->). apply begin_send_Some in Hf as (q & Hq & Hrec & Hk & _ & r' & Hse & ->).
    eapply (step_release w _ i r' _ Hw Hi); cbn; [by rewrite list_insert_insert_eq|done..|].
    exists [f]. split_and!.
    + unfold all_flights. cbn. rewrite app_assoc. apply Permutation_app_comm.
    + unfold due_of. by rewrite Hse.
    + right. by exists f.
  - case_decide as Hi; [|done]. injection Hs as Hs. apply bind_Some in Hs as (s & Hs & [= <-]).
    unfold free in Hs. apply bind_Some in Hs as (s1 & (r & Hr & ->)%record_Some & Hg).
    apply give_back_Some in Hg as (r' & Hfree & Htd & ->).
    eapply (step_release w _ i r' [] Hw Hi); cbn; [by rewrite list_insert_insert_eq|done|by rewrite app_nil_r|done|].
    exists []. split; [done|]. split; [unfold due_of; by rewrite Hfree|left]. by rewrite Hfree.
  - injection Hs as <-. by apply (world_same w).
  - destruct (driver w) eqn:Hd; try done. destruct (later <? now w)%N; [done|].
    destruct (next_due_spec (store w) (timer w) (now w) later); injection Hs as Hs; try subst w';
      try (apply (world_same w); unfold all_flights; cbn; by rewrite ?Hd).
    apply bind_Some in Hs as ([s f] & Hf & [= <-]). cbn.
    refine (step_copy w _ i later Hw Hd s f _ _ Hf); [done|by eauto].
  - destruct (driver w) as [|f|] eqn:Hd; try done. injection Hs as Hs.
    apply bind_Some in Hs as (s & Hg & [= <-]). unfold end_send in Hg.
    apply give_back_Some in Hg as (r' & Hfree & Htd & ->).
    eapply (step_landed w _ f r'); try done. unfold all_flights. by rewrite Hd.
  - destruct (flights w !! k) as [f|] eqn:Hk; [|done]. injection Hs as Hs.
    apply bind_Some in Hs as (s & Hg & [= <-]). unfold end_send in Hg.
    apply give_back_Some in Hg as (r' & Hfree & Htd & ->).
    eapply (step_landed w _ f r'); try done. unfold all_flights. cbn.
    rewrite (delete_Permutation _ _ _ Hk) at 1. solve_Permutation.
  - destruct (to <? now w)%N; [done|]. injection Hs as <-. by apply (world_same w).
Qed.

Lemma copies_initial_ok : world_ok initial.
Proof.
  split; cbn; try constructor.
  - by rewrite length_replicate.
  - intros i r [-> _]%lookup_replicate. unfold owned. cbn. set_solver.
  - set_solver.
  - unfold waiting. cbn. clear. induction CAP as [|n IH]; cbn; [done|]. by rewrite <- IH.
Qed.

Lemma copies_reachable_ok w : reachable w -> world_ok w.
Proof. induction 1 as [|w a w' _ IH Hs]; [apply copies_initial_ok|by eapply reachable_step_ok]. Qed.

(** *** The driver's sleep *)

Definition due_in (s : CopyStore) (a : N) : Prop := exists r, r ∈ records s /\ held r = Due a.
Definition in_use (s : CopyStore) : Prop := exists r, r ∈ records s /\ held r <> Free.

Record sleep_ok (w : World) : Prop := {
  sleep_waker : notified w = false -> waker (store w) = true;
  sleep_timer t : timer w = Some t -> due_in (store w) t;
  sleep_earliest a t : armed (store w) = false -> due_in (store w) a -> timer w = Some t -> (t <= a)%N;
  sleep_armed : notified w = false -> armed (store w) = false;
  sleep_due a : notified w = false -> due_in (store w) a -> exists t, timer w = Some t;
  sleep_ahead t : notified w = false -> timer w = Some t -> (now w < t)%N;
  sleep_closed : notified w = false -> closed (store w) = true -> in_use (store w);
}.

Definition driver_ok (w : World) : Prop :=
  match driver w with
  | Polling => sleep_ok w
  | Publishing _ => timer w = None /\ waker (store w) = true
  | Finished => True
  end.

Definition not_due (h : Held) : Prop := forall a, h <> Due a.

Lemma due_insert (l : list CopyRecord) (i : nat) (r r' : CopyRecord) a :
  l !! i = Some r -> not_due (held r) -> not_due (held r') ->
  (exists q, q ∈ <[i := r']> l /\ held q = Due a) <-> (exists q, q ∈ l /\ held q = Due a).
Proof.
  intros Hr Hn Hn'. split; intros (q & [j Hj]%list_elem_of_lookup & Hq).
  - apply list_lookup_insert_Some in Hj as [(-> & -> & _)|[Hne Hj]]; [by destruct (Hn' a)|].
    exists q. split; [by eapply list_elem_of_lookup_2|done].
  - destruct (decide (j = i)) as [->|Hne]; [destruct (Hn a); congruence|].
    exists q. split; [|done]. apply list_elem_of_lookup. exists j. by rewrite list_lookup_insert_ne.
Qed.

Lemma in_use_insert (l : list CopyRecord) (i : nat) (r' : CopyRecord) : i < length l -> held r' <> Free -> exists q, q ∈ <[i := r']> l /\ held q <> Free.
Proof.
  intros Hi Hf. exists r'. split; [|done]. apply list_elem_of_lookup. exists i. by rewrite list_lookup_insert_eq.
Qed.

(** A step that makes no copy due and takes none that is: the driver's sleep is still right, and
    where it leaves nothing in use the driver was woken. *)
Lemma driver_same w w' :
  driver_ok w -> driver w' = driver w -> timer w' = timer w -> now w' = now w ->
  armed (store w') = armed (store w) -> waker (store w') = waker (store w) ->
  (forall a, due_in (store w') a <-> due_in (store w) a) ->
  (notified w' = false -> notified w = false) ->
  (driver w = Polling -> notified w' = false -> closed (store w') = true ->
     closed (store w) = true /\ (in_use (store w) -> in_use (store w'))) ->
  driver_ok w'.
Proof.
  unfold driver_ok. intros Hok Hd Ht Hn Ha Hwk Hdue Hnot Hcl. rewrite Hd, Ht, Hwk.
  destruct (driver w); [|done..]. specialize (Hcl eq_refl). destruct Hok as [H1 H2 H3 H4 H5 H6 H7].
  split; rewrite ?Ht, ?Hn, ?Ha, ?Hwk; auto.
  - intros t Hs. by apply Hdue, H2.
  - intros a t Har Hda. apply H3; [done|]. by apply Hdue.
  - intros a Hf Hda. apply (H5 a); [auto|]. by apply Hdue.
  - intros Hf Hc. destruct (Hcl Hf Hc) as [Hc' Hu]. auto.
Qed.

(** [wake] leaves no polling driver asleep. *)
Lemma woken_notified w s : driver_ok w -> driver w = Polling -> waker s = waker (store w) ->
  notified w || waker s = true.
Proof.
  unfold driver_ok. intros Hok Hd ->. rewrite Hd in Hok.
  destruct (notified w) eqn:En; [done|]. by rewrite (sleep_waker w Hok En).
Qed.

(** One record changes, due neither before nor after; it stays in use, or the driver is woken. *)
Lemma driver_record w w' i r r' :
  driver_ok w -> records (store w) !! i = Some r -> not_due (held r) -> not_due (held r') ->
  store w' = mk_store (<[i := r']> (records (store w))) (armed (store w)) (closed (store w)) (waker (store w)) ->
  driver w' = driver w -> timer w' = timer w -> now w' = now w ->
  notified w' = notified w /\ held r' <> Free \/ notified w' = notified w || waker (store w) ->
  driver_ok w'.
Proof.
  intros Hok Hr Hn Hn' Hs Hd Ht Hnow Hw'. eapply (driver_same w); try done; rewrite ?Hs; cbn; try done.
  - intros a. by apply (due_insert _ _ r).
  - destruct Hw' as [[-> _]| ->]; [done|]. by intros [-> _]%orb_false_iff.
  - intros Hp Hf Hc. split; [done|]. intros _.
    destruct Hw' as [[_ Hr']|Hw']; [apply in_use_insert; [by eapply lookup_lt_Some|done]|].
    rewrite Hw' in Hf. by rewrite (woken_notified w (store w)) in Hf.
Qed.

Lemma taken_not_due w i r : world_ok w -> i ∈ taken w -> records (store w) !! i = Some r -> not_due (held r).
Proof. intros Hw Hi Hr. destruct (taken_record w i Hw Hi) as (q & Hq & Ht & _). intros a. congruence. Qed.

(** What a woken driver is owed: only where its timer stands. *)
Lemma sleep_woken w : notified w = true ->
  (forall t, timer w = Some t -> due_in (store w) t) ->
  (forall a t, armed (store w) = false -> due_in (store w) a -> timer w = Some t -> (t <= a)%N) -> sleep_ok w.
Proof. intros Hn Ht He. split; try done; rewrite Hn; done. Qed.

Lemma step_poll_driver w later w' :
  world_ok w -> driver_ok w -> step w (PollDriver later) = Some (Some w') -> driver_ok w'.
Proof.
  intros Hw Hok Hs. unfold driver_ok in Hok. cbn -[next_due] in Hs.
  destruct (driver w) eqn:Hd; try done. destruct (N.ltb_spec later (now w)) as [|Hlater]; [done|].
  destruct Hok as [H1 H2 H3 H4 H5 H6 H7].
  destruct (next_due_spec (store w) (timer w) (now w) later) as
    [t Ht Ha Hlt|i r t Hr Hdue Hle|t Hle _ Hnone|t Hlt (r & Hr & Hrt) Hall|Hno Hbusy|Hc Hfree];
    injection Hs as Hs; try subst w'.
  - unfold driver_ok. split; cbn; try done.
    + intros t' [= <-]. by destruct (H2 t Ht) as (r & Hr & Hrt); exists r.
    + intros a t' _ (r & Hr & Hra) [= <-]. eapply (H3 a); [done|by exists r|done].
    + eauto.
    + intros t' Hf [= <-]. by apply N.leb_gt in Hf.
    + intros _ _. destruct (H2 t Ht) as (r & Hr & Hrt). exists r. split; [done|congruence].
  - apply bind_Some in Hs as ([s f] & Hf & [= <-]). unfold driver_ok. cbn.
    by apply begin_send_Some in Hf as (q & _ & _ & _ & _ & r' & _ & ->).
  - unfold driver_ok. split; cbn; done.
  - unfold driver_ok. split; cbn; try done.
    + intros t' [= <-]. by exists r.
    + intros a t' _ (q & Hq & Hqa) [= <-]. by eapply Hall.
    + eauto.
    + by intros t' _ [= <-].
    + intros _ _. exists r. split; [done|congruence].
  - unfold driver_ok. split; cbn; try done.
    + intros a _ (q & Hq & Hqa). by destruct (Hno q a).
    + intros _ Hc. destruct (Hbusy Hc) as (r & Hr & Hb). exists r. split; [done|].
      unfold busy_record in Hb. destruct Hb; congruence.
  - done.
Qed.

Lemma step_driver w a w' : world_ok w -> driver_ok w -> step w a = Some (Some w') -> driver_ok w'.
Proof.
  intros Hw Hok Hs.
  destruct a as [|i b hs|i to d|i delay react|i to react|i| |later| |k|to]; [..|by eapply step_poll_driver| | |];
    cbn in Hs.
  - destruct (take_record (store w)) as [[i s]|] eqn:Et; [|done]. injection Hs as <-.
    apply take_record_Some in Et as (r & Hr & Hf & _ & ->).
    eapply (driver_record w _ i r); try done; try (intros ?; cbn; congruence); by left.
  - case_decide as Hi; [|done]. injection Hs as Hs. apply fmap_Some in Hs as (s & (r & Hr & ->)%record_Some & ->).
    destruct (taken_record w i Hw Hi) as (q & Hq & Ht & _). assert (q = r) as -> by congruence.
    eapply (driver_record w _ i r); try done; cbn; rewrite ?Ht; try (intros ?; congruence); by left.
  - case_decide as Hi; [|done]. injection Hs as Hs. apply fmap_Some in Hs as (s & (r & Hr & ->)%record_Some & ->).
    destruct (taken_record w i Hw Hi) as (q & Hq & Ht & _). assert (q = r) as -> by congruence.
    destruct prepare_copy as [[p h] o].
    eapply (driver_record w _ i r); try done; cbn; rewrite ?Ht; try (intros ?; congruence); by left.
  - case_decide as Hi; [|done]. injection Hs as Hs. apply bind_Some in Hs as (s & Hs & [= <-]).
    unfold arm in Hs. apply fmap_Some in Hs as (s1 & (r & Hr & ->)%record_Some & ->).
    pose proof (taken_not_due w i r Hw Hi Hr) as Hnd.
    unfold driver_ok in *. cbn. destruct (driver w) eqn:Hd; [|done..].
    apply sleep_woken; cbn; [by apply (woken_notified w (store w)); [unfold driver_ok; rewrite Hd|..]| |done].
    intros t Ht. destruct (sleep_timer w Hok t Ht) as (q & [j Hj]%list_elem_of_lookup & Hq).
    destruct (decide (j = i)) as [->|Hne]; [destruct (Hnd t); congruence|].
    exists q. split; [|done]. apply list_elem_of_lookup. exists j. cbn. by rewrite list_lookup_insert_ne.
  - case_decide as Hi; [|done]. injection Hs as Hs. apply bind_Some in Hs as (s1 & Hb & Hs).
    apply bind_Some in Hs as ([s2 f] & Hf & [= <-]).
    apply record_Some in Hb as (r & Hr & ->). apply begin_send_Some in Hf as (q & Hq & Hrec & Hk & _ & r' & Hse & ->).
    pose proof (taken_not_due w i r Hw Hi Hr) as Hnd.
    eapply (driver_record w _ i r r'); try done; cbn; rewrite ?Hse; try (intros ?; congruence); [|by left].
    by rewrite list_insert_insert_eq.
  - case_decide as Hi; [|done]. injection Hs as Hs. apply bind_Some in Hs as (s & Hs & [= <-]).
    unfold free in Hs. apply bind_Some in Hs as (s1 & (r & Hr & ->)%record_Some & Hg).
    apply give_back_Some in Hg as (r' & Hfree & Htd & ->). pose proof (taken_not_due w i r Hw Hi Hr) as Hnd.
    eapply (driver_record w _ i r r'); try done; cbn; rewrite ?Hfree; try (intros ?; congruence); [|by right].
    by rewrite list_insert_insert_eq.
  - injection Hs as <-. unfold driver_ok in *. cbn. destruct (driver w) eqn:Hd; [|done..].
    apply sleep_woken; [by apply (woken_notified w (store w)); [unfold driver_ok; rewrite Hd|..]|apply Hok|apply Hok].
  - destruct (driver w) as [|f|] eqn:Hd; try done. injection Hs as Hs.
    apply bind_Some in Hs as (s & Hg & [= <-]). unfold driver_ok in *. rewrite Hd in Hok.
    apply sleep_woken; cbn; done.
  - destruct (flights w !! k) as [f|] eqn:Hk; [|done]. injection Hs as Hs.
    apply bind_Some in Hs as (s & Hg & [= <-]). unfold end_send in Hg.
    destruct (flying_record w f Hw) as (r & Hr & Hse).
    { unfold all_flights. rewrite elem_of_app. right. by eapply list_elem_of_lookup_2. }
    apply give_back_Some in Hg as (r' & Hfree & Htd & ->).
    eapply (driver_record w _ (f_record f) r r'); try done; cbn; rewrite ?Hfree, ?Hse; try (intros ?; congruence). by right.
  - destruct (N.ltb_spec to (now w)) as [|Hto]; [done|]. injection Hs as <-. unfold driver_ok in *. cbn.
    destruct (driver w) eqn:Hd; [|done..]. destruct Hok as [H1 H2 H3 H4 H5 H6 H7].
    split; cbn; try done.
    + intros [? _]%orb_false_iff. auto.
    + intros [? _]%orb_false_iff. auto.
    + intros a [? _]%orb_false_iff. by apply H5.
    + intros t [Hn Hf]%orb_false_iff Ht. rewrite Ht in Hf. by apply N.leb_gt in Hf.
    + intros [? _]%orb_false_iff. auto.
Qed.

Lemma reachable_driver w : reachable w -> driver_ok w.
Proof.
  induction 1 as [|w a w' Hr IH Hs]; [|by eapply step_driver; [apply copies_reachable_ok|..]].
  unfold driver_ok. cbn. by apply sleep_woken.
Qed.

(** *** No copy leaves early, and no record index is out of range *)

Definition timely (w : World) : Prop :=
  (forall f a, f ∈ all_flights w -> f_due f = Some a -> (a <= f_since f)%N) /\
  (forall c t a, (c, t) ∈ left_ w -> k_due c = Some a -> (a <= t)%N).

Lemma begin_send_due s now_ i s' f r :
  begin_send s now_ i = Some (s', f) -> records s !! i = Some r -> f_due f = due_at (held r) /\ f_since f = now_.
Proof.
  intros (q & Hq & _ & Hk & Hs & _)%begin_send_Some Hr. assert (q = r) as -> by congruence.
  split; [|done]. change (f_due f) with (k_due (kept_of f)). by rewrite Hk.
Qed.

Lemma timely_same w w' : timely w -> all_flights w' = all_flights w -> left_ w' = left_ w -> timely w'.
Proof. intros Hw Hf Hl. unfold timely. by rewrite Hf, Hl. Qed.

Lemma timely_left w w' f :
  timely w -> all_flights w ≡ₚ f :: all_flights w' -> left_ w' = left_ w ++ [(kept_of f, f_since f)] -> timely w'.
Proof.
  intros [Hf Hl] Hfs Hls. split.
  - intros g a Hg. apply Hf. rewrite Hfs. by apply list_elem_of_further.
  - intros c t a. rewrite Hls, elem_of_app, list_elem_of_singleton.
    intros [Hc|[= -> ->]]; [by apply Hl|]. cbn. apply Hf. rewrite Hfs. apply list_elem_of_here.
Qed.

Lemma step_timely w a w' : world_ok w -> timely w -> step w a = Some (Some w') -> timely w'.
Proof.
  intros Hw Ht Hs.
  destruct a as [|i b hs|i to d|i delay react|i to react|i| |later| |k|to]; cbn -[next_due] in Hs.
  - destruct (take_record (store w)) as [[i s]|]; [|done]. injection Hs as <-. by apply (timely_same w).
  - case_decide; [|done]. injection Hs as Hs. apply fmap_Some in Hs as (s & _ & ->). by apply (timely_same w).
  - case_decide; [|done]. injection Hs as Hs. apply fmap_Some in Hs as (s & _ & ->). by apply (timely_same w).
  - case_decide; [|done]. injection Hs as Hs. apply bind_Some in Hs as (s & _ & [= <-]). by apply (timely_same w).
  - case_decide as Hi; [|done]. injection Hs as Hs. apply bind_Some in Hs as (s1 & Hb & Hs).
    apply bind_Some in Hs as ([s2 f] & Hf & [= <-]). destruct (taken_record w i Hw Hi) as (r & Hr & Htk & _).
    apply record_Some in Hb as (q & Hq & ->). assert (q = r) as -> by congruence.
    eapply begin_send_due in Hf as [Hfd _]; [|cbn; apply list_lookup_insert_eq; by eapply lookup_lt_Some].
    cbn in Hfd. rewrite Htk in Hfd. destruct Ht as [H1 H2]. split; [|apply H2].
    intros g a Hg Ha. unfold all_flights in Hg. cbn in Hg. rewrite app_assoc, elem_of_app, list_elem_of_singleton in Hg.
    destruct Hg as [Hg| ->]; [by apply H1|]. cbn in Hfd. congruence.
  - case_decide; [|done]. injection Hs as Hs. apply bind_Some in Hs as (s & _ & [= <-]). by apply (timely_same w).
  - injection Hs as <-. by apply (timely_same w).
  - destruct (driver w) eqn:Hd; try done. destruct (later <? now w)%N; [done|].
    destruct (next_due_spec (store w) (timer w) (now w) later) as [| i r a Hr Hdue Hle| | | |]; injection Hs as Hs; try subst w';
      try (apply (timely_same w); unfold all_flights; cbn; by rewrite ?Hd).
    apply bind_Some in Hs as ([s f] & Hf & [= <-]). eapply begin_send_due in Hf as [Hfd Hsi]; [|exact Hr].
    destruct Ht as [H1 H2]. split; [|apply H2]. intros g b Hg Hb. unfold all_flights in *. cbn in Hg.
    apply elem_of_cons in Hg as [->|Hg]; [|apply H1; [by rewrite Hd|done]].
    rewrite Hfd, Hdue in Hb. injection Hb as <-. by rewrite Hsi.
  - destruct (driver w) as [|f|] eqn:Hd; try done. injection Hs as Hs. apply bind_Some in Hs as (s & _ & [= <-]).
    apply (timely_left w _ f); [done| |done]. unfold all_flights. by rewrite Hd.
  - destruct (flights w !! k) as [f|] eqn:Hk; [|done]. injection Hs as Hs. apply bind_Some in Hs as (s & _ & [= <-]).
    apply (timely_left w _ f); [done| |done]. unfold all_flights. cbn.
    rewrite (delete_Permutation _ _ _ Hk) at 1. solve_Permutation.
  - destruct (to <? now w)%N; [done|]. injection Hs as <-. by apply (timely_same w).
Qed.

Lemma reachable_timely w : reachable w -> timely w.
Proof.
  induction 1 as [|w a w' Hr IH Hs]; [split; set_solver|by eapply step_timely; [apply copies_reachable_ok|..]].
Qed.

Lemma step_no_panic w a : world_ok w -> step w a <> Some None.
Proof.
  intros Hw Hs.
  assert (Hrec : forall s i f, length (records s) = CAP -> i < CAP -> exists s', record s i f = Some s' /\ length (records s') = CAP).
  { intros s i f Hl Hi. unfold record. destruct (lookup_lt_is_Some_2 (records s) i) as [r ->]; [lia|].
    eexists. split; [done|]. cbn. by rewrite length_insert. }
  pose proof (ok_records w Hw) as Hl.
  assert (Htk : forall i, i ∈ taken w -> i < CAP) by (intros; apply (ok_known w Hw); auto).
  assert (Hfl : forall f, f ∈ all_flights w -> f_record f < CAP).
  { intros f Hf. apply (ok_known w Hw). right. by apply list_elem_of_fmap_2. }
  assert (Hsend : forall s n i, length (records s) = CAP -> i < CAP -> exists p, begin_send s n i = Some p).
  { intros s n i Hs' Hi. unfold begin_send. destruct (lookup_lt_is_Some_2 (records s) i) as [r Hr]; [lia|].
    rewrite Hr. cbn. edestruct (Hrec s i) as (s' & -> & _); [done..|]. cbn. eauto. }
  destruct a as [|i b hs|i to d|i delay react|i to react|i| |later| |k|to]; cbn -[next_due] in Hs.
  - by destruct (take_record (store w)) as [[i s]|].
  - case_decide as Hi; [|done]. unfold fill in Hs. edestruct (Hrec (store w) i) as (s & Hr & _); [auto..|].
    by rewrite Hr in Hs.
  - case_decide as Hi; [|done]. unfold prepare in Hs. edestruct (Hrec (store w) i) as (s & Hr & _); [auto..|].
    by rewrite Hr in Hs.
  - case_decide as Hi; [|done]. unfold arm in Hs. edestruct (Hrec (store w) i) as (s & Hr & _); [auto..|].
    by rewrite Hr in Hs.
  - case_decide as Hi; [|done]. unfold bind_to in Hs. edestruct (Hrec (store w) i) as (s & Hr & Hl'); [auto..|].
    rewrite Hr in Hs. cbn in Hs. destruct (Hsend s (now w) i) as [[s' f] Hf]; [auto..|]. by rewrite Hf in Hs.
  - case_decide as Hi; [|done]. unfold free, give_back in Hs. edestruct (Hrec (store w) i) as (s & Hr & Hl'); [auto..|].
    rewrite Hr in Hs. cbn in Hs. edestruct (Hrec s i) as (s' & Hr' & _); [auto..|]. by rewrite Hr' in Hs.
  - done.
  - destruct (driver w) eqn:Hd; try done. destruct (later <? now w)%N; [done|].
    destruct (next_due_spec (store w) (timer w) (now w) later) as [|i r a Hr _ _| | | |]; try done.
    destruct (Hsend (mk_store (records (store w)) false (closed (store w)) true) (now w) i) as [[s f] Hf];
      [done|rewrite <- Hl; by eapply lookup_lt_Some|]. by rewrite Hf in Hs.
  - destruct (driver w) as [|f|] eqn:Hd; try done. unfold end_send, give_back in Hs.
    edestruct (Hrec (store w) (f_record f)) as (s & Hr & _); [done|apply Hfl; unfold all_flights; rewrite Hd; apply list_elem_of_here|].
    by rewrite Hr in Hs.
  - destruct (flights w !! k) as [f|] eqn:Hk; [|done]. unfold end_send, give_back in Hs.
    edestruct (Hrec (store w) (f_record f)) as (s & Hr & _); [done| |by rewrite Hr in Hs].
    apply Hfl. unfold all_flights. rewrite elem_of_app. right. by eapply list_elem_of_lookup_2.
  - by destruct (to <? now w)%N.
Qed.

Lemma run_app w l k : run w (l ++ k) = w' ← run w l; run w' k.
Proof.
  revert w. induction l as [|a l IH]; intros w; [done|]. cbn. destruct (step w a) as [[v|]|]; [apply IH|done..].
Qed.

Lemma copies_run_reachable w schedule w' : reachable w -> run w schedule = Some w' -> reachable w'.
Proof.
  revert w. induction schedule as [|a l IH]; intros w Hr; cbn; [by intros [= <-]|].
  destruct (step w a) as [[v|]|] eqn:Hs; [|done..]. apply IH. by eapply reach_step.
Qed.

(** ** The properties *)

(** C9. Every copy handed over to the store (armed with a delay, or sent at once) is in one place,
    with the bytes, headers, options, destination and reaction it was prepared with: waiting in its
    record, being published, or published, and each leaves once.  A copy kept for a delay never
    leaves before its instant, and no call of a settlement, a driver or a publish panics. *)
Theorem kept_copies_leave_once w :
  reachable w ->
  (handed w ≡ₚ (left_ w).*1 ++ waiting (store w) ++ (kept_of <$> all_flights w)) /\
  (forall c t a, (c, t) ∈ left_ w -> k_due c = Some a -> (a <= t)%N) /\
  (forall a, step w a <> Some None).
Proof.
  intros Hr. pose proof (copies_reachable_ok w Hr) as Hw. split_and!; [by apply ok_copies| |].
  - apply (reachable_timely w Hr).
  - intros a. by apply step_no_panic.
Qed.

Lemma elem_of_held_at w p i : i ∈ held_at w p <-> exists r, records (store w) !! i = Some r /\ p (held r) = true /\ i < CAP.
Proof.
  unfold held_at. rewrite elem_of_filterb, elem_of_seq.
  destruct (records (store w) !! i) as [r|]; [|naive_solver]. split.
  - intros [Hp Hi]. exists r. split_and!; [done|done|lia].
  - intros (q & [= <-] & Hp & Hi). split; [done|lia].
Qed.

(** The records are accounted for: each of the [CAP] records is held by one settlement, by one
    publish, by one copy waiting for its instant, or is free; and a settlement is refused a record
    exactly when none is free. *)
Theorem records_have_one_owner w :
  reachable w ->
  (seq 0 CAP ≡ₚ taken w ++ flying w ++ held_at w is_due ++ held_at w (fun h => bool_decide (h = Free))) /\
  (take_record (store w) = None <-> held_at w (fun h => bool_decide (h = Free)) = []).
Proof.
  intros Hr. pose proof (copies_reachable_ok w Hr) as Hw. split.
  - assert (Hown : forall i, i < CAP -> exists r, records (store w) !! i = Some r /\ owned r i (taken w) (flying w)).
    { intros i Hi. destruct (lookup_lt_is_Some_2 (records (store w)) i) as [r Hri]; [by rewrite (ok_records w Hw)|].
      exists r. split; [done|by apply (ok_owned w Hw)]. }
    apply NoDup_Permutation; [apply NoDup_seq| |].
    + repeat rewrite NoDup_app. split_and!; try apply Hw; try (apply NoDup_ListNoDup, List.NoDup_filter, NoDup_ListNoDup, NoDup_seq).
      * intros i Hi Hin. destruct (Hown i) as (r & Hri & Ho); [apply (ok_known w Hw); auto|].
        rewrite !elem_of_app, !elem_of_held_at in Hin. unfold owned in Ho.
        destruct Hin as [|[(q & Hq & Hp & _)|(q & Hq & Hp & _)]]; [by destruct (held r); tauto|..];
          assert (q = r) as -> by congruence; destruct (held r); try done; tauto.
      * intros i Hi Hin. destruct (Hown i) as (r & Hri & Ho); [apply (ok_known w Hw); auto|].
        rewrite elem_of_app, !elem_of_held_at in Hin. unfold owned in Ho.
        destruct Hin as [(q & Hq & Hp & _)|(q & Hq & Hp & _)];
          assert (q = r) as -> by congruence; destruct (held r); try done; tauto.
      * intros i. rewrite !elem_of_held_at. intros (r & Hri & Hp & _) (q & Hq & Hp' & _).
        assert (q = r) as -> by congruence. by destruct (held r).
    + intros i. rewrite !elem_of_app, !elem_of_held_at, elem_of_seq. split.
      * intros [_ Hi]. destruct (Hown i) as (r & Hri & Ho); [lia|]. unfold owned in Ho.
        destruct (held r) eqn:E; [do 3 right|left; tauto|do 2 right; left|right; left; tauto];
          exists r; rewrite E; (split_and!; [done|done|lia]).
      * intros Hi. split; [lia|]. cbn. destruct Hi as [Hi|[Hi|[(r & _ & _ & Hi)|(r & _ & _ & Hi)]]];
          [apply (ok_known w Hw); auto..|done|done].
  - unfold take_record. destruct (position is_free (records (store w))) as [i|] eqn:Ep; cbn.
    + apply position_Some in Ep as (r & Hri & Hf & _). unfold record. rewrite Hri. cbn. split; [done|].
      intros Hnil. assert (Hin : i ∈ held_at w (fun h => bool_decide (h = Free))).
      { apply elem_of_held_at. exists r. split_and!; [done|done|]. rewrite <- (ok_records w Hw). by eapply lookup_lt_Some. }
      rewrite Hnil in Hin. by apply not_elem_of_nil in Hin.
    + split; [intros _|done]. destruct (held_at w _) as [|i l] eqn:E; [done|].
      assert (Hin : i ∈ held_at w (fun h => bool_decide (h = Free))) by (rewrite E; apply list_elem_of_here).
      apply elem_of_held_at in Hin as (r & Hri & Hf & _). rewrite position_None in Ep.
      specialize (Ep r ltac:(by eapply list_elem_of_lookup_2)). unfold is_free in Ep. congruence.
Qed.

(** The driver never oversleeps.  While it waits with nobody to run it, its one timer stands at
    the earliest instant a copy is due at, and that instant is ahead; with no copy waiting it
    sleeps only while the store is open or a record is still in use.  And a poll of the driver
    while a copy is due begins to publish a copy whose instant has come. *)
Theorem driver_never_oversleeps w :
  reachable w -> driver w = Polling ->
  (notified w = false ->
     (forall a, due_in (store w) a -> exists t, timer w = Some t /\ (t <= a)%N) /\
     (forall t, timer w = Some t -> due_in (store w) t /\ (now w < t)%N) /\
     (closed (store w) = true -> in_use (store w))) /\
  (forall a later, due_in (store w) a -> (a <= now w)%N -> (now w <= later)%N ->
     exists w' f d, step w (PollDriver later) = Some (Some w') /\ driver w' = Publishing f /\
       f_due f = Some d /\ (d <= now w)%N).
Proof.
  intros Hr Hd. pose proof (copies_reachable_ok w Hr) as Hw. pose proof (reachable_driver w Hr) as Hok.
  unfold driver_ok in Hok. rewrite Hd in Hok. split.
  - intros Hn. split_and!.
    + intros a Ha. destruct (sleep_due w Hok a Hn Ha) as [t Ht]. exists t. split; [done|].
      by eapply (sleep_earliest w Hok); [apply (sleep_armed w Hok)|..].
    + intros t Ht. split; [by apply (sleep_timer w Hok)|by apply (sleep_ahead w Hok)].
    + by apply (sleep_closed w Hok).
  - intros a later (q & Hq & Hqa) Ha Hlater. pose proof (step_no_panic w (PollDriver later) Hw) as Hnp.
    cbn -[next_due] in *. rewrite Hd, (proj2 (N.ltb_ge _ _) Hlater) in *.
    destruct (next_due_spec (store w) (timer w) (now w) later) as
      [t Ht Har Hlt|i r t Hri Hdue Hle|t Hle _ Hnone|t Hlt _ Hall|Hno _|_ Hfree].
    + exfalso. assert (t <= a)%N by (eapply (sleep_earliest w Hok); [done|by exists q|done]). lia.
    + destruct (begin_send _ (now w) i) as [[s f]|] eqn:Hf; [|done]. cbn. eexists _, f, t.
      split; [done|]. eapply begin_send_due in Hf as [Hfd _]; [|exact Hri]. rewrite Hdue in Hfd. done.
    + exfalso. specialize (Hnone q a Hq Hqa). lia.
    + exfalso. destruct (Hall q a Hq Hqa). lia.
    + by destruct (Hno q a).
    + rewrite (Hfree q Hq) in Hqa. done.
Qed.

(** The driver ends with its store: its poll ends it exactly when the store is closed and
    every record is free, and every copy handed over has then left. *)
Theorem driver_ends_with_the_last_copy w later :
  reachable w -> driver w = Polling -> (now w <= later)%N ->
  ((exists w', step w (PollDriver later) = Some (Some w') /\ driver w' = Finished) <->
   closed (store w) = true /\ forall r, r ∈ records (store w) -> held r = Free) /\
  ((forall r, r ∈ records (store w) -> held r = Free) -> handed w ≡ₚ (left_ w).*1).
Proof.
  intros Hr Hd Hlater. pose proof (copies_reachable_ok w Hr) as Hw. pose proof (reachable_driver w Hr) as Hok.
  unfold driver_ok in Hok. rewrite Hd in Hok. split.
  - cbn -[next_due]. rewrite Hd, (proj2 (N.ltb_ge _ _) Hlater).
    destruct (next_due_spec (store w) (timer w) (now w) later) as
      [t Ht Har Hlt|i r t Hri Hdue Hle|t Hle (r & Hrr & Hrt) Hnone|t Hlt (r & Hrr & Hrt) Hall|Hno Hbusy|Hc Hfree].
    + split; [by intros (w' & [= <-] & [=])|]. intros [_ Hf].
      destruct (sleep_timer w Hok t Ht) as (r & Hrr & Hrt). rewrite (Hf r Hrr) in Hrt. done.
    + split.
      * intros (w' & [= Hs] & Hf). apply bind_Some in Hs as ([s f] & _ & [= <-]). done.
      * intros [_ Hf]. rewrite (Hf r) in Hdue; [done|by eapply list_elem_of_lookup_2].
    + split; [by intros (w' & [= <-] & [=])|].
      intros [_ Hf]. by rewrite (Hf r Hrr) in Hrt.
    + split; [by intros (w' & [= <-] & [=])|]. intros [_ Hf]. by rewrite (Hf r Hrr) in Hrt.
    + split; [by intros (w' & [= <-] & [=])|]. intros [Hc Hf].
      destruct (Hbusy Hc) as (r & Hrr & [Hb|Hb]); rewrite (Hf r Hrr) in Hb; done.
    + split; [done|]. intros _. eexists. by split.
  - intros Hfree. rewrite (ok_copies w Hw).
    assert (Hwait : waiting (store w) = []).
    { unfold waiting. induction (records (store w)) as [|r l IH]; [done|]. cbn. unfold due_of at 1.
      rewrite (Hfree r) by apply list_elem_of_here. cbn. apply IH. intros q Hq. apply Hfree. by apply list_elem_of_further. }
    assert (Hfl : all_flights w = []).
    { destruct (all_flights w) as [|f l] eqn:E; [done|].
      destruct (flying_record w f Hw) as (r & Hri & Hse); [rewrite E; apply list_elem_of_here|].
      rewrite (Hfree r) in Hse; [done|by eapply list_elem_of_lookup_2]. }
    rewrite Hwait, Hfl. cbn. by rewrite app_nil_r.
Qed.

(** What follows the publish of a kept copy is what follows a copy the retry publisher sends. *)
Lemma sent_follow_copy_sent f answer :
  sent_follow f answer = copy_sent answer (f_reaction f) (target f) (f_payload f).
Proof. destruct answer as [|e]; [done|]. cbn. unfold lost. by destruct (f_reaction f). Qed.
End copies.

(** ** Witnesses: two records; one copy due at 5, one sent at once and refused a record after it *)

Definition ex_ticks (d : N) : option N := Some d.
Definition ex_prepare (p : bytes) (h : HeaderMap) (o : option unit) (to : string) (d : unit)
  : bytes * HeaderMap * option unit := (p, h, Some tt).

Definition ex_run (schedule : list (Actor (Delivery := unit))) : World (Options := unit) :=
  default (initial 2) (run ex_ticks "jobs" ex_prepare (initial 2) schedule).

Lemma ex_copies_reachable schedule : reachable ex_ticks "jobs" ex_prepare 2 (ex_run schedule).
Proof.
  unfold ex_run. destruct (run _ _ _ _ schedule) as [w|] eqn:E; [|apply reach_initial].
  eapply copies_run_reachable; [apply reach_initial|exact E].
Qed.

Definition keep (i : nat) (delay : N) : list (Actor (Delivery := unit)) :=
  [TakeRecord; Fill i [] HeaderMap.new; Prepare i None tt; Arm i delay None].

(** Two copies kept; the driver slept to the first one's instant and is publishing it. *)
Definition two_kept : World (Options := unit) :=
  ex_run (keep 0 5 ++ [PollDriver 0] ++ keep 1 9 ++ [PollDriver 1; Advance 5; PollDriver 5]).

Lemma kept_copies_leave_once_witness :
  length (handed two_kept) = 2 /\ length (waiting (store two_kept)) = 1 /\
  (handed two_kept ≡ₚ ((left_ two_kept).*1) ++ waiting (store two_kept) ++ (kept_of <$> all_flights two_kept)).
Proof.
  split; [reflexivity|split; [reflexivity|]].
  apply (kept_copies_leave_once ex_ticks "jobs" ex_prepare 2 two_kept (ex_copies_reachable _)).
Defined.

Lemma records_have_one_owner_witness :
  held_at 2 two_kept is_due = [1] /\
  seq 0 2 ≡ₚ taken two_kept ++ flying two_kept ++ held_at 2 two_kept is_due ++
    held_at 2 two_kept (fun h => bool_decide (h = Free)).
Proof.
  split; [reflexivity|].
  apply (records_have_one_owner ex_ticks "jobs" ex_prepare 2 two_kept (ex_copies_reachable _)).
Defined.

(** The first copy left; the driver waits for the second. *)
Definition one_left : World (Options := unit) :=
  ex_run (keep 0 5 ++ [PollDriver 0] ++ keep 1 9 ++ [Advance 5; PollDriver 5; DriverAnswered; PollDriver 6]).

Lemma driver_never_oversleeps_witness :
  notified one_left = false /\
  forall a, due_in (store one_left) a -> exists t, timer one_left = Some t /\ (t <= a)%N.
Proof.
  split; [reflexivity|].
  apply (proj1 (driver_never_oversleeps ex_ticks "jobs" ex_prepare 2 one_left (ex_copies_reachable _) eq_refl) eq_refl).
Defined.

Definition all_left : World (Options := unit) :=
  ex_run (keep 0 5 ++ [PollDriver 0; Advance 5; PollDriver 5; DriverAnswered; Close]).

Lemma driver_ends_with_the_last_copy_witness :
  length (handed all_left) = 1 /\
  exists w', step ex_ticks "jobs" ex_prepare all_left (PollDriver 7) = Some (Some w') /\ driver w' = Finished.
Proof.
  split; [reflexivity|].
  apply (driver_ends_with_the_last_copy ex_ticks "jobs" ex_prepare 2 all_left 7 (ex_copies_reachable _) eq_refl);
    [vm_compute; discriminate|].
  split; [reflexivity|]. vm_compute. intros r [->|[->|[]%not_elem_of_nil]%elem_of_cons]%elem_of_cons; reflexivity.
Defined.
End Copies.
