(* ===== verification/CopyProtocol.v ===== *)
(** * A settlement over the store of kept copies

    [Settle] settles over any store of kept copies, by what its calls answer; [Copies] is the
    store of the embassy runner.  The two meet here: the calls a settlement's [keep_copy] makes, in
    order, are played on the store, and the settlement is shown to follow the store's protocol
    (take, fill, prepare, then exactly one of arm, send and free) and to hand over the copy it
    meant to. *)
From Stdlib Require Import Ascii String.
From S2P Require Import Prelude RustStd Headers Outcome PublishFailure Settle Copies.

Module CopyProtocol.
Import PublishFailure Copies.

Section protocol.
Context {Options Delivery : Type}.
Context (ticks : N -> option N) (address : string).
Context (prepare_copy : bytes -> HeaderMap -> option Options -> string -> Delivery -> bytes * HeaderMap * option Options).

(** The call on the store an event of a settlement stands for, for the delivery [d]. *)
Definition store_call (d : Delivery) (e : Settle.Event) : list Actor :=
  match e with
  | Settle.KeptFill i payload_ hs => [Fill i payload_ hs]
  | Settle.KeptPrepare i to => [Prepare i to d]
  | Settle.KeptFree i => [FreeRecord i]
  | Settle.KeptArm i delay react => [Arm i delay react]
  | Settle.KeptSend i to react => [SendNow i to react]
  | _ => []
  end.

Abbreviation sstep := (step ticks address prepare_copy).
Abbreviation srun := (run ticks address prepare_copy).

Implicit Types w : World (Options := Options).

Lemma srun_cons w a l w' : sstep w a = Some (Some w') -> srun w (a :: l) = srun w' l.
Proof. intros Hs. cbn [run]. by rewrite Hs. Qed.

(** The store with record [i] replaced. *)
Definition put w (i : nat) (r : CopyRecord (Options := Options)) : World :=
  set_store w (mk_store (<[i := r]> (records (store w))) (armed (store w)) (closed (store w)) (waker (store w))).

Lemma record_put w i r f : records (store w) !! i = Some r ->
  record (store w) i f = Some (store (put w i (f r))).
Proof. intros Hr. unfold record. by rewrite Hr. Qed.

Lemma lookup_put w i r q : records (store w) !! i = Some q -> records (store (put w i r)) !! i = Some r.
Proof. intros Hq. cbn. apply list_lookup_insert_eq. by eapply lookup_lt_Some. Qed.

Lemma fill_put w i r payload_ hs : i ∈ taken w -> records (store w) !! i = Some r ->
  sstep w (Fill i payload_ hs) =
    Some (Some (put w i (mk_record (held r) payload_ hs None (destination r) (to_destination r) (reaction r)))).
Proof. intros Hi Hr. cbn. rewrite decide_True by done. unfold fill, record. by rewrite Hr. Qed.

Lemma prepare_put w i r to d : i ∈ taken w -> records (store w) !! i = Some r ->
  sstep w (Prepare i to d) =
    Some (Some (put w i (let '(p, h, o) := prepare_copy (payload r) (headers r) (options r) (default address to) d in
                         mk_record (held r) p h o (destination r) (to_destination r) (reaction r)))).
Proof. intros Hi Hr. cbn. rewrite decide_True by done. unfold prepare, record. by rewrite Hr. Qed.

(** The copy a settlement keeps: the delivery's payload under the counted headers, prepared for
    where it goes. *)
Definition kept_copy (payload_ : bytes) (hs : HeaderMap) (to : option string) (d : Delivery)
  (bound : option string) (react : option Reaction) (due : option N) : Kept :=
  let '(p, h, o) := prepare_copy payload_ hs None (default address to) d in mk_kept p h o bound react due.

(** Take, fill and prepare: the record as the last third of the protocol finds it. *)
Lemma protocol_start CAP w i s payload_ hs to d :
  reachable ticks address prepare_copy CAP w -> take_record (store w) = Some (i, s) ->
  exists w1 r, srun w [TakeRecord; Fill i payload_ hs; Prepare i to d] = Some w1 /\
    reachable ticks address prepare_copy CAP w1 /\ i ∈ taken w1 /\ records (store w1) !! i = Some r /\
    held r = Taken /\ to_destination r = false /\
    mk_kept (payload r) (headers r) (options r) None None None = kept_copy payload_ hs to d None None None /\
    taken w1 = i :: taken w /\ handed w1 = handed w /\ now w1 = now w.
Proof.
  intros Hr Ht. set (w0 := set_taken (set_store w s) (i :: taken w)).
  assert (H0 : sstep w TakeRecord = Some (Some w0)) by (cbn; by rewrite Ht).
  assert (Hr0 : reachable ticks address prepare_copy CAP w0) by (by eapply reach_step).
  assert (Hi0 : i ∈ taken w0) by apply list_elem_of_here.
  destruct (taken_record ticks CAP w0 i (copies_reachable_ok _ _ _ _ _ Hr0) Hi0) as (r0 & Hr0i & Htk & Htd & _).
  pose proof (fill_put w0 i r0 payload_ hs Hi0 Hr0i) as H1.
  set (r1 := mk_record _ _ _ _ _ _ _) in H1. set (w1 := put w0 i r1) in H1.
  pose proof (prepare_put w1 i r1 to d Hi0 (lookup_put _ _ _ _ Hr0i)) as H2.
  set (r2 := let '(p, h, o) := _ in _) in H2. set (w2 := put w1 i r2) in H2.
  exists w2, r2. split_and!; try done.
  - by rewrite (srun_cons _ _ _ _ H0), (srun_cons _ _ _ _ H1), (srun_cons _ _ _ _ H2).
  - eapply reach_step; [eapply reach_step; [exact Hr0|exact H1]|exact H2].
  - by eapply lookup_put, lookup_put.
  - unfold r2. by destruct prepare_copy as [[? ?] ?].
  - unfold r2. by destruct prepare_copy as [[? ?] ?].
  - unfold r2, kept_copy. cbn. by destruct prepare_copy as [[? ?] ?].
Qed.

(** The last third: each of the three calls gives the record up, and two hand a copy over. *)
Lemma free_ends w i r : i ∈ taken w -> records (store w) !! i = Some r ->
  exists w', sstep w (FreeRecord i) = Some (Some w') /\
    taken w' = filter (fun j => j <> i) (taken w) /\ handed w' = handed w.
Proof.
  intros Hi Hr. cbn. rewrite decide_True by done. unfold free. rewrite (record_put w i r) by done. cbn.
  unfold give_back, record. cbn. rewrite list_lookup_insert_eq by (by eapply lookup_lt_Some). cbn. eauto.
Qed.

Lemma arm_ends w i r delay react : i ∈ taken w -> records (store w) !! i = Some r -> to_destination r = false ->
  exists w', sstep w (Arm i delay react) = Some (Some w') /\
    taken w' = filter (fun j => j <> i) (taken w) /\
    handed w' = handed w ++ [mk_kept (payload r) (headers r) (options r) None react
                               (Some (deadline ticks (now w) delay))].
Proof.
  intros Hi Hr Hd. cbn. rewrite decide_True by done. unfold arm. rewrite (record_put w i r) by done. cbn.
  eexists. split_and!; [done..|]. cbn. unfold copy_at. cbn.
  rewrite list_lookup_insert_eq by (by eapply lookup_lt_Some). unfold kept_in. cbn. by rewrite Hd.
Qed.

Lemma send_ends w i r to react : i ∈ taken w -> records (store w) !! i = Some r -> held r = Taken ->
  exists w', sstep w (SendNow i to react) = Some (Some w') /\
    taken w' = filter (fun j => j <> i) (taken w) /\
    handed w' = handed w ++ [mk_kept (payload r) (headers r) (options r) to react None].
Proof.
  intros Hi Hr Ht. cbn. rewrite decide_True by done. unfold bind_to. rewrite (record_put w i r) by done. cbn.
  unfold begin_send, record. cbn. rewrite list_lookup_insert_eq by (by eapply lookup_lt_Some). cbn.
  eexists. split_and!; [done..|]. cbn. unfold kept_of. cbn. rewrite Ht. by destruct to.
Qed.

Definition address_of (target : Settle.Target) : option string :=
  match target with Settle.AtSubscription => None | Settle.AtDeadLetter to => Some to end.

(** The calls [keep_copy] makes on the store, once it has a record. *)
Lemma keep_copy_calls oc target delay k m react d res st i :
  Settle.take_record k = Some i ->
  Settle.keep_copy oc target delay k (Settle.mk_run (Some m) react []) = Some (res, st) ->
  exists hs, Settle.counted oc (Settle.msg_headers m) = Some hs /\
    flat_map (store_call d) (Settle.trace st) =
      [Fill i (Settle.msg_payload m) hs; Prepare i (address_of target) d] ++
      [match res, Settle.nonzero_delay delay with
       | Err _, _ => FreeRecord i
       | Ok _, Some delay => Arm i delay react
       | Ok _, None => SendNow i (address_of target) react
       end].
Proof.
  intros Hk Hs. unfold Settle.keep_copy in Hs. fold (address_of target) in Hs. rewrite Hk in Hs.
  unfold mbind, Settle.M_bind, Settle.get, Settle.lift in Hs. cbn -[Settle.counted Settle.nonzero_delay] in Hs.
  destruct (Settle.counted oc (Settle.msg_headers m)) as [hs|] eqn:Ec; [|done].
  exists hs. split; [done|]. cbn -[Settle.nonzero_delay] in Hs.
  unfold Settle.drop_original, Settle.settle_by, mbind, Settle.M_bind, Settle.take in Hs.
  cbn -[Settle.nonzero_delay] in Hs.
  destruct (Settle.answer m (Settle.CNack false)) as [[]|[|e|]]; cbn -[Settle.nonzero_delay] in Hs;
    try (by injection Hs as <- <-);
    (destruct (Settle.nonzero_delay delay) as [n|]; cbn in Hs; [by injection Hs as <- <-|]);
    unfold Settle.detach in Hs; destruct (Settle.send_now _ _ _ _); by injection Hs as <- <-.
Qed.

(** C10. A settlement that takes a record of the store keeps to the store's protocol: its calls, in
    their order, never fail on the store; it gives the record up; and it hands over exactly the
    copy it means to, the delivery's payload under the counted headers, prepared for its
    destination, with the handler's reaction, due after the delay or bound for the destination at
    once, unless dropping the original failed: then the store hands nothing over. *)
Theorem settlement_keeps_its_copy CAP w i s oc target delay k m react d res st :
  reachable ticks address prepare_copy CAP w ->
  take_record (store w) = Some (i, s) -> Settle.take_record k = Some i ->
  Settle.keep_copy oc target delay k (Settle.mk_run (Some m) react []) = Some (res, st) ->
  exists w' hs, Settle.counted oc (Settle.msg_headers m) = Some hs /\
    srun w (TakeRecord :: flat_map (store_call d) (Settle.trace st)) = Some w' /\
    reachable ticks address prepare_copy CAP w' /\ taken w' = taken w /\
    handed w' = handed w ++
      match res with
      | Ok _ => [kept_copy (Settle.msg_payload m) hs (address_of target) d
                   (match Settle.nonzero_delay delay with Some _ => None | None => address_of target end) react
                   (deadline ticks (now w) <$> Settle.nonzero_delay delay)]
      | Err _ => []
      end.
Proof.
  intros Hr Ht Hk Hs. destruct (keep_copy_calls _ _ _ _ _ _ d _ _ _ Hk Hs) as (hs & Hc & ->).
  destruct (protocol_start CAP w i s (Settle.msg_payload m) hs (address_of target) d Hr Ht)
    as (w1 & r & Hrun & Hr1 & Hi1 & Hr1i & Htk & Htd & Hcopy & Htaken & Hhand & Hnow).
  assert (Hfree : filter (fun j => j <> i) (taken w1) = taken w).
  { rewrite Htaken, filter_cons_False by tauto. apply filter_not_in. apply take_record_Some in Ht as (q & Hq & Hf & _).
    pose proof (ok_owned CAP w (copies_reachable_ok _ _ _ _ _ Hr) i q Hq) as Ho. unfold owned in Ho. rewrite Hf in Ho. tauto. }
  rewrite app_comm_cons. setoid_rewrite run_app. setoid_rewrite Hrun.
  assert (Hkept : forall b rx du, kept_copy (Settle.msg_payload m) hs (address_of target) d b rx du =
            mk_kept (payload r) (headers r) (options r) b rx du).
  { intros b rx du. unfold kept_copy in *. destruct prepare_copy as [[? ?] ?]. by injection Hcopy as -> -> ->. }
  assert (Hend : forall a w' c, sstep w1 a = Some (Some w') -> taken w' = filter (fun j => j <> i) (taken w1) ->
            handed w' = handed w1 ++ c ->
            exists w', Settle.counted oc (Settle.msg_headers m) = Some hs /\ (w1 ← Some w1; srun w1 [a]) = Some w' /\
              reachable ticks address prepare_copy CAP w' /\ taken w' = taken w /\ handed w' = handed w ++ c).
  { intros a w' c Ha Hta Hh. exists w'. cbn. rewrite Ha, Hta, Hh, Hhand, Hfree.
    split_and!; try done. by eapply reach_step. }
  destruct res as [[]|e]; [destruct (Settle.nonzero_delay delay) as [n|]|].
  - destruct (arm_ends w1 i r n react Hi1 Hr1i Htd) as (w' & Ha & Hta & Hh).
    rewrite <- Hkept, Hnow in Hh. destruct (Hend _ w' _ Ha Hta Hh) as (w2 & Hw2). by exists w2, hs.
  - destruct (send_ends w1 i r (address_of target) react Hi1 Hr1i Htk) as (w' & Ha & Hta & Hh).
    rewrite <- Hkept in Hh. destruct (Hend _ w' _ Ha Hta Hh) as (w2 & Hw2). by exists w2, hs.
  - destruct (free_ends w1 i r Hi1 Hr1i) as (w' & Ha & Hta & Hh).
    destruct (Hend _ w' [] Ha Hta) as (w2 & Hw2); [by rewrite app_nil_r|]. by exists w2, hs.
Qed.
End protocol.

(** ** Witness: a retry after 5 into the first of two records *)

Definition ex_message : Settle.Msg := Settle.mk_msg [Ascii.zero] HeaderMap.new None false (fun _ => Ok tt).
Definition ex_store : Settle.KeptStore :=
  Settle.mk_store (fst <$> take_record (on_clock (Options := unit) 2)) (fun _ _ _ => None) (fun _ _ => None)
    (fun _ _ _ => None).
Definition ex_settled : option (result unit Settle.AckError * Settle.Run) :=
  Settle.keep_copy true Settle.AtSubscription (Some 5%N) ex_store (Settle.mk_run (Some ex_message) None []).

Lemma settlement_keeps_its_copy_witness :
  match ex_settled with
  | Some (res, st) =>
      res = Ok tt /\
      exists w' hs, Settle.counted true HeaderMap.new = Some hs /\
        run ex_ticks "jobs" ex_prepare (initial 2) (TakeRecord :: flat_map (store_call tt) (Settle.trace st)) = Some w' /\
        reachable ex_ticks "jobs" ex_prepare 2 w' /\ taken w' = [] /\
        handed w' = [kept_copy "jobs" ex_prepare [Ascii.zero] hs None tt None None (Some 5%N)]
  | None => False
  end.
Proof.
  unfold ex_settled. destruct (Settle.keep_copy _ _ _ _ _) as [[res st]|] eqn:E; [|vm_compute in E; discriminate].
  assert (res = Ok tt) as -> by (vm_compute in E; congruence). split; [reflexivity|].
  destruct (take_record (on_clock (Options := unit) 2)) as [[i s]|] eqn:Et; [|vm_compute in Et; discriminate].
  apply (settlement_keeps_its_copy ex_ticks "jobs" ex_prepare 2 (initial 2) i s true Settle.AtSubscription (Some 5%N)
           ex_store ex_message None tt (Ok tt) st); [apply reach_initial|exact Et| |exact E].
  unfold ex_store. rewrite Et. reflexivity.
Defined.
End CopyProtocol.
