(* ===== verification/Wheel.v ===== *)
(** * The timers of a core ([crates/runtime-compio/src/time/wheel.rs], [time.rs])

    A wheel keeps the deadlines of a core's sleeps in a binary heap and their wakers in a slab of
    reusable slots; a driver task wakes the sleeps that fell due and waits on one timer for the
    next.  Sleeps are polled and dropped from any thread: every operation runs under the wheel's
    lock, so each is a function on the state, and the system over them interleaves the polls and
    drops of sleeps, the driver's steps, the clock and the end of the core's runtime.  The guard that
    orphans the wheel is made on the driver's first poll: a driver whose runtime ends before that, or
    that no runtime took, leaves the wheel marked driven with nobody to drive it.  A binary
    heap is the list of its entries in the order it pops them; a waker is the number of a task; an
    instant is a number of nanoseconds.  [None] is the underflow of the [stale] count.  The build
    without the harness's virtual clock. *)
From S2P Require Import Prelude RustStd.

Module Wheel.

Definition SWEEP_FLOOR : nat := 64.

Record Key := mk_key { k_epoch : nat; k_slot : nat; k_generation : nat }.
Inductive Status := Ready | Pending | Orphaned.

Record Slot := mk_slot { s_generation : nat; waker : option nat; armed : bool }.
Definition default_slot : Slot := mk_slot 0 None false.

Record Entry := mk_entry { deadline : N; e_slot : nat; e_generation : nat }.

Record Timers := mk_timers {
  slots : list Slot;
  free : list nat;
  heap : list Entry;
  stale : nat;
  driver : bool;
  earlier : bool;
  driven : bool;
  epoch : nat;
}.
Definition default_timers : Timers := mk_timers [] [] [] 0 false false false 0.

(** ** The heap: [BinaryHeap<Reverse<Entry>>], by the derived order of [Entry] *)

Definition entry_leb (a b : Entry) : bool :=
  (deadline a <? deadline b)%N ||
  (N.eqb (deadline a) (deadline b) &&
   ((e_slot a <? e_slot b) || (Nat.eqb (e_slot a) (e_slot b) && (e_generation a <=? e_generation b)))).

Fixpoint push (e : Entry) (h : list Entry) : list Entry :=
  match h with
  | [] => [e]
  | x :: h' => if entry_leb e x then e :: h else x :: push e h'
  end.

(** ** [Timers] *)

Definition is_armed (t : Timers) (k : Key) : bool :=
  Nat.eqb (k_epoch k) (epoch t) &&
  match slots t !! k_slot k with
  | Some s => armed s && Nat.eqb (s_generation s) (k_generation k)
  | None => false
  end.

Definition is_live (t : Timers) (e : Entry) : bool :=
  is_armed t (mk_key (epoch t) (e_slot e) (e_generation e)).

Definition sweep (t : Timers) : Timers :=
  let live := length (slots t) - length (free t) in
  if stale t <=? Nat.max SWEEP_FLOOR live then t
  else mk_timers (slots t) (free t) (List.filter (is_live t) (heap t)) 0 (driver t) (earlier t) (driven t) (epoch t).

(** ** [Wheel] *)

Definition take_driver_seat (t : Timers) : Timers * bool :=
  (mk_timers (slots t) (free t) (heap t) (stale t) (driver t) (earlier t) true (epoch t), negb (driven t)).

(** [arm], past the check of the deadline; answers with the key and whether the driver is woken. *)
Definition arm (t : Timers) (at_ : N) (w : nat) : Timers * Key * bool :=
  let '(slot, ss, fs) :=
    match free t with
    | slot :: fs => (slot, slots t, fs)
    | [] => (length (slots t), slots t ++ [default_slot], [])
    end in
  let generation := S (s_generation (default default_slot (ss !! slot))) in
  let ss := <[slot := mk_slot generation (Some w) true]> ss in
  let earliest := match heap t with [] => true | first :: _ => (at_ <? deadline first)%N end in
  (mk_timers ss fs (push (mk_entry at_ slot generation) (heap t)) (stale t)
     (if earliest then false else driver t) (if earliest then true else earlier t) (driven t) (epoch t),
   mk_key (epoch t) slot generation, earliest && driver t).

Definition set_slot (t : Timers) (i : nat) (s : Slot) : Timers :=
  mk_timers (<[i := s]> (slots t)) (free t) (heap t) (stale t) (driver t) (earlier t) (driven t) (epoch t).

Definition poll (t : Timers) (k : Key) (w : nat) : Timers * Status :=
  if negb (driven t) || negb (Nat.eqb (k_epoch k) (epoch t)) then (t, Orphaned)
  else if negb (is_armed t k) then (t, Ready)
  else match slots t !! k_slot k with
       | Some s => (set_slot t (k_slot k) (mk_slot (s_generation s) (Some w) (armed s)), Pending)
       | None => (t, Pending)
       end.

Definition cancel (t : Timers) (k : Key) : Timers :=
  if negb (is_armed t k) then t
  else match slots t !! k_slot k with
       | Some s =>
           sweep (mk_timers (<[k_slot k := mk_slot (s_generation s) None false]> (slots t)) (k_slot k :: free t)
                    (heap t) (S (stale t)) (driver t) (earlier t) (driven t) (epoch t))
       | None => t
       end.

(** [Orphan]'s drop: the fresh state, and the wakers woken. *)
Definition orphan (t : Timers) : Timers * list nat :=
  (mk_timers [] [] [] 0 false false false (S (epoch t)), omap waker (slots t)).

(** [Earlier]'s poll: whether it is ready. *)
Definition poll_earlier (t : Timers) : Timers * bool :=
  if earlier t
  then (mk_timers (slots t) (free t) (heap t) (stale t) (driver t) false (driven t) (epoch t), true)
  else (mk_timers (slots t) (free t) (heap t) (stale t) true (earlier t) (driven t) (epoch t), false).

(** One turn of the driver's inner loop: the first entry, which is due, popped. *)
Definition pop_due (t : Timers) (first : Entry) (rest : list Entry) : option (Timers * option nat) :=
  if is_live t first then
    match slots t !! e_slot first with
    | Some s =>
        Some (mk_timers (<[e_slot first := mk_slot (s_generation s) None false]> (slots t)) (e_slot first :: free t)
                rest (stale t) (driver t) (earlier t) (driven t) (epoch t), waker s)
    | None => None
    end
  else match stale t with
       | 0 => None
       | S n => Some (mk_timers (slots t) (free t) rest n (driver t) (earlier t) (driven t) (epoch t), None)
       end.

(** The inner loop, with as much fuel as the heap has entries: the wakers due. *)
Fixpoint fire_loop (fuel : nat) (t : Timers) (now : N) (due : list nat) : option (Timers * list nat) :=
  match fuel, heap t with
  | S fuel, first :: rest =>
      if (now <? deadline first)%N then Some (t, due)
      else match pop_due t first rest with
           | Some (t, w) => fire_loop fuel t now (due ++ match w with Some w => [w] | None => [] end)
           | None => None
           end
  | _, _ => Some (t, due)
  end.

(** The driver's section under the lock: the wakers due and the next deadline. *)
Definition fire (t : Timers) (now : N) : option (Timers * list nat * option N) :=
  '(t, due) ← fire_loop (length (heap t)) t now [];
  let t := mk_timers (slots t) (free t) (heap t) (stale t) (driver t) false (driven t) (epoch t) in
  Some (t, due, deadline <$> head (heap t)).

(** ** [Sleep] *)

Inductive State := Fresh | Wall (k : Key).
(** A sleep, with the task that polled it last, whether that task was woken since, and whether it
    has completed. *)
Record Sleep := mk_sleep { until : N; state : State; task : nat; woken : bool; done_ : bool }.

(** ** The wheel at work *)

(** The driver task: none; spawned and never polled; about to look at the heap again; in its [select]
    on the next deadline; gone without the guard [Orphan], which [drive] makes on its first poll. *)
Inductive Driver := Absent | Spawned | Looking | Selecting (next : option N) | Lost.

Record World := mk_world {
  timers : Timers;
  now : N;
  task_ : Driver;
  (** the driver's task is marked to be polled *)
  notified : bool;
  sleeps : list (option Sleep);
}.

Definition initial : World := mk_world default_timers 0 Absent false [].

Definition mark (wakers : list nat) (s : Sleep) : Sleep :=
  if decide (task s ∈ wakers) then mk_sleep (until s) (state s) (task s) true (done_ s) else s.
Definition wake_all (wakers : list nat) (l : list (option Sleep)) : list (option Sleep) :=
  map (option_map (mark wakers)) l.

Definition set_sleep (w : World) (i : nat) (s : option Sleep) : World :=
  mk_world (timers w) (now w) (task_ w) (notified w) (<[i := s]> (sleeps w)).

(** The first poll of a sleep, or its first after its runtime ended: [Wheel::current] and [arm]. *)
Definition poll_fresh (w : World) (i : nat) (s : Sleep) (tsk : nat) : World :=
  let '(t, seat) := take_driver_seat (timers w) in
  let drv := if seat then Spawned else task_ w in
  if (until s <=? now w)%N then
    mk_world t (now w) drv (notified w) (<[i := Some (mk_sleep (until s) Fresh tsk false true)]> (sleeps w))
  else
    let '(t, k, wakes) := arm t (until s) tsk in
    mk_world t (now w) drv (notified w || wakes)
      (<[i := Some (mk_sleep (until s) (Wall k) tsk false false)]> (sleeps w)).

Definition poll_sleep (w : World) (i : nat) (s : Sleep) (tsk : nat) : World :=
  match state s with
  | Fresh => poll_fresh w i s tsk
  | Wall k =>
      let '(t, st) := poll (timers w) k tsk in
      let w' := mk_world t (now w) (task_ w) (notified w) (sleeps w) in
      match st with
      | Ready => set_sleep w' i (Some (mk_sleep (until s) (Wall k) tsk false true))
      | Pending => set_sleep w' i (Some (mk_sleep (until s) (Wall k) tsk false false))
      | Orphaned => poll_fresh w' i s tsk
      end
  end.

Inductive Actor :=
  | NewSleep (at_ : N)
  | PollSleep (i : nat) (tsk : nat)
  | PollOutside (i : nat) (tsk : nat)
  | DropSleep (i : nat)
  | DriverLooks
  | DriverSelects
  | RuntimeEnds
  | Advance (to : N).

(** One step; [None] where the actor cannot act, [Some None] for a panic. *)
Definition step (w : World) (a : Actor) : option (option World) :=
  match a with
  | NewSleep at_ =>
      Some (Some (mk_world (timers w) (now w) (task_ w) (notified w)
                    (sleeps w ++ [Some (mk_sleep at_ Fresh 0 false false)])))
  | PollSleep i tsk =>
      match sleeps w !! i with
      | Some (Some s) => if done_ s then None else Some (Some (poll_sleep w i s tsk))
      | _ => None
      end
  | PollOutside i tsk =>
      (* no runtime runs on the wheel's thread: the seat is taken and [spawn] panics *)
      match task_ w, sleeps w !! i with
      | Absent, Some (Some s) =>
          if done_ s then None
          else Some (Some (mk_world (take_driver_seat (timers w)).1 (now w) Lost (notified w)
                             (<[i := Some (mk_sleep (until s) Fresh tsk false false)]> (sleeps w))))
      | _, _ => None
      end
  | DropSleep i =>
      match sleeps w !! i with
      | Some (Some s) =>
          let t := match state s with Wall k => cancel (timers w) k | Fresh => timers w end in
          Some (Some (mk_world t (now w) (task_ w) (notified w) (<[i := None]> (sleeps w))))
      | _ => None
      end
  | DriverLooks =>
      match task_ w with
      | Spawned | Looking =>
          Some ('(t, due, next) ← fire (timers w) (now w);
                Some (mk_world t (now w) (Selecting next) true (wake_all due (sleeps w))))
      | _ => None
      end
  | DriverSelects =>
      match task_ w with
      | Selecting next =>
          let passed := match next with Some at_ => (at_ <=? now w)%N | None => false end in
          if passed then Some (Some (mk_world (timers w) (now w) Looking false (sleeps w)))
          else
            let '(t, ready) := poll_earlier (timers w) in
            Some (Some (mk_world t (now w) (if ready then Looking else Selecting next) false (sleeps w)))
      | _ => None
      end
  | RuntimeEnds =>
      match task_ w with
      | Absent | Lost => None
      | Spawned => Some (Some (mk_world (timers w) (now w) Lost false (sleeps w)))
      | Looking | Selecting _ =>
          let '(t, wakers) := orphan (timers w) in
          Some (Some (mk_world t (now w) Absent false (wake_all wakers (sleeps w))))
      end
  | Advance to =>
      if (to <? now w)%N then None
      else
        let fires := match task_ w with Selecting (Some at_) => (at_ <=? to)%N | _ => false end in
        Some (Some (mk_world (timers w) to (task_ w) (notified w || fires) (sleeps w)))
  end.

Inductive reachable : World -> Prop :=
  | reach_initial : reachable initial
  | reach_step w a w' : reachable w -> step w a = Some (Some w') -> reachable w'.

Fixpoint run (w : World) (schedule : list Actor) : option World :=
  match schedule with
  | [] => Some w
  | a :: schedule => match step w a with Some (Some w) => run w schedule | _ => None end
  end.

(** ** The invariant of the timers *)

Definition live_in (ss : list Slot) (e : Entry) : bool :=
  match ss !! e_slot e with Some s => armed s && Nat.eqb (s_generation s) (e_generation e) | None => false end.

Lemma is_live_in t e : is_live t e = live_in (slots t) e.
Proof. unfold is_live, is_armed. cbn. by rewrite Nat.eqb_refl. Qed.

Lemma live_in_spec ss e : live_in ss e = true <->
  exists s, ss !! e_slot e = Some s /\ armed s = true /\ s_generation s = e_generation e.
Proof.
  unfold live_in. destruct (ss !! e_slot e) as [s|]; [|naive_solver].
  rewrite andb_true_iff, Nat.eqb_eq. naive_solver.
Qed.

Definition place (e : Entry) : nat * nat := (e_slot e, e_generation e).

Lemma place_live ss e i s :
  place e = (i, s_generation s) -> ss !! i = Some s -> armed s = true -> live_in ss e = true.
Proof. intros [= Hi Hg] Hs Ha. apply live_in_spec. exists s. by rewrite Hi. Qed.

Lemma live_place ss e s : live_in ss e = true -> ss !! e_slot e = Some s -> place e = (e_slot e, s_generation s).
Proof. intros (q & Hq & _ & Hg)%live_in_spec Hs. unfold place. congruence. Qed.
Definition stale_in (ss : list Slot) (e : Entry) : bool := negb (live_in ss e).
Definition sooner (a b : Entry) : Prop := (deadline a <= deadline b)%N.

Record timers_ok (t : Timers) : Prop := {
  t_sorted : StronglySorted sooner (heap t);
  t_free_once : NoDup (free t);
  t_free i : i ∈ free t <-> exists s, slots t !! i = Some s /\ armed s = false;
  t_entries : NoDup (place <$> heap t);
  t_entry e : e ∈ heap t -> exists s, slots t !! e_slot e = Some s /\ e_generation e <= s_generation s;
  t_armed i s : slots t !! i = Some s -> armed s = true -> exists e, e ∈ heap t /\ place e = (i, s_generation s);
  t_stale : stale t = count (stale_in (slots t)) (heap t);
}.
Definition bounded (t : Timers) : Prop := stale t <= Nat.max SWEEP_FLOOR (length (slots t)).

(** *** The heap *)

Lemma push_permutation e h : push e h ≡ₚ e :: h.
Proof. induction h as [|x h IH]; cbn; [done|]. destruct (entry_leb e x); [done|]. rewrite IH. apply perm_swap. Qed.

Lemma entry_leb_sooner a b : entry_leb a b = true -> sooner a b.
Proof.
  unfold entry_leb, sooner. rewrite orb_true_iff, andb_true_iff, N.ltb_lt, N.eqb_eq. intros [?|[-> _]]; lia.
Qed.

Lemma entry_leb_total a b : entry_leb a b = false -> sooner b a.
Proof. unfold entry_leb, sooner. rewrite orb_false_iff, N.ltb_ge. tauto. Qed.

Lemma push_sorted e h : StronglySorted sooner h -> StronglySorted sooner (push e h).
Proof.
  induction h as [|x h IH]; cbn; intros Hs; [by repeat constructor|].
  inversion Hs as [|? ? Hs' Hall]; subst. destruct (entry_leb e x) eqn:El.
  - constructor; [done|]. constructor; [by apply entry_leb_sooner|].
    eapply Forall_impl; [exact Hall|]. intros y Hy. apply entry_leb_sooner in El. unfold sooner in *. lia.
  - constructor; [by apply IH|]. rewrite push_permutation. constructor; [by apply entry_leb_total|done].
Qed.

Lemma sorted_filter (f : Entry -> bool) h : StronglySorted sooner h -> StronglySorted sooner (List.filter f h).
Proof.
  induction 1 as [|x h Hs IH Hall]; cbn; [constructor|]. destruct (f x); [|done]. constructor; [done|].
  rewrite Forall_forall in *. intros y [_ Hy]%elem_of_filterb. by apply Hall.
Qed.

(** *** Counting the stale entries *)

Lemma count_flips (f g : Entry -> bool) l e :
  NoDup (place <$> l) -> e ∈ l -> (forall x, x ∈ l -> place x <> place e -> f x = g x) ->
  f e = false -> g e = true -> count g l = S (count f l).
Proof.
  induction l as [|x l IH]; cbn [fmap list_fmap]; intros Hnd Hin Hfg Hf Hg; [by apply not_elem_of_nil in Hin|].
  apply NoDup_cons in Hnd as [Hx Hnd]. rewrite !count_cons.
  destruct (decide (place x = place e)) as [Heq|Hne].
  - assert (x = e) as ->.
    { apply elem_of_cons in Hin as [->|Hin]; [done|]. destruct Hx. rewrite Heq. by apply list_elem_of_fmap_2. }
    rewrite Hf, Hg. cbn. f_equal. apply count_agree. intros y Hy. symmetry. apply Hfg; [by apply list_elem_of_further|].
    intros Hp. apply Hx. rewrite <- Hp. by apply list_elem_of_fmap_2.
  - rewrite (Hfg x) by (done || apply list_elem_of_here). apply elem_of_cons in Hin as [->|Hin]; [done|].
    rewrite (IH Hnd Hin); [lia| |done|done]. intros y Hy. apply Hfg. by apply list_elem_of_further.
Qed.

(** *** The operations keep it *)

Lemma timers_ok_flags t t' :
  timers_ok t -> slots t' = slots t -> free t' = free t -> heap t' = heap t -> stale t' = stale t -> timers_ok t'.
Proof. intros [] Hs Hf Hh Hst. split; rewrite ?Hs, ?Hf, ?Hh, ?Hst; done. Qed.

Lemma live_in_insert ss i s e :
  i < length ss -> live_in (<[i := s]> ss) e =
    if decide (e_slot e = i) then armed s && Nat.eqb (s_generation s) (e_generation e) else live_in ss e.
Proof.
  intros Hi. unfold live_in. case_decide as He; [subst i; by rewrite list_lookup_insert_eq|].
  by rewrite list_lookup_insert_ne.
Qed.

(** The free slots of a slab: those of the free list, or a fresh one at its end. *)
Record allocates (t : Timers) (slot : nat) (ss : list Slot) (fs : list nat) (s : Slot) : Prop := {
  al_slot : ss !! slot = Some s;
  al_unarmed : armed s = false;
  al_other j : j <> slot -> ss !! j = slots t !! j;
  al_once : NoDup fs;
  al_not_free : slot ∉ fs;
  al_free j : j <> slot -> j ∈ fs <-> j ∈ free t;
  al_entry e : e ∈ heap t -> e_slot e = slot -> e_generation e <= s_generation s;
  al_old q : slots t !! slot = Some q -> q = s;
  al_grows : length (slots t) <= length ss;
}.

Lemma allocated t : timers_ok t -> exists slot ss fs s, allocates t slot ss fs s /\
  (match free t with
   | slot :: fs => (slot, slots t, fs)
   | [] => (length (slots t), slots t ++ [default_slot], [])
   end) = (slot, ss, fs).
Proof.
  intros Ht. destruct (free t) as [|slot fs] eqn:Ef.
  - eexists _, _, _, default_slot. split; [|done]. split; rewrite ?Ef.
    + by rewrite lookup_app_r, Nat.sub_diag.
    + done.
    + intros j Hj. destruct (decide (j < length (slots t))); [by rewrite lookup_app_l|].
      rewrite !lookup_ge_None_2; rewrite ?length_app; cbn; try done; lia.
    + constructor.
    + apply not_elem_of_nil.
    + done.
    + intros e He Hs. destruct (t_entry t Ht e He) as (s & Hl & _). apply lookup_lt_Some in Hl. lia.
    + intros q Hq%lookup_lt_Some. lia.
    + rewrite length_app. lia.
  - pose proof (t_free_once t Ht) as Hnd. rewrite Ef in Hnd. apply NoDup_cons in Hnd as [Hin Hnd].
    destruct (proj1 (t_free t Ht slot)) as (s & Hl & Ha); [rewrite Ef; apply list_elem_of_here|].
    exists slot, (slots t), fs, s. split; [|done]. split; rewrite ?Ef; try done.
    + intros j Hj. rewrite elem_of_cons. tauto.
    + intros e He Hs. destruct (t_entry t Ht e He) as (q & Hq & Hg). subst slot. by assert (q = s) as -> by congruence.
    + intros q Hq. congruence.
Qed.

Lemma arm_ok t at_ w t' k b : timers_ok t -> arm t at_ w = (t', k, b) ->
  timers_ok t' /\ k_epoch k = epoch t /\ epoch t' = epoch t /\ driven t' = driven t /\
  heap t' = push (mk_entry at_ (k_slot k) (k_generation k)) (heap t) /\
  slots t' !! k_slot k = Some (mk_slot (k_generation k) (Some w) true) /\
  (forall j, j <> k_slot k -> slots t' !! j = slots t !! j) /\
  (forall s, slots t !! k_slot k = Some s -> s_generation s < k_generation k /\ armed s = false) /\
  stale t' = stale t /\ length (slots t) <= length (slots t').
Proof.
  intros Ht. unfold arm. destruct (allocated t Ht) as (slot & ss & fs & s & [Hs Hu Ho Hnd Hnf Hf He Hold Hg] & ->).
  set (gen := S _). intros [= <- <- <-]. cbn.
  assert (Hgen : gen = S (s_generation s)) by (unfold gen; by rewrite Hs). clearbody gen.
  assert (Hlt : slot < length ss) by (by eapply lookup_lt_Some).
  assert (Hlive : forall e, e ∈ heap t -> live_in (<[slot := mk_slot gen (Some w) true]> ss) e = live_in (slots t) e).
  { intros e Hin. rewrite live_in_insert by done. case_decide as Hsl.
    - pose proof (He e Hin Hsl). cbn. destruct (Nat.eqb_spec gen (e_generation e)); [lia|].
      symmetry. apply not_true_is_false. rewrite live_in_spec. intros (q & Hq & Ha & _).
      rewrite Hsl in Hq. apply Hold in Hq. congruence.
    - unfold live_in. by rewrite Ho. }
  assert (Hnew : live_in (<[slot := mk_slot gen (Some w) true]> ss) (mk_entry at_ slot gen) = true).
  { apply live_in_spec. eexists. split; [by apply list_lookup_insert_eq|done]. }
  split_and!; try done.
  - split; cbn -[count].
    + apply push_sorted, Ht.
    + done.
    + intros j. destruct (decide (j = slot)) as [->|Hj].
      * rewrite list_lookup_insert_eq by done. split; [done|]. by intros (? & [= <-] & ?).
      * rewrite list_lookup_insert_ne, Ho, Hf by done. apply Ht.
    + rewrite push_permutation. cbn. apply NoDup_cons. split; [|apply Ht].
      intros ([a b c] & [= -> ->] & Hin)%list_elem_of_fmap. specialize (He _ Hin eq_refl). cbn in He. lia.
    + intros e. rewrite push_permutation, elem_of_cons. intros [->|Hin]; cbn.
      * eexists. split; [by apply list_lookup_insert_eq|done].
      * destruct (decide (e_slot e = slot)) as [Hsl|Hsl].
        -- rewrite Hsl. eexists. split; [by apply list_lookup_insert_eq|]. cbn. specialize (He e Hin Hsl). lia.
        -- rewrite list_lookup_insert_ne, Ho by done. by apply (t_entry t Ht).
    + intros j q. setoid_rewrite push_permutation. setoid_rewrite elem_of_cons.
      intros [(<- & <- & _)|[Hj Hq]]%list_lookup_insert_Some Ha.
      * eexists. split; [by left|done].
      * rewrite Ho in Hq by done. destruct (t_armed t Ht j q Hq Ha) as (e & Hin & Hp). exists e. auto.
    + rewrite (t_stale t Ht), push_permutation, count_cons. unfold stale_in at 2. rewrite Hnew. cbn.
      apply count_agree. intros e Hin. unfold stale_in. by rewrite Hlive.
  - by rewrite list_lookup_insert_eq.
  - intros j Hj. rewrite list_lookup_insert_ne, Ho; done.
  - intros q Hq%Hold. subst q. split; [lia|done].
  - by rewrite length_insert.
Qed.

(** A timer of slot [i] goes: what is left to say of the heap. *)
Definition disarmed (s : Slot) : Slot := mk_slot (s_generation s) None false.

Lemma disarm_live ss i s e : ss !! i = Some s ->
  live_in (<[i := disarmed s]> ss) e = if decide (e_slot e = i) then false else live_in ss e.
Proof. intros Hi. rewrite live_in_insert by (by eapply lookup_lt_Some). done. Qed.

Lemma disarm_ok t i s t' :
  timers_ok t -> slots t !! i = Some s -> armed s = true ->
  slots t' = <[i := disarmed s]> (slots t) -> free t' = i :: free t ->
  StronglySorted sooner (heap t') -> NoDup (place <$> heap t') ->
  (forall e, e ∈ heap t' -> e ∈ heap t) ->
  (forall e, e ∈ heap t -> place e <> (i, s_generation s) -> e ∈ heap t') ->
  stale t' = count (stale_in (slots t')) (heap t') ->
  timers_ok t'.
Proof.
  intros Ht Hi Ha Hs Hf Hsort Hnd Hsub Hkeep Hst. assert (Hlt : i < length (slots t)) by (by eapply lookup_lt_Some).
  split; rewrite ?Hs, ?Hf; try done.
  - apply NoDup_cons. split; [|apply Ht]. intros (q & Hq & Hu)%(t_free t Ht). congruence.
  - intros j. rewrite elem_of_cons. destruct (decide (j = i)) as [->|Hj].
    + rewrite list_lookup_insert_eq by done. split; [by eauto|auto].
    + rewrite list_lookup_insert_ne by done. rewrite (t_free t Ht). naive_solver.
  - intros e He%Hsub. destruct (t_entry t Ht e He) as (q & Hq & Hg).
    destruct (decide (e_slot e = i)) as [Hei|Hei].
    + rewrite Hei, list_lookup_insert_eq by done. eexists. split; [done|]. cbn.
      rewrite Hei in Hq. by assert (q = s) as -> by congruence.
    + rewrite list_lookup_insert_ne by done. eauto.
  - intros j q. intros [(<- & <- & _)|[Hj Hq]]%list_lookup_insert_Some Hq'; [done|].
    destruct (t_armed t Ht j q Hq Hq') as (e & He & Hp). exists e. split; [|done].
    apply Hkeep; [done|]. rewrite Hp. congruence.
  - by rewrite <- Hs.
Qed.

Lemma sweep_ok t : timers_ok t -> timers_ok (sweep t) /\ bounded (sweep t).
Proof.
  intros Ht. unfold sweep. destruct (Nat.leb_spec (stale t) (Nat.max SWEEP_FLOOR (length (slots t) - length (free t)))) as [Hle|].
  - split; [done|]. unfold bounded. lia.
  - split; [|unfold bounded; cbn; lia].
    assert (Hin : forall e, e ∈ List.filter (is_live t) (heap t) <-> live_in (slots t) e = true /\ e ∈ heap t).
    { intros e. by rewrite elem_of_filterb, is_live_in. }
    split; cbn -[count]; try apply Ht.
    + by apply sorted_filter, Ht.
    + pose proof (t_entries t Ht) as Hnd. clear -Hnd. induction (heap t) as [|e h IH]; cbn in *; [constructor|].
      apply NoDup_cons in Hnd as [He Hnd]. destruct (is_live t e); [|by apply IH].
      cbn. apply NoDup_cons. split; [|by apply IH]. intros (x & Hx & [_ Hin]%elem_of_filterb)%list_elem_of_fmap.
      apply He. rewrite Hx. by apply list_elem_of_fmap_2.
    + intros e [_ He]%Hin. by apply (t_entry t Ht).
    + intros i s Hi Ha. destruct (t_armed t Ht i s Hi Ha) as (e & He & Hp). exists e. split; [|done].
      apply Hin. split; [|done]. by eapply place_live.
    + symmetry. apply count_zero. intros e [He _]%Hin. unfold stale_in. by rewrite He.
Qed.

Lemma is_armed_spec t k : is_armed t k = true <->
  k_epoch k = epoch t /\ exists s, slots t !! k_slot k = Some s /\ armed s = true /\ s_generation s = k_generation k.
Proof.
  unfold is_armed. rewrite andb_true_iff, Nat.eqb_eq. destruct (slots t !! k_slot k) as [s|]; [|naive_solver].
  rewrite andb_true_iff, Nat.eqb_eq. naive_solver.
Qed.

Lemma cancel_ok t k : timers_ok t -> bounded t ->
  timers_ok (cancel t k) /\ bounded (cancel t k) /\ epoch (cancel t k) = epoch t /\ driven (cancel t k) = driven t /\
  driver (cancel t k) = driver t /\ earlier (cancel t k) = earlier t /\
  (forall e, e ∈ heap (cancel t k) -> e ∈ heap t) /\
  (forall e, e ∈ heap t -> live_in (slots t) e = true -> place e <> (k_slot k, k_generation k) -> e ∈ heap (cancel t k)) /\
  (forall j, j <> k_slot k -> slots (cancel t k) !! j = slots t !! j) /\
  (slots (cancel t k) !! k_slot k = slots t !! k_slot k \/
   k_epoch k = epoch t /\ exists s, slots t !! k_slot k = Some s /\ armed s = true /\ s_generation s = k_generation k /\
     slots (cancel t k) !! k_slot k = Some (disarmed s)).
Proof.
  intros Ht Hb. unfold cancel. destruct (is_armed t k) eqn:Ea; cbn [negb].
  2: { split_and!; auto. }
  apply is_armed_spec in Ea as (Hep & s & Hs & Ha & Hg). rewrite Hs. fold (disarmed s).
  set (t1 := mk_timers _ _ _ _ _ _ _ _).
  destruct (t_armed t Ht _ s Hs Ha) as (e0 & He0 & Hp0).
  assert (Ht1 : timers_ok t1).
  { eapply (disarm_ok t (k_slot k) s); try done; try apply Ht.
    cbn -[count]. rewrite (t_stale t Ht). symmetry.
    apply (count_flips _ _ _ e0); [apply Ht|done| |..].
    - intros x Hx Hne. unfold stale_in. f_equal. rewrite disarm_live by done. case_decide as Hsl; [|done].
      apply not_true_is_false. rewrite live_in_spec. intros (q & Hq & _ & Hgq). rewrite Hsl in Hq.
      assert (q = s) as -> by congruence. apply Hne. rewrite Hp0. unfold place. by rewrite Hsl, Hgq.
    - unfold stale_in. apply negb_false_iff. by eapply place_live.
    - unfold stale_in. rewrite disarm_live by done. rewrite decide_True; [done|]. by injection Hp0. }
  destruct (sweep_ok t1 Ht1) as [Hok Hbd].
  assert (Hsl : slots (sweep t1) = slots t1) by (unfold sweep; by case_match).
  assert (Hlt : k_slot k < length (slots t)) by (by eapply lookup_lt_Some).
  split_and!; try done; try (unfold sweep; by case_match).
  - intros e. unfold sweep. case_match; [done|]. cbn. by intros [_ He]%elem_of_filterb.
  - intros e He Hl Hne. unfold sweep. case_match; [done|]. cbn. apply elem_of_filterb. split; [|done].
    rewrite is_live_in. cbn. rewrite disarm_live by done. case_decide as Hes; [|done].
    exfalso. apply Hne. apply live_in_spec in Hl as (q & Hq & _ & Hgq). unfold place. rewrite Hes in *.
    assert (q = s) as -> by congruence. congruence.
  - intros j Hj. rewrite Hsl. cbn. by rewrite list_lookup_insert_ne.
  - right. split; [done|]. exists s. split_and!; try done. rewrite Hsl. cbn. by rewrite list_lookup_insert_eq.
Qed.

(** *** Firing *)

(** What firing at an instant does to a slot: nothing, or its timer was due and its waker is out. *)
Definition fired (t t' : Timers) (now_ : N) (due : list nat) (j : nat) : Prop :=
  slots t' !! j = slots t !! j \/
  exists s e, slots t !! j = Some s /\ armed s = true /\ slots t' !! j = Some (disarmed s) /\
    e ∈ heap t /\ place e = (j, s_generation s) /\ (deadline e <= now_)%N /\
    forall w, waker s = Some w -> w ∈ due.

Lemma pop_due_ok t first rest now_ :
  timers_ok t -> bounded t -> heap t = first :: rest -> (deadline first <= now_)%N ->
  exists t' w, pop_due t first rest = Some (t', w) /\ timers_ok t' /\ bounded t' /\ heap t' = rest /\
    epoch t' = epoch t /\ driven t' = driven t /\ driver t' = driver t /\ earlier t' = earlier t /\
    length (slots t') = length (slots t) /\
    forall j, fired t t' now_ (match w with Some w => [w] | None => [] end) j.
Proof.
  intros Ht Hb Hh Hd. unfold pop_due. rewrite is_live_in.
  pose proof (t_entries t Ht) as Hnd. rewrite Hh in Hnd. cbn in Hnd. apply NoDup_cons in Hnd as [Hnin Hnd].
  pose proof (t_sorted t Ht) as Hsort. rewrite Hh in Hsort. apply StronglySorted_inv in Hsort as [Hsort _].
  pose proof (t_stale t Ht) as Hst. rewrite Hh, count_cons in Hst. unfold stale_in at 1 in Hst.
  assert (Hf : first ∈ heap t) by (rewrite Hh; apply list_elem_of_here).
  destruct (live_in (slots t) first) eqn:El; cbn [negb] in Hst.
  - pose proof El as (s & Hs & Ha & Hg)%live_in_spec. rewrite Hs. fold (disarmed s).
    eexists _, _. split; [done|]. cbn -[count]. split_and!; try done; [| |by rewrite length_insert|].
    + eapply (disarm_ok t (e_slot first) s); try done.
      * intros e He. rewrite Hh. by apply list_elem_of_further.
      * intros e He Hne. rewrite Hh in He. apply elem_of_cons in He as [->|He]; [|done].
        destruct Hne. unfold place. congruence.
      * cbn -[count]. rewrite Hst. cbn -[count]. apply count_agree. intros e He. unfold stale_in. f_equal.
        rewrite disarm_live by done. case_decide as Hes; [|done]. apply not_true_is_false. intros Hl.
        apply Hnin. assert (place first = place e) as ->; [|by apply list_elem_of_fmap_2].
        rewrite (live_place _ _ s Hl) by congruence. rewrite Hes. unfold place. congruence.
    + unfold bounded in *. cbn. by rewrite length_insert.
    + intros j. destruct (decide (j = e_slot first)) as [->|Hj]; [right|left; cbn; by rewrite list_lookup_insert_ne].
      exists s, first. split_and!; try done.
      * cbn. apply list_lookup_insert_eq. by eapply lookup_lt_Some.
      * unfold place. congruence.
      * intros w ->. apply list_elem_of_here.
  - destruct (stale t) as [|n] eqn:En; [cbn in Hst; lia|]. eexists _, _. split; [done|]. cbn -[count].
    split_and!; try done; [|unfold bounded in *; cbn; lia|by left].
    split; cbn -[count]; try apply Ht; try done.
    + intros e He. apply (t_entry t Ht). rewrite Hh. by apply list_elem_of_further.
    + intros i s Hi Ha. destruct (t_armed t Ht i s Hi Ha) as (e & He & Hp). exists e. split; [|done].
      rewrite Hh in He. apply elem_of_cons in He as [->|He]; [|done].
      rewrite (place_live _ _ _ _ Hp Hi Ha) in El. done.
    + cbn -[count] in Hst. lia.
Qed.

Lemma fired_trans t t1 t2 now_ due1 due2 j :
  (forall e, e ∈ heap t1 -> e ∈ heap t) -> fired t t1 now_ due1 j -> fired t1 t2 now_ due2 j -> fired t t2 now_ (due1 ++ due2) j.
Proof.
  unfold fired. setoid_rewrite elem_of_app. intros Hsub [H1|(s & e & Hs & Ha & H1 & He & Hp & Hd & Hw)] H2.
  - rewrite H1 in H2. destruct H2 as [->|(s & e & Hs & Ha & H2 & He & Hp & Hd & Hw)]; [by left|right].
    exists s, e. split_and!; auto.
  - right. exists s, e. split_and!; try done; [|naive_solver].
    rewrite H1 in H2. destruct H2 as [->|(q & x & [= <-] & Ha' & _)]; done.
Qed.

Lemma fire_loop_ok fuel t now_ due :
  timers_ok t -> bounded t -> length (heap t) <= fuel ->
  exists t' due', fire_loop fuel t now_ due = Some (t', due ++ due') /\ timers_ok t' /\ bounded t' /\
    epoch t' = epoch t /\ driven t' = driven t /\ driver t' = driver t /\ earlier t' = earlier t /\
    length (slots t') = length (slots t) /\
    (exists gone, heap t = gone ++ heap t' /\ forall e, e ∈ gone -> (deadline e <= now_)%N) /\
    (forall e, e ∈ heap t' -> (now_ < deadline e)%N) /\
    forall j, fired t t' now_ due' j.
Proof.
  revert t due. induction fuel as [|fuel IH]; intros t due Ht Hb Hlen; cbn.
  - destruct (heap t) eqn:Hh; [|cbn in Hlen; lia]. exists t, []. rewrite app_nil_r. split_and!; try done.
    + exists []. split; [by rewrite Hh|set_solver].
    + rewrite Hh. set_solver.
    + by left.
  - destruct (heap t) as [|first rest] eqn:Hh.
    { exists t, []. rewrite app_nil_r. split_and!; try done; [exists []; rewrite Hh; set_solver|rewrite Hh; set_solver|by left]. }
    destruct (N.ltb_spec now_ (deadline first)) as [Hlt|Hle].
    { exists t, []. rewrite app_nil_r. split_and!; try done; [exists []; rewrite Hh; set_solver| |by left].
      pose proof (t_sorted t Ht) as Hs. rewrite Hh in Hs. apply StronglySorted_inv in Hs as [_ Hall].
      rewrite Forall_forall in Hall. rewrite Hh. intros e [->|He]%elem_of_cons; [done|].
      specialize (Hall e He). unfold sooner in Hall. lia. }
    destruct (pop_due_ok t first rest now_ Ht Hb Hh Hle) as (t1 & w & -> & Ht1 & Hb1 & Hr & H1 & H2 & H3 & H4 & H5 & H6).
    destruct (IH t1 (due ++ match w with Some w => [w] | None => [] end) Ht1 Hb1) as
      (t2 & due2 & -> & Ht2 & Hb2 & G1 & G2 & G3 & G4 & G5 & (gone & Hg & Hgone) & G6 & G7).
    { rewrite Hr. cbn in Hlen. lia. }
    exists t2, (match w with Some w => [w] | None => [] end ++ due2). rewrite app_assoc.
    split_and!; try done; try congruence.
    + exists (first :: gone). rewrite <- Hr, Hg. split; [done|]. intros e [->|He]%elem_of_cons; [done|by apply Hgone].
    + intros j. eapply (fired_trans t t1 t2); [|by apply H6|by apply G7].
      intros e. rewrite Hr, Hh. by apply list_elem_of_further.
Qed.

Lemma fire_ok t now_ : timers_ok t -> bounded t ->
  exists t' due, fire t now_ = Some (t', due, deadline <$> head (heap t')) /\ timers_ok t' /\ bounded t' /\
    epoch t' = epoch t /\ driven t' = driven t /\ driver t' = driver t /\ earlier t' = false /\
    (exists gone, heap t = gone ++ heap t' /\ forall e, e ∈ gone -> (deadline e <= now_)%N) /\
    (forall e, e ∈ heap t' -> (now_ < deadline e)%N) /\
    forall j, fired t t' now_ due j.
Proof.
  intros Ht Hb. destruct (fire_loop_ok (length (heap t)) t now_ [] Ht Hb (le_n _)) as
    (t' & due & Hf & Ht' & Hb' & H1 & H2 & H3 & H4 & H5 & H6 & H7 & H8).
  unfold fire. rewrite Hf. cbn [mbind option_bind].
  exists (mk_timers (slots t') (free t') (heap t') (stale t') (driver t') false (driven t') (epoch t')), due.
  split; [done|].
  split; [by apply (timers_ok_flags t')|]. split; [exact Hb'|]. by split_and!.
Qed.

(** ** The sleeps *)

Definition key_bound (t : Timers) (k : Key) : Prop :=
  k_epoch k <= epoch t /\
  (k_epoch k = epoch t -> exists p, slots t !! k_slot k = Some p /\ k_generation k <= s_generation p).

(** A sleep in the wheel: its timer is armed with its task's waker, or its task was woken. *)
Definition held (t : Timers) (now_ : N) (s : Sleep) (k : Key) : Prop :=
  (k_epoch k <> epoch t -> woken s = true) /\
  (k_epoch k = epoch t ->
     is_armed t k = true /\ (exists p, slots t !! k_slot k = Some p /\ waker p = Some (task s)) /\
       mk_entry (until s) (k_slot k) (k_generation k) ∈ heap t \/
     is_armed t k = false /\ (until s <= now_)%N /\ woken s = true).

Definition sleep_ok (t : Timers) (now_ : N) (s : Sleep) : Prop :=
  (forall k, state s = Wall k -> key_bound t k /\ (done_ s = false -> held t now_ s k)) /\
  (done_ s = true -> (until s <= now_)%N).

Definition driver_ok (w : World) : Prop :=
  match task_ w with
  | Selecting next =>
      (earlier (timers w) = true \/
       forall e, e ∈ heap (timers w) -> exists a, next = Some a /\ (a <= deadline e)%N) /\
      (notified w = false -> driver (timers w) = true /\ earlier (timers w) = false /\
         forall a, next = Some a -> (now w < a)%N)
  | _ => True
  end.

Record world_ok (w : World) : Prop := {
  w_timers : timers_ok (timers w);
  w_bounded : bounded (timers w);
  w_driven : driven (timers w) = true <-> task_ w <> Absent;
  w_sleep i s : sleeps w !! i = Some (Some s) -> sleep_ok (timers w) (now w) s;
  w_distinct i j s q k : sleeps w !! i = Some (Some s) -> sleeps w !! j = Some (Some q) ->
    state s = Wall k -> state q = Wall k -> i = j;
  w_driver : driver_ok w;
  w_idle : task_ w = Absent -> heap (timers w) = [];
}.

Lemma is_armed_same t t' k : epoch t' = epoch t -> slots t' !! k_slot k = slots t !! k_slot k ->
  is_armed t' k = is_armed t k.
Proof. intros He Hs. unfold is_armed. by rewrite He, Hs. Qed.

(** A step that touches the slots of other timers only. *)
Lemma sleep_ok_other t t' now_ s :
  sleep_ok t now_ s -> epoch t' = epoch t ->
  (forall k, state s = Wall k -> k_epoch k = epoch t -> 
     (is_armed t k = true -> slots t' !! k_slot k = slots t !! k_slot k /\
        forall d, mk_entry d (k_slot k) (k_generation k) ∈ heap t -> mk_entry d (k_slot k) (k_generation k) ∈ heap t') /\
     (is_armed t k = false -> is_armed t' k = false) /\
     (forall p, slots t !! k_slot k = Some p -> exists p', slots t' !! k_slot k = Some p' /\ s_generation p <= s_generation p')) ->
  sleep_ok t' now_ s.
Proof.
  intros [Hk Hd] He Ho. split; [|done]. intros k Hs. destruct (Hk k Hs) as [[Hb1 Hb2] Hh]. split.
  - split; [by rewrite He|]. rewrite He. intros Hep. destruct (Hb2 Hep) as (p & Hp & Hg).
    destruct (Ho k Hs Hep) as (_ & _ & Hgrow). destruct (Hgrow p Hp) as (p' & Hp' & Hg'). exists p'. split; [done|lia].
  - intros Hdn. destruct (Hh Hdn) as [Hold Hcur]. split; [by rewrite He|]. rewrite He. intros Hep.
    destruct (Ho k Hs Hep) as (Harm & Hun & _). destruct (Hcur Hep) as [(Ha & (p & Hp & Hw) & Hin)|(Ha & Hr)].
    + left. destruct (Harm Ha) as [Hsl Hheap]. split_and!.
      * by rewrite (is_armed_same t).
      * exists p. by rewrite Hsl.
      * by apply Hheap.
    + right. split; [by apply Hun|done].
Qed.

Lemma sleep_ok_flags t t' now_ s :
  sleep_ok t now_ s -> slots t' = slots t -> heap t' = heap t -> epoch t' = epoch t -> sleep_ok t' now_ s.
Proof.
  intros Hok Hs Hh He. apply (sleep_ok_other t); [done..|]. intros k _ _. rewrite Hs, Hh.
  split_and!; [done| |eauto].
  intros Hf. rewrite (is_armed_same t); [done|done|by rewrite Hs].
Qed.

Lemma sleep_ok_later t now_ later s : (now_ <= later)%N -> sleep_ok t now_ s -> sleep_ok t later s.
Proof.
  intros Hle [Hk Hd]. split; [|intros H; specialize (Hd H); lia]. intros k Hs.
  destruct (Hk k Hs) as [Hb Hh]. split; [done|]. intros Hdn. destruct (Hh Hdn) as [Ho Hc]. split; [done|].
  intros He. destruct (Hc He) as [?|(? & ? & ?)]; [by left|right]. split_and!; [done|lia|done].
Qed.

Lemma sleep_ok_arm t at_ w t' k b now_ s :
  timers_ok t -> arm t at_ w = (t', k, b) -> sleep_ok t now_ s -> sleep_ok t' now_ s.
Proof.
  intros Ht Harm Hok. destruct (arm_ok _ _ _ _ _ _ Ht Harm) as (_ & Hke & He & _ & Hh & Hnew & Hoth & Hold & _).
  apply (sleep_ok_other t); [done..|]. intros q Hs Hq.
  destruct (decide (k_slot q = k_slot k)) as [Heq|Hne].
  - destruct (proj1 Hok q Hs) as [[_ Hb] _]. destruct (Hb Hq) as (p & Hp & Hg).
    rewrite Heq in *. destruct (Hold p Hp) as [Hlt Hun]. split_and!.
    + intros (_ & x & Hx & Hax & _)%is_armed_spec. rewrite Heq in Hx. congruence.
    + intros _. apply not_true_is_false. rewrite is_armed_spec. intros (_ & x & Hx & _ & Hgx).
      rewrite Heq, Hnew in Hx. injection Hx as <-. cbn in Hgx. lia.
    + intros p' Hp'. assert (p' = p) as -> by congruence. eexists. split; [done|]. cbn. lia.
  - rewrite Hoth by done. split_and!; [intros _; split; [done|]| |eauto].
    + intros d Hin. rewrite Hh, push_permutation. by apply list_elem_of_further.
    + intros Hf. rewrite (is_armed_same t); [done|done|by apply Hoth].
Qed.

Lemma sleep_ok_cancel t k now_ s :
  timers_ok t -> bounded t -> state s <> Wall k -> sleep_ok t now_ s -> sleep_ok (cancel t k) now_ s.
Proof.
  intros Ht Hb Hne Hok. destruct (cancel_ok t k Ht Hb) as (_ & _ & He & _ & _ & _ & _ & Hkeep & Hoth & Hown).
  destruct (is_armed t k) eqn:Ea; [|unfold cancel; by rewrite Ea].
  apply is_armed_spec in Ea as (Hke & p & Hp & Ha & Hg).
  assert (Hnew : slots (cancel t k) !! k_slot k = Some (disarmed p)).
  { destruct Hown as [Hs|(_ & x & Hx & _ & _ & Hnew)]; [|congruence].
    unfold cancel in Hs. rewrite (proj2 (is_armed_spec t k)), Hp in Hs by eauto. cbn [negb] in Hs.
    assert (Hlt : k_slot k < length (slots t)) by (by eapply lookup_lt_Some).
    unfold sweep in Hs. case_match; cbn in Hs; rewrite list_lookup_insert_eq in Hs by done; injection Hs as Hs;
      rewrite <- Hs in Ha; done. }
  apply (sleep_ok_other t); [done..|]. intros q Hs Hq.
  destruct (decide (k_slot q = k_slot k)) as [Heq|Hsl].
  - rewrite Heq, Hnew. split_and!.
    + intros (_ & x & Hx & Hax & Hgx)%is_armed_spec. rewrite Heq in Hx. assert (x = p) as -> by congruence.
      destruct Hne. rewrite Hs. f_equal. destruct q, k; cbn in *. congruence.
    + intros _. apply not_true_is_false. rewrite is_armed_spec. intros (_ & x & Hx & Hax & _).
      rewrite Heq, Hnew in Hx. injection Hx as <-. done.
    + intros x Hx. assert (x = p) as -> by congruence. eexists. by split.
  - rewrite Hoth by done. split_and!; [intros Haq; split; [done|]| |eauto].
    + intros d Hin. apply Hkeep; [done| |].
      * apply is_armed_spec in Haq as (_ & x & Hx & Hax & Hgx). apply live_in_spec. eauto.
      * cbn. by intros [= ? _].
    + intros Hf. rewrite (is_armed_same t); [done|done|by apply Hoth].
Qed.

Lemma mark_same due s : state (mark due s) = state s /\ until (mark due s) = until s /\ done_ (mark due s) = done_ s /\
  task (mark due s) = task s /\ (woken s = true -> woken (mark due s) = true) /\
  (task s ∈ due -> woken (mark due s) = true).
Proof. unfold mark. case_decide; by split_and!. Qed.

Lemma heap_place t e x : timers_ok t -> e ∈ heap t -> x ∈ heap t -> place e = place x -> e = x.
Proof.
  intros Ht He Hx Hp. pose proof (t_entries t Ht) as Hnd.
  apply list_elem_of_lookup in He as [i Hi]. apply list_elem_of_lookup in Hx as [j Hj].
  assert (i = j) as ->; [|congruence].
  eapply NoDup_lookup; [exact Hnd| |]; rewrite list_lookup_fmap; [by rewrite Hi|by rewrite Hj, Hp].
Qed.

Lemma sleep_ok_fire t t' now_ due s :
  timers_ok t -> timers_ok t' -> epoch t' = epoch t ->
  (forall e, e ∈ heap t' -> e ∈ heap t) -> (forall j, fired t t' now_ due j) ->
  sleep_ok t now_ s -> sleep_ok t' now_ (mark due s).
Proof.
  intros Ht Ht' He Hsub Hf [Hk Hd]. destruct (mark_same due s) as (Hs & Hu & Hdn & Htk & Hw & Hdue).
  split; [|by rewrite Hdn, Hu]. rewrite Hs, Hdn. intros k Hst. destruct (Hk k Hst) as [[Hb1 Hb2] Hh]. split.
  - split; [by rewrite He|]. rewrite He. intros Hep. destruct (Hb2 Hep) as (p & Hp & Hg).
    destruct (Hf (k_slot k)) as [->|(x & e & Hx & _ & -> & _)]; [eauto|].
    assert (x = p) as -> by congruence. by eexists.
  - intros Hnd. destruct (Hh Hnd) as [Ho Hc]. unfold held. rewrite He, Hu, Htk. split; [auto|].
    intros Hep. destruct (Hc Hep) as [(Ha & (p & Hp & Hwp) & Hin)|(Ha & Hle & Hwk)].
    + pose proof Ha as (_ & x & Hx & Hax & Hgx)%is_armed_spec. assert (x = p) as -> by congruence.
      destruct (Hf (k_slot k)) as [Hsame|(x & e & Hx' & _ & Hnew & Hine & Hpl & Hdl & Hwd)].
      * left. split_and!; [by rewrite (is_armed_same t)|exists p; by rewrite Hsame|].
        destruct (t_armed t' Ht' (k_slot k) p) as (e & Hine & Hpl); [by rewrite Hsame|done|].
        rewrite <- (heap_place t e (mk_entry (until s) (k_slot k) (k_generation k)) Ht); auto.
        rewrite Hpl. unfold place. cbn. congruence.
      * right. assert (x = p) as -> by congruence. split_and!.
        -- apply not_true_is_false. rewrite is_armed_spec. intros (_ & y & Hy & Hay & _). rewrite Hnew in Hy.
           by injection Hy as <-.
        -- assert (e = mk_entry (until s) (k_slot k) (k_generation k)) as ->; [|done].
           apply (heap_place t); auto. rewrite Hpl. unfold place. cbn. congruence.
        -- apply Hdue. by apply Hwd.
    + right. split_and!; auto. destruct (Hf (k_slot k)) as [Hsame|(x & e & Hx' & _ & Hnew & _)].
      * by rewrite (is_armed_same t).
      * apply not_true_is_false. rewrite is_armed_spec. intros (_ & y & Hy & Hay & _). rewrite Hnew in Hy. by injection Hy as <-.
Qed.

Lemma sleep_ok_orphan t now_ s :
  sleep_ok t now_ s -> sleep_ok (fst (orphan t)) now_ (mark (snd (orphan t)) s).
Proof.
  intros [Hk Hd]. destruct (mark_same (snd (orphan t)) s) as (Hs & Hu & Hdn & Htk & Hw & Hdue).
  split; [|by rewrite Hdn, Hu]. rewrite Hs, Hdn. intros k Hst. destruct (Hk k Hst) as [[Hb1 Hb2] Hh]. cbn. split.
  - split; cbn; lia.
  - intros Hnd. destruct (Hh Hnd) as [Ho Hc]. split; cbn; [intros _|lia].
    destruct (decide (k_epoch k = epoch t)) as [Hep|Hep]; [|auto].
    destruct (Hc Hep) as [(_ & (p & Hp & Hwp) & _)|(_ & _ & Hwk)]; [|auto].
    apply Hdue. cbn. rewrite list_elem_of_omap. exists p. split; [by eapply list_elem_of_lookup_2|done].
Qed.

Lemma poll_pending t k w t' : poll t k w = (t', Pending) -> timers_ok t ->
  is_armed t k = true /\ exists p, slots t !! k_slot k = Some p /\ s_generation p = k_generation k /\
    t' = set_slot t (k_slot k) (mk_slot (s_generation p) (Some w) true).
Proof.
  unfold poll. intros Hp Ht. destruct (negb (driven t) || _); [done|].
  destruct (is_armed t k) eqn:Ea; cbn in Hp; [|done]. split; [done|].
  apply is_armed_spec in Ea as (_ & p & Hs & Ha & Hg). rewrite Hs in Hp. injection Hp as <-.
  exists p. by rewrite Ha.
Qed.

Lemma poll_status t k w t' st : poll t k w = (t', st) ->
  match st with
  | Orphaned => t' = t
  | Ready => t' = t /\ k_epoch k = epoch t /\ is_armed t k = false
  | Pending => True
  end.
Proof.
  unfold poll. destruct (driven t); cbn; [|by intros [= <- <-]].
  destruct (Nat.eqb_spec (k_epoch k) (epoch t)); cbn; [|by intros [= <- <-]].
  destruct (is_armed t k); cbn; [by case_match; intros [= <- <-]|by intros [= <- <-]].
Qed.

(** A new waker in an armed slot. *)
Lemma set_waker_ok t i p w : timers_ok t -> slots t !! i = Some p -> armed p = true ->
  timers_ok (set_slot t i (mk_slot (s_generation p) (Some w) true)).
Proof.
  intros Ht Hp Ha. assert (Hlt : i < length (slots t)) by (by eapply lookup_lt_Some).
  assert (Hlive : forall e, live_in (<[i := mk_slot (s_generation p) (Some w) true]> (slots t)) e = live_in (slots t) e).
  { intros e. rewrite live_in_insert by done. case_decide as He; [|done]. unfold live_in. by rewrite He, Hp, Ha. }
  split; cbn -[count]; try apply Ht.
  - intros j. rewrite (t_free t Ht). destruct (decide (j = i)) as [->|Hj].
    + rewrite list_lookup_insert_eq by done. split; intros (x & Hx & Hax); [congruence|by injection Hx as <-].
    + by rewrite list_lookup_insert_ne.
  - intros e He. destruct (t_entry t Ht e He) as (q & Hq & Hg). destruct (decide (e_slot e = i)) as [Hei|Hei].
    + rewrite Hei, list_lookup_insert_eq by done. eexists. split; [done|]. cbn. rewrite Hei in Hq.
      by assert (q = p) as -> by congruence.
    + rewrite list_lookup_insert_ne by done. eauto.
  - intros j q [(<- & <- & _)|[Hj Hq]]%list_lookup_insert_Some Hq'; [exact (t_armed t Ht i p Hp Ha)|by apply (t_armed t Ht)].
  - rewrite (t_stale t Ht). apply count_agree. intros e _. unfold stale_in. by rewrite Hlive.
Qed.

(** ** The steps keep the invariant *)

(** A sleep changes; the others are as they were, under what the step did to the timers. *)
Lemma sleeps_insert w t' now' i s' :
  world_ok w -> (forall q, sleep_ok (timers w) (now w) q -> forall j, j <> i -> sleeps w !! j = Some (Some q) -> sleep_ok t' now' q) ->
  (forall s, s' = Some s -> sleep_ok t' now' s) ->
  forall j q, <[i := s']> (sleeps w) !! j = Some (Some q) -> sleep_ok t' now' q.
Proof.
  intros Hw Ho Hs j q [(-> & -> & _)|[Hj Hq]]%list_lookup_insert_Some; [by apply Hs|].
  eapply Ho; [by eapply (w_sleep w Hw)|by apply not_eq_sym|done].
Qed.

Lemma distinct_insert w i s' :
  world_ok w ->
  (forall s k, s' = Some s -> state s = Wall k ->
     forall j q, j <> i -> sleeps w !! j = Some (Some q) -> state q <> Wall k) ->
  forall j l s q k, <[i := s']> (sleeps w) !! j = Some (Some s) -> <[i := s']> (sleeps w) !! l = Some (Some q) ->
    state s = Wall k -> state q = Wall k -> j = l.
Proof.
  intros Hw Hn j l s q k [(<- & Hs & _)|[Hj Hs]]%list_lookup_insert_Some
    [(<- & Hq & _)|[Hl Hq]]%list_lookup_insert_Some Hsk Hqk; [done|..].
  - by destruct (Hn s k Hs Hsk l q ltac:(by apply not_eq_sym) Hq).
  - by destruct (Hn q k Hq Hqk j s ltac:(by apply not_eq_sym) Hs).
  - by eapply (w_distinct w Hw).
Qed.

Lemma set_driven_ok w : world_ok w ->
  timers_ok (fst (take_driver_seat (timers w))) /\ bounded (fst (take_driver_seat (timers w))).
Proof. intros Hw. split; [by apply (timers_ok_flags (timers w)); try apply Hw|apply Hw]. Qed.

Lemma poll_fresh_ok w i s tsk :
  world_ok w -> sleeps w !! i = Some (Some s) -> world_ok (poll_fresh w i s tsk).
Proof.
  intros Hw Hi. unfold poll_fresh. destruct (set_driven_ok w Hw) as [Ht Hb].
  destruct (take_driver_seat (timers w)) as [t seat] eqn:Es. cbn in Ht, Hb.
  injection Es as <- <-. set (t := mk_timers _ _ _ _ _ _ _ _) in *.
  assert (Hdrv : (if negb (driven (timers w)) then Spawned else task_ w) <> Absent).
  { destruct (driven (timers w)) eqn:Ed; [|done]. by apply (w_driven w Hw). }
  assert (Hoth : forall q, sleep_ok (timers w) (now w) q -> sleep_ok t (now w) q).
  { intros q Hq. by apply (sleep_ok_flags (timers w)). }
  assert (Hfl : match (if negb (driven (timers w)) then Spawned else task_ w) with
                          | Selecting next => task_ w = Selecting next | _ => True end).
  { by destruct (driven (timers w)), (task_ w). }
  destruct (N.leb_spec (until s) (now w)) as [Hle|Hgt].
  - split; cbn; try done.
    + eapply sleeps_insert; [done|auto|]. intros q [= <-]. split; [done|]. done.
    + apply distinct_insert; [done|]. by intros q k [= <-].
    + pose proof (w_driver w Hw) as Hd. unfold driver_ok in *. cbn.
      destruct (negb (driven (timers w))); [done|]. by destruct (task_ w).
  - destruct (arm t (until s) tsk) as [[t' k] wakes] eqn:Harm.
    destruct (arm_ok _ _ _ _ _ _ Ht Harm) as (Ht' & Hke & He & Hdn & Hh & Hnew & Ho & Hold & Hst & Hlen).
    split; cbn; try done.
    + unfold bounded in *. lia.
    + eapply sleeps_insert; [done|intros; by eapply sleep_ok_arm; [..|apply Hoth]|].
      intros q [= <-]. split; [|done]. cbn. intros k' [= <-]. split.
      * split; [by rewrite Hke, He|]. intros _. eexists. split; [exact Hnew|done].
      * intros _. split; cbn; [by rewrite Hke, He|]. intros _. left. split_and!.
        -- apply is_armed_spec. split; [by rewrite Hke, He|]. eexists. split; [exact Hnew|done].
        -- eexists. split; [exact Hnew|done].
        -- rewrite Hh, push_permutation. apply list_elem_of_here.
    + apply distinct_insert; [done|]. intros q k' [= <-] [= <-] j x Hj Hx Hxk.
      destruct (proj1 (w_sleep w Hw j x Hx) k Hxk) as [[_ Hkb] _].
      destruct (Hkb Hke) as (p & Hp & Hg). destruct (Hold p Hp) as [? _]. lia.
    + pose proof (w_driver w Hw) as Hd. unfold driver_ok in *. cbn.
      destruct (if negb (driven (timers w)) then Spawned else task_ w) as [| | |next|]; try done.
      rewrite Hfl in Hd. destruct Hd as [Hd1 Hd2]. unfold arm in Harm.
      destruct (match free t with [] => _ | _ => _ end) as [[slot ss] fs].
      injection Harm as <- <- <-. cbn in *.
      destruct (heap (timers w)) as [|first rest] eqn:Eh; cbn.
      * split; [by left|]. intros [Hn Hdr]%orb_false_iff. destruct (Hd2 Hn) as (? & _). congruence.
      * destruct (N.ltb_spec (until s) (deadline first)) as [Hlt|Hge]; cbn.
        -- split; [by left|]. intros [Hn Hdr]%orb_false_iff. destruct (Hd2 Hn) as (? & _). congruence.
        -- rewrite orb_false_r. split; [|done]. destruct Hd1 as [?|Hd1]; [by left|right].
           intros e Hin. change (e ∈ push (mk_entry (until s) slot (S (s_generation (default default_slot (ss !! slot))))) (first :: rest)) in Hin.
           rewrite push_permutation in Hin. apply elem_of_cons in Hin as [->|Hin]; [|by apply Hd1].
           destruct (Hd1 first (list_elem_of_here _ _)) as (a & -> & Ha). exists a. split; [done|cbn; lia].
Qed.

(** A step of the wheel that changes no sleep. *)
Lemma wake_all_lookup due l i q : wake_all due l !! i = Some (Some q) ->
  exists s, l !! i = Some (Some s) /\ q = mark due s.
Proof.
  unfold wake_all. rewrite list_lookup_fmap. destruct (l !! i) as [[s|]|]; cbn; [|done..].
  intros [= <-]. eauto.
Qed.

Lemma wake_all_ok w t' due drv n :
  world_ok w -> timers_ok t' -> bounded t' -> (driven t' = true <-> drv <> Absent) ->
  (forall q, sleep_ok (timers w) (now w) q -> sleep_ok t' (now w) (mark due q)) ->
  (drv = Absent -> heap t' = []) ->
  driver_ok (mk_world t' (now w) drv n (wake_all due (sleeps w))) ->
  world_ok (mk_world t' (now w) drv n (wake_all due (sleeps w))).
Proof.
  intros Hw Ht Hb Hd Hs Hidle Hdr. split; cbn; try done.
  - intros i q (s & Hi & ->)%wake_all_lookup. by apply Hs, (w_sleep w Hw i).
  - intros i j q1 q2 k (s1 & Hi & ->)%wake_all_lookup (s2 & Hj & ->)%wake_all_lookup.
    destruct (mark_same due s1) as (-> & _). destruct (mark_same due s2) as (-> & _). by apply (w_distinct w Hw).
Qed.

Lemma poll_sleep_ok w i s tsk :
  world_ok w -> sleeps w !! i = Some (Some s) -> done_ s = false -> world_ok (poll_sleep w i s tsk).
Proof.
  intros Hw Hi Hdn. unfold poll_sleep. destruct (state s) as [|k] eqn:Est; [by apply poll_fresh_ok|].
  destruct (poll (timers w) k tsk) as [t st] eqn:Ep. pose proof (poll_status _ _ _ _ _ Ep) as Hst.
  destruct (proj1 (w_sleep w Hw i s Hi) k Est) as [Hkb Hheld]. specialize (Hheld Hdn). destruct st.
  - destruct Hst as (-> & Hep & Hna). unfold set_sleep. cbn. split; cbn; try apply Hw.
    + eapply sleeps_insert; [done|auto|]. intros q [= <-]. split; [cbn; intros k' [= <-]; done|].
      intros _. cbn. destruct (proj2 Hheld Hep) as [(Ha & _)|(_ & Hle & _)]; [congruence|done].
    + apply distinct_insert; [done|]. intros q k' [= <-] [= <-] j x Hj Hx Hxk.
      by destruct Hj; apply (w_distinct w Hw j i x s k).
  - destruct (poll_pending _ _ _ _ Ep (w_timers w Hw)) as (Ha & p & Hp & Hg & ->).
    pose proof Ha as (Hep & p' & Hp' & Hap & _)%is_armed_spec. assert (p' = p) as -> by congruence.
    assert (Hlt : k_slot k < length (slots (timers w))) by (by eapply lookup_lt_Some).
    pose proof (set_waker_ok _ _ _ tsk (w_timers w Hw) Hp Hap) as Hok.
    unfold set_sleep. cbn. split; cbn; try done; try apply Hw.
    + pose proof (w_bounded w Hw). unfold bounded in *. cbn. by rewrite length_insert.
    + eapply sleeps_insert; [done| |].
      * intros q Hq j Hj Hjq. apply (sleep_ok_other (timers w)); [done..|]. intros kq Hkq Hepq.
        destruct (decide (k_slot kq = k_slot k)) as [Heq|Hne].
        -- cbn. rewrite Heq, list_lookup_insert_eq by done. split_and!.
           ++ intros (_ & x & Hx & _ & Hgx)%is_armed_spec. rewrite Heq in Hx. assert (x = p) as -> by congruence.
              assert (kq = k) as -> by (destruct kq, k; cbn in *; congruence).
              by destruct Hj; apply (w_distinct w Hw j i q s k).
           ++ intros Hf. apply not_true_is_false. rewrite is_armed_spec. cbn. rewrite Heq, list_lookup_insert_eq by done.
              intros (_ & x & [= <-] & _ & Hgx). cbn in Hgx. apply Bool.not_true_iff_false in Hf. apply Hf.
              apply is_armed_spec. split; [done|]. exists p. by rewrite Heq.
           ++ intros x Hx. assert (x = p) as -> by congruence. by eexists.
        -- cbn. rewrite list_lookup_insert_ne by done. split_and!; [by intros _| |eauto].
           intros Hf. rewrite (is_armed_same (timers w)); [done|done|]. cbn. by rewrite list_lookup_insert_ne.
      * intros q [= <-]. split; [|done]. cbn. intros k' [= <-]. destruct Hkb as [Hk1 Hk2]. split.
        -- split; [done|]. cbn. intros _. rewrite list_lookup_insert_eq by done. eexists. split; [done|]. cbn. lia.
        -- intros _. split; cbn; [done|]. intros _. left.
           destruct (proj2 Hheld Hep) as [(_ & _ & Hin)|(Hna & _)]; [|congruence]. split_and!.
           ++ apply is_armed_spec. cbn. rewrite list_lookup_insert_eq by done. split; [done|]. eexists. by split_and!.
           ++ rewrite list_lookup_insert_eq by done. by eexists.
           ++ done.
    + apply distinct_insert; [done|]. intros q k' [= <-] [= <-] j x Hj Hx Hxk.
      by destruct Hj; apply (w_distinct w Hw j i x s k).
  - subst t. change (world_ok (poll_fresh w i s tsk)). by apply poll_fresh_ok.
Qed.

Lemma driver_looks w w' : step w DriverLooks = Some (Some w') ->
  ('(t, due, next) ← fire (timers w) (now w);
   Some (mk_world t (now w) (Selecting next) true (wake_all due (sleeps w)))) = Some w'.
Proof. cbn -[fire]. destruct (task_ w); intros [= <-] || done; done. Qed.

Lemma wheel_step_ok w a w' : world_ok w -> step w a = Some (Some w') -> world_ok w'.
Proof.
  intros Hw Hs. destruct a as [at_|i tsk|i tsk|i| | | |to]; cbn -[orphan] in Hs.
  - injection Hs as <-. split; cbn; try apply Hw.
    + intros i s [Hi|[Hi Hlast]]%lookup_app_Some; [by apply (w_sleep w Hw i)|].
      apply list_lookup_singleton_Some in Hlast as [_ [= <-]]. by split.
    + intros i j s q k [Hi|[Hi Hi']]%lookup_app_Some [Hj|[Hj Hj']]%lookup_app_Some Hsk Hqk;
        [by apply (w_distinct w Hw i j s q k)|..];
        repeat match goal with H : [_] !! _ = _ |- _ => apply list_lookup_singleton_Some in H as [_ [= <-]] end; done.
  - destruct (sleeps w !! i) as [[s|]|] eqn:Hi; try done. destruct (done_ s) eqn:Hd; [done|].
    injection Hs as <-. by apply poll_sleep_ok.
  - destruct (task_ w) eqn:Hta; try done. destruct (sleeps w !! i) as [[s|]|] eqn:Hi; try done.
    destruct (done_ s); [done|]. injection Hs as <-. destruct (set_driven_ok w Hw) as [Ht Hb]. split; cbn; try done.
    + eapply sleeps_insert; [done| |by intros q [= <-]]. intros q Hq _ _ _. by apply (sleep_ok_flags (timers w)).
    + apply distinct_insert; [done|]. by intros q k [= <-].
  - destruct (sleeps w !! i) as [[s|]|] eqn:Hi; try done. injection Hs as <-.
    destruct (state s) as [|k] eqn:Est.
    + split; cbn; try apply Hw; [eapply sleeps_insert; [done|auto|done]|by apply distinct_insert].
    + destruct (cancel_ok (timers w) k (w_timers w Hw) (w_bounded w Hw)) as
        (Ht & Hb & He & Hdn & Hdr & Hea & Hsub & _).
      split; cbn; try done.
      * rewrite Hdn. apply Hw.
      * eapply sleeps_insert; [done| |done]. intros q Hq j Hj Hjq. apply sleep_ok_cancel; try apply Hw; [|done].
        intros Hqk. by destruct Hj; apply (w_distinct w Hw j i q s k).
      * by apply distinct_insert.
      * pose proof (w_driver w Hw) as Hd. unfold driver_ok in *. cbn. rewrite Hdr, Hea.
        destruct (task_ w) as [| | |next|]; try done. destruct Hd as [[?|Hd1] Hd2]; (split; [|done]); [by left|right].
        intros e He'. by apply Hd1, Hsub.
      * intros Hab. destruct (heap (cancel (timers w) k)) as [|e h]; [done|].
        specialize (Hsub e (list_elem_of_here _ _)). rewrite (w_idle w Hw Hab) in Hsub. by apply not_elem_of_nil in Hsub.
  - assert (Hne : task_ w <> Absent) by (by destruct (task_ w)).
    apply driver_looks in Hs. destruct (fire_ok (timers w) (now w) (w_timers w Hw) (w_bounded w Hw)) as
      (t & due & Hf & Ht & Hb & He & Hdn & _ & Hea & (gone & Hg & _) & _ & Hj).
    rewrite Hf in Hs. injection Hs as <-. apply wake_all_ok; try done.
    + rewrite Hdn, (w_driven w Hw). done.
    + intros q Hq. apply (sleep_ok_fire (timers w) t (now w) due q (w_timers w Hw) Ht He); [|exact Hj|exact Hq].
      intros e. rewrite Hg, elem_of_app. auto.
    + unfold driver_ok. cbn. split; [right|done]. intros e Hin. pose proof (t_sorted t Ht) as Hsort.
      destruct (heap t) as [|first rest]; [by apply not_elem_of_nil in Hin|]. exists (deadline first). split; [done|].
      apply StronglySorted_inv in Hsort as [_ Hall]. rewrite Forall_forall in Hall.
      apply elem_of_cons in Hin as [->|Hin]; [lia|]. by apply Hall.
  - destruct (task_ w) as [| | |next|] eqn:Hd; try done.
    destruct (match next with Some at_ => (at_ <=? now w)%N | None => false end) eqn:Hp.
    + injection Hs as <-. split; cbn; try apply Hw; [|done..]. rewrite (w_driven w Hw), Hd. done.
    + pose proof (w_driver w Hw) as Hdr. unfold driver_ok in Hdr. rewrite Hd in Hdr. destruct Hdr as [Hd1 Hd2].
      unfold poll_earlier in Hs. destruct (earlier (timers w)) eqn:Ee; injection Hs as <-; (split; cbn;
        [by apply (timers_ok_flags (timers w)); try apply Hw
        |exact (w_bounded w Hw)
        |rewrite (w_driven w Hw), Hd; done
        |intros i s Hi; apply (sleep_ok_flags (timers w)); [by apply (w_sleep w Hw i)|done..]
        |apply Hw| |done]).
      * done.
      * unfold driver_ok. cbn. split; [by right; destruct Hd1|]. intros _. split_and!; [done|done|].
        intros a ->. by apply N.leb_gt in Hp.
  - assert (Hr : world_ok (mk_world (fst (orphan (timers w))) (now w) Absent false (wake_all (snd (orphan (timers w))) (sleeps w)))).
    { apply wake_all_ok; try done.
      - split; cbn; try constructor; try set_solver. 
      - unfold bounded. cbn. lia.
      - intros q. apply sleep_ok_orphan. }
    destruct (task_ w) eqn:Hd; try done; injection Hs as <-; [|exact Hr..].
    split; cbn; try apply Hw; try done. by rewrite (w_driven w Hw), Hd.
  - destruct (N.ltb_spec to (now w)) as [|Hle]; [done|]. injection Hs as <-. split; cbn; try apply Hw.
    + intros i s Hi. eapply sleep_ok_later; [done|]. by apply (w_sleep w Hw i).
    + pose proof (w_driver w Hw) as Hd. unfold driver_ok in *. cbn. destruct (task_ w) as [| | |next|]; try done.
      destruct Hd as [Hd1 Hd2]. split; [done|]. intros [Hn Hf]%orb_false_iff. destruct (Hd2 Hn) as (? & ? & ?).
      split_and!; [done|done|]. intros a ->. by apply N.leb_gt in Hf.
Qed.

Lemma wheel_reachable_ok w : reachable w -> world_ok w.
Proof.
  induction 1 as [|w a w' _ IH Hs]; [|by eapply wheel_step_ok].
  split; cbn; try done; [split; cbn; try constructor; set_solver|unfold bounded; cbn; lia].
Qed.

(** ** The bounds of the slab and the heap *)

Lemma count_split {A} (f : A -> bool) l : length l = count f l + count (fun x => negb (f x)) l.
Proof. induction l as [|x l IH]; [done|]. rewrite !count_cons. cbn [length]. destruct (f x); cbn; lia. Qed.

Lemma live_slots_once ss h :
  NoDup (place <$> h) -> NoDup (e_slot <$> List.filter (live_in ss) h).
Proof.
  induction h as [|e h IH]; cbn [List.filter fmap list_fmap]; [constructor|].
  intros [He Hnd]%NoDup_cons. destruct (live_in ss e) eqn:El; [|by apply IH].
  cbn [fmap list_fmap]. apply NoDup_cons. split; [|by apply IH].
  intros (x & Hx & [Hl Hin]%elem_of_filterb)%list_elem_of_fmap. destruct He.
  apply live_in_spec in El as (s & Hs & _ & Hg). apply live_in_spec in Hl as (q & Hq & _ & Hg').
  assert (place e = place x) as -> by (unfold place; congruence). by apply list_elem_of_fmap_2.
Qed.

Lemma heap_bound t : timers_ok t -> length (heap t) <= length (slots t) + stale t.
Proof.
  intros Ht. rewrite (count_split (live_in (slots t)) (heap t)), (t_stale t Ht).
  change (fun x => negb (live_in (slots t) x)) with (stale_in (slots t)).
  enough (count (live_in (slots t)) (heap t) <= length (slots t)) by lia.
  unfold count. rewrite <- (length_fmap e_slot). transitivity (length (seq 0 (length (slots t)))); [|by rewrite length_seq].
  apply submseteq_length, NoDup_submseteq; [apply live_slots_once, Ht|].
  intros i (e & -> & [(s & Hs%lookup_lt_Some & _)%live_in_spec _]%elem_of_filterb)%list_elem_of_fmap.
  apply elem_of_seq. lia.
Qed.

Lemma arm_grows t at_ w : length (slots t) < length (slots (arm t at_ w).1.1) -> free t = [].
Proof. unfold arm. destruct (free t); [done|]. cbn. rewrite length_insert. lia. Qed.

Lemma poll_sleep_grows w i s tsk :
  length (slots (timers w)) < length (slots (timers (poll_sleep w i s tsk))) -> free (timers w) = [].
Proof.
  assert (Hf : length (slots (timers w)) < length (slots (timers (poll_fresh w i s tsk))) -> free (timers w) = []).
  { unfold poll_fresh. cbn [take_driver_seat]. destruct (until s <=? now w)%N; cbn -[arm]; [lia|].
    destruct (arm _ _ _) as [[t k] b] eqn:Ea. cbn. intros Hlt.
    apply (arm_grows (take_driver_seat (timers w)).1 (until s) tsk). cbn [take_driver_seat fst]. rewrite Ea. exact Hlt. }
  unfold poll_sleep. destruct (state s) as [|k]; [exact Hf|]. unfold poll.
  destruct (negb _ || negb _)%bool; [exact Hf|]. destruct (negb (is_armed _ _)); [cbn; lia|].
  destruct (slots (timers w) !! k_slot k); cbn; [rewrite length_insert|]; lia.
Qed.

Lemma fired_length t t' now_ due : (forall j, fired t t' now_ due j) -> length (slots t') <= length (slots t).
Proof.
  intros Hf. destruct (decide (length (slots t') <= length (slots t))) as [|Hn]; [done|].
  destruct (lookup_lt_is_Some_2 (slots t') (length (slots t))) as [s Hs]; [lia|].
  destruct (Hf (length (slots t))) as [He|(q & e & Hq%lookup_lt_Some & _)]; [|lia].
  rewrite Hs in He. symmetry in He. apply lookup_lt_Some in He. lia.
Qed.

(** ** Sleeps past their deadlines *)

Lemma poll_fresh_due w i s tsk :
  sleeps w !! i = Some (Some s) -> (until s <= now w)%N ->
  exists s', sleeps (poll_fresh w i s tsk) !! i = Some (Some s') /\ done_ s' = true.
Proof.
  intros Hi%lookup_lt_Some Hdue%N.leb_le. unfold poll_fresh. cbn [take_driver_seat]. rewrite Hdue. cbn.
  rewrite list_lookup_insert_eq by done. by eexists.
Qed.

Lemma poll_sleep_due w i s k tsk :
  sleeps w !! i = Some (Some s) -> state s = Wall k -> is_armed (timers w) k = false -> (until s <= now w)%N ->
  exists s', sleeps (poll_sleep w i s tsk) !! i = Some (Some s') /\ done_ s' = true.
Proof.
  intros Hi Hst Hna Hdue. unfold poll_sleep, poll. rewrite Hst, Hna.
  destruct (negb _ || negb _)%bool; [by apply (poll_fresh_due (mk_world _ _ _ _ _))|].
  cbn. rewrite list_lookup_insert_eq by (by eapply lookup_lt_Some). by eexists.
Qed.

Lemma wheel_looked w i s k w' :
  world_ok w -> sleeps w !! i = Some (Some s) -> done_ s = false -> (until s <= now w)%N -> state s = Wall k ->
  step w DriverLooks = Some (Some w') ->
  exists s', sleeps w' !! i = Some (Some s') /\ state s' = Wall k /\ done_ s' = false /\ woken s' = true /\
    until s' = until s /\ now w' = now w /\ is_armed (timers w') k = false.
Proof.
  intros Hw Hi Hd Hdue Hst Hs. pose proof (wheel_step_ok w DriverLooks w' Hw Hs) as Hw'. apply driver_looks in Hs.
  destruct (fire_ok (timers w) (now w) (w_timers w Hw) (w_bounded w Hw)) as (t & due & Hf & _ & _ & _ & _ & _ & _ & _ & Hlate & _).
  rewrite Hf in Hs. injection Hs as <-. destruct (mark_same due s) as (Hms & Hmu & Hmd & _).
  assert (Hi' : wake_all due (sleeps w) !! i = Some (Some (mark due s))).
  { unfold wake_all. rewrite list_lookup_fmap, Hi. done. }
  exists (mark due s). rewrite Hms, Hmu, Hmd. cbn -[mark].
  destruct (proj1 (w_sleep _ Hw' i _ Hi') k) as [_ Hheld]; [congruence|].
  destruct (Hheld ltac:(congruence)) as [Hold Hcur]. cbn -[mark] in Hold, Hcur.
  destruct (decide (k_epoch k = epoch t)) as [He|He].
  - destruct (Hcur He) as [(_ & _ & Hin)|(? & _ & ?)]; [|by split_and!].
    apply Hlate in Hin. cbn -[mark] in Hin. rewrite Hmu in Hin. lia.
  - split_and!; try done; [by apply Hold|]. unfold is_armed. by apply Nat.eqb_neq in He as ->.
Qed.

(** ** Theorems *)

(** The wheel's sections never panic and its memory stays in step with the sleeps it holds: in every
    reachable world no step underflows the count of stale entries; the heap holds at most one entry
    per slot of the slab and [stale] more, and [stale] is within the larger of the sweep's floor and
    the slab; and a step makes the slab longer only when every slot of it is armed, so a slot a
    sleep gave up is used again before a new one is made. *)
Theorem wheel_bounds_its_memory w a :
  reachable w ->
  step w a <> Some None /\
  stale (timers w) <= Nat.max SWEEP_FLOOR (length (slots (timers w))) /\
  length (heap (timers w)) <= length (slots (timers w)) + Nat.max SWEEP_FLOOR (length (slots (timers w))) /\
  forall w', step w a = Some (Some w') -> length (slots (timers w)) < length (slots (timers w')) ->
    forall i s, slots (timers w) !! i = Some s -> armed s = true.
Proof.
  intros Hw%wheel_reachable_ok. pose proof (w_timers w Hw) as Ht. pose proof (w_bounded w Hw) as Hb.
  pose proof (heap_bound _ Ht). unfold bounded in Hb. split_and!; [|done|lia|].
  - destruct (fire_ok (timers w) (now w) Ht Hb) as (t & due & Hf & _).
    destruct a; cbn -[orphan fire]; repeat case_match; try done; rewrite Hf in *; done.
  - intros w' Hs Hlt i s Hi. apply not_false_is_true. intros Ha.
    assert (Hfree : i ∈ free (timers w)) by (apply (t_free _ Ht); eauto). revert Hfree.
    enough (free (timers w) = []) as -> by apply not_elem_of_nil.
    destruct a as [at_|j tsk|j tsk|j| | | |to]; cbn -[orphan poll_sleep] in Hs.
    + injection Hs as <-. cbn in Hlt. lia.
    + destruct (sleeps w !! j) as [[q|]|]; try done. destruct (done_ q); [done|]. injection Hs as <-.
      by apply poll_sleep_grows in Hlt.
    + destruct (task_ w); try done. destruct (sleeps w !! j) as [[q|]|]; try done. destruct (done_ q); [done|].
      injection Hs as <-. cbn in Hlt. lia.
    + destruct (sleeps w !! j) as [[q|]|]; try done. injection Hs as <-. cbn in Hlt.
      destruct (state q) as [|k]; [lia|]. unfold cancel, sweep in Hlt.
      destruct (negb _); [lia|]. destruct (_ !! _); [|lia]. destruct (_ <=? _); cbn in Hlt; rewrite length_insert in Hlt; lia.
    + apply (driver_looks w w') in Hs. destruct (fire_ok (timers w) (now w) Ht Hb) as (t & due & Hf & Hr).
      rewrite Hf in Hs. injection Hs as <-. cbn in Hlt.
      assert (length (slots t) <= length (slots (timers w))) by (eapply fired_length, Hr). lia.
    + destruct (task_ w) as [| | |next|]; try done. destruct (match next with Some _ => _ | None => _ end).
      * injection Hs as <-. cbn in Hlt. lia.
      * unfold poll_earlier in Hs. destruct (earlier _); injection Hs as <-; cbn in Hlt; lia.
    + destruct (task_ w); try done; injection Hs as <-; cbn in Hlt; lia.
    + destruct (to <? now w)%N; [done|]. injection Hs as <-. cbn in Hlt. lia.
Qed.

(** How a wheel loses its driver for good: its runtime ended between the spawn and the driver's first
    poll, or no runtime ran where the seat was taken. *)
Lemma driver_lost w a w' : step w a = Some (Some w') -> task_ w <> Lost -> task_ w' = Lost ->
  task_ w = Spawned /\ a = RuntimeEnds \/ task_ w = Absent /\ exists i tsk, a = PollOutside i tsk.
Proof.
  assert (Hf : forall w i s tsk, task_ w <> Lost -> task_ (poll_fresh w i s tsk) <> Lost).
  { intros u i s tsk Hne. unfold poll_fresh. cbn [take_driver_seat]. destruct (negb (driven (timers u))), (_ <=? _)%N;
      cbn -[arm]; try done; by destruct (arm _ _ _) as [[??]?]. }
  intros Hs Hne Hl. destruct a as [at_|i tsk|i tsk|i| | | |to].
  - injection Hs as <-. by destruct Hne.
  - cbn in Hs. destruct (sleeps w !! i) as [[s|]|]; try done. destruct (done_ s); [done|]. injection Hs as <-.
    unfold poll_sleep in Hl. destruct (state s) as [|k]; [by apply Hf in Hl|].
    destruct (poll _ _ _) as [t [| |]]; cbn -[poll_fresh] in Hl; try done. by apply Hf in Hl.
  - right. cbn in Hs. destruct (task_ w) eqn:E; try done. eauto.
  - cbn in Hs. destruct (sleeps w !! i) as [[s|]|]; try done. by injection Hs as <-.
  - apply driver_looks in Hs. destruct (fire _ _) as [[[??]?]|]; [|done]. by injection Hs as <-.
  - cbn in Hs. destruct (task_ w); try done. repeat case_match; by injection Hs as <-.
  - left. cbn in Hs. destruct (task_ w) eqn:E; try done; by injection Hs as <-.
  - cbn in Hs. destruct (_ <? _)%N; [done|]. by injection Hs as <-.
Qed.

(** C36. No sleep is lost while the wheel has its driver: in every reachable world a sleep that has
    completed did so at or past its deadline, and one that is in the wheel and has not completed
    either had its task woken since its last poll, or has its timer armed with the waker of the task
    that polled it last and an entry of its deadline in the heap - with a driver task to fire it,
    which is spawned and about to be polled first, is about to look at the heap, is notified, or
    waits on a timer that goes off after now and not past the deadline.  The exception is a wheel
    whose driver went before its first poll, without the guard: and a wheel comes to that only by
    the end of the runtime between the spawn and that poll, or by a first poll of a sleep where no
    runtime runs, which panics. *)
Theorem no_sleep_is_lost w i s :
  reachable w -> sleeps w !! i = Some (Some s) ->
  (done_ s = true -> (until s <= now w)%N) /\
  (done_ s = false -> forall k, state s = Wall k ->
     woken s = true \/
     is_armed (timers w) k = true /\
     (exists p, slots (timers w) !! k_slot k = Some p /\ waker p = Some (task s)) /\
     mk_entry (until s) (k_slot k) (k_generation k) ∈ heap (timers w) /\
     match task_ w with
     | Absent => False
     | Spawned | Looking => True
     | Selecting next => notified w = true \/ exists a, next = Some a /\ (now w < a <= until s)%N
     | Lost => True
     end) /\
  (forall a w', step w a = Some (Some w') -> task_ w <> Lost -> task_ w' = Lost ->
     task_ w = Spawned /\ a = RuntimeEnds \/ task_ w = Absent /\ exists i tsk, a = PollOutside i tsk).
Proof.
  intros Hw%wheel_reachable_ok Hi. destruct (w_sleep w Hw i s Hi) as [Hk Hdone].
  split_and!; [exact Hdone| |intros a w'; apply driver_lost].
  intros Hd k Hst. destruct (Hk k Hst) as [[Hle Hgen] Hheld]. destruct (Hheld Hd) as [Hold Hcur].
  destruct (decide (k_epoch k = epoch (timers w))) as [He|He]; [|left; by apply Hold].
  destruct (Hcur He) as [(Ha & Hwk & Hin)|(_ & _ & ?)]; [right|by left]. split_and!; try done.
  pose proof (w_driver w Hw) as Hok. unfold driver_ok in Hok. destruct (task_ w) as [| | |next|] eqn:Et; try done.
  - pose proof (w_idle w Hw Et) as Hh. rewrite Hh in Hin. by apply not_elem_of_nil in Hin.
  - destruct (notified w) eqn:En; [by left|right]. destruct Hok as [Hcov Hsel].
    destruct (Hsel eq_refl) as (_ & Hea & Hnow). destruct Hcov as [|Hcov]; [congruence|].
    destruct (Hcov _ Hin) as (a & -> & Hle'). exists a. specialize (Hnow a eq_refl). cbn in Hle'. by split_and!.
Qed.

(** A sleep that is due ends: the driver's turn at the heap wakes the task of every sleep in the
    wheel whose deadline has passed, and a poll of it then completes it; a sleep first polled at or
    past its deadline completes on that poll. *)
Theorem due_sleeps_end w i s tsk :
  reachable w -> sleeps w !! i = Some (Some s) -> done_ s = false -> (until s <= now w)%N ->
  (state s = Fresh ->
     exists w' s', step w (PollSleep i tsk) = Some (Some w') /\ sleeps w' !! i = Some (Some s') /\ done_ s' = true) /\
  (forall k w', state s = Wall k -> step w DriverLooks = Some (Some w') ->
     exists s' w'' s'', sleeps w' !! i = Some (Some s') /\ woken s' = true /\
       step w' (PollSleep i tsk) = Some (Some w'') /\ sleeps w'' !! i = Some (Some s'') /\ done_ s'' = true).
Proof.
  intros Hr Hi Hd Hdue. pose proof (wheel_reachable_ok w Hr) as Hw. split.
  - intros Hst. destruct (poll_fresh_due w i s tsk Hi Hdue) as (s' & Hs' & Hd'). cbn. rewrite Hi, Hd.
    unfold poll_sleep. rewrite Hst. by eexists _, _.
  - intros k w' Hst Hs. destruct (wheel_looked w i s k w' Hw Hi Hd Hdue Hst Hs) as
      (s' & Hi' & Hst' & Hd' & Hwk & Hun & Hnow & Hna).
    exists s'. eexists _. cbn. rewrite Hi', Hd'.
    destruct (poll_sleep_due w' i s' k tsk Hi' Hst' Hna) as (s'' & Hs'' & Hd''); [lia|].
    exists s''. by split_and!.
Qed.

(** ** Witnesses *)

Definition ex_run (schedule : list Actor) : World := default initial (run initial schedule).

Lemma wheel_run_reachable w schedule w' : reachable w -> run w schedule = Some w' -> reachable w'.
Proof.
  revert w. induction schedule as [|a schedule IH]; cbn; intros w Hw; [by intros [= <-]|].
  destruct (step w a) as [[w1|]|] eqn:Hs; try done. apply IH. by eapply reach_step.
Qed.

Lemma ex_wheel_reachable schedule : reachable (ex_run schedule).
Proof.
  unfold ex_run. destruct (run _ _) as [w|] eqn:E; [|apply reach_initial].
  eapply wheel_run_reachable; [apply reach_initial|exact E].
Qed.

(** Two sleeps in the wheel; the driver waits for the first, and the clock stands before it. *)
Definition two_sleeps : World :=
  ex_run [NewSleep 9; NewSleep 5; PollSleep 0 0; DriverLooks; DriverSelects; PollSleep 1 1; DriverSelects; DriverLooks;
          DriverSelects; Advance 4].

Lemma wheel_bounds_its_memory_witness :
  length (heap (timers two_sleeps)) = 2 /\ step two_sleeps (DropSleep 0) <> Some None.
Proof.
  split; [reflexivity|]. apply (wheel_bounds_its_memory two_sleeps (DropSleep 0) (ex_wheel_reachable _)).
Defined.

Lemma no_sleep_is_lost_witness :
  task_ two_sleeps = Selecting (Some 5%N) /\
  is_armed (timers two_sleeps) (mk_key 0 1 1) = true.
Proof.
  split; [reflexivity|].
  destruct (proj1 (proj2 (no_sleep_is_lost two_sleeps 1 (mk_sleep 5 (Wall (mk_key 0 1 1)) 1 false false) (ex_wheel_reachable _) eq_refl))
              eq_refl (mk_key 0 1 1) eq_refl) as [Hw|(Ha & _)]; [discriminate Hw|exact Ha].
Defined.

(** The first deadline passed and the driver is about to look. *)
Definition one_due : World :=
  ex_run [NewSleep 9; NewSleep 5; PollSleep 0 0; DriverLooks; DriverSelects; PollSleep 1 1; DriverSelects; DriverLooks;
          DriverSelects; Advance 6; DriverSelects].

Lemma due_sleeps_end_witness :
  exists w' s' w'' s'', step one_due DriverLooks = Some (Some w') /\
    sleeps w' !! 1 = Some (Some s') /\ woken s' = true /\
    step w' (PollSleep 1 7) = Some (Some w'') /\ sleeps w'' !! 1 = Some (Some s'') /\ done_ s'' = true.
Proof.
  destruct (step one_due DriverLooks) as [[w'|]|] eqn:E; [|vm_compute in E; discriminate E..].
  destruct (proj2 (due_sleeps_end one_due 1 (mk_sleep 5 (Wall (mk_key 0 1 1)) 1 false false) 7 (ex_wheel_reachable _)
              eq_refl eq_refl ltac:(vm_compute; discriminate)) (mk_key 0 1 1) w' eq_refl E)
    as (s' & w'' & s'' & H). exists w', s', w'', s''. split; [reflexivity|exact H].
Defined.

(** *** A driver that goes before its first poll

    The runtime that spawned it ends, or none runs, and the wheel stays marked driven: a sleep armed
    then, and every later sleep of the thread, on whatever runtime, waits for good - its deadline
    passes, no driver looks, and its polls find it armed. *)
Lemma unpolled_driver_strands_sleeps :
  let w := ex_run [NewSleep 5; PollSleep 0 0; RuntimeEnds; NewSleep 6; PollSleep 1 1; Advance 100; PollSleep 0 0;
                   PollSleep 1 1] in
  reachable w /\ task_ w = Lost /\ driven (timers w) = true /\
  sleeps w = [Some (mk_sleep 5 (Wall (mk_key 0 0 1)) 0 false false); Some (mk_sleep 6 (Wall (mk_key 0 1 1)) 1 false false)] /\
  step w DriverLooks = None /\ step w DriverSelects = None /\ step w RuntimeEnds = None.
Proof. split; [apply ex_wheel_reachable|by vm_compute]. Qed.

Lemma poll_outside_strands_sleeps :
  let w := ex_run [NewSleep 5; PollOutside 0 0; NewSleep 6; PollSleep 1 1; Advance 100; PollSleep 1 1] in
  reachable w /\ task_ w = Lost /\ sleeps w !! 1 = Some (Some (mk_sleep 6 (Wall (mk_key 0 0 1)) 1 false false)) /\
  step w DriverLooks = None.
Proof. split; [apply ex_wheel_reachable|by vm_compute]. Qed.
End Wheel.
