(* ===== verification/Hooks.v ===== *)
(** * The post-settle registrations of a delivery ([crates/runtime/src/context.rs],
    [registrations.rs])

    What a handler registers on its context to run once the delivery is settled, in the two
    storages of the runtime: a vector in a build with a heap, a fixed table without.  The table
    refuses what does not fit; [None] is a panic.  The two are one interface, [HookStore], stated
    on the list of registrations they hold; the dispatcher is proved against it. *)
From S2P Require Import Prelude RustStd Outcome.

Module Hooks.
Import Outcome.

(** [OutcomeKind]. *)
Inductive OutcomeKind := KAck | KDrop | KRetry | KRetryAfter.
#[export] Instance OutcomeKind_eq_dec : EqDecision OutcomeKind.
Proof. solve_decision. Defined.

Definition kind_of (r : HandlerResult) : OutcomeKind :=
  match r with
  | Ack => KAck
  | Nack false => KDrop
  | Nack true => KRetry
  | NackAfter _ => KRetryAfter
  end.

(** [AfterHook], and [Entry] of the fixed table. *)
Record AfterHook := mk_hook { gate : option OutcomeKind; fut : option Continuation; error : option ErrorHook }.

Definition without_error (e : AfterHook) : AfterHook := mk_hook (gate e) (fut e) None.
Definition has_fut (e : AfterHook) : bool := match fut e with Some _ => true | None => false end.
(** [gate.is_none_or(|gate| gate == kind)]. *)
Definition runs_for (kind : OutcomeKind) (g : option OutcomeKind) : bool :=
  match g with None => true | Some k => bool_decide (k = kind) end.
Definition ungated (g : option OutcomeKind) : bool := match g with None => true | Some _ => false end.

(** ** What the operations do to the registrations, in their order *)

Definition take_where (runs : option OutcomeKind -> bool) (l : list AfterHook) : list Continuation * list AfterHook :=
  (omap fut (List.filter (fun e => runs (gate e)) l), List.filter (fun e => negb (runs (gate e))) l).

(** The reaction: the first [.error] of the kind with the work beside it; every other [.error] is
    gone, and a registration left with nothing too. *)
Fixpoint pick (kind : OutcomeKind) (chosen : option (ErrorHook * option Continuation)) (l : list AfterHook)
  : option (ErrorHook * option Continuation) * list AfterHook :=
  match l with
  | [] => (chosen, [])
  | e :: l =>
      match error e with
      | None => let '(c, kept) := pick kind chosen l in (c, e :: kept)
      | Some x =>
          if (match chosen with None => true | Some _ => false end) && bool_decide (gate e = Some kind)
          then pick kind (Some (x, fut e)) l
          else
            let '(c, kept) := pick kind chosen l in
            (c, if has_fut e then without_error e :: kept else kept)
      end
  end.

Definition demoted (l : list AfterHook) : list AfterHook := List.filter has_fut (map without_error l).

(** ** The interface *)

Class HookStore (T : Type) := {
  view : T -> list AfterHook;
  reg_new : T;
  is_empty : T -> bool;
  (** [None] is a refusal: no room. *)
  register : T -> AfterHook -> option T;
  take_hooks_for : T -> OutcomeKind -> option (list Continuation * T);
  take_settle_hooks : T -> option (list Continuation * T);
  take_reaction : T -> OutcomeKind -> option (option (ErrorHook * option Continuation) * T);
  demote_errors : T -> option T;
}.

Class LawfulHooks (T : Type) `{HookStore T} (ok : T -> Prop) := {
  new_ok : ok reg_new /\ view reg_new = [];
  empty_view t : ok t -> is_empty t = true <-> view t = [];
  register_view t e t' : ok t -> register t e = Some t' -> ok t' /\ view t' = view t ++ [e];
  hooks_for_view t kind : ok t -> exists t', take_hooks_for t kind = Some ((take_where (runs_for kind) (view t)).1, t') /\
    ok t' /\ view t' = (take_where (runs_for kind) (view t)).2;
  settle_hooks_view t : ok t -> exists t', take_settle_hooks t = Some ((take_where ungated (view t)).1, t') /\
    ok t' /\ view t' = (take_where ungated (view t)).2;
  reaction_view t kind : ok t -> exists t', take_reaction t kind = Some ((pick kind None (view t)).1, t') /\
    ok t' /\ view t' = (pick kind None (view t)).2;
  demote_view t : ok t -> exists t', demote_errors t = Some t' /\ ok t' /\ view t' = demoted (view t);
}.

(** ** The vector of a build with a heap ([context.rs]) *)

Module Heap.

(** [take_hooks_for] and [take_settle_hooks]: the drain, with what runs and what stays. *)
Fixpoint drain (runs : option OutcomeKind -> bool) (l : list AfterHook) (runnable : list Continuation) (kept : list AfterHook)
  : list Continuation * list AfterHook :=
  match l with
  | [] => (runnable, kept)
  | hook :: l =>
      if runs (gate hook) then drain runs l (runnable ++ match fut hook with Some f => [f] | None => [] end) kept
      else drain runs l runnable (kept ++ [hook])
  end.

(** [reaction_registered_for]: the loop over the vector, each turn looking at [at_]. *)
Fixpoint reaction_loop (fuel : nat) (kind : OutcomeKind) (l : list AfterHook) (at_ : nat)
  (chosen : option (ErrorHook * option Continuation)) : option (option (ErrorHook * option Continuation) * list AfterHook) :=
  match fuel with
  | 0 => None
  | S fuel =>
      match l !! at_ with
      | None => Some (chosen, l)
      | Some hook =>
          match error hook with
          | None => reaction_loop fuel kind l (S at_) chosen
          | Some x =>
              if (match chosen with None => true | Some _ => false end) && bool_decide (gate hook = Some kind)
              then reaction_loop fuel kind (delete at_ l) at_ (Some (x, fut hook))
              else if has_fut hook then reaction_loop fuel kind (<[at_ := without_error hook]> l) (S at_) chosen
              else reaction_loop fuel kind (delete at_ l) at_ chosen
          end
      end
  end.

(** [demote_errors]: the [retain_mut]. *)
Definition demote (l : list AfterHook) : list AfterHook := List.filter has_fut (map without_error l).

#[export] Instance heap_hooks : HookStore (list AfterHook) := {
  view l := l;
  reg_new := [];
  is_empty l := bool_decide (l = []);
  register l e := Some (l ++ [e]);
  take_hooks_for l kind := Some (drain (runs_for kind) l [] []);
  take_settle_hooks l := Some (drain ungated l [] []);
  take_reaction l kind := reaction_loop (S (length l)) kind l 0 None;
  demote_errors l := Some (demote l);
}.

Lemma drain_where_spec runs l r k :
  drain runs l r k = (r ++ (take_where runs l).1, k ++ (take_where runs l).2).
Proof.
  revert r k. induction l as [|e l IH]; intros r k; cbn; [by rewrite !app_nil_r|].
  destruct (runs (gate e)) eqn:Er; cbn; rewrite ?Er; cbn; rewrite IH; cbn; [|by rewrite <- app_assoc].
  destruct (fut e); cbn; by rewrite <- app_assoc.
Qed.

Lemma reaction_loop_spec fuel kind pre l c :
  length l < fuel ->
  reaction_loop fuel kind (pre ++ l) (length pre) c = Some ((pick kind c l).1, pre ++ (pick kind c l).2).
Proof.
  revert pre l c. induction fuel as [|fuel IH]; intros pre l c Hf; [lia|]. cbn.
  destruct l as [|e l]; cbn in *.
  - rewrite app_nil_r, lookup_ge_None_2 by lia. done.
  - rewrite list_lookup_middle by done.
    assert (Hkeep : forall x c', reaction_loop fuel kind (pre ++ x :: l) (S (length pre)) c' =
              Some ((pick kind c' l).1, pre ++ x :: (pick kind c' l).2)).
    { intros x c'. rewrite cons_middle, app_assoc. replace (S (length pre)) with (length (pre ++ [x])) by (rewrite length_app; cbn; lia).
      rewrite IH by lia. by rewrite <- app_assoc. }
    assert (Hdel : delete (length pre) (pre ++ e :: l) = pre ++ l) by (by rewrite delete_middle).
    destruct (error e) as [x|].
    + destruct (_ && _).
      * rewrite Hdel, IH by lia. done.
      * destruct (has_fut e).
        -- rewrite insert_app_r_alt, Nat.sub_diag by lia. cbn. rewrite Hkeep. by destruct (pick kind c l).
        -- rewrite Hdel, IH by lia. by destruct (pick kind c l).
    + rewrite Hkeep. by destruct (pick kind c l).
Qed.

#[export] Instance heap_lawful : LawfulHooks (list AfterHook) (fun _ => True).
Proof.
  split; cbn -[reaction_loop].
  - done.
  - intros t _. apply bool_decide_eq_true.
  - by intros t e t' _ [= <-].
  - intros t kind _. rewrite drain_where_spec. eexists. by split.
  - intros t _. rewrite drain_where_spec. eexists. by split.
  - intros t kind _.
    pose proof (reaction_loop_spec (S (length t)) kind [] t None (Nat.lt_succ_diag_r _)) as Hl. cbn [app length] in Hl.
    rewrite Hl. eexists. by split.
  - intros t _. by eexists.
Qed.
End Heap.
#[export] Existing Instances Heap.heap_hooks Heap.heap_lawful.

(** ** The fixed table of a build without ([registrations.rs]) *)

Module Fixed.

Section fixed.
Context (SLOTS : nat).

(** [Registrations]. *)
Record Registrations := mk_regs { slots : list (option AfterHook); len : nat }.

Definition new : Registrations := mk_regs (replicate SLOTS None) 0.
Definition regs_empty (t : Registrations) : bool := Nat.eqb (len t) 0.

(** [vacancy]: whether there is room for one more. *)
Definition vacancy (t : Registrations) : bool := negb (Nat.eqb (len t) SLOTS).

(** [place]; [None] is the index past the table. *)
Definition place (t : Registrations) (e : AfterHook) : option Registrations :=
  if len t <? length (slots t) then Some (mk_regs (<[len t := Some e]> (slots t)) (S (len t))) else None.

Definition put (t : Registrations) (e : AfterHook) : option Registrations := if vacancy t then place t e else None.

(** [rebuild], its closure threading a state. *)
Fixpoint rebuild_loop {A} (keep : A -> AfterHook -> A * option AfterHook) (s : A) (old : list (option AfterHook))
  (self : Registrations) : option (A * Registrations) :=
  match old with
  | [] => Some (s, self)
  | None :: old => rebuild_loop keep s old self
  | Some e :: old =>
      let '(s, kept) := keep s e in
      match kept with
      | Some kept => self ← place self kept; rebuild_loop keep s old self
      | None => rebuild_loop keep s old self
      end
  end.

Definition rebuild {A} (keep : A -> AfterHook -> A * option AfterHook) (s : A) (t : Registrations)
  : option (A * Registrations) := rebuild_loop keep s (slots t) new.

(** [take_where]; a push past the room of the list is dropped. *)
Definition keep_where (runs : option OutcomeKind -> bool) (runnable : list Continuation) (e : AfterHook)
  : list Continuation * option AfterHook :=
  if negb (runs (gate e)) then (runnable, Some e)
  else (match fut e with
        | Some f => if length runnable <? SLOTS then runnable ++ [f] else runnable
        | None => runnable
        end, None).

Definition regs_take_where (runs : option OutcomeKind -> bool) (t : Registrations)
  : option (list Continuation * Registrations) := rebuild (keep_where runs) [] t.

(** [take_reaction]. *)
Definition keep_reaction (kind : OutcomeKind) (chosen : option (ErrorHook * option Continuation)) (e : AfterHook)
  : option (ErrorHook * option Continuation) * option AfterHook :=
  match error e with
  | None => (chosen, Some e)
  | Some x =>
      if (match chosen with None => true | Some _ => false end) && bool_decide (gate e = Some kind)
      then (Some (x, fut e), None)
      else (chosen, if has_fut e then Some (without_error e) else None)
  end.

Definition regs_take_reaction (t : Registrations) (kind : OutcomeKind)
  : option (option (ErrorHook * option Continuation) * Registrations) := rebuild (keep_reaction kind) None t.

(** [demote_errors]. *)
Definition keep_demoted (_ : unit) (e : AfterHook) : unit * option AfterHook :=
  (tt, if has_fut e then Some (without_error e) else None).
Definition regs_demote (t : Registrations) : option Registrations := snd <$> rebuild keep_demoted tt t.

#[export] Instance fixed_hooks : HookStore Registrations := {
  view t := omap id (slots t);
  reg_new := new;
  is_empty := regs_empty;
  register := put;
  take_hooks_for t kind := regs_take_where (runs_for kind) t;
  take_settle_hooks := regs_take_where ungated;
  take_reaction := regs_take_reaction;
  demote_errors := regs_demote;
}.

(** The table holds the registrations [l] in its first places. *)
Definition holds (t : Registrations) (l : list AfterHook) : Prop :=
  slots t = (Some <$> l) ++ replicate (SLOTS - length l) None /\ len t = length l /\ length l <= SLOTS.
Definition regs_ok (t : Registrations) : Prop := holds t (view t).

Lemma holds_view t l : holds t l -> omap id (slots t) = l.
Proof.
  intros (-> & _). rewrite omap_app. assert (Hr : forall n, omap id (replicate n (@None AfterHook)) = []).
  { induction n as [|n IH]; [done|]. exact IH. }
  rewrite Hr, app_nil_r. induction l as [|x l IH]; [done|]. cbn. by rewrite IH.
Qed.

Lemma holds_ok t l : holds t l -> regs_ok t /\ view t = l.
Proof. intros Hl. pose proof (holds_view t l Hl) as Hv. cbn. unfold regs_ok. cbn. by rewrite Hv. Qed.

Lemma new_holds : holds new [].
Proof. unfold holds, new. cbn. rewrite Nat.sub_0_r. split_and!; [done|done|lia]. Qed.

Lemma place_holds t l e : holds t l -> length l < SLOTS -> exists t', place t e = Some t' /\ holds t' (l ++ [e]).
Proof.
  intros (Hs & Hl & _) Hlt. unfold place. rewrite Hs, Hl, length_app, length_fmap, length_replicate.
  destruct (Nat.ltb_spec (length l) (length l + (SLOTS - length l))); [|lia]. eexists. split; [done|].
  split_and!; cbn; rewrite ?length_app; cbn; [|lia..].
  rewrite insert_app_r_alt by (rewrite length_fmap; lia). rewrite length_fmap, Nat.sub_diag, fmap_app, <- app_assoc.
  replace (SLOTS - length l) with (S (SLOTS - (length l + 1))) by lia. done.
Qed.

(** What a rebuild makes of the registrations. *)
Fixpoint sift {A} (keep : A -> AfterHook -> A * option AfterHook) (s : A) (l : list AfterHook) : A * list AfterHook :=
  match l with
  | [] => (s, [])
  | e :: l =>
      let '(s, kept) := keep s e in
      let '(s, rest) := sift keep s l in
      (s, match kept with Some x => x :: rest | None => rest end)
  end.

Lemma rebuild_loop_spec {A} (keep : A -> AfterHook -> A * option AfterHook) s l n self pre :
  holds self pre -> length pre + length l <= SLOTS ->
  exists t, rebuild_loop keep s ((Some <$> l) ++ replicate n None) self = Some ((sift keep s l).1, t) /\
    holds t (pre ++ (sift keep s l).2).
Proof.
  revert s self pre. induction l as [|e l IH]; intros s self pre Hh Hlen; cbn in *.
  - rewrite app_nil_r. exists self. split; [|done]. induction n as [|n IHn]; [done|]. exact IHn.
  - destruct (keep s e) as [s' [x|]].
    + destruct (place_holds self pre x Hh ltac:(lia)) as (self' & -> & Hh'). cbn.
      destruct (IH s' self' (pre ++ [x]) Hh') as (t & -> & Ht); [rewrite length_app; cbn; lia|].
      destruct (sift keep s' l) as [s'' rest]. exists t. split; [done|]. cbn in *. by rewrite <- app_assoc in Ht.
    + destruct (IH s' self pre Hh ltac:(lia)) as (t & -> & Ht). destruct (sift keep s' l). by exists t.
Qed.

Lemma rebuild_spec {A} (keep : A -> AfterHook -> A * option AfterHook) s t :
  regs_ok t -> exists t', rebuild keep s t = Some ((sift keep s (view t)).1, t') /\ regs_ok t' /\
    view t' = (sift keep s (view t)).2.
Proof.
  intros (Hs & _ & Hl). unfold rebuild. rewrite Hs.
  destruct (rebuild_loop_spec keep s (view t) (SLOTS - length (view t)) new [] new_holds Hl) as (t' & -> & Ht).
  exists t'. split; [done|]. by apply holds_ok.
Qed.

Lemma sift_where runs l r :
  length r + length l <= SLOTS -> sift (keep_where runs) r l = (r ++ (take_where runs l).1, (take_where runs l).2).
Proof.
  revert r. induction l as [|e l IH]; intros r Hlen; cbn in *; [by rewrite app_nil_r|].
  unfold keep_where at 1. destruct (runs (gate e)) eqn:Er; cbn; rewrite ?Er; cbn.
  - destruct (fut e) as [f|]; cbn.
    + destruct (Nat.ltb_spec (length r) SLOTS); [|lia]. rewrite IH by (rewrite length_app; cbn; lia).
      by rewrite <- app_assoc.
    + by rewrite IH by lia.
  - by rewrite IH by lia.
Qed.

Lemma sift_reaction kind l c : sift (keep_reaction kind) c l = pick kind c l.
Proof.
  revert c. induction l as [|e l IH]; intros c; cbn; [done|]. unfold keep_reaction at 1.
  destruct (error e) as [x|]; [|rewrite IH; by destruct (pick kind c l)].
  destruct (_ && _); rewrite IH; [by destruct (pick _ _ l)|]. destruct (pick kind c l), (has_fut e); done.
Qed.

Lemma sift_demoted l : sift keep_demoted tt l = (tt, demoted l).
Proof.
  unfold demoted. induction l as [|e l IH]; cbn; [done|]. rewrite IH. unfold has_fut. cbn. by destruct (fut e).
Qed.

#[export] Instance fixed_lawful : LawfulHooks Registrations regs_ok.
Proof.
  split.
  - apply holds_ok, new_holds.
  - intros t (Hs & Hl & _). cbn in *. unfold regs_empty. rewrite Nat.eqb_eq, Hl. split; [apply nil_length_inv|by intros ->].
  - intros t e t' (Hs & Hl & Hle) Hp. cbn in Hp. unfold put, vacancy in Hp.
    destruct (Nat.eqb_spec (len t) SLOTS); [done|]. cbn in Hp.
    destruct (place_holds t (view t) e (conj Hs (conj Hl Hle)) ltac:(lia)) as (t2 & Ht2 & Hh).
    assert (t2 = t') as -> by congruence. by apply holds_ok.
  - intros t kind Hok. destruct (rebuild_spec (keep_where (runs_for kind)) [] t Hok) as (t' & Hr & Hok' & Hv).
    pose proof Hok as (_ & _ & Hl). rewrite (sift_where _ _ []) in Hr, Hv by exact Hl. by exists t'.
  - intros t Hok. destruct (rebuild_spec (keep_where ungated) [] t Hok) as (t' & Hr & Hok' & Hv).
    pose proof Hok as (_ & _ & Hl). rewrite (sift_where _ _ []) in Hr, Hv by exact Hl. by exists t'.
  - intros t kind Hok. destruct (rebuild_spec (keep_reaction kind) None t Hok) as (t' & Hr & Hok' & Hv).
    rewrite sift_reaction in Hr, Hv. by exists t'.
  - intros t Hok. destruct (rebuild_spec keep_demoted tt t Hok) as (t' & Hr & Hok' & Hv).
    rewrite sift_demoted in Hr, Hv. exists t'. cbn. unfold regs_demote. by rewrite Hr.
Qed.
End fixed.
End Fixed.
#[export] Existing Instances Fixed.fixed_lawful.

(** ** A delivery's life over either storage *)

(** What a handler registers: [after_ack], [after_settle], [after(..).then(..)] with what [AfterThen]
    adds, [after(..).error(..)] with what [AfterError] adds; each is one registration. *)
Inductive Registering :=
  | AfterAck (f : Continuation)
  | AfterSettle (f : Continuation)
  | AfterThen (outcome : HandlerResult) (f : Continuation) (x : option ErrorHook)
  | AfterError (outcome : HandlerResult) (x : ErrorHook) (f : option Continuation).

Definition hook_of (r : Registering) : AfterHook :=
  match r with
  | AfterAck f => mk_hook (Some KAck) (Some f) None
  | AfterSettle f => mk_hook None (Some f) None
  | AfterThen o f x => mk_hook (Some (kind_of o)) (Some f) x
  | AfterError o x f => mk_hook (Some (kind_of o)) f (Some x)
  end.

Inductive Op :=
  | Registers (r : Registering)
  | TakesHooks (kind : OutcomeKind)
  | TakesSettleHooks
  | TakesReaction (kind : OutcomeKind)
  | DemotesErrors.

Inductive Answer :=
  | Done
  | RegistrationsFull
  | Runnable (l : list Continuation)
  | Reacts (r : option (ErrorHook * option Continuation)).

Section life.
Context {T : Type} `{HookStore T}.

(** An operation; a refused registration changes nothing. *)
Definition play (t : T) (o : Op) : option (Answer * T) :=
  match o with
  | Registers r => Some (match register t (hook_of r) with Some t' => (Done, t') | None => (RegistrationsFull, t) end)
  | TakesHooks kind => '(l, t) ← take_hooks_for t kind; Some (Runnable l, t)
  | TakesSettleHooks => '(l, t) ← take_settle_hooks t; Some (Runnable l, t)
  | TakesReaction kind => '(r, t) ← take_reaction t kind; Some (Reacts r, t)
  | DemotesErrors => t ← demote_errors t; Some (Done, t)
  end.

Fixpoint play_all (t : T) (ops : list Op) : option (list Answer * T) :=
  match ops with
  | [] => Some ([], t)
  | o :: ops => '(a, t) ← play t o; '(l, t) ← play_all t ops; Some (a :: l, t)
  end.
End life.

(** Two storages that hold the same registrations answer alike, a refusal apart. *)
Lemma play_alike {T1 T2} `{HookStore T1, HookStore T2} ok1 ok2 `{!LawfulHooks T1 ok1, !LawfulHooks T2 ok2} t1 t2 o :
  ok1 t1 -> ok2 t2 -> view t1 = view t2 ->
  exists a1 a2 t1' t2', play t1 o = Some (a1, t1') /\ play t2 o = Some (a2, t2') /\ ok1 t1' /\ ok2 t2' /\
    (a1 <> RegistrationsFull -> a2 <> RegistrationsFull -> a1 = a2 /\ view t1' = view t2').
Proof.
  intros H1 H2 Hv. destruct o as [r|kind| |kind|]; cbn.
  - destruct (register t1 (hook_of r)) as [t1'|] eqn:E1, (register t2 (hook_of r)) as [t2'|] eqn:E2;
      try (destruct (register_view t1 _ _ H1 E1) as [? Hv1]); try (destruct (register_view t2 _ _ H2 E2) as [? Hv2]);
      (do 4 eexists; split_and!; [done..|]); try done. intros _ _. by rewrite Hv1, Hv2, Hv.
  - destruct (hooks_for_view t1 kind H1) as (t1' & -> & ? & Hv1), (hooks_for_view t2 kind H2) as (t2' & -> & ? & Hv2).
    do 4 eexists. split_and!; [done..|]. intros _ _. by rewrite Hv1, Hv2, Hv.
  - destruct (settle_hooks_view t1 H1) as (t1' & -> & ? & Hv1), (settle_hooks_view t2 H2) as (t2' & -> & ? & Hv2).
    do 4 eexists. split_and!; [done..|]. intros _ _. by rewrite Hv1, Hv2, Hv.
  - destruct (reaction_view t1 kind H1) as (t1' & -> & ? & Hv1), (reaction_view t2 kind H2) as (t2' & -> & ? & Hv2).
    do 4 eexists. split_and!; [done..|]. intros _ _. by rewrite Hv1, Hv2, Hv.
  - destruct (demote_view t1 H1) as (t1' & -> & ? & Hv1), (demote_view t2 H2) as (t2' & -> & ? & Hv2).
    do 4 eexists. split_and!; [done..|]. intros _ _. by rewrite Hv1, Hv2, Hv.
Qed.

Lemma play_all_total {T} `{HookStore T} ok `{!LawfulHooks T ok} ops t :
  ok t -> exists l t', play_all t ops = Some (l, t') /\ ok t'.
Proof.
  revert t. induction ops as [|o ops IH]; intros t Ht; cbn; [by do 2 eexists|].
  destruct (play_alike ok ok t t o Ht Ht eq_refl) as (a & _ & t' & _ & -> & _ & Ht' & _). cbn.
  destruct (IH t' Ht') as (l & t2 & -> & ?). by do 2 eexists.
Qed.

Lemma play_all_alike {T1 T2} `{HookStore T1, HookStore T2} ok1 ok2 `{!LawfulHooks T1 ok1, !LawfulHooks T2 ok2} ops t1 t2 l1 l2 t1' t2' :
  ok1 t1 -> ok2 t2 -> view t1 = view t2 -> play_all t1 ops = Some (l1, t1') -> play_all t2 ops = Some (l2, t2') ->
  RegistrationsFull ∉ l1 -> RegistrationsFull ∉ l2 -> l1 = l2 /\ view t1' = view t2'.
Proof.
  revert t1 t2 l1 l2. induction ops as [|o ops IH]; intros t1 t2 l1 l2 H1 H2 Hv; cbn.
  { intros [= <- <-] [= <- <-] _ _. done. }
  destruct (play_alike ok1 ok2 t1 t2 o H1 H2 Hv) as (a1 & a2 & u1 & u2 & -> & -> & Hu1 & Hu2 & Hsame). cbn.
  destruct (play_all u1 ops) as [[k1 v1]|] eqn:E1; [|done]. destruct (play_all u2 ops) as [[k2 v2]|] eqn:E2; [|done].
  cbn. intros [= <- <-] [= <- <-] Hn1 Hn2. apply not_elem_of_cons in Hn1 as [Ha1 Hn1], Hn2 as [Ha2 Hn2].
  destruct Hsame as [-> Hu]; [congruence..|].
  destruct (IH u1 u2 k1 k2 Hu1 Hu2 Hu E1 E2 Hn1 Hn2) as [-> ?]. done.
Qed.

Lemma heap_never_refuses ops (t : list AfterHook) l t' : play_all t ops = Some (l, t') -> RegistrationsFull ∉ l.
Proof.
  revert t l. induction ops as [|o ops IH]; intros t l; cbn; [intros [= <- <-]; apply not_elem_of_nil|].
  destruct (play t o) as [[a u]|] eqn:Eo; [|done]. cbn. destruct (play_all u ops) as [[k v]|] eqn:E; [|done].
  cbn. intros [= <- <-]. apply not_elem_of_cons. split; [|by eapply IH].
  intros <-. destruct o as [r|kind| |kind|]; cbn -[Heap.reaction_loop] in Eo.
  - done.
  - by destruct (Heap.drain _ _ _ _).
  - by destruct (Heap.drain _ _ _ _).
  - by destruct (Heap.reaction_loop _ _ _ _ _) as [[? ?]|].
  - done.
Qed.

(** C38. The fixed table of registrations stands in for the vector: whatever a delivery registers
    and takes, in whatever order, no operation of the table panics; a registration is refused
    exactly when the table already holds [SLOTS], and changes nothing; and as long as none is
    refused every answer - the follow-ups to run, in their order, and the reaction chosen - is the
    vector's. *)
Theorem fixed_table_stands_in_for_the_vector (SLOTS : nat) (ops : list Op) :
  exists l lh t th,
    play_all (T := Fixed.Registrations) (H := Fixed.fixed_hooks SLOTS) (Fixed.new SLOTS) ops = Some (l, t) /\
    play_all (T := list AfterHook) [] ops = Some (lh, th) /\
    (RegistrationsFull ∉ l -> l = lh /\ omap id (Fixed.slots t) = th) /\
    length (omap id (Fixed.slots t)) <= SLOTS /\
    (forall r, Fixed.put SLOTS t (hook_of r) = None <-> length (omap id (Fixed.slots t)) = SLOTS).
Proof.
  destruct (play_all_total (H := Fixed.fixed_hooks SLOTS) (Fixed.regs_ok SLOTS) ops (Fixed.new SLOTS)
              (proj1 (Fixed.holds_ok _ _ _ (Fixed.new_holds SLOTS)))) as (l & t & Hl & Hok).
  destruct (play_all_total (fun _ => True) ops ([] : list AfterHook) I) as (lh & th & Hlh & _).
  exists l, lh, t, th. split; [exact Hl|]. split; [exact Hlh|].
  pose proof Hok as (Hs & Hlen & Hle). cbn [view Fixed.fixed_hooks] in Hs, Hlen, Hle. split_and!; [|exact Hle|].
  - intros Hn. pose proof (Fixed.holds_ok _ _ _ (Fixed.new_holds SLOTS)) as [Hnew Hvn].
    exact (play_all_alike (H := Fixed.fixed_hooks SLOTS) (Fixed.regs_ok SLOTS) (fun _ => True) ops (Fixed.new SLOTS) []
             l lh t th Hnew I Hvn Hl Hlh Hn (heap_never_refuses _ _ _ _ Hlh)).
  - intros r. unfold Fixed.put, Fixed.vacancy. rewrite Hlen. destruct (Nat.eqb_spec (length (omap id (Fixed.slots t))) SLOTS) as [He|He]; [done|].
    cbn. destruct (Fixed.place_holds SLOTS t _ (hook_of r) Hok ltac:(cbn [view Fixed.fixed_hooks]; lia)) as (t' & -> & _). done.
Qed.
End Hooks.
