(* ===== verification/Dispatch.v ===== *)
(** * One delivery, end to end ([crates/runtime/src/dispatch.rs], [context.rs])

    What the dispatch of a delivery does once its handler returned or panicked: the panic policy,
    the reaction chosen among those registered, the settlement, and the follow-ups it leaves
    behind.  The registrations are any lawful [HookStore]; [None] is a panic.  The build without
    the [testing] feature; the handler is what it returned and registered. *)
From Stdlib Require Import Ascii String.
From S2P Require Import Prelude RustStd Outcome PublishFailure Hooks Settle.

Module Dispatch.
Import PublishFailure Outcome Hooks.

(** What a handler's call ended in. *)
Inductive Handled :=
  | Returned (o : HandlerOutcome)
  | Panicked (reason : string).

Inductive Event :=
  | Settling (e : Settle.Event)
  | Detaches (c : Continuation)
  | FailsFast (name reason : string)
  | LeftUnsettled.

(** [outcome_after_panic]. *)
Definition outcome_after_panic (policies : FailurePolicies) (name reason : string) : option HandlerOutcome * list Event :=
  match panic policies with
  | FailFast => (None, [FailsFast name ("handler panicked: " ++ reason)])
  | other => (Some (match settlement other with Some r => from_result r | None => drop end), [])
  end.

Definition resolve (policies : FailurePolicies) (name : string) (res : Handled) : option HandlerOutcome * list Event :=
  match res with
  | Returned o => (Some o, [])
  | Panicked reason => outcome_after_panic policies name reason
  end.

Section dispatch.
Context (overflow_checks : bool).
Context {T : Type} `{HookStore T}.

(** [Reaction::new]. *)
Definition to_reaction (r : ErrorHook * option Continuation) : Reaction := mk_reaction r.1 r.2.

(** [Context::take_reaction_for], [Context::demote_errors]. *)
Definition take_reaction_for (hooks : T) (status : HandlerResult) : option (option Reaction * T) :=
  if is_empty hooks then Some (None, hooks)
  else
    '(r, hooks) ← take_reaction hooks (kind_of status);
    Some (option_map to_reaction r, hooks).
Definition demote (hooks : T) : option T := if is_empty hooks then Some hooks else demote_errors hooks.

(** The outcome taken apart: the status, the follow-up detached after the settlement and the
    reaction the settlement carries. *)
Definition take_apart (settled : option HandlerOutcome) (hooks : T)
  : option (option HandlerResult * option Continuation * option Reaction * T) :=
  match into_parts <$> settled with
  | Some (status, after, Some error) =>
      hooks ← demote hooks; Some (Some status, None, Some (mk_reaction error after), hooks)
  | Some (status, after, None) =>
      '(r, hooks) ← take_reaction_for hooks status; Some (Some status, after, r, hooks)
  | None => Some (None, None, None, hooks)
  end.

Definition take_continuations (settle : option HandlerResult) (hooks : T) : option (option (list Continuation)) :=
  match settle with
  | Some status =>
      if is_empty hooks then Some None
      else '(l, _) ← take_hooks_for hooks (kind_of status); Some (Some l)
  | None => Some None
  end.

Definition settle_delivery (h : Settle.Host) (d : RetryDeclaration) (m : Settle.Msg) (settle : option HandlerResult)
  (after : option Continuation) (reaction : option Reaction) : option (list Event) :=
  match settle with
  | Some status =>
      run ← match reaction with
            | Some _ => Settle.settle_reacting overflow_checks h d m status reaction
            | None => Settle.settle_outcome overflow_checks h d m status
            end;
      Some ((Settling <$> Settle.trace run) ++ (Detaches <$> option_list after))
  | None => Some [LeftUnsettled]
  end.

Definition dispatch (h : Settle.Host) (d : RetryDeclaration) (policies : FailurePolicies) (name : string)
  (m : Settle.Msg) (res : Handled) (hooks : T) : option (list Event) :=
  let '(settled, failed) := resolve policies name res in
  '(settle, after, reaction, hooks) ← take_apart settled hooks;
  continuations ← take_continuations settle hooks;
  events ← settle_delivery h d m settle after reaction;
  Some (failed ++ events ++ (Detaches <$> default [] continuations)).

(** ** What a dispatch leaves behind *)

Definition settlings (ev : list Event) : list Settle.Event :=
  omap (fun e => match e with Settling e => Some e | _ => None end) ev.
(** The follow-ups a dispatch starts. *)
Definition started (ev : list Event) : list Continuation :=
  omap (fun e => match e with Detaches c | Settling (Settle.Detached (Then c)) => Some c | _ => None end) ev.
Definition thens (l : list Work) : list Continuation :=
  omap (fun w => match w with Then c => Some c | OnError _ _ => None end) l.

(** The reaction of an outcome: its own [.error], or the first registered for its kind. *)
Definition reaction_for (o : HandlerOutcome) (l : list AfterHook) : option Reaction :=
  match into_parts o with
  | (_, after, Some error) => Some (mk_reaction error after)
  | (status, _, None) => option_map to_reaction (pick (kind_of status) None l).1
  end.

(** The follow-ups an outcome owes: its own, and those registered for its kind or for any. *)
Abbreviation runs kind := (fun e : AfterHook => runs_for kind (gate e)).
Definition due (o : HandlerOutcome) (l : list AfterHook) : list Continuation :=
  option_list (after o) ++ omap fut (List.filter (runs (kind_of (outcome o))) l).

Lemma due_demoted kind l : omap fut (List.filter (runs kind) (demoted l)) = omap fut (List.filter (runs kind) l).
Proof.
  unfold demoted. induction l as [|[g [f|] x] l IH]; [done|..]; cbn; destruct (runs_for kind g); cbn; by rewrite IH.
Qed.

Lemma due_picked_chosen kind c l :
  (pick kind (Some c) l).1 = Some c /\
  omap fut (List.filter (runs kind) (pick kind (Some c) l).2) = omap fut (List.filter (runs kind) l).
Proof.
  induction l as [|[g [f|] [x|]] l [IH1 IH2]]; [done|..]; cbn; destruct (pick kind (Some c) l) as [c' kept]; cbn in *;
    (split; [done|]); destruct (runs_for kind g); cbn; by rewrite IH2.
Qed.

Lemma due_picked kind l :
  omap fut (List.filter (runs kind) l) ≡ₚ
    option_list ((pick kind None l).1 ≫= snd) ++ omap fut (List.filter (runs kind) (pick kind None l).2).
Proof.
  induction l as [|[g f [x|]] l IH]; [done|..]; cbn.
  - case_bool_decide as Hg.
    + subst g. destruct (due_picked_chosen kind (x, f) l) as [H1 H2].
      destruct (pick kind (Some (x, f)) l) as [c kept]. cbn in *. subst c. rewrite bool_decide_eq_true_2 by done. cbn.
      rewrite H2. by destruct f.
    + destruct (pick kind None l) as [c kept]. cbn in *. destruct f as [f|]; cbn; destruct (runs_for kind g); cbn; try done.
      rewrite IH. apply Permutation_middle.
  - destruct (pick kind None l) as [c kept]. cbn in *. destruct (runs_for kind g); cbn; [|done].
    destruct f as [f|]; [|done]. rewrite IH. apply Permutation_middle.
Qed.

Lemma settlings_settling t : settlings (Settling <$> t) = t.
Proof. induction t as [|e t IH]; [done|]. cbn. by f_equal. Qed.
Lemma settlings_detaches l : settlings (Detaches <$> l) = [].
Proof. by induction l. Qed.
Lemma started_settling t : started (Settling <$> t) = thens (Settle.works t).
Proof. induction t as [|e t IH]; [done|]. destruct e; cbn; try done. destruct w; cbn; [by f_equal|done]. Qed.
Lemma started_detaches l : started (Detaches <$> l) = l.
Proof. induction l as [|c l IH]; [done|]. cbn. by f_equal. Qed.
Lemma settlings_app a b : settlings (a ++ b) = settlings a ++ settlings b.
Proof. apply omap_app. Qed.
Lemma started_app a b : started (a ++ b) = started a ++ started b.
Proof. apply omap_app. Qed.

(** What a settlement makes of the reaction it carries. *)
Definition reacted (h : Settle.Host) (t : list Settle.Event) (r : option Reaction) : list Continuation :=
  match Settle.copies t with
  | [] => option_list (r ≫= then_)
  | e :: _ => thens (option_list (Settle.follow h e r))
  end.

Lemma settled_reacted h m r ev left tail :
  Settle.settled h m r ev left -> tail = option_list (Settle.Detached <$> (Then <$> (left ≫= into_then))) ->
  (exists c, Settle.calls (ev ++ tail) = [c]) /\ thens (Settle.works (ev ++ tail)) = reacted h (ev ++ tail) r.
Proof.
  intros [[c Hc] Hcopy _] ->. unfold reacted.
  assert (Hl : Settle.copies (ev ++ option_list (Settle.Detached <$> (Then <$> (left ≫= into_then)))) = Settle.copies ev).
  { unfold Settle.copies. rewrite List.filter_app. destruct (left ≫= into_then); simpl; apply app_nil_r. }
  rewrite Hl. unfold Settle.calls, Settle.works in *. rewrite !omap_app, Hc. split.
  - exists c. by destruct (left ≫= into_then).
  - destruct Hcopy as [(-> & -> & ->)|(e & pre & post & -> & -> & _ & -> & _)]; cbn.
    + unfold into_then. by destruct (r ≫= then_).
    + by rewrite app_nil_r.
Qed.

Lemma settled_delivery h d m status after_ reaction_ :
  match settle_delivery h d m (Some status) after_ reaction_ with
  | None => Settle.count_overflows overflow_checks m
  | Some ev => (exists c, Settle.calls (settlings ev) = [c]) /\
      started ev ≡ₚ reacted h (settlings ev) reaction_ ++ option_list after_
  end.
Proof.
  unfold settle_delivery.
  assert (Hrun : match match reaction_ with
                       | Some _ => Settle.settle_reacting overflow_checks h d m status reaction_
                       | None => Settle.settle_outcome overflow_checks h d m status
                       end with
                 | None => Settle.count_overflows overflow_checks m
                 | Some run => (exists c, Settle.calls (Settle.trace run) = [c]) /\
                     thens (Settle.works (Settle.trace run)) = reacted h (Settle.trace run) reaction_
                 end).
  { destruct reaction_ as [r|].
    - pose proof (Settle.settled_reacting overflow_checks h d m status (Some r)) as Hs.
      destruct (Settle.settle_reacting _ _ _ _ _ _) as [run|]; [|done].
      destruct Hs as (_ & ev & left & Hs & ->). by eapply settled_reacted.
    - pose proof (Settle.settles_outcome overflow_checks h d m status None []) as Hs. unfold Settle.settle_outcome.
      destruct (Settle.settle_by_outcome _ _ _ _ _) as [[u run]|]; [|done]. cbn.
      destruct Hs as (_ & ev & -> & Hs). cbn. rewrite <- (app_nil_r ev).
      eapply settled_reacted; [exact Hs|]. destruct Hs as [_ [(_ & -> & _)|(? & ? & ? & _ & -> & _)] _]; done. }
  destruct (match reaction_ with Some _ => _ | None => _ end) as [run|]; [|done]. cbn.
  rewrite settlings_app, settlings_settling, settlings_detaches, app_nil_r, started_app, started_settling, started_detaches.
  destruct Hrun as [Hc ->]. by split.
Qed.

(** ** Theorems *)

Section lawful.
Context (ok : T -> Prop) `{!LawfulHooks T ok}.

Lemma took_reaction hooks status : ok hooks ->
  exists hooks', take_reaction_for hooks status = Some (option_map to_reaction (pick (kind_of status) None (view hooks)).1, hooks') /\
    ok hooks' /\ view hooks' = (pick (kind_of status) None (view hooks)).2.
Proof.
  intros Hok. unfold take_reaction_for. destruct (is_empty hooks) eqn:He.
  - apply empty_view in He; [|done]. rewrite He. by eexists.
  - destruct (reaction_view hooks (kind_of status) Hok) as (t' & -> & ? & ?). by eexists.
Qed.

Lemma took_demoted hooks : ok hooks -> exists hooks', demote hooks = Some hooks' /\ ok hooks' /\ view hooks' = demoted (view hooks).
Proof.
  intros Hok. unfold demote. destruct (is_empty hooks) eqn:He; [|by apply demote_view].
  apply empty_view in He; [|done]. exists hooks. by rewrite He.
Qed.

Lemma took_continuations hooks status : ok hooks ->
  exists l, take_continuations (Some status) hooks = Some l /\
    default [] l = omap fut (List.filter (runs (kind_of status)) (view hooks)).
Proof.
  intros Hok. unfold take_continuations. destruct (is_empty hooks) eqn:He.
  - apply empty_view in He; [|done]. rewrite He. by eexists.
  - destruct (hooks_for_view hooks (kind_of status) Hok) as (t' & -> & _). by eexists.
Qed.

(** The outcome taken apart owes its follow-ups to the reaction, the settlement and the hooks. *)
Lemma took_apart o hooks : ok hooks ->
  exists after_ hooks', take_apart (Some o) hooks = Some (Some (outcome o), after_, reaction_for o (view hooks), hooks') /\
    ok hooks' /\
    due o (view hooks) ≡ₚ option_list (reaction_for o (view hooks) ≫= then_) ++ option_list after_ ++
      omap fut (List.filter (runs (kind_of (outcome o))) (view hooks')).
Proof.
  intros Hok. unfold take_apart, reaction_for, due, outcome, into_parts. destruct o as [[st|st x] f]; cbn.
  - destruct (took_reaction hooks st Hok) as (t' & -> & Ht & Hv). cbn. eexists f, t'. split; [done|]. split; [done|].
    rewrite Hv, (due_picked (kind_of st) (view hooks)). destruct (pick _ _ _) as [[[x g]|] kept]; cbn; [|done].
    rewrite !app_assoc. by rewrite (Permutation_app_comm (option_list f)).
  - destruct (took_demoted hooks Hok) as (t' & -> & Ht & Hv). cbn. eexists None, t'. split; [done|]. split; [done|].
    by rewrite Hv, due_demoted.
Qed.

(** C3. Dispatching a delivery is exact, whatever the handler did and registered, in either storage
    of the registrations.  It panics only where a build with overflow checks advances a count of
    [u64::MAX].  A panic under a fail-fast policy tears the service down once, with the panic's
    reason, settles nothing and runs nothing.  Any other ending makes exactly one call on the
    transport; the reaction the settlement carries is the outcome's own [.error] or the first one
    registered for its kind; and of the follow-ups the outcome owes (its own, and those registered
    for its kind or for any) each is started exactly once, but for the one beside the reaction
    where a copy left: that one is left to the copy's result.  No other follow-up ever starts. *)
Theorem dispatch_is_exact h d policies name m res hooks :
  ok hooks ->
  match dispatch h d policies name m res hooks, resolve policies name res with
  | None, _ => Settle.count_overflows overflow_checks m
  | Some ev, (None, failed) => ev = failed ++ [LeftUnsettled] /\ exists reason, res = Panicked reason /\
      failed = [FailsFast name ("handler panicked: " ++ reason)]
  | Some ev, (Some o, _) =>
      (exists c, Settle.calls (settlings ev) = [c]) /\
      exists plain, due o (view hooks) ≡ₚ plain ++ option_list (reaction_for o (view hooks) ≫= then_) /\
        started ev ≡ₚ plain ++ match Settle.copies (settlings ev) with
                               | [] => option_list (reaction_for o (view hooks) ≫= then_)
                               | e :: _ => thens (option_list (Settle.follow h e (reaction_for o (view hooks))))
                               end
  end.
Proof.
  intros Hok. unfold dispatch. destruct (resolve policies name res) as [settled failed] eqn:Hr.
  destruct settled as [o|].
  - assert (failed = []) as ->.
    { unfold resolve, outcome_after_panic in Hr. destruct res; [by injection Hr as _ <-|].
      destruct (panic policies); congruence. }
    destruct (took_apart o hooks Hok) as (after_ & hooks' & -> & Hok' & Hdue). cbn -[settle_delivery take_continuations].
    destruct (took_continuations hooks' (outcome o) Hok') as (l & -> & Hl). cbn -[settle_delivery].
    pose proof (settled_delivery h d m (outcome o) after_ (reaction_for o (view hooks))) as Hs.
    destruct (settle_delivery _ _ _ _ _ _) as [ev|]; [|done]. cbn. rewrite Hl. destruct Hs as [Hc Hst].
    rewrite settlings_app, settlings_detaches, app_nil_r, started_app, started_detaches. split; [done|].
    eexists (option_list after_ ++ omap fut (List.filter (runs (kind_of (outcome o))) (view hooks'))). split.
    + rewrite Hdue. apply Permutation_app_comm.
    + rewrite Hst, <- app_assoc. apply Permutation_app_comm.
  - cbn. unfold resolve, outcome_after_panic in Hr. destruct res as [o|reason]; [done|].
    destruct (panic policies); try done. injection Hr as <-. split; [done|]. by exists reason.
Qed.
End lawful.
End dispatch.

(** ** Witness: a retry with a follow-up of its own, a reaction and hooks of three kinds *)

Definition ex_hooks : list AfterHook :=
  hook_of <$> [AfterSettle (OwnThen 1); AfterThen (Nack true) (OwnThen 2) (Some (OwnHook 5)); AfterAck (OwnThen 3)].
Definition ex_dispatched : option (list Event) :=
  dispatch true Settle.publishing_host Settle.capped default_policies "orders" Settle.first_delivery
    (Returned (and_after retry (OwnThen 4))) ex_hooks.

Lemma dispatch_is_exact_witness :
  exists ev, ex_dispatched = Some ev /\ (exists c, Settle.calls (settlings ev) = [c]) /\
    exists plain, [OwnThen 4; OwnThen 1; OwnThen 2] ≡ₚ plain ++ [OwnThen 2] /\ started ev ≡ₚ plain ++ [OwnThen 2].
Proof.
  pose proof (dispatch_is_exact true (T := list AfterHook) (fun _ => True) Settle.publishing_host Settle.capped
    default_policies "orders" Settle.first_delivery (Returned (and_after retry (OwnThen 4))) ex_hooks I) as H.
  change (dispatch _ _ _ _ _ _ _ _) with ex_dispatched in H. destruct ex_dispatched as [ev|] eqn:E; [|vm_compute in E; discriminate E].
  exists ev. split; [reflexivity|]. destruct H as [Hc (plain & Hd & Hs)]. split; [exact Hc|]. exists plain. split; [exact Hd|].
  vm_compute in E. injection E as <-. exact Hs.
Defined.
End Dispatch.
