(* ===== verification/Batch.v ===== *)
(** * A batch, from the broker's slot to its settlement ([crates/runtime/src/batch.rs],
    [batch/settle.rs], [batch/carried.rs], [dispatch.rs])

    A batch subscription hands its handler many deliveries at once: each is decoded on its own,
    one that does not decode is settled by the decode policy, and what the handler answers with
    settles the others, uniformly or element by element.  The three lanes - decoded by a codec,
    constructed from the payload, lent by the broker's batch - and the settlement they share, over
    the single-delivery settlement of [Settle].  Values, codecs and handlers are parameters;
    [None] is a panic inside a settlement, which the guard around the batch catches like the
    handler's own: what follows it is not modelled.  The build with a heap, the [testing] feature off. *)
From Stdlib Require Import Ascii String.
From stdpp Require Import sorting.
From S2P Require Import Prelude RustStd Outcome PublishFailure Hooks Settle Dispatch.

Module Batch.
Import PublishFailure Outcome.

(** ** What a batch handler answers with *)

Inductive BatchResult :=
  | Uniform (o : HandlerOutcome)
  | PerElement (l : list HandlerOutcome).

(** [IntoBatchResult]. *)
Definition into_batch_outcome (o : HandlerOutcome) : BatchResult := Uniform o.
Definition into_batch_unit (_ : unit) : BatchResult := Uniform ack.
Definition into_batch_result {E} (r : result unit E) : BatchResult :=
  Uniform (match r with Ok _ => ack | Err _ => drop end).
Definition into_batch_nested {E} (r : result HandlerOutcome E) : BatchResult :=
  Uniform (match r with Ok o => o | Err _ => drop end).
Definition into_batch_elements (l : list HandlerOutcome) : BatchResult := PerElement l.

(** ** A uniform outcome handed out element by element

    The gathering its elements report to is known by a number. *)

Record Fan := mk_fan { gather_of : nat; next_ : nat }.
Inductive Share :=
  | Gathers (fan : Fan)
  | Last (after : option Continuation).
Record UniformFan := mk_uniform { fan_status : HandlerResult; share : Share }.

(** [Fan::element]: the hook for the element's failure, and the continuation for its success. *)
Definition fan_element (f : Fan) : ErrorHook * Continuation * Fan :=
  (Part (gather_of f) (next_ f), SentPart (gather_of f), mk_fan (gather_of f) (S (next_ f))).

(** [UniformFan::new]; the hook and the follow-up move into the gathering, if there is a hook. *)
Definition new_fan (g : nat) (o : HandlerOutcome) : UniformFan :=
  let '(status, after, error) := into_parts o in
  mk_uniform status (match error with Some _ => Gathers (mk_fan g 0) | None => Last after end).

(** [UniformFan::element]. *)
Definition element (f : UniformFan) (last : bool) : HandlerOutcome * UniformFan :=
  let own := from_result (fan_status f) in
  match share f with
  | Gathers fan =>
      let '(error, sent, fan) := fan_element fan in
      (and_after (error_hook own error) sent, mk_uniform (fan_status f) (Gathers fan))
  | Last (Some after) =>
      if last then (and_after own after, mk_uniform (fan_status f) (Last None)) else (own, f)
  | Last None => (own, f)
  end.

(** [uniform_batch]: the elements from [index] on, [left_] of them. *)
Fixpoint uniform_elements (f : UniformFan) (index left_ batch_len : nat) : list HandlerOutcome :=
  match left_ with
  | 0 => []
  | S left_ =>
      let '(o, f) := element f (index + 1 =? batch_len) in o :: uniform_elements f (S index) left_ batch_len
  end.
Definition uniform_batch (g : nat) (o : HandlerOutcome) (batch_len : nat) : list HandlerOutcome :=
  uniform_elements (new_fan g o) 0 batch_len batch_len.

(** [batch_verdict]. *)
Definition batch_verdict (g : nat) (r : BatchResult) (batch_len : nat) : result unit (list HandlerOutcome) :=
  match r with
  | Uniform one => if is_ack one && negb (has_after one) then Ok tt else Err (uniform_batch g one batch_len)
  | PerElement outcomes => Err outcomes
  end.

(** ** The settlement of a batch *)

Inductive Event :=
  | Settles (m : Settle.Msg) (status : HandlerResult) (t : list Settle.Event)
  | Detaches (c : Continuation)
  | CountMismatch (expected returned : nat)
  | LentMore (lent delivered : nat)
  | FailsFast (name reason : string).

Section settle.
Context (overflow_checks : bool) (h : Settle.Host) (d : RetryDeclaration).

Definition settle_plain (m : Settle.Msg) (status : HandlerResult) : option (list Event) :=
  run ← Settle.settle_outcome overflow_checks h d m status; Some [Settles m status (Settle.trace run)].

(** [settle_element!]. *)
Definition settle_element (m : Settle.Msg) (o : HandlerOutcome) : option (list Event) :=
  let '(status, after, error) := into_parts o in
  match error with
  | Some error =>
      run ← Settle.settle_reacting overflow_checks h d m status (Some (mk_reaction error after));
      Some [Settles m status (Settle.trace run)]
  | None => ev ← settle_plain m status; Some (ev ++ (Detaches <$> option_list after))
  end.

Definition check_outcome_count (results : list HandlerOutcome) (expected : nat) : list Event :=
  if length results =? expected then [] else [CountMismatch expected (length results)].

(** The loops of [settle_lent_batch]. *)
Fixpoint settle_fanned (fan : UniformFan) (index last : nat) (accepted : list Settle.Msg) : option (list Event) :=
  match accepted with
  | [] => Some []
  | m :: accepted =>
      let '(own, fan) := element fan (index =? last) in
      ev ← settle_element m own; rest ← settle_fanned fan (S index) last accepted; Some (ev ++ rest)
  end.
Fixpoint settle_uniform (status : HandlerResult) (accepted : list Settle.Msg) : option (list Event) :=
  match accepted with
  | [] => Some []
  | m :: accepted => ev ← settle_plain m status; rest ← settle_uniform status accepted; Some (ev ++ rest)
  end.
Fixpoint settle_each (results : list HandlerOutcome) (accepted : list Settle.Msg) : option (list Event) :=
  match accepted with
  | [] => Some []
  | m :: accepted =>
      ev ← settle_element m (default retry (head results));
      rest ← settle_each (tail results) accepted; Some (ev ++ rest)
  end.

Definition settle_lent_batch (g : nat) (accepted : list Settle.Msg) (r : BatchResult) : option (list Event) :=
  match r with
  | Uniform outcome =>
      let '(status, after, error) := into_parts outcome in
      match error with
      | Some error =>
          let own := error_hook (from_result status) error in
          let own := match after with Some after => and_after own after | None => own end in
          settle_fanned (new_fan g own) 0 (length accepted - 1) accepted
      | None => ev ← settle_uniform status accepted; Some (ev ++ (Detaches <$> option_list after))
      end
  | PerElement results =>
      ev ← settle_each results accepted; Some (check_outcome_count results (length accepted) ++ ev)
  end.

Definition settle_batch := settle_lent_batch.

(** [Settlements]: the outcomes of a split batch's accepted elements. *)
Inductive Settlements :=
  | SUniform (fan : UniformFan) (left_ : nat)
  | SEach (results : list HandlerOutcome).

Definition settlements_of (g : nat) (r : BatchResult) (accepted_len : nat) : Settlements * list Event :=
  match r with
  | Uniform outcome => (SUniform (new_fan g outcome) accepted_len, [])
  | PerElement results => (SEach results, check_outcome_count results accepted_len)
  end.

Definition next_settlement (s : Settlements) : option HandlerOutcome * Settlements :=
  match s with
  | SUniform fan (S left_) => let '(o, fan) := element fan (left_ =? 0) in (Some o, SUniform fan left_)
  | SUniform fan 0 => (None, s)
  | SEach (o :: results) => (Some o, SEach results)
  | SEach [] => (None, s)
  end.

(** Whether the next rejection is the element at [index]: the peek. *)
Definition peeked (rejected : list (nat * HandlerResult)) (index : nat) : option (HandlerResult * list (nat * HandlerResult)) :=
  match rejected with
  | (at_, outcome) :: rest => if at_ =? index then Some (outcome, rest) else None
  | [] => None
  end.

Fixpoint split_loop (index : nat) (rejected : list (nat * HandlerResult)) (s : Settlements) (batch : list Settle.Msg)
  : option (list Event) :=
  match batch with
  | [] => Some []
  | m :: batch =>
      match peeked rejected index with
      | Some (outcome, rejected) =>
          ev ← settle_plain m outcome; rest ← split_loop (S index) rejected s batch; Some (ev ++ rest)
      | None =>
          let '(o, s) := next_settlement s in
          ev ← settle_element m (default retry o); rest ← split_loop (S index) rejected s batch; Some (ev ++ rest)
      end
  end.

(** [settle_split_batch]; [None] too where the count of rejections underflows. *)
Definition settle_split_batch (g : nat) (batch : list Settle.Msg) (rejected : list (nat * HandlerResult)) (r : BatchResult)
  : option (list Event) :=
  if length rejected <=? length batch then
    let '(s, ev) := settlements_of g r (length batch - length rejected) in
    rest ← split_loop 0 rejected s batch; Some (ev ++ rest)
  else None.
End settle.

(** ** The three lanes of a batch *)

(** What the handler's call ended in. *)
Inductive HandledBatch :=
  | Answers (r : BatchResult)
  | BatchPanics (reason : string).

Inductive Lane := Decoded | Constructed | Carried.

(** What a lane leaves: the events, and where the handler panicked its reason and the deliveries
    still in the worker's storage. *)
Record Lived := mk_lived { events : list Event; panicked : option (string * list Settle.Msg) }.

Section lanes.
Context (overflow_checks : bool) (h : Settle.Host) (d : RetryDeclaration).
(** A value, what the broker reports of a delivery it could not read, the decoding of a delivery
    (by a codec or from its payload), the body, and how the error of a missing value reads. *)
Context {V : Type} (decode_error : Settle.Msg -> option string) (decode : Settle.Msg -> result V string)
  (handle_slice : list V -> HandledBatch) (no_value : string).
(** The subscription, its decode policy, and the number of the gathering a uniform outcome makes. *)
Context (name : string) (policy : FailurePolicy) (g : nat).

(** [rejection]. *)
Definition rejection (err reason : string) : HandlerResult * list Event :=
  match policy with
  | FailFast => (result_drop, [FailsFast name (reason ++ ": " ++ err)])
  | other => (default result_drop (settlement other), [])
  end.

(** [reported]. *)
Definition reported (m : Settle.Msg) : option (HandlerResult * list Event) :=
  match decode_error m with Some err => Some (rejection err "batch decode failed") | None => None end.

(** One element read: its value, or its settlement. *)
Definition read (reason : string) (m : Settle.Msg) : (V + HandlerResult) * list Event :=
  match reported m with
  | Some (outcome, ev) => (inr outcome, ev)
  | None =>
      match decode m with
      | Ok value => (inl value, [])
      | Err err => let '(outcome, ev) := rejection err reason in (inr outcome, ev)
      end
  end.

(** [decode_elements], and the loop of [DeserializedBatch::handle_batch]. *)
Fixpoint decode_elements (reason : string) (index : nat) (batch : list Settle.Msg)
  : list V * list (nat * HandlerResult) * list Event :=
  match batch with
  | [] => ([], [], [])
  | m :: batch =>
      let '(r, ev) := read reason m in
      let '(values, rejected, rest) := decode_elements reason (S index) batch in
      match r with
      | inl value => (value :: values, rejected, ev ++ rest)
      | inr outcome => (values, (index, outcome) :: rejected, ev ++ rest)
      end
  end.

(** The rejections settled on the way past, the rest put back. *)
Fixpoint settle_rejected (index : nat) (rejected : list (nat * HandlerResult)) (all : list Settle.Msg)
  : option (list Event * list Settle.Msg) :=
  match all with
  | [] => Some ([], [])
  | m :: all =>
      match peeked rejected index with
      | Some (outcome, rejected) =>
          ev ← settle_plain overflow_checks h d m outcome;
          '(rest, batch) ← settle_rejected (S index) rejected all; Some (ev ++ rest, batch)
      | None => '(rest, batch) ← settle_rejected (S index) rejected all; Some (rest, m :: batch)
      end
  end.

(** [decode_batch]. *)
Definition decode_batch (batch : list Settle.Msg) : option (list V * list Settle.Msg * list Event) :=
  let '(values, rejected, ev) := decode_elements "batch decode failed" 0 batch in
  match rejected with
  | [] => Some (values, batch, ev)
  | _ => '(rest, batch) ← settle_rejected 0 rejected batch; Some (values, batch, ev ++ rest)
  end.

(** [TypedBatch::handle_batch]. *)
Definition handle_decoded (batch : list Settle.Msg) : option Lived :=
  '(values, batch, ev) ← decode_batch batch;
  match batch with
  | [] => Some (mk_lived ev None)
  | _ =>
      match handle_slice values with
      | BatchPanics reason => Some (mk_lived ev (Some (reason, batch)))
      | Answers r => rest ← settle_batch overflow_checks h d g batch r; Some (mk_lived (ev ++ rest) None)
      end
  end.

(** [DeserializedBatch::handle_batch]. *)
Definition handle_constructed (batch : list Settle.Msg) : option Lived :=
  match batch with
  | [] => Some (mk_lived [] None)
  | _ =>
      let '(values, rejected, ev) := decode_elements "batch payload construction failed" 0 batch in
      match (match values with [] => Answers (PerElement []) | _ => handle_slice values end) with
      | BatchPanics reason => Some (mk_lived ev (Some (reason, batch)))
      | Answers r =>
          rest ← match rejected with
                 | [] => settle_batch overflow_checks h d g batch r
                 | _ => settle_split_batch overflow_checks h d g batch rejected r
                 end;
          Some (mk_lived (ev ++ rest) None)
      end
  end.

(** The settlement of a delivery past the end of the lent values. *)
Definition valueless (m : Settle.Msg) : HandlerResult * list Event :=
  match reported m with
  | Some r => r
  | None => rejection no_value "batch delivery carries no value"
  end.

Fixpoint settle_gone (gone : list Settle.Msg) : option (list Event) :=
  match gone with
  | [] => Some []
  | m :: gone =>
      let '(outcome, ev) := valueless m in
      settled ← settle_plain overflow_checks h d m outcome; rest ← settle_gone gone; Some (ev ++ settled ++ rest)
  end.

(** [CarriedBatch::handle_batch]: the values the batch lends, and the deliveries drained from it. *)
Definition handle_carried (values : list V) (deliveries : list Settle.Msg) : option Lived :=
  let lent := length values in
  match (match values with [] => None | _ => Some (handle_slice values) end) with
  | Some (BatchPanics reason) => Some (mk_lived [] (Some (reason, deliveries)))
  | answer =>
      let more := if length deliveries <? lent then [LentMore lent (length deliveries)] else [] in
      gone ← settle_gone (skipn lent deliveries);
      rest ← match answer with
             | Some (Answers r) => settle_lent_batch overflow_checks h d g (firstn lent deliveries) r
             | _ => Some []
             end;
      Some (mk_lived (more ++ gone ++ rest) None)
  end.

Definition handle_batch (lane : Lane) (lent : list V) (deliveries : list Settle.Msg) : option Lived :=
  match lane with
  | Decoded => handle_decoded deliveries
  | Constructed => handle_constructed deliveries
  | Carried => handle_carried lent deliveries
  end.

(** [run_batch]; the handler registered [hooks]. *)
Definition run_batch {T} `{Hooks.HookStore T} (panic_policy : FailurePolicy) (hooks : T) (lane : Lane)
  (lent : list V) (deliveries : list Settle.Msg) : option (list Event * list Settle.Msg) :=
  match lane, deliveries with
  | (Decoded | Constructed), [] => Some ([], [])
  | _, _ =>
      lived ← handle_batch lane lent deliveries;
      match panicked lived with
      | None =>
          if Hooks.is_empty hooks then Some (events lived, [])
          else '(l, _) ← Hooks.take_settle_hooks hooks; Some (events lived ++ (Detaches <$> l), [])
      | Some (reason, dropped) =>
          Some (events lived ++ (if bool_decide (panic_policy = FailFast)
                                 then [FailsFast name ("batch handler panicked: " ++ reason)] else []), dropped)
      end
  end.
End lanes.

(** ** What a batch leaves behind *)

Definition settled (ev : list Event) : list (Settle.Msg * HandlerResult) :=
  omap (fun e => match e with Settles m status _ => Some (m, status) | _ => None end) ev.
Definition detached (ev : list Event) : list Continuation :=
  omap (fun e => match e with Detaches c => Some c | _ => None end) ev.
(** Every settlement of a delivery is one call on its transport. *)
Definition one_call_each (ev : list Event) : Prop :=
  forall m status t, Settles m status t ∈ ev -> exists c, Settle.calls t = [c].

(** The statuses a result settles [n] deliveries by. *)
Fixpoint element_statuses (results : list HandlerOutcome) (n : nat) : list HandlerResult :=
  match n with 0 => [] | S n => outcome (default retry (head results)) :: element_statuses (tail results) n end.
Definition statuses (r : BatchResult) (n : nat) : list HandlerResult :=
  match r with Uniform o => replicate n (outcome o) | PerElement l => element_statuses l n end.

Lemma settled_app a b : settled (a ++ b) = settled a ++ settled b.
Proof. apply omap_app. Qed.
Lemma settled_detaches l : settled (Detaches <$> l) = [].
Proof. by induction l. Qed.

Section settling.
Context (overflow_checks : bool) (h : Settle.Host) (d : RetryDeclaration).

(** A run over the deliveries [ms] that settles each of [pairs], in their order. *)
Definition runs (ms : list Settle.Msg) (x : option (list Event)) (pairs : list (Settle.Msg * HandlerResult)) : Prop :=
  match x with
  | None => exists m, m ∈ ms /\ Settle.count_overflows overflow_checks m
  | Some ev => settled ev = pairs /\ one_call_each ev
  end.

Lemma one_call_app a b : one_call_each a -> one_call_each b -> one_call_each (a ++ b).
Proof. unfold one_call_each. setoid_rewrite elem_of_app. naive_solver. Qed.
Lemma one_call_none (ev : list Event) : settled ev = [] -> one_call_each ev.
Proof.
  intros Hs m status t Hin. assert (Hm : (m, status) ∈ settled ev); [|rewrite Hs in Hm; by apply not_elem_of_nil in Hm].
  apply list_elem_of_omap. by eexists.
Qed.

Lemma runs_seq ms1 ms2 x y p1 p2 :
  runs ms1 x p1 -> runs ms2 y p2 -> runs (ms1 ++ ms2) (a ← x; b ← y; Some (a ++ b)) (p1 ++ p2).
Proof.
  unfold runs. destruct x as [a|]; cbn; [|setoid_rewrite elem_of_app; naive_solver].
  destruct y as [b|]; cbn; [|setoid_rewrite elem_of_app; naive_solver].
  intros [<- Ha] [<- Hb]. split; [apply settled_app|by apply one_call_app].
Qed.

Lemma runs_after ms x p f : settled f = [] -> runs ms x p -> runs ms (a ← x; Some (a ++ f)) p.
Proof.
  intros Hf. unfold runs. destruct x as [a|]; cbn; [|done]. intros [<- Ha].
  rewrite settled_app, Hf, app_nil_r. split; [done|]. apply one_call_app; [done|by apply one_call_none].
Qed.

Lemma runs_before ms x p f : settled f = [] -> runs ms x p -> runs ms (a ← x; Some (f ++ a)) p.
Proof.
  intros Hf. unfold runs. destruct x as [a|]; cbn; [|done]. intros [<- Ha].
  rewrite settled_app, Hf. split; [done|]. apply one_call_app; [by apply one_call_none|done].
Qed.

Lemma runs_weaken ms ms' x p : ms ⊆ ms' -> runs ms x p -> runs ms' x p.
Proof. intros Hs. unfold runs. destruct x; naive_solver. Qed.

Lemma runs_nil : runs [] (Some []) [].
Proof. unfold runs. split; [done|by apply one_call_none]. Qed.

Lemma settles_one m status t : (exists c, Settle.calls t = [c]) -> one_call_each [Settles m status t].
Proof. intros Hc m' st t' Hin. apply list_elem_of_singleton in Hin. injection Hin as -> -> ->. done. Qed.

Lemma runs_plain m status : runs [m] (settle_plain overflow_checks h d m status) [(m, status)].
Proof.
  unfold settle_plain, Settle.settle_outcome.
  pose proof (Settle.settles_outcome overflow_checks h d m status None []) as Hs.
  destruct (Settle.settle_by_outcome _ _ _ _ _) as [[u run]|]; cbn; [|exists m; split; [apply list_elem_of_here|done]].
  destruct Hs as (_ & ev & -> & [Hc _ _]). split; [done|]. by apply settles_one.
Qed.

Lemma runs_element m o : runs [m] (settle_element overflow_checks h d m o) [(m, outcome o)].
Proof.
  unfold settle_element, outcome, into_parts. destruct o as [[st|st x] f]; cbn -[settle_plain Settle.settle_reacting].
  - apply runs_after; [apply settled_detaches|apply runs_plain].
  - pose proof (Settle.settled_reacting overflow_checks h d m st (Some (mk_reaction x f))) as Hs.
    destruct (Settle.settle_reacting _ _ _ _ _ _) as [run|]; unfold runs; cbn; [|exists m; split; [apply list_elem_of_here|done]].
    destruct Hs as (_ & ev & left_ & Hs & ->). split; [done|]. apply settles_one.
    exact (proj1 (Dispatch.settled_reacted _ _ _ _ _ _ Hs eq_refl)).
Qed.

Lemma element_outcome f last : outcome (element f last).1 = fan_status f /\ fan_status (element f last).2 = fan_status f.
Proof. unfold element. destruct f as [st [fan|[after_|]]]; cbn; [done| |done]. by destruct last. Qed.

Lemma runs_uniform status ms : runs ms (settle_uniform overflow_checks h d status ms) (zip ms (replicate (length ms) status)).
Proof.
  induction ms as [|m ms IH]; cbn -[settle_plain]; [apply runs_nil|].
  apply (runs_seq [m] ms _ _ [_]); [apply runs_plain|done].
Qed.

Lemma runs_fanned f index last ms :
  runs ms (settle_fanned overflow_checks h d f index last ms) (zip ms (replicate (length ms) (fan_status f))).
Proof.
  revert f index. induction ms as [|m ms IH]; intros f index; cbn -[settle_element]; [apply runs_nil|].
  destruct (element f (index =? last)) as [own f'] eqn:Ee. destruct (element_outcome f (index =? last)) as [Ho Hf].
  rewrite Ee in Ho, Hf. cbn in Ho, Hf. rewrite <- Ho at 1. rewrite <- Hf.
  apply (runs_seq [m] ms _ _ [_]); [apply runs_element|apply IH].
Qed.

Lemma runs_each results ms :
  runs ms (settle_each overflow_checks h d results ms) (zip ms (element_statuses results (length ms))).
Proof.
  revert results. induction ms as [|m ms IH]; intros results; cbn -[settle_element]; [apply runs_nil|].
  apply (runs_seq [m] ms _ _ [_]); [apply runs_element|apply IH].
Qed.

Lemma mismatch_settles_nothing l n : settled (check_outcome_count l n) = [].
Proof. unfold check_outcome_count. by destruct (_ =? _). Qed.

Lemma runs_batch g ms r :
  runs ms (settle_batch overflow_checks h d g ms r) (zip ms (statuses r (length ms))).
Proof.
  unfold settle_batch, settle_lent_batch. destruct r as [o|results].
  - unfold statuses, outcome, into_parts. destruct o as [[st|st x] f]; cbn -[settle_uniform settle_fanned].
    + apply runs_after; [apply settled_detaches|apply runs_uniform].
    + destruct f as [f|]; apply runs_fanned.
  - apply runs_before; [apply mismatch_settles_nothing|apply runs_each].
Qed.
End settling.

(** ** What the lanes make of a batch *)

Section judged.
Context {V : Type} (decode_error : Settle.Msg -> option string) (decode : Settle.Msg -> result V string)
  (policy : FailurePolicy).

Definition rejected_status : HandlerResult :=
  match policy with FailFast => result_drop | other => default result_drop (settlement other) end.

(** What a delivery is to the body: a value of its, or a settlement by the decode policy. *)
Definition verdict (m : Settle.Msg) : V + HandlerResult :=
  match decode_error m with
  | Some _ => inr rejected_status
  | None => match decode m with Ok v => inl v | Err _ => inr rejected_status end
  end.

Definition values_of (ms : list Settle.Msg) : list V :=
  omap (fun m => match verdict m with inl v => Some v | inr _ => None end) ms.
Definition accepted (ms : list Settle.Msg) : list Settle.Msg :=
  List.filter (fun m => match verdict m with inl _ => true | inr _ => false end) ms.
Definition rejected_pairs (ms : list Settle.Msg) : list (Settle.Msg * HandlerResult) :=
  omap (fun m => match verdict m with inl _ => None | inr r => Some (m, r) end) ms.
Fixpoint rejects (index : nat) (ms : list Settle.Msg) : list (nat * HandlerResult) :=
  match ms with
  | [] => []
  | m :: ms => match verdict m with inl _ => rejects (S index) ms | inr r => (index, r) :: rejects (S index) ms end
  end.

(** The deliveries the body's answer settles, those settled for it, and the body's answer. *)
Definition handed (lane : Lane) (lent : list V) (ds : list Settle.Msg) : list Settle.Msg :=
  match lane with Carried => firstn (length lent) ds | _ => accepted ds end.
Definition refused (lane : Lane) (lent : list V) (ds : list Settle.Msg) : list (Settle.Msg * HandlerResult) :=
  match lane with
  | Carried => (fun m => (m, rejected_status)) <$> skipn (length lent) ds
  | _ => rejected_pairs ds
  end.
Definition body_values (lane : Lane) (lent : list V) (ds : list Settle.Msg) : list V :=
  match lane with Carried => lent | _ => values_of ds end.

Lemma rejects_later i j ms : j < i -> peeked (rejects i ms) j = None.
Proof.
  revert i. induction ms as [|m ms IH]; intros i Hj; [done|]. cbn. destruct (verdict m); [apply IH; lia|]. cbn.
  destruct (Nat.eqb_spec i j); [lia|done].
Qed.

Lemma accepted_values ms : length (values_of ms) = length (accepted ms).
Proof.
  unfold values_of, accepted. induction ms as [|m ms IH]; [done|]. cbn. destruct (verdict m); cbn; [by f_equal|done].
Qed.

Lemma accepted_rejected ms : (rejected_pairs ms).*1 ++ accepted ms ≡ₚ ms.
Proof.
  unfold rejected_pairs, accepted. induction ms as [|m ms IH]; [done|]. cbn. destruct (verdict m); cbn; [|by rewrite IH].
  rewrite <- Permutation_middle. by rewrite IH.
Qed.

Lemma rejects_length i ms : length (rejects i ms) + length (accepted ms) = length ms.
Proof.
  unfold accepted. revert i. induction ms as [|m ms IH]; intros i; [done|]. cbn. specialize (IH (S i)).
  destruct (verdict m); cbn; lia.
Qed.

Lemma rejects_nil i ms : rejects i ms = [] -> accepted ms = ms /\ rejected_pairs ms = [].
Proof.
  unfold accepted, rejected_pairs. revert i. induction ms as [|m ms IH]; intros i; [done|]. cbn.
  destruct (verdict m); [|done]. intros H. destruct (IH (S i) H) as [-> ->]. done.
Qed.

Lemma partitioned lane lent ds : (refused lane lent ds).*1 ++ handed lane lent ds ≡ₚ ds.
Proof.
  destruct lane; cbn; try apply accepted_rejected. rewrite <- list_fmap_compose.
  rewrite (list_fmap_id (skipn (length lent) ds) : (fst ∘ (fun m => (m, rejected_status))) <$> _ = _).
  rewrite Permutation_app_comm. by rewrite firstn_skipn.
Qed.
End judged.

#[local] Arguments settled : simpl never.
#[local] Arguments accepted : simpl never.
#[local] Arguments rejected_pairs : simpl never.
#[local] Arguments values_of : simpl never.

Section exact.
Context (overflow_checks : bool) (h : Settle.Host) (d : RetryDeclaration).
Context {V : Type} (decode_error : Settle.Msg -> option string) (decode : Settle.Msg -> result V string)
  (handle_slice : list V -> HandledBatch) (no_value : string).
Context (name : string) (policy : FailurePolicy) (g : nat).

Abbreviation verdict := (verdict decode_error decode policy).
Abbreviation rejects := (rejects decode_error decode policy).
Abbreviation accepted := (accepted decode_error decode policy).
Abbreviation rejected_pairs := (rejected_pairs decode_error decode policy).
Abbreviation values_of := (values_of decode_error decode policy).
Abbreviation runs := (runs overflow_checks).

Lemma rejection_settles err reason :
  (rejection name policy err reason).1 = rejected_status policy /\ settled (rejection name policy err reason).2 = [].
Proof. unfold rejection, rejected_status. by destruct policy. Qed.

Lemma read_verdict reason m :
  (read decode_error decode name policy reason m).1 = verdict m /\
  settled (read decode_error decode name policy reason m).2 = [].
Proof.
  unfold read, reported, Batch.verdict. destruct (decode_error m) as [err|].
  - destruct (rejection_settles err "batch decode failed") as [<- Hs].
    by destruct (rejection _ _ err "batch decode failed").
  - destruct (decode m) as [v|err]; [done|]. destruct (rejection_settles err reason) as [<- Hs].
    by destruct (rejection _ _ err reason).
Qed.

Lemma decoded_elements reason i ms : exists ev,
  decode_elements decode_error decode name policy reason i ms = (values_of ms, rejects i ms, ev) /\ settled ev = [].
Proof.
  unfold Batch.values_of. revert i. induction ms as [|m ms IH]; intros i; cbn; [by eexists|].
  destruct (read_verdict reason m) as [Hv Hs]. destruct (read _ _ _ _ _ _) as [r ev]. cbn [fst snd] in Hv, Hs. subst r.
  destruct (IH (S i)) as (rest & -> & Hr). exists (ev ++ rest). rewrite settled_app, Hs, Hr. by destruct (verdict m).
Qed.

Lemma settled_rejected i ms :
  match settle_rejected overflow_checks h d i (rejects i ms) ms with
  | None => exists m, m ∈ ms /\ Settle.count_overflows overflow_checks m
  | Some (ev, batch) => batch = accepted ms /\ settled ev = rejected_pairs ms /\ one_call_each ev
  end.
Proof.
  unfold Batch.accepted, Batch.rejected_pairs.
  revert i. induction ms as [|m ms IH]; intros i; cbn -[settle_plain]; [by split_and!; [..|apply one_call_none]|].
  specialize (IH (S i)). destruct (verdict m) as [v|r].
  - rewrite rejects_later by lia. cbn. destruct (settle_rejected _ _ _ _ _ ms) as [[ev b]|]; cbn; [naive_solver|].
    destruct IH as (x & Hx & Ho). exists x. split; [by apply list_elem_of_further|done].
  - cbn -[settle_plain]. rewrite Nat.eqb_refl. pose proof (runs_plain overflow_checks h d m r) as Hp.
    destruct (settle_plain overflow_checks h d m r) as [ev|]; cbn in *.
    + destruct Hp as [Hp1 Hp2]. destruct (settle_rejected _ _ _ _ _ ms) as [[rest b]|]; cbn.
      * destruct IH as (-> & Hs & Ho). rewrite settled_app, Hp1, Hs. split_and!; [done..|by apply one_call_app].
      * destruct IH as (x & Hx & Ho). exists x. split; [by apply list_elem_of_further|done].
    + destruct Hp as (x & Hx%list_elem_of_singleton & Ho). subst x. exists m. split; [apply list_elem_of_here|done].
Qed.

(** The statuses of a split batch's accepted elements. *)
Definition settlement_statuses (s : Settlements) (n : nat) : list HandlerResult :=
  match s with
  | SUniform fan left_ => replicate (Nat.min n left_) (fan_status fan) ++ replicate (n - left_) result_retry
  | SEach results => element_statuses results n
  end.

Lemma next_status s n :
  settlement_statuses s (S n) =
    outcome (default retry (next_settlement s).1) :: settlement_statuses (next_settlement s).2 n.
Proof.
  destruct s as [fan [|left_]|[|o results]]; cbn; [by rewrite Nat.sub_0_r, Nat.min_0_r| |done..].
  destruct (element_outcome fan (left_ =? 0)) as [Ho Hf]. destruct (element fan (left_ =? 0)) as [o f]. cbn in *.
  by rewrite Ho, Hf.
Qed.

Lemma split_settles i ms s : exists pairs,
  runs ms (split_loop overflow_checks h d i (rejects i ms) s ms) pairs /\
  pairs ≡ₚ rejected_pairs ms ++ zip (accepted ms) (settlement_statuses s (length (accepted ms))).
Proof.
  unfold Batch.accepted, Batch.rejected_pairs.
  revert i s. induction ms as [|m ms IH]; intros i s; cbn -[settle_plain settle_element]; [by exists []; split; [apply runs_nil|]|].
  destruct (verdict m) as [v|r] eqn:Ev.
  - rewrite rejects_later by lia. destruct (next_settlement s) as [o s'] eqn:En.
    destruct (IH (S i) s') as (pairs & Hr & Hp). exists ((m, outcome (default retry o)) :: pairs). split.
    + apply (runs_seq overflow_checks [m] ms _ _ [_]); [apply runs_element|exact Hr].
    + cbn [length]. rewrite next_status, En. cbn. rewrite Hp. apply Permutation_middle.
  - cbn -[settle_plain settle_element]. rewrite Nat.eqb_refl. destruct (IH (S i) s) as (pairs & Hr & Hp).
    exists ((m, r) :: pairs). split; [|by rewrite Hp].
    apply (runs_seq overflow_checks [m] ms _ _ [_]); [apply runs_plain|exact Hr].
Qed.

Lemma gone_settled ms :
  runs ms (settle_gone overflow_checks h d decode_error no_value name policy ms)
    ((fun m => (m, rejected_status policy)) <$> ms).
Proof.
  induction ms as [|m ms IH]; cbn -[settle_plain Batch.runs]; [apply (runs_nil overflow_checks)|].
  assert (Hv : (valueless decode_error no_value name policy m).1 = rejected_status policy /\
    settled (valueless decode_error no_value name policy m).2 = []).
  { unfold valueless, reported. destruct (decode_error m); apply rejection_settles. }
  destruct (valueless _ _ _ _ m) as [outcome ev]. cbn [fst snd] in Hv. destruct Hv as [-> Hev].
  pose proof (runs_before overflow_checks (m :: ms) _ _ ev Hev (runs_seq overflow_checks [m] ms _ _ [_] _
    (runs_plain overflow_checks h d m (rejected_status policy)) IH)) as Hrun.
  destruct (settle_plain _ _ _ m _) as [a|]; cbn in *; [|done]. by destruct (settle_gone _ _ _ _ _ _ _ ms).
Qed.

Lemma split_batch_settles ms r :
  exists pairs, runs ms (settle_split_batch overflow_checks h d g ms (rejects 0 ms) r) pairs /\
    pairs ≡ₚ rejected_pairs ms ++ zip (accepted ms) (statuses r (length (accepted ms))).
Proof.
  unfold settle_split_batch. pose proof (rejects_length decode_error decode policy 0 ms) as Hlen.
  destruct (Nat.leb_spec (length (rejects 0 ms)) (length ms)); [|lia].
  replace (length ms - length (rejects 0 ms)) with (length (accepted ms)) by lia.
  destruct (settlements_of g r (length (accepted ms))) as [s ev] eqn:Es.
  destruct (split_settles 0 ms s) as (pairs & Hr & Hp). exists pairs. split.
  - apply runs_before; [|exact Hr]. destruct r as [o|l]; injection Es as <- <-; [done|apply mismatch_settles_nothing].
  - rewrite Hp. do 2 f_equiv. destruct r as [o|l]; injection Es as <- <-; cbn; [|done].
    rewrite Nat.min_id, Nat.sub_diag. cbn. rewrite app_nil_r. unfold outcome, new_fan, into_parts. by destruct o as [[]].
Qed.

(** The body's answer: it is called with the values, unless there are none. *)
Definition answer (lane : Lane) (lent : list V) (ds : list Settle.Msg) : option HandledBatch :=
  match body_values decode_error decode policy lane lent ds with [] => None | values => Some (handle_slice values) end.

Abbreviation handed := (handed decode_error decode policy).
Abbreviation refused := (refused decode_error decode policy).

(** What a lane is to leave, the guard and the hooks apart. *)
Definition lane_spec (lane : Lane) (lent : list V) (ds : list Settle.Msg) (ev : list Event)
  (dropped : option (string * list Settle.Msg)) : Prop :=
  one_call_each ev /\
  match answer lane lent ds with
  | None => settled ev ≡ₚ refused lane lent ds /\ dropped = None
  | Some (Answers r) =>
      settled ev ≡ₚ refused lane lent ds ++
        zip (handed lane lent ds) (statuses r (length (handed lane lent ds))) /\ dropped = None
  | Some (BatchPanics reason) => exists gone, dropped = Some (reason, gone) /\
      (settled ev).*1 ++ gone ≡ₚ ds /\ settled ev ⊆+ refused lane lent ds
  end.

Definition lane_holds (lane : Lane) (lent : list V) (ds : list Settle.Msg) : Prop :=
  match handle_batch overflow_checks h d decode_error decode handle_slice no_value name policy g lane lent ds with
  | None => exists m, m ∈ ds /\ Settle.count_overflows overflow_checks m
  | Some lived => lane_spec lane lent ds (events lived) (panicked lived)
  end.

Lemma decoded_exact lent ds : lane_holds Decoded lent ds.
Proof.
  unfold lane_holds, lane_spec, answer, handle_batch, handle_decoded, decode_batch, body_values.
  destruct (decoded_elements "batch decode failed" 0 ds) as (ev & -> & Hev).
  set (x := match rejects 0 ds with [] => _ | _ => _ end).
  assert (Hx : match x with
               | None => exists m, m ∈ ds /\ Settle.count_overflows overflow_checks m
               | Some (vs, b, e) => vs = values_of ds /\ b = accepted ds /\ settled e = rejected_pairs ds /\ one_call_each e
               end).
  { subst x. pose proof (settled_rejected 0 ds) as Hs. destruct (rejects 0 ds) as [|r rs] eqn:Er.
    - cbn. destruct (rejects_nil decode_error decode policy 0 ds Er) as [-> ->].
      split_and!; [done|done|done|by apply one_call_none].
    - destruct (settle_rejected _ _ _ _ _ _) as [[e b]|]; cbn; [|done]. destruct Hs as (-> & Hs & Ho).
      rewrite settled_app, Hev, Hs. split_and!; [done..|]. apply one_call_app; [by apply one_call_none|done]. }
  clearbody x. destruct x as [[[vs b] e]|]; cbn -[settle_batch values_of accepted]; [|exact Hx].
  destruct Hx as (-> & -> & Hs & Ho). pose proof (accepted_values decode_error decode policy ds) as Hl.
  destruct (accepted ds) as [|m ms] eqn:Ea; [apply nil_length_inv in Hl as ->; cbn; by rewrite Hs|].
  destruct (values_of ds) as [|v vs]; [done|]. destruct (handle_slice (v :: vs)) as [r|reason]; cbn -[settle_batch].
  - pose proof (runs_batch overflow_checks h d g (m :: ms) r) as Hr.
    destruct (settle_batch _ _ _ g (m :: ms) r) as [rest|]; cbn -[statuses].
    + destruct Hr as [Hr1 Hr2]. split; [by apply one_call_app|]. rewrite settled_app, Hs, Hr1, ?Ea. done.
    + destruct Hr as (x & Hx & Hof). exists x. split; [|done]. rewrite <- Ea in Hx. unfold Batch.accepted in Hx.
      by apply elem_of_filterb in Hx as [_ ?].
  - split; [done|]. eexists. split; [done|]. rewrite Hs. split; [|done]. rewrite <- Ea. apply accepted_rejected.
Qed.

Lemma constructed_exact lent ds : ds <> [] -> lane_holds Constructed lent ds.
Proof.
  intros Hne. unfold lane_holds, lane_spec, answer, handle_batch, handle_constructed, body_values.
  destruct ds as [|m0 ds0]; [done|]. clear Hne. set (ds := m0 :: ds0).
  destruct (decoded_elements "batch payload construction failed" 0 ds) as (ev & -> & Hev).
  set (a := match values_of ds with [] => Answers (PerElement []) | _ => _ end).
  assert (Hrun : forall r, exists pairs,
    runs ds match rejects 0 ds with
            | [] => settle_batch overflow_checks h d g ds r
            | _ => settle_split_batch overflow_checks h d g ds (rejects 0 ds) r
            end pairs /\ pairs ≡ₚ rejected_pairs ds ++ zip (accepted ds) (statuses r (length (accepted ds)))).
  { intros r. destruct (rejects 0 ds) as [|x xs] eqn:Er.
    - destruct (rejects_nil decode_error decode policy 0 ds Er) as [-> ->]. eexists. split; [apply runs_batch|done].
    - rewrite <- Er. apply split_batch_settles. }
  pose proof (accepted_values decode_error decode policy ds) as Hl.
  assert (Ha : forall r, a = Answers r -> match rejects 0 ds with
            | [] => settle_batch overflow_checks h d g ds r
            | _ => settle_split_batch overflow_checks h d g ds (rejects 0 ds) r
            end = match rejects 0 ds with
            | [] => settle_batch overflow_checks h d g ds r
            | _ => settle_split_batch overflow_checks h d g ds (rejects 0 ds) r
            end) by done. clear Ha.
  destruct (values_of ds) as [|v vs] eqn:Ev; subst a.
  - destruct (Hrun (PerElement [])) as (pairs & Hr & Hp). symmetry in Hl. apply nil_length_inv in Hl. rewrite Hl in Hp.
    cbn in Hp. rewrite app_nil_r in Hp.
    destruct (match rejects 0 ds with [] => _ | _ => _ end) as [rest|]; cbn -[ds]; [|exact Hr].
    destruct Hr as [Hr1 Hr2]. rewrite settled_app, Hev, Hr1. split; [|by split].
    apply one_call_app; [by apply one_call_none|done].
  - destruct (handle_slice (v :: vs)) as [r|reason].
    + destruct (Hrun r) as (pairs & Hr & Hp).
      destruct (match rejects 0 ds with [] => _ | _ => _ end) as [rest|]; cbn -[ds accepted rejected_pairs]; [|exact Hr].
      destruct Hr as [Hr1 Hr2]. rewrite settled_app, Hev, Hr1. split; [|by split].
      apply one_call_app; [by apply one_call_none|done].
    + cbn -[ds accepted rejected_pairs]. split; [by apply one_call_none|]. eexists. split; [done|]. rewrite Hev.
      split; [done|apply submseteq_nil_l].
Qed.

Lemma carried_exact lent ds : lane_holds Carried lent ds.
Proof.
  unfold lane_holds, lane_spec, answer, handle_batch, handle_carried, body_values.
  set (more := if length ds <? length lent then _ else _).
  assert (Hmore : settled more = []) by (subst more; by destruct (_ <? _)). clearbody more.
  pose proof (gone_settled (skipn (length lent) ds)) as Hg.
  assert (Hin : forall n m, m ∈ skipn n ds \/ m ∈ firstn n ds -> m ∈ ds).
  { intros n m Hm. rewrite <- (firstn_skipn n ds). apply elem_of_app. tauto. }
  assert (Hall : forall r, match (gone ← settle_gone overflow_checks h d decode_error no_value name policy (skipn (length lent) ds);
      rest ← settle_lent_batch overflow_checks h d g (firstn (length lent) ds) r; Some (mk_lived (more ++ gone ++ rest) None)) with
    | None => exists m, m ∈ ds /\ Settle.count_overflows overflow_checks m
    | Some lived => one_call_each (events lived) /\ settled (events lived) ≡ₚ refused Carried lent ds ++
        zip (handed Carried lent ds) (statuses r (length (handed Carried lent ds))) /\ panicked lived = None
    end).
  { intros r. pose proof (runs_batch overflow_checks h d g (firstn (length lent) ds) r) as Hr.
    destruct (settle_gone _ _ _ _ _ _ _ _) as [gone|]; cbn -[settle_lent_batch].
    - fold (settle_batch overflow_checks h d). destruct (settle_batch _ _ _ g _ r) as [rest|]; cbn -[statuses].
      + destruct Hg as [Hg1 Hg2], Hr as [Hr1 Hr2]. split; [apply one_call_app; [by apply one_call_none|by apply one_call_app]|].
        by rewrite !settled_app, Hmore, Hg1, Hr1.
      + destruct Hr as (m & Hm & Ho). exists m. split; [|done]. eapply Hin. by right.
    - destruct Hg as (m & Hm & Ho). exists m. split; [|done]. eapply Hin. by left. }
  destruct lent as [|v vs].
  - specialize (Hall (PerElement [])). clear Hall. cbn -[skipn settle_gone] in *.
    destruct (settle_gone _ _ _ _ _ _ _ _) as [gone|]; cbn; [|exact Hg].
    destruct Hg as [Hg1 Hg2]. assert (Hn : settled [] = []) by done. rewrite !settled_app, Hmore, Hg1, Hn, !app_nil_r.
    split; [|done]. apply one_call_app; [by apply one_call_none|done].
  - destruct (handle_slice (v :: vs)) as [r|reason].
    + specialize (Hall r). destruct (_ ≫= _) as [lived|]; [|exact Hall]. tauto.
    + cbn. split; [by apply one_call_none|]. eexists. split; [done|]. split; [done|apply submseteq_nil_l].
Qed.

(** C4. Every delivery of a batch is settled once, on whichever lane it rides.  The deliveries split
    into those the body's answer settles and those settled for it by the decode policy (what its
    broker could not read, what did not decode, what carries no value).  Where the body answers,
    each delivery gets exactly one call on its transport, the refused by the policy and the others
    by the answer: its one status, or element by element in the batch's order with a retry for
    every element the answer is short of.  A batch nothing of which reaches the body settles by
    the policy alone.  Where the body panics, what was not settled yet is dropped for the broker to
    hand back, nothing of it is settled twice, and a fail-fast policy tears the service down.  A
    settlement panics only where a build with overflow checks advances a count of [u64::MAX]. *)
Theorem batch_settles_each_once {T} `{Hooks.HookStore T} (ok : T -> Prop) `{!Hooks.LawfulHooks T ok}
  panic_policy (hooks : T) lane lent ds :
  ok hooks ->
  match run_batch overflow_checks h d decode_error decode handle_slice no_value name policy g panic_policy hooks lane lent ds with
  | None => exists m, m ∈ ds /\ Settle.count_overflows overflow_checks m
  | Some (ev, dropped) =>
      one_call_each ev /\ (refused lane lent ds).*1 ++ handed lane lent ds ≡ₚ ds /\
      match answer lane lent ds with
      | None => settled ev ≡ₚ refused lane lent ds /\ dropped = []
      | Some (Answers r) =>
          settled ev ≡ₚ refused lane lent ds ++ zip (handed lane lent ds) (statuses r (length (handed lane lent ds))) /\
          dropped = []
      | Some (BatchPanics reason) =>
          (settled ev).*1 ++ dropped ≡ₚ ds /\ settled ev ⊆+ refused lane lent ds /\
          (panic_policy = FailFast -> FailsFast name ("batch handler panicked: " ++ reason) ∈ ev)
      end
  end.
Proof.
  intros Hok. unfold run_batch. pose proof (partitioned decode_error decode policy lane lent ds) as Hpart.
  assert (Hempty : lane <> Carried -> ds = [] ->
    one_call_each [] /\ (refused lane lent ds).*1 ++ handed lane lent ds ≡ₚ ds /\
    match answer lane lent ds with
    | None => settled [] ≡ₚ refused lane lent ds /\ @nil Settle.Msg = []
    | Some (Answers r) => settled [] ≡ₚ refused lane lent ds ++ zip (handed lane lent ds) (statuses r (length (handed lane lent ds))) /\
        @nil Settle.Msg = []
    | Some (BatchPanics reason) => (settled []).*1 ++ [] ≡ₚ ds /\ settled [] ⊆+ refused lane lent ds /\
        (panic_policy = FailFast -> FailsFast name ("batch handler panicked: " ++ reason) ∈ [])
    end).
  { intros Hl ->. split_and!; [by apply one_call_none|done|]. by destruct lane. }
  assert (Hlane : (lane <> Carried -> ds <> []) -> lane_holds lane lent ds).
  { intros Hd. destruct lane; [apply decoded_exact|by apply constructed_exact, Hd|apply carried_exact]. }
  unfold lane_holds, lane_spec in Hlane.
  destruct lane, ds as [|m ms]; try (by apply Hempty); specialize (Hlane ltac:(done));
    (destruct (handle_batch _ _ _ _ _ _ _ _ _ _ _ _ _) as [[ev p]|]; cbn [mbind option_bind panicked events] in *; [|exact Hlane]);
    destruct Hlane as [Hone Hans]; destruct (answer _ _ _) as [[r|reason]|].
  all: try (destruct Hans as [Hs ->]; destruct (Hooks.is_empty hooks); [by split_and!|];
    destruct (Hooks.settle_hooks_view hooks Hok) as (t' & -> & _); cbn [mbind option_bind];
    rewrite settled_app, settled_detaches, app_nil_r; split_and!; [|done..];
    apply one_call_app; [done|apply one_call_none, settled_detaches]).
  all: destruct Hans as (gone & -> & Hs & Hsub); cbn [mbind option_bind];
    match goal with |- context [if ?b then ?x else []] => assert (Hn : settled (if b then x else []) = []) by (by destruct b) end;
    rewrite settled_app, Hn, app_nil_r; (split_and!; [apply one_call_app; [done|by apply one_call_none]|done..|]);
    intros ->; rewrite bool_decide_eq_true_2 by done; apply elem_of_app; right; apply list_elem_of_here.
Qed.
End exact.

(** ** A uniform outcome lowered to one outcome per element *)

Lemma uniform_elements_length f index n batch_len : length (uniform_elements f index n batch_len) = n.
Proof. revert f index. induction n as [|n IH]; intros f index; cbn; [done|]. destruct (element _ _). cbn. by rewrite IH. Qed.

Section lowering.
Context (overflow_checks : bool) (h : Settle.Host) (d : RetryDeclaration).

Lemma fanned_each f index n ms : index + length ms = n ->
  settle_each overflow_checks h d (uniform_elements f index (length ms) n) ms =
    settle_fanned overflow_checks h d f index (n - 1) ms.
Proof.
  revert f index. induction ms as [|m ms IH]; intros f index Hn; cbn -[settle_element Nat.eqb]; [done|]. cbn in Hn.
  replace (index + 1 =? n) with (index =? n - 1)
    by (destruct (Nat.eqb_spec index (n - 1)), (Nat.eqb_spec (index + 1) n); lia || done).
  destruct (element f (index =? n - 1)) as [own f']. cbn -[settle_element]. by rewrite IH by lia.
Qed.

Lemma plain_element m st : settle_element overflow_checks h d m (from_result st) = settle_plain overflow_checks h d m st.
Proof. unfold settle_element. cbn -[settle_plain]. destruct (settle_plain _ _ _ m st); cbn; by rewrite ?app_nil_r. Qed.

Lemma unfanned_each st aft index n m ms : index + S (length ms) = n ->
  settle_each overflow_checks h d (uniform_elements (mk_uniform st (Last aft)) index (S (length ms)) n) (m :: ms) =
    (ev ← settle_uniform overflow_checks h d st (m :: ms); Some (ev ++ (Detaches <$> option_list aft))).
Proof.
  revert m index. induction ms as [|m' ms IH]; intros m index Hn; cbn [length] in *.
  - cbn -[settle_element settle_plain Nat.eqb]. replace (index + 1 =? n) with true by (symmetry; apply Nat.eqb_eq; lia).
    unfold element. cbn -[settle_element settle_plain]. destruct aft as [a|]; cbn -[settle_element settle_plain].
    + unfold settle_element at 1. cbn -[settle_plain].
      destruct (settle_plain _ _ _ m st) as [ev|]; cbn; [|done]. by rewrite !app_nil_r.
    + rewrite plain_element. by destruct (settle_plain _ _ _ m st) as [ev|]; cbn; rewrite ?app_nil_r.
  - assert (Hne : (index + 1 =? n) = false) by (apply Nat.eqb_neq; lia).
    assert (He : element (mk_uniform st (Last aft)) false = (from_result st, mk_uniform st (Last aft))) by (by destruct aft).
    change (uniform_elements (mk_uniform st (Last aft)) index (S (S (length ms))) n) with
      (let '(o, f) := element (mk_uniform st (Last aft)) (index + 1 =? n) in o :: uniform_elements f (S index) (S (length ms)) n).
    rewrite Hne, He. specialize (IH m' (S index) ltac:(lia)).
    change (settle_each overflow_checks h d (from_result st :: ?l) (m :: ?k)) with
      (ev ← settle_element overflow_checks h d m (from_result st); rest ← settle_each overflow_checks h d l k; Some (ev ++ rest)).
    change (settle_uniform overflow_checks h d st (m :: ?k)) with
      (ev ← settle_plain overflow_checks h d m st; rest ← settle_uniform overflow_checks h d st k; Some (ev ++ rest)).
    rewrite plain_element, IH. destruct (settle_plain _ _ _ m st) as [ev|]; [|reflexivity]. cbn [mbind option_bind].
    destruct (settle_uniform overflow_checks h d st (m' :: ms)) as [rest|]; [|reflexivity]. cbn [mbind option_bind].
    by rewrite <- app_assoc.
Qed.

(** Lowering a uniform outcome to one outcome per element changes nothing: settling a batch by
    the vector the body's expansion fans the outcome out to does to every delivery, and leaves
    behind, exactly what settling it by the one outcome does - the follow-up after the last
    delivery, or a share of the [.error] and of the follow-up with each. *)
Theorem lowering_is_faithful g ms o :
  ms <> [] ->
  settle_batch overflow_checks h d g ms (PerElement (uniform_batch g o (length ms))) =
    settle_batch overflow_checks h d g ms (Uniform o).
Proof.
  intros Hne. unfold settle_batch, settle_lent_batch, uniform_batch, check_outcome_count.
  rewrite uniform_elements_length, Nat.eqb_refl. destruct o as [[st|st x] f]; cbn -[settle_each settle_uniform settle_fanned uniform_elements].
  - destruct ms as [|m ms]; [done|]. unfold new_fan. cbn -[settle_each settle_uniform uniform_elements].
    rewrite (unfanned_each st f 0 (S (length ms)) m ms eq_refl).
    by destruct (settle_uniform overflow_checks h d st (m :: ms)).
  - rewrite fanned_each by done. unfold new_fan. destruct f; cbn -[settle_fanned]; by destruct (settle_fanned _ _ _ _ _ _ ms).
Qed.
End lowering.

(** ** What the elements of a uniform outcome report *)

Section reports.
Context (overflow_checks : bool) (h : Settle.Host) (d : RetryDeclaration).
(** What comes of a copy that waits, once it is due. *)
Context (later : Settle.Event -> option Work).

Definition waits (e : Settle.Event) : bool :=
  match e with Settle.Waits _ _ _ | Settle.KeptArm _ _ _ => true | _ => false end.

(** The store answers what it was handed, at once or when the copy is due. *)
Record reports_back : Prop := {
  kept_answers k : Settle.copy_path h = Some (Settle.Kept k) ->
    (forall record to r, is_answer r (Settle.send_now k record to r)) /\
    (forall to r, is_answer r (Settle.send_spilled k to r)) /\
    (forall bytes_ hs r, is_answer r (Settle.full k bytes_ hs r));
  later_answers e r : Settle.fits h e -> waits e = true -> Settle.carries e r -> is_answer r (later e);
}.

(** The works a settlement leads to in the end, and what they report to the gathering [g]. *)
Definition eventual (t : list Settle.Event) : list Work := Settle.works t ++ omap later (List.filter waits t).
Definition report_of (g : nat) (w : Work) : option (option (nat * Failed)) :=
  match w with
  | Then (SentPart g') => if g' =? g then Some None else None
  | OnError (Part g' i) fs => if g' =? g then Some ((fun f => (i, f)) <$> head fs) else None
  | _ => None
  end.
Definition reports (g : nat) (ev : list Event) : list (option (nat * Failed)) :=
  flat_map (fun e => match e with Settles _ _ t => omap (report_of g) (eventual t) | _ => [] end) ev.

Definition part (g i : nat) : Reaction := mk_reaction (Part g i) (Some (SentPart g)).

Lemma answer_reports g i w : is_answer (Some (part g i)) w ->
  exists rep, omap (report_of g) (option_list w) = [rep] /\ forall f, rep = Some f -> f.1 = i.
Proof.
  intros [->|(e & m & ->)]; cbn; rewrite Nat.eqb_refl.
  - exists None. by split.
  - eexists. split; [done|]. by intros f [= <-].
Qed.

Lemma waiting_copies t : List.filter waits t = List.filter waits (Settle.copies t).
Proof.
  unfold Settle.copies. induction t as [|e t IH]; [done|]. by destruct e; cbn; rewrite IH.
Qed.

Lemma part_reports_once g i m o s : reports_back ->
  Settle.settle_reacting overflow_checks h d m o (Some (part g i)) = Some s ->
  exists rep, omap (report_of g) (eventual (Settle.trace s)) = [rep] /\ forall f, rep = Some f -> f.1 = i.
Proof.
  intros [Hkept Hlater] Hrun. pose proof (Settle.settled_reacting overflow_checks h d m o (Some (part g i))) as Hs.
  rewrite Hrun in Hs. destruct Hs as (_ & ev & left_ & [_ Hcopy _] & ->). unfold eventual.
  set (tail := option_list _).
  assert (Ht : Settle.copies (ev ++ tail) = Settle.copies ev /\ Settle.works (ev ++ tail) = Settle.works ev ++ Settle.works tail).
  { unfold Settle.copies, Settle.works. rewrite List.filter_app, omap_app. split; [|done].
    subst tail. destruct (left_ ≫= into_then); cbn; by rewrite app_nil_r. }
  destruct Ht as [Hc Hw]. rewrite waiting_copies, Hc, Hw.
  destruct Hcopy as [(-> & Hl & ->)|(e & pre & post & -> & Hl & [Hcar Hfit] & -> & _)]; subst tail; rewrite Hl; cbn -[report_of].
  - apply (answer_reports g i (Some (Then (SentPart g)))). by left.
  - rewrite app_nil_r. destruct (waits e) eqn:Hwt; cbn -[report_of].
    + assert (Settle.follow h e (Some (part g i)) = None) as -> by (destruct e; try done; by destruct (Settle.copy_path h) as [[]|]).
      specialize (Hlater e (Some (part g i)) Hfit Hwt Hcar). cbn -[report_of].
      replace (match later e with Some y => [y] | None => [] end) with (option_list (later e)) by (by destruct (later e)).
      by apply answer_reports.
    + rewrite app_nil_r. apply answer_reports. unfold Settle.fits in Hfit. unfold Settle.follow.
      destruct (Settle.copy_path h) as [[rt|k]|] eqn:Hp; destruct e; try done.
      * apply copy_sent_answers.
      * apply (Hkept k eq_refl).
      * apply (Hkept k eq_refl).
      * apply (Hkept k eq_refl).
Qed.

Lemma reports_app g a b : reports g (a ++ b) = reports g a ++ reports g b.
Proof. apply flat_map_app. Qed.

Lemma fanned_reports g st i index last ms ev : reports_back ->
  settle_fanned overflow_checks h d (mk_uniform st (Gathers (mk_fan g i))) index last ms = Some ev ->
  length (reports g ev) = length ms /\ NoDup (failed_of (reports g ev)).*1 /\ detached ev = [] /\
  forall j, j ∈ (failed_of (reports g ev)).*1 -> i <= j.
Proof.
  intros Hback. revert i index ev. induction ms as [|m ms IH]; intros i index ev.
  - intros [= <-]. split_and!; [done|constructor|done|]. intros j Hj. by apply not_elem_of_nil in Hj.
  - intros Hrun. cbn [settle_fanned] in Hrun. unfold element, settle_element in Hrun.
    cbn -[settle_fanned Settle.settle_reacting] in Hrun. fold (part g i) in Hrun.
    destruct (Settle.settle_reacting _ _ _ m st _) as [s|] eqn:Hs; [|done]. cbn -[settle_fanned] in Hrun.
    destruct (settle_fanned _ _ _ _ (S index) last ms) as [rest|] eqn:Hr; [|done]. cbn in Hrun. injection Hrun as <-.
    destruct (IH (S i) (S index) rest Hr) as (Hlen & Hnd & Hdet & Hge).
    destruct (part_reports_once g i m st s Hback Hs) as (rep & Hrep & Hi).
    change (reports g (Settles m st (Settle.trace s) :: rest)) with
      (omap (report_of g) (eventual (Settle.trace s)) ++ reports g rest).
    rewrite Hrep. cbn [app length]. split; [by rewrite Hlen|]. destruct rep as [f|]; cbn.
    + rewrite (Hi f eq_refl). split_and!; [|done|].
      * apply NoDup_cons. split; [|exact Hnd]. intros Hin%Hge. lia.
      * intros j [->|Hj%Hge]%elem_of_cons; lia.
    + split_and!; [exact Hnd|done|]. intros j Hj%Hge. lia.
Qed.

(** The [.error] of a uniform outcome runs once for the batch.  Every delivery of the batch
    reports the publish made for it, once, at its settlement or when its copy is due, to the one
    gathering; and in whatever order the reports arrive, all but the last run nothing, and the last
    runs the [.error] exactly when some copy failed, with every failure in the batch's order, and
    the follow-up exactly when some element succeeded.  The settlement itself starts no follow-up. *)
Theorem uniform_error_runs_once g ms o st x aft ev arrived :
  reports_back -> into_parts o = (st, aft, Some x) -> ms <> [] ->
  settle_batch overflow_checks h d g ms (Uniform o) = Some ev -> arrived ≡ₚ reports g ev ->
  length arrived = length ms /\ detached ev = [] /\
  exists s final,
    report_all (gather (length ms) x aft) arrived = Some (s, replicate (length ms - 1) None ++ [Some final]) /\
    final_error final = match failed_of arrived with
                        | [] => None
                        | fs => Some (x, (merge_sort by_index fs).*2)
                        end /\
    final_after final = (if succeeded arrived then aft else None).
Proof.
  intros Hback Ho Hne Hrun Hp. unfold settle_batch, settle_lent_batch in Hrun. rewrite Ho in Hrun.
  replace (new_fan g _) with (mk_uniform st (Gathers (mk_fan g 0))) in Hrun by (unfold new_fan; by destruct aft).
  destruct (fanned_reports _ _ _ _ _ _ _ Hback Hrun) as (Hlen & Hnd & Hdet & _).
  assert (Hl : length arrived = length ms) by (by rewrite Hp). split; [done|]. split; [done|].
  destruct ms as [|m ms]; [done|]. cbn [length] in *.
  destruct (gather_runs_once (length ms) x aft arrived (reports g ev) Hl Hp) as (s & _ & final & Hs & _ & He & Ha & _).
  { unfold failed_of in *. by rewrite Hp. }
  exists s, final. replace (S (length ms) - 1) with (length ms) by lia. by split_and!.
Qed.
End reports.

(** A host that publishes its copies answers each of them. *)
Definition published_later (rt : Settle.RetryRoute) (e : Settle.Event) : option Work :=
  match e with Settle.Waits _ c r => Settle.republish rt c r | _ => None end.

Lemma published_reports_back h rt :
  Settle.copy_path h = Some (Settle.Published rt) -> reports_back h (published_later rt).
Proof.
  intros Hp. split; [intros k Hk; congruence|]. intros e r Hf Hw Hc. unfold Settle.fits in Hf. rewrite Hp in Hf.
  destruct e; try done. cbn in Hc. subst. apply copy_sent_answers.
Qed.

(** ** Witnesses: three deliveries, the second of which does not decode *)

#[local] Existing Instances Hooks.Heap.heap_hooks Hooks.Heap.heap_lawful.

Definition ex_empty : Settle.Msg := Settle.mk_msg [] Headers.HeaderMap.new None false Settle.accepts.
Definition ex_batch : list Settle.Msg := [Settle.first_delivery; ex_empty; Settle.first_delivery].
Definition ex_decode (m : Settle.Msg) : result nat string :=
  match Settle.msg_payload m with [] => Err "empty" | l => Ok (length l) end.
Definition ex_body (values : list nat) : HandledBatch := Answers (PerElement [ack; retry_after 5]).
Definition ex_hooks : list Hooks.AfterHook := [Hooks.hook_of (Hooks.AfterSettle (OwnThen 1))].
Definition ex_run (lane : Lane) : option (list Event * list Settle.Msg) :=
  run_batch true Settle.publishing_host Settle.capped (fun _ => None) ex_decode ex_body "no value" "orders" PolicyDrop 0
    FailFast ex_hooks lane [7] ex_batch.

Lemma batch_settles_each_once_witness :
  exists ev, ex_run Constructed = Some (ev, []) /\
    settled ev ≡ₚ [(ex_empty, Nack false); (Settle.first_delivery, Ack); (Settle.first_delivery, NackAfter 5)].
Proof.
  pose proof (batch_settles_each_once true Settle.publishing_host Settle.capped (fun _ => None) ex_decode ex_body "no value"
    "orders" PolicyDrop 0 (fun _ => True) FailFast ex_hooks Constructed [7] ex_batch I) as H.
  change (run_batch _ _ _ _ _ _ _ _ _ _ _ _ _ _ _) with (ex_run Constructed) in H.
  destruct (ex_run Constructed) as [[ev dropped]|] eqn:E; [|vm_compute in E; discriminate E].
  destruct H as (_ & _ & Hs & ->). exists ev. split; [reflexivity|exact Hs].
Defined.

Definition ex_outcome : HandlerOutcome := error_hook (and_after (retry_after 5) (OwnThen 2)) (OwnHook 9).

Lemma lowering_is_faithful_witness :
  exists ev, settle_batch true Settle.publishing_host Settle.capped 0 ex_batch 
      (PerElement (uniform_batch 0 ex_outcome (length ex_batch))) = Some ev /\
    settle_batch true Settle.publishing_host Settle.capped 0 ex_batch (Uniform ex_outcome) = Some ev.
Proof.
  rewrite (lowering_is_faithful true Settle.publishing_host Settle.capped 0 ex_batch ex_outcome) by discriminate.
  destruct (settle_batch _ _ _ _ _ _) as [ev|] eqn:E; [|vm_compute in E; discriminate E].
  by exists ev.
Defined.

Lemma uniform_error_runs_once_witness :
  exists ev, settle_batch true Settle.publishing_host Settle.capped 0 ex_batch (Uniform ex_outcome) = Some ev /\
    length (reports (published_later Settle.route) 0 ev) = 3 /\
    exists s final, report_all (gather 3 (OwnHook 9) (Some (OwnThen 2))) (reports (published_later Settle.route) 0 ev) =
      Some (s, [None; None; Some final]) /\ final_after final = Some (OwnThen 2).
Proof.
  destruct (settle_batch true Settle.publishing_host Settle.capped 0 ex_batch (Uniform ex_outcome)) as [ev|] eqn:E;
    [|vm_compute in E; discriminate E].
  exists ev. split; [reflexivity|].
  destruct (uniform_error_runs_once true Settle.publishing_host Settle.capped (published_later Settle.route) 0 ex_batch ex_outcome
    (NackAfter 5) (OwnHook 9) (Some (OwnThen 2)) ev (reports (published_later Settle.route) 0 ev)
    (published_reports_back Settle.publishing_host Settle.route eq_refl) eq_refl ltac:(discriminate) E (Permutation_refl _)) as (Hl & _ & s & final & Hr & _ & Ha).
  split; [exact Hl|]. exists s, final. split; [exact Hr|]. rewrite Ha. vm_compute in E. injection E as <-. reflexivity.
Defined.
End Batch.
