(* ===== verification/FixedFailure.v ===== *)
(** * A publish that failed, in a build without a heap
    ([crates/runtime/src/publish_failure/fixed.rs], [runtime/src/batch.rs],
    [runtime/src/batch/settle.rs], [runtime-embassy/src/copies.rs])

    Without [alloc] the failures of a delivery wait in its worker's [FailureSlot], those of a
    uniform batch outcome in the one [BatchFan] of its mount, and the copy driver hands its reports
    over a one-place [Handoff].  The file models all three with what lowers an outcome onto them,
    shows that a batch's outcome hears what the heap's build would tell it ([PublishFailure]), and
    that the one fan of a mount never strands the batch that waits for it.  A closure's run is an
    event with two ends, since the fan stays busy between them. *)
From Stdlib Require Import Ascii String.
From stdpp Require Import sorting.
From S2P Require Import Prelude RustStd Headers Outcome PublishFailure Hooks Settle Dispatch Batch.

Module Slot.
Import PublishFailure Outcome.

(** ** The worker's slot; [ELEMENTS] is its size *)

(** [ErrorHook]: the closure, and whether a uniform outcome's elements share it. *)
Record FixedHook := mk_hook { closure : nat; shared : bool }.
Definition new_hook (closure : nat) : FixedHook := mk_hook closure false.
Definition as_shared (h : FixedHook) : FixedHook := mk_hook (closure h) true.
Definition is_shared (h : FixedHook) : bool := shared h.
#[export] Instance FixedHook_eq_dec : EqDecision FixedHook.
Proof. solve_decision. Defined.

Record FailureSlot := mk_slot { failures : list Failed; hook : option FixedHook }.
Definition new_slot : FailureSlot := mk_slot [] None.
Definition is_pending (s : FailureSlot) : bool := match hook s with Some _ => true | None => false end.

Section slot.
Context (ELEMENTS : nat).

(** [heapless::Vec::push]; [None] where the buffer is full. *)
Definition push {A} (x : A) (l : list A) : option (list A) :=
  if length l <? ELEMENTS then Some (l ++ [x]) else None.

Fixpoint push_all (l more : list Failed) : option (list Failed) :=
  match more with
  | [] => Some l
  | x :: more => l ← push x l; push_all l more
  end.

(** [FailureSlot::park]; [None] is either panic. *)
Definition park (s : FailureSlot) (h : FixedHook) (lost : list Failed) : option FailureSlot :=
  match hook s with
  | Some _ => None
  | None => l ← push_all (failures s) lost; Some (mk_slot l (Some h))
  end.

(** [FailureSlot::react]: what the closure reads, and the slot once it is done. *)
Definition react (s : FailureSlot) : option (FixedHook * list Failed) * FailureSlot :=
  ((fun h => (h, failures s)) <$> hook s, mk_slot [] None).

(** [Share] and [Reaction]. *)
Inductive Reaction :=
  | Whole (error : FixedHook) (then_ : option Continuation)
  | Part (index : nat).

Definition part_index (r : Reaction) : option nat :=
  match r with Part index => Some index | Whole _ _ => None end.

Inductive Unpublished :=
  | UThen (after : option Continuation)
  | UPart (index : nat).
Definition into_unpublished (r : Reaction) : Unpublished :=
  match r with Whole _ then_ => UThen then_ | Part index => UPart index end.

Definition succeeded (r : Reaction) : option Continuation :=
  match r with Whole _ then_ => then_ | Part _ => None end.

Definition failed (r : Reaction) (e : BoxError) (m : FailedMessage) (s : FailureSlot) : option FailureSlot :=
  match r with Whole error _ => park s error [mk_failed e m] | Part _ => Some s end.
Definition failed_all (r : Reaction) (lost : list Failed) (s : FailureSlot) : option FailureSlot :=
  match r with Whole error _ => park s error lost | Part _ => Some s end.

Definition publish_done (r : option Reaction) : option Continuation := r ≫= succeeded.

(** [publish_lost]: the slot, and whether the message was lost with only a warning. *)
Definition publish_lost (r : option Reaction) (e : BoxError) (s : FailureSlot) (m : FailedMessage)
  : option (FailureSlot * bool) :=
  match r with
  | None | Some (Part _) => Some (s, true)
  | Some r => (fun s => (s, false)) <$> failed r e m s
  end.

Lemma push_first {A} (x : A) : 0 < ELEMENTS -> push x [] = Some [x].
Proof. intros H. unfold push. cbn [length]. by rewrite (proj2 (Nat.ltb_lt _ _) H). Qed.

Lemma push_all_spec l more :
  length l <= ELEMENTS ->
  push_all l more = if decide (length l + length more <= ELEMENTS) then Some (l ++ more) else None.
Proof.
  revert l. induction more as [|x more IH]; intros l Hl; simpl.
  - rewrite decide_True by lia. by rewrite app_nil_r.
  - unfold push. destruct (Nat.ltb_spec (length l) ELEMENTS) as [H|H]; simpl.
    + rewrite IH by (rewrite length_app; simpl; lia). rewrite length_app, <- app_assoc. simpl.
      repeat case_decide; try done; lia.
    + rewrite decide_False by lia. done.
Qed.

(** One delivery's publish, on its worker's slot, and the closure run after the settle. *)
Definition one_publish (r : Reaction) (res : result unit (BoxError * FailedMessage))
  : option (option Continuation * option (FixedHook * list Failed) * FailureSlot) :=
  match res with
  | Ok _ => let (told, s) := react new_slot in Some (publish_done (Some r), told, s)
  | Err (e, m) =>
      '(s, _) ← publish_lost (Some r) e new_slot m;
      let (told, s) := react s in Some (None, told, s)
  end.

(** The heap's answer to the same publish, for a closure that is not a part. *)
Definition heap_answer (h : FixedHook) (then_ : option Continuation)
  (res : result unit (BoxError * FailedMessage)) : option Work :=
  let r := Some (mk_reaction (OwnHook (closure h)) then_) in
  match res with
  | Ok _ => PublishFailure.publish_done r
  | Err (e, m) => PublishFailure.publish_lost r e m
  end.

Definition as_work (after : option Continuation) (told : option (FixedHook * list Failed)) : option Work :=
  match after, told with
  | Some c, _ => Some (Then c)
  | None, Some (h, fs) => Some (OnError (OwnHook (closure h)) fs)
  | None, None => None
  end.
End slot.

(** ** Properties *)

(** The slot of a single delivery tells its closure exactly what the heap's build would: nothing
    and the follow-up after a publish that went out, the one failure and no follow-up after one
    that did not.  It never panics and is empty for the next delivery. *)
Theorem slot_answers_as_the_heap ELEMENTS (h : FixedHook) then_ res :
  0 < ELEMENTS ->
  exists after told, one_publish ELEMENTS (Whole h then_) res = Some (after, told, new_slot) /\
    as_work after told = heap_answer h then_ res /\
    (is_ok res = false -> after = None /\ exists f, told = Some (h, [f])) /\
    (is_ok res = true -> told = None /\ after = then_).
Proof.
  intros Hn. destruct res as [u|[e m]]; unfold one_publish, heap_answer; cbn -[push].
  - exists then_, None. split_and!; [done|by destruct then_|done|done].
  - rewrite push_first by done. cbn. eexists None, _. split_and!; [done|done| |done]. intros _. split; [done|]. by eexists.
Qed.

(** The slot of a batch's lost replies holds all of them for one call of the closure as long as
    they are no more than the mount's size, and panics exactly where they are. *)
Lemma lost_replies_fit ELEMENTS (h : FixedHook) then_ lost :
  failed_all ELEMENTS (Whole h then_) lost new_slot =
  if decide (length lost <= ELEMENTS) then Some (mk_slot lost (Some h)) else None.
Proof.
  unfold failed_all, park. simpl. rewrite push_all_spec by (simpl; lia). simpl. by case_decide.
Qed.

Lemma slot_answers_as_the_heap_witness :
  exists after told, one_publish 1 (Whole (new_hook 3) (Some (OwnThen 9))) (Err ("down"%string, mk_failed_message "d3" None HeaderMap.new))
    = Some (after, told, new_slot) /\ after = None.
Proof.
  destruct (slot_answers_as_the_heap 1 (new_hook 3) (Some (OwnThen 9))
    (Err ("down"%string, mk_failed_message "d3" None HeaderMap.new)) ltac:(lia)) as (a & t & H & _ & H1 & _).
  exists a, t. split; [exact H|]. apply (H1 eq_refl).
Defined.
End Slot.

Module Fan.
Import PublishFailure Outcome Slot.

(** ** The fan of a mount: what one uniform outcome has gathered, and who waits for it *)

Record Gathered := mk_gathered {
  error : option FixedHook;
  then_ : option Continuation;
  failures : list Failed;
  order : list nat;
  pending : nat;
  sent : bool;
}.
Record BatchFan := mk_fan { state : Gathered; busy : bool; waiting : option nat }.
Definition new : BatchFan := mk_fan (mk_gathered None None [] [] 0 false) false None.

(** What an element reports: a publish that went out or none, or the error and the message. *)
Abbreviation Reported := (result unit (BoxError * FailedMessage)).
(** What a last report runs: the closure on the failures, and the follow-up beside it. *)
Record Tells := mk_tells { told : option (FixedHook * list Failed); follow : option Continuation }.

Section fan.
Context (ELEMENTS : nat).

(** One poll of [begin] by the task [waker]; whether it took the outcome. *)
Definition begin_poll (waker : nat) (hook : FixedHook) (aft : option Continuation) (elements : nat) (f : BatchFan)
  : BatchFan * bool :=
  if busy f then (mk_fan (state f) true (Some waker), false)
  else (mk_fan (mk_gathered (Some hook) aft (failures (state f)) (order (state f)) elements false) true (waiting f), true).

(** [heapless::Vec::insert], its refusal of a full buffer ignored. *)
Definition vec_insert {A} (at_ : nat) (x : A) (l : list A) : list A :=
  if length l <? ELEMENTS then firstn at_ l ++ x :: skipn at_ l else l.

(** [report] up to the last element's closure: what the element adds, then its count. *)
Definition note (g : Gathered) (index : nat) (outcome : Reported) : Gathered :=
  match outcome with
  | Ok _ => mk_gathered (error g) (then_ g) (failures g) (order g) (pending g - 1) true
  | Err (e, m) =>
      let at_ := default (length (order g)) (position (fun earlier => index <? earlier) (order g)) in
      mk_gathered (error g) (then_ g) (vec_insert at_ (mk_failed e m) (failures g)) (vec_insert at_ index (order g))
        (pending g - 1) (sent g)
  end.

(** What the last report takes, and what the closure reads in the fan's buffer. *)
Definition reads (hook : option FixedHook) (fs : list Failed) : option (FixedHook * list Failed) :=
  match fs with [] => None | _ => (fun h => (h, fs)) <$> hook end.
Definition take_tells (g : Gathered) : Tells * Gathered :=
  (mk_tells (reads (error g) (failures g)) (if sent g then then_ g else None),
   mk_gathered None None (failures g) (order g) (pending g) (sent g)).

Definition report (f : BatchFan) (index : nat) (outcome : Reported) : BatchFan * option Tells :=
  let g := note (state f) index outcome in
  if pending g =? 0
  then let (tells, g) := take_tells g in (mk_fan g (busy f) (waiting f), Some tells)
  else (mk_fan g (busy f) (waiting f), None).

(** The end of the closure: the buffers are cleared and the fan freed; the waker it wakes. *)
Definition react_done (f : BatchFan) : BatchFan * option nat :=
  let g := state f in
  (mk_fan (mk_gathered (error g) (then_ g) [] [] (pending g) (sent g)) false None, waiting f).

(** ** What the heap's build would tell *)

Definition heap_report (r : nat * Reported) : option (nat * Failed) :=
  match r.2 with Ok _ => None | Err (e, m) => Some (r.1, mk_failed e m) end.
Definition as_final (t : Tells) : Final :=
  mk_final ((fun p => (OwnHook (closure p.1), p.2)) <$> told t) (follow t).
Definition heap_tells (h : FixedHook) (aft : option Continuation) (reports : list (nat * Reported)) : option Final :=
  match PublishFailure.report_all (gather (length reports) (OwnHook (closure h)) aft) (heap_report <$> reports) with
  | Some (_, fs) => last fs ≫= id
  | None => None
  end.
Definition fixed_tells (h : FixedHook) (aft : option Continuation) (reports : list (nat * Reported)) : Tells :=
  let fs := failed_of (heap_report <$> reports) in
  mk_tells (reads (Some h) (merge_sort by_index fs).*2)
    (if PublishFailure.succeeded (heap_report <$> reports) then aft else None).

Lemma heap_tells_spec h aft reports :
  reports <> [] -> heap_tells h aft reports = Some (as_final (fixed_tells h aft reports)).
Proof.
  intros Hne. unfold heap_tells. destruct reports as [|r rest] eqn:Hr; [done|]. rewrite <- Hr in *.
  replace (length reports) with (S (length rest)) by (by subst).
  destruct (report_all_spec (heap_report <$> reports) (length rest) [] false (OwnHook (closure h)) aft) as (g & Hg & _).
  { subst. by rewrite length_fmap. }
  unfold gather. rewrite Hg, last_snoc. unfold as_final, fixed_tells. cbn -[merge_sort failed_of PublishFailure.succeeded fmap].
  do 2 f_equal. destruct (failed_of (heap_report <$> reports)) as [|f l] eqn:Hl.
  - done.
  - unfold reads. destruct ((merge_sort by_index (f :: l)).*2) eqn:Hm; [|done].
    apply fmap_nil_inv in Hm. assert (Hp : merge_sort by_index (f :: l) ≡ₚ f :: l) by apply merge_sort_Permutation.
    rewrite Hm in Hp. by apply Permutation_nil_cons in Hp.
Qed.
(** ** The buffers hold the failures in the batch's order *)

Lemma by_index_trans : Transitive by_index.
Proof. intros a b c. unfold by_index. lia. Qed.

(** Where [note] puts a failure, in the sorted list of both buffers. *)
Definition insert_failure (x : nat * Failed) (l : list (nat * Failed)) : list (nat * Failed) :=
  let at_ := default (length l) (position (fun earlier => x.1 <? earlier) l.*1) in firstn at_ l ++ x :: skipn at_ l.

Lemma insert_failure_cons x a l :
  insert_failure x (a :: l) = if x.1 <? a.1 then x :: a :: l else a :: insert_failure x l.
Proof.
  unfold insert_failure. cbn [fmap list_fmap position]. destruct (x.1 <? a.1); [done|].
  by destruct (position _ l.*1).
Qed.

Lemma insert_failure_permutes x l : insert_failure x l ≡ₚ x :: l.
Proof.
  induction l as [|a l IH]; [done|]. rewrite insert_failure_cons. case_match; [done|]. rewrite IH. apply perm_swap.
Qed.

Lemma insert_failure_sorted x l : StronglySorted by_index l -> StronglySorted by_index (insert_failure x l).
Proof.
  induction l as [|a l IH]; intros Hs; [repeat constructor|]. rewrite insert_failure_cons.
  apply StronglySorted_inv in Hs as [Hs Ha]. destruct (Nat.ltb_spec x.1 a.1) as [Hlt|Hge].
  - constructor; [by constructor|]. constructor; [unfold by_index; lia|].
    apply (Forall_impl _ _ _ Ha). intros b Hb. unfold by_index in *. lia.
  - constructor; [by apply IH|]. rewrite insert_failure_permutes. constructor; [unfold by_index; lia|done].
Qed.

Lemma sorted_is_the_sort (l k : list (nat * Failed)) :
  NoDup k.*1 -> StronglySorted by_index l -> l ≡ₚ k -> l = merge_sort by_index k.
Proof.
  intros Hn Hs Hp.
  pose proof by_index_trans. assert (Total by_index) by (intros a b; unfold by_index; lia).
  apply (StronglySorted_unique_strong by_index); [|done|by apply StronglySorted_merge_sort|by rewrite merge_sort_Permutation].
  intros a b Ha Hb Hab Hba. rewrite merge_sort_Permutation, <- Hp in Hb.
  apply list_elem_of_lookup in Ha as (i & Hi). apply list_elem_of_lookup in Hb as (j & Hj).
  assert (i = j) as ->; [|congruence]. rewrite <- Hp in Hn. eapply (NoDup_lookup l.*1); [done| |].
  - rewrite list_lookup_fmap, Hi. done.
  - rewrite list_lookup_fmap, Hj. simpl. f_equal. unfold by_index in *. lia.
Qed.

(** What the fan holds once [reports] have come in. *)
Record gathers (reports : list (nat * Reported)) (g : Gathered) : Prop := {
  g_buffers : exists l, order g = l.*1 /\ failures g = l.*2 /\ StronglySorted by_index l /\
    l ≡ₚ failed_of (heap_report <$> reports);
  g_sent : sent g = PublishFailure.succeeded (heap_report <$> reports);
}.

Lemma failed_of_snoc reports i r :
  failed_of (heap_report <$> (reports ++ [(i, r)])) =
    failed_of (heap_report <$> reports) ++ option_list (heap_report (i, r)).
Proof. unfold failed_of. rewrite fmap_app, omap_app. simpl. by destruct (heap_report (i, r)). Qed.

Lemma succeeded_snoc reports i r :
  PublishFailure.succeeded (heap_report <$> (reports ++ [(i, r)])) =
    PublishFailure.succeeded (heap_report <$> reports) || is_ok r.
Proof.
  unfold PublishFailure.succeeded. rewrite fmap_app, existsb_app. f_equal. by destruct r as [|[e m]].
Qed.

Lemma failed_indices reports i : i ∈ (failed_of (heap_report <$> reports)).*1 -> i ∈ reports.*1.
Proof.
  intros Hi. apply list_elem_of_fmap in Hi as (f & -> & Hf). apply list_elem_of_omap in Hf as (o & Ho & Hf).
  apply list_elem_of_fmap in Ho as (r & -> & Hr). apply list_elem_of_fmap. exists r. split; [|done].
  unfold heap_report in Hf. destruct r as [j [|[e m]]]; naive_solver.
Qed.

Lemma failed_nodup reports : NoDup reports.*1 -> NoDup (failed_of (heap_report <$> reports)).*1.
Proof.
  induction reports as [|[i r] reports IH]; intros Hn; [constructor|]. apply NoDup_cons in Hn as [Hi Hn].
  unfold failed_of. cbn. destruct r as [|[e m]]; simpl; [by apply IH|]. constructor; [|by apply IH].
  intros Hf. apply Hi. by apply failed_indices.
Qed.

Lemma failed_length reports : length (failed_of (heap_report <$> reports)) <= length reports.
Proof.
  induction reports as [|[i r] reports IH]; [done|]. unfold failed_of in *. destruct r as [|[e m]]; unfold fmap, omap in *; simpl; lia.
Qed.

Lemma note_gathers reports g i r :
  gathers reports g -> length reports < ELEMENTS -> gathers (reports ++ [(i, r)]) (note g i r).
Proof.
  intros [(l & Ho & Hf & Hs & Hp) Hsent] Hlen. split; [|rewrite succeeded_snoc, <- Hsent].
  - rewrite failed_of_snoc. destruct r as [u|[e m]]; cbn [note order failures heap_report snd fst option_list].
    + exists l. by rewrite app_nil_r.
    + exists (insert_failure (i, mk_failed e m) l).
      assert (Hl : length l < ELEMENTS).
      { rewrite (Permutation_length Hp). pose proof (failed_length reports). lia. }
      unfold vec_insert, insert_failure. rewrite Ho, Hf, !length_fmap, (proj2 (Nat.ltb_lt _ _) Hl).
      rewrite !fmap_app, !fmap_cons, !fmap_take, !fmap_drop. split_and!; [done|done|by apply insert_failure_sorted|].
      etrans; [apply (insert_failure_permutes (i, mk_failed e m))|]. rewrite Hp. apply Permutation_cons_append.
  - destruct r as [u|[e m]]; simpl; by rewrite ?orb_true_r, ?orb_false_r.
Qed.

(** The last report tells what the heap's build would. *)
Lemma take_tells_spec reports g h aft :
  gathers reports g -> NoDup reports.*1 -> error g = Some h -> then_ g = aft ->
  (take_tells g).1 = fixed_tells h aft reports.
Proof.
  intros [(l & Ho & Hf & Hs & Hp) Hsent] Hn He Ht. unfold take_tells, fixed_tells. simpl.
  rewrite He, Ht, Hsent, Hf. by rewrite <- (sorted_is_the_sort l _ (failed_nodup _ Hn) Hs Hp).
Qed.

Lemma note_pending g i r : pending (note g i r) = pending g - 1.
Proof. by destruct r as [|[e m]]. Qed.
Lemma note_keeps g i r : error (note g i r) = error g /\ then_ (note g i r) = then_ g.
Proof. by destruct r as [|[e m]]. Qed.
(** ** The mount: a worker with its batches, the reports of their elements, the closure's run

    The elements of the outcome the fan gathers report in any order, from the worker or the copy
    driver.  The worker comes back with the next outcome at any time, and sleeps in [begin] while
    the fan is busy; [task] is its waker. *)

Context (task : nat).

Record Handed := mk_outcome { hook : FixedHook; aft : option Continuation; elements : nat }.

Record World := mk_world {
  fan : BatchFan;
  running : bool;
  asleep : option Handed;
  woken : bool;
  (** The outcome the fan gathers with its reports so far, the outcomes before it, and what ran. *)
  current : option (Handed * list (nat * Reported));
  finished : list (Handed * list (nat * Reported));
  heard : list Tells;
}.
Definition start : World := mk_world new false None false None [] [].

Definition hands_over (o : Handed) (w : World) : World :=
  let (f, taken) := begin_poll task (hook o) (aft o) (elements o) (fan w) in
  if taken then mk_world f (running w) None false (Some (o, [])) (finished w) (heard w)
  else mk_world f (running w) (Some o) false (current w) (finished w) (heard w).

Definition reports_in (i : nat) (r : Reported) (o : Handed) (reports : list (nat * Reported)) (w : World) : World :=
  let (f, t) := report (fan w) i r in
  mk_world f (match t with Some _ => true | None => running w end) (asleep w) (woken w)
    (Some (o, reports ++ [(i, r)])) (finished w) (heard w ++ option_list t).

Definition frees (w : World) : World :=
  let (f, waker) := react_done (fan w) in
  mk_world f false (asleep w) (match waker with Some t => (t =? task) || woken w | None => woken w end)
    None (finished w ++ option_list (current w)) (heard w).

Inductive step : World -> World -> Prop :=
  | step_begin w o : asleep w = None -> 0 < elements o <= ELEMENTS -> step w (hands_over o w)
  | step_poll w o : asleep w = Some o -> step w (hands_over o w)
  | step_report w o reports i r :
      current w = Some (o, reports) -> i < elements o -> i ∉ reports.*1 -> step w (reports_in i r o reports w)
  | step_freed w : running w = true -> step w (frees w).

Inductive reachable : World -> Prop :=
  | reach_start : reachable start
  | reach_step w w' : reachable w -> step w w' -> reachable w'.

Definition heard_of (p : Handed * list (nat * Reported)) : option Final := heap_tells (hook p.1) (aft p.1) p.2.

(** The fan, when it gathers and when it does not. *)
Record gathering (o : Handed) (reports : list (nat * Reported)) (w : World) : Prop := {
  g_busy : busy (fan w) = true;
  g_size : 0 < elements o <= ELEMENTS;
  g_once : NoDup reports.*1;
  g_own : forall i, i ∈ reports.*1 -> i < elements o;
  g_state : gathers reports (state (fan w));
  g_pending : pending (state (fan w)) = elements o - length reports;
  g_running : running w = (length reports =? elements o);
  g_taken : running w = false -> error (state (fan w)) = Some (hook o) /\ then_ (state (fan w)) = aft o;
}.
Record free (w : World) : Prop := {
  f_idle : busy (fan w) = false;
  f_empty : failures (state (fan w)) = [] /\ order (state (fan w)) = [];
  f_none : running w = false;
}.
Record inv (w : World) : Prop := {
  i_fan : match current w with Some (o, reports) => gathering o reports w | None => free w end;
  i_heard : Some ∘ as_final <$> heard w =
    (heard_of <$> finished w) ++ (if running w then heard_of <$> option_list (current w) else []);
  i_asleep : forall o, asleep w = Some o -> 0 < elements o <= ELEMENTS /\
    (if woken w then busy (fan w) = false else busy (fan w) = true /\ waiting (fan w) = Some task);
}.

Lemma fewer_reports (reports : list (nat * Reported)) n :
  NoDup reports.*1 -> (forall i, i ∈ reports.*1 -> i < n) -> length reports <= n.
Proof.
  intros Hn Hi. rewrite <- (length_fmap fst), <- (length_seq n 0). apply submseteq_length, NoDup_submseteq; [done|].
  intros i H. apply elem_of_seq. specialize (Hi i H). lia.
Qed.

Lemma hands_over_inv o w : inv w -> 0 < elements o <= ELEMENTS -> inv (hands_over o w).
Proof.
  intros [Hf Hh Ha] Hsize. unfold hands_over, begin_poll. destruct (busy (fan w)) eqn:Hb.
  - split; simpl; [|done|by intros ? [= <-]]. destruct (current w) as [[o' reports]|]; [by destruct Hf|].
    by destruct Hf as [Hb' _ _]; rewrite Hb in Hb'.
  - destruct (current w) as [[o' reports]|] eqn:Hc; [by destruct Hf as [Hb' _ _ _ _ _ _ _]; rewrite Hb in Hb'|].
    destruct Hf as [_ [Hf1 Hf2] Hr]. rewrite Hr in *. split; simpl; [|done|done].
    split; simpl; [done|done|constructor|by intros i Hi%not_elem_of_nil| |lia|destruct (elements o); [lia|done]|done].
    split; [|done]. exists []. simpl. rewrite Hf1, Hf2. split_and!; [done|done|constructor|done].
Qed.
Lemma one_more (reports : list (nat * Reported)) i r n :
  NoDup reports.*1 -> (forall j, j ∈ reports.*1 -> j < n) -> i < n -> i ∉ reports.*1 ->
  length reports < n /\ NoDup (reports ++ [(i, r)]).*1 /\ forall j, j ∈ (reports ++ [(i, r)]).*1 -> j < n.
Proof.
  intros Hn Hj Hi Hni.
  assert (Hn' : NoDup (reports ++ [(i, r)]).*1).
  { rewrite fmap_app. apply NoDup_app. split_and!; [done| |apply NoDup_singleton].
    intros j Hin Hs%list_elem_of_singleton. subst. done. }
  assert (Hj' : forall j, j ∈ (reports ++ [(i, r)]).*1 -> j < n).
  { intros j. rewrite fmap_app, elem_of_app. intros [Hin| ->%list_elem_of_singleton]; [by apply Hj|done]. }
  split_and!; [|done|done]. pose proof (fewer_reports _ _ Hn' Hj') as H. rewrite length_app in H. simpl in H. lia.
Qed.

Lemma reports_in_inv o reports i r w :
  inv w -> current w = Some (o, reports) -> i < elements o -> i ∉ reports.*1 -> inv (reports_in i r o reports w).
Proof.
  intros [Hf Hh Ha] Hc Hi Hni. rewrite Hc in *. destruct Hf as [Hb Hsize Hn Hj Hg Hp Hr Ht].
  destruct (one_more reports i r _ Hn Hj Hi Hni) as (Hlen & Hn' & Hj').
  assert (Hrun : running w = false) by (rewrite Hr; apply Nat.eqb_neq; lia).
  rewrite Hrun in *. destruct (Ht eq_refl) as [He Hthen]. rewrite app_nil_r in Hh.
  pose proof (note_gathers reports _ i r Hg ltac:(lia)) as Hg'. pose proof (note_keeps (state (fan w)) i r) as [Hk1 Hk2].
  unfold reports_in, report. rewrite note_pending, Hp.
  assert (Hlast : length (reports ++ [(i, r)]) = S (length reports)) by (rewrite length_app; simpl; lia).
  destruct (Nat.eqb_spec (elements o - length reports - 1) 0) as [Hz|Hz].
  - destruct (take_tells (note (state (fan w)) i r)) as [tells g] eqn:Htt.
    pose proof (take_tells_spec (reports ++ [(i, r)]) _ (hook o) (aft o) Hg' Hn' ltac:(congruence) ltac:(congruence)) as Htells.
    rewrite Htt in Htells. simpl in Htells. unfold take_tells in Htt. injection Htt as _ <-.
    split; simpl; [|by rewrite fmap_app, Hh; simpl; unfold heard_of; rewrite heap_tells_spec, Htells by (by destruct reports)|].
    + split; simpl; [done|done|done|done| | |rewrite Hlast; symmetry; apply Nat.eqb_eq; lia|done].
      * destruct Hg' as [Hl Hs]. by split.
      * rewrite note_pending, Hp, Hlast. lia.
    + intros o' Ho'. destruct (Ha o' Ho') as [? Hw]. split; [done|]. by destruct (woken w).
  - split; simpl; [|rewrite Hrun; by rewrite !app_nil_r|].
    + split; simpl; [done|done|done|done|done|rewrite note_pending, Hp, Hlast; lia| |split; congruence].
      rewrite Hrun, Hlast. symmetry. apply Nat.eqb_neq. lia.
    + intros o' Ho'. destruct (Ha o' Ho') as [? Hw]. split; [done|]. by destruct (woken w).
Qed.

Lemma frees_inv w : inv w -> running w = true -> inv (frees w).
Proof.
  intros [Hf Hh Ha] Hr. unfold frees, react_done. rewrite Hr in Hh.
  destruct (current w) as [[o reports]|] eqn:Hc; [|by destruct Hf as [_ _ Hr']; rewrite Hr in Hr'].
  destruct Hf as [Hb Hsize Hn Hj Hg Hp _ Ht].
  split; simpl; [by split|rewrite fmap_app, Hh; simpl; by rewrite app_nil_r|].
  intros o' Ho'. destruct (Ha o' Ho') as [Hs Hw]. split; [done|].
  destruct (woken w); [congruence|]. destruct Hw as [_ ->]. rewrite Nat.eqb_refl. done.
Qed.

Lemma fan_reachable_inv w : reachable w -> inv w.
Proof.
  induction 1 as [|w w' Hw IH Hs].
  - split; [by split|done|done].
  - destruct Hs as [w o Ha Hsize|w o Ha|w o reports i r Hc Hi Hni|w Hr].
    + by apply hands_over_inv.
    + apply hands_over_inv; [done|by apply (i_asleep w IH)].
    + by apply reports_in_inv.
    + by apply frees_inv.
Qed.
(** ** Properties *)

(** C7. The fixed fan of a mount tells every outcome it gathers, in their order and once each, exactly
    what the heap's build would tell: the closure with every failure in the batch's order if some
    element failed, the follow-up if some succeeded.  No outcome's failures reach another's closure
    and the buffers, as large as the batch, never refuse one, however the elements' reports, the
    closures and the next batches interleave. *)
Theorem fan_tells_each_outcome_once (w : World) :
  reachable w ->
  Some ∘ as_final <$> heard w =
    (heard_of <$> finished w) ++ (if running w then heard_of <$> option_list (current w) else []) /\
  (forall o reports, current w = Some (o, reports) ->
     NoDup reports.*1 /\ (forall i, i ∈ reports.*1 -> i < elements o) /\
     length (failures (state (fan w))) = length (failed_of (heap_report <$> reports)) /\
     (running w = true <-> length reports = elements o)) /\
  (current w = None -> failures (state (fan w)) = [] /\ running w = false).
Proof.
  intros Hw. destruct (fan_reachable_inv w Hw) as [Hf Hh _]. split_and!; [done| |].
  - intros o reports Hc. rewrite Hc in Hf. destruct Hf as [_ _ Hn Hj [(l & _ & Hl & _ & Hp) _] _ Hr _].
    split_and!; [done|done| |by rewrite Hr, Nat.eqb_eq].
    by rewrite Hl, length_fmap, Hp.
  - intros Hc. rewrite Hc in Hf. by destruct Hf as [_ [H _] H'].
Qed.

(** C8. The one fan of a mount never strands the batch that waits for it: while the worker sleeps in
    [begin], the fan either was freed and has woken it, and its next poll takes the fan, or an
    element of the earlier outcome still owes its report, or that outcome's closure runs; and the
    end of the closure wakes it. *)
Theorem fan_never_strands_a_batch (w : World) (o : Handed) :
  reachable w -> asleep w = Some o ->
  (if woken w
   then asleep (hands_over o w) = None
   else (exists o' reports i, current w = Some (o', reports) /\ i < elements o' /\ i ∉ reports.*1) \/ running w = true) /\
  (running w = true -> woken (frees w) = true /\ asleep (frees w) = Some o /\ asleep (hands_over o (frees w)) = None).
Proof.
  intros Hw Ho. pose proof (fan_reachable_inv w Hw) as [Hf _ Ha]. destruct (Ha o Ho) as [Hsize Hwoken]. split.
  - destruct (woken w); [by unfold hands_over, begin_poll; rewrite Hwoken|].
    destruct (current w) as [[o' reports]|] eqn:Hc; [|by destruct Hf as [Hb _ _]; destruct Hwoken; congruence].
    destruct Hf as [_ _ Hn Hj _ _ Hr _]. destruct (running w); [by right|left]. symmetry in Hr. apply Nat.eqb_neq in Hr.
    pose proof (fewer_reports _ _ Hn Hj) as Hle.
    destruct (decide (Forall (fun i => i ∈ reports.*1) (seq 0 (elements o')))) as [Hall|Hsome].
    + exfalso. assert (length (seq 0 (elements o')) <= length reports.*1) as Hlen; [|rewrite length_seq, length_fmap in Hlen; lia].
      apply submseteq_length, NoDup_submseteq; [apply NoDup_seq|]. by apply Forall_forall.
    + apply not_Forall_Exists in Hsome; [|apply _]. apply Exists_exists in Hsome as (i & Hi & Hni).
      apply elem_of_seq in Hi. exists o', reports, i. split_and!; [done|lia|done].
  - intros Hr. unfold frees, react_done, hands_over, begin_poll. simpl.
    destruct (woken w) eqn:Hwk; [|by destruct Hwoken as [_ ->]; simpl; rewrite Nat.eqb_refl].
    destruct (current w) as [[o' reports]|]; [|by destruct Hf as [_ _ Hn]; congruence].
    destruct Hf as [Hb _ _ _ _ _ _ _]. congruence.
Qed.
End fan.

Definition ex_outcome (c n : nat) : Handed := mk_outcome (new_hook c) (Some (OwnThen c)) n.
Definition ex_lost (i : nat) : Reported := Err ("down"%string, mk_failed_message "orders" (Some (replicate i "x"%char)) HeaderMap.new).
(** Two failures in reverse order, the next batch waiting since before the second. *)
Definition ex_world : World :=
  let w := hands_over 7 (ex_outcome 1 2) start in
  let w := reports_in 16 1 (ex_lost 1) (ex_outcome 1 2) [] w in
  let w := hands_over 7 (ex_outcome 2 3) w in
  reports_in 16 0 (ex_lost 0) (ex_outcome 1 2) [(1, ex_lost 1)] w.

Lemma ex_world_reachable : reachable 16 7 ex_world.
Proof.
  unfold ex_world.
  eapply reach_step; [|apply step_report; [done|simpl; lia|by intros H%list_elem_of_singleton]].
  eapply reach_step; [|apply step_begin; [done|simpl; lia]].
  eapply reach_step; [|apply step_report; [done|simpl; lia|by apply not_elem_of_nil]].
  eapply reach_step; [|apply step_begin; [done|simpl; lia]]. apply reach_start.
Qed.

Lemma fan_tells_each_outcome_once_witness :
  running ex_world = true /\
  (Some ∘ as_final <$> heard ex_world) = heard_of <$> option_list (current ex_world) /\
  heard ex_world = [mk_tells (Some (new_hook 1, [mk_failed "down" (mk_failed_message "orders" (Some []) HeaderMap.new);
     mk_failed "down" (mk_failed_message "orders" (Some ["x"%char]) HeaderMap.new)])) None].
Proof.
  destruct (fan_tells_each_outcome_once 16 7 ex_world ex_world_reachable) as (H & _).
  split; [reflexivity|]. split; [exact H|reflexivity].
Defined.

Lemma fan_never_strands_a_batch_witness :
  asleep ex_world = Some (ex_outcome 2 3) /\ woken ex_world = false /\ woken (frees 7 ex_world) = true.
Proof.
  destruct (fan_never_strands_a_batch 16 7 ex_world (ex_outcome 2 3) ex_world_reachable eq_refl) as (_ & H).
  split; [reflexivity|]. split; [reflexivity|]. apply (H eq_refl).
Defined.
End Fan.

Module Handoff.

(** ** The driver's reports, handed from its publishing half to its reporting half

    Both halves are joined in the driver's one task [task]: a wake polls both again. *)
Section handoff.
Context {Part : Type} (task : nat).

Record Handoff := mk_handoff { part : option Part; finished : bool; taker : option nat; giver : option nat }.
Definition new : Handoff := mk_handoff None false None None.

(** One poll of [give]: the waker it wakes, and whether [p] was left. *)
Definition give_poll (p : Part) (h : Handoff) : Handoff * option nat * bool :=
  match part h with
  | Some _ => (mk_handoff (part h) (finished h) (taker h) (Some task), None, false)
  | None => (mk_handoff (Some p) (finished h) None (giver h), taker h, true)
  end.

Inductive Taken := Got (p : Part) | Over | Waits.
Definition take_poll (h : Handoff) : Handoff * option nat * Taken :=
  match part h with
  | Some p => (mk_handoff None (finished h) (taker h) None, giver h, Got p)
  | None =>
      if finished h then (h, None, Over)
      else (mk_handoff None (finished h) (Some task) (giver h), None, Waits)
  end.

Definition finish (h : Handoff) : Handoff * option nat :=
  (mk_handoff (part h) true None (giver h), taker h).

(** [publish_due]: waiting for the next copy, handing its report over, ended; and [gather]. *)
Inductive Publishing := Due (todo : list Part) | Giving (p : Part) (todo : list Part) | Published.
Inductive Reporting := Taking | Reports (p : Part) | Ended.

(** A half is parked from a poll that returned [Pending] to the task's next wake. *)
Record World := mk_world {
  handoff : Handoff;
  publishing : Publishing; pub_parked : bool;
  reporting : Reporting; rep_parked : bool;
  reported : list Part;
}.
Definition start (parts : list Part) : World := mk_world new (Due parts) false Taking false [].

Definition woken (waker : option nat) (parked : bool) : bool :=
  match waker with Some t => if t =? task then false else parked | None => parked end.

Definition gives (p : Part) (todo : list Part) (w : World) : World :=
  let '(h, waker, left_) := give_poll p (handoff w) in
  mk_world h (if left_ then Due todo else Giving p todo) (woken waker (negb left_))
    (reporting w) (woken waker (rep_parked w)) (reported w).

Definition takes (w : World) : World :=
  let '(h, waker, t) := take_poll (handoff w) in
  mk_world h (publishing w) (woken waker (pub_parked w))
    (match t with Got p => Reports p | Over => Ended | Waits => Taking end)
    (woken waker (match t with Waits => true | _ => false end))
    (reported w ++ match t with Got p => [p] | _ => [] end).

Definition ends (w : World) : World :=
  let (h, waker) := finish (handoff w) in
  mk_world h Published (woken waker false) (reporting w) (woken waker (rep_parked w)) (reported w).

Inductive step : World -> World -> Prop :=
  | step_due w p todo : publishing w = Due (p :: todo) ->
      step w (mk_world (handoff w) (Giving p todo) false (reporting w) (rep_parked w) (reported w))
  | step_give w p todo : publishing w = Giving p todo -> pub_parked w = false -> step w (gives p todo w)
  | step_finish w : publishing w = Due [] -> step w (ends w)
  | step_take w : reporting w = Taking -> rep_parked w = false -> step w (takes w)
  | step_reported w p : reporting w = Reports p ->
      step w (mk_world (handoff w) (publishing w) (pub_parked w) Taking false (reported w)).

Inductive reachable (parts : list Part) : World -> Prop :=
  | reach_start : reachable parts (start parts)
  | reach_step w w' : reachable parts w -> step w w' -> reachable parts w'.

(** What is still to be taken, in order. *)
Definition to_come (w : World) : list Part :=
  option_list (part (handoff w)) ++
  match publishing w with Due todo => todo | Giving p todo => p :: todo | Published => [] end.

Record inv (parts : list Part) (w : World) : Prop := {
  i_order : reported w ++ to_come w = parts;
  i_finished : finished (handoff w) = true <-> publishing w = Published;
  i_ended : reporting w = Ended -> part (handoff w) = None /\ publishing w = Published;
  i_taker : rep_parked w = true ->
    reporting w = Taking /\ part (handoff w) = None /\ finished (handoff w) = false /\ taker (handoff w) = Some task;
  i_giver : pub_parked w = true ->
    (exists p todo, publishing w = Giving p todo) /\ part (handoff w) <> None /\ giver (handoff w) = Some task;
}.

Lemma handoff_step_inv parts w w' : inv parts w -> step w w' -> inv parts w'.
Proof.
  intros [Ho Hf He Ht Hg] Hs. unfold to_come in Ho.
  destruct Hs as [w p todo Hp|w p todo Hp Hpp|w Hp|w Hr Hrp|w p Hr];
    simpl in *; subst; unfold gives, takes, ends, give_poll, take_poll, finish, woken; simpl in *;
    repeat (case_match; simpl in *; simplify_eq);
    split; unfold to_come; simpl in *; rewrite ?app_nil_r in *; rewrite <- ?app_assoc; try done;
    try solve [intuition congruence|intuition eauto|intuition (simplify_eq; eauto)].
  all: first
    [ match goal with H : part (handoff ?w) = None |- reported ?w ++ _ = _ => by rewrite H, app_nil_r end
    | match goal with
      | Ht : rep_parked ?w = true -> _ |- rep_parked ?w = true -> _ => intros Hx; exfalso; destruct (Ht Hx) as (? & ? & ? & ?)
      | Hg : pub_parked ?w = true -> _ |- pub_parked ?w = true -> _ => intros Hx; exfalso; destruct (Hg Hx) as ((? & ? & ?) & ? & ?)
      end; rewrite ?Nat.eqb_neq in *; congruence ].
Qed.

Lemma handoff_reachable_inv parts w : reachable parts w -> inv parts w.
Proof.
  induction 1 as [|w w' _ IH Hs]; [|by apply (handoff_step_inv _ w)].
  by split.
Qed.

(** The reports of the copies a batch's elements kept reach the fan in order, each once, however
    the publishing and the reporting interleave: none is dropped or overwritten in the one place
    between them, the reporting ends only after the last, and the two halves never sleep on one
    another. *)
Theorem handoff_reports_each_copy parts w :
  reachable parts w ->
  reported w ++ to_come w = parts /\
  (reporting w = Ended -> reported w = parts) /\
  ~ (pub_parked w = true /\ rep_parked w = true) /\
  ((forall w', ~ step w w') -> reporting w = Ended /\ reported w = parts).
Proof.
  intros Hw. destruct (handoff_reachable_inv parts w Hw) as [Ho Hf He Ht Hg].
  assert (Hend : reporting w = Ended -> reported w = parts).
  { intros H. destruct (He H) as [Hp Hd]. rewrite <- Ho. unfold to_come. rewrite Hp, Hd. by rewrite app_nil_r. }
  assert (Hboth : ~ (pub_parked w = true /\ rep_parked w = true)).
  { intros [H1 H2]. by destruct (Ht H2) as (_ & ? & _), (Hg H1) as (_ & ? & _). }
  split_and!; [done|done|done|]. intros Hstuck.
  assert (Hr : reporting w = Ended).
  { destruct (reporting w) eqn:Hr; [|by destruct (Hstuck _ (step_reported w p Hr))|done].
    destruct (rep_parked w) eqn:Hrp; [|by destruct (Hstuck _ (step_take w Hr Hrp))].
    destruct (publishing w) as [[|p todo]|p todo|] eqn:Hp.
    - by destruct (Hstuck _ (step_finish w Hp)).
    - by destruct (Hstuck _ (step_due w p todo Hp)).
    - destruct (pub_parked w) eqn:Hpp; [by destruct Hboth|]. by destruct (Hstuck _ (step_give w p todo Hp Hpp)).
    - destruct (Ht eq_refl) as (_ & _ & Hno & _). by rewrite (proj2 Hf eq_refl) in Hno. }
  split; [done|by apply Hend].
Qed.
End handoff.
End Handoff.

Module FixedBatch.
Import Outcome Slot.

(** ** A batch's answer, lowered onto its elements

    [fanned] is whether the host of the mount has a fan. *)

Record FixedOutcome := mk_outcome { status : HandlerResult; after : option Continuation; error : option FixedHook }.
Definition plain (s : HandlerResult) : FixedOutcome := mk_outcome s None None.
Definition retry : FixedOutcome := plain result_retry.

Inductive FixedResult :=
  | Uniform (o : FixedOutcome)
  | PerElement (l : list FixedOutcome).

Record UniformFan := mk_uniform {
  fan_status : HandlerResult;
  tail : option (option Continuation * option FixedHook);
  parts : option nat;
}.
Inductive Element :=
  | WholeE (o : FixedOutcome)
  | PartE (status : HandlerResult) (index : nat).

(** [Element::of]. *)
Definition element_of (o : FixedOutcome) (parts : option nat) : Element * option nat :=
  match parts with
  | Some next => (PartE (status o) next, Some (S next))
  | None => (WholeE o, None)
  end.

Definition new (o : FixedOutcome) : UniformFan := mk_uniform (status o) (Some (after o, error o)) None.

(** [UniformFan::gather]: the outcome handed to the mount's fan, if any. *)
Definition gather (fanned : bool) (elements : nat) (f : UniformFan) : UniformFan * option Fan.Handed :=
  match tail f with
  | Some (aft, Some hook) =>
      if fanned then (mk_uniform (fan_status f) None (Some 0), Some (Fan.mk_outcome hook aft elements)) else (f, None)
  | _ => (f, None)
  end.

(** [UniformFan::element] and [slot]. *)
Definition element (f : UniformFan) (last : bool) : FixedOutcome * UniformFan :=
  match tail f with
  | Some (aft, err) =>
      if last then (mk_outcome (fan_status f) aft (as_shared <$> err), mk_uniform (fan_status f) None (parts f))
      else (plain (fan_status f), f)
  | None => (plain (fan_status f), f)
  end.
Definition slot (f : UniformFan) (last : bool) : Element * UniformFan :=
  match parts f with
  | Some next => (PartE (fan_status f) next, mk_uniform (fan_status f) (tail f) (Some (S next)))
  | None => let (o, f) := element f last in (WholeE o, f)
  end.

(** [uniform_batch]: the elements from [index] on. *)
Fixpoint uniform_elements (f : UniformFan) (index left_ batch_len : nat) : list FixedOutcome :=
  match left_ with
  | 0 => []
  | S left_ => let (o, f) := element f (index + 1 =? batch_len) in o :: uniform_elements f (S index) left_ batch_len
  end.
Definition uniform_batch (o : FixedOutcome) (batch_len : nat) : list FixedOutcome :=
  uniform_elements (new o) 0 batch_len batch_len.

(** [HandlerOutcome::take_shared], off the last of the results. *)
Definition take_shared (o : FixedOutcome) : option (FixedHook * option Continuation) * FixedOutcome :=
  match error o with
  | Some hook => if is_shared hook then (Some (hook, after o), plain (status o)) else (None, o)
  | None => (None, o)
  end.
Definition take_last (results : list FixedOutcome) : option (FixedHook * option Continuation) * list FixedOutcome :=
  match last results with
  | Some o => let (taken, o) := take_shared o in (taken, removelast results ++ [o])
  | None => (None, results)
  end.
Definition begins (elements : nat) (taken : option (FixedHook * option Continuation)) : option Fan.Handed :=
  (fun p => Fan.mk_outcome p.1 p.2 elements) <$> taken.

(** [share_error]: the call on the fan, the results, the first part. *)
Definition share_error (fanned : bool) (results : list FixedOutcome) (elements : nat)
  : option Fan.Handed * list FixedOutcome * option nat :=
  if fanned then
    let (taken, results) := take_last results in
    (begins elements taken, results, (fun _ => 0) <$> taken)
  else (None, results, None).

(** What the settlement of a batch's accepted elements comes to: the outcome handed to the fan,
    what each element settles by, and the follow-up of a uniform outcome without [.error]. *)
Record Lowered := mk_lowered { begun : option Fan.Handed; settles : list Element; follows : option Continuation }.

(** The loops of [settle_lent_batch]; the accepted deliveries are [left_]. *)
Fixpoint settle_slots (f : UniformFan) (index lst left_ : nat) : list Element :=
  match left_ with
  | 0 => []
  | S left_ => let (e, f) := slot f (index =? lst) in e :: settle_slots f (S index) lst left_
  end.
Fixpoint settle_each (results : list FixedOutcome) (parts : option nat) (left_ : nat) : list Element :=
  match left_ with
  | 0 => []
  | S left_ =>
      let (e, parts) := element_of (default retry (head results)) parts in
      e :: settle_each (List.tl results) parts left_
  end.
Definition settle_lent_batch (fanned : bool) (r : FixedResult) (accepted : nat) : Lowered :=
  match r with
  | Uniform o =>
      match error o with
      | Some _ =>
          let (f, b) := gather fanned accepted (new o) in
          mk_lowered b (settle_slots f 0 (accepted - 1) accepted) None
      | None => mk_lowered None (replicate accepted (WholeE (plain (status o)))) (after o)
      end
  | PerElement results =>
      let '(b, results, parts) := share_error fanned results accepted in
      mk_lowered b (settle_each results parts accepted) None
  end.

(** [Settlements]: of, gather and next, and the loop of [settle_split_batch] over the accepted. *)
Inductive Settlements :=
  | SUniform (f : UniformFan) (left_ : nat)
  | SEach (results : list FixedOutcome) (shared : option (FixedHook * option Continuation)) (parts : option nat) (elements : nat).

Definition settlements_of (r : FixedResult) (accepted_len : nat) (fanned : bool) : Settlements :=
  match r with
  | Uniform o => SUniform (new o) accepted_len
  | PerElement results =>
      let (taken, results) := if fanned then take_last results else (None, results) in
      SEach results taken None accepted_len
  end.
Definition settlements_gather (fanned : bool) (s : Settlements) : Settlements * option Fan.Handed :=
  match s with
  | SUniform f left_ => let (f, b) := gather fanned left_ f in (SUniform f left_, b)
  | SEach results (Some taken) parts elements =>
      if fanned then (SEach results None (Some 0) elements, begins elements (Some taken)) else (s, None)
  | SEach _ None _ _ => (s, None)
  end.
Definition next_settlement (s : Settlements) : option Element * Settlements :=
  match s with
  | SUniform f 0 => (None, s)
  | SUniform f (S left_) => let (e, f) := slot f (left_ =? 0) in (Some e, SUniform f left_)
  | SEach [] _ _ _ => (None, s)
  | SEach (o :: results) shared parts elements =>
      let (e, parts) := element_of o parts in (Some e, SEach results shared parts elements)
  end.
Fixpoint settle_accepted (s : Settlements) (left_ : nat) : list Element :=
  match left_ with
  | 0 => []
  | S left_ => let (e, s) := next_settlement s in default (WholeE retry) e :: settle_accepted s left_
  end.
Definition settle_split_batch (fanned : bool) (r : FixedResult) (accepted : nat) : Lowered :=
  let (s, b) := settlements_gather fanned (settlements_of r accepted fanned) in
  mk_lowered b (settle_accepted s accepted) None.

(** [batch_reply_verdict] and the [settle_batch] of a batch body; [None] is their panic on a count
    that is not the batch's. *)
Definition batch_reply_verdict {R} (verdict : result (list R) (list FixedOutcome)) (batch_len : nat)
  : option (result (list R) FixedResult) :=
  match verdict with
  | Ok replies => if length replies =? batch_len then Some (Ok replies) else None
  | Err outcomes => if length outcomes =? batch_len then Some (Err (PerElement outcomes)) else None
  end.
Definition body_verdict (verdict : result unit (list FixedOutcome)) (batch_len : nat) : option FixedResult :=
  match verdict with
  | Ok _ => Some (Uniform (plain Ack))
  | Err outcomes => if length outcomes =? batch_len then Some (PerElement outcomes) else None
  end.
Lemma slots_are_parts st tl k index lst n :
  settle_slots (mk_uniform st tl (Some k)) index lst n = PartE st <$> seq k n.
Proof. revert k index. induction n as [|n IH]; intros k index; simpl; [done|]. by rewrite IH. Qed.

Lemma accepted_are_parts st tl k n :
  settle_accepted (SUniform (mk_uniform st tl (Some k)) n) n = PartE st <$> seq k n.
Proof. revert k. induction n as [|n IH]; intros k; simpl; [done|]. by rewrite IH. Qed.

Lemma each_are_parts st results k :
  Forall (fun o => status o = st) results ->
  settle_each results (Some k) (length results) = PartE st <$> seq k (length results) /\
  forall sh m, settle_accepted (SEach results sh (Some k) m) (length results) = PartE st <$> seq k (length results).
Proof.
  revert k. induction results as [|o results IH]; intros k Hst; [done|].
  apply Forall_cons in Hst as [Ho Hst]. destruct (IH (S k) Hst) as [H1 H2].
  split; [|intros sh m]; simpl; rewrite Ho; f_equal; [exact H1|apply H2].
Qed.

Lemma uniform_elements_are o index n m :
  index + S n = m ->
  uniform_elements (new o) index (S n) m =
    replicate n (plain (status o)) ++ [mk_outcome (status o) (after o) (as_shared <$> error o)].
Proof.
  revert index. induction n as [|n IH]; intros index Hm.
  - cbn -[Nat.eqb]. by rewrite (proj2 (Nat.eqb_eq _ _)) by lia.
  - change (uniform_elements (new o) index (S (S n)) m) with
      (let (o', f) := element (new o) (index + 1 =? m) in o' :: uniform_elements f (S index) (S n) m).
    rewrite (proj2 (Nat.eqb_neq (index + 1) m)) by lia. simpl replicate. unfold element at 1. simpl tail. cbv iota. cbn [app]. f_equal. apply IH. lia.
Qed.
Lemma take_last_uniform o h n :
  error o = Some h -> take_last (uniform_batch o (S n)) = (Some (as_shared h, after o), replicate (S n) (plain (status o))).
Proof.
  intros He. unfold uniform_batch. rewrite uniform_elements_are by lia. unfold take_last. rewrite last_snoc, removelast_last, He.
  simpl. f_equal. change [plain (status o)] with (replicate 1 (plain (status o))). rewrite <- replicate_add.
  by rewrite Nat.add_comm.
Qed.

Lemma whole_slots o h index n :
  error o = Some h ->
  settle_slots (new o) index (index + n) (S n) =
    replicate n (WholeE (plain (status o))) ++ [WholeE (mk_outcome (status o) (after o) (Some (as_shared h)))].
Proof.
  intros He. revert index. induction n as [|n IH]; intros index.
  - cbn -[Nat.eqb]. rewrite Nat.add_0_r, Nat.eqb_refl. simpl. by rewrite He.
  - change (settle_slots (new o) index (index + S n) (S (S n))) with
      (let (e, f) := slot (new o) (index =? index + S n) in e :: settle_slots f (S index) (index + S n) (S n)).
    rewrite (proj2 (Nat.eqb_neq index (index + S n))) by lia. simpl replicate. unfold slot, element at 1. simpl parts.
    simpl tail. cbv iota. cbn [app]. f_equal. rewrite <- (IH (S index)). f_equal. lia.
Qed.

(** ** Properties *)

(** A uniform outcome with an [.error] is handed to the fan of its mount once, for as many elements
    as the batch has, and each element carries the one part of its own index: alike whether the
    body returned it or the macro lowered it to the elements, and whether some of the batch had
    been rejected before or not.  On a mount with no fan its last element carries it whole. *)
Theorem fixed_batch_hands_out_its_parts (o : FixedOutcome) (h : FixedHook) (n : nat) :
  error o = Some h -> 0 < n ->
  (forall lowered h', (lowered, h') = (Uniform o, h) \/ (lowered, h') = (PerElement (uniform_batch o n), as_shared h) ->
     let l := mk_lowered (Some (Fan.mk_outcome h' (after o) n)) (PartE (status o) <$> seq 0 n) None in
     settle_lent_batch true lowered n = l /\ settle_split_batch true lowered n = l) /\
  begun (settle_lent_batch false (Uniform o) n) = None /\
  settles (settle_lent_batch false (Uniform o) n) =
    replicate (n - 1) (WholeE (plain (status o))) ++ [WholeE (mk_outcome (status o) (after o) (Some (as_shared h)))].
Proof.
  intros He Hn. destruct n as [|n]; [lia|]. split; [|split].
  - intros lowered h' [[= -> ->]|[= -> ->]]; cbv zeta.
    + unfold settle_lent_batch, settle_split_batch, settlements_of, settlements_gather, gather. rewrite He. simpl tail.
      rewrite He. cbv iota. split; [by rewrite slots_are_parts|by rewrite accepted_are_parts].
    + unfold settle_lent_batch, settle_split_batch, share_error, settlements_of, settlements_gather.
      rewrite (take_last_uniform _ _ _ He). cbv iota.
      assert (Hall : Forall (fun o' => status o' = status o) (replicate (S n) (plain (status o)))) by by apply Forall_replicate.
      destruct (each_are_parts _ _ 0 Hall) as [H1 H2]. rewrite length_replicate in H1, H2.
      split; f_equal; [exact H1|apply H2].
  - unfold settle_lent_batch, gather. rewrite He. simpl tail. by rewrite He.
  - unfold settle_lent_batch, gather. rewrite He. simpl tail. rewrite He. cbn [settles].
    replace (S n - 1) with n by lia. by apply (whole_slots o h 0 n).
Qed.

(** The replies a refused batch publish loses always fit the slot of their mount: a batch body
    returns one reply per element, and a batch is no longer than the size its mount named. *)
Theorem lost_replies_always_fit {R} (verdict : result (list R) (list FixedOutcome)) replies (batch_len SIZE lost_from : nat)
    (h : FixedHook) then_ (lost : R -> PublishFailure.Failed) :
  batch_reply_verdict verdict batch_len = Some (Ok replies) -> batch_len <= SIZE ->
  failed_all SIZE (Whole h then_) (lost <$> skipn lost_from replies) new_slot =
    Some (mk_slot (lost <$> skipn lost_from replies) (Some h)).
Proof.
  intros Hv Hle. destruct verdict as [rs|os]; simpl in Hv; [|by case_match].
  destruct (Nat.eqb_spec (length rs) batch_len) as [Hl|]; [|done]. injection Hv as ->.
  rewrite lost_replies_fit, decide_True; [done|]. rewrite length_fmap, length_skipn. lia.
Qed.

Lemma fixed_batch_hands_out_its_parts_witness :
  settle_lent_batch true (PerElement (uniform_batch (mk_outcome result_retry (Some (OwnThen 4)) (Some (new_hook 3))) 2)) 2 =
  mk_lowered (Some (Fan.mk_outcome (as_shared (new_hook 3)) (Some (OwnThen 4)) 2)) [PartE result_retry 0; PartE result_retry 1] None.
Proof.
  destruct (fixed_batch_hands_out_its_parts (mk_outcome result_retry (Some (OwnThen 4)) (Some (new_hook 3))) (new_hook 3) 2
    eq_refl ltac:(lia)) as (H & _). destruct (H _ _ (or_intror eq_refl)) as [H1 _]. exact H1.
Defined.
End FixedBatch.
