(* ===== verification/Loop.v ===== *)
(** * The loops of an embedded app ([runtime/src/dispatch.rs], [runtime/src/coop.rs],
    [runtime/src/router/fold.rs])

    An app on an embedded runner is one task that joins the loops of its subscriptions.  A loop pulls
    deliveries off its stream and hands each to the handler ([run_sequential]); a turn that found
    nothing records that the loop is idle, and while the subscription's probe ([ReadyHint]) says
    nothing is ready the join does not resume the loop ([Gated]).  A stream that is always ready
    yields to the executor after [YIELD_AFTER] items ([Bounded]).

    The broker is a parameter: a source that several subscriptions read, with the contract the code
    documents on [ReadyHint] as its laws.  A poll of a loop is one step; what brokers, handlers and
    device code do comes between the steps. *)
From S2P Require Import Prelude RustStd.

Module Loop.

Definition YIELD_AFTER : nat := 128.

(** ** The broker's side *)

Class Source (S Id M E Ev : Type) := {
  (** the stream of a subscription: the item, and whether the poll woke the task *)
  poll_next : Id -> S -> S * poll (result M E) * bool;
  (** [ReadyHint] *)
  may_be_ready : Id -> S -> bool;
  GATED : bool;
  (** what else the broker does, and whether it wakes the task *)
  happen : Ev -> S -> S * bool;
  (** ghost: the subscription's stream holds the task's waker *)
  registered : Id -> S -> bool;
}.

(** What changes a source under a subscription: an event, or the poll of another stream. *)
Inductive Change (Id Ev : Type) := ByEvent (e : Ev) | ByPoll (i : Id).
Arguments ByEvent {Id Ev} e.
Arguments ByPoll {Id Ev} i.

Section laws.
Context {S Id M E Ev : Type} `{Source S Id M E Ev}.

Definition change (c : Change Id Ev) (s : S) : S * bool :=
  match c with
  | ByEvent e => happen e s
  | ByPoll i => let '(s, _, w) := poll_next i s in (s, w)
  end.
Definition foreign (c : Change Id Ev) (i : Id) : Prop :=
  match c with
  | ByEvent _ => True
  | ByPoll j => j <> i
  end.

(** The next poll of the stream would return [Ready]. *)
Definition available (i : Id) (s : S) : Prop := exists x, (poll_next i s).1.2 = Ready x.

(** The contract of [ReadyHint] and of a stream. *)
Class LawfulSource (ok : S -> Prop) : Prop := {
  change_ok c s : ok s -> ok (change c s).1;
  (** "true whenever the next poll of the stream could return Ready" *)
  ready_says_so i s : ok s -> available i s -> may_be_ready i s = true;
  (** "the stream registers the task's waker whenever it returns Pending" *)
  pending_registers i s s' w :
    ok s -> poll_next i s = (s', Pending, w) -> registered i s' = true /\ ~ available i s';
  (** a poll with the waker in place and nothing to say changes nothing *)
  pending_again i s :
    ok s -> registered i s = true -> may_be_ready i s = false -> poll_next i s = (s, Pending, false);
  (** "that registration stands until the delivery that wakes it" *)
  registration_stands i c s s' w :
    ok s -> foreign c i -> registered i s = true -> change c s = (s', w) ->
    registered i s' = true \/ (w = true /\ may_be_ready i s' = true);
  delivery_wakes i c s s' w :
    ok s -> foreign c i -> registered i s = true -> ~ available i s -> change c s = (s', w) ->
    available i s' -> w = true;
}.

(** What waits in a subscription is not withdrawn: only its own polls take it.  The documented contract
    does not ask for it, and the loops need it ([withdrawn_delivery_stalls] below): it is no assumption
    on brokers in general but a class the fixed local bus is proved to be in ([AppBus.bus_stable]). *)
Class StableProbe (ok : S -> Prop) : Prop := {
  ready_stays i c s :
    ok s -> foreign c i -> may_be_ready i s = true -> may_be_ready i (change c s).1 = true;
}.
End laws.

(** ** The loops *)

Section loop.
Context {S Id M E Ev : Type} `{Source S Id M E Ev}.
(** The stream's bound; whether a handler ends in the poll that starts it, what the broker sees of it
    by its end (its publishes and its settlement), and whether it stops the app (a fail-fast policy). *)
Context (limit : nat) (at_once : M -> bool) (handled : M -> list Ev) (halts : M -> bool).

Inductive Loop :=
  | Fresh
  (** a turn, and whether a poll of it found the stream and the shutdown wait pending *)
  | Turning (parked : bool)
  | Handling (m : M) (done : bool)
  | Ended.

Inductive Out := Handled (m : M) | StreamError (e : E) | StreamEnded.

(** A subscription of the app: the flag above the join, the count of [Bounded], the loop. *)
Record Sub := mk_sub { id : Id; cell : bool; ready : nat; loop : Loop; out : list Out }.

(** What the loops share: the broker, the stop flag, whether the app's wait for it is registered, and
    whether the task is marked to run. *)
Record Shared := mk_shared { source : S; stop : bool; watched : bool; woken : bool }.

Definition set_source (sh : Shared) (s : S) (w : bool) : Shared :=
  mk_shared s (stop sh) (watched sh) (woken sh || w).
(** [Control::stop], [Halt::fail]. *)
Definition halt (sh : Shared) : Shared := mk_shared (source sh) true false (woken sh || watched sh).
Definition occurs (e : Ev) (sh : Shared) : Shared :=
  let (s, w) := happen e (source sh) in set_source sh s w.
Definition settle_delivery (m : M) (sh : Shared) : Shared :=
  let sh := fold_left (fun sh e => occurs e sh) (handled m) sh in
  if halts m then halt sh else sh.

Definition with_loop (su : Sub) (l : Loop) : Sub := mk_sub (id su) (cell su) (ready su) l (out su).
Definition emit (su : Sub) (o : Out) (l : Loop) : Sub :=
  mk_sub (id su) (cell su) (ready su) l (out su ++ [o]).
Definition park (su : Sub) (parked : bool) : Sub :=
  mk_sub (id su) (if GATED then parked else cell su) (ready su) (loop su) (out su).
Definition set_ready (su : Sub) (n : nat) : Sub := mk_sub (id su) (cell su) n (loop su) (out su).

(** [Bounded::poll_next]. *)
Definition bounded_poll_next (sh : Shared) (su : Sub) : Shared * Sub * poll (result M E) :=
  if (limit <=? ready su) && may_be_ready (id su) (source sh)
  then (set_source sh (source sh) true, set_ready su 0, Pending)
  else
    let ready := if limit <=? ready su then 0 else ready su in
    let '(s, next, w) := poll_next (id su) (source sh) in
    (set_source sh s w, set_ready su (match next with Ready _ => Datatypes.S ready | Pending => 0 end), next).

(** [idle]; [gates] is off for the loops that are polled on every wake. *)
Definition idle (gates parked : bool) (sh : Shared) (su : Sub) : bool :=
  gates && GATED && parked && negb (may_be_ready (id su) (source sh)) && negb (stop sh).

(** The loop resumed once, up to its next wait or the next round of [run_sequential] (with
    [TurnInto::poll]); answers too whether it waits or has ended. *)
Definition resume (gates : bool) (sh : Shared) (su : Sub) : Shared * Sub * bool :=
  match loop su with
  | Fresh => if stop sh then (sh, with_loop su Ended, true) else (sh, with_loop su (Turning false), false)
  | Turning parked =>
      if idle gates parked sh su then (sh, su, true)
      else
        let '(sh, su, next) := bounded_poll_next sh (park su false) in
        match next with
        | Ready (Some (Ok m)) =>
            if at_once m then (settle_delivery m sh, emit su (Handled m) Fresh, false)
            else (sh, with_loop su (Handling m false), true)
        | Ready (Some (Err e)) => (sh, emit su (StreamError e) Fresh, false)
        | Ready None => (sh, emit su StreamEnded Ended, true)
        | Pending =>
            if stop sh then (sh, with_loop (park su false) Ended, true)
            else (sh, with_loop (park su true) (Turning true), true)
        end
  | Handling m true => (settle_delivery m sh, emit su (Handled m) Fresh, false)
  | Handling m false => (sh, su, true)
  | Ended => (sh, su, true)
  end.

(** One poll of the loop's future; [None] where the fuel ran out. *)
Fixpoint poll_loop (gates : bool) (fuel : nat) (sh : Shared) (su : Sub) : option (Shared * Sub) :=
  match fuel with
  | 0 => None
  | Datatypes.S fuel =>
      let '(sh, su, waits) := resume gates sh su in
      if waits then Some (sh, su) else poll_loop gates fuel sh su
  end.

(** Two resumes a delivery, [limit] deliveries, and the delivery in the handler's hands. *)
Definition poll_fuel : nat := 2 * limit + 4.

(** [Gated::poll]. *)
Definition gated_poll (gates : bool) (sh : Shared) (su : Sub) : option (Shared * Sub) :=
  if idle gates (cell su) sh su then Some (sh, su) else poll_loop gates poll_fuel sh su.

(** ** The app's task *)

(** Asleep, in a poll with the loop it polls next ([Both]), or past the join. *)
Inductive Phase := Asleep | Pass (k : nat) | Finished.

Record World := mk_world {
  shared : Shared;
  subs : list Sub;
  (** the app's wait for the stop has resolved, and the loops are awaited alone *)
  resolved : bool;
  phase : Phase;
}.

Definition initial (s : S) (ids : list Id) : World :=
  mk_world (mk_shared s false false true) ((fun i => mk_sub i false 0 Fresh []) <$> ids) false Asleep.

Definition is_ended (su : Sub) : bool := match loop su with Ended => true | _ => false end.

(** [select(loops, signal.watch())] once the loops were polled, then [loops.await]. *)
Definition end_pass (w : World) : World :=
  if forallb is_ended (subs w) then mk_world (shared w) (subs w) (resolved w) Finished
  else if resolved w then mk_world (shared w) (subs w) true Asleep
  else
    let sh := mk_shared (source (shared w)) (stop (shared w)) true (woken (shared w)) in
    if stop sh then mk_world sh (subs w) true (Pass 0) else mk_world sh (subs w) false Asleep.

Inductive Actor :=
  | Begin
  | PollNext
  | Happens (e : Ev)
  | Stops
  | Completes (k : nat).

(** [None]: not enabled; [Some None]: the poll does not return. *)
Definition step (gates : bool) (w : World) (a : Actor) : option (option World) :=
  match a with
  | Begin =>
      match phase w with
      | Asleep =>
          if woken (shared w)
          then Some (Some (mk_world (mk_shared (source (shared w)) (stop (shared w)) (watched (shared w)) false)
                             (subs w) (resolved w) (Pass 0)))
          else None
      | _ => None
      end
  | PollNext =>
      match phase w with
      | Pass k =>
          match subs w !! k with
          | Some su =>
              Some (match gated_poll gates (shared w) su with
                    | Some (sh, su) => Some (mk_world sh (<[k := su]> (subs w)) (resolved w) (Pass (Datatypes.S k)))
                    | None => None
                    end)
          | None => Some (Some (end_pass w))
          end
      | _ => None
      end
  | Happens e => Some (Some (mk_world (occurs e (shared w)) (subs w) (resolved w) (phase w)))
  | Stops => Some (Some (mk_world (halt (shared w)) (subs w) (resolved w) (phase w)))
  | Completes k =>
      match subs w !! k with
      | Some su =>
          match loop su with
          | Handling m false =>
              Some (Some (mk_world (set_source (shared w) (source (shared w)) true)
                            (<[k := with_loop su (Handling m true)]> (subs w)) (resolved w) (phase w)))
          | _ => None
          end
      | None => None
      end
  end.

(** A schedule run; steps that are not enabled are skipped. *)
Fixpoint run (gates : bool) (w : World) (schedule : list Actor) : option World :=
  match schedule with
  | [] => Some w
  | a :: schedule =>
      match step gates w a with
      | Some (Some w) => run gates w schedule
      | Some None => None
      | None => run gates w schedule
      end
  end.

End loop.

(** ** What a poll of a loop keeps *)

Section loop_facts.
Context {S Id M E Ev : Type} `{Source S Id M E Ev}.
Context (ok : S -> Prop) `{!LawfulSource ok} `{!StableProbe ok}.
Context (limit : nat) (at_once : M -> bool) (handled : M -> list Ev) (halts : M -> bool).

Abbreviation Shared := (@Shared S).
Abbreviation Sub := (@Sub Id M E).
Abbreviation World := (@World S Id M E).
Abbreviation resume := (resume limit at_once handled halts).
Abbreviation poll_loop := (poll_loop limit at_once handled halts).
Abbreviation gated_poll := (gated_poll limit at_once handled halts).
Abbreviation step := (step limit at_once handled halts).
Abbreviation run := (run limit at_once handled halts).
Implicit Types (sh : Shared) (su : Sub).

(** What can happen to the shared state while the changes of the source satisfy [P]. *)
Inductive moves (P : Change Id Ev -> Prop) sh : Shared -> Prop :=
  | moves_refl : moves P sh sh
  | moves_change c sh' :
      P c -> moves P (set_source sh (change c (source sh)).1 (change c (source sh)).2) sh' -> moves P sh sh'
  | moves_wake sh' : moves P (set_source sh (source sh) true) sh' -> moves P sh sh'
  | moves_halt sh' : moves P (halt sh) sh' -> moves P sh sh'.

Lemma moves_trans P sh1 sh2 sh3 : moves P sh1 sh2 -> moves P sh2 sh3 -> moves P sh1 sh3.
Proof.
  intros Hm Hm'. induction Hm as [sh|sh c sh' Hc Hm IH|sh sh' Hm IH|sh sh' Hm IH];
    [done|by apply (moves_change P sh c); auto|apply moves_wake; auto|apply moves_halt; auto].
Qed.

Lemma moves_mono (P P' : Change Id Ev -> Prop) sh sh' :
  (forall c, P c -> P' c) -> moves P sh sh' -> moves P' sh sh'.
Proof.
  intros HP Hm. induction Hm as [sh|sh c sh' Hc Hm IH|sh sh' Hm IH|sh sh' Hm IH];
    [by apply moves_refl|by apply (moves_change P' sh c); [apply HP|]|by apply moves_wake|by apply moves_halt].
Qed.

Lemma moves_occurs P e sh : P (ByEvent e) -> moves P sh (occurs e sh).
Proof.
  intros. eapply moves_change; [done|]. unfold occurs. simpl. destruct (happen e (source sh)). apply moves_refl.
Qed.

Lemma moves_settle (P : Change Id Ev -> Prop) m sh :
  (forall e, P (ByEvent e)) -> moves P sh (settle_delivery handled halts m sh).
Proof.
  intros HP. unfold settle_delivery.
  assert (Hf : forall l sh, moves P sh (fold_left (fun sh e => occurs e sh) l sh)).
  { induction l as [|e l IH]; intros sh0; simpl; [apply moves_refl|].
    eapply moves_trans; [by apply (moves_occurs P e)|apply IH]. }
  eapply moves_trans; [apply Hf|]. destruct (halts m); [apply moves_halt|]; apply moves_refl.
Qed.

Lemma moves_ok P sh sh' : moves P sh sh' -> ok (source sh) -> ok (source sh').
Proof. intros Hm. induction Hm as [sh|sh c sh' Hc Hm IH|sh sh' Hm IH|sh sh' Hm IH]; intros Hok; [done|apply IH, change_ok, Hok|by apply IH..]. Qed.

Lemma moves_flags P sh sh' :
  moves P sh sh' ->
  (woken sh = true -> woken sh' = true) /\ (stop sh = true -> stop sh' = true) /\
  (watched sh = true -> stop sh = false -> (watched sh' = true /\ stop sh' = false) \/ woken sh' = true) /\
  (watched sh = true -> watched sh' = true \/ woken sh' = true).
Proof.
  intros Hm. induction Hm as [sh|sh c sh' Hc Hm IH|sh sh' Hm IH|sh sh' Hm IH]; [by split_and!; auto| | |];
    destruct IH as (IH1 & IH2 & IH3 & IH4); simpl in *.
  - split_and!; [|done..]. intros Hw. apply IH1. by rewrite Hw.
  - split_and!; [|done..]. intros Hw. apply IH1. by rewrite Hw.
  - split_and!; [|auto|..].
    + intros Hw. apply IH1. by rewrite Hw.
    + intros Hw _. right. apply IH1. rewrite Hw. apply orb_true_r.
    + intros Hw. right. apply IH1. rewrite Hw. apply orb_true_r.
Qed.

(** A subscription that others' changes reach keeps its waker or has something ready, and one with
    nothing to say is woken for what comes. *)
Lemma moves_watched i sh sh' :
  moves (fun c => foreign c i) sh sh' -> ok (source sh) ->
  (registered i (source sh) = true \/ may_be_ready i (source sh) = true ->
   registered i (source sh') = true \/ may_be_ready i (source sh') = true) /\
  (registered i (source sh) = true -> ~ available i (source sh) ->
   (registered i (source sh') = true /\ ~ available i (source sh')) \/ woken sh' = true).
Proof.
  intros Hm. induction Hm as [sh|sh c sh' Hc Hm IH|sh sh' Hm IH|sh sh' Hm IH]; intros Hok;
    [by auto| |by apply IH|by apply IH].
  pose proof (moves_flags _ _ _ Hm) as (Hw & _). destruct (change c (source sh)) as [s w] eqn:Ec. simpl in *.
  assert (Hok' : ok s) by (change s with (s, w).1; rewrite <-Ec; by apply change_ok).
  destruct (IH Hok') as [IH1 IH2].
  pose proof (ready_stays i c (source sh) Hok Hc) as Hst. rewrite Ec in Hst. simpl in Hst. split.
  - intros [Hr|Hr]; apply IH1; [|by auto].
    destruct (registration_stands i c (source sh) s w Hok Hc Hr Ec) as [?|[_ ?]]; auto.
  - intros Hr Ha. destruct w; [right; apply Hw, orb_true_r|].
    destruct (registration_stands i c (source sh) s false Hok Hc Hr Ec) as [Hr'|[? _]]; [|done].
    apply IH2; [done|]. intros Hav. by pose proof (delivery_wakes i c _ s false Hok Hc Hr Ha Ec Hav).
Qed.

(** *** A loop between its resumes *)

Definition sub_ok sh su : Prop :=
  ready su <= limit /\
  match loop su with
  | Turning true =>
      cell su = GATED /\ ready su = 0 /\
      (registered (id su) (source sh) = true \/ may_be_ready (id su) (source sh) = true)
  | _ => cell su = false
  end.

(** A loop that waits: for its handler, or for its stream with the waker in place, unless the task
    runs again. *)
Definition rests sh su : Prop :=
  match loop su with
  | Ended | Handling _ false => True
  | Turning true =>
      woken sh = true \/ (registered (id su) (source sh) = true /\ ~ available (id su) (source sh))
  | _ => False
  end.

Definition turning su : bool := match loop su with Turning _ => true | _ => false end.

(** How many resumes, and how many items, a poll can still take. *)
Definition resumes su : nat :=
  match loop su with
  | Fresh => 2 * (limit - ready su) + 2
  | Turning _ => 2 * (limit - ready su) + 1
  | Handling _ true => 2 * (limit - ready su) + 3
  | _ => 1
  end.
Definition room su : nat := (limit - ready su) + match loop su with Handling _ true => 1 | _ => 0 end.

Lemma bounded_poll_spec sh su sh' su' next :
  ok (source sh) -> ready su <= limit -> bounded_poll_next limit sh su = (sh', su', next) ->
  moves (fun c => c = ByPoll (id su)) sh sh' /\ stop sh' = stop sh /\
  (exists n, su' = set_ready su n /\
    match next with
    | Pending => n = 0 /\ ((woken sh' = true /\ may_be_ready (id su) (source sh') = true) \/
                           (registered (id su) (source sh') = true /\ ~ available (id su) (source sh')))
    | Ready _ => n = Datatypes.S (ready su) /\ ready su < limit
    end).
Proof.
  intros Hok Hle. unfold bounded_poll_next.
  destruct ((limit <=? ready su) && may_be_ready (id su) (source sh)) eqn:Hy.
  - intros [= <- <- <-]. apply andb_true_iff in Hy as [_ Hy]. split_and!; [by apply moves_wake, moves_refl|done|].
    exists 0. split; [done|]. split; [done|]. left. split; [apply orb_true_r|done].
  - destruct (poll_next (id su) (source sh)) as [[s p] w] eqn:Ep. intros [= <- <- <-].
    split_and!; [|done|].
    { eapply (moves_change _ _ (ByPoll (id su))); [done|]. simpl. rewrite Ep. apply moves_refl. }
    eexists. split; [done|]. destruct p as [x|]; simpl.
    + destruct (Nat.leb_spec limit (ready su)) as [Hge|Hlt]; [|split; [done|lia]]. exfalso.
      simpl in Hy. assert (Hr : may_be_ready (id su) (source sh) = true); [|congruence].
      apply ready_says_so; [done|]. exists x. by rewrite Ep.
    + split; [done|]. right. by eapply pending_registers.
Qed.

Definition own (i : Id) (c : Change Id Ev) : Prop := c = ByPoll i \/ exists e, c = ByEvent e.

Lemma resume_spec gates sh su sh' su' b :
  ok (source sh) -> sub_ok sh su -> resume gates sh su = (sh', su', b) ->
  moves (own (id su)) sh sh' /\ id su' = id su /\ sub_ok sh' su' /\
  (if b then rests sh' su' /\ (turning su' = true -> stop sh' = false) else resumes su' < resumes su) /\
  length (out su') + (if b then 0 else room su') <= length (out su) + room su.
Proof.
  intros Hok [Hle Hsu]. unfold resume, Loop.resume, resumes, room, rests, turning.
  destruct (loop su) as [|parked|m []|] eqn:El.
  - destruct (stop sh) eqn:Est; intros [= <- <- <-]; unfold sub_ok; simpl;
      split_and!; try done; try lia; apply moves_refl.
  - destruct (idle gates parked sh su) eqn:Ei.
    { intros [= <- <- <-]. unfold idle in Ei. bool_prop. subst. unfold sub_ok. rewrite El. simpl.
      destruct Hsu as (Hc & Hr & [Hreg|Hmay]); [|congruence].
      assert (Hna : ~ available (id su) (source sh)).
      { intros Ha. apply ready_says_so in Ha; [congruence|done]. }
      split_and!; auto; [apply moves_refl|lia]. }
    destruct (bounded_poll_next limit sh (park su false)) as [[sh1 su1] next] eqn:Eb.
    destruct (bounded_poll_spec sh (park su false) sh1 su1 next Hok Hle Eb) as (Hm & Hst & n & -> & Hn). simpl in Hm, Hn.
    assert (Hm' : moves (own (id su)) sh sh1) by (eapply moves_mono; [|exact Hm]; by left).
    assert (Hcell : (if GATED then false else cell su) = false).
    { destruct GATED; [done|]. destruct parked; [by destruct Hsu|done]. }
    destruct next as [[[m|e]|]|].
    + destruct Hn as [-> Hlt]. destruct (at_once m); intros [= <- <- <-]; unfold sub_ok; simpl; rewrite ?length_app; simpl.
      * split_and!; [|done|lia|done|lia|lia]. eapply moves_trans; [exact Hm'|]. apply moves_settle. right. by eexists.
      * split_and!; done || lia.
    + destruct Hn as [-> Hlt]. intros [= <- <- <-]. unfold sub_ok; simpl; rewrite length_app; simpl.
      split_and!; done || lia.
    + destruct Hn as [-> Hlt]. intros [= <- <- <-]. unfold sub_ok; simpl; rewrite length_app; simpl.
      split_and!; done || lia.
    + destruct Hn as [-> Hn]. destruct (stop sh1) eqn:Est; intros [= <- <- <-]; unfold sub_ok; simpl.
      * split_and!; try done; [lia|by destruct GATED|lia].
      * split_and!; try done; [lia|destruct GATED; [done|]; by destruct parked|by destruct Hn as [[_ ?]|[? _]]; auto| |lia].
        destruct Hn as [[? _]|?]; auto.
  - intros [= <- <- <-]. unfold sub_ok; simpl. rewrite length_app. simpl.
    split_and!; [|done|done|done|lia|lia]. apply moves_settle. right. by eexists.
  - intros [= <- <- <-]. unfold sub_ok. rewrite El. split_and!; try done; try lia. apply moves_refl.
  - intros [= <- <- <-]. unfold sub_ok. rewrite El. split_and!; try done; try lia. apply moves_refl.
Qed.

Lemma bounded_loop_spec gates fuel sh su :
  ok (source sh) -> sub_ok sh su -> resumes su <= fuel ->
  exists sh' su', poll_loop gates fuel sh su = Some (sh', su') /\
    moves (own (id su)) sh sh' /\ id su' = id su /\ sub_ok sh' su' /\
    rests sh' su' /\ (turning su' = true -> stop sh' = false) /\
    length (out su') <= length (out su) + room su.
Proof.
  revert sh su. induction fuel as [|fuel IH]; intros sh su Hok Hsu Hf.
  { unfold resumes in Hf. destruct (loop su) as [| |? []|]; lia. }
  simpl. destruct (resume gates sh su) as [[sh1 su1] b] eqn:Er.
  destruct (resume_spec _ _ _ _ _ _ Hok Hsu Er) as (Hm & Hid & Hsu1 & Hb & Hout). destruct b.
  - destruct Hb. eexists _, _. split_and!; try done. lia.
  - destruct (IH sh1 su1) as (sh' & su' & -> & Hm' & Hid' & ? & ? & ? & ?); [by eapply moves_ok|done|lia|].
    eexists _, _. split_and!; try done; [|congruence|lia]. rewrite Hid in Hm'. by eapply moves_trans.
Qed.

Lemma gated_poll_spec gates sh su :
  ok (source sh) -> sub_ok sh su ->
  exists sh' su', gated_poll gates sh su = Some (sh', su') /\
    moves (own (id su)) sh sh' /\ id su' = id su /\ sub_ok sh' su' /\
    rests sh' su' /\ (turning su' = true -> stop sh' = false) /\
    length (out su') <= length (out su) + room su.
Proof.
  intros Hok Hsu. unfold gated_poll, Loop.gated_poll. destruct (idle gates (cell su) sh su) eqn:Ei.
  - pose proof Hsu as [_ Hl]. unfold idle in Ei. bool_prop.
    destruct (loop su) as [|[]|m []|] eqn:El; try congruence. destruct Hl as (_ & _ & [Hreg|?]); [|congruence].
    eexists _, _. unfold rests, turning. rewrite El. split_and!; try done; [apply moves_refl| |lia].
    right. split; [done|]. intros Ha. apply ready_says_so in Ha; [congruence|done].
  - apply bounded_loop_spec; [done|done|]. unfold resumes, poll_fuel. destruct (loop su) as [| |? []|]; lia.
Qed.

(** Under a stop a loop takes one more item off its stream at most, and only where it was waiting. *)
Definition taken su : nat := length (out su) + match loop su with Handling _ _ => 1 | _ => 0 end.

Lemma resume_stopping gates sh su sh' su' b :
  stop sh = true -> resume gates sh su = (sh', su', b) ->
  stop sh' = true /\
  taken su' + (if turning su' then 1 else 0) <= taken su + (if turning su then 1 else 0).
Proof.
  intros Hst. unfold resume, Loop.resume, taken, turning. rewrite Hst.
  assert (Hset : forall m sh, stop sh = true -> stop (settle_delivery handled halts m sh) = true).
  { intros m sh1 ?. eapply moves_flags; [|done]. by apply (moves_settle (fun _ => True)). }
  destruct (loop su) as [|parked|m []|] eqn:El.
  - intros [= <- <- <-]. simpl. by split.
  - destruct (idle gates parked sh su); [intros [= <- <- <-]; rewrite El; by split|].
    assert (Hb : forall sh1 su1 next, bounded_poll_next limit sh (park su false) = (sh1, su1, next) ->
      stop sh1 = true /\ out su1 = out su).
    { intros sh1 su1 next. unfold bounded_poll_next. destruct (_ && _); [by intros [= <- <- <-]|].
      destruct (poll_next _ _) as [[? ?] ?]. by intros [= <- <- <-]. }
    destruct (bounded_poll_next limit sh (park su false)) as [[sh1 su1] next].
    destruct (Hb _ _ _ eq_refl) as [Hst1 Hout]. rewrite Hst1.
    destruct next as [[[m|e]|]|]; [destruct (at_once m)|..]; intros [= <- <- <-]; simpl;
      rewrite ?length_app, ?Hout; simpl; split; auto; lia.
  - intros [= <- <- <-]. simpl. rewrite length_app. simpl. split; [by apply Hset|lia].
  - intros [= <- <- <-]. rewrite El. by split.
  - intros [= <- <- <-]. rewrite El. by split.
Qed.

Lemma poll_stopping gates fuel sh su sh' su' :
  stop sh = true -> poll_loop gates fuel sh su = Some (sh', su') ->
  stop sh' = true /\
  taken su' + (if turning su' then 1 else 0) <= taken su + (if turning su then 1 else 0).
Proof.
  revert sh su. induction fuel as [|fuel IH]; intros sh su Hst; simpl; [done|].
  destruct (resume gates sh su) as [[sh1 su1] b] eqn:Er.
  destruct (resume_stopping _ _ _ _ _ _ Hst Er) as [Hst1 Hle]. destruct b; [by intros [= <- <-]|].
  intros Hp. destruct (IH _ _ Hst1 Hp). split; [done|lia].
Qed.

(** *** The gates skip nothing *)

Lemma resume_ungated sh su :
  (forall parked, loop su = Turning parked -> idle true parked sh su = false) ->
  resume true sh su = resume false sh su.
Proof.
  intros Hi. unfold resume, Loop.resume. destruct (loop su) as [|parked| |] eqn:El; try done. by rewrite (Hi parked).
Qed.

Lemma resume_goes_on gates sh su sh' su' : resume gates sh su = (sh', su', false) -> loop su' <> Turning true.
Proof.
  unfold resume, Loop.resume. destruct (loop su) as [|parked|m []|].
  - destruct (stop sh); [done|]. by intros [= <- <-].
  - destruct (idle _ _ _ _); [done|]. destruct (bounded_poll_next _ _ _) as [[sh1 su1] next].
    destruct next as [[[m|e]|]|]; try done; [destruct (at_once m); [|done]| |by destruct (stop sh1)];
      by intros [= <- <-].
  - by intros [= <- <-].
  - done.
  - done.
Qed.

Lemma poll_ungated fuel sh su :
  (forall parked, loop su = Turning parked -> idle true parked sh su = false) ->
  poll_loop true fuel sh su = poll_loop false fuel sh su.
Proof.
  revert sh su. induction fuel as [|fuel IH]; intros sh su Hi; simpl; [done|].
  rewrite (resume_ungated sh su Hi).
  destruct (resume false sh su) as [[sh1 su1] b] eqn:Er. destruct b; [done|].
  apply IH. intros parked Hp. apply resume_goes_on in Er. destruct parked; [done|].
  unfold idle. by rewrite !andb_false_r.
Qed.

Lemma gated_poll_transparent sh su :
  ok (source sh) -> sub_ok sh su -> gated_poll true sh su = gated_poll false sh su.
Proof.
  intros Hok [_ Hl]. unfold gated_poll, Loop.gated_poll. destruct (idle true (cell su) sh su) eqn:Ei; cycle 1.
  { apply poll_ungated. intros parked Hp. rewrite Hp in Hl. destruct parked; [|unfold idle; by rewrite !andb_false_r].
    destruct Hl as (Hc & _). unfold idle in *. rewrite Hc in Ei. by destruct GATED. }
  unfold idle in Ei. repeat (apply andb_true_iff in Ei as [Ei ?]).
  assert (Hmay : may_be_ready (id su) (source sh) = false) by by apply negb_true_iff.
  assert (Hst : stop sh = false) by by apply negb_true_iff.
  assert (Hg : GATED = true) by done.
  destruct (loop su) as [|[]|m []|] eqn:El; try congruence.
  destruct Hl as (_ & Hr & [Hreg|?]); [|congruence].
  unfold poll_fuel. rewrite Nat.add_comm. simpl. unfold Loop.resume. rewrite El. unfold bounded_poll_next. simpl.
  rewrite Hmay, andb_false_r, (pending_again (id su) (source sh) Hok Hreg Hmay). simpl. rewrite Hst.
  unfold park, set_ready, with_loop, set_source. simpl. rewrite Hg, orb_false_r.
  destruct sh as [s st wa wo], su as [i c r l o]. simpl in *. congruence.
Qed.

(** *** The task *)

Inductive reachable (gates : bool) (s : S) (ids : list Id) : World -> Prop :=
  | reach_initial : reachable gates s ids (initial s ids)
  | reach_step w a w' :
      reachable gates s ids w -> step gates w a = Some (Some w') -> reachable gates s ids w'.

(** The loops the current poll of the task has been through. *)
Definition polled (w : World) (k : nat) : Prop :=
  match phase w with
  | Asleep => True
  | Pass n => k < n
  | Finished => False
  end.
Definition passing (w : World) : Prop := exists n, phase w = Pass n.

Record app_ok (w : World) : Prop := {
  app_source : ok (source (shared w));
  app_ids : NoDup (id <$> subs w);
  app_subs k su : subs w !! k = Some su -> sub_ok (shared w) su;
  app_rests k su :
    subs w !! k = Some su -> polled w k -> woken (shared w) = true \/ rests (shared w) su;
  app_stop k su :
    subs w !! k = Some su -> polled w k -> turning su = true ->
    stop (shared w) = false \/ woken (shared w) = true \/ (resolved w = false /\ passing w);
  app_watch : phase w = Asleep -> resolved w = true \/ watched (shared w) = true \/ woken (shared w) = true;
  app_resolved : resolved w = true -> stop (shared w) = true;
}.

(** What others do to a loop. *)
Lemma sub_moves su sh sh' :
  moves (fun c => foreign c (id su)) sh sh' -> ok (source sh) -> sub_ok sh su ->
  sub_ok sh' su /\ (woken sh = true \/ rests sh su -> woken sh' = true \/ rests sh' su).
Proof.
  intros Hm Hok [Hle Hsu]. destruct (moves_watched _ _ _ Hm Hok) as [Hw1 Hw2].
  pose proof (moves_flags _ _ _ Hm) as (Hwk & _). unfold sub_ok, rests.
  destruct (loop su) as [|[]|m []|]; [| | | | |]; (split; [|intros [?|?]; auto]); try by split.
  - destruct Hsu as (? & ? & ?). by split_and!; auto.
  - destruct H0 as [?|[Hr Ha]]; [by auto|]. destruct (Hw2 Hr Ha); auto.
Qed.

(** What others do to the app's flags. *)
Lemma flags_move P w sh' :
  moves P (shared w) sh' -> app_ok w ->
  (forall k su, subs w !! k = Some su -> polled w k -> turning su = true ->
     stop sh' = false \/ woken sh' = true \/ (resolved w = false /\ passing w)) /\
  (phase w = Asleep -> resolved w = true \/ watched sh' = true \/ woken sh' = true) /\
  (resolved w = true -> stop sh' = true).
Proof.
  intros Hm Hw. destruct (moves_flags _ _ _ Hm) as (Hwk & Hst & Hws & Hwa). split_and!.
  - intros k su Hk Hp Ht. destruct (app_stop w Hw k su Hk Hp Ht) as [Hs|[?|?]]; [|by auto..].
    destruct (phase w) as [|n|] eqn:Eph; [| |by unfold polled in Hp; rewrite Eph in Hp].
    + destruct (app_watch w Hw Eph) as [Hr|[Hr|?]]; [|by destruct (Hws Hr Hs) as [[_ ?]|?]; auto|by auto].
      rewrite (app_resolved w Hw Hr) in Hs. done.
    + destruct (resolved w) eqn:Er; [by rewrite (app_resolved w Hw Er) in Hs|].
      right. right. split; [done|]. by exists n.
  - intros Hph. destruct (app_watch w Hw Hph) as [?|[Hr|?]]; [by auto| |by auto]. destruct (Hwa Hr); auto.
  - intros Hr. apply Hst, (app_resolved w Hw Hr).
Qed.

(** A change of the shared state by something that is no loop of the app. *)
Lemma outside_keeps w sh' :
  moves (fun c => exists e, c = ByEvent e) (shared w) sh' -> app_ok w ->
  app_ok (mk_world sh' (subs w) (resolved w) (phase w)).
Proof.
  intros Hm Hw. pose proof (app_source w Hw) as Hok.
  assert (Hf : forall i, moves (fun c => foreign c i) (shared w) sh').
  { intros i. eapply moves_mono; [|exact Hm]. by intros c [e ->]. }
  destruct (flags_move _ _ _ Hm Hw) as (? & ? & ?). split; simpl; try done.
  - by eapply moves_ok.
  - apply Hw.
  - intros k su Hk. eapply sub_moves; [apply Hf|done|by eapply app_subs].
  - intros k su Hk Hp. eapply sub_moves; [apply Hf|done|by eapply app_subs|]. by eapply app_rests.
Qed.

Lemma subs_insert (w : World) k (su su' : Sub) :
  subs w !! k = Some su -> id su' = id su -> NoDup (id <$> subs w) ->
  NoDup (id <$> <[k := su']> (subs w)) /\
  (forall j t, <[k := su']> (subs w) !! j = Some t -> (j = k /\ t = su') \/ (j <> k /\ subs w !! j = Some t)) /\
  (forall j t, subs w !! j = Some t -> j <> k -> id t <> id su).
Proof.
  intros Hk Hid Hnd. split_and!.
  - rewrite list_fmap_insert, Hid, list_insert_id; [done|]. by rewrite list_lookup_fmap, Hk.
  - intros j t Hj. apply list_lookup_insert_Some in Hj as [(-> & -> & _)|[? ?]]; auto.
  - intros j t Hj Hne Heq. apply Hne. eapply NoDup_lookup; [exact Hnd|..]; rewrite list_lookup_fmap; [by rewrite Hj|].
    by rewrite Hk, Heq.
Qed.

Lemma poll_keeps gates w k su sh' su' :
  app_ok w -> phase w = Pass k -> subs w !! k = Some su ->
  gated_poll gates (shared w) su = Some (sh', su') ->
  app_ok (mk_world sh' (<[k := su']> (subs w)) (resolved w) (Pass (Datatypes.S k))).
Proof.
  intros Hw Hph Hk Hp. pose proof (app_source w Hw) as Hok.
  destruct (gated_poll_spec gates _ su Hok (app_subs w Hw k su Hk))
    as (sh1 & su1 & Hp1 & Hm & Hid & Hsu & Hrest & Hturn & _).
  rewrite Hp in Hp1. injection Hp1 as <- <-.
  destruct (subs_insert w k su su' Hk Hid (app_ids w Hw)) as (Hnd & Hins & Hne).
  assert (Hf : forall j t, subs w !! j = Some t -> j <> k -> moves (fun c => foreign c (id t)) (shared w) sh').
  { intros j t Hj Hjk. eapply moves_mono; [|exact Hm].
    intros c [->|[e ->]]; [|done]. simpl. apply not_eq_sym. by eapply Hne. }
  destruct (flags_move _ _ _ Hm Hw) as (Hs & _ & Hr).
  assert (Hpol : forall j, j < Datatypes.S k -> j <> k -> polled w j) by (intros; unfold polled; rewrite Hph; lia).
  split; simpl; try done.
  - by eapply moves_ok.
  - intros j t Hj. destruct (Hins _ _ Hj) as [[-> ->]|[Hjk Hj']]; [done|].
    eapply sub_moves; [by eapply Hf|done|by eapply app_subs].
  - intros j t Hj Hlt. destruct (Hins _ _ Hj) as [[-> ->]|[Hjk Hj']]; [by right|].
    eapply sub_moves; [by eapply Hf|done|by eapply app_subs|]. eapply app_rests; [done|done|by apply Hpol].
  - intros j t Hj Hlt Ht. destruct (Hins _ _ Hj) as [[-> ->]|[Hjk Hj']]; [left; by apply Hturn|].
    destruct (Hs j t Hj' (Hpol j Hlt Hjk) Ht) as [?|[?|[? _]]]; auto.
    right. right. split; [done|]. by eexists.
Qed.

Lemma end_pass_keeps w k :
  app_ok w -> phase w = Pass k -> subs w !! k = None -> app_ok (end_pass w).
Proof.
  intros Hw Hph Hk. apply lookup_ge_None in Hk.
  assert (Hpol : forall j t, subs w !! j = Some t -> polled w j).
  { intros j t Hj. unfold polled. rewrite Hph. apply lookup_lt_Some in Hj. lia. }
  pose proof (app_source w Hw). pose proof (app_ids w Hw). pose proof (app_subs w Hw).
  pose proof (app_resolved w Hw) as Hres.
  unfold end_pass. destruct (forallb is_ended (subs w)); [by split|].
  destruct (resolved w) eqn:Er.
  - split; simpl; [done..| | | |].
    + intros j t Hj _. by eapply app_rests; eauto.
    + intros j t Hj _ Ht. destruct (app_stop w Hw j t Hj (Hpol j t Hj) Ht) as [?|[?|[? _]]]; [by auto|by auto|congruence].
    + by left.
    + intros _. by apply Hres.
  - simpl. destruct (stop (shared w)) eqn:Es; (split; simpl; [done..| | | |]).
    + intros j t _ Hp. unfold polled in Hp. simpl in Hp. lia.
    + intros j t _ Hp. unfold polled in Hp. simpl in Hp. lia.
    + done.
    + done.
    + intros j t Hj _. by eapply (app_rests w Hw); eauto.
    + intros. by left.
    + intros. right. by left.
    + done.
Qed.

Lemma step_keeps gates w a w' : app_ok w -> step gates w a = Some (Some w') -> app_ok w'.
Proof.
  intros Hw. destruct a as [| |e| |k]; unfold step, Loop.step.
  - destruct (phase w); try done. destruct (woken (shared w)); [|done]. intros [= <-].
    destruct Hw. split; simpl; try done; intros; unfold polled in *; simpl in *; lia.
  - destruct (phase w) as [|k|] eqn:Eph; try done. destruct (subs w !! k) as [su|] eqn:Ek.
    + destruct (Loop.gated_poll _ _ _ _ _ _ _) as [[sh' su']|] eqn:Ep; [|done]. intros [= <-].
      by eapply poll_keeps.
    + intros [= <-]. by eapply end_pass_keeps.
  - intros [= <-]. apply outside_keeps; [|done]. apply (moves_occurs (fun c => exists e, c = ByEvent e)). by eexists.
  - intros [= <-]. apply outside_keeps; [|done]. apply moves_halt, moves_refl.
  - destruct (subs w !! k) as [su|] eqn:Ek; [|done]. destruct (loop su) as [|p|m []|] eqn:El; try done. intros [= <-].
    destruct (subs_insert w k su (with_loop su (Handling m true)) Ek eq_refl (app_ids w Hw)) as (Hnd & Hins & _).
    destruct Hw. split; simpl; try done.
    + intros j t Hj. destruct (Hins _ _ Hj) as [[-> ->]|[Hjk Hj']]; [|by apply app_subs0 with j].
      destruct (app_subs0 _ _ Ek) as [? Hc]. rewrite El in Hc. by split.
    + intros. left. apply orb_true_r.
    + intros. right. left. apply orb_true_r.
    + intros. right. right. apply orb_true_r.
Qed.

Lemma initial_app_ok s ids : ok s -> NoDup ids -> app_ok (initial s ids).
Proof.
  intros Hok Hnd. split; simpl; try done.
  - rewrite <-list_fmap_compose. by rewrite (list_fmap_ext _ Datatypes.id), list_fmap_id.
  - intros k su Hk. apply list_lookup_fmap_Some in Hk as (i & -> & _). split; simpl; [lia|done].
  - by left.
  - by right; left.
  - by right; right.
Qed.

Lemma reachable_app_ok gates s ids w : ok s -> NoDup ids -> reachable gates s ids w -> app_ok w.
Proof. intros Hok Hnd. induction 1; [by apply initial_app_ok|by eapply step_keeps]. Qed.

(** ** The app's promises *)

Lemma step_transparent w a : app_ok w -> step true w a = step false w a.
Proof.
  intros Hw. destruct a; try done. unfold step, Loop.step.
  destruct (phase w) as [|k|]; try done. destruct (subs w !! k) as [su|] eqn:Ek; [|done].
  by rewrite gated_poll_transparent; [|apply Hw|by eapply app_subs].
Qed.

Lemma run_transparent w schedule : app_ok w -> run true w schedule = run false w schedule.
Proof.
  revert w. induction schedule as [|a l IH]; intros w Hw; simpl; [done|].
  rewrite step_transparent by done. destruct (step false w a) as [[w'|]|] eqn:Est; [|done|by apply IH].
  apply IH. by eapply step_keeps.
Qed.

(** C14. Skipping idle subscriptions changes nothing: under a broker that keeps the contract of
    [ReadyHint] and withdraws nothing, whatever happens in whatever order, the app whose join and
    turns skip the loops their probe calls idle goes through exactly the states of the app that polls
    every loop on every wake: the same deliveries in the same order, the same wakers, the same sleep. *)
Theorem gating_is_transparent s ids schedule :
  ok s -> NoDup ids -> run true (initial s ids) schedule = run false (initial s ids) schedule.
Proof. intros. apply run_transparent. by apply initial_app_ok. Qed.

(** No delivery, no finished handler and no stop is slept through: while the app's task is asleep
    and not marked to run, every loop has ended, or waits for a handler that is not done, or is a
    turn whose stream has nothing to say, holds the task's waker, and whose app was not stopped. *)
Theorem app_rests_asleep gates s ids w k su :
  ok s -> NoDup ids -> reachable gates s ids w -> phase w = Asleep -> woken (shared w) = false ->
  subs w !! k = Some su ->
  match loop su with
  | Ended | Handling _ false => True
  | Turning true =>
      ~ available (id su) (source (shared w)) /\ registered (id su) (source (shared w)) = true /\
      stop (shared w) = false
  | _ => False
  end.
Proof.
  intros Hok Hnd Hr Hph Hwk Hk. pose proof (reachable_app_ok _ _ _ _ Hok Hnd Hr) as Hw.
  assert (Hp : polled w k) by (unfold polled; by rewrite Hph).
  destruct (app_rests w Hw k su Hk Hp) as [?|Hrest]; [congruence|].
  pose proof (app_stop w Hw k su Hk Hp) as Hst. unfold rests, turning in *.
  destruct (loop su) as [|[]|m []|]; try done.
  destruct Hrest as [?|[? ?]]; [congruence|]. split_and!; [done|done|].
  destruct Hst as [?|[?|[_ [n ?]]]]; [done|done|congruence|congruence].
Qed.

(** A poll of the task always returns, however fast a broker or a handler that requeues at once
    refills the subscription: the poll of one loop ends with the loop waiting or ended, and reports at
    most [limit] items and the delivery that was in its handler. *)
Theorem app_poll_returns gates s ids w k su :
  ok s -> NoDup ids -> reachable gates s ids w -> phase w = Pass k -> subs w !! k = Some su ->
  exists w' su', step gates w PollNext = Some (Some w') /\ subs w' !! k = Some su' /\
    rests (shared w') su' /\ length (out su') <= length (out su) + limit + 1.
Proof.
  intros Hok Hnd Hr Hph Hk. pose proof (reachable_app_ok _ _ _ _ Hok Hnd Hr) as Hw.
  destruct (gated_poll_spec gates _ su (app_source w Hw) (app_subs w Hw k su Hk))
    as (sh' & su' & Hp & _ & _ & _ & Hrest & _ & Hlen).
  unfold step, Loop.step. rewrite Hph, Hk. rewrite Hp.
  eexists _, su'. split; [done|]. simpl. rewrite list_lookup_insert_eq by by eapply lookup_lt_Some.
  split_and!; [done|done|]. unfold room in Hlen. destruct (loop su) as [| |m []|]; lia.
Qed.

(** A stop reaches every loop: the poll of a loop after the stop leaves it ended or finishing the
    delivery in its handler, and takes one more item off its stream at most, none where the loop was
    not waiting for one. *)
Theorem stop_ends_every_loop gates s ids w k su w' :
  ok s -> NoDup ids -> reachable gates s ids w -> phase w = Pass k -> subs w !! k = Some su ->
  stop (shared w) = true -> step gates w PollNext = Some (Some w') ->
  exists su', subs w' !! k = Some su' /\
    match loop su' with Ended | Handling _ false => True | _ => False end /\
    taken su' <= taken su + (if turning su then 1 else 0).
Proof.
  intros Hok Hnd Hr Hph Hk Hst. pose proof (reachable_app_ok _ _ _ _ Hok Hnd Hr) as Hw.
  unfold step, Loop.step. rewrite Hph, Hk.
  destruct (gated_poll_spec gates _ su (app_source w Hw) (app_subs w Hw k su Hk))
    as (sh' & su' & Hp & _ & _ & _ & Hrest & Hturn & _).
  rewrite Hp. intros [= <-]. exists su'. simpl.
  rewrite list_lookup_insert_eq by by eapply lookup_lt_Some.
  unfold Loop.gated_poll in Hp. unfold idle in Hp. rewrite Hst, andb_false_r in Hp.
  destruct (poll_stopping _ _ _ _ _ _ Hst Hp) as [Hst' Hle]. split_and!; [done| |lia].
  unfold rests, turning in *. destruct (loop su') as [|[]|m []|]; try done.
  specialize (Hturn eq_refl). congruence.
Qed.
End loop_facts.

(** ** The broker of the documentation's example ([core/src/subscriber.rs])

    An inbox per subscription: the frames that wait and whether the reader's waker is parked.  With
    [expires] the frames can also be withdrawn while they wait. *)
Record Inbox := mk_inbox { frames : list nat; parked_reader : bool }.
Inductive Radio := Arrive (i frame : nat) | Expire (i : nat).

Definition inbox_poll (i : nat) (s : list Inbox) : list Inbox * poll (result nat Empty_set) * bool :=
  match s !! i with
  | Some (mk_inbox (f :: rest) r) => (<[i := mk_inbox rest r]> s, Ready (Some (Ok f)), false)
  | Some (mk_inbox [] _) => (<[i := mk_inbox [] true]> s, Pending, false)
  | None => (s, Ready None, false)
  end.
Definition inbox_ready (i : nat) (s : list Inbox) : bool :=
  match s !! i with
  | Some (mk_inbox [] _) => false
  | _ => true
  end.
Definition inbox_event (expires : bool) (e : Radio) (s : list Inbox) : list Inbox * bool :=
  match e with
  | Arrive i f =>
      match s !! i with
      | Some (mk_inbox l r) => (<[i := mk_inbox (l ++ [f]) false]> s, r)
      | None => (s, false)
      end
  | Expire i =>
      match s !! i with
      | Some (mk_inbox l r) => (if expires then <[i := mk_inbox [] r]> s else s, false)
      | None => (s, false)
      end
  end.
Definition inbox_registered (i : nat) (s : list Inbox) : bool :=
  match s !! i with
  | Some b => parked_reader b
  | None => false
  end.

Definition inboxes (expires : bool) : Source (list Inbox) nat nat Empty_set Radio := {|
  poll_next := inbox_poll;
  may_be_ready := inbox_ready;
  GATED := true;
  happen := inbox_event expires;
  registered := inbox_registered;
|}.

Section inboxes.
Context (expires : bool).
#[local] Instance the_inboxes : Source (list Inbox) nat nat Empty_set Radio := inboxes expires.

Definition inbox_ok (s : list Inbox) : Prop := True.

Lemma inbox_available i s : available i s <-> inbox_ready i s = true.
Proof.
  unfold available, inbox_ready. simpl. unfold inbox_poll. destruct (s !! i) as [[[|f l] r]|]; simpl;
    (split; [by intros [? ?]|]); [done|by eexists..].
Qed.

(** What a change by others does to an inbox. *)
Lemma inbox_change c i s s' w :
  foreign c i -> change c s = (s', w) ->
  s' !! i = s !! i \/
  exists b b', s !! i = Some b /\ s' !! i = Some b' /\
    ((frames b' <> [] /\ parked_reader b' = false /\ (parked_reader b = true -> w = true)) \/
     (expires = true /\ frames b' = [] /\ parked_reader b' = parked_reader b)).
Proof.
  intros Hf. destruct c as [[j f|j]|j]; simpl.
  - destruct (s !! j) as [[l r]|] eqn:Ej; intros [= <- <-]; [|by left].
    destruct (decide (j = i)) as [->|Hne]; [|left; by apply list_lookup_insert_ne]. right.
    eexists _, _. split; [done|]. rewrite list_lookup_insert_eq by by eapply lookup_lt_Some.
    split; [done|]. left. simpl. split; [by destruct l|done].
  - destruct (s !! j) as [[l r]|] eqn:Ej; intros [= <- <-]; [|by left]. destruct expires; [|by left].
    destruct (decide (j = i)) as [->|Hne]; [|left; by apply list_lookup_insert_ne]. right.
    eexists _, _. split; [done|]. rewrite list_lookup_insert_eq by by eapply lookup_lt_Some.
    split; [done|]. by right.
  - unfold inbox_poll. simpl in Hf.
    destruct (s !! j) as [[[|f l] r]|]; intros [= <- <-]; left; try done; by apply list_lookup_insert_ne.
Qed.

#[local] Instance inboxes_lawful : LawfulSource inbox_ok.
Proof.
  split; [done|..].
  - intros i s _ ?. by apply inbox_available.
  - intros i s s' w _. simpl. rewrite inbox_available. unfold inbox_poll, inbox_registered, inbox_ready.
    destruct (s !! i) as [[[|f l] r]|] eqn:Ei; try done. intros [= <- <-].
    rewrite list_lookup_insert_eq by by eapply lookup_lt_Some. done.
  - intros i s _. simpl. unfold inbox_registered, inbox_ready, inbox_poll.
    destruct (s !! i) as [[[|f l] r]|] eqn:Ei; simpl; try done. intros -> _. by rewrite list_insert_id.
  - intros i c s s' w _ Hf. simpl. unfold inbox_registered, inbox_ready. intros Hr Hc.
    destruct (inbox_change c i s s' w Hf Hc) as [->|(b & b' & Hb & Hb' & [(Hne & Hp & Hw)|(_ & _ & Hp)])]; [by left|..];
      rewrite Hb in Hr; rewrite Hb'.
    + right. split; [by apply Hw|]. destruct b' as [[|f l] r]; [by destruct Hne|done].
    + left. by rewrite Hp.
  - intros i c s s' w _ Hf. rewrite !inbox_available. simpl. unfold inbox_registered, inbox_ready. intros Hr Ha Hc.
    destruct (inbox_change c i s s' w Hf Hc) as [->|(b & b' & Hb & Hb' & [(Hne & Hp & Hw)|(_ & He & Hp)])];
      [done|rewrite Hb in Hr; auto|]. rewrite Hb'. destruct b' as [[|f l] r]; simpl in *; done.
Qed.

Lemma inboxes_stable : expires = false -> StableProbe inbox_ok.
Proof.
  intros He. split. intros i c s _ Hf. simpl. destruct (change c s) as [s' w] eqn:Ec.
  unfold inbox_ready. simpl.
  destruct (inbox_change c i s s' w Hf Ec) as [->|(b & b' & Hb & Hb' & [(Hne & _)|(? & _)])]; [done| |congruence].
  intros _. rewrite Hb'. by destruct b' as [[|f l] r]; [destruct Hne|].
Qed.
End inboxes.

(** An app of the example's broker; every handler ends in the poll that starts it, but for a frame 9. *)
Definition at_once_but_9 (m : nat) : bool := negb (m =? 9).
Definition radio_app (expires gates : bool) (s : list Inbox) (schedule : list (@Actor Radio)) :=
  run (H := inboxes expires) YIELD_AFTER at_once_but_9 (fun _ => []) (fun _ => false) gates
    (initial s (seq 0 (length s))) schedule.

(** One poll of the task over one loop. *)
Definition one_poll : list (@Actor Radio) := [Begin; PollNext; PollNext].

(** 129 frames wait; the loop takes 128 and yields, the last one expires before it runs again, and
    then another arrives. *)
Definition withdrawing : list (@Actor Radio) :=
  one_poll ++ [Happens (Expire 0)] ++ one_poll ++ [Happens (Arrive 0 7)].
Definition crowded : list Inbox := [mk_inbox (replicate 129 1) false].

(** The documented contract of [ReadyHint] is not enough for a broker that withdraws what waits: the
    stream's bound answers [Pending] in the stream's place, with no waker registered, and where the
    rest is withdrawn before the next poll the gate skips the loop.  There is a run, under a broker
    that keeps the contract, in which the task is asleep over a subscription whose next poll has a
    delivery, and the app without gates is not. *)
Theorem withdrawn_delivery_stalls :
  LawfulSource (H := inboxes true) inbox_ok /\
  (exists w, radio_app true true crowded withdrawing = Some w /\
    phase w = Asleep /\ woken (shared w) = false /\ stop (shared w) = false /\
    (loop <$> subs w) = [Turning true] /\ available (H := inboxes true) 0 (source (shared w))) /\
  (exists w, radio_app true false crowded withdrawing = Some w /\ woken (shared w) = true).
Proof.
  split; [apply inboxes_lawful|]. split.
  - destruct (radio_app true true crowded withdrawing) as [w|] eqn:Ew; [|by vm_compute in Ew].
    exists w. vm_compute in Ew. injection Ew as <-. split_and!; try done. by eexists.
  - destruct (radio_app true false crowded withdrawing) as [w|] eqn:Ew; [|by vm_compute in Ew].
    exists w. vm_compute in Ew. by injection Ew as <-.
Qed.

(** ** Witnesses: two subscriptions, the first with a frame whose handler takes its time *)

Definition two_inboxes : list Inbox := [mk_inbox [1; 9; 2] false; mk_inbox [] false].
Definition pass : list (@Actor Radio) := [Begin; PollNext; PollNext; PollNext].

Lemma loop_run_reachable {S Id M E Ev} `{Source S Id M E Ev} limit at_once handled halts gates s ids schedule w w' :
  reachable limit at_once handled halts gates s ids w ->
  run limit at_once handled halts gates w schedule = Some w' -> reachable limit at_once handled halts gates s ids w'.
Proof.
  revert w. induction schedule as [|a l IH]; intros w Hw; simpl; [by intros [= <-]|].
  destruct (step limit at_once handled halts gates w a) as [[w1|]|] eqn:Es; [|done|by apply IH].
  apply IH. by eapply reach_step.
Qed.

#[local] Instance radio : Source (list Inbox) nat nat Empty_set Radio := inboxes false.
#[local] Instance radio_lawful : LawfulSource inbox_ok := inboxes_lawful false.
#[local] Instance radio_stable : StableProbe inbox_ok := inboxes_stable false eq_refl.

Definition radio_world (schedule : list (@Actor Radio)) : World :=
  default (initial two_inboxes [0; 1]) (radio_app false true two_inboxes schedule).

Lemma radio_reachable schedule :
  reachable YIELD_AFTER at_once_but_9 (fun _ => []) (fun _ => false) true two_inboxes [0; 1] (radio_world schedule).
Proof.
  unfold radio_world. destruct (radio_app false true two_inboxes schedule) as [w|] eqn:Ew; [|apply reach_initial].
  eapply loop_run_reachable; [apply reach_initial|exact Ew].
Qed.

Definition parked_app : World := radio_world pass.
Definition mid_pass : World := radio_world [Begin; PollNext; Happens (Arrive 1 5)].
Definition stopping : World := radio_world (pass ++ [Happens (Arrive 1 5); Stops; Begin; PollNext]).

Lemma gating_is_transparent_witness :
  radio_app false true two_inboxes (pass ++ [Happens (Arrive 1 5)] ++ pass ++ [Completes 0] ++ pass) =
  radio_app false false two_inboxes (pass ++ [Happens (Arrive 1 5)] ++ pass ++ [Completes 0] ++ pass).
Proof. apply (gating_is_transparent inbox_ok); [done|]. repeat constructor; set_solver. Defined.

Lemma app_rests_asleep_witness :
  exists su, subs parked_app !! 1 = Some su /\ ~ available (id su) (source (shared parked_app)).
Proof.
  destruct (subs parked_app !! 1) as [su|] eqn:Es; [|by vm_compute in Es].
  exists su. split; [done|].
  pose proof (app_rests_asleep inbox_ok YIELD_AFTER at_once_but_9 (fun _ => []) (fun _ => false) true
    two_inboxes [0; 1] parked_app 1 su I ltac:(repeat constructor; set_solver) (radio_reachable _)
    eq_refl eq_refl Es) as Hs.
  vm_compute in Es. injection Es as <-. simpl in Hs. apply Hs.
Defined.

Lemma app_poll_returns_witness :
  exists w', step YIELD_AFTER at_once_but_9 (fun _ => []) (fun _ => false) true mid_pass PollNext = Some (Some w').
Proof.
  destruct (subs mid_pass !! 1) as [su|] eqn:Es; [|by vm_compute in Es].
  destruct (app_poll_returns inbox_ok YIELD_AFTER at_once_but_9 (fun _ => []) (fun _ => false) true
    two_inboxes [0; 1] mid_pass 1 su I ltac:(repeat constructor; set_solver) (radio_reachable _)
    eq_refl Es) as (w' & su' & Hs & _).
  by exists w'.
Defined.

Lemma stop_ends_every_loop_witness :
  exists w' su', step YIELD_AFTER at_once_but_9 (fun _ => []) (fun _ => false) true stopping PollNext = Some (Some w') /\
    subs w' !! 1 = Some su' /\ taken su' <= 1.
Proof.
  destruct (subs stopping !! 1) as [su|] eqn:Es; [|by vm_compute in Es].
  destruct (step YIELD_AFTER at_once_but_9 (fun _ => []) (fun _ => false) true stopping PollNext)
    as [[w'|]|] eqn:Ew; [|by vm_compute in Ew..].
  destruct (stop_ends_every_loop inbox_ok YIELD_AFTER at_once_but_9 (fun _ => []) (fun _ => false) true
    two_inboxes [0; 1] stopping 1 su w' I ltac:(repeat constructor; set_solver) (radio_reachable _)
    eq_refl Es eq_refl Ew) as (su' & Hs & _ & Ht).
  exists w', su'. split_and!; [done|done|].
  vm_compute in Es. injection Es as <-. exact Ht.
Defined.
End Loop.
