(* ===== verification/Filling.v ===== *)
(** * Client-side batching ([runtime-tokio/src/buffered.rs])

    [BufferedSubscriber] assembles batches on the client: [Filling] pulls the wrapped subscriber's
    deliveries into the slot the runtime lends, until it holds the size, the deadline that opened with
    its first delivery passes with nothing ready, or the wrapped stream fails or ends.  The wrapped
    stream is a source in the sense of [Loop]; the runtime polls the batch stream, takes every batch
    out of its slot and stops at the end ([batch_loop], runtime-tokio/src/dispatch.rs).  Instants are
    the clock's ticks, bounded by [INSTANT_MAX]: past it [Instant + Duration] panics. *)
From S2P Require Import Prelude RustStd Loop.

Module Filling.

Section filling.
Context {S M E Ev : Type} `{Loop.Source S unit M E Ev}.
Context (INSTANT_MAX : N).

Inductive Carry := Nothing | CarriedError (e : E) | CarriedEnd.

(** [Filling]; the deadline is the instant its timer stands at. *)
Record Filling := mk_filling {
  size : nat;
  max_wait : N;
  deadline : option N;
  open : bool;
  carry : Carry;
}.

(** [BufferedSubscriber::batches]. *)
Definition batches (size : nat) (max_wait : N) : Filling := mk_filling size max_wait None false Nothing.

(** What the wrapped stream said, in order, and what the batch stream made of it (ghosts). *)
Inductive Item := Msg (m : M) | Fault (e : E) | End.
Inductive Filled := Batch (l : list M) | FillFailed (e : E) | NoMore.

(** The wrapped stream and what a poll leaves behind: the task woken, the timer holding its waker. *)
Record Inner := mk_inner { source : S; said : list Item; inner_woken : bool; timer_waits : bool }.

Definition item_of (x : option (result M E)) : Item :=
  match x with
  | Some (Ok m) => Msg m
  | Some (Err e) => Fault e
  | None => End
  end.

Definition pull (i : Inner) : Inner * poll (result M E) :=
  let '(s, p, w) := Loop.poll_next tt (source i) in
  (mk_inner s (match p with Ready x => said i ++ [item_of x] | Pending => said i end)
     (inner_woken i || w) (timer_waits i), p).

(** The poll of the deadline's [Sleep]. *)
Definition expired (f : Filling) (now : N) : bool :=
  match deadline f with
  | Some due => (due <=? now)%N
  | None => false
  end.

(** What ends the filling of a batch. *)
Inductive Stopped := Closes (c : Carry) | StillWaits.

(** The loop that takes what is ready, with room for as many rounds as the slot has places. *)
Fixpoint take_ready (fuel : nat) (f : Filling) (now : N) (i : Inner) (slot : list M) : Inner * list M * Stopped :=
  match fuel with
  | 0 => (i, slot, Closes Nothing)
  | Datatypes.S fuel =>
      if length slot <? size f then
        let (i, p) := pull i in
        match p with
        | Ready (Some (Ok next)) => take_ready fuel f now i (slot ++ [next])
        | Ready (Some (Err err)) => (i, slot, Closes (CarriedError err))
        | Ready None => (i, slot, Closes CarriedEnd)
        | Pending =>
            if expired f now then (mk_inner (source i) (said i) (inner_woken i) false, slot, Closes Nothing)
            else (mk_inner (source i) (said i) (inner_woken i) (bool_decide (is_Some (deadline f))), slot, StillWaits)
        end
      else (i, slot, Closes Nothing)
  end.

Definition close_with (f : Filling) (c : Carry) : Filling := mk_filling (size f) (max_wait f) (deadline f) false c.

(** The batch opened by its first delivery; [None] is the panic of [Instant + Duration]. *)
Definition open_batch (f : Filling) (now : N) : option Filling :=
  if 1 <? size f then
    if (now + max_wait f <=? INSTANT_MAX)%N
    then Some (mk_filling (size f) (max_wait f) (Some (now + max_wait f)%N) true Nothing)
    else None
  else Some (mk_filling (size f) (max_wait f) (deadline f) true Nothing).

Definition fill_open (f : Filling) (now : N) (i : Inner) (slot : list M)
  : Filling * Inner * list M * poll (result unit E) :=
  match take_ready (Datatypes.S (size f)) f now i slot with
  | (i, slot, Closes c) => (close_with f c, i, slot, Ready (Some (Ok tt)))
  | (i, slot, StillWaits) => (f, i, slot, Pending)
  end.

(** [poll_fill]. *)
Definition poll_fill (f : Filling) (now : N) (i : Inner) (slot : list M)
  : option (Filling * Inner * list M * poll (result unit E)) :=
  match carry f with
  | CarriedError err => Some (mk_filling (size f) (max_wait f) (deadline f) (open f) Nothing, i, slot, Ready (Some (Err err)))
  | CarriedEnd => Some (mk_filling (size f) (max_wait f) (deadline f) (open f) Nothing, i, slot, Ready None)
  | Nothing =>
      if open f then Some (fill_open f now i slot)
      else
        let (i, p) := pull i in
        match p with
        | Ready None => Some (f, i, slot, Ready None)
        | Ready (Some (Err err)) => Some (f, i, slot, Ready (Some (Err err)))
        | Ready (Some (Ok first)) => f ← open_batch f now; Some (fill_open f now i (slot ++ [first]))
        | Pending => Some (f, i, slot, Pending)
        end
  end.

(** ** The batch stream at work *)

(** The stream with its wrapped subscriber, the slot, the clock, whether the task is marked to run,
    whether the loop saw the end, what the loop was handed; and the instant the batch opened at. *)
Record World := mk_world {
  filling : Filling;
  inner : Inner;
  slot : list M;
  now : N;
  done : bool;
  handed : list Filled;
  (** ghost *)
  opened_at : N;
}.

Definition initial (s : S) (size : nat) (max_wait : N) : World :=
  mk_world (batches size max_wait) (mk_inner s [] true false) [] 0 false [] 0.

Inductive Actor :=
  (** a poll of the task; whoever drops it between polls loses nothing, so any poll may be the last *)
  | Polls
  | Happens (e : Ev)
  | Ticks (to : N).

Definition set_inner (w : World) (i : Inner) : World :=
  mk_world (filling w) i (slot w) (now w) (done w) (handed w) (opened_at w).

(** The loop that was handed something polls again. *)
Definition runs_on (i : Inner) : Inner := mk_inner (source i) (said i) true (timer_waits i).

(** [None]: not enabled; [Some None]: a panic. *)
Definition step (w : World) (a : Actor) : option (option World) :=
  match a with
  | Polls =>
      if done w then None
      else
        Some (
          '(f, i, l, p) ← poll_fill (filling w) (now w)
                            (mk_inner (source (inner w)) (said (inner w)) false (timer_waits (inner w))) (slot w);
          let opened := if open (filling w) then opened_at w else now w in
          Some match p with
               | Ready (Some (Ok _)) => mk_world f (runs_on i) [] (now w) false (handed w ++ [Batch l]) opened
               | Ready (Some (Err e)) => mk_world f (runs_on i) [] (now w) false (handed w ++ [FillFailed e]) opened
               | Ready None => mk_world f i l (now w) true (handed w ++ [NoMore]) opened
               | Pending => mk_world f i l (now w) false (handed w) opened
               end)
  | Happens e =>
      let (s, wk) := Loop.happen e (source (inner w)) in
      Some (Some (set_inner w (mk_inner s (said (inner w)) (inner_woken (inner w) || wk) (timer_waits (inner w)))))
  | Ticks to =>
      if (to <? now w)%N then None
      else
        let fires := timer_waits (inner w) && expired (filling w) to in
        Some (Some (mk_world (filling w)
          (mk_inner (source (inner w)) (said (inner w)) (inner_woken (inner w) || fires)
             (timer_waits (inner w) && negb fires))
          (slot w) to (done w) (handed w) (opened_at w)))
  end.

Inductive reachable (s : S) (n : nat) (wait : N) : World -> Prop :=
  | reach_initial : reachable s n wait (initial s n wait)
  | reach_step w a w' : reachable s n wait w -> step w a = Some (Some w') -> reachable s n wait w'.

Definition flat (o : Filled) : list Item :=
  match o with
  | Batch l => Msg <$> l
  | FillFailed e => [Fault e]
  | NoMore => [End]
  end.
Definition carried (c : Carry) : list Item :=
  match c with
  | Nothing => []
  | CarriedError e => [Fault e]
  | CarriedEnd => [End]
  end.

(** ** What a poll does *)

Context (ok : S -> Prop) `{!Loop.LawfulSource ok}.

Abbreviation available s := (Loop.available tt s).
Abbreviation registered s := (Loop.registered tt s).

Definition quiet (i : Inner) : Prop := registered (source i) = true /\ ~ available (source i).

Lemma pull_spec i i' p :
  ok (source i) -> pull i = (i', p) ->
  ok (source i') /\ timer_waits i' = timer_waits i /\
  match p with
  | Ready x => said i' = said i ++ [item_of x] /\ available (source i)
  | Pending => said i' = said i /\ quiet i' /\ ~ available (source i)
  end.
Proof.
  intros Hok. unfold pull. pose proof (Loop.change_ok (Loop.ByPoll tt) (source i) Hok) as Hok'. simpl in Hok'.
  destruct (Loop.poll_next tt (source i)) as [[s q] w] eqn:Ep. intros [= <- <-]. simpl in *.
  split_and!; [done|done|]. destruct q as [x|].
  - split; [done|]. exists x. by rewrite Ep.
  - split; [done|]. split; [exact (Loop.pending_registers tt (source i) s w Hok Ep)|]. intros [x Hx]. by rewrite Ep in Hx.
Qed.

Lemma pull_ready i : available (source i) -> exists i' x, pull i = (i', Ready x).
Proof.
  intros [x Hx]. unfold pull. destruct (Loop.poll_next tt (source i)) as [[s q] w]. simpl in Hx. subst q.
  by eexists _, _.
Qed.

Lemma take_ready_spec fuel f now_ i slot_ i' slot' st :
  ok (source i) -> size f - length slot_ < fuel -> length slot_ <= size f ->
  take_ready fuel f now_ i slot_ = (i', slot', st) ->
  ok (source i') /\
  (exists l, slot' = slot_ ++ l /\ length slot' <= size f /\
    said i' = said i ++ (Msg <$> l) ++ match st with Closes c => carried c | StillWaits => [] end) /\
  match st with
  | Closes c =>
      length slot' < size f -> c = Nothing -> expired f now_ = true /\ quiet i'
  | StillWaits =>
      length slot' < size f /\ expired f now_ = false /\ quiet i' /\
      timer_waits i' = bool_decide (is_Some (deadline f))
  end.
Proof.
  revert i slot_. induction fuel as [|fuel IH]; intros i slot_ Hok Hf Hle; [lia|]. simpl.
  destruct (Nat.ltb_spec (length slot_) (size f)) as [Hlt|Hge]; cycle 1.
  { intros [= <- <- <-]. split_and!; [done| |lia]. exists []. rewrite !app_nil_r. by split_and!. }
  destruct (pull i) as [i1 p] eqn:Ep. destruct (pull_spec i i1 p Hok Ep) as (Hok1 & Ht1 & Hp).
  destruct p as [[[m|e]|]|].
  - intros Hr. destruct Hp as [Hs1 _].
    destruct (IH i1 (slot_ ++ [m]) Hok1) as (Hok' & (l & -> & Hlen & Hsaid) & Hst); [rewrite length_app; simpl; lia..|done|].
    split_and!; [done| |done]. exists (m :: l). rewrite Hsaid, Hs1. simpl. rewrite <-!app_assoc in *. simpl in *.
    by split_and!.
  - intros [= <- <- <-]. destruct Hp as [Hs1 _]. split_and!; [done| |done]. exists [].
    rewrite app_nil_r, Hs1. by split_and!.
  - intros [= <- <- <-]. destruct Hp as [Hs1 _]. split_and!; [done| |done]. exists [].
    rewrite app_nil_r, Hs1. by split_and!.
  - destruct Hp as (Hs1 & Hq & _). destruct (expired f now_) eqn:Ex; intros [= <- <- <-]; simpl.
    + split_and!; [done| |done]. exists []. rewrite !app_nil_r, Hs1. by split_and!.
    + split_and!; try done. exists []. rewrite !app_nil_r, Hs1. by split_and!.
Qed.

(** ** The invariant *)

Definition sized (n : nat) (o : Filled) : Prop :=
  match o with
  | Batch l => 1 <= length l <= n
  | _ => True
  end.

Definition ended (w : World) : bool := done w || match carry (filling w) with CarriedEnd => true | _ => false end.

Record fill_ok (n : nat) (wait : N) (w : World) : Prop := {
  fo_source : ok (source (inner w));
  fo_shape : size (filling w) = n /\ max_wait (filling w) = wait;
  fo_log : concat (flat <$> handed w) ++ (Msg <$> slot w) ++ carried (carry (filling w)) = said (inner w);
  fo_handed : Forall (sized n) (handed w);
  fo_slot :
    if open (filling w)
    then carry (filling w) = Nothing /\ slot w <> [] /\ length (slot w) < n /\
         deadline (filling w) = Some (opened_at w + wait)%N
    else slot w = [];
  fo_end : exists l, (End ∉ l) /\ said (inner w) = l ++ (if ended w then [End] else []);
  fo_done : done w = true -> carry (filling w) = Nothing /\ open (filling w) = false;
  fo_rest :
    done w = true \/ inner_woken (inner w) = true \/
    (carry (filling w) = Nothing /\ quiet (inner w) /\
     (open (filling w) = true -> timer_waits (inner w) = true /\ expired (filling w) (now w) = false));
}.

Lemma initial_fill_ok s n wait : ok s -> fill_ok n wait (initial s n wait).
Proof.
  intros Hok. split; simpl; try done; [exists []; split; [apply not_elem_of_nil|done]|by right; left].
Qed.

(** What filling an open batch does. *)
Lemma fill_open_spec f now_ i slot_ f' i' slot' p :
  ok (source i) -> slot_ <> [] -> length slot_ <= size f -> carry f = Nothing ->
  fill_open f now_ i slot_ = (f', i', slot', p) ->
  ok (source i') /\ size f' = size f /\ max_wait f' = max_wait f /\ deadline f' = deadline f /\
  (exists l, slot' = slot_ ++ l /\ length slot' <= size f /\ said i' = said i ++ (Msg <$> l) ++ carried (carry f')) /\
  match p with
  | Ready (Some (Ok _)) =>
      open f' = false /\ (length slot' < size f -> carry f' = Nothing -> expired f now_ = true /\ quiet i')
  | Pending =>
      f' = f /\ length slot' < size f /\ expired f now_ = false /\ quiet i' /\
      timer_waits i' = bool_decide (is_Some (deadline f))
  | _ => False
  end.
Proof.
  intros Hok Hne Hle Hc. unfold fill_open.
  destruct (take_ready (Datatypes.S (size f)) f now_ i slot_) as [[i1 l1] st] eqn:Et.
  assert (Hf : size f - length slot_ < Datatypes.S (size f)) by lia.
  destruct (take_ready_spec _ _ _ _ _ _ _ _ Hok Hf Hle Et) as (Hok' & (l & -> & Hlen & Hsaid) & Hst).
  destruct st as [c|]; intros [= <- <- <- <-]; simpl; split_and!; try done.
  - exists l. by split_and!.
  - exists l. rewrite Hc. by split_and!.
  - apply Hst.
  - apply Hst.
  - apply Hst.
  - apply Hst.
Qed.

Definition quiet_poll (w : World) : Inner :=
  mk_inner (source (inner w)) (said (inner w)) false (timer_waits (inner w)).

Lemma concat_snoc (l : list (list Item)) x : concat (l ++ [x]) = concat l ++ x.
Proof. rewrite concat_app. simpl. by rewrite app_nil_r. Qed.

Lemma msgs_no_end (l : list M) : End ∉ (Msg <$> l : list Item).
Proof. intros (m & ? & ?)%list_elem_of_fmap. done. Qed.

(** The log after an open batch was filled: nothing is lost between the slot and the stream. *)
Lemma filled_keeps n wait f now_ i slot_ (w : World) f1 i1 slot1 p opened :
  0 < n -> ok (source i) -> size f = n -> max_wait f = wait -> carry f = Nothing -> open f = true ->
  slot_ <> [] -> length slot_ <= n -> (n = 1 \/ deadline f = Some (opened + wait)%N) ->
  concat (flat <$> handed w) ++ (Msg <$> slot_) = said i -> Forall (sized n) (handed w) ->
  End ∉ said i -> now_ = now w ->
  fill_open f now_ i slot_ = (f1, i1, slot1, p) ->
  fill_ok n wait
    match p with
    | Ready (Some (Ok _)) => mk_world f1 (runs_on i1) [] (now w) false (handed w ++ [Batch slot1]) opened
    | Ready (Some (Err e)) => mk_world f1 (runs_on i1) [] (now w) false (handed w ++ [FillFailed e]) opened
    | Ready None => mk_world f1 i1 slot1 (now w) true (handed w ++ [NoMore]) opened
    | Pending => mk_world f1 i1 slot1 (now w) false (handed w) opened
    end.
Proof.
  intros Hn Hok Hsz Hmw Hc Ho Hne Hle Hdl Hlog Hh Hend -> Hf. rewrite <-Hsz in Hle.
  destruct (fill_open_spec _ _ _ _ _ _ _ _ Hok Hne Hle Hc Hf)
    as (Hok' & Hs' & Hm' & Hd' & (l & -> & Hlen & Hsaid) & Hp).
  assert (Hlen1 : 1 <= length (slot_ ++ l)) by (rewrite length_app; destruct slot_; [done|simpl; lia]).
  assert (Hnoend : End ∉ said i ++ (Msg <$> l)).
  { rewrite elem_of_app. intros [?|?]; [done|by apply (msgs_no_end l)]. }
  destruct p as [[[[]|e]|]|]; [|done|done|].
  - destruct Hp as [Hop _]. split; simpl; try done.
    + split; congruence.
    + rewrite fmap_app. simpl. rewrite concat_snoc, fmap_app, Hsaid, <-Hlog. by rewrite <-!app_assoc.
    + apply Forall_app. split; [done|]. constructor; [|done]. simpl. lia.
    + by rewrite Hop.
    + unfold ended. simpl. rewrite Hsaid. destruct (carry f1) as [|e|]; simpl.
      * eexists. split; [exact Hnoend|]. by rewrite !app_nil_r.
      * exists (said i ++ (Msg <$> l) ++ [Fault e]). rewrite app_nil_r, app_assoc. split; [|done].
        rewrite elem_of_app. intros [?|Hx]; [done|]. by apply list_elem_of_singleton in Hx.
      * eexists. split; [exact Hnoend|]. by rewrite app_assoc.
    + auto.
  - destruct Hp as (-> & Hlt & Hex & Hq & Ht). rewrite Hc in Hsaid. simpl in Hsaid. rewrite app_nil_r in Hsaid.
    assert (Hd : deadline f = Some (opened + wait)%N) by (destruct Hdl; [lia|done]).
    split; simpl; try done.
    + rewrite Hc, Hsaid, <-Hlog, fmap_app. simpl. by rewrite app_nil_r, <-!app_assoc.
    + rewrite Ho. split_and!; [done| |lia|done]. by destruct slot_.
    + unfold ended. simpl. rewrite Hc, Hsaid. eexists. split; [exact Hnoend|]. by rewrite app_nil_r.
    + right. right. split_and!; [done|done|]. intros _. split; [|done]. rewrite Ht, Hd. by apply bool_decide_eq_true.
Qed.

Lemma world_set_inner (n : nat) wait (w : World) s wk t now_ :
  fill_ok n wait w -> ok s -> (inner_woken (inner w) = true -> wk = true) ->
  (wk = true \/ (quiet (inner w) -> registered s = true /\ ~ available s)) ->
  (wk = true \/ (open (filling w) = true -> timer_waits (inner w) = true -> expired (filling w) (now w) = false ->
     t = true /\ expired (filling w) now_ = false)) ->
  fill_ok n wait (mk_world (filling w) (mk_inner s (said (inner w)) wk t) (slot w) now_ (done w) (handed w) (opened_at w)).
Proof.
  intros [] Hok Hwk Hq Ht. split; try done. simpl.
  destruct fo_rest0 as [?|[?|(Hc & Hqu & Hop)]]; [by left|by right; left; auto|].
  destruct Hq as [?|Hq]; [by right; left|]. destruct Ht as [?|Ht]; [by right; left|].
  right. right. split_and!; [done|by apply Hq|]. intros Ho. destruct (Hop Ho). by apply Ht.
Qed.

Lemma fill_poll_keeps n wait (w w' : World) : 0 < n -> fill_ok n wait w -> step w Polls = Some (Some w') -> fill_ok n wait w'.
Proof.
  intros Hn Hw. pose proof Hw as [Hok [Hsz Hmw] Hlog Hh Hslot (l0 & Hl0 & Hend) Hdone Hrest].
  unfold step. destruct (done w) eqn:Ed; [done|]. unfold ended in Hend. rewrite Ed in Hend. simpl in Hend.
  fold (quiet_poll w). unfold poll_fill. destruct (carry (filling w)) as [|e|] eqn:Ec.
  - assert (Hne : End ∉ said (inner w)) by (rewrite Hend, app_nil_r; done).
    simpl in Hlog. rewrite app_nil_r in Hlog. destruct (open (filling w)) eqn:Eo.
    + destruct Hslot as (_ & Hs & Hlt & Hd).
      destruct (fill_open (filling w) (now w) (quiet_poll w) (slot w)) as [[[f1 i1] slot1] p] eqn:Ef. simpl. intros [= <-].
      apply (filled_keeps n wait (filling w) (now w) (quiet_poll w) (slot w)); try done; try lia. by right.
    + rewrite Hslot in *. simpl in Hlog. rewrite app_nil_r in Hlog. destruct (pull (quiet_poll w)) as [i p] eqn:Ep.
      destruct (pull_spec (quiet_poll w) i p Hok Ep) as (Hoki & Hti & Hp). simpl in Hp, Hti.
      destruct p as [[[m|e]|]|]; simpl.
      * destruct (open_batch (filling w) (now w)) as [f0|] eqn:Eob; [|done]. simpl.
        assert (Hf0 : size f0 = n /\ max_wait f0 = wait /\ carry f0 = Nothing /\ open f0 = true /\
                      (n = 1 \/ deadline f0 = Some (now w + wait)%N)).
        { unfold open_batch in Eob. rewrite Hsz, Hmw in Eob.
          destruct (Nat.ltb_spec 1 n); [destruct (_ <=? _)%N; [|done]|]; injection Eob as <-; simpl;
            (split_and!; [done..|]); [by right|left; lia]. }
        destruct Hf0 as (Hs0 & Hm0 & Hc0 & Ho0 & Hd0). destruct Hp as [Hsaid _]. simpl in Hsaid.
        destruct (fill_open f0 (now w) i [m]) as [[[f1 i1] slot1] p] eqn:Ef. intros [= <-].
        apply (filled_keeps n wait f0 (now w) i [m]); try done; [simpl; by rewrite Hsaid, Hlog|].
        rewrite Hsaid, elem_of_app. intros [?|Hx]; [done|]. by apply list_elem_of_singleton in Hx.
      * intros [= <-]. destruct Hp as [Hsaid _]. simpl in Hsaid. split; simpl; try done.
        -- rewrite fmap_app. simpl. rewrite concat_snoc, Ec, Hsaid, <-Hlog. simpl. by rewrite app_nil_r.
        -- apply Forall_app. split; [done|]. by constructor.
        -- by rewrite Eo.
        -- unfold ended. simpl. rewrite Ec, Hsaid. exists (said (inner w) ++ [Fault e]). rewrite app_nil_r. split; [|done].
           rewrite elem_of_app. intros [?|Hx]; [done|]. by apply list_elem_of_singleton in Hx.
        -- by right; left.
      * intros [= <-]. destruct Hp as [Hsaid _]. simpl in Hsaid. split; simpl; try done.
        -- rewrite fmap_app. simpl. rewrite concat_snoc, Ec, Hsaid, <-Hlog. simpl. by rewrite app_nil_r.
        -- apply Forall_app. split; [done|]. by constructor.
        -- by rewrite Eo.
        -- unfold ended. simpl. by exists (said (inner w)).
        -- by left.
      * intros [= <-]. destruct Hp as (Hsaid & Hq & _). simpl in Hsaid. split; simpl; try done.
        -- rewrite Ec, Hsaid, <-Hlog. simpl. by rewrite app_nil_r.
        -- by rewrite Eo.
        -- unfold ended. simpl. rewrite Ec, Hsaid. exists (said (inner w)). by rewrite app_nil_r.
        -- right. right. rewrite Eo. by split_and!.
  - simpl. intros [= <-]. assert (Eo : open (filling w) = false) by (destruct (open (filling w)); [by destruct Hslot|done]).
    rewrite Eo in Hslot. rewrite Hslot in Hlog. simpl in Hlog. split; simpl; try done.
    + rewrite fmap_app. simpl. by rewrite concat_snoc, <-Hlog, app_nil_r.
    + apply Forall_app. split; [done|]. by constructor.
    + by rewrite Eo.
    + unfold ended. simpl. by exists l0.
    + by right; left.
  - simpl. intros [= <-]. assert (Eo : open (filling w) = false) by (destruct (open (filling w)); [by destruct Hslot|done]).
    rewrite Eo in Hslot. rewrite Hslot in *. simpl in Hlog. split; simpl; try done.
    + rewrite fmap_app. simpl. by rewrite concat_snoc, <-Hlog, app_nil_r.
    + apply Forall_app. split; [done|]. by constructor.
    + by rewrite Eo.
    + unfold ended. simpl. by exists l0.
    + by left.
Qed.

Lemma fill_step_keeps n wait (w w' : World) a :
  0 < n -> fill_ok n wait w -> step w a = Some (Some w') -> fill_ok n wait w'.
Proof.
  intros Hn Hw. destruct a as [|e|to]; [by apply fill_poll_keeps| |]; simpl.
  - destruct (Loop.happen e (source (inner w))) as [s wk] eqn:Eh. intros [= <-].
    pose proof (fo_source n wait w Hw) as Hok.
    apply world_set_inner; [done|..].
    + pose proof (Loop.change_ok (Loop.ByEvent e) _ Hok) as Hc. simpl in Hc. by rewrite Eh in Hc.
    + by intros ->.
    + destruct wk; [left; apply orb_true_r|]. right. intros [Hr Ha].
      destruct (Loop.registration_stands tt (Loop.ByEvent e) _ s false Hok I Hr Eh) as [?|[? _]]; [|done].
      split; [done|]. intros Hav. by pose proof (Loop.delivery_wakes tt (Loop.ByEvent e) _ s false Hok I Hr Ha Eh Hav).
    + right. by intros _ -> ->.
  - destruct (N.ltb_spec to (now w)); [done|]. intros [= <-].
    destruct (timer_waits (inner w)) eqn:Et; simpl; [destruct (expired (filling w) to) eqn:Ex; simpl|];
      (apply world_set_inner; [done|by eapply fo_source|intros ->; by rewrite ?orb_true_r| |]).
    + left. apply orb_true_r.
    + left. apply orb_true_r.
    + right. by destruct (inner w).
    + right. by intros.
    + right. by destruct (inner w).
    + right. intros _ Hf. congruence.
Qed.

Lemma fill_reachable s n wait w : 0 < n -> ok s -> reachable s n wait w -> fill_ok n wait w.
Proof. intros Hn Hok. induction 1; [by apply initial_fill_ok|by eapply fill_step_keeps]. Qed.

(** ** What the batch stream promises *)

(** C35. The batches partition the wrapped stream: in every run, the batches handed over, the errors and
    the end between them, the deliveries in the slot and what the adapter carries are exactly what the
    wrapped stream said, in its order; no batch is empty or larger than asked for; and the wrapped
    stream is never polled past its end. *)
Theorem batches_partition_the_stream s n wait w :
  0 < n -> ok s -> reachable s n wait w ->
  concat (flat <$> handed w) ++ (Msg <$> slot w) ++ carried (carry (filling w)) = said (inner w) /\
  Forall (sized n) (handed w) /\ length (slot w) <= n /\
  exists l, (End ∉ l) /\ said (inner w) = l ++ (if ended w then [End] else []).
Proof.
  intros Hn Hok Hr. destruct (fill_reachable s n wait w Hn Hok Hr) as [_ _ Hlog Hh Hslot Hend _ _].
  split_and!; [done|done| |done]. destruct (open (filling w)); [lia|rewrite Hslot; simpl; lia].
Qed.

(** A partial batch closes in time: while the task sleeps the wrapped stream has nothing to say and
    holds its waker, and a batch that has begun has its timer set, still ahead, at [max_wait] past its
    first delivery; and any poll at or past that instant hands the batch over, with whatever came
    since, whether the timer woke the task or a delivery did. *)
Theorem partial_batch_closes_in_time s n wait w :
  0 < n -> ok s -> reachable s n wait w -> done w = false ->
  (inner_woken (inner w) = false ->
     quiet (inner w) /\
     (slot w <> [] -> timer_waits (inner w) = true /\ deadline (filling w) = Some (opened_at w + wait)%N /\
        (now w < opened_at w + wait)%N)) /\
  (slot w <> [] -> (opened_at w + wait <= now w)%N ->
     exists w' l, step w Polls = Some (Some w') /\ handed w' = handed w ++ [Batch (slot w ++ l)] /\
       (length (slot w ++ l) < n -> carry (filling w') = Nothing -> quiet (inner w'))).
Proof.
  intros Hn Hok Hr Hd. pose proof (fill_reachable s n wait w Hn Hok Hr) as Hw.
  destruct Hw as [Hsrc [Hsz Hmw] _ _ Hslot _ _ Hrest]. split.
  - intros Hwk. destruct Hrest as [?|[?|(Hc & Hq & Ho)]]; [congruence|congruence|]. split; [done|].
    intros Hs. destruct (open (filling w)); [|done]. destruct Hslot as (_ & _ & _ & Hdl). destruct (Ho eq_refl) as [Ht Hex].
    split_and!; [done|done|]. unfold expired in Hex. rewrite Hdl in Hex. by apply N.leb_gt.
  - intros Hs Hpast. destruct (open (filling w)) eqn:Eo; [|done]. destruct Hslot as (Hc & _ & Hlt & Hdl).
    unfold step. rewrite Hd. fold (quiet_poll w). unfold poll_fill. rewrite Hc, Eo.
    destruct (fill_open (filling w) (now w) (quiet_poll w) (slot w)) as [[[f1 i1] slot1] p] eqn:Ef. simpl.
    rewrite <-Hsz in Hlt.
    destruct (fill_open_spec (filling w) (now w) (quiet_poll w) (slot w) f1 i1 slot1 p Hsrc Hs ltac:(lia) Hc Ef)
      as (_ & _ & _ & _ & (l & -> & Hlen & _) & Hp).
    destruct p as [[[[]|e]|]|]; [|done|done|].
    + eexists _, l. simpl. split_and!; [done|done|]. intros Hl Hcar. apply Hp; [by rewrite Hsz|done].
    + destruct Hp as (_ & _ & Hex & _). unfold expired in Hex. rewrite Hdl in Hex. apply N.leb_gt in Hex. lia.
Qed.

(** The only panic of the adapter: opening a batch of more than one delivery computes the deadline
    with [Instant + Duration], which panics where the sum passes the last instant, so a subscription
    with a [max_wait] that long panics at its first delivery, and at nothing else. *)
Theorem batch_deadline_overflow s n wait w :
  0 < n -> ok s -> reachable s n wait w -> done w = false ->
  (step w Polls = Some None <->
   carry (filling w) = Nothing /\ open (filling w) = false /\ 1 < n /\ (INSTANT_MAX < now w + wait)%N /\
   exists m, (pull (quiet_poll w)).2 = Ready (Some (Ok m))).
Proof.
  intros Hn Hok Hr Hd. pose proof (fill_reachable s n wait w Hn Hok Hr) as [_ [Hsz Hmw] _ _ _ _ _ _].
  unfold step. rewrite Hd. fold (quiet_poll w). unfold poll_fill.
  destruct (carry (filling w)); [|simpl; split; [done|by intros (? & _)]..].
  destruct (open (filling w)).
  { destruct (fill_open _ _ _ _) as [[[? ?] ?] ?]. simpl. split; [done|by intros (_ & ? & _)]. }
  destruct (pull (quiet_poll w)) as [i [[[m|e]|]|]]; simpl; cycle 1.
  1-3: (split; [done|]; by intros (_ & _ & _ & _ & m0 & ?)).
  unfold open_batch. rewrite Hsz, Hmw. destruct (Nat.ltb_spec 1 n); [destruct (N.leb_spec (now w + wait) INSTANT_MAX)|]; simpl.
  - destruct (fill_open _ _ _ _) as [[[? ?] ?] ?]. simpl. split; [done|]. intros (_ & _ & _ & ? & _). lia.
  - split; [|done]. intros _. split_and!; try done. by exists m.
  - destruct (fill_open _ _ _ _) as [[[? ?] ?] ?]. simpl. split; [done|]. intros (_ & _ & ? & _). lia.
Qed.
End filling.

(** One subscription of a broker that serves several. *)
Section only.
Context {S Id M E Ev : Type} `{Loop.Source S Id M E Ev} (i : Id).

Definition only : Loop.Source S unit M E Ev := {|
  Loop.poll_next _ := Loop.poll_next i;
  Loop.may_be_ready _ := Loop.may_be_ready i;
  Loop.GATED := Loop.GATED;
  Loop.happen := Loop.happen;
  Loop.registered _ := Loop.registered i;
|}.

Lemma only_lawful (ok : S -> Prop) `{!Loop.LawfulSource ok} : Loop.LawfulSource (H := only) ok.
Proof.
  split.
  - intros [e|[]] s Hok; [apply (Loop.change_ok (H := H) (Loop.ByEvent e) s Hok)|apply (Loop.change_ok (H := H) (Loop.ByPoll i) s Hok)].
  - intros [] s. apply (Loop.ready_says_so (H := H) i s).
  - intros [] s s' w. apply (Loop.pending_registers (H := H) i s s' w).
  - intros [] s. apply (Loop.pending_again (H := H) i s).
  - intros [] [e|[]] s s' w Hok Hf; [|done]. by apply (Loop.registration_stands (H := H) i (Loop.ByEvent e) s s' w Hok).
  - intros [] [e|[]] s s' w Hok Hf; [|done]. by apply (Loop.delivery_wakes (H := H) i (Loop.ByEvent e) s s' w Hok).
Qed.
End only.

(** ** Witnesses: the radio's subscription in batches of three, a wait of ten ticks *)

#[local] Instance radio_line : Loop.Source (list Loop.Inbox) unit nat Empty_set Loop.Radio :=
  only (H := Loop.inboxes false) 0.
#[local] Instance radio_line_lawful : Loop.LawfulSource (H := radio_line) Loop.inbox_ok.
Proof. apply only_lawful, Loop.inboxes_lawful. Qed.

Abbreviation RadioWorld := (@World (list Loop.Inbox) nat Empty_set).

Fixpoint play (w : RadioWorld) (schedule : list (@Actor Loop.Radio)) : option RadioWorld :=
  match schedule with
  | [] => Some w
  | a :: schedule => match step 1000 w a with Some (Some w) => play w schedule | _ => None end
  end.

Lemma filling_play_reachable s n wait w schedule w' :
  reachable 1000 s n wait w -> play w schedule = Some w' -> reachable 1000 s n wait w'.
Proof.
  revert w. induction schedule as [|a l IH]; intros w Hw; simpl; [by intros [= <-]|].
  destruct (step 1000 w a) as [[w1|]|] eqn:Es; [|done..]. apply IH. by eapply reach_step.
Qed.

Definition five_frames : list Loop.Inbox := [Loop.mk_inbox [1; 2; 3; 4; 5] false].
Definition batching (wait : N) (schedule : list (@Actor Loop.Radio)) : RadioWorld :=
  default (initial five_frames 3 wait) (play (initial five_frames 3 wait) schedule).

Lemma batching_reachable wait schedule : reachable 1000 five_frames 3 wait (batching wait schedule).
Proof.
  unfold batching. destruct (play _ schedule) as [w|] eqn:Ew; [|apply reach_initial].
  eapply filling_play_reachable; [apply reach_initial|exact Ew].
Qed.

Definition two_polls : RadioWorld := batching 10 [Polls; Polls].
Definition past_the_wait : RadioWorld := batching 10 [Polls; Polls; Ticks 10].

Lemma batches_partition_the_stream_witness :
  handed two_polls = [Batch [1; 2; 3]] /\ slot two_polls = [4; 5] /\
  concat (flat <$> handed two_polls) ++ (Msg <$> slot two_polls) ++ carried (carry (filling two_polls)) =
    said (inner two_polls).
Proof.
  split_and!; [by vm_compute..|].
  apply (batches_partition_the_stream 1000 Loop.inbox_ok five_frames 3 10 two_polls ltac:(lia) I (batching_reachable _ _)).
Defined.

Lemma past_the_wait_facts : slot past_the_wait = [4; 5] /\ opened_at past_the_wait = 0%N /\ now past_the_wait = 10%N.
Proof. by vm_compute. Qed.

Lemma partial_batch_closes_in_time_witness :
  exists w' l, step 1000 past_the_wait Polls = Some (Some w') /\
    handed w' = handed past_the_wait ++ [Batch (slot past_the_wait ++ l)].
Proof.
  destruct past_the_wait_facts as (Hs & Ho & Hn).
  destruct (proj2 (partial_batch_closes_in_time 1000 Loop.inbox_ok five_frames 3 10 past_the_wait ltac:(lia) I
    (batching_reachable _ _) eq_refl)) as (w' & l & Hw & Hh & _); [by rewrite Hs|rewrite Ho, Hn; lia|].
  exists w', l. exact (conj Hw Hh).
Defined.

Lemma batch_deadline_overflow_witness : step 1000 (batching 1001 []) Polls = Some None.
Proof.
  apply (batch_deadline_overflow 1000 Loop.inbox_ok five_frames 3 1001 (batching 1001 []) ltac:(lia) I
    (batching_reachable _ _) eq_refl).
  vm_compute. split_and!; try done; [lia|]. by eexists.
Defined.
End Filling.
