(* ===== verification/Pool.v ===== *)
(** * The worker pool of the tokio runner ([runtime-tokio/src/dispatch/pool.rs])

    A subscription with [workers(n)] starts [n] long-lived workers, each with an inbox of one place.
    The loop takes a free worker off a queue before it polls the stream and hands it what the stream
    yields; with [by_key] it hands each delivery to the worker its key hashes to.  The loop and the
    workers are tasks of a multi-thread runtime: here they interleave one channel operation at a
    time.  The channels are tokio's bounded ones ([BoundedQueue]); the stream, the shutdown and what
    becomes of a delivery in its worker (handled, or a panic past the handler) are the environment. *)
From Stdlib Require Import Ascii String.
From S2P Require Import Prelude RustStd Queue Rings.

Module Pool.

Section pool.
Context {Q : Type -> Type} `{BoundedQueue Q} `{!BoundedQueueLaws Q}.
Context {M : Type} (partition_key : M -> option bytes) (hash : bytes -> N).
Context (count : nat) (keyed : bool).

(** Where a worker is in [work]; past a panic, its [Farewell] and then its inbox are dropped. *)
Inductive WorkerPc :=
  | Receiving
  | Working (m : M)
  | Reporting
  | Dying
  | Reported
  | Dead
  | Left.

(** A worker with its inbox; and the deliveries it dispatched to their end and those that were lost
    with it (ghosts). *)
Record Worker := mk_worker { pc : WorkerPc; inbox : Q M; handled : list M; lost : list M }.

(** Where the loop of [spawn_dispatch_pool] is. *)
Inductive LoopPc :=
  | Top
  | Acquiring
  | Pulling
  | Sending (worker : nat) (m : M)
  | Joining
  | Finished.

(** The loop's state and what it shares with the workers; and the deliveries it pulled, each with the
    worker it was for (a ghost). *)
Record World := mk_world {
  loop : LoopPc;
  held : option nat;
  rotation : nat;
  free : Q nat;
  shutdown : bool;
  workers : list Worker;
  (** ghost *)
  pulled : list (nat * M);
}.

(** The receiving half of an inbox is alive; the worker's end of the free queue is. *)
Definition listens (t : Worker) : bool := match pc t with Dead | Left => false | _ => true end.
Definition reports (t : Worker) : bool := match pc t with Reported | Dead | Left => false | _ => true end.
Definition ended (t : Worker) : bool := match pc t with Dead | Left => true | _ => false end.
(** The loop's halves of the inboxes are alive. *)
Definition feeding (w : World) : bool := match loop w with Joining | Finished => false | _ => true end.

(** [start]. *)
Definition fill_free (indices : list nat) (q : Q nat) : Q nat :=
  fold_left (fun q i => default q (bq_push q i)) indices q.
Definition start : World :=
  mk_world Top None 0 (if keyed then bq_new count else fill_free (seq 0 count) (bq_new count)) false
    (replicate count (mk_worker Receiving (bq_new 1) [] [])) [].

(** What the stream answers a poll. *)
Inductive Pulled := PMessage (m : M) | PError | PEnd | PNothing.

Definition set_loop (w : World) (l : LoopPc) : World :=
  mk_world l (held w) (rotation w) (free w) (shutdown w) (workers w) (pulled w).
Definition set_held (w : World) (l : LoopPc) (h : option nat) (f : Q nat) : World :=
  mk_world l h (rotation w) f (shutdown w) (workers w) (pulled w).
Definition set_worker (w : World) (i : nat) (t : Worker) : World :=
  mk_world (loop w) (held w) (rotation w) (free w) (shutdown w) (<[i := t]> (workers w)) (pulled w).
Definition set_free (w : World) (f : Q nat) : World :=
  mk_world (loop w) (held w) (rotation w) f (shutdown w) (workers w) (pulled w).

(** The worker a delivery goes to, and the rotation after it. *)
Definition chosen (w : World) (m : M) : nat * nat :=
  match held w with
  | Some i => (i, rotation w)
  | None =>
      match partition_key m with
      | None => let r := S (rotation w) mod count in (r, r)
      | Some k => (Rings.key_index hash k count, rotation w)
      end
  end.

(** One step of the loop; [None] where it waits. *)
Definition loop_step (w : World) (answer : Pulled) : option World :=
  match loop w with
  | Top =>
      Some (set_loop w (if shutdown w then Joining
                        else if negb keyed && bool_decide (held w = None) then Acquiring else Pulling))
  | Acquiring =>
      match bq_pop (free w) with
      | Some (i, q) => Some (set_held w Pulling (Some i) q)
      | None =>
          if negb (existsb reports (workers w)) || shutdown w then Some (set_loop w Joining) else None
      end
  | Pulling =>
      match answer with
      | PMessage m =>
          let (i, r) := chosen w m in
          Some (mk_world (Sending i m) None r (free w) (shutdown w) (workers w) (pulled w ++ [(i, m)]))
      | PError => Some (set_loop w Top)
      | PEnd => Some (set_loop w Joining)
      | PNothing => if shutdown w then Some (set_loop w Joining) else None
      end
  | Sending i m =>
      match workers w !! i with
      | Some t =>
          if listens t then
            match bq_push (inbox t) m with
            | Some q => Some (set_loop (set_worker w i (mk_worker (pc t) q (handled t) (lost t))) Top)
            | None => None
            end
          else Some (set_loop (set_worker w i (mk_worker (pc t) (inbox t) (handled t) (lost t ++ [m]))) Joining)
      | None => None
      end
  | Joining => if forallb ended (workers w) then Some (set_loop w Finished) else None
  | Finished => None
  end.

(** The receiver dropped with what it holds. *)
Definition drop_inbox (t : Worker) : Worker :=
  mk_worker Dead (bq_new 1) (handled t) (lost t ++ bq_items (inbox t)).

(** One step of worker [i]; [None] where it waits or has ended. *)
Definition worker_step (w : World) (i : nat) (panics : bool) : option World :=
  match workers w !! i with
  | Some t =>
      match pc t with
      | Receiving =>
          match bq_pop (inbox t) with
          | Some (m, q) => Some (set_worker w i (mk_worker (Working m) q (handled t) (lost t)))
          | None =>
              if feeding w then None
              else Some (set_worker w i (mk_worker Left (inbox t) (handled t) (lost t)))
          end
      | Working m =>
          Some (set_worker w i
            (if panics then mk_worker Dying (inbox t) (handled t) (lost t ++ [m])
             else mk_worker (if keyed then Receiving else Reporting) (inbox t) (handled t ++ [m]) (lost t)))
      | Reporting =>
          match bq_push (free w) i with
          | Some q => Some (set_worker (set_free w q) i (mk_worker Receiving (inbox t) (handled t) (lost t)))
          | None => None
          end
      | Dying =>
          Some (if keyed then set_worker w i (drop_inbox t)
                else set_worker (set_free w (default (free w) (bq_push (free w) i))) i
                       (mk_worker Reported (inbox t) (handled t) (lost t)))
      | Reported => Some (set_worker w i (drop_inbox t))
      | Dead | Left => None
      end
  | None => None
  end.

Inductive Actor :=
  | ALoop (answer : Pulled)
  | AWorker (i : nat) (panics : bool)
  | AShutdown.

Definition step (w : World) (a : Actor) : option World :=
  match a with
  | ALoop answer => loop_step w answer
  | AWorker i panics => worker_step w i panics
  | AShutdown => Some (mk_world (loop w) (held w) (rotation w) (free w) true (workers w) (pulled w))
  end.

Inductive reachable : World -> Prop :=
  | reach_start : reachable start
  | reach_step w a w' : reachable w -> step w a = Some w' -> reachable w'.

(** ** The invariant *)

Definition hand (t : Worker) : list M := match pc t with Working m => [m] | _ => [] end.
Definition sending (w : World) (i : nat) : list M :=
  match loop w with
  | Sending j m => if decide (j = i) then [m] else []
  | _ => []
  end.
(** What the loop pulled for worker [i], in order. *)
Definition sent_to (w : World) (i : nat) : list M := omap (fun p => if decide (p.1 = i) then Some p.2 else None) (pulled w).

(** Where the index of a pool's worker is: free, held by the loop, on its way with a delivery, or with
    a worker that has work. *)
Definition owned (t : Worker) : nat :=
  match pc t with
  | Working _ | Reporting | Dying => 1
  | Receiving | Reported => length (bq_items (inbox t))
  | Dead | Left => 0
  end.
Definition places (w : World) (i : nat) (t : Worker) : nat :=
  Prelude.count (Nat.eqb i) (bq_items (free w)) + (if decide (held w = Some i) then 1 else 0) +
  length (sending w i) + owned t.

Record worker_ok (w : World) (i : nat) (t : Worker) : Prop := {
  wo_capacity : bq_capacity (inbox t) = 1 /\ length (bq_items (inbox t)) <= 1;
  wo_log : sent_to w i = handled t ++ lost t ++ hand t ++ bq_items (inbox t) ++ sending w i;
  wo_lost : match pc t with Dying | Reported | Dead => True | _ => lost t = [] end;
  wo_gone : ended t = true -> bq_items (inbox t) = [];
  wo_left : pc t = Left -> feeding w = false;
  wo_mode : match pc t with Reporting | Reported => keyed = false | _ => True end;
  wo_pool : keyed = false ->
    match pc t with Working _ | Reporting | Dying => bq_items (inbox t) = [] | _ => True end;
  wo_place : keyed = false -> places w i t <= 1 /\ (reports t = true -> places w i t = 1);
}.

Record loop_ok (w : World) : Prop := {
  lo_count : length (workers w) = count;
  lo_free : keyed = false -> bq_capacity (free w) = count /\ Forall (fun i => i < count) (bq_items (free w));
  lo_pc :
    match loop w with
    | Acquiring => keyed = false /\ held w = None
    | Pulling => keyed = false -> is_Some (held w)
    | Sending i _ => i < count /\ held w = None
    | _ => True
    end;
  lo_held i : held w = Some i -> i < count /\ keyed = false;
  lo_rotation : rotation w < count;
  lo_keyed i m k : keyed = true -> (i, m) ∈ pulled w -> partition_key m = Some k -> i = Rings.key_index hash k count;
  lo_sent i m : (i, m) ∈ pulled w -> i < count;
}.

Definition pool_ok (w : World) : Prop :=
  loop_ok w /\ forall i t, workers w !! i = Some t -> worker_ok w i t.

Lemma worker_ok_frame w w' i t :
  worker_ok w i t -> pulled w' = pulled w -> sending w' i = sending w i ->
  (keyed = false -> Prelude.count (Nat.eqb i) (bq_items (free w')) = Prelude.count (Nat.eqb i) (bq_items (free w))) ->
  (held w' = Some i <-> held w = Some i) -> (feeding w = false -> feeding w' = false) -> worker_ok w' i t.
Proof.
  intros [Hc Hlog Hl Hg Hleft Hm Hp Hpl] Hpu Hs Hf Hh Hfe. split; try done.
  - unfold sent_to. by rewrite Hpu, Hs.
  - auto.
  - intros Hk. unfold places. rewrite (Hf Hk), Hs.
    rewrite (decide_ext _ _ 1 0 Hh). by apply Hpl.
Qed.

(** The free queue always has room for a worker that is not in it. *)
Lemma free_room w i :
  pool_ok w -> keyed = false -> i < count -> Prelude.count (Nat.eqb i) (bq_items (free w)) = 0 ->
  exists q, bq_push (free w) i = Some q /\ bq_items q = bq_items (free w) ++ [i] /\ bq_capacity q = count.
Proof.
  intros [Hl Hw] Hk Hi Hz. destruct (lo_free w Hl Hk) as [Hcap Hall].
  assert (Hlt : length (bq_items (free w)) < count).
  { apply (indices_room _ _ i); [done| |done|done]. intros j Hj. rewrite <-(lo_count w Hl) in Hj.
    apply lookup_lt_is_Some in Hj as [t Ht]. destruct (wo_place _ _ _ (Hw j t Ht) Hk) as [Hp _]. unfold places in Hp. lia. }
  destruct (bq_push_room (free w) i) as (q & Hq & Hi' & Hc); [by rewrite Hcap|].
  exists q. split_and!; [done|done|congruence].
Qed.

Lemma fill_free_items l (q : Q nat) :
  length (bq_items q) + length l <= bq_capacity q ->
  bq_items (fill_free l q) = bq_items q ++ l /\ bq_capacity (fill_free l q) = bq_capacity q.
Proof.
  revert q. induction l as [|i l IH]; intros q Hle; simpl in *; [by rewrite app_nil_r|].
  destruct (bq_push_room q i) as (q' & Hq & Hi & Hc); [lia|]. rewrite Hq. simpl.
  destruct (IH q') as [Hl Hcl]; [rewrite Hi, Hc, length_app; simpl; lia|]. unfold fill_free in *.
  by rewrite Hl, Hcl, Hi, <-app_assoc.
Qed.

#[local] Arguments fill_free : simpl never.

Lemma start_ok : 0 < count -> pool_ok start.
Proof.
  intros Hn. pose proof (bq_new_items (A := nat) count) as [Hi Hc].
  pose proof (bq_new_items (A := M) 1) as [Hi1 Hc1].
  destruct (fill_free_items (seq 0 count) (bq_new count)) as [Hf Hfc]; [rewrite Hi, Hc, length_seq; simpl; lia|].
  split; [split; simpl; try done|].
  - apply length_replicate.
  - intros ->. rewrite Hf, Hfc, Hi, Hc. split; [done|]. apply Forall_forall. intros x Hx%elem_of_seq. simpl in *; lia.
  - by intros ? ? ? _ ?%elem_of_nil.
  - by intros ? ? ?%elem_of_nil.
  - intros i t Ht. simpl in Ht. apply lookup_replicate in Ht as [-> Hlt].
    split; simpl; rewrite ?Hi1, ?Hc1; simpl; try done; [lia|].
    intros Hk. unfold places, owned. simpl. rewrite Hk, Hf, Hi, Hi1. simpl. rewrite count_seq, decide_True by done. simpl. lia.
Qed.

Lemma set_worker_ok w i t t' f :
  pool_ok w -> workers w !! i = Some t ->
  (keyed = false -> bq_capacity f = count /\
     (bq_items f = bq_items (free w) \/ bq_items f = bq_items (free w) ++ [i])) ->
  worker_ok (set_worker (set_free w f) i t') i t' -> pool_ok (set_worker (set_free w f) i t').
Proof.
  intros [Hl Hw] Ht Hf Hok. split.
  - destruct Hl. split; simpl; try done; [by rewrite length_insert|].
    intros Hk. destruct (Hf Hk) as [Hc Hi]. split; [done|]. destruct (lo_free0 Hk) as [_ Hall].
    destruct Hi as [->| ->]; [done|]. apply Forall_app. split; [done|]. constructor; [|done].
    rewrite <-lo_count0. by eapply lookup_lt_Some.
  - intros j u Hj. simpl in Hj. apply list_lookup_insert_Some in Hj as [(-> & -> & _)|[Hne Hj]]; [done|].
    eapply worker_ok_frame; [by apply Hw|done|done| |done|done].
    intros Hk. simpl. destruct (Hf Hk) as [_ [->| ->]]; [done|]. rewrite count_snoc, decide_False by congruence. lia.
Qed.

Lemma set_free_same w i t : set_worker w i t = set_worker (set_free w (free w)) i t.
Proof. by destruct w. Qed.

Lemma worker_step_ok w i panics w' : pool_ok w -> worker_step w i panics = Some w' -> pool_ok w'.
Proof.
  intros Hok. pose proof Hok as [Hl Hw]. unfold worker_step. destruct (workers w !! i) as [t|] eqn:Ht; [|done].
  pose proof (Hw i t Ht) as [[Hc Hle] Hlog Hlost Hgone Hleft Hmode Hpool Hplace].
  assert (Hfree : keyed = false -> bq_capacity (free w) = count /\
    (bq_items (free w) = bq_items (free w) \/ bq_items (free w) = bq_items (free w) ++ [i])).
  { intros Hk. split; [by apply lo_free|by left]. }
  assert (Hi : i < count) by (rewrite <-(lo_count w Hl); by eapply lookup_lt_Some).
  unfold places, owned, reports, hand in *. destruct (pc t) as [|m| | | | |] eqn:Epc; simpl in *.
  - destruct (bq_pop (inbox t)) as [[m q]|] eqn:Ep.
    + apply bq_pop_Some in Ep as [Hq Hcq]. intros [= <-]. rewrite set_free_same.
      apply (set_worker_ok w i t); [done|done|done|]. rewrite Hq in *. simpl in *.
      assert (Hnil : bq_items q = []) by (apply nil_length_inv; lia).
      split; simpl; try done; [split; [congruence|rewrite Hnil; simpl; lia]|].
      * intros Hk. destruct (Hplace Hk) as [? Heq]. unfold places, owned, sending in *. simpl in *.
        rewrite Hnil in *. simpl in *. split; [lia|]. intros _. by apply Heq.
    + apply bq_pop_None in Ep. destruct (feeding w) eqn:Ef; [done|]. intros [= <-]. rewrite set_free_same.
      apply (set_worker_ok w i t); [done|done|done|]. split; simpl; try done.
      intros Hk. destruct (Hplace Hk) as [? _]. unfold places, owned, sending in *. simpl in *. split; [lia|done].
  - intros [= <-]. rewrite set_free_same. apply (set_worker_ok w i t); [done|done|done|]. destruct panics.
    + split; simpl; try done; try (by split).
      * etrans; [exact Hlog|]. unfold hand. simpl. by rewrite <-!app_assoc.
    + rewrite Hlost in Hlog.
      destruct keyed eqn:Ek; split; simpl; try done; try (by split); try (intros; congruence); rewrite ?Hlost.
      * etrans; [exact Hlog|]. unfold hand. simpl. by rewrite <-!app_assoc.
      * etrans; [exact Hlog|]. unfold hand. simpl. by rewrite <-!app_assoc.
      * intros _. exact (Hpool eq_refl).
      * intros _. exact (Hplace eq_refl).
  - rewrite Hmode in *. destruct (bq_push (free w) i) as [q|] eqn:Ep; [|done]. intros [= <-].
    apply bq_push_Some in Ep as (Hq & Hcq & _). destruct (Hfree eq_refl) as [Hcf _].
    apply (set_worker_ok w i t); [done|done|intros _; split; [congruence|by right]|].
    split; simpl; try done. intros _. destruct (Hplace eq_refl) as [? Heq]. specialize (Heq eq_refl).
    unfold places, owned, sending in *. simpl in *. rewrite Hq, count_snoc, decide_True, (Hpool eq_refl) by done.
    simpl. split; lia.
  - destruct keyed eqn:Ek; intros [= <-].
    + rewrite set_free_same. apply (set_worker_ok w i t); [done|done|intros; congruence|].
      pose proof (bq_new_items (A := M) 1) as [Hn1 Hn2].
      split; simpl; rewrite ?Hn1; simpl; try done; try (intros; congruence); [split; [done|lia]|].
      etrans; [exact Hlog|]. unfold hand. simpl. by rewrite <-!app_assoc.
    + destruct (Hplace eq_refl) as [Hp1 _]. destruct (free_room w i Hok Ek Hi) as (q & Hpush & Hq & Hcq).
      { unfold places in Hp1. lia. }
      rewrite Hpush. simpl. apply (set_worker_ok w i t); [done|done|intros _; split; [done|by right]|].
      split; simpl; try done. intros _. unfold places, owned, sending in *. simpl in *.
      rewrite Hq, count_snoc, decide_True, (Hpool eq_refl) by done. simpl. split; [lia|done].
  - intros [= <-]. rewrite set_free_same. apply (set_worker_ok w i t); [done|done|done|].
    pose proof (bq_new_items (A := M) 1) as [Hn1 Hn2]. split; simpl; rewrite ?Hn1; simpl; try done; [split; [done|lia]| |].
    + etrans; [exact Hlog|]. unfold hand. simpl. by rewrite <-!app_assoc.
    + intros Hk. destruct (Hplace Hk) as [? _]. unfold places, owned, sending in *. simpl in *. split; [lia|done].
  - done.
  - done.
Qed.

Lemma set_loop_ok w l :
  pool_ok w -> (forall i, sending w i = []) ->
  match l with
  | Top | Joining | Finished => feeding w = true \/ l <> Top
  | Acquiring => keyed = false /\ held w = None /\ feeding w = true
  | Pulling => (keyed = false -> is_Some (held w)) /\ feeding w = true
  | Sending _ _ => False
  end -> pool_ok (set_loop w l).
Proof.
  intros [Hl Hw] Hs Hpc. split.
  - destruct Hl. split; simpl; try done. by destruct l; try done; destruct_and?.
  - intros i t Ht. eapply worker_ok_frame; [by apply Hw|done| |done|done|].
    + rewrite (Hs i). by destruct l.
    + intros Hf. destruct l; simpl; try done; naive_solver.
Qed.

Lemma pool_key_index_lt k : 0 < count -> Rings.key_index hash k count < count.
Proof. intros Hn. by apply Rings.key_index_lt. Qed.

Lemma pull_ok w m i r :
  0 < count -> pool_ok w -> loop w = Pulling -> chosen w m = (i, r) ->
  pool_ok (mk_world (Sending i m) None r (free w) (shutdown w) (workers w) (pulled w ++ [(i, m)])).
Proof.
  intros Hn [Hl Hw] Hpc Hch.
  assert (Hi : i < count /\ r < count /\ (keyed = false -> held w = Some i) /\ (forall j, held w = Some j -> j = i) /\
    (keyed = true -> forall k, partition_key m = Some k -> i = Rings.key_index hash k count)).
  { pose proof (lo_pc w Hl) as Hp. rewrite Hpc in Hp. pose proof (lo_rotation w Hl). unfold chosen in Hch.
    destruct (held w) as [j|] eqn:Eh.
    - injection Hch as <- <-. destruct (lo_held w Hl j Eh) as [Hj Hk]. split_and!; try done; [by intros ? [= ->]|congruence].
    - assert (Hk : keyed = false -> False) by (intros Hk; by destruct (Hp Hk)).
      destruct (partition_key m) as [k|] eqn:Ek; injection Hch as <- <-.
      + split_and!; try done; [by apply pool_key_index_lt|by intros _ k' [= ->]].
      + pose proof (Nat.mod_upper_bound (S (rotation w)) count ltac:(lia)). by split_and!. }
  destruct Hi as (Hi & Hr & Hh & Hh' & Hkey).
  assert (Hlog : forall j, sent_to (mk_world (Sending i m) None r (free w) (shutdown w) (workers w) (pulled w ++ [(i, m)])) j =
    sent_to w j ++ (if decide (i = j) then [m] else [])).
  { intros j. unfold sent_to. simpl. rewrite omap_app. simpl. by destruct (decide (i = j)). }
  assert (Hnone : forall j, sending w j = []) by (intros j; unfold sending; by rewrite Hpc).
  split.
  - destruct Hl. split; simpl; try done.
    + intros j m' k Hk Hin Hpk. apply elem_of_app in Hin as [Hin|Hin%list_elem_of_singleton]; [by eapply lo_keyed0|].
      injection Hin as -> ->. by apply Hkey.
    + intros j m' Hin. apply elem_of_app in Hin as [Hin|Hin%list_elem_of_singleton]; [by eapply lo_sent0|]. by injection Hin as -> ->.
  - intros j t Ht. simpl in Ht. destruct (Hw j t Ht) as [? Hlg ? ? Hleft ? ? Hpl]. rewrite (Hnone j), app_nil_r in Hlg.
    split; try done.
    + rewrite Hlog, Hlg. unfold sending. simpl. by rewrite <-!app_assoc.
    + intros Hp. specialize (Hleft Hp). unfold feeding in Hleft. by rewrite Hpc in Hleft.
    + intros Hk. specialize (Hpl Hk). unfold places in *. rewrite (Hnone j) in Hpl. unfold sending. simpl in *.
      rewrite (Hh Hk) in Hpl. destruct (decide (i = j)) as [->|Hne].
      * rewrite decide_True in Hpl by done. simpl in *. lia.
      * rewrite decide_False in Hpl by congruence. simpl in *. exact Hpl.
Qed.

Lemma send_ok w i m w' :
  pool_ok w -> loop w = Sending i m -> forall answer, loop_step w answer = Some w' -> pool_ok w'.
Proof.
  intros [Hl Hw] Hpc answer. unfold loop_step. rewrite Hpc. destruct (workers w !! i) as [t|] eqn:Ht; [|done].
  assert (Hown : sending w i = [m]) by (unfold sending; by rewrite Hpc, decide_True).
  assert (Hother : forall j, j <> i -> sending w j = []).
  { intros j Hne. unfold sending. by rewrite Hpc, decide_False. }
  assert (Hfe : feeding w = true) by (unfold feeding; by rewrite Hpc).
  pose proof (lo_pc w Hl) as Hp. rewrite Hpc in Hp. destruct Hp as [Hi Hheld].
  destruct (Hw i t Ht) as [[Hc Hle] Hlog Hlost Hgone Hleft Hmode Hpool Hplace]. rewrite Hown in Hlog.
  assert (Hframe : forall l t', l = Top \/ l = Joining ->
    worker_ok (set_loop (set_worker w i t') l) i t' -> pool_ok (set_loop (set_worker w i t') l)).
  { intros l t' Hlp Ht'. split.
    - destruct Hl. split; simpl; try done; [by rewrite length_insert|by destruct Hlp as [->| ->]].
    - intros j u Hj. simpl in Hj. apply list_lookup_insert_Some in Hj as [(-> & -> & _)|[Hne Hj]]; [done|].
      eapply worker_ok_frame; [by apply Hw|done| |done|done|by rewrite Hfe].
      rewrite (Hother j) by done. by destruct Hlp as [->| ->]. }
  unfold places in Hplace. rewrite Hown, Hheld in Hplace. simpl in Hplace.
  destruct (listens t) eqn:Els.
  - destruct (bq_push (inbox t) m) as [q|] eqn:Eq; [|done]. intros [= <-].
    apply bq_push_Some in Eq as (Hq & Hcq & Hroom).
    assert (Hnil : bq_items (inbox t) = []) by (apply nil_length_inv; lia).
    rewrite Hnil in Hlog. simpl in Hlog.
    assert (Hidle : keyed = false -> pc t = Receiving \/ pc t = Reported).
    { intros Hk. destruct (Hplace Hk) as [Hp1 _]. unfold owned, listens in *. destruct (pc t); auto; lia || done. }
    apply Hframe; [by left|]. split; simpl; rewrite ?Hq, ?Hnil; simpl; try done.
    + split; [congruence|lia].
    + intros He. unfold ended, listens in *. simpl in He. by destruct (pc t).
    + intros Hp. specialize (Hleft Hp). congruence.
    + intros Hk. by destruct (Hidle Hk) as [-> | ->].
    + intros Hk. destruct (Hplace Hk) as [Hp1 Hp2]. unfold places, sending, owned, reports in *. simpl. rewrite Hheld, Hq, Hnil.
      destruct (Hidle Hk) as [He|He]; rewrite He in Hp1, Hp2 |- *; simpl in *; split; lia || done.
  - intros [= <-]. assert (Hd : pc t = Dead).
    { unfold listens in Els. destruct (pc t); try done. specialize (Hleft eq_refl). congruence. }
    assert (Hnil : bq_items (inbox t) = []) by (apply Hgone; unfold ended; by rewrite Hd).
    apply Hframe; [by right|]. split; simpl; rewrite ?Hd; try done.
    + etrans; [exact Hlog|]. unfold hand, sending. simpl. rewrite Hd, Hnil. simpl. by rewrite !app_nil_r, <-?app_assoc.
    + intros Hk. destruct (Hplace Hk) as [Hp1 _]. unfold places, sending, owned, reports in *. simpl. rewrite Hheld.
      rewrite Hd in *. simpl in *. split; [lia|done].
Qed.

Lemma acquire_ok w i q :
  pool_ok w -> loop w = Acquiring -> bq_pop (free w) = Some (i, q) -> pool_ok (set_held w Pulling (Some i) q).
Proof.
  intros [Hl Hw] Hpc Hp. apply bq_pop_Some in Hp as [Hi Hc]. pose proof (lo_pc w Hl) as Hk. rewrite Hpc in Hk.
  destruct Hk as [Hk Hheld]. destruct (lo_free w Hl Hk) as [Hcap Hall]. rewrite Hi in Hall. apply Forall_cons in Hall as [Hlt Hall].
  split.
  - destruct Hl. split; simpl; try done; [|intros j [= Hj]; by subst j]. intros _. split; [congruence|done].
  - intros j t Hj. simpl in Hj. destruct (Hw j t Hj) as [? Hlog ? ? Hleft ? ? Hpl].
    assert (Hs : sending w j = []) by (unfold sending; by rewrite Hpc). split; try done.
    + etrans; [exact Hlog|]. by rewrite Hs.
    + intros Hpt. specialize (Hleft Hpt). unfold feeding in Hleft. by rewrite Hpc in Hleft.
    + intros _. specialize (Hpl Hk). unfold places in *. rewrite Hi, Hs, Hheld, count_cons in Hpl. simpl in *.
      destruct (decide (i = j)) as [->|Hne].
      * rewrite Nat.eqb_refl in Hpl. rewrite decide_True by done. simpl in *. split; [lia|]. intros Hr. apply Hpl in Hr. lia.
      * rewrite (proj2 (Nat.eqb_neq j i)) in Hpl by congruence. rewrite decide_False by congruence. exact Hpl.
Qed.

Lemma loop_step_ok w answer w' : 0 < count -> pool_ok w -> loop_step w answer = Some w' -> pool_ok w'.
Proof.
  intros Hn Hok. pose proof Hok as [Hl Hw]. destruct (loop w) as [| | |i m| |] eqn:Hpc.
  4: by eapply send_ok.
  all: assert (Hs : forall j, sending w j = []) by (intros j; unfold sending; by rewrite Hpc).
  all: assert (Hf : feeding w = match loop w with Joining | Finished => false | _ => true end) by done; rewrite Hpc in Hf.
  all: unfold loop_step; rewrite Hpc.
  - intros [= <-]. apply set_loop_ok; [done|done|]. destruct (shutdown w); [by left|].
    destruct keyed eqn:Ek; simpl; [by split|]. case_bool_decide as Hh; [by split_and!|]. split; [|done].
    intros _. destruct (held w); [by eexists|done].
  - destruct (bq_pop (free w)) as [[i q]|] eqn:Ep.
    + intros [= <-]. by apply acquire_ok.
    + destruct (_ || _); [|done]. intros [= <-]. apply set_loop_ok; [done|done|by left].
  - destruct answer as [m| | |].
    + destruct (chosen w m) as [i r] eqn:Ec. intros [= <-]. by apply pull_ok.
    + intros [= <-]. apply set_loop_ok; [done|done|by left].
    + intros [= <-]. apply set_loop_ok; [done|done|by left].
    + destruct (shutdown w); [|done]. intros [= <-]. apply set_loop_ok; [done|done|by left].
  - destruct (forallb ended (workers w)); [|done]. intros [= <-]. apply set_loop_ok; [done|done|by right].
  - done.
Qed.

Lemma pool_reachable_ok w : 0 < count -> reachable w -> pool_ok w.
Proof.
  intros Hn. induction 1 as [|w a w' _ IH Hs]; [by apply start_ok|]. destruct a as [answer|i panics|]; simpl in Hs.
  - by eapply loop_step_ok.
  - by eapply worker_step_ok.
  - injection Hs as <-. destruct IH as [[] Hw]. split; [by split|]. intros i t Ht.
    eapply worker_ok_frame; [by apply Hw|done..].
Qed.

(** ** What the pool promises *)

Definition panicked (t : Worker) : bool := match pc t with Dying | Reported | Dead => true | _ => false end.

(** C18. Deliveries are neither lost, doubled nor reordered in the pool, for every interleaving of the
    loop and the workers: what the loop pulled for a worker is, in order, what the worker dispatched to
    its end, what was lost with it, what it holds, what its inbox holds and what is on its way; only a
    worker that panicked past its handler loses anything; at most one delivery is in flight for a
    worker of a pool, and a keyed worker has at most one in hand, one queued and one on its way, every
    delivery of a key being its one worker's. *)
Theorem pool_hands_over_in_order w i t :
  0 < count -> reachable w -> workers w !! i = Some t ->
  sent_to w i = handled t ++ lost t ++ hand t ++ bq_items (inbox t) ++ sending w i /\
  (panicked t = false -> lost t = []) /\
  length (hand t ++ bq_items (inbox t) ++ sending w i) <= (if keyed then 3 else 1) /\
  (forall m k, keyed = true -> m ∈ sent_to w i -> partition_key m = Some k -> i = Rings.key_index hash k count).
Proof.
  intros Hn Hr Ht. destruct (pool_reachable_ok w Hn Hr) as [Hl Hw].
  destruct (Hw i t Ht) as [[_ Hle] Hlog Hlost Hgone _ _ Hpool Hplace]. split_and!; [done| | |].
  - unfold panicked. by destruct (pc t).
  - rewrite !length_app. assert (Hh : length (hand t) <= 1) by (unfold hand; destruct (pc t); simpl; lia).
    assert (Hs : length (sending w i) <= 1) by (unfold sending; destruct (loop w); simpl; try lia; case_decide; simpl; lia).
    destruct keyed; [lia|]. destruct (Hplace eq_refl) as [Hp _]. specialize (Hpool eq_refl).
    unfold places, owned, hand, ended in *. destruct (pc t); simpl in *; rewrite ?Hpool, ?Hgone by done; simpl in *; lia.
  - intros m k Hk Hm Hpk. unfold sent_to in Hm. apply list_elem_of_omap in Hm as ([j m'] & Hin & Hj).
    simpl in Hj. case_decide as He; [|done]. injection Hj as ->. subst j. by eapply (lo_keyed w Hl).
Qed.

(** A worker that cannot go on by itself waits for a delivery, or has ended. *)
Lemma stuck_worker w i t :
  pool_ok w -> workers w !! i = Some t -> worker_step w i false = None ->
  (pc t = Receiving /\ bq_items (inbox t) = [] /\ feeding w = true) \/ ended t = true.
Proof.
  intros Hok Ht. pose proof Hok as [Hl Hw]. destruct (Hw i t Ht) as [_ _ _ _ _ Hmode _ Hplace].
  unfold worker_step. rewrite Ht. unfold ended, places, owned in *. destruct (pc t) eqn:Epc; try done; [| |by right..].
  - destruct (bq_pop (inbox t)) as [[m q]|] eqn:Ep; [done|]. apply bq_pop_None in Ep.
    destruct (feeding w); [|done]. intros _. by left.
  - destruct (Hplace Hmode) as [Hp _].
    destruct (free_room w i Hok Hmode) as (q & -> & _); [|lia|done].
    apply lookup_lt_Some in Ht. by rewrite (lo_count w Hl) in Ht.
Qed.

(** The pool never deadlocks: when neither the loop nor any worker can go on, the loop has a worker
    for the next delivery and waits for its stream alone, or it has finished, and then every worker has
    ended with everything it was handed dispatched to its end or lost with it. *)
Theorem pool_waits_only_for_its_stream w :
  0 < count -> reachable w -> loop_step w PNothing = None -> (forall i, worker_step w i false = None) ->
  (loop w = Pulling /\ shutdown w = false /\ (keyed = false -> is_Some (held w))) \/
  (loop w = Finished /\ forall i t, workers w !! i = Some t -> ended t = true /\ sent_to w i = handled t ++ lost t).
Proof.
  intros Hn Hr Hloop Hstuck. pose proof (pool_reachable_ok w Hn Hr) as Hok. pose proof Hok as [Hl Hw].
  assert (Hst : forall i t, workers w !! i = Some t ->
    (pc t = Receiving /\ bq_items (inbox t) = [] /\ feeding w = true) \/ ended t = true).
  { intros i t Ht. by apply (stuck_worker w i t). }
  pose proof (lo_pc w Hl) as Hpc. unfold loop_step in Hloop. destruct (loop w) as [| | |i m| |] eqn:El; try done.
  - destruct Hpc as [Hk Hheld]. destruct (bq_pop (free w)) as [[i q]|] eqn:Ep; [done|]. apply bq_pop_None in Ep.
    destruct (existsb reports (workers w)) eqn:Ex; [|done]. apply existsb_elem in Ex as (t & Hin & Hrep).
    apply list_elem_of_lookup in Hin as [i Hi]. destruct (wo_place w i t (Hw i t Hi) Hk) as [_ Hp]. specialize (Hp Hrep).
    unfold places, sending, owned in Hp. rewrite Ep, Hheld, El in Hp. simpl in Hp.
    destruct (Hst i t Hi) as [(Hrc & Hib & _)|He].
    + rewrite Hrc, Hib in Hp. done.
    + unfold ended, reports in *. by destruct (pc t).
  - left. split_and!; [done| |done]. by destruct (shutdown w).
  - destruct Hpc as [Hi _]. rewrite <-(lo_count w Hl) in Hi. apply lookup_lt_is_Some in Hi as [t Ht]. rewrite Ht in Hloop.
    destruct (wo_capacity w i t (Hw i t Ht)) as [Hc _]. destruct (Hst i t Ht) as [(Hrc & Hib & _)|He].
    + unfold listens in Hloop. rewrite Hrc in Hloop. destruct (bq_push_room (inbox t) m) as (q & Hq & _).
      { rewrite Hib, Hc. simpl. lia. }
      by rewrite Hq in Hloop.
    + assert (Hls : listens t = false) by (unfold ended, listens in *; by destruct (pc t)). by rewrite Hls in Hloop.
  - destruct (forallb ended (workers w)) eqn:Ea; [done|]. assert (forallb ended (workers w) = true); [|congruence].
    apply forallb_elem. intros t Hin. apply list_elem_of_lookup in Hin as [i Hi].
    destruct (Hst i t Hi) as [(_ & _ & Hf)|?]; [|done]. unfold feeding in Hf. by rewrite El in Hf.
  - right. split; [done|]. intros i t Ht. destruct (Hst i t Ht) as [(_ & _ & Hf)|He].
    { unfold feeding in Hf. by rewrite El in Hf. }
    split; [done|]. destruct (Hw i t Ht) as [_ Hlog _ Hgone _ _ _ _]. rewrite Hlog, (Hgone He). unfold sending. rewrite El.
    unfold hand, ended in *. by destruct (pc t); rewrite ?app_nil_r.
Qed.
End pool.

(** ** Runs of two workers *)

Fixpoint play (keyed : bool) (w : World (Q := LQueue) (M := nat)) (schedule : list (@Actor nat)) : option World :=
  match schedule with
  | [] => Some w
  | a :: schedule => w ← step (fun m => Some [ascii_of_nat m]) (fun b => N.of_nat (length b)) 2 keyed w a; play keyed w schedule
  end.

Abbreviation small_reachable keyed := (reachable (Q := LQueue) (M := nat) (fun m => Some [ascii_of_nat m]) (fun b => N.of_nat (length b)) 2 keyed).

Lemma pool_play_reachable keyed w schedule w' : small_reachable keyed w -> play keyed w schedule = Some w' -> small_reachable keyed w'.
Proof.
  revert w. induction schedule as [|a l IH]; intros w Hw; simpl; [by intros [= <-]|].
  intros (w1 & Hs & Hp)%bind_Some. eapply IH; [|done]. by eapply reach_step.
Qed.

(** The loop takes a free worker and hands it a delivery. *)
Definition hands (m : nat) : list (@Actor nat) := [ALoop PNothing; ALoop PNothing; ALoop (PMessage m); ALoop PNothing].

(** Worker 0 panics past its handler and reports itself; before its inbox is dropped, the loop hands it
    another delivery. *)
Definition vanishing : list (@Actor nat) :=
  hands 10 ++ [AWorker 0 false; AWorker 0 true; AWorker 0 false] ++ hands 20 ++ hands 30 ++ [AWorker 0 false].

(** A worker's panic can go unseen: the report a dying worker leaves ([Farewell]) is dropped before
    its inbox, so a loop on another thread can take the report and hand the dead worker a delivery
    successfully; the delivery is lost with the inbox, nobody is told, and the worker's index is
    nowhere any more, so the pool runs on with one worker fewer. *)
Theorem pool_worker_can_vanish :
  exists w t, small_reachable false w /\ workers w !! 0 = Some t /\ pc t = Dead /\ lost t = [10; 30] /\
    loop w = Top /\ shutdown w = false /\ held w = None /\ 0 ∉ bq_items (free w).
Proof.
  destruct (play false (start 2 false) vanishing) as [w|] eqn:Ew; [|by vm_compute in Ew].
  assert (Hr : small_reachable false w) by (eapply pool_play_reachable; [apply reach_start|exact Ew]).
  vm_compute in Ew. injection Ew as <-. eexists _, _. split; [exact Hr|].
  split_and!; try done. intros Hin. by apply elem_of_nil in Hin.
Qed.

(** Witnesses. *)
Definition after (keyed : bool) (schedule : list (@Actor nat)) : World (Q := LQueue) (M := nat) :=
  default (start 2 keyed) (play keyed (start 2 keyed) schedule).

Lemma after_reachable keyed schedule : small_reachable keyed (after keyed schedule).
Proof.
  unfold after. destruct (play keyed (start 2 keyed) schedule) as [w|] eqn:Ew; [|apply reach_start].
  eapply pool_play_reachable; [apply reach_start|exact Ew].
Qed.

Definition keyed_run : World (Q := LQueue) (M := nat) :=
  after true [ALoop PNothing; ALoop (PMessage 1); ALoop PNothing; AWorker 1 false; ALoop PNothing; ALoop (PMessage 2); ALoop PNothing].
Definition idle_pool : World (Q := LQueue) (M := nat) := after false [ALoop PNothing; ALoop PNothing].

Lemma pool_hands_over_in_order_witness :
  exists t, workers keyed_run !! 1 = Some t /\
    sent_to keyed_run 1 = handled t ++ lost t ++ hand t ++ bq_items (inbox t) ++ sending keyed_run 1.
Proof.
  destruct (workers keyed_run !! 1) as [t|] eqn:Et; [|by vm_compute in Et]. exists t. split; [done|].
  exact (proj1 (pool_hands_over_in_order _ _ 2 true keyed_run 1 t ltac:(lia) (after_reachable _ _) Et)).
Defined.

Lemma pool_waits_only_for_its_stream_witness :
  (loop idle_pool = Pulling /\ shutdown idle_pool = false /\ (false = false -> is_Some (held idle_pool))) \/
  (loop idle_pool = Finished /\ forall i t, workers idle_pool !! i = Some t ->
     ended t = true /\ sent_to idle_pool i = handled t ++ lost t).
Proof.
  apply (pool_waits_only_for_its_stream (fun m => Some [ascii_of_nat m]) (fun b => N.of_nat (length b)) 2 false idle_pool
    ltac:(lia) (after_reachable _ _)); [by vm_compute|].
  intros [|[|i]]; by vm_compute.
Defined.
End Pool.
