(* ===== verification/BatchPool.v ===== *)
(** * The batch pool of the tokio runner ([runtime-tokio/src/dispatch/batch_pool.rs])

    [workers(n)] on a batch subscription: the loop takes a free worker off the [FreeList] with the
    slot it gives back, fills the slot from the stream and hands it over through the worker's
    [Inbox].  Lists and inboxes are lock-free queues with a [Notify] and flags beside them, so the
    loop and the workers interleave here one shared access at a time: a load or store of a flag, a
    push or pop of a queue, a permit left or taken.  The queues are crossbeam's [ArrayQueue]
    ([BoundedQueue]); a [Notify] with one waiter is its permit.  The stream, the shutdown and what
    becomes of a batch in its worker (settled, or a panic past the handler) are the environment. *)
From S2P Require Import Prelude RustStd Queue.

Module BatchPool.

Section batch_pool.
Context {Q : Type -> Type} `{BoundedQueue Q} `{!BoundedQueueLaws Q}.
Context {B : Type} (count : nat).

(** Where a worker is in [work]: before the load of [closed] in [Inbox::next], before the pop, in
    [arrived.notified()]; running a batch; in [FreeList::report], before the push and before the
    [notify_one]; past a panic, in the three steps of [Farewell]'s drop; ended either way. *)
Inductive WorkerPc :=
  | Next
  | Look (closed : bool)
  | Wait
  | Run (b : B)
  | Report
  | Notify
  | Going
  | Farewell
  | FarewellNotify
  | Dead
  | Left.

(** A worker with its [Inbox] ([arrived] is the permit), and the batches it ran to their end and the
    one it panicked in (ghosts). *)
Record Worker := mk_worker {
  pc : WorkerPc;
  slot : Q B;
  arrived : bool;
  closed : bool;
  gone : bool;
  handled : list B;
  lost : list B;
}.

(** Where the loop is: at the top; in [acquire], before the pop and in [reported.notified()], with
    what it popped; filling a worker's slot; in [Inbox::hand], before the load of [gone], the push
    and the [notify_one]; closing the inboxes; joining the crew. *)
Inductive LoopPc :=
  | Top
  | Acquire
  | AwaitReport
  | Freed (worker : nat) (returned : bool)
  | Fill (worker : nat)
  | Hand (worker : nat) (b : B)
  | HandPush (worker : nat) (b : B)
  | HandNotify (worker : nat)
  | Close (worker : nat)
  | CloseNotify (worker : nat)
  | Joining
  | Finished.

(** [free] holds a worker's index and whether it gives its slot back; [reported] is the permit;
    [slots] says which slots the loop owns; and the batches pulled, each with its worker, and those
    the loop could not hand over (ghosts). *)
Record World := mk_world {
  loop : LoopPc;
  held : option nat;
  slots : list bool;
  free : Q (nat * bool);
  reported : bool;
  shutdown : bool;
  workers : list Worker;
  pulled : list (nat * B);
  dropped : list B;
}.

(** ** The state at the start, once every worker is seeded as free *)

Definition fill_free (indices : list nat) (q : Q (nat * bool)) : Q (nat * bool) :=
  fold_left (fun q i => default q (bq_push q (i, false))) indices q.
Definition new_worker : Worker := mk_worker Next (bq_new 1) false false false [] [].
Definition start : World :=
  mk_world Top None (replicate count true) (fill_free (seq 0 count) (bq_new count))
    (bool_decide (0 < count)) false (replicate count new_worker) [] [].

(** ** Updates *)

Definition at_pc (t : Worker) (p : WorkerPc) : Worker :=
  mk_worker p (slot t) (arrived t) (closed t) (gone t) (handled t) (lost t).
Definition with_slot (t : Worker) (p : WorkerPc) (q : Q B) : Worker :=
  mk_worker p q (arrived t) (closed t) (gone t) (handled t) (lost t).
Definition with_arrived (t : Worker) (p : WorkerPc) (permit : bool) : Worker :=
  mk_worker p (slot t) permit (closed t) (gone t) (handled t) (lost t).
Definition with_closed (t : Worker) : Worker :=
  mk_worker (pc t) (slot t) (arrived t) true (gone t) (handled t) (lost t).
Definition with_gone (t : Worker) (p : WorkerPc) : Worker :=
  mk_worker p (slot t) (arrived t) (closed t) true (handled t) (lost t).
Definition with_handled (t : Worker) (p : WorkerPc) (b : B) : Worker :=
  mk_worker p (slot t) (arrived t) (closed t) (gone t) (handled t ++ [b]) (lost t).
Definition with_lost (t : Worker) (p : WorkerPc) (b : B) : Worker :=
  mk_worker p (slot t) (arrived t) (closed t) (gone t) (handled t) (lost t ++ [b]).

Definition to (w : World) (l : LoopPc) : World :=
  mk_world l (held w) (slots w) (free w) (reported w) (shutdown w) (workers w) (pulled w) (dropped w).
Definition with_held (w : World) (l : LoopPc) (h : option nat) : World :=
  mk_world l h (slots w) (free w) (reported w) (shutdown w) (workers w) (pulled w) (dropped w).
Definition with_slots (w : World) (l : LoopPc) (s : list bool) : World :=
  mk_world l (held w) s (free w) (reported w) (shutdown w) (workers w) (pulled w) (dropped w).
Definition with_free (w : World) (l : LoopPc) (q : Q (nat * bool)) (permit : bool) : World :=
  mk_world l (held w) (slots w) q permit (shutdown w) (workers w) (pulled w) (dropped w).
Definition with_worker (w : World) (l : LoopPc) (i : nat) (t : Worker) : World :=
  mk_world l (held w) (slots w) (free w) (reported w) (shutdown w) (<[i := t]> (workers w))
    (pulled w) (dropped w).
Definition with_pulled (w : World) (l : LoopPc) (i : nat) (b : B) : World :=
  mk_world l (held w) (slots w) (free w) (reported w) (shutdown w) (workers w)
    (pulled w ++ [(i, b)]) (dropped w).
Definition with_dropped (w : World) (l : LoopPc) (b : B) : World :=
  mk_world l (held w) (slots w) (free w) (reported w) (shutdown w) (workers w) (pulled w)
    (dropped w ++ [b]).

(** ** The steps *)

(** [FreeList::report] up to its [notify_one]: a push that finds no room loses the report. *)
Definition report (w : World) (i : nat) (returned : bool) : World :=
  with_free w (loop w) (default (free w) (bq_push (free w) (i, returned))) (reported w).
Definition notify_reported (w : World) : World := with_free w (loop w) (free w) true.

Definition has_ended (t : Worker) : bool := match pc t with Dead | Left => true | _ => false end.

(** One step of worker [i]; [None] where it waits or has ended. *)
Definition worker_step (w : World) (i : nat) (panics : bool) : option World :=
  t ← workers w !! i;
  let set := with_worker w (loop w) i in
  match pc t with
  | Next => Some (set (at_pc t (Look (closed t))))
  | Look was_closed =>
      match bq_pop (slot t) with
      | Some (b, q) => Some (set (with_slot t (Run b) q))
      | None => Some (set (at_pc t (if was_closed then Left else Wait)))
      end
  | Wait => if arrived t then Some (set (with_arrived t Next false)) else None
  | Run b => Some (set (if panics then with_lost t Going b else with_handled t Report b))
  | Report =>
      let w := report w i true in Some (with_worker w (loop w) i (at_pc t Notify))
  | Notify =>
      let w := notify_reported w in Some (with_worker w (loop w) i (at_pc t Next))
  | Going => Some (set (with_gone t Farewell))
  | Farewell =>
      let w := report w i false in Some (with_worker w (loop w) i (at_pc t FarewellNotify))
  | FarewellNotify =>
      let w := notify_reported w in Some (with_worker w (loop w) i (at_pc t Dead))
  | Dead | Left => None
  end.

(** What the stream answers a [poll_fill]. *)
Inductive Filled := FBatch (b : B) | FError | FEnd | FNothing.

(** One step of the loop of [run]; [None] where it waits, or past the end of a list. *)
Definition loop_step (w : World) (answer : Filled) : option World :=
  match loop w with
  | Top =>
      if shutdown w then Some (to w (Close 0))
      else match held w with
           | Some i => Some (with_held w (Fill i) None)
           | None => Some (to w Acquire)
           end
  | Acquire =>
      match bq_pop (free w) with
      | Some ((i, returned), q) => Some (with_free w (Freed i returned) q (reported w))
      | None => Some (to w AwaitReport)
      end
  | AwaitReport =>
      if reported w then Some (with_free w Acquire (free w) false)
      else if shutdown w then Some (to w (Close 0)) else None
  | Freed i returned =>
      let s := if returned then <[i := true]> (slots w) else slots w in
      owned ← s !! i;
      Some (with_slots w (if owned : bool then Fill i else Close 0) (<[i := false]> s))
  | Fill i =>
      match answer with
      | FBatch b => Some (with_pulled w (Hand i b) i b)
      | FError => Some (with_held w Top (Some i))
      | FEnd => Some (to w (Close 0))
      | FNothing => if shutdown w then Some (to w (Close 0)) else None
      end
  | Hand i b =>
      t ← workers w !! i;
      Some (if gone t then with_dropped w (Close 0) b else to w (HandPush i b))
  | HandPush i b =>
      t ← workers w !! i;
      match bq_push (slot t) b with
      | Some q => Some (with_worker w (HandNotify i) i (with_slot t (pc t) q))
      | None => Some (with_dropped w (Close 0) b)
      end
  | HandNotify i =>
      t ← workers w !! i; Some (with_worker w Top i (with_arrived t (pc t) true))
  | Close i =>
      if i <? count
      then t ← workers w !! i; Some (with_worker w (CloseNotify i) i (with_closed t))
      else Some (to w Joining)
  | CloseNotify i =>
      t ← workers w !! i; Some (with_worker w (Close (S i)) i (with_arrived t (pc t) true))
  | Joining => if forallb has_ended (workers w) then Some (to w Finished) else None
  | Finished => None
  end.

Inductive Actor :=
  | ALoop (answer : Filled)
  | AWorker (i : nat) (panics : bool)
  | AShutdown.

Definition step (w : World) (a : Actor) : option World :=
  match a with
  | ALoop answer => loop_step w answer
  | AWorker i panics => worker_step w i panics
  | AShutdown =>
      Some (mk_world (loop w) (held w) (slots w) (free w) (reported w) true (workers w) (pulled w)
              (dropped w))
  end.

Inductive reachable : World -> Prop :=
  | reach_start : reachable start
  | reach_step w a w' : reachable w -> step w a = Some w' -> reachable w'.

(** ** What the rest of the pool shows one worker

    Its batches pulled and on their way in the loop, its reports in the list or just popped, whether
    the loop holds its slot to fill or hand over, and what the loop is about to do to its inbox.  A
    step that leaves a worker's view as it was leaves its invariant as it was. *)

Record View := mk_view {
  v_sent : list B;
  v_hand : list B;
  v_reports : list bool;
  v_own : nat;
  v_slot : option bool;
  v_notify : bool;
  v_closed : bool;
  v_active : bool;
}.

Definition mine {A} (i : nat) (p : nat * A) : option A := if decide (p.1 = i) then Some p.2 else None.

Definition hand_of (l : LoopPc) (i : nat) : list B :=
  match l with
  | Hand j b | HandPush j b => if decide (j = i) then [b] else []
  | _ => []
  end.
Definition popped (l : LoopPc) (i : nat) : list bool :=
  match l with
  | Freed j r => if decide (j = i) then [r] else []
  | _ => []
  end.
Definition fills (l : LoopPc) (i : nat) : nat :=
  match l with
  | Fill j | Hand j _ | HandPush j _ => if decide (j = i) then 1 else 0
  | _ => 0
  end.
Definition keeps (h : option nat) (i : nat) : nat := if decide (h = Some i) then 1 else 0.
Definition notifies (l : LoopPc) (i : nat) : bool :=
  match l with
  | HandNotify j | CloseNotify j => Nat.eqb j i
  | _ => false
  end.
Definition closed_by (l : LoopPc) (i : nat) : bool :=
  match l with
  | Close j => i <? j
  | CloseNotify j => i <=? j
  | Joining | Finished => true
  | _ => false
  end.
Definition active (l : LoopPc) : bool :=
  match l with
  | Close _ | CloseNotify _ | Joining | Finished => false
  | _ => true
  end.

Definition view (w : World) (i : nat) : View :=
  mk_view (omap (mine i) (pulled w)) (hand_of (loop w) i)
    (popped (loop w) i ++ omap (mine i) (bq_items (free w)))
    (fills (loop w) i + keeps (held w) i) (slots w !! i) (notifies (loop w) i)
    (closed_by (loop w) i) (active (loop w)).

Definition running (t : Worker) : list B := match pc t with Run b => [b] | _ => [] end.
Definition busy (t : Worker) : nat :=
  length (bq_items (slot t)) +
  match pc t with Run _ | Report | Going | Farewell => 1 | _ => 0 end.
Definition is_gone (p : WorkerPc) : bool :=
  match p with Farewell | FarewellNotify | Dead => true | _ => false end.
Definition panicked (p : WorkerPc) : bool :=
  match p with Going | Farewell | FarewellNotify | Dead => true | _ => false end.

(** Where a worker's index is: in a report, with the loop, or with the worker that has work. *)
Definition places (v : View) (t : Worker) : nat := length (v_reports v) + v_own v + busy t.

(** A worker that waits, or has decided to, was left nothing it has not been notified of. *)
Definition woken (v : View) (t : Worker) : Prop :=
  match pc t with
  | Wait => bq_items (slot t) <> [] \/ v_closed v = true -> arrived t = true \/ v_notify v = true
  | Look false => v_closed v = true -> arrived t = true \/ v_notify v = true
  | Look true => v_closed v = true
  | Left => v_closed v = true /\ bq_items (slot t) = []
  | _ => True
  end.

Record worker_ok (v : View) (t : Worker) : Prop := {
  k_places : places v t <= 1;
  k_active : v_active v = true -> places v t = 1;
  k_capacity : bq_capacity (slot t) = 1;
  k_log : v_sent v = handled t ++ lost t ++ running t ++ bq_items (slot t) ++ v_hand v;
  k_lost : length (lost t) = if panicked (pc t) then 1 else 0;
  k_gone : gone t = is_gone (pc t);
  k_reports : Forall (fun r => v_slot v = Some (negb r && negb (gone t)) /\ (r = true -> gone t = false))
    (v_reports v);
  k_own : v_own v = 0 \/ (gone t = false /\ v_slot v = Some false);
  k_busy : busy t = 0 \/ v_slot v = Some false;
  k_woken : woken v t;
  k_closed : closed t = v_closed v;
  k_dead : gone t = true -> bq_items (slot t) = [];
}.

Record loop_ok (w : World) : Prop := {
  l_workers : length (workers w) = count;
  l_slots : length (slots w) = count;
  l_free : bq_capacity (free w) = count /\ Forall (fun p => p.1 < count) (bq_items (free w));
  l_pc :
    match loop w with
    | Freed i _ | Fill i | Hand i _ | HandPush i _ | HandNotify i | CloseNotify i => i < count
    | _ => True
    end;
  l_held : match held w with
    | Some i => i < count /\ (active (loop w) = true -> loop w = Top)
    | None => True
    end;
  l_reported : loop w = AwaitReport -> bq_items (free w) <> [] ->
    reported w = true \/
    exists i t, workers w !! i = Some t /\ (pc t = Notify \/ pc t = FarewellNotify);
  l_dropped : dropped w = [];
  l_sent : Forall (fun p => p.1 < count) (pulled w);
}.

Definition pool_ok (w : World) : Prop :=
  loop_ok w /\ forall i t, workers w !! i = Some t -> worker_ok (view w i) t.

(** *** Framing *)

(** The loop stops, and lets go of what it held for a worker. *)
Record releases (v v' : View) : Prop := {
  rl_sent : v_sent v' = v_sent v;
  rl_hand : v_hand v' = v_hand v;
  rl_reports : sublist (v_reports v') (v_reports v);
  rl_own : v_own v' <= v_own v;
  rl_slot : v_slot v' = v_slot v;
  rl_notify : v_notify v' = v_notify v;
  rl_closed : v_closed v' = v_closed v;
  rl_active : v_active v' = false;
}.

Lemma worker_ok_release v v' t : worker_ok v t -> releases v v' -> worker_ok v' t.
Proof.
  intros [Hp _ Hc Hlog Hl Hg Hr Ho Hb Hw Hcl Hd] [Es Eh Er Eo Esl En Ec Ea].
  split; try done; rewrite ?Es, ?Eh, ?Esl, ?Ec, ?Ea; try done.
  - unfold places in *. apply sublist_length in Er. lia.
  - rewrite Forall_forall in *. intros r Hin. apply Hr. by eapply elem_of_sublist.
  - destruct Ho as [Ho|Ho]; [left; lia|by right].
  - unfold woken in *. by rewrite En, Ec.
Qed.

Lemma frame_all w w' :
  pool_ok w -> loop_ok w' -> workers w' = workers w ->
  (forall i t, i < count -> worker_ok (view w i) t -> worker_ok (view w' i) t) -> pool_ok w'.
Proof.
  intros [Hl Hw] Hl' Ew Hv. split; [done|]. intros i t Hi. rewrite Ew in Hi.
  apply Hv; [|by apply Hw]. rewrite <- (l_workers w Hl). by eapply lookup_lt_Some.
Qed.

Lemma frame_at w w' i t' :
  pool_ok w -> loop_ok w' -> workers w' = <[i := t']> (workers w) ->
  (forall j, j <> i -> view w' j = view w j) -> worker_ok (view w' i) t' -> pool_ok w'.
Proof.
  intros [Hl Hw] Hl' Ew Hv Hi. split; [done|]. intros j t Hj. rewrite Ew in Hj.
  apply list_lookup_insert_Some in Hj as [(-> & <- & _)|[Hne Hj]]; [done|].
  rewrite Hv by done. by apply Hw.
Qed.

Lemma frame_at_same w w' i t :
  pool_ok w -> loop_ok w' -> workers w' = workers w -> workers w !! i = Some t ->
  (forall j, j <> i -> view w' j = view w j) -> worker_ok (view w' i) t -> pool_ok w'.
Proof.
  intros Hok Hl' Ew Hi Hv Ht. eapply (frame_at w w' i t); try done. by rewrite list_insert_id.
Qed.

Lemma mine_ne {A} i j (x : A) : j <> i -> mine j (i, x) = None.
Proof. intros Hne. unfold mine. simpl. by rewrite decide_False. Qed.
Lemma mine_eq {A} i (x : A) : mine i (i, x) = Some x.
Proof. unfold mine. simpl. by rewrite decide_True. Qed.

Lemma worker_at w i : pool_ok w -> i < count -> exists t, workers w !! i = Some t /\ worker_ok (view w i) t.
Proof.
  intros [Hl Hw] Hi. rewrite <- (l_workers w Hl) in Hi. apply lookup_lt_is_Some in Hi as [t Ht].
  exists t. split; [done|]. by apply Hw.
Qed.

Lemma omap_mine_cons {A} i (p : nat * A) l :
  omap (mine i) (p :: l) =
    match mine i p with Some x => x :: omap (mine i) l | None => omap (mine i) l end.
Proof. done. Qed.

Lemma omap_mine_snoc {A} i (p : nat * A) l :
  omap (mine i) (l ++ [p]) = omap (mine i) l ++ match mine i p with Some x => [x] | None => [] end.
Proof. rewrite omap_app. simpl. by destruct (mine i p). Qed.

Lemma mine_elem {A} i (x : A) (l : list (nat * A)) : x ∈ omap (mine i) l -> (i, x) ∈ l.
Proof.
  intros ([k y] & Hin & Hm)%list_elem_of_omap. unfold mine in Hm. simpl in Hm.
  case_decide; [|done]. injection Hm as ->. by subst.
Qed.

Lemma omap_mine_length {A} i (l : list (nat * A)) :
  length (omap (mine i) l) = Prelude.count (Nat.eqb i) (fst <$> l).
Proof.
  induction l as [|[j x] l IH]; [done|]. rewrite fmap_cons, count_cons, omap_mine_cons. cbn [fst].
  destruct (decide (j = i)) as [->|Hne].
  - rewrite mine_eq, Nat.eqb_refl. simpl. by rewrite IH.
  - rewrite mine_ne by done. rewrite (proj2 (Nat.eqb_neq i j)) by done. by rewrite IH.
Qed.

(** *** The worker's steps *)

(** The list of free workers has room for a worker that is not in it. *)
Lemma report_room w i r :
  pool_ok w -> i < count -> v_reports (view w i) = [] ->
  exists q, bq_push (free w) (i, r) = Some q /\ bq_items q = bq_items (free w) ++ [(i, r)] /\
    bq_capacity q = count.
Proof.
  intros Hok Hi Hnone. pose proof Hok as [Hl _]. destruct (l_free w Hl) as [Hcap Hall].
  assert (Hle : forall j, j < count -> Prelude.count (Nat.eqb j) (fst <$> bq_items (free w)) <= 1).
  { intros j Hj. destruct (worker_at w j Hok Hj) as (t & _ & Ht). pose proof (k_places _ _ Ht) as Hp.
    unfold places in Hp. cbn [view v_reports] in Hp. rewrite length_app, omap_mine_length in Hp. lia. }
  assert (Hlt : length (fst <$> bq_items (free w)) < count).
  { apply (indices_room _ _ i); [by apply Forall_fmap|done|done|].
    rewrite <- omap_mine_length. cbn [view v_reports] in Hnone. apply app_nil in Hnone as [_ ->]. done. }
  rewrite length_fmap in Hlt.
  destruct (bq_push_room (free w) (i, r)) as (q & Hq & Hit & Hc); [by rewrite Hcap|].
  exists q. split_and!; [done|done|congruence].
Qed.

(** A step of the worker that leaves the list of free workers alone. *)
Lemma worker_set_ok w i t t' :
  pool_ok w -> workers w !! i = Some t ->
  (pc t <> Notify /\ pc t <> FarewellNotify) ->
  worker_ok (view w i) t' -> pool_ok (with_worker w (loop w) i t').
Proof.
  intros Hok Hi [Hn1 Hn2] Ht'. apply (frame_at w _ i t'); [done| |done|done|done].
  destruct Hok as [[]]. split; try done; simpl; [by rewrite length_insert|].
  intros Ha Hf. destruct (l_reported0 Ha Hf) as [?|(j & u & Hj & Hpc)]; [by left|right].
  exists j, u. split; [|done]. rewrite list_lookup_insert_ne; [done|]. intros <-.
  rewrite Hi in Hj. injection Hj as ->. by destruct Hpc.
Qed.

Lemma busy_1 v t : worker_ok v t -> 1 <= busy t -> v_reports v = [] /\ v_own v = 0 /\ busy t = 1.
Proof.
  intros Ht Hb. pose proof (k_places v t Ht) as Hp. unfold places in Hp.
  split_and!; [apply nil_length_inv; lia|lia|lia].
Qed.

Ltac same_log Hlog := etrans; [exact Hlog|]; simpl; rewrite <- ?app_assoc; done.

(** What a worker's own step makes of it, where the list of free workers is not touched. *)
Lemma worker_local_ok v t (panics : bool) t' :
  worker_ok v t ->
  match pc t with
  | Next => t' = at_pc t (Look (closed t))
  | Look was_closed =>
      match bq_pop (slot t) with
      | Some (b, q) => t' = with_slot t (Run b) q
      | None => t' = at_pc t (if was_closed then Left else Wait)
      end
  | Wait => arrived t = true /\ t' = with_arrived t Next false
  | Run b => t' = if panics then with_lost t Going b else with_handled t Report b
  | Going => t' = with_gone t Farewell
  | Notify => t' = at_pc t Next
  | FarewellNotify => t' = at_pc t Dead
  | _ => False
  end -> worker_ok v t'.
Proof.
  intros Ht Hs. pose proof (busy_1 v t Ht) as Hone.
  destruct Ht as [Hp Ha Hc Hlog Hl Hg Hr Ho Hb Hw Hcl Hd].
  unfold places, busy, running, woken in *.
  destruct (pc t) as [|wc| |b| | | | | | |] eqn:Epc; simpl in *; try done.
  - subst t'. split; unfold places, busy, running, woken; simpl; try done.
    rewrite Hcl. by destruct (v_closed v).
  - destruct (bq_pop (slot t)) as [[b q]|] eqn:Ep; subst t'.
    + apply bq_pop_Some in Ep as [Hq Hcq]. rewrite Hq in *. simpl in *.
      split; unfold places, busy, running, woken; simpl; try done; try lia; try congruence.
      * destruct Hb as [Hb|Hb]; [lia|by right].
    + apply bq_pop_None in Ep. rewrite Ep in *. simpl in *. destruct wc;
        (split; unfold places, busy, running, woken; simpl; rewrite ?Ep; simpl; try done).
      intros [?|?]; [done|auto].
  - destruct Hs as [_ ->]. split; unfold places, busy, running, woken; simpl; try done.
  - destruct Hone as (_ & _ & Hbu); [lia|].
    assert (Hnil : bq_items (slot t) = []) by (apply nil_length_inv; lia).
    subst t'. destruct panics; split; unfold places, busy, running, woken; simpl; rewrite ?Hnil in *;
      try done.
    + same_log Hlog.
    + rewrite length_app. simpl. lia.
    + apply nil_length_inv in Hl. rewrite Hl in *. same_log Hlog.
  - by subst t'.
  - destruct Hone as (Hrep & Hown & Hbu); [lia|].
    assert (Hnil : bq_items (slot t) = []) by (apply nil_length_inv; lia).
    subst t'. split; unfold places, busy, running, woken; simpl; rewrite ?Hrep, ?Hnil in *; try done.
    by left.
  - by subst t'.
Qed.

(** A worker's report, before its [notify_one]. *)
Lemma report_ok w i t returned p :
  pool_ok w -> workers w !! i = Some t ->
  (pc t = Report /\ returned = true /\ p = Notify \/
   pc t = Farewell /\ returned = false /\ p = FarewellNotify) ->
  pool_ok (with_worker (report w i returned) (loop w) i (at_pc t p)).
Proof.
  intros Hok Hi Hpc. pose proof Hok as [Hl Hw]. pose proof (Hw i t Hi) as Ht.
  assert (Hlt : i < count) by (rewrite <- (l_workers w Hl); by eapply lookup_lt_Some).
  destruct (busy_1 _ _ Ht) as (Hrep & Hown & Hbu).
  { unfold busy. destruct Hpc as [(-> & _)|(-> & _)]; lia. }
  assert (Hnil : bq_items (slot t) = []).
  { apply nil_length_inv. unfold busy in Hbu. destruct Hpc as [(E & _)|(E & _)]; rewrite E in Hbu; lia. }
  destruct (report_room w i returned Hok Hlt Hrep) as (q & Hq & Hit & Hcq).
  unfold report. rewrite Hq. simpl.
  apply (frame_at w _ i (at_pc t p)); [done| |done| |].
  - destruct Hl. split; try done; simpl.
    + by rewrite length_insert.
    + split; [done|]. rewrite Hit. apply Forall_app. by split; [apply l_free0|constructor].
    + intros _ _. right. exists i, (at_pc t p). rewrite list_lookup_insert_eq by (by eapply lookup_lt_Some).
      split; [done|]. simpl. destruct Hpc as [(_ & _ & ->)|(_ & _ & ->)]; auto.
  - intros j Hne. unfold view. simpl. by rewrite Hit, omap_mine_snoc, mine_ne, app_nil_r.
  - destruct Ht as [Hp Ha Hc Hlog Hlo Hg Hr Ho Hb Hwk Hcl Hd].
    assert (Hv : v_reports (view w i) ++ [returned] =
      popped (loop w) i ++ omap (mine i) (bq_items (free w)) ++ [returned]) by (simpl; by rewrite <- app_assoc).
    rewrite Hrep in Hv. simpl in Hv.
    assert (Hown' : fills (loop w) i + keeps (held w) i = 0) by exact Hown.
    unfold places, busy, running, woken in *. rewrite Hrep, Hown, Hnil in *.
    destruct Hb as [Hb|Hb]; [destruct Hpc as [(E & _)|(E & _)]; rewrite E in Hb; simpl in Hb; lia|].
    destruct Hpc as [(E & -> & ->)|(E & -> & ->)]; rewrite E in *;
      (split; unfold places, busy, running, woken; simpl;
       rewrite ?Hit, ?omap_mine_snoc, ?mine_eq, <- ?Hv, ?Hnil, ?Hown'; simpl; try done; try lia;
       try by left);
      simpl in Hg; rewrite Hg; constructor; try done; by rewrite <- Hb.
Qed.

Lemma bp_worker_step_ok w i panics w' : pool_ok w -> worker_step w i panics = Some w' -> pool_ok w'.
Proof.
  intros Hok Hs. unfold worker_step in Hs. destruct (workers w !! i) as [t|] eqn:Hi; [|done].
  simpl in Hs. pose proof (proj2 Hok i t Hi) as Ht.
  assert (Hset : forall t', match pc t with Notify | FarewellNotify => False | _ => True end ->
    worker_ok (view w i) t' -> pool_ok (with_worker w (loop w) i t')).
  { intros t' Hn. apply (worker_set_ok w i t); [done|done|]. by destruct (pc t). }
  pose proof (worker_local_ok (view w i) t panics) as Hstep.
  destruct (pc t) as [|wc| |b| | | | | | |] eqn:Epc; try done.
  - injection Hs as <-. apply Hset; [done|]. by apply Hstep.
  - destruct (bq_pop (slot t)) as [[b q]|] eqn:Ep; injection Hs as <-;
      (apply Hset; [done|by apply Hstep]).
  - destruct (arrived t) eqn:Ea; [|done]. injection Hs as <-. apply Hset; [done|]. by apply Hstep.
  - injection Hs as <-. apply Hset; [done|]. by apply Hstep.
  - injection Hs as <-. apply report_ok; [done|done|auto].
  - injection Hs as <-. apply (frame_at w _ i (at_pc t Next)); [done| |done|done|by apply Hstep].
    destruct Hok as [[] _]. split; try done; simpl; [by rewrite length_insert|by left].
  - injection Hs as <-. apply Hset; [done|]. by apply Hstep.
  - injection Hs as <-. apply report_ok; [done|done|auto].
  - injection Hs as <-. apply (frame_at w _ i (at_pc t Dead)); [done| |done|done|by apply Hstep].
    destruct Hok as [[] _]. split; try done; simpl; [by rewrite length_insert|by left].
Qed.

(** *** The loop's steps *)

Ltac here :=
  repeat match goal with
  | Hd : context [decide (?x = ?x)] |- _ => rewrite (decide_True (P := x = x)) in Hd by done
  end; rewrite ?decide_True by done.

(** A step that shows every worker the same. *)
Lemma same_views w w' :
  pool_ok w -> loop_ok w' -> workers w' = workers w ->
  (forall i, i < count -> view w' i = view w i) -> pool_ok w'.
Proof. intros Hok Hl Ew Hv. apply (frame_all w w'); [done..|]. intros i t Hi. by rewrite Hv. Qed.

(** The loop keeps a worker for the next batch only across the top. *)
Lemma held_none w : loop_ok w -> active (loop w) = true -> loop w <> Top -> held w = None.
Proof.
  intros Hl Ha Ht. pose proof (l_held w Hl) as Hh. destruct (held w); [|done].
  destruct Hh as [_ Hh]. by destruct Ht; apply Hh.
Qed.

(** The loop stops. *)
Lemma stop_ok w :
  pool_ok w -> active (loop w) = true ->
  match loop w with Hand _ _ | HandPush _ _ | HandNotify _ => False | _ => True end ->
  pool_ok (to w (Close 0)).
Proof.
  intros Hok Ha Hpc. apply (frame_all w); [done| |done|].
  - destruct Hok as [[] _]. split; try done; simpl. destruct (held w); [|done]. by destruct l_held0.
  - intros i t Hi Ht. eapply worker_ok_release; [exact Ht|].
    split; simpl; try done; destruct (loop w); try done; simpl; try lia.
    by apply sublist_inserts_l.
Qed.

Lemma keeps_none i : keeps None i = 0.
Proof. done. Qed.
Lemma keeps_some i j : keeps (Some i) j = if decide (i = j) then 1 else 0.
Proof. unfold keeps. apply decide_ext. naive_solver. Qed.

(** What the loop holds for a worker: no report of its, no work in it, and a live inbox. *)
Lemma own_1 w i t :
  worker_ok (view w i) t -> fills (loop w) i + keeps (held w) i = 1 ->
  v_reports (view w i) = [] /\ bq_items (slot t) = [] /\ busy t = 0 /\ gone t = false /\
    slots w !! i = Some false.
Proof.
  intros Ht Ho. pose proof (k_places _ _ Ht) as Hp. unfold places in Hp. simpl in *.
  destruct (k_own _ _ Ht) as [Hz|[Hg Hs]]; [simpl in Hz; lia|].
  split_and!; [apply nil_length_inv; simpl; lia| |lia|done|done].
  apply nil_length_inv. unfold busy in Hp. lia.
Qed.

Lemma fills_ne l i j :
  j <> i ->
  match l with Freed k _ | Fill k | Hand k _ | HandPush k _ | HandNotify k => k = i | _ => False end ->
  fills l j = 0 /\ hand_of l j = [] /\ popped l j = [] /\ notifies l j = false.
Proof.
  intros Hne Hl. destruct l; simpl; try done; subst;
    rewrite ?decide_False by done; try done. split_and!; try done. by apply Nat.eqb_neq.
Qed.

Lemma freed_ok w i r s :
  pool_ok w -> loop w = Freed i r ->
  s = (if r then <[i := true]> (slots w) else slots w) ->
  forall owned, s !! i = Some owned ->
  pool_ok (with_slots w (if owned : bool then Fill i else Close 0) (<[i := false]> s)).
Proof.
  intros Hok Hpc Hs owned Ho. pose proof Hok as [Hl _].
  assert (Hi : i < count) by (pose proof (l_pc w Hl) as Hp; by rewrite Hpc in Hp).
  destruct (worker_at w i Hok Hi) as (t & Hti & Ht).
  pose proof (k_reports _ _ Ht) as Hr. simpl in Hr. rewrite Hpc in Hr. simpl in Hr.
  rewrite decide_True in Hr by done. apply Forall_cons in Hr as [[Hsl Hgo] Hr].
  assert (Hlen : length s = count) by (subst s; destruct r; rewrite ?length_insert; apply Hl).
  assert (Hheld : held w = None) by (apply held_none; [done|by rewrite Hpc..]).
  assert (Hother : forall j, j <> i -> <[i := false]> s !! j = slots w !! j).
  { intros j Hne. rewrite list_lookup_insert_ne by done. subst s. destruct r; [|done].
    by rewrite list_lookup_insert_ne. }
  assert (Hmine : <[i := false]> s !! i = Some false) by (apply list_lookup_insert_eq; lia).
  assert (Hown : owned = negb (gone t)).
  { subst s. destruct r; [rewrite list_lookup_insert_eq in Ho by (rewrite (l_slots w Hl); lia)|];
      [injection Ho as <-; by rewrite Hgo|]. rewrite Hsl in Ho. by injection Ho as <-. }
  assert (Hloop : loop_ok (with_slots w (if owned then Fill i else Close 0) (<[i := false]> s))).
  { destruct Hl. split; simpl; try done; rewrite ?length_insert, ?Hheld; try done; by destruct owned. }
  pose proof (k_places _ _ Ht) as Hp. unfold places in Hp. simpl in Hp.
  rewrite Hpc in Hp. simpl in Hp. rewrite decide_True in Hp by done. simpl in Hp.
  destruct owned.
  - apply (frame_at_same w _ i t); [done|done|done|done| |].
    + intros j Hne. unfold view. simpl. rewrite Hpc, (Hother j) by done. simpl.
      by rewrite !decide_False by congruence.
    + assert (Hrep : omap (mine i) (bq_items (free w)) = []) by (apply nil_length_inv; lia).
      destruct Ht as [Hpu Hau Hc Hlog Hlo Hg Hru Hou Hb Hwk Hcl Hd].
      unfold places, view in *. simpl in *. rewrite Hpc, Hheld, Hrep in *. simpl in *.
      here.
      split; unfold places, view; simpl; rewrite ?Hheld, ?Hrep, ?Hmine; simpl;
        rewrite ?decide_True by done; try done; try lia; try by right.
      right. split; [|done]. by destruct (gone t).
  - apply (frame_all w); [done|done|done|]. intros j u Hj Hu.
    eapply worker_ok_release; [exact Hu|]. split; simpl; rewrite ?Hpc; simpl; try done.
    + by apply sublist_inserts_l.
    + destruct (decide (j = i)) as [->|Hne]; [|by apply Hother]. rewrite Hmine, Hsl.
      destruct (gone t); [|done]. by rewrite andb_false_r.
Qed.

(** The stream fills the slot. *)
Lemma filled_ok w i b :
  pool_ok w -> loop w = Fill i -> pool_ok (with_pulled w (Hand i b) i b).
Proof.
  intros Hok Hpc. pose proof Hok as [Hl _].
  assert (Hi : i < count) by (pose proof (l_pc w Hl) as Hp; by rewrite Hpc in Hp).
  assert (Hheld : held w = None) by (apply held_none; [done|by rewrite Hpc..]).
  destruct (worker_at w i Hok Hi) as (t & Hti & Ht).
  apply (frame_at_same w _ i t); [done| |done|done| |].
  - destruct Hl. split; simpl; try done.
    + by rewrite Hheld.
    + apply Forall_app. split; [done|]. by constructor.
  - intros j Hne. unfold view. simpl. rewrite Hpc, omap_mine_snoc, mine_ne, app_nil_r by done. simpl.
    by rewrite !decide_False by congruence.
  - destruct Ht as [Hpu Hau Hc Hlog Hlo Hg Hru Hou Hb Hwk Hcl Hd].
    unfold places, view in *. simpl in *. rewrite Hpc in *. simpl in *. here.
    split; unfold places, view; simpl; rewrite ?decide_True by done; try done.
    rewrite omap_mine_snoc, mine_eq, Hlog, app_nil_r, <- !app_assoc. done.
Qed.

(** The push finds the inbox empty. *)
Lemma hand_push_ok w i b :
  pool_ok w -> loop w = HandPush i b ->
  exists t q, workers w !! i = Some t /\ bq_push (slot t) b = Some q /\
    pool_ok (with_worker w (HandNotify i) i (with_slot t (pc t) q)).
Proof.
  intros Hok Hpc. pose proof Hok as [Hl _].
  assert (Hi : i < count) by (pose proof (l_pc w Hl) as Hp; by rewrite Hpc in Hp).
  destruct (worker_at w i Hok Hi) as (t & Hti & Ht).
  assert (Hheld : held w = None) by (apply held_none; [done|by rewrite Hpc..]).
  destruct (own_1 w i t Ht) as (Hrep & Hnil & Hbusy & Hgone & Hslot).
  { rewrite Hpc, Hheld. simpl. by rewrite decide_True. }
  destruct (bq_push_room (slot t) b) as (q & Hq & Hqi & Hqc).
  { rewrite Hnil, (k_capacity _ _ Ht). simpl. lia. }
  exists t, q. split_and!; [done|done|].
  apply (frame_at w _ i (with_slot t (pc t) q)); [done| |done| |].
  - destruct Hl. split; simpl; rewrite ?length_insert, ?Hheld; done.
  - intros j Hne. unfold view. simpl. rewrite Hpc. simpl. rewrite !decide_False by congruence.
    by rewrite (proj2 (Nat.eqb_neq i j)) by congruence.
  - destruct Ht as [Hpu Hau Hc Hlog Hlo Hg Hru Hou Hb Hwk Hcl Hd].
    assert (Hr0 : omap (mine i) (bq_items (free w)) = []).
    { apply nil_length_inv. simpl in Hrep. rewrite Hpc in Hrep. simpl in Hrep. by rewrite Hrep. }
    unfold places, busy, running, woken, view in *. simpl in *. rewrite Hpc, Hheld, Hnil, Hr0 in *. simpl in *.
    here.
    split; unfold places, busy, running, woken, view; simpl; rewrite ?Nat.eqb_refl, ?Hqi, ?Hnil, ?Hheld, ?Hr0;
      simpl; try done; try lia; try congruence; try by right; try by left.
    destruct (pc t) as [|[]| | | | | | | | |]; try done; try auto. by destruct Hwk as [? _].
Qed.

(** The loop notifies an inbox, and is done with it. *)
Lemma notified_ok w l i t :
  pool_ok w -> workers w !! i = Some t -> notifies (loop w) i = true ->
  (forall j, view (to w l) j = mk_view (v_sent (view w j)) (v_hand (view w j)) (v_reports (view w j))
     (v_own (view w j)) (v_slot (view w j)) (if decide (j = i) then false else v_notify (view w j))
     (v_closed (view w j)) (v_active (view w j))) ->
  loop_ok (with_worker w l i (with_arrived t (pc t) true)) ->
  pool_ok (with_worker w l i (with_arrived t (pc t) true)).
Proof.
  intros Hok Hi Hn Hv Hl. apply (frame_at w _ i (with_arrived t (pc t) true)); [done|done|done| |].
  - intros j Hne. change (view (with_worker w l i _) j) with (view (to w l) j).
    rewrite Hv, decide_False by done. done.
  - change (view (with_worker w l i _) i) with (view (to w l) i). rewrite Hv, decide_True by done.
    destruct (proj2 Hok i t Hi) as [Hpu Hau Hc Hlog Hlo Hg Hru Hou Hb Hwk Hcl Hd].
    split; try done. unfold woken in *. simpl in *.
    destruct (pc t) as [|[]| | | | | | | | |]; try done; by left.
Qed.

(** An inbox is closed. *)
Lemma close_ok w i t :
  pool_ok w -> loop w = Close i -> i < count -> workers w !! i = Some t ->
  pool_ok (with_worker w (CloseNotify i) i (with_closed t)).
Proof.
  intros Hok Hpc Hi Ht. apply (frame_at w _ i (with_closed t)); [done| |done| |].
  - destruct Hok as [[] _]. split; simpl; rewrite ?length_insert; try done.
    destruct (held w); [|done]. by destruct l_held0.
  - intros j Hne. unfold view. simpl. rewrite Hpc. simpl.
    rewrite (proj2 (Nat.eqb_neq i j)) by congruence.
    replace (j <=? i) with (j <? i); [done|].
    apply eq_true_iff_eq. rewrite Nat.ltb_lt, Nat.leb_le. lia.
  - destruct (proj2 Hok i t Ht) as [Hpu Hau Hc Hlog Hlo Hg Hru Hou Hb Hwk Hcl Hd].
    unfold places, busy, running, woken, view in *. simpl in *. rewrite Hpc in *. simpl in *.
    rewrite Nat.ltb_irrefl in *.
    split; unfold places, busy, running, woken, view; simpl; rewrite ?Nat.eqb_refl, ?Nat.leb_refl; try done.
    destruct (pc t) as [|[]| | | | | | | | |]; try done; try auto. by destruct Hwk as [? _].
Qed.

(** Up to the report of a free worker. *)
Lemma acquiring_ok w answer w' :
  pool_ok w -> match loop w with Top | Acquire | AwaitReport => True | _ => False end ->
  loop_step w answer = Some w' -> pool_ok w'.
Proof.
  intros Hok Hin Hs. pose proof Hok as [Hl Hw]. pose proof (l_pc w Hl) as Hp. pose proof (l_held w Hl) as Hh.
  unfold loop_step in Hs. destruct (loop w) as [| | |i r|i|i b|i b|i|i|i| |] eqn:Hpc; try done.
  - destruct (shutdown w).
    { injection Hs as <-. apply stop_ok; by rewrite ?Hpc. }
    destruct (held w) as [i|] eqn:Eh; injection Hs as <-.
    + apply (same_views w); [done| |done|].
      * destruct Hl. split; simpl; try done. by destruct Hh.
      * intros j _. unfold view. simpl. rewrite Hpc, Eh. simpl. rewrite keeps_some, keeps_none. f_equal. lia.
    + apply (same_views w); [done| |done|intros j _; unfold view; simpl; by rewrite Hpc].
      destruct Hl. split; simpl; rewrite ?Eh; done.
  - assert (Hheld : held w = None) by (apply held_none; [done|by rewrite Hpc..]).
    destruct (bq_pop (free w)) as [[[i r] q]|] eqn:Ep; injection Hs as <-.
    + apply bq_pop_Some in Ep as [Hq Hcq]. destruct (l_free w Hl) as [Hcap Hall]. rewrite Hq in Hall.
      apply Forall_cons in Hall as [Hi Hall].
      apply (same_views w); [done| |done|].
      * destruct Hl. split; simpl; rewrite ?Hheld; try done. split; [congruence|done].
      * intros j _. unfold view. simpl. rewrite Hpc, Hq, omap_mine_cons. simpl.
        destruct (decide (i = j)) as [->|Hne]; [by rewrite mine_eq|by rewrite mine_ne].
    + apply bq_pop_None in Ep. apply (same_views w); [done| |done|intros j _; unfold view; simpl; by rewrite Hpc].
      destruct Hl. split; simpl; rewrite ?Hheld; try done.
  - destruct (reported w); [|destruct (shutdown w); [|done]]; injection Hs as <-.
    + apply (same_views w); [done| |done|intros j _; unfold view; simpl; by rewrite Hpc].
      destruct Hl. split; simpl; try done. rewrite held_none; [done|done|by rewrite Hpc..].
    + apply stop_ok; by rewrite ?Hpc.
Qed.

(** From the report to the hand-over. *)
Lemma handing_ok w answer w' :
  pool_ok w -> match loop w with Freed _ _ | Fill _ | Hand _ _ | HandPush _ _ | HandNotify _ => True | _ => False end ->
  loop_step w answer = Some w' -> pool_ok w'.
Proof.
  intros Hok Hin Hs. pose proof Hok as [Hl Hw]. pose proof (l_pc w Hl) as Hp. pose proof (l_held w Hl) as Hh.
  unfold loop_step in Hs. destruct (loop w) as [| | |i r|i|i b|i b|i|i|i| |] eqn:Hpc; try done.
  - apply bind_Some in Hs as (owned & Ho & [= <-]). by eapply freed_ok.
  - destruct answer as [b| | |].
    + injection Hs as <-. by apply filled_ok.
    + injection Hs as <-. apply (same_views w); [done| |done|].
      * destruct Hl. split; simpl; done.
      * intros j _. unfold view. simpl. rewrite Hpc, keeps_some. simpl.
        rewrite held_none, keeps_none by (done || by rewrite Hpc). f_equal. lia.
    + injection Hs as <-. apply stop_ok; by rewrite ?Hpc.
    + destruct (shutdown w); [|done]. injection Hs as <-. apply stop_ok; by rewrite ?Hpc.
  - destruct (worker_at w i Hok Hp) as (t & Ht & Hwt). rewrite Ht in Hs. simpl in Hs.
    assert (Hg : gone t = false).
    { destruct (k_own _ _ Hwt) as [Hz|[? _]]; [|done]. simpl in Hz. rewrite Hpc in Hz. simpl in Hz. here. lia. }
    rewrite Hg in Hs. injection Hs as <-.
    apply (same_views w); [done| |done|intros j _; unfold view; simpl; by rewrite Hpc].
    destruct Hl. split; simpl; try done. rewrite held_none; [done|done|by rewrite Hpc..].
  - destruct (hand_push_ok w i b Hok Hpc) as (t & q & Ht & Hq & Hok'). rewrite Ht in Hs. simpl in Hs.
    rewrite Hq in Hs. by injection Hs as <-.
  - apply bind_Some in Hs as (t & Ht & [= <-]). apply notified_ok; [done|done|by rewrite Hpc; apply Nat.eqb_refl| |].
    + intros j. unfold view. simpl. rewrite Hpc. simpl. f_equal.
      destruct (decide (j = i)) as [->|Hne]; [done|]. symmetry. by apply Nat.eqb_neq.
    + destruct Hl. split; simpl; rewrite ?length_insert; try done.
      destruct (held w); [|done]. by destruct Hh as [? _].
Qed.

(** Closing the inboxes and joining the crew. *)
Lemma closing_ok w answer w' :
  pool_ok w -> match loop w with Close _ | CloseNotify _ | Joining => True | _ => False end ->
  loop_step w answer = Some w' -> pool_ok w'.
Proof.
  intros Hok Hin Hs. pose proof Hok as [Hl Hw]. pose proof (l_pc w Hl) as Hp. pose proof (l_held w Hl) as Hh.
  unfold loop_step in Hs. destruct (loop w) as [| | |i r|i|i b|i b|i|i|i| |] eqn:Hpc; try done.
  - destruct (Nat.ltb_spec i count) as [Hi|Hi].
    + apply bind_Some in Hs as (t & Ht & [= <-]). by apply close_ok.
    + injection Hs as <-. apply (same_views w); [done| |done|].
      * destruct Hl. split; simpl; try done. destruct (held w); [|done]. by destruct Hh.
      * intros j Hj. unfold view. simpl. rewrite Hpc. simpl. rewrite (proj2 (Nat.ltb_lt j i)) by lia. done.
  - apply bind_Some in Hs as (t & Ht & [= <-]). apply notified_ok; [done|done|by rewrite Hpc; apply Nat.eqb_refl| |].
    + intros j. unfold view. simpl. rewrite Hpc. simpl.
      replace (j <? S i) with (j <=? i) by (apply eq_true_iff_eq; rewrite Nat.ltb_lt, Nat.leb_le; lia).
      f_equal. destruct (decide (j = i)) as [->|Hne]; [done|]. symmetry. by apply Nat.eqb_neq.
    + destruct Hl. split; simpl; rewrite ?length_insert; try done.
      destruct (held w); [|done]. by destruct Hh.
  - destruct (forallb has_ended (workers w)); [|done]. injection Hs as <-.
    apply (same_views w); [done| |done|intros j _; unfold view; simpl; by rewrite Hpc].
    destruct Hl. split; simpl; try done. destruct (held w); [|done]. by destruct Hh.
Qed.

Lemma bp_loop_step_ok w answer w' : pool_ok w -> loop_step w answer = Some w' -> pool_ok w'.
Proof.
  intros Hok Hs. destruct (loop w) eqn:Hpc;
    first [eapply acquiring_ok; [done|by rewrite Hpc|done]|eapply handing_ok; [done|by rewrite Hpc|done]
          |eapply closing_ok; [done|by rewrite Hpc|done]|unfold loop_step in Hs; by rewrite Hpc in Hs].
Qed.

(** *** The start *)

Lemma bp_fill_free_items l (q : Q (nat * bool)) :
  length (bq_items q) + length l <= bq_capacity q ->
  bq_items (fill_free l q) = bq_items q ++ ((fun i => (i, false)) <$> l) /\
  bq_capacity (fill_free l q) = bq_capacity q.
Proof.
  revert q. induction l as [|i l IH]; intros q Hle; simpl in *; [by rewrite app_nil_r|].
  destruct (bq_push_room q (i, false)) as (q' & Hq & Hi & Hc); [lia|]. rewrite Hq. simpl.
  destruct (IH q') as [Hl Hcl]; [rewrite Hi, Hc, length_app; simpl; lia|]. unfold fill_free in *.
  by rewrite Hl, Hcl, Hi, <-app_assoc.
Qed.

#[local] Arguments fill_free : simpl never.

Lemma seeded_once i n :
  i < n -> omap (mine i) ((fun j => (j, false)) <$> seq 0 n) = [false].
Proof.
  intros Hi. assert (Hlen : length (omap (mine i) ((fun j => (j, false)) <$> seq 0 n)) = 1).
  { rewrite omap_mine_length, <- list_fmap_compose. change (fst ∘ _) with (@id nat).
    rewrite list_fmap_id, count_seq. by rewrite decide_True. }
  destruct (omap _ _) as [|r [|? ?]] eqn:E; try done. f_equal.
  assert (Hin : r ∈ omap (mine i) ((fun j => (j, false)) <$> seq 0 n)) by (rewrite E; left).
  apply list_elem_of_omap in Hin as ([k x] & Hin & Hm). apply list_elem_of_fmap in Hin as (? & [= -> ->] & _).
  unfold mine in Hm. simpl in Hm. case_decide; [|done]. by injection Hm.
Qed.

Lemma bp_start_ok : pool_ok start.
Proof.
  pose proof (bq_new_items (A := nat * bool) count) as [Hi Hc].
  pose proof (bq_new_items (A := B) 1) as [Hi1 Hc1].
  destruct (bp_fill_free_items (seq 0 count) (bq_new count)) as [Hf Hfc]; [rewrite Hi, Hc, length_seq; simpl; lia|].
  rewrite Hi in Hf. simpl in Hf. split; [split; simpl; try done|].
  - apply length_replicate.
  - apply length_replicate.
  - rewrite Hf, Hfc, Hc. split; [done|]. apply Forall_fmap, Forall_forall. intros x Hx%elem_of_seq. simpl in *; lia.
  - intros i t Ht. simpl in Ht. apply lookup_replicate in Ht as [-> Hlt].
    assert (Hv : view start i = mk_view [] [] [false] 0 (Some true) false false true).
    { unfold view. simpl. rewrite Hf, seeded_once by done. f_equal. by apply lookup_replicate_2. }
    rewrite Hv. split; unfold places, busy; simpl; rewrite ?Hi1; simpl; try done;
      try by left.
    by repeat constructor.
Qed.

Lemma bp_pool_reachable_ok w : reachable w -> pool_ok w.
Proof.
  induction 1 as [|w a w' _ IH Hs]; [by apply bp_start_ok|]. destruct a as [answer|i panics|]; simpl in Hs.
  - by eapply bp_loop_step_ok.
  - by eapply bp_worker_step_ok.
  - injection Hs as <-. destruct IH as [[] Hw]. split; [by split|]. exact Hw.
Qed.

(** ** What the batch pool promises *)

(** Where the batches of worker [i] are on their way. *)
Definition on_the_way (w : World) (i : nat) (t : Worker) : list B :=
  running t ++ bq_items (slot t) ++ hand_of (loop w) i.

(** C19. No batch is lost on its way to a worker, for every interleaving of the loop and the workers,
    every load, push and permit apart: what the loop pulled for a worker is, in order, what the worker
    ran to its end, the one batch it panicked in, and at most one on its way; the loop never fills a
    slot for a worker that has ended nor finds its inbox taken, so the hand-over always succeeds; and
    the list of free workers has room for every report. *)
Theorem batch_pool_hands_over_each_once w i t :
  reachable w -> workers w !! i = Some t ->
  omap (mine i) (pulled w) = handled t ++ lost t ++ on_the_way w i t /\
  length (lost t) = (if panicked (pc t) then 1 else 0) /\
  length (on_the_way w i t) <= 1 /\ dropped w = [] /\
  (forall b, loop w = Hand i b \/ loop w = HandPush i b -> gone t = false /\ bq_items (slot t) = []) /\
  (pc t = Report \/ pc t = Farewell -> forall r, is_Some (bq_push (free w) (i, r))).
Proof.
  intros Hr Hi. pose proof (bp_pool_reachable_ok w Hr) as Hok. pose proof Hok as [Hl Hw].
  pose proof (Hw i t Hi) as Ht. pose proof (k_places _ _ Ht) as Hp.
  assert (Hlt : i < count) by (rewrite <- (l_workers w Hl); by eapply lookup_lt_Some).
  split_and!; [exact (k_log _ _ Ht)|exact (k_lost _ _ Ht)| |exact (l_dropped w Hl)| |].
  - unfold on_the_way, places, busy, running in *. simpl in Hp. rewrite !length_app in *.
    assert (length (hand_of (loop w) i) <= fills (loop w) i) by (destruct (loop w); simpl; try lia; by case_decide).
    destruct (pc t); simpl in *; lia.
  - intros b Hb. destruct (own_1 w i t Ht) as (_ & Hn & _ & Hg & _); [|done].
    assert (Hh : held w = None) by (apply held_none; [done|by destruct Hb as [-> | ->]..]).
    rewrite Hh, keeps_none. destruct Hb as [-> | ->]; simpl; by rewrite decide_True.
  - intros Hpc r. destruct (report_room w i r Hok Hlt) as (q & Hq & _); [|by eexists].
    apply (busy_1 _ t Ht). unfold busy. destruct Hpc as [-> | ->]; lia.
Qed.

(** A worker that panicked is seen: as long as the loop has not stopped, an ended worker's report
    is in the list of free workers or just popped, its slot is not the loop's to fill, and taking the
    report stops the loop; so the pool never runs on with a worker fewer once the turn of that worker
    comes, and no batch is pulled for it. *)
Theorem batch_pool_sees_its_dead w i t :
  reachable w -> workers w !! i = Some t -> pc t = Dead -> active (loop w) = true ->
  ((i, false) ∈ bq_items (free w) \/ loop w = Freed i false) /\ slots w !! i = Some false /\
  held w <> Some i /\ loop w <> Fill i /\
  (loop w = Freed i false -> forall answer w', loop_step w answer = Some w' -> loop w' = Close 0).
Proof.
  intros Hr Hi Hd Ha. pose proof (bp_pool_reachable_ok w Hr) as [Hl Hw]. pose proof (Hw i t Hi) as Ht.
  pose proof (k_active _ _ Ht Ha) as Hp. pose proof (k_gone _ _ Ht) as Hg. rewrite Hd in Hg. simpl in Hg.
  assert (Hbusy : busy t = 0) by (unfold busy; rewrite Hd, (k_dead _ _ Ht Hg); done).
  assert (Hown : v_own (view w i) = 0) by (destruct (k_own _ _ Ht) as [?|[? _]]; [done|congruence]).
  unfold places in Hp. rewrite Hbusy, Hown in Hp.
  pose proof (k_reports _ _ Ht) as Hrep.
  destruct (v_reports (view w i)) as [|r [|? ?]] eqn:E; simpl in Hp; try lia.
  apply Forall_cons in Hrep as [[Hsl Hr'] _]. rewrite Hg in Hsl, Hr'. rewrite andb_false_r in Hsl.
  destruct r; [by specialize (Hr' eq_refl)|]. simpl in Hsl, Hown, E.
  split_and!; [|done| | |].
  - unfold popped in E. destruct (loop w) as [| | |j r|j|j b|j b|j|j|j| |]; simpl in E;
      try (left; apply (mine_elem i); by rewrite E; left).
    destruct (decide (j = i)) as [->|Hne]; simpl in E.
    + injection E as -> _. by right.
    + left. apply (mine_elem i). rewrite E. left.
  - intros Hh. rewrite Hh, keeps_some, decide_True in Hown by done. lia.
  - intros El. rewrite El in Hown. simpl in Hown. rewrite decide_True in Hown by done. lia.
  - intros El answer w' Hs. unfold loop_step in Hs. rewrite El, Hsl in Hs. simpl in Hs. by injection Hs as <-.
Qed.

(** A worker that cannot go on by itself waits with no permit, or has ended. *)
Lemma bp_stuck_worker w i t :
  workers w !! i = Some t -> worker_step w i false = None ->
  (pc t = Wait /\ arrived t = false) \/ has_ended t = true.
Proof.
  intros Hi. unfold worker_step, has_ended. rewrite Hi. simpl.
  destruct (pc t); try done; [by destruct (bq_pop (slot t)) as [[]|]| |by right..].
  destruct (arrived t); [done|by left].
Qed.

(** One that waits so has nothing in its inbox, which is open. *)
Lemma waits_idle w i t :
  worker_ok (view w i) t -> pc t = Wait -> arrived t = false -> notifies (loop w) i = false ->
  bq_items (slot t) = [] /\ closed_by (loop w) i = false /\ busy t = 0.
Proof.
  intros Ht Hpc Ha Hn. pose proof (k_woken _ _ Ht) as Hw. unfold woken in Hw. rewrite Hpc in Hw.
  simpl in Hw. rewrite Ha, Hn in Hw.
  assert (Hnil : bq_items (slot t) = []).
  { destruct (bq_items (slot t)); [done|]. destruct Hw as [?|?]; [by left|done|done]. }
  split_and!; [done| |unfold busy; by rewrite Hpc, Hnil].
  destruct (closed_by (loop w) i); [|done]. destruct Hw as [?|?]; [by right|done|done].
Qed.

(** The loop does not wait for a report with every worker at rest. *)
Lemma await_report_moves w :
  0 < count -> pool_ok w -> loop w = AwaitReport -> reported w = false ->
  (forall i t, workers w !! i = Some t -> (pc t = Wait /\ arrived t = false) \/ has_ended t = true) -> False.
Proof.
  intros Hn Hok El Erep Hst. pose proof Hok as [Hl Hw].
  assert (Hheld : held w = None) by (apply held_none; [done|by rewrite El..]).
  assert (Hfree : bq_items (free w) = []).
  { destruct (bq_items (free w)) eqn:Ef; [done|].
    destruct (l_reported w Hl El) as [?|(j & u & Hj & Hu)]; [by rewrite Ef|congruence|].
    destruct (Hst j u Hj) as [[E _]|E]; [|unfold has_ended in E]; destruct Hu as [E'|E']; by rewrite E' in E. }
  destruct (worker_at w 0 Hok Hn) as (t & Ht & Hwt).
  pose proof (k_active _ _ Hwt) as Hp. unfold places in Hp. simpl in Hp.
  rewrite El, Hfree, Hheld, keeps_none in Hp. specialize (Hp eq_refl). simpl in Hp.
  destruct (Hst 0 t Ht) as [[E Ea]|E].
  - destruct (waits_idle w 0 t Hwt E Ea) as (_ & _ & Hb); [by rewrite El|]. lia.
  - pose proof (k_gone _ _ Hwt) as Hg. pose proof (k_woken _ _ Hwt) as Hk. unfold woken in Hk. simpl in Hk.
    unfold busy, has_ended in *. destruct (pc t) eqn:Ep; try done.
    + rewrite (k_dead _ _ Hwt Hg) in Hp. simpl in Hp. lia.
    + rewrite El in Hk. by destruct Hk.
Qed.

Lemma batch_pool_rest w :
  0 < count -> reachable w -> loop_step w FNothing = None -> (forall i, worker_step w i false = None) ->
  (exists i t, loop w = Fill i /\ shutdown w = false /\ workers w !! i = Some t /\ gone t = false /\
     bq_items (slot t) = []) \/
  (loop w = Finished /\ forall i t, workers w !! i = Some t ->
     has_ended t = true /\ omap (mine i) (pulled w) = handled t ++ lost t).
Proof.
  intros Hn Hr Hloop Hstuck. pose proof (bp_pool_reachable_ok w Hr) as Hok. pose proof Hok as [Hl Hw].
  assert (Hst : forall i t, workers w !! i = Some t -> (pc t = Wait /\ arrived t = false) \/ has_ended t = true).
  { intros i t Hi. by apply (bp_stuck_worker w i). }
  pose proof (l_pc w Hl) as Hpc. unfold loop_step in Hloop.
  destruct (loop w) as [| | |i r|i|i b|i b|i|i|i| |] eqn:El; try done.
  - destruct (shutdown w); [done|]. by destruct (held w).
  - by destruct (bq_pop (free w)) as [[[] ]|].
  - exfalso. destruct (reported w) eqn:Erep; [done|]. by apply (await_report_moves w Hn Hok El Erep).
  - exfalso. destruct (lookup_lt_is_Some_2 (if r then <[i:=true]> (slots w) else slots w) i) as [o Ho].
    { destruct r; rewrite ?length_insert, (l_slots w Hl); done. }
    by rewrite Ho in Hloop.
  - left. destruct (worker_at w i Hok Hpc) as (t & Ht & Hwt). exists i, t.
    destruct (own_1 w i t Hwt) as (_ & ? & _ & ? & _).
    { rewrite held_none, El, keeps_none by (done || by rewrite El). simpl. by rewrite decide_True. }
    split_and!; try done. by destruct (shutdown w).
  - destruct (worker_at w i Hok Hpc) as (t & Ht & _). rewrite Ht in Hloop. simpl in Hloop. by destruct (gone t).
  - destruct (hand_push_ok w i b Hok El) as (t & q & Ht & Hq & _). rewrite Ht in Hloop. simpl in Hloop.
    by rewrite Hq in Hloop.
  - destruct (worker_at w i Hok Hpc) as (t & Ht & _). by rewrite Ht in Hloop.
  - destruct (Nat.ltb_spec i count) as [Hi|?]; [|done]. destruct (worker_at w i Hok Hi) as (t & Ht & _).
    by rewrite Ht in Hloop.
  - destruct (worker_at w i Hok Hpc) as (t & Ht & _). by rewrite Ht in Hloop.
  - exfalso. destruct (forallb has_ended (workers w)) eqn:Ea; [done|].
    assert (forallb has_ended (workers w) = true); [|congruence].
    apply forallb_elem. intros t Hin. apply list_elem_of_lookup in Hin as [i Hi].
    destruct (Hst i t Hi) as [[E Earr]|?]; [|done].
    destruct (waits_idle w i t (Hw i t Hi) E Earr) as (_ & Hc & _); rewrite El in *; done.
  - right. split; [done|]. intros i t Hi. pose proof (Hw i t Hi) as Ht.
    destruct (Hst i t Hi) as [[E Earr]|He].
    { destruct (waits_idle w i t Ht E Earr) as (_ & Hc & _); rewrite El in *; done. }
    split; [done|]. pose proof (k_log _ _ Ht) as Hlog. pose proof (k_gone _ _ Ht) as Hg.
    pose proof (k_woken _ _ Ht) as Hk. simpl in Hlog. rewrite Hlog, El. unfold woken, running, has_ended in *. simpl.
    destruct (pc t); try done.
    + by rewrite (k_dead _ _ Ht Hg), !app_nil_r.
    + destruct Hk as [_ ->]. by rewrite !app_nil_r.
Qed.

(** The batch pool never deadlocks and no wake-up is lost: when neither the loop nor any worker
    can go on by itself, the loop has a worker's slot in hand, its worker alive with an empty inbox,
    and waits for its stream alone; or it has finished, every worker has ended, and every batch
    pulled was run to its end or was lost in a panic. *)
Theorem batch_pool_waits_only_for_its_stream w :
  0 < count -> reachable w -> loop_step w FNothing = None -> (forall i, worker_step w i false = None) ->
  (exists i t, loop w = Fill i /\ shutdown w = false /\ workers w !! i = Some t /\ gone t = false /\
     bq_items (slot t) = []) \/
  (loop w = Finished /\ forall i t, workers w !! i = Some t ->
     has_ended t = true /\ omap (mine i) (pulled w) = handled t ++ lost t).
Proof. apply batch_pool_rest. Qed.

(** ** Shutting down *)

Definition worker_energy (t : Worker) : nat :=
  10 * length (bq_items (slot t)) + 3 * Nat.b2n (arrived t) +
  match pc t with
  | Run _ => 10
  | Going => 7
  | Report | Farewell => 6
  | Notify | FarewellNotify => 5
  | Next => 2
  | Look _ => 1
  | Wait | Dead | Left => 0
  end.
Definition loop_energy (l : LoopPc) : nat :=
  let closing j := 2 + 6 * (count - j) in
  match l with
  | Acquire => 21 + closing 0
  | AwaitReport => 20 + closing 0
  | Freed _ _ => 19 + closing 0
  | Fill _ => 18 + closing 0
  | Hand _ _ => 17 + closing 0
  | HandPush _ _ => 16 + closing 0
  | HandNotify _ => 5 + closing 0
  | Top => 1 + closing 0
  | Close j => closing j
  | CloseNotify j => 4 + closing (S j)
  | Joining => 1
  | Finished => 0
  end.

(** What is left to do once the shutdown has fired. *)
Definition energy (w : World) : nat :=
  loop_energy (loop w) + 2 * Nat.b2n (reported w) + sum_list_with worker_energy (workers w).

Lemma worker_step_energy w i panics w' :
  worker_step w i panics = Some w' -> energy w' < energy w /\ shutdown w' = shutdown w.
Proof.
  unfold worker_step. destruct (workers w !! i) as [t|] eqn:Hi; [|done]. simpl.
  assert (Hsum : forall t', sum_list_with worker_energy (<[i := t']> (workers w)) + worker_energy t =
    sum_list_with worker_energy (workers w) + worker_energy t') by (intros; by apply sum_list_insert).
  unfold energy, report, notify_reported. destruct (pc t) eqn:Epc; try done;
  try (intros [= <-]; split; [|done]; simpl;
    match goal with |- context [<[i := ?t']> _] => specialize (Hsum t') end;
    unfold worker_energy in *; simpl in *; rewrite Epc in *; simpl in *;
    destruct (reported w); simpl; lia).
  - destruct (bq_pop (slot t)) as [[b q]|] eqn:Ep; intros [= <-]; (split; [|done]); simpl;
      match goal with |- context [<[i := ?t']> _] => specialize (Hsum t') end;
      unfold worker_energy in *; simpl in *; rewrite Epc in *.
    + apply bq_pop_Some in Ep as [Hq _]. rewrite Hq in *. simpl in *. lia.
    + destruct closed0; lia.
  - destruct (arrived t) eqn:Ea; [|done]. intros [= <-]. split; [|done]. specialize (Hsum (with_arrived t Next false)).
    unfold worker_energy in *; simpl in *; rewrite Epc, Ea in *. simpl in *. lia.
  - intros [= <-]. split; [|done]. destruct panics; simpl;
      match goal with |- context [<[i := ?t']> _] => specialize (Hsum t') end;
      unfold worker_energy in *; simpl in *; rewrite Epc in *; lia.
Qed.

Lemma loop_step_energy w answer w' :
  shutdown w = true -> loop_step w answer = Some w' -> energy w' < energy w /\ shutdown w' = true.
Proof.
  intros Hsd. unfold loop_step.
  assert (Hsum : forall i t t', workers w !! i = Some t ->
    sum_list_with worker_energy (<[i := t']> (workers w)) + worker_energy t =
    sum_list_with worker_energy (workers w) + worker_energy t') by (intros; by apply sum_list_insert).
  unfold energy. destruct (loop w) as [| | |i r|i|i b|i b|i|i|i| |] eqn:El; try done.
  - rewrite Hsd. intros [= <-]. split; [simpl; lia|done].
  - destruct (bq_pop (free w)) as [[[i r] q]|]; intros [= <-]; (split; [simpl; lia|done]).
  - destruct (reported w) eqn:Er; [|rewrite Hsd]; intros [= <-]; (split; [simpl; rewrite ?Er; simpl; lia|done]).
  - intros (o & _ & [= <-])%bind_Some. split; [|done]. destruct o; simpl; lia.
  - destruct answer; rewrite ?Hsd; intros [= <-]; (split; [simpl; lia|done]).
  - intros (t & _ & [= <-])%bind_Some. destruct (gone t); (split; [simpl; lia|done]).
  - intros (t & Ht & Hs)%bind_Some. destruct (bq_push (slot t) b) as [q|] eqn:Eq; injection Hs as <-; (split; [|done]).
    + apply bq_push_Some in Eq as (Hq & _). specialize (Hsum i t (with_slot t (pc t) q) Ht).
      unfold worker_energy in *. simpl in *. rewrite Hq, length_app in *. simpl in *. lia.
    + simpl. lia.
  - intros (t & Ht & [= <-])%bind_Some. split; [|done]. specialize (Hsum i t (with_arrived t (pc t) true) Ht).
    unfold worker_energy in *. simpl in *. lia.
  - destruct (Nat.ltb_spec i count); [intros (t & Ht & [= <-])%bind_Some|intros [= <-]]; (split; [|done]); [|simpl; lia].
    specialize (Hsum i t (with_closed t) Ht). unfold worker_energy in *. simpl in *. lia.
  - intros (t & Ht & [= <-])%bind_Some. split; [|done]. specialize (Hsum i t (with_arrived t (pc t) true) Ht).
    unfold worker_energy in *. simpl in *. lia.
  - destruct (forallb has_ended (workers w)); [|done]. intros [= <-]. split; [simpl; lia|done].
Qed.

(** A schedule of the loop and the workers. *)
Fixpoint run (w : World) (l : list Actor) : option World :=
  match l with
  | [] => Some w
  | AShutdown :: _ => None
  | a :: l => w ← step w a; run w l
  end.

Lemma run_energy l w w' :
  shutdown w = true -> reachable w -> run w l = Some w' ->
  length l + energy w' <= energy w /\ shutdown w' = true /\ reachable w'.
Proof.
  revert w. induction l as [|a l IH]; intros w Hsd Hr Hrun; [by injection Hrun as <-|].
  assert (Hstep : exists w1, step w a = Some w1 /\ energy w1 < energy w /\ shutdown w1 = true /\ run w1 l = Some w').
  { destruct a as [answer|i panics|]; [| |done]; apply bind_Some in Hrun as (w1 & Hs & Hrun); exists w1; simpl in *.
    - destruct (loop_step_energy _ _ _ Hsd Hs). by split_and!.
    - destruct (worker_step_energy _ _ _ _ Hs). split_and!; try done. congruence. }
  destruct Hstep as (w1 & Hs & He & Hsd1 & Hrun1).
  destruct (IH w1 Hsd1) as (? & ? & ?); [by eapply reach_step|done|]. simpl. split_and!; [lia|done|done].
Qed.

(** C20. Once the shutdown has fired the pool ends, whatever the stream answers and however the loop
    and the workers interleave: a schedule has at most [energy] steps left, and where none can go on
    the loop has finished and joined its workers, every one of which has ended with every batch it
    was handed run to its end or lost in its panic. *)
Theorem batch_pool_shuts_down w l w' :
  0 < count -> reachable w -> shutdown w = true -> run w l = Some w' ->
  length l <= energy w /\
  (loop_step w' FNothing = None -> (forall i, worker_step w' i false = None) ->
   loop w' = Finished /\ forall i t, workers w' !! i = Some t ->
     has_ended t = true /\ omap (mine i) (pulled w') = handled t ++ lost t).
Proof.
  intros Hn Hr Hsd Hrun. destruct (run_energy l w w' Hsd Hr Hrun) as (He & Hsd' & Hr'). split; [lia|].
  intros Hloop Hst. destruct (batch_pool_rest w' Hn Hr' Hloop Hst) as [(i & t & _ & Hs & _)|?]; [congruence|done].
Qed.

End batch_pool.

(** ** Runs of two workers *)

Abbreviation Small := (World (Q := LQueue) (B := nat)).

Fixpoint play (w : Small) (schedule : list (@Actor nat)) : option Small :=
  match schedule with
  | [] => Some w
  | a :: schedule => w ← step 2 w a; play w schedule
  end.

Lemma bp_play_reachable w schedule w' :
  reachable 2 w -> play w schedule = Some w' -> reachable 2 w'.
Proof.
  revert w. induction schedule as [|a l IH]; intros w Hw; simpl; [by intros [= <-]|].
  intros (w1 & Hs & Hp)%bind_Some. eapply IH; [|done]. by eapply reach_step.
Qed.

Definition after (schedule : list (@Actor nat)) : Small := default (start 2) (play (start 2) schedule).

Lemma bp_after_reachable schedule : reachable 2 (after schedule).
Proof.
  unfold after. destruct (play (start 2) schedule) as [w|] eqn:Ew; [|apply reach_start].
  eapply bp_play_reachable; [apply reach_start|exact Ew].
Qed.

(** A batch from a free worker's report to the worker's inbox. *)
Definition hands (b : nat) : list (@Actor nat) :=
  [ALoop FNothing; ALoop FNothing; ALoop FNothing; ALoop (FBatch b); ALoop FNothing; ALoop FNothing;
   ALoop FNothing].
(** A worker runs the batch in its inbox, or panics in it, up to its report. *)
Definition runs (i : nat) (panics : bool) : list (@Actor nat) :=
  [AWorker i false; AWorker i false; AWorker i panics; AWorker i false; AWorker i false].

Definition one_running : Small := after (hands 10 ++ [AWorker 0 false; AWorker 0 false] ++ hands 20).
Definition one_dead : Small := after (hands 10 ++ runs 0 true ++ [AWorker 0 false]).
Definition all_idle : Small :=
  after ([ALoop FNothing; ALoop FNothing; ALoop FNothing] ++
         [AWorker 0 false; AWorker 0 false; AWorker 1 false; AWorker 1 false]).
Definition stopping : Small := after (hands 10 ++ [AShutdown]).

Lemma batch_pool_hands_over_each_once_witness :
  exists t, workers one_running !! 0 = Some t /\ pc t = Run 10 /\
    omap (mine 0) (pulled one_running) = handled t ++ lost t ++ on_the_way one_running 0 t.
Proof.
  destruct (workers one_running !! 0) as [t|] eqn:Et; [|by vm_compute in Et]. exists t. split; [done|].
  split; [vm_compute in Et; by injection Et as <-|].
  exact (proj1 (batch_pool_hands_over_each_once 2 one_running 0 t (bp_after_reachable _) Et)).
Defined.

Lemma batch_pool_sees_its_dead_witness :
  exists t, workers one_dead !! 0 = Some t /\ pc t = Dead /\ lost t = [10] /\
    slots one_dead !! 0 = Some false.
Proof.
  destruct (workers one_dead !! 0) as [t|] eqn:Et; [|by vm_compute in Et]. exists t. split; [done|].
  assert (Hpc : pc t = Dead) by (vm_compute in Et; by injection Et as <-).
  assert (Hl : lost t = [10]) by (vm_compute in Et; by injection Et as <-).
  split; [done|]. split; [done|].
  exact (proj1 (proj2 (batch_pool_sees_its_dead 2 one_dead 0 t (bp_after_reachable _) Et Hpc eq_refl))).
Defined.

Lemma batch_pool_waits_only_for_its_stream_witness :
  exists i t, loop all_idle = Fill i /\ workers all_idle !! i = Some t /\ gone t = false.
Proof.
  destruct (batch_pool_waits_only_for_its_stream 2 all_idle ltac:(lia) (bp_after_reachable _) eq_refl)
    as [(i & t & H1 & _ & H2 & H3 & _)|[H _]].
  - intros [|[|i]]; by vm_compute.
  - by exists i, t.
  - by vm_compute in H.
Defined.

Definition closing_run : list (@Actor nat) :=
  [ALoop FNothing; ALoop FNothing; ALoop FNothing; ALoop FNothing].

Lemma batch_pool_shuts_down_witness :
  length closing_run <= energy 2 stopping /\ shutdown stopping = true.
Proof.
  destruct (run 2 stopping closing_run) as [w'|] eqn:Ew; [|by vm_compute in Ew].
  split; [|done].
  exact (proj1 (batch_pool_shuts_down 2 stopping closing_run w' ltac:(lia) (bp_after_reachable _) eq_refl Ew)).
Defined.
End BatchPool.
