(* ===== verification/Group.v ===== *)
(** * The worker groups of the embassy runner ([runtime-embassy/src/workers.rs], [mailbox.rs])

    A planned registration of an embedded app runs a constant set of workers joined with the loop
    that feeds them, all inside the app's task ([run_workers]).  The loop takes a free worker, pulls a
    delivery and leaves it in the worker's one-place mailbox; with [keyed] the partition key chooses
    the worker.  A worker on an empty mailbox is parked and not polled ([Gated], [join_workers]); with
    the loop and every worker idle the whole group is ([recording_idle]), and the join above skips it
    until its probe says a delivery waits.

    The broker is a [Loop.Source]; a poll of the group is one step, and what the broker, the app's
    other loops, device code and handlers do comes between the steps.  The build with a heap. *)
From Stdlib Require Import Ascii String.
From S2P Require Import Prelude RustStd Queue Loop.

Module Group.

Section group.
Context {S Id M E Ev : Type} `{Loop.Source S Id M E Ev} `{!EqDecision Id}.
Context {C : Type -> Type} `{TaskChannel C}.
Context (partition_key : M -> option bytes) (fnv : bytes -> N) (COUNT : nat) (keyed : bool).
(** The stream's bound and the handler, as in [Loop]; the subscription; and whether the group has a
    flag of the join above it ([&Cell<bool>] rather than [()]). *)
Context (limit : nat) (at_once : M -> bool) (handled : M -> list Ev) (halts : M -> bool).
Context (me : Id) (flagged : bool).

Abbreviation Shared := (@Loop.Shared S).

Record Mailbox := mk_mailbox { slot : C (option M); parked : bool }.

(** Where the loop is in [run_workers]: at the top of a round, waiting for a free worker, for its
    stream (and whether this wait found it pending), for room in a mailbox, ending the workers. *)
Inductive FeedPc :=
  | Top
  | Acquiring
  | Pulling (parked : bool)
  | Sending (worker : nat) (m : M)
  | Closing (k : nat)
  | Done.

Inductive WorkerPc := Receiving | Handling (m : M) (done : bool) | Ended.

(** A worker with its mailbox, and what it dispatched to its end (a ghost). *)
Record Worker := mk_worker { pc : WorkerPc; mailbox : Mailbox; did : list M }.

(** The group; [ready] is the count of the stream's [Bounded], [cell] the flag of the join above, and
    [pulled] the deliveries with the worker each was for (a ghost). *)
Record Group := mk_group {
  feed : FeedPc;
  held : option nat;
  rotation : nat;
  ready : nat;
  free : C nat;
  feed_idle : bool;
  cell : bool;
  workers : list Worker;
  (** ghost *)
  pulled : list (nat * M);
}.

Definition wake (sh : Shared) (w : bool) : Shared := Loop.set_source sh (Loop.source sh) w.

(** [Mailbox::new], [Mailbox::is_parked], a poll of [Mailbox::send] and of [Mailbox::receive]. *)
Definition new_mailbox : Mailbox := mk_mailbox (tc_new 1) false.
Definition is_parked (b : Mailbox) : bool := parked b.
Definition mailbox_send (sh : Shared) (b : Mailbox) (item : option M) : Shared * Mailbox * bool :=
  let '(c, sent, w) := tc_send (slot b) item in
  (wake sh w, mk_mailbox c (if sent then false else parked b), sent).
Definition mailbox_receive (sh : Shared) (b : Mailbox) : Shared * Mailbox * option (option M) :=
  let '(c, next, w) := tc_receive (slot b) in
  (wake sh w, mk_mailbox c (match next with None => true | Some _ => false end), next).

Definition set_feed (g : Group) (f : FeedPc) : Group :=
  mk_group f (held g) (rotation g) (ready g) (free g) (feed_idle g) (cell g) (workers g) (pulled g).
Definition set_worker (g : Group) (k : nat) (t : Worker) : Group :=
  mk_group (feed g) (held g) (rotation g) (ready g) (free g) (feed_idle g) (cell g) (<[k := t]> (workers g)) (pulled g).
Definition set_free (g : Group) (q : C nat) : Group :=
  mk_group (feed g) (held g) (rotation g) (ready g) q (feed_idle g) (cell g) (workers g) (pulled g).
Definition set_idle (g : Group) (n : nat) (b : bool) : Group :=
  mk_group (feed g) (held g) (rotation g) n (free g) b (cell g) (workers g) (pulled g).
Definition set_cell (g : Group) (b : bool) : Group :=
  mk_group (feed g) (held g) (rotation g) (ready g) (free g) (feed_idle g) b (workers g) (pulled g).

(** [run_workers] up to its join: every mailbox empty, and in a pool every worker free. *)
Definition fill_free (indices : list nat) (q : C nat) : C nat :=
  fold_left (fun q i => (tc_try_send q i).1.1) indices q.
Definition start : Group :=
  mk_group Top None 0 0 (if keyed then tc_new COUNT else fill_free (seq 0 COUNT) (tc_new COUNT)) false false
    (replicate COUNT (mk_worker Receiving new_mailbox [])) [].

Definition key_index (key : bytes) : nat := N.to_nat (fnv key) mod COUNT.

(** The worker a delivery goes to, and the rotation after it. *)
Definition chosen (g : Group) (m : M) : nat * nat :=
  match held g with
  | Some worker => (worker, rotation g)
  | None =>
      match partition_key m with
      | None => let r := Datatypes.S (rotation g) mod COUNT in (r, r)
      | Some key => (key_index key, rotation g)
      end
  end.

(** The subscription as [Loop] reads it. *)
Definition reader (n : nat) : @Loop.Sub Id M E := Loop.mk_sub me false n Loop.Fresh [].

(** The loop resumed once; answers too whether it waits or is done. *)
Definition feed_resume (gates : bool) (sh : Shared) (g : Group) : Shared * Group * bool :=
  match feed g with
  | Top =>
      if Loop.stop sh then (sh, set_feed g (Closing 0), false)
      else if negb keyed && bool_decide (held g = None) then (sh, set_feed g Acquiring, false)
      else (sh, set_feed g (Pulling false), false)
  | Acquiring =>
      let '(q, next, w) := tc_receive (free g) in
      match next with
      | Some index =>
          (wake sh w, mk_group (Pulling false) (Some index) (rotation g) (ready g) q (feed_idle g) (cell g) (workers g) (pulled g),
           false)
      | None => if Loop.stop sh then (wake sh w, set_feed (set_free g q) (Closing 0), false)
                else (wake sh w, set_free g q, true)
      end
  | Pulling waited =>
      if Loop.idle gates waited sh (reader 0) then (sh, g, true)
      else
        let '(sh, su, next) := Loop.bounded_poll_next limit sh (reader (ready g)) in
        match next with
        | Ready next =>
            let g := set_idle g (Loop.ready su) false in
            match next with
            | Some (Ok m) =>
                let (worker, r) := chosen g m in
                (sh, mk_group (Sending worker m) None r (ready g) (free g) (feed_idle g) (cell g) (workers g)
                       (pulled g ++ [(worker, m)]), false)
            | Some (Err _) => (sh, set_feed g Top, false)
            | None => (sh, set_feed g (Closing 0), false)
            end
        | Pending =>
            let g := set_idle g (Loop.ready su) (negb (Loop.stop sh)) in
            if Loop.stop sh then (sh, set_feed g (Closing 0), false) else (sh, set_feed g (Pulling true), true)
        end
  | Sending worker m =>
      match workers g !! worker with
      | Some t =>
          let '(sh, b, sent) := mailbox_send sh (mailbox t) (Some m) in
          let g := set_worker g worker (mk_worker (pc t) b (did t)) in
          if sent then (sh, set_feed g Top, false) else (sh, g, true)
      | None => (sh, g, true)
      end
  | Closing k =>
      match workers g !! k with
      | Some t =>
          let '(sh, b, sent) := mailbox_send sh (mailbox t) None in
          let g := set_worker g k (mk_worker (pc t) b (did t)) in
          if sent then (sh, set_feed g (Closing (Datatypes.S k)), false) else (sh, g, true)
      | None => (sh, set_feed g Done, true)
      end
  | Done => (sh, g, true)
  end.

Fixpoint poll_feed (gates : bool) (fuel : nat) (sh : Shared) (g : Group) : option (Shared * Group) :=
  match fuel with
  | 0 => None
  | Datatypes.S fuel =>
      let '(sh, g, waits) := feed_resume gates sh g in
      if waits then Some (sh, g) else poll_feed gates fuel sh g
  end.

(** A worker's delivery at its end, and the worker's report in a pool ([deliveries]). *)
Definition finish (sh : Shared) (g : Group) (k : nat) (b : Mailbox) (m : M) (l : list M) : Shared * Group :=
  let sh := Loop.settle_delivery handled halts m sh in
  let g := set_worker g k (mk_worker Receiving b (l ++ [m])) in
  if keyed then (sh, g)
  else let '(q, _, w) := tc_try_send (free g) k in (wake sh w, set_free g q).

(** Worker [k] resumed once. *)
Definition worker_resume (sh : Shared) (g : Group) (k : nat) : Shared * Group * bool :=
  match workers g !! k with
  | Some t =>
      match pc t with
      | Receiving =>
          let '(sh, b, next) := mailbox_receive sh (mailbox t) in
          match next with
          | Some (Some m) =>
              if at_once m then (finish sh g k b m (did t), false)
              else (sh, set_worker g k (mk_worker (Handling m false) b (did t)), true)
          | Some None => (sh, set_worker g k (mk_worker Ended b (did t)), true)
          | None => (sh, set_worker g k (mk_worker Receiving b (did t)), true)
          end
      | Handling m true => (finish sh g k (mailbox t) m (did t), false)
      | Handling m false => (sh, g, true)
      | Ended => (sh, g, true)
      end
  | None => (sh, g, true)
  end.

Fixpoint poll_worker (fuel : nat) (sh : Shared) (g : Group) (k : nat) : option (Shared * Group) :=
  match fuel with
  | 0 => None
  | Datatypes.S fuel =>
      let '(sh, g, waits) := worker_resume sh g k in
      if waits then Some (sh, g) else poll_worker fuel sh g k
  end.

(** The worker's [Gated::poll]: the delivery in hand, the one in the mailbox, the empty mailbox. *)
Definition gated_poll (gates : bool) (sh : Shared) (g : Group) (k : nat) : option (Shared * Group) :=
  match workers g !! k with
  | Some t => if gates && parked (mailbox t) then Some (sh, g) else poll_worker 3 sh g k
  | None => Some (sh, g)
  end.

Fixpoint poll_workers (gates : bool) (indices : list nat) (sh : Shared) (g : Group) : option (Shared * Group) :=
  match indices with
  | [] => Some (sh, g)
  | k :: rest => '(sh, g) ← gated_poll gates sh g k; poll_workers gates rest sh g
  end.

(** Four resumes a delivery, [limit] of them, the delivery on its way, and the ends of the workers. *)
Definition feed_fuel : nat := 4 * limit + COUNT + 8.

Definition is_done (g : Group) : bool :=
  match feed g with Done => true | _ => false end &&
  forallb (fun t => match pc t with Ended => true | _ => false end) (workers g).

(** [join(feed, workers)] under [recording_idle]. *)
Definition poll_group (gates : bool) (sh : Shared) (g : Group) : option (Shared * Group) :=
  '(sh, g) ← poll_feed gates feed_fuel sh g;
  '(sh, g) ← poll_workers gates (seq 0 COUNT) sh g;
  Some (sh, if is_done g then g
            else if flagged then set_cell g (feed_idle g && forallb (fun t => is_parked (mailbox t)) (workers g))
            else g).

(** ** The app's task, as the group sees it *)

(** Asleep; in a poll that has yet to reach the group; the group is done. *)
Inductive Phase := Asleep | Passing | Finished.

Record World := mk_world { shared : Shared; group : Group; phase : Phase }.

(** The app's own wait for the stop keeps the task's waker ([Loop.end_pass]). *)
Definition initial (s : S) : World := mk_world (Loop.mk_shared s false true true) start Asleep.

Inductive Actor :=
  | Begin
  | Polls
  | Happens (c : Loop.Change Id Ev)
  | Wakes
  | Stops
  | Completes (k : nat).

Definition foreign (c : Loop.Change Id Ev) : bool :=
  match c with
  | Loop.ByEvent _ => true
  | Loop.ByPoll j => bool_decide (j <> me)
  end.

(** [None]: not enabled; [Some None]: the poll does not return. *)
Definition step (gates : bool) (w : World) (a : Actor) : option (option World) :=
  match a with
  | Begin =>
      match phase w with
      | Asleep =>
          let sh := shared w in
          if Loop.woken sh
          then Some (Some (mk_world (Loop.mk_shared (Loop.source sh) (Loop.stop sh) (Loop.watched sh) false) (group w) Passing))
          else None
      | _ => None
      end
  | Polls =>
      match phase w with
      | Passing =>
          if Loop.idle gates (cell (group w)) (shared w) (reader 0) then Some (Some (mk_world (shared w) (group w) Asleep))
          else
            Some ('(sh, g) ← poll_group gates (shared w) (group w);
                  Some (mk_world sh g (if is_done g then Finished else Asleep)))
      | _ => None
      end
  | Happens c =>
      if foreign c
      then let (s, wk) := Loop.change c (Loop.source (shared w)) in
           Some (Some (mk_world (Loop.set_source (shared w) s wk) (group w) (phase w)))
      else None
  | Wakes => Some (Some (mk_world (wake (shared w) true) (group w) (phase w)))
  | Stops => Some (Some (mk_world (Loop.halt (shared w)) (group w) (phase w)))
  | Completes k =>
      match workers (group w) !! k with
      | Some t =>
          match pc t with
          | Handling m false =>
              Some (Some (mk_world (wake (shared w) true)
                            (set_worker (group w) k (mk_worker (Handling m true) (mailbox t) (did t))) (phase w)))
          | _ => None
          end
      | None => None
      end
  end.

Fixpoint run (gates : bool) (w : World) (schedule : list Actor) : option World :=
  match schedule with
  | [] => Some w
  | a :: schedule =>
      match step gates w a with
      | Some (Some w) => run gates w schedule
      | Some None => None
      | None => run gates w schedule
      end
  end.

End group.

(** ** The invariant *)

Section facts.
Context {S Id M E Ev : Type} `{Loop.Source S Id M E Ev} `{!EqDecision Id}.
Context {C : Type -> Type} `{TaskChannel C} `{!TaskChannelLaws C}.
Context (partition_key : M -> option bytes) (fnv : bytes -> N) (COUNT : nat) (keyed : bool).
Context (limit : nat) (at_once : M -> bool) (handled : M -> list Ev) (halts : M -> bool).
Context (me : Id) (flagged : bool).
Context (ok : S -> Prop) `{!Loop.LawfulSource ok} `{!Loop.StableProbe ok}.
Context (Hcount : 0 < COUNT).

Abbreviation Shared := (@Loop.Shared S).
Abbreviation Mailbox := (@Mailbox M C).
Abbreviation Worker := (@Worker M C).
Abbreviation Group := (@Group M C).
Abbreviation World := (@World S M C).
Abbreviation start := (@start M C _ COUNT keyed).
Abbreviation chosen := (chosen partition_key fnv COUNT).
Abbreviation feed_resume := (feed_resume partition_key fnv COUNT keyed limit me).
Abbreviation poll_feed := (poll_feed partition_key fnv COUNT keyed limit me).
Abbreviation finish := (finish keyed handled halts).
Abbreviation worker_resume := (worker_resume keyed at_once handled halts).
Abbreviation poll_worker := (poll_worker keyed at_once handled halts).
Abbreviation gated_poll := (gated_poll keyed at_once handled halts).
Abbreviation poll_workers := (poll_workers keyed at_once handled halts).
Abbreviation poll_group := (poll_group partition_key fnv COUNT keyed limit at_once handled halts me flagged).
Abbreviation step := (step partition_key fnv COUNT keyed limit at_once handled halts me flagged).
Abbreviation run := (run partition_key fnv COUNT keyed limit at_once handled halts me flagged).
Implicit Types (sh : Shared) (g : Group) (t : Worker).

Definition items t : list (option M) := tc_items (slot (mailbox t)).
Definition hand t : list M := match pc t with Handling m _ => [m] | _ => [] end.
Definition queued t : list M := omap (fun x => x) (items t).
Definition sending g (k : nat) : list M :=
  match feed g with
  | Sending j m => if decide (j = k) then [m] else []
  | _ => []
  end.
(** What the loop pulled for worker [k], in order. *)
Definition sent_to g (k : nat) : list M := omap (fun p => if decide (p.1 = k) then Some p.2 else None) (pulled g).
(** The loop has left the worker its end. *)
Definition closed g (k : nat) : bool :=
  match feed g with
  | Closing j => k <? j
  | Done => true
  | _ => false
  end.

(** Where the index of a pool's worker is: free, held by the loop, on its way with a delivery, or with
    a worker that has work. *)
Definition places g (k : nat) t : nat :=
  Prelude.count (Nat.eqb k) (tc_items (free g)) + (if decide (held g = Some k) then 1 else 0) +
  length (sending g k) + length (hand t) + length (queued t).

Record worker_ok g (k : nat) t : Prop := {
  wo_slot : tc_capacity (slot (mailbox t)) = 1 /\ length (items t) <= 1;
  wo_log : sent_to g k = did t ++ hand t ++ queued t ++ sending g k;
  wo_parked : parked (mailbox t) = true ->
    pc t = Receiving /\ items t = [] /\ tc_receives (slot (mailbox t)) = true;
  wo_end : if closed g k then (items t = [None] /\ pc t <> Ended) \/ (items t = [] /\ pc t = Ended)
           else (None ∉ items t) /\ pc t <> Ended;
  wo_place : keyed = false -> places g k t = 1;
}.

Record feed_ok g : Prop := {
  fo_count : length (workers g) = COUNT;
  fo_free : keyed = false -> tc_capacity (free g) = COUNT /\ Forall (fun i => i < COUNT) (tc_items (free g));
  fo_pc :
    match feed g with
    | Acquiring => keyed = false /\ held g = None
    | Pulling _ => keyed = false -> is_Some (held g)
    | Sending i _ => i < COUNT /\ held g = None
    | Closing k => k <= COUNT
    | _ => True
    end;
  fo_held i : held g = Some i -> i < COUNT /\ keyed = false;
  fo_rotation : rotation g < COUNT;
  fo_key i m k : keyed = true -> (i, m) ∈ pulled g -> partition_key m = Some k -> i = key_index fnv COUNT k;
  fo_ready : ready g <= limit;
  fo_idle : feed_idle g = match feed g with Pulling true => true | _ => false end;
  fo_parked : feed g = Pulling true -> ready g = 0;
}.

Definition group_ok g : Prop := feed_ok g /\ forall k t, workers g !! k = Some t -> worker_ok g k t.

Lemma group_worker_ok_frame g g' k t :
  worker_ok g k t -> sent_to g' k = sent_to g k -> sending g' k = sending g k -> closed g' k = closed g k ->
  (keyed = false -> places g' k t = places g k t) -> worker_ok g' k t.
Proof.
  intros [Hs Hl Hp He Hpl] Ht Hsd Hc Hpp. split; try done.
  - by rewrite Ht, Hsd.
  - by rewrite Hc.
  - intros Hk. rewrite Hpp; auto.
Qed.

(** The same worker after a poll of its mailbox by a full send: nothing but wakers changed. *)
Lemma worker_ok_slot g k t c :
  worker_ok g k t -> tc_items c = items t -> tc_capacity c = 1 -> items t <> [] ->
  worker_ok g k (mk_worker (pc t) (mk_mailbox c (parked (mailbox t))) (did t)).
Proof.
  intros [Hs Hl Hp He Hpl] Hi Hc Hn. split; unfold places, queued, hand, items in *; simpl; rewrite ?Hi; try done.
  1: by split; [|apply Hs].
  intros Hpk. by destruct (Hp Hpk) as (_ & ? & _).
Qed.

Lemma group_fill_free_items l (q : C nat) :
  length (tc_items q) + length l <= tc_capacity q ->
  tc_items (fill_free l q) = tc_items q ++ l /\ tc_capacity (fill_free l q) = tc_capacity q.
Proof.
  revert q. induction l as [|i l IH]; intros q Hle; simpl in *; [by rewrite app_nil_r|].
  destruct (tc_try_send_room q i) as (q' & w & Hq & Hi & Hc & _); [lia|]. rewrite Hq. simpl.
  destruct (IH q') as [Hl Hcl]; [rewrite Hi, Hc, length_app; simpl; lia|].
  unfold fill_free in *. by rewrite Hl, Hcl, Hi, <-app_assoc.
Qed.

#[local] Arguments fill_free : simpl never.

Lemma group_start_ok : group_ok start.
Proof.
  destruct (tc_new_items (A := nat) COUNT) as [Hi Hc], (tc_new_items (A := option M) 1) as [Hi1 Hc1].
  destruct (group_fill_free_items (seq 0 COUNT) (tc_new COUNT)) as [Hf Hfc]; [rewrite Hi, Hc, length_seq; simpl; lia|].
  split; [split; simpl; try done|].
  - apply length_replicate.
  - intros ->. rewrite Hf, Hfc, Hi, Hc. split; [done|]. apply Forall_forall. intros x Hx%elem_of_seq. simpl in *; lia.
  - by intros ? ? ? _ ?%elem_of_nil.
  - lia.
  - intros k t Ht. simpl in Ht. apply lookup_replicate in Ht as [-> Hlt].
    split; unfold queued, items; simpl; rewrite ?Hi1, ?Hc1; simpl; try done; try (split_and!; lia || done || by intros ?%elem_of_nil).
    intros Hk. unfold places, queued, items. simpl. rewrite Hk, Hf, Hi, Hi1. simpl. rewrite count_seq, decide_True by done. simpl. lia.
Qed.

(** The free queue always has room for a worker that is not in it. *)
Lemma group_free_room g k :
  group_ok g -> keyed = false -> k < COUNT -> Prelude.count (Nat.eqb k) (tc_items (free g)) = 0 ->
  length (tc_items (free g)) < tc_capacity (free g).
Proof.
  intros [Hg Hw] Hk Hlt Hz. destruct (fo_free g Hg Hk) as [-> Hall]. apply (indices_room _ _ k); try done.
  intros j Hj. rewrite <-(fo_count g Hg) in Hj. apply lookup_lt_is_Some in Hj as [t Ht].
  pose proof (wo_place _ _ _ (Hw j t Ht) Hk) as Hp. unfold places in Hp. lia.
Qed.

(** *** A resume of the loop *)

(** The loop between deliveries, moving without touching a mailbox. *)
Lemma feed_moves g f n b q :
  group_ok g -> (forall k, sending g k = []) -> (forall k, k < COUNT -> closed g k = false) ->
  match f with
  | Top => True
  | Acquiring => keyed = false /\ held g = None
  | Pulling _ => keyed = false -> is_Some (held g)
  | Closing k => k = 0
  | _ => False
  end ->
  n <= limit -> b = (match f with Pulling true => true | _ => false end) -> (f = Pulling true -> n = 0) ->
  (keyed = false -> tc_items q = tc_items (free g) /\ tc_capacity q = tc_capacity (free g)) ->
  group_ok (mk_group f (held g) (rotation g) n q b (cell g) (workers g) (pulled g)).
Proof.
  intros [Hg Hw] Hs Hcl Hf Hn -> Hz Hq. split.
  - destruct Hg. split; simpl; try done.
    + intros Hk. destruct (Hq Hk) as [-> ->]. by apply fo_free0.
    + destruct f; try done. lia.
  - intros k t Ht. assert (Hk : k < COUNT) by (rewrite <-(fo_count g Hg); by eapply lookup_lt_Some).
    assert (Hs' : sending (mk_group f (held g) (rotation g) n q (match f with Pulling true => true | _ => false end)
      (cell g) (workers g) (pulled g)) k = sending g k) by (rewrite Hs; by destruct f).
    eapply group_worker_ok_frame; [by apply Hw|done|exact Hs'| |].
    + rewrite (Hcl k Hk). unfold closed. simpl. destruct f; try done. apply Nat.ltb_ge. lia.
    + intros Hkey. unfold places. rewrite Hs'. simpl. by destruct (Hq Hkey) as [-> _].
Qed.

Lemma group_acquire_ok g i q c :
  group_ok g -> feed g = Acquiring -> tc_items (free g) = i :: tc_items q -> tc_capacity q = tc_capacity (free g) ->
  group_ok (mk_group (Pulling false) (Some i) (rotation g) (ready g) q (feed_idle g) c (workers g) (pulled g)).
Proof.
  intros [Hg Hw] Hpc Hi Hc. pose proof (fo_pc g Hg) as Hp. rewrite Hpc in Hp. destruct Hp as [Hk Hh].
  destruct (fo_free g Hg Hk) as [Hcap Hall]. rewrite Hi in Hall. apply Forall_cons in Hall as [Hlt Hall]. split.
  - destruct Hg. split; simpl; try done; [intros _; split; [congruence|done]|by intros j [= <-]|].
    by rewrite fo_idle0, Hpc.
  - intros k t Ht. eapply group_worker_ok_frame; [by apply Hw|done| | |]; unfold sending, closed; simpl; rewrite ?Hpc; try done.
    intros _. unfold places, sending. simpl. rewrite Hpc, Hh, Hi, count_cons.
    destruct (decide (i = k)) as [->|Hne].
    + rewrite Nat.eqb_refl, decide_True by done. simpl. lia.
    + rewrite (proj2 (Nat.eqb_neq k i)), decide_False by congruence. simpl. lia.
Qed.

Lemma chosen_ok g m i r waited :
  feed_ok g -> feed g = Pulling waited -> chosen g m = (i, r) ->
  i < COUNT /\ r < COUNT /\ (keyed = false -> held g = Some i) /\ (forall j, held g = Some j -> j = i) /\
  (keyed = true -> forall k, partition_key m = Some k -> i = key_index fnv COUNT k).
Proof.
  intros Hg Hpc Hch. pose proof (fo_pc g Hg) as Hp. rewrite Hpc in Hp. pose proof (fo_rotation g Hg).
  unfold Group.chosen in Hch. destruct (held g) as [j|] eqn:Eh.
  - injection Hch as <- <-. destruct (fo_held g Hg j Eh) as [Hj Hk]. split_and!; try done; [by intros ? [= ->]|congruence].
  - assert (Hk : keyed = false -> False) by (intros Hk; by destruct (Hp Hk)).
    destruct (partition_key m) as [k|] eqn:Ek; injection Hch as <- <-.
    + split_and!; try done; [apply Nat.mod_upper_bound; lia|by intros _ k' [= ->]].
    + pose proof (Nat.mod_upper_bound (Datatypes.S (rotation g)) COUNT ltac:(lia)). by split_and!.
Qed.

Lemma group_pull_ok g m i r n waited :
  group_ok g -> feed g = Pulling waited -> chosen g m = (i, r) -> n <= limit ->
  group_ok (mk_group (Sending i m) None r n (free g) false (cell g) (workers g) (pulled g ++ [(i, m)])).
Proof.
  intros [Hg Hw] Hpc Hch Hn. destruct (chosen_ok g m i r waited Hg Hpc Hch) as (Hi & Hr & Hh & Hh' & Hkey). split.
  - destruct Hg. split; simpl; try done. intros j m' k Hk Hin Hpk.
    apply elem_of_app in Hin as [Hin|Hin%list_elem_of_singleton]; [by eapply fo_key0|]. injection Hin as -> ->. by apply Hkey.
  - intros j t Ht. simpl in Ht. destruct (Hw j t Ht) as [? Hlog ? He Hpl].
    assert (Hs : sending g j = []) by (unfold sending; by rewrite Hpc). rewrite Hs, app_nil_r in Hlog.
    split; try done.
    + unfold sent_to in *. simpl. rewrite omap_app, Hlog. unfold sending. simpl.
      rewrite <-!app_assoc. by destruct (decide (i = j)).
    + unfold closed in *. by rewrite Hpc in He.
    + intros Hk. specialize (Hpl Hk). unfold places in *. rewrite Hs in Hpl. unfold sending. simpl in *.
      rewrite (Hh Hk) in Hpl. destruct (decide (i = j)) as [->|Hne].
      * rewrite decide_True in Hpl by done. simpl in *. lia.
      * rewrite decide_False in Hpl by congruence. simpl in *. exact Hpl.
Qed.

Lemma group_set_worker_ok g k t t' :
  group_ok g -> workers g !! k = Some t -> worker_ok g k t' -> group_ok (set_worker g k t').
Proof.
  intros [Hg Hw] Ht Ht'. split.
  - destruct Hg. split; simpl; try done. by rewrite length_insert.
  - intros j u Hj. simpl in Hj. apply list_lookup_insert_Some in Hj as [(-> & -> & _)|[Hne Hj]];
      (eapply group_worker_ok_frame; [by eauto|done..]).
Qed.

(** The loop leaves worker [k] what it had for it: a delivery, or its end. *)
Lemma handed_ok g k t c item f :
  group_ok g -> workers g !! k = Some t -> tc_items c = items t ++ [item] -> tc_capacity c = 1 -> items t = [] ->
  match feed g, f, item with
  | Sending j m, Top, Some m' => j = k /\ m' = m
  | Closing j, Closing j', None => j = k /\ j' = Datatypes.S k
  | _, _, _ => False
  end ->
  group_ok (set_feed (set_worker g k (mk_worker (pc t) (mk_mailbox c false) (did t))) f).
Proof.
  intros [Hg Hw] Ht Hi Hc Hnil Hf. rewrite Hnil in Hi. simpl in Hi.
  assert (Hk : k < COUNT) by (rewrite <-(fo_count g Hg); by eapply lookup_lt_Some). split.
  - pose proof (fo_pc g Hg) as Hp. destruct Hg. split; simpl; try done; rewrite ?length_insert; try done.
    + destruct (feed g), f, item; try done. lia.
    + rewrite fo_idle0. destruct (feed g), f, item; done.
    + intros ->. by destruct (feed g).
  - intros j u Hj. simpl in Hj. apply list_lookup_insert_Some in Hj as [(-> & <- & _)|[Hne Hj]].
    + destruct (Hw j t Ht) as [Hs Hlog Hp He Hpl]. unfold queued in Hlog. rewrite Hnil in *.
      destruct (feed g) as [| | |i m|i|] eqn:Ef, f, item as [m'|]; try done; destruct Hf as [-> ->].
      * assert (Hsd : sending g j = [m]) by (unfold sending; by rewrite Ef, decide_True).
        split; unfold queued, items; simpl; rewrite ?Hi; simpl; try done.
        -- etrans; [exact Hlog|]. rewrite Hsd. unfold sending, hand. simpl. by rewrite ?app_nil_r.
        -- unfold closed in *. simpl. rewrite Ef in He. split; [|by destruct He].
           by intros ?%list_elem_of_singleton.
        -- intros Hkey. specialize (Hpl Hkey). unfold places, queued, items in *.
           rewrite Hsd, Hnil in Hpl. simpl in *. rewrite Hi. unfold sending. simpl. unfold hand in *. simpl. lia.
      * assert (Hsd : sending g j = []) by (unfold sending; by rewrite Ef).
        split; unfold queued, items; simpl; rewrite ?Hi; simpl; try done.
        -- etrans; [exact Hlog|]. rewrite Hsd. unfold sending, hand. by simpl.
        -- unfold closed in *. rewrite Ef in He. rewrite (proj2 (Nat.ltb_ge j j)) in He by lia.
           simpl. rewrite (proj2 (Nat.ltb_lt j (Datatypes.S j))) by lia. left. by destruct He.
        -- intros Hkey. specialize (Hpl Hkey). unfold places, queued, items in *.
           rewrite Hsd, Hnil in Hpl. simpl in *. rewrite Hi. unfold sending. simpl. unfold hand in *. simpl. lia.
    + eapply group_worker_ok_frame; [by apply Hw|done| | |].
      * unfold sending. simpl. destruct (feed g) as [| | |i m|i|], f, item; try done. destruct Hf as [-> ->].
        by rewrite decide_False.
      * unfold closed. simpl. destruct (feed g) as [| | |i m|i|], f, item; try done. destruct Hf as [-> ->].
        apply eq_bool_prop_intro. rewrite !Is_true_true, !Nat.ltb_lt. lia.
      * intros _. unfold places. simpl. do 3 f_equal.
        unfold sending. simpl. destruct (feed g) as [| | |i m|i|], f, item; try done. destruct Hf as [-> ->].
        by rewrite decide_False.
Qed.

Lemma done_ok g k : group_ok g -> feed g = Closing k -> workers g !! k = None -> group_ok (set_feed g Done).
Proof.
  intros [Hg Hw] Hpc Hk. apply lookup_ge_None in Hk. rewrite (fo_count g Hg) in Hk. split.
  - destruct Hg. split; simpl; try done. by rewrite fo_idle0, Hpc.
  - intros j t Hj. assert (j < COUNT) by (rewrite <-(fo_count g Hg); by eapply lookup_lt_Some).
    eapply group_worker_ok_frame; [by apply Hw|done| | |]; unfold places, sending, closed; simpl; rewrite ?Hpc; try done.
    symmetry. apply Nat.ltb_lt. lia.
Qed.

(** What the loop's resume leaves: the loop waits for a worker, for its stream, for room in a mailbox. *)
Definition feed_rests sh g : Prop :=
  match feed g with
  | Acquiring => tc_items (free g) = [] /\ tc_receives (free g) = true /\ Loop.stop sh = false
  | Pulling true =>
      (Loop.woken sh = true \/ (Loop.registered me (Loop.source sh) = true /\ ~ Loop.available me (Loop.source sh))) /\
      Loop.stop sh = false
  | Sending k _ | Closing k =>
      exists t, workers g !! k = Some t /\ items t <> [] /\ tc_sends (slot (mailbox t)) = true
  | Done => True
  | _ => False
  end.

(** The stream's waker is in place, or the probe tells. *)
Definition watches sh g : Prop :=
  feed g = Pulling true ->
  Loop.registered me (Loop.source sh) = true \/ Loop.may_be_ready me (Loop.source sh) = true.

Definition feed_work g : nat :=
  match feed g with
  | Sending _ _ => 4 * (limit - ready g) + COUNT + 7
  | Top => 4 * (limit - ready g) + COUNT + 6
  | Acquiring => 4 * (limit - ready g) + COUNT + 5
  | Pulling _ => 4 * (limit - ready g) + COUNT + 4
  | Closing k => COUNT - k + 2
  | Done => 1
  end.

Lemma wake_moves P sh w : Loop.moves P sh (wake sh w).
Proof.
  destruct w; [apply Loop.moves_wake, Loop.moves_refl|]. unfold wake, Loop.set_source. rewrite orb_false_r.
  destruct sh. apply Loop.moves_refl.
Qed.

(** How many deliveries a poll of the loop can still pull. *)
Definition room g : nat := match feed g with Closing _ | Done => 0 | _ => limit - ready g end.

(** What a resume of the loop promises, [b] saying that it waits. *)
Record resumed sh g sh' g' (b : bool) : Prop := {
  re_moves : Loop.moves (Loop.own me) sh sh';
  re_ok : group_ok g';
  re_watches : watches sh' g';
  re_cell : cell g' = cell g;
  re_rests : if b then feed_rests sh' g' else feed_work g' < feed_work g;
  re_pulled : length (pulled g') + (if b then 0 else room g') <= length (pulled g) + room g;
}.

Lemma not_watching sh g : feed g <> Pulling true -> watches sh g.
Proof. by intros ? ?. Qed.

Lemma top_resumed gates sh g sh' g' b :
  group_ok g -> feed g = Top -> feed_resume gates sh g = (sh', g', b) -> resumed sh g sh' g' b.
Proof.
  intros Hok Hpc. pose proof Hok as [Hg _]. pose proof (fo_ready g Hg). pose proof (fo_idle g Hg) as Hid. rewrite Hpc in Hid.
  assert (Hs : forall k, sending g k = []) by (intros k; unfold sending; by rewrite Hpc).
  assert (Hc : forall k, k < COUNT -> closed g k = false) by (intros k _; unfold closed; by rewrite Hpc).
  unfold Group.feed_resume. rewrite Hpc. unfold set_feed.
  destruct (Loop.stop sh); [|destruct (negb keyed && _) eqn:Ek]; intros [= <- <- <-];
    (split; [apply Loop.moves_refl|apply (feed_moves g); try done|by apply not_watching|done|unfold feed_work; simpl; rewrite Hpc; lia|unfold room; simpl; rewrite ?Hpc; lia]).
  - apply andb_true_iff in Ek as [Ek Eh]. apply negb_true_iff in Ek. by apply bool_decide_eq_true in Eh.
  - intros Hk. rewrite Hk in Ek. simpl in Ek. apply bool_decide_eq_false in Ek.
    destruct (held g); [by eexists|done].
Qed.

Lemma acquiring_resumed gates sh g sh' g' b :
  group_ok g -> feed g = Acquiring -> feed_resume gates sh g = (sh', g', b) -> resumed sh g sh' g' b.
Proof.
  intros Hok Hpc. pose proof Hok as [Hg _]. pose proof (fo_ready g Hg). pose proof (fo_idle g Hg) as Hid. rewrite Hpc in Hid.
  pose proof (fo_pc g Hg) as Hk. rewrite Hpc in Hk. destruct Hk as [Hk Hh].
  assert (Hs : forall k, sending g k = []) by (intros k; unfold sending; by rewrite Hpc).
  assert (Hc : forall k, k < COUNT -> closed g k = false) by (intros k _; unfold closed; by rewrite Hpc).
  unfold Group.feed_resume. rewrite Hpc. destruct (tc_receive (free g)) as [[q next] w] eqn:Er.
  destruct (tc_receive_cases _ _ _ _ Er) as [Hcap Hn]. destruct next as [index|].
  - destruct Hn as [Hi _]. intros [= <- <- <-].
    split; [apply wake_moves|by apply group_acquire_ok|by apply not_watching|done|unfold feed_work; simpl; rewrite Hpc; lia|unfold room; simpl; rewrite ?Hpc; lia].
  - destruct Hn as (Hi & Hi' & Hr & ->). unfold set_feed, set_free. rewrite ?Hpc. simpl.
    assert (Hq : keyed = false -> tc_items q = tc_items (free g) /\ tc_capacity q = tc_capacity (free g)) by (by rewrite Hi, Hi').
    destruct (Loop.stop sh) eqn:Est; intros [= <- <- <-];
      (split; [apply wake_moves|by apply (feed_moves g)|by apply not_watching|done| |unfold room; simpl; rewrite ?Hpc; lia]).
    + unfold feed_work. simpl. rewrite ?Hpc. lia.
    + unfold feed_rests. by simpl.
Qed.

Lemma pulling_resumed gates sh g sh' g' b waited :
  ok (Loop.source sh) -> group_ok g -> watches sh g -> feed g = Pulling waited ->
  feed_resume gates sh g = (sh', g', b) -> resumed sh g sh' g' b.
Proof.
  intros Hsrc Hok Hwt Hpc. pose proof Hok as [Hg _]. pose proof (fo_ready g Hg) as Hle. pose proof (fo_idle g Hg) as Hid. rewrite Hpc in Hid.
  pose proof (fo_pc g Hg) as Hh. rewrite Hpc in Hh.
  assert (Hs : forall k, sending g k = []) by (intros k; unfold sending; by rewrite Hpc).
  assert (Hc : forall k, k < COUNT -> closed g k = false) by (intros k _; unfold closed; by rewrite Hpc).
  unfold Group.feed_resume. rewrite Hpc. destruct (Loop.idle gates waited sh (reader me 0)) eqn:Ei.
  { intros [= <- <- <-]. unfold Loop.idle in Ei. simpl in Ei. bool_prop. subst waited. destruct (Hwt Hpc) as [Hr|?]; [|congruence].
    split; [apply Loop.moves_refl|done|done|done| |unfold room; lia]. unfold feed_rests. rewrite Hpc. split; [|done]. right.
    split; [done|]. intros Ha. apply Loop.ready_says_so in Ha; [congruence|done]. }
  destruct (Loop.bounded_poll_next limit sh (reader me (ready g))) as [[sh1 su] next] eqn:Eb.
  destruct (Loop.bounded_poll_spec ok limit sh (reader me (ready g)) sh1 su next Hsrc Hle Eb) as (Hm & Hst & n & -> & Hn). simpl in *.
  assert (Hm' : Loop.moves (Loop.own me) sh sh1) by (eapply Loop.moves_mono; [|exact Hm]; by left).
  destruct next as [[[m|e]|]|].
  - destruct Hn as [-> Hlt]. replace (chosen (set_idle g (Datatypes.S (ready g)) false) m) with (chosen g m) by done.
    destruct (chosen g m) as [i r] eqn:Ec. intros [= <- <- <-]. simpl.
    split; [done|by eapply group_pull_ok|by apply not_watching|done|unfold feed_work; simpl; rewrite Hpc; lia|].
    unfold room. simpl. rewrite length_app, Hpc. simpl. lia.
  - destruct Hn as [-> Hlt]. intros [= <- <- <-].
    split; [done|apply (feed_moves g); simpl; done || lia|by apply not_watching|done|unfold feed_work; simpl; rewrite Hpc; lia|unfold room; simpl; rewrite ?Hpc; lia].
  - destruct Hn as [-> Hlt]. intros [= <- <- <-].
    split; [done|apply (feed_moves g); simpl; done || lia|by apply not_watching|done|unfold feed_work; simpl; rewrite Hpc; lia|unfold room; simpl; rewrite ?Hpc; lia].
  - destruct Hn as [-> Hn]. rewrite Hst. destruct (Loop.stop sh) eqn:Est; intros [= <- <- <-].
    + split; [done|apply (feed_moves g); simpl; done || lia|by apply not_watching|done|unfold feed_work; simpl; rewrite Hpc; lia|unfold room; simpl; rewrite ?Hpc; lia].
    + split; [done|apply (feed_moves g); simpl; done || lia| |done| |unfold room; simpl; rewrite ?Hpc; lia].
      * intros _. destruct Hn as [[_ ?]|[? _]]; auto.
      * unfold feed_rests. simpl. split; [|congruence]. destruct Hn as [[? _]|?]; auto.
Qed.

(** The poll of a send into the mailbox of worker [k]: handed over, or the mailbox is full. *)
Lemma mailbox_send_spec sh g k t item sh' b sent :
  group_ok g -> workers g !! k = Some t -> mailbox_send sh (mailbox t) item = (sh', b, sent) ->
  Loop.moves (Loop.own me) sh sh' /\ tc_capacity (slot b) = 1 /\
  if sent then items t = [] /\ tc_items (slot b) = items t ++ [item] /\ b = mk_mailbox (slot b) false
  else items t <> [] /\ tc_items (slot b) = items t /\ tc_sends (slot b) = true /\ b = mk_mailbox (slot b) (parked (mailbox t)).
Proof.
  intros [_ Hw] Ht. destruct (wo_slot _ _ _ (Hw k t Ht)) as [Hcap Hlen]. unfold mailbox_send, items in *.
  destruct (tc_send (slot (mailbox t)) item) as [[c s] w] eqn:Es. intros [= <- <- <-].
  destruct (tc_send_cases _ _ _ _ _ Es) as [Hc Hs]. split; [apply wake_moves|]. split; [simpl; congruence|]. simpl. destruct s.
  - destruct Hs as [Hi Hl]. split_and!; [|done..]. apply nil_length_inv. lia.
  - destruct Hs as (Hi & Hl & Hsd & _). split_and!; try done. intros Hn. rewrite Hn in Hl. simpl in Hl. lia.
Qed.

Lemma waiting_resumed sh g sh' k t b :
  group_ok g -> workers g !! k = Some t -> Loop.moves (Loop.own me) sh sh' -> tc_capacity (slot b) = 1 ->
  items t <> [] -> tc_items (slot b) = items t -> tc_sends (slot b) = true ->
  b = mk_mailbox (slot b) (parked (mailbox t)) ->
  match feed g with Sending j _ | Closing j => j = k | _ => False end ->
  resumed sh g sh' (set_worker g k (mk_worker (pc t) b (did t))) true.
Proof.
  intros Hok Ht Hm Hc Hn Hi Hs Hb Hpc. destruct b as [c p]. simpl in *. injection Hb as ->. split; try done.
  - eapply group_set_worker_ok; [done|done|]. apply worker_ok_slot; try done. by apply Hok.
  - apply not_watching. simpl. by destruct (feed g).
  - assert (exists t', workers (set_worker g k (mk_worker (pc t) (mk_mailbox c (parked (mailbox t))) (did t))) !! k = Some t' /\
      items t' <> [] /\ tc_sends (slot (mailbox t')) = true) as He.
    { eexists. simpl. rewrite list_lookup_insert_eq by by eapply lookup_lt_Some. split_and!; [done| |done].
      unfold items. simpl. by rewrite Hi. }
    unfold feed_rests. simpl. by destruct (feed g); try done; subst.
  - unfold room. simpl. lia.
Qed.

Lemma handing_resumed gates sh g sh' g' b :
  group_ok g -> match feed g with Sending _ _ | Closing _ | Done => True | _ => False end ->
  feed_resume gates sh g = (sh', g', b) -> resumed sh g sh' g' b.
Proof.
  intros Hok Hpc. pose proof Hok as [Hg _]. pose proof (fo_pc g Hg) as Hp. pose proof (fo_count g Hg) as Hcnt.
  unfold Group.feed_resume. destruct (feed g) as [| | |i m|k|] eqn:Ef; try done.
  - destruct (lookup_lt_is_Some_2 (workers g) i) as [t Ht]; [lia|]. rewrite Ht.
    destruct (mailbox_send sh (mailbox t) (Some m)) as [[sh1 b1] sent] eqn:Es.
    destruct (mailbox_send_spec _ _ _ _ _ _ _ _ Hok Ht Es) as (Hm & Hc & Hs). destruct sent; intros [= <- <- <-].
    + destruct Hs as (Hn & Hi & ->). simpl in *. split; [done| |by apply not_watching|done| |unfold room; simpl; rewrite ?Ef; lia].
      * eapply handed_ok; try done. by rewrite Ef.
      * unfold feed_work. simpl. rewrite Ef. lia.
    + destruct Hs as (Hn & Hi & Hsd & Hb). apply waiting_resumed; try done. by rewrite Ef.
  - destruct (workers g !! k) as [t|] eqn:Ht.
    + assert (k < COUNT) by (rewrite <-Hcnt; by eapply lookup_lt_Some).
      destruct (mailbox_send sh (mailbox t) None) as [[sh1 b1] sent] eqn:Es.
      destruct (mailbox_send_spec _ _ _ _ _ _ _ _ Hok Ht Es) as (Hm & Hc & Hs). destruct sent; intros [= <- <- <-].
      * destruct Hs as (Hn & Hi & ->). simpl in *. split; [done| |by apply not_watching|done| |unfold room; simpl; rewrite ?Ef; lia].
        -- eapply handed_ok; try done. by rewrite Ef.
        -- unfold feed_work. simpl. rewrite Ef. lia.
      * destruct Hs as (Hn & Hi & Hsd & Hb). apply waiting_resumed; try done. by rewrite Ef.
    + intros [= <- <- <-]. split; [apply Loop.moves_refl|by eapply done_ok|by apply not_watching|done|done|unfold room; simpl; rewrite ?Ef; lia].
  - intros [= <- <- <-]. split; [apply Loop.moves_refl|done|apply not_watching; congruence|done| |unfold room; lia]. unfold feed_rests. by rewrite Ef.
Qed.

Lemma feed_resume_spec gates sh g sh' g' b :
  ok (Loop.source sh) -> group_ok g -> watches sh g -> feed_resume gates sh g = (sh', g', b) -> resumed sh g sh' g' b.
Proof.
  intros Hsrc Hok Hw Hr. destruct (feed g) eqn:Ef.
  - by eapply top_resumed.
  - by eapply acquiring_resumed.
  - by eapply pulling_resumed.
  - eapply handing_resumed; [done|by rewrite Ef|done].
  - eapply handing_resumed; [done|by rewrite Ef|done].
  - eapply handing_resumed; [done|by rewrite Ef|done].
Qed.

(** A poll of the loop returns, waiting. *)
Lemma poll_feed_spec gates fuel sh g :
  ok (Loop.source sh) -> group_ok g -> watches sh g -> feed_work g <= fuel ->
  exists sh' g', poll_feed gates fuel sh g = Some (sh', g') /\ resumed sh g sh' g' true.
Proof.
  revert sh g. induction fuel as [|fuel IH]; intros sh g Hsrc Hok Hw Hf.
  { unfold feed_work in Hf. destruct (feed g); lia. }
  simpl. destruct (feed_resume gates sh g) as [[sh1 g1] b] eqn:Er.
  pose proof (feed_resume_spec _ _ _ _ _ _ Hsrc Hok Hw Er) as Hre. destruct b; [by eexists _, _|].
  destruct Hre as [Hm Hok1 Hw1 Hc1 Hlt Hp1].
  destruct (IH sh1 g1) as (sh' & g' & -> & [Hm' Hok' Hw' Hc' Hr' Hp']); [by eapply Loop.moves_ok|done|done|lia|].
  eexists _, _. split; [done|]. split; [by eapply Loop.moves_trans|done|done|congruence|done|lia].
Qed.

Lemma feed_fuel_enough g : group_ok g -> feed_work g <= feed_fuel COUNT limit.
Proof.
  intros [Hg _]. pose proof (fo_pc g Hg) as Hp. unfold feed_work, feed_fuel. destruct (feed g); lia.
Qed.

(** *** A resume of a worker *)

Definition by_event (c : Loop.Change Id Ev) : Prop := exists e, c = Loop.ByEvent e.

Lemma by_event_foreign sh sh' : Loop.moves by_event sh sh' -> Loop.moves (fun c => Loop.foreign c me) sh sh'.
Proof. apply Loop.moves_mono. by intros c [e ->]. Qed.

(** The app's wait for the stop is registered until the stop. *)
Definition stop_watched sh : Prop := Loop.stop sh = false -> Loop.watched sh = true.

Lemma stop_watched_moves P sh sh' : Loop.moves P sh sh' -> stop_watched sh -> stop_watched sh'.
Proof.
  intros Hm. induction Hm as [sh|sh c sh' Hc Hm IH|sh sh' Hm IH|sh sh' Hm IH]; intros Hw; [done|by apply IH..|].
  apply IH. by intros ?.
Qed.

(** The loop waits, unless the task runs again. *)
Definition feed_calm sh g : Prop := Loop.woken sh = true \/ feed_rests sh g.

Lemma feed_calm_moves sh sh' g :
  Loop.moves (fun c => Loop.foreign c me) sh sh' -> ok (Loop.source sh) -> stop_watched sh ->
  feed_calm sh g -> feed_calm sh' g.
Proof.
  intros Hm Hok Hsw. pose proof (Loop.moves_flags _ _ _ Hm) as (Hwk & _ & Hst & _).
  destruct (Loop.moves_watched _ _ _ _ Hm Hok) as [_ Hw]. intros [?|Hr]; [left; by apply Hwk|].
  assert (Hstop : Loop.stop sh = false -> Loop.stop sh' = false \/ Loop.woken sh' = true).
  { intros Hs. destruct (Hst (Hsw Hs) Hs) as [[_ ?]|?]; auto. }
  unfold feed_calm, feed_rests in *. destruct (feed g) as [| |[]| | |]; auto.
  - destruct Hr as (? & ? & Hs). destruct (Hstop Hs); auto.
  - destruct Hr as [[?|[Hr Ha]] Hs]; [left; by apply Hwk|]. destruct (Hstop Hs) as [?|?]; [|by left].
    destruct (Hw Hr Ha) as [?|?]; [|by left]. right. auto.
Qed.

Lemma watches_moves sh sh' g :
  Loop.moves (fun c => Loop.foreign c me) sh sh' -> ok (Loop.source sh) -> watches sh g -> watches sh' g.
Proof. intros Hm Hok Hw Hf. destruct (Loop.moves_watched _ _ _ _ Hm Hok) as [Hw' _]. by apply Hw', Hw. Qed.

(** Others' mailboxes with something in stay as they are. *)
Lemma feed_rests_frame sh g g' :
  feed g' = feed g -> (feed g = Acquiring -> free g' = free g) ->
  (forall k t, workers g !! k = Some t -> items t <> [] -> tc_sends (slot (mailbox t)) = true ->
     exists t', workers g' !! k = Some t' /\ slot (mailbox t') = slot (mailbox t)) ->
  feed_rests sh g -> feed_rests sh g'.
Proof.
  intros Hf Hq Hw. unfold feed_rests. rewrite Hf. destruct (feed g) as [| | |k m|k|]; try done.
  - by rewrite Hq.
  - intros (t & Ht & Hi & Hs). destruct (Hw k t Ht Hi Hs) as (t' & ? & He). exists t'. unfold items in *. by rewrite He.
  - intros (t & Ht & Hi & Hs). destruct (Hw k t Ht Hi Hs) as (t' & ? & He). exists t'. unfold items in *. by rewrite He.
Qed.

Definition worker_rests t : Prop :=
  match pc t with
  | Receiving => parked (mailbox t) = true
  | Handling _ ends => ends = false
  | Ended => True
  end.
Definition worker_work t : nat :=
  match pc t with
  | Receiving => 1 + length (items t)
  | Handling _ true => 2 + length (items t)
  | _ => 1
  end.

(** What a resume of worker [k] promises. *)
Record worked sh g (k : nat) t sh' g' (b : bool) : Prop := {
  wk_moves : Loop.moves by_event sh sh';
  wk_ok : group_ok g';
  wk_feed : feed g' = feed g /\ cell g' = cell g /\ pulled g' = pulled g;
  wk_calm : stop_watched sh -> feed_calm sh g -> feed_calm sh' g';
  wk_others j : j <> k -> workers g' !! j = workers g !! j;
  wk_own : exists t', workers g' !! k = Some t' /\ if b then worker_rests t' else worker_work t' < worker_work t;
}.

(** A worker's mailbox changes hands with the loop calm, or waking the task. *)
Lemma set_worker_calm sh g g' k t t' :
  workers g !! k = Some t -> workers g' = <[k := t']> (workers g) -> feed g' = feed g ->
  (feed g = Acquiring -> free g' = free g \/ Loop.woken sh = true) ->
  (items t <> [] -> tc_sends (slot (mailbox t)) = true -> slot (mailbox t') = slot (mailbox t) \/ Loop.woken sh = true) ->
  feed_calm sh g -> feed_calm sh g'.
Proof.
  intros Ht Hw Hf Hfree Hslot [?|Hr]; [by left|]. destruct (Loop.woken sh) eqn:Ewk; [by left|]. right.
  eapply feed_rests_frame; [done| | |exact Hr].
  - intros Ha. by destruct (Hfree Ha).
  - intros j u Hj Hi Hs. rewrite Hw. destruct (decide (j = k)) as [->|Hne].
    + rewrite list_lookup_insert_eq by by eapply lookup_lt_Some. assert (u = t) as -> by congruence.
      exists t'. split; [done|]. by destruct (Hslot Hi Hs).
    + exists u. by rewrite list_lookup_insert_ne.
Qed.

(** A delivery at its end leaves the accounts of its worker in order. *)
Lemma finish_places g k t b m :
  group_ok g -> workers g !! k = Some t -> pc t <> Ended ->
  hand t ++ queued t = m :: omap (fun x => x) (tc_items (slot b)) ->
  tc_capacity (slot b) = 1 -> length (tc_items (slot b)) <= 1 -> parked b = false ->
  (if closed g k then tc_items (slot b) = [None] else None ∉ tc_items (slot b)) ->
  forall q, (if keyed then q = free g else
             tc_items q = tc_items (free g) ++ [k] /\ tc_capacity q = tc_capacity (free g)) ->
  group_ok (set_free (set_worker g k (mk_worker Receiving b (did t ++ [m]))) q).
Proof.
  intros [Hg Hw] Ht He Hm Hc Hl Hp Hend q Hq.
  assert (Hk : k < COUNT) by (rewrite <-(fo_count g Hg); by eapply lookup_lt_Some).
  assert (Hqi : keyed = false -> tc_items q = tc_items (free g) ++ [k] /\ tc_capacity q = tc_capacity (free g)).
  { intros Hkey. by rewrite Hkey in Hq. }
  split.
  - destruct Hg. split; simpl; try done; [by rewrite length_insert|]. intros Hkey. destruct (Hqi Hkey) as [-> ->].
    destruct (fo_free0 Hkey) as [? ?]. split; [done|]. apply Forall_app. split; [done|]. by constructor.
  - intros j u Hj. simpl in Hj. apply list_lookup_insert_Some in Hj as [(-> & <- & _)|[Hne Hj]].
    + destruct (Hw j t Ht) as [_ Hlog _ _ Hpl]. split; unfold queued, items; simpl; try done.
      * etrans; [exact Hlog|]. rewrite (assoc_L _ (hand t)), Hm. unfold hand. simpl. by rewrite <-!app_assoc.
      * rewrite Hp. done.
      * unfold closed in *. simpl. destruct (feed g) as [| | |i m'|i|]; try by split.
        -- by destruct (j <? i); [left|split].
        -- by left.
      * intros Hkey. specialize (Hpl Hkey). destruct (Hqi Hkey) as [Hi _].
        assert (Hlen : length (hand t) + length (queued t) = Datatypes.S (length (omap (fun x => x) (tc_items (slot b))))).
        { by rewrite <-length_app, Hm. }
        unfold places, queued, items in *. simpl. unfold sending in *. simpl.
        rewrite Hi, count_snoc, decide_True by done. unfold hand in *. simpl in *. lia.
    + eapply group_worker_ok_frame; [by apply Hw|done|done|done|]. intros Hkey. destruct (Hqi Hkey) as [Hi _].
      unfold places, sending. simpl. rewrite Hi, count_snoc, decide_False by done. lia.
Qed.

Lemma finish_spec sh g k t b m sh' g' :
  group_ok g -> workers g !! k = Some t -> pc t <> Ended ->
  hand t ++ queued t = m :: omap (fun x => x) (tc_items (slot b)) ->
  tc_capacity (slot b) = 1 -> length (tc_items (slot b)) <= 1 -> parked b = false ->
  (if closed g k then tc_items (slot b) = [None] else None ∉ tc_items (slot b)) ->
  ok (Loop.source sh) ->
  (items t <> [] -> tc_sends (slot (mailbox t)) = true -> slot b = slot (mailbox t) \/ Loop.woken sh = true) ->
  finish sh g k b m (did t) = (sh', g') ->
  Loop.moves by_event sh sh' /\ group_ok g' /\ (feed g' = feed g /\ cell g' = cell g /\ pulled g' = pulled g) /\
  (stop_watched sh -> feed_calm sh g -> feed_calm sh' g') /\
  workers g' = <[k := mk_worker Receiving b (did t ++ [m])]> (workers g).
Proof.
  intros Hok Ht He Hm Hc Hl Hp Hend Hsrc Hslot Hf. pose proof Hok as [Hg Hw].
  pose proof (finish_places g k t b m Hok Ht He Hm Hc Hl Hp Hend) as Hfp.
  assert (Hset : Loop.moves by_event sh (Loop.settle_delivery handled halts m sh)).
  { apply Loop.moves_settle. intros e. by exists e. }
  pose proof (Loop.moves_flags _ _ _ Hset) as (Hwk & _).
  assert (Hcalm : stop_watched sh -> feed_calm sh g -> feed_calm (Loop.settle_delivery handled halts m sh) g).
  { intros. eapply feed_calm_moves; [by apply by_event_foreign|done..]. }
  unfold Group.finish in Hf. destruct keyed eqn:Hkey.
  - injection Hf as <- <-. specialize (Hfp (free g) eq_refl). split_and!; try done.
    intros Hsw Hca. eapply (set_worker_calm _ g); [done|done|done|by left| |auto]. simpl. intros Hi Hs.
    destruct (Hslot Hi Hs); auto.
  - assert (Hk : k < COUNT) by (rewrite <-(fo_count g Hg); by eapply lookup_lt_Some).
    assert (Hz : Prelude.count (Nat.eqb k) (tc_items (free g)) = 0).
    { pose proof (wo_place _ _ _ (Hw k t Ht) Hkey) as Hpl. unfold places in Hpl.
      assert (length (hand t) + length (queued t) = Datatypes.S (length (omap (fun x => x) (tc_items (slot b))))).
      { by rewrite <-length_app, Hm. } lia. }
    destruct (tc_try_send_room (free g) k (group_free_room g k Hok Hkey Hk Hz)) as (q & w & Hq & Hi & Hcap & Hrecv).
    simpl in Hf. rewrite Hq in Hf. injection Hf as <- <-. specialize (Hfp q (conj Hi Hcap)). split_and!; try done.
    + eapply Loop.moves_trans; [exact Hset|]. apply wake_moves.
    + intros Hsw Hca. specialize (Hcalm Hsw Hca).
      assert (Hca' : feed_calm (wake (Loop.settle_delivery handled halts m sh) w) g).
      { destruct Hcalm as [Hx|Hx]; [left; simpl; by rewrite Hx|]. right. unfold feed_rests in *. destruct (feed g) as [| |[]| | |]; try done.
        destruct Hx as [[?|?] ?]; split; auto. left. simpl. by apply orb_true_iff; left. }
      assert (Ha : feed g = Acquiring \/ feed g <> Acquiring) by (destruct (feed g); auto). destruct Ha as [Ha|Ha].
      * destruct Hca as [Hx|Hx]; [left; simpl; by rewrite (Hwk Hx)|].
        left. simpl. unfold feed_rests in Hx. rewrite Ha in Hx. rewrite (Hrecv (proj1 (proj2 Hx))). apply orb_true_r.
      * eapply (set_worker_calm _ g); [done|done|done|done| |exact Hca']. simpl. intros Hi' Hs.
        destruct (Hslot Hi' Hs) as [?|Hx]; [by left|]. right. by rewrite (Hwk Hx).
Qed.

(** A worker whose mailbox alone changed, to its end or to a delivery it starts or waits for. *)
Lemma received_ok g k t t' :
  group_ok g -> workers g !! k = Some t -> did t' = did t -> hand t' ++ queued t' = hand t ++ queued t ->
  tc_capacity (slot (mailbox t')) = 1 -> length (items t') <= 1 ->
  (parked (mailbox t') = true -> pc t' = Receiving /\ items t' = [] /\ tc_receives (slot (mailbox t')) = true) ->
  (if closed g k then (items t' = [None] /\ pc t' <> Ended) \/ (items t' = [] /\ pc t' = Ended)
   else (None ∉ items t') /\ pc t' <> Ended) ->
  group_ok (set_worker g k t').
Proof.
  intros Hok Ht Hd Hq Hc Hl Hp He. eapply group_set_worker_ok; [done|done|]. destruct Hok as [_ Hw].
  destruct (Hw k t Ht) as [_ Hlog _ _ Hpl]. split; try done.
  - by rewrite Hlog, Hd, !(assoc_L _ (hand _)), Hq.
  - intros Hkey. specialize (Hpl Hkey). unfold places in *. rewrite <-Nat.add_assoc, <-length_app in *. by rewrite Hq.
Qed.

Lemma worker_resume_spec sh g k t sh' g' b :
  ok (Loop.source sh) -> group_ok g -> workers g !! k = Some t ->
  worker_resume sh g k = (sh', g', b) -> worked sh g k t sh' g' b.
Proof.
  intros Hsrc Hok Ht. pose proof Hok as [Hg Hw]. pose proof (Hw k t Ht) as [[Hcap Hlen] Hlog Hpark Hend Hpl].
  assert (Hlt : k < length (workers g)) by by eapply lookup_lt_Some.
  assert (Hwait : forall b, b = true -> worker_rests t -> worked sh g k t sh g b).
  { intros ? -> ?. split; [apply Loop.moves_refl|done|done|done|done|by exists t]. }
  unfold Group.worker_resume. rewrite Ht. destruct (pc t) as [|m []|] eqn:Epc.
  - unfold mailbox_receive. destruct (tc_receive (slot (mailbox t))) as [[c next] w] eqn:Er.
    destruct (tc_receive_cases _ _ _ _ Er) as [Hc Hn]. fold (items t) in Hn.
    assert (Hmv : Loop.moves by_event sh (wake sh w)) by apply wake_moves.
    assert (Hcalm : stop_watched sh -> feed_calm sh g -> feed_calm (wake sh w) g).
    { intros. by eapply feed_calm_moves; [apply by_event_foreign|..]. }
    destruct next as [[m|]|].
    + destruct Hn as [Hi Hwk].
      assert (Hnil : tc_items c = []) by (apply nil_length_inv; rewrite Hi in Hlen; simpl in Hlen; lia).
      assert (Hncl : closed g k = false).
      { destruct (closed g k); [|done]. rewrite Hi in Hend. by destruct Hend as [[? _]|[? _]]. }
      assert (Hslot : items t <> [] -> tc_sends (slot (mailbox t)) = true -> c = slot (mailbox t) \/ Loop.woken (wake sh w) = true).
      { intros _ Hs. right. simpl. rewrite Hwk; [apply orb_true_r|done|]. rewrite Hcap. fold (items t). rewrite Hi. simpl. lia. }
      assert (Hq : hand t ++ queued t = [m]) by (unfold hand, queued; by rewrite Epc, Hi, Hnil).
      destruct (at_once m).
      * destruct (finish (wake sh w) g k _ m (did t)) as [sh1 g1] eqn:Ef. intros [= <- <- <-].
        edestruct (finish_spec (wake sh w) g k t) as (Hm & Hok' & Hf & Hca & Hws); try exact Ef; simpl; try done.
        -- congruence.
        -- by rewrite Hq, Hnil.
        -- congruence.
        -- rewrite Hnil. simpl. lia.
        -- rewrite Hncl, Hnil. by intros ?%elem_of_nil.
        -- split; try done.
           ++ by eapply Loop.moves_trans.
           ++ intros Hsw Hca0. apply Hca; [|by apply Hcalm]. by eapply stop_watched_moves.
           ++ intros j Hj. by rewrite Hws, list_lookup_insert_ne.
           ++ rewrite Hws. eexists. rewrite list_lookup_insert_eq by done. split; [done|].
              unfold worker_work, items. simpl. rewrite Epc. fold (items t). rewrite Hi, Hnil. simpl. lia.
      * intros [= <- <- <-]. split; try done.
        -- apply (received_ok g k t); unfold queued, items; simpl; rewrite ?Hnil; try done; [congruence|simpl; lia|].
           rewrite Hncl. split; [by intros ?%elem_of_nil|done].
        -- intros Hsw Hca. eapply (set_worker_calm _ g); [done|done|done|by left|exact Hslot|by apply Hcalm].
        -- intros j Hj. simpl. by rewrite list_lookup_insert_ne.
        -- eexists. simpl. by rewrite list_lookup_insert_eq by done.
    + destruct Hn as [Hi Hwk].
      assert (Hnil : tc_items c = []) by (apply nil_length_inv; rewrite Hi in Hlen; simpl in Hlen; lia).
      assert (Hcl : closed g k = true).
      { destruct (closed g k); [done|]. rewrite Hi in Hend. destruct Hend as [Hn _]. destruct Hn. by left. }
      intros [= <- <- <-]. split; try done.
      * apply (received_ok g k t); unfold queued, hand, items; simpl; rewrite ?Hnil, ?Epc, ?Hcl; try done; [|congruence|simpl; lia|by right].
        fold (items t). by rewrite Hi, Hnil.
      * intros Hsw Hca. eapply (set_worker_calm _ g); [done|done|done|by left| |by apply Hcalm].
        intros _ Hs. right. simpl. rewrite Hwk; [apply orb_true_r|done|]. rewrite Hcap. fold (items t). rewrite Hi. simpl. lia.
      * intros j Hj. simpl. by rewrite list_lookup_insert_ne.
      * eexists. simpl. by rewrite list_lookup_insert_eq by done.
    + destruct Hn as (Hi & Hi' & Hr & ->). intros [= <- <- <-]. split; try done.
      * apply (received_ok g k t); unfold queued, hand, items; simpl; rewrite ?Hi', ?Epc; try done; [|congruence|simpl; lia|].
        -- fold (items t). by rewrite Hi.
        -- by rewrite Hi in Hend.
      * intros Hsw Hca. eapply (set_worker_calm _ g); [done|done|done|by left|done|by apply Hcalm].
      * intros j Hj. simpl. by rewrite list_lookup_insert_ne.
      * eexists. simpl. by rewrite list_lookup_insert_eq by done.
  - destruct (finish sh g k (mailbox t) m (did t)) as [sh1 g1] eqn:Ef. intros [= <- <- <-].
    assert (Hnp : parked (mailbox t) = false).
    { destruct (parked (mailbox t)); [|done]. by destruct (Hpark eq_refl). }
    edestruct (finish_spec sh g k t) as (Hm & Hok' & Hf & Hca & Hws); try exact Ef; try done.
    + congruence.
    + unfold hand. by rewrite Epc.
    + destruct (closed g k); [by destruct Hend as [[? _]|[_ ?]]|by destruct Hend].
    + by left.
    + split; try done.
      * intros j Hj. by rewrite Hws, list_lookup_insert_ne.
      * rewrite Hws. eexists. rewrite list_lookup_insert_eq by done. split; [done|].
        unfold worker_work, items. simpl. rewrite Epc. lia.
  - intros [= <- <- <-]. apply Hwait; [done|]. unfold worker_rests. by rewrite Epc.
  - intros [= <- <- <-]. apply Hwait; [done|]. unfold worker_rests. by rewrite Epc.
Qed.

Lemma worked_trans sh g k t sh1 g1 t1 sh' g' :
  worked sh g k t sh1 g1 false -> workers g1 !! k = Some t1 -> worked sh1 g1 k t1 sh' g' true ->
  worked sh g k t sh' g' true.
Proof.
  intros [Hm Hok (Hf & Hc & Hp) Hca Ho _] _ [Hm' Hok' (Hf' & Hc' & Hp') Hca' Ho' He']. split; try done.
  - by eapply Loop.moves_trans.
  - split_and!; congruence.
  - intros Hsw ?. apply Hca'; [by eapply stop_watched_moves|auto].
  - intros j Hj. by rewrite Ho', Ho.
Qed.

Lemma poll_worker_spec fuel sh g k t :
  ok (Loop.source sh) -> group_ok g -> workers g !! k = Some t -> worker_work t <= fuel ->
  exists sh' g', poll_worker fuel sh g k = Some (sh', g') /\ worked sh g k t sh' g' true.
Proof.
  revert sh g t. induction fuel as [|fuel IH]; intros sh g t Hsrc Hok Ht Hf.
  { unfold worker_work in Hf. destruct (pc t) as [|? []|]; lia. }
  simpl. destruct (worker_resume sh g k) as [[sh1 g1] b] eqn:Er.
  pose proof (worker_resume_spec _ _ _ _ _ _ _ Hsrc Hok Ht Er) as Hwk. destruct b; [by eexists _, _|].
  destruct (wk_own _ _ _ _ _ _ _ Hwk) as (t1 & Ht1 & Hlt).
  destruct (IH sh1 g1 t1) as (sh' & g' & Hp & Hwk'); [|by apply Hwk|done|lia|].
  { eapply (Loop.moves_ok ok); [apply (wk_moves _ _ _ _ _ _ _ Hwk)|done]. }
  exists sh', g'. split; [done|]. by eapply worked_trans.
Qed.

Lemma worker_work_le g k t : group_ok g -> workers g !! k = Some t -> worker_work t <= 3.
Proof.
  intros [_ Hw] Ht. destruct (wo_slot _ _ _ (Hw k t Ht)) as [_ Hl]. unfold worker_work. destruct (pc t) as [|? []|]; lia.
Qed.

Lemma group_gated_poll_spec gates sh g k t :
  ok (Loop.source sh) -> group_ok g -> workers g !! k = Some t ->
  exists sh' g', gated_poll gates sh g k = Some (sh', g') /\ worked sh g k t sh' g' true.
Proof.
  intros Hsrc Hok Ht. unfold Group.gated_poll. rewrite Ht. destruct (gates && parked (mailbox t)) eqn:Eg.
  - apply andb_true_iff in Eg as [_ Eg]. destruct Hok as [Hg Hw]. destruct (wo_parked _ _ _ (Hw k t Ht) Eg) as (Hpc & _).
    eexists _, _. split; [done|]. split; [apply Loop.moves_refl|done|done|done|done|]. exists t. split; [done|].
    unfold worker_rests. by rewrite Hpc.
  - apply poll_worker_spec; try done. by eapply worker_work_le.
Qed.

(** What the polls of a run of workers promise. *)
Record ran sh g (indices : list nat) sh' g' : Prop := {
  rn_moves : Loop.moves by_event sh sh';
  rn_ok : group_ok g';
  rn_feed : feed g' = feed g /\ cell g' = cell g /\ pulled g' = pulled g;
  rn_calm : stop_watched sh -> feed_calm sh g -> feed_calm sh' g';
  rn_others j : j ∉ indices -> workers g' !! j = workers g !! j;
  rn_own k t : k ∈ indices -> workers g' !! k = Some t -> worker_rests t;
}.

Lemma poll_workers_spec gates indices sh g :
  ok (Loop.source sh) -> group_ok g -> NoDup indices -> Forall (fun k => k < COUNT) indices ->
  exists sh' g', poll_workers gates indices sh g = Some (sh', g') /\ ran sh g indices sh' g'.
Proof.
  revert sh g. induction indices as [|k rest IH]; intros sh g Hsrc Hok Hnd Hall; simpl.
  { eexists _, _. split; [done|]. split; [apply Loop.moves_refl|done|done|done|done|]. by intros k t ?%elem_of_nil. }
  apply NoDup_cons in Hnd as [Hk Hnd]. apply Forall_cons in Hall as [Hlt Hall].
  destruct (lookup_lt_is_Some_2 (workers g) k) as [t Ht]; [by rewrite (fo_count g (proj1 Hok))|].
  destruct (group_gated_poll_spec gates sh g k t Hsrc Hok Ht) as (sh1 & g1 & Hp & [Hm1 Hok1 (Hf1 & Hc1 & Hp1) Hca1 Ho1 (t1 & Ht1 & Hr1)]).
  rewrite Hp. simpl. destruct (IH sh1 g1) as (sh' & g' & -> & [Hm Hok' (Hf & Hc & Hpu) Hca Ho Hr]); try done.
  { by eapply Loop.moves_ok. }
  eexists _, _. split; [done|]. split; try done.
  - by eapply Loop.moves_trans.
  - split_and!; congruence.
  - intros Hsw ?. apply Hca; [by eapply stop_watched_moves|auto].
  - intros j Hj. rewrite not_elem_of_cons in Hj. rewrite Ho, Ho1; tauto.
  - intros j u [->|Hj]%elem_of_cons Hu; [|by eapply Hr]. rewrite (Ho k Hk), Ht1 in Hu. by injection Hu as <-.
Qed.

(** What a poll of the group leaves behind. *)
Definition recorded g : Prop :=
  cell g = true -> feed g = Pulling true /\ forall k t, workers g !! k = Some t -> parked (mailbox t) = true.

Record polled sh g sh' g' : Prop := {
  pl_moves : Loop.moves (Loop.own me) sh sh';
  pl_ok : group_ok g';
  pl_watches : watches sh' g';
  pl_calm : stop_watched sh -> feed_calm sh' g';
  pl_rest k t : workers g' !! k = Some t -> worker_rests t;
  pl_recorded : is_done g' = false -> recorded g';
  pl_pulled : length (pulled g') <= length (pulled g) + limit;
}.

Lemma poll_group_spec gates sh g :
  ok (Loop.source sh) -> group_ok g -> watches sh g -> (flagged = false -> cell g = false) ->
  exists sh' g', poll_group gates sh g = Some (sh', g') /\ polled sh g sh' g' /\ (flagged = false -> cell g' = false).
Proof.
  intros Hsrc Hok Hw Hfl. unfold Group.poll_group.
  destruct (poll_feed_spec gates _ sh g Hsrc Hok Hw (feed_fuel_enough g Hok)) as (sh1 & g1 & -> & [Hm1 Hok1 Hw1 Hc1 Hr1 Hp1]).
  simpl. assert (Hsrc1 : ok (Loop.source sh1)) by by eapply Loop.moves_ok.
  destruct (poll_workers_spec gates (seq 0 COUNT) sh1 g1) as (sh' & g' & -> & [Hm Hok' (Hf & Hc & Hpu) Hca Ho Hr]); try done.
  { apply NoDup_seq. }
  { apply Forall_forall. intros k Hk%elem_of_seq. simpl in *. lia. }
  simpl. eexists _, _. split; [done|].
  assert (Hmv : Loop.moves (Loop.own me) sh sh').
  { eapply Loop.moves_trans; [done|]. eapply Loop.moves_mono; [|exact Hm]. intros c [e ->]. right. by exists e. }
  assert (Hrest : forall k t, workers g' !! k = Some t -> worker_rests t).
  { intros k t Hk. eapply Hr; [|done]. apply elem_of_seq. split; [lia|]. simpl.
    rewrite <-(fo_count g' (proj1 Hok')). by eapply lookup_lt_Some. }
  assert (Hwt : watches sh' g').
  { eapply watches_moves; [by apply by_event_foreign|done|]. unfold watches in *. by rewrite Hf. }
  assert (Hcl : stop_watched sh -> feed_calm sh' g').
  { intros Hsw. apply Hca; [by eapply stop_watched_moves|]. by right. }
  assert (Hlen : length (pulled g') <= length (pulled g) + limit).
  { rewrite Hpu. unfold room in Hp1. destruct (feed g); lia. }
  destruct (is_done g') eqn:Ed; [|destruct flagged eqn:Efl].
  - split; [|intros Hx; rewrite Hc, Hc1; auto]. split; try done. congruence.
  - split; [|done]. split; try done.
    + destruct Hok' as [Hg' Hw']. split; [by destruct Hg'; split|]. intros k t Hk.
      eapply group_worker_ok_frame; [by apply Hw'|done..].
    + intros _. unfold recorded. simpl. intros [Hi Hpk]%andb_true_iff. rewrite (fo_idle g' (proj1 Hok')) in Hi.
      split; [by destruct (feed g') as [| |[]| | |]|]. intros k t Hk. rewrite forallb_forall in Hpk.
      apply (Hpk t). apply list_elem_of_In. by eapply list_elem_of_lookup_2.
  - split; [|intros _; rewrite Hc, Hc1; auto]. split; try done. intros _ Hx. rewrite Hc, Hc1, Hfl in Hx; done.
Qed.

(** *** The task *)

Inductive reachable (gates : bool) (s : S) : World -> Prop :=
  | reach_initial : reachable gates s (initial COUNT keyed s)
  | reach_step w a w' : reachable gates s w -> step gates w a = Some (Some w') -> reachable gates s w'.

Record world_ok (w : World) : Prop := {
  wd_source : ok (Loop.source (shared w));
  wd_group : group_ok (group w);
  wd_watches : watches (shared w) (group w);
  wd_stop : stop_watched (shared w);
  wd_flag : flagged = false -> cell (group w) = false;
  wd_going : phase w <> Finished -> is_done (group w) = false /\ recorded (group w);
  wd_calm : phase w = Asleep -> feed_calm (shared w) (group w);
  wd_rest k t : phase w = Asleep -> workers (group w) !! k = Some t -> Loop.woken (shared w) = true \/ worker_rests t;
}.

Lemma group_initial_ok s : ok s -> world_ok (initial COUNT keyed s).
Proof.
  intros Hok. split; simpl; try done; [apply group_start_ok|by left|by intros; left].
Qed.

(** What others do to the group. *)
Lemma outside_ok w sh' :
  Loop.moves (fun c => Loop.foreign c me) (shared w) sh' -> world_ok w -> world_ok (mk_world sh' (group w) (phase w)).
Proof.
  intros Hm [Hs Hg Hw Hsw Hf Hgo Hc Hr]. pose proof (Loop.moves_flags _ _ _ Hm) as (Hwk & _). split; simpl; try done.
  - by eapply Loop.moves_ok.
  - by eapply watches_moves.
  - by eapply stop_watched_moves.
  - intros. by eapply feed_calm_moves; auto.
  - intros k t Hp Ht. destruct (Hr k t Hp Ht); auto.
Qed.

Lemma parked_rests g k t : group_ok g -> workers g !! k = Some t -> parked (mailbox t) = true -> worker_rests t.
Proof.
  intros [_ Hw] Ht Hp. destruct (wo_parked _ _ _ (Hw k t Ht) Hp) as (Hpc & _). unfold worker_rests. by rewrite Hpc.
Qed.

(** A group the join skips waits, all of it. *)
Lemma skipped_rests gates w :
  world_ok w -> phase w = Passing -> Loop.idle gates (cell (group w)) (shared w) (reader me 0) = true ->
  feed_rests (shared w) (group w) /\ (forall k t, workers (group w) !! k = Some t -> parked (mailbox t) = true) /\
  feed (group w) = Pulling true /\ Loop.may_be_ready me (Loop.source (shared w)) = false /\
  Loop.registered me (Loop.source (shared w)) = true /\ Loop.stop (shared w) = false /\ Loop.GATED = true.
Proof.
  intros [Hs Hg Hw Hsw Hf Hgo Hc Hr] Hph Hi. unfold Loop.idle in Hi. simpl in Hi.
  apply andb_true_iff in Hi as [Hi Hst]. apply andb_true_iff in Hi as [Hi Hmay]. apply andb_true_iff in Hi as [Hi Hcell].
  apply andb_true_iff in Hi as [_ Hgated]. apply negb_true_iff in Hst, Hmay.
  destruct (Hgo ltac:(congruence)) as [_ Hrec]. destruct (Hrec ltac:(done)) as [Hfd Hpk].
  destruct (Hw Hfd) as [Hreg|?]; [|congruence]. split_and!; try done. unfold feed_rests. rewrite Hfd. split; [|done].
  right. split; [done|]. intros Ha. apply Loop.ready_says_so in Ha; [congruence|done].
Qed.

Lemma polls_ok gates w w' : world_ok w -> step gates w Polls = Some (Some w') -> world_ok w'.
Proof.
  intros Hw. unfold Group.step. destruct (phase w) eqn:Eph; try done.
  destruct (Loop.idle gates (cell (group w)) (shared w) (reader me 0)) eqn:Ei.
  - intros [= <-]. destruct (skipped_rests gates w Hw Eph Ei) as (Hfr & Hpk & _). destruct Hw as [Hs Hg Hwt Hsw Hf Hgo Hc Hr].
    split; simpl; try done; [intros _; apply Hgo; congruence|by right|]. intros k t _ Ht. right. by eapply parked_rests; eauto.
  - pose proof Hw as [Hs Hg Hwt Hsw Hf Hgo Hc Hr].
    destruct (poll_group_spec gates (shared w) (group w) Hs Hg Hwt Hf) as (sh' & g' & Hp & [Hm Hok' Hw' Hca Hre Hrec _] & Hfl').
    rewrite Hp. simpl. intros [= <-]. split; simpl; try done.
    + by eapply Loop.moves_ok.
    + by eapply stop_watched_moves.
    + intros Hx. destruct (is_done g'); [done|]. auto.
    + intros. by apply Hca.
    + intros k t _ Ht. right. by eapply Hre.
Qed.

Lemma completes_ok gates w k w' : world_ok w -> step gates w (Completes k) = Some (Some w') -> world_ok w'.
Proof.
  intros [Hs Hg Hwt Hsw Hf Hgo Hc Hr]. unfold Group.step. destruct (workers (group w) !! k) as [t|] eqn:Ht; [|done].
  destruct (pc t) as [|m []|] eqn:Epc; try done. intros [= <-].
  assert (Hwk : worker_ok (group w) k t) by by apply Hg. destruct Hwk as [[Hcap Hlen] Hlog Hpk Hend Hpl].
  assert (Hnp : parked (mailbox t) = true -> False) by (intros Hp; destruct (Hpk Hp); congruence).
  split; simpl; try done.
  - apply (received_ok _ k t); try done; [unfold hand, queued, items; simpl; by rewrite Epc|].
    destruct (closed _ _); [left|]; destruct Hend as [[? ?]|[? ?]] || destruct Hend; congruence || by split.
  - intros Hph. destruct (Hgo Hph) as [Hd Hrec]. split.
    + unfold is_done in *. simpl. destruct (feed (group w)); try done. simpl in *.
      apply not_true_iff_false. rewrite forallb_forall. intros Hall. specialize (Hall (mk_worker (Handling m true) (mailbox t) (did t))).
      discriminate Hall. apply list_elem_of_In, list_elem_of_lookup_2 with k. rewrite list_lookup_insert_eq; [done|by eapply lookup_lt_Some].
    + intros Hcell. destruct (Hrec Hcell) as [_ Hall]. destruct (Hnp (Hall k t Ht)).
  - intros _. left. simpl. apply orb_true_r.
  - intros j u _ _. left. apply orb_true_r.
Qed.

Lemma step_keeps_ok gates w a w' : world_ok w -> step gates w a = Some (Some w') -> world_ok w'.
Proof.
  intros Hw. destruct a as [| |c| | |k].
  - unfold Group.step. destruct (phase w) eqn:Eph; try done. destruct (Loop.woken (shared w)); [|done]. intros [= <-].
    destruct Hw as [Hs Hg Hwt Hsw Hf Hgo Hc Hr]. split; simpl; try done. intros _. apply Hgo. congruence.
  - by apply polls_ok.
  - unfold Group.step. destruct (foreign me c) eqn:Ef; [|done].
    destruct (Loop.change c (Loop.source (shared w))) as [s wk] eqn:Ec. intros [= <-]. apply outside_ok; [|done].
    apply (Loop.moves_change _ _ c); [destruct c as [e|j]; [done|by apply bool_decide_eq_true in Ef]|].
    rewrite Ec. apply Loop.moves_refl.
  - intros [= <-]. apply outside_ok; [apply wake_moves|done].
  - intros [= <-]. apply outside_ok; [apply Loop.moves_halt, Loop.moves_refl|done].
  - by apply completes_ok.
Qed.

Lemma reachable_world_ok gates s w : ok s -> reachable gates s w -> world_ok w.
Proof. intros Hok. induction 1; [by apply group_initial_ok|by eapply step_keeps_ok]. Qed.

(** *** The gates skip nothing *)

Lemma set_worker_same g k t : workers g !! k = Some t -> set_worker g k t = g.
Proof. intros Ht. destruct g. unfold set_worker. simpl in *. by rewrite list_insert_id. Qed.

Lemma wake_none sh : wake sh false = sh.
Proof. destruct sh. unfold wake, Loop.set_source. simpl. by rewrite orb_false_r. Qed.

Lemma parked_poll gates sh g k t :
  group_ok g -> workers g !! k = Some t -> parked (mailbox t) = true -> gated_poll gates sh g k = Some (sh, g).
Proof.
  intros [_ Hw] Ht Hp. destruct (wo_parked _ _ _ (Hw k t Ht) Hp) as (Hpc & Hi & Hr).
  unfold Group.gated_poll. rewrite Ht, Hp. destruct gates; [done|]. simpl. unfold Group.worker_resume. rewrite Ht, Hpc.
  unfold mailbox_receive. unfold items in Hi. rewrite (tc_receive_again _ Hi Hr), wake_none. rewrite set_worker_same; [done|].
  rewrite Ht. f_equal. destruct t as [pc_ [c p] d]. simpl in *. by subst.
Qed.

Lemma worker_poll_transparent sh g k t :
  group_ok g -> workers g !! k = Some t -> gated_poll true sh g k = gated_poll false sh g k.
Proof.
  intros Hok Ht. destruct (parked (mailbox t)) eqn:Ep.
  - by rewrite !(parked_poll _ sh g k t).
  - unfold Group.gated_poll. by rewrite Ht, Ep.
Qed.

Lemma workers_transparent indices sh g :
  ok (Loop.source sh) -> group_ok g -> Forall (fun k => k < COUNT) indices ->
  poll_workers true indices sh g = poll_workers false indices sh g.
Proof.
  revert sh g. induction indices as [|k rest IH]; intros sh g Hsrc Hok Hall; [done|]. simpl.
  apply Forall_cons in Hall as [Hlt Hall].
  destruct (lookup_lt_is_Some_2 (workers g) k) as [t Ht]; [by rewrite (fo_count g (proj1 Hok))|].
  rewrite (worker_poll_transparent sh g k t Hok Ht).
  destruct (group_gated_poll_spec false sh g k t Hsrc Hok Ht) as (sh1 & g1 & -> & Hw). simpl.
  apply IH; [|by apply Hw|done]. eapply (Loop.moves_ok ok); [apply (wk_moves _ _ _ _ _ _ _ Hw)|done].
Qed.

(** A loop that waits for its stream, polled with nothing to find. *)
Lemma waiting_resume sh g :
  ok (Loop.source sh) -> group_ok g -> feed g = Pulling true ->
  Loop.may_be_ready me (Loop.source sh) = false -> Loop.registered me (Loop.source sh) = true -> Loop.stop sh = false ->
  feed_resume false sh g = (sh, g, true).
Proof.
  intros Hsrc [Hg _] Hpc Hmay Hreg Hst. unfold Group.feed_resume. rewrite Hpc. unfold Loop.bounded_poll_next. simpl.
  rewrite Hmay, andb_false_r, (Loop.pending_again me (Loop.source sh) Hsrc Hreg Hmay). simpl. rewrite Hst.
  pose proof (fo_idle g Hg) as Hi. pose proof (fo_parked g Hg Hpc) as Hr. rewrite Hpc in Hi.
  unfold set_feed, set_idle, Loop.set_source. simpl. rewrite orb_false_r. destruct sh, g. simpl in *. congruence.
Qed.

Lemma feed_transparent sh g :
  ok (Loop.source sh) -> group_ok g -> watches sh g -> feed_resume true sh g = feed_resume false sh g.
Proof.
  intros Hsrc Hok Hw. destruct (feed g) as [| |waited| | |] eqn:Ef; try (unfold Group.feed_resume; by rewrite Ef).
  destruct (Loop.idle true waited sh (reader me 0)) eqn:Ei.
  - pose proof Ei as Ei'. unfold Loop.idle in Ei. simpl in Ei. bool_prop. subst waited. destruct (Hw Ef) as [Hr|?]; [|congruence].
    rewrite waiting_resume by done. unfold Group.feed_resume. by rewrite Ef, Ei'.
  - unfold Group.feed_resume. by rewrite Ef, Ei.
Qed.

Lemma poll_feed_transparent fuel sh g :
  ok (Loop.source sh) -> group_ok g -> watches sh g -> poll_feed true fuel sh g = poll_feed false fuel sh g.
Proof.
  revert sh g. induction fuel as [|fuel IH]; intros sh g Hsrc Hok Hw; [done|]. simpl.
  rewrite feed_transparent by done. destruct (feed_resume false sh g) as [[sh1 g1] b] eqn:Er.
  destruct (feed_resume_spec _ _ _ _ _ _ Hsrc Hok Hw Er) as [Hm Hok1 Hw1 _ _ _]. destruct b; [done|].
  apply IH; [by eapply Loop.moves_ok|done|done].
Qed.

Lemma group_transparent sh g :
  ok (Loop.source sh) -> group_ok g -> watches sh g -> poll_group true sh g = poll_group false sh g.
Proof.
  intros Hsrc Hok Hw. unfold Group.poll_group. rewrite poll_feed_transparent by done.
  destruct (poll_feed_spec false _ sh g Hsrc Hok Hw (feed_fuel_enough g Hok)) as (sh1 & g1 & -> & Hre). simpl.
  rewrite workers_transparent; [done| |by apply Hre|].
  - eapply (Loop.moves_ok ok); [apply (re_moves _ _ _ _ _ Hre)|done].
  - apply Forall_forall. intros k Hk%elem_of_seq. simpl in *. lia.
Qed.

(** Polling a group the join may skip changes nothing. *)
Lemma skipped_poll w :
  world_ok w -> phase w = Passing -> Loop.idle true (cell (group w)) (shared w) (reader me 0) = true ->
  poll_group false (shared w) (group w) = Some (shared w, group w).
Proof.
  intros Hw Hph Hi. destruct (skipped_rests true w Hw Hph Hi) as (_ & Hpk & Hf & Hmay & Hreg & Hst & _).
  pose proof Hw as [Hs Hg _ _ Hfl _ _ _]. unfold Group.poll_group, feed_fuel. rewrite Nat.add_comm. simpl.
  rewrite waiting_resume by done. simpl.
  assert (Hrun : forall l, Forall (fun k => k < COUNT) l -> poll_workers false l (shared w) (group w) = Some (shared w, group w)).
  { induction l as [|k l IH]; intros Hall; [done|]. apply Forall_cons in Hall as [Hlt Hall]. simpl.
    destruct (lookup_lt_is_Some_2 (workers (group w)) k) as [t Ht]; [by rewrite (fo_count _ (proj1 Hg))|].
    rewrite (parked_poll _ _ _ k t Hg Ht (Hpk k t Ht)). simpl. by apply IH. }
  rewrite Hrun by (apply Forall_forall; intros k Hk%elem_of_seq; simpl in *; lia). simpl.
  assert (Hd : is_done (group w) = false) by (unfold is_done; by rewrite Hf). rewrite Hd.
  unfold Loop.idle in Hi. repeat (apply andb_true_iff in Hi as [Hi ?]).
  destruct flagged eqn:Efl; [|done]. rewrite (fo_idle _ (proj1 Hg)), Hf. simpl.
  assert (Hall : forallb (fun t => is_parked (mailbox t)) (workers (group w)) = true).
  { apply forallb_forall. intros t Ht%list_elem_of_In%list_elem_of_lookup_1. destruct Ht as [k Ht]. by eapply Hpk. }
  rewrite Hall. assert (Hc : cell (group w) = true) by done. destruct (shared w), (group w). simpl in *. by subst.
Qed.

Lemma group_step_transparent w a : world_ok w -> step true w a = step false w a.
Proof.
  intros Hw. destruct a; try done. unfold Group.step. destruct (phase w) eqn:Eph; try done.
  assert (Hoff : Loop.idle false (cell (group w)) (shared w) (reader me 0) = false) by done. rewrite Hoff.
  destruct (Loop.idle true (cell (group w)) (shared w) (reader me 0)) eqn:Ei.
  - rewrite skipped_poll by done. simpl. destruct (skipped_rests true w Hw Eph Ei) as (_ & _ & Hf & _).
    assert (Hd : is_done (group w) = false) by (unfold is_done; by rewrite Hf). by rewrite Hd.
  - destruct Hw as [Hs Hg Hwt _ _ _ _ _]. by rewrite group_transparent.
Qed.

Lemma group_run_transparent w schedule : world_ok w -> run true w schedule = run false w schedule.
Proof.
  revert w. induction schedule as [|a l IH]; intros w Hw; simpl; [done|].
  rewrite group_step_transparent by done. destruct (step false w a) as [[w'|]|] eqn:Est; [|done|by apply IH].
  apply IH. by eapply step_keeps_ok.
Qed.

(** ** What the group promises *)

Lemma group_source_ok gates s w : ok s -> reachable gates s w -> ok (Loop.source (shared w)).
Proof. intros Hok Hr. by destruct (reachable_world_ok _ _ _ Hok Hr) as [? ?]. Qed.

(** Nothing is slept through by a group of workers: while the task sleeps and is not marked to run,
    every worker waits on an empty mailbox, runs a handler that is not done or has ended, and the loop
    waits for its stream, which has nothing to say and holds the task's waker, with the app not
    stopped; or for a free worker with every worker in a handler; or for the one worker it has a
    delivery or the end for, which is in a handler; or has ended while a worker is in its last
    handler. *)
Theorem group_rests_asleep gates s w :
  ok s -> reachable gates s w -> phase w = Asleep -> Loop.woken (shared w) = false ->
  (forall k t, workers (group w) !! k = Some t ->
     match pc t with Receiving => items t = [] | Handling _ ends => ends = false | Ended => True end) /\
  match feed (group w) with
  | Pulling true =>
      ~ Loop.available me (Loop.source (shared w)) /\ Loop.registered me (Loop.source (shared w)) = true /\
      Loop.stop (shared w) = false
  | Acquiring =>
      Loop.stop (shared w) = false /\
      forall k t, workers (group w) !! k = Some t -> exists m, pc t = Handling m false
  | Sending k _ | Closing k => exists t m, workers (group w) !! k = Some t /\ pc t = Handling m false
  | Done => exists k t m, workers (group w) !! k = Some t /\ pc t = Handling m false
  | _ => False
  end.
Proof.
  intros Hok Hr Hph Hwk. destruct (reachable_world_ok _ _ _ Hok Hr) as [_ Hg Hwt _ _ Hgo Hca Hre].
  assert (Hrest : forall k t, workers (group w) !! k = Some t ->
     match pc t with Receiving => items t = [] | Handling _ ends => ends = false | Ended => True end).
  { intros k t Ht. destruct (Hre k t Hph Ht) as [?|Hx]; [congruence|]. unfold worker_rests in Hx.
    destruct (pc t) eqn:Epc; try done. by apply (wo_parked _ _ _ (proj2 Hg k t Ht)). }
  split; [done|]. destruct (Hca Hph) as [?|Hf]; [congruence|]. destruct (Hgo ltac:(congruence)) as [Hd _].
  assert (Hbusy : forall k t, workers (group w) !! k = Some t -> closed (group w) k = false -> items t <> [] ->
    exists m, pc t = Handling m false).
  { intros k t Ht Hcl Hi. specialize (Hrest k t Ht). pose proof (wo_end _ _ _ (proj2 Hg k t Ht)) as He. rewrite Hcl in He.
    destruct (pc t) as [|m e|]; [done|subst e; by exists m|by destruct He]. }
  unfold feed_rests in Hf. pose proof (fo_pc _ (proj1 Hg)) as Hpc.
  destruct (feed (group w)) as [| |[]|k m|k|] eqn:Ef; try done.
  - destruct Hf as (Hi & _ & Hst). destruct Hpc as [Hkey Hheld]. split; [done|]. intros k t Ht.
    pose proof (wo_place _ _ _ (proj2 Hg k t Ht) Hkey) as Hp. unfold places, sending in Hp. rewrite Ef, Hi, Hheld in Hp.
    specialize (Hrest k t Ht). unfold hand, queued in Hp. simpl in Hp.
    destruct (pc t) as [|m e|] eqn:Epc; [by rewrite Hrest in Hp|subst e; by exists m|].
    pose proof (wo_end _ _ _ (proj2 Hg k t Ht)) as He. unfold closed in He. rewrite Ef in He. by destruct He.
  - destruct Hf as [[?|[? ?]] ?]; [congruence|by split_and!].
  - destruct Hf as (t & Ht & Hi & _). destruct (Hbusy k t Ht) as [m' ?]; [unfold closed; by rewrite Ef|done|]. by exists t, m'.
  - destruct Hf as (t & Ht & Hi & _). destruct (Hbusy k t Ht) as [m' ?]; [unfold closed; rewrite Ef; apply Nat.ltb_ge; lia|done|].
    by exists t, m'.
  - unfold is_done in Hd. rewrite Ef in Hd. simpl in Hd.
    apply not_true_iff_false in Hd. rewrite forallb_forall in Hd.
    destruct (existsb (fun t => match pc t with Handling _ false => true | _ => false end) (workers (group w))) eqn:Hex.
    + apply existsb_exists in Hex as (t & Ht%list_elem_of_In & Hm). apply list_elem_of_lookup_1 in Ht as [k Ht].
      destruct (pc t) as [|m []|] eqn:Epc; try done. by exists k, t, m.
    + destruct Hd. intros t Ht%list_elem_of_In. pose proof Ht as [k Hk]%list_elem_of_lookup_1. specialize (Hrest k t Hk).
      pose proof (wo_end _ _ _ (proj2 Hg k t Hk)) as He. unfold closed in He. rewrite Ef in He.
      destruct (pc t) as [|m e|] eqn:Epc; [rewrite Hrest in He; by destruct He as [[? _]|[_ ?]]| |done].
      subst e. apply not_true_iff_false in Hex. destruct Hex. apply existsb_exists. exists t.
      split; [by apply list_elem_of_In|by rewrite Epc].
Qed.

(** Deliveries are neither lost, doubled nor reordered in a group of workers: what the loop pulled
    for a worker is, in order, what the worker dispatched to its end, what it has in hand, what its
    mailbox holds and what is on its way; at most one delivery is out for a worker of a pool, so the
    loop pulls only with a worker free, and three for a keyed one; a key's deliveries are all its one
    worker's. *)
Theorem group_hands_over_in_order gates s w k t :
  ok s -> reachable gates s w -> workers (group w) !! k = Some t ->
  sent_to (group w) k = did t ++ hand t ++ queued t ++ sending (group w) k /\
  length (hand t ++ queued t ++ sending (group w) k) <= (if keyed then 3 else 1) /\
  (forall m key, keyed = true -> m ∈ sent_to (group w) k -> partition_key m = Some key -> k = key_index fnv COUNT key).
Proof.
  intros Hok Hr Ht. destruct (reachable_world_ok _ _ _ Hok Hr) as [_ [Hg Hw] _ _ _ _ _ _].
  destruct (Hw k t Ht) as [[_ Hl] Hlog _ _ Hpl]. split_and!; [done| |].
  - assert (Hq : length (queued t) <= 1).
    { unfold queued. destruct (items t) as [|[m|] [|? ?]]; simpl in *; lia. }
    assert (Hh : length (hand t) <= 1) by (unfold hand; destruct (pc t); simpl; lia).
    assert (Hs : length (sending (group w) k) <= 1).
    { unfold sending. destruct (feed (group w)); try (simpl; lia). destruct (decide _); simpl; lia. }
    rewrite !length_app. destruct keyed eqn:Ek; [lia|]. specialize (Hpl eq_refl). unfold places in Hpl. lia.
  - intros m key Hk Hin Hp. eapply (fo_key _ Hg); [done| |exact Hp]. unfold sent_to in Hin.
    apply list_elem_of_omap in Hin as ([j m'] & Hin & Hd). simpl in Hd. destruct (decide (j = k)) as [->|]; [|done].
    by injection Hd as ->.
Qed.

(** Skipping an idle group, its idle loop and its parked workers changes nothing: every schedule
    takes the app whose join, loop and workers' gates skip polls through exactly the states of the app
    that polls everything on every wake. *)
Theorem group_gating_is_transparent s schedule :
  ok s -> run true (initial COUNT keyed s) schedule = run false (initial COUNT keyed s) schedule.
Proof. intros Hok. apply group_run_transparent. by apply group_initial_ok. Qed.

(** A poll of the group returns, however fast the broker refills the stream, having pulled the
    stream's bound of deliveries at most, with every worker waiting. *)
Theorem group_poll_returns gates s w :
  ok s -> reachable gates s w -> phase w = Passing ->
  exists w', step gates w Polls = Some (Some w') /\ length (pulled (group w')) <= length (pulled (group w)) + limit /\
    forall k t, workers (group w') !! k = Some t -> worker_rests t.
Proof.
  intros Hok Hr Hph. pose proof (reachable_world_ok _ _ _ Hok Hr) as Hw. unfold Group.step. rewrite Hph.
  destruct (Loop.idle gates (cell (group w)) (shared w) (reader me 0)) eqn:Ei.
  - eexists. split; [done|]. simpl. split; [lia|]. intros k t Ht.
    destruct (skipped_rests gates w Hw Hph Ei) as (_ & Hpk & _). eapply parked_rests; [apply Hw|done|by eapply Hpk].
  - destruct Hw as [Hs Hg Hwt _ Hf _ _ _].
    destruct (poll_group_spec gates (shared w) (group w) Hs Hg Hwt Hf) as (sh' & g' & Hp & Hpl & _).
    rewrite Hp. simpl. eexists. split; [done|]. simpl. split; apply Hpl.
Qed.

Lemma group_run_reachable gates s schedule w w' :
  reachable gates s w -> run gates w schedule = Some w' -> reachable gates s w'.
Proof.
  revert w. induction schedule as [|a l IH]; intros w Hr; simpl; [by intros [= <-]|].
  destruct (step gates w a) as [[w1|]|] eqn:Es; [|done|by apply IH]. apply IH. by eapply reach_step.
Qed.
End facts.

(** ** Witnesses: two workers on a radio's frames, those that end in 9 taking their time *)

#[local] Instance radio : Loop.Source (list Loop.Inbox) nat nat Empty_set Loop.Radio := Loop.inboxes false.
#[local] Instance radio_lawful : Loop.LawfulSource Loop.inbox_ok := Loop.inboxes_lawful false.
#[local] Instance radio_stable : Loop.StableProbe Loop.inbox_ok := Loop.inboxes_stable false eq_refl.

Definition key_of (m : nat) : option bytes := if m <? 100 then None else Some [ascii_of_nat (m mod 10)].
Definition short_hash (key : bytes) : N := match key with [x] => N_of_ascii x | _ => 0%N end.
Definition quick (m : nat) : bool := negb (m mod 10 =? 9).
Definition frames (l : list nat) : list Loop.Inbox := [Loop.mk_inbox l false].

Definition radio_run (keyed gates : bool) (l : list nat) (schedule : list (@Actor nat Loop.Radio)) :=
  run (C := LTaskChannel) key_of short_hash 2 keyed Loop.YIELD_AFTER quick (fun _ => []) (fun _ => false) 0 true
    gates (initial 2 keyed (frames l)) schedule.
Abbreviation RadioWorld := (@World (list Loop.Inbox) nat LTaskChannel).
Definition radio_group (keyed : bool) (l : list nat) (schedule : list (@Actor nat Loop.Radio)) : RadioWorld :=
  default (initial 2 keyed (frames l)) (radio_run keyed true l schedule).
Abbreviation radio_reachable keyed l := (reachable key_of short_hash 2 keyed Loop.YIELD_AFTER quick (fun _ => [])
  (fun _ => false) 0 true true (frames l)).

Lemma radio_group_reachable keyed l schedule : radio_reachable keyed l (radio_group keyed l schedule).
Proof.
  unfold radio_group. destruct (radio_run keyed true l schedule) as [w|] eqn:Ew; simpl; [|apply reach_initial].
  eapply group_run_reachable; [apply reach_initial|exact Ew].
Qed.

Definition two_passes : list (@Actor nat Loop.Radio) := [Begin; Polls; Begin; Polls; Begin; Polls].
Definition waiting_pool : RadioWorld := radio_group false [1; 9; 3] two_passes.
Definition keyed_pool : RadioWorld := radio_group true [109; 119; 101; 129] two_passes.

Lemma group_rests_asleep_witness :
  exists t, workers (group waiting_pool) !! 0 = Some t /\ items t = [] /\ pc t = Receiving.
Proof.
  destruct (workers (group waiting_pool) !! 0) as [t|] eqn:Et; [|by vm_compute in Et].
  pose proof (proj1 (group_rests_asleep key_of short_hash 2 false Loop.YIELD_AFTER quick (fun _ => [])
    (fun _ => false) 0 true Loop.inbox_ok ltac:(lia) true (frames [1; 9; 3]) waiting_pool I
    (radio_group_reachable false [1; 9; 3] two_passes) eq_refl eq_refl) 0 t Et) as Hs.
  assert (Hpc : pc t = Receiving) by (vm_compute in Et; by injection Et as <-).
  rewrite Hpc in Hs. exists t. by split_and!.
Defined.

Lemma group_hands_over_in_order_witness :
  exists t, workers (group keyed_pool) !! 1 = Some t /\
    sent_to (group keyed_pool) 1 = did t ++ hand t ++ queued t ++ sending (group keyed_pool) 1.
Proof.
  destruct (workers (group keyed_pool) !! 1) as [t|] eqn:Et; [|by vm_compute in Et]. exists t. split; [done|].
  exact (proj1 (group_hands_over_in_order key_of short_hash 2 true Loop.YIELD_AFTER quick (fun _ => []) (fun _ => false)
    0 true Loop.inbox_ok ltac:(lia) true (frames [109; 119; 101; 129]) keyed_pool 1 t I
    (radio_group_reachable true [109; 119; 101; 129] two_passes) Et)).
Defined.

Lemma group_gating_is_transparent_witness :
  radio_run false true [1; 9; 3] (two_passes ++ [Wakes; Begin; Polls; Completes 1; Begin; Polls; Stops; Begin; Polls]) =
  radio_run false false [1; 9; 3] (two_passes ++ [Wakes; Begin; Polls; Completes 1; Begin; Polls; Stops; Begin; Polls]).
Proof.
  exact (group_gating_is_transparent key_of short_hash 2 false Loop.YIELD_AFTER quick (fun _ => []) (fun _ => false)
    0 true Loop.inbox_ok ltac:(lia) (frames [1; 9; 3]) _ I).
Defined.

Definition about_to_poll : RadioWorld := radio_group false [1; 9; 3] [Begin].

Lemma group_poll_returns_witness :
  exists w', step (C := LTaskChannel) key_of short_hash 2 false Loop.YIELD_AFTER quick (fun _ => []) (fun _ => false) 0 true
    true about_to_poll Polls = Some (Some w') /\ length (pulled (group w')) <= 128.
Proof.
  destruct (group_poll_returns key_of short_hash 2 false Loop.YIELD_AFTER quick (fun _ => []) (fun _ => false) 0 true
    Loop.inbox_ok ltac:(lia) true (frames [1; 9; 3]) about_to_poll I (radio_group_reachable false [1; 9; 3] [Begin])
    eq_refl) as (w' & Hs & Hl & _).
  exists w'. split; [exact Hs|exact Hl].
Defined.
End Group.
