(* ===== verification/AppBus.v ===== *)
(** * An embedded app, and a group of its workers, over the fixed local bus

    The fixed bus ([FixedBus]) is a broker in the sense of [Loop]: a subscription's stream polls the
    bus with the task's waker, its probe ([DeliveriesWaiting]) reads the same slot, and publishes,
    settlements, connects and the shutdown come from handlers and from device code.  The bus keeps
    the contract of [ReadyHint] and withdraws nothing that waits, so what [Loop] and [Group] prove
    holds of the pair, with no hypothesis on the broker left.  The subscriptions are open
    before the loops run and stay open while they do. *)
From Stdlib Require Import Ascii String.
From S2P Require Import Prelude RustStd Headers FixedBuf Queue FixedBus Loop Group.
Import FixedBus.

Module AppBus.

(** The task's waker. *)
Definition TASK : nat := 0.

Section bus.
Context {Q : Type -> Type} `{BoundedQueue Q} `{!BoundedQueueLaws Q}.
Context {R : Type} `{WakerRegistration R} `{!WakerRegistrationLaws R}.
Context {HM : Type} `{HeaderStore HM} `{!EqDecision (@Message HM)}.
Context (MESSAGES PAYLOAD : nat) (helds : list Held).

Abbreviation Slot := (@Slot Q R HM).
Abbreviation Message := (@Message HM).
Abbreviation BusState := (@BusState Q R HM).
Abbreviation BusWorld := (@FixedBus.World Q R HM).

Inductive BusEvent :=
  | Connects
  | ShutsDown
  | Publishes (name : string) (body : bytes) (hs : HM)
  | Settles (m : Message) (verb : Verb).

Definition with_bus (w : BusWorld) (b : BusState) : BusWorld :=
  FixedBus.mk_world b (subscribers w) (messages w).

(** [Deliveries::poll_next] of the subscriber with index [i]. *)
Definition stream_poll (i : nat) (w : BusWorld) : BusWorld * poll (result Message Empty_set) * bool :=
  match helds !! i with
  | Some held =>
      let (b, p) := poll_next (bus w) held TASK in
      match p with
      | Ready (Some d) =>
          let m := mk_message d false held in
          (FixedBus.mk_world b (subscribers w) (m :: messages w), Ready (Some (Ok m)), false)
      | Ready None => (with_bus w b, Ready None, false)
      | Pending => (with_bus w b, Pending, false)
      end
  | None => (w, Ready None, false)
  end.

Definition probe (i : nat) (w : BusWorld) : bool :=
  match helds !! i with
  | Some held => may_be_ready (bus w) held
  | None => true
  end.

Definition wakes (woken : list nat) : bool := bool_decide (TASK ∈ woken).

(** A message is settled by its holder, so a settlement of one nobody holds is no event; the panics
    are the bus's [unreachable!], which [FixedBus] proves absent. *)
Definition bus_event (e : BusEvent) (w : BusWorld) : BusWorld * bool :=
  match e with
  | Connects => (with_bus w (connect (bus w)), false)
  | ShutsDown => let '(b, woken, _) := shut_down (bus w) in (with_bus w b, wakes woken)
  | Publishes name body hs =>
      match fanout MESSAGES PAYLOAD (bus w) name body hs with
      | Some (b, woken, _) => (with_bus w b, wakes woken)
      | None => (w, false)
      end
  | Settles m verb =>
      match position (fun x => bool_decide (x = m)) (messages w) with
      | Some k =>
          match settled_with PAYLOAD (bus w) m verb with
          | Some (b, woken) =>
              (FixedBus.mk_world b (subscribers w) (delete k (messages w)), wakes (option_list woken))
          | None => (w, false)
          end
      | None => (w, false)
      end
  end.

Definition reads_parked (i : nat) (w : BusWorld) : bool :=
  match helds !! i ≫= slot (bus w) with
  | Some s => bool_decide (wr_held (reader s) = Some TASK)
  | None => false
  end.

#[export] Instance bus_source : Loop.Source BusWorld nat Message Empty_set BusEvent := {|
  Loop.poll_next := stream_poll;
  Loop.may_be_ready := probe;
  Loop.GATED := true;
  Loop.happen := bus_event;
  Loop.registered := reads_parked;
|}.

(** The bus is well formed, and the app's subscriptions are open or closed slots of their own. *)
Definition bus_ok (w : BusWorld) : Prop :=
  wf MESSAGES w /\ NoDup helds /\ Forall (fun held => is_Some (slot (bus w) held)) helds.

(** *** The bus keeps the contract *)

Lemma event_touches e (w w' : BusWorld) wk :
  bus_event e w = (w', wk) ->
  exists woken, touches (bus w) (bus w') woken /\ (TASK ∈ woken -> wk = true).
Proof.
  destruct e as [| |name body hs|m verb]; simpl.
  - intros [= <- <-]. exists []. split; [apply connect_touches|by intros ?%elem_of_nil].
  - destruct (shut_down (bus w)) as [[b woken] n] eqn:Es. intros [= <- <-]. exists woken.
    split; [by eapply shut_down_touches|]. intros ?. by apply bool_decide_eq_true.
  - destruct (fanout _ _ _ _ _ _) as [[[b woken] r]|] eqn:Ef; intros [= <- <-].
    + exists woken. split; [by eapply fanout_touches|]. intros ?. by apply bool_decide_eq_true.
    + exists []. split; [apply touches_refl|by intros ?%elem_of_nil].
  - destruct (position _ _) as [k|]; cycle 1.
    { intros [= <- <-]. exists []. split; [apply touches_refl|by intros ?%elem_of_nil]. }
    destruct (settled_with PAYLOAD (bus w) m verb) as [[b woken]|] eqn:Es; intros [= <- <-].
    + eexists. split; [by eapply settled_touches|]. intros ?. by apply bool_decide_eq_true.
    + exists []. split; [apply touches_refl|by intros ?%elem_of_nil].
Qed.

Lemma event_wf e (w : BusWorld) : wf MESSAGES w -> wf MESSAGES (bus_event e w).1.
Proof.
  intros Hw. destruct e as [| |name body hs|m verb]; simpl.
  - destruct w, Hw. by split.
  - destruct (shut_down_ok MESSAGES PAYLOAD 0 w Hw) as (w' & Hr & Hw').
    unfold run in Hr. simpl in Hr. destruct (shut_down (bus w)) as [[b woken] n]. by injection Hr as <-.
  - destruct (publish_ok MESSAGES PAYLOAD 0 w name body hs Hw) as (w' & Hr & Hw').
    unfold run in Hr. simpl in Hr. destruct (fanout _ _ _ _ _ _) as [[[b woken] r]|]; [|done]. by injection Hr as <-.
  - destruct (position _ _) as [k|] eqn:Ep; [|done]. apply position_Some in Ep as (x & Hx & Hxm & _).
    apply bool_decide_eq_true in Hxm as ->.
    destruct (lookup_delete_split _ _ _ Hx) as (l1 & l2 & Hms & Hdel & _).
    destruct w as [b subs ms]. simpl in *. subst ms.
    assert (Hset : settled m = false).
    { destruct Hw as [_ Hu]. simpl in Hu. apply Forall_app in Hu as [_ Hu]. by apply Forall_cons_1 in Hu as [? _]. }
    destruct (settle_with_ok MESSAGES PAYLOAD b subs l1 m l2 verb Hw Hset) as (b' & Hb & Hwf').
    unfold settle_with in Hb. destruct (settled_with PAYLOAD b m verb) as [[b1 wk]|]; [|done].
    simpl in Hb. injection Hb as ->. simpl. by rewrite Hdel.
Qed.

Lemma poll_wf i (w : BusWorld) : wf MESSAGES w -> wf MESSAGES (stream_poll i w).1.1.
Proof.
  intros Hw. unfold stream_poll. destruct (helds !! i) as [held|]; [|done].
  assert (Hw' : wf MESSAGES (FixedBus.mk_world (bus w) [held] (messages w))) by (destruct w, Hw; by split).
  destruct (poll_ok MESSAGES PAYLOAD 0 _ 0 TASK Hw') as (w2 & Hr & Hw2). unfold run in Hr. simpl in Hr.
  destruct (poll_next (bus w) held TASK) as [b [[d|]|]]; injection Hr as <-; destruct Hw2; by split.
Qed.

Lemma poll_touches i j (w : BusWorld) held :
  NoDup helds -> i <> j -> helds !! i = Some held ->
  slot (bus (stream_poll j w).1.1) held = slot (bus w) held.
Proof.
  intros Hnd Hne Hi. unfold stream_poll. destruct (helds !! j) as [held'|] eqn:Ej; [|done].
  assert (Hd : held <> held') by (intros ->; apply Hne; by eapply NoDup_lookup).
  destruct (slot (bus w) held') as [s|] eqn:Hs.
  - destruct (poll_slot (bus w) held' TASK s Hs) as (s' & _ & Ho & _).
    rewrite <-(Ho held Hd). by destruct (poll_next (bus w) held' TASK) as [b [[d|]|]].
  - unfold poll_next. rewrite Hs. done.
Qed.

Lemma foreign_change c i held s (w w' : BusWorld) wk :
  bus_ok w -> Loop.foreign c i -> helds !! i = Some held -> slot (bus w) held = Some s ->
  Loop.change c w = (w', wk) ->
  exists s', slot (bus w') held = Some s' /\
    (untouched s s' \/
     ((bq_items (queue s') <> [] \/ standing s' = Closed) /\ (wr_held (reader s) = Some TASK -> wk = true))).
Proof.
  intros (_ & Hnd & _) Hf Hi Hs. destruct c as [e|j]; simpl.
  - intros Hc. destruct (event_touches _ _ _ _ Hc) as (woken & Ht & Hw).
    destruct (Ht held s Hs) as (s' & Hs' & [?|[? Hg]]); exists s'; (split; [done|]); [by left|].
    right. split; [done|]. intros. by apply Hw, Hg.
  - simpl in Hf. pose proof (poll_touches i j w held Hnd (not_eq_sym Hf) Hi) as Hp.
    destruct (stream_poll j w) as [[w1 p] wk1]. intros [= <- <-]. simpl in Hp.
    exists s. rewrite Hp. split; [done|]. left. by split_and!.
Qed.

Lemma open_slot i held (w : BusWorld) : bus_ok w -> helds !! i = Some held -> exists s, slot (bus w) held = Some s.
Proof. intros (_ & _ & Hf) Hi. rewrite Forall_lookup in Hf. by destruct (Hf _ _ Hi) as [s ?]; exists s. Qed.

Lemma probe_ready i held s (w : BusWorld) :
  helds !! i = Some held -> slot (bus w) held = Some s ->
  (probe i w = true <-> bq_items (queue s) <> [] \/ standing s = Closed).
Proof. intros Hi Hs. unfold probe, may_be_ready. rewrite Hi, Hs. symmetry. apply slot_ready. Qed.

Lemma stream_available i (w : BusWorld) : bus_ok w -> (Loop.available i w <-> probe i w = true).
Proof.
  intros Hok. unfold Loop.available. simpl. destruct (helds !! i) as [held|] eqn:Hi; cycle 1.
  { unfold stream_poll, probe. rewrite Hi. simpl. split; [done|by eexists]. }
  destruct (open_slot i held w Hok Hi) as [s Hs]. rewrite (probe_ready i held s w Hi Hs).
  destruct (poll_slot (bus w) held TASK s Hs) as (s' & _ & _ & Hp). unfold stream_poll. rewrite Hi.
  destruct (poll_next (bus w) held TASK) as [b [[d|]|]]; simpl in *.
  - split; [done|by eexists].
  - split; [done|by eexists].
  - destruct Hp as (_ & _ & _ & Hq & Hc). split; [by intros [??]|by intros [?|?]].
Qed.

Lemma change_keeps_ok c (w : BusWorld) : bus_ok w -> bus_ok (Loop.change c w).1.
Proof.
  intros Hok. pose proof Hok as (Hwf & Hnd & Hf). destruct c as [e|j].
  - split_and!; [by apply event_wf|done|]. simpl. destruct (bus_event e w) as [w' wk] eqn:Ee.
    destruct (event_touches _ _ _ _ Ee) as (woken & Ht & _). eapply Forall_impl; [exact Hf|].
    intros held [s Hs]. destruct (Ht held s Hs) as (s' & Hs' & _). by exists s'.
  - pose proof (poll_wf j w Hwf) as Hwf'.
    assert (Hs : forall i held, helds !! i = Some held -> is_Some (slot (bus (stream_poll j w).1.1) held)).
    { intros i held Hi. destruct (open_slot i held w Hok Hi) as [s Hs]. destruct (decide (i = j)) as [<-|Hne].
      - destruct (poll_slot (bus w) held TASK s Hs) as (s' & Hs' & _). unfold stream_poll. rewrite Hi.
        destruct (poll_next (bus w) held TASK) as [b [[d|]|]]; simpl in *; by eexists.
      - rewrite (poll_touches i j w held Hnd Hne Hi). by eexists. }
    unfold Loop.change. simpl. destruct (stream_poll j w) as [[w1 p] wk]. simpl in *.
    split_and!; [done|done|]. apply Forall_lookup. intros i held Hi. by eapply Hs.
Qed.

(** The waker in a subscription's slot. *)
Lemma registered_slot i held s (w : BusWorld) :
  helds !! i = Some held -> slot (bus w) held = Some s ->
  (reads_parked i w = true <-> wr_held (reader s) = Some TASK).
Proof. intros Hi Hs. unfold reads_parked. rewrite Hi. simpl. rewrite Hs. apply bool_decide_eq_true. Qed.

Lemma registered_open i (w : BusWorld) : reads_parked i w = true -> exists held, helds !! i = Some held.
Proof. unfold reads_parked. destruct (helds !! i) as [held|]; [by exists held|done]. Qed.

#[export] Instance bus_lawful : Loop.LawfulSource bus_ok.
Proof.
  split.
  - apply change_keeps_ok.
  - intros i w Hok Ha. by apply stream_available.
  - intros i w w' wk Hok Hp. pose proof (change_keeps_ok (Loop.ByPoll i) w Hok) as Hok'.
    simpl in Hok', Hp. rewrite Hp in Hok'. simpl in Hok'.
    unfold stream_poll in Hp. destruct (helds !! i) as [held|] eqn:Hi; [|done].
    destruct (open_slot i held w Hok Hi) as [s Hs].
    destruct (poll_slot (bus w) held TASK s Hs) as (s' & Hs' & _ & Hr).
    destruct (poll_next (bus w) held TASK) as [b [[d|]|]]; try done. injection Hp as <- <-. simpl in *.
    destruct Hr as (Hq & Hst & Hr & Hi0 & Hc). split; [by apply (registered_slot i held s')|].
    intros Ha. apply stream_available in Ha; [|done].
    apply (probe_ready i held s') in Ha; [|done|done]. destruct Ha as [Ha|Ha]; [by rewrite Hq in Ha|congruence].
  - intros i w Hok Hreg Hmay. destruct (registered_open i w Hreg) as [held Hi].
    destruct (open_slot i held w Hok Hi) as [s Hs]. simpl in Hreg, Hmay. apply (registered_slot i held s w Hi Hs) in Hreg.
    assert (Hn : ~ (bq_items (queue s) <> [] \/ standing s = Closed)).
    { rewrite <-(probe_ready i held s w Hi Hs). congruence. }
    simpl. unfold stream_poll. rewrite Hi. unfold poll_next. rewrite Hs.
    destruct (bq_items (queue s)) as [|d l] eqn:Eq; [|destruct Hn; by left].
    rewrite (bq_pop_empty _ Eq), bool_decide_false by (intros ?; apply Hn; by right).
    rewrite (wr_register_same _ _ Hreg). apply slot_Some in Hs as (Hl & _).
    destruct w as [[lv sl] su ms], s. unfold with_bus, set_slot. simpl in *. by rewrite list_insert_id.
  - intros i c w w' wk Hok Hf Hreg Hc. destruct (registered_open i w Hreg) as [held Hi].
    destruct (open_slot i held w Hok Hi) as [s Hs]. apply (registered_slot i held s w Hi Hs) in Hreg.
    destruct (foreign_change c i held s w w' wk Hok Hf Hi Hs Hc) as (s' & Hs' & [(_ & _ & Hr)|[Hn Hw]]).
    + left. apply (registered_slot i held s' w' Hi Hs'). by rewrite Hr.
    + right. split; [by apply Hw|]. by apply (probe_ready i held s' w' Hi Hs').
  - intros i c w w' wk Hok Hf Hreg Hna Hc Ha. destruct (registered_open i w Hreg) as [held Hi].
    destruct (open_slot i held w Hok Hi) as [s Hs]. apply (registered_slot i held s w Hi Hs) in Hreg.
    pose proof (change_keeps_ok c w Hok) as Hok'. rewrite Hc in Hok'. simpl in Hok'.
    destruct (foreign_change c i held s w w' wk Hok Hf Hi Hs Hc) as (s' & Hs' & [(Hq & Hst & _)|[_ Hw]]); [|by apply Hw].
    destruct Hna. apply stream_available; [done|]. apply (probe_ready i held s w Hi Hs).
    apply stream_available, (probe_ready i held s' w' Hi Hs') in Ha; [|done]. by rewrite <-Hq, <-Hst.
Qed.

#[export] Instance bus_stable : Loop.StableProbe bus_ok.
Proof.
  split. intros i c w Hok Hf Hmay. simpl in *. destruct (Loop.change c w) as [w' wk] eqn:Hc. simpl.
  destruct (helds !! i) as [held|] eqn:Hi; [|unfold probe; by rewrite Hi].
  destruct (open_slot i held w Hok Hi) as [s Hs]. apply (probe_ready i held s w Hi Hs) in Hmay.
  destruct (foreign_change c i held s w w' wk Hok Hf Hi Hs Hc) as (s' & Hs' & Hu).
  apply (probe_ready i held s' w' Hi Hs'). by destruct Hu as [(-> & -> & _)|[? _]].
Qed.

(** A subscription of an open bus that has nothing and holds the task's waker. *)
Definition quiet (i : nat) (w : BusWorld) : Prop :=
  exists held s, helds !! i = Some held /\ slot (bus w) held = Some s /\
    bq_items (queue s) = [] /\ standing s = Open /\ wr_held (reader s) = Some TASK.

Lemma registered_quiet i (w : BusWorld) :
  bus_ok w -> Loop.registered i w = true -> ~ Loop.available i w -> quiet i w.
Proof.
  intros Hok Hreg Hna. destruct (registered_open i w Hreg) as [held Hi]. destruct (open_slot i held w Hok Hi) as [s Hs].
  rewrite stream_available, (probe_ready i held s) in Hna by done. exists held, s.
  split_and!; [done|done|..|by apply (registered_slot i held s w Hi Hs)].
  - destruct (bq_items (queue s)); [done|]. destruct Hna. by left.
  - apply slot_Some in Hs as (_ & _ & Hst). destruct (standing s); [done|done|]. destruct Hna. by right.
Qed.

(** ** An app over the bus *)

Section app.
Context (limit : nat) (at_once : Message -> bool) (handled : Message -> list BusEvent) (halts : Message -> bool).

(** C12. An app over the fixed bus sleeps through nothing: whatever is published, settled, requeued or
    shut down in whatever order, by handlers or by other tasks, while the app's task sleeps and is not
    marked to run every loop has ended, or waits for a handler that is not done, or waits for its
    stream, whose subscription is open with an empty queue and holds the task's waker, the app not
    being stopped. *)
Theorem bus_app_sleeps_only_when_idle gates (w0 : BusWorld) w k su :
  bus_ok w0 -> Loop.reachable limit at_once handled halts gates w0 (seq 0 (length helds)) w ->
  Loop.phase w = Loop.Asleep -> Loop.woken (Loop.shared w) = false -> Loop.subs w !! k = Some su ->
  match Loop.loop su with
  | Loop.Ended | Loop.Handling _ false => True
  | Loop.Turning true => quiet (Loop.id su) (Loop.source (Loop.shared w)) /\ Loop.stop (Loop.shared w) = false
  | _ => False
  end.
Proof.
  intros Hok Hr Hph Hwk Hk. assert (Hnd : NoDup (seq 0 (length helds))) by apply NoDup_seq.
  pose proof (Loop.app_source _ _ _ (Loop.reachable_app_ok bus_ok _ _ _ _ _ _ _ _ Hok Hnd Hr)) as Hokw.
  pose proof (Loop.app_rests_asleep bus_ok _ _ _ _ gates w0 _ w k su Hok Hnd Hr Hph Hwk Hk) as Hs.
  destruct (Loop.loop su) as [|[]|m []|]; try done. destruct Hs as (Hna & Hreg & Hst). split; [|done].
  by apply registered_quiet.
Qed.
End app.

(** ** A group of workers over the bus *)

Section group.
Context {C : Type -> Type} `{TaskChannel C} `{!TaskChannelLaws C}.
Context (partition_key : Message -> option bytes) (fnv : bytes -> N) (COUNT : nat) (keyed : bool).
Context (limit : nat) (at_once : Message -> bool) (handled : Message -> list BusEvent) (halts : Message -> bool).
Context (me : nat) (flagged : bool).

(** C13. Nothing is slept through by a group of workers over the fixed bus: while the task sleeps and
    is not marked to run, every worker waits on an empty mailbox, runs a handler that is not done or
    has ended, and the loop waits for its stream, whose subscription is open with an empty queue and
    holds the task's waker, with the app not stopped; or for a free worker with every worker in a
    handler; or for the one worker it has a delivery or the end for, which is in a handler; or has
    ended while a worker is in its last handler. *)
Theorem bus_group_sleeps_only_when_idle gates (w0 : BusWorld) w :
  0 < COUNT -> bus_ok w0 ->
  Group.reachable (C := C) partition_key fnv COUNT keyed limit at_once handled halts me flagged gates w0 w ->
  Group.phase w = Group.Asleep -> Loop.woken (Group.shared w) = false ->
  (forall k t, Group.workers (Group.group w) !! k = Some t ->
     match Group.pc t with
     | Group.Receiving => Group.items t = []
     | Group.Handling _ ends => ends = false
     | Group.Ended => True
     end) /\
  match Group.feed (Group.group w) with
  | Group.Pulling true => quiet me (Loop.source (Group.shared w)) /\ Loop.stop (Group.shared w) = false
  | Group.Acquiring =>
      Loop.stop (Group.shared w) = false /\
      forall k t, Group.workers (Group.group w) !! k = Some t -> exists m, Group.pc t = Group.Handling m false
  | Group.Sending k _ | Group.Closing k =>
      exists t m, Group.workers (Group.group w) !! k = Some t /\ Group.pc t = Group.Handling m false
  | Group.Done => exists k t m, Group.workers (Group.group w) !! k = Some t /\ Group.pc t = Group.Handling m false
  | _ => False
  end.
Proof.
  intros Hc Hok Hr Hph Hwk.
  pose proof (Group.group_source_ok _ _ _ _ _ _ _ _ _ _ bus_ok Hc gates w0 w Hok Hr) as Hokw.
  destruct (Group.group_rests_asleep _ _ _ _ _ _ _ _ _ _ bus_ok Hc gates w0 w Hok Hr Hph Hwk) as [Hw Hf].
  split; [exact Hw|]. destruct (Group.feed (Group.group w)) as [| |[]|k m|k|]; try done.
  destruct Hf as (Hna & Hreg & Hst). split; [by apply registered_quiet|done].
Qed.
End group.
End bus.

(** ** Witness: two subscriptions of one bus; a delivery of the first is requeued until its handler
    has seen it twice, and its handler publishes to the second *)

#[local] Instance headers_eq : EqDecision HeaderMap.HeaderMap.
Proof. solve_decision. Defined.
#[local] Instance payload_eq : EqDecision Buf.FixedBuf.
Proof. solve_decision. Defined.
#[local] Instance delivery_eq : EqDecision (@Delivery HeaderMap.HeaderMap).
Proof. solve_decision. Defined.
#[local] Instance small_message_eq : EqDecision (@Message HeaderMap.HeaderMap).
Proof. solve_decision. Defined.

Abbreviation SmallBus := (@FixedBus.World LQueue (option nat) HeaderMap.HeaderMap).
Abbreviation SmallMessage := (@Message HeaderMap.HeaderMap).

Definition opening : list (@Op HeaderMap.HeaderMap) :=
  [Connect; Subscribe (Static "temp"); Subscribe (Static "alarm")].
Definition opened_bus : SmallBus := default small_initial (play small_initial opening).
Definition both : list Held := [mk_held 0 1; mk_held 1 1].

Lemma app_opened_reachable : FixedBus.reachable 2 64 2 opened_bus.
Proof. apply (play_reachable opening small_initial); [apply reach_init|by vm_compute]. Qed.
Lemma opened_ok : bus_ok 2 both opened_bus.
Proof.
  split_and!; [apply (reachable_wf 2 64 2), app_opened_reachable|repeat constructor; set_solver|].
  repeat constructor; by eexists.
Qed.

Definition handle_small (m : SmallMessage) : list (@BusEvent HeaderMap.HeaderMap) :=
  match index (msg_held m) with
  | 0 =>
      if (deliveries (delivery m) <? 2)%N then [Settles m (VNack true)]
      else [Publishes "alarm" (as_bytes "hot") HeaderMap.new; Settles m VAck]
  | _ => [Settles m VAck]
  end.

Definition small_schedule : list (@Loop.Actor (@BusEvent HeaderMap.HeaderMap)) :=
  let pass := [Loop.Begin; Loop.PollNext; Loop.PollNext; Loop.PollNext] in
  pass ++ [Loop.Happens (Publishes "temp" (as_bytes "41") HeaderMap.new)] ++ pass ++ pass.

#[local] Instance small_source : Loop.Source SmallBus nat SmallMessage Empty_set (@BusEvent HeaderMap.HeaderMap) :=
  bus_source 2 64 both.

Definition small_app : Loop.World (S := SmallBus) :=
  default (Loop.initial opened_bus (seq 0 (length both)))
    (Loop.run Loop.YIELD_AFTER (fun _ => true) handle_small (fun _ => false) true
       (Loop.initial opened_bus (seq 0 (length both))) small_schedule).

Lemma small_app_reachable :
  Loop.reachable Loop.YIELD_AFTER (fun _ => true) handle_small (fun _ => false) true opened_bus (seq 0 (length both)) small_app.
Proof.
  unfold small_app. destruct (Loop.run _ _ _ _ _ _ _) as [w|] eqn:Ew; [|apply Loop.reach_initial].
  eapply Loop.loop_run_reachable; [apply Loop.reach_initial|exact Ew].
Qed.

Lemma small_app_facts :
  Loop.phase small_app = Loop.Asleep /\ Loop.woken (Loop.shared small_app) = false /\
  (length <$> (Loop.out <$> Loop.subs small_app)) = [2; 1] /\
  (fun su => (Loop.loop su, both !! Loop.id su)) <$> (Loop.subs small_app !! 0) =
    Some (Loop.Turning true, Some (mk_held 0 1)) /\
  is_Some (slot (bus (Loop.source (Loop.shared small_app))) (mk_held 0 1)).
Proof. vm_compute. split_and!; try reflexivity. by eexists. Qed.

Lemma bus_app_sleeps_only_when_idle_witness :
  exists held s, both !! 0 = Some held /\ slot (bus (Loop.source (Loop.shared small_app))) held = Some s /\
    bq_items (queue s) = [] /\ standing s = Open /\ wr_held (reader s) = Some TASK.
Proof.
  destruct small_app_facts as (Hph & Hwk & _ & Hk & _).
  destruct (Loop.subs small_app !! 0) as [su|] eqn:Es; [|discriminate Hk]. injection Hk as Hl _.
  pose proof (bus_app_sleeps_only_when_idle 2 64 both Loop.YIELD_AFTER (fun _ => true) handle_small (fun _ => false) true
    opened_bus small_app 0 su opened_ok small_app_reachable Hph Hwk Es) as Hq.
  rewrite Hl in Hq. assert (Hid : Loop.id su = 0) by (vm_compute in Es; by injection Es as <-).
  rewrite Hid in Hq. exact (proj1 Hq).
Defined.

(** The subscription of index 0 served by a group of two: a delivery in a handler that takes its time. *)
Definition small_group_run (schedule : list (@Group.Actor nat (@BusEvent HeaderMap.HeaderMap))) :=
  Group.run (C := LTaskChannel) (fun _ => None) (fun _ => 0%N) 2 false Loop.YIELD_AFTER
    (fun m => negb (deliveries (delivery m) =? 1)%N) handle_small (fun _ => false) 0 true true
    (Group.initial 2 false opened_bus) schedule.
Definition group_schedule : list (@Group.Actor nat (@BusEvent HeaderMap.HeaderMap)) :=
  [Group.Begin; Group.Polls; Group.Happens (Loop.ByEvent (Publishes "temp" (as_bytes "41") HeaderMap.new)); Group.Begin; Group.Polls; Group.Begin; Group.Polls].
Definition small_group := default (Group.initial 2 false opened_bus) (small_group_run group_schedule).

Lemma small_group_reachable :
  Group.reachable (C := LTaskChannel) (fun _ => None) (fun _ => 0%N) 2 false Loop.YIELD_AFTER
    (fun m => negb (deliveries (delivery m) =? 1)%N) handle_small (fun _ => false) 0 true true opened_bus small_group.
Proof.
  unfold small_group, small_group_run. destruct (Group.run _ _ _ _ _ _ _ _ _ _ _ _ _) as [w|] eqn:Ew; [|apply Group.reach_initial].
  eapply Group.group_run_reachable; [apply Group.reach_initial|exact Ew].
Qed.

Lemma bus_group_sleeps_only_when_idle_witness :
  quiet both 0 (Loop.source (Group.shared small_group)) /\
  exists t m, Group.workers (Group.group small_group) !! 0 = Some t /\ Group.pc t = Group.Handling m false.
Proof.
  pose proof (bus_group_sleeps_only_when_idle 2 64 both (fun _ => None) (fun _ => 0%N) 2 false Loop.YIELD_AFTER
    (fun m => negb (deliveries (delivery m) =? 1)%N) handle_small (fun _ => false) 0 true true opened_bus small_group
    ltac:(lia) opened_ok small_group_reachable ltac:(vm_compute; reflexivity) ltac:(vm_compute; reflexivity)) as [_ Hf].
  assert (Hfeed : Group.feed (Group.group small_group) = Group.Pulling true) by (vm_compute; reflexivity).
  rewrite Hfeed in Hf. split; [exact (proj1 Hf)|].
  destruct (Group.workers (Group.group small_group) !! 0) as [t|] eqn:Et; [|vm_compute in Et; discriminate Et].
  vm_compute in Et. injection Et as <-. eexists _, _. split; reflexivity.
Defined.
End AppBus.
