(* ===== verification/EmbassyApp.v ===== *)
(** * An embedded app's life ([runtime-embassy/src/app.rs], [mounts.rs], [hooks.rs], [control.rs],
    [host/boxed.rs], [host/slot.rs]; the balanced lists of [runtime/src/router/fold.rs])

    [Mounts]: the typed list of brokers balanced into a tree, connected and opened in the order they
    were added and shut down in the reverse order.  [Control]: the stop and the health device code
    shares with the app, interleaved by critical section.  [Host] and [Slot]: where a delivery's
    continuations run, with a heap and without.  [App]: the whole life of an app, poll by poll.
    What a broker, a hook, a loop or a continuation does is the environment's choice. *)
From Equations Require Import Equations.
From S2P Require Import Prelude RustStd Queue.
#[local] Set Equations Transparent.

Module Mounts.

(** ** The typed list of brokers, and the tree it becomes *)

(** [()], a [BrokerMount], or a pair with the later registration on the left. *)
Inductive Mounts :=
  | NoMounts
  | BrokerMount (broker : nat)
  | Pair (later earlier : Mounts).

(** [Balance::pair]: one pass over the list, the head last added. *)
Fixpoint pair (l : list Mounts) : list Mounts :=
  match l with
  | first :: second :: rest => Pair first second :: pair rest
  | _ => l
  end.

Lemma pair_length l : length (pair l) <= length l.
Proof.
  induction l as [l IH] using (induction_ltof1 _ length). destruct l as [|x [|y rest]]; [done|done|].
  cbn [pair length]. specialize (IH rest). unfold ltof in IH. cbn [length] in IH. lia.
Qed.

(** [Balance::balance]: passes until one element remains. *)
Equations? balance (l : list Mounts) : Mounts by wf (length l) lt :=
  balance [] := NoMounts;
  balance [last] := last;
  balance (first :: second :: rest) := balance (pair (first :: second :: rest)).
Proof. pose proof (pair_length rest). cbn [pair length]. lia. Qed.

(** [EmbeddedApp::with_broker], one call after another. *)
Definition with_broker (mounts : list Mounts) (broker : nat) : list Mounts := BrokerMount broker :: mounts.
Definition registered (brokers : list nat) : list Mounts := foldl with_broker [] brokers.

(** ** Starting and closing *)

Inductive Event :=
  | Connects (broker : nat)
  | Opens (broker : nat)
  | Closes (broker : nat).

Inductive RunError {E : Type} :=
  | Connect (broker : nat) (source : E)
  | Subscribe (broker : nat) (source : E)
  | Startup (source : E)
  | Failed.
Arguments RunError : clear implicits.

Section start.
Context {E : Type} (connect_fails open_fails : nat -> option E).

(** [CloseAll::close_all]; that a shutdown fails is only logged. *)
Fixpoint close_all (t : Mounts) : list Event :=
  match t with
  | NoMounts => []
  | BrokerMount b => [Closes b]
  | Pair later earlier => close_all later ++ close_all earlier
  end.

(** [StartMounts::connect]. *)
Fixpoint connect (t : Mounts) : list Event * result unit (RunError E) :=
  match t with
  | NoMounts => ([], Ok tt)
  | BrokerMount b => ([Connects b], match connect_fails b with Some e => Err (Connect b e) | None => Ok tt end)
  | Pair later earlier =>
      match connect earlier with
      | (tr, Err err) => (tr, Err err)
      | (tr, Ok _) =>
          match connect later with
          | (tr', Ok _) => (tr ++ tr', Ok tt)
          | (tr', Err err) => (tr ++ tr' ++ close_all earlier, Err err)
          end
      end
  end.

(** [OpenLinked::open]. *)
Fixpoint open (t : Mounts) : list Event * result unit (RunError E) :=
  match t with
  | NoMounts => ([], Ok tt)
  | BrokerMount b => ([Opens b], match open_fails b with Some e => Err (Subscribe b e) | None => Ok tt end)
  | Pair later earlier =>
      match open earlier with
      | (tr, Err err) => (tr, Err err)
      | (tr, Ok _) => let (tr', r) := open later in (tr ++ tr', r)
      end
  end.

(** [StartMounts::start]. *)
Definition start (t : Mounts) : list Event * result unit (RunError E) :=
  match connect t with
  | (tr, Err err) => (tr, Err err)
  | (tr, Ok _) =>
      match open t with
      | (tr', Ok _) => (tr ++ tr', Ok tt)
      | (tr', Err err) => (tr ++ tr' ++ close_all t, Err err)
      end
  end.

(** ** The tree is the list *)

(** The brokers of a tree in the order they were registered. *)
Fixpoint brokers (t : Mounts) : list nat :=
  match t with
  | NoMounts => []
  | BrokerMount b => [b]
  | Pair later earlier => brokers earlier ++ brokers later
  end.
Fixpoint height (t : Mounts) : nat :=
  match t with
  | Pair later earlier => S (height later `max` height earlier)
  | _ => 0
  end.

Lemma list_pairs_ind (P : list Mounts -> Prop) :
  P [] -> (forall x, P [x]) -> (forall x y l, P l -> P (x :: y :: l)) -> forall l, P l.
Proof.
  intros H0 H1 H2 l. induction l as [l IH] using (induction_ltof1 _ length). destruct l as [|x [|y rest]]; [done|done|].
  apply H2, IH. unfold ltof. cbn. lia.
Qed.

Lemma pair_brokers l : rev (pair l) ≫= brokers = rev l ≫= brokers.
Proof.
  induction l as [|x|x y l IH] using list_pairs_ind; [done|done|]. cbn [pair rev].
  rewrite !bind_app, IH. cbn. by rewrite !app_nil_r, app_assoc.
Qed.

Lemma balance_brokers l : brokers (balance l) = rev l ≫= brokers.
Proof.
  funelim (balance l).
  - done.
  - cbn. by rewrite app_nil_r.
  - rewrite <- pair_brokers. assumption.
Qed.

Lemma pair_length_half l : length (pair l) = Nat.div2 (S (length l)).
Proof. induction l as [|x|x y l IH] using list_pairs_ind; [done|done|]. cbn [pair length]. rewrite IH. by destruct (length l). Qed.

Lemma pair_height l h : Forall (fun t => height t <= h) l -> Forall (fun t => height t <= S h) (pair l).
Proof.
  induction l as [|x|x y l IH] using list_pairs_ind; intros Hl; [done| |].
  - inversion_clear Hl. constructor; [lia|done].
  - inversion_clear Hl as [|? ? Hx Hl']. inversion_clear Hl' as [|? ? Hy Hl'']. cbn [pair]. constructor; [cbn; lia|by apply IH].
Qed.

Lemma halved_log n : 2 <= n -> S (Nat.log2_up (Nat.div2 (S n))) <= Nat.log2_up n.
Proof.
  intros Hn. pose proof (Nat.log2_up_spec n ltac:(lia)) as [_ Hle]. pose proof (Nat.log2_up_pos n ltac:(lia)).
  destruct (Nat.log2_up n) as [|k]; [lia|]. apply le_n_S. rewrite <- (Nat.log2_up_pow2 k) by lia. apply Nat.log2_up_le_mono.
  rewrite Nat.div2_div. rewrite Nat.pow_succ_r' in Hle. apply Nat.lt_succ_r, Nat.Div0.div_lt_upper_bound. lia.
Qed.

(** The levels of the tree grow as the logarithm of the list. *)
Lemma balance_height l h : Forall (fun t => height t <= h) l -> height (balance l) <= h + Nat.log2_up (length l).
Proof.
  revert h. funelim (balance l); intros h Hl.
  - cbn. lia.
  - inversion_clear Hl. cbn. lia.
  - apply pair_height in Hl. match goal with IH : forall h, _ -> height _ <= _ |- _ => specialize (IH (S h) Hl) end.
    change (Pair first second :: pair rest) with (pair (first :: second :: rest)) in *. rewrite pair_length_half in *. pose proof (halved_log (length (first :: second :: rest)) ltac:(cbn; lia)). lia.
Qed.

(** ** A start is what its list says *)

(** What a plain loop over the brokers would do: connect them one by one, and at the first that
    fails close those connected before it, last first; then open them, and at the first that fails
    close them all, last first. *)
Fixpoint connect_list (connected todo : list nat) : list Event * result unit (RunError E) :=
  match todo with
  | [] => ([], Ok tt)
  | b :: todo =>
      match connect_fails b with
      | Some e => (Connects b :: (Closes <$> connected), Err (Connect b e))
      | None => let (tr, r) := connect_list (b :: connected) todo in (Connects b :: tr, r)
      end
  end.
Fixpoint open_list (todo : list nat) : list Event * result unit (RunError E) :=
  match todo with
  | [] => ([], Ok tt)
  | b :: todo =>
      match open_fails b with
      | Some e => ([Opens b], Err (Subscribe b e))
      | None => let (tr, r) := open_list todo in (Opens b :: tr, r)
      end
  end.
Definition start_list (bs : list nat) : list Event * result unit (RunError E) :=
  match connect_list [] bs with
  | (tr, Err err) => (tr, Err err)
  | (tr, Ok _) =>
      match open_list bs with
      | (tr', Ok _) => (tr ++ tr', Ok tt)
      | (tr', Err err) => (tr ++ tr' ++ (Closes <$> rev bs), Err err)
      end
  end.

Lemma close_all_rev t : close_all t = Closes <$> rev (brokers t).
Proof.
  induction t as [|b|later IHl earlier IHe]; [done|done|]. cbn [close_all brokers]. by rewrite rev_app_distr, fmap_app, IHl, IHe.
Qed.

Lemma connect_list_app c l1 l2 : connect_list c (l1 ++ l2) =
  match connect_list c l1 with
  | (tr, Err err) => (tr, Err err)
  | (tr, Ok _) => let (tr', r) := connect_list (rev l1 ++ c) l2 in (tr ++ tr', r)
  end.
Proof.
  revert c. induction l1 as [|b l1 IH]; intros c; cbn [app connect_list rev]; [by destruct (connect_list c l2)|].
  destruct (connect_fails b); [done|]. rewrite IH, <- app_assoc. cbn [app].
  destruct (connect_list (b :: c) l1) as [tr [[]|err]]; [|done]. by destruct (connect_list _ l2).
Qed.

(** A tree connected under others: they are closed after its own. *)
Definition closing (c : list nat) (r : list Event * result unit (RunError E)) : list Event * result unit (RunError E) :=
  match r with (tr, Ok u) => (tr, Ok u) | (tr, Err err) => (tr ++ (Closes <$> c), Err err) end.
Lemma connect_list_under c l : connect_list c l = closing c (connect_list [] l).
Proof.
  assert (H : forall c0, connect_list (c0 ++ c) l = closing c (connect_list c0 l)).
  { induction l as [|b l IH]; intros c0; cbn [connect_list]; [done|].
    destruct (connect_fails b); cbn [closing]; [by rewrite fmap_app|].
    rewrite (app_comm_cons c0 c b), IH. by destruct (connect_list (b :: c0) l) as [tr [[]|err]]. }
  apply (H []).
Qed.

Lemma connect_tree t : connect t = connect_list [] (brokers t).
Proof.
  induction t as [|b|later IHl earlier IHe]; cbn [connect brokers connect_list]; [done|by destruct (connect_fails b)|].
  rewrite connect_list_app, IHe, IHl, app_nil_r. destruct (connect_list [] (brokers earlier)) as [tr [[]|err]]; [|done].
  rewrite (connect_list_under (rev _)), close_all_rev. by destruct (connect_list [] (brokers later)) as [tr' [[]|err]].
Qed.

Lemma open_list_app l1 l2 : open_list (l1 ++ l2) =
  match open_list l1 with
  | (tr, Err err) => (tr, Err err)
  | (tr, Ok _) => let (tr', r) := open_list l2 in (tr ++ tr', r)
  end.
Proof.
  induction l1 as [|b l1 IH]; cbn [app open_list]; [by destruct (open_list l2)|].
  destruct (open_fails b); [done|]. rewrite IH. destruct (open_list l1) as [tr [[]|err]]; [|done]. by destruct (open_list l2).
Qed.

Lemma open_tree t : open t = open_list (brokers t).
Proof.
  induction t as [|b|later IHl earlier IHe]; cbn [open brokers open_list]; [done|by destruct (open_fails b)|].
  rewrite open_list_app, IHe, IHl. by destruct (open_list (brokers earlier)) as [tr [[]|err]].
Qed.

Lemma start_tree t : start t = start_list (brokers t).
Proof. unfold start, start_list. by rewrite connect_tree, open_tree, close_all_rev. Qed.

Lemma registered_brokers bs : brokers (balance (registered bs)) = bs.
Proof.
  rewrite balance_brokers. unfold registered.
  assert (H : forall l, rev (foldl with_broker l bs) ≫= brokers = (rev l ≫= brokers) ++ bs).
  { induction bs as [|b bs IH]; intros l; cbn [foldl]; [by rewrite app_nil_r|]. rewrite IH. unfold with_broker. cbn [rev].
    rewrite bind_app, <- app_assoc. by cbn. }
  by rewrite H.
Qed.

(** The brokers of an embedded app, re-associated into a tree of pairs, start and close as the
    plain list of their registrations: they connect in order up to the first that fails, and those
    connected are then closed, last first; they open in order, and where one fails all are closed;
    a close takes them all in the reverse order.  The tree is no deeper than the logarithm of the
    list, which bounds how deep the futures nest. *)
Theorem tree_starts_as_the_list bs :
  let t := balance (registered bs) in
  start t = start_list bs /\ close_all t = Closes <$> rev bs /\ height t <= Nat.log2_up (length bs).
Proof.
  cbv zeta. rewrite start_tree, close_all_rev, registered_brokers. split_and!; [done|done|].
  assert (H : forall l, Forall (fun t => height t <= 0) l -> Forall (fun t => height t <= 0) (foldl with_broker l bs)).
  { induction bs as [|b bs IH]; intros l Hl; cbn [foldl]; [done|]. apply IH. by constructor. }
  assert (Hlen : length (registered bs) = length bs).
  { unfold registered. assert (Hl : forall l, length (foldl with_broker l bs) = length l + length bs); [|by rewrite Hl].
    clear H. induction bs as [|b bs IH]; intros l; cbn [foldl length]; [lia|]. rewrite IH. cbn. lia. }
  rewrite <- Hlen. pose proof (balance_height (registered bs) 0 (H [] ltac:(done))). lia.
Qed.
End start.
End Mounts.

Module Control.

(** ** The control an app shares with the device's code *)

Inductive Health := Starting | Running | ShuttingDown | Stopped | Failed.
#[export] Instance Health_eq_dec : EqDecision Health.
Proof. solve_decision. Defined.

Definition encode (h : Health) : nat :=
  match h with Starting => 0 | Running => 1 | ShuttingDown => 2 | Stopped => 3 | Failed => 4 end.
Definition decode (raw : nat) : Health :=
  match raw with 0 => Starting | 1 => Running | 2 => ShuttingDown | 3 => Stopped | _ => Failed end.

Definition WAITERS : nat := 4.

Section control.
Context {W : Type} `{MultiWakerLaws W}.

Record Control := mk_control {
  stopped : bool;
  health_raw : nat;
  ended : bool;
  waiters : W;
}.
Definition new_control : Control := mk_control false (encode Starting) false (mw_new WAITERS).
Definition health (c : Control) : Health := decode (health_raw c).
Definition stream_ended (c : Control) : Control := mk_control (stopped c) (health_raw c) true (waiters c).

(** [Control::advance], in one critical section; the tasks it wakes. *)
Definition forward (now next : Health) : bool :=
  match now with
  | Failed | Stopped => false
  | _ => bool_decide (next = Failed) || (encode now <? encode next)
  end.
Definition advance (c : Control) (next : Health) : Control * list nat :=
  let (waiters', woken) := mw_wake (waiters c) in
  (mk_control (stopped c) (if forward (health c) next then encode next else health_raw c) (ended c) waiters', woken).
Definition register (c : Control) (task : nat) : Control * list nat :=
  let (waiters', woken) := mw_register (waiters c) task in
  (mk_control (stopped c) (health_raw c) (ended c) waiters', woken).
Definition store_stopped (c : Control) : Control := mk_control true (health_raw c) (ended c) (waiters c).

(** [Control::stop], [Halt::fail]: the flag, then the health. *)
Definition stop (c : Control) : Control * list nat := advance (store_stopped c) ShuttingDown.
Definition fail (c : Control) : Control * list nat := advance (store_stopped c) Failed.

(** What a task waits for: [Stopping], or [changed(seen)]. *)
Inductive Wait := Stopping | Changed (seen : Health).
Definition ready (c : Control) (w : Wait) : bool :=
  match w with
  | Stopping => stopped c
  | Changed seen => negb (bool_decide (health c = seen))
  end.

(** ** Tasks, the device's code and the app, interleaved *)

(** Where a task is in the poll of its wait. *)
Inductive Pc := Elsewhere | Registered (w : Wait) | Asleep (w : Wait).
Record World := mk_world {
  control : Control;
  tasks : nat -> Pc;
  woken : list nat;
  (** calls that stored their flag and have yet to enter the critical section *)
  coming : list Health;
}.
Definition set_task (f : nat -> Pc) (t : nat) (pc : Pc) : nat -> Pc := fun t' => if decide (t' = t) then pc else f t'.

Inductive step : World -> World -> Prop :=
  | calls_stop s : step s (mk_world (store_stopped (control s)) (tasks s) (woken s) (ShuttingDown :: coming s))
  | calls_fail s : step s (mk_world (store_stopped (control s)) (tasks s) (woken s) (Failed :: coming s))
  | reports s next : next ∈ [Running; Stopped] -> step s (mk_world (control s) (tasks s) (woken s) (next :: coming s))
  | enters s l1 next l2 : coming s = l1 ++ next :: l2 ->
      step s (mk_world (advance (control s) next).1 (tasks s) (woken s ++ (advance (control s) next).2) (l1 ++ l2))
  | ends s : step s (mk_world (stream_ended (control s)) (tasks s) (woken s) (coming s))
  | polls s t w :
      step s (mk_world (register (control s) t).1 (set_task (tasks s) t (Registered w))
        (List.filter (fun t' => negb (bool_decide (t' = t))) (woken s) ++ (register (control s) t).2) (coming s))
  | reads s t w : tasks s t = Registered w ->
      step s (mk_world (control s) (set_task (tasks s) t (if ready (control s) w then Elsewhere else Asleep w)) (woken s) (coming s))
  | drops s t : step s (mk_world (control s) (set_task (tasks s) t Elsewhere) (woken s) (coming s)).

Definition initial : World := mk_world new_control (fun _ => Elsewhere) [] [].
Definition reachable (s : World) : Prop := rtc step initial s.

(** ** Nobody sleeps through a change *)

Record settled (s : World) : Prop := {
  held : forall t w, tasks s t = Registered w \/ tasks s t = Asleep w -> t ∈ mw_held (waiters (control s)) \/ t ∈ woken s;
  asleep : forall t w, tasks s t = Asleep w -> t ∉ woken s -> ready (control s) w = true -> w = Stopping /\ coming s <> [];
}.

Lemma settled_step s s' : settled s -> step s s' -> settled s'.
Proof.
  intros [Hheld Hasleep] Hstep. destruct Hstep as [s|s|s next Hn|s l1 next l2 Hc|s|s t w|s t w Ht|s t]; split; cbn [control tasks woken coming].
  - done.
  - intros t w Ht Hw Hr. destruct w as [|seen]; [done|]. by destruct (Hasleep t _ Ht Hw Hr).
  - done.
  - intros t w Ht Hw Hr. destruct w as [|seen]; [done|]. by destruct (Hasleep t _ Ht Hw Hr).
  - done.
  - intros t w Ht Hw Hr. by destruct (Hasleep t w Ht Hw Hr).
  - intros t w Ht. right. apply elem_of_app. destruct (Hheld t w Ht) as [Hh|]; [right|by left].
    unfold advance. destruct (mw_wake_held (waiters (control s))) as [_ Hall]. destruct (mw_wake _). by apply Hall.
  - intros t w Ht Hw _. destruct Hw. apply elem_of_app. destruct (Hheld t w (or_intror Ht)) as [Hh|]; [right|by left].
    unfold advance. destruct (mw_wake_held (waiters (control s))) as [_ Hall]. destruct (mw_wake _). by apply Hall.
  - done.
  - intros t w Ht Hw Hr. apply (Hasleep t w Ht Hw). by destruct w.
  - intros t' w'. unfold set_task, register. pose proof (mw_register_held (waiters (control s)) t) as Hreg.
    pose proof (mw_register_keeps (waiters (control s)) t t') as Hkeep. destruct (mw_register _ _) as [ws wk]. cbn in *.
    destruct (decide (t' = t)) as [->|Hne]; [by left|]. intros Ht. rewrite elem_of_app, !list_elem_of_In, List.filter_In, <- !list_elem_of_In.
    rewrite bool_decide_false by done. destruct (Hheld t' w' Ht) as [Hh|]; [destruct (Hkeep Hh)|]; auto.
  - intros t' w'. unfold set_task, register. destruct (mw_register _ _) as [ws wk] eqn:Hr.
    destruct (decide (t' = t)) as [->|Hne]; [done|]. cbn. rewrite elem_of_app, list_elem_of_In, List.filter_In, <- list_elem_of_In.
    rewrite bool_decide_false by done. intros Ht Hw Hready. apply (Hasleep t' w' Ht); [by intros ?; apply Hw; left|].
    by destruct w'.
  - intros t' w'. unfold set_task. destruct (decide (t' = t)) as [->|Hne]; [|by apply Hheld].
    intros _. by apply (Hheld t w); left.
  - intros t' w'. unfold set_task. destruct (decide (t' = t)) as [->|Hne]; [|by apply Hasleep].
    destruct (ready (control s) w) eqn:Hr; [done|]. intros [= <-] _. by rewrite Hr.
  - intros t' w'. unfold set_task. destruct (decide (t' = t)) as [->|Hne]; [by intros [|]|by apply Hheld].
  - intros t' w'. unfold set_task. destruct (decide (t' = t)) as [->|Hne]; [done|by apply Hasleep].
Qed.

Lemma reachable_settled s : reachable s -> settled s.
Proof.
  apply (rtc_ind_r (fun s => settled s)); [|intros; by eapply settled_step].
  split; [intros t w []; done|done].
Qed.

(** No task of a device sleeps through what it waits for: whatever stops, failures and reports
    come from whatever tasks, and however many wait at once, a task asleep that was not woken waits
    for a stop nobody asked for or for a health that has not moved, once no call is between storing
    its flag and its critical section (and such a call wakes it there). *)
Theorem control_misses_no_change s t w :
  reachable s -> tasks s t = Asleep w -> t ∉ woken s -> coming s = [] -> ready (control s) w = false.
Proof.
  intros Hr Ht Hw Hc. destruct (ready (control s) w) eqn:Hready; [exfalso|done].
  destruct (asleep s (reachable_settled s Hr) t w Ht Hw Hready) as [_ Hne]. done.
Qed.

(** ** The health moves forward *)

Lemma decode_encode h : decode (encode h) = h.
Proof. by destruct h. Qed.

Lemma advance_health c next : health (advance c next).1 = if forward (health c) next then next else health c.
Proof.
  unfold advance. destruct (mw_wake _). unfold health at 1. cbn [fst health_raw]. destruct (forward _ _); [apply decode_encode|done].
Qed.

Lemma forward_encode now next : forward now next = true -> encode now < encode next.
Proof.
  destruct now; cbn [forward]; try done; intros [Hn|Hn]%orb_true_iff; try (by apply Nat.ltb_lt in Hn);
    apply bool_decide_eq_true in Hn as ->; cbn; lia.
Qed.

(** The health never goes back, and once [Stopped] or [Failed] it is final; a failure that enters
    before the stop is done leaves [Failed]. *)
Lemma health_moves_forward s s' : step s s' ->
  encode (health (control s)) <= encode (health (control s')) /\
  (health (control s) = Stopped \/ health (control s) = Failed -> health (control s') = health (control s)).
Proof.
  intros Hstep. destruct Hstep as [s|s|s next Hn|s l1 next l2 Hc|s|s t w|s t w Ht|s t]; cbn [control]; try (by split; [done|]).
  - rewrite advance_health. destruct (forward _ _) eqn:Hf; [|by split].
    split; [apply forward_encode in Hf; lia|]. by intros [Hh|Hh]; rewrite Hh in Hf.
  - unfold register. destruct (mw_register _ _). by split.
Qed.

Lemma failure_is_told c : health c <> Stopped -> health (fail c).1 = Failed /\ stopped (fail c).1 = true.
Proof.
  intros Hns. unfold fail. rewrite advance_health. split.
  - change (health (store_stopped c)) with (health c). destruct (health c); done.
  - unfold advance. by destruct (mw_wake _).
Qed.

(** What a report means: a health past [Running] is one somebody asked for. *)
Lemma stopping_was_asked s : reachable s ->
  (health (control s) = ShuttingDown \/ health (control s) = Failed \/ ShuttingDown ∈ coming s \/ Failed ∈ coming s) ->
  stopped (control s) = true.
Proof.
  revert s. apply (rtc_ind_r (fun s => _ -> stopped (control s) = true)).
  - intros [|[|[Hin|Hin]]]; try done; by apply not_elem_of_nil in Hin.
  - intros s s' _ Hstep IH. destruct Hstep as [s|s|s next Hn|s l1 next l2 Hc|s|s t w|s t w Ht|s t]; cbn [control coming] in *; try done.
    + rewrite !elem_of_cons. apply elem_of_cons in Hn as [->|Hn%list_elem_of_singleton]; [|subst]; intros H1; apply IH; intuition done.
    + rewrite advance_health. intros H1. unfold advance. destruct (mw_wake _). cbn [fst stopped]. apply IH. rewrite Hc.
      rewrite !elem_of_app, !elem_of_cons in *. destruct (forward _ _); [|tauto]. destruct H1 as [->|[->|H1]]; tauto.
    + unfold register. destruct (mw_register _ _). done.
Qed.

End control.
End Control.

Module Host.

(** ** The continuations of an app with a heap

    Everything here runs in the app's one task, so a wake is the task's own mark. *)

Record Detached := mk_host {
  works : list nat;
  waker : bool;
  handed : bool;
  closed : bool;
  (** the driver's own: what it runs, and whether it registered the task *)
  running : list nat;
  known : bool;
}.
Definition on_clock : Detached := mk_host [] false false false [] false.

(** [Detached::hand], and whether it wakes the task. *)
Definition hand (h : Detached) (work : nat) : Detached * bool :=
  (mk_host (works h ++ [work]) (waker h) true (closed h) (running h) (known h), waker h).
Definition close (h : Detached) : Detached * bool :=
  (mk_host (works h) (waker h) (handed h) true (running h) (known h), waker h).

(** How the poll of one continuation goes: whether it ends, and what it hands over meanwhile. *)
Abbreviation Polls := (nat -> bool * list nat).

Fixpoint hand_all (h : Detached) (l : list nat) : Detached * bool :=
  match l with
  | [] => (h, false)
  | work :: l => let (h, w) := hand h work in let (h, w') := hand_all h l in (h, w || w')
  end.

(** [retain_mut]: those that stay and those that ended. *)
Fixpoint retain (polls : Polls) (h : Detached) (todo : list nat) : list nat * list nat * Detached * bool :=
  match todo with
  | [] => ([], [], h, false)
  | work :: todo =>
      let (ends, hands) := polls work in
      let (h, w) := hand_all h hands in
      let '(kept, ended, h, w') := retain polls h todo in
      if ends then (kept, work :: ended, h, w || w') else (work :: kept, ended, h, w || w')
  end.

(** One poll of [Detached::drive]: what ended, whether the task was woken meanwhile, and whether the
    driver is done. *)
Definition drive_poll (polls : Polls) (h : Detached) : Detached * list nat * bool * bool :=
  let h := if known h then h else mk_host (works h) true (handed h) (closed h) (running h) true in
  let closed_ := closed h in
  let h := if handed h then mk_host [] (waker h) false (closed h) (running h ++ works h) (known h) else h in
  let '(kept, ended, h, woken) := retain polls h (running h) in
  let h := mk_host (works h) (waker h) (handed h) (closed h) kept (known h) in
  (h, ended, woken, closed_ && bool_decide (kept = []) && negb (handed h)).

(** ** The host and its task *)

Record World := mk_world {
  host : Detached;
  woken : bool;
  done_ : bool;
  (** ghosts: everything handed over, everything that ended *)
  given : list nat;
  finished : list nat;
}.

(** What the continuations of a poll hand over. *)
Definition handed_by (polls : Polls) (l : list nat) : list nat := l ≫= fun work => (polls work).2.
Definition to_run (h : Detached) : list nat := running h ++ (if handed h then works h else []).

(** Deliveries hand over until the loops have ended and the host is closed; a continuation can at
    any poll of its own. *)
Inductive step : World -> World -> Prop :=
  | hands s work : closed (host s) = false ->
      step s (mk_world (hand (host s) work).1 (woken s || (hand (host s) work).2) (done_ s) (given s ++ [work]) (finished s))
  | closes s : step s (mk_world (close (host s)).1 (woken s || (close (host s)).2) (done_ s) (given s) (finished s))
  | polled s polls h ended w d : done_ s = false -> drive_poll polls (host s) = (h, ended, w, d) ->
      step s (mk_world h w d (given s ++ handed_by polls (to_run (host s))) (finished s ++ ended)).
Definition initial : World := mk_world on_clock false false [] [].

Record sound (s : World) : Prop := {
  kept_all : given s ≡ₚ works (host s) ++ running (host s) ++ finished s;
  raised : handed (host s) = false -> works (host s) = [];
  registered : waker (host s) = known (host s);
  looks : known (host s) = true -> done_ s = false -> woken s = false ->
    works (host s) = [] /\ (closed (host s) = true -> running (host s) <> []);
  over : done_ s = true -> closed (host s) = true /\ works (host s) = [] /\ running (host s) = [];
}.

Lemma hand_all_spec h l :
  (hand_all h l).1 = mk_host (works h ++ l) (waker h) (match l with [] => handed h | _ => true end) (closed h) (running h) (known h) /\
  (hand_all h l).2 = match l with [] => false | _ => waker h end.
Proof.
  revert h. induction l as [|work l IH]; intros h; cbn [hand_all].
  - rewrite app_nil_r. by destruct h.
  - unfold hand. specialize (IH (mk_host (works h ++ [work]) (waker h) true (closed h) (running h) (known h))).
    destruct (hand_all _ l) as [h' w']. cbn in *. destruct IH as [-> ->]. rewrite <- app_assoc. split; [by destruct l|by destruct l, (waker h)].
Qed.

Lemma retain_spec polls h todo : exists kept ended,
  retain polls h todo = (kept, ended,
    mk_host (works h ++ handed_by polls todo) (waker h) (match handed_by polls todo with [] => handed h | _ => true end)
      (closed h) (running h) (known h),
    match handed_by polls todo with [] => false | _ => waker h end) /\
  todo ≡ₚ kept ++ ended.
Proof.
  revert h. induction todo as [|work todo IH]; intros h; cbn [retain].
  - exists [], []. cbn. rewrite app_nil_r. by destruct h.
  - unfold handed_by. cbn [mbind list_bind]. fold (handed_by polls todo). destruct (polls work) as [ends hands]. cbn [snd].
    pose proof (hand_all_spec h hands) as [H1 H2]. destruct (hand_all h hands) as [h' w]. cbn in H1, H2. subst h' w.
    edestruct IH as (kept & ended & Heq & Hp). rewrite Heq. cbn [works waker handed closed running known].
    rewrite <- app_assoc. exists (if ends then kept else work :: kept), (if ends then work :: ended else ended). split.
    + destruct ends, hands, (handed_by polls todo); cbn; rewrite ?orb_diag, ?orb_false_r; done.
    + rewrite Hp. destruct ends; [|done]. by rewrite <- Permutation_middle.
Qed.

Lemma drive_poll_spec polls h : exists kept ended,
  drive_poll polls h = (mk_host ((if handed h then [] else works h) ++ handed_by polls (to_run h)) (if known h then waker h else true)
      (match handed_by polls (to_run h) with [] => false | _ => true end) (closed h) kept true, ended,
    match handed_by polls (to_run h) with [] => false | _ => if known h then waker h else true end,
    closed h && bool_decide (kept = []) && match handed_by polls (to_run h) with [] => true | _ => false end) /\
  to_run h ≡ₚ kept ++ ended.
Proof.
  unfold drive_poll, to_run.
  destruct (retain_spec polls (if handed h then mk_host [] (if known h then waker h else true) false (closed h) (running h ++ works h) true
    else mk_host (works h) (if known h then waker h else true) (handed h) (closed h) (running h) true) (running h ++ (if handed h then works h else [])))
    as (kept & ended & Heq & Hp).
  exists kept, ended. split; [|exact Hp]. destruct h as [works waker handed closed running known]; cbn -[handed_by retain] in *.
  destruct known, handed; cbn -[handed_by retain] in *; rewrite ?app_nil_r in *; rewrite Heq; cbn -[handed_by retain]; repeat f_equal;
    by destruct (handed_by polls _).
Qed.

Lemma sound_step s s' : sound s -> step s s' -> sound s'.
Proof.
  intros [Hkept Hraised Hreg Hlooks Hover] Hstep. destruct Hstep as [s work Hc|s|s polls h ended w d Hd Hpoll].
  - split; cbn.
    + rewrite Hkept, <- !app_assoc. apply Permutation_app_head. by rewrite app_assoc, Permutation_app_comm.
    + done.
    + done.
    + intros Hk. rewrite Hreg, Hk. by rewrite orb_true_r.
    + intros Hd. destruct (Hover Hd). congruence.
  - split; cbn; [done|done|done| |].
    + intros Hk. rewrite Hreg, Hk. by rewrite orb_true_r.
    + intros Hd. by destruct (Hover Hd) as (_ & ? & ?).
  - destruct (drive_poll_spec polls (host s)) as (kept & ended' & Heq & Hp). rewrite Hpoll in Heq. injection Heq as -> -> -> ->.
    assert (Hw : (if known (host s) then waker (host s) else true) = true) by (rewrite Hreg; by destruct (known (host s))).
    assert (He : (if handed (host s) then [] else works (host s)) = []) by (destruct (handed (host s)); auto).
    rewrite Hw, He. split; cbn -[handed_by].
    + assert (Hz : works (host s) ++ running (host s) ≡ₚ kept ++ ended').
      { unfold to_run in Hp. destruct (handed (host s)); [by rewrite Permutation_app_comm|].
        by rewrite Hraised, <- Hp, app_nil_r. }
      rewrite Hkept, (app_assoc (works _)), Hz. cbn [app]. rewrite Permutation_app_comm. apply Permutation_app_head.
      rewrite <- app_assoc. apply Permutation_app_head, Permutation_app_comm.
    + by destruct (handed_by polls _).
    + done.
    + intros _. destruct (handed_by polls _) as [|x l]; [|done]. rewrite andb_true_r. intros Hdone _.
      split; [done|]. intros Hcl ->. by rewrite Hcl in Hdone.
    + intros [[Hcl Hk]%andb_true_iff Hn]%andb_true_iff. apply bool_decide_eq_true in Hk as ->.
      by destruct (handed_by polls _).
Qed.

(** Where every continuation ends at its poll and hands nothing over, a closed driver is done. *)
Lemma drive_poll_all polls h : (forall work, polls work = (true, [])) -> exists h' ended, drive_poll polls h = (h', ended, false, closed h).
Proof.
  intros Hp. assert (Hr : forall h todo, retain polls h todo = ([], todo, h, false)).
  { intros h' todo. revert h'. induction todo as [|work todo IH]; intros h'; cbn [retain]; [done|]. rewrite Hp. cbn. by rewrite IH. }
  unfold drive_poll. destruct h as [wo wa ha cl ru kn]. destruct kn, ha; cbn; rewrite Hr; cbn; rewrite ?andb_true_r; eexists _, _; reflexivity.
Qed.

Lemma reachable_sound s : rtc step initial s -> sound s.
Proof. apply (rtc_ind_r sound); [by split|intros; by eapply sound_step]. Qed.

(** A continuation handed to the host of an embedded app is polled until it ends, and once: at
    every moment those handed over are the ones waiting, the ones running and the ones that ended;
    the driver ends only when the loops have and every continuation did; and while the task is not
    marked to run, nothing waits for a first poll and no closed driver has an empty list. *)
Theorem continuations_all_end s :
  rtc step initial s ->
  given s ≡ₚ works (host s) ++ running (host s) ++ finished s /\
  (done_ s = true -> closed (host s) = true /\ given s ≡ₚ finished s) /\
  (known (host s) = true -> done_ s = false -> woken s = false ->
     works (host s) = [] /\ (closed (host s) = true -> running (host s) <> [])).
Proof.
  intros [Hkept Hraised Hreg Hlooks Hover]%reachable_sound. split_and!; [done| |done].
  intros Hd. destruct (Hover Hd) as (? & Hw & Hr). split; [done|]. by rewrite Hkept, Hw, Hr.
Qed.

End Host.

Module Slot.
Section slot.
Context {R : Type} `{WakerRegistrationLaws R}.

(** ** The one continuation of a host without a heap *)

(** The app's one task, whose waker both registrations hold. *)
Definition TASK : nat := 0.

(** [running] is the work [drive] awaits. *)
Record Slot := mk_slot {
  waiting : option nat;
  busy : bool;
  closed : bool;
  giver : R;
  driver : R;
  running : option nat;
}.
Definition new_slot : Slot := mk_slot None false false wr_new wr_new None.

(** One poll of [Slot::hand]: whether the work is in, and whether the task was woken. *)
Definition hand (s : Slot) (work : nat) : Slot * bool * bool :=
  if busy s then (mk_slot (waiting s) (busy s) (closed s) (wr_register (giver s) TASK) (driver s) (running s), false, false)
  else let (driver', woken) := wr_wake (driver s) in
    (mk_slot (Some work) true (closed s) (giver s) driver' (running s), true, bool_decide (is_Some woken)).

Definition close (s : Slot) : Slot * bool :=
  let (driver', woken) := wr_wake (driver s) in
  (mk_slot (waiting s) (busy s) true (giver s) driver' (running s), bool_decide (is_Some woken)).

(** One poll of [Slot::drive], where [ends] says which work ends at this poll: what ended, whether the
    task was woken, and whether the driver is done. *)
Fixpoint drive (fuel : nat) (ends : nat -> bool) (s : Slot) : Slot * list nat * bool * bool :=
  match fuel with
  | 0 => (s, [], false, false)
  | S fuel =>
      match running s with
      | Some work =>
          if ends work then
            let (giver', woken) := wr_wake (giver s) in
            let '(s, ended, w, d) := drive fuel ends (mk_slot (waiting s) false (closed s) giver' (driver s) None) in
            (s, work :: ended, bool_decide (is_Some woken) || w, d)
          else (s, [], false, false)
      | None =>
          match waiting s with
          | Some work => drive fuel ends (mk_slot None (busy s) (closed s) (giver s) (driver s) (Some work))
          | None =>
              if closed s then (s, [], false, true)
              else (mk_slot None (busy s) (closed s) (giver s) (wr_register (driver s) TASK) None, [], false, false)
          end
      end
  end.

(** ** The polls of the task *)

Record World := mk_world {
  slot : Slot;
  woken : bool;
  done_ : bool;
  (** deliveries in the middle of handing over *)
  handing : list nat;
  given : list nat;
  finished : list nat;
}.

(** The deliveries' part of a poll: those that wait to hand over, and those that come to it. *)
Fixpoint hand_each (s : Slot) (l : list nat) : Slot * list nat * list nat * bool :=
  match l with
  | [] => (s, [], [], false)
  | work :: l =>
      let '(s, in_, w) := hand s work in
      let '(s, still, went, w') := hand_each s l in
      if in_ then (s, still, work :: went, w || w') else (s, work :: still, went, w || w')
  end.
Definition FUEL : nat := 4.
Definition poll (s : World) (come : list nat) (ends : nat -> bool) (closing : bool) : World :=
  let '(sl, still, went, w1) := hand_each (slot s) (handing s ++ come) in
  let (sl, w2) := if closing && bool_decide (still = []) then close sl else (sl, false) in
  let '(sl, ended, w3, d) := drive FUEL ends sl in
  mk_world sl (w1 || w2 || w3) d still (given s ++ went) (finished s ++ ended).

(** Once the host is closed no loop is left that could hand anything over. *)
Inductive step : World -> World -> Prop :=
  | polled s come ends closing : done_ s = false -> (closed (slot s) = true -> come = []) -> step s (poll s come ends closing).
Definition initial : World := mk_world new_slot false false [] [] [].

(** What the parts of a poll keep. *)
Record sane (s : Slot) (given finished : list nat) : Prop := {
  in_order : given = finished ++ option_list (running s) ++ option_list (waiting s);
  one : running s = None \/ waiting s = None;
  is_busy : busy s = true <-> is_Some (running s) \/ is_Some (waiting s);
}.

Lemma hand_sane s work given finished s' in_ w : sane s given finished -> hand s work = (s', in_, w) ->
  sane s' (given ++ if in_ then [work] else []) finished /\
  (in_ = false -> wr_held (giver s') = Some TASK /\ busy s' = true) /\
  (wr_held (giver s) = Some TASK -> wr_held (giver s') = Some TASK) /\ closed s' = closed s /\
  (busy s = true -> s' = mk_slot (waiting s) true (closed s) (wr_register (giver s) TASK) (driver s) (running s) /\ in_ = false).
Proof.
  intros [Ho H1 Hb]. unfold hand. destruct (busy s) eqn:Hbusy.
  - intros [= <- <- <-]. rewrite app_nil_r. split_and!; [by split|intros _; split; [apply wr_register_held|done]|intros _; apply wr_register_held|done|done].
  - assert (Hr : running s = None) by (destruct (running s); [|done]; exfalso; assert (false = true) by (apply Hb; by left); done).
    assert (Hw : waiting s = None) by (destruct (waiting s); [|done]; exfalso; assert (false = true) by (apply Hb; by right); done).
    destruct (wr_wake (driver s)). intros [= <- <- <-]. rewrite Hr, Hw in *. cbn in *. split_and!; [|done|done|done|done].
    split; cbn; [by rewrite Ho, app_nil_r|by left|]. split; [right; by eexists|done].
Qed.
Lemma hand_busy s work s' in_ w : hand s work = (s', in_, w) -> busy s' = true.
Proof. unfold hand. destruct (busy s) eqn:Hb; [by intros [= <- _ _]|]. destruct (wr_wake _). by intros [= <- _ _]. Qed.

Lemma hand_each_sane s l given finished s' still went w : sane s given finished -> hand_each s l = (s', still, went, w) ->
  sane s' (given ++ went) finished /\
  (still <> [] -> wr_held (giver s') = Some TASK /\ busy s' = true) /\
  (wr_held (giver s) = Some TASK -> wr_held (giver s') = Some TASK) /\ closed s' = closed s /\
  (busy s = true -> busy s' = true /\ went = [] /\ still = l) /\ length (went ++ still) = length l.
Proof.
  revert s given s' still went w. induction l as [|work l IH]; intros s given s' still went w Hs; cbn [hand_each].
  - intros [= <- <- <- <-]. rewrite app_nil_r. by split_and!.
  - destruct (hand s work) as [[s1 in_] w1] eqn:Hh. destruct (hand_each s1 l) as [[[s2 still2] went2] w2] eqn:Hl.
    destruct (hand_sane _ _ _ _ _ _ _ Hs Hh) as (Hs1 & Hin & Hg1 & Hc1 & Hb1).
    destruct (IH _ _ _ _ _ _ Hs1 Hl) as (Hs2 & Hst & Hg2 & Hc2 & Hb2 & Hlen). rewrite <- app_assoc in Hs2.
    pose proof (hand_busy _ _ _ _ _ Hh) as Hbusy.
    destruct in_; intros [= <- <- <- <-]; cbn in *.
    + split_and!; try done; [auto|congruence| |lia]. intros Hb. by destruct (Hb1 Hb).
    + split_and!; [done| | | | |]; [|auto|congruence| |].
      * intros _. split; [|by apply Hb2]. apply Hg2. by apply Hin.
      * intros Hb. destruct (Hb2 Hbusy) as (? & -> & ->). done.
      * rewrite length_app in *. cbn. lia.
Qed.

Lemma drive_sane s ends given finished s' ended w d : sane s given finished -> drive FUEL ends s = (s', ended, w, d) ->
  sane s' given (finished ++ ended) /\ closed s' = closed s /\
  (d = true -> closed s = true /\ running s' = None /\ waiting s' = None) /\
  (d = false -> waiting s' = None /\ (running s' = None -> closed s' = false /\ wr_held (driver s') = Some TASK)) /\
  (busy s = true -> busy s' = false -> wr_held (giver s) = Some TASK -> w = true) /\
  (busy s' = true -> giver s' = giver s).
Proof.
  intros [Ho H1 Hb]. destruct s as [wa bu cl gi dr ru]. cbn in Ho, H1, Hb. unfold FUEL. cbn.
  pose proof (wr_wake_held gi) as [_ Hwk]. pose proof (wr_register_held dr TASK) as Hreg.
  assert (Hbu : is_Some ru \/ is_Some wa -> bu = true) by apply Hb.
  assert (Hnb : ru = None -> wa = None -> bu = false).
  { intros -> ->. destruct bu; [|done]. by destruct (proj1 Hb eq_refl) as [[? ?]|[? ?]]. }
  destruct ru as [r|], wa as [x|]; [by destruct H1| | |].
  - rewrite Hbu in * by eauto. cbn in Ho. destruct (ends r).
    + destruct (wr_wake gi) as [gi' wk] eqn:Hg. cbn in Hwk. subst wk. destruct cl; intros [= <- <- <- <-]; cbn.
      * split_and!; try done; [split; cbn; [by rewrite Ho, !app_nil_r|by left|by split; [done|intros [[]|[]]]]|by intros _ _ ->].
      * split_and!; try done; [split; cbn; [by rewrite Ho, !app_nil_r|by left|by split; [done|intros [[]|[]]]]|by intros _ _ ->].
    + intros [= <- <- <- <-]. cbn. rewrite app_nil_r. by split_and!.
  - rewrite Hbu in * by eauto. cbn in Ho. destruct (ends x).
    + destruct (wr_wake gi) as [gi' wk] eqn:Hg. cbn in Hwk. subst wk. destruct cl; intros [= <- <- <- <-]; cbn.
      * split_and!; try done; [split; cbn; [by rewrite Ho, !app_nil_r|by left|by split; [done|intros [[]|[]]]]|by intros _ _ ->].
      * split_and!; try done; [split; cbn; [by rewrite Ho, !app_nil_r|by left|by split; [done|intros [[]|[]]]]|by intros _ _ ->].
    + intros [= <- <- <- <-]. cbn. rewrite app_nil_r. split_and!; try done.
      split; cbn; [done|by right|]. split; [by left; eexists|done].
  - rewrite Hnb in * by done. destruct cl; intros [= <- <- <- <-]; cbn; rewrite app_nil_r; by split_and!.
Qed.
Record sound (s : World) : Prop := {
  s_sane : sane (slot s) (given s) (finished s);
  s_taken : waiting (slot s) = None;
  s_handing : handing s <> [] -> woken s = true \/ busy (slot s) = true /\ wr_held (giver (slot s)) = Some TASK;
  s_closed : closed (slot s) = true -> handing s = [] /\ (done_ s = false -> running (slot s) <> None);
  s_done : done_ s = true -> closed (slot s) = true /\ running (slot s) = None;
}.

Lemma slot_sound_step s s' : sound s -> step s s' -> sound s'.
Proof.
  intros [Hsane Htaken Hhand Hclosed Hdone] Hstep. destruct Hstep as [s come ends closing Hd Hcome]. unfold poll.
  destruct (hand_each (slot s) (handing s ++ come)) as [[[s1 still] went] w1] eqn:Hh.
  destruct (hand_each_sane _ _ _ _ _ _ _ _ Hsane Hh) as (Hs1 & Hst & _ & Hc1 & _ & Hlen).
  set (s2 := (if closing && bool_decide (still = []) then close s1 else (s1, false)).1).
  assert (Hs2 : sane s2 (given s ++ went) (finished s) /\ giver s2 = giver s1 /\ busy s2 = busy s1 /\
    (closed s2 = true -> still = [])).
  { assert (Hcl : closed s1 = true -> still = []).
    { rewrite Hc1. intros Hcl. destruct (Hclosed Hcl) as [Hn _]. rewrite Hn, (Hcome Hcl) in Hlen. rewrite length_app in Hlen.
      cbn in Hlen. destruct still; [done|cbn in Hlen; lia]. }
    subst s2. destruct closing; cbn [andb]; [|by split_and!]. case_bool_decide; [|by split_and!].
    unfold close. destruct (wr_wake (driver s1)). destruct Hs1. by split_and!. }
  destruct (if closing && _ then _ else _) as [s2' w2] eqn:Hcl. subst s2. cbn [fst] in Hs2. destruct Hs2 as (Hs2 & Hg & Hbz & Hc2).
  destruct (drive FUEL ends s2') as [[[s3 ended] w3] d] eqn:Hdr.
  destruct (drive_sane _ _ _ _ _ _ _ _ Hs2 Hdr) as (Hs3 & Hc3 & Hdt & Hdf & Hwk & Hgv).
  split; cbn [slot given finished handing woken done_].
  - done.
  - destruct d; [by apply Hdt|by apply Hdf].
  - intros Hne. destruct (Hst Hne) as [Hheld Hbs]. rewrite <- Hg in Hheld. rewrite <- Hbz in Hbs.
    destruct (busy s3) eqn:Hb3; [right; rewrite Hgv; auto|]. left. rewrite (Hwk Hbs eq_refl Hheld). by rewrite orb_true_r.
  - rewrite Hc3. intros Hcl3. split; [auto|]. intros -> Hr. destruct (Hdf eq_refl) as [_ Hn]. destruct (Hn Hr). congruence.
  - intros ->. destruct (Hdt eq_refl) as (? & ? & ?). by rewrite Hc3.
Qed.

Lemma slot_reachable_sound s : rtc step initial s -> sound s.
Proof.
  apply (rtc_ind_r sound); [|intros; by eapply slot_sound_step]. split; try done.
  split; [done|by left|]. split; [done|by intros [[]|[]]].
Qed.

(** Without a heap a host keeps one continuation: those handed over run one at a time, in their
    order and each to its end, a delivery that finds the slot taken waits for it and, while the task
    sleeps, only for one that runs; and the driver ends only when the loops have and every
    continuation did. *)
Theorem one_continuation_at_a_time s :
  rtc step initial s ->
  given s = finished s ++ option_list (running (slot s)) /\
  (handing s <> [] -> woken s = false -> is_Some (running (slot s))) /\
  (done_ s = true -> given s = finished s /\ handing s = []).
Proof.
  intros [Hsane Htaken Hhand Hclosed Hdone]%slot_reachable_sound. destruct Hsane as [Ho _ Hb].
  rewrite Htaken, app_nil_r in *. split_and!; [done| |].
  - intros Hne Hw. destruct (Hhand Hne) as [Ht|[Hbusy _]]; [congruence|]. apply Hb in Hbusy as [?|[]]; done.
  - intros Hd. destruct (Hdone Hd) as [Hc Hr]. rewrite Hr, app_nil_r in Ho. split; [done|by apply Hclosed].
Qed.

End slot.
End Slot.

Module App.
Section app.
Context {W : Type} `{MultiWakerLaws W} {E : Type}.
Context (connect_fails open_fails after_startup_fails : nat -> option E).

(** ** A run of an app ([serve]) *)


Inductive Event :=
  | Broker (e : Mounts.Event)
  | RunsAfterStartup (hook : nat)
  | Hands (work : nat)
  | Continued (work : nat)
  | RunsOnShutdown (hook : nat)
  | RunsAfterShutdown (hook : nat).

(** What the device's tasks do with the control, and the waits of theirs it holds. *)
Inductive Call := CallsStop | CallsFail | Waits (task : nat).
Definition APP : nat := 0.
Definition call (c : Control.Control (W := W)) (a : Call) : Control.Control * list nat :=
  match a with
  | CallsStop => Control.stop c
  | CallsFail => Control.fail c
  | Waits task => Control.register c task
  end.
Fixpoint calls (c : Control.Control (W := W)) (l : list Call) : Control.Control * bool :=
  match l with
  | [] => (c, false)
  | a :: l =>
      let (c, woken) := call c a in
      let (c, w) := calls c l in
      (c, bool_decide (APP ∈ woken) || w)
  end.

(** [select(loops, signal.watch())], then the loops alone, then nothing. *)
Inductive Stage := Racing | Draining | Over.

(** The three futures of the join. *)
Record Joined := mk_joined {
  control : Control.Control (W := W);
  woken : bool;
  stage : Stage;
  host : Host.Detached;
  driven : bool;
  hooks : list nat;
  startup : option (result unit E);
  trace : list Event;
}.

(** What the environment does in a poll: the calls of the device since the last one, how each poll of
    the loops goes (what they hand over, and whether they end), how each continuation's poll goes,
    and how many hooks complete. *)
Record Turn := mk_turn {
  device : list Call;
  loops : list nat * bool;
  loops_again : list nat * bool;
  polls : Host.Polls;
  hooks_done : nat;
}.

(** A poll of the loops, and the close of the host at their end. *)
Definition poll_loops (l : list nat * bool) (h : Host.Detached) : Host.Detached * bool :=
  let (h, w) := Host.hand_all h l.1 in
  if l.2 then let (h, w') := Host.close h in (h, w || w') else (h, w).

Definition poll_serve (t : Turn) (s : Joined) : Joined :=
  match stage s with
  | Over => s
  | Draining =>
      let (h, w) := poll_loops (loops t) (host s) in
      mk_joined (control s) (woken s || w) (if (loops t).2 then Over else Draining) h (driven s) (hooks s) (startup s)
        (trace s ++ (Hands <$> (loops t).1))
  | Racing =>
      let (h, w) := poll_loops (loops t) (host s) in
      if (loops t).2 then mk_joined (control s) (woken s || w) Over h (driven s) (hooks s) (startup s) (trace s ++ (Hands <$> (loops t).1))
      else
        let (c, _) := Control.register (control s) APP in
        if Control.ready c Control.Stopping then
          let (h, w') := poll_loops (loops_again t) h in
          mk_joined c (woken s || w || w') (if (loops_again t).2 then Over else Draining) h (driven s) (hooks s) (startup s)
            (trace s ++ (Hands <$> (loops t).1) ++ (Hands <$> (loops_again t).1))
        else mk_joined c (woken s || w) Racing h (driven s) (hooks s) (startup s) (trace s ++ (Hands <$> (loops t).1))
  end.

Definition poll_host (t : Turn) (s : Joined) : Joined :=
  if driven s then s
  else
    let '(h, ended, w, d) := Host.drive_poll (polls t) (host s) in
    mk_joined (control s) (woken s || w) (stage s) h d (hooks s) (startup s) (trace s ++ (Hands <$> Host.handed_by (polls t) (Host.to_run (host s))) ++ (Continued <$> ended)).

(** [HookList::call], with [fail_app] at an error. *)
Fixpoint call_hooks (n : nat) (c : Control.Control) (l : list nat)
  : Control.Control * bool * list nat * option (result unit E) * list Event :=
  match l, n with
  | [], _ => (c, false, [], Some (Ok tt), [])
  | hook :: l, S n =>
      match after_startup_fails hook with
      | Some err =>
          let (c, woken) := Control.fail c in (c, bool_decide (APP ∈ woken), l, Some (Err err), [RunsAfterStartup hook])
      | None => let '(c, w, l, r, tr) := call_hooks n c l in (c, w, l, r, RunsAfterStartup hook :: tr)
      end
  | _ :: _, 0 => (c, false, l, None, [])
  end.
Definition poll_startup (t : Turn) (s : Joined) : Joined :=
  match startup s with
  | Some _ => s
  | None =>
      let '(c, w, l, r, tr) := call_hooks (hooks_done t) (control s) (hooks s) in
      mk_joined c (woken s || w) (stage s) (host s) (driven s) l r (trace s ++ tr)
  end.

(** One poll of [join3(serve, host.drive(), startup)]. *)
Definition poll (t : Turn) (s : Joined) : Joined :=
  let (c, _) := calls (control s) (device t) in
  poll_startup t (poll_host t (poll_serve t
    (mk_joined c false (stage s) (host s) (driven s) (hooks s) (startup s) (trace s)))).

Definition joined_over (s : Joined) : bool :=
  match stage s, startup s with Over, Some _ => driven s | _, _ => false end.


(** ** The health at the end *)

Definition unstopped (c : Control.Control (W := W)) : Prop := Control.health c <> Control.Stopped.

Lemma call_health c a : unstopped c ->
  unstopped (call c a).1 /\ (Control.health c = Control.Failed -> Control.health (call c a).1 = Control.Failed).
Proof.
  intros Hu. destruct a; cbn [call].
  - unfold Control.stop. rewrite Control.advance_health. unfold unstopped in *.
    change (Control.health (Control.store_stopped c)) with (Control.health c). rewrite Control.advance_health.
    change (Control.health (Control.store_stopped c)) with (Control.health c). by destruct (Control.health c).
  - destruct (Control.failure_is_told c Hu) as [Hf _]. unfold unstopped. by rewrite Hf.
  - unfold Control.register. by destruct (mw_register _ _).
Qed.

Lemma calls_health c l : unstopped c ->
  unstopped (calls c l).1 /\ (Control.health c = Control.Failed -> Control.health (calls c l).1 = Control.Failed).
Proof.
  revert c. induction l as [|a l IH]; intros c Hu; cbn [calls]; [done|].
  destruct (call_health c a Hu) as [Hu1 Hf1]. destruct (call c a) as [c1 wk]. cbn in Hu1, Hf1.
  destruct (IH c1 Hu1) as [Hu2 Hf2]. destruct (calls c1 l). cbn in *. auto.
Qed.

(** ** What a run of the join keeps *)

Definition hook_of (e : Event) : option nat := match e with RunsAfterStartup hook => Some hook | _ => None end.
Definition handed_of (e : Event) : option nat := match e with Hands work => Some work | _ => None end.
Definition ended_of (e : Event) : option nat := match e with Continued work => Some work | _ => None end.

(** What happens while the app runs. *)
Definition during (e : Event) : Prop :=
  match e with RunsAfterStartup _ | Hands _ | Continued _ => True | _ => False end.

(** The hooks of a startup: all of them, or up to the first that fails. *)
Fixpoint startup_of (l : list nat) : list nat * result unit E :=
  match l with
  | [] => ([], Ok tt)
  | hook :: l =>
      match after_startup_fails hook with
      | Some err => ([hook], Err err)
      | None => let (ran, r) := startup_of l in (hook :: ran, r)
      end
  end.

Lemma omap_fmap_some {A B} (f : A -> B) (g : B -> option A) (l : list A) : (forall x, g (f x) = Some x) -> omap g (f <$> l) = l.
Proof. intros Hg. induction l as [|x l IH]; cbn; [done|]. by rewrite Hg, IH. Qed.
Lemma omap_fmap_none {A B C} (f : A -> B) (g : B -> option C) (l : list A) : (forall x, g (f x) = None) -> omap g (f <$> l) = [].
Proof. intros Hg. induction l as [|x l IH]; cbn; [done|]. by rewrite Hg, IH. Qed.

Lemma hands_handed (l : list nat) : omap handed_of (Hands <$> l) = l.
Proof. by apply omap_fmap_some. Qed.
Lemma hands_ended (l : list nat) : omap ended_of (Hands <$> l) = [].
Proof. by apply omap_fmap_none. Qed.
Lemma hands_hooks (l : list nat) : omap hook_of (Hands <$> l) = [].
Proof. by apply omap_fmap_none. Qed.
Lemma ends_handed (l : list nat) : omap handed_of (Continued <$> l) = [].
Proof. by apply omap_fmap_none. Qed.
Lemma ends_ended (l : list nat) : omap ended_of (Continued <$> l) = l.
Proof. by apply omap_fmap_some. Qed.
Lemma ends_hooks (l : list nat) : omap hook_of (Continued <$> l) = [].
Proof. by apply omap_fmap_none. Qed.
Lemma during_hands l : Forall during (Hands <$> l).
Proof. by apply Forall_fmap, Forall_true. Qed.
Lemma during_ends l : Forall during (Continued <$> l).
Proof. by apply Forall_fmap, Forall_true. Qed.
#[local] Hint Resolve Forall_app_2 during_hands during_ends : core.
#[local] Create Rewrite HintDb app_traces.
#[local] Hint Rewrite hands_handed hands_ended hands_hooks ends_handed ends_ended ends_hooks : app_traces.

Record kept (all : list nat) (tr0 : list Event) (s : Joined) : Prop := {
  k_host : exists ws, rtc Host.step Host.initial ws /\ Host.host ws = host s /\ Host.done_ ws = driven s /\
    Host.given ws = omap handed_of (trace s) /\ Host.finished ws = omap ended_of (trace s);
  k_stage : stage s = Over <-> Host.closed (host s) = true;
  k_hooks : match startup s with
            | None => startup_of all = (omap hook_of (trace s) ++ (startup_of (hooks s)).1, (startup_of (hooks s)).2)
            | Some r => startup_of all = (omap hook_of (trace s), r)
            end;
  k_health : unstopped (control s);
  k_failed : forall e, startup s = Some (Err e) -> Control.health (control s) = Control.Failed;
  k_trace : exists mid, trace s = tr0 ++ mid /\ Forall during mid;
}.

Lemma hands_steps ws l : Host.closed (Host.host ws) = false ->
  exists w, rtc Host.step ws (Host.mk_world (Host.hand_all (Host.host ws) l).1 w (Host.done_ ws) (Host.given ws ++ l) (Host.finished ws)).
Proof.
  revert ws. induction l as [|work l IH]; intros ws Hc; cbn [Host.hand_all].
  - exists (Host.woken ws). rewrite app_nil_r. by destruct ws.
  - set (ws1 := Host.mk_world (Host.hand (Host.host ws) work).1 (Host.woken ws || (Host.hand (Host.host ws) work).2)
      (Host.done_ ws) (Host.given ws ++ [work]) (Host.finished ws)).
    destruct (IH ws1 Hc) as (w & Hw). exists w. eapply rtc_l; [by apply Host.hands|]. subst ws1. cbn in Hw.
    rewrite <- app_assoc in Hw. cbn in *. by destruct (Host.hand_all _ l).
Qed.

Lemma loops_steps ws l : Host.closed (Host.host ws) = false ->
  exists w, rtc Host.step ws (Host.mk_world (poll_loops l (Host.host ws)).1 w (Host.done_ ws) (Host.given ws ++ l.1) (Host.finished ws)) /\
  Host.closed (poll_loops l (Host.host ws)).1 = l.2.
Proof.
  intros Hc. destruct (hands_steps ws l.1 Hc) as (w & Hw). unfold poll_loops.
  pose proof (Host.hand_all_spec (Host.host ws) l.1) as [Hh _]. destruct (Host.hand_all (Host.host ws) l.1) as [h wk]. cbn in Hh, Hw.
  destruct l.2.
  - eexists. split; [|done]. eapply rtc_r; [exact Hw|]. apply (Host.closes (Host.mk_world h w _ _ _)).
  - exists w. split; [done|]. by rewrite Hh.
Qed.

#[local] Ltac traces := rewrite ?omap_app; autorewrite with app_traces; rewrite ?app_nil_r.

Lemma loops_kept all tr0 s l c w : kept all tr0 s -> stage s <> Over -> unstopped c ->
  (forall e, startup s = Some (Err e) -> Control.health c = Control.Failed) -> forall st, (st = Over <-> l.2 = true) ->
  kept all tr0 (mk_joined c w st (poll_loops l (host s)).1 (driven s) (hooks s) (startup s) (trace s ++ (Hands <$> l.1))).
Proof.
  intros [(ws & Hws & Hh & Hd & Hg & Hf) Hst Hhk Hu Hfl (mid & Hmid & Hdur)] Hs Hc Hce st Hl.
  assert (Hcl : Host.closed (host s) = false) by (apply not_true_iff_false; by rewrite <- Hst).
  rewrite <- Hh in Hcl. destruct (loops_steps ws l Hcl) as (w' & Hw' & Hcl'). rewrite Hh in Hw', Hcl'.
  split; cbn [host driven trace stage hooks startup control].
  - eexists. split; [by etrans; [exact Hws|exact Hw']|]. cbn. split_and!; [done|done|rewrite Hg|rewrite Hf]; by traces.
  - by rewrite Hcl', Hl.
  - by traces.
  - done.
  - done.
  - exists (mid ++ (Hands <$> l.1)). rewrite Hmid, app_assoc. auto.
Qed.

Lemma register_health (c : Control.Control (W := W)) t : Control.health (Control.register c t).1 = Control.health c.
Proof. unfold Control.register. by destruct (mw_register _ _). Qed.

Lemma poll_serve_kept all tr0 t s : kept all tr0 s -> kept all tr0 (poll_serve t s).
Proof.
  intros Hk. pose proof Hk as [_ _ _ Hu Hfl _]. unfold poll_serve. destruct (stage s) eqn:Hs; [| |done].
  - destruct (poll_loops (loops t) (host s)) as [h w] eqn:Hl. destruct (loops t).2 eqn:He.
    + pose proof (loops_kept all tr0 s (loops t) (control s) (woken s || w) Hk ltac:(by rewrite Hs) Hu Hfl Over ltac:(by rewrite He)) as Hk'.
      by rewrite Hl in Hk'.
    + destruct (Control.register (control s) APP) as [c wk] eqn:Hr. pose proof (register_health (control s) APP) as Hc.
      rewrite Hr in Hc. cbn in Hc.
      assert (Hk' : forall w', kept all tr0 (mk_joined c w' Racing h (driven s) (hooks s) (startup s) (trace s ++ (Hands <$> (loops t).1)))).
      { intros w'. pose proof (loops_kept all tr0 s (loops t) c w' Hk ltac:(by rewrite Hs)) as Hk'. rewrite Hl in Hk'. apply Hk'.
        - unfold unstopped. by rewrite Hc.
        - intros e Hst. rewrite Hc. by eapply Hfl.
        - rewrite He. by split. }
      destruct (Control.ready c Control.Stopping); [|apply Hk'].
      destruct (poll_loops (loops_again t) h) as [h' w'] eqn:Hl'.
      pose proof (loops_kept all tr0 _ (loops_again t) c (woken s || w || w') (Hk' false) ltac:(done)) as Hk''.
      cbn [host driven hooks startup trace] in Hk''. rewrite Hl' in Hk''. cbn [fst] in Hk''. rewrite <- app_assoc in Hk''. apply Hk''.
      * apply (k_health _ _ _ (Hk' false)).
      * apply (k_failed _ _ _ (Hk' false)).
      * by destruct (loops_again t).2.
  - destruct (poll_loops (loops t) (host s)) as [h w] eqn:Hl.
    pose proof (loops_kept all tr0 s (loops t) (control s) (woken s || w) Hk ltac:(by rewrite Hs) Hu Hfl) as Hk'.
    rewrite Hl in Hk'. apply Hk'. by destruct (loops t).2.
Qed.




Lemma calls_kept all tr0 s l : kept all tr0 s ->
  kept all tr0 (mk_joined (calls (control s) l).1 false (stage s) (host s) (driven s) (hooks s) (startup s) (trace s)).
Proof.
  intros [Hh Hst Hhk Hu Hfl Hm]. destruct (calls_health (control s) l Hu) as [Hu' Hf'].
  split; cbn [host driven trace stage hooks startup control]; try done. intros e He. apply Hf'. by eapply Hfl.
Qed.





(** ** The stop is seen, and ends the run *)

Lemma advance_wakes (c : Control.Control (W := W)) next t : t ∈ mw_held (Control.waiters c) -> t ∈ (Control.advance c next).2.
Proof.
  intros Ht. unfold Control.advance. destruct (mw_wake_held (Control.waiters c)) as [_ Hall].
  destruct (mw_wake _). by apply Hall.
Qed.

Lemma calls_wake c l : APP ∈ mw_held (Control.waiters c) -> CallsStop ∈ l \/ CallsFail ∈ l -> (calls c l).2 = true.
Proof.
  revert c. induction l as [|a l IH]; intros c Hh Hl; [by destruct Hl as [Hl|Hl]; apply not_elem_of_nil in Hl|].
  cbn [calls]. destruct a as [| |t]; cbn [call].
  - pose proof (advance_wakes (Control.store_stopped c) Control.ShuttingDown APP Hh) as Hw. unfold Control.stop.
    destruct (Control.advance _ _), (calls _ l). cbn in *. by rewrite bool_decide_true.
  - pose proof (advance_wakes (Control.store_stopped c) Control.Failed APP Hh) as Hw. unfold Control.fail.
    destruct (Control.advance _ _), (calls _ l). cbn in *. by rewrite bool_decide_true.
  - pose proof (mw_register_keeps (Control.waiters c) t APP Hh) as Hk. unfold Control.register.
    destruct (mw_register (Control.waiters c) t) as [ws wk]. cbn in Hk.
    assert (Hl' : CallsStop ∈ l \/ CallsFail ∈ l) by (rewrite !elem_of_cons in Hl; destruct Hl as [[|]|[|]]; auto; done).
    destruct Hk as [Hk|Hk].
    + specialize (IH (Control.mk_control (Control.stopped c) (Control.health_raw c) (Control.ended c) ws) Hk Hl').
      destruct (calls _ l). cbn in *. rewrite IH. by rewrite orb_true_r.
    + destruct (calls _ l). cbn. by rewrite bool_decide_true.
Qed.

(** What a failing hook of the startup does to the task it runs in. *)
Lemma call_hooks_wake n c l c' w l' r tr : APP ∈ mw_held (Control.waiters c) -> call_hooks n c l = (c', w, l', r, tr) ->
  c' = c \/ w = true.
Proof.
  revert n tr. induction l as [|hook l IH]; intros n tr Hh.
  - destruct n; cbn [call_hooks]; intros [= <- <- <- <- <-]; by left.
  - destruct n as [|n]; [cbn [call_hooks]; intros [= <- <- <- <- <-]; by left|]. cbn [call_hooks].
    destruct (after_startup_fails hook) as [err|].
    + pose proof (advance_wakes (Control.store_stopped c) Control.Failed APP Hh) as Hw. unfold Control.fail.
      destruct (Control.advance _ _). intros [= <- <- <- <- <-]. right. by apply bool_decide_eq_true.
    + destruct (call_hooks n c l) as [[[[c1 w1] l1] r1] tr1] eqn:Hc. intros [= <- <- <- <- <-]. by eapply IH.
Qed.

(** C25. The task of an embedded app never sleeps through a stop: after any poll that leaves it racing
    its loops against the stop and not marked to run, no stop was asked for yet, and whatever the
    device's tasks do next with the control, however many of them wait on it, a stop or a failure
    among it marks the task to run. *)
Theorem app_never_sleeps_through_a_stop t s l :
  stage (poll t s) = Racing -> woken (poll t s) = false -> CallsStop ∈ l \/ CallsFail ∈ l ->
  Control.stopped (control (poll t s)) = false /\ (calls (control (poll t s)) l).2 = true.
Proof.
  unfold poll. destruct (calls (control s) (device t)) as [c wk].
  set (s0 := mk_joined c false (stage s) (host s) (driven s) (hooks s) (startup s) (trace s)).
  assert (Hserve : stage (poll_serve t s0) = Racing ->
    Control.stopped (control (poll_serve t s0)) = false /\ APP ∈ mw_held (Control.waiters (control (poll_serve t s0)))).
  { unfold poll_serve. destruct (stage s0) eqn:Hs; [| |by rewrite Hs].
    - destruct (poll_loops (loops t) (host s0)) as [h w]. destruct (loops t).2; [done|].
      pose proof (mw_register_held (Control.waiters (control s0)) APP) as Hreg. unfold Control.register.
      destruct (mw_register _ _) as [ws wk']. cbn [Control.ready]. destruct (Control.stopped _) eqn:Hst.
      + destruct (poll_loops (loops_again t) h). by destruct (loops_again t).2.
      + cbn. intros _. by split.
    - destruct (poll_loops (loops t) (host s0)). by destruct (loops t).2. }
  destruct (poll_serve t s0) as [c1 w1 st1 h1 d1 k1 u1 tr1]. cbn in Hserve.
  assert (Hc : forall s2, control s2 = c1 -> stage s2 = st1 -> stage (poll_startup t s2) = Racing -> woken (poll_startup t s2) = false ->
    Control.stopped (control (poll_startup t s2)) = false /\ APP ∈ mw_held (Control.waiters (control (poll_startup t s2)))).
  { intros s2 Hc2 Hs2. unfold poll_startup. destruct (startup s2); [rewrite Hc2, Hs2; auto|].
    destruct (call_hooks _ _ _) as [[[[c3 w3] l3] r3] tr3] eqn:Hcall. cbn. rewrite Hs2. intros Hst [_ ->]%orb_false_iff.
    destruct (Hserve Hst) as [H1 H2]. rewrite <- Hc2 in H2. destruct (call_hooks_wake _ _ _ _ _ _ _ _ H2 Hcall) as [->|]; [|done].
    rewrite Hc2 in *. by split. }
  intros Hst Hw Hl. destruct (Hc (poll_host t (mk_joined c1 w1 st1 h1 d1 k1 u1 tr1))) as [H1 H2]; try done.
  - unfold poll_host. cbn. destruct d1; [done|]. by destruct (Host.drive_poll _ _) as [[[? ?] ?] ?].
  - unfold poll_host. cbn. destruct d1; [done|]. by destruct (Host.drive_poll _ _) as [[[? ?] ?] ?].
  - split; [done|]. by apply calls_wake.
Qed.

Lemma call_hooks_done n c l c' w l' r tr : length l <= n -> call_hooks n c l = (c', w, l', r, tr) -> is_Some r.
Proof.
  revert n tr c. induction l as [|hook l IH]; intros n tr c Hn.
  - destruct n; cbn [call_hooks]; intros [= <- <- <- <- <-]; by eexists.
  - cbn in Hn. destruct n as [|n]; [lia|]. cbn [call_hooks]. destruct (after_startup_fails hook).
    + destruct (Control.fail c). intros [= <- <- <- <- <-]. by eexists.
    + destruct (call_hooks n c l) as [[[[c1 w1] l1] r1] tr1] eqn:Hc. intros [= <- <- <- <- <-]. eapply (IH n); [lia|done].
Qed.

Lemma calls_stopped (c : Control.Control (W := W)) l : Control.stopped c = true -> Control.stopped (calls c l).1 = true.
Proof.
  revert c. induction l as [|a l IH]; intros c Hc; cbn [calls]; [done|].
  assert (Ha : Control.stopped (call c a).1 = true).
  { destruct a; cbn [call]; unfold Control.stop, Control.fail, Control.advance, Control.register;
      [by destruct (mw_wake _)|by destruct (mw_wake _)|by destruct (mw_register _ _)]. }
  destruct (call c a) as [c1 wk]. specialize (IH c1 Ha). by destruct (calls c1 l).
Qed.

(** Once a stop was asked for, an embedded app ends as soon as its parts do: the poll in which the
    loops end, each continuation ends and the hooks of the startup are done is the last one of the
    join. *)
Theorem a_stop_ends_the_join all tr0 t s :
  kept all tr0 s -> Control.stopped (control s) = true ->
  (stage s = Draining -> (loops t).2 = true) -> (loops_again t).2 = true ->
  (forall work, polls t work = (true, [])) -> length (hooks s) <= hooks_done t ->
  joined_over (poll t s) = true.
Proof.
  intros Hk Hstop Hl Ha Hp Hn. unfold poll. pose proof (calls_kept all tr0 s (device t) Hk) as Hk0.
  pose proof (calls_stopped (control s) (device t) Hstop) as Hst. destruct (calls (control s) (device t)) as [c wk]. cbn in Hk0, Hst.
  set (s0 := mk_joined c false (stage s) (host s) (driven s) (hooks s) (startup s) (trace s)) in *.
  assert (Hover : stage (poll_serve t s0) = Over /\ hooks (poll_serve t s0) = hooks s).
  { unfold poll_serve. destruct (stage s0) eqn:Hs; [| |done].
    - destruct (poll_loops (loops t) (host s0)) as [h w]. destruct (loops t).2; [done|].
      unfold Control.register. destruct (mw_register _ _) as [ws wk']. cbn [Control.ready].
      assert (Hst' : Control.stopped (Control.mk_control (Control.stopped (control s0)) (Control.health_raw (control s0))
        (Control.ended (control s0)) ws) = true) by done.
      rewrite Hst'. destruct (poll_loops (loops_again t) h). by rewrite Ha.
    - destruct (poll_loops (loops t) (host s0)). by rewrite (Hl Hs). }
  apply (poll_serve_kept all tr0 t) in Hk0. destruct Hover as [Hover Hhk]. pose proof (k_stage _ _ _ Hk0) as [Hcl _].
  specialize (Hcl Hover). set (s1 := poll_serve t s0) in *.
  assert (Hd : driven (poll_host t s1) = true /\ stage (poll_host t s1) = Over /\ hooks (poll_host t s1) = hooks s).
  { unfold poll_host. destruct (driven s1) eqn:Hdr; [done|]. destruct (Host.drive_poll_all (polls t) (host s1) Hp) as (h' & ended & ->). done. }
  destruct Hd as (Hd & Hst2 & Hhk2). set (s2 := poll_host t s1) in *. unfold poll_startup.
  destruct (startup s2) as [r|] eqn:Hs2; [by unfold joined_over; rewrite Hst2, Hs2|].
  destruct (call_hooks _ _ _) as [[[[c3 w3] l3] r3] tr3] eqn:Hcall.
  rewrite <- Hhk2 in Hn. destruct (call_hooks_done _ _ _ _ _ _ _ _ Hn Hcall) as [x ->].
  unfold joined_over. cbn. by rewrite Hst2.
Qed.

End app.

(** ** Witnesses *)

Definition all_well (n : nat) : option unit := None.
Definition quiet : Turn := mk_turn [] ([7], false) ([], true) (fun _ => (true, [])) 1.


Lemma app_never_sleeps_through_a_stop_witness :
  let s := mk_joined (W := nat * list nat) (E := unit) Control.new_control false Racing Host.on_clock false [] None [] in
  stage (poll all_well quiet s) = Racing /\ woken (poll all_well quiet s) = false /\
  (calls (control (poll all_well quiet s)) [Waits 3; CallsStop]).2 = true.
Proof.
  cbv zeta. split; [reflexivity|]. split; [reflexivity|].
  apply (app_never_sleeps_through_a_stop (W := nat * list nat) all_well quiet
    (mk_joined Control.new_control false Racing Host.on_clock false [] None []) [Waits 3; CallsStop]);
    [reflexivity|reflexivity|left; right; left].
Defined.
End App.
