(* ===== verification/Lifecycle.v ===== *)
(** * A service's life ([runtime-tokio/src/app/run.rs], [teardown.rs], [shutdown.rs], [health.rs])

    The startup sequence and its unwinding, and the graceful teardown.  A future can be dropped at
    any of its awaits, so the teardown runs in a monad with a budget of awaits: where the budget
    ends the run is dropped, and what it leaves of the [Teardown] is what a second run starts from.
    What each external call does (a broker's connect and shutdown, a subscription's opening, a hook,
    a dispatch loop joined) is the environment's choice; the trace records the calls.  The last part
    is the health a probe reads, written by the shutdown, by the watcher of a fail-fast failure and
    by the loops that fail, interleaved. *)
From S2P Require Import Prelude RustStd.

Module Lifecycle.

Section monad.
Context {E : Type}.

(** ** Errors, events and the environment *)

Inductive RustStreamError :=
  | Startup (e : E)
  | Connect (e : E)
  | Subscribe (e : E)
  | Join (handle : nat)
  | Shutdown (e : E)
  | Dispatch (reason : E).

Inductive JoinOutcome := Finished | Panicked | Cancelled.

(** Brokers, subscriptions and hooks are told apart by their numbers. *)
Inductive Event :=
  | Produces
  | Connects (broker : nat)
  | Opens (subscription : nat)
  | RunsAfterStartup (hook : nat)
  | Begins
  | RunsOnShutdown (hook : nat)
  | Cancels
  | Aborts (handle : nat)
  | Joined (handle : nat)
  | ClosesTracker
  | Closes (broker : nat)
  | RunsAfterShutdown (hook : nat).

Record Env := mk_env {
  state_init : option E;
  connect : nat -> option E;
  open : nat -> option E;
  after_startup_fails : nat -> option E;
  (** whether a loop ends before the deadline of the drain, and how it ends *)
  in_time : nat -> bool;
  ends : nat -> JoinOutcome;
  close : nat -> option E;
  (** whether continuations are in flight when the tracker closes *)
  continuations : bool;
  (** the clock, and the last instant it can name, in nanoseconds *)
  now : N;
  last_instant : N;
}.

(** ** The teardown *)

Record Teardown := mk_teardown {
  on_shutdown : list nat;
  handles : list nat;
  brokers : list nat;
  after_shutdown : list nat;
  shutdown_timeout : option N;
  failure : option E;
}.

Definition set_on_shutdown (t : Teardown) (l : list nat) : Teardown :=
  mk_teardown l (handles t) (brokers t) (after_shutdown t) (shutdown_timeout t) (failure t).
Definition set_handles (t : Teardown) (l : list nat) : Teardown :=
  mk_teardown (on_shutdown t) l (brokers t) (after_shutdown t) (shutdown_timeout t) (failure t).
Definition set_brokers (t : Teardown) (l : list nat) : Teardown :=
  mk_teardown (on_shutdown t) (handles t) l (after_shutdown t) (shutdown_timeout t) (failure t).
Definition set_after_shutdown (t : Teardown) (l : list nat) : Teardown :=
  mk_teardown (on_shutdown t) (handles t) (brokers t) l (shutdown_timeout t) (failure t).
Definition take_failure (t : Teardown) : Teardown :=
  mk_teardown (on_shutdown t) (handles t) (brokers t) (after_shutdown t) (shutdown_timeout t) None.

(** How a run ends: it returns, is dropped at an await, or panics. *)
Inductive Ending (A : Type) := Returns (a : A) | Dropped | Panics.
Arguments Returns {A} a.
Arguments Dropped {A}.
Arguments Panics {A}.

(** The budget of awaits ([None]: never dropped), the teardown, and the trace. *)
Definition M (A : Type) : Type := option nat -> Teardown -> Ending A * option nat * Teardown * list Event.

Definition ret {A} (a : A) : M A := fun b t => (Returns a, b, t, []).
Definition bind {A B} (m : M A) (k : A -> M B) : M B := fun b t =>
  match m b t with
  | (Returns a, b, t, tr) => let '(r, b, t, tr') := k a b t in (r, b, t, tr ++ tr')
  | (Dropped, b, t, tr) => (Dropped, b, t, tr)
  | (Panics, b, t, tr) => (Panics, b, t, tr)
  end.
Definition emit (e : Event) : M unit := fun b t => (Returns tt, b, t, [e]).
Definition modify (f : Teardown -> Teardown) : M unit := fun b t => (Returns tt, b, f t, []).
Definition gets {A} (f : Teardown -> A) : M A := fun b t => (Returns (f t), b, t, []).
Definition await : M unit := fun b t =>
  match b with
  | Some O => (Dropped, b, t, [])
  | Some (S n) => (Returns tt, Some n, t, [])
  | None => (Returns tt, None, t, [])
  end.
Definition panic {A} : M A := fun b t => (Panics, b, t, []).

Definition Outcome := result unit RustStreamError.

End monad.
Arguments Returns {A} a.
Arguments Dropped {A}.
Arguments Panics {A}.
Arguments RustStreamError : clear implicits.
Arguments Env : clear implicits.
Arguments Teardown : clear implicits.
Arguments Outcome : clear implicits.
Arguments M : clear implicits.

Notation "'let!' x ':=' m 'in' k" := (bind m (fun x => k))
  (at level 10, x name, m at level 100, k at level 200).
Notation "'do!' m 'in' k" := (bind m (fun _ => k))
  (at level 10, m at level 100, k at level 200).

Section lifecycle.
Context {E : Type} (env : Env E).

(** [if joined.is_ok() { joined = Err(..) }]. *)
Definition first_of (r : Outcome E) (e : option (RustStreamError E)) : Outcome E :=
  match r, e with
  | Ok _, Some e => Err e
  | _, _ => r
  end.

(** [run_hooks]: a hook leaves its list before it runs; how it ends is only logged. *)
Fixpoint run_hooks (set : Teardown E -> list nat -> Teardown E) (event : nat -> Event) (hooks : list nat)
  : M E unit :=
  match hooks with
  | [] => ret tt
  | hook :: rest =>
      do! modify (fun t => set t rest) in
      do! emit (event hook) in
      do! await in
      run_hooks set event rest
  end.

(** [drain_handles] without a timeout, and with one from its deadline on: a loop leaves the list
    only once it has ended. *)
Fixpoint join_all (joined : Outcome E) (l : list nat) : M E (Outcome E) :=
  match l with
  | [] => ret joined
  | handle :: rest =>
      do! await in
      do! emit (Joined handle) in
      let failed := match ends env handle with Finished => None | _ => Some (Join handle) end in
      do! modify (fun t => set_handles t rest) in
      join_all (first_of joined failed) rest
  end.
Fixpoint join_until (joined : Outcome E) (l : list nat) : M E (Outcome E) :=
  match l with
  | [] => ret joined
  | handle :: rest =>
      do! await in
      if in_time env handle then
        do! emit (Joined handle) in
        let failed := match ends env handle with Panicked => Some (Join handle) | _ => None end in
        do! modify (fun t => set_handles t rest) in
        join_until (first_of joined failed) rest
      else
        do! emit (Aborts handle) in
        do! await in
        do! emit (Joined handle) in
        do! modify (fun t => set_handles t rest) in
        join_until joined rest
  end.
Definition fits (timeout : option N) : bool :=
  match timeout with
  | None => true
  | Some timeout => (now env + timeout <=? last_instant env)%N
  end.
Definition drain_handles : M E (Outcome E) :=
  let! timeout := gets shutdown_timeout in
  let! l := gets handles in
  match timeout with
  | None => join_all (Ok tt) l
  | Some _ => if fits timeout then join_until (Ok tt) l else panic
  end.

Definition drain_continuations : M E unit :=
  do! emit ClosesTracker in
  if continuations env then await else ret tt.

(** [close_brokers], from the last registered one: a broker leaves the list before it closes. *)
Fixpoint close_last (closed : Outcome E) (reversed : list nat) : M E (Outcome E) :=
  match reversed with
  | [] => ret closed
  | broker :: rest =>
      do! modify (fun t => set_brokers t (rev rest)) in
      do! emit (Closes broker) in
      do! await in
      close_last (first_of closed (Shutdown <$> close env broker)) rest
  end.
Definition close_brokers : M E (Outcome E) := let! l := gets brokers in close_last (Ok tt) (rev l).

(** [Teardown::run]. *)
Definition run : M E (Outcome E) :=
  do! emit Begins in
  let! hooks := gets on_shutdown in
  do! run_hooks set_on_shutdown RunsOnShutdown hooks in
  do! emit Cancels in
  let! drained := drain_handles in
  do! drain_continuations in
  let! closed := close_brokers in
  let! hooks := gets after_shutdown in
  do! run_hooks set_after_shutdown RunsAfterShutdown hooks in
  match drained, closed with
  | Err e, _ => ret (Err e)
  | _, Err e => ret (Err e)
  | Ok _, Ok _ =>
      let! failed := gets failure in
      do! modify take_failure in
      ret (match failed with Some reason => Err (Dispatch reason) | None => Ok tt end)
  end.

(** ** The start *)

Record App := mk_app {
  app_brokers : list nat;
  starters : list nat;
  after_startup : list nat;
  app_on_shutdown : list nat;
  app_after_shutdown : list nat;
  app_timeout : option N;
}.

(** [unwind_connected]: in reverse, a failure only logged. *)
Definition unwind_connected (connected : list nat) : list Event := Closes <$> rev connected.

(** [connect_brokers], with what connected so far. *)
Fixpoint connect_brokers (connected l : list nat) : list Event * result (list nat) (RustStreamError E) :=
  match l with
  | [] => ([], Ok connected)
  | broker :: rest =>
      match connect env broker with
      | Some e => (Connects broker :: unwind_connected connected, Err (Connect e))
      | None =>
          let '(tr, r) := connect_brokers (connected ++ [broker]) rest in (Connects broker :: tr, r)
      end
  end.

(** [start_subscribers]: the loops it spawned, and whether it got through. *)
Fixpoint start_subscribers (handles l : list nat) : list Event * list nat * Outcome E :=
  match l with
  | [] => ([], handles, Ok tt)
  | starter :: rest =>
      match open env starter with
      | Some e => ([Opens starter], handles, Err (Subscribe e))
      | None =>
          let '(tr, handles, r) := start_subscribers (handles ++ [starter]) rest in
          (Opens starter :: tr, handles, r)
      end
  end.

Fixpoint run_after_startup (hooks : list nat) : list Event * Outcome E :=
  match hooks with
  | [] => ([], Ok tt)
  | hook :: rest =>
      match after_startup_fails env hook with
      | Some e => ([RunsAfterStartup hook], Err (Startup e))
      | None => let '(tr, r) := run_after_startup rest in (RunsAfterStartup hook :: tr, r)
      end
  end.

(** [unwind_started]: how the drain ends is only logged; a panic in it is one of the start. *)
Definition unwind_started (spawned : list nat) (timeout : option N) (connected : list nat)
  : Ending unit * list Event :=
  let t := mk_teardown [] spawned connected [] timeout None in
  match drain_handles None t with
  | (Returns _, _, t, tr) =>
      let '(_, _, _, tr') := drain_continuations None t in
      (Returns tt, Cancels :: tr ++ tr' ++ unwind_connected connected)
  | (Dropped, _, _, tr) => (Dropped, Cancels :: tr)
  | (Panics, _, _, tr) => (Panics, Cancels :: tr)
  end.

(** [start]: the teardown of the running app, or the error the startup ended with. *)
Definition start (app : App) : Ending (result (Teardown E) (RustStreamError E)) * list Event :=
  match state_init env with
  | Some e => (Returns (Err (Startup e)), [Produces])
  | None =>
      match connect_brokers [] (app_brokers app) with
      | (tr, Err e) => (Returns (Err e), Produces :: tr)
      | (tr, Ok connected) =>
          let '(tr2, spawned, started) := start_subscribers [] (starters app) in
          let '(tr3, started) :=
            match started with
            | Ok _ => run_after_startup (after_startup app)
            | Err e => ([], Err e)
            end in
          match started with
          | Ok _ =>
              (Returns (Ok (mk_teardown (app_on_shutdown app) spawned connected
                              (app_after_shutdown app) (app_timeout app) None)),
               Produces :: tr ++ tr2 ++ tr3)
          | Err e =>
              let '(r, tr4) := unwind_started spawned (app_timeout app) connected in
              (match r with
               | Returns _ => Returns (Err e)
               | Dropped => Dropped
               | Panics => Panics
               end, Produces :: tr ++ tr2 ++ tr3 ++ tr4)
          end
      end
  end.

End lifecycle.
Section again.
Context {E : Type}.

(** A teardown dropped at the await each of [cuts] says, in the environment it met, and run again
    each time; the last run is not dropped. *)
Fixpoint run_again (cuts : list (nat * Env E)) (last : Env E) (t : Teardown E)
  : Ending (Outcome E) * Teardown E * list Event :=
  match cuts with
  | [] => let '(r, _, t, tr) := run last None t in (r, t, tr)
  | (cut, env) :: cuts =>
      match run env (Some cut) t with
      | (Dropped, _, t, tr) => let '(r, t, tr') := run_again cuts last t in (r, t, tr ++ tr')
      | (r, _, t, tr) => (r, t, tr)
      end
  end.

(** ** What a teardown has to do, and what of it a trace did *)

Definition todo (t : Teardown E) : list Event :=
  (RunsOnShutdown <$> on_shutdown t) ++ (Joined <$> handles t) ++
  (Closes <$> rev (brokers t)) ++ (RunsAfterShutdown <$> after_shutdown t).

(** A signal raised, a loop aborted and a tracker closed take no item out of the teardown. *)
Definition is_item (e : Event) : bool :=
  match e with
  | Begins | Cancels | Aborts _ | ClosesTracker => false
  | _ => true
  end.
Definition items (tr : list Event) : list Event := filter (fun e => is_item e) tr.

Lemma items_app (a b : list Event) : items (a ++ b) = items a ++ items b.
Proof. apply filter_app. Qed.

(** [m] from [P] accounts for every item: what it did and what it left is what there was.  It panics
    only over a timeout that does not fit, and ends early only where it is dropped. *)
Definition accounts {A} (env : Env E) (P : Teardown E -> Prop) (m : M E A) (Q : Teardown E -> Prop)
  : Prop :=
  forall b t, P t ->
    let '(r, b', t', tr) := m b t in
    todo t = items tr ++ todo t' /\ (b = None -> b' = None /\ r <> Dropped) /\
    shutdown_timeout t' = shutdown_timeout t /\
    (r = Panics -> fits env (shutdown_timeout t) = false) /\
    (forall a, r = Returns a -> Q t').

Lemma accounts_bind {A B} (env : Env E) P Q R (m : M E A) (k : A -> M E B) :
  accounts env P m Q -> (forall a, accounts env Q (k a) R) -> accounts env P (bind m k) R.
Proof.
  intros Hm Hk b t HP. unfold bind. specialize (Hm b t HP).
  destruct (m b t) as [[[[a| |] b1] t1] tr1], Hm as (Htodo & Hb & Hto & Hp & HQ).
  - specialize (Hk a b1 t1 (HQ a eq_refl)).
    destruct (k a b1 t1) as [[[r b2] t2] tr2], Hk as (Htodo2 & Hb2 & Hto2 & Hp2 & HR).
    rewrite items_app, <-app_assoc, <-Htodo2, <-Hto. split; [done|]. split; [|done].
    intros ->. destruct (Hb eq_refl) as [-> _]. by apply Hb2.
  - split; [done|]. split; [intros Hn; by destruct (Hb Hn)|done].
  - split; [done|]. split; [intros Hn; by destruct (Hb Hn)|]. split; [done|]. by split; [auto|].
Qed.

Lemma accounts_ret {A} (env : Env E) P (a : A) : accounts env P (ret a) P.
Proof. intros b t HP. simpl. naive_solver. Qed.
Lemma accounts_gets {A B} (env : Env E) P (f : Teardown E -> A) (k : A -> M E B) Q :
  (forall t0, P t0 -> accounts env (fun t => t = t0) (k (f t0)) Q) -> accounts env P (bind (gets f) k) Q.
Proof.
  intros Hk b t HP. specialize (Hk t HP b t eq_refl). unfold bind, gets. simpl.
  by destruct (k (f t) b t) as [[[r b'] t'] tr].
Qed.
Lemma accounts_quiet (env : Env E) P (e : Event) : is_item e = false -> accounts env P (emit e) P.
Proof.
  intros He b t HP. unfold items. simpl. rewrite filter_cons, He. simpl. naive_solver.
Qed.
Lemma accounts_await (env : Env E) P : accounts env P await P.
Proof. intros b t HP. destruct b as [[|n]|]; simpl; naive_solver. Qed.
(** An item leaves the teardown and is done, in either order. *)
Lemma accounts_take {A} (env : Env E) (P Q R : Teardown E -> Prop) (f : Teardown E -> Teardown E) (e : Event)
    (k : M E A) :
  is_item e = true -> (forall t, P t -> todo t = e :: todo (f t) /\ Q (f t) /\ shutdown_timeout (f t) = shutdown_timeout t) ->
  accounts env Q k R ->
  accounts env P (do! modify f in do! emit e in k) R /\ accounts env P (do! emit e in do! modify f in k) R.
Proof.
  intros He H Hk; split; intros b t HP; destruct (H t HP) as (Ht & HQ & Hf);
    specialize (Hk b (f t) HQ); unfold bind, modify, emit; simpl;
    destruct (k b (f t)) as [[[r b'] t'] tr], Hk as (Htodo & Hb & HR);
    unfold items in *; simpl; rewrite filter_cons, He; simpl; rewrite Ht, Htodo, <-Hf; naive_solver.
Qed.

(** ** Each stage, from where the stages before it have ended *)

Definition ran_on_shutdown (t : Teardown E) : Prop := on_shutdown t = [].
Definition drained (t : Teardown E) : Prop := ran_on_shutdown t /\ handles t = [].
Definition closed (t : Teardown E) : Prop := drained t /\ brokers t = [].
Definition torn_down (t : Teardown E) : Prop := closed t /\ after_shutdown t = [].

Lemma on_shutdown_hooks_account (env : Env E) (l : list nat) :
  accounts env (fun t => on_shutdown t = l) (run_hooks set_on_shutdown RunsOnShutdown l) ran_on_shutdown.
Proof.
  induction l as [|hook l IH]; simpl; [apply accounts_ret|].
  apply (accounts_take _ _ (fun t => on_shutdown t = l)); [done| |].
  - intros t Ht. unfold todo. by rewrite Ht.
  - apply (accounts_bind _ _ (fun t => on_shutdown t = l)); [apply accounts_await|done].
Qed.
Lemma after_shutdown_hooks_account (env : Env E) (l : list nat) :
  accounts env (fun t => closed t /\ after_shutdown t = l)
    (run_hooks set_after_shutdown RunsAfterShutdown l) torn_down.
Proof.
  induction l as [|hook l IH]; simpl; [apply accounts_ret|].
  apply (accounts_take _ _ (fun t => closed t /\ after_shutdown t = l)); [done| |].
  - intros t [[[Hon Hh] Hb] Ht]. unfold todo, closed, drained, ran_on_shutdown in *. simpl.
    by rewrite Hon, Hh, Hb, Ht.
  - apply (accounts_bind _ _ (fun t => closed t /\ after_shutdown t = l)); [apply accounts_await|done].
Qed.

(** A loop that ended leaves the list. *)
Lemma joins_account {A} (env : Env E) (handle : nat) (rest : list nat) (k : M E A) R :
  accounts env (fun t => ran_on_shutdown t /\ handles t = rest) k R ->
  accounts env (fun t => ran_on_shutdown t /\ handles t = handle :: rest)
    (do! emit (Joined handle) in do! modify (fun t => set_handles t rest) in k) R.
Proof.
  intros Hk. apply (accounts_take _ _ (fun t => ran_on_shutdown t /\ handles t = rest)); [done| |exact Hk].
  intros t [Hon Ht]. unfold todo, ran_on_shutdown in *. simpl. by rewrite Hon, Ht.
Qed.
Lemma join_all_accounts (env : Env E) (l : list nat) (joined : Outcome E) :
  accounts env (fun t => ran_on_shutdown t /\ handles t = l) (join_all env joined l) drained.
Proof.
  revert joined. induction l as [|handle l IH]; intros joined; simpl; [apply accounts_ret|].
  eapply accounts_bind; [apply accounts_await|intros _]. by apply joins_account.
Qed.
Lemma join_until_accounts (env : Env E) (l : list nat) (joined : Outcome E) :
  accounts env (fun t => ran_on_shutdown t /\ handles t = l) (join_until env joined l) drained.
Proof.
  revert joined. induction l as [|handle l IH]; intros joined; simpl; [apply accounts_ret|].
  eapply accounts_bind; [apply accounts_await|intros _].
  destruct (in_time env handle); [by apply joins_account|].
  eapply accounts_bind; [by apply accounts_quiet|intros _].
  eapply accounts_bind; [apply accounts_await|intros _]. by apply joins_account.
Qed.
Lemma drain_handles_accounts (env : Env E) : accounts env ran_on_shutdown (drain_handles env) drained.
Proof.
  apply accounts_gets; intros t0 H0. apply accounts_gets; intros t1 ->.
  destruct (shutdown_timeout t0) as [timeout|] eqn:Htimeout.
  - destruct (fits env (Some timeout)) eqn:Hfits.
    + intros b t ->. by apply (join_until_accounts env (handles t0)).
    + intros b t ->. simpl. rewrite Htimeout. naive_solver.
  - intros b t ->. by apply (join_all_accounts env (handles t0)).
Qed.

Lemma close_last_accounts (env : Env E) (reversed : list nat) (outcome : Outcome E) :
  accounts env (fun t => drained t /\ brokers t = rev reversed) (close_last env outcome reversed) closed.
Proof.
  revert outcome. induction reversed as [|broker rest IH]; intros outcome; simpl; [apply accounts_ret|].
  apply (accounts_take _ _ (fun t => drained t /\ brokers t = rev rest)); [done| |].
  - intros t [[Hon Hh] Hb]. unfold todo, drained, ran_on_shutdown in *. simpl.
    by rewrite Hon, Hh, Hb, rev_app_distr, !rev_involutive.
  - eapply accounts_bind; [apply accounts_await|intros _]. apply IH.
Qed.

Lemma close_brokers_account (env : Env E) : accounts env drained (close_brokers env) closed.
Proof.
  apply accounts_gets; intros t0 H0 b t ->. apply (close_last_accounts env).
  by rewrite rev_involutive.
Qed.
Lemma drain_continuations_account (env : Env E) P : accounts env P (drain_continuations env) P.
Proof.
  eapply accounts_bind; [by apply accounts_quiet|intros _].
  destruct (continuations env); [apply accounts_await|apply accounts_ret].
Qed.

Lemma run_accounts (env : Env E) : accounts env (fun _ => True) (run env) torn_down.
Proof.
  eapply accounts_bind; [by apply accounts_quiet|intros _].
  apply accounts_gets; intros t0 _.
  eapply accounts_bind; [intros b t ->; by apply on_shutdown_hooks_account|intros _].
  eapply accounts_bind; [by apply accounts_quiet|intros _].
  eapply accounts_bind; [apply drain_handles_accounts|intros joined].
  eapply accounts_bind; [apply drain_continuations_account|intros _].
  eapply accounts_bind; [apply close_brokers_account|intros outcome].
  apply accounts_gets; intros t1 H1.
  eapply accounts_bind; [intros b t ->; by apply after_shutdown_hooks_account|intros _].
  destruct joined; [|apply accounts_ret]. destruct outcome; [|apply accounts_ret].
  apply accounts_gets; intros t2 H2 b t ->. simpl. naive_solver.
Qed.

Lemma torn_down_todo (t : Teardown E) : torn_down t -> todo t = [].
Proof. intros [[[Hon Hh] Hb] Ha]. unfold todo. by rewrite Hon, Hh, Hb, Ha. Qed.

(** Whatever drops it and however often, what the runs of a teardown did is what there was to do. *)
Lemma run_again_accounts (cuts : list (nat * Env E)) (last : Env E) (t : Teardown E) :
  let '(r, t', tr) := run_again cuts last t in
  todo t = items tr ++ todo t' /\
  ((exists o, r = Returns o /\ todo t' = []) \/
   r = Panics /\ exists env, env ∈ last :: cuts.*2 /\ fits env (shutdown_timeout t) = false).
Proof.
  revert t. induction cuts as [|[cut env] cuts IH]; intros t; simpl.
  - pose proof (run_accounts last None t I) as H. destruct (run last None t) as [[[r b] t'] tr].
    destruct H as (? & Hb & _ & Hp & Hr). split; [done|]. destruct (Hb eq_refl), r; [left|done|right].
    + eexists. split; [done|]. by eapply torn_down_todo, Hr.
    + split; [done|]. exists last. split; [set_solver|by apply Hp].
  - pose proof (run_accounts env (Some cut) t I) as H.
    destruct (run env (Some cut) t) as [[[[o| |] b] t'] tr], H as (Htodo & _ & Hto & Hp & Hr).
    + split; [done|]. left. exists o. split; [done|]. by eapply torn_down_todo, Hr.
    + specialize (IH t'). destruct (run_again cuts last t') as [[r t''] tr'].
      destruct IH as (IH & [?|(-> & env' & Henv & ?)]); rewrite items_app, <-app_assoc, <-IH;
        (split; [done|]); [by left|right]. split; [done|]. exists env'. rewrite <-Hto. set_solver.
    + split; [done|]. right. split; [done|]. exists env. split; [set_solver|by apply Hp].
Qed.

(** ** What a run that is not dropped does, and what it returns *)

Definition join_failed (env : Env E) (timeout : option N) (handle : nat) : bool :=
  match timeout, ends env handle with
  | None, Finished => false
  | None, _ => true
  | Some _, Panicked => in_time env handle
  | Some _, _ => false
  end.
Definition drain_outcome (env : Env E) (t : Teardown E) : Outcome E :=
  match find (join_failed env (shutdown_timeout t)) (handles t) with
  | Some handle => Err (Join handle)
  | None => Ok tt
  end.
Definition close_outcome (env : Env E) (t : Teardown E) : Outcome E :=
  match omap (close env) (rev (brokers t)) with
  | e :: _ => Err (Shutdown e)
  | [] => Ok tt
  end.
Definition run_outcome (env : Env E) (t : Teardown E) : Outcome E :=
  match drain_outcome env t, close_outcome env t, failure t with
  | Err e, _, _ => Err e
  | _, Err e, _ => Err e
  | _, _, Some reason => Err (Dispatch reason)
  | _, _, None => Ok tt
  end.
Definition drain_trace (env : Env E) (timeout : option N) (l : list nat) : list Event :=
  flat_map (fun handle =>
    match timeout with
    | Some _ => if in_time env handle then [Joined handle] else [Aborts handle; Joined handle]
    | None => [Joined handle]
    end) l.
Definition run_trace (env : Env E) (t : Teardown E) : list Event :=
  Begins :: (RunsOnShutdown <$> on_shutdown t) ++
  Cancels :: drain_trace env (shutdown_timeout t) (handles t) ++
  ClosesTracker :: (Closes <$> rev (brokers t)) ++ (RunsAfterShutdown <$> after_shutdown t).

Lemma run_hooks_run (set : Teardown E -> list nat -> Teardown E) (event : nat -> Event)
    (l : list nat) (t : Teardown E) :
  (forall t a b, set (set t a) b = set t b) -> (l = [] -> set t [] = t) ->
  run_hooks set event l None t = (Returns tt, None, set t [], event <$> l).
Proof.
  intros Hset. revert t. induction l as [|hook l IH]; intros t Ht; [by rewrite Ht|].
  unfold bind, modify, emit, await. simpl. unfold bind. simpl.
  rewrite IH by (intros ->; apply Hset). by rewrite Hset.
Qed.
Lemma join_all_run (env : Env E) (l : list nat) (joined : Outcome E) (t : Teardown E) :
  handles t = l ->
  join_all env joined l None t =
    (Returns (match joined, find (join_failed env None) l with
              | Ok _, Some handle => Err (Join handle)
              | _, _ => joined
              end), None, set_handles t [], drain_trace env None l).
Proof.
  revert joined t. induction l as [|handle l IH]; intros joined t Ht; simpl.
  - destruct t; simpl in *; subst. by destruct joined.
  - unfold bind, modify, emit, await. simpl. rewrite IH by done. simpl.
    destruct (ends env handle), joined; done.
Qed.
Lemma join_until_run (env : Env E) (timeout : N) (l : list nat) (joined : Outcome E) (t : Teardown E) :
  handles t = l ->
  join_until env joined l None t =
    (Returns (match joined, find (join_failed env (Some timeout)) l with
              | Ok _, Some handle => Err (Join handle)
              | _, _ => joined
              end), None, set_handles t [], drain_trace env (Some timeout) l).
Proof.
  revert joined t. induction l as [|handle l IH]; intros joined t Ht; simpl.
  - destruct t; simpl in *; subst. by destruct joined.
  - unfold bind, modify, emit, await. simpl.
    destruct (in_time env handle); simpl; rewrite IH by done; simpl;
      destruct (ends env handle), joined; done.
Qed.
Lemma close_last_run (env : Env E) (reversed : list nat) (outcome : Outcome E) (t : Teardown E) :
  brokers t = rev reversed ->
  close_last env outcome reversed None t =
    (Returns (match outcome, omap (close env) reversed with
              | Ok _, e :: _ => Err (Shutdown e)
              | _, _ => outcome
              end), None, set_brokers t [], Closes <$> reversed).
Proof.
  revert outcome t. induction reversed as [|broker rest IH]; intros outcome t Ht; simpl.
  - destruct t; simpl in *; subst. by destruct outcome.
  - unfold bind, modify, emit, await. simpl. rewrite IH by done. simpl.
    destruct (close env broker), outcome; done.
Qed.

Lemma drain_handles_run (env : Env E) (t : Teardown E) :
  fits env (shutdown_timeout t) = true ->
  drain_handles env None t =
    (Returns (drain_outcome env t), None, set_handles t [],
     drain_trace env (shutdown_timeout t) (handles t)).
Proof.
  intros Hfits. unfold drain_handles, drain_outcome, bind, gets.
  destruct (shutdown_timeout t) as [timeout|] eqn:Ht; [rewrite Hfits|].
  - rewrite (join_until_run env timeout) by done. simpl. rewrite ?app_nil_l. by destruct (find _ _).
  - rewrite join_all_run by done. simpl. by destruct (find _ _).
Qed.
Lemma close_brokers_run (env : Env E) (t : Teardown E) :
  close_brokers env None t =
    (Returns (close_outcome env t), None, set_brokers t [], Closes <$> rev (brokers t)).
Proof.
  unfold close_brokers, close_outcome, bind, gets. rewrite close_last_run by by rewrite rev_involutive.
  simpl. by destruct (omap _ _).
Qed.
Lemma drain_continuations_run (env : Env E) (t : Teardown E) :
  drain_continuations env None t = (Returns tt, None, t, [ClosesTracker]).
Proof. unfold drain_continuations, bind, emit. by destruct (continuations env). Qed.

Lemma bind_run {A B} (m : M E A) (k : A -> M E B) (a : A) (t t1 : Teardown E) (tr : list Event) :
  m None t = (Returns a, None, t1, tr) ->
  bind m k None t = let '(r, b, t2, tr2) := k a None t1 in (r, b, t2, tr ++ tr2).
Proof. intros Hm. unfold bind. by rewrite Hm. Qed.

Lemma run_run (env : Env E) (t : Teardown E) :
  fits env (shutdown_timeout t) = true ->
  exists t', run env None t = (Returns (run_outcome env t), None, t', run_trace env t).
Proof.
  intros Hfits. destruct t as [on hs bs after timeout failed]. unfold run.
  erewrite bind_run by done. erewrite bind_run by done.
  erewrite bind_run by (apply run_hooks_run; [done|by simpl; intros ->]).
  erewrite bind_run by done. erewrite bind_run by by apply drain_handles_run.
  erewrite bind_run by apply drain_continuations_run.
  erewrite bind_run by apply close_brokers_run. erewrite bind_run by done.
  erewrite bind_run by (apply run_hooks_run; [done|by simpl; intros ->]).
  unfold run_outcome, run_trace, drain_outcome, close_outcome. simpl.
  destruct (find _ _); simpl; [|destruct (omap _ _); simpl]; eexists; repeat f_equal;
    rewrite <-?app_assoc; simpl; rewrite ?app_nil_r; done.
Qed.

(** ** What a start does *)

Definition plan (app : App) : list Event :=
  Produces :: (Connects <$> app_brokers app) ++ (Opens <$> starters app) ++
  (RunsAfterStartup <$> after_startup app).
Definition step_error (env : Env E) (step : Event) : option (RustStreamError E) :=
  match step with
  | Produces => Startup <$> state_init env
  | Connects broker => Connect <$> connect env broker
  | Opens starter => Subscribe <$> open env starter
  | RunsAfterStartup hook => Startup <$> after_startup_fails env hook
  | _ => None
  end.
Fixpoint first_failure (env : Env E) (before l : list Event)
  : option (list Event * Event * RustStreamError E) :=
  match l with
  | [] => None
  | step :: rest =>
      match step_error env step with
      | Some e => Some (before, step, e)
      | None => first_failure env (before ++ [step]) rest
      end
  end.
Definition connected (before : list Event) : list nat :=
  omap (fun e => match e with Connects broker => Some broker | _ => None end) before.
Definition opened (before : list Event) : list nat :=
  omap (fun e => match e with Opens starter => Some starter | _ => None end) before.
Definition unwinding (env : Env E) (timeout : option N) (before : list Event) (failed : Event)
  : list Event :=
  let closes := Closes <$> rev (connected before) in
  match failed with
  | Produces => []
  | Connects _ => closes
  | _ => Cancels :: if fits env timeout then drain_trace env timeout (opened before) ++ ClosesTracker :: closes else []
  end.
(** Undoing a step needs the deadline of the drain once loops may have been spawned. *)
Definition undoable (env : Env E) (timeout : option N) (failed : Event) : bool :=
  match failed with Opens _ | RunsAfterStartup _ => fits env timeout | _ => true end.
(** The steps in order, up to the first that fails; its error, after what undoes the steps before, or the
    panic of a deadline the clock cannot name, with the loops cancelled and nothing more undone. *)
Definition start_spec (env : Env E) (app : App)
  : Ending (result (Teardown E) (RustStreamError E)) * list Event :=
  match first_failure env [] (plan app) with
  | None =>
      (Returns (Ok (mk_teardown (app_on_shutdown app) (starters app) (app_brokers app)
                      (app_after_shutdown app) (app_timeout app) None)), plan app)
  | Some (before, step, e) =>
      (if undoable env (app_timeout app) step then Returns (Err e) else Panics,
       before ++ step :: unwinding env (app_timeout app) before step)
  end.

Lemma first_failure_app (env : Env E) (before l l' : list Event) :
  first_failure env before (l ++ l') =
    match first_failure env before l with
    | Some f => Some f
    | None => first_failure env (before ++ l) l'
    end.
Proof.
  revert before. induction l as [|step l IH]; intros before; simpl; [by rewrite app_nil_r|].
  destruct (step_error env step); [done|]. rewrite IH. by rewrite <-app_assoc.
Qed.

Lemma connected_app (a b : list Event) : connected (a ++ b) = connected a ++ connected b.
Proof. apply omap_app. Qed.
Lemma opened_app (a b : list Event) : opened (a ++ b) = opened a ++ opened b.
Proof. apply omap_app. Qed.
Lemma connected_connects (l : list nat) : connected (Connects <$> l) = l.
Proof. induction l as [|x l IH]; [done|]. unfold connected in *. csimpl. by rewrite IH. Qed.
Lemma connected_opens (l : list nat) : connected (Opens <$> l) = [].
Proof. by induction l. Qed.
Lemma opened_opens (l : list nat) : opened (Opens <$> l) = l.
Proof. induction l as [|x l IH]; [done|]. unfold opened in *. csimpl. by rewrite IH. Qed.
Lemma opened_connects (l : list nat) : opened (Connects <$> l) = [].
Proof. by induction l. Qed.

(** Each phase goes through all its steps, or fails at the first of them that does. *)
Lemma connect_brokers_run (env : Env E) (before : list Event) (l : list nat) :
  match first_failure env before (Connects <$> l) with
  | None => connect_brokers env (connected before) l = (Connects <$> l, Ok (connected before ++ l))
  | Some (before', step, e) => exists tr broker,
      step = Connects broker /\ before' = before ++ tr /\
      connect_brokers env (connected before) l =
        (tr ++ step :: (Closes <$> rev (connected before')), Err e)
  end.
Proof.
  revert before. induction l as [|broker l IH]; intros before; simpl; [by rewrite app_nil_r|].
  destruct (connect env broker) as [e|]; simpl.
  - exists [], broker. by rewrite app_nil_r.
  - specialize (IH (before ++ [Connects broker])).
    assert (Hc : connected (before ++ [Connects broker]) = connected before ++ [broker])
      by by rewrite connected_app.
    rewrite Hc in IH. destruct (first_failure _ _ _) as [[[before' step] e]|].
    + destruct IH as (tr & broker' & -> & -> & ->). exists (Connects broker :: tr), broker'.
      split; [done|]. by rewrite <-app_assoc.
    + rewrite IH. by rewrite <-app_assoc.
Qed.
Lemma start_subscribers_run (env : Env E) (before : list Event) (l : list nat) :
  match first_failure env before (Opens <$> l) with
  | None => start_subscribers env (opened before) l = (Opens <$> l, opened before ++ l, Ok tt)
  | Some (before', step, e) => exists tr starter,
      step = Opens starter /\ before' = before ++ tr /\ connected before' = connected before /\
      start_subscribers env (opened before) l = (tr ++ [step], opened before', Err e)
  end.
Proof.
  revert before. induction l as [|starter l IH]; intros before; simpl; [by rewrite app_nil_r|].
  destruct (open env starter) as [e|]; simpl.
  - exists [], starter. by rewrite app_nil_r.
  - specialize (IH (before ++ [Opens starter])).
    assert (Hc : opened (before ++ [Opens starter]) = opened before ++ [starter])
      by by rewrite opened_app.
    assert (Hc' : connected (before ++ [Opens starter]) = connected before)
      by by rewrite connected_app, app_nil_r.
    rewrite Hc, Hc' in IH. destruct (first_failure _ _ _) as [[[before' step] e]|].
    + destruct IH as (tr & starter' & -> & -> & ? & ->). exists (Opens starter :: tr), starter'.
      rewrite <-app_assoc in *. done.
    + rewrite IH. by rewrite <-app_assoc.
Qed.
Lemma run_after_startup_run (env : Env E) (before : list Event) (l : list nat) :
  match first_failure env before (RunsAfterStartup <$> l) with
  | None => run_after_startup env l = (RunsAfterStartup <$> l, Ok tt)
  | Some (before', step, e) => exists tr hook,
      step = RunsAfterStartup hook /\ before' = before ++ tr /\
      connected before' = connected before /\ opened before' = opened before /\
      run_after_startup env l = (tr ++ [step], Err e)
  end.
Proof.
  revert before. induction l as [|hook l IH]; intros before; simpl; [done|].
  destruct (after_startup_fails env hook) as [e|]; simpl.
  - exists [], hook. by rewrite app_nil_r.
  - specialize (IH (before ++ [RunsAfterStartup hook])).
    assert (Hc : connected (before ++ [RunsAfterStartup hook]) = connected before)
      by by rewrite connected_app, app_nil_r.
    assert (Ho : opened (before ++ [RunsAfterStartup hook]) = opened before)
      by by rewrite opened_app, app_nil_r.
    rewrite Hc, Ho in IH. destruct (first_failure _ _ _) as [[[before' step] e]|].
    + destruct IH as (tr & hook' & -> & -> & ? & ? & ->). exists (RunsAfterStartup hook :: tr), hook'.
      rewrite <-app_assoc in *. done.
    + by rewrite IH.
Qed.

Lemma unwind_started_run (env : Env E) (spawned : list nat) (timeout : option N) (brokers : list nat) :
  unwind_started env spawned timeout brokers =
    if fits env timeout
    then (Returns tt, Cancels :: drain_trace env timeout spawned ++ ClosesTracker :: (Closes <$> rev brokers))
    else (Panics, [Cancels]).
Proof.
  unfold unwind_started. destruct (fits env timeout) eqn:Hfits.
  - rewrite drain_handles_run by done. by rewrite drain_continuations_run.
  - unfold drain_handles, bind, gets. simpl. destruct timeout; [|done]. by rewrite Hfits.
Qed.

Lemma start_refines (env : Env E) (app : App) : start env app = start_spec env app.
Proof.
  unfold start, start_spec, plan. simpl. destruct (state_init env) as [e|]; [done|]. simpl.
  rewrite first_failure_app. pose proof (connect_brokers_run env [Produces] (app_brokers app)) as Hc.
  destruct (first_failure env [Produces] _) as [[[before step] e]|].
  { destruct Hc as (tr & broker & -> & -> & Hc). cbn in Hc. by rewrite Hc. }
  cbn in Hc. rewrite Hc, first_failure_app. set (before := [Produces] ++ _).
  assert (Hconn : connected before = app_brokers app)
    by (unfold before; by rewrite connected_app, connected_connects).
  assert (Hopen : opened before = []) by (unfold before; by rewrite opened_app, opened_connects).
  pose proof (start_subscribers_run env before (starters app)) as Hs. rewrite Hopen, Hconn in Hs.
  destruct (first_failure env before _) as [[[before' step] e]|].
  { destruct Hs as (tr & starter & -> & -> & Hconn' & ->). rewrite unwind_started_run.
    unfold unwinding, undoable. rewrite Hconn'. destruct (fits _ _); simpl; by rewrite <-!app_assoc. }
  rewrite Hs. set (before' := before ++ _).
  assert (Hconn' : connected before' = app_brokers app)
    by (unfold before'; by rewrite connected_app, connected_opens, app_nil_r).
  assert (Hopen' : opened before' = starters app)
    by (unfold before'; by rewrite opened_app, Hopen, opened_opens).
  pose proof (run_after_startup_run env before' (after_startup app)) as Ha. rewrite Hopen', Hconn' in Ha.
  destruct (first_failure env before' _) as [[[before'' step] e]|].
  - destruct Ha as (tr & hook & -> & -> & Hc'' & Ho'' & ->). rewrite unwind_started_run.
    unfold unwinding, undoable. rewrite Hc'', Ho''. unfold before', before. destruct (fits _ _); simpl; by rewrite <-!app_assoc.
  - by rewrite Ha.
Qed.

(** ** What they promise *)

(** C21. However often a teardown is dropped, at whichever awaits and whatever the loops, hooks and
    brokers do each time, running it again finishes it: over all its runs each shutdown hook starts
    once and in order, each loop is seen to end once and in order, after every [on_shutdown] hook,
    each broker is shut down once, in reverse registration order and only with every loop joined,
    and the [after_shutdown] hooks start last; and the last run returns with nothing left to do.  The
    one exception is a shutdown timeout past the last instant the clock of some run names: that run
    panics at its deadline, what was done until then was done once and in order, and the rest is left. *)
Theorem teardown_resumes (cuts : list (nat * Env E)) (last : Env E) (t : Teardown E) :
  let '(r, t', tr) := run_again cuts last t in
  todo t = items tr ++ todo t' /\
  match r with
  | Returns _ => todo t' = []
  | Panics => exists env, env ∈ last :: cuts.*2 /\ fits env (shutdown_timeout t) = false
  | Dropped => False
  end.
Proof.
  pose proof (run_again_accounts cuts last t) as H. destruct (run_again cuts last t) as [[r t'] tr].
  destruct H as (Htodo & [(o & -> & Hnil)|(-> & Hnot)]); by split.
Qed.

(** A teardown goes through every stage whatever fails in one: the hooks, the signal, every loop
    joined (those not ended at the deadline aborted first), the tracker, every broker in reverse and
    the last hooks, and only then returns the first failure: the first loop, in order, whose join
    failed, else the first broker, in reverse order, whose shutdown did, else the failure that tore
    the service down. *)
Theorem teardown_goes_through (env : Env E) (t : Teardown E) :
  fits env (shutdown_timeout t) = true ->
  exists t', run env None t = (Returns (run_outcome env t), None, t', run_trace env t).
Proof. apply run_run. Qed.

(** C22. A start takes its steps in order, the state, each broker's connect, each subscription, each
    hook, up to the first that fails, and returns that step's error once it has undone the ones
    before: the brokers that connected, and only those, are shut down in reverse, after every loop
    spawned has been cancelled and joined.  With no failure it hands out a teardown of exactly what
    it started.  Where the step that fails comes after the connects and the shutdown timeout passes
    the last instant the clock names, the start panics at the deadline of the drain instead, with
    the loops cancelled and every broker left connected. *)
Theorem start_unwinds (env : Env E) (app : App) : start env app = start_spec env app.
Proof. apply start_refines. Qed.

(** A shutdown timeout past the last instant the clock names, as [Duration::MAX] is, panics the
    teardown at [Tokio.now() + timeout]: the hooks of [on_shutdown] have run, no broker is shut down
    and no [after_shutdown] hook runs. *)
Theorem shutdown_timeout_overflow (env : Env E) (t : Teardown E) (timeout : N) :
  shutdown_timeout t = Some timeout -> (last_instant env < now env + timeout)%N ->
  exists t', run env None t =
    (Panics, None, t', Begins :: (RunsOnShutdown <$> on_shutdown t) ++ [Cancels]) /\
    brokers t' = brokers t /\ handles t' = handles t /\ after_shutdown t' = after_shutdown t.
Proof.
  intros Ht Hlast. assert (Hfits : fits env (Some timeout) = false) by (simpl; by apply N.leb_gt).
  destruct t as [on hs bs after to failed]. simpl in Ht. subst. exists (mk_teardown [] hs bs after (Some timeout) failed).
  unfold run. erewrite bind_run by done. erewrite bind_run by done.
  erewrite bind_run by (apply run_hooks_run; [done|by simpl; intros ->]).
  erewrite bind_run by done. unfold bind at 1, drain_handles at 1, bind at 1, gets at 1. cbn beta iota.
  unfold bind at 1, gets at 1. cbn beta iota. unfold set_on_shutdown. cbn [shutdown_timeout handles].
  rewrite Hfits. simpl. by rewrite ?app_nil_r.
Qed.

End again.

(** Two loops, the first of which panics, two brokers and a hook on each side; the second run of the
    teardown comes after a drop at its third await. *)
Definition calm : Env nat :=
  mk_env None (fun _ => None) (fun _ => None) (fun _ => None) (fun h => h =? 0)
    (fun h => if h =? 0 then Panicked else Finished) (fun b => if b =? 1 then Some 9 else None)
    true 0 1000.
Definition a_teardown : Teardown nat := mk_teardown [0] [0; 1] [0; 1] [1] (Some 10%N) None.

Lemma teardown_resumes_witness :
  exists outcome t' tr,
    run_again [(2, calm); (0, calm)] calm a_teardown = (Returns outcome, t', tr) /\
    items tr = todo a_teardown.
Proof.
  pose proof (teardown_resumes [(2, calm); (0, calm)] calm a_teardown) as H.
  destruct (run_again _ _ _) as [[r t'] tr]. destruct H as [Htodo Hr]. destruct r as [o| |].
  - exists o, t', tr. split; [reflexivity|]. by rewrite Htodo, Hr, app_nil_r.
  - destruct Hr.
  - destruct Hr as (env & Henv & Hf). exfalso.
    repeat (apply elem_of_cons in Henv as [->|Henv]; [discriminate Hf|]). by apply elem_of_nil in Henv.
Defined.

Lemma teardown_goes_through_witness :
  exists t', run calm None a_teardown =
    (Returns (Err (Join 0)), None, t',
     [Begins; RunsOnShutdown 0; Cancels; Joined 0; Aborts 1; Joined 1; ClosesTracker; Closes 1; Closes 0;
      RunsAfterShutdown 1]).
Proof. exact (teardown_goes_through calm a_teardown eq_refl). Defined.

(** The second subscription of an app refuses to open. *)
Definition refusing : Env nat :=
  mk_env None (fun _ => None) (fun s => if s =? 1 then Some 4 else None) (fun _ => None) (fun _ => true)
    (fun _ => Finished) (fun _ => None) false 0 1000.
(** The same with a timeout the clock takes, and with one it cannot name. *)
Lemma start_unwinds_witness :
  start refusing (mk_app [0; 1] [0; 1; 2] [0] [] [] None) =
    (Returns (Err (Subscribe 4)),
     [Produces; Connects 0; Connects 1; Opens 0; Opens 1; Cancels; Joined 0; ClosesTracker; Closes 1;
      Closes 0]) /\
  start refusing (mk_app [0; 1] [0; 1; 2] [0] [] [] (Some 1001%N)) =
    (Panics, [Produces; Connects 0; Connects 1; Opens 0; Opens 1; Cancels]).
Proof.
  split; [exact (start_unwinds refusing (mk_app [0; 1] [0; 1; 2] [0] [] [] None))|
    exact (start_unwinds refusing (mk_app [0; 1] [0; 1; 2] [0] [] [] (Some 1001%N)))].
Defined.
End Lifecycle.
