(* ===== verification/Health.v ===== *)
(** * The shutdown signal and the health a probe reads
    ([runtime-tokio/src/shutdown.rs], [app/health.rs], [app/run.rs])

    The flag the dispatch loops read, the token their waits park on, the slot of the first failure
    and the health report are shared by every loop, by the watcher [start] spawns and by the caller
    of [shutdown].  They are interleaved here one shared access at a time: a loop whose stream ends,
    whose handler fails or that is told to stop, the watcher that wakes on the token and reports the
    failure it finds, and the shutdown from its first transition to its last. *)
From S2P Require Import Prelude RustStd Lifecycle.

Module Health.

Section health.
Context {R : Type}.

(** ** What they share *)

Inductive HealthState :=
  | Running
  | ShuttingDown
  | Stopped
  | Failed (reason : R).

Definition is_running (s : HealthState) : bool := match s with Running => true | _ => false end.

Record SubscriptionCount := mk_count { active : nat; started : nat }.

Inductive SubscriptionEnd := Log | FailFast.

(** [State] and the token beside it; [state] and [subscriptions] are the report's [Health]. *)
Record Shutdown := mk_shutdown {
  cancelled : bool;
  token : bool;
  stopping : bool;
  failure : option R;
  state : HealthState;
  subscriptions : SubscriptionCount;
  on_end : SubscriptionEnd;
}.

Definition with_subscription_end (on_end : SubscriptionEnd) : Shutdown :=
  mk_shutdown false false false None Running (mk_count 0 0) on_end.

Definition raise_flag (s : Shutdown) : Shutdown :=
  mk_shutdown true (token s) (stopping s) (failure s) (state s) (subscriptions s) (on_end s).
Definition cancel_token (s : Shutdown) : Shutdown :=
  mk_shutdown (cancelled s) true (stopping s) (failure s) (state s) (subscriptions s) (on_end s).
Definition begin (s : Shutdown) : Shutdown :=
  mk_shutdown (cancelled s) (token s) true (failure s) (state s) (subscriptions s) (on_end s).
Definition set_failure (s : Shutdown) (f : option R) : Shutdown :=
  mk_shutdown (cancelled s) (token s) (stopping s) f (state s) (subscriptions s) (on_end s).
(** [get_or_insert_with]: the first reason stays. *)
Definition record_failure (s : Shutdown) (reason : R) : Shutdown :=
  set_failure s (match failure s with Some first => Some first | None => Some reason end).
Definition taken_failure (s : Shutdown) : option R * Shutdown := (failure s, set_failure s None).
Definition peek_failure (s : Shutdown) : option R := failure s.

(** [HealthReport]: its two counts move together where a loop starts. *)
Definition transition (s : Shutdown) (to : HealthState) : Shutdown :=
  mk_shutdown (cancelled s) (token s) (stopping s) (failure s) to (subscriptions s) (on_end s).
Definition set_subscriptions (s : Shutdown) (c : SubscriptionCount) : Shutdown :=
  mk_shutdown (cancelled s) (token s) (stopping s) (failure s) (state s) c (on_end s).
Definition subscription_started (s : Shutdown) : Shutdown :=
  set_subscriptions s (mk_count (S (active (subscriptions s))) (S (started (subscriptions s)))).
(** [active -= 1], or nothing where it would go below zero and panic. *)
Definition subscription_ended (s : Shutdown) : option Shutdown :=
  match active (subscriptions s) with
  | O => None
  | S n => Some (set_subscriptions s (mk_count n (started (subscriptions s))))
  end.

(** ** Who shares it *)

(** A dispatch loop with its [Consuming] guard: between accesses of its own, in [stream_ended] before
    its first read and before its second, in [signal] before the slot, the flag and the token, about
    to drop the guard, and gone. *)
Inductive LoopAt :=
  | Consumes
  | AsksCancelled
  | AsksStopping
  | Records (reason : R)
  | RaisesFlag
  | CancelsToken
  | Leaves
  | Gone.

(** The task of [watch_for_failure]. *)
Inductive WatcherAt :=
  | Unspawned
  | Waits
  | Peeks
  | Reports (reason : R)
  | Ended.

(** The caller: [start] while it opens the subscriptions, the service left to run, and
    [RunningApp::shutdown] with the shared accesses of [Teardown::run] it drives. *)
Inductive CallerAt :=
  | Starts
  | Serves
  | Begins
  | Hooks
  | Cancels
  | Joins
  | TakesFailure
  | Terminates (outcome : Lifecycle.Outcome R)
  | Returned (outcome : Lifecycle.Outcome R).

(** [recorded]: every reason the loops put to the slot, in order. *)
Record World := mk_world {
  shutdown : Shutdown;
  loops : list LoopAt;
  watcher : WatcherAt;
  caller : CallerAt;
  recorded : list R;
}.

(** [reason.to_string()] of an error that is not a fail-fast one, and what a loop reports where its
    stream ends. *)
Context (to_string : Lifecycle.RustStreamError R -> R) (stream_ended : R).

Inductive Turn :=
  | LoopFails (i : nat) (reason : R)
  | LoopEnds (i : nat)
  | LoopStops (i : nat)
  | LoopGoes (i : nat)
  | Watches
  | Opens
  | Opened
  | ShutsDown (torn : option (nat + R)).

(** One access of a loop at [at_]; the failure it puts to the slot, if it does. *)
Definition loop_goes (s : Shutdown) (at_ : LoopAt) : option (Shutdown * LoopAt * list R) :=
  match at_ with
  | Consumes | Gone => None
  | AsksCancelled => Some (s, if cancelled s then Leaves else AsksStopping, [])
  | AsksStopping =>
      Some (s, if stopping s then Leaves
               else match on_end s with FailFast => Records stream_ended | Log => Leaves end, [])
  | Records reason => Some (record_failure s reason, RaisesFlag, [reason])
  | RaisesFlag => Some (raise_flag s, CancelsToken, [])
  | CancelsToken => Some (cancel_token s, Consumes, [])
  | Leaves => s ← subscription_ended s; Some (s, Gone, [])
  end.

(** One access of the watcher: it waits for the token. *)
Definition watch (s : Shutdown) (at_ : WatcherAt) : option (Shutdown * WatcherAt) :=
  match at_ with
  | Unspawned | Ended => None
  | Waits => if token s then Some (s, Peeks) else None
  | Peeks => Some (s, match peek_failure s with Some reason => Reports reason | None => Ended end)
  | Reports reason => Some (transition s (Failed reason), Ended)
  end.

(** [let terminal = match &outcome ..]. *)
Definition terminal (outcome : Lifecycle.Outcome R) : HealthState :=
  match outcome with
  | Ok _ => Stopped
  | Err (Lifecycle.Dispatch reason) => Failed reason
  | Err e => Failed (to_string e)
  end.

Definition is_gone (at_ : LoopAt) : bool := match at_ with Gone => true | _ => false end.

(** One access of the caller in [shutdown]: the join waits for every loop, and [torn] is what the
    joins and the brokers' shutdowns came to, the loop whose join failed or the broker's error. *)
Definition shut_down (w : World) (torn : option (nat + R)) : option (Shutdown * CallerAt) :=
  let s := shutdown w in
  match caller w with
  | Starts | Returned _ => None
  | Serves => Some (transition s ShuttingDown, Begins)
  | Begins => Some (begin s, Hooks)
  | Hooks => Some (raise_flag s, Cancels)
  | Cancels => Some (cancel_token s, Joins)
  | Joins =>
      if forallb is_gone (loops w) then
        Some (s, match torn with
                 | Some (inl handle) => Terminates (Err (Lifecycle.Join handle))
                 | Some (inr e) => Terminates (Err (Lifecycle.Shutdown e))
                 | None => TakesFailure
                 end)
      else None
  | TakesFailure =>
      let '(failed, s) := taken_failure s in
      Some (s, Terminates (match failed with
                           | Some reason => Err (Lifecycle.Dispatch reason)
                           | None => Ok tt
                           end))
  | Terminates outcome => Some (transition s (terminal outcome), Returned outcome)
  end.

Definition put_loop (w : World) (i : nat) (at_ : LoopAt) : World :=
  mk_world (shutdown w) (<[i := at_]> (loops w)) (watcher w) (caller w) (recorded w).

(** A loop that is between accesses does what its subscription has it do. *)
Definition turns_to (w : World) (i : nat) (at_ : LoopAt) : option World :=
  match loops w !! i with Some Consumes => Some (put_loop w i at_) | _ => None end.

Definition step (w : World) (t : Turn) : option World :=
  match t with
  | LoopFails i reason => turns_to w i (Records reason)
  | LoopEnds i => turns_to w i AsksCancelled
  | LoopStops i => turns_to w i Leaves
  | LoopGoes i =>
      at_ ← loops w !! i;
      '(s, at_, new) ← loop_goes (shutdown w) at_;
      Some (mk_world s (<[i := at_]> (loops w)) (watcher w) (caller w) (recorded w ++ new))
  | Watches =>
      '(s, at_) ← watch (shutdown w) (watcher w);
      Some (mk_world s (loops w) at_ (caller w) (recorded w))
  | Opens =>
      match caller w with
      | Starts =>
          Some (mk_world (subscription_started (shutdown w)) (loops w ++ [Consumes]) (watcher w)
                  Starts (recorded w))
      | _ => None
      end
  | Opened =>
      match caller w with
      | Starts => Some (mk_world (shutdown w) (loops w) Waits Serves (recorded w))
      | _ => None
      end
  | ShutsDown torn =>
      '(s, at_) ← shut_down w torn;
      Some (mk_world s (loops w) (watcher w) at_ (recorded w))
  end.

Fixpoint play (w : World) (l : list Turn) : option World :=
  match l with
  | [] => Some w
  | t :: l => w ← step w t; play w l
  end.

Definition start (on_end : SubscriptionEnd) : World :=
  mk_world (with_subscription_end on_end) [] Unspawned Starts [].

(** ** What holds between any two accesses *)

Definition runs (at_ : LoopAt) : bool := negb (is_gone at_).

Definition counted (w : World) : Prop :=
  active (subscriptions (shutdown w)) = count runs (loops w) /\
  started (subscriptions (shutdown w)) = length (loops w).

(** A raised signal has a failure or the caller behind it, and the token follows the flag. *)
Definition raised_by (w : World) : Prop :=
  recorded w <> [] \/
  match caller w with
  | Cancels | Joins | TakesFailure | Terminates _ | Returned _ => True
  | _ => False
  end.
Definition loop_ok (w : World) (at_ : LoopAt) : Prop :=
  match at_ with
  | RaisesFlag => recorded w <> []
  | CancelsToken => recorded w <> [] /\ cancelled (shutdown w) = true
  | _ => True
  end.
Definition signal_ok (w : World) : Prop :=
  (token (shutdown w) = true -> cancelled (shutdown w) = true) /\
  (cancelled (shutdown w) = true -> raised_by w) /\
  (caller w = Cancels -> cancelled (shutdown w) = true) /\
  forall i at_, loops w !! i = Some at_ -> loop_ok w at_.

(** The slot holds the first failure until the caller takes it, with every loop gone. *)
Definition slot_ok (w : World) : Prop :=
  let slot := failure (shutdown w) in
  match caller w with
  | TakesFailure => forallb is_gone (loops w) = true /\ slot = head (recorded w)
  | Terminates (Ok _) | Returned (Ok _) =>
      forallb is_gone (loops w) = true /\ recorded w = [] /\ slot = None
  | Terminates (Err (Lifecycle.Dispatch reason)) | Returned (Err (Lifecycle.Dispatch reason)) =>
      forallb is_gone (loops w) = true /\ head (recorded w) = Some reason /\ slot = None
  | Terminates (Err _) | Returned (Err _) =>
      forallb is_gone (loops w) = true /\ slot = head (recorded w)
  | _ => slot = head (recorded w)
  end.

Definition watcher_ok (w : World) : Prop :=
  match watcher w with
  | Unspawned => caller w = Starts
  | Waits => caller w <> Starts
  | Peeks => caller w <> Starts /\ token (shutdown w) = true
  | Reports reason => caller w <> Starts /\ head (recorded w) = Some reason
  | Ended => caller w <> Starts
  end.

(** The report, by where the caller is. *)
Definition failed_first (w : World) : Prop :=
  exists reason, state (shutdown w) = Failed reason /\ head (recorded w) = Some reason.
Definition state_ok (w : World) : Prop :=
  match caller w with
  | Starts => state (shutdown w) = Running
  | Serves =>
      match watcher w with
      | Ended => failed_first w
      | _ => state (shutdown w) = Running
      end
  | Returned (Ok _) => state (shutdown w) = Stopped
  | Returned (Err e) => state (shutdown w) = terminal (Err e) \/ failed_first w
  | _ => state (shutdown w) = ShuttingDown \/ failed_first w
  end.

Record world_ok (w : World) : Prop := mk_world_ok {
  ok_counted : counted w;
  ok_signal : signal_ok w;
  ok_slot : slot_ok w;
  ok_watcher : watcher_ok w;
  ok_state : state_ok w;
}.

Lemma health_start_ok on_end : world_ok (start on_end).
Proof. split; [done| |done|done|done]. split_and!; try done. Qed.

(** While a loop is left the caller is still to take the failure. *)
Definition early (c : CallerAt) : Prop :=
  match c with
  | Starts | Serves | Begins | Hooks | Cancels | Joins => True
  | _ => False
  end.
Lemma early_while_busy w i at_ :
  slot_ok w -> loops w !! i = Some at_ -> runs at_ = true ->
  early (caller w) /\ failure (shutdown w) = head (recorded w).
Proof.
  intros Hslot Hi Hruns. unfold slot_ok in Hslot.
  assert (Hgone : forallb is_gone (loops w) = true -> False).
  { intros H. apply (proj1 (forallb_elem is_gone (loops w))) with (x := at_) in H;
      [|by eapply list_elem_of_lookup_2].
    unfold runs in Hruns. by rewrite H in Hruns. }
  destruct (caller w) as [| | | | | | |[|[]]|[|[]]]; simpl; naive_solver.
Qed.

Lemma slot_first w reason :
  slot_ok w -> failure (shutdown w) = Some reason -> head (recorded w) = Some reason.
Proof.
  unfold slot_ok. intros Hslot Hf. rewrite Hf in Hslot.
  destruct (caller w) as [| | | | | | |[|[]]|[|[]]]; intuition congruence.
Qed.

(** A turn of the loops keeps the caller and the watcher where they are; the report too. *)
Record same_rest (w w' : World) : Prop := mk_same_rest {
  same_watcher : watcher w' = watcher w;
  same_caller : caller w' = caller w;
  same_state : state (shutdown w') = state (shutdown w);
  same_first : forall reason, head (recorded w) = Some reason -> head (recorded w') = Some reason;
  same_token : token (shutdown w) = true -> token (shutdown w') = true;
}.
Lemma same_rest_watcher_ok w w' : same_rest w w' -> watcher_ok w -> watcher_ok w'.
Proof. intros [Hw Hc _ Hf Ht]. unfold watcher_ok. rewrite Hw, Hc. destruct (watcher w); naive_solver. Qed.
Lemma same_rest_failed w w' : same_rest w w' -> failed_first w -> failed_first w'.
Proof. intros [_ _ Hs Hf _] (reason & Hr & Hh). exists reason. rewrite Hs. auto. Qed.
Lemma same_rest_state_ok w w' : same_rest w w' -> state_ok w -> state_ok w'.
Proof.
  intros Hsame. pose proof (same_rest_failed _ _ Hsame) as Hf. destruct Hsame as [Hw Hc Hs _ _].
  unfold state_ok. rewrite Hw, Hc, Hs.
  destruct (caller w) as [| | | | | | |[|e]|[|e]], (watcher w); naive_solver.
Qed.
Lemma early_slot_ok w : early (caller w) -> failure (shutdown w) = head (recorded w) -> slot_ok w.
Proof. unfold slot_ok. by destruct (caller w). Qed.

Lemma loop_ok_insert w w' i at_ :
  (forall a, loop_ok w a -> loop_ok w' a) -> loops w' = <[i := at_]> (loops w) -> loop_ok w' at_ ->
  (forall j a, loops w !! j = Some a -> loop_ok w a) -> forall j a, loops w' !! j = Some a -> loop_ok w' a.
Proof.
  intros Hmono Hl Hat Hold j a. rewrite Hl. intros [(<- & <- & _)|(_ & Hj)]%list_lookup_insert_Some; eauto.
Qed.

Lemma turns_to_ok w i at_ w' :
  loop_ok w at_ -> runs at_ = true -> world_ok w -> turns_to w i at_ = Some w' -> world_ok w'.
Proof.
  intros Hat Hruns [[Hact Hst] (Htok & Hraised & Hcan & Hloops) Hslot Hwatch Hstate]. unfold turns_to.
  destruct (loops w !! i) as [[]|] eqn:Hi; intros [= <-].
  destruct (early_while_busy _ _ _ Hslot Hi eq_refl) as [Hearly Hfail].
  assert (Hsame : same_rest w (put_loop w i at_)) by by split.
  split; [| |by apply early_slot_ok|by eapply same_rest_watcher_ok|by eapply same_rest_state_ok].
  - unfold counted. simpl. pose proof (count_insert runs _ _ _ at_ Hi) as Hc. rewrite Hruns in Hc.
    simpl in Hc. rewrite length_insert. split; [lia|done].
  - unfold signal_ok. simpl. split_and!; try done. by apply (loop_ok_insert w (put_loop w i at_) i at_).
Qed.


(** What an access of a loop changes of the shared state. *)
Lemma loop_goes_changes s at_ s' at2 new :
  loop_goes s at_ = Some (s', at2, new) ->
  runs at_ = true /\ state s' = state s /\ started (subscriptions s') = started (subscriptions s) /\
  (if runs at2 then 1 else 0) + active (subscriptions s) = 1 + active (subscriptions s') /\
  failure s' = match failure s with Some first => Some first | None => head new end /\
  length new <= 1 /\
  (token s = true -> token s' = true) /\
  (cancelled s = true -> cancelled s' = true) /\
  (cancelled s' = true -> cancelled s = true \/ at_ = RaisesFlag) /\
  (token s' = true -> token s = true \/ at_ = CancelsToken) /\
  match at2 with
  | RaisesFlag => new <> []
  | CancelsToken => at_ = RaisesFlag /\ cancelled s' = true
  | _ => True
  end.
Proof.
  destruct at_ as [| | |reason| | | |]; simpl; intros H; try discriminate;
    [| | | | |unfold subscription_ended in H; destruct (active (subscriptions s)) as [|n] eqn:Ha; [done|]];
    injection H as <- <- <-; unfold record_failure; simpl;
    destruct (cancelled s) eqn:?, (stopping s), (on_end s), (failure s);
    simpl; rewrite ?Ha; split_and!; try done; try lia; naive_solver.
Qed.

Lemma loop_goes_ok w i at_ s at2 new :
  world_ok w -> loops w !! i = Some at_ -> loop_goes (shutdown w) at_ = Some (s, at2, new) ->
  world_ok (mk_world s (<[i := at2]> (loops w)) (watcher w) (caller w) (recorded w ++ new)).
Proof.
  intros [[Hact Hst] (Htok & Hraised & Hcan & Hloops) Hslot Hwatch Hstate] Hi Hgoes.
  apply loop_goes_changes in Hgoes as (Hruns & Hstat & Hsub & Hcount & Hfail' & Hnew & Ht & Hc & Hc' & Ht' & Hat2).
  destruct (early_while_busy _ _ _ Hslot Hi Hruns) as [Hearly Hfail]. set (w' := mk_world _ _ _ _ _).
  assert (Hsame : same_rest w w').
  { split; try done. simpl. intros reason Hh. by destruct (recorded w). }
  assert (Hgrow : recorded w <> [] -> recorded w' <> []) by (simpl; by destruct (recorded w)).
  pose proof (Hloops i at_ Hi) as Hat.
  split; [| | |by eapply same_rest_watcher_ok|by eapply same_rest_state_ok].
  - unfold counted. simpl. pose proof (count_insert runs _ _ _ at2 Hi) as Hins. rewrite Hruns in Hins.
    rewrite length_insert, Hsub. split; [lia|done].
  - split_and!; simpl.
    + intros [Htrue| ->]%Ht'; [auto|]. apply Hc. by apply Hat.
    + intros [Htrue| ->]%Hc'; [|left; by apply Hgrow].
      destruct (Hraised Htrue) as [Hne|]; [left; by apply Hgrow|by right].
    + auto.
    + apply (loop_ok_insert w w' i at2); [|done| |done].
      * intros []; simpl; naive_solver.
      * destruct at2; simpl; try done; [|destruct Hat2 as [-> ?]; by split; [apply Hgrow|]].
        by destruct (recorded w).
  - apply early_slot_ok; simpl; [done|]. rewrite Hfail', Hfail. by destruct (recorded w).
Qed.

Lemma watch_ok w s at_ :
  world_ok w -> watch (shutdown w) (watcher w) = Some (s, at_) ->
  world_ok (mk_world s (loops w) at_ (caller w) (recorded w)).
Proof.
  intros [Hcount Hsig Hslot Hwatch Hstate] Hw. unfold watcher_ok in Hwatch.
  destruct (watcher w) as [| | |reason|] eqn:Hwat; simpl in Hw; try done.
  - destruct (token (shutdown w)) eqn:Htok; [|done]. injection Hw as <- <-.
    split; try done. unfold state_ok in *. simpl. by rewrite Hwat in Hstate.
  - injection Hw as <- <-. destruct Hwatch as [Hstarts Htok], Hsig as (Ht & Hraised & Hrest).
    unfold peek_failure. split; [done|done|done| |].
    + unfold watcher_ok. simpl. destruct (failure _) as [reason|] eqn:Hf; [|done]. split; [done|].
      by apply slot_first.
    + unfold state_ok in *. simpl. rewrite Hwat in Hstate. destruct (caller w) eqn:Hc; try done.
      destruct (failure (shutdown w)) as [reason|] eqn:Hf; [done|]. exfalso.
      unfold slot_ok in Hslot. rewrite Hc in Hslot. destruct (Hraised (Ht Htok)) as [Hne|H].
      * destruct (recorded w); [done|]. simpl in Hslot. congruence.
      * by rewrite Hc in H.
  - injection Hw as <- <-. destruct Hwatch as [Hstarts Hhead].
    assert (Hfirst : failed_first (mk_world (transition (shutdown w) (Failed reason)) (loops w) Ended
      (caller w) (recorded w))) by by exists reason.
    split; try done. unfold state_ok, slot_ok in *. simpl in *.
    destruct (caller w) as [| | | | | | |[]|[|e]]; try done; try (by right).
    destruct Hslot as (_ & Hnil & _). by rewrite Hnil in Hhead.
Qed.

Lemma opens_ok w :
  world_ok w -> caller w = Starts ->
  world_ok (mk_world (subscription_started (shutdown w)) (loops w ++ [Consumes]) (watcher w) Starts
              (recorded w)).
Proof.
  intros [[Hact Hst] (Htok & Hraised & Hcan & Hloops) Hslot Hwatch Hstate] Hc.
  unfold slot_ok, state_ok in *. rewrite Hc in *.
  split; try done; [| |by unfold watcher_ok in *; rewrite Hc in Hwatch].
  - unfold counted. simpl. rewrite count_app, length_app, Hact, Hst. simpl. split; [|lia].
    change (count runs [Consumes]) with 1. lia.
  - unfold signal_ok, raised_by in *. rewrite Hc in *. split_and!; try done. simpl.
    intros i at_ [Hi|(_ & (_ & <-)%list_lookup_singleton_Some)]%lookup_app_Some; [by eapply Hloops|done].
Qed.
Lemma health_opened_ok w :
  world_ok w -> caller w = Starts ->
  world_ok (mk_world (shutdown w) (loops w) Waits Serves (recorded w)).
Proof.
  intros [Hcount (Htok & Hraised & Hcan & Hloops) Hslot Hwatch Hstate] Hc.
  unfold slot_ok, state_ok in *. rewrite Hc in *. split; try done.
  unfold signal_ok, raised_by in *. rewrite Hc in *. by split_and!.
Qed.

Lemma signal_moves w s c :
  signal_ok w -> token s = token (shutdown w) \/ cancelled s = true ->
  (cancelled (shutdown w) = true -> cancelled s = true) ->
  (cancelled s = true -> raised_by (mk_world s (loops w) (watcher w) c (recorded w))) ->
  (c = Cancels -> cancelled s = true) ->
  signal_ok (mk_world s (loops w) (watcher w) c (recorded w)).
Proof.
  intros (Htok & _ & _ & Hloops) Ht Hc Hr Hcan. split_and!; simpl; try done.
  - intros Htrue. destruct Ht as [Heq|]; [|done]. rewrite Heq in Htrue. auto.
  - intros i at_ Hi. specialize (Hloops i at_ Hi). destruct at_; simpl in *; naive_solver.
Qed.

(** The caller's accesses, one component of the invariant at a time. *)
Lemma shut_down_keeps w torn s c :
  shut_down w torn = Some (s, c) ->
  subscriptions s = subscriptions (shutdown w) /\ caller w <> Starts /\ c <> Starts /\
  (token (shutdown w) = true -> token s = true).
Proof.
  unfold shut_down, taken_failure.
  destruct (caller w); try destruct (forallb _ _); try destruct torn as [[]|]; intros [= <- <-]; done.
Qed.
Lemma shut_down_signal w torn s c :
  signal_ok w -> shut_down w torn = Some (s, c) ->
  signal_ok (mk_world s (loops w) (watcher w) c (recorded w)).
Proof.
  intros Hsig Hs. pose proof Hsig as (Htok & Hraised & Hcan & _).
  unfold shut_down, taken_failure, raised_by in *.
  destruct (caller w); try destruct (forallb _ _); try destruct torn as [[]|]; try discriminate; injection Hs as <- <-;
    apply signal_moves; simpl; try done; unfold raised_by; simpl; naive_solver.
Qed.
Lemma shut_down_slot w torn s c :
  slot_ok w -> shut_down w torn = Some (s, c) ->
  slot_ok (mk_world s (loops w) (watcher w) c (recorded w)).
Proof.
  intros Hslot Hs. unfold shut_down, taken_failure, slot_ok in *.
  destruct (caller w) as [| | | | | | |[|[]]|]; try destruct (forallb _ _) eqn:Hg;
    try destruct torn as [[]|]; try discriminate; injection Hs as <- <-; simpl; try done.
  all: destruct (failure (shutdown w)), (recorded w); naive_solver.
Qed.
Lemma shut_down_state w torn s c :
  slot_ok w -> state_ok w -> shut_down w torn = Some (s, c) ->
  state_ok (mk_world s (loops w) (watcher w) c (recorded w)).
Proof.
  intros Hslot Hstate Hs. unfold shut_down, taken_failure, state_ok, failed_first in *.
  destruct (caller w) as [| | | | | | |[|[]]|]; try destruct (forallb _ _) eqn:Hg;
    try destruct torn as [[]|]; try discriminate; injection Hs as <- <-; simpl; try done; by left.
Qed.
Lemma health_shut_down_ok w torn s c :
  world_ok w -> shut_down w torn = Some (s, c) ->
  world_ok (mk_world s (loops w) (watcher w) c (recorded w)).
Proof.
  intros [[Hact Hst] Hsig Hslot Hwatch Hstate] Hs.
  destruct (shut_down_keeps _ _ _ _ Hs) as (Hsub & Hc & Hc' & Ht). split.
  - unfold counted. simpl. by rewrite Hsub.
  - by eapply shut_down_signal.
  - by eapply shut_down_slot.
  - unfold watcher_ok in *. simpl. destruct (watcher w); naive_solver.
  - by eapply shut_down_state.
Qed.

Lemma health_step_ok w t w' : world_ok w -> step w t = Some w' -> world_ok w'.
Proof.
  intros Hok. destruct t; simpl; intros Hs.
  - eapply turns_to_ok; [| |exact Hok|exact Hs]; done.
  - eapply turns_to_ok; [| |exact Hok|exact Hs]; done.
  - eapply turns_to_ok; [| |exact Hok|exact Hs]; done.
  - apply bind_Some in Hs as (at_ & Hi & Hs). apply bind_Some in Hs as ([[s at2] new] & Hg & [= <-]).
    by eapply loop_goes_ok.
  - apply bind_Some in Hs as ([s at_] & Hw & [= <-]). by apply watch_ok.
  - destruct (caller w) eqn:Hc; try done. injection Hs as <-. by apply opens_ok.
  - destruct (caller w) eqn:Hc; try done. injection Hs as <-. by apply health_opened_ok.
  - apply bind_Some in Hs as ([s c] & Hd & [= <-]). by eapply health_shut_down_ok.
Qed.
Lemma play_ok w l w' : world_ok w -> play w l = Some w' -> world_ok w'.
Proof.
  revert w. induction l as [|t l IH]; intros w Hok Hp; [by injection Hp as <-|].
  apply bind_Some in Hp as (w1 & Hs & Hp). eapply IH; [|done]. by eapply health_step_ok.
Qed.

(** ** What a probe reads *)

Lemma not_yet_stopped w :
  state_ok w -> (forall outcome, caller w <> Returned outcome) -> state (shutdown w) <> Stopped.
Proof.
  unfold state_ok, failed_first. intros Hs Hc.
  destruct (caller w), (watcher w); try (by exfalso; eapply Hc);
    intros Hstop; rewrite Hstop in Hs; naive_solver.
Qed.

(** C23. Whatever the interleaving of the loops, the watcher and the caller, once [shutdown] has
    returned, and from then on whatever the watcher still does, the probe reads [Stopped] exactly
    where it returned [Ok], with no failure ever recorded, and [Failed] where it returned an error:
    with the reason of the first failure where that is the error, the very one [shutdown] returned,
    and otherwise with the error's text or, where a failure was recorded too, the first one's
    reason; every loop has ended and the probe counts none active.  Before it returned it never
    reads [Stopped]; a service whose watcher ended with nobody calling [shutdown] reads [Failed]
    with the first reason.  The probe counts as active exactly the loops that still run, and a
    loop that drops its guard never takes the count below zero. *)
Theorem health_tells_the_outcome on_end l w :
  play (start on_end) l = Some w ->
  match caller w with
  | Returned outcome =>
      forallb is_gone (loops w) = true /\ active (subscriptions (shutdown w)) = 0 /\
      match outcome with
      | Ok _ => state (shutdown w) = Stopped /\ recorded w = []
      | Err (Lifecycle.Dispatch reason) =>
          state (shutdown w) = Failed reason /\ head (recorded w) = Some reason
      | Err e => state (shutdown w) = Failed (to_string e) \/ failed_first w
      end
  | at_ =>
      state (shutdown w) <> Stopped /\
      (at_ = Serves -> watcher w = Ended -> failed_first w)
  end /\
  active (subscriptions (shutdown w)) = count runs (loops w) /\
  started (subscriptions (shutdown w)) = length (loops w) /\
  (forall i, loops w !! i = Some Leaves -> loop_goes (shutdown w) Leaves <> None).
Proof.
  intros Hp. destruct (play_ok _ _ _ (health_start_ok on_end) Hp) as [[Hact Hst] _ Hslot _ Hstate].
  split_and!; [|done|done|].
  - assert (Hnone : forallb is_gone (loops w) = true -> active (subscriptions (shutdown w)) = 0).
    { intros Hg. rewrite Hact. apply count_zero. intros a Ha. unfold runs.
      by rewrite (proj1 (forallb_elem is_gone (loops w)) Hg a Ha). }
    pose proof (not_yet_stopped w Hstate) as Hnot. pose proof Hstate as Hserves.
    unfold slot_ok in Hslot. unfold state_ok in Hstate, Hserves.
    destruct (caller w) as [| | | | | | |o|[|[]]] eqn:Hc;
      try (split; [by apply Hnot|]; by intros ? Hw; rewrite ?Hw in Hserves).
    all: destruct_and?; split_and!; try done; auto.
    destruct Hstate as [Hs|(r & Hs & Hr)]; [done|congruence].
  - intros i Hi. simpl. unfold subscription_ended. rewrite Hact.
    pose proof (count_pos runs (loops w) Leaves ltac:(by eapply list_elem_of_lookup_2) eq_refl).
    by destruct (count runs (loops w)); [lia|].
Qed.

End health.

(** A loop fails, the other one's stream ends meanwhile, and the caller shuts down while the watcher
    reports. *)
Definition fails_then_stops : list (@Turn nat) :=
  [Opens; Opens; Opened; LoopFails 0 7; LoopGoes 0; LoopEnds 1; LoopGoes 1; LoopGoes 0; LoopGoes 1;
   LoopGoes 1; LoopGoes 0; LoopStops 0; Watches; ShutsDown None; Watches; ShutsDown None; LoopGoes 0;
   ShutsDown None; Watches; ShutsDown None; ShutsDown None; ShutsDown None; ShutsDown None].

Lemma health_tells_the_outcome_witness :
  exists w, play (fun _ => 0) 1 (start Log) fails_then_stops = Some w /\
    caller w = Returned (Err (Lifecycle.Dispatch 7)) /\
    state (shutdown w) = Failed 7 /\ active (subscriptions (shutdown w)) = 0.
Proof.
  destruct (play (fun _ => 0) 1 (start Log) fails_then_stops) as [w|] eqn:Hp;
    [|vm_compute in Hp; discriminate].
  pose proof (health_tells_the_outcome (fun _ => 0) 1 Log fails_then_stops w Hp) as [H _].
  assert (Hc : caller w = Returned (Err (Lifecycle.Dispatch 7)))
    by (vm_compute in Hp; by injection Hp as <-).
  rewrite Hc in H. exists w. destruct H as (_ & ? & ? & _). by split_and!.
Defined.

(** [RunningApp::stopping] waits on the token, which the orderly teardown cancels as well: the future
    resolves on a shutdown no failure led to. *)
Definition stopping_resolves (w : @World nat) : bool := token (shutdown w).
Definition orderly : list (@Turn nat) :=
  [Opens; Opened; ShutsDown None; ShutsDown None; ShutsDown None; ShutsDown None; LoopStops 0;
   LoopGoes 0; ShutsDown None; ShutsDown None; ShutsDown None].
Lemma stopping_resolves_on_shutdown :
  exists w, play (fun _ => 0) 1 (start Log) orderly = Some w /\
    caller w = Returned (Ok tt) /\ recorded w = [] /\ stopping_resolves w = true.
Proof. eexists. split; [vm_compute; reflexivity|done]. Qed.
End Health.
