(* ===== verification/Attribution.v ===== *)
(** * Whose options a published message carried ([runtime/src/testing/attribution.rs])

    The harness copies the per-message options of a publish where the runtime hands it over; the
    broker's publish log holds the messages without them.  [attribute] reads the options of each
    message of the log back from the records, by payload, and answers [Ambiguous] where it cannot
    tell.  The theorem takes any history of what the broker took, recorded publishes and unseen
    ones, in any order the hand-overs' spans allow, and shows that a message is never given the
    options of another publish. *)
From S2P Require Import Prelude RustStd.

Module Attribution.

Section attribution.
Context {P O H : Type} `{EqDecision P}.

(** ** Records *)

Record RawMessage := mk_message { name : string; payload : P; headers : H }.
Record RecordedOptions := mk_options { type_name : string; value : option O }.
Record Span := mk_span { started : N; finished : N }.
Record RuntimePublish := mk_publish {
  publish_message : RawMessage;
  publish_options : RecordedOptions;
  publish_span : Span;
}.
Inductive PublishedEntry :=
  | Test (m : RawMessage) (s : Span)
  | Runtime (p : RuntimePublish).
Inductive MessageOptions :=
  | Recorded (o : RecordedOptions)
  | Unrecorded
  | Ambiguous.

(** [RecordedOptions::certainly_same_as]. *)
Definition same_defaults (one other : RecordedOptions) : bool :=
  bool_decide (type_name one = type_name other) &&
  match value one, value other with None, None => true | _, _ => false end.
Definition overlaps (one other : Span) : bool :=
  (started one <? finished other)%N && (started other <? finished one)%N.
Definition message (e : PublishedEntry) : RawMessage :=
  match e with Test m _ => m | Runtime p => publish_message p end.
Definition span (e : PublishedEntry) : Span :=
  match e with Test _ s => s | Runtime p => publish_span p end.
Definition options (e : PublishedEntry) : MessageOptions :=
  match e with Test _ _ => Unrecorded | Runtime p => Recorded (publish_options p) end.
Definition certainly_same_as (one other : PublishedEntry) : bool :=
  match one, other with
  | Test _ _, Test _ _ => true
  | Runtime one, Runtime other => same_defaults (publish_options one) (publish_options other)
  | _, _ => false
  end.

(** ** The attribution *)

(** [for (index, value) in .. { v[index] = value }]. *)
Definition assign {A} (l : list (nat * A)) (v : list A) : list A :=
  fold_left (fun v '(i, x) => <[i := x]> v) l v.
Definition all_to {A} (l : list nat) (x : A) : list (nat * A) := (fun i => (i, x)) <$> l.

Definition of_payload (p : P) (records : list PublishedEntry) : list PublishedEntry :=
  filter (fun r => payload (message r) = p) records.
Definition positions (log : list RawMessage) (p : P) (l : list nat) : list nat :=
  filter (fun index => payload <$> log !! index = Some p) l.

Fixpoint concurrent (candidates : list PublishedEntry) : bool :=
  match candidates with
  | [] => false
  | one :: rest => existsb (fun other => overlaps (span one) (span other)) rest || concurrent rest
  end.

(** What the messages of one payload, at [in_log], are given. *)
Definition attribution_of (in_log : list nat) (candidates : list PublishedEntry)
  : list (nat * MessageOptions) :=
  match candidates with
  | [] => []
  | earliest :: _ =>
      if (length candidates =? length in_log) && negb (concurrent candidates) then
        zip in_log (options <$> candidates)
      else if (length in_log <=? length candidates) &&
              forallb (fun record => certainly_same_as record earliest) candidates then
        all_to in_log (options earliest)
      else all_to in_log Ambiguous
  end.

Definition pair_step (log : list RawMessage) (records : list PublishedEntry)
    (state : list MessageOptions * list bool) (first : nat) : list MessageOptions * list bool :=
  let '(attributed, seen) := state in
  match log !! first, seen !! first with
  | Some m, Some false =>
      let in_log := positions log (payload m) (seq first (length log - first)) in
      (assign (attribution_of in_log (of_payload (payload m) records)) attributed,
       assign (all_to in_log true) seen)
  | _, _ => state
  end.
Definition pair_by_payload (log : list RawMessage) (records : list PublishedEntry)
  : list MessageOptions :=
  fst (fold_left (pair_step log records) (seq 0 (length log))
         (replicate (length log) Unrecorded, replicate (length log) false)).

Definition attribute (log : list RawMessage) (records : list PublishedEntry) (evicted : nat)
  : list MessageOptions :=
  if (0 <? evicted) && negb (length records =? evicted + length log) then
    (fun m => if existsb (fun r => bool_decide (payload (message r) = payload m)) records
              then Ambiguous else Unrecorded) <$> log
  else
    let '(dropped, kept) := (take evicted records, drop evicted records) in
    let candidates :=
      filter (fun one => existsb (fun other => overlaps (span one) (span other)) kept) dropped ++ kept in
    pair_by_payload log candidates.

(** [split_record]. *)
Definition split_record (recorded : list PublishedEntry) : list RawMessage * list MessageOptions :=
  (message <$> recorded, options <$> recorded).

(** ** What the loop computes *)

Lemma assign_length {A} (l : list (nat * A)) v : length (assign l v) = length v.
Proof.
  revert v. induction l as [|[i x] l IH]; intros v; [done|]. unfold assign in *. simpl.
  by rewrite IH, length_insert.
Qed.
Lemma assign_other {A} (l : list (nat * A)) v k : k ∉ l.*1 -> assign l v !! k = v !! k.
Proof.
  revert v. induction l as [|[i x] l IH]; intros v Hk; [done|]. csimpl in *.
  unfold assign in *. simpl. rewrite IH by set_solver. rewrite list_lookup_insert_ne; [done|set_solver].
Qed.
Lemma assign_at {A} (l : list (nat * A)) v k x :
  NoDup l.*1 -> (k, x) ∈ l -> k < length v -> assign l v !! k = Some x.
Proof.
  revert v. induction l as [|[i y] l IH]; intros v Hnd Hin Hk; [by apply elem_of_nil in Hin|].
  csimpl in *. apply NoDup_cons in Hnd as [Hi Hnd]. unfold assign in *. simpl.
  apply elem_of_cons in Hin as [[= <- <-]|Hin].
  - change (assign l (<[k:=x]> v) !! k = Some x). rewrite assign_other by done.
    by rewrite list_lookup_insert_eq.
  - apply IH; [done|done|by rewrite length_insert].
Qed.
Lemma all_to_fst {A} (l : list nat) (x : A) : (all_to l x).*1 = l.
Proof. unfold all_to. rewrite <-list_fmap_compose. apply list_fmap_id. Qed.

(** What [attribution_of] gives the message at [k]. *)
Definition given (in_log : list nat) (candidates : list PublishedEntry) (k : nat) (o : MessageOptions)
  : Prop :=
  match candidates with
  | [] => o = Unrecorded
  | _ => (k, o) ∈ attribution_of in_log candidates
  end.

Lemma attribution_of_fst in_log candidates :
  candidates <> [] -> (attribution_of in_log candidates).*1 = in_log.
Proof.
  intros Hne. destruct candidates as [|earliest rest]; [done|]. unfold attribution_of.
  set (c := earliest :: rest). destruct ((length c =? length in_log) && negb (concurrent c)) eqn:Heq.
  - apply fst_zip. rewrite length_fmap. apply andb_prop in Heq as [Heq%Nat.eqb_eq _]. lia.
  - destruct ((_ <=? _) && _); apply all_to_fst.
Qed.

Definition payload_at (log : list RawMessage) (k : nat) : option P := payload <$> log !! k.
Definition all_of (log : list RawMessage) (p : P) : list nat := positions log p (seq 0 (length log)).

Lemma elem_of_positions log p l k : k ∈ positions log p l <-> payload_at log k = Some p /\ k ∈ l.
Proof. unfold positions. by rewrite list_elem_of_filter. Qed.
Lemma elem_of_all log p k : k ∈ all_of log p <-> payload_at log k = Some p.
Proof.
  unfold all_of. rewrite elem_of_positions, elem_of_seq. split; [by intros [? _]|]. intros Hk.
  split; [done|]. unfold payload_at in Hk. apply fmap_Some in Hk as (m & Hm & _).
  apply lookup_lt_Some in Hm. lia.
Qed.
Lemma all_of_NoDup log p : NoDup (all_of log p).
Proof. apply NoDup_filter, NoDup_seq. Qed.
(** The positions of a payload from its first one on are all of them. *)
Lemma positions_from_first log p first :
  first <= length log -> (forall k, k < first -> payload_at log k <> Some p) ->
  positions log p (seq first (length log - first)) = all_of log p.
Proof.
  intros Hle Hbefore. unfold all_of, positions. replace (length log) with (first + (length log - first)) at 2 by lia.
  rewrite seq_app, filter_app. assert (Hnil : filter (fun index => payload <$> log !! index = Some p) (seq 0 first) = []);
    [|by rewrite Hnil].
  apply elem_of_nil_inv. intros k. rewrite list_elem_of_filter, elem_of_seq. intros [Hkp Hk].
  apply (Hbefore k); [lia|done].
Qed.

(** After the positions before [n]: a payload met there is done, the others are untouched. *)
Definition met (log : list RawMessage) (n : nat) (p : P) : Prop :=
  exists k, k < n /\ payload_at log k = Some p.
Definition loop_ok (log : list RawMessage) (records : list PublishedEntry) (n : nat)
    (state : list MessageOptions * list bool) : Prop :=
  let '(attributed, seen) := state in
  length attributed = length log /\ length seen = length log /\
  forall k p, payload_at log k = Some p ->
    (met log n p /\ seen !! k = Some true /\
       exists o, attributed !! k = Some o /\ given (all_of log p) (of_payload p records) k o) \/
    (~ met log n p /\ seen !! k = Some false /\ attributed !! k = Some Unrecorded).

Lemma pair_step_ok log records n state :
  n < length log -> loop_ok log records n state -> loop_ok log records (S n) (pair_step log records state n).
Proof.
  intros Hn. destruct state as [attributed seen]. intros (Hla & Hls & Hk). unfold pair_step.
  destruct (lookup_lt_is_Some_2 log n Hn) as [m Hm]. rewrite Hm.
  assert (Hp : payload_at log n = Some (payload m)) by (unfold payload_at; by rewrite Hm).
  assert (Hmet : forall p, met log (S n) p <-> met log n p \/ p = payload m).
  { intros p. split.
    - intros (k & Hlt & Hkp). destruct (decide (k = n)) as [->|]; [right; congruence|left].
      exists k. split; [lia|done].
    - intros [(k & ? & ?)| ->]; [exists k|exists n]; split; [lia|done|lia|done]. }
  destruct (Hk n _ Hp) as [(Hmn & -> & _)|(Hnot & -> & _)].
  - split_and!; [done|done|]. intros k p Hkp. rewrite Hmet.
    destruct (Hk k p Hkp) as [(?&?&?)|(Hno & Hs & Ha)]; [left; naive_solver|].
    right. split; [|done]. intros [?| ->]; [done|]. done.
  - rewrite positions_from_first; [|lia|intros k Hlt Hkp; apply Hnot; by exists k].
    set (p0 := payload m) in *. split_and!; [by rewrite assign_length..|].
    intros k p Hkp. rewrite Hmet. destruct (decide (p = p0)) as [->|Hne].
    + left. split; [by right|]. assert (Hin : k ∈ all_of log p0) by by apply elem_of_all.
      assert (Hlt : k < length log).
      { unfold payload_at in Hkp. apply fmap_Some in Hkp as (? & Hl & _). by apply lookup_lt_Some in Hl. }
      split.
      { apply assign_at; [rewrite all_to_fst; apply all_of_NoDup| |lia]. apply list_elem_of_fmap. eauto. }
      destruct (of_payload p0 records) as [|e rest] eqn:Hc.
      * exists Unrecorded. split; [|done]. unfold assign. simpl.
        by destruct (Hk k p0 Hkp) as [(?&_)|(_&_&?)].
      * assert (Hk1 : k ∈ (attribution_of (all_of log p0) (e :: rest)).*1)
          by by rewrite attribution_of_fst.
        apply list_elem_of_fmap in Hk1 as ([k' o] & -> & Hko). exists o. split; [|done].
        apply assign_at; [rewrite attribution_of_fst by done; apply all_of_NoDup|done|simpl in *; lia].
    + assert (Hout : k ∉ all_of log p0) by (rewrite elem_of_all; congruence).
      rewrite (assign_other (all_to _ _)) by by rewrite all_to_fst.
      rewrite (assign_other (attribution_of _ _)).
      * destruct (Hk k p Hkp) as [(?&?&?)|(?&?&?)]; [left; naive_solver|right; naive_solver].
      * destruct (of_payload p0 records) eqn:Hc; [apply not_elem_of_nil|by rewrite attribution_of_fst].
Qed.

Lemma pair_by_payload_given log records k p :
  payload_at log k = Some p ->
  exists o, pair_by_payload log records !! k = Some o /\ given (all_of log p) (of_payload p records) k o.
Proof.
  intros Hkp. unfold pair_by_payload.
  assert (Hall : forall n, n <= length log -> loop_ok log records n (fold_left (pair_step log records) (seq 0 n)
    (replicate (length log) Unrecorded, replicate (length log) false))).
  { induction n as [|n IH]; intros Hn.
    - simpl. rewrite !length_replicate. split_and!; [done|done|]. intros j q Hj. right.
      assert (j < length log).
      { unfold payload_at in Hj. apply fmap_Some in Hj as (? & Hl & _). by apply lookup_lt_Some in Hl. }
      split; [intros (? & ? & _); lia|]. by rewrite !lookup_replicate_2.
    - rewrite seq_S, fold_left_app. simpl. apply pair_step_ok; [lia|]. apply IH. lia. }
  specialize (Hall (length log) (Nat.le_refl _)). destruct (fold_left _ _ _) as [attributed seen].
  destruct Hall as (_ & _ & Hall). destruct (Hall k p Hkp) as [(_ & _ & H1)|(Hno & _)]; [done|].
  exfalso. apply Hno. exists k. split; [|done].
  unfold payload_at in Hkp. apply fmap_Some in Hkp as (? & Hl & _). by apply lookup_lt_Some in Hl.
Qed.

(** ** What the broker took *)

(** One message the broker took: a recorded publish, by its place in the records, or one the harness
    never saw. *)
Inductive Take := Seen (record : nat) | Unseen (m : P).

Definition index_payload (records : list PublishedEntry) (i : nat) : option P :=
  (fun r => payload (message r)) <$> records !! i.
Definition take_payload (records : list PublishedEntry) (t : Take) : option P :=
  match t with Seen i => index_payload records i | Unseen p => Some p end.
Definition seen_index (t : Take) : option nat := match t with Seen i => Some i | Unseen _ => None end.
Definition true_options (records : list PublishedEntry) (t : Take) : MessageOptions :=
  match t with
  | Seen i => match records !! i with Some r => options r | None => Unrecorded end
  | Unseen _ => Unrecorded
  end.

(** A history behind a log and its records: the log is what is left of what the broker took, every
    recorded publish was taken once and within its span, and no record precedes one that had ended
    before its own began. *)
Record happened (log : list RawMessage) (records : list PublishedEntry) (evicted : nat)
    (takes : list Take) : Prop := mk_happened {
  took_all : length takes = evicted + length log;
  took_payload : forall k, payload_at log k = takes !! (evicted + k) ≫= take_payload records;
  took_once : omap seen_index takes ≡ₚ seq 0 (length records);
  took_in_span : forall a b i j ri rj, a < b ->
    takes !! a = Some (Seen i) -> takes !! b = Some (Seen j) ->
    records !! i = Some ri -> records !! j = Some rj -> (started (span ri) < finished (span rj))%N;
  recorded_in_order : forall i j ri rj, i < j -> records !! i = Some ri -> records !! j = Some rj ->
    (started (span ri) < finished (span rj))%N;
}.

(** ** Lists of indices *)

Section entries.
Context {A : Type}.

Definition entries (l : list A) (indices : list nat) : list A := omap (fun i => l !! i) indices.

Lemma entries_app l a b : entries l (a ++ b) = entries l a ++ entries l b.
Proof. apply omap_app. Qed.
Lemma entries_seq (l : list A) a n : entries l (seq a n) = take n (drop a l).
Proof.
  revert a. induction n as [|n IH]; intros a; [done|]. unfold entries in *. csimpl.
  destruct (l !! a) as [x|] eqn:Ha; csimpl.
  - rewrite IH, (drop_S l x a) by done. done.
  - rewrite IH. apply lookup_ge_None in Ha. rewrite !drop_ge by lia. by rewrite !take_nil.
Qed.
Lemma entries_all (l : list A) n : length l = n -> entries l (seq 0 n) = l.
Proof. intros <-. rewrite entries_seq, drop_0. by apply take_ge. Qed.
Lemma entries_filter (Q : nat -> Prop) (R : A -> Prop) `{forall i, Decision (Q i), forall x, Decision (R x)}
    (l : list A) indices :
  (forall i x, l !! i = Some x -> Q i <-> R x) ->
  entries l (filter Q indices) = filter R (entries l indices).
Proof.
  intros HQ. induction indices as [|i indices IH]; [done|]. rewrite filter_cons. unfold entries in *.
  csimpl. destruct (l !! i) as [x|] eqn:Hi; case_decide as Hq; csimpl; rewrite ?Hi, ?IH.
  - rewrite filter_cons_True; [done|by apply (HQ i)].
  - rewrite filter_cons_False; [done|by rewrite <-(HQ i)].
  - done.
  - done.
Qed.
Lemma entries_lookup (l : list A) indices r :
  (forall i, i ∈ indices -> i < length l) -> entries l indices !! r = indices !! r ≫= (fun i => l !! i).
Proof.
  revert r. induction indices as [|i indices IH]; intros r Hin; [done|]. unfold entries in *. csimpl.
  destruct (lookup_lt_is_Some_2 l i) as [x Hx]; [apply Hin; set_solver|]. rewrite Hx.
  destruct r as [|r]; [by csimpl; rewrite Hx|]. csimpl. apply IH. intros j Hj. apply Hin. set_solver.
Qed.
Lemma entries_length (l : list A) indices :
  (forall i, i ∈ indices -> i < length l) -> length (entries l indices) = length indices.
Proof.
  induction indices as [|i indices IH]; intros Hin; [done|]. unfold entries in *. csimpl.
  destruct (lookup_lt_is_Some_2 l i) as [x Hx]; [apply Hin; set_solver|]. rewrite Hx. csimpl.
  rewrite IH; [done|]. intros j Hj. apply Hin. set_solver.
Qed.
End entries.

Lemma all_seen (l : list Take) : length l <= length (omap seen_index l) -> l = Seen <$> omap seen_index l.
Proof.
  assert (Hle : forall l, length (omap seen_index l) <= length l).
  { induction l0 as [|[] l0 IH]; csimpl; lia. }
  induction l as [|[i|p] l IH]; csimpl; intros Hl; [done| |].
  - rewrite <-IH; [done|lia].
  - specialize (Hle l). lia.
Qed.
Lemma omap_seen (l : list nat) : omap seen_index (Seen <$> l) = l.
Proof. induction l as [|i l IH]; [done|]. csimpl. by rewrite IH. Qed.

(** ** Sorted lists *)

Lemma seq_sorted a n : StronglySorted lt (seq a n).
Proof.
  revert a. induction n as [|n IH]; intros a; simpl; constructor; [done|].
  apply Forall_forall. intros x Hx%elem_of_seq. lia.
Qed.
Lemma keeps_sorted_filter {A} (R : A -> A -> Prop) (Q : A -> Prop) `{forall x, Decision (Q x)} (l : list A) :
  StronglySorted R l -> StronglySorted R (filter Q l).
Proof.
  induction 1 as [|x l _ IH Hx]; [constructor|]. rewrite filter_cons. case_decide; [|done].
  constructor; [done|]. apply Forall_forall. intros y [_ Hy]%list_elem_of_filter.
  by apply (proj1 (Forall_forall _ _) Hx).
Qed.
Lemma sorted_by_lookup {A} (R : A -> A -> Prop) (l : list A) :
  (forall a b x y, a < b -> l !! a = Some x -> l !! b = Some y -> R x y) -> StronglySorted R l.
Proof.
  induction l as [|x l IH]; intros HR; constructor.
  - apply IH. intros a b y z Hab Ha Hb. apply (HR (S a) (S b)); [lia|done|done].
  - apply Forall_lookup. intros i y Hy. apply (HR 0 (S i)); [lia|done|done].
Qed.
Lemma sorted_lookup {A} (R : A -> A -> Prop) (l : list A) a b x y :
  StronglySorted R l -> a < b -> l !! a = Some x -> l !! b = Some y -> R x y.
Proof.
  intros Hs. revert a b. induction Hs as [|z l _ IH Hz]; intros a b Hab Ha Hb; [done|].
  destruct b as [|b]; [lia|]. destruct a as [|a]; [|apply (IH a b); [lia|done|done]].
  injection Ha as <-. by apply (proj1 (Forall_lookup _ _) Hz b).
Qed.
Lemma sorted_weaken {A} (R R' : A -> A -> Prop) (l : list A) :
  StronglySorted R l -> NoDup l -> (forall x y, x ∈ l -> y ∈ l -> x <> y -> R x y -> R' x y) ->
  StronglySorted R' l.
Proof.
  induction 1 as [|x l _ IH Hx]; intros Hnd HR; constructor; apply NoDup_cons in Hnd as [Hxl Hnd].
  - apply IH; [done|]. intros y z Hy Hz. apply HR; by apply list_elem_of_further.
  - apply Forall_forall. intros y Hy. apply HR; [apply list_elem_of_here|by apply list_elem_of_further| |].
    + by intros ->.
    + by apply (proj1 (Forall_forall _ _) Hx).
Qed.
Lemma concurrent_false (l : list PublishedEntry) a b x y :
  concurrent l = false -> a < b -> l !! a = Some x -> l !! b = Some y -> overlaps (span x) (span y) = false.
Proof.
  revert a b. induction l as [|z l IH]; intros a b Hc Hab Ha Hb; [done|]. simpl in Hc.
  apply orb_false_iff in Hc as [Hz Hc]. destruct b as [|b]; [lia|].
  destruct a as [|a]; [|apply (IH a b); [done|lia|done|done]]. injection Ha as <-.
  apply existsb_false with (x := y) in Hz; [done|]. by eapply list_elem_of_lookup_2.
Qed.

(** ** The candidates hold every record that can be behind the log *)

Definition candidates_of (records : list PublishedEntry) (evicted : nat) : list PublishedEntry :=
  let '(dropped, kept) := (take evicted records, drop evicted records) in
  filter (fun one => existsb (fun other => overlaps (span one) (span other)) kept) dropped ++ kept.
Definition crosses (records : list PublishedEntry) (evicted i : nat) : Prop :=
  match records !! i with
  | Some one => existsb (fun other => overlaps (span one) (span other)) (drop evicted records)
  | None => False
  end.
#[local] Instance crosses_dec records evicted i : Decision (crosses records evicted i).
Proof. unfold crosses. destruct (records !! i); apply _. Defined.
Definition candidate_indices (records : list PublishedEntry) (evicted : nat) : list nat :=
  filter (crosses records evicted) (seq 0 evicted) ++ seq evicted (length records - evicted).
Definition of_index_payload (records : list PublishedEntry) (p : P) (l : list nat) : list nat :=
  filter (fun i => index_payload records i = Some p) l.

Lemma candidates_are_entries records evicted :
  candidates_of records evicted = entries records (candidate_indices records evicted).
Proof.
  unfold candidates_of, candidate_indices. rewrite entries_app, entries_seq.
  rewrite (take_ge (drop _ _)) by (rewrite length_drop; lia). f_equal.
  rewrite (entries_filter _ (fun one => existsb (fun other => overlaps (span one) (span other)) (drop evicted records))).
  - by rewrite entries_seq, drop_0.
  - intros i x Hi. unfold crosses. by rewrite Hi.
Qed.
Lemma of_payload_entries records p l :
  of_payload p (entries records l) = entries records (of_index_payload records p l).
Proof.
  unfold of_payload, of_index_payload. symmetry. apply entries_filter. intros i x Hi.
  unfold index_payload. rewrite Hi. simpl. split; [by intros [= ->]|by intros ->].
Qed.

Section history.
Context (log : list RawMessage) (records : list PublishedEntry) (evicted : nat) (takes : list Take).
Context (Hh : happened log records evicted takes).
(** Past the first test of [attribute]. *)
Context (Hb : evicted = 0 \/ length records = evicted + length log).

Definition left_takes : list Take := drop evicted takes.
Definition left_indices : list nat := omap seen_index left_takes.

Lemma candidate_in_range i : i ∈ candidate_indices records evicted -> i < length records.
Proof.
  unfold candidate_indices. rewrite elem_of_app, list_elem_of_filter, !elem_of_seq.
  intros [[Hc _]|?]; [|lia]. unfold crosses in Hc. destruct (records !! i) eqn:Hi; [|done].
  by apply lookup_lt_Some in Hi.
Qed.
Lemma candidates_sorted : StronglySorted lt (candidate_indices records evicted).
Proof.
  unfold candidate_indices. apply StronglySorted_app. split_and!.
  - intros x y. rewrite list_elem_of_filter, !elem_of_seq. lia.
  - apply keeps_sorted_filter, seq_sorted.
  - apply seq_sorted.
Qed.

(** With nothing unseen, the history is a permutation of the records. *)
Lemma nothing_unseen : length records = evicted + length log -> takes = Seen <$> omap seen_index takes.
Proof.
  intros Hl. apply all_seen. rewrite (took_once _ _ _ _ Hh), length_seq, (took_all _ _ _ _ Hh). lia.
Qed.
Lemma seen_NoDup : NoDup (omap seen_index takes).
Proof. rewrite (took_once _ _ _ _ Hh). apply NoDup_seq. Qed.
Lemma seen_split : omap seen_index takes = omap seen_index (take evicted takes) ++ left_indices.
Proof. unfold left_indices, left_takes. rewrite <-(take_drop evicted takes) at 1. apply omap_app. Qed.

(** Distinct numbers as many as they are, one below that count missing: one is beyond it. *)
Lemma one_is_beyond (l : list nat) i :
  NoDup l -> i ∉ l -> i < length l -> exists j, j ∈ l /\ length l <= j.
Proof.
  intros Hnd Hi Hlt. destruct (decide (Exists (fun j => length l <= j) l)) as [Hj|Hnone].
  - by apply Exists_exists in Hj.
  - exfalso. assert (Hsub : l ++ [i] ⊆+ seq 0 (length l)).
    { apply NoDup_submseteq.
      - apply NoDup_app. split_and!; [done| |apply NoDup_singleton].
        intros x Hx ->%list_elem_of_singleton. done.
      - intros x [Hx| ->%list_elem_of_singleton]%elem_of_app; apply elem_of_seq; [|lia].
        destruct (decide (length l <= x)) as [Hle|]; [|lia]. exfalso. apply Hnone.
        apply Exists_exists. by exists x. }
    apply submseteq_length in Hsub. rewrite length_app, length_seq in Hsub. simpl in Hsub. lia.
Qed.
Lemma left_in_candidates i : i ∈ left_indices -> i ∈ candidate_indices records evicted.
Proof.
  intros Hi. assert (Hin : i ∈ seq 0 (length records)).
  { rewrite <-(took_once _ _ _ _ Hh), seen_split. set_solver. }
  apply elem_of_seq in Hin. unfold candidate_indices. rewrite elem_of_app, list_elem_of_filter, !elem_of_seq.
  destruct (decide (evicted <= i)) as [|Hlt]; [right; lia|left]. split; [|lia].
  destruct Hb as [|Hl]; [lia|]. pose proof (nothing_unseen Hl) as Hseen.
  set (sigma := omap seen_index takes) in *. set (gone := omap seen_index (take evicted takes)).
  assert (Hgone : gone = take evicted sigma).
  { unfold gone. rewrite Hseen, <-fmap_take. apply omap_seen. }
  assert (Hlen : length gone = evicted).
  { rewrite Hgone, length_take. unfold sigma. rewrite (took_once _ _ _ _ Hh), length_seq. lia. }
  assert (Hnd : NoDup (gone ++ left_indices))
    by (pose proof seen_NoDup as Hnd0; by rewrite seen_split in Hnd0).
  apply NoDup_app in Hnd as (Hndg & Hdisj & _).
  destruct (one_is_beyond gone i) as (j & Hj & Hje); [done|by intros ?%Hdisj|lia|]. rewrite Hlen in Hje.
  apply list_elem_of_lookup in Hj as (a & Ha). apply list_elem_of_lookup in Hi as (b & Hbi).
  assert (Hsa : takes !! a = Some (Seen j)).
  { rewrite Hseen, list_lookup_fmap. fold sigma. rewrite Hgone in Ha.
    apply lookup_take_Some in Ha as [-> _]. done. }
  assert (Hsb : takes !! (evicted + b) = Some (Seen i)).
  { rewrite Hseen, list_lookup_fmap. fold sigma. unfold sigma. rewrite seen_split. fold gone.
    rewrite lookup_app_r by lia. replace (evicted + b - length gone) with b by lia. by rewrite Hbi. }
  assert (Hjr : j < length records).
  { apply (elem_of_seq 0). rewrite <-(took_once _ _ _ _ Hh). apply list_elem_of_omap. exists (Seen j).
    split; [by eapply list_elem_of_lookup_2|done]. }
  destruct (lookup_lt_is_Some_2 records i) as [ri Hri]; [lia|].
  destruct (lookup_lt_is_Some_2 records j Hjr) as [rj Hrj].
  unfold crosses. rewrite Hri. apply Is_true_true, existsb_elem. exists rj. split.
  - apply list_elem_of_lookup. exists (j - evicted). rewrite lookup_drop. rewrite <-Hrj. f_equal. lia.
  - unfold overlaps. apply andb_true_intro. rewrite !N.ltb_lt. split.
    + eapply (recorded_in_order _ _ _ _ Hh i j); [lia|done|done].
    + eapply (took_in_span _ _ _ _ Hh a (evicted + b)); [|done|done|done|done].
      apply lookup_lt_Some in Ha. lia.
Qed.

(** ** The messages of one payload and what is behind them *)

Definition behind (p : P) : list Take := filter (fun t => take_payload records t = Some p) left_takes.
Definition behind_indices (p : P) : list nat := of_index_payload records p left_indices.
Definition candidates_for (p : P) : list nat := of_index_payload records p (candidate_indices records evicted).

Lemma left_takes_lookup k : left_takes !! k = takes !! (evicted + k).
Proof. apply lookup_drop. Qed.
Lemma left_takes_length : length left_takes = length log.
Proof. unfold left_takes. rewrite length_drop, (took_all _ _ _ _ Hh). lia. Qed.

Lemma behind_entries p : entries left_takes (all_of log p) = behind p.
Proof.
  unfold all_of, positions. rewrite (entries_filter _ (fun t => take_payload records t = Some p)).
  - rewrite entries_all by apply left_takes_length. done.
  - intros k t Ht. fold (payload_at log k). rewrite (took_payload _ _ _ _ Hh), <-left_takes_lookup, Ht. done.
Qed.
Lemma all_of_in_left p k : k ∈ all_of log p -> k < length left_takes.
Proof.
  intros Hk%elem_of_all. rewrite left_takes_length. unfold payload_at in Hk.
  apply fmap_Some in Hk as (m & Hm & _). by apply lookup_lt_Some in Hm.
Qed.
Lemma behind_length p : length (behind p) = length (all_of log p).
Proof. rewrite <-behind_entries. apply entries_length, all_of_in_left. Qed.
Lemma behind_at p r k : all_of log p !! r = Some k -> behind p !! r = takes !! (evicted + k).
Proof.
  intros Hr. rewrite <-behind_entries, entries_lookup by apply all_of_in_left.
  by rewrite Hr, <-left_takes_lookup.
Qed.

Lemma behind_seen p : omap seen_index (behind p) = behind_indices p.
Proof.
  unfold behind, behind_indices, left_indices, of_index_payload. induction left_takes as [|[i|m] l IH]; [done| |].
  - rewrite filter_cons. csimpl. rewrite filter_cons.
    change (take_payload records (Seen i)) with (index_payload records i).
    case_decide; csimpl; by rewrite IH.
  - rewrite filter_cons. csimpl. case_decide; csimpl; by rewrite IH.
Qed.
Lemma behind_indices_candidates p i : i ∈ behind_indices p -> i ∈ candidates_for p.
Proof.
  unfold behind_indices, candidates_for, of_index_payload. rewrite !list_elem_of_filter.
  intros [? ?]. split; [done|by apply left_in_candidates].
Qed.
Lemma behind_indices_NoDup p : NoDup (behind_indices p).
Proof.
  apply NoDup_filter. pose proof seen_NoDup as Hnd. rewrite seen_split in Hnd.
  by apply NoDup_app in Hnd as (_ & _ & ?).
Qed.

(** Where there is a candidate for every message of the payload, none of them is unseen. *)
Lemma behind_all_seen p :
  length (all_of log p) <= length (candidates_for p) -> behind p = Seen <$> behind_indices p.
Proof.
  intros Hle. rewrite <-behind_seen. apply all_seen. rewrite behind_seen, behind_length.
  destruct Hb as [He|Hl].
  - rewrite Hle. apply Nat.eq_le_incl, Permutation_length. unfold candidates_for, behind_indices, of_index_payload.
    apply filter_Permutation. unfold candidate_indices, left_indices, left_takes. rewrite He. simpl.
    rewrite Nat.sub_0_r, drop_0. symmetry. apply Hh.
  - rewrite <-behind_length, <-behind_seen. unfold behind, left_takes. rewrite (nothing_unseen Hl).
    rewrite <-fmap_drop. induction (drop _ _) as [|i l IH]; [done|]. csimpl. rewrite filter_cons.
    case_decide; csimpl; lia.
Qed.

(** Where no two candidates were in flight at once the broker took them in the order they were
    recorded in. *)
Lemma behind_in_order p :
  concurrent (entries records (candidates_for p)) = false -> StronglySorted lt (behind_indices p).
Proof.
  intros Hc.
  set (before := fun i j => forall ri rj, records !! i = Some ri -> records !! j = Some rj ->
    (started (span ri) < finished (span rj))%N).
  assert (Hb1 : StronglySorted before (behind_indices p)).
  { apply keeps_sorted_filter. unfold left_indices.
    assert (Ht : StronglySorted (fun s t => forall i j, s = Seen i -> t = Seen j -> before i j) left_takes).
    { apply sorted_by_lookup. intros a b s t Hab Ha Hbt i j -> -> ri rj Hri Hrj.
      rewrite left_takes_lookup in Ha, Hbt. by eapply (took_in_span _ _ _ _ Hh (evicted + a) (evicted + b)); [lia|..]. }
    induction Ht as [|t l _ IH Ht]; [constructor|]. destruct t as [i|m]; csimpl; [|done].
    constructor; [done|]. apply Forall_forall. intros j (t & Hin & Htj)%list_elem_of_omap.
    destruct t as [j'|]; [|done]. injection Htj as ->.
    by apply (proj1 (Forall_forall _ _) Ht _ Hin i j). }
  apply (sorted_weaken before); [done|apply behind_indices_NoDup|].
  intros i j Hi Hj Hne Hij. destruct (decide (i < j)) as [|Hge]; [done|exfalso].
  apply behind_indices_candidates in Hi, Hj.
  assert (Hrange : forall x, x ∈ candidates_for p -> x < length records).
  { intros x [_ Hx]%list_elem_of_filter. by apply candidate_in_range. }
  destruct (lookup_lt_is_Some_2 records i (Hrange i Hi)) as [ri Hri].
  destruct (lookup_lt_is_Some_2 records j (Hrange j Hj)) as [rj Hrj].
  apply list_elem_of_lookup in Hi as (a & Ha). apply list_elem_of_lookup in Hj as (b & Hbj).
  assert (Hab : b < a).
  { destruct (decide (b < a)) as [|Hba]; [done|]. destruct (decide (a = b)) as [->|]; [congruence|].
    assert (i < j); [|lia]. apply (sorted_lookup lt (candidates_for p) a b); [|lia|done|done].
    apply keeps_sorted_filter, candidates_sorted. }
  pose proof (concurrent_false _ b a rj ri Hc Hab) as Hov.
  rewrite !entries_lookup in Hov by done. rewrite Ha, Hbj in Hov. simpl in Hov.
  specialize (Hov Hrj Hri). unfold overlaps in Hov. apply andb_false_iff in Hov.
  rewrite !N.ltb_ge in Hov. specialize (Hij ri rj Hri Hrj).
  pose proof (recorded_in_order _ _ _ _ Hh j i rj ri ltac:(lia) Hrj Hri). lia.
Qed.
Lemma behind_exactly p :
  length (candidates_for p) = length (all_of log p) ->
  concurrent (entries records (candidates_for p)) = false -> behind p = Seen <$> candidates_for p.
Proof.
  intros Hl Hc. rewrite behind_all_seen by lia. f_equal.
  assert (Hlen : length (behind_indices p) = length (candidates_for p)).
  { rewrite Hl, <-behind_length, behind_all_seen by lia. by rewrite length_fmap. }
  apply (StronglySorted_unique_strong lt);
    [intros; lia|by apply behind_in_order|apply keeps_sorted_filter, candidates_sorted|].
  apply submseteq_length_Permutation; [|lia].
  apply NoDup_submseteq; [apply behind_indices_NoDup|]. intros i. apply behind_indices_candidates.
Qed.

Lemma same_options e f : certainly_same_as e f = true -> options e = options f.
Proof.
  destruct e as [|[? [tn v] ?]], f as [|[? [tn' v'] ?]]; simpl; try done. unfold same_defaults. simpl.
  intros [->%bool_decide_eq_true Hv]%andb_prop. by destruct v, v'.
Qed.

Lemma given_is_true p k t o :
  payload_at log k = Some p -> takes !! (evicted + k) = Some t ->
  given (all_of log p) (of_payload p (candidates_of records evicted)) k o ->
  o = Ambiguous \/ o = true_options records t.
Proof.
  intros Hkp Ht. rewrite candidates_are_entries, of_payload_entries. fold (candidates_for p).
  assert (Hrange : forall x, x ∈ candidates_for p -> x < length records).
  { intros x [_ Hx]%list_elem_of_filter. by apply candidate_in_range. }
  pose proof (entries_length records _ Hrange) as Hlen.
  assert (Htp : t ∈ behind p).
  { apply list_elem_of_filter. pose proof (took_payload _ _ _ _ Hh k) as Hp. rewrite Hkp, Ht in Hp.
    split; [done|]. eapply list_elem_of_lookup_2. by rewrite left_takes_lookup. }
  unfold given. destruct (entries records (candidates_for p)) as [|earliest rest] eqn:Hc.
  - intros ->. right. destruct t as [i|m]; [|done]. exfalso.
    assert (Hi : i ∈ behind_indices p).
    { rewrite <-behind_seen. apply list_elem_of_omap. by exists (Seen i). }
    apply behind_indices_candidates in Hi. simpl in Hlen. symmetry in Hlen. apply nil_length_inv in Hlen.
    rewrite Hlen in Hi. by apply elem_of_nil in Hi.
  - unfold attribution_of. rewrite <-Hc. rewrite <-Hc in Hlen. rewrite Hlen.
    destruct ((length (candidates_for p) =? length (all_of log p)) && negb (concurrent _)) eqn:Hexact;
      [|destruct ((length (all_of log p) <=? length (candidates_for p)) && _) eqn:Hsame].
    + apply andb_prop in Hexact as [Heq%Nat.eqb_eq Hconc%negb_true_iff]. intros Hin. right.
      apply list_elem_of_lookup in Hin as (r & (k' & o' & [= <- <-] & Hk' & Ho')%lookup_zip_with_Some).
      rewrite list_lookup_fmap, entries_lookup in Ho' by done.
      apply behind_at in Hk'. rewrite behind_exactly, list_lookup_fmap, Ht in Hk' by done.
      destruct (candidates_for p !! r) as [i|]; [|done]. injection Hk' as <-. simpl in *.
      destruct (records !! i); simpl in *; congruence.
    + apply andb_prop in Hsame as [Hle%Nat.leb_le Hall]. intros (k' & [= _ ->] & _)%list_elem_of_fmap. right.
      rewrite behind_all_seen in Htp by done. apply list_elem_of_fmap in Htp as (i & -> & Hi).
      apply behind_indices_candidates in Hi. pose proof (Hrange i Hi) as Hlt.
      destruct (lookup_lt_is_Some_2 records i Hlt) as [r Hr]. simpl. rewrite Hr. symmetry.
      apply same_options. refine (proj1 (forallb_elem _ _) Hall r _).
      apply list_elem_of_omap. by exists i.
    + intros (k' & [= _ ->] & _)%list_elem_of_fmap. by left.
Qed.

(** Nothing evicted, nothing unseen with these bytes, and no two records of them in flight at once. *)
Definition clear (p : P) : Prop :=
  evicted = 0 /\ ~ (Unseen p ∈ takes) /\
  forall a b x y, a < b -> of_payload p records !! a = Some x -> of_payload p records !! b = Some y ->
    overlaps (span x) (span y) = false.

Lemma concurrent_by_lookup (l : list PublishedEntry) :
  (forall a b x y, a < b -> l !! a = Some x -> l !! b = Some y -> overlaps (span x) (span y) = false) ->
  concurrent l = false.
Proof.
  induction l as [|z l IH]; intros Hl; [done|]. simpl. apply orb_false_iff. split.
  - apply existsb_false. intros y (i & Hy)%list_elem_of_lookup. apply (Hl 0 (S i)); [lia|done|done].
  - apply IH. intros a b x y Hab Ha Hbl. apply (Hl (S a) (S b)); [lia|done|done].
Qed.
Lemma clear_is_given p k o :
  clear p -> payload_at log k = Some p ->
  given (all_of log p) (of_payload p (candidates_of records evicted)) k o -> o <> Ambiguous.
Proof.
  intros (He & Hun & Hover) Hkp. unfold candidates_of. rewrite He, take_0, drop_0. simpl.
  assert (Hci : candidate_indices records evicted = seq 0 (length records)).
  { unfold candidate_indices. rewrite He. simpl. by rewrite Nat.sub_0_r. }
  assert (Hlen : length (of_payload p records) = length (all_of log p)).
  { rewrite <-behind_length. transitivity (length (behind_indices p)).
    - rewrite <-(entries_all records (length records)) by done. rewrite of_payload_entries, entries_length.
      + apply Permutation_length, filter_Permutation. unfold left_indices, left_takes.
        rewrite He, drop_0. symmetry. apply Hh.
      + intros i [_ Hi%elem_of_seq]%list_elem_of_filter. lia.
    - rewrite <-behind_seen. unfold behind, left_takes. rewrite He, drop_0.
      assert (Hall : ~ (Unseen p ∈ takes)) by done. clear -Hall.
      induction takes as [|t l IH]; [done|]. apply not_elem_of_cons in Hall as [Ht Hl]. rewrite filter_cons.
      case_decide as Hp; csimpl; [|auto]. destruct t as [i|m]; csimpl; [by rewrite IH|].
      injection Hp as ->. done. }
  pose proof (concurrent_by_lookup _ Hover) as Hc. unfold given, attribution_of.
  destruct (of_payload p records) as [|e rest] eqn:Hp; [by intros ->|].
  rewrite Hc, Hlen, Nat.eqb_refl. simpl negb. cbn [andb].
  intros Hin%elem_of_zip_r. apply list_elem_of_fmap in Hin as ([|] & -> & _); done.
Qed.

End history.

(** Over any history; the theorem below shows which ones there are. *)
Lemma attribute_sound log records evicted takes :
  happened log records evicted takes ->
  forall k m, log !! k = Some m ->
    exists o t, attribute log records evicted !! k = Some o /\ takes !! (evicted + k) = Some t /\
      (o = Ambiguous \/ o = true_options records t) /\
      (clear records evicted takes (payload m) -> o = true_options records t).
Proof.
  intros Hh k m Hm. assert (Hkp : payload_at log k = Some (payload m)) by (unfold payload_at; by rewrite Hm).
  assert (Ht : exists t, takes !! (evicted + k) = Some t /\ take_payload records t = Some (payload m)).
  { pose proof (took_payload _ _ _ _ Hh k) as Ht. rewrite Hkp in Ht. symmetry in Ht.
    by apply bind_Some in Ht. }
  destruct Ht as (t & Ht & Htp). unfold attribute. case_match eqn:Hfirst.
  - apply andb_prop in Hfirst as [He%Nat.ltb_lt _]. rewrite list_lookup_fmap, Hm. csimpl.
    eexists _, t. split; [done|]. split; [done|]. split; [|intros (He0 & _); lia].
    case_match eqn:Hex; [by left|right]. destruct t as [i|]; [|done]. exfalso.
    simpl in Htp. unfold index_payload in Htp. apply fmap_Some in Htp as (r & Hr & Hp).
    apply existsb_false with (x := r) in Hex; [|by eapply list_elem_of_lookup_2].
    apply bool_decide_eq_false in Hex. congruence.
  - assert (Hb : evicted = 0 \/ length records = evicted + length log).
    { apply andb_false_iff in Hfirst as [?%Nat.ltb_ge|Heq%negb_false_iff%Nat.eqb_eq]; [left; lia|by right]. }
    destruct (pair_by_payload_given log (candidates_of records evicted) k _ Hkp) as (o & Ho & Hg).
    pose proof (given_is_true log records evicted takes Hh Hb _ k t o Hkp Ht Hg) as Htrue.
    exists o, t. split; [done|]. split; [done|]. split; [done|].
    intros Hclear. destruct Htrue as [->|]; [|done].
    by destruct (clear_is_given log records evicted takes Hh Hb _ k Ambiguous Hclear Hkp Hg).
Qed.

End attribution.

(** ** How the records come about

    [PipelinePublish::capture] and [sent], [test_publish_started] and [record_published], and the
    broker between them, for the publishes to one destination: the clock ticks when a publish is
    captured, the broker takes it, the clock ticks again and the record is pushed. *)
Section recorder.
Context {P O H : Type} `{EqDecision P}.
(** What each publish carries; the test's own have no options. *)
Context (publish : nat -> @RawMessage P H * option (@RecordedOptions O)).

Inductive Access :=
  | Captured (n : nat)
  | Took (n : nat)
  | TookUnseen (m : P)
  | Finished (n : nat)
  | Pushed (n : nat).

Record Harness := mk_harness {
  clock : N;
  began : gmap nat N;
  took : list (nat + P);
  ended : gmap nat N;
  pushed : list nat;
}.

Definition access (h : Harness) (a : Access) : option Harness :=
  match a with
  | Captured n =>
      match began h !! n with
      | None => Some (mk_harness (clock h + 1) (<[n := clock h]> (began h)) (took h) (ended h) (pushed h))
      | Some _ => None
      end
  | Took n =>
      match began h !! n with
      | Some _ =>
          if decide (inl n ∈ took h) then None
          else Some (mk_harness (clock h) (began h) (took h ++ [inl n]) (ended h) (pushed h))
      | None => None
      end
  | TookUnseen m => Some (mk_harness (clock h) (began h) (took h ++ [inr m]) (ended h) (pushed h))
  | Finished n =>
      match ended h !! n with
      | None =>
          if decide (inl n ∈ took h)
          then Some (mk_harness (clock h + 1) (began h) (took h) (<[n := clock h]> (ended h)) (pushed h))
          else None
      | Some _ => None
      end
  | Pushed n =>
      match ended h !! n with
      | Some _ =>
          if decide (n ∈ pushed h) then None
          else Some (mk_harness (clock h) (began h) (took h) (ended h) (pushed h ++ [n]))
      | None => None
      end
  end.
Definition empty_harness : Harness := mk_harness 0 ∅ [] ∅ [].
Fixpoint accesses (h : Harness) (l : list Access) : option Harness :=
  match l with
  | [] => Some h
  | a :: l => h ← access h a; accesses h l
  end.

Definition entry_of (h : Harness) (n : nat) : @PublishedEntry P O H :=
  let s := mk_span (default 0%N (began h !! n)) (default 0%N (ended h !! n)) in
  match publish n with
  | (m, Some o) => Runtime (mk_publish m o s)
  | (m, None) => Test m s
  end.
Definition recorded (h : Harness) : list (@PublishedEntry P O H) := entry_of h <$> pushed h.
Definition take_of (h : Harness) (t : nat + P) : Take :=
  match t with
  | inl n => match position (Nat.eqb n) (pushed h) with Some i => Seen i | None => Unseen (payload (fst (publish n))) end
  | inr m => Unseen m
  end.
Definition takes_of (h : Harness) : list (@Take P) := take_of h <$> took h.
Definition took_bytes (h : Harness) : list P :=
  (fun t => match t with inl n => payload (fst (publish n)) | inr m => m end) <$> took h.

(** What holds between any two accesses, whoever makes them. *)
Record harness_ok (h : Harness) : Prop := mk_harness_ok {
  began_before : forall n s, began h !! n = Some s -> (s < clock h)%N;
  took_began : forall n, inl n ∈ took h -> is_Some (began h !! n);
  took_one : forall a b n, took h !! a = Some (inl n) -> took h !! b = Some (inl n) -> a = b;
  ended_took : forall n, is_Some (ended h !! n) -> inl n ∈ took h;
  pushed_ended : forall n, n ∈ pushed h -> is_Some (ended h !! n);
  pushed_one : NoDup (pushed h);
  in_order : forall a b i j s f, a < b -> took h !! a = Some (inl i) -> took h !! b = Some (inl j) ->
    began h !! i = Some s -> ended h !! j = Some f -> (s < f)%N;
}.

(** No publish is recorded behind one that began only after it had ended. *)
Definition recorded_in_turn (h : Harness) : Prop :=
  forall a b i j s f, a < b -> pushed h !! a = Some i -> pushed h !! b = Some j ->
    began h !! i = Some s -> ended h !! j = Some f -> (s < f)%N.

Lemma empty_ok : harness_ok empty_harness.
Proof. split; simpl; try done; [set_solver|intros n; by rewrite lookup_empty|set_solver|constructor]. Qed.

(** A capture leaves what began before as it was. *)
Lemma capture_keeps (h : Harness) n m s :
  began h !! n = None -> is_Some (began h !! m) -> <[n:=clock h]> (began h) !! m = Some s -> began h !! m = Some s.
Proof. intros Hn [x Hx]. rewrite lookup_insert_ne by congruence. done. Qed.

Lemma captures_ok h h' n : harness_ok h -> access h (Captured n) = Some h' -> harness_ok h'.
Proof.
  intros [Hb Htb Hone He Hpe Hnd Hio]. simpl. destruct (began h !! n) eqn:Hn; [done|]. intros [= <-].
  split; simpl; try done.
  - intros m s [[<- <-]|[_ Hm]]%lookup_insert_Some; [lia|]. apply Hb in Hm. lia.
  - intros m Hm. apply Htb in Hm as [x Hx]. destruct (decide (n = m)) as [->|Hne].
    + rewrite lookup_insert_eq. eauto.
    + rewrite lookup_insert_ne by done. eauto.
  - intros a b i j s f Hab Ha Hbj Hs Hf. eapply Hio; [done|done|done| |done].
    eapply capture_keeps; [done| |done]. apply Htb. by eapply list_elem_of_lookup_2.
Qed.
Lemma takes_ok h t :
  (forall n, t = inl n -> is_Some (began h !! n) /\ inl n ∉ took h) -> harness_ok h ->
  harness_ok (mk_harness (clock h) (began h) (took h ++ [t]) (ended h) (pushed h)).
Proof.
  intros Ht [Hb Htb Hone He Hpe Hnd Hio].
  assert (Hlast : forall a x, (took h ++ [t]) !! a = Some x -> took h !! a = Some x \/ a = length (took h) /\ x = t).
  { intros a x [Ha|(Hle & Ha)]%lookup_app_Some; [by left|]. apply list_lookup_singleton_Some in Ha as [Hz ->].
    right. split; [lia|done]. }
  split; simpl; try done.
  - intros n [Hn|Hn%list_elem_of_singleton]%elem_of_app; [by apply Htb|]. by apply Ht.
  - intros a b n [Ha|[-> Ha]]%Hlast [Hbn|[-> Hbn]]%Hlast; [by eapply Hone| | |done]; exfalso.
    + destruct (Ht n (eq_sym Hbn)) as [_ Hn]. apply Hn. by eapply list_elem_of_lookup_2.
    + destruct (Ht n (eq_sym Ha)) as [_ Hn]. apply Hn. by eapply list_elem_of_lookup_2.
  - intros n Hn. apply elem_of_app. left. by apply He.
  - intros a b i j s f Hab [Ha|[-> Ha]]%Hlast [Hbj|[-> Hbj]]%Hlast Hs Hf.
    + by eapply Hio.
    + exfalso. destruct (Ht j (eq_sym Hbj)) as [_ Hj]. apply Hj, He. eauto.
    + apply lookup_lt_Some in Hbj. lia.
    + lia.
Qed.
Lemma finishes_ok h h' n : harness_ok h -> access h (Finished n) = Some h' -> harness_ok h'.
Proof.
  intros [Hb Htb Hone He Hpe Hnd Hio]. simpl. destruct (ended h !! n) eqn:Hn; [done|].
  destruct (decide _) as [Htook|]; [|done]. intros [= <-]. split; simpl; try done.
  - intros m s Hm. apply Hb in Hm. lia.
  - intros m [f [[<- _]|[_ ?]]%lookup_insert_Some]; [done|]. apply He. eauto.
  - intros m Hm. destruct (decide (n = m)) as [->|Hne]; [rewrite lookup_insert_eq; eauto|].
    rewrite lookup_insert_ne by done. by apply Hpe.
  - intros a b i j s f Hab Ha Hbj Hs [[_ <-]|[_ Hf]]%lookup_insert_Some; [by apply Hb in Hs|by eapply Hio].
Qed.
Lemma pushes_ok h h' n : harness_ok h -> access h (Pushed n) = Some h' -> harness_ok h'.
Proof.
  intros [Hb Htb Hone He Hpe Hnd Hio]. simpl. destruct (ended h !! n) eqn:Hn; [|done].
  destruct (decide _) as [|Hnew]; [done|]. intros [= <-]. split; simpl; try done.
  - intros m [Hm| ->%list_elem_of_singleton]%elem_of_app; [by apply Hpe|eauto].
  - apply NoDup_app. split_and!; [done| |apply NoDup_singleton]. intros x Hx ->%list_elem_of_singleton. done.
Qed.

Lemma accesses_app h l l' : accesses h (l ++ l') = accesses h l ≫= (fun h => accesses h l').
Proof. revert h. induction l as [|a l IH]; intros h; [done|]. simpl. destruct (access h a); [apply IH|done]. Qed.
Lemma access_ok h a h' : harness_ok h -> access h a = Some h' -> harness_ok h'.
Proof.
  intros Hok. destruct a as [n|n|m|n|n]; [by apply captures_ok| | |by apply finishes_ok|by apply pushes_ok]; simpl.
  - destruct (began h !! n) eqn:Hn; [|done]. destruct (decide _) as [|Hnew]; [done|]. intros [= <-].
    apply takes_ok; [|done]. intros m [= <-]. rewrite Hn. eauto.
  - intros [= <-]. apply takes_ok; [done|done].
Qed.
Lemma accesses_ok h l h' : harness_ok h -> accesses h l = Some h' -> harness_ok h'.
Proof.
  revert h. induction l as [|a l IH]; intros h Hok; [by intros [= <-]|]. simpl.
  intros (h1 & H1 & H2)%bind_Some. eapply IH; [|done]. by eapply access_ok.
Qed.

(** *** Tasks that are not interrupted between their second tick and the push *)

Inductive Whole := Captures (n : nat) | Takes (n : nat) | TakesUnseen (m : P) | Records (n : nat).
Definition whole (a : Whole) : list Access :=
  match a with
  | Captures n => [Captured n]
  | Takes n => [Took n]
  | TakesUnseen m => [TookUnseen m]
  | Records n => [Finished n; Pushed n]
  end.

(** They record in turn, as every task of a runtime with one thread does. *)
Lemma whole_in_turn h a h' :
  harness_ok h -> recorded_in_turn h -> accesses h (whole a) = Some h' -> recorded_in_turn h'.
Proof.
  intros Hok Hturn. destruct a as [n|n|m|n]; cbn [whole accesses].
  - intros (h1 & Ha & [= <-])%bind_Some. simpl in Ha. destruct (began h !! n) eqn:Hn; [done|]. injection Ha as <-.
    intros a b i j s f Hab Ha Hb Hs Hf. simpl in *. eapply Hturn; [done|done|done| |done].
    eapply capture_keeps; [done| |done]. apply Hok, Hok, Hok. by eapply list_elem_of_lookup_2.
  - simpl. destruct (began h !! n); [|done]. destruct (decide _); [done|]. by intros [= <-].
  - simpl. by intros [= <-].
  - simpl. destruct (ended h !! n) eqn:Hn; [done|]. destruct (decide _); [|done]. simpl. rewrite lookup_insert_eq.
    destruct (decide _) as [|Hnew]; [done|]. intros [= <-]. intros a b i j s f Hab Ha Hb Hs Hf. simpl in *.
    apply lookup_insert_Some in Hf as [[_ <-]|[Hne Hf]]; [by apply (began_before h Hok) in Hs|].
    apply lookup_app_Some in Hb as [Hb|(Hle & Hb)].
    + apply lookup_app_Some in Ha as [Ha|(Hlea & Ha)]; [by eapply Hturn|]. apply lookup_lt_Some in Hb. lia.
    + apply list_lookup_singleton_Some in Hb as [_ <-]. congruence.
Qed.
Lemma wholes_in_turn h l h' :
  harness_ok h -> recorded_in_turn h -> accesses h (l ≫= whole) = Some h' -> recorded_in_turn h'.
Proof.
  revert h. induction l as [|a l IH]; intros h Hok Hturn; [by intros [= <-]|]. csimpl.
  rewrite accesses_app. intros (h1 & H1 & H2)%bind_Some. eapply IH; [by eapply accesses_ok| |done]. by eapply whole_in_turn.
Qed.

Lemma position_at n l i : position (Nat.eqb n) l = Some i -> l !! i = Some n.
Proof. intros (x & Hx & ->%Nat.eqb_eq & _)%position_Some. done. Qed.
Lemma position_in n l : n ∈ l -> exists i, position (Nat.eqb n) l = Some i.
Proof.
  intros Hn. destruct (position (Nat.eqb n) l) as [i|] eqn:Hp; [by exists i|].
  rewrite position_None in Hp. specialize (Hp n Hn). by rewrite Nat.eqb_refl in Hp.
Qed.
Lemma take_seen h t i : take_of h t = Seen i -> exists n, t = inl n /\ pushed h !! i = Some n.
Proof.
  destruct t as [n|m]; simpl; [|done]. destruct (position _ _) eqn:Hp; [|done]. intros [= ->].
  apply position_at in Hp. by exists n.
Qed.

Lemma takes_NoDup h (l : list (nat + P)) :
  (forall a b n, l !! a = Some (inl n) -> l !! b = Some (inl n) -> a = b) ->
  NoDup (omap seen_index (take_of h <$> l)).
Proof.
  induction l as [|t l IH]; intros Hone; [constructor|].
  assert (IHl : NoDup (omap seen_index (take_of h <$> l))).
  { apply IH. intros a b n Ha Hb. specialize (Hone (S a) (S b) n Ha Hb). lia. }
  csimpl. destruct (take_of h t) as [i|] eqn:Ht; csimpl; [|done]. constructor; [|done].
  intros (u & (v & Hv & Hin)%list_elem_of_fmap & Hu)%list_elem_of_omap. subst u.
  destruct (take_of h v) as [j|] eqn:Hvt; [|done]. injection Hu as ->.
  apply take_seen in Ht as (n & -> & Hn). apply take_seen in Hvt as (m & -> & Hm).
  assert (n = m) as <- by congruence. apply list_elem_of_lookup in Hin as (b & Hb).
  specialize (Hone 0 (S b) n eq_refl Hb). lia.
Qed.

Lemma recorded_lookup h i r :
  recorded h !! i = Some r <-> exists n, pushed h !! i = Some n /\ r = entry_of h n.
Proof. unfold recorded. rewrite list_lookup_fmap, fmap_Some. done. Qed.
Lemma entry_payload h n : payload (message (entry_of h n)) = payload (fst (publish n)).
Proof. unfold entry_of. by destruct (publish n) as [? [?|]]. Qed.
Lemma span_order h i j :
  harness_ok h -> i ∈ pushed h -> j ∈ pushed h ->
  (forall s f, began h !! i = Some s -> ended h !! j = Some f -> (s < f)%N) ->
  (started (span (entry_of h i)) < finished (span (entry_of h j)))%N.
Proof.
  intros Hok Hi Hj Hsf.
  assert (Hspan : forall n, span (entry_of h n) =
    mk_span (default 0%N (began h !! n)) (default 0%N (ended h !! n)))
    by (intros n; unfold entry_of; by destruct (publish n) as [? [?|]]).
  rewrite !Hspan. simpl. destruct (took_began h Hok i) as [s Hs]; [by apply Hok, Hok|].
  apply (pushed_ended h Hok) in Hj as [f Hf]. rewrite Hs, Hf. simpl. by apply Hsf.
Qed.
Lemma take_payload_of h t :
  (forall n, t = inl n -> n ∈ pushed h) ->
  take_payload (recorded h) (take_of h t) =
    Some (match t with inl n => payload (fst (publish n)) | inr m => m end).
Proof.
  intros Ht. destruct t as [n|m]; [|done]. simpl. destruct (position_in n (pushed h) (Ht n eq_refl)) as [i Hi].
  rewrite Hi. simpl. unfold index_payload, recorded. apply position_at in Hi.
  rewrite list_lookup_fmap, Hi. simpl. by rewrite entry_payload.
Qed.

Lemma takes_permutation h :
  harness_ok h -> (forall n, inl n ∈ took h -> n ∈ pushed h) ->
  omap seen_index (takes_of h) ≡ₚ seq 0 (length (pushed h)).
Proof.
  intros Hok Hdone. apply NoDup_Permutation; [apply takes_NoDup, Hok|apply NoDup_seq|]. intros i.
  rewrite list_elem_of_omap, elem_of_seq. split.
  - intros (t & (u & -> & Hu)%list_elem_of_fmap & Ht). destruct (take_of h u) as [j|] eqn:Htu; [|done].
    injection Ht as ->. apply take_seen in Htu as (n & _ & Hn). apply lookup_lt_Some in Hn. lia.
  - intros [_ Hi]. destruct (lookup_lt_is_Some_2 (pushed h) i) as [n Hn]; [lia|].
    pose proof (list_elem_of_lookup_2 _ _ _ Hn) as Hin.
    destruct (position_in n (pushed h) Hin) as [j Hj].
    assert (j = i) as -> by (eapply NoDup_lookup; [apply Hok|by apply position_at|done]).
    exists (Seen i). split; [|done]. apply list_elem_of_fmap. exists (inl n). simpl. rewrite Hj.
    split; [done|by apply Hok, Hok].
Qed.

Lemma harness_happened h log evicted :
  harness_ok h -> recorded_in_turn h -> (forall n, inl n ∈ took h -> n ∈ pushed h) -> evicted <= length (took h) ->
  payload <$> log = drop evicted (took_bytes h) ->
  happened log (recorded h) evicted (takes_of h).
Proof.
  intros Hok Hturn Hdone Hle Hlog. split.
  - apply (f_equal length) in Hlog. rewrite length_drop in Hlog. unfold took_bytes, takes_of in *.
    rewrite !length_fmap in *. lia.
  - intros k. unfold payload_at. rewrite <-list_lookup_fmap, Hlog, lookup_drop. unfold took_bytes, takes_of.
    rewrite !list_lookup_fmap. destruct (took h !! (evicted + k)) as [t|] eqn:Ht; [|done]. simpl.
    rewrite take_payload_of; [done|]. intros n ->. apply Hdone. by eapply list_elem_of_lookup_2.
  - unfold recorded. rewrite length_fmap. by apply takes_permutation.
  - intros a b i j ri rj Hab. unfold takes_of. rewrite !list_lookup_fmap.
    intros (t & Ha & Hti)%fmap_Some (u & Hb & Huj)%fmap_Some.
    intros (n & Hn & ->)%recorded_lookup (m & Hm & ->)%recorded_lookup.
    symmetry in Hti, Huj. apply take_seen in Hti as (n' & -> & Hn'). apply take_seen in Huj as (m' & -> & Hm').
    assert (n' = n) as -> by congruence. assert (m' = m) as -> by congruence.
    apply span_order; [done|by eapply list_elem_of_lookup_2|by eapply list_elem_of_lookup_2|].
    intros s f. by apply (in_order h Hok a b).
  - intros i j ri rj Hij (n & Hn & ->)%recorded_lookup (m & Hm & ->)%recorded_lookup.
    apply span_order; [done|by eapply list_elem_of_lookup_2|by eapply list_elem_of_lookup_2|].
    intros s f. by apply (Hturn i j).
Qed.

Definition carried (t : nat + P) : MessageOptions :=
  match t with
  | inl n => match snd (publish n) with Some o => Recorded o | None => Unrecorded end
  | inr _ => Unrecorded
  end.
Lemma true_options_of h t :
  (forall n, t = inl n -> n ∈ pushed h) -> true_options (recorded h) (take_of h t) = carried t.
Proof.
  intros Ht. destruct t as [n|m]; [|done]. simpl. destruct (position_in n (pushed h) (Ht n eq_refl)) as [i Hi].
  rewrite Hi. simpl. apply position_at in Hi. unfold recorded. rewrite list_lookup_fmap, Hi. simpl.
  unfold entry_of. by destruct (publish n) as [? [?|]].
Qed.

(** C29. The harness never gives a message the options of another publish, where no publish was
    recorded behind one that began only after it had ended (a task preempted between its second tick
    and the push can be: [interrupted_record_misattributes]).  Whatever publishes with whatever bytes
    the app, the test and others made, their ticks, the broker's takes and the pushes interleaved in
    any such way, once they are through: each message left in the broker's log, however many of the
    oldest it dropped, is given the options of the very publish behind it, none where that is the
    test's own or one the harness never saw, or is left [Ambiguous]; and it is not where nothing was
    dropped, no unseen publish has its bytes and no two recorded ones of them were in flight at once. *)
Theorem attribution_is_sound l h log evicted :
  accesses empty_harness l = Some h -> recorded_in_turn h ->
  (forall n, inl n ∈ took h -> n ∈ pushed h) -> evicted <= length (took h) ->
  payload <$> log = drop evicted (took_bytes h) ->
  forall k m, log !! k = Some m ->
    exists o t, attribute log (recorded h) evicted !! k = Some o /\ took h !! (evicted + k) = Some t /\
      (o = Ambiguous \/ o = carried t) /\
      (clear (recorded h) evicted (takes_of h) (payload m) -> o = carried t).
Proof.
  intros Hl Hturn Hdone Hle Hlog k m Hm. pose proof (accesses_ok _ _ _ empty_ok Hl) as Hok.
  destruct (attribute_sound log (recorded h) evicted (takes_of h)
    (harness_happened h log evicted Hok Hturn Hdone Hle Hlog) k m Hm) as (o & t & Ho & Ht & Hor & Hclear).
  unfold takes_of in Ht. rewrite list_lookup_fmap in Ht. apply fmap_Some in Ht as (u & Hu & ->).
  assert (Hc : true_options (recorded h) (take_of h u) = carried u).
  { apply true_options_of. intros n ->. apply Hdone. by eapply list_elem_of_lookup_2. }
  rewrite Hc in *. by exists o, u.
Qed.

End recorder.

(** Three publishes of the same bytes: two by handlers, with options of their own, one by the test. *)
Definition order : @RawMessage nat unit := mk_message "orders" 5 tt.
Definition orders (n : nat) : @RawMessage nat unit * option (@RecordedOptions nat) :=
  (order, match n with 2 => None | _ => Some (mk_options "u8" (Some (10 + n))) end).
(** Each next publish is captured between the second tick of the one before and its push. *)
Definition in_turn : list (@Access nat) :=
  [Captured 0; Took 0; Finished 0; Captured 1; Pushed 0; Took 1; Finished 1; Captured 2; Took 2; Pushed 1; Finished 2; Pushed 2].

Definition after (l : list (@Access nat)) : @Harness nat := default empty_harness (accesses empty_harness l).
Lemma ran (l : list (@Access nat)) :
  match accesses empty_harness l with Some _ => true | None => false end = true ->
  accesses empty_harness l = Some (after l).
Proof. unfold after. by destruct (accesses empty_harness l). Qed.
Definition in_turn_harness : @Harness nat := after in_turn.
Definition in_turn_log : list (@RawMessage nat unit) := [order; order].

Lemma in_turn_in_turn : recorded_in_turn in_turn_harness.
Proof.
  assert (Hp : pushed in_turn_harness = [0; 1; 2]) by (vm_compute; reflexivity).
  assert (H0 : began in_turn_harness !! 0 = Some 0%N) by (vm_compute; reflexivity).
  assert (H1 : began in_turn_harness !! 1 = Some 2%N) by (vm_compute; reflexivity).
  assert (H2 : ended in_turn_harness !! 1 = Some 3%N) by (vm_compute; reflexivity).
  assert (H3 : ended in_turn_harness !! 2 = Some 5%N) by (vm_compute; reflexivity).
  unfold recorded_in_turn. revert Hp H0 H1 H2 H3.
  generalize (pushed in_turn_harness) (began in_turn_harness) (ended in_turn_harness). intros p bg en -> H0 H1 H2 H3.
  intros [|[|[|a]]] [|[|[|b]]] i j s f Hab; try lia; try done; simpl; intros [= <-] [= <-]; rewrite ?H0, ?H1, ?H2, ?H3;
    intros [= <-] [= <-]; lia.
Qed.

Lemma attribution_is_sound_witness :
  attribute in_turn_log (recorded orders in_turn_harness) 1 =
    [Recorded (mk_options "u8" (Some 11)); Unrecorded] /\
  exists o t, attribute in_turn_log (recorded orders in_turn_harness) 1 !! 0 = Some o /\
    took in_turn_harness !! 1 = Some t /\ (o = Ambiguous \/ o = carried orders t).
Proof.
  split; [vm_compute; reflexivity|].
  destruct (attribution_is_sound orders in_turn in_turn_harness in_turn_log 1) with (k := 0) (m := order)
    as (o & t & Ho & Ht & Hor & _).
  - by apply ran.
  - exact in_turn_in_turn.
  - assert (Ht : took in_turn_harness = [inl 0; inl 1; inl 2]) by (vm_compute; reflexivity).
    assert (Hp : pushed in_turn_harness = [0; 1; 2]) by (vm_compute; reflexivity).
    rewrite Ht, Hp. intros n Hn. rewrite !elem_of_cons in Hn. rewrite !elem_of_cons.
    destruct Hn as [[= ->]|[[= ->]|[[= ->]|[]%elem_of_nil]]]; auto.
  - assert (Ht : took in_turn_harness = [inl 0; inl 1; inl 2]) by (vm_compute; reflexivity).
    rewrite Ht. simpl. lia.
  - vm_compute. reflexivity.
  - reflexivity.
  - exists o, t. split; [exact Ho|]. split; [exact Ht|exact Hor].
Defined.

(** The second tick of a publish and its push into the record are two steps: where another task is
    captured, taken, and recorded whole between them, the record's order is not the broker's, and two
    publishes of the same bytes get each other's options. *)
Definition interrupted : list (@Access nat) :=
  [Captured 0; Took 0; Finished 0; Captured 1; Took 1; Finished 1; Pushed 1; Pushed 0].
Lemma interrupted_record_misattributes :
  accesses empty_harness interrupted = Some (after interrupted) /\
  took (after interrupted) = [inl 0; inl 1] /\
  attribute in_turn_log (recorded orders (after interrupted)) 0 !! 0 = Some (carried orders (inl 1)) /\
  carried orders (inl 0) <> carried orders (inl 1).
Proof. split; [by apply ran|]. split; [vm_compute; reflexivity|]. by split; [vm_compute; reflexivity|]. Qed.
End Attribution.
