(* ===== verification/Coordinator.v ===== *)
(** * The harness's coordinator ([runtime/src/testing/coordinator.rs])

    [drive] waits until nothing is in flight, on two counters that brokers and dispatches write with
    a notification after each change; [settle_live] waits until every subscription has handled what
    the recorded publishes owe it and no handler runs, from three reads made one after the other.
    Both are interleaved here with everyone who writes, one shared access at a time. *)
From S2P Require Import Prelude RustStd.

Module Coordinator.

(** ** The counters and [drive] *)

(** [Notify]: a [Notified] made when [notify_waiters] had been called [calls] times completes at the
    next call. *)
Record Inner := mk_inner {
  in_flight : N;
  processed : N;
  step_from : N;
  max_steps : N;
  calls : N;
}.

Definition new_inner (max_steps : N) : Inner := mk_inner 0 0 0 max_steps 0.

Definition flight_add (i : Inner) : Inner :=
  mk_inner (in_flight i + 1) (processed i) (step_from i) (max_steps i) (calls i).
(** [fetch_sub]: [None] where it would wrap below zero. *)
Definition flight_sub (i : Inner) : option Inner :=
  if (in_flight i =? 0)%N then None
  else Some (mk_inner (in_flight i - 1) (processed i) (step_from i) (max_steps i) (calls i)).
Definition process (i : Inner) : Inner :=
  mk_inner (in_flight i) (processed i + 1) (step_from i) (max_steps i) (calls i).
Definition notify_waiters (i : Inner) : Inner :=
  mk_inner (in_flight i) (processed i) (step_from i) (max_steps i) (calls i + 1).
Definition set_step_from (i : Inner) (from : N) : Inner :=
  mk_inner (in_flight i) (processed i) from (max_steps i) (calls i).

(** [saturating_sub] is [N.sub]. *)
Definition step_processed (i : Inner) : N := (processed i - step_from i)%N.
Definition exhausted (i : Inner) : bool :=
  (max_steps i <=? processed i - step_from i)%N && (0 <? in_flight i)%N.

(** What is left of a call another task is in: [consumed] has counted and is to take its delivery
    off, a change was made and is to be notified. *)
Inductive Pending := Subtracts | Notifies.

(** The driver: in [begin_step] before its load and before its store, before it registers, registered
    at [seen] calls before its two reads, waiting, and returned. *)
Inductive DriverAt :=
  | Loads
  | Stores (from : N)
  | Registers
  | ReadsFlight (seen : N)
  | ReadsProcessed (seen : N)
  | Awaits (seen : N)
  | Settled
  | NotQuiescent (processed : N).

(** [open] counts the deliveries and holds not yet given back. *)
Record World := mk_world {
  inner : Inner;
  open : nat;
  pending : list Pending;
  driver : DriverAt;
}.

Inductive Turn :=
  | Enqueues
  | Consumes
  | Holds
  | Releases
  | Goes (i : nat)
  | Drives
  | Again.

Definition drive (i : Inner) (at_ : DriverAt) : option (Inner * DriverAt) :=
  match at_ with
  | Loads => Some (i, Stores (processed i))
  | Stores from => Some (set_step_from i from, Registers)
  | Registers => Some (i, ReadsFlight (calls i))
  | ReadsFlight seen => Some (i, if (in_flight i =? 0)%N then Settled else ReadsProcessed seen)
  | ReadsProcessed seen =>
      let processed := step_processed i in
      Some (i, if (max_steps i <=? processed)%N then NotQuiescent processed else Awaits seen)
  | Awaits seen => if (seen <? calls i)%N then Some (i, Registers) else None
  | Settled | NotQuiescent _ => None
  end.

(** The first access of each call, and what is left of it: [enqueued], [consumed], [hold] and the
    drop of its guard.  A delivery is consumed, and a hold released, once. *)
Definition step (w : World) (t : Turn) : option World :=
  match t with
  | Enqueues =>
      Some (mk_world (flight_add (inner w)) (S (open w)) (pending w ++ [Notifies]) (driver w))
  | Consumes =>
      match open w with
      | O => None
      | S n => Some (mk_world (process (inner w)) n (pending w ++ [Subtracts]) (driver w))
      end
  | Holds => Some (mk_world (flight_add (inner w)) (S (open w)) (pending w) (driver w))
  | Releases =>
      match open w with
      | O => None
      | S n =>
          i ← flight_sub (inner w);
          Some (mk_world i n (pending w ++ [Notifies]) (driver w))
      end
  | Goes n =>
      p ← pending w !! n;
      match p with
      | Subtracts => i ← flight_sub (inner w); Some (mk_world i (open w) (<[n := Notifies]> (pending w)) (driver w))
      | Notifies => Some (mk_world (notify_waiters (inner w)) (open w) (delete n (pending w)) (driver w))
      end
  | Drives => '(i, at_) ← drive (inner w) (driver w); Some (mk_world i (open w) (pending w) at_)
  | Again =>
      match driver w with
      | Settled | NotQuiescent _ => Some (mk_world (inner w) (open w) (pending w) Loads)
      | _ => None
      end
  end.
Fixpoint play (w : World) (l : list Turn) : option World :=
  match l with
  | [] => Some w
  | t :: l => w ← step w t; play w l
  end.
Definition start (max_steps : N) : World := mk_world (new_inner max_steps) 0 [] Loads.

Definition is_subtracts (p : Pending) : bool := match p with Subtracts => true | Notifies => false end.

(** The count is the deliveries and holds still open, with those being taken off; a driver that
    waits un-notified read a count that was not zero and a budget not spent, and a change to either
    is to be notified. *)
Definition waiting_ok (w : World) (seen : N) : Prop :=
  (seen <= calls (inner w))%N /\
  (calls (inner w) = seen -> in_flight (inner w) = 0%N -> Notifies ∈ pending w).
Record world_ok (w : World) : Prop := mk_world_ok {
  ok_count : N.to_nat (in_flight (inner w)) = open w + count is_subtracts (pending w);
  ok_driver :
    match driver w with
    | ReadsFlight seen => (seen <= calls (inner w))%N
    | ReadsProcessed seen => waiting_ok w seen
    | Awaits seen =>
        waiting_ok w seen /\
        (calls (inner w) = seen -> (max_steps (inner w) <= step_processed (inner w))%N -> pending w <> [])
    | _ => True
    end;
}.

Lemma start_coordinator_ok max_steps : world_ok (start max_steps).
Proof. by split. Qed.

(** A change the driver is told of: what is left of the call notifies. *)
Lemma waiting_told w i n l d seen :
  calls i = calls (inner w) -> Notifies ∈ l -> waiting_ok w seen -> waiting_ok (mk_world i n l d) seen.
Proof. intros Hc Hl [Hle _]. split; simpl; [lia|done]. Qed.
(** One that only adds to the count leaves it from zero, or keeps the notification owed. *)
Lemma waiting_kept w i n l d seen :
  calls i = calls (inner w) -> (in_flight i = 0%N -> in_flight (inner w) = 0%N) ->
  (Notifies ∈ pending w -> Notifies ∈ l) -> waiting_ok w seen -> waiting_ok (mk_world i n l d) seen.
Proof. intros Hc Hf Hl [Hle Hz]. split; simpl; [lia|]. rewrite Hc. auto. Qed.
Lemma waiting_notified w i n l d seen :
  (calls i = calls (inner w) + 1)%N -> waiting_ok w seen -> waiting_ok (mk_world i n l d) seen.
Proof. intros Hc [Hle _]. split; simpl; [lia|]. intros; exfalso; lia. Qed.

Lemma flight_sub_Some i i' :
  flight_sub i = Some i' ->
  (in_flight i = in_flight i' + 1 /\ calls i' = calls i /\ processed i' = processed i /\
   step_from i' = step_from i /\ max_steps i' = max_steps i)%N.
Proof.
  unfold flight_sub. case_match eqn:Hz; [done|]. apply N.eqb_neq in Hz. intros [= <-]. simpl.
  split_and!; [lia|done..].
Qed.

Lemma told_ok w i n l :
  N.to_nat (in_flight i) = n + count is_subtracts l -> calls i = calls (inner w) -> Notifies ∈ l ->
  max_steps i = max_steps (inner w) -> world_ok w -> world_ok (mk_world i n l (driver w)).
Proof.
  intros Hcount Hc Hl Hm [_ Hd]. split; [done|]. simpl. destruct (driver w); try done; simpl.
  - by rewrite Hc.
  - by eapply waiting_told.
  - destruct Hd as [Hd _]. split; [by eapply waiting_told|]. intros _ _ ->. by apply elem_of_nil in Hl.
Qed.

Lemma coordinator_step_ok w t w' : world_ok w -> step w t = Some w' -> world_ok w'.
Proof.
  intros Hok. pose proof Hok as [Hcount Hd]. destruct t; simpl.
  - intros [= <-]. apply told_ok; simpl; try done; [|set_solver].
    rewrite count_app. change (count is_subtracts [Notifies]) with 0. lia.
  - destruct (open w) as [|n] eqn:Ho; [done|]. intros [= <-].
    assert (Hc : N.to_nat (in_flight (inner w)) = n + count is_subtracts (pending w ++ [Subtracts]))
      by (rewrite count_app; change (count is_subtracts [Subtracts]) with 1; lia).
    split; [done|]. simpl. destruct (driver w); try done; simpl.
    + eapply waiting_kept; [done|done|set_solver|done].
    + destruct Hd as [Hd _]. split; [eapply waiting_kept; [done|done|set_solver|done]|].
      intros _ _ Hn. by destruct (pending w).
  - intros [= <-]. split; simpl; [lia|]. destruct (driver w); try done; simpl.
    + eapply waiting_kept; [done|simpl; lia|done|done].
    + destruct Hd as [Hd Hm]. split; [eapply waiting_kept; [done|simpl; lia|done|done]|done].
  - destruct (open w) as [|n] eqn:Ho; [done|]. intros (i & Hi & [= <-])%bind_Some.
    apply flight_sub_Some in Hi as (? & ? & ? & ? & ?). apply told_ok; simpl; try done; [|set_solver].
    rewrite count_app. change (count is_subtracts [Notifies]) with 0. lia.
  - intros (p & Hp & Hs)%bind_Some. destruct p.
    + apply bind_Some in Hs as (i' & Hi & [= <-]). apply flight_sub_Some in Hi as (? & ? & ? & ? & ?).
      pose proof (count_insert is_subtracts _ _ _ Notifies Hp) as Hins. simpl in Hins.
      apply told_ok; simpl; try done; [lia|].
      apply list_elem_of_lookup. exists i. apply list_lookup_insert_eq. by eapply lookup_lt_Some.
    + injection Hs as <-. pose proof (count_delete is_subtracts _ _ _ Hp) as Hdel. simpl in Hdel.
      split; simpl; [lia|]. destruct (driver w); try done; simpl.
      * lia.
      * by eapply waiting_notified.
      * destruct Hd as [Hd _]. split; [by eapply waiting_notified|]. destruct Hd as [Hle _]. simpl. intros; exfalso; lia.
  - intros ([i d] & Hdr & [= <-])%bind_Some. unfold drive in Hdr.
    destruct (driver w) as [|from| |seen|seen|seen| |]; try done.
    + by injection Hdr as <- <-.
    + by injection Hdr as <- <-.
    + injection Hdr as <- <-. split; [done|]. simpl. lia.
    + injection Hdr as <- <-. split; [done|]. simpl. destruct (in_flight (inner w) =? 0)%N eqn:Hz; [done|].
      split; simpl; [done|]. apply N.eqb_neq in Hz. intros; exfalso; lia.
    + injection Hdr as <- <-. split; [done|]. simpl.
      destruct (max_steps (inner w) <=? _)%N eqn:Hm; [done|]. split; [done|].
      simpl. apply N.leb_gt in Hm. intros; exfalso; lia.
    + case_match; [|done]. by injection Hdr as <- <-.
  - destruct (driver w); intros [= <-]; by split.
Qed.
Lemma coordinator_play_ok w l w' : world_ok w -> play w l = Some w' -> world_ok w'.
Proof.
  revert w. induction l as [|t l IH]; intros w Hok; [by intros [= <-]|].
  simpl. intros (w1 & H1 & H2)%bind_Some. eapply IH; [|done]. by eapply coordinator_step_ok.
Qed.

(** [drive] answers truly and never oversleeps, whatever enqueues, consumes and holds around it:
    it settles only at an instant when no delivery and no hold is open; it gives up only with the
    whole budget of the step dispatched; and while it waits with nobody in the middle of a call,
    something is in flight and the budget is not spent, so no change is left it was not told of.
    The count never wraps below zero. *)
Theorem drive_never_oversleeps max l w :
  play (start max) l = Some w ->
  (forall w', step w Drives = Some w' ->
    match driver w' with
    | Settled => open w = 0 /\ count is_subtracts (pending w) = 0
    | NotQuiescent n => (max_steps (inner w) <= n)%N /\ n = step_processed (inner w)
    | _ => True
    end) /\
  (forall seen, driver w = Awaits seen -> step w Drives = None -> pending w = [] ->
    0 < open w /\ (step_processed (inner w) < max_steps (inner w))%N) /\
  (0 < open w -> step w Releases <> None) /\
  (forall i, i < length (pending w) -> step w (Goes i) <> None).
Proof.
  intros Hp. destruct (coordinator_play_ok _ _ _ (start_coordinator_ok max) Hp) as [Hcount Hd]. split_and!.
  - intros w' Hs. simpl in Hs. apply bind_Some in Hs as ([i d] & Hdr & [= <-]). simpl. unfold drive in Hdr.
    destruct (driver w); try done; try (by injection Hdr as <- <-).
    + injection Hdr as <- <-. destruct (in_flight (inner w) =? 0)%N eqn:Hz; [|done].
      apply N.eqb_eq in Hz. lia.
    + injection Hdr as <- <-. destruct (max_steps (inner w) <=? _)%N eqn:Hm; [|done].
      by apply N.leb_le in Hm.
    + case_match; [|done]. by injection Hdr as <- <-.
  - intros seen Hdr Hnone Hpend. simpl in Hnone. rewrite Hdr in *. simpl in Hnone.
    destruct Hd as [[Hle Hz] Hm]. destruct (seen <? calls (inner w))%N eqn:Hlt; [done|].
    apply N.ltb_ge in Hlt. assert (calls (inner w) = seen) as Hseen by lia.
    rewrite Hpend in *. rewrite count_nil in Hcount. split.
    + destruct (open w) eqn:Ho; [|lia]. exfalso. assert (Hn : Notifies ∈ []) by (apply Hz; [done|lia]).
      by apply elem_of_nil in Hn.
    + destruct (N.lt_ge_cases (step_processed (inner w)) (max_steps (inner w))) as [|Hge]; [done|].
      by destruct (Hm Hseen Hge).
  - simpl. destruct (open w) eqn:Ho; [lia|]. intros _. unfold flight_sub.
    destruct (in_flight (inner w) =? 0)%N eqn:Hz; simpl; [|done]. apply N.eqb_eq in Hz. lia.
  - intros i Hi. simpl. destruct (lookup_lt_is_Some_2 _ _ Hi) as [p Hp']. rewrite Hp'. simpl.
    destruct p; [|done]. unfold flight_sub.
    destruct (in_flight (inner w) =? 0)%N eqn:Hz; simpl; [|done]. apply N.eqb_eq in Hz.
    pose proof (count_pos is_subtracts (pending w) Subtracts ltac:(by eapply list_elem_of_lookup_2) eq_refl).
    lia.
Qed.

Definition a_reaction : list Turn :=
  [Drives; Enqueues; Drives; Goes 0; Drives; Drives; Drives; Consumes; Holds].
Lemma drive_never_oversleeps_witness :
  exists w, play (start 4) a_reaction = Some w /\ driver w = Awaits 1 /\ open w = 1 /\
    (forall i, i < length (pending w) -> step w (Goes i) <> None).
Proof.
  destruct (play (start 4) a_reaction) as [w|] eqn:Hp; [|vm_compute in Hp; discriminate].
  destruct (drive_never_oversleeps 4 a_reaction w Hp) as (_ & _ & _ & Hgoes).
  exists w. vm_compute in Hp. injection Hp as <-. by split_and!.
Defined.

End Coordinator.

(** * What a live settle waits for *)
Module Settling.

(** ** The reads of [owed] *)

Record LiveSubscription := mk_live { id : nat; scope_id : nat; name : string }.
(** What is read of a [Record]: its subscription and how many deliveries the call carried. *)
Record Record_ := mk_record { subscription : nat; deliveries : nat }.
Record Published := mk_published { published_scope : nat; destination : string }.
Record DueRedelivery := mk_due { redelivered : nat; due : N }.
Record Unsettled := mk_unsettled { unsettled : string; has_handled : nat; expects : nat }.

Section owed.
(** [Routing]: which of the names subscribed on a broker a destination is delivered to. *)
Context (routing : nat -> string -> list string -> list nat).
Context (subscriptions : list LiveSubscription).

Definition handled_by (records : list Record_) (i : nat) : nat :=
  sum_list_with (fun r => if subscription r =? i then deliveries r else 0) records.
Definition handled (records : list Record_) : list nat := (fun s => handled_by records (id s)) <$> subscriptions.

(** The subscriptions of a publish's own broker, and those of them it is routed to. *)
Definition on_broker (scope : nat) : list nat :=
  filter (fun i => scope_id <$> subscriptions !! i = Some scope) (seq 0 (length subscriptions)).
Definition reach (p : Published) : list nat :=
  let on := on_broker (published_scope p) in
  match on with
  | [] => []
  | _ =>
      let names := name <$> omap (fun i => subscriptions !! i) on in
      omap (fun position => on !! position) (routing (published_scope p) (destination p) names)
  end.
Definition bump (expected : list nat) (i : nat) : list nat := alter S i expected.
Definition routed_publishes (published : list Published) : list nat :=
  fold_left (fun expected p => fold_left bump (reach p) expected) published
    (replicate (length subscriptions) 0).
Definition add_due_redeliveries (redeliveries : list DueRedelivery) (now : N) (expected : list nat) : list nat :=
  zip_with (fun s e => e + length (filter (fun d => redelivered d = id s /\ (due d <= now)%N) redeliveries))
    subscriptions expected.
Definition first_unsettled (handled expected : list nat) : option Unsettled :=
  head (omap (fun '(s, (h, e)) => if h <? e then Some (mk_unsettled (name s) h e) else None)
    (zip subscriptions (zip handled expected))).
(** [owed], its two reads given as they were made. *)
Definition owed (handled : list nat) (published : list Published) (redeliveries : list DueRedelivery) (now : N)
  : option Unsettled :=
  first_unsettled handled (add_due_redeliveries redeliveries now (routed_publishes published)).

(** ** What the reads come to *)

Definition owes (published : list Published) (i : nat) : nat :=
  sum_list_with (fun p => count (Nat.eqb i) (reach p)) published.

Lemma bumps_lookup l expected i :
  fold_left bump l expected !! i = (fun e => e + count (Nat.eqb i) l) <$> expected !! i.
Proof.
  revert expected. induction l as [|j l IH]; intros expected; simpl.
  - rewrite count_nil. destruct (expected !! i); simpl; [f_equal; lia|done].
  - rewrite IH, count_cons. unfold bump. destruct (decide (i = j)) as [->|Hne].
    + rewrite list_lookup_alter_eq, Nat.eqb_refl. destruct (expected !! j); simpl; [f_equal; lia|done].
    + rewrite list_lookup_alter_ne by done. apply Nat.eqb_neq in Hne. rewrite Hne. done.
Qed.
Lemma routed_publishes_lookup published i :
  i < length subscriptions -> routed_publishes published !! i = Some (owes published i).
Proof.
  intros Hi. unfold routed_publishes, owes.
  assert (Hgen : forall expected, fold_left (fun expected p => fold_left bump (reach p) expected) published expected !! i =
    (fun e => e + sum_list_with (fun p => count (Nat.eqb i) (reach p)) published) <$> expected !! i).
  { induction published as [|p published IH]; intros expected; simpl.
    - destruct (expected !! i); simpl; [f_equal; lia|done].
    - rewrite IH, bumps_lookup. destruct (expected !! i); simpl; [f_equal; lia|done]. }
  rewrite Hgen, lookup_replicate_2 by done. simpl. done.
Qed.

(** Nothing is owed exactly where every subscription has handled what it is owed. *)
Lemma first_unsettled_None h e :
  first_unsettled h e = None <->
  forall i s x y, subscriptions !! i = Some s -> h !! i = Some x -> e !! i = Some y -> y <= x.
Proof.
  unfold first_unsettled. revert h e. induction subscriptions as [|s l IH]; intros h e.
  - split; [by intros _ i s x y|done].
  - destruct h as [|x h]; [split; [by intros _ i ? ? ?|done]|].
    destruct e as [|y e]; [split; [by intros _ i ? ? ?|done]|].
    csimpl. destruct (x <? y) eqn:Hxy; simpl.
    + apply Nat.ltb_lt in Hxy. split; [done|]. intros H. specialize (H 0 s x y eq_refl eq_refl eq_refl). lia.
    + apply Nat.ltb_ge in Hxy. rewrite IH. split.
      * intros H [|i] s' x' y'; simpl; [by intros [= <-] [= <-] [= <-]|]. apply H.
      * intros H i s' x' y'. apply (H (S i)).
Qed.
Lemma owed_None records published redeliveries now :
  owed (handled records) published redeliveries now = None ->
  forall i s, subscriptions !! i = Some s -> owes published i <= handled_by records (id s).
Proof.
  unfold owed. intros Hn i s Hs. rewrite first_unsettled_None in Hn.
  assert (Hr : routed_publishes published !! i = Some (owes published i))
    by (apply routed_publishes_lookup; by apply lookup_lt_Some in Hs).
  specialize (Hn i s (handled_by records (id s))
    (owes published i + length (filter (fun d => redelivered d = id s /\ (due d <= now)%N) redeliveries)) Hs).
  unfold handled in Hn. rewrite list_lookup_fmap, Hs in Hn. specialize (Hn eq_refl).
  unfold add_due_redeliveries in Hn. rewrite lookup_zip_with, Hs in Hn. simpl in Hn. rewrite Hr in Hn.
  specialize (Hn eq_refl). lia.
Qed.

End owed.

(** [TestHooks::subscriptions]: a subscription's identity is its position. *)
Definition live (mounted : list (nat * string)) : list LiveSubscription :=
  imap (fun i '(scope, name) => mk_live i scope name) mounted.

(** ** The app under test

    A broker delivers a publish to the subscriptions its routing names; a handler takes a delivery,
    hands the broker publishes of its own, each recorded once the broker took it, records itself once
    they are all recorded, and is then consumed.  The test publishes, then settles. *)
Section settling.
Context (routing : nat -> string -> list string -> list nat) (mounted : list (nat * string)).
Abbreviation reach := (reach routing (live mounted)).
Abbreviation owes := (owes routing (live mounted)).

Record Handler := mk_handler { on : nat; unrecorded : list Published; recorded : bool }.

(** [settle_live]: before it, then before each of its reads with what it has read, and returned. *)
Inductive SettleAt :=
  | Testing (unrecorded : list Published)
  | ReadsHandled
  | ReadsPublished (handled : list nat)
  | ReadsFlight (owed : option Unsettled)
  | Waits
  | Settled.

Record World := mk_world {
  waiting : list nat;
  running : list Handler;
  published : list Published;
  records : list Record_;
  settle : SettleAt;
}.

Inductive Turn :=
  | TestTakes (p : Published)
  | TestRecords
  | Delivers (k : nat)
  | Takes (i : nat) (p : Published)
  | RecordsPublish (i k : nat)
  | RecordsCall (i : nat)
  | Consumed (i : nat)
  | Settles.

Definition set_running (w : World) (l : list Handler) : World :=
  mk_world (waiting w) l (published w) (records w) (settle w).
Definition set_settle (w : World) (at_ : SettleAt) : World :=
  mk_world (waiting w) (running w) (published w) (records w) at_.

(** [settle_live]: [in_flight] counts the handlers from their start to [consumed]. *)
Definition settles (w : World) : option SettleAt :=
  match settle w with
  | Testing [] => Some ReadsHandled
  | Testing _ => None
  | ReadsHandled => Some (ReadsPublished (handled (live mounted) (records w)))
  | ReadsPublished h => Some (ReadsFlight (owed routing (live mounted) h (published w) [] 0))
  | ReadsFlight owed =>
      Some (match owed with
            | None => if length (running w) =? 0 then Settled else Waits
            | Some _ => Waits
            end)
  | Waits => Some ReadsHandled
  | Settled => None
  end.

Definition step (w : World) (t : Turn) : option World :=
  match t with
  | TestTakes p =>
      match settle w with
      | Testing l => Some (mk_world (waiting w ++ reach p) (running w) (published w) (records w) (Testing (l ++ [p])))
      | _ => None
      end
  | TestRecords =>
      match settle w with
      | Testing (p :: l) => Some (mk_world (waiting w) (running w) (published w ++ [p]) (records w) (Testing l))
      | _ => None
      end
  | Delivers k =>
      s ← waiting w !! k;
      Some (mk_world (delete k (waiting w)) (running w ++ [mk_handler s [] false]) (published w) (records w) (settle w))
  | Takes i p =>
      h ← running w !! i;
      if recorded h then None
      else Some (mk_world (waiting w ++ reach p)
                  (<[i := mk_handler (on h) (unrecorded h ++ [p]) false]> (running w))
                  (published w) (records w) (settle w))
  | RecordsPublish i k =>
      h ← running w !! i;
      p ← unrecorded h !! k;
      Some (mk_world (waiting w) (<[i := mk_handler (on h) (delete k (unrecorded h)) (recorded h)]> (running w))
              (published w ++ [p]) (records w) (settle w))
  | RecordsCall i =>
      h ← running w !! i;
      match unrecorded h, recorded h with
      | [], false =>
          Some (mk_world (waiting w) (<[i := mk_handler (on h) [] true]> (running w)) (published w)
                  (records w ++ [mk_record (on h) 1]) (settle w))
      | _, _ => None
      end
  | Consumed i =>
      h ← running w !! i;
      if recorded h then Some (set_running w (delete i (running w))) else None
  | Settles => set_settle w <$> settles w
  end.

Definition start : World := mk_world [] [] [] [] (Testing []).


(** ** What holds between any two turns *)

Definition in_hand (i : nat) (h : Handler) : nat := if negb (recorded h) && (on h =? i) then 1 else 0.
Definition test_unrecorded (w : World) : list Published :=
  match settle w with Testing l => l | _ => [] end.

(** Every delivery the broker took on for a subscription waits, is in a handler, or was handled. *)
Definition conserved (w : World) : Prop := forall i,
  owes (published w) i + sum_list_with (fun h => owes (unrecorded h) i) (running w) + owes (test_unrecorded w) i =
  count (Nat.eqb i) (waiting w) + sum_list_with (in_hand i) (running w) + handled_by (records w) i.
Definition handler_ok (rank : nat -> nat) (h : Handler) : Prop :=
  on h < length mounted /\
  (recorded h = true -> unrecorded h = []) /\
  forall p i, p ∈ unrecorded h -> i ∈ reach p -> rank (on h) < rank i.
Definition quiet (w : World) : Prop := waiting w = [] /\ forall h, h ∈ running w -> recorded h = true.
(** Later reads see at least what earlier ones did. *)
Definition settle_ok (w : World) : Prop :=
  match settle w with
  | ReadsPublished h => forall i n, h !! i = Some n -> n <= handled_by (records w) i
  | ReadsFlight None => quiet w
  | Settled => waiting w = [] /\ running w = []
  | _ => True
  end.
Record world_ok (rank : nat -> nat) (w : World) : Prop := mk_world_ok {
  ok_conserved : conserved w;
  ok_handlers : forall h, h ∈ running w -> handler_ok rank h;
  ok_in_range : forall i, i ∈ waiting w -> i < length mounted;
  ok_handled_length : forall h, settle w = ReadsPublished h -> length h = length mounted;
  ok_settle : settle_ok w;
}.
















Fixpoint play (w : World) (l : list Turn) : option World :=
  match l with
  | [] => Some w
  | t :: l => w ← step w t; play w l
  end.

End settling.

(** A broker that delivers to the subscriptions of the very name. *)
Definition exact (scope : nat) (destination : string) (names : list string) : list nat :=
  filter (fun k => names !! k = Some destination) (seq 0 (length names)).

(** A handler that publishes two messages back to its own subscription, one of them handled before
    the broker's answers let it record either: the count of handled deliveries covers for the other,
    and where the handler ends between two reads the settle returns with that one still waiting. *)
Definition looped : list Turn :=
  [TestTakes (mk_published 0 "orders"); TestRecords; Delivers 0; Takes 0 (mk_published 0 "orders");
   Takes 0 (mk_published 0 "orders"); Delivers 0; RecordsCall 1; Consumed 1;
   Settles; Settles; Settles; RecordsPublish 0 0; RecordsPublish 0 0; RecordsCall 0; Consumed 0; Settles].
Lemma a_loop_settles_early :
  exists w, play exact [(0, "orders")] start looped = Some w /\ settle w = Settled /\ waiting w = [0].
Proof. eexists. by split; [vm_compute; reflexivity|]. Qed.
End Settling.
