(* ===== verification/Quiescence.v ===== *)
(** * Which tasks of an app are runnable, and a wait that ends
    ([crates/runtime-tokio/src/follow.rs], [runtime-compio/src/quiescence.rs],
    [testing/src/harness/busy.rs])

    A thread that holds a lease has its tasks followed: a flag per task and one count of the
    runnable ones, which the wakes and polls change in two atomic steps each, from any thread.  The
    module [Follow] interleaves those steps with a harness that registers for a wake, reads the
    count and parks; [Lease] is who follows whose tasks; [Busy] is the harness's wait on an app
    whose task keeps itself runnable.  The orderings are acquire and release on one location each,
    and the steps are sequentially consistent.  [tokio]'s [Notify] keeps one permit, as its
    documentation says. *)
From S2P Require Import Prelude RustStd.
#[local] Open Scope Z_scope.

Module Follow.

(** The three states of a flag. *)
Inductive FlagState := PARKED | RUNNABLE | GONE.
#[export] Instance FlagState_eq_dec : EqDecision FlagState.
Proof. solve_decision. Defined.

Definition usize : Z := 2 ^ 64.
Definition fetch_add (count : Z) : Z := (count + 1) mod usize.
Definition fetch_sub (count : Z) : Z := (count - 1) mod usize.

(** What a thread still owes after the first atomic step of a spawn, a wake, a poll or a drop. *)
Inductive Owes :=
  | Create
  | Add
  | Sub
  | Wakes.
#[export] Instance Owes_eq_dec : EqDecision Owes.
Proof. solve_decision. Defined.

(** The harness: elsewhere, registered for a wake, or parked on it after it read that nothing is
    runnable. *)
Inductive Harness := Away | Enabled | Parked.

(** [Tracking], the flags of the followed tasks, what the threads owe, and the harness with its
    [Notified]: whether it has been notified, the permit a wake leaves where nobody waits, and whether
    the notification was a permit [enable] took, which is consumed. *)
Record World := mk_world {
  runnable : Z;
  flags : list FlagState;
  owed : list Owes;
  harness : Harness;
  notified : bool;
  permit : bool;
  consumed : bool;
}.
Definition start : World := mk_world 0 [] [] Away false false false.

(** [compare_exchange]: the flag, and whether it was exchanged. *)
Definition compare_exchange (from into : FlagState) (s : FlagState) : FlagState * bool :=
  if decide (s = from) then (into, true) else (s, false).

(** The first step of [mark], [polled] and [gone] on task [t]; [None] where there is no such task. *)
Definition on_flag (t : nat) (change : FlagState -> FlagState * bool) (owes : Owes) (w : World) : option World :=
  s ← flags w !! t;
  let (s, changed) := change s in
  Some (mk_world (runnable w) (<[t := s]> (flags w)) (if changed then owes :: owed w else owed w)
          (harness w) (notified w) (permit w) (consumed w)).
Definition mark (t : nat) : World -> option World := on_flag t (compare_exchange PARKED RUNNABLE) Add.
Definition polled (t : nat) : World -> option World := on_flag t (compare_exchange RUNNABLE PARKED) Sub.
Definition gone (t : nat) : World -> option World :=
  on_flag t (fun s => (GONE, bool_decide (s = RUNNABLE))) Sub.

(** [follow]: the count first, then the wake, then the flag. *)
Definition follow (w : World) : World :=
  mk_world (fetch_add (runnable w)) (flags w) (Wakes :: Create :: owed w) (harness w) (notified w) (permit w) (consumed w).

(** [Notify::notify_one]: the registered waiter, or a permit. *)
Definition notify_one (w : World) (owed : list Owes) : World :=
  match harness w, notified w with
  | Enabled, false | Parked, false => mk_world (runnable w) (flags w) owed (harness w) true (permit w) (consumed w)
  | _, _ => mk_world (runnable w) (flags w) owed (harness w) (notified w) true (consumed w)
  end.

(** The second step of what a thread owes. *)
Definition pays (o : Owes) (rest : list Owes) (w : World) : World :=
  match o with
  | Create => mk_world (runnable w) (flags w ++ [RUNNABLE]) rest (harness w) (notified w) (permit w) (consumed w)
  | Add => mk_world (fetch_add (runnable w)) (flags w) (Wakes :: rest) (harness w) (notified w) (permit w) (consumed w)
  | Sub => mk_world (fetch_sub (runnable w)) (flags w) rest (harness w) (notified w) (permit w) (consumed w)
  | Wakes => notify_one w rest
  end.

(** The harness: [woken] with [enable], which takes a permit that is there; the read of the count,
    after which it parks where that is zero; and going on, woken or because what it waits for ended.  A
    [Notified] dropped with a notification it never consumed hands it back as a permit. *)
Definition enable (w : World) : World :=
  mk_world (runnable w) (flags w) (owed w) Enabled (permit w) false (permit w).
Definition dropped (w : World) : World :=
  mk_world (runnable w) (flags w) (owed w) Away false (permit w || notified w && negb (consumed w)) false.
Definition reads (w : World) : World :=
  if runnable w =? 0
  then mk_world (runnable w) (flags w) (owed w) Parked (notified w) (permit w) (consumed w)
  else dropped w.
Definition wakes_up (w : World) : World :=
  mk_world (runnable w) (flags w) (owed w) Away false (permit w) false.
Definition wait_ends (w : World) : World := dropped w.

Inductive step : World -> World -> Prop :=
  | step_follow w : step w (follow w)
  | step_mark w w' t : mark t w = Some w' -> step w w'
  | step_polled w w' t : polled t w = Some w' -> step w w'
  | step_gone w w' t : gone t w = Some w' -> step w w'
  | step_pays w o before rest : owed w = before ++ o :: rest -> step w (pays o (before ++ rest) w)
  | step_enable w : harness w = Away -> step w (enable w)
  | step_reads w : harness w = Enabled -> step w (reads w)
  | step_wakes_up w : harness w = Parked -> notified w = true -> step w (wakes_up w)
  | step_wait_ends w : harness w = Parked -> step w (wait_ends w).

(** Fewer tasks and threads than the count can tell apart. *)
Definition fits (w : World) : Prop := Z.of_nat (length (flags w) + length (owed w)) < usize.

Inductive reachable : World -> Prop :=
  | reach_start : reachable start
  | reach_step w w' : reachable w -> fits w -> step w w' -> reachable w'.
(** ** The count, and what is owed on it *)

Definition is_runnable (s : FlagState) : bool := bool_decide (s = RUNNABLE).
Definition R (w : World) : Z := Z.of_nat (count is_runnable (flags w)).
Definition owes (o : Owes) (l : list Owes) : Z := Z.of_nat (count (fun o' => bool_decide (o' = o)) l).

Record inv (w : World) : Prop := {
  i_count : runnable w = (R w + owes Create (owed w) + owes Sub (owed w) - owes Add (owed w)) mod usize;
  i_parked : harness w = Parked -> notified w = false ->
    R w + owes Create (owed w) + owes Sub (owed w) <= owes Add (owed w) + owes Wakes (owed w);
}.

Lemma owes_cons o o' l : owes o (o' :: l) = (if decide (o' = o) then 1 else 0) + owes o l.
Proof. unfold owes. rewrite count_cons. case_bool_decide; case_decide; try done; lia. Qed.

Lemma owes_middle o o' before rest :
  owes o (before ++ o' :: rest) = (if decide (o' = o) then 1 else 0) + owes o (before ++ rest).
Proof. unfold owes. rewrite !count_app, count_cons. case_bool_decide; case_decide; try done; lia. Qed.

Lemma runnable_insert t s s' l :
  l !! t = Some s -> Z.of_nat (count is_runnable (<[t := s']> l)) =
    Z.of_nat (count is_runnable l) - (if is_runnable s then 1 else 0) + (if is_runnable s' then 1 else 0).
Proof.
  intros Hl. pose proof (count_insert is_runnable l t s s' Hl) as H. destruct (is_runnable s), (is_runnable s'); lia.
Qed.
Lemma on_flag_inv t (change : FlagState -> FlagState * bool) owes_ w w' :
  (forall s s' c, change s = (s', c) -> let r (x : FlagState) : Z := if is_runnable x then 1 else 0 in
     r s' - r s = if c then (if decide (owes_ = Add) then 1 else -1) else 0) ->
  owes_ = Add \/ owes_ = Sub -> inv w -> on_flag t change owes_ w = Some w' -> inv w'.
Proof.
  intros Hc Ho [Hcount Hpark] Hs. unfold on_flag in Hs. destruct (flags w !! t) as [s|] eqn:Hl; [|done]. simpl in Hs.
  destruct (change s) as [s' c] eqn:Hch. injection Hs as <-. specialize (Hc s s' c Hch). cbv zeta in Hc.
  pose proof (runnable_insert t s s' _ Hl) as HR. split; simpl; unfold R in *; simpl; rewrite HR.
  - rewrite Hcount. f_equal. destruct c, Ho as [-> | ->]; rewrite ?owes_cons; simpl; simpl in Hc; lia.
  - intros Hp Hn. specialize (Hpark Hp Hn). destruct c, Ho as [-> | ->]; rewrite ?owes_cons; simpl; simpl in Hc; lia.
Qed.

Lemma pays_inv w o before rest : owed w = before ++ o :: rest -> inv w -> inv (pays o (before ++ rest) w).
Proof.
  intros Ho [Hcount Hpark]. rewrite Ho, !owes_middle in *. unfold R in *.
  destruct o; simpl in *.
  - split; simpl; unfold R; simpl; rewrite count_app; cbn [count List.filter is_runnable]; simpl; rewrite ?Nat2Z.inj_add.
    + rewrite Hcount. f_equal. change (Z.of_nat (count is_runnable [RUNNABLE])) with 1. lia.
    + intros Hp Hn. specialize (Hpark Hp Hn). change (Z.of_nat (count is_runnable [RUNNABLE])) with 1. lia.
  - split; simpl; unfold R; simpl; rewrite !owes_cons; simpl.
    + rewrite Hcount. unfold fetch_add. rewrite Zplus_mod_idemp_l. f_equal. lia.
    + intros Hp Hn. specialize (Hpark Hp Hn). lia.
  - split; simpl; unfold R; simpl.
    + rewrite Hcount. unfold fetch_sub. rewrite Zminus_mod_idemp_l. f_equal. lia.
    + intros Hp Hn. specialize (Hpark Hp Hn). lia.
  - unfold notify_one. split.
    + destruct (harness w), (notified w); simpl; unfold R; simpl; rewrite Hcount; f_equal; lia.
    + destruct (harness w), (notified w); simpl; done.
Qed.
Lemma counts_fit w : fits w ->
  0 <= R w /\ 0 <= owes Create (owed w) /\ 0 <= owes Sub (owed w) /\ 0 <= owes Add (owed w) /\
  R w + owes Create (owed w) + owes Sub (owed w) + owes Add (owed w) < usize.
Proof.
  intros Hf. unfold fits, R, owes in *.
  assert (H1 : (count is_runnable (flags w) <= length (flags w))%nat) by apply List.filter_length_le.
  assert (H2 : forall l : list Owes, (count (fun o => bool_decide (o = Create)) l + count (fun o => bool_decide (o = Sub)) l +
    count (fun o => bool_decide (o = Add)) l <= length l)%nat).
  { induction l as [|o l IH]; [done|]. rewrite !count_cons. cbn [length]. destruct o; simpl; lia. }
  specialize (H2 (owed w)). lia.
Qed.

Lemma zero_balances w : fits w -> inv w -> runnable w = 0 ->
  R w + owes Create (owed w) + owes Sub (owed w) = owes Add (owed w).
Proof.
  intros Hf [Hc _] Hz. destruct (counts_fit w Hf) as (? & ? & ? & ? & Hlt). rewrite Hc in Hz.
  set (x := R w + owes Create (owed w) + owes Sub (owed w) - owes Add (owed w)) in *.
  apply Z.mod_divide in Hz; [|done]. destruct Hz as [k Hk]. unfold usize in *. assert (k = 0) by nia. subst k. lia.
Qed.

Lemma follow_step_inv w w' : fits w -> inv w -> step w w' -> inv w'.
Proof.
  intros Hf Hi Hs. destruct Hs as [w|w w' t Hm|w w' t Hm|w w' t Hm|w o before rest Ho|w Ha|w Ha|w Ha Hn|w Ha].
  - destruct Hi as [Hc Hp]. split; simpl; unfold R in *; simpl; rewrite !owes_cons; simpl.
    + rewrite Hc. unfold fetch_add. rewrite Zplus_mod_idemp_l. f_equal. lia.
    + intros H1 H2. specialize (Hp H1 H2). lia.
  - eapply on_flag_inv; [|by left|done|exact Hm]. intros s s' c. unfold compare_exchange.
    case_decide; intros [= <- <-]; subst; simpl; [done|by rewrite Z.sub_diag].
  - eapply on_flag_inv; [|by right|done|exact Hm]. intros s s' c. unfold compare_exchange.
    case_decide; intros [= <- <-]; subst; simpl; [done|by rewrite Z.sub_diag].
  - unfold gone in Hm. eapply on_flag_inv; [|by right|exact Hi|exact Hm]. intros s s' c [= <- <-]. unfold is_runnable. by destruct s.
  - by apply pays_inv.
  - destruct Hi as [Hc _]. by split.
  - destruct (Z.eqb_spec (runnable w) 0) as [Hz|Hz]; unfold reads.
    + rewrite Hz, Z.eqb_refl. pose proof (zero_balances w Hf Hi Hz) as Hb. destruct Hi as [Hc _].
      split; simpl; unfold R in *; simpl; [congruence|]. intros _ _. unfold owes in *. lia.
    + rewrite (proj2 (Z.eqb_neq _ _) Hz). destruct Hi as [Hc _]. by split.
  - destruct Hi as [Hc _]. by split.
  - destruct Hi as [Hc _]. by split.
Qed.

Lemma follow_reachable_inv w : reachable w -> inv w.
Proof. induction 1 as [|w w' _ IH Hf Hs]; [by split|by apply (follow_step_inv w)]. Qed.

(** ** Properties *)

(** Between their steps the count of runnable tasks is exact: once no thread is inside a wake, a
    poll, a spawn or a drop, it is the number of followed tasks that were woken, or spawned, and
    neither polled nor dropped since. *)
Theorem count_is_exact_at_rest (w : World) :
  reachable w -> fits w -> owed w = [] -> runnable w = R w /\ (runnable w = 0 <-> RUNNABLE ∉ flags w).
Proof.
  intros Hw Hf Ho. pose proof (follow_reachable_inv w Hw) as [Hc _]. destruct (counts_fit w Hf) as (H0 & _ & _ & _ & Hlt).
  rewrite Ho in Hc, Hlt. unfold owes in Hc, Hlt. rewrite !count_nil in Hc, Hlt. assert (Hr : runnable w = R w).
  { rewrite Hc, Z.mod_small; [lia|]. unfold usize in *. lia. }
  split; [done|]. rewrite Hr. unfold R. split.
  - intros Hz Hin. assert (0 < count is_runnable (flags w))%nat; [by eapply count_pos|lia].
  - intros Hni. rewrite count_zero; [done|]. intros s Hs. unfold is_runnable. case_bool_decide; [by subst|done].
Qed.

(** C31. The harness never parks over a runnable task: parked on a count it read as zero and not
    notified, a followed task is runnable only while the thread that woke it is still to count it
    or to signal, that signal ends the park, and where no thread owes anything no task is runnable.
    So no wake is lost between the read and the park, whatever the interleaving. *)
Theorem parked_harness_misses_no_wake (w : World) :
  reachable w -> harness w = Parked -> notified w = false ->
  (RUNNABLE ∈ flags w -> Add ∈ owed w \/ Wakes ∈ owed w) /\
  (owed w = [] -> RUNNABLE ∉ flags w) /\
  (forall before rest, owed w = before ++ Wakes :: rest -> notified (pays Wakes (before ++ rest) w) = true) /\
  (forall before rest, owed w = before ++ Add :: rest -> Wakes ∈ owed (pays Add (before ++ rest) w)).
Proof.
  intros Hw Hh Hn. pose proof (follow_reachable_inv w Hw) as [_ Hp]. specialize (Hp Hh Hn).
  assert (Howes : RUNNABLE ∈ flags w -> Add ∈ owed w \/ Wakes ∈ owed w).
  { intros Hin. assert (0 < count is_runnable (flags w))%nat by by eapply count_pos.
    destruct (decide (Add ∈ owed w)) as [|Ha]; [by left|]. destruct (decide (Wakes ∈ owed w)) as [|Hk]; [by right|].
    unfold R, owes in Hp. rewrite (count_zero (fun o => bool_decide (o = Add))) in Hp; [rewrite (count_zero (fun o => bool_decide (o = Wakes))) in Hp; [lia|]|];
      intros o Ho; case_bool_decide; by subst. }
  split_and!; [done| | |].
  - intros Ho Hin. rewrite Ho in Howes. by destruct (Howes Hin) as [H%not_elem_of_nil|H%not_elem_of_nil].
  - intros before rest _. simpl. unfold notify_one. by rewrite Hh, Hn.
  - intros before rest _. simpl. by left.
Qed.

(** The step before the last of a concrete run. *)
Ltac after_step s := refine (reach_step _ _ _ _ s); [|done].

(** Between its two steps a wake on one thread and the poll it causes on another can take the count
    below zero, where it reads as [usize::MAX] runnable tasks. *)
Lemma count_can_wrap : exists w, reachable w /\ fits w /\ runnable w = usize - 1 /\ length (flags w) = 1%nat.
Proof.
  exists (mk_world (usize - 1) [PARKED] [Add] Away false true false). split; [|by split].
  after_step (step_pays (mk_world 0 [PARKED] [Sub; Add] Away false true false) Sub [] [Add] eq_refl).
  after_step (step_polled (mk_world 0 [RUNNABLE] [Add] Away false true false) _ 0 eq_refl).
  after_step (step_mark (mk_world 0 [PARKED] [] Away false true false) _ 0 eq_refl).
  after_step (step_pays (mk_world 1 [PARKED] [Sub] Away false true false) Sub [] [] eq_refl).
  after_step (step_polled (mk_world 1 [RUNNABLE] [] Away false true false) _ 0 eq_refl).
  after_step (step_pays (mk_world 1 [] [Create] Away false true false) Create [] [] eq_refl).
  after_step (step_pays (mk_world 1 [] [Wakes; Create] Away false false false) Wakes [] [Create] eq_refl).
  after_step (step_follow start). apply reach_start.
Qed.
(** A task followed, its wake signalled and its flag set; the harness parked before it is woken again. *)
Definition ex_parked : World := mk_world 0 [RUNNABLE] [Add] Parked false false false.

Lemma ex_parked_reachable : reachable ex_parked.
Proof.
  after_step (step_mark (mk_world 0 [PARKED] [] Parked false false false) _ 0 eq_refl).
  after_step (step_reads (mk_world 0 [PARKED] [] Enabled false false false) eq_refl).
  after_step (step_enable (mk_world 0 [PARKED] [] Away false false false) eq_refl).
  after_step (step_wakes_up (mk_world 0 [PARKED] [] Parked true false true) eq_refl eq_refl).
  after_step (step_reads (mk_world 0 [PARKED] [] Enabled true false true) eq_refl).
  after_step (step_enable (mk_world 0 [PARKED] [] Away false true false) eq_refl).
  after_step (step_pays (mk_world 1 [PARKED] [Sub] Away false true false) Sub [] [] eq_refl).
  after_step (step_polled (mk_world 1 [RUNNABLE] [] Away false true false) _ 0 eq_refl).
  after_step (step_pays (mk_world 1 [] [Create] Away false true false) Create [] [] eq_refl).
  after_step (step_pays (mk_world 1 [] [Wakes; Create] Away false false false) Wakes [] [Create] eq_refl).
  after_step (step_follow start). apply reach_start.
Qed.

Lemma parked_harness_misses_no_wake_witness :
  RUNNABLE ∈ flags ex_parked /\ (Add ∈ owed ex_parked \/ Wakes ∈ owed ex_parked).
Proof.
  destruct (parked_harness_misses_no_wake ex_parked ex_parked_reachable eq_refl eq_refl) as (H & _).
  assert (Hin : RUNNABLE ∈ flags ex_parked) by apply list_elem_of_here. split; [exact Hin|exact (H Hin)].
Defined.
End Follow.

Module Lease.

(** ** Who follows whose tasks

    The thread's slot and its leases hold a tracking, by its number; so does the flag of every task
    followed on it, which lives as long as the task or one of its wakers. *)
Record Thread := mk_thread { slot : option nat; leases : list nat; followed : list nat; next : nat }.
Definition fresh : Thread := mk_thread None [] [] 0.

Definition holders (id : nat) (l : list nat) : nat := count (Nat.eqb id) l.
(** [Arc::strong_count]. *)
Definition strong_count (id : nat) (t : Thread) : nat :=
  ((if decide (slot t = Some id) then 1 else 0) + holders id (leases t) + holders id (followed t))%nat.

Definition take (t : Thread) : Thread :=
  match slot t with
  | Some id => mk_thread (Some id) (id :: leases t) (followed t) (next t)
  | None => mk_thread (Some (next t)) (next t :: leases t) (followed t) (S (next t))
  end.

(** [Drop for Quiescence] of the lease at [i]; the field itself is dropped after the body. *)
Definition drop_lease (i : nat) (t : Thread) : option Thread :=
  id ← leases t !! i;
  Some (mk_thread (if strong_count id t =? 2 then None else slot t)%nat (delete i (leases t)) (followed t) (next t)).

(** [follow], and the last of a followed task's flag. *)
Definition follow (t : Thread) : Thread :=
  mk_thread (slot t) (leases t) (match slot t with Some id => id :: followed t | None => followed t end) (next t).
Definition flag_gone (i : nat) (t : Thread) : Thread :=
  mk_thread (slot t) (leases t) (delete i (followed t)) (next t).

Inductive step : Thread -> Thread -> Prop :=
  | step_take t : step t (take t)
  | step_drop t t' i : drop_lease i t = Some t' -> step t t'
  | step_follow t : step t (follow t)
  | step_gone t i : step t (flag_gone i t).

Inductive reachable : Thread -> Prop :=
  | reach_start : reachable fresh
  | reach_step t t' : reachable t -> step t t' -> reachable t'.

Definition shared (t : Thread) : Prop := forall id, id ∈ leases t -> slot t = Some id.

Lemma holders_delete i id (l : list nat) : l !! i = Some id -> (holders id l = S (holders id (delete i l)))%nat.
Proof.
  intros Hl. unfold holders. rewrite (count_delete _ _ _ _ Hl), Nat.eqb_refl. lia.
Qed.

Lemma reachable_shared t : reachable t -> shared t.
Proof.
  induction 1 as [|t t' _ IH Hs]; [by intros id H%not_elem_of_nil|].
  destruct Hs as [t|t t' i Hd|t|t i]; [| |exact IH|exact IH].
  - unfold take, shared in *. destruct (slot t) as [id|] eqn:Hs; simpl; intros id' [->|Hin]%elem_of_cons; try done.
    + by rewrite <- (IH id' Hin).
    + by specialize (IH id' Hin).
  - unfold drop_lease in Hd. destruct (leases t !! i) as [id|] eqn:Hl; [|done]. injection Hd as <-.
    pose proof (IH id (list_elem_of_lookup_2 _ _ _ Hl)) as Hslot. intros id' Hin. simpl in *.
    assert (id' = id) as ->.
    { pose proof (IH id' (list_elem_of_delete_inv _ _ _ Hin)). congruence. }
    destruct (Nat.eqb_spec (strong_count id t) 2) as [Hc|]; [|done].
    unfold strong_count in Hc. rewrite decide_True, (holders_delete i id _ Hl) in Hc by done.
    assert (0 < holders id (delete i (leases t)))%nat; [|lia].
    eapply count_pos; [exact Hin|apply Nat.eqb_refl].
Qed.

(** ** Properties *)

(** The leases of one thread share one tracking, and every task spawned while one is held is
    followed on it; the last of them gives the thread's tracking up where its tasks and their
    wakers are gone before it. *)
Theorem leases_share_one_tracking (t : Thread) :
  reachable t ->
  (forall id, id ∈ leases t -> slot t = Some id /\ followed (follow t) = id :: followed t) /\
  (forall i t', length (leases t) = 1%nat -> followed t = [] -> drop_lease i t = Some t' -> slot t' = None /\ leases t' = []).
Proof.
  intros Ht. pose proof (reachable_shared t Ht) as Hs. split.
  - intros id Hin. rewrite (Hs id Hin). split; [done|]. unfold follow. by rewrite (Hs id Hin).
  - intros i t' Hlen Hf Hd. destruct (leases t) as [|id [|]] eqn:Hl; try done.
    unfold drop_lease in Hd. rewrite Hl in Hd. destruct i as [|i]; [|done]. injection Hd as <-. simpl. split; [|done].
    assert (Hc : strong_count id t = 2%nat).
    { unfold strong_count, holders. rewrite Hl, Hf, decide_True by (apply Hs; rewrite Hl; left).
      rewrite count_cons, Nat.eqb_refl. done. }
    by rewrite Hc.
Qed.

(** The flag of a task still alive counts as a holder too: a lease dropped before its tasks leaves
    the thread's tracking in place, tasks spawned with no lease held are followed on it, and the
    next lease takes it over with what they left on its count. *)
Lemma lease_outlives_its_holders :
  exists t t', reachable t /\ drop_lease 0 t = Some t' /\ leases t' = [] /\ slot t' = Some 0%nat /\
    followed (follow t') = [0; 0]%nat /\ leases (take t') = [0]%nat.
Proof.
  exists (mk_thread (Some 0) [0] [0] 1)%nat, (mk_thread (Some 0) [] [0] 1)%nat. split; [|done].
  apply (reach_step (mk_thread (Some 0) [0] [] 1)%nat); [|apply step_follow].
  apply (reach_step fresh); [apply reach_start|apply step_take].
Qed.
End Lease.

Module Busy.
#[local] Open Scope N_scope.

(** ** A wait on an app whose task keeps itself runnable; ticks are in milliseconds *)

Definition SPIN_TURNS : N := 1000.
Definition ROUND_TURNS : N := 1000.
Definition ROUNDS : N := 20.
Definition FIRST_TICK : N := 1.

(** What one turn sees: the count, whether what it waits for is ready, whether the clock is paused. *)
Record Seen := mk_seen { runnable : N; ready : bool; clock_paused : bool }.
Record Wait := mk_wait { busy : N; tick : N; paused : option bool }.
Definition begin : Wait := mk_wait 0 FIRST_TICK None.

(** What a turn comes to: it goes on, having moved the clock; or returns the output; or awaits
    without a bound, on a clock that runs; or gives up. *)
Inductive Turn :=
  | GoesOn (w : Wait) (advanced : N)
  | Outputs
  | Awaits
  | KeptRunning (turns : N).

(** One turn of [until_idle]; on a count of zero it parks until a task wakes. *)
Definition turn (w : Wait) (s : Seen) : Turn :=
  if runnable s =? 0 then
    if ready s then Outputs else GoesOn (mk_wait 0 FIRST_TICK (paused w)) 0
  else
    let b := busy w + 1 in
    if b <=? SPIN_TURNS then
      if ready s then Outputs else GoesOn (mk_wait b (tick w) (paused w)) 0
    else
      let p := default (clock_paused s) (paused w) in
      if negb p then Awaits
      else
        let round := (b - SPIN_TURNS) / ROUND_TURNS in
        if ROUNDS <=? round then KeptRunning b
        else
          let t := if ((b - SPIN_TURNS) mod ROUND_TURNS =? 0) && (0 <? round) then tick w * 2 else tick w in
          if ready s then Outputs else GoesOn (mk_wait b t (Some p)) t.

(** [until_idle] over the turns it sees: how far it moved the clock, and how it ended, if it has. *)
Fixpoint until_idle (w : Wait) (seen : list Seen) : N * option Turn :=
  match seen with
  | [] => (0, None)
  | s :: rest =>
      match turn w s with
      | GoesOn w t => let (clock, end_) := until_idle w rest in (t + clock, end_)
      | t => (0, Some t)
      end
  end.

Definition TURNS : N := SPIN_TURNS + ROUNDS * ROUND_TURNS.
Definition spins (s : Seen) : Prop := runnable s <> 0.

(** The last round is reached at the last turn. *)
Lemma rounds_reached b : SPIN_TURNS < b -> ROUNDS <= (b - SPIN_TURNS) / ROUND_TURNS <-> TURNS <= b.
Proof.
  unfold TURNS, SPIN_TURNS, ROUNDS, ROUND_TURNS. intros Hb.
  pose proof (N.div_mod (b - 1000) 1000 ltac:(done)) as H. pose proof (N.mod_lt (b - 1000) 1000 ltac:(done)) as Hm.
  set (q := (b - 1000) / 1000) in *. set (m := (b - 1000) mod 1000) in *. clearbody q m. lia.
Qed.

Lemma turn_spin w s w' t :
  spins s -> turn w s = GoesOn w' t -> busy w' = busy w + 1 /\ busy w' < TURNS /\ ready s = false.
Proof.
  unfold spins, turn. intros Hs. rewrite (proj2 (N.eqb_neq _ _) Hs). cbv zeta.
  destruct (N.leb_spec (busy w + 1) SPIN_TURNS) as [Hle|Hgt].
  - destruct (ready s); [done|]. intros [= <- <-]. unfold TURNS, SPIN_TURNS, ROUNDS, ROUND_TURNS in *. simpl. split_and!; lia || done.
  - destruct (negb _); [done|]. destruct (N.leb_spec ROUNDS ((busy w + 1 - SPIN_TURNS) / ROUND_TURNS)) as [|Hr]; [done|].
    destruct (ready s); [done|]. intros [= <- <-]. cbn [busy]. split_and!; [done| |done].
    apply N.nle_gt. rewrite <- rounds_reached by done. lia.
Qed.

Lemma turn_gives_up w s n : turn w s = KeptRunning n -> spins s /\ n = busy w + 1 /\ TURNS <= n.
Proof.
  unfold spins, turn. destruct (N.eqb_spec (runnable s) 0) as [|Hs]; [by case_match|]. cbv zeta.
  destruct (N.leb_spec (busy w + 1) SPIN_TURNS) as [Hle|Hgt]; [by case_match|].
  destruct (negb _); [done|]. destruct (N.leb_spec ROUNDS ((busy w + 1 - SPIN_TURNS) / ROUND_TURNS)) as [Hr|]; [|by case_match].
  intros [= <-]. split_and!; [done|done|]. by apply rounds_reached.
Qed.

(** A wait that sees only runnable tasks comes to an end. *)
Lemma spinning_ends w seen :
  Forall spins seen -> TURNS <= busy w + N.of_nat (length seen) -> busy w < TURNS -> (until_idle w seen).2 <> None.
Proof.
  revert w. induction seen as [|s seen IH]; intros w Hs Hlen Hb; [simpl in Hlen; lia|].
  apply Forall_cons in Hs as [Hs Hrest]. simpl. destruct (turn w s) as [w' t| | |n] eqn:Ht; try done.
  destruct (turn_spin w s w' t Hs Ht) as (Hb' & Hlt & _). specialize (IH w' Hrest).
  destruct (until_idle w' seen) as [c e]. apply IH; [cbn [length] in Hlen; lia|done].
Qed.

(** Giving up names the turns of the last run of them. *)
Lemma gives_up_after w seen c n before :
  N.of_nat (length before) = busy w -> Forall (fun s => spins s /\ ready s = false) before -> busy w < TURNS ->
  until_idle w seen = (c, Some (KeptRunning n)) ->
  n = TURNS /\ exists pre run s rest, before ++ seen = pre ++ run ++ s :: rest /\ spins s /\
    N.of_nat (length run) + 1 = TURNS /\ Forall (fun s => spins s /\ ready s = false) run.
Proof.
  revert w before c. induction seen as [|s seen IH]; intros w before c Hlen Hbef Hb Hu; [done|]. simpl in Hu.
  destruct (turn w s) as [w' t| | |m] eqn:Ht; try done.
  - destruct (until_idle w' seen) as [c' e] eqn:Hrest. injection Hu as _ ->.
    destruct (N.eq_dec (runnable s) 0) as [Hz|Hs].
    + assert (Hw' : busy w' = 0).
      { unfold turn in Ht. rewrite Hz in Ht. simpl in Ht. by case_match; simplify_eq. }
      destruct (IH w' [] c') as (Hn & pre & run & s' & rest & Heq & H); [done|done|by rewrite Hw'|done|].
      split; [done|]. exists (before ++ s :: pre), run, s', rest. split; [|done]. simpl in Heq. by rewrite Heq, <- app_assoc.
    + destruct (turn_spin w s w' t Hs Ht) as (Hb' & Hlt & Hready).
      destruct (IH w' (before ++ [s]) c') as (Hn & pre & run & s' & rest & Heq & H); [|apply Forall_app; split; [done|by repeat constructor]|done|done|].
      { rewrite length_app. simpl. lia. }
      split; [done|]. exists pre, run, s', rest. split; [|done]. by rewrite <- Heq, <- app_assoc.
  - injection Hu as _ ->. destruct (turn_gives_up w s n Ht) as (Hs & -> & Hge).
    assert (Hn : busy w + 1 = TURNS) by lia. split; [done|]. exists [], before, s, seen. split_and!; [done|done|by rewrite Hlen|done].
Qed.
(** ** Properties *)

(** The harness's wait never hangs on an app whose task keeps itself runnable: whatever else it
    sees, after at most 21,000 such turns in a row it has returned, awaited a running clock or given
    up; it gives up on nothing less, naming those turns, each of which saw a runnable task and the
    wait not ready. *)
Theorem busy_wait_ends (w : Wait) (seen : list Seen) :
  busy w < TURNS ->
  (Forall spins seen -> TURNS <= busy w + N.of_nat (length seen) -> (until_idle w seen).2 <> None) /\
  (forall c n, busy w = 0 -> until_idle w seen = (c, Some (KeptRunning n)) ->
     n = TURNS /\ exists pre run s rest, seen = pre ++ run ++ s :: rest /\ spins s /\
       N.of_nat (length run) + 1 = TURNS /\ Forall (fun s => spins s /\ ready s = false) run).
Proof.
  intros Hb. split; [intros Hs Hlen; by apply spinning_ends|].
  intros c n Hz Hu. by apply (gives_up_after w seen c n []); [|constructor| |].
Qed.

(** By then it has moved a paused clock by 1,048,574,999 milliseconds, over twelve days: the first
    tick for 999 turns and a tick that doubles nineteen times, once less than [ROUNDS] says. *)
Lemma busy_wait_moves_the_clock :
  until_idle begin (replicate (N.to_nat TURNS) (mk_seen 1 false true)) = (1048574999, Some (KeptRunning 21000)) /\
  (999 * FIRST_TICK + 1000 * (2 ^ (ROUNDS - 1 + 1) - 2)) = 1048574999.
Proof. split; vm_compute; reflexivity. Qed.

Lemma busy_wait_ends_witness :
  busy begin < TURNS /\ (until_idle begin (replicate (N.to_nat TURNS) (mk_seen 1 false true))).2 <> None.
Proof.
  assert (H : busy begin < TURNS) by (vm_compute; reflexivity). split; [exact H|].
  apply (busy_wait_ends begin); [exact H|apply Forall_replicate; intros H0; discriminate H0|].
  rewrite length_replicate. vm_compute. intros H0. discriminate H0.
Defined.
End Busy.
