(* ===== verification/VirtualClock.v ===== *)
(** * The clock a test moves ([runtime-compio/src/virtual_clock.rs], the sleep of [time.rs] over it)

    The timeline a thread holds while a harness leases it: the timers armed on it in the order of
    their deadlines, the two moves of the clock and what each wakes; and a [Sleep] polled on it.
    Instants and durations are nanoseconds.  A sleep that falls back to the wall clock is one of
    [Wheel], and is followed here to that point only. *)
From S2P Require Import Prelude RustStd.

Module VirtualClock.
#[local] Open Scope N_scope.

(** Thirty years. *)
Definition HORIZON : N := 24 * 365 * 30 * 3600 * 1000000000.
(** [Duration::MAX], in nanoseconds. *)
Definition DURATION_MAX : N := u64_max * 1000000000 + 999999999.

Record TimerKey := mk_key { deadline : N; id : N }.
#[export] Instance TimerKey_eq_dec : EqDecision TimerKey.
Proof. solve_decision. Defined.
(** Ordered by deadline, then by the order they were armed in. *)
Definition before (a b : TimerKey) : bool := (deadline a <? deadline b) || ((deadline a =? deadline b) && (id a <? id b)).

(** The timers, in the order of their keys, each with the waker of its last poll. *)
Record Timeline := mk_timeline { base : N; elapsed : N; next_id : N; timers : list (TimerKey * nat) }.
Definition new_timeline (instant : N) : Timeline := mk_timeline instant 0 0 [].
Definition now (t : Timeline) : N := base t + elapsed t.

Fixpoint insert (k : TimerKey) (w : nat) (l : list (TimerKey * nat)) : list (TimerKey * nat) :=
  match l with
  | [] => [(k, w)]
  | (k', w') :: l => if before k k' then (k, w) :: (k', w') :: l else (k', w') :: insert k w l
  end.
Definition remove (k : TimerKey) (l : list (TimerKey * nat)) : list (TimerKey * nat) :=
  List.filter (fun e => negb (bool_decide (e.1 = k))) l.
Definition set_waker (k : TimerKey) (w : nat) (l : list (TimerKey * nat)) : list (TimerKey * nat) :=
  (fun e => if bool_decide (e.1 = k) then (k, w) else e) <$> l.

(** [Timeline::take_due]: what is split off stays. *)
Definition stays (t : Timeline) (k : TimerKey) : bool := negb (before k (mk_key (now t) u64_max)).
Definition take_due (t : Timeline) : Timeline * list (TimerKey * nat) :=
  (mk_timeline (base t) (elapsed t) (next_id t) (List.filter (fun e => stays t e.1) (timers t)),
   List.filter (fun e => negb (stays t e.1)) (timers t)).

Inductive Armed := Due | Waiting (key : TimerKey).
Definition arm (t : Timeline) (deadline_ : N) (waker : nat) : Timeline * Armed :=
  if deadline_ <=? now t then (t, Due)
  else let key := mk_key deadline_ (next_id t) in
    (mk_timeline (base t) (elapsed t) (next_id t + 1) (insert key waker (timers t)), Waiting key).

(** Whether the sleep is ready. *)
Definition poll (t : Timeline) (key : TimerKey) (waker : nat) : Timeline * bool :=
  if existsb (fun e => bool_decide (e.1 = key)) (timers t)
  then (mk_timeline (base t) (elapsed t) (next_id t) (set_waker key waker (timers t)), false)
  else (t, true).
Definition cancel (t : Timeline) (key : TimerKey) : Timeline :=
  mk_timeline (base t) (elapsed t) (next_id t) (remove key (timers t)).

(** [VirtualClock::advance], [advance_to_next], with the timers they wake. *)
Definition advance (t : Timeline) (by_ : N) : Timeline * list (TimerKey * nat) :=
  take_due (mk_timeline (base t) (N.min (N.min (elapsed t + by_) DURATION_MAX) HORIZON) (next_id t) (timers t)).
Definition advance_to_next (t : Timeline) : Timeline * list (TimerKey * nat) * bool :=
  match timers t with
  | [] => (t, [], false)
  | (next, _) :: _ =>
      let to := deadline next - base t in
      let (t, due) := take_due (mk_timeline (base t) (N.max (elapsed t) to) (next_id t) (timers t)) in (t, due, true)
  end.

(** ** A thread's lease, and a sleep polled on it *)

Record Thread := mk_thread { lease : option Timeline; wall : N }.
(** [VirtualClock::take]: [None] is its panic. *)
Definition take (t : Thread) : option Thread :=
  match lease t with Some _ => None | None => Some (mk_thread (Some (new_timeline (wall t))) (wall t)) end.
Definition release (t : Thread) : Thread := mk_thread None (wall t).
Definition clock (t : Thread) : N := match lease t with Some l => now l | None => wall t end.

Inductive State := Fresh | Wall | Virtual (key : TimerKey).
Record Sleep := mk_sleep { until : N; state : State }.
(** [Sleep::poll], to the point where the wheel takes it over ([None]). *)
Definition poll_fresh (t : Thread) (s : Sleep) (waker : nat) : Thread * Sleep * option bool :=
  match lease t with
  | Some l =>
      match arm l (until s) waker with
      | (l, Due) => (mk_thread (Some l) (wall t), s, Some true)
      | (l, Waiting key) => (mk_thread (Some l) (wall t), mk_sleep (until s) (Virtual key), Some false)
      end
  | None => (t, mk_sleep (until s) Wall, None)
  end.
Definition poll_sleep (t : Thread) (s : Sleep) (waker : nat) : Thread * Sleep * option bool :=
  match state s with
  | Fresh => poll_fresh t s waker
  | Wall => (t, s, None)
  | Virtual key =>
      match lease t with
      | Some l => let (l, ready) := poll l key waker in (mk_thread (Some l) (wall t), s, Some ready)
      | None => poll_fresh t (mk_sleep (until s) Fresh) waker
      end
  end.
Definition drop_sleep (t : Thread) (s : Sleep) : Thread :=
  match state s, lease t with
  | Virtual key, Some l => mk_thread (Some (cancel l key)) (wall t)
  | _, _ => t
  end.

(** ** One lease, whatever the app and the harness do *)

Record World := mk_world {
  timeline : Timeline;
  (** ghosts: the sleeps alive on the timeline, each with the waker of its last pending poll; the
      latest time the clock showed; what the moves of the clock woke *)
  alive : list (TimerKey * nat);
  latest : N;
  woken : list (TimerKey * nat);
}.

Inductive op : World -> World -> Prop :=
  | arms s d w : next_id (timeline s) < u64_max -> d <= now (timeline s) ->
      op s (mk_world (arm (timeline s) d w).1 (alive s) (latest s) (woken s))
  | waits s d w key : next_id (timeline s) < u64_max -> (arm (timeline s) d w).2 = Waiting key ->
      op s (mk_world (arm (timeline s) d w).1 ((key, w) :: alive s) (latest s) (woken s))
  | polls s key w w' : (key, w) ∈ alive s ->
      op s (mk_world (poll (timeline s) key w').1
        (if (poll (timeline s) key w').2 then alive s else set_waker key w' (alive s)) (latest s) (woken s))
  | drops s key w : (key, w) ∈ alive s ->
      op s (mk_world (cancel (timeline s) key) (remove key (alive s)) (latest s) (woken s))
  | advances s by_ :
      op s (mk_world (advance (timeline s) by_).1 (alive s) (N.max (latest s) (now (advance (timeline s) by_).1))
        (woken s ++ (advance (timeline s) by_).2))
  | advances_to_next s :
      op s (mk_world (advance_to_next (timeline s)).1.1 (alive s) (N.max (latest s) (now (advance_to_next (timeline s)).1.1))
        (woken s ++ (advance_to_next (timeline s)).1.2)).
Definition initial (instant : N) : World := mk_world (new_timeline instant) [] instant [].

Record sound (s : World) : Prop := {
  i_next : next_id (timeline s) <= u64_max;
  i_ids : forall k w, (k, w) ∈ alive s -> id k < next_id (timeline s);
  i_timers : forall k w, (k, w) ∈ timers (timeline s) -> now (timeline s) < deadline k /\ (k, w) ∈ alive s;
  i_alive : forall k w, (k, w) ∈ alive s -> (k, w) ∈ timers (timeline s) \/ (deadline k <= latest s /\ (k, w) ∈ woken s);
  i_latest : now (timeline s) <= latest s;
  i_one : forall k w w', (k, w) ∈ alive s -> (k, w') ∈ alive s -> w = w';
}.

Lemma elem_insert k w l e : e ∈ insert k w l <-> e = (k, w) \/ e ∈ l.
Proof.
  induction l as [|[k' w'] l IH]; cbn [insert]; [by rewrite list_elem_of_singleton, (elem_of_nil e); naive_solver|].
  destruct (before k k'); rewrite !elem_of_cons, ?IH; naive_solver.
Qed.

Lemma elem_remove k l e : e ∈ remove k l <-> e ∈ l /\ e.1 <> k.
Proof.
  unfold remove. rewrite !list_elem_of_In, List.filter_In. rewrite negb_true_iff, bool_decide_eq_false. done.
Qed.

Lemma has_timer k l : existsb (fun e : TimerKey * nat => bool_decide (e.1 = k)) l = true <-> exists w, (k, w) ∈ l.
Proof.
  rewrite existsb_exists. split.
  - intros ([k' w] & Hin & He). apply bool_decide_eq_true in He. cbn in He. subst k'. exists w. by apply list_elem_of_In.
  - intros (w & Hin). exists (k, w). split; [by apply list_elem_of_In|by apply bool_decide_eq_true].
Qed.

Lemma elem_set_waker k w l k' w' : (k', w') ∈ set_waker k w l <-> (k' <> k /\ (k', w') ∈ l) \/ (k' = k /\ w' = w /\ exists v, (k, v) ∈ l).
Proof.
  unfold set_waker. rewrite list_elem_of_fmap. split.
  - intros ([k1 w1] & Heq & He). cbn in Heq. case_bool_decide as Hk; injection Heq as -> ->; [right; subst; by eauto|by left].
  - intros [[Hne He]|(-> & -> & v & Hv)]; [exists (k', w')|exists (k, v)]; cbn; [by rewrite bool_decide_false|by rewrite bool_decide_true].
Qed.

Lemma stays_spec t k : id k < u64_max -> stays t k = true <-> now t < deadline k.
Proof.
  intros Hid. unfold stays, before. cbn. rewrite negb_true_iff, orb_false_iff, andb_false_iff, N.ltb_ge, N.eqb_neq, N.ltb_ge. lia.
Qed.

Lemma elem_due t e : (forall e, e ∈ timers t -> id e.1 < u64_max) ->
  (e ∈ timers (take_due t).1 <-> e ∈ timers t /\ now t < deadline e.1) /\
  (e ∈ (take_due t).2 <-> e ∈ timers t /\ deadline e.1 <= now t).
Proof.
  intros Hid. unfold take_due. cbn [fst snd timers]. rewrite !list_elem_of_In, !List.filter_In, <- !list_elem_of_In. split.
  - split; intros [Hin H]; (split; [done|]); by apply (stays_spec t e.1 (Hid e Hin)).
  - split; intros [Hin H]; (split; [done|]); pose proof (stays_spec t e.1 (Hid e Hin)) as Hs; destruct (stays t e.1); cbn in *; try done.
    + apply N.le_ngt. intros Hlt. by apply Hs in Hlt.
    + exfalso. apply N.le_ngt in H. by apply H, Hs.
Qed.

(** A move of the clock to any time keeps the sleeps in order. *)
Lemma sound_move s t : sound s -> base t = base (timeline s) -> next_id t = next_id (timeline s) -> timers t = timers (timeline s) ->
  sound (mk_world (take_due t).1 (alive s) (N.max (latest s) (now t)) (woken s ++ (take_due t).2)).
Proof.
  intros [Hn Hids Ht Ha Hl Ho] Hb Hni Htm.
  assert (Hid : forall e, e ∈ timers t -> id e.1 < u64_max).
  { rewrite Htm. intros [k w] Hin. destruct (Ht k w Hin) as [_ Hal]. specialize (Hids k w Hal). cbn. lia. }
  split; cbn [timeline alive latest woken take_due fst next_id].
  - by rewrite Hni.
  - by rewrite Hni.
  - intros k w Hin. apply (elem_due t (k, w) Hid) in Hin as [Hin Hlt]. rewrite Htm in Hin. split; [done|]. by apply Ht.
  - intros k w Hal. rewrite elem_of_app. destruct (Ha k w Hal) as [Hin|[Hd Hw]]; [|right; split; [lia|by left]].
    rewrite <- Htm in Hin. destruct (N.lt_ge_cases (now t) (deadline k)) as [Hlt|Hge].
    + left. by apply (elem_due t (k, w) Hid).
    + right. split; [lia|]. right. by apply (elem_due t (k, w) Hid).
  - unfold now. cbn. fold (now t). lia.
  - done.
Qed.

Lemma sound_op s s' : op s s' -> sound s -> sound s'.
Proof.
  intros Hop Hs. pose proof Hs as [Hn Hids Ht Ha Hl Ho].
  destruct Hop as [s d w Hid Hd|s d w key Hid Hk|s key w w' Hin|s key w Hin|s by_|s].
  - unfold arm. by rewrite (proj2 (N.leb_le _ _) Hd).
  - unfold arm in *. destruct (N.leb_spec d (now (timeline s))) as [|Hlt]; [done|]. injection Hk as <-. cbn [fst].
    split; cbn [timeline alive latest woken next_id timers].
    + lia.
    + intros k v [[= -> ->]|Hal]%elem_of_cons; [cbn; lia|]. specialize (Hids k v Hal). lia.
    + intros k v [[= -> ->]|Hin]%elem_insert; [split; [done|by left]|]. destruct (Ht k v Hin). split; [done|by right].
    + intros k v [[= -> ->]|Hal]%elem_of_cons; [left; apply elem_insert; by left|].
      destruct (Ha k v Hal); [left; apply elem_insert; by right|by right].
    + done.
    + intros k v v' [[= -> ->]|H1]%elem_of_cons [[= ]|H2]%elem_of_cons; subst; try done; [| |by eapply Ho].
      * specialize (Hids _ _ H2). cbn in Hids. lia.
      * specialize (Hids _ _ H1). cbn in Hids. lia.
  - unfold poll. destruct (existsb _ _) eqn:He; cbn [fst snd]; [|done]. apply has_timer in He as (v & Hv).
    split; cbn [timeline alive latest woken next_id timers].
    + done.
    + intros k u [[_ Hal]|(-> & -> & x & Hal)]%elem_set_waker; by eapply Hids.
    + intros k u [[Hne Hu]|(-> & -> & x & Hu)]%elem_set_waker; destruct (Ht _ _ Hu) as [H1 H2]; (split; [done|]); apply elem_set_waker; [by left|right; eauto].
    + intros k u [[Hne Hal]|(-> & -> & x & Hal)]%elem_set_waker; [|left; apply elem_set_waker; right; by eauto].
      destruct (Ha k u Hal); [left; apply elem_set_waker; by left|by right].
    + done.
    + intros k u u' [[Hne H1]|(-> & -> & _)]%elem_set_waker [[Hne' H2]|(Hk & -> & _)]%elem_set_waker; try done; by eapply Ho.
  - split; cbn [timeline alive latest woken next_id timers cancel].
    + done.
    + intros k u [Hal _]%elem_remove. by eapply Hids.
    + intros k u [Hu Hne]%elem_remove. destruct (Ht _ _ Hu). split; [done|]. by apply elem_remove.
    + intros k u [Hal Hne]%elem_remove. destruct (Ha k u Hal); [left; by apply elem_remove|by right].
    + done.
    + intros k u u' [H1 _]%elem_remove [H2 _]%elem_remove. by eapply Ho.
  - unfold advance. set (t := mk_timeline _ _ _ _). exact (sound_move s t Hs eq_refl eq_refl eq_refl).
  - unfold advance_to_next. destruct (timers (timeline s)) as [|[k w] l] eqn:Htm.
    + cbn [fst snd]. rewrite app_nil_r, N.max_l by lia. by destruct s.
    + set (t := mk_timeline (base (timeline s)) (N.max (elapsed (timeline s)) (deadline k - base (timeline s))) (next_id (timeline s)) ((k, w) :: l)).
      destruct (take_due t) as [t' due] eqn:Hdue. cbn [fst snd].
      pose proof (sound_move s t Hs eq_refl eq_refl (eq_sym Htm)) as Hm. rewrite Hdue in Hm. cbn [fst snd] in Hm.
      assert (Hnow : now t' = now t) by (unfold take_due in Hdue; by injection Hdue as <- _). by rewrite Hnow.
Qed.

Lemma reachable_clock instant s : rtc op (initial instant) s -> sound s.
Proof.
  apply (rtc_ind_r sound); [|intros; by eapply sound_op]. split; cbn; try (by intros k w []%not_elem_of_nil).
  - done.
  - unfold now. cbn. lia.
  - by intros k w w' []%not_elem_of_nil.
Qed.

(** On the clock of a harness a sleep ends when its deadline is reached, and not before, and no
    sleep is lost: whatever the app arms, polls and drops and however the clock is moved, a sleep
    that polls ready had its deadline shown by the clock and its last waker woken; one that polls
    pending has its deadline ahead of it and its last waker in the timeline. *)
Theorem virtual_sleeps_end_on_time instant s k w w' :
  rtc op (initial instant) s -> (k, w) ∈ alive s ->
  if (poll (timeline s) k w').2
  then deadline k <= latest s /\ (k, w) ∈ woken s
  else now (timeline s) < deadline k /\ (k, w) ∈ timers (timeline s).
Proof.
  intros Hr Hal. destruct (reachable_clock _ s Hr) as [_ _ Ht Ha _ Ho]. unfold poll. destruct (existsb _ _) eqn:He; cbn [snd].
  - apply has_timer in He as (v & Hv). destruct (Ht k v Hv) as [Hd Hal']. rewrite (Ho k w v Hal Hal'). done.
  - destruct (Ha k w Hal) as [Hin|]; [|done]. assert (true = false); [|done]. rewrite <- He. symmetry. apply has_timer. by exists w.
Qed.

(** A move to the next timer wakes at least that one, and lands on its deadline. *)
Lemma advance_to_next_moves instant s : rtc op (initial instant) s -> timers (timeline s) <> [] ->
  (advance_to_next (timeline s)).2 = true /\ (advance_to_next (timeline s)).1.2 <> [] /\
  (length (timers (advance_to_next (timeline s)).1.1) < length (timers (timeline s)))%nat.
Proof.
  intros Hr Hne. destruct (reachable_clock _ s Hr) as [Hn Hids Ht _ _ _]. unfold advance_to_next.
  destruct (timers (timeline s)) as [|[k w] l] eqn:Htm; [done|]. cbn [take_due fst snd timers].
  destruct (Ht k w) as [Hd Hal]; [by left|]. specialize (Hids k w Hal).
  assert (Hst : stays (mk_timeline (base (timeline s)) (N.max (elapsed (timeline s)) (deadline k - base (timeline s))) (next_id (timeline s)) ((k, w) :: l)) k = false).
  { apply not_true_iff_false. rewrite stays_spec by lia. unfold now in *. cbn. lia. }
  cbn [List.filter fst]. rewrite Hst. cbn [negb]. split_and!; [done|done|]. cbn [length].
  pose proof (List.filter_length_le (fun e : TimerKey * nat => stays (mk_timeline (base (timeline s))
    (N.max (elapsed (timeline s)) (deadline k - base (timeline s))) (next_id (timeline s)) ((k, w) :: l)) e.1) l). lia.
Qed.

(** ** Where the clock does not keep its word *)

(** A move to a timer past the horizon is not held to it, and the next [advance], documented to move
    the clock forward, then takes it back to the horizon. *)
Lemma advance_can_go_back : exists d by_, let t := (arm (new_timeline 0) d 0).1 in let t := (advance_to_next t).1.1 in
  0 < by_ /\ now (advance t by_).1 < now t.
Proof. exists (HORIZON + 1000), 1. by vm_compute. Qed.

(** A sleep that outlives its lease is documented to fall back to the wall clock at its next poll;
    where the thread has taken a new lease by then the timer is not found on it, and the sleep is
    ready at once. *)
Lemma sleep_of_a_gone_lease_ends_early : exists t1 t2 s t3 r, take (mk_thread None 0) = Some t1 /\
  poll_sleep t1 (mk_sleep 1000 Fresh) 0 = (t2, s, Some false) /\ take (release t2) = Some t3 /\
  clock t3 < until s /\ (poll_sleep t3 s 0).2 = r /\ r = Some true.
Proof. eexists _, _, _, _, _. repeat (split; [reflexivity|]). done. Qed.

(** ** Witness *)

Definition one_sleep : World := mk_world (arm (new_timeline 0) 1000 7).1 [(mk_key 1000 0, 7%nat)] 0 [].
Lemma virtual_sleeps_end_on_time_witness :
  (mk_key 1000 0, 7%nat) ∈ alive one_sleep /\
  now (timeline one_sleep) < 1000 /\ (mk_key 1000 0, 7%nat) ∈ timers (timeline one_sleep).
Proof.
  assert (Hr : rtc op (initial 0) one_sleep).
  { apply rtc_once. apply (waits (initial 0) 1000 7 (mk_key 1000 0)); reflexivity. }
  split; [left|]. apply (virtual_sleeps_end_on_time 0 one_sleep (mk_key 1000 0) 7 7 Hr). left.
Defined.
End VirtualClock.
