(* ===== verification/CompioCores.v ===== *)
(** * The cores of the compio runner ([runtime-compio/src/dispatch/cores.rs], [cores.rs])

    Which core each part of a subscription runs on, planned once at startup; what the launcher makes
    of the ends of its cores; and the fabric, the mailboxes through which core 0 starts a worker on
    another core, with the count of live workers a teardown waits for.  The cores, the workers, core 0
    and the teardown are interleaved one shared access at a time. *)
From S2P Require Import Prelude RustStd.

Module Cores.

(** ** The placement table *)

(** [Workers] and [Placement] (runtime/src/dispatch/workers.rs). *)
Inductive Placement := Runtime | Threads.
Record Workers := mk_workers { worker_count : nat; by_key : bool; placement : Placement }.
Definition is_sequential (w : Workers) : bool :=
  (worker_count w =? 1) && match placement w with Runtime => true | Threads => false end.
Definition on_threads (w : Workers) : bool := match placement w with Threads => true | Runtime => false end.

Record Mount := mk_mount { mount_name : string; workers : Workers }.
(** The mounts it names with their counts are joined with commas where it is displayed. *)
Record LayoutError := mk_layout_error { asked : nat; available : nat; named : list (string * nat) }.

Definition wanted (m : Mount) : nat := worker_count (workers m).
Definition threads (m : Mount) : bool := on_threads (workers m).

(** One mount from where the previous stopped: its cores, and the two cursors after it. *)
Definition place (shared : list nat) (cursors : nat * nat) (m : Mount) : list nat * (nat * nat) :=
  let '(dedicated, cursor) := cursors in
  if is_sequential (workers m) then ([0], cursors)
  else if threads m then (seq dedicated (wanted m), (dedicated + wanted m, cursor))
  else ((fun c => nth (c mod length shared) shared 0) <$> seq cursor (wanted m), (dedicated, cursor + wanted m)).
Fixpoint place_all (shared : list nat) (cursors : nat * nat) (mounts : list Mount) : list (list nat) :=
  match mounts with
  | [] => []
  | m :: rest =>
      let '(cores, cursors) := place shared cursors m in cores :: place_all shared cursors rest
  end.
Definition asked_for (mounts : list Mount) : nat := sum_list_with wanted (List.filter threads mounts).
Definition shared_cores (count asked : nat) : list nat := 0 :: seq (1 + asked) (count - (1 + asked)).

(** [Layout::plan]. *)
Definition plan (count : nat) (mounts : list Mount) : result (list (list nat)) LayoutError :=
  let count := Nat.max count 1 in
  let asked := asked_for mounts in
  let available := count - 1 in
  if available <? asked then
    Err (mk_layout_error asked available ((fun m => (mount_name m, wanted m)) <$> List.filter threads mounts))
  else Ok (place_all (shared_cores count asked) (1, 0) mounts).

(** ** Where the cores are pinned, and how a run of them ends *)

Record Pinning := mk_pinning { cpus : list (option nat); note : option string }.
(** [Pinning::plan] and [Pinning::unpinned]. *)
Definition pin (count : nat) (allowed : option (list nat)) : Pinning :=
  match allowed with
  | None | Some [] =>
      mk_pinning (replicate count None)
        (Some "the CPUs this process may use are unknown, so the cores are not pinned"%string)
  | Some allowed =>
      mk_pinning ((fun core => allowed !! (core mod length allowed)) <$> seq 0 count)
        (if length allowed <? count
         then Some "there are more cores than allowed CPUs, so cores share a CPU"%string else None)
  end.
Definition unpinned (count : nat) : Pinning := mk_pinning (replicate count None) None.

Inductive CoresError {E : Type} :=
  | RuntimeError (core : nat) (source : E)
  | ThreadError (core : nat) (source : E)
  | CoreError (core : nat) (source : E)
  | Panicked (core : nat).
Arguments CoresError : clear implicits.

(** [collect]. *)
Definition collect {Out E} (ordered : list (result Out (CoresError E))) : result (list Out) (CoresError E) :=
  let '(outputs, first) :=
    fold_left (fun '(outputs, first) r =>
      match r, first with
      | Ok o, _ => (outputs ++ [o], first)
      | Err e, None => (outputs, Some e)
      | Err _, Some _ => (outputs, first)
      end) ordered ([], None) in
  match first with Some e => Err e | None => Ok outputs end.

(** How one core ends: [run_core] for the main core returns or panics, a thread is joined or never
    started. *)
Inductive CoreEnd {Out E : Type} :=
  | NotBuilt (e : E)
  | Produced (o : Out)
  | FailedWith (e : E)
  | Panics.
Arguments CoreEnd : clear implicits.

Definition joined {Out E} (core : nat) (e : CoreEnd Out E) : result Out (CoresError E) :=
  match e with
  | NotBuilt e => Err (RuntimeError core e)
  | Produced o => Ok o
  | FailedWith e => Err (CoreError core e)
  | Panics => Err (Panicked core)
  end.
(** The threads of the cores after core 0: each runs and ends, the first that cannot be started ends
    the spawning. *)
Fixpoint run_others {Out E} (core : nat) (others : list (CoreEnd Out E + E)) : list (result Out (CoresError E)) :=
  match others with
  | [] => []
  | inl e :: rest => joined core e :: run_others (S core) rest
  | inr e :: _ => [Err (ThreadError core e)]
  end.
(** [Cores::run_with]: [None] where core 0's panic is resumed. *)
Definition run_with {Out E} (main : CoreEnd Out E) (others : list (CoreEnd Out E + E))
  : option (result (list Out) (CoresError E)) :=
  match main with
  | Panics => None
  | _ => Some (collect (joined 0 main :: run_others 1 others))
  end.

(** ** What a plan gives *)

(** A mount of [workers(n)] with more than one. *)
Definition pooled (m : Mount) : bool := negb (is_sequential (workers m)) && negb (threads m).
Definition places (mounts : list Mount) : nat := sum_list_with wanted (List.filter pooled mounts).

Definition on_place (shared : list nat) (c : nat) : nat := nth (c mod length shared) shared 0.

Lemma threads_not_sequential m : threads m = true -> is_sequential (workers m) = false.
Proof. unfold threads, on_threads, is_sequential. destruct (placement _); [done|]. by rewrite andb_false_r. Qed.
Lemma asked_for_cons m mounts : asked_for (m :: mounts) = (if threads m then wanted m else 0) + asked_for mounts.
Proof. unfold asked_for. simpl. by destruct (threads m). Qed.
Lemma places_cons m mounts : places (m :: mounts) = (if pooled m then wanted m else 0) + places mounts.
Proof. unfold places. simpl. by destruct (pooled m). Qed.

#[local] Arguments place : simpl never.
Lemma place_all_cons shared d c m mounts :
  place_all shared (d, c) (m :: mounts) =
    fst (place shared (d, c) m) ::
    place_all shared (d + (if threads m then wanted m else 0), c + (if pooled m then wanted m else 0)) mounts.
Proof.
  cbn [place_all]. unfold place, pooled. destruct (is_sequential (workers m)) eqn:Hs.
  - assert (Ht : threads m = false)
      by (destruct (threads m) eqn:Ht; [by rewrite threads_not_sequential in Hs|done]).
    rewrite Ht. simpl. by rewrite !Nat.add_0_r.
  - destruct (threads m); simpl; by rewrite Nat.add_0_r.
Qed.
(** The cores of each mount, from the counts of the mounts before it. *)
Lemma place_all_lookup shared mounts d c i m :
  mounts !! i = Some m ->
  place_all shared (d, c) mounts !! i =
    Some (fst (place shared (d + asked_for (take i mounts), c + places (take i mounts)) m)).
Proof.
  revert d c i. induction mounts as [|m0 mounts IH]; intros d c i Hi; [done|].
  rewrite place_all_cons. destruct i as [|i]; simpl in Hi.
  - injection Hi as ->. cbn [take]. change (asked_for []) with 0. change (places []) with 0.
    by rewrite !Nat.add_0_r.
  - cbn [take]. rewrite asked_for_cons, places_cons, !Nat.add_assoc. simpl. by apply IH.
Qed.
Lemma place_all_length shared mounts cursors : length (place_all shared cursors mounts) = length mounts.
Proof.
  revert cursors. induction mounts as [|m mounts IH]; intros cursors; [done|]. cbn [place_all].
  destruct (place shared cursors m). simpl. by rewrite IH.
Qed.
Lemma asked_for_before mounts i j m :
  mounts !! i = Some m -> threads m = true -> i < j ->
  asked_for (take i mounts) + wanted m <= asked_for (take j mounts).
Proof.
  revert i j. induction mounts as [|m0 mounts IH]; intros i j Hi Ht Hij; [done|].
  destruct j as [|j]; [lia|]. destruct i as [|i]; simpl in Hi; cbn [take]; rewrite !asked_for_cons.
  - injection Hi as ->. rewrite Ht. unfold asked_for at 1. simpl. lia.
  - specialize (IH i j Hi Ht ltac:(lia)). lia.
Qed.
Lemma asked_for_take mounts j : asked_for (take j mounts) <= asked_for mounts.
Proof.
  rewrite <-(take_drop j mounts) at 2. unfold asked_for. rewrite List.filter_app, sum_list_with_app. lia.
Qed.
Lemma asked_for_all mounts i m :
  mounts !! i = Some m -> threads m = true -> asked_for (take i mounts) + wanted m <= asked_for mounts.
Proof.
  intros Hi Ht. pose proof (asked_for_before mounts i (length mounts) m Hi Ht) as H.
  rewrite firstn_all in H. apply H. by eapply lookup_lt_Some.
Qed.

Lemma elem_of_shared count asked c :
  c ∈ shared_cores count asked <-> c = 0 \/ asked < c < count.
Proof. unfold shared_cores. rewrite elem_of_cons, elem_of_seq. lia. Qed.
Lemma shared_NoDup count asked : NoDup (shared_cores count asked).
Proof.
  unfold shared_cores. apply NoDup_cons. split; [|apply NoDup_seq]. rewrite elem_of_seq. lia.
Qed.
Lemma on_place_shared shared c : shared <> [] -> on_place shared c ∈ shared.
Proof.
  intros Hne. unfold on_place. apply list_elem_of_In, nth_In. apply Nat.mod_upper_bound.
  by destruct shared.
Qed.

(** The places taken in turn: after [n] of them each shared core has [n / k] or one more. *)
Definition turn_count (k n p : nat) : nat := n / k + if p <? n mod k then 1 else 0.
Lemma turn_count_S k n p :
  p < k -> turn_count k (S n) p = turn_count k n p + if n mod k =? p then 1 else 0.
Proof.
  intros Hp. unfold turn_count. pose proof (Nat.div_mod_eq n k) as Hn.
  pose proof (Nat.mod_upper_bound n k ltac:(lia)) as Hr. set (q := n / k) in *. set (r := n mod k) in *.
  destruct (decide (S r = k)) as [He|Hne].
  - assert (Hq : S n / k = S q) by (symmetry; apply (Nat.div_unique _ _ _ 0); [lia|nia]).
    assert (Hm : S n mod k = 0) by (symmetry; apply (Nat.mod_unique _ _ (S q)); [lia|nia]).
    rewrite Hq, Hm. destruct (Nat.ltb_spec p 0), (Nat.ltb_spec p r), (Nat.eqb_spec r p); lia.
  - assert (Hq : S n / k = q) by (symmetry; apply (Nat.div_unique _ _ _ (S r)); [lia|nia]).
    assert (Hm : S n mod k = S r) by (symmetry; apply (Nat.mod_unique _ _ q); [lia|nia]).
    rewrite Hq, Hm. destruct (Nat.ltb_spec p (S r)), (Nat.ltb_spec p r), (Nat.eqb_spec r p); lia.
Qed.
Lemma turns_counted shared n p s :
  NoDup shared -> shared !! p = Some s ->
  Prelude.count (Nat.eqb s) (on_place shared <$> seq 0 n) = turn_count (length shared) n p.
Proof.
  intros Hnd Hp. pose proof (lookup_lt_Some _ _ _ Hp) as Hlt. induction n as [|n IH].
  - unfold turn_count. rewrite Nat.Div0.div_0_l, Nat.Div0.mod_0_l by lia. done.
  - rewrite seq_S, fmap_app, count_app, IH, turn_count_S by done. f_equal. csimpl. rewrite count_cons, count_nil.
    simpl. unfold on_place. pose proof (Nat.mod_upper_bound n (length shared) ltac:(lia)) as Hr.
    destruct (lookup_lt_is_Some_2 shared (n mod length shared) Hr) as [x Hx].
    rewrite (nth_lookup_Some _ _ _ _ Hx). destruct (n mod length shared =? p) eqn:He.
    + apply Nat.eqb_eq in He. rewrite He, Hp in Hx. injection Hx as ->. by rewrite Nat.eqb_refl.
    + apply Nat.eqb_neq in He. destruct (s =? x) eqn:Hsx; [|done]. apply Nat.eqb_eq in Hsx as ->.
      destruct He. by eapply NoDup_lookup.
Qed.

(** The cores the pooled mounts run on, one for each worker. *)
Definition pooled_places (mounts : list Mount) (layout : list (list nat)) : list nat :=
  List.concat (zip_with (fun m cores => if pooled m then cores else []) mounts layout).
Lemma pooled_places_turns shared mounts d c :
  pooled_places mounts (place_all shared (d, c) mounts) = on_place shared <$> seq c (places mounts).
Proof.
  revert d c. induction mounts as [|m mounts IH]; intros d c; [done|].
  rewrite place_all_cons, places_cons. unfold pooled_places in *. simpl. rewrite IH, seq_app, fmap_app. f_equal.
  unfold pooled, place. destruct (is_sequential (workers m)); [done|]. by destruct (threads m).
Qed.


(** ** What a plan promises *)

(** The cores of the mount at [i]. *)
Record placed (count : nat) (mounts : list Mount) (layout : list (list nat)) (i : nat) (m : Mount)
    (cores : list nat) : Prop := mk_placed {
  one_each : length cores = wanted m;
  in_range : forall c, c ∈ cores -> c < Nat.max count 1;
  sequential_on_0 : is_sequential (workers m) = true -> cores = [0];
  dedicated : threads m = true -> NoDup cores /\ (0 ∉ cores) /\
    forall j others, j <> i -> layout !! j = Some others -> forall c, c ∈ cores -> c ∉ others;
}.

Lemma fst_place shared d c m :
  fst (place shared (d, c) m) =
    if is_sequential (workers m) then [0]
    else if threads m then seq d (wanted m) else on_place shared <$> seq c (wanted m).
Proof. unfold place. destruct (is_sequential _); [done|]. by destruct (threads m). Qed.
Lemma place_range count asked d c m k :
  1 <= d -> d + (if threads m then wanted m else 0) <= 1 + asked -> asked < count ->
  k ∈ fst (place (shared_cores count asked) (d, c) m) ->
  k < count /\ (if threads m then d <= k < d + wanted m else k = 0 \/ asked < k).
Proof.
  intros Hd Hle Hlt. rewrite fst_place. destruct (is_sequential (workers m)) eqn:Hs.
  - assert (Ht : threads m = false)
      by (destruct (threads m) eqn:Ht; [by rewrite threads_not_sequential in Hs|done]).
    rewrite Ht in *. intros ->%list_elem_of_singleton. split; [lia|by left].
  - destruct (threads m).
    + intros Hk%elem_of_seq. lia.
    + intros (j & -> & _)%list_elem_of_fmap.
      pose proof (on_place_shared (shared_cores count asked) j ltac:(done)) as Hin.
      apply elem_of_shared in Hin. lia.
Qed.

Lemma plan_ok count mounts layout :
  plan count mounts = Ok layout ->
  asked_for mounts < Nat.max count 1 /\
  layout = place_all (shared_cores (Nat.max count 1) (asked_for mounts)) (1, 0) mounts.
Proof.
  unfold plan. destruct (_ <? _) eqn:Hlt; [done|]. apply Nat.ltb_ge in Hlt. intros [= <-]. split; [lia|done].
Qed.

Lemma plan_places count mounts layout i m cores :
  plan count mounts = Ok layout -> mounts !! i = Some m -> layout !! i = Some cores ->
  placed count mounts layout i m cores.
Proof.
  intros [Hlt ->]%plan_ok Hm Hc. pose proof Hc as Hc'. rewrite (place_all_lookup _ _ _ _ i m Hm) in Hc'.
  injection Hc' as <-. set (n := Nat.max count 1) in *. set (asked := asked_for mounts) in *.
  assert (Hrange : forall j mj k, mounts !! j = Some mj ->
    k ∈ fst (place (shared_cores n asked) (1 + asked_for (take j mounts), 0 + places (take j mounts)) mj) ->
    k < n /\ (if threads mj then 1 + asked_for (take j mounts) <= k < 1 + asked_for (take j mounts) + wanted mj
              else k = 0 \/ asked < k)).
  { intros j mj k Hj. apply place_range; [lia| |done]. destruct (threads mj) eqn:Ht; [|].
    - pose proof (asked_for_all mounts j mj Hj Ht). unfold asked. lia.
    - pose proof (asked_for_take mounts j). unfold asked. lia. }
  split.
  - rewrite fst_place. destruct (is_sequential (workers m)) eqn:Hs.
    + unfold is_sequential in Hs. apply andb_prop in Hs as [Hone%Nat.eqb_eq _]. unfold wanted. by rewrite Hone.
    + destruct (threads m); [apply length_seq|by rewrite length_fmap, length_seq].
  - intros k Hk. by apply (Hrange i m k Hm) in Hk as [? _].
  - intros Hs. by rewrite fst_place, Hs.
  - intros Ht. split; [|split].
    + rewrite fst_place, (threads_not_sequential m Ht), Ht. apply NoDup_seq.
    + intros H0. apply (Hrange i m 0 Hm) in H0 as [_ H0]. rewrite Ht in H0. lia.
    + intros j others Hne Hj k Hk Hko.
      assert (Hlen : j < length mounts).
      { apply lookup_lt_Some in Hj. by rewrite place_all_length in Hj. }
      destruct (lookup_lt_is_Some_2 mounts j Hlen) as [mj Hmj].
      rewrite (place_all_lookup _ _ _ _ j mj Hmj) in Hj. injection Hj as <-.
      apply (Hrange i m k Hm) in Hk as [_ Hk]. apply (Hrange j mj k Hmj) in Hko as [_ Hko].
      rewrite Ht in Hk. pose proof (asked_for_all mounts i m Hm Ht) as Hall. fold asked in Hall.
      destruct (threads mj) eqn:Htj; [|lia].
      destruct (decide (i < j)).
      * pose proof (asked_for_before mounts i j m Hm Ht ltac:(lia)). lia.
      * pose proof (asked_for_before mounts j i mj Hmj Htj ltac:(lia)). lia.
Qed.

(** A plan of the cores keeps what it promises: every mount gets as many cores as it declared
    workers, all of them cores of the service; a [threads] mount's are its own, distinct, never core 0
    and shared with no other mount; a sequential mount stays on core 0; and the [workers] mounts take
    their places in turn over the shared cores, so that no shared core runs two more of their workers
    than another does.  It is refused exactly where the [threads] mounts together ask for more cores
    than there are besides core 0, each of them named. *)
Theorem layout_is_sound count mounts :
  match plan count mounts with
  | Ok layout =>
      length layout = length mounts /\
      (forall i m cores, mounts !! i = Some m -> layout !! i = Some cores ->
         placed count mounts layout i m cores) /\
      (forall s t, s ∈ shared_cores (Nat.max count 1) (asked_for mounts) ->
         t ∈ shared_cores (Nat.max count 1) (asked_for mounts) ->
         Prelude.count (Nat.eqb s) (pooled_places mounts layout) <=
         Prelude.count (Nat.eqb t) (pooled_places mounts layout) + 1)
  | Err e =>
      Nat.max count 1 - 1 < asked_for mounts /\ asked e = asked_for mounts /\
      named e = (fun m => (mount_name m, wanted m)) <$> List.filter threads mounts
  end.
Proof.
  destruct (plan count mounts) as [layout|e] eqn:Hp.
  - pose proof (plan_ok _ _ _ Hp) as [Hlt ->]. split_and!; [apply place_all_length| |].
    + intros i m cores. by apply plan_places.
    + intros s t (p & Hs)%list_elem_of_lookup (q & Ht)%list_elem_of_lookup. rewrite pooled_places_turns.
      rewrite (turns_counted _ _ p s), (turns_counted _ _ q t) by (done || apply shared_NoDup).
      unfold turn_count. destruct (p <? _), (q <? _); lia.
  - unfold plan in Hp. destruct (_ <? _) eqn:Hlt; [|done]. apply Nat.ltb_lt in Hlt. by injection Hp as <-.
Qed.

(** A run of the cores returns every core's output in core order where all of them produced one, and
    otherwise the failure of the lowest core that failed; a thread that cannot be started is one. *)
Theorem first_failed_core_is_returned {Out E} (main : CoreEnd Out E) others r :
  run_with main others = Some r ->
  let ordered := joined 0 main :: run_others 1 others in
  match r with
  | Ok outputs => ordered = Ok <$> outputs
  | Err e => exists before after, ordered = (Ok <$> before) ++ Err e :: after
  end.
Proof.
  intros Hr ordered. assert (Hc : r = collect ordered) 
    by (unfold ordered, run_with in *; destruct main; try discriminate Hr; injection Hr as <-; reflexivity).
  clear Hr. subst r. unfold collect.
  set (f := fun '(outputs, first) r => _).
  assert (Hgen : forall l outputs first, let '(outputs', first') := fold_left f l (outputs, first) in
    match first with
    | Some e => first' = Some e
    | None =>
        match first' with
        | None => exists more, l = Ok <$> more /\ outputs' = outputs ++ more
        | Some e => exists before after, l = (Ok <$> before) ++ Err e :: after
        end
    end).
  { induction l as [|x l IH]; intros outputs first; simpl.
    - destruct first; [done|]. exists []. by rewrite app_nil_r.
    - destruct x as [o|e].
      + specialize (IH (outputs ++ [o]) first). simpl. destruct (fold_left f l _) as [o' first'].
        destruct first; [done|]. destruct first' as [e|].
        * destruct IH as (before & after & ->). by exists (o :: before), after.
        * destruct IH as (more & -> & ->). exists (o :: more). by rewrite <-app_assoc.
      + destruct first as [e0|].
        * specialize (IH outputs (Some e0)). simpl. by destruct (fold_left f l _).
        * specialize (IH outputs (Some e)). simpl. destruct (fold_left f l _) as [o' first']. subst.
          by exists [], l. }
  specialize (Hgen ordered [] None). destruct (fold_left f ordered _) as [outputs first].
  destruct first as [e|]; [done|]. by destruct Hgen as (more & Hl & ->).
Qed.

Lemma first_failed_core_is_returned_witness :
  run_with (Out := nat) (E := nat) (Produced 7) [inl (Produced 8); inl Panics; inl (FailedWith 3); inr 9] =
    Some (Err (Panicked 2)) /\
  exists before after,
    joined 0 (Produced 7) :: run_others 1 [inl (Produced 8); inl Panics; inl (FailedWith 3); inr 9] =
      (Ok <$> before) ++ Err (Panicked 2 : CoresError nat) :: after.
Proof.
  split; [reflexivity|].
  exact (first_failed_core_is_returned (Produced 7) [inl (Produced 8); inl Panics; inl (FailedWith 3); inr 9]
    (Err (Panicked 2)) eq_refl).
Defined.

End Cores.

Module Fabric.

(** ** The mailboxes and the count of live workers *)

(** Where [serve] stands on a core: not called yet, in its loop, past the stop with its mailbox closed to
    senders, done with the mail, and over. *)
Inductive ServeAt := Away | Serving | Drains | Collects | Over.

(** [unserved_closed] the teardown found the mailbox first, [already_served] another call did. *)
Inductive Said := ClosedBefore | AlreadyServed.

(** [Fabric::workers_gone], from its call: closing the mailboxes no core has taken, with the guards of
    the mail it drops, then its loop. *)
Inductive TeardownAt :=
  | Elsewhere
  | Closing (core mine : nat) (tells : bool)
  | Top
  | Listens
  | Rechecks
  | Asleep
  | Returned.

(** A core: its mailbox until the receiver is dropped, the workers spawned on it, and those that ended
    with whether they panicked and have not been looked at. *)
Record CoreState := mk_core {
  inbox : option (list string);
  serve : ServeAt;
  running : list string;
  ended : list (string * bool);
}.

(** [alive], [unserved_closed] and the event [gone] of [WorkerCount], whose one listener is the
    teardown; the guards taken for a worker not mailed yet, those whose holder was dropped and that are
    not released yet, the threads between the release of the last guard and its [notify]; the stop
    signal, the failures it was given, and what the cores that found no mailbox said. *)
Record World := mk_world {
  cores : list CoreState;
  alive : nat;
  unserved_closed : bool;
  notified : bool;
  in_hand : nat;
  dropping : nat;
  notifying : nat;
  teardown : TeardownAt;
  stop : bool;
  failures : list (string * nat);
  said : list Said;
}.

Definition set_cores (w : World) c := mk_world c (alive w) (unserved_closed w) (notified w) (in_hand w)
  (dropping w) (notifying w) (teardown w) (stop w) (failures w) (said w).
Definition set_alive (w : World) a := mk_world (cores w) a (unserved_closed w) (notified w) (in_hand w)
  (dropping w) (notifying w) (teardown w) (stop w) (failures w) (said w).
Definition set_notified (w : World) b := mk_world (cores w) (alive w) (unserved_closed w) b (in_hand w)
  (dropping w) (notifying w) (teardown w) (stop w) (failures w) (said w).
Definition set_in_hand (w : World) n := mk_world (cores w) (alive w) (unserved_closed w) (notified w) n
  (dropping w) (notifying w) (teardown w) (stop w) (failures w) (said w).
Definition set_dropping (w : World) n := mk_world (cores w) (alive w) (unserved_closed w) (notified w)
  (in_hand w) n (notifying w) (teardown w) (stop w) (failures w) (said w).
Definition set_notifying (w : World) n := mk_world (cores w) (alive w) (unserved_closed w) (notified w)
  (in_hand w) (dropping w) n (teardown w) (stop w) (failures w) (said w).
Definition set_teardown (w : World) t := mk_world (cores w) (alive w) (unserved_closed w) (notified w)
  (in_hand w) (dropping w) (notifying w) t (stop w) (failures w) (said w).
Definition raise_stop (w : World) := mk_world (cores w) (alive w) (unserved_closed w) (notified w)
  (in_hand w) (dropping w) (notifying w) (teardown w) true (failures w) (said w).
Definition close_flag (w : World) := mk_world (cores w) (alive w) true (notified w) (in_hand w)
  (dropping w) (notifying w) (teardown w) (stop w) (failures w) (said w).
Definition fail (w : World) (f : string * nat) := mk_world (cores w) (alive w) (unserved_closed w) (notified w)
  (in_hand w) (dropping w) (notifying w) (teardown w) true (failures w ++ [f]) (said w).
Definition say (w : World) (s : Said) := mk_world (cores w) (alive w) (unserved_closed w) (notified w)
  (in_hand w) (dropping w) (notifying w) (teardown w) (stop w) (failures w) (said w ++ [s]).

(** [Fabric::open]. *)
Definition open (count : nat) : World :=
  mk_world (replicate (Nat.max count 1) (mk_core (Some []) Away [] [])) 0 false false 0 0 0 Elsewhere false [] [].

(** A send is taken until the receiver closes the mailbox or is dropped. *)
Definition takes_mail (c : CoreState) : bool :=
  match inbox c, serve c with
  | Some _, (Away | Serving) => true
  | _, _ => false
  end.
Definition mail (c : CoreState) : list string := default [] (inbox c).

(** [WorkerGuard::drop]'s [fetch_sub], and whether it was the last. *)
Definition release (w : World) : World * bool := (set_alive w (alive w - 1), alive w =? 1).
Definition released (w : World) : World :=
  let '(w, last) := release w in if last then set_notifying w (S (notifying w)) else w.
(** [gone.notify(usize::MAX)]: a listener is registered from [Rechecks] on. *)
Definition notify (w : World) : World :=
  match teardown w with
  | Rechecks | Asleep => set_notified w true
  | _ => w
  end.

Inductive Turn :=
  | TakesGuard
  | Mails (core : nat) (s : string)
  | Serves (core : nat)
  | Starts (core : nat)
  | Stops (core : nat)
  | Drained (core : nat)
  | Ends (core i : nat) (panicked : bool)
  | Reports (core : nat)
  | Finishes (core : nat)
  | CoreDropped (core : nat)
  | Releases
  | Notifies
  | Raises
  | TearsDown.

(** [worker_guard], and [run_on]: a refused job is dropped with its guard. *)
Definition takes_guard (w : World) : World := set_in_hand (set_alive w (S (alive w))) (S (in_hand w)).
Definition run_on (w : World) (i : nat) (s : string) : option World :=
  match in_hand w, cores w !! i with
  | S n, Some c =>
      let w := set_in_hand w n in
      Some (if takes_mail c
            then set_cores w (<[i := mk_core ((fun q => q ++ [s]) <$> inbox c) (serve c) (running c) (ended c)]> (cores w))
            else set_dropping w (S (dropping w)))
  | _, _ => None
  end.

(** [serve]'s first step: the mailboxes are behind one lock, which the teardown holds while it closes. *)
Definition locked (w : World) : bool := match teardown w with Closing _ _ _ => true | _ => false end.
Definition serves (w : World) (c : CoreState) : World * CoreState :=
  match inbox c with
  | Some q => (w, mk_core (Some q) Serving (running c) (ended c))
  | None => (say w (if unserved_closed w then ClosedBefore else AlreadyServed), mk_core None Over (running c) (ended c))
  end.

(** What core [i] does on its own. *)
Definition core_goes (w : World) (t : Turn) (i : nat) (c : CoreState) : option (World * CoreState) :=
  match t, serve c, inbox c with
  | Serves _, Away, _ => if locked w then None else Some (serves w c)
  | Starts _, (Serving | Drains), Some (m :: q) =>
      Some (w, mk_core (Some q) (serve c) (running c ++ [m]) (ended c))
  | Stops _, Serving, _ => if stop w then Some (w, mk_core (inbox c) Drains (running c) (ended c)) else None
  | Drained _, Drains, Some [] => Some (w, mk_core (Some []) Collects (running c) (ended c))
  | Ends _ k panicked, _, _ =>
      match running c !! k with
      | Some m => Some (released w, mk_core (inbox c) (serve c) (delete k (running c)) (ended c ++ [(m, panicked)]))
      | None => None
      end
  | Reports _, (Serving | Collects), _ =>
      match ended c with
      | (m, panicked) :: rest =>
          Some (if panicked then fail w (m, i) else w, mk_core (inbox c) (serve c) (running c) rest)
      | [] => None
      end
  | Finishes _, Collects, _ =>
      match running c, ended c with
      | [], [] => Some (w, mk_core None Over [] [])
      | _, _ => None
      end
  | CoreDropped _, (Serving | Drains | Collects), _ =>
      Some (set_dropping w (length (mail c) + length (running c) + dropping w), mk_core None Over [] [])
  | _, _, _ => None
  end.

(** The teardown's next access. *)
Definition teardown_goes (w : World) : option World :=
  match teardown w with
  | Elsewhere => Some (set_teardown (close_flag w) (Closing 0 0 false))
  | Closing k mine true => Some (set_teardown (notify w) (Closing k mine false))
  | Closing k (S mine) false =>
      let '(w, last) := release w in Some (set_teardown w (Closing k mine last))
  | Closing k O false =>
      match cores w !! k with
      | Some c =>
          Some match serve c with
          | Away =>
              set_teardown (set_cores w (<[k := mk_core None Away (running c) (ended c)]> (cores w)))
                (Closing (S k) (length (mail c)) false)
          | _ => set_teardown w (Closing (S k) 0 false)
          end
      | None => Some (set_teardown w Top)
      end
  | Top => Some (set_teardown w (if alive w =? 0 then Returned else Listens))
  | Listens => Some (set_teardown (set_notified w false) Rechecks)
  | Rechecks => Some (set_teardown w (if alive w =? 0 then Returned else Asleep))
  | Asleep => if notified w then Some (set_teardown w Top) else None
  | Returned => None
  end.

Definition core_of (t : Turn) : option nat :=
  match t with
  | Serves i | Starts i | Stops i | Drained i | Ends i _ _ | Reports i | Finishes i | CoreDropped i => Some i
  | _ => None
  end.

Definition step (w : World) (t : Turn) : option World :=
  match t with
  | TakesGuard => Some (takes_guard w)
  | Mails i s => run_on w i s
  | Releases =>
      match dropping w with S n => Some (released (set_dropping w n)) | O => None end
  | Notifies =>
      match notifying w with S n => Some (notify (set_notifying w n)) | O => None end
  | Raises => if stop w then None else Some (raise_stop w)
  | TearsDown => teardown_goes w
  | _ =>
      i ← core_of t; c ← cores w !! i; '(w, c) ← core_goes w t i c;
      Some (set_cores w (<[i := c]> (cores w)))
  end.
Fixpoint steps (w : World) (ts : list Turn) : option World :=
  match ts with
  | [] => Some w
  | t :: ts => w ← step w t; steps w ts
  end.


(** ** What holds of it *)

Definition unserved (c : CoreState) : bool :=
  match serve c, inbox c with Away, Some _ => true | _, _ => false end.
(** The guards a core holds. *)
Definition held (c : CoreState) : nat := length (mail c) + length (running c).
Definition mine (t : TeardownAt) : nat := match t with Closing _ n _ => n | _ => 0 end.

Definition core_ok (flag : bool) (c : CoreState) : Prop :=
  match serve c with
  | Away => running c = [] /\ ended c = [] /\ (inbox c = None -> flag = true)
  | Serving | Drains => is_Some (inbox c)
  | Collects => inbox c = Some []
  | Over => inbox c = None /\ running c = []
  end.

Record fabric_ok (w : World) : Prop := mk_fabric_ok {
  counted : alive w = in_hand w + dropping w + mine (teardown w) + sum_list_with held (cores w);
  each_core : forall i c, cores w !! i = Some c -> core_ok (unserved_closed w) c;
  closed : forall i c, cores w !! i = Some c ->
    match teardown w with Elsewhere => False | Closing k _ _ => i < k | _ => True end -> unserved c = false;
  flagged : teardown w <> Elsewhere -> unserved_closed w = true;
  quiet : AlreadyServed ∉ said w;
  wakes : teardown w = Asleep -> notified w = false -> 0 < alive w \/ 0 < notifying w;
  some_core : cores w <> [];
}.

Definition serve_energy (s : ServeAt) : nat :=
  match s with Away => 4 | Serving => 3 | Drains => 2 | Collects => 1 | Over => 0 end.
Definition core_energy (c : CoreState) : nat :=
  8 * length (mail c) + 7 * length (running c) + length (ended c) + serve_energy (serve c).
Definition teardown_energy (w : World) : nat :=
  match teardown w with
  | Elsewhere => 6 + length (cores w)
  | Closing k n tells => 4 + (length (cores w) - k) + 6 * n + if tells then 5 else 0
  | Top => 3
  | Listens => 2
  | Rechecks => 1 + if notified w then 4 else 0
  | Asleep => if notified w then 4 else 0
  | Returned => 0
  end.
Definition energy (w : World) : nat :=
  9 * in_hand w + 6 * dropping w + 5 * notifying w + sum_list_with core_energy (cores w) +
  teardown_energy w + if stop w then 0 else 1.

Lemma open_ok count : fabric_ok (open count).
Proof.
  assert (Hc : forall i c, replicate (Nat.max count 1) (mk_core (Some []) Away [] []) !! i = Some c ->
    c = mk_core (Some []) Away [] []) by (by intros i c [-> _]%lookup_replicate).
  split; simpl; try done.
  - symmetry. apply sum_list_zero. intros c [i Hi]%list_elem_of_lookup. by rewrite (Hc i c Hi).
  - intros i c Hi. by rewrite (Hc i c Hi).
  - apply not_elem_of_nil.
  - by destruct count.
Qed.

(** What one core's step leaves of the rest, and what it moves. *)
Record core_moves (w w' : World) (c c' : CoreState) : Prop := mk_core_moves {
  same : cores w' = cores w /\ in_hand w' = in_hand w /\ teardown w' = teardown w /\
         notified w' = notified w /\ unserved_closed w' = unserved_closed w;
  core_still_ok : core_ok (unserved_closed w) c';
  moved : alive w' + dropping w + held c = alive w + dropping w' + held c';
  told : notifying w <= notifying w' /\ (alive w' = 0 -> 0 < alive w -> 0 < notifying w');
  never_unserved : unserved c' = true -> unserved c = true;
  still_quiet : AlreadyServed ∉ said w -> AlreadyServed ∉ said w';
  spends : core_energy c' + 6 * dropping w' + 5 * notifying w' + (if stop w' then 0 else 1) <
           core_energy c + 6 * dropping w + 5 * notifying w + (if stop w then 0 else 1);
}.

Lemma released_alive w : alive (released w) = alive w - 1.
Proof. unfold released, release. by destruct (alive w =? 1). Qed.
Lemma released_told w :
  notifying w <= notifying (released w) <= S (notifying w) /\
  (alive w = 1 -> 0 < notifying (released w)).
Proof. unfold released, release. destruct (Nat.eqb_spec (alive w) 1); simpl; lia. Qed.
Lemma released_same w :
  cores (released w) = cores w /\ in_hand (released w) = in_hand w /\ teardown (released w) = teardown w /\
  notified (released w) = notified w /\ unserved_closed (released w) = unserved_closed w /\
  dropping (released w) = dropping w /\ stop (released w) = stop w /\ said (released w) = said w.
Proof. unfold released, release. by destruct (alive w =? 1). Qed.

Lemma released_moves w c k m p :
  running c !! k = Some m -> core_ok (unserved_closed w) c -> held c <= alive w ->
  core_moves w (released w) c (mk_core (inbox c) (serve c) (delete k (running c)) (ended c ++ [(m, p)])).
Proof.
  intros Hk Hok Hheld. pose proof (released_same w) as (? & ? & ? & ? & Hu & Hd & Hst & Hsaid).
  pose proof (released_told w) as [Ht1 Ht2]. pose proof (lookup_lt_Some _ _ _ Hk) as Hlt.
  pose proof (length_delete (running c) k (ex_intro _ m Hk)) as Hlen. unfold held in Hheld.
  split; unfold held, core_energy, mail in *; simpl;
    rewrite ?Hd, ?Hst, ?released_alive, ?Hsaid, ?length_app; simpl; eauto; try lia.
  unfold core_ok in *; simpl. destruct (serve c); [|done..|]; [destruct Hok as (Hr & _)|destruct Hok as [_ Hr]];
    by rewrite Hr in Hk.
Qed.
Lemma reports_moves w i c m (p : bool) rest :
  ended c = (m, p) :: rest -> serve c = Serving \/ serve c = Collects -> core_ok (unserved_closed w) c ->
  core_moves w (if p then fail w (m, i) else w) c (mk_core (inbox c) (serve c) (running c) rest).
Proof.
  intros He Hsv Hok. split; unfold held, unserved, core_energy, mail; simpl; try (destruct p; simpl; eauto; lia).
  - unfold core_ok in *. simpl. destruct p; simpl; destruct Hsv as [Hsv|Hsv]; rewrite Hsv in *; exact Hok.
  - rewrite He. destruct p; simpl; destruct (stop w); lia.
Qed.

Ltac moves :=
  split; unfold core_ok, held, unserved, core_energy, mail; simpl;
  repeat match goal with H : ?f ?c = _ |- context [?f ?c] => is_var c; rewrite H end; simpl;
  rewrite ?length_app; simpl; eauto; try lia.

Lemma core_goes_moves w t i c w' c' :
  core_goes w t i c = Some (w', c') -> core_ok (unserved_closed w) c -> held c <= alive w ->
  core_moves w w' c c'.
Proof.
  intros Hs Hok Hheld. unfold core_goes in Hs. pose proof Hok as Hok'. unfold core_ok in Hok.
  destruct t as [|j s|j|j|j|j|j k p|j|j|j| | | |]; try discriminate Hs.
  - destruct (serve c) eqn:Hsv; try discriminate Hs. destruct (locked w); [discriminate Hs|].
    destruct Hok as (Hr & He & Hn). unfold serves in Hs.
    destruct (inbox c) as [q|] eqn:Hi; injection Hs as <- <-; [|rewrite Hn by done]; moves. set_solver.
  - destruct (serve c) eqn:Hsv; try discriminate Hs; destruct (inbox c) as [[|m q]|] eqn:Hi; try discriminate Hs;
      injection Hs as <- <-; moves.
  - destruct (serve c) eqn:Hsv; try discriminate Hs. destruct (stop w); [|discriminate Hs]. injection Hs as <- <-.
    moves.
  - destruct (serve c) eqn:Hsv; try discriminate Hs. destruct (inbox c) as [[|]|] eqn:Hi; try discriminate Hs.
    injection Hs as <- <-. moves.
  - destruct (running c !! k) as [m|] eqn:Hk; [|destruct (serve c); discriminate Hs].
    assert (He : Some (released w, mk_core (inbox c) (serve c) (delete k (running c)) (ended c ++ [(m, p)])) =
      Some (w', c')) by (destruct (serve c); exact Hs).
    injection He as <- <-. by apply released_moves.
  - destruct (serve c) eqn:Hsv; try discriminate Hs; destruct (ended c) as [|[m q] rest] eqn:He;
      try discriminate Hs; injection Hs as <- <-; rewrite <-Hsv; apply reports_moves; auto.
  - destruct (serve c) eqn:Hsv; try discriminate Hs. destruct (running c) eqn:Hr; [|discriminate Hs].
    destruct (ended c) eqn:He; [|discriminate Hs]. injection Hs as <- <-. moves.
  - destruct (serve c) eqn:Hsv; try discriminate Hs; injection Hs as <- <-; moves.
Qed.

Lemma held_alive w i c : fabric_ok w -> cores w !! i = Some c -> held c <= alive w.
Proof.
  intros Hok Hi. pose proof (sum_list_delete held _ _ _ Hi). rewrite (counted w Hok). lia.
Qed.

Lemma core_step_ok w t i c w' c' :
  fabric_ok w -> cores w !! i = Some c -> core_goes w t i c = Some (w', c') ->
  fabric_ok (set_cores w' (<[i := c']> (cores w'))) /\ energy (set_cores w' (<[i := c']> (cores w'))) < energy w.
Proof.
  intros Hok Hi Hs. pose proof (held_alive w i c Hok Hi) as Hheld. pose proof (lookup_lt_Some _ _ _ Hi) as Hlt.
  apply core_goes_moves in Hs as [(Hc & Hh & Ht & Hn & Hu) Hcok Hm Htold Hnev Hq Hsp]; [|by eapply each_core|done].
  pose proof (sum_list_insert held (cores w) i c c' Hi) as Hsum.
  pose proof (sum_list_insert core_energy (cores w) i c c' Hi) as Hen.
  pose proof (counted w Hok) as Hcount. split; [split|]; simpl; rewrite ?Hc, ?Ht, ?Hh, ?Hn, ?Hu.
  - lia.
  - intros j d [(-> & -> & _)|[_ Hj]]%list_lookup_insert_Some; [done|by eapply each_core].
  - intros j d [(-> & <- & _)|[_ Hj]]%list_lookup_insert_Some Hph; [|by eapply closed].
    pose proof (closed w Hok _ c Hi Hph) as Hun. destruct (unserved c') eqn:Hun'; [|done].
    rewrite (Hnev eq_refl) in Hun. done.
  - apply (flagged w Hok).
  - apply Hq, (quiet w Hok).
  - intros Hsl Hno. destruct (wakes w Hok Hsl Hno); [|right; lia]. destruct (alive w') eqn:Ha; [right|left; lia].
    by apply Htold.
  - rewrite <-length_zero_iff_nil, length_insert. lia.
  - unfold energy, teardown_energy in *. simpl. rewrite ?Hc, ?Ht, ?Hh, ?Hn, ?length_insert. lia.
Qed.

Lemma mails_ok w i s w' :
  fabric_ok w -> run_on w i s = Some w' -> fabric_ok w' /\ energy w' < energy w.
Proof.
  intros Hok Hs. unfold run_on in Hs. destruct (in_hand w) as [|n] eqn:Hh; [done|].
  destruct (cores w !! i) as [c|] eqn:Hi; [|done]. injection Hs as <-. pose proof (counted w Hok) as Hcount.
  destruct (takes_mail c) eqn:Htk.
  - unfold takes_mail in Htk. destruct (inbox c) as [q|] eqn:Hin; [|done].
    set (c' := mk_core _ _ _ _).
    assert (Hb : unserved c' = unserved c) by (unfold unserved, c'; simpl; by rewrite Hin).
    assert (Hl : held c' = S (held c) /\ core_energy c' = 8 + core_energy c)
      by (unfold held, core_energy, mail, c'; simpl; rewrite Hin; simpl; rewrite length_app; simpl; lia).
    pose proof (sum_list_insert held (cores w) i c c' Hi) as Hsum.
    pose proof (sum_list_insert core_energy (cores w) i c c' Hi) as Hen.
    split; [split|]; simpl; try apply Hok.
    + lia.
    + intros j d [(-> & <- & _)|[_ Hj]]%list_lookup_insert_Some; [|by eapply each_core].
      pose proof (each_core w Hok _ _ Hi) as Hcok. unfold core_ok, c' in *. simpl. rewrite Hin in *.
      destruct (serve c); try done. destruct Hcok as (? & ? & ?). by split_and!.
    + intros j d [(-> & <- & _)|[_ Hj]]%list_lookup_insert_Some Hph; [|by eapply closed].
      rewrite Hb. by eapply closed.
    + rewrite <-length_zero_iff_nil, length_insert. apply lookup_lt_Some in Hi. lia.
    + unfold energy, teardown_energy in *. simpl. rewrite Hh, length_insert. lia.
  - split; [split|]; simpl; try apply Hok; [lia|]. unfold energy, teardown_energy. simpl. lia.
Qed.

Lemma notify_ok w n :
  fabric_ok w -> notifying w = S n ->
  fabric_ok (notify (set_notifying w n)) /\ energy (notify (set_notifying w n)) < energy w.
Proof.
  intros Hok Hn. destruct Hok as [Hc He Hcl Hf Hq Hw Hs]. unfold notify, energy, teardown_energy. simpl. split.
  - destruct (teardown w) eqn:Ht; split; simpl; rewrite ?Ht; done.
  - destruct (teardown w) eqn:Ht; simpl; rewrite ?Hn, ?Ht; destruct (notified w); lia.
Qed.

(** The teardown's step at mailbox [k]. *)
Lemma closes_ok w k c :
  fabric_ok w -> teardown w = Closing k 0 false -> cores w !! k = Some c ->
  let w' :=
    match serve c with
    | Away =>
        set_teardown (set_cores w (<[k := mk_core None Away (running c) (ended c)]> (cores w)))
          (Closing (S k) (length (mail c)) false)
    | _ => set_teardown w (Closing (S k) 0 false)
    end in
  fabric_ok w' /\ energy w' < energy w.
Proof.
  intros Hok Ht Hk w'. pose proof (counted w Hok) as Hcount. pose proof (lookup_lt_Some _ _ _ Hk) as Hlt.
  pose proof (closed w Hok) as Hclosed. pose proof (flagged w Hok) as Hflag. rewrite Ht in *. simpl in Hcount.
  assert (Hsv : serve c = Away \/ serve c <> Away) by (destruct (serve c); by (left + right)).
  destruct Hsv as [Hsv|Hsv].
  - unfold w'. rewrite Hsv. clear w'. set (c' := mk_core _ _ _ _).
    assert (Hl : held c = length (mail c) + held c' /\ core_energy c = 8 * length (mail c) + core_energy c').
    { unfold held, core_energy, c', mail. simpl. rewrite Hsv. simpl. lia. }
    pose proof (sum_list_insert held (cores w) k c c' Hk) as Hsum.
    pose proof (sum_list_insert core_energy (cores w) k c c' Hk) as Hen.
    split; [split|]; simpl; try apply Hok; try done.
    + lia.
    + intros j d [(-> & <- & _)|[_ Hj]]%list_lookup_insert_Some; [|by eapply each_core].
      pose proof (each_core w Hok _ _ Hk) as Hcok. unfold core_ok, c' in *. simpl. rewrite Hsv in Hcok.
      destruct Hcok as (? & ? & _). split_and!; [done|done|]. intros _. by apply Hflag.
    + intros j d [(-> & <- & _)|[Hne Hj]]%list_lookup_insert_Some Hph; [done|]. apply (Hclosed j d Hj). lia.
    + intros _. by apply Hflag.
    + rewrite <-length_zero_iff_nil, length_insert. lia.
    + unfold energy, teardown_energy. simpl. rewrite Ht, length_insert. lia.
  - assert (Hw : w' = set_teardown w (Closing (S k) 0 false)) by (unfold w'; by destruct (serve c)).
    rewrite Hw. split; [split|]; simpl; try apply Hok; try done.
    + intros j d Hj Hph. destruct (decide (j = k)) as [->|]; [|apply (Hclosed j d Hj); lia].
      rewrite Hk in Hj. injection Hj as <-. unfold unserved. by destruct (serve c).
    + intros _. by apply Hflag.
    + unfold energy, teardown_energy. simpl. rewrite Ht. lia.
Qed.

(** A step of the teardown alone. *)
Ltac teardown_moves Ht :=
  split; [split; simpl; try done; try lia;
          try match goal with H : _ <> Elsewhere -> _ |- _ <> Elsewhere -> _ => intros _; by apply H end|unfold energy, teardown_energy; simpl; rewrite ?Ht; repeat case_match; lia].

Lemma teardown_goes_ok w w' :
  fabric_ok w -> teardown_goes w = Some w' -> fabric_ok w' /\ energy w' < energy w.
Proof.
  intros Hok Hs. unfold teardown_goes, notify, release in Hs.
  destruct (teardown w) as [|k m tells| | | | |] eqn:Ht; [| | | | | |done].
  2: destruct tells, m as [|m].
  4: { destruct (cores w !! k) as [c|] eqn:Hk; injection Hs as <-; [by apply closes_ok|].
       apply lookup_ge_None in Hk. destruct Hok as [Hc He Hcl Hf Hq Hw Hne]. rewrite Ht in *. teardown_moves Ht.
       intros j d Hj _. apply (Hcl j d Hj). apply lookup_lt_Some in Hj. lia. }
  all: destruct Hok as [Hc He Hcl Hf Hq Hw Hne]; rewrite Ht in *; simpl in Hc.
  - injection Hs as <-. teardown_moves Ht.
    intros j d Hj. pose proof (He j d Hj) as Hd. unfold core_ok in *. simpl. destruct (serve d); naive_solver.
  - injection Hs as <-. teardown_moves Ht.
  - injection Hs as <-. teardown_moves Ht.
  - injection Hs as <-. teardown_moves Ht.
  - injection Hs as <-. destruct (alive w =? 0) eqn:Ha; teardown_moves Ht.
  - injection Hs as <-. teardown_moves Ht.
  - injection Hs as <-. destruct (Nat.eqb_spec (alive w) 0); teardown_moves Ht.
  - destruct (notified w) eqn:Hn; [|done]. injection Hs as <-. teardown_moves Ht.
Qed.

Definition starts_one (t : Turn) : bool := match t with TakesGuard => true | _ => false end.

Lemma fabric_step_ok w t w' :
  fabric_ok w -> step w t = Some w' -> fabric_ok w' /\ (starts_one t = false -> energy w' < energy w).
Proof.
  intros Hok Hs.
  assert (Hcore : forall i, core_of t = Some i ->
    (i ← core_of t; c ← cores w !! i; '(w, c) ← core_goes w t i c; Some (set_cores w (<[i := c]> (cores w)))) =
    Some w' -> fabric_ok w' /\ (starts_one t = false -> energy w' < energy w)).
  { intros i -> Hb. simpl in Hb. destruct (cores w !! i) as [c|] eqn:Hi; [|done]. simpl in Hb.
    destruct (core_goes w t i c) as [[v c']|] eqn:Hg; [|done]. injection Hb as <-.
    pose proof (core_step_ok _ _ _ _ _ _ Hok Hi Hg) as [? ?]. by split. }
  destruct t; try (by eapply Hcore); clear Hcore; simpl in Hs.
  - injection Hs as <-. split; [|done]. destruct Hok as [Hc He Hcl Hf Hq Hw Hne]. split; simpl; try done; [lia|].
    intros; left; lia.
  - pose proof (mails_ok _ _ _ _ Hok Hs) as [? ?]. by split.
  - destruct (dropping w) as [|n] eqn:Hd; [done|]. injection Hs as <-.
    pose proof (released_same (set_dropping w n)) as (Hc & Hh & Ht & Hn & Hu & Hdr & Hst & Hsd).
    pose proof (released_told (set_dropping w n)) as [Hto1 Hto2].
    pose proof (released_alive (set_dropping w n)) as Ha. simpl in *. pose proof (counted w Hok) as Hcount.
    split; [split|intros _].
    + rewrite Ha, Hh, Hdr, Ht, Hc. lia.
    + rewrite Hc, Hu. apply Hok.
    + rewrite Hc, Ht. apply Hok.
    + rewrite Ht, Hu. apply Hok.
    + rewrite Hsd. apply Hok.
    + rewrite Ht, Hn, Ha. intros Hsl Hno. destruct (wakes w Hok Hsl Hno); [|lia].
      destruct (decide (alive w = 1)); [right; auto|left; lia].
    + rewrite Hc. apply Hok.
    + unfold energy, teardown_energy. rewrite Hc, Hh, Ht, Hn, Hdr, Hst, Hd. lia.
  - destruct (notifying w) as [|n] eqn:Hn; [done|]. injection Hs as <-.
    pose proof (notify_ok w n Hok Hn) as [? ?]. by split.
  - destruct (stop w) eqn:Hst; [done|]. injection Hs as <-. destruct Hok as [Hc He Hcl Hf Hq Hw Hne].
    split; [by split|intros _]. unfold energy, teardown_energy. simpl. rewrite Hst. lia.
  - pose proof (teardown_goes_ok _ _ Hok Hs) as [? ?]. by split.
Qed.

Lemma fabric_steps_ok w ts w' :
  fabric_ok w -> steps w ts = Some w' ->
  fabric_ok w' /\ (Forall (fun t => starts_one t = false) ts -> energy w' + length ts <= energy w).
Proof.
  revert w. induction ts as [|t ts IH]; intros w Hok Hs; simpl in Hs.
  - injection Hs as <-. split; [done|]. simpl. lia.
  - destruct (step w t) as [v|] eqn:Ht; [|done]. simpl in Hs.
    pose proof (fabric_step_ok _ _ _ Hok Ht) as [Hv Hen]. pose proof (IH v Hv Hs) as [Hw' Hens]. split; [done|].
    intros [Hone Hall]%Forall_cons. specialize (Hen Hone). specialize (Hens Hall). simpl. lia.
Qed.

Lemma sum_list_pos {A} (f : A -> nat) l : 0 < sum_list_with f l -> exists i x, l !! i = Some x /\ 0 < f x.
Proof.
  induction l as [|x l IH]; simpl; [lia|]. intros H. destruct (decide (0 < f x)); [by exists 0, x|].
  destruct IH as (i & y & ? & ?); [lia|]. by exists (S i), y.
Qed.

Lemma core_turn w t i c :
  core_of t = Some i -> cores w !! i = Some c -> is_Some (core_goes w t i c) -> exists w', step w t = Some w'.
Proof.
  intros Ht Hi [[v c'] Hgo]. exists (set_cores v (<[i := c']> (cores v))).
  destruct t; try discriminate Ht; injection Ht as ->; cbn -[core_goes]; rewrite Hi; cbn -[core_goes];
    by rewrite Hgo.
Qed.

(** A core that holds a guard, once the mailboxes of the others are closed. *)
Lemma holder_moves w :
  fabric_ok w -> match teardown w with Elsewhere | Closing _ _ _ => False | _ => True end ->
  0 < sum_list_with held (cores w) -> exists t w', step w t = Some w' /\ starts_one t = false.
Proof.
  intros Hok Hph (i & c & Hi & Hc)%sum_list_pos. pose proof (each_core w Hok i c Hi) as Hcok.
  destruct (running c) as [|m r] eqn:Hr.
  - destruct (mail c) as [|m q] eqn:Hm; [unfold held in Hc; rewrite Hm, Hr in Hc; simpl in Hc; lia|].
    unfold mail in Hm. destruct (inbox c) as [q'|] eqn:Hin; [|done]. simpl in Hm. subst q'.
    assert (Hgo : is_Some (core_goes w (Starts i) i c)).
    { unfold core_goes, core_ok in *.
      destruct (serve c) eqn:Hsv; rewrite ?Hsv, ?Hin in *; try (by eauto); [|by destruct Hcok].
      pose proof (closed w Hok i c Hi) as Hcl. unfold unserved in Hcl. rewrite Hsv, Hin in Hcl.
      discriminate Hcl. by destruct (teardown w). }
    destruct (core_turn w (Starts i) i c eq_refl Hi Hgo) as [w' Hw']. by exists (Starts i), w'.
  - assert (Hgo : is_Some (core_goes w (Ends i 0 false) i c)).
    { unfold core_goes. rewrite Hr. destruct (serve c); by eauto. }
    destruct (core_turn w (Ends i 0 false) i c eq_refl Hi Hgo) as [w' Hw']. by exists (Ends i 0 false), w'.
Qed.

(** A teardown that is asked and has not returned, or something it waits for, can move. *)
Lemma teardown_not_stuck w :
  fabric_ok w -> teardown w <> Elsewhere -> teardown w <> Returned ->
  exists t w', step w t = Some w' /\ starts_one t = false.
Proof.
  intros Hok Hb Hr.
  destruct (teardown_goes w) as [w'|] eqn:Hgo; [by exists TearsDown, w'|].
  assert (Hsl : teardown w = Asleep /\ notified w = false).
  { unfold teardown_goes, release in Hgo. destruct (teardown w) as [|k [|m] []| | | | |] eqn:Ht; try done.
    - by destruct (cores w !! k).
    - by destruct (notified w). }
  destruct Hsl as [Ht Hn].
  destruct (notifying w) as [|n] eqn:Hno;
    [|exists Notifies; eexists; split; [simpl; by rewrite Hno|done]].
  destruct (wakes w Hok Ht Hn) as [Ha|]; [|lia]. pose proof (counted w Hok) as Hc. rewrite Ht in Hc. simpl in Hc.
  destruct (dropping w) as [|n] eqn:Hd; [|exists Releases; eexists; split; [simpl; by rewrite Hd|done]].
  destruct (in_hand w) as [|n] eqn:Hh.
  - destruct (holder_moves w Hok ltac:(by rewrite Ht)) as (t & w' & ? & ?); [lia|by exists t, w'].
  - pose proof (some_core w Hok) as Hne. destruct (cores w) as [|c cs] eqn:Hcs; [done|].
    exists (Mails 0 ""%string). eexists. split; [|done]. simpl. unfold run_on. rewrite Hh, Hcs. reflexivity.
Qed.

Lemma teardown_stays_asked w w' : teardown_goes w = Some w' -> teardown w' <> Elsewhere.
Proof.
  intros Hs. unfold teardown_goes, notify, release in Hs.
  destruct (teardown w) as [|k [|m] []| | | | |] eqn:Ht; rewrite ?Ht in Hs; try (injection Hs as <-; done); try done.
  - destruct (cores w !! k) as [c|]; injection Hs as <-; [by destruct (serve c)|done].
  - injection Hs as <-. simpl. by destruct (alive w =? 0).
  - injection Hs as <-. simpl. by destruct (alive w =? 0).
  - destruct (notified w); [|done]. by injection Hs as <-.
Qed.
Lemma core_keeps_teardown w t i c w' c' : core_goes w t i c = Some (w', c') -> teardown w' = teardown w.
Proof.
  intros Hs. unfold core_goes, serves, released, release in Hs.
  destruct t; try discriminate Hs; repeat case_match; try discriminate Hs; simplify_eq; done.
Qed.
Lemma step_stays_asked w t w' : step w t = Some w' -> teardown w <> Elsewhere -> teardown w' <> Elsewhere.
Proof.
  intros Hs Hb.
  assert (Hcore : forall i, core_of t = Some i ->
    (i ← core_of t; c ← cores w !! i; '(w, c) ← core_goes w t i c; Some (set_cores w (<[i := c]> (cores w)))) =
    Some w' -> teardown w' <> Elsewhere).
  { intros i -> H. simpl in H. destruct (cores w !! i) as [c|]; [|done]. simpl in H.
    destruct (core_goes w t i c) as [[v c']|] eqn:Hg; [|done]. injection H as <-. simpl.
    by rewrite (core_keeps_teardown _ _ _ _ _ _ Hg). }
  destruct t; try (by eapply Hcore); clear Hcore; simpl in Hs.
  - by injection Hs as <-.
  - unfold run_on in Hs. repeat case_match; try discriminate Hs; simplify_eq; done.
  - unfold released, release in Hs. repeat case_match; try discriminate Hs; simplify_eq; done.
  - unfold notify in Hs. repeat case_match; try discriminate Hs; simplify_eq; done.
  - repeat case_match; try discriminate Hs; simplify_eq; done.
  - by eapply teardown_stays_asked.
Qed.
Lemma asked_stays w ts w' : steps w ts = Some w' -> teardown w <> Elsewhere -> teardown w' <> Elsewhere.
Proof.
  revert w. induction ts as [|t ts IH]; intros w Hs Hb; simpl in Hs; [by injection Hs as <-|].
  destruct (step w t) as [v|] eqn:Ht; [|done]. simpl in Hs. apply (IH v Hs). by eapply step_stays_asked.
Qed.

(** Nothing of a worker is left: none runs, none waits in a mailbox, none is on its way to one. *)
Definition no_worker (w : World) : Prop :=
  in_hand w = 0 /\ dropping w = 0 /\ forall i c, cores w !! i = Some c -> running c = [] /\ mail c = [].

Lemma no_worker_at_zero w : fabric_ok w -> alive w = 0 -> no_worker w.
Proof.
  intros Hok Ha. pose proof (counted w Hok) as Hc. split_and!; [lia|lia|]. intros i c Hi.
  pose proof (sum_list_delete held _ _ _ Hi) as Hd. unfold held in Hd at 1.
  split; [destruct (running c)|destruct (mail c)]; try done; simpl in Hd; lia.
Qed.

(** C26. The wait of the teardown ends at the right moment: whatever the cores, their workers and the
    startup of further workers did, panics and dropped cores included, [workers_gone] returns in a
    state where no worker exists, neither running, nor mailed to a core and not started, nor on its way
    to a mailbox; and no core that comes to serve its mailbox after the teardown closed it takes that
    for a mailbox served twice. *)
Theorem workers_gone_is_true count ts w w' :
  steps (open count) ts = Some w ->
  step w TearsDown = Some w' -> teardown w' = Returned ->
  no_worker w' /\ AlreadyServed ∉ said w'.
Proof.
  intros Hs Hst Hr. pose proof (fabric_steps_ok _ _ _ (open_ok count) Hs) as [Hok _].
  pose proof (fabric_step_ok _ _ _ Hok Hst) as [Hok' _]. split; [|apply (quiet w' Hok')].
  apply no_worker_at_zero; [done|]. simpl in Hst. unfold teardown_goes, notify, release in Hst.
  destruct (teardown w) as [|k [|m] []| | | | |] eqn:Ht; try done;
    try (rewrite ?Ht in Hst; injection Hst as <-; done).
  - destruct (cores w !! k) as [c|]; injection Hst as <-; [by destruct (serve c)|done].
  - injection Hst as <-. destruct (Nat.eqb_spec (alive w) 0); done.
  - injection Hst as <-. destruct (Nat.eqb_spec (alive w) 0); done.
  - destruct (notified w); [|done]. by injection Hst as <-.
Qed.

(** And it always ends: once no further worker is started, a service whose teardown waits takes a
    bounded number of further steps, and where none is left to take the wait has returned.  So no last
    guard is released unnoticed, and the mail of a core that never came to serve holds nothing up. *)
Theorem workers_gone_ends count ts w more w' :
  steps (open count) ts = Some w -> teardown w <> Elsewhere ->
  steps w more = Some w' -> Forall (fun t => starts_one t = false) more ->
  length more <= energy w /\
  ((forall t, starts_one t = false -> step w' t = None) -> teardown w' = Returned).
Proof.
  intros Hs Hb Hm Hall. pose proof (fabric_steps_ok _ _ _ (open_ok count) Hs) as [Hok _].
  pose proof (fabric_steps_ok _ _ _ Hok Hm) as [Hok' He]. specialize (He Hall). split; [lia|].
  intros Hstuck. assert (Hr : teardown w' = Returned \/ teardown w' <> Returned)
    by (destruct (teardown w'); by (left + right)).
  destruct Hr as [Hr|Hr]; [done|]. exfalso.
  destruct (teardown_not_stuck w' Hok') as (t & v & Ht & Ht1); [|done|].
  - by eapply asked_stays.
  - by rewrite (Hstuck t Ht1) in Ht.
Qed.

(** Two cores with a worker of one subscription each; core 1 never comes to serve, and the worker of
    core 0 panics while the teardown sleeps. *)
Definition shutdown_of_two : list Turn :=
  [TakesGuard; Mails 1 "orders"%string; TakesGuard; Mails 0 "orders"%string; Serves 0; Starts 0; TearsDown].
Definition until_asleep : list Turn := repeat TearsDown 7 ++ [Ends 0 0 true; Notifies; TearsDown].
Definition after_turns (ts : list Turn) : World := default (open 2) (steps (open 2) ts).

Lemma workers_gone_is_true_witness :
  let w := after_turns (shutdown_of_two ++ until_asleep) in
  let w' := default w (step w TearsDown) in
  no_worker w' /\ AlreadyServed ∉ said w'.
Proof.
  intros w w'. apply (workers_gone_is_true 2 (shutdown_of_two ++ until_asleep) w w'); vm_compute; reflexivity.
Defined.

Lemma workers_gone_ends_witness :
  let w := after_turns shutdown_of_two in
  let w' := after_turns (shutdown_of_two ++ until_asleep ++ [TearsDown]) in
  length (until_asleep ++ [TearsDown]) <= energy w /\
  ((forall t, starts_one t = false -> step w' t = None) -> teardown w' = Returned).
Proof.
  intros w w'. apply (workers_gone_ends 2 shutdown_of_two w (until_asleep ++ [TearsDown]) w').
  - vm_compute; reflexivity.
  - vm_compute; discriminate.
  - vm_compute; reflexivity.
  - repeat (constructor; [reflexivity|]). constructor.
Defined.

End Fabric.
