(* ===== verification/StopSignal.v ===== *)
(** * The shutdown signal of a compio service ([runtime-compio/src/stop.rs])

    The flag every dispatch loop reads, the wait a parked one keeps on it, and the failure that
    raised it, shared by every core: raised and waited for one access at a time.  The event the waits
    listen to is [event-listener]'s, used as it is documented: a listener is notified by what comes
    after it is made, a notified listener is ready at its next poll, and a notification wakes the
    task of every listener that was polled. *)
From S2P Require Import Prelude RustStd Health.

Module StopSignal.
Import Health(SubscriptionEnd(..)).

(** ** The signal *)

(** A listener of the event: made, polled by its task, notified. *)
Inductive Listener := Made | Polled | Notified.

Record State := mk_state {
  cancelled : bool;
  stopping : bool;
  failure : option string;
  on_end : SubscriptionEnd;
}.
Definition new_state (on_end : SubscriptionEnd) : State := mk_state false false None on_end.
Definition begin (s : State) : State := mk_state (cancelled s) true (failure s) (on_end s).
(** [get_or_insert_with]: the first failure is kept. *)
Definition record (s : State) (reason : string) : State :=
  mk_state (cancelled s) (stopping s) (match failure s with Some _ => failure s | None => Some reason end) (on_end s).
Definition raise (s : State) : State := mk_state true (stopping s) (failure s) (on_end s).

(** [Halt::fail], in one thread: the failure is recorded, then the flag stored; the notification
    that follows is the raiser's last step below. *)
Definition fail (s : State) (subscription reason : string) : State :=
  raise (record s (subscription +:+ ": " +:+ reason)).
Definition stream_ended (s : State) (subscription : string) : State :=
  if cancelled s || stopping s then s
  else match on_end s with
       | FailFast => fail s subscription "the subscription's stream ended"
       | Log => s
       end.

(** ** The waits and the raisers, interleaved *)

(** Where a wait is in [Cancelled::poll]: about to read the flag, about to listen, about to poll its
    listener, parked, done. *)
Inductive Pc := Reading | Listening | Polling | Parked | Done.
Record Wait := mk_wait { pc : Pc; listener : option Listener; woken : bool }.

(** A raiser between its store and its notification. *)
Record World := mk_world { state : State; waits : list Wait; raising : nat }.

Definition notified (w : Wait) : Wait :=
  match listener w with
  | Some Polled => mk_wait (pc w) (Some Notified) true
  | Some _ => mk_wait (pc w) (Some Notified) (woken w)
  | None => w
  end.

Inductive step : World -> World -> Prop :=
  | begins s : step s (mk_world (begin (state s)) (waits s) (raising s))
  | records s reason : step s (mk_world (record (state s) reason) (waits s) (raising s))
  | raises s : step s (mk_world (raise (state s)) (waits s) (S (raising s)))
  | notifies s n : raising s = S n -> step s (mk_world (state s) (notified <$> waits s) n)
  | makes s : step s (mk_world (state s) (waits s ++ [mk_wait Reading None false]) (raising s))
  | repolls s i w : waits s !! i = Some w -> pc w = Parked ->
      step s (mk_world (state s) (<[i := mk_wait Reading (listener w) false]> (waits s)) (raising s))
  | reads s i w : waits s !! i = Some w -> pc w = Reading ->
      step s (mk_world (state s) (<[i := mk_wait (if cancelled (state s) then Done
        else match listener w with None => Listening | Some _ => Polling end) (listener w) (woken w)]> (waits s)) (raising s))
  | listens s i w : waits s !! i = Some w -> pc w = Listening ->
      step s (mk_world (state s) (<[i := mk_wait Reading (Some Made) (woken w)]> (waits s)) (raising s))
  | polls s i w l : waits s !! i = Some w -> pc w = Polling -> listener w = Some l ->
      step s (mk_world (state s) (<[i := match l with
        | Notified => mk_wait Reading None (woken w)
        | _ => mk_wait Parked (Some Polled) (woken w)
        end]> (waits s)) (raising s))
  | drops s i : step s (mk_world (state s) (delete i (waits s)) (raising s)).
Definition initial (on_end : SubscriptionEnd) : World := mk_world (new_state on_end) [] 0.

(** ** No wait sleeps through the signal *)

Definition wait_ok (s : World) (w : Wait) : Prop :=
  match pc w with
  | Reading => True
  | Listening => listener w = None
  | Polling => is_Some (listener w) /\ (cancelled (state s) = true -> raising s <> 0 \/ listener w = Some Notified)
  | Parked => exists l, listener w = Some l /\ (l = Polled \/ (l = Notified /\ woken w = true)) /\
      (cancelled (state s) = true -> woken w = false -> raising s <> 0)
  | Done => cancelled (state s) = true
  end.

Lemma wait_grows s s' w : state s = state s' \/ (cancelled (state s') = true /\ raising s' <> 0) \/
    (cancelled (state s') = cancelled (state s)) -> (raising s <= raising s') -> wait_ok s w -> wait_ok s' w.
Proof.
  intros Hst Hr. unfold wait_ok. destruct (pc w); try done.
  - intros [Hl H]. split; [done|]. intros Hc. destruct Hst as [Hst|[[? ?]|Hst]]; [rewrite Hst in H|by left|rewrite <- Hst in H];
      destruct (H Hc); auto; left; lia.
  - intros (l & Hl & Hw & H). exists l. split_and!; [done|done|]. intros Hc Hwk.
    destruct Hst as [Hst|[[? ?]|Hst]]; [rewrite Hst in H|done|rewrite <- Hst in H]; specialize (H Hc Hwk); lia.
  - intros Hd. destruct Hst as [Hst|[[? ?]|Hst]]; congruence.
Qed.

Definition sound (s : World) : Prop := Forall (wait_ok s) (waits s).

Lemma notified_wait_ok s n w : raising s = S n -> wait_ok s w -> wait_ok (mk_world (state s) (notified <$> waits s) n) (notified w).
Proof.
  intros Hr. unfold wait_ok, notified. destruct w as [p l k]. cbn. destruct p; cbn.
  - by destruct l as [[]|].
  - by intros ->.
  - intros [[l' ->] H]. destruct l'; cbn; (split; [by eexists|by right]).
  - intros (l' & -> & [-> |[-> ->]] & H); cbn; eexists; split_and!; try done; by right.
  - by destruct l as [[]|].
Qed.

Lemma sound_waits_step s s' : sound s -> step s s' -> sound s'.
Proof.
  intros Hs Hstep. unfold sound in *.
  assert (Hat : forall i w, waits s !! i = Some w -> wait_ok s w) by (intros i w Hi; by apply (Forall_lookup_1 _ _ _ _ Hs Hi)).
  destruct Hstep as [s|s reason|s|s n Hn|s|s i w Hi Hp|s i w Hi Hp|s i w Hi Hp|s i w l Hi Hp Hl|s i]; cbn [waits].
  - eapply Forall_impl; [exact Hs|]. intros w. apply wait_grows; [right; by right|done].
  - eapply Forall_impl; [exact Hs|]. intros w. apply wait_grows; [right; by right|done].
  - eapply Forall_impl; [exact Hs|]. intros w. apply wait_grows; [right; by left|cbn; lia].
  - apply Forall_fmap. eapply Forall_impl; [exact Hs|]. intros w. by apply notified_wait_ok.
  - apply Forall_app_2; [|by repeat constructor]. done.
  - by apply Forall_insert.
  - apply Forall_insert; [done|]. unfold wait_ok. cbn. destruct (cancelled (state s)) eqn:Hc; [done|].
    destruct (listener w) eqn:Hl; cbn; [|done]. split; [by eexists|congruence].
  - by apply Forall_insert.
  - specialize (Hat i w Hi). unfold wait_ok in Hat. rewrite Hp, Hl in Hat. destruct Hat as [_ H].
    apply Forall_insert; [done|]. destruct l; [| |done]; unfold wait_ok; cbn; eexists; split_and!; try done; try (by left);
      intros Hc _; by destruct (H Hc).
  - by apply Forall_delete.
Qed.

Lemma reachable_waits on_end_ s : rtc step (initial on_end_) s -> sound s.
Proof. apply (rtc_ind_r sound); [by apply Forall_nil|intros; by eapply sound_waits_step]. Qed.

(** No loop of a compio service sleeps through its shutdown: whatever cores raise the signal and
    however their waits interleave with it, once no raiser is between its store and its notification
    a wait that is parked and was not woken waits for a signal nobody raised; and a wait that is done
    saw it raised. *)
Theorem stop_reaches_every_wait on_end_ s i w :
  rtc step (initial on_end_) s -> waits s !! i = Some w ->
  (pc w = Parked -> woken w = false -> raising s = 0 -> cancelled (state s) = false) /\
  (pc w = Done -> cancelled (state s) = true).
Proof.
  intros Hr Hi. pose proof (Forall_lookup_1 _ _ _ _ (reachable_waits _ s Hr) Hi) as Hw. unfold wait_ok in Hw. split.
  - intros Hp Hwk Hz. rewrite Hp in Hw. destruct Hw as (l & _ & _ & H). destruct (cancelled (state s)); [by destruct (H eq_refl Hwk)|done].
  - intros Hp. by rewrite Hp in Hw.
Qed.

(** The failure reported is the first one recorded, whatever fails after it. *)
Lemma first_failure_is_kept s reasons : failure (foldl record s reasons) = match failure s with Some f => Some f | None => head reasons end.
Proof.
  revert s. induction reasons as [|r l IH]; intros s; cbn [foldl head]; [by destruct (failure s)|]. rewrite IH. cbn. by destruct (failure s).
Qed.

(** A stream that ends under a shutdown, begun or raised, fails nothing; one that ends outside it
    raises the signal exactly where the policy is to fail. *)
Lemma ending_under_shutdown s subscription : cancelled s = true \/ stopping s = true -> stream_ended s subscription = s.
Proof. unfold stream_ended. intros [-> | ->]; [done|]. by rewrite orb_true_r. Qed.
Lemma ending_outside_shutdown s subscription : cancelled s = false -> stopping s = false ->
  cancelled (stream_ended s subscription) = match on_end s with FailFast => true | Log => false end.
Proof. unfold stream_ended. intros Hc Hs. rewrite Hc, Hs. by destruct (on_end s). Qed.

(** What a failing loop does to the world is its three accesses, one after another. *)
Lemma fail_is_three_steps s subscription reason :
  rtc step s (mk_world (fail (state s) subscription reason) (notified <$> waits s) (raising s)).
Proof.
  eapply rtc_l; [apply (records s (subscription +:+ ": " +:+ reason))|].
  eapply rtc_l; [apply raises|]. eapply rtc_l; [by eapply notifies|]. apply rtc_refl.
Qed.

(** Once the signal is raised, a wait polled again is done in one read. *)
Lemma raised_wait_is_done s i w : waits s !! i = Some w -> pc w = Reading -> cancelled (state s) = true ->
  exists s', step s s' /\ option_map pc (waits s' !! i) = Some Done.
Proof.
  intros Hi Hp Hc. eexists. split; [by apply (reads s i w)|]. cbn [waits].
  rewrite list_lookup_insert_eq by (by eapply lookup_lt_Some). by rewrite Hc.
Qed.

(** A loop parks between another core's store and its notification, and is woken by it. *)
Definition parks_in_between : World := mk_world (raise (new_state FailFast)) [mk_wait Parked (Some Polled) false] 1.
Lemma parks_in_between_reachable : rtc step (initial FailFast) parks_in_between.
Proof.
  eapply rtc_l; [apply makes|]. eapply rtc_l; [by apply (reads _ 0)|]. eapply rtc_l; [by apply (listens _ 0)|].
  eapply rtc_l; [by apply (reads _ 0)|]. eapply rtc_l; [apply raises|].
  eapply rtc_l; [by apply (polls _ 0)|]. apply rtc_refl.
Qed.
End StopSignal.
