(* ===== verification/PollStats.v ===== *)
(** * Poll-time diagnostics ([runtime/src/poll_diagnostics.rs])

    How long a subscription's handler computes between two awaits: samples shared by every worker of
    the subscription, recorded one atomic access at a time, with the moving average whose crossing of
    the threshold is warned about once; the sampler that times one poll in N; and the registry of
    subscriptions.  Words are at their width of 64 bits.  The quantile of the report, computed in
    floating point, and the process's clock are left out: a sample is its nanoseconds. *)
From S2P Require Import Prelude RustStd.

Module PollStats.
#[local] Open Scope N_scope.

Definition WINDOW : N := 16.
Definition OVER : N := 2 ^ 63.
Definition BUCKET_BOUNDS_NS : list N :=
  [1000; 2000; 5000; 10000; 20000; 50000; 100000; 200000; 500000; 1000000; 2000000; 5000000; 10000000; 20000000; 50000000;
   100000000; 200000000; 500000000; 1000000000; 2000000000; 5000000000; 10000000000].
Definition BUCKETS : nat := S (length BUCKET_BOUNDS_NS).

(** [saturating_nanos], of a duration in nanoseconds. *)
Definition saturating_nanos (nanos : N) : N := if nanos <=? u64_max then nanos else u64_max.

(** [bucket_of]: the bounds below the sample ([partition_point] over a sorted array). *)
Fixpoint partition_point (l : list N) (ns : N) : nat :=
  match l with
  | bound :: l => if bound <? ns then S (partition_point l ns) else O
  | [] => O
  end.
Definition bucket_of (ns : N) : nat := partition_point BUCKET_BOUNDS_NS ns.

(** The closure of the update: what it makes of the word it replaces.  A subtraction is of the
    smaller from the larger, and the sum stays below the larger. *)
Definition weight (taken : N) : N := N.min taken WINDOW.
Definition moved (average ns taken : N) : N :=
  if average <=? ns then average + (ns - average) / weight taken else average - (average - ns) / weight taken.
Definition step (threshold_ns taken : N) (warnable : bool) (ns state : N) : N :=
  let average := moved (N.ldiff state OVER) ns taken in
  let over :=
    if (average <=? threshold_ns) || negb warnable then 0
    else if WINDOW <=? taken then OVER
    else N.land state OVER in
  N.lor average over.
Definition warns (previous current : N) : bool := (N.land previous OVER =? 0) && negb (N.land current OVER =? 0).

(** [ns.min(!OVER)]. *)
Definition capped (ns : N) : N := N.min ns (OVER - 1).

(** ** The shared words, and who is in the middle of a record *)

Record PollStats := mk_stats {
  threshold_ns : N;
  samples : N;
  sum_ns : N;
  average_ns : N;
  buckets : list N;
  on_app_runtime : N;
}.
Definition new_stats (threshold : N) : PollStats := mk_stats (saturating_nanos threshold) 0 0 0 (replicate BUCKETS 0) 0.

(** [AtomicU64::fetch_add] wraps. *)
Definition fetch_add (word by_ : N) : N := wrapping_add u64_max word by_.

(** The accesses of one [record], in order. *)
Inductive Pc :=
  | Idle
  | Counted (ns taken : N)
  | Summed (ns taken : N)
  | Filed (ns taken : N)
  | Looked (ns taken : N) (warnable : bool).

(** One update of the average, as it was made. *)
Record Update := mk_update { u_ns : N; u_taken : N; u_warnable : bool; previous : N; current : N }.

Record World := mk_world {
  stats : PollStats;
  recorders : list Pc;
  (** ghosts: the samples counted so far, in order, and the updates of the average, latest first *)
  taken_ns : list N;
  updates : list Update;
}.

Inductive access : World -> World -> Prop :=
  | counts s t ns : recorders s !! t = Some Idle ->
      access s (mk_world
        (mk_stats (threshold_ns (stats s)) (fetch_add (samples (stats s)) 1) (sum_ns (stats s)) (average_ns (stats s)) (buckets (stats s))
           (on_app_runtime (stats s)))
        (<[t := Counted ns (samples (stats s) + 1)]> (recorders s)) (taken_ns s ++ [ns]) (updates s))
  | sums s t ns taken : recorders s !! t = Some (Counted ns taken) ->
      access s (mk_world
        (mk_stats (threshold_ns (stats s)) (samples (stats s)) (fetch_add (sum_ns (stats s)) ns) (average_ns (stats s)) (buckets (stats s))
           (on_app_runtime (stats s)))
        (<[t := Summed ns taken]> (recorders s)) (taken_ns s) (updates s))
  | files s t ns taken : recorders s !! t = Some (Summed ns taken) ->
      access s (mk_world
        (mk_stats (threshold_ns (stats s)) (samples (stats s)) (sum_ns (stats s)) (average_ns (stats s))
           (alter (fun count => fetch_add count 1) (bucket_of ns) (buckets (stats s))) (on_app_runtime (stats s)))
        (<[t := Filed ns taken]> (recorders s)) (taken_ns s) (updates s))
  | looks s t ns taken : recorders s !! t = Some (Filed ns taken) ->
      access s (mk_world (stats s) (<[t := Looked (capped ns) taken (0 <? on_app_runtime (stats s))]> (recorders s)) (taken_ns s) (updates s))
  | moves s t ns taken warnable : recorders s !! t = Some (Looked ns taken warnable) ->
      let next := step (threshold_ns (stats s)) taken warnable ns (average_ns (stats s)) in
      access s (mk_world
        (mk_stats (threshold_ns (stats s)) (samples (stats s)) (sum_ns (stats s)) next (buckets (stats s)) (on_app_runtime (stats s)))
        (<[t := Idle]> (recorders s)) (taken_ns s) (mk_update ns taken warnable (average_ns (stats s)) next :: updates s))
  | registers s : on_app_runtime (stats s) < u64_max ->
      access s (mk_world
        (mk_stats (threshold_ns (stats s)) (samples (stats s)) (sum_ns (stats s)) (average_ns (stats s)) (buckets (stats s))
           (on_app_runtime (stats s) + 1)) (recorders s) (taken_ns s) (updates s))
  | leaves s : 0 < on_app_runtime (stats s) ->
      access s (mk_world
        (mk_stats (threshold_ns (stats s)) (samples (stats s)) (sum_ns (stats s)) (average_ns (stats s)) (buckets (stats s))
           (on_app_runtime (stats s) - 1)) (recorders s) (taken_ns s) (updates s)).

Definition initial (threshold : N) (workers : nat) : World := mk_world (new_stats threshold) (replicate workers Idle) [] [].

(** ** The word of the average *)

Definition flag (word : N) : bool := negb (N.land word OVER =? 0).
Definition average (word : N) : N := N.ldiff word OVER.

Lemma over_bit n : N.testbit OVER n = (n =? 63).
Proof. unfold OVER. by rewrite N.pow2_bits_eqb, N.eqb_sym. Qed.

Lemma small_bits a : a < OVER -> N.ldiff a OVER = a /\ N.land a OVER = 0.
Proof.
  intros Ha. assert (Hbit : N.testbit a 63 = false).
  { destruct (N.eq_dec a 0) as [->|Hz]; [done|]. apply N.bits_above_log2. apply N.log2_lt_pow2; unfold OVER in Ha; lia. }
  split; apply N.bits_inj; intros n; rewrite ?N.ldiff_spec, ?N.land_spec, over_bit, ?N.bits_0;
    destruct (N.eqb_spec n 63) as [->|]; rewrite ?Hbit, ?andb_true_r, ?andb_false_r; done.
Qed.

Lemma word_parts a o : a < OVER -> (o = 0 \/ o = OVER) -> average (N.lor a o) = a /\ flag (N.lor a o) = negb (o =? 0).
Proof.
  intros Ha Ho. destruct (small_bits a Ha) as [H1 H2]. unfold average, flag.
  rewrite N.land_lor_distr_l, H2, N.lor_0_l. assert (Hd : N.ldiff (N.lor a o) OVER = N.lor (N.ldiff a OVER) (N.ldiff o OVER)).
  { apply N.bits_inj. intros n. rewrite !N.ldiff_spec, !N.lor_spec, !N.ldiff_spec. by destruct (N.testbit a n), (N.testbit o n), (N.testbit OVER n). }
  rewrite Hd, H1. destruct Ho as [-> | ->]; [by rewrite N.ldiff_0_l, N.lor_0_r|]. by rewrite N.ldiff_diag, N.lor_0_r.
Qed.

Lemma land_over word : N.land word OVER = if flag word then OVER else 0.
Proof.
  unfold flag. destruct (N.eqb_spec (N.land word OVER) 0) as [->|Hne]; [done|]. cbn [negb].
  apply N.bits_inj. intros n. rewrite N.land_spec, over_bit. destruct (N.eqb_spec n 63) as [->|]; [|by rewrite andb_false_r].
  rewrite andb_true_r. destruct (N.testbit word 63) eqn:Hb; [done|]. destruct Hne. apply N.bits_inj. intros m.
  rewrite N.land_spec, over_bit, N.bits_0. destruct (N.eqb_spec m 63) as [->|]; [by rewrite Hb|by rewrite andb_false_r].
Qed.

Lemma div_small a b : 0 < b -> a / b <= a.
Proof. intros Hb. apply N.Div0.div_le_upper_bound. rewrite <- (N.mul_1_l a) at 1. apply N.mul_le_mono_r. lia. Qed.

(** A sample moves the average towards itself, and no further: at most a sixteenth of the way, once
    the window is full. *)
Lemma moved_between a ns taken : 0 < taken -> N.min a ns <= moved a ns taken <= N.max a ns.
Proof.
  intros Ht. unfold moved. assert (Hw : 0 < weight taken) by (unfold weight, WINDOW; lia).
  destruct (N.leb_spec a ns) as [Hle|Hlt].
  - pose proof (div_small (ns - a) (weight taken) Hw).
    generalize dependent ((ns - a) / weight taken). intros q Hq. lia.
  - pose proof (div_small (a - ns) (weight taken) Hw).
    generalize dependent ((a - ns) / weight taken). intros q Hq. lia.
Qed.

Lemma step_parts threshold taken warnable ns state :
  0 < taken -> ns < OVER -> average state < OVER ->
  average (step threshold taken warnable ns state) = moved (average state) ns taken /\
  flag (step threshold taken warnable ns state) =
    (threshold <? moved (average state) ns taken) && warnable && ((WINDOW <=? taken) || flag state).
Proof.
  intros Ht Hns Ha. unfold step. fold (average state). pose proof (moved_between (average state) ns taken Ht) as Hm.
  rewrite land_over. match goal with |- context [N.lor ?a ?o] => destruct (word_parts a o) as [-> ->]; [lia| |] end.
  - destruct (_ || _); [by left|]. destruct (_ <=? _); [by right|]. destruct (flag state); [by right|by left].
  - split; [done|]. rewrite N.ltb_antisym. destruct (_ <=? threshold), warnable; cbn; try done.
    destruct (WINDOW <=? taken); [done|]. by destruct (flag state).
Qed.

(** ** What every run keeps *)

Definition largest (l : list N) : N := foldr N.max 0 (capped <$> l).

(** The chain of updates, latest first, from the word there is now back to the first. *)
Fixpoint chained (word : N) (l : list Update) : Prop :=
  match l with
  | [] => word = 0
  | u :: l => current u = word /\ chained (previous u) l
  end.

Definition pc_ok (s : World) (pc : Pc) : Prop :=
  match pc with
  | Idle => True
  | Counted ns taken | Summed ns taken | Filed ns taken => 0 < taken /\ capped ns <= largest (taken_ns s)
  | Looked ns taken _ => 0 < taken /\ ns <= largest (taken_ns s)
  end.
Definition update_ok (threshold : N) (u : Update) : Prop :=
  0 < u_taken u /\ u_ns u < OVER /\ average (previous u) < OVER /\ current u = step threshold (u_taken u) (u_warnable u) (u_ns u) (previous u).

Definition few (s : World) : Prop := N.of_nat (length (taken_ns s)) <= u64_max.
Record sound (s : World) : Prop := {
  s_samples : samples (stats s) = N.of_nat (length (taken_ns s));
  s_pcs : Forall (pc_ok s) (recorders s);
  s_average : average (average_ns (stats s)) <= largest (taken_ns s);
  s_chain : chained (average_ns (stats s)) (updates s);
  s_updates : Forall (update_ok (threshold_ns (stats s))) (updates s);
}.

Lemma largest_snoc l ns : largest (l ++ [ns]) = N.max (largest l) (capped ns).
Proof. unfold largest. induction l as [|x l IH]; cbn in *; [lia|]. rewrite IH. lia. Qed.

Lemma largest_small l : largest l < OVER.
Proof. unfold largest. induction l as [|x l IH]; cbn in *; [done|].
  assert (capped x < OVER) by (unfold capped, OVER; lia). lia.
Qed.

Lemma pc_grows s s' pc : largest (taken_ns s) <= largest (taken_ns s') -> pc_ok s pc -> pc_ok s' pc.
Proof. intros Hl. destruct pc; cbn [pc_ok]; intros Hp; try done; destruct Hp; split; (done || lia). Qed.

Lemma sound_access s s' : access s s' -> few s' -> sound s -> sound s'.
Proof.
  intros Hstep Hfew [Hs Hp Ha Hc Hu].
  assert (Hpc : forall t pc, recorders s !! t = Some pc -> pc_ok s pc) by (intros t pc Ht; by apply (Forall_lookup_1 _ _ _ _ Hp Ht)).
  destruct Hstep as [s t ns Ht|s t ns taken Ht|s t ns taken Ht|s t ns taken Ht|s t ns taken warnable Ht next|s Hr|s Hr];
    try (specialize (Hpc _ _ Ht)); split; cbn [stats samples sum_ns average_ns buckets threshold_ns taken_ns updates recorders]; try done.
  - unfold few in Hfew. cbn in Hfew. rewrite length_app in *. cbn in *. unfold fetch_add, wrapping_add, u64_max in *.
    rewrite Hs, N.mod_small by lia. lia.
  - apply Forall_insert; [|cbn [pc_ok taken_ns]; rewrite largest_snoc; split; lia].
    eapply Forall_impl; [exact Hp|]. intros pc. apply pc_grows. cbn [taken_ns]. rewrite largest_snoc. lia.
  - rewrite largest_snoc. lia.
  - by apply Forall_insert.
  - by apply Forall_insert.
  - by apply Forall_insert.
  - by apply Forall_insert.
  - destruct Hpc as [Htk Hns]. pose proof (largest_small (taken_ns s)). subst next.
    destruct (step_parts (threshold_ns (stats s)) taken warnable ns (average_ns (stats s)) Htk ltac:(lia) ltac:(lia)) as [-> _].
    pose proof (moved_between (average (average_ns (stats s))) ns taken Htk). lia.
  - destruct Hpc as [Htk Hns]. pose proof (largest_small (taken_ns s)). constructor; [|done]. split_and!; cbn; [done|lia|lia|done].
Qed.

Lemma few_back s s' : access s s' -> few s' -> few s.
Proof. intros Hstep. destruct Hstep; unfold few; cbn; try done. rewrite length_app. cbn. lia. Qed.

Lemma stats_sound threshold workers s : rtc access (initial threshold workers) s -> few s -> sound s.
Proof.
  revert s. apply (rtc_ind_r (fun s => few s -> sound s)).
  - intros _. split; cbn; try done; try lia. by apply Forall_replicate.
  - intros s s' _ Hstep IH Hfew. eapply sound_access; eauto using few_back.
Qed.

(** The average of a subscription stays what its samples allow: whatever the interleaving of its
    recorders it never passes the largest sample, so it never reaches the bit that marks it, and no
    word of the update wraps. *)
Theorem average_stays_within_samples threshold workers s :
  rtc access (initial threshold workers) s -> few s ->
  average (average_ns (stats s)) <= largest (taken_ns s) /\ average (average_ns (stats s)) < OVER /\
  samples (stats s) = N.of_nat (length (taken_ns s)).
Proof.
  intros Hr Hfew. destruct (stats_sound _ _ s Hr Hfew) as [Hs _ Ha _ _]. pose proof (largest_small (taken_ns s)).
  split_and!; [done|lia|done].
Qed.

(** ** A crossing is warned about once *)

Definition warned (u : Update) : bool := warns (previous u) (current u).
Lemma warned_flags u : warned u = negb (flag (previous u)) && flag (current u).
Proof. unfold warned, warns, flag. by destruct (_ =? 0). Qed.

Lemma chained_app word l1 u l2 : chained word (l1 ++ u :: l2) ->
  (match l1 with [] => current u = word | v :: _ => current v = word end) /\ chained (current u) (u :: l2).
Proof.
  revert word. induction l1 as [|v l1 IH]; intros word; cbn [app chained]; [by intros [-> H]|]. intros [Hv H].
  destruct (IH _ H) as [_ Hu]. by split.
Qed.

(** Between two words of the chain of which the earlier is marked and the later is not, some update
    takes the mark off. *)
Lemma mark_taken_off word l u1 l3 : chained word (l ++ u1 :: l3) -> flag (current u1) = true -> flag word = false ->
  exists u, u ∈ l /\ flag (previous u) = true /\ flag (current u) = false.
Proof.
  revert word. induction l as [|v l IH]; intros word; cbn [app chained].
  - intros [-> _] H1 H2. congruence.
  - intros [<- Hc] H1 H2. destruct (flag (previous v)) eqn:Hp; [exists v; split; [by left|done]|].
    destruct (IH _ Hc H1 Hp) as (u & Hu & ?). exists u. split; [by right|done].
Qed.

(** C27. A subscription that computes for too long is warned about once per crossing, however many
    workers record at the same time: the update that finds the average over the threshold with a full
    window, somebody to warn and no crossing held warns; and between two warnings some update found
    the average back at the threshold or nobody to warn. *)
Theorem crossing_warns_once threshold workers s :
  rtc access (initial threshold workers) s -> few s ->
  (forall u, u ∈ updates s -> WINDOW <= u_taken u -> u_warnable u = true -> flag (previous u) = false ->
     threshold_ns (stats s) < average (current u) -> warned u = true) /\
  (forall l1 u2 l2 u1 l3, updates s = l1 ++ u2 :: l2 ++ u1 :: l3 -> warned u1 = true -> warned u2 = true ->
     exists u, u ∈ l2 /\ (average (current u) <= threshold_ns (stats s) \/ u_warnable u = false)).
Proof.
  intros Hr Hfew. destruct (stats_sound _ _ s Hr Hfew) as [_ _ _ Hchain Hup]. rewrite Forall_forall in Hup. split.
  - intros u Hin Hw Hwa Hp Hth. destruct (Hup u Hin) as (Ht & Hns & Ha & Hc).
    destruct (step_parts (threshold_ns (stats s)) (u_taken u) (u_warnable u) (u_ns u) (previous u) Ht Hns Ha) as [Havg Hflag].
    rewrite <- Hc in Havg, Hflag. rewrite warned_flags, Hp, Hflag, Hwa, <- Havg. cbn.
    by rewrite (proj2 (N.ltb_lt _ _) Hth), (proj2 (N.leb_le _ _) Hw).
  - intros l1 u2 l2 u1 l3 Heq H1 H2. rewrite warned_flags in H1, H2.
    apply andb_true_iff in H1 as [_ H1], H2 as [H2 _]. apply negb_true_iff in H2. rewrite Heq in Hchain.
    destruct (chained_app _ _ _ _ Hchain) as [_ [_ Hc2]].
    destruct (mark_taken_off _ _ _ _ Hc2 H1 H2) as (u & Hin & Hpu & Hcu). exists u. split; [done|].
    destruct (Hup u) as (Ht & Hns & Ha & Hc); [rewrite Heq; apply elem_of_app; right; right; apply elem_of_app; by left|].
    destruct (step_parts (threshold_ns (stats s)) (u_taken u) (u_warnable u) (u_ns u) (previous u) Ht Hns Ha) as [Havg Hflag].
    rewrite <- Hc in Havg, Hflag. rewrite Hcu, Hpu, <- Havg, orb_true_r, andb_true_r in Hflag. symmetry in Hflag.
    apply andb_false_iff in Hflag as [Hf|Hf]; [left; by apply N.ltb_ge|by right].
Qed.

(** ** The histogram *)

Fixpoint total {A} (f : A -> N) (l : list A) : N := match l with [] => 0 | x :: l => f x + total f l end.

Lemma total_app {A} (f : A -> N) l k : total f (l ++ k) = total f l + total f k.
Proof. induction l as [|x l IH]; cbn; [done|]. rewrite IH. lia. Qed.

Lemma total_insert {A} (f : A -> N) l i x y : l !! i = Some x -> total f (<[i := y]> l) + f x = total f l + f y.
Proof.
  revert i. induction l as [|z l IH]; intros [|i]; simpl; [done|done|intros [= ->]; lia|]. intros Hl. specialize (IH i Hl). lia.
Qed.

(** [PollStats::histogram]: the samples, their sum, and the count in each bucket. *)
Definition histogram (p : PollStats) : N * N * list N := (total id (buckets p), sum_ns p, buckets p).

Definition in_bucket (i : nat) (ns : N) : bool := (bucket_of ns =? i)%nat.
(** What a recorder has counted and not yet summed, or not yet filed. *)
Definition to_sum (pc : Pc) : N := match pc with Counted ns _ => ns | _ => 0 end.
Definition to_file (i : nat) (pc : Pc) : bool := match pc with Counted ns _ | Summed ns _ => in_bucket i ns | _ => false end.

Record exact (s : World) : Prop := {
  e_sum : (sum_ns (stats s) + total to_sum (recorders s)) mod (u64_max + 1) = total id (taken_ns s) mod (u64_max + 1);
  e_word : sum_ns (stats s) <= u64_max;
  e_length : length (buckets (stats s)) = BUCKETS;
  e_buckets : forall i n, buckets (stats s) !! i = Some n ->
    n + N.of_nat (count (to_file i) (recorders s)) = N.of_nat (count (in_bucket i) (taken_ns s));
}.

Lemma exact_same s s' : sum_ns (stats s') = sum_ns (stats s) -> buckets (stats s') = buckets (stats s) -> taken_ns s' = taken_ns s ->
  total to_sum (recorders s') = total to_sum (recorders s) ->
  (forall i, count (to_file i) (recorders s') = count (to_file i) (recorders s)) -> exact s -> exact s'.
Proof.
  intros H1 H2 H3 H4 H5 [He Hw Hl Hb]. split; rewrite ?H1, ?H2, ?H3, ?H4; try done. intros i n. rewrite H5. apply Hb.
Qed.

Lemma count_step (f : Pc -> bool) l t x y : l !! t = Some x -> f x = f y -> count f (<[t := y]> l) = count f l.
Proof. intros Hl Hf. pose proof (count_insert f l t x y Hl) as Hc. rewrite Hf in Hc. lia. Qed.
Lemma total_step (f : Pc -> N) l t x y : l !! t = Some x -> f x = f y -> total f (<[t := y]> l) = total f l.
Proof. intros Hl Hf. pose proof (total_insert f l t x y Hl) as Hc. rewrite Hf in Hc. lia. Qed.

Lemma exact_access s s' : access s s' -> few s' -> exact s -> exact s'.
Proof.
  intros Hstep Hfew Hex. pose proof Hex as [He Hw Hl Hb].
  destruct Hstep as [s t ns Ht|s t ns taken Ht|s t ns taken Ht|s t ns taken Ht|s t ns taken warnable Ht next|s Hr|s Hr].
  - split; cbn [stats sum_ns buckets taken_ns recorders]; [|done|done|].
    + pose proof (total_insert to_sum (recorders s) t Idle (Counted ns (samples (stats s) + 1)) Ht) as Ht'. cbn [to_sum] in Ht'.
      rewrite N.add_0_r in Ht'. rewrite Ht', total_app. cbn. rewrite N.add_assoc, N.add_0_r, <- N.Div0.add_mod_idemp_l, He.
      by rewrite N.Div0.add_mod_idemp_l.
    + intros i n Hn. pose proof (count_insert (to_file i) (recorders s) t Idle (Counted ns (samples (stats s) + 1)) Ht) as Hc.
      specialize (Hb i n Hn). rewrite count_app, count_cons, count_nil. cbn [to_file] in Hc. destruct (in_bucket i ns); lia.
  - split; cbn [stats sum_ns buckets taken_ns recorders]; [| |done|].
    + pose proof (total_insert to_sum (recorders s) t _ (Summed ns taken) Ht) as Ht'. cbn [to_sum] in Ht'. rewrite N.add_0_r in Ht'.
      unfold fetch_add, wrapping_add. rewrite N.Div0.add_mod_idemp_l, <- He. f_equal. lia.
    + unfold fetch_add, wrapping_add. pose proof (N.mod_lt (sum_ns (stats s) + ns) (u64_max + 1) ltac:(done)). lia.
    + intros i n Hn. rewrite (count_step (to_file i) _ _ _ (Summed ns taken) Ht) by done. by apply Hb.
  - split; cbn [stats sum_ns buckets taken_ns recorders].
    + by rewrite (total_step to_sum _ _ _ (Filed ns taken) Ht).
    + done.
    + by rewrite length_alter.
    + intros i n Hn. pose proof (count_insert (to_file i) (recorders s) t _ (Filed ns taken) Ht) as Hc. cbn [to_file] in Hc.
      unfold few in Hfew. cbn in Hfew. unfold in_bucket in Hc at 1.
      destruct (Nat.eqb_spec (bucket_of ns) i) as [<-|Hne].
      * rewrite list_lookup_alter_eq in Hn. destruct (buckets (stats s) !! bucket_of ns) as [m|] eqn:Hm; [|done].
        cbn in Hn. injection Hn as <-. specialize (Hb _ _ Hm). pose proof (List.filter_length_le (in_bucket (bucket_of ns)) (taken_ns s)) as Hcount. unfold count in *.
        unfold fetch_add, wrapping_add. rewrite N.mod_small by lia. lia.
      * rewrite list_lookup_alter_ne in Hn by done. specialize (Hb _ _ Hn). lia.
  - apply (exact_same s); try done; cbn [recorders]; [by rewrite (total_step to_sum _ _ _ _ Ht)|intros i; by rewrite (count_step (to_file i) _ _ _ _ Ht)].
  - apply (exact_same s); try done; cbn [recorders]; [by rewrite (total_step to_sum _ _ _ _ Ht)|intros i; by rewrite (count_step (to_file i) _ _ _ _ Ht)].
  - by apply (exact_same s).
  - by apply (exact_same s).
Qed.

Lemma partition_point_le l ns : (partition_point l ns <= length l)%nat.
Proof. induction l as [|b l IH]; cbn; [done|]. destruct (b <? ns); lia. Qed.

Lemma indicator_total b n k : total (fun i => if (b =? i)%nat then 1 else 0) (seq k n) = if (k <=? b)%nat && (b <? k + n)%nat then 1 else 0.
Proof.
  revert k. induction n as [|n IH]; intros k; cbn [seq total].
  - destruct (k <=? b)%nat eqn:H1; [|done]. apply Nat.leb_le in H1. cbn. by rewrite (proj2 (Nat.ltb_ge _ _)) by lia.
  - rewrite IH.
    repeat case_match; rewrite ?Nat.eqb_eq, ?Nat.eqb_neq, ?andb_true_iff, ?andb_false_iff, ?Nat.leb_le, ?Nat.leb_gt, ?Nat.ltb_lt, ?Nat.ltb_ge in *; lia.
Qed.

Lemma buckets_total l : total id ((fun i => N.of_nat (count (in_bucket i) l)) <$> seq 0 BUCKETS) = N.of_nat (length l).
Proof.
  assert (Hf : forall (g : nat -> N) k, total id (g <$> k) = total g k).
  { intros g k. induction k as [|x k IH]; cbn; [done|]. by rewrite IH. }
  rewrite Hf. induction l as [|ns l IH].
  - cbn [length count List.filter]. induction (seq 0 BUCKETS) as [|x k IHk]; cbn; [done|]. by rewrite IHk.
  - assert (Hadd : forall k, total (fun i => N.of_nat (count (in_bucket i) (ns :: l))) k =
      total (fun i => if (bucket_of ns =? i)%nat then 1 else 0) k + total (fun i => N.of_nat (count (in_bucket i) l)) k).
    { induction k as [|i k IHk]; cbn [total]; [done|]. rewrite IHk.
      rewrite count_cons. unfold in_bucket at 1. destruct (_ =? _)%nat; lia. }
    rewrite Hadd, IH, indicator_total. assert (Hb : (bucket_of ns < 0 + BUCKETS)%nat) by (apply Nat.lt_succ_r, partition_point_le).
    rewrite (proj2 (Nat.ltb_lt _ _) Hb), (proj2 (Nat.leb_le _ _)) by lia. cbn [andb length]. lia.
Qed.

Lemma reachable_exact threshold workers s : rtc access (initial threshold workers) s -> few s -> exact s.
Proof.
  revert s. apply (rtc_ind_r (fun s => few s -> exact s)).
  - intros _. assert (Ht : forall n, total to_sum (replicate n Idle) = 0) by (induction n as [|n IH]; [done|exact IH]).
    split; cbn [stats sum_ns buckets taken_ns recorders initial new_stats]; [by rewrite Ht|done|by rewrite length_replicate|].
    intros i n [-> _]%lookup_replicate. rewrite count_zero; [done|]. by intros pc [-> _]%elem_of_replicate.
  - intros s s' _ Hstep IH Hfew. eapply exact_access; eauto using few_back.
Qed.

(** Once no record is under way the histogram of a subscription is exact, however its recorders
    interleaved: it holds every sample once, in the bucket whose bounds enclose it, with their
    number and their sum (modulo the word). *)
Theorem histogram_is_exact threshold workers s :
  rtc access (initial threshold workers) s -> few s -> Forall (eq Idle) (recorders s) ->
  histogram (stats s) = (N.of_nat (length (taken_ns s)), total id (taken_ns s) mod (u64_max + 1),
    (fun i => N.of_nat (count (in_bucket i) (taken_ns s))) <$> seq 0 BUCKETS).
Proof.
  intros Hr Hfew Hidle. destruct (reachable_exact _ _ s Hr Hfew) as [He Hw Hl Hb]. rewrite Forall_forall in Hidle.
  assert (Hbk : buckets (stats s) = (fun i => N.of_nat (count (in_bucket i) (taken_ns s))) <$> seq 0 BUCKETS).
  { apply list_eq. intros i. rewrite list_lookup_fmap. destruct (decide (i < BUCKETS)%nat) as [Hi|Hi].
    - rewrite lookup_seq_lt by done. cbn [fmap option_fmap option_map]. rewrite <- Hl in Hi.
      apply lookup_lt_is_Some in Hi as [n Hn]. rewrite Hn. specialize (Hb i n Hn).
      rewrite count_zero, N.add_0_r in Hb; [by rewrite Hb|]. by intros pc <-%Hidle.
    - rewrite lookup_seq_ge by lia. apply lookup_ge_None. lia. }
  assert (Hs : total to_sum (recorders s) = 0).
  { clear -Hidle. induction (recorders s) as [|pc l IH]; cbn [total]; [done|]. rewrite <- (Hidle pc) by (by left).
    rewrite IH; [done|]. intros x Hx. apply Hidle. by right. }
  unfold histogram. rewrite Hbk at 1 2. rewrite buckets_total, <- He, Hs, N.add_0_r.
  rewrite (N.mod_small (sum_ns (stats s))) by lia. done.
Qed.

(** The bucket of a sample is the one its bounds enclose. *)
Lemma partition_point_spec l ns : (forall j b, (j < partition_point l ns)%nat -> l !! j = Some b -> b < ns) /\
  (forall b, l !! partition_point l ns = Some b -> ns <= b).
Proof.
  induction l as [|b l [IH1 IH2]]; cbn [partition_point]; [by split; intros; [lia|]|].
  destruct (N.ltb_spec b ns) as [Hlt|Hle]; split.
  - intros [|j] b'; cbn; [by intros _ [= <-]|]. intros Hj. apply IH1. lia.
  - intros b'. cbn. apply IH2.
  - intros j b' Hj. lia.
  - by intros b' [= <-].
Qed.

(** ** The sampler *)

Record PollSampler := mk_sampler { every : N; countdown : N; on_threads : bool }.
Definition new_sampler (every : N) : PollSampler := mk_sampler every every false.
(** [for_thread]: a countdown of its own. *)
Definition for_thread (s : PollSampler) : PollSampler := mk_sampler (every s) (every s) true.
Definition tick (s : PollSampler) : PollSampler * bool :=
  let left := countdown s in
  if 1 <? left then (mk_sampler (every s) (left - 1) (on_threads s), false)
  else (mk_sampler (every s) (every s) (on_threads s), true).
(** [on_dedicated_threads], and whether the subscription leaves the app's count. *)
Definition on_dedicated_threads (s : PollSampler) : PollSampler * bool :=
  (mk_sampler (every s) (countdown s) true, negb (on_threads s)).

Fixpoint ticks (n : nat) (s : PollSampler) : PollSampler * N :=
  match n with
  | O => (s, 0)
  | S n => let (s, timed) := tick s in let (s, more) := ticks n s in (s, (if timed then 1 else 0) + more)
  end.

(** One poll in [every] is timed: of any run of polls of a sampler of one worker, the number the
    interval says. *)
Lemma one_poll_in_n every_ n : 0 < every_ -> (ticks n (new_sampler every_)).2 = N.of_nat n / every_.
Proof.
  intros He. assert (H : forall m s, every s = every_ -> 0 < countdown s <= every_ ->
    every_ * (ticks m s).2 + (every_ - countdown (ticks m s).1) = N.of_nat m + (every_ - countdown s) /\
    0 < countdown (ticks m s).1 <= every_).
  { induction m as [|m IH]; intros s Hs Hc; cbn [ticks]; [cbn; lia|]. unfold tick. destruct (N.ltb_spec 1 (countdown s)).
    - specialize (IH (mk_sampler (every s) (countdown s - 1) (on_threads s)) Hs ltac:(cbn; lia)).
      destruct (ticks m _) as [s' k]. cbn in *. lia.
    - specialize (IH (mk_sampler (every s) (every s) (on_threads s)) Hs ltac:(cbn; lia)).
      destruct (ticks m _) as [s' k]. cbn in *. lia. }
  specialize (H n (new_sampler every_) eq_refl ltac:(cbn; lia)). destruct (ticks n _) as [s k]. cbn in *. destruct H as [H1 H2].
  apply (N.div_unique _ _ _ (every_ - countdown s)); lia.
Qed.

(** A sampler leaves the count of the app's runtime once. *)
Lemma leaves_once s : (on_dedicated_threads (on_dedicated_threads s).1).2 = false.
Proof. done. Qed.

(** [PollDiagnostics::register]: the statistics a subscription shares with those of its name. *)
Abbreviation registry := (list (string * PollStats)).
Fixpoint position (r : registry) (name : string) : option nat :=
  match r with
  | [] => None
  | (n, _) :: r => if String.eqb n name then Some O else S <$> position r name
  end.
Definition joins (p : PollStats) : PollStats :=
  mk_stats (threshold_ns p) (samples p) (sum_ns p) (average_ns p) (buckets p) (on_app_runtime p + 1).
Definition register (threshold every_ : N) (r : registry) (name : string) : registry * (nat * PollSampler) :=
  match position r name with
  | Some i => (alter (fun e => (e.1, joins e.2)) i r, (i, new_sampler every_))
  | None => (r ++ [(name, joins (new_stats threshold))], (length r, new_sampler every_))
  end.

Lemma position_spec (r : registry) name : match position r name with
  | Some i => exists p, r !! i = Some (name, p)
  | None => name ∉ r.*1
  end.
Proof.
  induction r as [|[n p] r IH]; cbn [position]; [by intros []%not_elem_of_nil|].
  destruct (String.eqb_spec n name) as [->|Hne]; [by exists p|]. destruct (position r name) as [i|]; cbn.
  - destruct IH as [q Hq]. by exists q.
  - by intros [->|?]%elem_of_cons.
Qed.

(** A name has one set of statistics: registering a subscription under it finds the one there is,
    whichever registered before, or makes a new one at the end, and disturbs no other. *)
Lemma register_shares threshold every_ r name : NoDup r.*1 ->
  let '(r', (i, _)) := register threshold every_ r name in
  NoDup r'.*1 /\ (exists p, r' !! i = Some (name, p)) /\ forall j, j <> i -> (j < length r)%nat -> r' !! j = r !! j.
Proof.
  intros Hnd. unfold register. pose proof (position_spec r name) as Hp. destruct (position r name) as [i|].
  - destruct Hp as [p Hp]. split_and!.
    + assert (Hf : (alter (fun e : string * PollStats => (e.1, joins e.2)) i r).*1 = r.*1); [|by rewrite Hf].
      apply list_eq. intros j. rewrite !list_lookup_fmap. destruct (decide (i = j)) as [<-|Hne];
        [rewrite list_lookup_alter_eq; by destruct (r !! i)|by rewrite list_lookup_alter_ne].
    + exists (joins p). by rewrite list_lookup_alter_eq, Hp.
    + intros j Hj _. by rewrite list_lookup_alter_ne.
  - split_and!.
    + rewrite fmap_app. apply NoDup_app. split_and!; [done| |apply NoDup_singleton].
      intros n Hn ->%list_elem_of_singleton. done.
    + exists (joins (new_stats threshold)). by rewrite lookup_app_r, Nat.sub_diag by lia.
    + intros j _ Hj. by rewrite lookup_app_l.
Qed.

(** ** Witnesses *)

(** One worker on a subscription slower than its threshold. *)
Definition one_slow : World :=
  mk_world (mk_stats 500 1 1000 1000 (alter (fun n => n + 1) (bucket_of 1000) (replicate BUCKETS 0)) 0) [Idle] [1000]
    [mk_update 1000 1 false 0 1000].
Lemma one_slow_reachable : rtc access (initial 500 1) one_slow.
Proof.
  eapply rtc_l; [by apply (counts _ 0 1000)|]. eapply rtc_l; [by apply (sums _ 0 1000 1)|].
  eapply rtc_l; [by apply (files _ 0 1000 1)|]. eapply rtc_l; [by apply (looks _ 0 1000 1)|].
  eapply rtc_l; [by apply (moves _ 0 1000 1 false)|]. by vm_compute.
Qed.

(** One worker recording by itself, on a subscription with somebody to warn: sixteen slow samples cross
    the threshold, fifteen fast ones take the average back, three slow ones cross it again. *)
Definition record_alone (s : World) (ns : N) : World :=
  let p := stats s in
  let taken := samples p + 1 in
  let warnable := 0 <? on_app_runtime p in
  let next := step (threshold_ns p) taken warnable (capped ns) (average_ns p) in
  mk_world
    (mk_stats (threshold_ns p) (fetch_add (samples p) 1) (fetch_add (sum_ns p) ns) next
      (alter (fun count => fetch_add count 1) (bucket_of ns) (buckets p)) (on_app_runtime p))
    [Idle] (taken_ns s ++ [ns]) (mk_update (capped ns) taken warnable (average_ns p) next :: updates s).
Lemma record_alone_reachable s ns : recorders s = [Idle] -> rtc access s (record_alone s ns).
Proof.
  destruct s as [[] l tk up]. simpl. intros ->. eapply rtc_l; [by apply (counts _ 0 ns)|]. eapply rtc_l; [by apply sums with (t := O)|].
  eapply rtc_l; [by apply files with (t := O)|]. eapply rtc_l; [by apply looks with (t := O)|].
  eapply rtc_l; [by apply moves with (t := O)|]. apply rtc_refl.
Qed.
Definition watched : World :=
  mk_world (mk_stats 500 0 0 0 (replicate BUCKETS 0) 1) [Idle] [] [].
Definition crossings : World :=
  fold_left record_alone (replicate 16 1000 ++ replicate 15 0 ++ replicate 3 9000) watched.
Lemma crossings_reachable : rtc access (initial 500 1) crossings.
Proof.
  eapply rtc_l; [by apply registers|]. change (rtc access watched crossings). unfold crossings.
  assert (Hw : recorders watched = [Idle]) by done. revert Hw. generalize watched.
  induction (replicate 16 1000 ++ replicate 15 0 ++ replicate 3 9000) as [|ns l IH]; intros s Hs; simpl; [apply rtc_refl|].
  etrans; [by apply (record_alone_reachable s ns)|by apply IH].
Qed.

(** The sixteenth update crosses and warns; the thirty-second crosses again, and between the two the
    average was back. *)
Lemma crossing_warns_once_witness :
  (exists u, updates crossings !! 18%nat = Some u /\ u_taken u = 16 /\ warned u = true) /\
  (exists u, updates crossings !! 2%nat = Some u /\ u_taken u = 32 /\ warned u = true) /\
  exists u, u ∈ take 15 (drop 3 (updates crossings)) /\ (average (current u) <= 500 \/ u_warnable u = false).
Proof.
  destruct (crossing_warns_once 500 1 crossings crossings_reachable ltac:(by vm_compute)) as [Hw Hb].
  assert (Hat : forall k, (k = 18 \/ k = 2)%nat -> exists u, updates crossings !! k = Some u /\
    u_taken u = (if (k =? 18)%nat then 16 else 32) /\ u_warnable u = true /\ flag (previous u) = false /\
    threshold_ns (stats crossings) < average (current u)).
  { intros k [-> | ->]; eexists; (split; [vm_compute; reflexivity|]); vm_compute; split_and!; reflexivity. }
  assert (Hwarn : forall k, (k = 18 \/ k = 2)%nat -> exists u, updates crossings !! k = Some u /\
    u_taken u = (if (k =? 18)%nat then 16 else 32) /\ warned u = true).
  { intros k Hk. destruct (Hat k Hk) as (u & Hu & Ht & Hwa & Hp & Hth). exists u. split; [exact Hu|]. split; [exact Ht|].
    apply Hw; [by eapply list_elem_of_lookup_2|rewrite Ht; by destruct Hk as [-> | ->]|done|done|done]. }
  split; [exact (Hwarn 18%nat (or_introl eq_refl))|]. split; [exact (Hwarn 2%nat (or_intror eq_refl))|].
  destruct (Hwarn 18%nat (or_introl eq_refl)) as (u1 & Hu1 & _ & H1).
  destruct (Hwarn 2%nat (or_intror eq_refl)) as (u2 & Hu2 & _ & H2).
  apply (Hb (take 2 (updates crossings)) u2 (take 15 (drop 3 (updates crossings))) u1 (drop 19 (updates crossings))); [|exact H1|exact H2].
  vm_compute in Hu1, Hu2. injection Hu1 as <-. injection Hu2 as <-. vm_compute. reflexivity.
Defined.

Lemma histogram_is_exact_witness : histogram (stats one_slow) =
  (1, 1000, (fun i => N.of_nat (count (in_bucket i) [1000])) <$> seq 0 BUCKETS).
Proof.
  exact (histogram_is_exact 500 1 one_slow one_slow_reachable ltac:(by vm_compute) ltac:(by repeat constructor)).
Defined.
End PollStats.
