(* ===== verification/Replies.v ===== *)
(** * Replies: what a handler returns, published ([runtime/src/publishing.rs], [batch_publishing.rs],
    [publish/publisher.rs], [publish/reply.rs], [publish/pipeline.rs], [typed.rs])

    A handler that returns a value has it encoded and published after its work is done.  The payload
    in either form of a publisher, the message as the transforms and the pipeline leave it, the refusal
    that gives it back, the reply of one delivery and the replies of a batch, one by one or inside one
    broker transaction, and what the [.error] closure is told of the ones that were lost.  Codecs,
    transforms, publish layers and publishers are parameters; a transactional publisher is an
    interface whose laws are its documented contract, which the in-memory publisher keeps. *)
From Stdlib Require Import Ascii String.
From S2P Require Import Prelude RustStd Headers Queue Outcome PublishFailure Hooks Memory MemoryBroker.

Module Replies.
Import PublishFailure Outcome.

(** ** The payload on its way out *)

(** The forms [Lend] and [Take]. *)
Inductive PayloadForm := Lend | Take.
(** The encode buffer: where its bytes are, and what was written last. *)
Record EncodeBuf := mk_buf { buf_at : nat; written : bytes }.
Inductive Payload :=
  | Lent (addr len : nat)
  | Owned (b : bytes)
  | Consumed.
Record Outgoing := mk_outgoing { name : string; payload : Payload; headers : HeaderMap }.

(** [lent_bytes]: the bytes a lending publisher was shown, named by address. *)
Definition lent_bytes (buf : EncodeBuf) (addr len : nat) (own : bytes) : bytes :=
  if len =? 0 then []
  else if (addr =? buf_at buf) && (len =? length (written buf)) then written buf
  else own.

(** The bytes a reader of the message sees; [at_own] are those a value holds itself. *)
Definition bytes_of (buf : EncodeBuf) (at_own : nat * bytes) (p : Payload) : bytes :=
  match p with
  | Lent addr len =>
      if len =? 0 then []
      else if (addr =? buf_at buf) && (len =? length (written buf)) then written buf
      else if (addr =? at_own.1) && (len =? length at_own.2) then at_own.2 else []
  | Owned b => b
  | Consumed => []
  end.

(** [Refusal::of], on what the pipeline left in the message. *)
Definition refusal_of (e : BoxError) (out : Outgoing) : Refusal :=
  match payload out with
  | Consumed => new_refusal e
  | Owned b => mk_refusal e (Some (mk_unsent None (PublishFailure.Owned b) (headers out)))
  | Lent addr len => mk_refusal e (Some (mk_unsent None (PublishFailure.Lent addr len) (headers out)))
  end.

(** A publisher: what becomes of its state, and where it refuses its error with the message it gave
    back, the bytes where it was handed them. *)
Definition PublishFn (S : Type) : Type :=
  S -> string * bytes * HeaderMap -> S * result unit (BoxError * option (bytes * HeaderMap)).

(** [PublishIdentity::run]: the end of the pipeline. *)
Definition run_identity {S} (form : PayloadForm) (publish : PublishFn S) (s : S) (buf : EncodeBuf)
    (out : Outgoing) : S * Outgoing * result unit BoxError :=
  let '(s, r) := publish s (name out, bytes_of buf (0, []) (payload out), headers out) in
  match r with
  | Ok _ =>
      (s, mk_outgoing (name out) (match form with Lend => payload out | Take => Owned [] end) HeaderMap.new, Ok tt)
  | Err (e, Some (b, hs)) =>
      (s, mk_outgoing (name out) (match form with Lend => payload out | Take => Owned b end) hs, Err e)
  | Err (e, None) => (s, mk_outgoing (name out) Consumed HeaderMap.new, Err e)
  end.

(** What a handler's call leaves the dispatch to settle by: its own answer, or an acknowledgement
    with what follows it, and the error a warning reports the loss with. *)
Inductive Replied {R : Type} :=
  | Skipped (own : R)
  | Acked (follow : option Work) (warned : option BoxError).
Arguments Replied : clear implicits.

(** ** [TypedPublisher] *)

Section typed.
Context {S T : Type}.
(** The form, the codec, the publisher's base headers, the transforms of one reply and of a batch's,
    the pipeline down to the publisher. *)
Context (form : PayloadForm) (codec : T -> result bytes BoxError) (base_headers : option HeaderMap).
Context (layers batch_layers : Outgoing -> Outgoing).
Context (send_through : S -> EncodeBuf -> Outgoing -> S * Outgoing * result unit BoxError).

(** [PayloadForm::encoded]; a lending form writes into the scratch, emptied first. *)
Definition encoded (buf : EncodeBuf) (value : T) : EncodeBuf * result Payload BoxError :=
  match codec value, form with
  | Ok b, Lend => (mk_buf (buf_at buf) b, Ok (Lent (buf_at buf) (length b)))
  | Ok b, Take => (buf, Ok (Owned b))
  | Err e, Lend => (mk_buf (buf_at buf) [], Err e)
  | Err e, Take => (buf, Err e)
  end.

(** [TypedPublisher::outgoing]. *)
Definition outgoing (name : string) (p : Payload) : Outgoing :=
  mk_outgoing name p (default HeaderMap.new base_headers).

(** The send with the transforms applied; a refusal leaves the message that was sent. *)
Definition sends (s : S) (buf : EncodeBuf) (declared : string) (out : Outgoing) : S * result unit Refusal :=
  let '(s, left_, r) := send_through s buf out in
  (s, map_err (fun e => sent_to (refusal_of e left_) declared (name left_)) r).

Definition publish (s : S) (buf : EncodeBuf) (name : string) (value : T) : S * EncodeBuf * result unit Refusal :=
  match encoded buf value with
  | (buf, Err e) => (s, buf, Err (new_refusal e))
  | (buf, Ok p) => let '(s, r) := sends s buf name (layers (outgoing name p)) in (s, buf, r)
  end.

(** [publish_pair]; [insert_typed] writes the header contract of the pair. *)
Definition publish_pair (insert_typed : HeaderMap -> result HeaderMap BoxError) (s : S) (buf : EncodeBuf)
    (name : string) (value : T) : S * EncodeBuf * result unit Refusal :=
  match encoded buf value with
  | (buf, Err e) => (s, buf, Err (new_refusal e))
  | (buf, Ok p) =>
      let out := outgoing name p in
      match insert_typed (headers out) with
      | Err e => (s, buf, Err (new_refusal e))
      | Ok hs =>
          let '(s, r) := sends s buf name (layers (mk_outgoing (Replies.name out) (payload out) hs)) in
          (s, buf, r)
      end
  end.

Definition publish_batched (s : S) (buf : EncodeBuf) (name : string) (value : T)
    : S * EncodeBuf * result unit Refusal :=
  match encoded buf value with
  | (buf, Err e) => (s, buf, Err (new_refusal e))
  | (buf, Ok p) => let '(s, r) := sends s buf name (batch_layers (outgoing name p)) in (s, buf, r)
  end.

(** ** The replies of a batch *)

(** Why a batch's replies did not all go out. *)
Inductive Cause :=
  | Refused (index : nat) (refusal : Refusal)
  | Whole (e : BoxError).
Record BatchRefusal := mk_batch_refusal { lost_from : nat; cause : Cause }.
Definition refused_at (index lost_from : nat) (r : Refusal) : BatchRefusal :=
  mk_batch_refusal lost_from (Refused index r).
Definition whole (e : BoxError) : BatchRefusal := mk_batch_refusal 0 (Whole e).

Definition into_error (r : BatchRefusal) : BoxError :=
  match cause r with Refused _ refusal => PublishFailure.error refusal | Whole e => e end.

(** [EncodeReply::encoded_with]: empty when the codec rejects it. *)
Definition encoded_with (value : T) : bytes := match codec value with Ok b => b | Err _ => [] end.

(** The cause, with the refused reply's index and message where there is one. *)
Definition cause_parts (r : BatchRefusal) (name : string) (lent : nat -> nat -> bytes)
    : BoxError * option nat * option FailedMessage :=
  match cause r with
  | Refused index refusal => let '(e, m) := into_message refusal name lent in (e, Some index, Some m)
  | Whole e => (e, None, None)
  end.

(** [into_lost]. *)
Fixpoint lost_messages (name : string) (refused : option nat) (sent : option FailedMessage) (index : nat)
    (replies : list T) : list FailedMessage :=
  match replies with
  | [] => []
  | reply :: rest =>
      match sent with
      | Some m =>
          if bool_decide (Some index = refused)
          then m :: lost_messages name refused None (Datatypes.S index) rest
          else mk_failed_message name (Some (encoded_with reply)) HeaderMap.new ::
                 lost_messages name refused sent (Datatypes.S index) rest
      | None =>
          mk_failed_message name (Some (encoded_with reply)) HeaderMap.new ::
            lost_messages name refused sent (Datatypes.S index) rest
      end
  end.
Definition into_lost (r : BatchRefusal) (name : string) (replies : list T) (lent : nat -> nat -> bytes)
    : BoxError * list FailedMessage :=
  let '(e, refused, sent) := cause_parts r name lent in
  (e, lost_messages name refused sent (lost_from r) (skipn (lost_from r) replies)).

(** [into_failed], into the fixed buffer of the build without a heap: [None] where a push finds it
    full, which panics. *)
Fixpoint push_lost (elements : nat) (e : BoxError) (name : string) (refused : option nat)
    (sent : option FailedMessage) (index : nat) (lost : list Failed) (replies : list T) : option (list Failed) :=
  match replies with
  | [] => Some lost
  | reply :: rest =>
      let fresh := mk_failed_message name (Some (encoded_with reply)) HeaderMap.new in
      let '(message, sent) :=
        match sent with
        | Some m => if bool_decide (Some index = refused) then (m, None) else (fresh, Some m)
        | None => (fresh, None)
        end in
      if length lost <? elements
      then push_lost elements e name refused sent (Datatypes.S index) (lost ++ [mk_failed e message]) rest
      else None
  end.
Definition into_failed (elements : nat) (r : BatchRefusal) (name : string) (replies : list T)
    (lent : nat -> nat -> bytes) : option (list Failed) :=
  let '(e, refused, sent) := cause_parts r name lent in
  push_lost elements e name refused sent (lost_from r) [] (skipn (lost_from r) replies).

(** [publish_batch] of a [TypedPublisher], from the reply at [index] on. *)
Fixpoint publish_each (s : S) (buf : EncodeBuf) (name : string) (index : nat) (replies : list T)
    : S * EncodeBuf * result unit BatchRefusal :=
  match replies with
  | [] => (s, buf, Ok tt)
  | reply :: rest =>
      match publish_batched s buf name reply with
      | (s, buf, Err refusal) => (s, buf, Err (refused_at index index refusal))
      | (s, buf, Ok _) => publish_each s buf name (Datatypes.S index) rest
      end
  end.

(** ** The settlement of a reply *)

Section settled.
Context {R H : Type} `{Hooks.HookStore H}.

(** [Context::take_reaction_for] an acknowledgement. *)
Definition take_reaction_for_ack (hooks : H) : option (option Reaction * H) :=
  if Hooks.is_empty hooks then Some (None, hooks)
  else
    match Hooks.take_reaction hooks Hooks.KAck with
    | Some (r, hooks) =>
        Some (match r with Some (e, t) => Some (mk_reaction e t) | None => None end, hooks)
    | None => None
    end.

(** [PublishingHandler::handle] past the materialization; [deliver] is the wiring and [own] its
    [own_bytes].  [None] only where the registrations are stored wrongly. *)
Definition handle_reply (deliver : S -> EncodeBuf -> string -> T -> S * EncodeBuf * result unit Refusal)
    (own : T -> bytes) (reply_name : string) (s : S) (buf : EncodeBuf) (hooks : H) (call : result T R)
    : option (S * H * Replied R) :=
  match call with
  | Err outcome => Some (s, hooks, Skipped outcome)
  | Ok reply =>
      let '(s, buf, sent) := deliver s buf reply_name reply in
      '(reaction, hooks) ← take_reaction_for_ack hooks;
      match sent with
      | Ok _ => Some (s, hooks, Acked (publish_done reaction) None)
      | Err refusal =>
          let '(e, failed) := into_message refusal reply_name (fun addr len => lent_bytes buf addr len (own reply)) in
          Some (s, hooks, Acked (publish_lost reaction e failed)
                            match reaction with Some _ => None | None => Some e end)
      end
  end.

(** [ReplyLoss::lose] of a build with a heap: one closure told of every lost reply. *)
Definition lose (reaction : Reaction) (r : BatchRefusal) (name : string) (replies : list T)
    (lent : nat -> nat -> bytes) : Work :=
  let '(e, lost) := into_lost r name replies lent in OnError (on_error reaction) (mk_failed e <$> lost).

(** [BatchPublishingHandler::handle_batch] past the decoding; [deliver] is the wiring's
    [publish_batch]. *)
Definition handle_batch_reply
    (deliver : S -> EncodeBuf -> string -> list T -> S * EncodeBuf * result unit BatchRefusal)
    (reply_name : string) (s : S) (buf : EncodeBuf) (hooks : H) (call : result (list T) R)
    : option (S * H * Replied R) :=
  match call with
  | Err result => Some (s, hooks, Skipped result)
  | Ok replies =>
      let '(s, buf, sent) := deliver s buf reply_name replies in
      '(reaction, hooks) ← take_reaction_for_ack hooks;
      Some (s, hooks,
        match sent, reaction with
        | Ok _, reaction => Acked (publish_done reaction) None
        | Err refusal, Some reaction =>
            Acked (Some (lose reaction refusal reply_name replies (fun addr len => lent_bytes buf addr len []))) None
        | Err refusal, None => Acked None (Some (into_error refusal))
        end)
  end.

End settled.
End typed.

(** ** What is told of a lost reply *)

Section told.
Context {S T R H : Type} `{Hooks.HookStore H} {hooks_ok : H -> Prop} `{!Hooks.LawfulHooks H hooks_ok}.
Context (form : PayloadForm) (codec : T -> result bytes BoxError) (base_headers : option HeaderMap).
Context (layers : Outgoing -> Outgoing) (publisher : PublishFn S).

(** A transform leaves the payload where it was, or writes one of its own. *)
Definition keeps_payload : Prop :=
  forall out, payload (layers out) = payload out \/ exists b, payload (layers out) = Owned b.
(** A publisher that gives a message back gives back the one it was handed. *)
Definition gives_back : Prop :=
  forall s n b hs s' e b' hs', publisher s (n, b, hs) = (s', Err (e, Some (b', hs'))) ->
    hs' = hs /\ (form = Take -> b' = b).

Abbreviation run := (run_identity form publisher).
Definition payload_of (buf : EncodeBuf) (b : bytes) : Payload :=
  match form with Lend => Lent (buf_at buf) (length b) | Take => Owned b end.
(** The message of a value whose encoding is [b], as the publisher is handed it. *)
Definition wire (buf : EncodeBuf) (declared : string) (b : bytes) : string * bytes * HeaderMap :=
  let out := layers (outgoing base_headers declared (payload_of buf b)) in
  (name out, match payload out with Owned b' => b' | _ => b end, headers out).

(** What a failed publish tells of a message: the one that was sent, where it came back. *)
Definition as_sent (m : string * bytes * HeaderMap) : FailedMessage := mk_failed_message m.1.1 (Some m.1.2) m.2.
Definition nothing_of (declared : string) : FailedMessage := mk_failed_message declared None HeaderMap.new.

Lemma bytes_of_buffer at_ b : bytes_of (mk_buf at_ b) (0, []) (Lent at_ (length b)) = b.
Proof.
  unfold bytes_of. simpl. destruct (Nat.eqb_spec (length b) 0) as [Hz|]; [by apply length_zero_iff_nil in Hz|].
  by rewrite !Nat.eqb_refl.
Qed.
Lemma lent_bytes_buffer at_ b own : lent_bytes (mk_buf at_ b) at_ (length b) own = b.
Proof.
  unfold lent_bytes. simpl. destruct (Nat.eqb_spec (length b) 0) as [Hz|]; [by apply length_zero_iff_nil in Hz|].
  by rewrite !Nat.eqb_refl.
Qed.

Lemma into_message_sent_to e p hs declared n lent :
  into_message (sent_to (mk_refusal e (Some (mk_unsent None p hs))) declared n) declared lent =
    (e, mk_failed_message n
          match p with
          | PublishFailure.Owned b => Some b
          | PublishFailure.Lent addr len =>
              if length (lent addr len) =? len then Some (lent addr len) else None
          end hs).
Proof. unfold sent_to, into_message. by destruct (String.eqb_spec n declared) as [->|]. Qed.
Lemma sent_to_error r declared n : PublishFailure.error (sent_to r declared n) = PublishFailure.error r.
Proof. unfold sent_to. by destruct (String.eqb _ _). Qed.

Lemma refusal_of_error e out : PublishFailure.error (refusal_of e out) = e.
Proof. unfold refusal_of. by destruct (payload out). Qed.

(** What the pipeline leaves of a message the publisher gave back reads as the message it was. *)
Lemma refusal_reads_as_sent e at_ b declared n p hs own (b' : bytes) :
  p = Lent at_ (length b) \/ p = Owned b' ->
  into_message (sent_to (refusal_of e (mk_outgoing n p hs)) declared n) declared
    (fun addr len => lent_bytes (mk_buf at_ b) addr len own) =
    (e, mk_failed_message n (Some match p with Owned b' => b' | _ => b end) hs).
Proof.
  intros [->| ->]; unfold refusal_of; simpl; rewrite into_message_sent_to; [|done].
  by rewrite lent_bytes_buffer, Nat.eqb_refl.
Qed.

(** One reply through the typed wiring, and what its refusal gives back. *)
Definition published (s : S) (declared : string) (buf : EncodeBuf) (value : T) (s' : S) (buf' : EncodeBuf)
    (r : result unit Refusal) : Prop :=
  buf_at buf' = buf_at buf /\
  match codec value with
  | Err e => s' = s /\ r = Err (new_refusal e)
  | Ok b =>
      match publisher s (wire buf declared b) with
      | (s1, Ok _) => s' = s1 /\ r = Ok tt
      | (s1, Err (e, back)) =>
          s' = s1 /\ exists refusal, r = Err refusal /\ PublishFailure.error refusal = e /\
            forall own, (into_message refusal declared (fun addr len => lent_bytes buf' addr len own)) =
              (e, match back with Some _ => as_sent (wire buf declared b) | None => nothing_of declared end)
      end
  end.

Lemma publish_spec s buf declared value :
  keeps_payload -> gives_back ->
  let '(s', buf', r) := publish form codec base_headers layers run s buf declared value in
  published s declared buf value s' buf' r.
Proof.
  intros Hk Hg. unfold publish, encoded, published. destruct (codec value) as [b|e]; [|by destruct form].
  set (buf' := match form with Lend => mk_buf (buf_at buf) b | Take => buf end).
  assert (He : (match form with
    | Lend => (mk_buf (buf_at buf) b, Ok (Lent (buf_at buf) (length b)))
    | Take => (buf, Ok (Owned b))
    end : EncodeBuf * result Payload BoxError) = (buf', Ok (payload_of buf b))) by (unfold buf', payload_of; by destruct form).
  rewrite He. clear He. unfold sends, run_identity. unfold wire.
  set (out := layers (outgoing base_headers declared (payload_of buf b))).
  assert (Hb : bytes_of buf' (0, []) (payload out) = match payload out with Owned b' => b' | _ => b end).
  { destruct (Hk (outgoing base_headers declared (payload_of buf b))) as [Hp|[b' Hp]]; fold out in Hp; rewrite Hp; [|done].
    simpl. unfold payload_of, buf'. destruct form; [apply bytes_of_buffer|done]. }
  rewrite Hb. set (body := match payload out with Owned b' => b' | _ => b end) in *.
  destruct (publisher s (name out, body, headers out)) as [s1 [u|[e [[b' hs']|]]]] eqn:Hpub.
  - split; [unfold buf'; by destruct form|]. by destruct u.
  - split; [unfold buf'; by destruct form|]. split; [done|]. eexists. split; [reflexivity|].
    destruct (Hg _ _ _ _ _ _ _ _ Hpub) as [-> Hb'].
    split; [by rewrite sent_to_error, refusal_of_error|]. intros own. unfold as_sent. cbn [fst snd].
    assert (Hform : form = Lend \/ form = Take) by (destruct form; auto).
    destruct Hform as [Hf|Hf]; unfold buf'; rewrite Hf; cbn [payload name].
    + assert (Hp : payload out = Lent (buf_at buf) (length b) \/ payload out = Owned body).
      { destruct (Hk (outgoing base_headers declared (payload_of buf b))) as [Hp|[b0 Hp]]; fold out in Hp;
          [left; rewrite Hp; unfold payload_of; by rewrite Hf|right]. unfold body. by rewrite Hp. }
      by rewrite (refusal_reads_as_sent _ _ _ _ _ _ _ _ body).
    + rewrite Hb' by done. unfold refusal_of. cbn [payload headers]. by rewrite into_message_sent_to.
  - split; [unfold buf'; by destruct form|]. split; [done|]. eexists. split; [reflexivity|]. simpl.
    unfold sent_to. simpl. destruct (String.eqb _ _); done.
Qed.

(** The reaction a handler registered for the acknowledgement, and what it makes of the publish. *)
Definition reaction_of (hooks : H) : option (ErrorHook * option Continuation) :=
  (Hooks.pick Hooks.KAck None (Hooks.view hooks)).1.
Definition took_reaction (hooks hooks' : H) : Prop :=
  hooks_ok hooks' /\ Hooks.view hooks' = (Hooks.pick Hooks.KAck None (Hooks.view hooks)).2.
Definition told (hooks : H) (e : BoxError) (lost : list FailedMessage) : Replied R :=
  match reaction_of hooks with
  | Some (hook, _) => Acked (Some (OnError hook (mk_failed e <$> lost))) None
  | None => Acked None (Some e)
  end.
Definition followed (hooks : H) : Replied R := Acked (Then <$> (reaction_of hooks ≫= snd)) None.

Lemma take_reaction_for_ack_spec (hooks : H) :
  hooks_ok hooks ->
  exists hooks', take_reaction_for_ack hooks =
    Some (match reaction_of hooks with Some (e, t) => Some (mk_reaction e t) | None => None end, hooks') /\
    took_reaction hooks hooks'.
Proof.
  intros Hok. unfold take_reaction_for_ack, took_reaction, reaction_of.
  destruct (Hooks.is_empty hooks) eqn:He.
  - apply (Hooks.empty_view _ Hok) in He. rewrite He. by exists hooks.
  - destruct (Hooks.reaction_view hooks Hooks.KAck Hok) as (hooks' & Ht & Hok' & Hv). rewrite Ht. by exists hooks'.
Qed.

Lemma handle_reply_spec s buf hooks reply_name call :
  keeps_payload -> gives_back -> hooks_ok hooks ->
  exists s' hooks' (a : Replied R),
    handle_reply (publish form codec base_headers layers run) (fun _ => []) reply_name s buf hooks call =
      Some (s', hooks', a) /\
    match call with
    | Err own => s' = s /\ hooks' = hooks /\ a = Skipped own
    | Ok value =>
        took_reaction hooks hooks' /\
        match codec value with
        | Err e => s' = s /\ a = told hooks e [nothing_of reply_name]
        | Ok b =>
            let m := wire buf reply_name b in
            let '(s1, r) := publisher s m in
            s' = s1 /\
            a = match r with
                | Ok _ => followed hooks
                | Err (e, Some _) => told hooks e [as_sent m]
                | Err (e, None) => told hooks e [nothing_of reply_name]
                end
        end
    end.
Proof.
  intros Hk Hg Hok. unfold handle_reply. destruct call as [value|own]; [|by exists s, hooks, (Skipped own)].
  pose proof (publish_spec s buf reply_name value Hk Hg) as Hp.
  destruct (publish _ _ _ _ _ _ _ _ _) as [[s' buf'] r]. destruct Hp as [_ Hp].
  destruct (take_reaction_for_ack_spec hooks Hok) as (hooks' & -> & Htook). exists s', hooks'.
  unfold told, followed. destruct (codec value) as [b|e].
  - destruct (publisher s (wire buf reply_name b)) as [s1 [u|[e back]]].
    + destruct Hp as [-> ->]. eexists. split; [reflexivity|]. split; [done|]. split; [done|].
      destruct (reaction_of hooks) as [[hook t]|]; done.
    + destruct Hp as (-> & refusal & -> & He & Hm). rewrite Hm. eexists. split; [reflexivity|]. split; [done|].
      split; [done|]. destruct (reaction_of hooks) as [[hook t]|], back; done.
  - destruct Hp as [-> ->]. eexists. split; [reflexivity|]. split; [done|]. split; [done|].
    destruct (reaction_of hooks) as [[hook t]|]; done.
Qed.

(** ** The replies of a batch, one by one *)

Abbreviation deliver_batch := (fun s buf name replies =>
  publish_each form codec base_headers layers run s buf name 0 replies).

(** The publisher took every one of these replies, in their order. *)
Inductive all_sent (declared : string) : S -> EncodeBuf -> list T -> S -> EncodeBuf -> Prop :=
  | none_left s buf : all_sent declared s buf [] s buf
  | one_sent s buf value b s1 buf1 rest s2 buf2 u :
      codec value = Ok b -> publisher s (wire buf declared b) = (s1, Ok u) -> buf_at buf1 = buf_at buf ->
      all_sent declared s1 buf1 rest s2 buf2 -> all_sent declared s buf (value :: rest) s2 buf2.

(** The publisher refused this one, or the codec did, and this is what comes back of it. *)
Definition refused (declared : string) (s : S) (buf : EncodeBuf) (value : T) (s' : S) (e : BoxError)
    (back : FailedMessage) : Prop :=
  match codec value with
  | Err e' => s' = s /\ e = e' /\ back = nothing_of declared
  | Ok b =>
      match publisher s (wire buf declared b) with
      | (_, Ok _) => False
      | (s1, Err (e', kept)) =>
          s' = s1 /\ e = e' /\
          back = match kept with Some _ => as_sent (wire buf declared b) | None => nothing_of declared end
      end
  end.
Definition again (declared : string) (value : T) : FailedMessage :=
  mk_failed_message declared (Some (encoded_with codec value)) HeaderMap.new.

Lemma publish_each_spec declared s buf i replies :
  keeps_payload -> gives_back ->
  let '(s', buf', r) := publish_each form codec base_headers layers run s buf declared i replies in
  match r with
  | Ok _ => all_sent declared s buf replies s' buf'
  | Err refusal =>
      exists n s1 buf1 value back r, replies !! n = Some value /\
        all_sent declared s buf (take n replies) s1 buf1 /\
        refused declared s1 buf1 value s' (into_error refusal) back /\
        refusal = refused_at (i + n) (i + n) r /\
        into_message r declared (fun addr len => lent_bytes buf' addr len []) = (into_error refusal, back)
  end.
Proof.
  intros Hk Hg. revert s buf i. induction replies as [|value rest IH]; intros s buf i; [constructor|].
  cbn [publish_each]. change publish_batched with (@publish S T).
  pose proof (publish_spec s buf declared value Hk Hg) as Hp.
  destruct (publish _ _ _ _ _ _ _ _ _) as [[s1 buf1] [u|r]]; destruct Hp as [Hat Hp].
  - destruct (codec value) as [b|] eqn:Hc; [|by destruct Hp].
    destruct (publisher s (wire buf declared b)) as [s2 [u'|[e back]]] eqn:Hpub;
      [|by destruct Hp as (_ & ? & ? & _)].
    destruct Hp as [-> _]. specialize (IH s2 buf1 (Datatypes.S i)).
    destruct (publish_each _ _ _ _ _ _ _ _ _ _) as [[s' buf'] [u''|refusal]].
    + by econstructor.
    + destruct IH as (n & s3 & buf3 & v & back & r & Hn & Hall & Href & -> & Hm).
      exists (Datatypes.S n), s3, buf3, v, back, r. simpl. split_and!; [done|by econstructor|done| |done].
      by rewrite Nat.add_succ_r.
  - exists 0, s, buf, value. simpl. rewrite Nat.add_0_r. unfold refused, into_error. simpl.
    destruct (codec value) as [b|e] eqn:Hc.
    + destruct (publisher s (wire buf declared b)) as [s2 [u'|[e back]]] eqn:Hpub; [by destruct Hp|].
      destruct Hp as (-> & refusal & [= ->] & He & Hm). eexists _, refusal.
      split; [done|]. split; [constructor|]. split; [by split_and!|]. split; [done|]. by rewrite Hm, He.
    + destruct Hp as [-> [= ->]]. eexists _, _. split; [done|]. split; [constructor|]. split; [by split_and!|].
      by split.
Qed.
Lemma lost_messages_none declared refused i replies :
  lost_messages codec declared refused None i replies = again declared <$> replies.
Proof.
  revert i. induction replies as [|reply rest IH]; intros i; [done|]. simpl. by rewrite IH.
Qed.
(** The refused reply as it came back, every other one encoded again. *)
Lemma lost_messages_spec declared n back i replies :
  i <= n -> n - i < length replies ->
  lost_messages codec declared (Some n) (Some back) i replies =
    (again declared <$> take (n - i) replies) ++ back :: (again declared <$> skipn (Datatypes.S (n - i)) replies).
Proof.
  revert i. induction replies as [|reply rest IH]; intros i Hi Hn; [simpl in Hn; lia|]. cbn [lost_messages].
  destruct (decide (i = n)) as [->|Hne].
  - rewrite bool_decide_true by done. rewrite Nat.sub_diag, lost_messages_none. done.
  - rewrite bool_decide_false by (intros [= ->]; done). simpl in Hn. rewrite IH by lia.
    replace (n - i) with (Datatypes.S (n - Datatypes.S i)) by lia. done.
Qed.
Lemma into_lost_from_refused declared n r replies value lent e back :
  replies !! n = Some value -> into_message r declared lent = (e, back) ->
  into_lost codec (refused_at n n r) declared replies lent =
    (e, back :: (again declared <$> skipn (Datatypes.S n) replies)).
Proof.
  intros Hn Hm. apply lookup_lt_Some in Hn. unfold into_lost, cause_parts. cbn [cause refused_at lost_from].
  rewrite Hm, lost_messages_spec; [|lia|rewrite Nat.sub_diag, length_skipn; lia].
  by rewrite Nat.sub_diag, skipn_skipn, Nat.add_1_l.
Qed.
Lemma push_lost_spec elements e declared refused sent i lost replies :
  length lost + length replies <= elements ->
  push_lost codec elements e declared refused sent i lost replies =
    Some (lost ++ (mk_failed e <$> lost_messages codec declared refused sent i replies)).
Proof.
  revert sent i lost. induction replies as [|reply rest IH]; intros sent i lost Hle; [by rewrite app_nil_r|].
  cbn [push_lost lost_messages]. simpl in Hle.
  assert (Hlt : (length lost <? elements) = true) by (apply Nat.ltb_lt; lia).
  destruct sent as [m|]; [destruct (bool_decide _)|]; rewrite Hlt, IH by (rewrite length_app; simpl; lia);
    by rewrite <-app_assoc.
Qed.
(** The two builds tell the same replies, where the buffer holds a whole batch. *)
Lemma into_failed_spec elements r declared replies lent :
  length replies <= elements ->
  into_failed codec elements r declared replies lent =
    Some (let '(e, lost) := into_lost codec r declared replies lent in mk_failed e <$> lost).
Proof.
  intros Hle. unfold into_failed, into_lost. destruct (cause_parts r declared lent) as [[e refused] sent].
  rewrite push_lost_spec; [done|]. simpl. rewrite length_skipn. lia.
Qed.

(** C5. Replies are published once each and told once where they are lost.  The reply of a delivery is
    encoded, transformed and handed to the publisher at most once; the delivery is acknowledged whatever
    came of it, and where it was refused the [.error] closure registered for the acknowledgement is told
    of exactly the message that was sent, its destination, bytes and headers, in either form of
    publisher, or of none where the publisher kept it or the codec refused it.  The replies of a batch
    go out in order up to the first that is refused; the closure is told of that one as it was sent and
    of every later one encoded anew, in order; and what to do after the acknowledgement runs exactly
    where everything went out. *)
Theorem lost_replies_are_told s buf hooks reply_name (call : result T R) (batch : result (list T) R) :
  keeps_payload -> gives_back -> hooks_ok hooks ->
  (exists s' hooks' (a : Replied R),
    handle_reply (publish form codec base_headers layers run) (fun _ => []) reply_name s buf hooks call =
      Some (s', hooks', a) /\
    match call with
    | Err own => s' = s /\ hooks' = hooks /\ a = Skipped own
    | Ok value =>
        took_reaction hooks hooks' /\
        match codec value with
        | Err e => s' = s /\ a = told hooks e [nothing_of reply_name]
        | Ok b =>
            let m := wire buf reply_name b in
            let '(s1, r) := publisher s m in
            s' = s1 /\
            a = match r with
                | Ok _ => followed hooks
                | Err (e, Some _) => told hooks e [as_sent m]
                | Err (e, None) => told hooks e [nothing_of reply_name]
                end
        end
    end) /\
  exists s' hooks' (a : Replied R),
    handle_batch_reply codec deliver_batch reply_name s buf hooks batch = Some (s', hooks', a) /\
    match batch with
    | Err own => s' = s /\ hooks' = hooks /\ a = Skipped own
    | Ok replies =>
        took_reaction hooks hooks' /\
        ((exists buf', all_sent reply_name s buf replies s' buf') /\ a = followed hooks \/
         exists n s1 buf1 value e back, replies !! n = Some value /\
           all_sent reply_name s buf (take n replies) s1 buf1 /\
           refused reply_name s1 buf1 value s' e back /\
           a = told hooks e (back :: (again reply_name <$> skipn (Datatypes.S n) replies)))
    end.
Proof.
  intros Hk Hg Hok. split; [by apply handle_reply_spec|]. unfold handle_batch_reply.
  destruct batch as [replies|own]; [|by exists s, hooks, (Skipped own)].
  pose proof (publish_each_spec reply_name s buf 0 replies Hk Hg) as Hp.
  destruct (publish_each _ _ _ _ _ _ _ _ _ _) as [[s' buf'] r].
  destruct (take_reaction_for_ack_spec hooks Hok) as (hooks' & -> & Htook). unfold told, followed.
  exists s', hooks'. destruct r as [u|refusal].
  - eexists. split; [reflexivity|]. split; [done|]. left. split; [by exists buf'|].
    by destruct (reaction_of hooks) as [[hook t]|].
  - destruct Hp as (n & s1 & buf1 & value & back & r & Hn & Hall & Href & Hr & Hm).
    eexists. split; [reflexivity|]. split; [done|]. right.
    exists n, s1, buf1, value, (into_error refusal), back. split_and!; [done|done|done|].
    destruct (reaction_of hooks) as [[hook t]|]; [|done]. unfold lose. subst refusal. rewrite Nat.add_0_l in *.
    by rewrite (into_lost_from_refused _ _ _ _ _ _ _ _ Hn Hm).
Qed.

End told.


(** ** The byte wiring *)

Section bare.
Context {S T : Type} (form : PayloadForm).
(** What a serialized value answers with, bytes it holds at an address or bytes for the buffer. *)
Context (wire_bytes : T -> result (bytes + bytes) BoxError) (value_at : T -> nat) (publisher : PublishFn S).

(** [PayloadForm::serialized]. *)
Definition serialized (buf : EncodeBuf) (value : T) : EncodeBuf * result Payload BoxError :=
  match form, wire_bytes value with
  | Lend, Ok (inl own) => (mk_buf (buf_at buf) [], Ok (Lent (value_at value) (length own)))
  | Lend, Ok (inr b) => (mk_buf (buf_at buf) b, Ok (Lent (buf_at buf) (length b)))
  | Lend, Err e => (mk_buf (buf_at buf) [], Err e)
  | Take, Ok (inl b | inr b) => (buf, Ok (Owned b))
  | Take, Err e => (buf, Err e)
  end.
(** [serialized_bytes]. *)
Definition serialized_bytes (value : T) : bytes :=
  match wire_bytes value with Ok (inl b | inr b) => b | Err _ => [] end.

(** [deliver_bare], with [PayloadForm::kept] for what comes back. *)
Definition deliver_bare (s : S) (buf : EncodeBuf) (name : string) (value : T) : S * EncodeBuf * result unit Refusal :=
  match serialized buf value with
  | (buf, Err e) => (s, buf, Err (new_refusal e))
  | (buf, Ok p) =>
      let '(s, r) := publisher s (name, bytes_of buf (value_at value, serialized_bytes value) p, HeaderMap.new) in
      (s, buf,
       map_err (fun '(e, back) =>
         returned e
           match back with
           | Some (b, hs) =>
               Some (match p with
                     | Lent addr len => PublishFailure.Lent addr len
                     | _ => PublishFailure.Owned b
                     end, hs)
           | None => None
           end) r)
  end.

(** A refused byte reply comes back with the bytes it was published with, its own included; its value
    does not lie in the encode buffer. *)
Lemma bare_reply_comes_back s buf name value s' buf' refusal :
  gives_back form publisher -> value_at value <> buf_at buf ->
  deliver_bare s buf name value = (s', buf', Err refusal) ->
  match wire_bytes value with
  | Err e => s' = s /\ refusal = new_refusal e
  | Ok _ =>
      exists e back, publisher s (name, serialized_bytes value, HeaderMap.new) = (s', Err (e, back)) /\
        into_message refusal name (fun addr len => lent_bytes buf' addr len (serialized_bytes value)) =
          (e, match back with
              | Some _ => as_sent (name, serialized_bytes value, HeaderMap.new)
              | None => nothing_of name
              end)
  end.
Proof.
  intros Hg Hne. unfold deliver_bare, serialized, serialized_bytes.
  destruct (wire_bytes value) as [[b|b]|e]; [| |by destruct form; intros [= <- <- <-]].
  all: assert (Hform : form = Lend \/ form = Take) by (destruct form; auto);
    destruct Hform as [Hf|Hf]; rewrite Hf.
  1: assert (Hb : bytes_of (mk_buf (buf_at buf) []) (value_at value, b) (Lent (value_at value) (length b)) = b).
  1: { unfold bytes_of. simpl. destruct (Nat.eqb_spec (length b) 0) as [Hz|]; [by apply length_zero_iff_nil in Hz|].
       rewrite (proj2 (Nat.eqb_neq _ _) Hne), !Nat.eqb_refl. done. }
  3: assert (Hb : bytes_of (mk_buf (buf_at buf) b) (value_at value, b) (Lent (buf_at buf) (length b)) = b).
  3: { unfold bytes_of. simpl. destruct (Nat.eqb_spec (length b) 0) as [Hz|]; [by apply length_zero_iff_nil in Hz|].
       by rewrite !Nat.eqb_refl. }
  1, 3: rewrite Hb.
  3, 4: cbn [bytes_of].
  all: destruct (publisher s (name, b, HeaderMap.new)) as [s1 [u|[e [[b' hs']|]]]] eqn:Hp; intros [= <- <- <-];
    exists e; eexists; (split; [reflexivity|]); try done.
  all: destruct (Hg _ _ _ _ _ _ _ _ Hp) as [-> Hb']; unfold into_message, as_sent; simpl.
  - assert (Hl : lent_bytes (mk_buf (buf_at buf) []) (value_at value) (length b) b = b).
    { unfold lent_bytes. simpl. destruct (Nat.eqb_spec (length b) 0) as [Hz|]; [by apply length_zero_iff_nil in Hz|].
      by rewrite (proj2 (Nat.eqb_neq _ _) Hne). }
    by rewrite Hl, Nat.eqb_refl.
  - by rewrite lent_bytes_buffer, Nat.eqb_refl.
  - by rewrite Hb'.
  - by rewrite Hb'.
Qed.
End bare.


(** ** A batch of three whose second reply is refused *)

Definition ex_codec (n : nat) : result bytes BoxError := Ok (as_bytes (if n =? 2 then "two" else "other")).
Definition ex_publisher : PublishFn nat := fun s m =>
  if s <? 1 then (Datatypes.S s, Ok tt) else (s, Err ("full"%string, Some (m.1.2, m.2))).
Definition ex_hooks : list Hooks.AfterHook := [Hooks.mk_hook (Some Hooks.KAck) None (Some (OwnHook 7))].

#[local] Existing Instances Hooks.Heap.heap_hooks Hooks.Heap.heap_lawful.
Lemma lost_replies_are_told_witness :
  exists s' hooks', handle_batch_reply (R := nat) ex_codec
    (fun s buf name replies => publish_each Lend ex_codec None id (run_identity Lend ex_publisher) s buf name 0 replies)
    "out" 0 (mk_buf 5 []) ex_hooks (Ok [1; 2; 3]) =
  Some (s', hooks', Acked (Some (OnError (OwnHook 7) (mk_failed "full" <$>
    [mk_failed_message "out" (Some (as_bytes "two")) HeaderMap.new;
     mk_failed_message "out" (Some (as_bytes "other")) HeaderMap.new]))) None).
Proof.
  destruct (lost_replies_are_told (R := nat) Lend ex_codec None id ex_publisher 0 (mk_buf 5 []) ex_hooks "out"
    (Err 0) (Ok [1; 2; 3])) as (_ & s' & hooks' & a & Hr & _).
  - intros out. by left.
  - intros s n b hs s' e b' hs' Hp. unfold ex_publisher in Hp. destruct (s <? 1); [discriminate Hp|].
    injection Hp as <- <- <- <-. by split.
  - exact I.
  - exists s', hooks'. rewrite Hr. vm_compute in Hr. injection Hr as <- <- <-. reflexivity.
Defined.

End Replies.
