(* ===== verification/ReplyTxn.v ===== *)
(** * The replies of a batch in one transaction ([runtime/src/publish/reply.rs], [publish/publisher.rs])

    A [.transactional()] wiring publishes every reply of a batch between the begin and the commit of one
    broker transaction, and the batches of a pool take turns at the publisher.  The publisher is an
    interface whose laws are the documented contract of [TransactionalPublisher]; the in-memory
    publisher keeps them.  The batches are interleaved one publisher call at a time, and one may be
    abandoned between two calls: unwound by a panic of the user's code, or dropped. *)
From Stdlib Require Import Ascii String.
From S2P Require Import Prelude RustStd Headers Queue PublishFailure Memory MemoryBroker Replies.

Module ReplyTxn.
Import PublishFailure Replies.

(** ** The interface of a transactional publisher *)

Abbreviation Message := (string * bytes * HeaderMap)%type.

Class TransactionalPublisher (S : Type) := {
  publish : PublishFn S;
  begin_transaction : S -> S * result unit BoxError;
  commit : S -> S * result unit BoxError;
  abort : S -> S * result unit BoxError;
}.

(** What is visible to subscribers, and the messages of the open transaction.  A publish inside one
    adds its message or fails; a begin with one open is refused and leaves it; a commit makes all of
    them visible or none and closes it either way; an abort makes none visible. *)
Class TransactionalLaws (S V : Type) `{TransactionalPublisher S} (visible : S -> V)
    (open_ : S -> option (list Message)) (deliver : V -> list Message -> V) := {
  publish_law s m s' r l : open_ s = Some l -> publish s m = (s', r) ->
    visible s' = visible s /\ match r with Ok _ => open_ s' = Some (l ++ [m]) | Err _ => True end;
  begin_law s s' r : begin_transaction s = (s', r) ->
    visible s' = visible s /\
    match open_ s, r with
    | None, Ok _ => open_ s' = Some []
    | Some _, Ok _ => False
    | o, Err _ => open_ s' = o
    end;
  commit_law s s' r l : open_ s = Some l -> commit s = (s', r) ->
    open_ s' = None /\ visible s' = match r with Ok _ => deliver (visible s) l | Err _ => visible s end;
  abort_law s s' r : abort s = (s', r) -> visible s' = visible s;
}.

(** ** The batches of a pool, taking turns *)

Section pool.
Context {S T : Type} `{TransactionalPublisher S}.
(** The typed stack of the wiring, and the name its replies go to. *)
Context (form : PayloadForm) (codec : T -> result bytes BoxError) (base_headers : option HeaderMap).
Context (batch_layers : Outgoing -> Outgoing) (reply_name : string).

(** One reply through the stack down to the publisher, with the encode buffer it writes. *)
Definition publish_batched (s : S) (buf : EncodeBuf) (reply : T) : S * EncodeBuf * result unit Refusal :=
  Replies.publish_batched form codec base_headers batch_layers (run_identity form publish) s buf reply_name reply.

(** One call of [Transactional::publish_batch]: before its turn, with the turn and before the begin,
    inside the transaction with the replies that were sent and the ones that are not, about to abort,
    and over.  [Abandoned] was unwound or dropped, which releases the turn and nothing else. *)
Inductive BatchAt :=
  | Queued (replies : list T)
  | Begins (replies : list T)
  | Sends (buf : EncodeBuf) (sent left_ : list T)
  | Aborts (refusal : BatchRefusal)
  | Over (r : result unit BatchRefusal)
  | Abandoned.

(** [committed]: the batches whose commit succeeded, in order. *)
Record World := mk_world {
  publisher : S;
  turn : option nat;
  batches : list BatchAt;
  committed : list nat;
}.

Inductive Turn :=
  | Goes (i : nat) (buf : EncodeBuf)
  | Leaves (i : nat).

Definition goes_on (w : World) (i : nat) (s : S) (at_ : BatchAt) : World :=
  mk_world s (turn w) (<[i := at_]> (batches w)) (committed w).
Definition takes_turn (w : World) (i : nat) (replies : list T) : World :=
  mk_world (publisher w) (Some i) (<[i := Begins replies]> (batches w)) (committed w).
(** The call returns or is unwound: its guard drops. *)
Definition ends (w : World) (i : nat) (s : S) (at_ : BatchAt) (newly : list nat) : World :=
  mk_world s None (<[i := at_]> (batches w)) (committed w ++ newly).

(** The next call of batch [i]; [buf] is the buffer its dispatch lends it. *)
Definition batch_goes (w : World) (i : nat) (buf : EncodeBuf) (at_ : BatchAt) : option World :=
  let s := publisher w in
  match at_ with
  | Queued replies =>
      match turn w with None => Some (takes_turn w i replies) | Some _ => None end
  | Begins replies =>
      let '(s, r) := begin_transaction s in
      Some match r with
      | Ok _ => goes_on w i s (Sends buf [] replies)
      | Err e => ends w i s (Over (Err (whole e))) []
      end
  | Sends buf sent (reply :: rest) =>
      let '(s, buf, r) := publish_batched s buf reply in
      Some match r with
      | Ok _ => goes_on w i s (Sends buf (sent ++ [reply]) rest)
      | Err refusal => goes_on w i s (Aborts (refused_at (length sent) 0 refusal))
      end
  | Sends _ _ [] =>
      let '(s, r) := commit s in
      Some match r with
      | Ok _ => ends w i s (Over (Ok tt)) [i]
      | Err e => ends w i s (Over (Err (whole e))) []
      end
  | Aborts refusal =>
      (* [abort_quietly]: a failed abort is only logged. *)
      let '(s, _) := abort s in Some (ends w i s (Over (Err refusal)) [])
  | Over _ | Abandoned => None
  end.

(** A call is abandoned before it returned; only the holder of the turn holds something. *)
Definition batch_leaves (w : World) (i : nat) (at_ : BatchAt) : option World :=
  match at_ with
  | Queued _ => Some (goes_on w i (publisher w) Abandoned)
  | Begins _ | Sends _ _ _ | Aborts _ => Some (ends w i (publisher w) Abandoned [])
  | Over _ | Abandoned => None
  end.

Definition step (w : World) (t : Turn) : option World :=
  match t with
  | Goes i buf => match batches w !! i with Some at_ => batch_goes w i buf at_ | None => None end
  | Leaves i => match batches w !! i with Some at_ => batch_leaves w i at_ | None => None end
  end.
Fixpoint steps (w : World) (ts : list Turn) : option World :=
  match ts with
  | [] => Some w
  | t :: ts => match step w t with Some w => steps w ts | None => None end
  end.

Definition start (s : S) (replies : list (list T)) : World := mk_world s None (Queued <$> replies) [].

(** A batch on its own, run to its end: [Transactional::publish_batch]. *)
Fixpoint publish_in_transaction (s : S) (buf : EncodeBuf) (index : nat) (replies : list T)
    : S * EncodeBuf * result unit BatchRefusal :=
  match replies with
  | [] => let '(s, r) := commit s in (s, buf, map_err whole r)
  | reply :: rest =>
      match publish_batched s buf reply with
      | (s, buf, Ok _) => publish_in_transaction s buf (Datatypes.S index) rest
      | (s, buf, Err refusal) => ((abort s).1, buf, Err (refused_at index 0 refusal))
      end
  end.
Definition publish_transaction (s : S) (buf : EncodeBuf) (replies : list T) : S * EncodeBuf * result unit BatchRefusal :=
  match begin_transaction s with
  | (s, Err e) => (s, buf, Err (whole e))
  | (s, Ok _) => publish_in_transaction s buf 0 replies
  end.

(** ** What holds of a pool *)

Section laws.
Context {V : Type} (visible : S -> V) (open_ : S -> option (list Message)) (deliver : V -> list Message -> V).
Context `{!TransactionalLaws S V visible open_ deliver}.
Context (Hkeeps : keeps_payload batch_layers) (Hgives : gives_back form publish).

(** The message a reply is published as. *)
Definition message_of (reply : T) (m : Message) : Prop :=
  exists buf b, codec reply = Ok b /\ m = wire form base_headers batch_layers buf reply_name b.

Lemma publish_batched_open s buf reply s' buf' r l :
  open_ s = Some l -> publish_batched s buf reply = (s', buf', r) ->
  visible s' = visible s /\
  match r with Ok _ => exists m, message_of reply m /\ open_ s' = Some (l ++ [m]) | Err _ => True end.
Proof.
  intros Ho Hp. unfold publish_batched in Hp. change @Replies.publish_batched with @Replies.publish in Hp.
  pose proof (publish_spec form codec base_headers batch_layers publish s buf reply_name reply Hkeeps Hgives) as Hs.
  rewrite Hp in Hs. destruct Hs as [_ Hs]. destruct (codec reply) as [b|e] eqn:Hc; [|by destruct Hs as [-> ->]].
  destruct (publish s (wire form base_headers batch_layers buf reply_name b)) as [s1 [u|[e back]]] eqn:Hpub.
  - destruct Hs as [-> ->]. destruct (publish_law _ _ _ _ _ Ho Hpub) as [Hv Hl]. split; [done|].
    eexists. split; [|exact Hl]. by exists buf, b.
  - destruct Hs as (-> & refusal & -> & _). by destruct (publish_law _ _ _ _ _ Ho Hpub).
Qed.

Definition holds_turn (at_ : BatchAt) : bool :=
  match at_ with Begins _ | Sends _ _ _ | Aborts _ => true | _ => false end.
(** A batch whose replies were [replies], at [at_], with the publisher at [s]. *)
Definition batch_ok (s : S) (replies : list T) (at_ : BatchAt) : Prop :=
  match at_ with
  | Queued r | Begins r => r = replies
  | Sends _ sent left_ =>
      sent ++ left_ = replies /\ exists l, open_ s = Some l /\ Forall2 message_of sent l
  | Aborts _ | Over _ | Abandoned => True
  end.

Record pool_ok (s0 : S) (initial : list (list T)) (w : World) : Prop := mk_pool_ok {
  all_here : length (batches w) = length initial;
  turn_held : forall i at_, batches w !! i = Some at_ -> (holds_turn at_ = true <-> turn w = Some i);
  each_batch : forall i at_ replies, batches w !! i = Some at_ -> initial !! i = Some replies ->
    batch_ok (publisher w) replies at_;
  once : NoDup (committed w);
  ok_is_committed : forall i, i ∈ committed w <-> batches w !! i = Some (Over (Ok tt));
  seen : exists delivered,
    Forall2 (fun i l => exists replies, initial !! i = Some replies /\ Forall2 message_of replies l)
      (committed w) delivered /\
    visible (publisher w) = fold_left deliver delivered (visible s0);
}.

Lemma pool_start_ok s0 initial : pool_ok s0 initial (start s0 initial).
Proof.
  assert (Hq : forall i at_, (Queued <$> initial) !! i = Some at_ -> exists r, initial !! i = Some r /\ at_ = Queued r).
  { intros i at_ (r & -> & Hr)%list_lookup_fmap_Some. by exists r. }
  split; simpl.
  - apply length_fmap.
  - intros i at_ Hi. by apply Hq in Hi as (r & _ & ->).
  - intros i at_ replies Hi Hr. apply Hq in Hi as (r & Hr' & ->). simpl. congruence.
  - constructor.
  - intros i. split; [by intros ?%not_elem_of_nil|]. intros Hi. by apply Hq in Hi as (r & _ & ?).
  - exists []. by split; [constructor|].
Qed.

(** One batch moves on; the others keep where they are. *)
Lemma move_ok s0 initial w i at_ at' s' turn' newly :
  pool_ok s0 initial w -> batches w !! i = Some at_ ->
  (holds_turn at' = true <-> turn' = Some i) ->
  (forall j, j <> i -> turn w = Some j <-> turn' = Some j) ->
  publisher w = s' \/ holds_turn at_ = true ->
  (forall replies, initial !! i = Some replies -> batch_ok s' replies at') ->
  at_ <> Over (Ok tt) ->
  (newly = [] /\ at' <> Over (Ok tt) /\ visible s' = visible (publisher w) \/
   newly = [i] /\ at' = Over (Ok tt) /\
   exists l replies, initial !! i = Some replies /\ Forall2 message_of replies l /\
     visible s' = deliver (visible (publisher w)) l) ->
  pool_ok s0 initial (mk_world s' turn' (<[i := at']> (batches w)) (committed w ++ newly)).
Proof.
  intros Hok Hi Hturn Hother Hs Hat Hnot Hnew. pose proof (lookup_lt_Some _ _ _ Hi) as Hlt.
  assert (Hfresh : i ∉ committed w) by (intros Hin%(ok_is_committed _ _ _ Hok); rewrite Hi in Hin; congruence).
  destruct (seen _ _ _ Hok) as (delivered & Hd & Hv). split; simpl.
  - rewrite length_insert. apply (all_here _ _ _ Hok).
  - intros j at_j [(<- & <- & _)|[Hne Hj]]%list_lookup_insert_Some; [done|].
    rewrite (turn_held _ _ _ Hok j at_j Hj). by apply Hother.
  - intros j at_j replies [(<- & <- & _)|[Hne Hj]]%list_lookup_insert_Some Hr; [by apply Hat|].
    pose proof (each_batch _ _ _ Hok j at_j replies Hj Hr) as Hb. destruct Hs as [<-|Hs]; [done|].
    destruct at_j as [| |buf sent left_| | |]; try done. exfalso.
    apply (proj1 (turn_held _ _ _ Hok i at_ Hi)) in Hs.
    pose proof (proj1 (turn_held _ _ _ Hok j _ Hj) eq_refl). congruence.
  - apply NoDup_app. split_and!; [apply (once _ _ _ Hok)| |].
    + intros x Hx Hx'. destruct Hnew as [(-> & _)|(-> & _)]; [by apply not_elem_of_nil in Hx'|].
      by apply list_elem_of_singleton in Hx' as ->.
    + destruct Hnew as [(-> & _)|(-> & _)]; [constructor|apply NoDup_singleton].
  - intros j. rewrite elem_of_app, (ok_is_committed _ _ _ Hok j). destruct (decide (j = i)) as [->|Hne].
    + rewrite list_lookup_insert_eq, Hi by done. destruct Hnew as [(-> & Hna & _)|(-> & -> & _)].
      * split; [intros [?|Hin]; [congruence|by apply not_elem_of_nil in Hin]|congruence].
      * split; [done|]. intros _. right. by apply list_elem_of_singleton.
    + rewrite list_lookup_insert_ne by done. split; [|by left]. intros [?|Hin]; [done|].
      destruct Hnew as [(-> & _)|(-> & _)]; [by apply not_elem_of_nil in Hin|].
      by apply list_elem_of_singleton in Hin.
  - destruct Hnew as [(-> & _ & Hsame)|(-> & _ & l & replies & Hr & Hall & Hsame)].
    + exists delivered. rewrite app_nil_r. split; [done|]. by rewrite Hsame.
    + exists (delivered ++ [l]). split; [|by rewrite fold_left_app, <-Hv].
      apply Forall2_app; [done|]. constructor; [by exists replies|constructor].
Qed.

(** The turn moves to a batch that had it or takes a free one, and back. *)
Lemma turn_kept s0 initial w i at_ :
  pool_ok s0 initial w -> batches w !! i = Some at_ -> holds_turn at_ = true -> turn w = Some i.
Proof. intros Hok Hi. apply (turn_held _ _ _ Hok i at_ Hi). Qed.

Lemma batch_goes_ok s0 initial w i buf at_ w' :
  pool_ok s0 initial w -> batches w !! i = Some at_ -> batch_goes w i buf at_ = Some w' ->
  pool_ok s0 initial w'.
Proof.
  intros Hok Hi Hs.
  assert (Hr : exists replies, initial !! i = Some replies).
  { apply lookup_lt_is_Some_2. rewrite <-(all_here _ _ _ Hok). by eapply lookup_lt_Some. }
  destruct Hr as [replies Hr]. pose proof (each_batch _ _ _ Hok i at_ replies Hi Hr) as Hat.
  assert (Hkeep : forall at' s', holds_turn at_ = true -> holds_turn at' = true ->
    batch_ok s' replies at' -> visible s' = visible (publisher w) -> pool_ok s0 initial (goes_on w i s' at')).
  { intros at' s' Hh Hh' Hb Hv. pose proof (turn_kept _ _ _ _ _ Hok Hi Hh) as Ht.
    unfold goes_on. rewrite <-(app_nil_r (committed w)).
    eapply move_ok; [done|done| |done|by right|by intros r Hr'; assert (r = replies) as -> by congruence| |];
      [by rewrite Ht, Hh'|by destruct at_|]. left. split_and!; [done|by destruct at'|done]. }
  assert (Hend : forall at' s' newly, holds_turn at_ = true -> holds_turn at' = false ->
    batch_ok s' replies at' ->
    (newly = [] /\ at' <> Over (Ok tt) /\ visible s' = visible (publisher w) \/
     newly = [i] /\ at' = Over (Ok tt) /\
     exists l replies, initial !! i = Some replies /\ Forall2 message_of replies l /\
       visible s' = deliver (visible (publisher w)) l) -> pool_ok s0 initial (ends w i s' at' newly)).
  { intros at' s' newly Hh Hh' Hb Hv. pose proof (turn_kept _ _ _ _ _ Hok Hi Hh) as Ht. unfold ends.
    eapply move_ok; [done|done| | |by right|by intros r Hr'; assert (r = replies) as -> by congruence| |done];
      [by rewrite Hh'|intros j Hj; rewrite Ht; split; congruence|by destruct at_]. }
  destruct at_ as [r|r|b sent left_|refusal|r|]; simpl in Hs; try discriminate Hs.
  - destruct (turn w) eqn:Ht; [discriminate Hs|]. injection Hs as <-. simpl in Hat. subst r.
    unfold takes_turn. rewrite <-(app_nil_r (committed w)).
    eapply move_ok; [done|done|done| |by left| |done|left; by split_and!].
    + intros j Hj. rewrite Ht. split; congruence.
    + intros r Hr'. simpl. congruence.
  - destruct (begin_transaction (publisher w)) as [s1 [u|e]] eqn:Hbg; injection Hs as <-;
      destruct (begin_law _ _ _ Hbg) as [Hv Ho].
    + apply Hkeep; [done|done| |done]. simpl in *. subst r. split; [done|].
      destruct (open_ (publisher w)); [done|]. exists []. by split.
    + apply Hend; [done|done|done|]. left. by split_and!.
  - simpl in Hat. destruct Hat as (Hsl & l & Hl & Hall). destruct left_ as [|reply rest].
    + rewrite app_nil_r in Hsl. subst sent. destruct (commit (publisher w)) as [s1 [u|e]] eqn:Hc; injection Hs as <-;
        destruct (commit_law _ _ _ _ Hl Hc) as [Ho Hv]; (apply Hend; [done|done|done|]); [right|left; by split_and!].
      split_and!; [done|done|]. by exists l, replies.
    + destruct (publish_batched (publisher w) b reply) as [[s1 buf1] [u|refusal]] eqn:Hp; injection Hs as <-;
        destruct (publish_batched_open _ _ _ _ _ _ _ Hl Hp) as [Hv Hm]; (apply Hkeep; [done|done| |done]); [|done].
      destruct Hm as (m & Hm & Ho). simpl. rewrite <-app_assoc. split; [done|]. exists (l ++ [m]).
      split; [done|]. apply Forall2_app; [done|]. by constructor.
  - destruct (abort (publisher w)) as [s1 r] eqn:Ha. injection Hs as <-. pose proof (abort_law _ _ _ Ha) as Hv.
    apply Hend; [done|done|done|]. left. by split_and!.
Qed.

Lemma batch_leaves_ok s0 initial w i at_ w' :
  pool_ok s0 initial w -> batches w !! i = Some at_ -> batch_leaves w i at_ = Some w' -> pool_ok s0 initial w'.
Proof.
  intros Hok Hi Hs.
  assert (Hgo : exists turn', w' = mk_world (publisher w) turn' (<[i := Abandoned]> (batches w)) (committed w ++ []) /\
    turn' <> Some i /\ (forall j, j <> i -> turn w = Some j <-> turn' = Some j) /\ at_ <> Over (Ok tt)).
  { pose proof (turn_held _ _ _ Hok i at_ Hi) as Ht.
    destruct at_; simpl in Hs; try discriminate Hs; injection Hs as <-;
      [exists (turn w)|exists None..]; unfold goes_on, ends; rewrite ?app_nil_r; (split; [done|]); (split; [|split; [|done]]).
    all: try done.
    { intros Htw. by apply Ht in Htw. }
    all: intros j Hj; rewrite (proj1 Ht eq_refl); split; congruence. }
  destruct Hgo as (turn' & -> & Hne & Hother & Hat).
  eapply move_ok; [done|done| |done|by left|done|done|left; by split_and!]. simpl. split; congruence.
Qed.

Lemma pool_step_ok s0 initial w t w' : pool_ok s0 initial w -> step w t = Some w' -> pool_ok s0 initial w'.
Proof.
  intros Hok Hs. destruct t as [i buf|i]; simpl in Hs; destruct (batches w !! i) as [at_|] eqn:Hi; try discriminate Hs.
  - by eapply batch_goes_ok.
  - by eapply batch_leaves_ok.
Qed.
Lemma pool_steps_ok s0 initial w ts w' : pool_ok s0 initial w -> steps w ts = Some w' -> pool_ok s0 initial w'.
Proof.
  revert w. induction ts as [|t ts IH]; intros w Hok Hs; simpl in Hs; [by injection Hs as <-|].
  destruct (step w t) as [v|] eqn:Ht; [|discriminate Hs]. apply (IH v); [|done]. by eapply pool_step_ok.
Qed.

(** Where every abort closes the transaction and nobody leaves, the transaction that is open is the one
    of the batch inside it. *)
Definition open_inside (w : World) : Prop :=
  open_ (publisher w) <> None ->
  exists i at_, batches w !! i = Some at_ /\ match at_ with Sends _ _ _ | Aborts _ => True | _ => False end.
Definition leaves (t : Turn) : bool := match t with Leaves _ => true | Goes _ _ => false end.

Lemma step_open_inside s0 initial w t w' :
  (forall s, open_ (abort s).1 = None) ->
  pool_ok s0 initial w -> open_inside w -> leaves t = false -> step w t = Some w' -> open_inside w'.
Proof.
  intros Hab Hok Hin Hl Hs Ho. destruct t as [i buf|i]; [|discriminate Hl]. simpl in Hs.
  destruct (batches w !! i) as [at_|] eqn:Hi; [|discriminate Hs]. pose proof (lookup_lt_Some _ _ _ Hi) as Hlt.
  assert (Hhere : forall s' turn' at' c, w' = mk_world s' turn' (<[i := at']> (batches w)) c ->
    match at' with Sends _ _ _ | Aborts _ => True | _ => False end ->
    exists i at_, batches w' !! i = Some at_ /\ match at_ with Sends _ _ _ | Aborts _ => True | _ => False end).
  { intros s' turn' at' c -> Hat. exists i, at'. simpl. by rewrite list_lookup_insert_eq. }
  destruct at_ as [r|r|b sent left_|refusal|r|]; simpl in Hs; try discriminate Hs.
  - destruct (turn w) eqn:Ht; [discriminate Hs|]. injection Hs as <-. simpl in Ho.
    destruct (Hin Ho) as (j & at_j & Hj & Hat). exists j, at_j. split; [|done]. simpl.
    rewrite list_lookup_insert_ne; [done|]. intros <-. rewrite Hi in Hj. by injection Hj as <-.
  - destruct (begin_transaction (publisher w)) as [s1 [u|e]] eqn:Hbg; injection Hs as <-.
    + eapply Hhere; [reflexivity|done].
    + simpl in Ho. destruct (begin_law _ _ _ Hbg) as [_ Hop].
      assert (Ho' : open_ (publisher w) <> None) by (destruct (open_ (publisher w)); congruence).
      destruct (Hin Ho') as (j & at_j & Hj & Hat). exists j, at_j. split; [|done]. simpl.
      rewrite list_lookup_insert_ne; [done|]. intros <-. rewrite Hi in Hj. by injection Hj as <-.
  - destruct left_ as [|reply rest].
    + destruct (lookup_lt_is_Some_2 initial i) as [replies Hr]; [by rewrite <-(all_here _ _ _ Hok)|].
      destruct (each_batch _ _ _ Hok i _ replies Hi Hr) as (_ & l & Hl' & _).
      destruct (commit (publisher w)) as [s1 [u|e]] eqn:Hc; injection Hs as <-; simpl in Ho;
        by destruct (commit_law _ _ _ _ Hl' Hc).
    + destruct (publish_batched (publisher w) b reply) as [[s1 buf1] [u|refusal]]; injection Hs as <-;
        (eapply Hhere; [reflexivity|done]).
  - pose proof (Hab (publisher w)) as Hc. destruct (abort (publisher w)) as [s1 r]. injection Hs as <-. by simpl in *.
Qed.
Lemma steps_open_inside s0 initial w ts w' :
  (forall s, open_ (abort s).1 = None) ->
  pool_ok s0 initial w -> open_inside w -> Forall (fun t => leaves t = false) ts -> steps w ts = Some w' ->
  open_inside w'.
Proof.
  intros Hab. revert w. induction ts as [|t ts IH]; intros w Hok Hin Hall Hs; simpl in Hs; [by injection Hs as <-|].
  apply Forall_cons in Hall as [Ht Hall]. destruct (step w t) as [v|] eqn:Hv; [|discriminate Hs].
  apply (IH v); [by eapply pool_step_ok| |done|done]. by eapply step_open_inside.
Qed.

(** C6. The transactions of a pool of batches are atomic and never mix.  However the batches are
    interleaved, and wherever one is abandoned, what subscribers see is what they saw plus, for each
    batch that returned success and in the order of the commits, the messages of its own replies, all of
    them, in order and once; a batch that failed or was abandoned contributed nothing.  Where no batch
    is abandoned and an abort closes the transaction, a batch that begins never meets one that is
    open. *)
Theorem transactional_batches_are_atomic s0 initial ts w :
  steps (start s0 initial) ts = Some w ->
  (exists delivered,
    Forall2 (fun i l => exists replies, initial !! i = Some replies /\ Forall2 message_of replies l)
      (committed w) delivered /\
    visible (publisher w) = fold_left deliver delivered (visible s0)) /\
  NoDup (committed w) /\ (forall i, i ∈ committed w <-> batches w !! i = Some (Over (Ok tt))) /\
  (open_ s0 = None -> (forall s, open_ (abort s).1 = None) -> Forall (fun t => leaves t = false) ts ->
   forall i replies, batches w !! i = Some (Begins replies) -> open_ (publisher w) = None).
Proof.
  intros Hs. pose proof (pool_steps_ok _ _ _ _ _ (pool_start_ok s0 initial) Hs) as Hok.
  split; [apply (seen _ _ _ Hok)|]. split; [apply (once _ _ _ Hok)|]. split; [apply (ok_is_committed _ _ _ Hok)|].
  intros Hno Hab Hall i replies Hi. destruct (open_ (publisher w)) as [l|] eqn:Ho; [|done]. exfalso.
  assert (Hin : open_inside w).
  { eapply (steps_open_inside s0 initial (start s0 initial)); [done|apply pool_start_ok| |done|done].
    intros Hop. by simpl in Hop. }
  destruct (Hin ltac:(by rewrite Ho)) as (j & at_ & Hj & Hat).
  pose proof (proj1 (turn_held _ _ _ Hok i _ Hi) eq_refl) as Hti.
  assert (Hh : holds_turn at_ = true) by (by destruct at_).
  pose proof (proj1 (turn_held _ _ _ Hok j _ Hj) Hh) as Htj. rewrite Hti in Htj. injection Htj as <-.
  rewrite Hi in Hj. by injection Hj as <-.
Qed.

(** ** A batch abandoned inside its transaction *)

Definition wedged (s : S) (l : list Message) (w0 w : World) : Prop :=
  open_ (publisher w) = Some l /\ visible (publisher w) = visible s /\ committed w = committed w0 /\
  forall i at_, batches w !! i = Some at_ ->
    match at_ with
    | Over r => batches w0 !! i = Some (Over r) \/ exists e, r = Err (whole e)
    | Sends _ _ _ | Aborts _ => False
    | _ => True
    end.

Lemma wedged_step s l w0 w t w' : wedged s l w0 w -> step w t = Some w' -> wedged s l w0 w'.
Proof.
  intros (Ho & Hv & Hc & Hb) Hs. destruct t as [i buf|i]; simpl in Hs;
    destruct (batches w !! i) as [at_|] eqn:Hi; try discriminate Hs; pose proof (Hb i at_ Hi) as Hat.
  - destruct at_ as [r|r|b sent left_|refusal|r|]; simpl in Hs; try discriminate Hs; try done.
    + destruct (turn w); [discriminate Hs|]. injection Hs as <-. split_and!; [done|done|done|].
      intros j at_j [(<- & <- & _)|[_ Hj]]%list_lookup_insert_Some; [done|by apply Hb].
    + destruct (begin_transaction (publisher w)) as [s1 r'] eqn:Hbg. destruct (begin_law _ _ _ Hbg) as [Hv1 Ho1].
      rewrite Ho in Ho1. destruct r' as [u|e]; [done|]. injection Hs as <-.
      split_and!; [done|by rewrite <-Hv, <-Hv1|simpl; by rewrite app_nil_r|].
      intros j at_j [(<- & <- & _)|[_ Hj]]%list_lookup_insert_Some; [right; by exists e|by apply Hb].
  - destruct at_ as [r|r|b sent left_|refusal|r|]; simpl in Hs; try discriminate Hs; try done; injection Hs as <-;
      (split_and!; [done|done|simpl; by rewrite ?app_nil_r|]);
      intros j at_j [(<- & <- & _)|[_ Hj]]%list_lookup_insert_Some; try done; by apply Hb.
Qed.

(** A batch abandoned inside its transaction, by a panic of the user's serializer or transform under a
    policy that keeps the subscription running, leaves the transaction open with the turn released:
    from there on nothing of any batch becomes visible and every batch that publishes is answered with
    the refusal of its begin, all of its replies lost. *)
Lemma abandoned_transaction_wedges s0 initial w i at_ w1 l ts w2 :
  pool_ok s0 initial w -> batches w !! i = Some at_ -> holds_turn at_ = true -> open_ (publisher w) = Some l ->
  step w (Leaves i) = Some w1 -> steps w1 ts = Some w2 ->
  visible (publisher w2) = visible (publisher w) /\ committed w2 = committed w /\
  forall j r, batches w2 !! j = Some (Over r) -> batches w !! j = Some (Over r) \/ exists e, r = Err (whole e).
Proof.
  intros Hok Hi Hh Ho Hl Hs. simpl in Hl. rewrite Hi in Hl.
  assert (Hw1 : w1 = ends w i (publisher w) Abandoned []) by (destruct at_; simpl in Hl, Hh; congruence).
  assert (Hwd : wedged (publisher w) l w w1).
  { rewrite Hw1. split_and!; [done|done|simpl; by rewrite app_nil_r|].
    intros j at_j [(<- & <- & _)|[Hne Hj]]%list_lookup_insert_Some; [done|].
    destruct (holds_turn at_j) eqn:Hhj; [|destruct at_j; try done; by left]. exfalso. apply Hne.
    apply (turn_held _ _ _ Hok _ _ Hi) in Hh. apply (turn_held _ _ _ Hok _ _ Hj) in Hhj. congruence. }
  assert (Hgen : forall ts v, wedged (publisher w) l w v -> steps v ts = Some w2 -> wedged (publisher w) l w w2).
  { intros more. induction more as [|t more IH]; intros v Hv Hm; simpl in Hm; [by injection Hm as <-|].
    destruct (step v t) as [v'|] eqn:Ht; [|discriminate Hm]. apply (IH v'); [|done]. by eapply wedged_step. }
  destruct (Hgen ts w1 Hwd Hs) as (_ & Hv & Hc & Hb). split_and!; [done|done|]. intros j r Hj. by apply (Hb j _ Hj).
Qed.

End laws.

(** ** One batch on its own *)

Lemma sends_alone s buf sent replies c :
  exists ts, steps (mk_world s (Some 0) [Sends buf sent replies] c) ts =
    let '(s', _, r) := publish_in_transaction s buf (length sent) replies in
    Some (mk_world s' None [Over r] (c ++ if is_ok r then [0] else [])).
Proof.
  revert s buf sent. induction replies as [|reply rest IH]; intros s buf sent; cbn [publish_in_transaction].
  - exists [Goes 0 buf]. simpl. destruct (commit s) as [s' [[]|e]]; reflexivity.
  - destruct (publish_batched s buf reply) as [[s1 buf1] [u|refusal]] eqn:Hp.
    + destruct (IH s1 buf1 (sent ++ [reply])) as [ts Hts]. exists (Goes 0 buf :: ts). simpl. rewrite Hp.
      unfold goes_on. simpl. rewrite Hts, length_app, Nat.add_1_r. reflexivity.
    + exists [Goes 0 buf; Goes 0 buf]. simpl. rewrite Hp. unfold goes_on. simpl.
      destruct (abort s1) as [s2 r]. reflexivity.
Qed.
(** The steps of a batch nobody meets are the call, from its turn to its return. *)
Lemma transaction_is_its_steps s buf replies :
  exists ts, steps (start s [replies]) ts =
    let '(s', _, r) := publish_transaction s buf replies in
    Some (mk_world s' None [Over r] (if is_ok r then [0] else [])).
Proof.
  unfold publish_transaction. destruct (begin_transaction s) as [s1 [u|e]] eqn:Hb.
  - destruct (sends_alone s1 buf [] replies []) as [ts Hts]. exists (Goes 0 buf :: Goes 0 buf :: ts).
    simpl. rewrite Hb. unfold goes_on. simpl. rewrite Hts. reflexivity.
  - exists [Goes 0 buf; Goes 0 buf]. simpl. rewrite Hb. reflexivity.
Qed.

(** A refused transaction loses every reply of the batch. *)
Lemma length_lost_messages name refused sent i (replies : list T) :
  length (lost_messages codec name refused sent i replies) = length replies.
Proof.
  revert sent i. induction replies as [|reply rest IH]; intros sent i; [done|]. cbn [lost_messages].
  destruct sent; [destruct (bool_decide _)|]; simpl; by rewrite IH.
Qed.
Lemma transaction_loses_all s buf replies lent :
  let '(_, _, r) := publish_transaction s buf replies in
  match r with
  | Ok _ => True
  | Err refusal => length (into_lost codec refusal reply_name replies lent).2 = length replies
  end.
Proof.
  assert (Hall : forall refusal, lost_from refusal = 0 ->
    length (into_lost codec refusal reply_name replies lent).2 = length replies).
  { intros refusal Hz. unfold into_lost. destruct (cause_parts refusal reply_name lent) as [[e refused] sent].
    simpl. by rewrite Hz, length_lost_messages. }
  unfold publish_transaction. destruct (begin_transaction s) as [s1 [u|e]]; [|by apply Hall].
  assert (Hgen : forall rest s buf i,
    let '(_, _, r) := publish_in_transaction s buf i rest in
    match r with Ok _ => True | Err refusal => lost_from refusal = 0 end).
  { intros rest. induction rest as [|reply rest IH]; intros s2 buf2 i; cbn [publish_in_transaction].
    - by destruct (commit s2) as [s' [u'|e]].
    - destruct (publish_batched s2 buf2 reply) as [[s3 buf3] [u'|refusal]]; [apply IH|done]. }
  specialize (Hgen replies s1 buf 0). destruct (publish_in_transaction _ _ _ _) as [[s' buf'] [u'|refusal]]; [done|].
  by apply Hall.
Qed.

End pool.


(** ** The in-memory publisher keeps the contract *)

Section memory.
Context {C : Type -> Type} `{Unbounded C} `{!UnboundedLaws C} (box : Memory.MemoryError -> BoxError).

Definition MemoryHandle : Type := Memory.MemoryState (C := C) * Memory.Publisher.
Definition outbound (m : Message) : Memory.MemoryOutbound := Memory.mk_outbound m.1.1 m.1.2 m.2.
Definition inbound (m : Memory.MemoryOutbound) : Message :=
  (Memory.out_name m, Memory.out_payload m, Memory.out_headers m).

#[local] Instance memory_transactional : TransactionalPublisher MemoryHandle := {
  publish h m :=
    let '(s, p, r) := Memory.publish h.1 h.2 (outbound m) in
    ((s, p), map_err (fun '(e, m) => (box e, Some (Memory.out_payload m, Memory.out_headers m))) r);
  begin_transaction h := let '(p, r) := Memory.begin_transaction h.2 in ((h.1, p), map_err box r);
  commit h := let '(s, p, r) := Memory.commit h.1 h.2 in ((s, p), map_err box r);
  abort h := let '(p, r) := Memory.abort h.2 in ((h.1, p), map_err box r);
}.

Definition visible (h : MemoryHandle) : Memory.MemoryState (C := C) := h.1.
Definition open_ (h : MemoryHandle) : option (list Message) :=
  match h.2 with Some l => Some (inbound <$> l) | None => None end.
Definition deliver (s : Memory.MemoryState (C := C)) (l : list Message) : Memory.MemoryState (C := C) :=
  (Memory.flush s (outbound <$> l)).1.

Lemma outbound_inbound (l : list Memory.MemoryOutbound) : outbound <$> (inbound <$> l) = l.
Proof. induction l as [|[] l IH]; [done|]. csimpl. by rewrite IH. Qed.

Lemma flush_all_or_nothing (s : Memory.MemoryState (C := C)) l e :
  (Memory.flush s l).2 = Err e -> (Memory.flush s l).1 = s.
Proof.
  destruct (Memory.bus s) as [r|rt] eqn:Hb.
  - destruct (MemoryBroker.flush_live s r l Hb) as (s' & -> & _). done.
  - destruct l as [|m l]; [done|]. by rewrite (MemoryBroker.flush_down s rt m l Hb).
Qed.

#[local] Instance memory_lawful : TransactionalLaws MemoryHandle (Memory.MemoryState (C := C)) visible open_ deliver.
Proof.
  split.
  - intros [s p] [[n b] hs] s' r l Ho Hp. unfold open_ in Ho. cbn in Ho. destruct p as [l0|]; [|done].
    cbn in Hp. injection Hp as <- <-. split; [done|]. injection Ho as <-. unfold open_. cbn. by rewrite fmap_app.
  - intros [s p] s' r Hb. destruct p as [l0|]; cbn in Hb; injection Hb as <- <-; done.
  - intros [s p] s' r l Ho Hc. unfold open_ in Ho. cbn in Ho. destruct p as [l0|]; [|done]. injection Ho as <-.
    cbn in Hc. destruct (Memory.flush s l0) as [s1 r1] eqn:Hf. injection Hc as <- <-. split; [done|].
    unfold visible, deliver. cbn. rewrite outbound_inbound, Hf. destruct r1 as [u|e]; [done|]. cbn.
    pose proof (flush_all_or_nothing s l0 e) as Hn. rewrite Hf in Hn. by apply Hn.
  - intros [s p] s' r Ha. destruct p as [l0|]; cbn in Ha; injection Ha as <- <-; done.
Qed.

Lemma memory_abort_closes h : open_ (abort h).1 = None.
Proof. by destruct h as [s [l|]]. Qed.
Lemma memory_gives_back form : gives_back form (publish (S := MemoryHandle)).
Proof.
  intros [s p] n b hs s' e b' hs' Hp. cbn in Hp. destruct p as [l|]; [by injection Hp|].
  cbn in Hp. destruct (Memory.bus s) as [r|rt] eqn:Hb.
  - unfold Memory.fanout_unsent in Hp. rewrite Hb in Hp. by injection Hp.
  - unfold Memory.fanout_unsent in Hp. rewrite Hb in Hp. injection Hp as <- <- <- <-. done.
Qed.
End memory.


(** ** Two batches and an abandoned one, over the in-memory broker *)

Definition ex_box (e : Memory.MemoryError) : BoxError :=
  match e with Memory.TransactionBusy => "a transaction is already open" | _ => "memory" end%string.
#[local] Instance ex_publisher : TransactionalPublisher (MemoryHandle (C := LChannel)) := memory_transactional ex_box.
#[local] Instance ex_lawful : TransactionalLaws (MemoryHandle (C := LChannel)) _ visible open_ deliver := memory_lawful ex_box.
Definition ex_codec (n : nat) : result bytes BoxError := Ok (as_bytes (if n =? 0 then "zero" else "other")).
Abbreviation ex_steps := (steps Take ex_codec None id "orders.eu").
Definition ex_handle : MemoryHandle (C := LChannel) := (MemoryBroker.read_orders, Memory.publisher).
Definition ex_start : World := start (T := nat) ex_handle [[0; 1]; [2]].
Definition ex_turns : list Turn :=
  (fun i => Goes i (mk_buf 5 [])) <$> [1; 1; 1; 1; 0; 0; 0; 0; 0].

Lemma transactional_batches_are_atomic_witness :
  exists w, ex_steps ex_start ex_turns = Some w /\ committed w = [1; 0] /\ NoDup (committed w) /\
    batches w !! 0 = Some (Over (Ok tt)).
Proof.
  assert (Hc : match ex_steps ex_start ex_turns with Some w => committed w | None => [] end = [1; 0])
    by (vm_compute; reflexivity).
  destruct (ex_steps ex_start ex_turns) as [w|] eqn:Hs; [|discriminate Hc]. exists w.
  destruct (transactional_batches_are_atomic Take ex_codec None id "orders.eu" visible open_ deliver
    (fun out => or_introl eq_refl) (memory_gives_back ex_box Take) ex_handle [[0; 1]; [2]] ex_turns w Hs)
    as (_ & Hnd & Hin & _).
  split; [reflexivity|]. split; [exact Hc|]. split; [exact Hnd|]. apply Hin. rewrite Hc. right. left.
Defined.

(** The first batch is unwound between its first reply and its second; the other one is refused. *)
Definition ex_wedge : list Turn :=
  ((fun i => Goes i (mk_buf 5 [])) <$> [0; 0; 0]) ++ Leaves 0 :: ((fun i => Goes i (mk_buf 5 [])) <$> [1; 1]).
Example abandoned_batch_wedges_the_next :
  match ex_steps ex_start ex_wedge with
  | Some w => (committed w, batches w !! 1)
  | None => ([9], None)
  end = ([], Some (Over (Err (whole "a transaction is already open"%string)))).
Proof. vm_compute. reflexivity. Qed.
End ReplyTxn.
