(* ===== verification/AsyncApi.v ===== *)
(** * The AsyncAPI document of a service ([crates/asyncapi/src/lib.rs], [operations.rs],
    [messages.rs], [servers.rs], [spec.rs])

    What [build_spec] makes of a service's registrations: a channel per address, a [receive]
    operation per registration and a [send] operation per message it declares, message components
    shared by every side that carries them, and the references that tie them together.  A
    [BTreeMap] is a [gmap], or a list in key order where the order is observed; a parsed schema is a
    [Value].  The parser of the recorded schemas, the Unicode tables past ASCII and the document
    form of a security scheme are parameters; the service's own description passes through
    unchanged and is left out, as are the warnings. *)
From Stdlib Require Import Ascii String.
From S2P Require Import Prelude RustStd Outcome.

Module AsyncApi.
#[local] Open Scope string_scope.
#[local] Set Warnings "-register-all".

(** ** What is documented *)

(** [serde_json::Value]; a number is its text, an object its entries. *)
Inductive Value :=
  | VNull
  | VBool (b : bool)
  | VNumber (text : string)
  | VString (s : string)
  | VArray (l : list Value)
  | VObject (l : list (string * Value)).

(** [Bindings]: a body per protocol. *)
Abbreviation Bindings := (gmap string string).
Definition fill_from (b other : Bindings) : Bindings := b ∪ other.
Record LevelBindings := mk_bindings { channel_b : Bindings; operation_b : Bindings; message_b : Bindings }.

Record HeaderDiscriminator := mk_rule { header : string; value : string }.

Inductive OutgoingKind := SlotEntry | Answer | DeadLetter | RetryCopy.
#[export] Instance OutgoingKind_eq_dec : EqDecision OutgoingKind.
Proof. solve_decision. Defined.

Record OutgoingMessageMetadata := mk_outgoing {
  out_channel : string;
  out_type : string;
  out_name : option string;
  out_description : option string;
  out_payload : option string;
  out_headers : option string;
  parameters : list string;
  serialized : bool;
  kind : OutgoingKind;
  out_content_type : option string;
  reply_address_location : option string;
  out_discriminator : option HeaderDiscriminator;
  out_bindings : LevelBindings;
}.

Record IncomingMessageMetadata := mk_incoming {
  in_type : string;
  in_name : option string;
  in_description : option string;
  in_payload : option string;
  in_headers : option string;
  in_deserialized : bool;
  in_content_type : option string;
  in_discriminator : option HeaderDiscriminator;
}.

(** The routing key and the type of the reply, which the document does not read, are left out. *)
Record HandlerMetadata := mk_handler {
  name : string;
  input_type : string;
  description : option string;
  payload_schema : option string;
  headers_schema : option string;
  message_name_of : option string;
  message_description : option string;
  outgoing : list OutgoingMessageMetadata;
  incoming : list IncomingMessageMetadata;
  deserialized : bool;
  server : option string;
  content_type : option string;
  retry : Outcome.RetryDeclaration;
  bindings : LevelBindings;
}.

(** ** The objects of the document *)

Abbreviation Reference := string (only parsing).
Definition server_ref (name : string) : string := "#/servers/" ++ name.
Definition channel_ref (channel : string) : string := "#/channels/" ++ channel.
Definition message_ref (channel message : string) : string :=
  "#/channels/" ++ channel ++ "/messages/" ++ message.
Definition component_ref (message : string) : string := "#/components/messages/" ++ message.
Definition scheme_ref (key : string) : string := "#/components/securitySchemes/" ++ key.

Record Channel := mk_channel {
  address : option string;
  ch_messages : gmap string string;
  ch_parameters : gset string;
  ch_servers : list string;
  ch_bindings : Bindings;
}.

Record OperationReply := mk_reply { reply_address : option string; reply_channel : string; reply_messages : list string }.
Record RetryExtension := mk_retry { max_attempts : option N; dead_letter : option string; retry_destination : option string }.

Inductive Action := Receive | Send.
Record Operation := mk_operation {
  action : Action;
  op_channel : string;
  op_messages : list string;
  op_description : option string;
  op_reply : option OperationReply;
  op_tags : list string;
  op_retry : option RetryExtension;
  op_bindings : Bindings;
}.

Record MessageObject := mk_message {
  title : option string;
  msg_description : option string;
  msg_content_type : option string;
  payload : option Value;
  headers : option Value;
  schemaless : bool;
  msg_bindings : Bindings;
}.
Definition new_message : MessageObject := mk_message None None None None None false ∅.

(** What [build_spec] grows registration by registration. *)
Record Doc := mk_doc {
  channels : gmap string Channel;
  operations : gmap string Operation;
  messages : gmap string MessageObject;
}.
Definition empty_doc : Doc := mk_doc ∅ ∅ ∅.

(** ** Names *)

(** [message_name]: what follows the last [::] of a type's name. *)
Fixpoint after_last (s : string) : option string :=
  match s with
  | EmptyString => None
  | String c rest =>
      match after_last rest with
      | Some r => Some r
      | None => if String.prefix "::" s then Some (String.substring 2 (String.length s) s) else None
      end
  end.
Definition message_name (type_name : string) : string := default type_name (after_last type_name).

(** [str::chars], each as its bytes: a byte that continues a character belongs to the one before. *)
Fixpoint chars_from (current : string) (s : string) : list string :=
  match s with
  | EmptyString => [current]
  | String c rest =>
      if continuation c then chars_from (current ++ String c EmptyString) rest
      else current :: chars_from (String c EmptyString) rest
  end.
Definition chars (s : string) : list string :=
  match s with
  | EmptyString => []
  | String c rest => chars_from (String c EmptyString) rest
  end.

Definition ascii_alphanumeric (c : ascii) : bool :=
  byte_in 48 57 c || byte_in 65 90 c || byte_in 97 122 c.

Section document.
(** [serde_json::from_str], [char::is_alphanumeric] of a character past ASCII. *)
Context (parse_json : string -> option Value) (beyond_ascii : string -> bool).

Definition is_alphanumeric (c : string) : bool :=
  match c with
  | String a EmptyString => ascii_alphanumeric a
  | _ => beyond_ascii c
  end.
Definition sanitize_id (name : string) : string :=
  fold_right (fun c rest => (if is_alphanumeric c then c else "_") ++ rest) "" (chars name).

(** The numbered names an id falls back to; [fuel] is the number of operations. *)
Definition suffixed (base : string) (suffix : N) : string := base ++ "_" ++ u64_to_string suffix.
Fixpoint numbered (ops : gmap string Operation) (base : string) (fuel : nat) (suffix : N) : string :=
  match fuel with
  | 0 => suffixed base suffix
  | S fuel =>
      match ops !! suffixed base suffix with
      | None => suffixed base suffix
      | Some _ => numbered ops base fuel (suffix + 1)
      end
  end.
Definition fresh_id (ops : gmap string Operation) (base : string) : string :=
  match ops !! base with
  | None => base
  | Some _ => numbered ops base (size ops) 2
  end.
Definition receive_operation_id (ops : gmap string Operation) (name : string) : string :=
  fresh_id ops ("receive_" ++ sanitize_id name).
Definition send_operation_id (ops : gmap string Operation) (name channel : string) : string :=
  fresh_id ops ("send_" ++ sanitize_id name ++ "_" ++ sanitize_id channel).

(** ** Message components *)

(** [Value::get] and [Map]: an entry read, taken out, put in. *)
Fixpoint entry (key : string) (l : list (string * Value)) : option Value :=
  match l with
  | [] => None
  | (k, v) :: l => if String.eqb k key then Some v else entry key l
  end.
Definition without (key : string) (l : list (string * Value)) : list (string * Value) :=
  List.filter (fun e => negb (String.eqb e.1 key)) l.
Definition insert_entry (key : string) (v : Value) (l : list (string * Value)) : list (string * Value) :=
  (without key l ++ [(key, v)])%list.
Definition get (key : string) (v : Value) : option Value :=
  match v with VObject l => entry key l | _ => None end.
Definition as_str (v : Value) : option string := match v with VString s => Some s | _ => None end.

(** [with_header_const]. *)
Definition with_header_const (headers : option Value) (rule : HeaderDiscriminator) : Value :=
  let schema := match headers with Some (VObject l) => l | _ => [("type", VString "object")] end in
  let properties := match entry "properties" schema with Some (VObject l) => l | _ => [] end in
  let schema := without "properties" schema in
  let properties := insert_entry (header rule) (VObject [("const", VString (value rule))]) properties in
  let schema := insert_entry "properties" (VObject properties) schema in
  let required := match entry "required" schema with Some (VArray l) => l | _ => [] end in
  let schema := without "required" schema in
  let required :=
    if existsb (fun v => match v with VString s => String.eqb s (header rule) | _ => false end) required then required
    else (required ++ [VString (header rule)])%list in
  VObject (insert_entry "required" (VArray required) schema).

Record MessageContribution := mk_contribution {
  c_name : string;
  c_title : option string;
  c_description : option string;
  c_content_type : option string;
  c_payload : option Value;
  c_headers : option Value;
  c_schemaless : bool;
  c_bindings : Bindings;
}.

Definition first {A} (a b : option A) : option A := match a with Some _ => a | None => b end.

(** [merge_message]. *)
Definition merge (m : MessageObject) (c : MessageContribution) : MessageObject :=
  mk_message
    (match title m, c_title c with
     | None, Some t => if String.eqb t (c_name c) then None else Some t
     | t, _ => t
     end)
    (first (msg_description m) (c_description c))
    (first (msg_content_type m) (c_content_type c))
    (first (payload m) (c_payload c))
    (first (headers m) (c_headers c))
    (schemaless m || c_schemaless c)
    (fill_from (msg_bindings m) (c_bindings c)).
Definition merge_message (ms : gmap string MessageObject) (c : MessageContribution) : gmap string MessageObject :=
  <[c_name c := merge (default new_message (ms !! c_name c)) c]> ms.

Definition schema_str (payload : option Value) (key : string) : option string :=
  v ← payload; v ← get key v; as_str v.

(** [Received::contribution], of the handler's own input and of a model of its message set. *)
Definition contribution (h : HandlerMetadata) (type_ : string) (payload_schema headers_schema name description ct : option string)
  (schemaless : bool) (rule : option HeaderDiscriminator) : MessageContribution :=
  let payload := payload_schema ≫= parse_json in
  let headers := headers_schema ≫= parse_json in
  mk_contribution
    (default (message_name type_) (first name (schema_str payload "title")))
    (schema_str payload "title")
    (first (first description (schema_str payload "description")) (AsyncApi.description h))
    ct payload
    (match rule with Some rule => Some (with_header_const headers rule) | None => headers end)
    schemaless (message_b (bindings h)).
Definition of_handler (h : HandlerMetadata) : MessageContribution :=
  contribution h (input_type h) (payload_schema h) (headers_schema h) (message_name_of h) (message_description h)
    (content_type h) (deserialized h) None.
Definition of_model (h : HandlerMetadata) (m : IncomingMessageMetadata) : MessageContribution :=
  contribution h (in_type m) (in_payload m) (in_headers m) (in_name m) (in_description m) (in_content_type m)
    (in_deserialized m) (in_discriminator m).
Definition received (h : HandlerMetadata) : list MessageContribution :=
  match incoming h with
  | [] => [of_handler h]
  | models => of_model h <$> models
  end.
Definition outgoing_contribution (o : OutgoingMessageMetadata) : MessageContribution :=
  let payload := out_payload o ≫= parse_json in
  let headers := out_headers o ≫= parse_json in
  mk_contribution
    (default (message_name (out_type o)) (first (out_name o) (schema_str payload "title")))
    (schema_str payload "title")
    (first (out_description o) (schema_str payload "description"))
    (out_content_type o) payload
    (match out_discriminator o with Some rule => Some (with_header_const headers rule) | None => headers end)
    (serialized o) (message_b (out_bindings o)).

(** ** Channels and operations *)

(** [add_outgoing]: the channel and the message an operation then refers to. *)
Definition new_outgoing_channel (o : OutgoingMessageMetadata) (on_servers : list string) : Channel :=
  mk_channel (match reply_address_location o with None => Some (out_channel o) | Some _ => None end) ∅ (list_to_set (parameters o)) on_servers ∅.
Definition add_outgoing (o : OutgoingMessageMetadata) (on_servers : list string) (d : Doc) : Doc * (string * string) :=
  let c := outgoing_contribution o in
  let ch := default (new_outgoing_channel o on_servers) (channels d !! out_channel o) in
  let ch := mk_channel (address ch) (<[c_name c := component_ref (c_name c)]> (ch_messages ch)) (ch_parameters ch) (ch_servers ch)
              (fill_from (ch_bindings ch) (channel_b (out_bindings o))) in
  (mk_doc (<[out_channel o := ch]> (channels d)) (operations d) (merge_message (messages d) c), (out_channel o, c_name c)).

(** [retry_extension]. *)
Definition retry_extension (h : HandlerMetadata) : option RetryExtension :=
  let retry_destination := out_channel <$> List.find (fun o => bool_decide (kind o = RetryCopy)) (outgoing h) in
  match Outcome.declares_nothing (retry h), retry_destination with
  | true, None => None
  | _, _ => Some (mk_retry (Outcome.max_attempts (retry h)) (Outcome.dead_letter (retry h)) retry_destination)
  end.

(** [add_receive]. *)
Fixpoint add_received (cs : list MessageContribution) (ch : Channel) (ms : gmap string MessageObject)
  : Channel * gmap string MessageObject :=
  match cs with
  | [] => (ch, ms)
  | c :: cs =>
      add_received cs
        (mk_channel (address ch) (<[c_name c := component_ref (c_name c)]> (ch_messages ch)) (ch_parameters ch) (ch_servers ch) (ch_bindings ch))
        (merge_message ms c)
  end.
Definition add_receive (h : HandlerMetadata) (reply : option OperationReply) (on_servers tags : list string) (d : Doc) : Doc :=
  let cs := received h in
  let ch := default (mk_channel (Some (name h)) ∅ ∅ on_servers ∅) (channels d !! name h) in
  let ch := mk_channel (Some (name h)) (ch_messages ch) (ch_parameters ch) (ch_servers ch)
              (fill_from (ch_bindings ch) (channel_b (bindings h))) in
  let (ch, ms) := add_received cs ch (messages d) in
  let op := mk_operation Receive (channel_ref (name h)) ((fun c => message_ref (name h) (c_name c)) <$> cs) (description h) reply tags
              (retry_extension h) (operation_b (bindings h)) in
  mk_doc (<[name h := ch]> (channels d)) (<[receive_operation_id (operations d) (name h) := op]> (operations d)) ms.

(** ** Servers; in key order *)

Record ServerSpec := mk_server_spec {
  host : option string; protocol : string; protocol_version : option string; server_description : option string;
  security : list Value; server_bindings : Bindings;
}.
Record Server := mk_server {
  s_host : option string; s_protocol : string; s_protocol_version : option string; s_description : option string;
  s_security : list string; s_bindings : Bindings;
}.

Definition scheme_key (name : string) (index : nat) : string :=
  if (index =? 0)%nat then name else name ++ "-" ++ u64_to_string (N.of_nat index).
(** [build_servers]; a scheme is its document object. *)
Definition add_server (acc : list (string * Server) * gmap string Value) (entry : string * ServerSpec)
  : list (string * Server) * gmap string Value :=
  let '(name, spec) := entry in
  ((acc.1 ++ [(name, mk_server (host spec) (protocol spec) (protocol_version spec) (server_description spec)
     (imap (fun index _ => scheme_ref (scheme_key name index)) (security spec)) (server_bindings spec))])%list,
   foldl (fun schemes p => <[scheme_key name p.1 := p.2]> schemes) acc.2 (enumerate (security spec))).
Definition build_servers (described : list (string * ServerSpec)) : list (string * Server) * gmap string Value :=
  foldl add_server ([], ∅) described.

Definition resolve_server (label : option string) (servers : list (string * Server)) : option string :=
  match label with
  | Some l => if bool_decide (l ∈ servers.*1) then Some l
              else match servers with [(only, _)] => Some only | _ => None end
  | None => match servers with [(only, _)] => Some only | _ => None end
  end.
Definition server_protocol (servers : list (string * Server)) (name : string) : option string :=
  (fun e => s_protocol e.2) <$> List.find (fun e => String.eqb e.1 name) servers.

(** ** The document *)

Record Spec := mk_spec {
  spec_servers : list (string * Server);
  default_content_type : option string;
  doc : Doc;
  security_schemes : gmap string Value;
}.

(** The reply of a registration, if it declares one. *)
Definition add_reply (h : HandlerMetadata) (on_servers : list string) (d : Doc) : Doc * option OperationReply :=
  match List.find (fun o => bool_decide (kind o = Answer)) (outgoing h) with
  | Some o =>
      let '(d, (channel, message)) := add_outgoing o on_servers d in
      (d, Some (mk_reply (reply_address_location o) (channel_ref channel) [message_ref channel message]))
  | None => (d, None)
  end.

(** One [send] operation per other declared message. *)
Definition add_send (h : HandlerMetadata) (on_servers tags : list string) (d : Doc) (o : OutgoingMessageMetadata) : Doc :=
  if decide (kind o = Answer) then d
  else
    let '(d, (channel, message)) := add_outgoing o on_servers d in
    let op := mk_operation Send (channel_ref channel) [message_ref channel message] None None tags None (operation_b (out_bindings o)) in
    mk_doc (channels d) (<[send_operation_id (operations d) (name h) channel := op]> (operations d)) (messages d).

Definition on_servers_of (servers : list (string * Server)) (h : HandlerMetadata) : list string :=
  option_list (server_ref <$> resolve_server (server h) servers).
Definition tags_of (servers : list (string * Server)) (h : HandlerMetadata) : list string :=
  option_list (resolve_server (server h) servers ≫= server_protocol servers).

Definition add_handler (servers : list (string * Server)) (d : Doc) (h : HandlerMetadata) : Doc :=
  let on_servers := on_servers_of servers h in
  let tags := tags_of servers h in
  let (d, reply) := add_reply h on_servers d in
  foldl (add_send h on_servers tags) (add_receive h reply on_servers tags d) (outgoing h).

(** [agreed_content_type]. *)
Fixpoint agree (agreed : option string) (ms : list MessageObject) : option string :=
  match ms with
  | [] => agreed
  | m :: ms =>
      match msg_content_type m with
      | None => None
      | Some ct =>
          match agreed with
          | None => agree (Some ct) ms
          | Some existing => if String.eqb existing ct then agree agreed ms else None
          end
      end
  end.
Definition agreed_content_type (ms : gmap string MessageObject) : option string := agree None (map_to_list ms).*2.

Definition build_spec (described : list (string * ServerSpec)) (handlers : list HandlerMetadata) : Spec :=
  let (servers, schemes) := build_servers described in
  let d := foldl (add_handler servers) empty_doc handlers in
  mk_spec servers (agreed_content_type (messages d)) d schemes.


(** [Spec::messages_without_schema]; [BTreeMap::values] go in key order. *)
Definition in_key_order {A} (m : gmap string A) : list (string * A) :=
  merge_sort (fun a b => Is_true (String.leb a.1 b.1)) (map_to_list m).
Definition messages_without_schema (s : Spec) : list string :=
  (List.filter (fun e => match payload e.2 with
     | None => negb (schemaless e.2) && negb (String.eqb e.1 "bytes")
     | Some _ => false
     end) (in_key_order (messages (doc s)))).*1.

(** ** What a reader resolves *)

(** A reference is a JSON pointer (RFC 6901) from the root of the document: its tokens are split at
    [/], and [~1] and [~0] in a token stand for [/] and [~]. *)
Fixpoint unescape (s : string) : string :=
  match s with
  | String "~" (String "1" rest) => String "/" (unescape rest)
  | String "~" (String "0" rest) => String "~" (unescape rest)
  | String c rest => String c (unescape rest)
  | EmptyString => EmptyString
  end.

Inductive Target := AServer | AChannel | AChannelMessage | AComponent | AScheme.
Definition resolve (s : Spec) (r : string) : option Target :=
  match unescape <$> split "/" r with
  | ["#"; section; n] =>
      if String.eqb section "servers" then if bool_decide (n ∈ (spec_servers s).*1) then Some AServer else None
      else if String.eqb section "channels" then (fun _ => AChannel) <$> channels (doc s) !! n
      else None
  | ["#"; section; n; k] =>
      if negb (String.eqb section "components") then None
      else if String.eqb n "messages" then (fun _ => AComponent) <$> messages (doc s) !! k
      else if String.eqb n "securitySchemes" then (fun _ => AScheme) <$> security_schemes s !! k
      else None
  | ["#"; section; c; part; m] =>
      if String.eqb section "channels" && String.eqb part "messages"
      then (fun _ => AChannelMessage) <$> (channels (doc s) !! c ≫= fun ch => ch_messages ch !! m)
      else None
  | _ => None
  end.

(** The references of a document, each with what the specification says it points at. *)
Inductive refers (s : Spec) : Target -> string -> Prop :=
  | refers_server c ch r : channels (doc s) !! c = Some ch -> r ∈ ch_servers ch -> refers s AServer r
  | refers_message c ch m r : channels (doc s) !! c = Some ch -> ch_messages ch !! m = Some r -> refers s AComponent r
  | refers_channel id op : operations (doc s) !! id = Some op -> refers s AChannel (op_channel op)
  | refers_op_message id op r : operations (doc s) !! id = Some op -> r ∈ op_messages op -> refers s AChannelMessage r
  | refers_reply_channel id op rep : operations (doc s) !! id = Some op -> op_reply op = Some rep ->
      refers s AChannel (reply_channel rep)
  | refers_reply_message id op rep r : operations (doc s) !! id = Some op -> op_reply op = Some rep ->
      r ∈ reply_messages rep -> refers s AChannelMessage r
  | refers_scheme n srv r : (n, srv) ∈ spec_servers s -> r ∈ s_security srv -> refers s AScheme r.

(** A name with no character a pointer (or the fragment of a URI) gives a meaning to. *)
Definition plain_char (c : ascii) : bool :=
  negb (Ascii.eqb c "/") && negb (Ascii.eqb c "~") && negb (Ascii.eqb c "%").
Fixpoint plain (s : string) : bool :=
  match s with
  | EmptyString => true
  | String c rest => plain_char c && plain rest
  end.

(** What a registration brings to the messages of the document, in the order it brings it. *)
Definition answer_of (h : HandlerMetadata) : option OutgoingMessageMetadata :=
  List.find (fun o => bool_decide (kind o = Answer)) (outgoing h).
Definition sent_by (h : HandlerMetadata) : list OutgoingMessageMetadata :=
  List.filter (fun o => negb (bool_decide (kind o = Answer))) (outgoing h).
Definition contributions (h : HandlerMetadata) : list MessageContribution :=
  (option_list (outgoing_contribution <$> answer_of h) ++ received h ++ (outgoing_contribution <$> sent_by h))%list.

(** The names a registration brings. *)
Definition plain_handler (h : HandlerMetadata) : bool :=
  plain (name h) && forallb (fun o => plain (out_channel o)) (outgoing h) &&
  forallb (fun c => plain (c_name c)) (contributions h).

(** ** Ids never overwrite *)

Lemma suffixed_inj base a b : (a <= u64_max)%N -> (b <= u64_max)%N -> suffixed base a = suffixed base b -> a = b.
Proof.
  intros Ha Hb H. unfold suffixed in H. apply (inj (String.append base)), (inj (String.append "_")) in H.
  pose proof (u64_parse_to_string a Ha) as H1. pose proof (u64_parse_to_string b Hb) as H2. rewrite H in H1. congruence.
Qed.

Lemma length_append (a b : string) : String.length (a ++ b) = (String.length a + String.length b)%nat.
Proof. induction a as [|c a IH]; simpl; [done|by rewrite IH]. Qed.

Lemma suffixed_longer base a : suffixed base a <> base.
Proof.
  intros H. assert (Hl : String.length (suffixed base a) = String.length base) by by rewrite H.
  unfold suffixed in Hl. rewrite !length_append in Hl. cbn [String.length] in Hl. lia.
Qed.

Lemma numbered_spec ops base fuel suffix :
  ops !! numbered ops base fuel suffix = None \/
  forall i, (i <= fuel)%nat -> is_Some (ops !! suffixed base (suffix + N.of_nat i)).
Proof.
  revert suffix. induction fuel as [|fuel IH]; intros suffix; simpl.
  - destruct (ops !! suffixed base suffix) eqn:H; [right|by left]. intros i Hi. replace i with 0%nat by lia.
    rewrite N.add_0_r, H. done.
  - destruct (ops !! suffixed base suffix) eqn:H; [|by left].
    destruct (IH (suffix + 1)%N) as [|Hall]; [by left|right]. intros [|i] Hi; [rewrite N.add_0_r, H; done|].
    replace (suffix + N.of_nat (S i))%N with (suffix + 1 + N.of_nat i)%N by lia. apply Hall. lia.
Qed.

(** The suffix is an [i32]. *)
Definition few (ops : gmap string Operation) : Prop := (N.of_nat (size ops) < 2 ^ 31 - 2)%N.

Lemma fresh_id_free ops base : few ops -> ops !! fresh_id ops base = None.
Proof.
  intros Hfew. unfold fresh_id. destruct (ops !! base) as [op|] eqn:Hb; [|done].
  destruct (numbered_spec ops base (size ops) 2) as [|Hall]; [done|exfalso].
  set (names := base :: ((fun i => suffixed base (2 + N.of_nat i)) <$> seq 0 (S (size ops)))).
  assert (Hn : NoDup names).
  { apply NoDup_cons. split.
    - intros (i & Hi & _)%list_elem_of_fmap. by apply (suffixed_longer base (2 + N.of_nat i)).
    - apply NoDup_fmap_2_strong; [|apply NoDup_seq]. intros i j Hi%elem_of_seq Hj%elem_of_seq H.
      apply suffixed_inj in H; unfold few, u64_max in *; lia. }
  assert (Hsub : (list_to_set names : gset string) ⊆ dom ops).
  { intros n Hin. apply elem_of_list_to_set in Hin. apply elem_of_dom. apply elem_of_cons in Hin as [->|Hin]; [done|].
    apply list_elem_of_fmap in Hin as (i & -> & Hi%elem_of_seq). apply Hall. lia. }
  apply subseteq_size in Hsub. rewrite size_list_to_set, size_dom in Hsub by done.
  unfold names in Hsub. cbn [length] in Hsub. rewrite length_fmap, length_seq in Hsub. lia.
Qed.

(** ** References *)

Lemma split_step c s : Ascii.eqb c "/" = false -> split "/" (String c s) =
  match split "/" s with piece :: pieces => String c piece :: pieces | [] => [String c EmptyString] end.
Proof. intros Hc. cbn [split]. by destruct (Ascii.eqb c "/"). Qed.

Lemma plain_step c s : plain (String c s) = true -> Ascii.eqb c "/" = false /\ c <> "~"%char /\ plain s = true.
Proof.
  cbn [plain]. unfold plain_char. rewrite !andb_true_iff, !negb_true_iff. intros [[[Hc Ht] _] Hs].
  split_and!; [done|by apply Ascii.eqb_neq|done].
Qed.

Lemma split_plain s : plain s = true -> split "/" s = [s].
Proof.
  induction s as [|c s IH]; [done|]. intros (Hc & _ & Hs)%plain_step. by rewrite split_step, IH.
Qed.

Lemma split_at s rest : plain s = true -> split "/" (s ++ String "/" rest) = s :: split "/" rest.
Proof.
  induction s as [|c s IH]; [done|]. intros (Hc & _ & Hs)%plain_step.
  change (String c s ++ String "/" rest) with (String c (s ++ String "/" rest)). by rewrite split_step, IH.
Qed.

Lemma unescape_cons c s : c <> "~"%char -> unescape (String c s) = String c (unescape s).
Proof. intros Hc. destruct c as [[] [] [] [] [] [] [] []]; try done. Qed.

Lemma unescape_plain s : plain s = true -> unescape s = s.
Proof.
  induction s as [|c s IH]; [done|]. intros (_ & Hc & Hs)%plain_step. by rewrite unescape_cons, IH.
Qed.

Lemma plain_append a b : plain (a ++ b) = plain a && plain b.
Proof.
  induction a as [|c a IH]; [done|]. change (String c a ++ b) with (String c (a ++ b)). cbn [plain]. by rewrite IH, andb_assoc.
Qed.

Lemma plain_digits fuel n rest : plain rest = true -> plain (print_digits fuel n rest) = true.
Proof.
  revert n rest. induction fuel as [|fuel IH]; intros n rest Hr; [done|]. cbn [print_digits].
  assert (Hd : plain (String (digit (n mod 10)) rest) = true).
  { cbn [plain]. rewrite Hr, andb_true_r. pose proof (N.mod_lt n 10 ltac:(done)).
    generalize dependent (n mod 10)%N. intros k Hk.
    assert (Hc : forallb (fun k => plain_char (digit (N.of_nat k))) (seq 0 10) = true) by reflexivity.
    rewrite forallb_forall in Hc. rewrite <- (N2Nat.id k). apply Hc, in_seq. lia. }
  destruct (_ =? 0)%N; [done|by apply IH].
Qed.

Lemma plain_scheme_key n i : plain n = true -> plain (scheme_key n i) = true.
Proof. intros Hn. unfold scheme_key. destruct (_ =? _)%nat; [done|]. rewrite plain_append, Hn. by apply plain_digits. Qed.

(** A reference splits into the tokens it was written from. *)
Lemma tokens_two a b : plain a = true -> plain b = true ->
  unescape <$> split "/" ("#/" ++ a ++ "/" ++ b) = ["#"; a; b].
Proof.
  intros Ha Hb. change ("#/" ++ a ++ "/" ++ b) with ("#" ++ String "/" (a ++ String "/" b)).
  rewrite split_at, split_at, split_plain by done. cbn. by rewrite !unescape_plain.
Qed.

Lemma tokens_three a b c : plain a = true -> plain b = true -> plain c = true ->
  unescape <$> split "/" ("#/" ++ a ++ "/" ++ b ++ "/" ++ c) = ["#"; a; b; c].
Proof.
  intros Ha Hb Hc. change ("#/" ++ a ++ "/" ++ b ++ "/" ++ c) with ("#" ++ String "/" (a ++ String "/" (b ++ String "/" c))).
  rewrite !split_at, split_plain by done. cbn. by rewrite !unescape_plain.
Qed.

Lemma tokens_four a b c d : plain a = true -> plain b = true -> plain c = true -> plain d = true ->
  unescape <$> split "/" ("#/" ++ a ++ "/" ++ b ++ "/" ++ c ++ "/" ++ d) = ["#"; a; b; c; d].
Proof.
  intros Ha Hb Hc Hd.
  change ("#/" ++ a ++ "/" ++ b ++ "/" ++ c ++ "/" ++ d)
    with ("#" ++ String "/" (a ++ String "/" (b ++ String "/" (c ++ String "/" d)))).
  rewrite !split_at, split_plain by done. cbn. by rewrite !unescape_plain.
Qed.

Lemma resolve_server_ref s n : plain n = true -> n ∈ (spec_servers s).*1 -> resolve s (server_ref n) = Some AServer.
Proof.
  intros Hn Hin. unfold resolve. change (server_ref n) with ("#/" ++ "servers" ++ "/" ++ n).
  rewrite (tokens_two "servers" n) by done. by rewrite bool_decide_true.
Qed.
Lemma resolve_channel_ref s c : plain c = true -> is_Some (channels (doc s) !! c) -> resolve s (channel_ref c) = Some AChannel.
Proof. intros Hc [ch Hch]. unfold resolve. change (channel_ref c) with ("#/" ++ "channels" ++ "/" ++ c).
  rewrite (tokens_two "channels" c) by done. by rewrite Hch. Qed.
Lemma resolve_message_ref s c ch m : plain c = true -> plain m = true ->
  channels (doc s) !! c = Some ch -> is_Some (ch_messages ch !! m) -> resolve s (message_ref c m) = Some AChannelMessage.
Proof.
  intros Hc Hm Hch [r Hr]. unfold resolve. change (message_ref c m) with ("#/" ++ "channels" ++ "/" ++ c ++ "/" ++ "messages" ++ "/" ++ m).
  rewrite (tokens_four "channels" c "messages" m) by done. rewrite Hch. cbn. by rewrite Hr.
Qed.
Lemma resolve_component_ref s m : plain m = true -> is_Some (messages (doc s) !! m) -> resolve s (component_ref m) = Some AComponent.
Proof. intros Hm [x Hx]. unfold resolve. change (component_ref m) with ("#/" ++ "components" ++ "/" ++ "messages" ++ "/" ++ m).
  rewrite (tokens_three "components" "messages" m) by done. by rewrite Hx. Qed.
Lemma resolve_scheme_ref s k : plain k = true -> is_Some (security_schemes s !! k) -> resolve s (scheme_ref k) = Some AScheme.
Proof. intros Hk [x Hx]. unfold resolve. change (scheme_ref k) with ("#/" ++ "components" ++ "/" ++ "securitySchemes" ++ "/" ++ k).
  rewrite (tokens_three "components" "securitySchemes" k) by done. by rewrite Hx. Qed.

(** A list of references an operation or a reply carries, all to one channel of the document. *)
Definition refs_ok (d : Doc) (channel : string) (ms : list string) : Prop :=
  exists c ch, channels d !! c = Some ch /\ channel = channel_ref c /\
    forall r, r ∈ ms -> exists m, r = message_ref c m /\ is_Some (ch_messages ch !! m).

Definition servers_ok (servers on_servers : list string) : Prop :=
  forall r, r ∈ on_servers -> exists n, r = server_ref n /\ n ∈ servers.

Definition channel_ok (servers : list string) (ms : gmap string MessageObject) (ch : Channel) : Prop :=
  (forall m r, ch_messages ch !! m = Some r -> r = component_ref m /\ is_Some (ms !! m)) /\ servers_ok servers (ch_servers ch).

Record doc_ok (servers : list string) (d : Doc) : Prop := {
  ok_channels : forall c ch, channels d !! c = Some ch -> plain c = true /\ channel_ok servers (messages d) ch;
  ok_messages : forall m, is_Some (messages d !! m) -> plain m = true;
  ok_operations : forall id op, operations d !! id = Some op ->
    refs_ok d (op_channel op) (op_messages op) /\
    (forall rep, op_reply op = Some rep -> refs_ok d (reply_channel rep) (reply_messages rep));
}.

(** Registrations only add. *)
Definition channel_grows (ch ch' : Channel) : Prop := forall m, is_Some (ch_messages ch !! m) -> is_Some (ch_messages ch' !! m).
Record grows (d d' : Doc) : Prop := {
  g_channels : forall c ch, channels d !! c = Some ch -> exists ch', channels d' !! c = Some ch' /\ channel_grows ch ch';
  g_messages : forall m, is_Some (messages d !! m) -> is_Some (messages d' !! m);
}.

#[local] Instance grows_preorder : PreOrder grows.
Proof.
  split.
  - intros d. split; [|done]. intros c ch H. exists ch. split; [done|by intros ?].
  - intros d1 d2 d3 [H1 H2] [H3 H4]. split; [|by auto]. intros c ch Hc.
    destruct (H1 c ch Hc) as (ch' & Hc' & Hm). destruct (H3 c ch' Hc') as (ch'' & ? & ?). exists ch''.
    split; [done|]. intros m Hs. by auto.
Qed.

Lemma refs_ok_grows d d' c ms : grows d d' -> refs_ok d c ms -> refs_ok d' c ms.
Proof.
  intros [Hg _] (c' & ch & Hc & -> & Hm). destruct (Hg c' ch Hc) as (ch' & Hc' & Hms).
  exists c', ch'. split_and!; [done|done|]. intros r Hr. destruct (Hm r Hr) as (m & -> & H). exists m. by auto.
Qed.

Lemma merge_message_is_Some ms c m : is_Some (merge_message ms c !! m) <-> m = c_name c \/ is_Some (ms !! m).
Proof.
  unfold merge_message. destruct (decide (m = c_name c)) as [->|Hne].
  - rewrite lookup_insert_eq. split; [by left|by eexists].
  - rewrite lookup_insert_ne by done. split; [by right|by intros [?|?]].
Qed.

(** A channel that takes one more contribution in stays well-formed, and so does the document it
    is put back into. *)
Lemma channel_ok_message servers ms ch c a b :
  channel_ok servers ms ch ->
  channel_ok servers (merge_message ms c)
    (mk_channel a (<[c_name c := component_ref (c_name c)]> (ch_messages ch)) (ch_parameters ch) (ch_servers ch) b).
Proof.
  intros [Hm Hs]. split; [|done]. cbn [ch_messages]. intros m r. rewrite merge_message_is_Some.
  destruct (decide (m = c_name c)) as [->|Hne]; [rewrite lookup_insert_eq|rewrite lookup_insert_ne by done].
  - intros [= <-]. by auto.
  - intros H. destruct (Hm m r H). by auto.
Qed.

Lemma put_channel servers d c ch ms :
  doc_ok servers d -> plain c = true -> channel_ok servers ms ch ->
  (forall old, channels d !! c = Some old -> channel_grows old ch) ->
  (forall m, is_Some (messages d !! m) -> is_Some (ms !! m)) -> (forall m, is_Some (ms !! m) -> plain m = true) ->
  let d' := mk_doc (<[c := ch]> (channels d)) (operations d) ms in doc_ok servers d' /\ grows d d'.
Proof.
  intros [Hc Hp Ho] Hpc Hch Hold Hms Hplain d'.
  assert (Hg : grows d d').
  { split; [|done]. intros c' ch' Hl. cbn [d' channels]. destruct (decide (c' = c)) as [->|Hne].
    - rewrite lookup_insert_eq. by eauto.
    - rewrite lookup_insert_ne by done. exists ch'. split; [done|by intros ?]. }
  split; [|done]. split; [|done|].
  - intros c' ch'. cbn [d' channels messages]. destruct (decide (c' = c)) as [->|Hne].
    + rewrite lookup_insert_eq. by intros [= <-].
    + rewrite lookup_insert_ne by done. intros H. destruct (Hc c' ch' H) as [Hp' [Hm Hs]].
      split; [done|]. split; [|done]. intros m r Hr. destruct (Hm m r Hr). by auto.
  - intros id op Hop. destruct (Ho id op Hop) as [H1 H2]. split; [|intros rep Hrep]; eapply refs_ok_grows; eauto.
Qed.

Lemma put_operation servers d id op :
  doc_ok servers d -> refs_ok d (op_channel op) (op_messages op) ->
  (forall rep, op_reply op = Some rep -> refs_ok d (reply_channel rep) (reply_messages rep)) ->
  let d' := mk_doc (channels d) (<[id := op]> (operations d)) (messages d) in doc_ok servers d' /\ grows d d'.
Proof.
  intros [Hc Hp Ho] H1 H2 d'. split; [split; [done|done|]|].
  - intros id' op'. cbn [d' operations]. destruct (decide (id' = id)) as [->|Hne].
    + rewrite lookup_insert_eq. by intros [= <-].
    + rewrite lookup_insert_ne by done. by apply Ho.
  - split; [|done]. intros c ch H. exists ch. split; [done|by intros ?].
Qed.

Lemma received_grows cs ch ms ch' ms' : add_received cs ch ms = (ch', ms') ->
  channel_grows ch ch' /\ (forall m, is_Some (ms !! m) -> is_Some (ms' !! m)) /\
  (forall m, is_Some (ms' !! m) -> is_Some (ms !! m) \/ m ∈ c_name <$> cs) /\
  (forall m, m ∈ c_name <$> cs -> is_Some (ch_messages ch' !! m)).
Proof.
  revert ch ms. induction cs as [|c cs IH]; intros ch ms; cbn [add_received].
  { intros [= <- <-]. split_and!; [by intros ?|done|by left|]. intros m Hm. by apply not_elem_of_nil in Hm. }
  intros H. destruct (IH _ _ H) as (H1 & H2 & H3 & H4). split_and!.
  - intros m Hm. apply H1. cbn [ch_messages]. apply lookup_insert_is_Some'. by right.
  - intros m Hm. apply H2, merge_message_is_Some. by right.
  - intros m Hm. rewrite fmap_cons, elem_of_cons. destruct (H3 m Hm) as [Hd|]; [|by auto].
    apply merge_message_is_Some in Hd as [?|?]; auto.
  - intros m. rewrite fmap_cons, elem_of_cons. intros [->|Hm]; [|by apply H4].
    apply H1. cbn [ch_messages]. by rewrite lookup_insert_eq.
Qed.

Lemma add_received_ok servers cs ch ms ch' ms' : add_received cs ch ms = (ch', ms') ->
  channel_ok servers ms ch -> channel_ok servers ms' ch'.
Proof.
  revert ch ms. induction cs as [|c cs IH]; intros ch ms; cbn [add_received]; [by intros [= <- <-]|].
  intros H Hok. eapply IH; [exact H|]. by apply channel_ok_message.
Qed.

(** ** The two steps of a registration keep a document well-formed *)

Lemma add_outgoing_ok servers o on d d' c m :
  add_outgoing o on d = (d', (c, m)) -> doc_ok servers d -> servers_ok servers on ->
  plain (out_channel o) = true -> plain (c_name (outgoing_contribution o)) = true ->
  doc_ok servers d' /\ grows d d' /\ operations d' = operations d /\
  refs_ok d' (channel_ref c) [message_ref c m].
Proof.
  unfold add_outgoing. intros [= <- <- <-] Hok Hon Hpc Hpm.
  match goal with |- doc_ok _ (mk_doc (<[_ := ?ch]> _) _ ?ms) /\ _ =>
    assert (H := put_channel servers d (out_channel o) ch ms Hok Hpc) end.
  cbv zeta in H. destruct H as [H1 H2].
  - apply channel_ok_message. destruct (channels d !! out_channel o) eqn:Hl; cbn [default].
    + by apply (ok_channels _ _ Hok (out_channel o)).
    + split; [|done]. cbn. intros m r. by rewrite lookup_empty.
  - intros old Hl. rewrite Hl. intros m Hm. cbn. apply lookup_insert_is_Some'. by right.
  - intros m Hm. apply merge_message_is_Some. by right.
  - intros m [->|Hm]%merge_message_is_Some; [done|by apply (ok_messages _ _ Hok)].
  - split_and!; [done|done|done|]. eexists _, _. split_and!; [apply lookup_insert_eq|done|].
    intros r ->%list_elem_of_singleton. eexists. split; [done|]. cbn [ch_messages]. by rewrite lookup_insert_eq.
Qed.

Lemma add_receive_ok servers h reply on tags d :
  doc_ok servers d -> servers_ok servers on -> plain (name h) = true ->
  (forall c, c ∈ received h -> plain (c_name c) = true) ->
  (forall rep, reply = Some rep -> refs_ok d (reply_channel rep) (reply_messages rep)) ->
  doc_ok servers (add_receive h reply on tags d).
Proof.
  intros Hok Hon Hpn Hpc Hrep. unfold add_receive.
  destruct (add_received _ _ _) as [ch ms] eqn:Hr.
  pose proof (received_grows _ _ _ _ _ Hr) as (H1 & H2 & H3 & H4). cbn [ch_messages] in H1.
  destruct (put_channel servers d (name h) ch ms Hok Hpn) as [Hd Hg].
  - eapply add_received_ok; [exact Hr|]. cbn. destruct (channels d !! name h) eqn:Hl; cbn [default].
    + destruct (ok_channels _ _ Hok _ _ Hl) as [_ Hc]. done.
    + split; [|done]. cbn. intros m r. by rewrite lookup_empty.
  - intros old Hl. rewrite Hl in H1. exact H1.
  - done.
  - intros m Hm. destruct (H3 m Hm) as [?|(c & -> & Hc)%list_elem_of_fmap]; [by apply (ok_messages _ _ Hok)|by apply Hpc].
  - apply (put_operation servers _ _ _ Hd); cbn [op_channel op_messages op_reply].
    + exists (name h), ch. split_and!; [apply lookup_insert_eq|done|].
      intros r (c & -> & Hc)%list_elem_of_fmap. exists (c_name c). split; [done|]. apply H4, list_elem_of_fmap. by exists c.
    + intros rep Heq. eapply refs_ok_grows; [exact Hg|]. by apply Hrep.
Qed.

Lemma plain_handler_spec h : plain_handler h = true ->
  plain (name h) = true /\ (forall o, o ∈ outgoing h -> plain (out_channel o) = true) /\
  (forall c, c ∈ contributions h -> plain (c_name c) = true).
Proof.
  unfold plain_handler. rewrite !andb_true_iff, !forallb_forall. intros [[H1 H2] H3].
  split_and!; [done|intros o Ho; by apply H2, list_elem_of_In|intros c Hc; by apply H3, list_elem_of_In].
Qed.

Lemma answer_of_spec h o : answer_of h = Some o ->
  o ∈ outgoing h /\ kind o = Answer /\ outgoing_contribution o ∈ contributions h.
Proof.
  intros H. pose proof H as [Hin Hk]%List.find_some. apply list_elem_of_In in Hin. apply bool_decide_eq_true in Hk.
  split_and!; [done|done|]. unfold contributions. rewrite H. by left.
Qed.

Lemma sent_contribution h o : o ∈ outgoing h -> kind o <> Answer -> outgoing_contribution o ∈ contributions h.
Proof.
  intros Hin Hk. unfold contributions. apply elem_of_app. right. apply elem_of_app. right.
  apply list_elem_of_fmap. exists o. split; [done|]. apply list_elem_of_In, List.filter_In.
  split; [by apply list_elem_of_In|]. by rewrite bool_decide_false.
Qed.

Lemma add_send_ok servers h on tags d o :
  o ∈ outgoing h -> plain_handler h = true -> servers_ok servers on -> doc_ok servers d ->
  doc_ok servers (add_send h on tags d o).
Proof.
  intros Hin (_ & Hpo & Hpc)%plain_handler_spec Hon Hok. unfold add_send.
  destruct (decide (kind o = Answer)) as [|Hk]; [done|].
  destruct (add_outgoing o on d) as [d' [c m]] eqn:Ha.
  destruct (add_outgoing_ok servers _ _ _ _ _ _ Ha Hok Hon (Hpo o Hin) (Hpc _ (sent_contribution h o Hin Hk))) as (Hd & _ & _ & Hr).
  by apply (put_operation servers _ _ _ Hd).
Qed.

Lemma foldl_inv {A B} (P : A -> Prop) (f : A -> B -> A) l a :
  P a -> (forall a b, b ∈ l -> P a -> P (f a b)) -> P (foldl f a l).
Proof.
  revert a. induction l as [|b l IH]; intros a Ha Hf; [done|]. cbn [foldl].
  apply IH; [apply Hf; [by left|done]|]. intros a' b' Hb. apply Hf. by right.
Qed.

Lemma resolve_server_in label servers n : resolve_server label servers = Some n -> n ∈ servers.*1.
Proof.
  assert (Hone : match servers with [(only, _)] => Some only | _ => None end = Some n -> n ∈ servers.*1).
  { destruct servers as [|[k v] [|]]; [done| |done]. intros [= <-]. by left. }
  unfold resolve_server. destruct label as [l|]; [|done]. case_bool_decide; [by intros [= <-]|done].
Qed.

Lemma on_servers_ok servers h : servers_ok servers.*1 (on_servers_of servers h).
Proof.
  intros r. unfold on_servers_of. destruct (resolve_server (server h) servers) as [n|] eqn:Hr; cbn.
  - intros ->%list_elem_of_singleton. exists n. split; [done|]. by eapply resolve_server_in.
  - intros []%not_elem_of_nil.
Qed.

Lemma add_handler_ok servers d h :
  plain_handler h = true -> doc_ok servers.*1 d -> doc_ok servers.*1 (add_handler servers d h).
Proof.
  intros Hp Hok. pose proof (on_servers_ok servers h) as Hon.
  pose proof (plain_handler_spec h Hp) as (Hpn & Hpo & Hpc).
  assert (Hrecv : forall c, c ∈ received h -> plain (c_name c) = true).
  { intros c Hc. apply Hpc. unfold contributions. apply elem_of_app. right. apply elem_of_app. by left. }
  unfold add_handler, add_reply. change (List.find _ (outgoing h)) with (answer_of h).
  destruct (answer_of h) as [o|] eqn:Ha.
  - destruct (answer_of_spec h o Ha) as (Hin & _ & Hc). destruct (add_outgoing _ _ d) as [d' [c m]] eqn:Hadd.
    destruct (add_outgoing_ok servers.*1 _ _ _ _ _ _ Hadd Hok Hon (Hpo o Hin) (Hpc _ Hc)) as (Hd & _ & _ & Hr).
    apply foldl_inv; [|intros; by apply add_send_ok].
    apply add_receive_ok; try done. by intros rep [= <-].
  - apply foldl_inv; [|intros; by apply add_send_ok]. by apply add_receive_ok.
Qed.

(** ** Servers *)

Definition schemes_ok (acc : list (string * Server) * gmap string Value) : Prop :=
  forall n srv r, (n, srv) ∈ acc.1 -> r ∈ s_security srv -> exists i, r = scheme_ref (scheme_key n i) /\ is_Some (acc.2 !! scheme_key n i).

Lemma put_schemes n (l : list (nat * Value)) (m : gmap string Value) k :
  is_Some (foldl (fun schemes p => <[scheme_key n p.1 := p.2]> schemes) m l !! k) <->
  is_Some (m !! k) \/ k ∈ (fun p => scheme_key n p.1) <$> l.
Proof.
  revert m. induction l as [|[i v] l IH]; intros m; cbn [foldl fmap list_fmap].
  - split; [by left|]. intros [?|H]; [done|by apply not_elem_of_nil in H].
  - rewrite IH, lookup_insert_is_Some', elem_of_cons. cbn. split; [intros [[?|?]|?]|intros [?|[?|?]]]; auto.
Qed.

Lemma add_server_ok acc e : schemes_ok acc -> schemes_ok (add_server acc e).
Proof.
  destruct e as [n spec]. intros H n' srv r. unfold add_server. cbn [fst snd].
  intros [Hin| [= -> ->]%list_elem_of_singleton]%elem_of_app Hr.
  - destruct (H n' srv r Hin Hr) as (i & -> & Hi). exists i. split; [done|]. apply put_schemes. by left.
  - cbn [s_security] in Hr. apply elem_of_lookup_imap in Hr as (i & v & -> & Hv). exists i. split; [done|].
    apply put_schemes. right. apply list_elem_of_fmap. exists (i, v). split; [done|]. by apply elem_of_enumerate.
Qed.

Lemma build_servers_ok described : schemes_ok (build_servers described).
Proof. unfold build_servers. apply foldl_inv; [|intros; by apply add_server_ok]. intros n srv r Hin. by apply not_elem_of_nil in Hin. Qed.

Lemma build_servers_names described : (build_servers described).1.*1 = described.*1.
Proof.
  unfold build_servers. assert (H : forall acc, (foldl add_server acc described).1.*1 = (acc.1.*1 ++ described.*1)%list).
  { induction described as [|[n spec] l IH]; intros acc; cbn [foldl]; [by rewrite app_nil_r|].
    rewrite IH. unfold add_server. cbn [fst]. by rewrite fmap_app, <- app_assoc. }
  by rewrite H.
Qed.

Lemma build_spec_ok described handlers s :
  Forall (fun h => plain_handler h = true) handlers -> build_spec described handlers = s ->
  doc_ok described.*1 (doc s) /\ (spec_servers s).*1 = described.*1 /\ schemes_ok (spec_servers s, security_schemes s).
Proof.
  intros Hh <-. unfold build_spec. pose proof (build_servers_ok described) as Hs. pose proof (build_servers_names described) as Hn.
  destruct (build_servers described) as [servers schemes]. cbn [fst doc spec_servers security_schemes] in *.
  split_and!; [|done|done]. rewrite <- Hn. apply foldl_inv.
  - split; [by intros c ch|by intros m []|by intros id op].
  - intros d h Hin Hok. apply add_handler_ok; [|done]. by apply (proj1 (Forall_forall _ _) Hh).
Qed.

Lemma refs_ok_resolve servers s c ms : doc_ok servers (doc s) -> refs_ok (doc s) c ms ->
  resolve s c = Some AChannel /\ forall r, r ∈ ms -> resolve s r = Some AChannelMessage.
Proof.
  intros Hok (c' & ch & Hc & -> & Hm). destruct (ok_channels _ _ Hok c' ch Hc) as [Hp [Hms _]]. split.
  - apply resolve_channel_ref; [done|by eexists].
  - intros r Hr. destruct (Hm r Hr) as (m & -> & [x Hx]). destruct (Hms m x Hx) as [_ Hd].
    apply (resolve_message_ref s c' ch m); [done|by apply (ok_messages _ _ Hok)|done|by eexists].
Qed.

(** C32. Every reference of a generated document resolves inside it, and to an object of the kind
    AsyncAPI wants there: a channel's servers and messages, an operation's channel and messages, its
    reply's channel and messages, and a server's security schemes.  The names must hold no character
    a JSON pointer gives a meaning to. *)
Theorem document_references_resolve described handlers k r :
  Forall (fun h => plain_handler h = true) handlers -> Forall (fun e => plain e.1 = true) described ->
  refers (build_spec described handlers) k r -> resolve (build_spec described handlers) r = Some k.
Proof.
  intros Hh Hd Href. destruct (build_spec described handlers) as [srvs ct d schemes] eqn:Hb.
  destruct (build_spec_ok described handlers _ Hh Hb) as (Hok & Hn & Hs). cbn [doc spec_servers] in Hok, Hn.
  assert (Hplain : forall n, n ∈ srvs.*1 -> plain n = true).
  { rewrite Hn. intros n (e & -> & He)%list_elem_of_fmap. by apply (proj1 (Forall_forall _ _) Hd). }
  destruct Href; cbn [doc spec_servers] in *.
  - destruct (ok_channels _ _ Hok c ch ltac:(done)) as (_ & _ & Hsv). destruct (Hsv r ltac:(done)) as (n & -> & Hin).
    rewrite <- Hn in Hin. apply resolve_server_ref; [by apply Hplain|done].
  - destruct (ok_channels _ _ Hok c ch ltac:(done)) as (_ & Hms & _). destruct (Hms m r ltac:(done)) as [-> Hm].
    apply resolve_component_ref; [by apply (ok_messages _ _ Hok)|done].
  - destruct (ok_operations _ _ Hok id op ltac:(done)) as [Hr _].
    by apply (refs_ok_resolve _ (mk_spec srvs ct d schemes) _ _ Hok Hr).
  - destruct (ok_operations _ _ Hok id op ltac:(done)) as [Hr _].
    by apply (refs_ok_resolve _ (mk_spec srvs ct d schemes) _ _ Hok Hr).
  - destruct (ok_operations _ _ Hok id op ltac:(done)) as [_ Hr].
    by apply (refs_ok_resolve _ (mk_spec srvs ct d schemes) _ _ Hok (Hr rep ltac:(done))).
  - destruct (ok_operations _ _ Hok id op ltac:(done)) as [_ Hr].
    by apply (refs_ok_resolve _ (mk_spec srvs ct d schemes) _ _ Hok (Hr rep ltac:(done))).
  - destruct (Hs n srv r ltac:(done) ltac:(done)) as (i & -> & Hi).
    apply resolve_scheme_ref; [|done]. apply plain_scheme_key, Hplain. apply list_elem_of_fmap. by exists (n, srv).
Qed.

(** ** An operation per registration *)

(** The operations a registration writes, none of which depends on what is in the document. *)
Definition reply_of (h : HandlerMetadata) : option OperationReply :=
  (fun o => mk_reply (reply_address_location o) (channel_ref (out_channel o))
     [message_ref (out_channel o) (c_name (outgoing_contribution o))]) <$> answer_of h.
Definition receive_op (tags : list string) (h : HandlerMetadata) : Operation :=
  mk_operation Receive (channel_ref (name h)) ((fun c => message_ref (name h) (c_name c)) <$> received h) (description h)
    (reply_of h) tags (retry_extension h) (operation_b (bindings h)).
Definition send_op (tags : list string) (o : OutgoingMessageMetadata) : Operation :=
  mk_operation Send (channel_ref (out_channel o)) [message_ref (out_channel o) (c_name (outgoing_contribution o))] None None tags None
    (operation_b (out_bindings o)).
Definition ops_of (servers : list (string * Server)) (h : HandlerMetadata) : list Operation :=
  receive_op (tags_of servers h) h :: (send_op (tags_of servers h) <$> sent_by h).

Definition written (ops : gmap string Operation) : list Operation := (map_to_list ops).*2.

Lemma written_insert ops base op : (N.of_nat (length (written ops)) < 2 ^ 31 - 2)%N ->
  written (<[fresh_id ops base := op]> ops) ≡ₚ op :: written ops.
Proof.
  intros H. unfold written. rewrite map_to_list_insert; [done|]. apply fresh_id_free. unfold few, written in *.
  by rewrite length_fmap, length_map_to_list in H.
Qed.

Lemma receive_written h reply on tags d : (N.of_nat (length (written (operations d))) < 2 ^ 31 - 2)%N -> reply = reply_of h ->
  written (operations (add_receive h reply on tags d)) ≡ₚ receive_op tags h :: written (operations d).
Proof.
  intros Hn ->. unfold add_receive. destruct (add_received _ _ _) as [ch ms]. cbn [operations].
  unfold receive_operation_id. by rewrite written_insert.
Qed.

Lemma send_written h on tags l d :
  let sent := List.filter (fun o => negb (bool_decide (kind o = Answer))) l in
  (N.of_nat (length (written (operations d)) + length sent) < 2 ^ 31 - 1)%N ->
  written (operations (foldl (add_send h on tags) d l)) ≡ₚ (send_op tags <$> sent) ++ written (operations d).
Proof.
  cbv zeta. revert d. induction l as [|o l IH]; intros d; cbn [foldl List.filter]; [done|].
  unfold add_send at 2. destruct (decide (kind o = Answer)) as [Hk|Hk].
  - rewrite bool_decide_true by done. apply IH.
  - rewrite bool_decide_false by done. unfold add_outgoing. cbn [negb length fmap list_fmap]. intros Hn.
    assert (Hw : forall ch ms id, written (operations (mk_doc ch (<[fresh_id (operations d) id := send_op tags o]> (operations d)) ms))
      ≡ₚ send_op tags o :: written (operations d)) by (intros; apply written_insert; lia).
    rewrite IH; unfold send_operation_id; cbn [operations] in *.
    + rewrite (Hw ∅ ∅). by rewrite <- Permutation_middle.
    + rewrite (Permutation_length (Hw ∅ ∅ _)). cbn [length]. lia.
Qed.

Lemma handler_written servers d h : (N.of_nat (length (written (operations d)) + length (ops_of servers h)) < 2 ^ 31 - 1)%N ->
  written (operations (add_handler servers d h)) ≡ₚ ops_of servers h ++ written (operations d).
Proof.
  intros Hn. unfold ops_of in *. cbn [length] in Hn. rewrite length_fmap in Hn. unfold add_handler, add_reply.
  change (List.find _ (outgoing h)) with (answer_of h). fold (on_servers_of servers h) in *.
  assert (Hr : forall d0, operations d0 = operations d ->
    written (operations (foldl (add_send h (on_servers_of servers h) (tags_of servers h))
      (add_receive h (reply_of h) (on_servers_of servers h) (tags_of servers h) d0) (outgoing h)))
    ≡ₚ (receive_op (tags_of servers h) h :: (send_op (tags_of servers h) <$> sent_by h)) ++ written (operations d)).
  { intros d0 Hd0. pose proof (receive_written h (reply_of h) (on_servers_of servers h) (tags_of servers h) d0) as Hw.
    rewrite Hd0 in Hw. specialize (Hw ltac:(lia) eq_refl). rewrite send_written, Hw.
    - change (List.filter _ _) with (sent_by h). cbn [app]. by rewrite <- Permutation_middle.
    - change (List.filter _ _) with (sent_by h). rewrite (Permutation_length Hw). cbn [length]. lia. }
  unfold reply_of in Hr at 1. destruct (answer_of h) as [o|] eqn:Ha; cbn [fmap option_fmap option_map] in Hr.
  - unfold add_outgoing. by rewrite Hr.
  - by rewrite Hr.
Qed.

(** C33. No operation of a document overwrites another: whatever names collide, the document holds
    exactly one [receive] operation per registration, with its messages, its reply and its retry
    terms, and one [send] operation per message it declares besides the reply. *)
Theorem every_registration_is_documented described handlers :
  let s := build_spec described handlers in
  let promised := flat_map (ops_of (spec_servers s)) handlers in
  (N.of_nat (length promised) < 2 ^ 31 - 1)%N -> written (operations (doc s)) ≡ₚ promised.
Proof.
  unfold build_spec. destruct (build_servers described) as [servers schemes]. cbn [doc spec_servers].
  assert (H : forall d, (N.of_nat (length (written (operations d)) + length (flat_map (ops_of servers) handlers)) < 2 ^ 31 - 1)%N ->
    written (operations (foldl (add_handler servers) d handlers)) ≡ₚ written (operations d) ++ flat_map (ops_of servers) handlers).
  { induction handlers as [|h l IH]; intros d; cbn [foldl flat_map]; [by rewrite app_nil_r|].
    rewrite length_app. intros Hn. pose proof (handler_written servers d h ltac:(lia)) as Hw. rewrite IH.
    - rewrite Hw. by rewrite (Permutation_app_comm (ops_of servers h)), <- app_assoc.
    - rewrite (Permutation_length Hw), length_app. lia. }
  assert (He : written (operations empty_doc) = []) by (unfold written; cbn [operations empty_doc]; by rewrite map_to_list_empty).
  intros Hn. rewrite H; by rewrite He.
Qed.

(** ** Shared components *)

(** What a component is by its contributions: of each slice the first that has it. *)
Definition telling_title (c : MessageContribution) : option string :=
  t ← c_title c; if String.eqb t (c_name c) then None else Some t.
Definition component (cs : list MessageContribution) : MessageObject :=
  mk_message (head (omap telling_title cs)) (head (omap c_description cs)) (head (omap c_content_type cs))
    (head (omap c_payload cs)) (head (omap c_headers cs)) (existsb c_schemaless cs) (foldl fill_from ∅ (c_bindings <$> cs)).
Definition named (m : string) (cs : list MessageContribution) : list MessageContribution :=
  List.filter (fun c => String.eqb (c_name c) m) cs.

Lemma head_omap_app {A B} (f : A -> option B) l x : head (omap f (l ++ [x])%list) = first (head (omap f l)) (f x).
Proof.
  induction l as [|a l IH]; cbn; [by destruct (f x)|]. destruct (f a); [done|]. exact IH.
Qed.

Lemma component_snoc cs c : component (cs ++ [c]) = merge (component cs) c.
Proof.
  unfold component, merge. cbn [title msg_description msg_content_type payload headers schemaless msg_bindings].
  rewrite !head_omap_app, existsb_app, fmap_app, foldl_app. cbn [existsb fmap list_fmap foldl]. rewrite orb_false_r. f_equal.
  unfold telling_title at 2. destruct (head (omap telling_title cs)); cbn [first]; by destruct (c_title c).
Qed.

Lemma named_snoc m cs c : named m (cs ++ [c]) = if String.eqb (c_name c) m then (named m cs ++ [c])%list else named m cs.
Proof. unfold named. rewrite List.filter_app. cbn [List.filter]. destruct (String.eqb _ _); [done|by rewrite app_nil_r]. Qed.

Lemma merged_components cs m :
  foldl merge_message ∅ cs !! m = match named m cs with [] => None | named => Some (component named) end.
Proof.
  induction cs as [|c cs IH] using rev_ind; [cbn [foldl named List.filter]; by rewrite lookup_empty|].
  rewrite foldl_app, named_snoc. cbn [foldl]. unfold merge_message at 1. destruct (String.eqb_spec (c_name c) m) as [<-|Hne].
  - rewrite lookup_insert_eq, IH.
    assert (H1 : forall l : list MessageContribution, match (l ++ [c])%list with [] => None | l' => Some (component l') end
      = Some (component (l ++ [c]))) by (by intros [|? ?]).
    rewrite H1, component_snoc. do 2 f_equal. by destruct (named (c_name c) cs).
  - by rewrite lookup_insert_ne.
Qed.

Lemma received_messages cs ch ms : (add_received cs ch ms).2 = foldl merge_message ms cs.
Proof. revert ch ms. induction cs as [|c cs IH]; intros ch ms; cbn [add_received foldl]; [done|apply IH]. Qed.

Lemma send_messages h on tags l d :
  messages (foldl (add_send h on tags) d l) =
  foldl merge_message (messages d) (outgoing_contribution <$> List.filter (fun o => negb (bool_decide (kind o = Answer))) l).
Proof.
  revert d. induction l as [|o l IH]; intros d; cbn [foldl List.filter]; [done|]. rewrite IH. unfold add_send.
  destruct (decide (kind o = Answer)) as [Hk|Hk]; [by rewrite bool_decide_true|by rewrite bool_decide_false].
Qed.

Lemma handler_messages servers d h :
  messages (add_handler servers d h) = foldl merge_message (messages d) (contributions h).
Proof.
  unfold add_handler, add_reply, contributions. change (List.find _ (outgoing h)) with (answer_of h).
  assert (Hr : forall reply on tags d0, messages (foldl (add_send h on tags) (add_receive h reply on tags d0) (outgoing h)) =
    foldl merge_message (messages d0) (received h ++ (outgoing_contribution <$> sent_by h))).
  { intros reply on tags d0. rewrite send_messages. change (List.filter _ _) with (sent_by h). rewrite foldl_app. f_equal.
    unfold add_receive. rewrite <- (received_messages (received h)
      (mk_channel (Some (name h)) (ch_messages (default (mk_channel (Some (name h)) ∅ ∅ on ∅) (channels d0 !! name h)))
         (ch_parameters (default (mk_channel (Some (name h)) ∅ ∅ on ∅) (channels d0 !! name h)))
         (ch_servers (default (mk_channel (Some (name h)) ∅ ∅ on ∅) (channels d0 !! name h)))
         (fill_from (ch_bindings (default (mk_channel (Some (name h)) ∅ ∅ on ∅) (channels d0 !! name h))) (channel_b (bindings h))))).
    by destruct (add_received _ _ _). }
  destruct (answer_of h) as [o|]; cbn [fmap option_fmap option_map option_list app]; [|apply Hr].
  unfold add_outgoing. by rewrite Hr.
Qed.

(** A message component is what its contributions say, in the order they come: of the payload
    and headers schemas, the description and the media type it keeps the first that any side gave,
    of the titles the first that is not the component's own name, and it exists exactly when a side
    names it. *)
Theorem components_keep_the_first_word described handlers m :
  messages (doc (build_spec described handlers)) !! m =
  match named m (flat_map contributions handlers) with [] => None | cs => Some (component cs) end.
Proof.
  rewrite <- merged_components. unfold build_spec. destruct (build_servers described) as [servers schemes]. cbn [doc].
  assert (H : forall d, messages (foldl (add_handler servers) d handlers) = foldl merge_message (messages d) (flat_map contributions handlers)).
  { induction handlers as [|h l IH]; intros d; cbn [foldl flat_map]; [done|]. by rewrite IH, handler_messages, foldl_app. }
  by rewrite H.
Qed.

(** The root media type stands exactly while every message names it. *)
Lemma agree_spec agreed ms ct : agree agreed ms = Some ct <->
  (Forall (fun m => msg_content_type m = Some ct) ms /\ match agreed with Some a => a = ct | None => ms <> [] end).
Proof.
  revert agreed. induction ms as [|m ms IH]; intros agreed; cbn [agree].
  - destruct agreed as [a|]; split; [by intros [= <-]|by intros [_ ->]|done|by intros []].
  - rewrite Forall_cons. destruct (msg_content_type m) as [c|]; [|by split; [|intros [[? _] _]]].
    destruct agreed as [a|]; [destruct (String.eqb_spec a c) as [<-|Hne]|]; rewrite ?IH; naive_solver.
Qed.

Lemma agreed_content_type_spec ms ct : agreed_content_type ms = Some ct <->
  (ms <> ∅ /\ forall m obj, ms !! m = Some obj -> msg_content_type obj = Some ct).
Proof.
  unfold agreed_content_type. rewrite agree_spec, Forall_fmap, Forall_forall. split; intros [H1 H2].
  - split; [|intros m obj Hm; by apply (H1 (m, obj)), elem_of_map_to_list]. intros ->. by rewrite map_to_list_empty in H2.
  - split; [intros [m obj] Hm; by apply (H2 m), elem_of_map_to_list|].
    intros H. by apply fmap_nil_inv, map_to_list_empty_iff in H.
Qed.

(** A model that only needs a schema derived is listed, and only such. *)
Lemma messages_without_schema_spec s m : m ∈ messages_without_schema s <->
  exists obj, messages (doc s) !! m = Some obj /\ payload obj = None /\ schemaless obj = false /\ m <> "bytes".
Proof.
  unfold messages_without_schema, in_key_order. rewrite list_elem_of_fmap. setoid_rewrite list_elem_of_In.
  setoid_rewrite List.filter_In. setoid_rewrite <- list_elem_of_In. setoid_rewrite merge_sort_Permutation. split.
  - intros ([k obj] & -> & Hin & Hf). apply elem_of_map_to_list in Hin. cbn in *. exists obj.
    destruct (payload obj); [done|]. apply andb_true_iff in Hf as [H1 H2]. apply negb_true_iff in H1, H2.
    apply String.eqb_neq in H2. done.
  - intros (obj & Hl & Hp & Hs & Hb). exists (m, obj). split; [done|]. split; [by apply elem_of_map_to_list|]. cbn.
    rewrite Hp, Hs. cbn. apply negb_true_iff. by apply String.eqb_neq.
Qed.

(** ** What names do to a document *)

(** A reference is written from the name as it is, and a pointer gives [/] a meaning: the channel of
    a topic of several levels is in the document, and what refers to it points at nothing. *)
Lemma slash_name_dangles d a b : plain a = true -> plain b = true ->
  resolve d (channel_ref (a ++ "/" ++ b)) = None.
Proof.
  intros Ha Hb. unfold resolve. change (channel_ref (a ++ "/" ++ b)) with ("#/" ++ "channels" ++ "/" ++ a ++ "/" ++ b).
  by rewrite (tokens_three "channels" a b).
Qed.

(** The security schemes of a document share one map under keys made of the server's name and an
    index: the second scheme of a server [a] and the first of a server [a-1] are one entry, and the
    first server then refers to the scheme of the other. *)
Lemma scheme_keys_collide spec1 spec2 v1 v2 v3 : security spec1 = [v1; v2] -> security spec2 = [v3] ->
  let '(servers, schemes) := build_servers [("a", spec1); ("a-1", spec2)] in
  s_security <$> servers.*2 = [[scheme_ref "a"; scheme_ref "a-1"]; [scheme_ref "a-1"]] /\ schemes !! "a-1" = Some v3.
Proof.
  intros H1 H2. unfold build_servers, add_server. cbn [foldl]. rewrite H1, H2. split; [reflexivity|].
  cbn [enumerate imap foldl fst snd]. apply lookup_insert_eq.
Qed.

(** A channel two registrations share keeps the servers of the first, whatever broker the second
    was registered on. *)
Lemma shared_channel_keeps_first_servers h reply on tags d ch : channels d !! name h = Some ch ->
  exists ch', channels (add_receive h reply on tags d) !! name h = Some ch' /\ ch_servers ch' = ch_servers ch.
Proof.
  intros Hl. unfold add_receive. rewrite Hl. cbn [default].
  assert (H : forall cs c0 ms, ch_servers (add_received cs c0 ms).1 = ch_servers c0).
  { induction cs as [|c cs IH]; intros c0 ms; cbn [add_received]; [done|]. by rewrite IH. }
  specialize (H (received h) (mk_channel (Some (name h)) (ch_messages ch) (ch_parameters ch) (ch_servers ch)
    (fill_from (ch_bindings ch) (channel_b (bindings h)))) (messages d)).
  destruct (add_received _ _ _) as [c0 ms0]. cbn [channels fst] in *. exists c0. split; [apply lookup_insert_eq|exact H].
Qed.

End document.

(** The name of a generic type is cut inside its arguments. *)
Lemma generic_name_is_cut : message_name "a::Envelope<b::Order>" = "Order>" /\ message_name "a::b::Order" = "Order".
Proof. split; reflexivity. Qed.

(** ** Witnesses *)

(** A service on one server: [orders] answers on [replies] and publishes to [audit]. *)
Definition none_b : LevelBindings := mk_bindings ∅ ∅ ∅.
Definition out (channel type : string) (k : OutgoingKind) : OutgoingMessageMetadata :=
  mk_outgoing channel type None None None None [] false k (Some "application/json") None None none_b.
Definition orders : HandlerMetadata :=
  mk_handler "orders" "shop::Order" None None None None None [out "replies" "shop::Receipt" Answer; out "audit" "shop::Order" SlotEntry]
    [] false None (Some "application/json") (Outcome.mk_declaration None None) none_b.
Definition memory_server : string * ServerSpec := ("main", mk_server_spec None "memory" None None [VNull; VNull] ∅).
Definition no_json (s : string) : option Value := None.
Definition no_table (s : string) : bool := false.

Lemma document_references_resolve_witness :
  let s := build_spec no_json no_table [memory_server] [orders] in
  Forall (fun h => plain_handler no_json h = true) [orders] /\ refers s AScheme (scheme_ref "main-1") /\
  resolve s (scheme_ref "main-1") = Some AScheme.
Proof.
  cbv zeta.
  assert (Hr : refers (build_spec no_json no_table [memory_server] [orders]) AScheme (scheme_ref "main-1")).
  { apply (refers_scheme _ "main" (mk_server None "memory" None None [scheme_ref "main"; scheme_ref "main-1"] ∅)).
    - left.
    - right. left. }
  split; [repeat constructor|]. split; [exact Hr|].
  apply (document_references_resolve no_json no_table [memory_server] [orders]); [repeat constructor|repeat constructor|exact Hr].
Defined.

Lemma every_registration_is_documented_witness :
  let s := build_spec no_json no_table [memory_server] [orders; orders] in
  written (operations (doc s)) ≡ₚ flat_map (ops_of no_json (spec_servers s)) [orders; orders] /\
  length (flat_map (ops_of no_json (spec_servers s)) [orders; orders]) = 4.
Proof.
  split; [|reflexivity]. apply (every_registration_is_documented no_json no_table [memory_server] [orders; orders]).
  reflexivity.
Defined.
End AsyncApi.
